(* ===== verification/_CoqProject ===== *)
-Q . S2P
Prelude.v
Errors.v
SortedMap.v
Serde.v
SerdeRegistry.v
RotatingMap.v
CallbackStore.v
RequestTable.v
GrpcSource.v
GrpcUnary.v
GrpcSink.v
HttpSource.v
KafkaSource.v
PendingQueue.v
QueuedPool.v
Context.v
DelayPool.v
JoinStore.v
Config.v
ConfigLoader.v
Environment.v
Metrics.v
Graph.v
Operators.v
Transforms.v
Dataflow.v
Joins.v
SubStream.v
Requests.v
Cron.v
CronEndpoint.v
Checkpoint.v
LocalSource.v
Lifecycle.v
ServiceHttp.v
KafkaConnector.v
GrpcConnector.v
Telemetry.v
GrpcCalls.v
KafkaLanes.v
SinkCalls.v
KafkaSink.v
HttpSink.v
HttpConnector.v
SourceEndpoints.v
Codec.v
ApiTypes.v
StatusPage.v
Series.v
Propagation.v
Observability.v
