(* ===== verification/Prelude.v ===== *)
(** A verification library for the Rust service runtime in [src/src].

    The program is a runtime for stream-processing services.  A service is a
    graph of streams; operators consume messages from one stream and emit on
    others; the links between them call the next operator directly, in a
    parallel task or through a task pool; sources and sinks connect the graph
    to Kafka, gRPC, HTTP, schedules and local code.  The library translates
    the parts that carry the runtime's logic and proves what they promise.

    Conventions.  A fallible function returns [outcome E A]: a value, an error
    value or a panic, so that a theorem about errors also speaks about panics.
    Shared mutable objects are explicit state; concurrent code is a step
    relation whose steps are the atomic sections of the source (a lock held,
    a message received, one atomic store), and theorems hold for every
    interleaving.  Machine integers are [Z] with their wrap-around written
    out; durations and instants are [Z] (nanoseconds or milliseconds); floats
    are bit patterns or values of the standard library's [SpecFloat].  Third-party code
    (tokio's channels and timers apart, whose documented behaviour is the
    step relation itself) is a parameter: hash functions, serde_json and
    serde_yaml conversions, the OpenTelemetry SDK, librdkafka, the croner
    library's calendar search, the text of a float, user functions.

    Files, in dependency order:
    - [Prelude]: outcomes and the [?] loop [fold_res], machine integers, byte
      strings and characters, maps built by insertion, [gather] (the tasks
      held by a map of workers), [tally] (counting in a map), and the
      refinement interface [Refines]/[run_refines], proved once and
      instantiated by every data structure below.
    - [Errors]: the runtime's error values.
    - [SortedMap]: the standard library's BTreeMap over an ordered key, with
      the order as a class ([Ord], [TotalOrd]) and its laws.
    - [Serde]: runtime/serde/serdeimpl.rs.  The interface [LawfulSerde] states
      that decoding inverts encoding under the size limits, [TotalDecoder]
      that decoding never panics; each serializer discharges them, containers
      from the interfaces of their elements.
    - [SerdeRegistry]: runtime/serde/registry.rs and make_serde: type-erased
      serializers per service and type, with the two-phase lookup.
    - [RotatingMap]: runtime/store/rotatingmap.rs, the sharded map with two
      generations, refined to a plain map.
    - [CallbackStore]: datasource/grpc/callback_store.rs, refined to a map.
    - [RequestTable]: what the gRPC, HTTP and Kafka sources share: requests in
      a pending map and the results that hold their lifetime locks, as an
      interface ([RequestView], [ResultView]) with an invariant ([table_inv]).
    - [GrpcSource]: datasource/grpc/mod.rs with the four call kinds
      (nostreaming.rs, clientstreaming.rs, serverstreaming.rs,
      bidistreaming.rs): requests, their owner and its drop, results, metrics.
    - [GrpcUnary]: the notification protocol of UnarySender (nostreaming.rs).
    - [GrpcSink]: datasink/grpc/clientstreaming.rs and bidistreaming.rs: the
      sessions that messages of one stream identifier share.
    - [HttpSource]: the requests and results of datasource/http/axum.rs and the
      task tracker that a stop drains.
    - [KafkaSource]: message handling, the concurrency gate and the results of
      datasource/kafka/rdkafka.rs.
    - [PendingQueue]: the FIFO (linked list in a hash map) and priority (tree
      with an index) wait queues of runtime/pool/queuedpool.rs, refined to
      lists; [holds] is the bag interface the pool uses.
    - [QueuedPool]: the actor loop of runtime/pool/queuedpool.rs ([iterate]),
      its executors and cancellation watchers as [pool_step], and the client
      operations.  [spawn_workers] recurses on fuel: the number of missing
      executors, which each turn lowers by one.
    - [Context]: MessageContext and CompleteOnDrop of runtime/common.rs.
    - [DelayPool]: runtime/pool/delaypool.rs as [delay_step].
    - [JoinStore]: runtime/store/hashmap.rs as [join_step]: joining calls and
      expiry timers with the two locks they take.
    - [Config]: the configuration records of runtime/config/mod.rs and the
      indexed snapshot of runtime/config/runtime.rs.
    - [ConfigLoader]: runtime/config/loader.rs: YAML layering, loading,
      the watcher, and reloads whose accesses interleave ([loader_step]).
    - [Environment]: the registries of runtime/environment/mod.rs and the
      parallel task registry with its drain loop ([parallel_step]).
    - [Metrics]: runtime/environment/metrics.rs: scopes, instruments shared by
      their handles, registration by family, the two writes of a gauge with a
      meter ([gauge_fetch_add], [gauge_export]) and the text exposition.
    - [Graph]: runtime/stream.rs and runtime/collector.rs: streams in a store,
      links, and the effects of emitting a message.
    - [Operators]: operators/split.rs and operators/case.rs on that graph,
      with the shared payload of runtime/common.rs.
    - [Transforms]: the other operators of operators/ (map, filter, flat map,
      key by, merge, link, process, delay, input, sink) and the construction
      of split and case: a program is a graph with a store of operators, built
      by [fluent_step]; [consume] is what each operator does with a message.
    - [Dataflow]: messages running through a program: threads of actions
      ([run_step]) and the meaning of a program ([reach]), computed by
      recursion on fuel, the number of streams created after the starting
      one, which bounds every path since outputs are created after sources.
      Joins and sub-streams are not operators of such a program.
    - [Joins]: operators/join.rs and operators/multijoin.rs on [JoinStore]:
      [operator_step] are the storage's steps with typed inputs and with
      callbacks that answer what the operator's function does.
    - [SubStream]: operators/substream.rs: a callable sub-stream, its result
      source, and one call with its caller and its deliveries as [call_step];
      [turn] are the steps the call itself takes.
    - [Requests]: runtime/datasource.rs: the sharded pending requests, the
      endpoint metrics on [Metrics], the tracing policy and the result router.
    - [Cron]: runtime/schedule.rs and the schedules of
      datasource/cron/croner.rs: triggers, the interval grammar, occurrences
      and the scheduler loop with its tasks ([scheduler_step]).  The calendar
      loop [due_loop] recurses on fuel: the number of occurrences up to now,
      at most the elapsed milliseconds since occurrences increase.
    - [CronEndpoint]: the endpoint of datasource/cron/croner.rs: activations,
      their pending results and the result consumer as [cron_step].
    - [Checkpoint]: datasource/kafka/checkpoint.rs: partition assignments,
      the acknowledgement fence and offset restoration.
    - [LocalSource]: datasource/localsource/custom.rs: the concurrency gate,
      pending requests and their results as [source_step].
    - [Lifecycle]: runtime/serviceapp.rs: construction and configured pools,
      registration, the stages of a start, and the resumable shutdown whose
      progress several stop calls share ([step]).
    - [ServiceHttp]: the monitoring router of runtime/serviceapp.rs and the
      method names it prepares for HTTP and gRPC metrics.
    - [KafkaConnector]: the connector and endpoints of
      datasource/kafka/rdkafka.rs: settings, topics, start with its rollback,
      stop, and futures dropped in between.
    - [GrpcConnector]: datasource/grpc/tonic.rs, datasink/grpc/tonic.rs and the
      metrics both register.
    - [Telemetry]: the HTTP and gRPC metrics of runtime/telemetry/mod.rs.
    - [GrpcCalls]: the unary and server-streaming calls of datasink/grpc.
    - [KafkaLanes]: the consumer task of a Kafka endpoint: messages routed to
      lanes while [Checkpoint]'s assignments change ([task_step]).
    - [SinkCalls]: the endpoints of datasink/localsink/custom.rs and
      datasink/kafka/rdkafka.rs, and what one message makes them do.
    - [KafkaSink]: the connector of datasink/kafka/rdkafka.rs, whose starts,
      stops and messages interleave without a lock ([sink_step]).
    - [HttpSink]: datasink/http/reqwest.rs: the response body, and one message
      with its client call.  [read_to_end] recurses on fuel: the chunks, the
      bytes and the pending polls of the body ([polls]) are enough.
    - [HttpConnector]: the connector of datasource/http/axum.rs over starts and
      stops ([source_step]).
    - [SourceEndpoints]: the construction of HTTP, Kafka and local source
      endpoints in the environment.
    - [Codec]: what serde derives, on its data model: an interface of codecs
      ([Codec], [LawfulCodec]) and structs built from it field by field.
    - [ApiTypes]: the types of api/serviceapi.rs with their codecs.
    - [StatusPage]: runtime/statusweb.rs: the live graph as nodes and edges.
    - [Series]: the metrics every part of the runtime registers, against one
      catalogue of families, and telemetry/librdkafka_statistics.rs.
    - [Propagation]: stream identifiers, the contexts of requests and how they
      cross HTTP, Kafka and gRPC (runtime/common.rs and the sources).
    - [Observability]: telemetry/opentelemetry.rs and the engines of an
      environment.

    What the theorems show.
    - Pools: no reachable state of the actor panics, accepted tasks are
      exactly the queued, running and finished ones, stopping always drains
      (C1, C2); both wait queues behave as lists (C9,
      C10); delayed calls are not early, tell why they run
      ([delay_flag_truthful]), and are all finished by a stop ([delay_stop_complete]).
    - Joins: a group is closed once and no value is lost (C3,
      C4); a race of two lifetimes can panic ([join_mixed_ttl_panics]).
    - Graph: messages are handed over once, by the resolved call semantics, to
      the consumer set once, and one that a pool refuses is reported
      (C5, [call_semantics_resolved], [consumer_set_once]); routing by split and case ([split_delivers],
      [when_index_unique]); the live graph's links ([graph_links_last_wins]);
      draining parallel calls ([drain_parallel_complete]); a sub-stream call delivers until one
      result is accepted, and returns (C30, [sub_stream_returns]).
    - Dataflow: messages are conserved and processed in finitely many actions
      however links schedule them, and arrive exactly where the operators
      say when nothing can refuse them (C28, C29); a panic
      in a thread of the runtime ends the process ([case_panic_exits]); a cycle
      that always emits runs forever ([cycle_runs_forever]).  Joins call their
      function on well-typed groups and keep inputs apart ([join_function_called], [multi_join_inputs_apart]).
    - Service: start and stop order, completion and failures of a shutdown
      (C11, C12, [shutdown_failure_sticky], [start_downstream_first]), pools of the links ([configured_pools_resolve]),
      the monitoring routes ([service_router_spec]).
    - Schedules: catching up by division equals stepping (C33), each
      occurrence fires once ([schedule_fires_once]), grammar and identities ([interval_grammar],
      [trigger_identity_injective]), results of activations ([activation_answered]); an
      exhausted schedule stops the others ([exhausted_schedule_ends_all]).
    - Metrics: families stay consistent ([metric_families_consistent]), exported gauges agree
      ([gauge_export_agrees]), the exposition ([render_groups_families], [histogram_counts_le],
      [sample_roundtrip]); endpoint accounting and the age of pending requests on
      top of it ([endpoint_accounting], [oldest_age_is_oldest]); the parts of a
      service never register conflicting families (C37, [queued_pool_target]);
      librdkafka's statistics are exported exactly (C38), in gauges that
      clients of a role share ([kafka_clients_share_gauges]).
    - API and status page: descriptions are read as they were written,
      and strictly (C35, [api_strict]); the
      page shows exactly the live graph ([status_edges_exact], [status_nodes_exact],
      [svg_data_uri_roundtrip], [percent_not_encoded]).
    - Result routing: results reach the open request they name ([results_reach_their_request]).
    - Kafka: acknowledgements are fenced by rebalances, assignments start at
      checkpointed offsets in recovery mode, and any failing rebalance closes
      the consumer (C6, C7); callbacks run before the
      end of their message, which ends once, and the gate bounds the messages
      handled at once (C19, [kafka_end_request_once], [kafka_metrics_agree],
      C20); it can lose a wakeup ([wakeup_lost]); no task is orphaned and a
      stop completes (C21, C22, [kafka_topics_exact]); each lane,
      one per assignment of a partition, keeps the order of its messages, is
      fenced by that assignment up to one message, and the task waits only for
      handlers (C23 to C25, [transport_metadata_allowed]); a revocation
      at the wrong moment ends the task ([revocation_ends_consumer]).  Sink: every message is answered and a
      stop seals it (C26, C27, [kafka_sink_ready], [producer_settings_agree]), but
      not against a start under way ([start_outlives_stop], [second_stop_skips_drain],
      [failed_metadata_blocks_start]); [kafka_sink_served], [local_sink_served] for one message.
    - gRPC sources: callbacks run before the end, requests end exactly once,
      finishing terminates, unary answers and their wake-up, metrics
      (C13 to C15, [grpc_unary_answer], C34, [grpc_metrics_agree]).  Sinks: sessions are shared and
      exclusive (C16, [grpc_session_unique], [grpc_drain_progress], [grpc_sink_metrics_agree]),
      calls run in order ([server_streaming_order], [unary_call_order]).  Connectors:
      [channels_round_robin], [stopped_connector_refuses], [reload_outlives_stop].
    - HTTP source: [http_callback_before_end], C17,
      [http_metrics_agree] and the drain of a stop ([http_stop_drains]), with the request
      that slips behind it ([request_after_drain]); the connector has one server
      and a stop ends it (C18, [http_stop_complete], [http_add_endpoint]) unless its context does
      ([cancelled_stop_reports_success], [failed_start_stays_started]).  Sink: [response_body_bytes],
      [response_body_closed], [http_sink_order].  Endpoints: [endpoint_wired], [refused_endpoint_takes_results].
    - Telemetry: a call is reported once ([grpc_call_reported_once]), under a registered name
      ([grpc_status_named], [http_outcome_registered]).
    - Serializers: round trips (C8, [map_roundtrip], [primitive_roundtrip]), totality
      of decoders ([decoders_total]) and the ones that can panic
      ([unbounded_count_panics]), order of encodings
      ([signed_order_preserving]), one serializer per type ([registry_one_serializer],
      [make_serde_total]).
    - Stores: rotating map and callback table (C31, [rotate_shard_policy],
      [callback_store_is_map]).
    - Configuration: layering (C36), acceptance and snapshot
      ([from_parts_accepts], [from_parts_snapshot]); reloads, alone ([reload_outcome],
      [reload_turns_alone]) and as they interleave (C32, [concurrent_reloads_mix_snapshots]).
    - Contexts: cancellation, transport, trace header, drop-safe operations
      ([cancellation_inherited], [transport_roundtrip], [traceparent_grammar], [complete_on_drop_once]);
      unique stream identifiers (C39); a gRPC hop keeps identity, sampling (where
      tracing is on) and deadline (C40, [tonic_fast_path_agrees]); middleware, endpoints and operators
      agree on sampling ([tracing_parent_agrees], [spans_need_sampling], [request_identified]).
    - Engines: installation and shutdown ([install_outcome], [engines_flushed]).
    - Local source: the gate's bound ([gate_limits_requests]), results are served only before
      their request ends ([result_callback_before_end]); it can lose a wakeup ([gate_loses_wakeup]).

    Not modelled: the transports themselves (HTTP, gRPC and Kafka clients and
    servers), the OpenTelemetry SDK, what spans record, sampling of tokio's
    runtime metrics, log lines, and the accessors and trait implementations that
    only forward a call: they call third-party code or hold no logic of their
    own. *)

From stdpp Require Export base gmap list strings numbers sorting relations.
From Stdlib Require Export ZArith Lia.
From Stdlib Require Import Strings.Byte.
From Stdlib Require Strings.String.

(** * Outcomes of Rust functions

    A Rust function returning [Result<A, E>] ends in one of three ways: a
    value, an error value, or a panic (unwinding).  The third outcome is kept
    apart, so a theorem about error results also excludes panics. *)
Inductive outcome (E A : Type) : Type :=
| Ok (a : A)
| Err (e : E)
| Panic.
Arguments Ok {E A} a.
Arguments Err {E A} e.
Arguments Panic {E A}.

#[export] Instance outcome_ret {E} : MRet (outcome E) := λ A a, Ok a.
#[export] Instance outcome_bind {E} : MBind (outcome E) := λ A B f m,
  match m with Ok a => f a | Err e => Err e | Panic => Panic end.
#[export] Instance outcome_fmap {E} : FMap (outcome E) := λ A B f m,
  match m with Ok a => Ok (f a) | Err e => Err e | Panic => Panic end.
#[export] Instance outcome_eq_dec {E A} `{EqDecision E, EqDecision A} :
  EqDecision (outcome E A).
Proof. solve_decision. Defined.

(** [Option::ok_or] and [Result::map_err]. *)
Definition ok_or {E A} (o : option A) (e : E) : outcome E A :=
  match o with Some a => Ok a | None => Err e end.
Definition map_err {E F A} (f : E → F) (m : outcome E A) : outcome F A :=
  match m with Ok a => Ok a | Err e => Err (f e) | Panic => Panic end.

(** A [for] loop with an accumulator and the [?] operator in its body. *)
Fixpoint fold_res {E A B} (f : B → A → outcome E B) (b : B) (l : list A) : outcome E B :=
  match l with
  | [] => Ok b
  | a :: l => b ← f b a; fold_res f b l
  end.

#[export] Instance Ok_inj {E A} : Inj (=) (=) (@Ok E A).
Proof. by intros a b [= ->]. Qed.
Lemma bind_Ok {E A B} (m : outcome E A) (f : A → outcome E B) b :
  (x ← m; f x) = Ok b ↔ ∃ a, m = Ok a ∧ f a = Ok b.
Proof. destruct m; cbn; naive_solver. Qed.
Lemma bind_Err {E A B} (m : outcome E A) (f : A → outcome E B) e :
  (x ← m; f x) = Err e ↔ m = Err e ∨ ∃ a, m = Ok a ∧ f a = Err e.
Proof. destruct m; cbn; naive_solver. Qed.
Lemma bind_Panic {E A B} (m : outcome E A) (f : A → outcome E B) :
  (x ← m; f x) = Panic ↔ m = Panic ∨ ∃ a, m = Ok a ∧ f a = Panic.
Proof. destruct m; cbn; naive_solver. Qed.
Lemma bind_bind {E A B C} (m : outcome E A) (f : A → outcome E B) (g : B → outcome E C) :
  (a ← m; b ← f a; g b) = (b ← (a ← m; f a); g b).
Proof. by destruct m. Qed.
Lemma ok_or_Ok {E A} (o : option A) (e : E) a : ok_or o e = Ok a ↔ o = Some a.
Proof. destruct o; cbn; naive_solver. Qed.

Section fold_res.
Context {E A B : Type} (g : B → A → outcome E B).

Lemma fold_res_app b l1 l2 :
  fold_res g b (l1 ++ l2) = (b' ← fold_res g b l1; fold_res g b' l2).
Proof.
  revert b; induction l1 as [|a l1 IH]; intros b; cbn; [done|].
  destruct (g b a); cbn; auto.
Qed.

(** Loop rule: an invariant preserved by every successful iteration. *)
Lemma fold_res_ind (P : list A → B → Prop) b0 l b :
  P [] b0 →
  (∀ done a b1 b2, done ++ [a] `prefix_of` l → P done b1 → g b1 a = Ok b2 →
    P (done ++ [a]) b2) →
  fold_res g b0 l = Ok b → P l b.
Proof.
  intros H0 Hs. assert (Hgen : ∀ l' pre b1, pre ++ l' = l → P pre b1 →
    fold_res g b1 l' = Ok b → P l b); [|by apply (Hgen l [])].
  induction l' as [|a l' IH]; intros pre b1 Hl HP; cbn.
  - intros [= <-]. by rewrite <-Hl, app_nil_r.
  - intros (b2 & Hg & Hf)%bind_Ok. eapply (IH (pre ++ [a])); [| |exact Hf].
    + by rewrite <-app_assoc.
    + eapply Hs; eauto. exists l'. by rewrite <-Hl, <-app_assoc.
Qed.

(** A loop whose body accepts an element exactly when [ok] holds of it and
    the elements before it. *)
Fixpoint all_ok (ok : list A → A → Prop) (pre l : list A) : Prop :=
  match l with
  | [] => True
  | a :: l => ok pre a ∧ all_ok ok (pre ++ [a]) l
  end.

Lemma fold_res_spec (P : list A → B → Prop) (ok : list A → A → Prop) :
  (∀ pre a b, P pre b →
    (ok pre a ∧ ∃ b', g b a = Ok b' ∧ P (pre ++ [a]) b') ∨ (~ ok pre a ∧ ∃ e, g b a = Err e)) →
  ∀ l pre b, P pre b →
    (all_ok ok pre l ∧ ∃ b', fold_res g b l = Ok b' ∧ P (pre ++ l) b') ∨
    (~ all_ok ok pre l ∧ ∃ e, fold_res g b l = Err e).
Proof.
  intros Hstep. induction l as [|a l IH]; intros pre b HP; cbn.
  - left. split; [done|]. exists b. by rewrite app_nil_r.
  - destruct (Hstep pre a b HP) as [(Hok & b' & Hg & HP')|(Hno & e & Hg)]; rewrite Hg; cbn.
    + destruct (IH (pre ++ [a]) b' HP') as [(Hall & b2 & Hf & HP2)|(Hall & e & Hf)].
      * left. split; [done|]. exists b2. by rewrite <-app_assoc in HP2.
      * right. split; [tauto|eauto].
    + right. split; [tauto|eauto].
Qed.
Lemma all_ok_impl (ok ok' : list A → A → Prop) pre l :
  (∀ pre a, ok pre a → ok' pre a) → all_ok ok pre l → all_ok ok' pre l.
Proof. intros Hi. revert pre; induction l; intros pre; cbn; naive_solver. Qed.
Lemma all_ok_and (ok ok' : list A → A → Prop) pre l :
  all_ok (λ pre a, ok pre a ∧ ok' pre a) pre l ↔ all_ok ok pre l ∧ all_ok ok' pre l.
Proof. revert pre; induction l as [|a l IH]; intros pre; cbn; [done|]. rewrite IH. tauto. Qed.
Lemma all_ok_Forall (Q : A → Prop) pre l : all_ok (λ _ a, Q a) pre l ↔ Forall Q l.
Proof.
  revert pre; induction l as [|a l IH]; intros pre; cbn; [by rewrite Forall_nil|].
  by rewrite IH, Forall_cons.
Qed.
Lemma all_ok_NoDup {K} (f : A → K) pre l :
  NoDup (f <$> pre) → all_ok (λ pre a, f a ∉ f <$> pre) pre l ↔ NoDup (f <$> (pre ++ l)).
Proof.
  revert pre; induction l as [|a l IH]; intros pre Hnd; cbn; [by rewrite app_nil_r|].
  assert (Hiff : f a ∉ f <$> pre ↔ NoDup (f <$> (pre ++ [a]))).
  { rewrite fmap_app, NoDup_app; cbn. split.
    - intros Hn. split_and!; [done| |apply NoDup_singleton]. intros x Hx ->%list_elem_of_singleton.
      done.
    - intros (_ & Hd & _) Hin. apply (Hd _ Hin). by left. }
  rewrite (app_assoc pre [a] l : pre ++ a :: l = _). split.
  - intros [Hn Hall]. by apply IH; [apply Hiff|].
  - intros Hall. assert (NoDup (f <$> (pre ++ [a]))) as Hp.
    { rewrite fmap_app in Hall. by apply NoDup_app in Hall as (? & _ & _). }
    split; [by apply Hiff|by apply IH].
Qed.
End fold_res.

(** Inversion of a successful or failed chain of [?] operators. *)
Ltac outcome_inv :=
  repeat match goal with
  | H : (_ ≫= _) = Ok _ |- _ => apply bind_Ok in H as (? & ? & ?)
  | H : ok_or _ _ = Ok _ |- _ => apply ok_or_Ok in H
  | H : Ok _ = Ok _ |- _ => injection H as H
  | H : Err _ = Ok _ |- _ => discriminate H
  | H : Panic = Ok _ |- _ => discriminate H
  | H : mret _ = Ok _ |- _ => injection H as H
  end; subst.

(** * Machine integers

    A [w]-bit integer is a [Z] together with its range; the wrap-around,
    checked and saturating operations of the Rust primitive types are written
    out.  [usize] is 64 bits wide (the targets the crate is built for). *)
Definition usize_max : Z := 2 ^ 64 - 1.
Definition isize_max : Z := 2 ^ 63 - 1.
Definition u64_max : Z := 2 ^ 64 - 1.
Definition i64_max : Z := 2 ^ 63 - 1.
Definition i64_min : Z := - 2 ^ 63.
Definition i32_max : Z := 2 ^ 31 - 1.
Definition i32_min : Z := - 2 ^ 31.

Definition in_u (w z : Z) : Prop := (0 ≤ z < 2 ^ w)%Z.
Definition in_s (w z : Z) : Prop := (- 2 ^ (w - 1) ≤ z < 2 ^ (w - 1))%Z.
#[export] Instance in_u_dec w z : Decision (in_u w z).
Proof. unfold in_u; apply _. Defined.
#[export] Instance in_s_dec w z : Decision (in_s w z).
Proof. unfold in_s; apply _. Defined.

(** [as u<w>] and [as i<w>] casts. *)
Definition wrap_u (w z : Z) : Z := (z mod 2 ^ w)%Z.
Definition wrap_s (w z : Z) : Z := ((z + 2 ^ (w - 1)) mod 2 ^ w - 2 ^ (w - 1))%Z.

Definition checked_add (max a b : Z) : option Z :=
  if decide (a + b ≤ max)%Z then Some (a + b)%Z else None.
Definition checked_mul (max a b : Z) : option Z :=
  if decide (a * b ≤ max)%Z then Some (a * b)%Z else None.
Definition saturating_mul (max a b : Z) : Z := Z.min max (a * b).
Definition saturating_sub (a b : Z) : Z := Z.max 0 (a - b).
Definition saturating_add_i64 (a b : Z) : Z := Z.max i64_min (Z.min i64_max (a + b)).

Lemma wrap_u_id w z : in_u w z → wrap_u w z = z.
Proof. intros [??]. by apply Z.mod_small. Qed.
Lemma wrap_u_range w z : (0 ≤ w)%Z → in_u w (wrap_u w z).
Proof. intros. apply Z.mod_pos_bound. by apply Z.pow_pos_nonneg. Qed.
Lemma pow2_half w : (0 < w)%Z → (2 ^ w = 2 * 2 ^ (w - 1))%Z.
Proof.
  intros. rewrite <-Z.pow_succ_r by lia. f_equal; lia.
Qed.
Lemma wrap_s_id w z : (0 < w)%Z → in_s w z → wrap_s w z = z.
Proof.
  intros Hw [??]. unfold wrap_s. rewrite Z.mod_small; [lia|].
  rewrite (pow2_half w) by done. lia.
Qed.

(** ** Bytes *)
Notation byte := Byte.byte.
Definition byte_to_Z (b : byte) : Z := Z.of_N (Byte.to_N b).
Definition Z_to_byte (z : Z) : byte :=
  match Byte.of_N (Z.to_N (z mod 256)) with Some b => b | None => Byte.x00 end.
#[export] Instance byte_eq_dec : EqDecision byte := Byte.byte_eq_dec.

Lemma byte_to_Z_range b : (0 ≤ byte_to_Z b < 256)%Z.
Proof. unfold byte_to_Z. pose proof (Byte.to_N_bounded b). lia. Qed.
Lemma byte_to_Z_to_byte z : byte_to_Z (Z_to_byte z) = (z mod 256)%Z.
Proof.
  unfold Z_to_byte, byte_to_Z.
  pose proof (Z.mod_pos_bound z 256 ltac:(lia)).
  destruct (Byte.of_N _) as [b|] eqn:Hb.
  - apply Byte.to_of_N in Hb. rewrite Hb. lia.
  - apply Byte.of_N_None_iff in Hb. lia.
Qed.
#[export] Instance byte_to_Z_inj : Inj (=) (=) byte_to_Z.
Proof.
  intros b1 b2 H. apply (inj Some). rewrite <-!Byte.of_to_N.
  unfold byte_to_Z in H. f_equal. lia.
Qed.
Lemma Z_to_byte_to_Z b : Z_to_byte (byte_to_Z b) = b.
Proof.
  apply (inj byte_to_Z). rewrite byte_to_Z_to_byte.
  apply Z.mod_small, byte_to_Z_range.
Qed.

(** ** Big-endian codes: [to_be_bytes] and [from_be_bytes] *)
Fixpoint to_be (n : nat) (z : Z) : list byte :=
  match n with
  | O => []
  | S n => Z_to_byte (Z.shiftr z (8 * Z.of_nat n)) :: to_be n z
  end.
Fixpoint from_be (bs : list byte) : Z :=
  match bs with
  | [] => 0
  | b :: bs => Z.shiftl (byte_to_Z b) (8 * Z.of_nat (length bs)) + from_be bs
  end.

Lemma length_to_be n z : length (to_be n z) = n.
Proof. induction n; cbn; auto. Qed.

Lemma from_be_range bs : (0 ≤ from_be bs < 2 ^ (8 * Z.of_nat (length bs)))%Z.
Proof.
  induction bs as [|b bs IH]; [done|]. cbn [from_be length].
  pose proof (byte_to_Z_range b). rewrite Z.shiftl_mul_pow2 by lia.
  replace (8 * Z.of_nat (S (length bs)))%Z with (8 * Z.of_nat (length bs) + 8)%Z by lia.
  rewrite Z.pow_add_r by lia. change (2 ^ 8)%Z with 256%Z. nia.
Qed.

Lemma from_be_to_be n z : from_be (to_be n z) = wrap_u (8 * Z.of_nat n) z.
Proof.
  unfold wrap_u. induction n as [|n IH]; [by rewrite Z.mod_1_r|].
  cbn [to_be from_be].
  rewrite IH, length_to_be, byte_to_Z_to_byte, Z.shiftl_mul_pow2, Z.shiftr_div_pow2 by lia.
  replace (8 * Z.of_nat (S n))%Z with (8 * Z.of_nat n + 8)%Z by lia.
  rewrite (Z.pow_add_r 2) by lia. change (2 ^ 8)%Z with 256%Z.
  rewrite Z.rem_mul_r by lia. lia.
Qed.

Lemma to_be_from_be bs : to_be (length bs) (from_be bs) = bs.
Proof.
  assert (Hlow : ∀ n a z, to_be n (Z.shiftl a (8 * Z.of_nat n) + z) = to_be n z).
  { intros n. assert (∀ m a z, (m ≤ n)%nat →
      to_be m (Z.shiftl a (8 * Z.of_nat n) + z) = to_be m z) as Hm; [|by intros; apply Hm].
    induction m as [|m IH]; intros a z Hmn; [done|]. cbn [to_be]. f_equal; [|apply IH; lia].
    apply (inj byte_to_Z). rewrite !byte_to_Z_to_byte, !Z.shiftr_div_pow2 by lia.
    rewrite Z.shiftl_mul_pow2 by lia.
    replace (8 * Z.of_nat n)%Z with (8 * (Z.of_nat n - Z.of_nat m - 1) + 8 + 8 * Z.of_nat m)%Z by lia.
    rewrite !Z.pow_add_r by lia. change (2 ^ 8)%Z with 256%Z.
    rewrite Z.mul_assoc, Z.div_add_l by lia.
    rewrite Z.mul_assoc, Z.add_comm, Z.mod_add by lia. done. }
  induction bs as [|b bs IH]; [done|]. cbn [length from_be to_be]. rewrite Hlow, IH. f_equal.
  apply (inj byte_to_Z). rewrite byte_to_Z_to_byte, Z.shiftr_div_pow2 by lia.
  rewrite Z.shiftl_mul_pow2, Z.div_add_l by lia. pose proof (from_be_range bs).
  rewrite (Z.div_small (from_be bs)) by lia. rewrite Z.add_0_r.
  apply Z.mod_small, byte_to_Z_range.
Qed.

(** Lexicographic order on byte strings, the order in which encoded keys are
    compared. *)
Fixpoint lex_lt (a b : list byte) : bool :=
  match a, b with
  | _, [] => false
  | [], _ :: _ => true
  | x :: a, y :: b =>
      if decide (byte_to_Z x < byte_to_Z y)%Z then true
      else if decide (byte_to_Z x = byte_to_Z y) then lex_lt a b else false
  end.

Lemma lex_lt_from_be a b :
  length a = length b → (lex_lt a b = true ↔ from_be a < from_be b)%Z.
Proof.
  revert b; induction a as [|x a IH]; intros [|y b]; try done; cbn [length lex_lt from_be].
  intros [= Hlen]. rewrite Hlen, !Z.shiftl_mul_pow2 by lia.
  pose proof (from_be_range a) as Ha. pose proof (from_be_range b) as Hb. rewrite Hlen in Ha.
  repeat case_decide.
  - split; [intros _|done]. nia.
  - rewrite (IH b Hlen). split; nia.
  - split; [done|]. nia.
Qed.

Lemma from_be_to_be_id n z : (0 ≤ z < 2 ^ (8 * Z.of_nat n))%Z → from_be (to_be n z) = z.
Proof. intros. rewrite from_be_to_be. by apply wrap_u_id. Qed.

Create HintDb rust.
#[export] Hint Resolve byte_to_Z_range from_be_range length_to_be : rust.
#[export] Hint Rewrite length_to_be from_be_to_be to_be_from_be byte_to_Z_to_byte : rust.

(** * Strings *)
Notation chars := Stdlib.Strings.String.list_ascii_of_string.
Lemma chars_app s1 s2 : chars (s1 +:+ s2) = chars s1 ++ chars s2.
Proof.
  induction s1 as [|c s1 IH]; [done|]. change (c :: chars (s1 +:+ s2) = c :: chars s1 ++ chars s2). by rewrite IH.
Qed.
Lemma chars_of l : chars (Stdlib.Strings.String.string_of_list_ascii l) = l.
Proof. apply Stdlib.Strings.String.list_ascii_of_string_of_list_ascii. Qed.
#[export] Instance chars_inj : Inj (=) (=) chars.
Proof.
  intros s1 s2 H. pose proof (f_equal Stdlib.Strings.String.string_of_list_ascii H) as Hs.
  by rewrite !Stdlib.Strings.String.string_of_list_ascii_of_string in Hs.
Qed.
Lemma string_app_assoc (s t u : string) : (s +:+ t) +:+ u = s +:+ t +:+ u.
Proof. induction s as [|c s IH]; [done|]. exact (f_equal (String c) IH). Qed.
Lemma string_app_nil (s : string) : s +:+ "" = s.
Proof. induction s as [|c s IH]; [done|]. exact (f_equal (String c) IH). Qed.

(** * Hash maps

    [collect] and [extend] insert left to right, so a later duplicate wins;
    [entry(k).or_insert(v)] keeps an entry that is there. *)
Section maps.
Context `{Countable K} {V : Type}.

Definition collect_map (l : list (K * V)) : gmap K V :=
  foldl (λ m kv, <[kv.1 := kv.2]> m) ∅ l.
Definition or_insert (m : gmap K V) (kv : K * V) : gmap K V :=
  match m !! kv.1 with Some _ => m | None => <[kv.1 := kv.2]> m end.

Lemma collect_map_reverse (l : list (K * V)) : collect_map l = list_to_map (reverse l).
Proof.
  induction l as [|[k v] l IH] using rev_ind; [done|]. unfold collect_map in *.
  by rewrite foldl_snoc, reverse_snoc, list_to_map_cons, IH.
Qed.
Lemma collect_map_iter (m : gmap K V) l : l ≡ₚ map_to_list m → collect_map l = m.
Proof.
  intros Hl. rewrite collect_map_reverse, (list_to_map_proper _ (map_to_list m)).
  - apply list_to_map_to_list.
  - rewrite reverse_Permutation, Hl. apply NoDup_fst_map_to_list.
  - by rewrite reverse_Permutation, Hl.
Qed.
Lemma or_insert_list (m : gmap K V) l : foldl or_insert m l = m ∪ list_to_map l.
Proof.
  revert m; induction l as [|[k v] l IH]; intros m; cbn.
  - by rewrite (right_id_L ∅ (∪)).
  - rewrite IH. unfold or_insert; cbn. apply map_eq; intros k'. rewrite !lookup_union.
    destruct (m !! k) eqn:Hk, (decide (k = k')) as [<-|];
      rewrite ?lookup_insert_eq, ?lookup_insert_ne by done; try done.
    + rewrite Hk. by destruct (list_to_map l !! k).
    + rewrite Hk. by destruct (list_to_map l !! k).
Qed.
End maps.

(** All the [B]s found in the values of a map, as a bag. *)
Section gather.
Context `{Countable K} {A B : Type} (f : A → list B).

Definition gather (m : gmap K A) : list B := concat (f <$> (map_to_list m).*2).

Lemma gather_empty : gather ∅ = [].
Proof. unfold gather. by rewrite map_to_list_empty. Qed.
Lemma gather_delete m k a : m !! k = Some a → gather m ≡ₚ f a ++ gather (delete k m).
Proof. intros Hk. unfold gather. by rewrite <-(map_to_list_delete m k a Hk). Qed.
Lemma gather_insert m k a : gather (<[k := a]> m) ≡ₚ f a ++ gather (delete k m).
Proof.
  rewrite (gather_delete _ k a) by by rewrite lookup_insert_eq. by rewrite delete_insert_eq.
Qed.
Lemma gather_insert_new m k a : m !! k = None → gather (<[k := a]> m) ≡ₚ f a ++ gather m.
Proof. intros. by rewrite gather_insert, delete_id. Qed.
Lemma gather_update m k a a' :
  m !! k = Some a → f a ≡ₚ f a' → gather (<[k := a']> m) ≡ₚ gather m.
Proof. intros Hk Hf. by rewrite gather_insert, (gather_delete m k a), Hf. Qed.
End gather.

(** The number of elements of a map that satisfy a test. *)
Section tally.
Context {K A : Type} `{Countable K} (f : A → bool).
Definition tally (m : gmap K A) : Z := Z.of_nat (size (filter (λ kv, f kv.2 = true) m)).

Lemma tally_delete m k a : m !! k = Some a → tally m = (tally (delete k m) + (if f a then 1 else 0))%Z.
Proof.
  intros Hm. unfold tally. rewrite map_filter_delete. destruct (f a) eqn:He.
  - assert (filter (λ kv : K * A, f kv.2 = true) m !! k = Some a) by by apply map_lookup_filter_Some.
    rewrite map_size_delete_Some by eauto.
    assert (size (filter (λ kv : K * A, f kv.2 = true) m) ≠ 0%nat); [|lia].
    intros Hz%map_size_empty_inv. rewrite Hz in *. by simplify_map_eq.
  - rewrite delete_id; [lia|]. apply map_lookup_filter_None. right.
    intros a' Ha'. rewrite Hm in Ha'. injection Ha' as <-. cbn. congruence.
Qed.
Lemma tally_insert m k a : tally (<[k := a]> m) = (tally (delete k m) + (if f a then 1 else 0))%Z.
Proof.
  rewrite (tally_delete _ k a) by by rewrite lookup_insert_eq. by rewrite delete_insert_eq.
Qed.
Lemma tally_insert_new m k a : m !! k = None → tally (<[k := a]> m) = (tally m + (if f a then 1 else 0))%Z.
Proof. intros Hk. by rewrite tally_insert, delete_id. Qed.
Lemma tally_update m k a b :
  m !! k = Some a → tally (<[k := b]> m) = (tally m - (if f a then 1 else 0) + (if f b then 1 else 0))%Z.
Proof. intros Hk. rewrite tally_insert, (tally_delete m k a Hk). lia. Qed.
Lemma tally_fmap (g : A → A) m : (∀ a, f (g a) = f a) → tally (g <$> m) = tally m.
Proof.
  intros Hg. unfold tally. rewrite map_filter_fmap, map_size_fmap. do 2 f_equal.
  apply map_filter_ext. intros k a _. cbn. by rewrite Hg.
Qed.
Lemma tally_nonneg m : (0 ≤ tally m)%Z.
Proof. unfold tally. lia. Qed.
End tally.

(** The sum of a measure over a map. *)
Section total.
Context {K A : Type} `{Countable K} (f : A → nat).
Definition total (m : gmap K A) : nat := sum_list (f <$> (map_to_list m).*2).

Lemma total_delete m k a : m !! k = Some a → total m = (f a + total (delete k m))%nat.
Proof. intros Hk. unfold total. by rewrite <-(map_to_list_delete m k a Hk). Qed.
Lemma total_insert m k a : total (<[k := a]> m) = (f a + total (delete k m))%nat.
Proof. rewrite (total_delete _ k a) by by rewrite lookup_insert_eq. by rewrite delete_insert_eq. Qed.
Lemma total_update m k a b : m !! k = Some a → (total (<[k := b]> m) + f a = total m + f b)%nat.
Proof. intros Hk. rewrite total_insert, (total_delete m k a Hk). lia. Qed.
End total.

(** * Refinement of objects

    An object is a step function: an operation and a state give an answer and
    the next state.  [Refines] is forward simulation of a concrete object by
    an abstract one with equal answers; [run_refines] lifts it to every
    sequence of operations. *)
Definition run_ops {St Op Out} (step : Op → St → Out * St) : St → list Op → list Out * St :=
  fix go s ops :=
    match ops with
    | [] => ([], s)
    | op :: ops =>
        let '(o, s) := step op s in
        let '(os, s) := go s ops in
        (o :: os, s)
    end.

Class Refines {C A Op Out} (cstep : Op → C → Out * C) (astep : Op → A → Out * A)
    (R : C → A → Prop) : Prop :=
  refines_step op c a :
    R c a → (cstep op c).1 = (astep op a).1 ∧ R (cstep op c).2 (astep op a).2.

Lemma run_refines {C A Op Out} (cstep : Op → C → Out * C) (astep : Op → A → Out * A) R
    `{!Refines cstep astep R} ops c a :
  R c a → (run_ops cstep c ops).1 = (run_ops astep a ops).1 ∧
          R (run_ops cstep c ops).2 (run_ops astep a ops).2.
Proof.
  revert c a; induction ops as [|op ops IH]; intros c a HR; cbn; [done|].
  destruct (refines_step op c a HR) as [Ho HR'].
  destruct (cstep op c) as [o c'], (astep op a) as [o' a']; cbn in *; subst o'.
  destruct (IH c' a' HR') as [Hos HR''].
  destruct (run_ops cstep c' ops), (run_ops astep a' ops); cbn in *; by subst.
Qed.
