(* ===== verification/Errors.v ===== *)
(** The error type shared by the runtime, [src/src/runtime/environment/mod.rs]
    and [src/src/runtime/environment/metrics.rs].  Error texts are the
    constructors' payloads. *)

From S2P Require Import Prelude.

Inductive MetricsError :=
| TypeConflict (name : string)
| DescriptionConflict (name : string).

Inductive RuntimeError :=
| TaskPoolNotFound (name : string)
| PriorityTaskPoolNotFound (name : string)
| ConsumerAlreadySet (stream : string)
| SourceAlreadySet (stream : string)
| ConsumerNotSet (stream : string)
| DuplicateResource (name : string)
| ResourceAlreadyStarted (name : string)
| ResourceStopped (name : string)
| ContextCancelled
| DuplicateKey
| InvalidConfiguration (text : string)
| Transport (text : string)
| MetricsErr (error : MetricsError).

Notation RuntimeResult := (outcome RuntimeError).

#[export] Instance metrics_error_eq_dec : EqDecision MetricsError.
Proof. solve_decision. Defined.
#[export] Instance runtime_error_eq_dec : EqDecision RuntimeError.
Proof. solve_decision. Defined.
