(* ===== verification/SortedMap.v ===== *)
(** Ordered maps: [std::collections::BTreeMap] as the list of its entries in
    key order, with the comparison of the key type, and the orders of the key
    types the runtime uses (byte strings, vectors and pairs of ordered
    values). *)

From S2P Require Import Prelude.
From Stdlib Require Import Strings.Ascii.
From Stdlib Require Import Sorting.Sorted.

(** * Comparisons *)

(** [Ord::cmp], and what it promises: a comparison that decides equality and
    orders strictly. *)
Class Ord (K : Type) := compare : K → K → comparison.
#[export] Hint Mode Ord ! : typeclass_instances.
Class TotalOrd (K : Type) `{Ord K} : Prop := {
  compare_Eq (x y : K) : compare x y = Eq ↔ x = y;
  compare_opp (x y : K) : compare y x = CompOpp (compare x y);
  compare_Lt_trans (x y z : K) : compare x y = Lt → compare y z = Lt → compare x z = Lt }.

#[export] Instance N_Ord : Ord N := N.compare.
#[export] Instance ascii_Ord : Ord ascii := λ x y, compare (N_of_ascii x) (N_of_ascii y).
(** Fields of a struct and entries of a map are compared in order. *)
#[export] Instance pair_Ord {A B} `{Ord A, Ord B} : Ord (A * B) := λ x y,
  match compare x.1 y.1 with Eq => compare x.2 y.2 | c => c end.
Fixpoint list_compare {A} `{Ord A} (l k : list A) : comparison :=
  match l, k with
  | [], [] => Eq
  | [], _ => Lt
  | _, [] => Gt
  | x :: l, y :: k => match compare x y with Eq => list_compare l k | c => c end
  end.
#[export] Instance list_Ord {A} `{Ord A} : Ord (list A) := list_compare.
#[export] Instance string_Ord : Ord string := λ s t,
  compare (chars s) (chars t).

Section laws.
Context {K : Type} `{TotalOrd K}.
Implicit Types x y : K.
Lemma compare_refl x : compare x x = Eq.
Proof. by apply compare_Eq. Qed.
Lemma compare_Gt_Lt x y : compare x y = Gt ↔ compare y x = Lt.
Proof. rewrite (compare_opp x y). by destruct (compare x y). Qed.
End laws.

#[export] Instance N_TotalOrd : TotalOrd N.
Proof.
  split.
  - apply N.compare_eq_iff.
  - intros x y. apply N.compare_antisym.
  - intros x y z. unfold compare, N_Ord. rewrite !N.compare_lt_iff. apply N.lt_trans.
Qed.
#[export] Instance pair_TotalOrd {A B} `{TotalOrd A, TotalOrd B} : TotalOrd (A * B).
Proof.
  split; unfold compare, pair_Ord.
  - intros [a b] [a' b']; cbn. destruct (compare a a') eqn:E; [|split; [done|intros [= -> ->]; by rewrite compare_refl in E]..].
    apply compare_Eq in E as ->. rewrite compare_Eq. split; congruence.
  - intros [a b] [a' b']; cbn. rewrite (compare_opp a a'). destruct (compare a a') eqn:E; cbn; [apply compare_opp|done..].
  - intros [a b] [a' b'] [a'' b'']; cbn. destruct (compare a a') eqn:E; [apply compare_Eq in E as ->| |done].
    + destruct (compare a' a''); [apply compare_Lt_trans|done..].
    + intros _. destruct (compare a' a'') eqn:E'; [apply compare_Eq in E' as ->; by rewrite E| |done].
      by rewrite (compare_Lt_trans _ _ _ E E').
Qed.
#[export] Instance list_TotalOrd {A} `{TotalOrd A} : TotalOrd (list A).
Proof.
  split; change (@compare (list A) _) with (@list_compare A _).
  - intros l; induction l as [|x l IH]; intros [|y k]; cbn; try done.
    destruct (compare x y) eqn:E; [|split; [done|intros [= -> ->]; by rewrite compare_refl in E]..].
    apply compare_Eq in E as ->. rewrite IH. split; congruence.
  - intros l; induction l as [|x l IH]; intros [|y k]; cbn; try done.
    rewrite (compare_opp x y). destruct (compare x y) eqn:E; cbn; [apply IH|done..].
  - intros l; induction l as [|x l IH]; intros [|y k] [|z m]; cbn; try done.
    destruct (compare x y) eqn:E; [apply compare_Eq in E as ->| |done].
    + destruct (compare y z); [apply IH|done..].
    + intros _. destruct (compare y z) eqn:E'; [apply compare_Eq in E' as ->; by rewrite E| |done].
      by rewrite (compare_Lt_trans _ _ _ E E').
Qed.
(** An order pulled back along an injection. *)
Lemma TotalOrd_inj {A K} (f : A → K) `{!Inj (=) (=) f, TotalOrd K} :
  @TotalOrd A (λ x y, compare (f x) (f y)).
Proof.
  split; unfold compare.
  - intros x y. change (compare (f x) (f y) = Eq ↔ x = y). rewrite compare_Eq. split; [apply (inj f)|congruence].
  - intros x y. apply (compare_opp (f x) (f y)).
  - intros x y z. apply (compare_Lt_trans (f x) (f y) (f z)).
Qed.
#[export] Instance N_of_ascii_inj : Inj (=) (=) N_of_ascii.
Proof. intros x y H. by rewrite <-(ascii_N_embedding x), <-(ascii_N_embedding y), H. Qed.
#[export] Instance ascii_TotalOrd : TotalOrd ascii.
Proof. apply (TotalOrd_inj N_of_ascii). Qed.
#[export] Instance string_TotalOrd : TotalOrd string.
Proof. apply (TotalOrd_inj chars). Qed.

(** * The map *)
Section map.
Context {K V : Type} `{Ord K}.
Implicit Types m : list (K * V).
Fixpoint sm_get (k : K) m : option V :=
  match m with
  | [] => None
  | (k', v) :: m => match compare k k' with Eq => Some v | _ => sm_get k m end
  end.
Fixpoint sm_insert (k : K) (v : V) m : list (K * V) :=
  match m with
  | [] => [(k, v)]
  | (k', v') :: m =>
      match compare k k' with
      | Lt => (k, v) :: (k', v') :: m
      | Eq => (k, v) :: m
      | Gt => (k', v') :: sm_insert k v m
      end
  end.
(** [extend]: later entries replace earlier ones. *)
Definition sm_extend m (l : list (K * V)) : list (K * V) :=
  foldl (λ m kv, sm_insert kv.1 kv.2 m) m l.
Definition key_lt (x y : K * V) : Prop := compare x.1 y.1 = Lt.
Definition sm_wf m : Prop := StronglySorted key_lt m.
End map.

Section map_laws.
Context {K V : Type} `{TotalOrd K}.
Implicit Types m : list (K * V).
Notation get := sm_get.
Notation insert := sm_insert.
Notation wf := sm_wf.

Lemma elem_of_insert k v m kv : kv ∈ insert k v m → kv = (k, v) ∨ kv ∈ m.
Proof.
  induction m as [|[k' v'] m IH]; cbn; [set_solver|].
  destruct (compare k k'); set_solver.
Qed.
Lemma sm_insert_wf k v m : wf m → wf (insert k v m).
Proof.
  induction m as [|[k' v'] m IH]; cbn; intros Hm.
  - by repeat constructor.
  - apply StronglySorted_inv in Hm as [Hm Hall].
    destruct (compare k k') eqn:E.
    + apply compare_Eq in E as ->. constructor; [done|]. eapply Forall_impl; [done|]. by intros [].
    + constructor; [by constructor|]. constructor; [done|].
      eapply Forall_impl; [done|]. intros [k'' v'']. apply compare_Lt_trans, E.
    + constructor; [by apply IH|]. apply Forall_forall. intros kv [->|Hin]%elem_of_insert.
      * by apply compare_Gt_Lt.
      * by rewrite Forall_forall in Hall; apply Hall.
Qed.
Lemma sm_extend_wf m l : wf m → wf (sm_extend m l).
Proof. revert m. induction l as [|[k v] l IH]; cbn; intros m Hm; [done|]. by apply IH, sm_insert_wf. Qed.
Lemma sm_get_insert k v m : get k (insert k v m) = Some v.
Proof.
  induction m as [|[k' v'] m IH]; cbn; [by rewrite compare_refl|].
  destruct (compare k k') eqn:E; cbn; [by rewrite compare_refl..|]. by rewrite E.
Qed.
Lemma sm_get_insert_ne k k' v m : k ≠ k' → get k (insert k' v m) = get k m.
Proof.
  intros Hne. assert (compare k k' ≠ Eq) as Hc by by rewrite compare_Eq.
  induction m as [|[k'' v'] m IH]; cbn; [by destruct (compare k k')|].
  destruct (compare k' k'') eqn:E; cbn.
  - apply compare_Eq in E as ->. by destruct (compare k k'').
  - by destruct (compare k k').
  - by rewrite IH.
Qed.
Lemma sm_get_elem k v m : get k m = Some v → (k, v) ∈ m.
Proof.
  induction m as [|[k' v'] m IH]; cbn; [done|].
  destruct (compare k k') eqn:E; [|by intros; right; apply IH..].
  apply compare_Eq in E as ->. intros [= ->]. by left.
Qed.
Lemma sm_elem_get k v m : wf m → (k, v) ∈ m → get k m = Some v.
Proof.
  induction m as [|[k' v'] m IH]; cbn; intros Hm Hin; [by apply elem_of_nil in Hin|].
  apply StronglySorted_inv in Hm as [Hm Hall].
  apply elem_of_cons in Hin as [[= -> ->]|Hin]; [by rewrite compare_refl|].
  rewrite Forall_forall in Hall. specialize (Hall _ Hin). unfold key_lt in Hall; cbn in Hall.
  destruct (compare k k') eqn:E; [|by apply IH..].
  apply compare_Eq in E as ->. by rewrite compare_refl in Hall.
Qed.
Lemma sm_get_extend k m l :
  get k (sm_extend m l) = match last (filter (λ kv : K * V, compare k kv.1 = Eq) l) with Some kv => Some kv.2 | None => get k m end.
Proof.
  revert m. induction l as [|[k' v] l IH] using rev_ind; intros m; [done|].
  unfold sm_extend. rewrite foldl_app. cbn. rewrite filter_app.
  destruct (decide (compare k k' = Eq)) as [E|E].
  - rewrite (filter_cons_True _ _ []), filter_nil by done. rewrite last_snoc. apply compare_Eq in E as ->. by rewrite sm_get_insert.
  - rewrite (filter_cons_False _ _ []), filter_nil by done. rewrite app_nil_r, sm_get_insert_ne by by rewrite <-compare_Eq. apply IH.
Qed.
(** Two maps with the same entries are the same list. *)
Lemma sm_ext m m' : wf m → wf m' → (∀ k, get k m = get k m') → m = m'.
Proof.
  assert (Hlow : ∀ m k, Forall (λ kv, compare k kv.1 = Lt) m → get k m = None).
  { intros m0 k. induction 1 as [|[k' v'] l Hk _ IH]; [done|]. cbn in *. by rewrite Hk. }
  revert m'. induction m as [|[k v] m IH]; intros [|[k' v'] m'] Hm Hm' Hget; [done| | |].
  - specialize (Hget k'). cbn in Hget. by rewrite compare_refl in Hget.
  - specialize (Hget k). cbn in Hget. by rewrite compare_refl in Hget.
  - apply StronglySorted_inv in Hm as [Hm Hall], Hm' as [Hm' Hall'].
    assert (k = k') as <-.
    { destruct (compare k k') eqn:E; [by apply compare_Eq| |].
      - pose proof (Hget k) as Hk. cbn in Hk. rewrite compare_refl, E, Hlow in Hk; [done|].
        eapply Forall_impl; [done|]. intros [k'' v'']. unfold key_lt; cbn. by apply compare_Lt_trans.
      - apply compare_Gt_Lt in E. pose proof (Hget k') as Hk. cbn in Hk. rewrite compare_refl, E, Hlow in Hk; [done|].
        eapply Forall_impl; [done|]. intros [k'' v'']. unfold key_lt; cbn. by apply compare_Lt_trans. }
    pose proof (Hget k) as Hk. cbn in Hk. rewrite compare_refl in Hk. injection Hk as <-.
    f_equal. apply IH; [done..|]. intros k0. specialize (Hget k0). cbn in Hget.
    destruct (compare k0 k) eqn:E; [|done..]. apply compare_Eq in E as ->. by rewrite !Hlow.
Qed.
End map_laws.
