(* ===== verification/Serde.v ===== *)
(** The wire formats of [src/src/runtime/serde/serdeimpl.rs].

    Every serializer of the file is a value of the record [Serde]: its
    [serialize], [deserialize] and [is_stub] methods.  Byte slices are lists of
    bytes, [usize] counts are integers of [Z], a Rust [String] is a byte list
    with a proof that it is UTF-8, floats are their IEEE bit patterns.  The
    capacity check of [Vec::with_capacity] is kept, since the counts given to
    it come from the input: it panics when the requested bytes exceed
    [isize::MAX].

    [LawfulSerde] is the interface the containers rely on and every concrete
    serializer discharges: what it encodes, it decodes. *)

From S2P Require Import Prelude.
From Stdlib Require Import Strings.Byte.
Local Open Scope Z_scope.

Definition SIZE_BYTES : Z := 8.

Record SerdeError := MkSerdeError { message : string; err_offset : Z }.

Record SerdeLimits := MkSerdeLimits {
  max_string_bytes : Z;
  max_bytes : Z;
  max_container_elements : Z;
  max_total_bytes : Z }.

Definition SerdeLimits_default : SerdeLimits :=
  MkSerdeLimits usize_max usize_max usize_max usize_max.

Notation sresult := (outcome SerdeError).
Definition fail {A} (msg : string) (off : Z) : sresult A := Err (MkSerdeError msg off).

Record Serde (T : Type) := MkSerde {
  serialize : T → sresult (list byte);
  deserialize : list byte → sresult T;
  is_stub : bool }.
Arguments MkSerde {T}.
Arguments serialize {T}.
Arguments deserialize {T}.
Arguments is_stub {T}.

(** Default method [serialize_to]: append the encoding to [output]. *)
Definition serialize_to {T} (s : Serde T) (output : list byte) (value : T) :
    sresult (list byte) :=
  bs ← serialize s value; mret (output ++ bs).

Definition len {A} (l : list A) : Z := Z.of_nat (length l).

(** [Vec::with_capacity(n)] for elements of [size] bytes. *)
Definition with_capacity (n size : Z) : sresult unit :=
  if decide (n * size ≤ isize_max) then Ok tt else Panic.

(** Memory invariant of a [Vec] whose elements take [size] bytes. *)
Definition vec_fits {A} (size : Z) (l : list A) : Prop := len l * size ≤ isize_max.

(** * The reader *)
Record Reader := MkReader { data : list byte; offset : Z }.

Definition Reader_new (bytes : list byte) (max_total : Z) : sresult Reader :=
  if decide (len bytes > max_total)
  then fail "serde input exceeds configured limit" 0
  else Ok (MkReader bytes 0).

Definition read (r : Reader) (size : Z) (what : string) : sresult (list byte * Reader) :=
  match checked_add usize_max (offset r) size with
  | None => fail "serde size overflow" (offset r)
  | Some stop =>
      if decide (stop > len (data r))
      then fail ("serde underflow while reading " +:+ what) (offset r)
      else Ok (take (Z.to_nat size) (drop (Z.to_nat (offset r)) (data r)),
               MkReader (data r) stop)
  end.

(** [usize::try_from] on the decoded [u64] cannot fail on a 64-bit target; the
    branch is kept. *)
Definition read_size (r : Reader) (maximum : Z) (what : string) : sresult (Z * Reader) :=
  let start := offset r in
  '(frame, r) ← read r SIZE_BYTES what;
  let encoded := from_be frame in
  if decide (encoded > usize_max) then fail (what +:+ " does not fit usize") start
  else if decide (encoded > maximum)
  then fail (what +:+ " exceeds configured limit") start
  else Ok (encoded, r).

Definition put_size (output : list byte) (size : Z) : list byte :=
  output ++ to_be 8 (wrap_u 64 size).

(** [for _ in 0..n] around a fallible read. *)
Fixpoint read_n {A} (n : nat) (step : Reader → sresult (A * Reader)) (r : Reader) :
    sresult (list A * Reader) :=
  match n with
  | O => Ok ([], r)
  | S n =>
      '(a, r) ← step r;
      '(l, r) ← read_n n step r;
      Ok (a :: l, r)
  end.

(** * Primitive serializers *)

(** The [unsigned_serde!] macro; [w] is the width in bits. *)
Definition unsigned_serde (name : string) (w : Z) : Serde Z := {|
  serialize v := Ok (to_be (Z.to_nat (w / 8)) v);
  deserialize value :=
    r ← Reader_new value usize_max;
    '(frame, _) ← read r (w / 8) name;
    Ok (from_be frame);
  is_stub := false |}.

(** The [signed_serde!] macro. *)
Definition signed_serde (name : string) (w mask : Z) : Serde Z := {|
  serialize v := Ok (to_be (Z.to_nat (w / 8)) (Z.lxor (wrap_u w v) mask));
  deserialize value :=
    r ← Reader_new value usize_max;
    '(frame, _) ← read r (w / 8) name;
    Ok (wrap_s w (Z.lxor (from_be frame) mask));
  is_stub := false |}.

Definition BoolSerde : Serde bool := {|
  serialize (v : bool) := Ok [if v then Byte.x01 else Byte.x00];
  deserialize value :=
    r ← Reader_new value usize_max;
    '(frame, _) ← read r 1 "bool";
    match (frame : list byte) with
    | b :: _ => Ok (negb (bool_decide (b = Byte.x00)))
    | [] => Panic
    end;
  is_stub := false |}.

Definition Int8Serde := signed_serde "i8" 8 0.
Definition UInt8Serde := unsigned_serde "u8" 8.
Definition Int16Serde := signed_serde "i16" 16 (0x8000).
Definition UInt16Serde := unsigned_serde "u16" 16.
Definition Int32Serde := signed_serde "i32" 32 (0x80000000).
Definition UInt32Serde := unsigned_serde "u32" 32.
Definition Int64Serde := signed_serde "i64" 64 (0x8000000000000000).
Definition UInt64Serde := unsigned_serde "u64" 64.
Definition IntSerde := Int64Serde.
Definition UIntSerde := UInt64Serde.

(** [char::from_u32]: the Unicode scalar values. *)
Definition is_scalar (c : Z) : bool :=
  bool_decide (0 ≤ c < 0xD800 ∨ 0xE000 ≤ c < 0x110000).

Definition RuneSerde : Serde Z := {|
  serialize c := Ok (to_be 4 c);
  deserialize value :=
    encoded ← deserialize UInt32Serde value;
    if is_scalar encoded then Ok encoded else fail "invalid Unicode scalar" 0;
  is_stub := false |}.

(** Floats are represented by [to_bits]. *)
Definition Float32Serde : Serde Z := {|
  serialize bits := Ok (to_be 4 bits);
  deserialize value := deserialize UInt32Serde value;
  is_stub := false |}.
Definition Float64Serde : Serde Z := {|
  serialize bits := Ok (to_be 8 bits);
  deserialize value := deserialize UInt64Serde value;
  is_stub := false |}.

(** * Strings and byte sequences *)

(** [String::from_utf8]: the well-formed byte sequences (no overlong form, no
    surrogate, nothing above U+10FFFF). *)
Definition cont (b : byte) : bool := bool_decide (0x80 ≤ byte_to_Z b ≤ 0xBF).
Definition second_ok (b b1 : byte) : bool :=
  let z := byte_to_Z b in let z1 := byte_to_Z b1 in
  if decide (z = 0xE0) then bool_decide (0xA0 ≤ z1 ≤ 0xBF)
  else if decide (z = 0xED) then bool_decide (0x80 ≤ z1 ≤ 0x9F)
  else if decide (z = 0xF0) then bool_decide (0x90 ≤ z1 ≤ 0xBF)
  else if decide (z = 0xF4) then bool_decide (0x80 ≤ z1 ≤ 0x8F)
  else cont b1.
Fixpoint utf8_valid (bs : list byte) : bool :=
  match bs with
  | [] => true
  | b :: t =>
      let z := byte_to_Z b in
      if decide (z < 0x80) then utf8_valid t
      else if decide (0xC2 ≤ z ≤ 0xDF) then
        match t with b1 :: t => cont b1 && utf8_valid t | _ => false end
      else if decide (0xE0 ≤ z ≤ 0xEF) then
        match t with
        | b1 :: b2 :: t => second_ok b b1 && cont b2 && utf8_valid t
        | _ => false
        end
      else if decide (0xF0 ≤ z ≤ 0xF4) then
        match t with
        | b1 :: b2 :: b3 :: t => second_ok b b1 && cont b2 && cont b3 && utf8_valid t
        | _ => false
        end
      else false
  end.

Record rstring := RString { str_bytes : list byte; str_utf8 : utf8_valid str_bytes = true }.

Definition from_utf8 (bs : list byte) : option rstring :=
  match decide (utf8_valid bs = true) with
  | left H => Some (RString bs H)
  | right _ => None
  end.

Definition StringSerde (limits : SerdeLimits) : Serde rstring := {|
  serialize v :=
    if decide (len (str_bytes v) > max_string_bytes limits)
    then fail "string exceeds configured serde limit" 0
    else
      _ ← with_capacity (SIZE_BYTES + len (str_bytes v)) 1;
      Ok (put_size [] (len (str_bytes v)) ++ str_bytes v);
  deserialize value :=
    r ← Reader_new value (max_total_bytes limits);
    '(length, r) ← read_size r (max_string_bytes limits) "string length";
    let start := offset r in
    '(bytes, _) ← read r length "string";
    ok_or (from_utf8 bytes) (MkSerdeError "string is not valid UTF-8" start);
  is_stub := false |}.

Definition BytesSerde (limits : SerdeLimits) : Serde (list byte) := {|
  serialize v :=
    if decide (len v > max_bytes limits)
    then fail "byte sequence exceeds configured limit" 0
    else
      _ ← with_capacity (SIZE_BYTES + len v) 1;
      Ok (put_size [] (len v) ++ v);
  deserialize value :=
    r ← Reader_new value (max_total_bytes limits);
    '(length, r) ← read_size r (max_bytes limits) "bytes length";
    '(bytes, _) ← read r length "bytes";
    Ok bytes;
  is_stub := false |}.

(** * Containers *)

(** [FixedSizeArraySerde<T, S, ELEMENT_SIZE>]; [size_of] is the size of [T]. *)
Definition FixedSizeArraySerde {T} (element_serde : Serde T) (size_of ELEMENT_SIZE : Z)
    (limits : SerdeLimits) : Serde (list T) := {|
  serialize v :=
    if decide (len v > max_container_elements limits)
    then fail "array exceeds configured element limit" 0
    else
      _ ← with_capacity (SIZE_BYTES + len v * ELEMENT_SIZE) 1;
      fold_res (λ output item,
        encoded ← serialize element_serde item;
        if decide (len encoded ≠ ELEMENT_SIZE)
        then fail "fixed-size serde returned an invalid element size" (len output)
        else Ok (output ++ encoded)) (put_size [] (len v)) v;
  deserialize value :=
    r ← Reader_new value (max_total_bytes limits);
    '(count, r) ← read_size r (max_container_elements limits) "array count";
    payload_size ← ok_or (checked_mul usize_max count ELEMENT_SIZE)
                         (MkSerdeError "array size overflow" (offset r));
    if decide (payload_size > saturating_sub (len (data r)) (offset r))
    then fail "fixed-size array payload is truncated" (offset r)
    else
      _ ← with_capacity count size_of;
      '(result, _) ← read_n (Z.to_nat count) (λ r,
        '(frame, r) ← read r ELEMENT_SIZE "array element";
        item ← deserialize element_serde frame;
        Ok (item, r)) r;
      Ok result;
  is_stub := false |}.

Definition BoolArraySerde := FixedSizeArraySerde BoolSerde 1 1.
Definition Int8ArraySerde := FixedSizeArraySerde Int8Serde 1 1.
Definition UInt8ArraySerde := FixedSizeArraySerde UInt8Serde 1 1.
Definition Int16ArraySerde := FixedSizeArraySerde Int16Serde 2 2.
Definition UInt16ArraySerde := FixedSizeArraySerde UInt16Serde 2 2.
Definition Int32ArraySerde := FixedSizeArraySerde Int32Serde 4 4.
Definition UInt32ArraySerde := FixedSizeArraySerde UInt32Serde 4 4.
Definition Int64ArraySerde := FixedSizeArraySerde Int64Serde 8 8.
Definition UInt64ArraySerde := FixedSizeArraySerde UInt64Serde 8 8.
Definition Float32ArraySerde := FixedSizeArraySerde Float32Serde 4 4.
Definition Float64ArraySerde := FixedSizeArraySerde Float64Serde 8 8.

(** [size_of::<String>()]: pointer, capacity and length. *)
Definition STRING_SIZE : Z := 24.

Definition StringArraySerde (limits : SerdeLimits) : Serde (list rstring) := {|
  serialize v :=
    if decide (len v > max_container_elements limits)
    then fail "array exceeds configured element limit" 0
    else fold_res (serialize_to (StringSerde limits)) (put_size [] (len v)) v;
  deserialize value :=
    r ← Reader_new value (max_total_bytes limits);
    '(count, r) ← read_size r (max_container_elements limits) "array count";
    _ ← with_capacity count STRING_SIZE;
    '(result, _) ← read_n (Z.to_nat count) (λ r,
      '(length, r) ← read_size r (max_string_bytes limits) "string length";
      let start := offset r in
      '(bytes, r) ← read r length "string";
      s ← ok_or (from_utf8 bytes) (MkSerdeError "string is not valid UTF-8" start);
      Ok (s, r)) r;
    Ok result;
  is_stub := false |}.

Definition ArraySerde {T} (element_serde : Serde T) (size_of : Z) (limits : SerdeLimits) :
    Serde (list T) := {|
  serialize v :=
    if decide (len v > max_container_elements limits)
    then fail "array exceeds configured element limit" 0
    else fold_res (λ output item,
        encoded ← serialize element_serde item;
        Ok (put_size output (len encoded) ++ encoded)) (put_size [] (len v)) v;
  deserialize value :=
    r ← Reader_new value (max_total_bytes limits);
    '(count, r) ← read_size r (max_container_elements limits) "array count";
    _ ← with_capacity count size_of;
    '(result, _) ← read_n (Z.to_nat count) (λ r,
      '(length, r) ← read_size r (len (data r)) "array element length";
      '(frame, r) ← read r length "array element";
      item ← deserialize element_serde frame;
      Ok (item, r)) r;
    Ok result;
  is_stub := false |}.

(** [HashMap] iteration order is unspecified: [iter] is the order the running
    map yields. *)
Definition MapSerde `{Countable K} {V} (iter : gmap K V → list (K * V)) (size_k size_v : Z)
    (key_serde : Serde (list K)) (value_serde : Serde (list V)) : Serde (gmap K V) := {|
  serialize m :=
    _ ← with_capacity (len (iter m)) size_k;
    _ ← with_capacity (len (iter m)) size_v;
    let keys := (iter m).*1 in
    let values := (iter m).*2 in
    encoded_keys ← serialize key_serde keys;
    encoded_values ← serialize value_serde values;
    Ok (put_size (put_size [] (len encoded_keys) ++ encoded_keys) (len encoded_values)
        ++ encoded_values);
  deserialize value :=
    r ← Reader_new value usize_max;
    '(keys_length, r) ← read_size r (len (data r)) "map keys length";
    '(frame, r) ← read r keys_length "map keys";
    keys ← deserialize key_serde frame;
    '(values_length, r) ← read_size r (len (data r)) "map values length";
    '(frame, r) ← read r values_length "map values";
    values ← deserialize value_serde frame;
    if decide (length keys ≠ length values)
    then fail "map key and value counts do not match" (offset r)
    else Ok (collect_map (zip keys values));
  is_stub := false |}.

Definition StubSerde (T : Type) : Serde T := {|
  serialize _ := fail "stub serde cannot serialize" 0;
  deserialize _ := fail "stub serde cannot deserialize" 0;
  is_stub := true |}.

(** [serde_json] is a parameter: its encoder and decoder, with error texts. *)
Definition JsonSerde {T} (to_vec : T → outcome string (list byte))
    (from_slice : list byte → outcome string T) : Serde T := {|
  serialize v := map_err (λ e, MkSerdeError e 0) (to_vec v);
  deserialize value := map_err (λ e, MkSerdeError e 0) (from_slice value);
  is_stub := false |}.

(** * Stream serializers *)
Record KeyValue (K V : Type) := MkKeyValue { kv_key : K; kv_value : V }.
Arguments MkKeyValue {K V}.
Arguments kv_key {K V}.
Arguments kv_value {K V}.

Record StreamSerde (T : Type) := MkStreamSerde {
  stream_serde : Serde T;
  is_key_value : bool;
  serialize_key : T → sresult (option (list byte));
  serialize_value : T → sresult (list byte);
  deserialize_key_value : option (list byte) → list byte → sresult T }.
Arguments MkStreamSerde {T}.
Arguments stream_serde {T}.
Arguments is_key_value {T}.
Arguments serialize_key {T}.
Arguments serialize_value {T}.
Arguments deserialize_key_value {T}.

(** [ValueStreamSerde] delegates to its value serde and keeps the default
    methods of the trait. *)
Definition make_stream_serde {T} (value_serde : Serde T) : StreamSerde T := {|
  stream_serde := MkSerde (serialize value_serde) (deserialize value_serde)
                          (is_stub value_serde);
  is_key_value := false;
  serialize_key _ := Ok None;
  serialize_value v := serialize value_serde v;
  deserialize_key_value _ value := deserialize value_serde value |}.

Definition StreamKeyValueSerde {K V} (key_serde : Serde K) (value_serde : Serde V) :
    Serde (KeyValue K V) := {|
  serialize v :=
    key ← serialize key_serde (kv_key v);
    encoded_value ← serialize value_serde (kv_value v);
    _ ← with_capacity (SIZE_BYTES * 2 + len key + len encoded_value) 1;
    Ok (put_size (put_size [] (len key) ++ key) (len encoded_value) ++ encoded_value);
  deserialize value :=
    r ← Reader_new value usize_max;
    '(key_length, r) ← read_size r (len (data r)) "key length";
    '(frame, r) ← read r key_length "key";
    key ← deserialize key_serde frame;
    '(value_length, r) ← read_size r (len (data r)) "value length";
    '(frame, r) ← read r value_length "value";
    v ← deserialize value_serde frame;
    Ok (MkKeyValue key v);
  is_stub := false |}.

Definition make_stream_key_value_serde {K V} (key_serde : Serde K) (value_serde : Serde V) :
    StreamSerde (KeyValue K V) := {|
  stream_serde := StreamKeyValueSerde key_serde value_serde;
  is_key_value := true;
  serialize_key v := Some <$> serialize key_serde (kv_key v);
  serialize_value v := serialize value_serde (kv_value v);
  deserialize_key_value key value :=
    key ← ok_or key (MkSerdeError "key is required" 0);
    k ← deserialize key_serde key;
    v ← deserialize value_serde value;
    Ok (MkKeyValue k v) |}.

(** * Laws *)

(** What a serializer promises to the containers built over it: a value of
    [wf] whose encoding takes at most [cap] bytes decodes to itself. *)
Class LawfulSerde {T} (wf : T → Prop) (cap : Z) (s : Serde T) : Prop :=
  serde_roundtrip v bs :
    wf v → serialize s v = Ok bs → len bs ≤ cap → deserialize s bs = Ok v.

(** ** The reader *)

(** The reader that has consumed [pre] and still holds [rest]. *)
Definition reader_at (pre rest : list byte) : Reader := MkReader (pre ++ rest) (len pre).

Lemma len_nonneg {A} (l : list A) : 0 ≤ len l.
Proof. unfold len; lia. Qed.
Lemma len_app {A} (l k : list A) : len (l ++ k) = len l + len k.
Proof. unfold len. rewrite length_app. lia. Qed.
Lemma len_to_be n z : len (to_be n z) = Z.of_nat n.
Proof. unfold len. by rewrite length_to_be. Qed.
Lemma len_put_size out n : len (put_size out n) = len out + 8.
Proof. unfold put_size. by rewrite len_app, len_to_be. Qed.
Lemma put_size_nil n : put_size [] n = to_be 8 (wrap_u 64 n).
Proof. done. Qed.
#[export] Hint Rewrite @len_app len_to_be len_put_size : rust.
#[export] Hint Resolve len_nonneg : rust.

Lemma Reader_new_at bs cap :
  len bs ≤ cap → Reader_new bs cap = Ok (reader_at [] bs).
Proof. intros. unfold Reader_new, reader_at. case_decide; [lia|done]. Qed.

Lemma read_at pre x post what :
  len (pre ++ x ++ post) ≤ isize_max →
  read (reader_at pre (x ++ post)) (len x) what = Ok (x, reader_at (pre ++ x) post).
Proof.
  intros Hlen. unfold read, reader_at, checked_add; cbn [data offset].
  rewrite !len_app in *. pose proof (len_nonneg post).
  unfold isize_max, usize_max in *. rewrite decide_True by lia. cbn.
  rewrite decide_False by lia. f_equal. f_equal.
  - unfold len. rewrite !Nat2Z.id, drop_app_length. by rewrite take_app_length.
  - by rewrite <-app_assoc.
Qed.

Lemma read_size_at pre n post maximum what :
  len (pre ++ to_be 8 (wrap_u 64 n) ++ post) ≤ isize_max → 0 ≤ n ≤ maximum → n ≤ usize_max →
  read_size (reader_at pre (to_be 8 (wrap_u 64 n) ++ post)) maximum what
    = Ok (n, reader_at (pre ++ to_be 8 (wrap_u 64 n)) post).
Proof.
  intros Hlen Hn Hu. unfold read_size.
  replace SIZE_BYTES with (len (to_be 8 (wrap_u 64 n))) by by rewrite len_to_be.
  rewrite read_at by done. cbn [mbind outcome_bind]. cbv zeta.
  rewrite from_be_to_be, (wrap_u_id 64 n), wrap_u_id by (unfold in_u, usize_max in *; lia).
  rewrite !decide_False by lia. done.
Qed.

(** The reader never leaves its buffer: a successful [read] returns exactly
    the [size] bytes after the offset and stays within the data. *)
Lemma read_spec r size what x r' :
  0 ≤ offset r → 0 ≤ size → read r size what = Ok (x, r') →
  len x = size ∧ data r' = data r ∧ offset r' = offset r + size ∧ offset r' ≤ len (data r).
Proof.
  unfold read, checked_add. intros Ho Hs H. repeat case_decide; simplify_eq/=.
  split_and!; [|done..|lia]. unfold len in *. rewrite length_take, length_drop. lia.
Qed.

Lemma read_no_panic r size what : read r size what ≠ Panic.
Proof. unfold read. case_match; [case_decide|]; done. Qed.
Lemma read_size_no_panic r maximum what : read_size r maximum what ≠ Panic.
Proof.
  unfold read_size. intros [H|([x r'] & H & Hx)]%bind_Panic.
  - by eapply read_no_panic. - revert Hx. cbv zeta. by repeat case_decide.
Qed.

Lemma read_n_no_panic {A} n (step : Reader → sresult (A * Reader)) r :
  (∀ r, step r ≠ Panic) → read_n n step r ≠ Panic.
Proof.
  intros Hs. revert r. induction n as [|n IH]; intros r; cbn; [done|].
  intros [H|([a r'] & H & Hn)]%bind_Panic; [by eapply Hs|].
  apply bind_Panic in Hn as [Hn|([l r''] & _ & ?)]; [by eapply IH|done].
Qed.

(** ** Primitive integers *)

(** The widths the macros are instantiated at. *)
Class IntWidth (w : Z) : Prop := int_width : w = 8 ∨ w = 16 ∨ w = 32 ∨ w = 64.
#[export] Instance width_8 : IntWidth 8. Proof. left; done. Qed.
#[export] Instance width_16 : IntWidth 16. Proof. right; left; done. Qed.
#[export] Instance width_32 : IntWidth 32. Proof. do 2 right; left; done. Qed.
#[export] Instance width_64 : IntWidth 64. Proof. do 3 right; done. Qed.

Lemma width_bytes w `{!IntWidth w} : 8 * Z.of_nat (Z.to_nat (w / 8)) = w ∧ 1 ≤ w / 8.
Proof. destruct int_width as [-> | [-> | [-> | ->]]]; done. Qed.

Lemma read_whole bs what :
  len bs ≤ isize_max →
  read (reader_at [] bs) (len bs) what = Ok (bs, reader_at bs []).
Proof. intros. pose proof (read_at [] bs [] what) as H1. rewrite !app_nil_r in H1. auto. Qed.

(** Decoding of a fixed-width frame followed by anything: the bytes after the
    frame are ignored, a shorter input is an error. *)
Lemma fixed_frame w `{!IntWidth w} what (bs rest : list byte) :
  len bs = w / 8 → len (bs ++ rest) ≤ isize_max →
  (r ← Reader_new (bs ++ rest) usize_max; read r (w / 8) what)
    = Ok (bs, reader_at bs rest).
Proof.
  intros Hw Hlen. rewrite Reader_new_at by (unfold usize_max, isize_max in *; lia).
  cbn [mbind outcome_bind]. rewrite <-Hw. by apply read_at.
Qed.

Lemma lxor_range w a b : 0 ≤ w → in_u w a → in_u w b → in_u w (Z.lxor a b).
Proof.
  intros Hw Ha Hb. replace (Z.lxor a b) with (Z.lxor a b mod 2 ^ w); [by apply wrap_u_range|].
  apply Z.bits_inj'. intros i Hi. destruct (decide (i < w)).
  - by apply Z.mod_pow2_bits_low.
  - rewrite Z.mod_pow2_bits_high, Z.lxor_spec by lia.
    rewrite <-(wrap_u_id w a Ha), <-(wrap_u_id w b Hb).
    unfold wrap_u. by rewrite !Z.mod_pow2_bits_high by lia.
Qed.

Lemma lxor_high k a : 0 ≤ k → 0 ≤ a < 2 ^ k → Z.lxor a (2 ^ k) = a + 2 ^ k.
Proof.
  intros Hk Ha. symmetry. apply Z.add_nocarry_lxor. apply Z.bits_inj_0. intros i.
  rewrite Z.land_spec, Z.pow2_bits_eqb by lia. destruct (Z.eqb_spec k i) as [->|]; [|by rewrite andb_false_r].
  rewrite <-(Z.mod_small a (2 ^ i)) by lia. by rewrite Z.mod_pow2_bits_high by lia.
Qed.

Lemma sign_flip w v :
  0 < w → in_s w v → Z.lxor (wrap_u w v) (2 ^ (w - 1)) = v + 2 ^ (w - 1).
Proof.
  intros Hw [Hlo Hhi]. pose proof (pow2_half w Hw) as Hp. unfold wrap_u.
  destruct (decide (0 ≤ v)).
  - rewrite Z.mod_small by lia. apply lxor_high; lia.
  - rewrite <-(Z_mod_plus_full v 1 (2 ^ w)), Z.mod_small by lia.
    replace (v + 1 * 2 ^ w) with ((v + 2 ^ (w - 1)) + 2 ^ (w - 1)) by lia.
    rewrite <-(lxor_high (w - 1) (v + 2 ^ (w - 1))) by lia.
    by rewrite Z.lxor_assoc, Z.lxor_nilpotent, Z.lxor_0_r.
Qed.

(** The signed format used above 8 bits: the offset-binary code. *)
Lemma signed_serialize name w `{!IntWidth w} v :
  in_s w v → serialize (signed_serde name w (2 ^ (w - 1))) v
    = Ok (to_be (Z.to_nat (w / 8)) (v + 2 ^ (w - 1))).
Proof. intros. cbn. rewrite sign_flip; [done| |done]. destruct int_width as [-> | [-> | [-> | ->]]]; lia. Qed.

Section primitives.
Context (cap : Z) (Hcap : cap ≤ isize_max).

Lemma frame_decodes w `{!IntWidth w} what (bs : list byte) :
  len bs = w / 8 → len bs ≤ cap →
  (r ← Reader_new bs usize_max; read r (w / 8) what) = Ok (bs, reader_at bs []).
Proof using Hcap.
  intros. pose proof (fixed_frame w what bs []) as Hf. rewrite !app_nil_r in Hf. apply Hf; lia.
Qed.

#[export] Instance unsigned_lawful name w `{!IntWidth w} :
  LawfulSerde (in_u w) cap (unsigned_serde name w).
Proof using Hcap.
  intros v bs Hv [= <-] Hlen. pose proof (width_bytes w) as [Hw ?]. cbn.
  rewrite bind_bind, frame_decodes by (first [apply _ | rewrite len_to_be in *; lia]).
  cbn. rewrite from_be_to_be, Hw. by rewrite wrap_u_id.
Qed.

#[export] Instance signed_lawful name w mask `{!IntWidth w} :
  in_u w mask → LawfulSerde (in_s w) cap (signed_serde name w mask).
Proof using Hcap.
  intros Hm v bs Hv [= <-] Hlen. pose proof (width_bytes w) as [Hw ?]. cbn.
  rewrite bind_bind, frame_decodes by (first [apply _ | rewrite len_to_be in *; lia]).
  cbn. rewrite from_be_to_be, Hw.
  assert (0 < w) by lia. pose proof (wrap_u_range w v ltac:(lia)) as Hr.
  pose proof (lxor_range w _ _ ltac:(lia) Hr Hm) as Hx.
  rewrite (wrap_u_id _ _ Hx), Z.lxor_assoc, Z.lxor_nilpotent, Z.lxor_0_r.
  f_equal. unfold wrap_s, wrap_u. rewrite Zplus_mod_idemp_l.
  by apply wrap_s_id.
Qed.

#[export] Instance bool_lawful : LawfulSerde (λ _, True) cap BoolSerde.
Proof using Hcap.
  intros v bs _ Hs Hlen. cbn in Hs. injection Hs as <-. cbn -[Reader_new read].
  rewrite bind_bind, (frame_decodes 8) by done. by destruct v.
Qed.

#[export] Instance rune_lawful : LawfulSerde (λ c, is_scalar c = true) cap RuneSerde.
Proof using Hcap.
  intros v bs Hv Hs%(inj Ok) Hlen. subst bs.
  assert (deserialize UInt32Serde (to_be 4 v) = Ok v) as Hd.
  { apply (unsigned_lawful "u32" 32 v (to_be 4 v)); [|done..].
    apply bool_decide_eq_true in Hv. unfold in_u. lia. }
  unfold RuneSerde; cbn [deserialize]. rewrite Hd. cbn. by rewrite Hv.
Qed.

#[export] Instance float32_lawful : LawfulSerde (in_u 32) cap Float32Serde.
Proof using Hcap. intros v bs Hv [= <-] ?. by eapply (unsigned_lawful "u32" 32). Qed.
#[export] Instance float64_lawful : LawfulSerde (in_u 64) cap Float64Serde.
Proof using Hcap. intros v bs Hv [= <-] ?. by eapply (unsigned_lawful "u64" 64). Qed.
End primitives.

(** ** Strings, bytes and containers *)
Lemma from_utf8_bytes s : from_utf8 (str_bytes s) = Some s.
Proof.
  destruct s as [bs H]. unfold from_utf8. cbn. destruct (decide _) as [H'|]; [|done].
  f_equal. f_equal. apply proof_irrel.
Qed.

(** A length frame followed by that many bytes. *)
Definition framed (x : list byte) : list byte := to_be 8 (wrap_u 64 (len x)) ++ x.

Lemma put_size_framed out x : put_size out (len x) ++ x = out ++ framed x.
Proof. unfold put_size, framed. by rewrite app_assoc. Qed.
Lemma len_framed x : len (framed x) = 8 + len x.
Proof. unfold framed. by rewrite len_app, len_to_be. Qed.

Lemma read_framed {A} pre x post maximum what1 what2 (k : Z → Reader → list byte * Reader → sresult A) :
  len (pre ++ framed x ++ post) ≤ isize_max → len x ≤ maximum →
  ('(n, r) ← read_size (reader_at pre (framed x ++ post)) maximum what1;
   p ← read r n what2; k n r p)
  = k (len x) (reader_at (pre ++ to_be 8 (wrap_u 64 (len x))) (x ++ post))
      (x, reader_at (pre ++ framed x) post).
Proof.
  intros Hlen Hmax. unfold framed in *. rewrite <-!(app_assoc (to_be _ _)) in *.
  rewrite read_size_at; [cbn [mbind outcome_bind]|done|pose proof (len_nonneg x); lia|].
  2: { rewrite !len_app in Hlen. pose proof (len_nonneg post). pose proof (len_nonneg pre).
       pose proof (len_nonneg (to_be 8 (wrap_u 64 (len x)))). unfold usize_max, isize_max in *. lia. }
  rewrite read_at; [|by rewrite <-app_assoc]. cbn [mbind outcome_bind]. by rewrite app_assoc.
Qed.

Section appending_loops.
Context {A : Type} (chunk : A → list byte → Prop).

(** A serializing loop that only appends to its output. *)
Lemma fold_append (step : list byte → A → sresult (list byte)) out v res :
  (∀ out a out', step out a = Ok out' → ∃ c, chunk a c ∧ out' = out ++ c) →
  fold_res step out v = Ok res → ∃ cs, Forall2 chunk v cs ∧ res = out ++ concat cs.
Proof.
  intros Hs. revert out; induction v as [|a v IH]; intros out; cbn.
  - intros [= <-]. exists []. by rewrite app_nil_r.
  - intros (out' & Ho & Hf)%bind_Ok.
    destruct (Hs _ _ _ Ho) as (c & Hc & ->). destruct (IH _ Hf) as (cs & Hcs & ->).
    exists (c :: cs). cbn. rewrite app_assoc. auto.
Qed.

(** The matching deserializing loop. *)
Lemma read_n_chunks (wf : A → Prop) cap (step : Reader → sresult (A * Reader)) v cs pre :
  (∀ pre a c post, chunk a c → wf a → len (pre ++ c ++ post) ≤ cap →
    step (reader_at pre (c ++ post)) = Ok (a, reader_at (pre ++ c) post)) →
  Forall2 chunk v cs → Forall wf v → len (pre ++ concat cs) ≤ cap →
  read_n (length v) step (reader_at pre (concat cs)) = Ok (v, reader_at (pre ++ concat cs) []).
Proof.
  intros Hs Hcs. revert pre. induction Hcs as [|a c v cs Hac Hcs IH];
    intros pre Hwf Hlen; cbn [length read_n concat] in *.
  - by rewrite !app_nil_r.
  - inv Hwf. rewrite (Hs pre a c (concat cs)) by done. cbn [mbind outcome_bind].
    rewrite IH; [|done|by rewrite <-app_assoc]. cbn. by rewrite app_assoc.
Qed.

Lemma chunks_length (v : list A) cs : Forall2 chunk v cs → length cs = length v.
Proof. intros H. symmetry. by eapply Forall2_length. Qed.
End appending_loops.

Lemma with_capacity_fits n size : n * size ≤ isize_max → with_capacity n size = Ok tt.
Proof. intros. unfold with_capacity. by rewrite decide_True. Qed.

Lemma len_firstn_sum (k : Z) (cs : list (list byte)) :
  Forall (λ c, k ≤ len c) cs → len cs * k ≤ len (concat cs).
Proof.
  induction 1 as [|c cs Hc Hcs IH]; cbn [concat]; [done|].
  rewrite len_app. unfold len in *. cbn [length]. lia.
Qed.

Section containers.
Context (cap : Z) (Hcap : cap ≤ isize_max) (limits : SerdeLimits).
Context (Htotal : cap ≤ max_total_bytes limits).

#[export] Instance string_lawful : LawfulSerde (λ _, True) cap (StringSerde limits).
Proof using Hcap Htotal.
  intros v bs _. cbn -[read read_size with_capacity put_size]. case_decide; [done|].
  intros (u & _ & <-%(inj Ok))%bind_Ok. rewrite put_size_framed, app_nil_l. intros Hlen.
  rewrite Reader_new_at by lia. cbn [mbind outcome_bind].
  pose proof (read_framed [] (str_bytes v) [] (max_string_bytes limits)
    "string length" "string" (λ _ r p, let '(bytes, _) := p in
     ok_or (from_utf8 bytes) (MkSerdeError "string is not valid UTF-8" (offset r)))) as Hr.
  rewrite !app_nil_r, !app_nil_l in Hr. rewrite Hr by lia. by rewrite from_utf8_bytes.
Qed.

#[export] Instance bytes_lawful : LawfulSerde (λ _, True) cap (BytesSerde limits).
Proof using Hcap Htotal.
  intros v bs _. cbn -[read read_size with_capacity put_size]. case_decide; [done|].
  intros (u & _ & <-%(inj Ok))%bind_Ok. rewrite put_size_framed, app_nil_l. intros Hlen.
  rewrite Reader_new_at by lia. cbn [mbind outcome_bind].
  pose proof (read_framed [] v [] (max_bytes limits) "bytes length" "bytes"
    (λ _ _ p, let '(bytes, _) := p in Ok bytes)) as Hr.
  rewrite !app_nil_r, !app_nil_l in Hr. by rewrite Hr by lia.
Qed.

(** The count frame at the head of every array. *)
Lemma read_count n body maximum what :
  len (to_be 8 (wrap_u 64 n) ++ body) ≤ cap → 0 ≤ n ≤ maximum → n ≤ usize_max →
  (r ← Reader_new (to_be 8 (wrap_u 64 n) ++ body) (max_total_bytes limits);
   read_size r maximum what) = Ok (n, reader_at (to_be 8 (wrap_u 64 n)) body).
Proof using Hcap Htotal.
  intros. rewrite Reader_new_at by lia. cbn [mbind outcome_bind].
  apply (read_size_at []); [rewrite app_nil_l; lia|done..].
Qed.

Section elements.
Context {T : Type} (wf : T → Prop) (elem : Serde T) (size_of : Z).
Context `{!LawfulSerde wf cap elem}.
Definition vec_wf (v : list T) : Prop := Forall wf v ∧ vec_fits size_of v ∧ len v ≤ usize_max.

#[export] Instance array_lawful :
  LawfulSerde vec_wf cap (ArraySerde elem size_of limits).
Proof using All.
  intros v bs (Hwf & Hfits & Hu). cbn -[read read_size with_capacity put_size].
  case_decide as Hmax; [done|]. intros Hs Hlen.
  apply (fold_append (λ a c, ∃ e, serialize elem a = Ok e ∧ c = framed e)) in Hs
    as (cs & Hcs & ->).
  2: { intros out a out' (e & He & <-%(inj Ok))%bind_Ok. rewrite put_size_framed. eauto. }
  rewrite put_size_nil in *. rewrite bind_bind, read_count
    by (pose proof (len_nonneg v); lia). cbn [mbind outcome_bind].
  rewrite with_capacity_fits by done. cbn [mbind outcome_bind].
  replace (Z.to_nat (len v)) with (length v) by (unfold len; lia).
  erewrite (read_n_chunks _ wf cap); [done| |exact Hcs|done..].
  intros pre a c post (e & He & ->) Ha Hl.
  assert (len e ≤ len (pre ++ framed e ++ post)) by
    (rewrite !len_app, len_framed; pose proof (len_nonneg pre); pose proof (len_nonneg post); lia).
  rewrite read_framed; [|lia|done]. rewrite (serde_roundtrip a e) by (done || lia). done.
Qed.

#[export] Instance fixed_array_lawful ELEMENT_SIZE :
  0 ≤ ELEMENT_SIZE →
  LawfulSerde vec_wf cap (FixedSizeArraySerde elem size_of ELEMENT_SIZE limits).
Proof using All.
  intros HES v bs (Hwf & Hfits & Hu). cbn -[read read_size with_capacity put_size].
  case_decide as Hmax; [done|]. intros (u & _ & Hs)%bind_Ok Hlen.
  apply (fold_append (λ a c, serialize elem a = Ok c ∧ len c = ELEMENT_SIZE)) in Hs
    as (cs & Hcs & ->).
  2: { intros out a out' (e & He & Ho)%bind_Ok. case_decide; [done|].
       apply (inj Ok) in Ho as <-. exists e. split_and!; [done|lia|done]. }
  assert (Hbody : len v * ELEMENT_SIZE = len (concat cs)).
  { clear -Hcs. induction Hcs as [|a c v cs [_ Hc] Hcs IH]; [done|].
    cbn [concat]. rewrite len_app, <-IH, <-Hc. unfold len; cbn [length]. lia. }
  rewrite put_size_nil in *. rewrite bind_bind, read_count
    by (pose proof (len_nonneg v); lia). cbn [mbind outcome_bind].
  rewrite len_app, len_to_be in Hlen. pose proof (len_nonneg (concat cs)).
  unfold checked_mul, isize_max, usize_max, saturating_sub in *.
  rewrite decide_True by lia. cbn [mbind outcome_bind ok_or].
  rewrite decide_False by (cbn [reader_at data offset]; rewrite len_app, len_to_be; lia).
  rewrite with_capacity_fits by (unfold vec_fits, isize_max in *; lia). cbn [mbind outcome_bind].
  replace (Z.to_nat (len v)) with (length v) by (unfold len; lia).
  erewrite (read_n_chunks _ wf cap); [done| |exact Hcs|done|].
  2: { rewrite len_app, len_to_be. lia. }
  intros pre a c post (He & <-) Ha Hl. rewrite read_at by (unfold isize_max; lia).
  cbn [mbind outcome_bind]. rewrite (serde_roundtrip a c); [done..|].
  rewrite !len_app in Hl. pose proof (len_nonneg pre). pose proof (len_nonneg post). lia.
Qed.
End elements.

#[export] Instance string_array_lawful :
  LawfulSerde (vec_wf (λ _, True) STRING_SIZE) cap (StringArraySerde limits).
Proof using All.
  intros v bs (Hwf & Hfits & Hu). cbn -[read read_size with_capacity put_size StringSerde].
  case_decide as Hmax; [done|]. intros Hs Hlen.
  apply (fold_append (λ a c, len (str_bytes a) ≤ max_string_bytes limits
                             ∧ c = framed (str_bytes a))) in Hs as (cs & Hcs & ->).
  2: { unfold serialize_to. intros out a out' (e & He & <-%(inj Ok))%bind_Ok. revert He.
       cbn -[with_capacity put_size]. case_decide; [done|]. intros (_ & _ & <-%(inj Ok))%bind_Ok.
       rewrite put_size_framed. eauto with lia. }
  rewrite put_size_nil in *. rewrite bind_bind, read_count
    by (pose proof (len_nonneg v); lia). cbn [mbind outcome_bind].
  rewrite with_capacity_fits by done. cbn [mbind outcome_bind].
  replace (Z.to_nat (len v)) with (length v) by (unfold len; lia).
  erewrite (read_n_chunks _ (λ _, True) cap); [done| |exact Hcs|done..].
  intros pre a c post (Hmaxa & ->) _ Hl.
  rewrite read_framed by lia. by rewrite from_utf8_bytes.
Qed.
End containers.

(** Two consecutive frames, the layout of key-value pairs and maps. *)
Lemma two_frames a b : put_size (put_size [] (len a) ++ a) (len b) ++ b = framed a ++ framed b.
Proof. by rewrite put_size_framed, put_size_framed, app_nil_l. Qed.

Section pairs.
Context (cap : Z) (Hcap : cap ≤ isize_max).

Lemma frame_bound pre x post : len (pre ++ framed x ++ post) ≤ cap → len x ≤ cap.
Proof.
  rewrite !len_app, len_framed. pose proof (len_nonneg pre). pose proof (len_nonneg post). lia.
Qed.
Lemma frame_le pre x post : len x ≤ len (pre ++ framed x ++ post).
Proof.
  rewrite !len_app, len_framed. pose proof (len_nonneg pre). pose proof (len_nonneg post). lia.
Qed.

#[export] Instance key_value_lawful {K V} (wfk : K → Prop) (wfv : V → Prop) ks vs
    `{!LawfulSerde wfk cap ks, !LawfulSerde wfv cap vs} :
  LawfulSerde (λ kv, wfk (kv_key kv) ∧ wfv (kv_value kv)) cap (StreamKeyValueSerde ks vs).
Proof using Hcap.
  intros [k v] bs [Hk Hv]. cbn -[read read_size with_capacity put_size Reader_new].
  intros (ek & Hek & (ev & Hev & (_ & _ & <-%(inj Ok))%bind_Ok)%bind_Ok)%bind_Ok Hlen.
  rewrite two_frames in *. rewrite Reader_new_at by (unfold usize_max, isize_max in *; lia).
  cbn [mbind outcome_bind].
  rewrite read_framed; [|rewrite app_nil_l; lia|apply (frame_le [])].
  rewrite (serde_roundtrip k ek) by (done || by apply (frame_bound [] _ (framed ev))).
  cbn [mbind outcome_bind]. rewrite app_nil_l.
  pose proof (app_nil_r (framed ev)) as Hnil. rewrite <-Hnil in *.
  rewrite read_framed; [|lia|apply frame_le].
  rewrite (serde_roundtrip v ev) by (done || by apply (frame_bound (framed ek) _ [])). done.
Qed.
End pairs.

Section maps.
Context `{Countable K} {V : Type} (cap : Z) (Hcap : cap ≤ isize_max).
Context (iter : gmap K V → list (K * V)) (Hiter : ∀ m, iter m ≡ₚ map_to_list m).

#[export] Instance map_lawful size_k size_v (wfk : list K → Prop) (wfv : list V → Prop) ks vs
    `{!LawfulSerde wfk cap ks, !LawfulSerde wfv cap vs} :
  LawfulSerde (λ m, wfk (iter m).*1 ∧ wfv (iter m).*2) cap (MapSerde iter size_k size_v ks vs).
Proof using Hcap Hiter.
  intros m bs [Hk Hv]. cbn -[read read_size with_capacity put_size Reader_new].
  intros (_ & _ & (_ & _ & (ek & Hek & (ev & Hev & <-%(inj Ok))%bind_Ok)%bind_Ok)%bind_Ok)%bind_Ok Hlen.
  rewrite two_frames in *. rewrite Reader_new_at by (unfold usize_max, isize_max in *; lia).
  cbn [mbind outcome_bind].
  rewrite read_framed; [|rewrite app_nil_l; lia|apply (frame_le [])].
  rewrite (serde_roundtrip _ ek) by (done || by apply (frame_bound cap [] _ (framed ev))).
  cbn [mbind outcome_bind]. rewrite app_nil_l.
  pose proof (app_nil_r (framed ev)) as Hnil. rewrite <-Hnil in *.
  rewrite read_framed; [|lia|apply frame_le].
  rewrite (serde_roundtrip _ ev) by (done || by apply (frame_bound cap (framed ek) _ [])).
  cbn [mbind outcome_bind]. rewrite decide_False by (rewrite !length_fmap; auto).
  by rewrite zip_fst_snd, (collect_map_iter m).
Qed.
End maps.

(** ** Decoders that never panic *)

(** A decoder that answers every slice (a slice never exceeds [isize::MAX]
    bytes) with a value or an error. *)
Class TotalDecoder {T} (s : Serde T) : Prop :=
  decoder_total value : len value ≤ isize_max → deserialize s value ≠ Panic.

Lemma bind_total {A B} (m : sresult A) (f : A → sresult B) :
  m ≠ Panic → (∀ a, m = Ok a → f a ≠ Panic) → (a ← m; f a) ≠ Panic.
Proof. intros Hm Hf [?|(a & ? & ?)]%bind_Panic; [done|by eapply Hf]. Qed.
Lemma Reader_new_total bs m : Reader_new bs m ≠ Panic.
Proof. unfold Reader_new. by case_decide. Qed.
Lemma ok_or_total {A} (o : option A) (e : SerdeError) : ok_or o e ≠ Panic.
Proof. by destruct o. Qed.
Lemma Reader_new_len bs m r : Reader_new bs m = Ok r → r = MkReader bs 0.
Proof. unfold Reader_new. case_decide; [done|]. by intros [= <-]. Qed.
#[export] Hint Resolve Reader_new_total read_no_panic read_size_no_panic ok_or_total : rust.

Ltac total_step := apply bind_total; [auto with rust|intros ? ?]; try case_match; simplify_eq/=.

#[export] Instance unsigned_total name w : TotalDecoder (unsigned_serde name w).
Proof. intros value Hv. cbn. by repeat total_step. Qed.
#[export] Instance signed_total name w mask : TotalDecoder (signed_serde name w mask).
Proof. intros value Hv. cbn. by repeat total_step. Qed.
#[export] Instance bool_total : TotalDecoder BoolSerde.
Proof.
  intros value Hv. cbn -[read]. apply bind_total; [auto with rust|]. intros r Hr%Reader_new_len.
  apply bind_total; [auto with rust|]. intros [frame r'] Hf.
  destruct (read_spec r 1 "bool" frame r') as [Hl _]; [by subst r|done..|]. by destruct frame.
Qed.
#[export] Instance rune_total : TotalDecoder RuneSerde.
Proof.
  intros value Hv. unfold RuneSerde; cbn [deserialize]. apply bind_total.
  - by apply unsigned_total. - intros c _. by case_match.
Qed.
#[export] Instance float32_total : TotalDecoder Float32Serde.
Proof. intros value. apply (unsigned_total "u32" 32). Qed.
#[export] Instance float64_total : TotalDecoder Float64Serde.
Proof. intros value. apply (unsigned_total "u64" 64). Qed.
#[export] Instance string_total limits : TotalDecoder (StringSerde limits).
Proof. intros value Hv. cbn -[read read_size]. repeat total_step. auto with rust. Qed.
#[export] Instance bytes_total limits : TotalDecoder (BytesSerde limits).
Proof. intros value Hv. cbn -[read read_size]. by repeat total_step. Qed.

(** The payload check bounds the count by the input before the allocation. *)
#[export] Instance fixed_array_total {T} (elem : Serde T) size_of ELEMENT_SIZE limits :
  TotalDecoder elem → 0 ≤ size_of ≤ ELEMENT_SIZE →
  TotalDecoder (FixedSizeArraySerde elem size_of ELEMENT_SIZE limits).
Proof.
  intros Helem Hsize value Hv. cbn -[read read_size with_capacity].
  apply bind_total; [auto with rust|]. intros r Hr%Reader_new_len.
  apply bind_total; [auto with rust|]. intros [count r1] Hc.
  assert (0 ≤ count ∧ data r1 = value ∧ 0 ≤ offset r1) as (Hpos & Hdata & Hoff).
  { subst r. unfold read_size in Hc. apply bind_Ok in Hc as ([frame r2] & Hread & Hc).
    apply read_spec in Hread as (_ & Hd & Ho & _); [|done..]. revert Hc. cbv zeta.
    repeat case_decide; [done..|]. intros [= <- <-].
    pose proof (from_be_range frame). cbn in Ho. split_and!; [lia|done|rewrite Ho; done]. }
  apply bind_total; [auto with rust|]. intros payload Hp%ok_or_Ok.
  unfold checked_mul in Hp. case_decide; [|done]. injection Hp as <-.
  case_decide as Htr; [done|]. assert (count * size_of ≤ count * ELEMENT_SIZE) by nia.
  rewrite with_capacity_fits by (unfold saturating_sub in Htr; rewrite Hdata in Htr;
    pose proof (len_nonneg value); unfold isize_max in *; lia). cbn [mbind outcome_bind].
  apply bind_total; [|by intros [] ?]. clear -Helem Hv Hdata. revert r1 Hdata.
  induction (Z.to_nat count) as [|n IH]; intros r1 Hdata; cbn -[read]; [done|].
  apply bind_total; [apply bind_total; [auto with rust|]|].
  - intros [frame r2] Hread. apply bind_total; [|done]. apply Helem.
    revert Hread. unfold read. case_match; [|done]. case_decide; [done|]. intros [= <- _].
    unfold len in *. rewrite length_take, length_drop, Hdata. lia.
  - intros [item r2] (p & Hread & Hit)%bind_Ok. destruct p as [frame r3].
    apply bind_Ok in Hit as (item' & _ & [= _ <-]). apply bind_total; [|by intros [] ?].
    apply IH. revert Hread. unfold read. case_match; [|done]. case_decide; [done|].
    by intros [= _ <-].
Qed.

(** * Properties *)

(** the encodings of [i16], [i32] and [i64] are sortable: comparing two
    encoded values byte by byte gives the order of the integers, the promise of
    the comment above the [signed_serde!] instances. *)
Theorem signed_order_preserving s w a b ea eb :
  (s, w) ∈ [(Int16Serde, 16); (Int32Serde, 32); (Int64Serde, 64)] →
  in_s w a → in_s w b → serialize s a = Ok ea → serialize s b = Ok eb →
  (a < b ↔ lex_lt ea eb = true).
Proof.
  intros Hs Ha Hb Hea Heb.
  assert (IntWidth w ∧ ∃ name, s = signed_serde name w (2 ^ (w - 1))) as (Hw & name & ->).
  { rewrite !elem_of_cons, elem_of_nil in Hs.
    destruct Hs as [[= -> ->]|[[= -> ->]|[[= -> ->]|[]]]]; split; (apply _ || eexists; done). }
  rewrite signed_serialize in Hea, Heb by done. apply (inj Ok) in Hea as <-, Heb as <-.
  rewrite lex_lt_from_be by by rewrite !length_to_be.
  pose proof (width_bytes w) as [Hn ?]. rewrite !from_be_to_be, Hn.
  unfold in_s in *. pose proof (pow2_half w ltac:(lia)).
  rewrite !wrap_u_id by (unfold in_u; lia). lia.
Qed.

Lemma signed_order_preserving_witness :
  (-5 < 300 ↔ lex_lt [Byte.x7f; Byte.xfb] [Byte.x81; Byte.x2c] = true).
Proof.
  apply (signed_order_preserving Int16Serde 16); [set_solver|done..].
Defined.

(** every primitive serializer decodes what it encodes, over the whole
    range of its type (floats by bit pattern, runes over the scalar values). *)
Theorem primitive_roundtrip cap :
  cap ≤ isize_max →
  LawfulSerde (λ _, True) cap BoolSerde ∧
  LawfulSerde (in_s 8) cap Int8Serde ∧ LawfulSerde (in_u 8) cap UInt8Serde ∧
  LawfulSerde (in_s 16) cap Int16Serde ∧ LawfulSerde (in_u 16) cap UInt16Serde ∧
  LawfulSerde (in_s 32) cap Int32Serde ∧ LawfulSerde (in_u 32) cap UInt32Serde ∧
  LawfulSerde (in_s 64) cap Int64Serde ∧ LawfulSerde (in_u 64) cap UInt64Serde ∧
  LawfulSerde (λ c, is_scalar c = true) cap RuneSerde ∧
  LawfulSerde (in_u 32) cap Float32Serde ∧ LawfulSerde (in_u 64) cap Float64Serde.
Proof.
  intros Hcap.
  split_and!; first [apply bool_lawful | apply rune_lawful | apply float32_lawful
    | apply float64_lawful | apply unsigned_lawful | apply signed_lawful];
    first [done | apply _ | by split; vm_compute].
Qed.

Lemma primitive_roundtrip_witness :
  deserialize Int32Serde [Byte.x7f; Byte.xff; Byte.xff; Byte.xfe] = Ok (-2).
Proof.
  destruct (primitive_roundtrip isize_max ltac:(done)) as (_&_&_&_&_&H&_).
  apply (H (-2)); vm_compute; done.
Defined.

(** C8: the container serializers decode what they encode whenever their
    element serializers do, so round trips compose to any nesting depth:
    strings, byte sequences, string arrays, arrays of framed elements, arrays
    of fixed-size elements and key-value pairs, within the configured limits. *)
Theorem container_roundtrip {T U} cap limits (wf : T → Prop) (wf' : U → Prop)
    elem elem' size_of ELEMENT_SIZE :
  cap ≤ isize_max → cap ≤ max_total_bytes limits → 0 ≤ ELEMENT_SIZE →
  LawfulSerde wf cap elem → LawfulSerde wf' cap elem' →
  LawfulSerde (λ _, True) cap (StringSerde limits) ∧
  LawfulSerde (λ _, True) cap (BytesSerde limits) ∧
  LawfulSerde (vec_wf (λ _, True) STRING_SIZE) cap (StringArraySerde limits) ∧
  LawfulSerde (vec_wf wf size_of) cap (ArraySerde elem size_of limits) ∧
  LawfulSerde (vec_wf wf size_of) cap (FixedSizeArraySerde elem size_of ELEMENT_SIZE limits) ∧
  LawfulSerde (λ kv, wf (kv_key kv) ∧ wf' (kv_value kv)) cap (StreamKeyValueSerde elem elem').
Proof.
  intros. split_and!; first [by apply string_lawful | by apply bytes_lawful
    | by apply string_array_lawful | by apply array_lawful
    | by apply fixed_array_lawful | by apply key_value_lawful].
Qed.

Lemma container_roundtrip_witness :
  deserialize (ArraySerde Int16Serde 2 (SerdeLimits_default))
    (to_be 8 2 ++ to_be 8 2 ++ [Byte.x80; Byte.x07] ++ to_be 8 2 ++ [Byte.x7f; Byte.xff])
  = Ok [7; -1].
Proof.
  destruct (container_roundtrip isize_max SerdeLimits_default (in_s 16) (λ _ : bool, True)
    Int16Serde BoolSerde 2 2) as (_ & _ & _ & H & _); [done..| | |].
  - apply signed_lawful; [done|apply _|by split].
  - by apply bool_lawful.
  - apply (H [7; -1]); [|vm_compute; done..].
    split_and!; [repeat constructor; done|vm_compute; done..].
Defined.

(** a map survives the round trip whatever order its entries were iterated
    in, although the wire format is the two parallel arrays of keys and values
    in that order. *)
Theorem map_roundtrip `{Countable K} {V} cap (iter : gmap K V → list (K * V))
    size_k size_v wfk wfv ks vs m bs :
  cap ≤ isize_max → (∀ m, iter m ≡ₚ map_to_list m) →
  LawfulSerde wfk cap ks → LawfulSerde wfv cap vs → wfk (iter m).*1 → wfv (iter m).*2 →
  serialize (MapSerde iter size_k size_v ks vs) m = Ok bs → len bs ≤ cap →
  deserialize (MapSerde iter size_k size_v ks vs) bs = Ok m.
Proof.
  intros ? Hiter ? ? Hk Hv Hs Hl.
  exact (map_lawful cap ltac:(done) iter Hiter size_k size_v wfk wfv ks vs m bs (conj Hk Hv) Hs Hl).
Qed.

Lemma map_roundtrip_witness :
  let s := MapSerde (λ m : gmap Z Z, map_to_list m) 1 2
             (UInt8ArraySerde SerdeLimits_default) (Int16ArraySerde SerdeLimits_default) in
  ∃ bs, serialize s {[3 := -7; 9 := 4]} = Ok bs ∧ deserialize s bs = Ok {[3 := -7; 9 := 4]}.
Proof.
  eexists. split; [vm_compute; reflexivity|].
  apply (map_roundtrip isize_max _ 1 2 (vec_wf (in_u 8) 1) (vec_wf (in_s 16) 2));
    [done|done| | | | |vm_compute; reflexivity|done].
  - apply fixed_array_lawful; [done..|apply unsigned_lawful; first [done|apply _]|done].
  - apply fixed_array_lawful; [done..|apply signed_lawful; [done|apply _|by split]|done].
  - split_and!; [|vm_compute; done..]. vm_compute (map_to_list _). repeat constructor; done.
  - split_and!; [|vm_compute; done..]. vm_compute (map_to_list _). repeat constructor; done.
Defined.

(** the decoders of primitives, strings, byte sequences and fixed-size
    arrays are total: whatever bytes arrive, they answer with a value or a
    [SerdeError] and never panic, because the array decoder checks the payload
    against the input before it allocates. *)
Theorem decoders_total {T} (elem : Serde T) size_of ELEMENT_SIZE limits :
  TotalDecoder elem → 0 ≤ size_of ≤ ELEMENT_SIZE →
  TotalDecoder BoolSerde ∧ TotalDecoder Int8Serde ∧ TotalDecoder Int64Serde ∧
  TotalDecoder UInt64Serde ∧ TotalDecoder RuneSerde ∧ TotalDecoder Float64Serde ∧
  TotalDecoder (StringSerde limits) ∧ TotalDecoder (BytesSerde limits) ∧
  TotalDecoder (FixedSizeArraySerde elem size_of ELEMENT_SIZE limits).
Proof. intros. split_and!; apply _ || by apply fixed_array_total. Qed.

Lemma decoders_total_witness :
  deserialize (Int64ArraySerde SerdeLimits_default) (to_be 8 (2 ^ 61)) ≠ Panic.
Proof.
  apply (decoders_total Int64Serde 8 8 SerdeLimits_default); [apply _|done|done].
Defined.

(** arrays of strings and arrays of framed elements allocate for the count
    the input announces before any element is read: a count whose vector would
    exceed [isize::MAX] bytes makes them panic, where the fixed-size arrays of
    C5 report an error. *)
Theorem unbounded_count_panics {T} (elem : Serde T) size_of count rest :
  len (to_be 8 count ++ rest) ≤ isize_max → 0 ≤ count ≤ usize_max →
  (count * STRING_SIZE > isize_max →
    deserialize (StringArraySerde SerdeLimits_default) (to_be 8 count ++ rest) = Panic) ∧
  (count * size_of > isize_max →
    deserialize (ArraySerde elem size_of SerdeLimits_default) (to_be 8 count ++ rest) = Panic).
Proof.
  intros Hlen Hc. assert (to_be 8 count = to_be 8 (wrap_u 64 count)) as Hb
    by (rewrite wrap_u_id; [done|unfold in_u, usize_max in *; lia]). rewrite Hb in *.
  split; intros Hbig; unfold StringArraySerde, ArraySerde; cbn [deserialize];
    rewrite bind_bind, (read_count isize_max); try first [done | cbn; lia];
    cbn [mbind outcome_bind]; unfold with_capacity; by rewrite decide_False by lia.
Qed.

Lemma unbounded_count_panics_witness :
  deserialize (StringArraySerde SerdeLimits_default) (to_be 8 (2 ^ 60)) = Panic.
Proof.
  destruct (unbounded_count_panics BoolSerde 1 (2 ^ 60) []) as [H _]; [vm_compute; done..|].
  by apply H.
Defined.
