(* ===== verification/SerdeRegistry.v ===== *)
(** The serializer registry, [src/src/runtime/serde/registry.rs]: type-erased
    serializers resolved per service and type.

    [TypeId] is an identity per Rust type: the built-in scalars, vectors of
    them, and any other type ([Other]), whose values the model leaves open. *)

From S2P Require Import Prelude Errors Serde.
From Stdlib Require Import Strings.Byte.
Local Open Scope Z_scope.

Inductive Scalar :=
| TBool | TChar | TI8 | TI16 | TI32 | TI64 | TU8 | TU16 | TU32 | TU64 | TF32 | TF64 | TString.
Inductive TypeId := TScalar (s : Scalar) | TVec (s : Scalar) | Other (id : positive).

#[export] Instance scalar_eq_dec : EqDecision Scalar.
Proof. solve_decision. Defined.
#[export] Instance type_id_eq_dec : EqDecision TypeId.
Proof. solve_decision. Defined.

(** A countable code, so that types can key a map. *)
Definition scalar_code (s : Scalar) : nat :=
  match s with
  | TBool => 0 | TChar => 1 | TI8 => 2 | TI16 => 3 | TI32 => 4 | TI64 => 5 | TU8 => 6 | TU16 => 7
  | TU32 => 8 | TU64 => 9 | TF32 => 10 | TF64 => 11 | TString => 12
  end.
Definition scalars : list Scalar :=
  [TBool; TChar; TI8; TI16; TI32; TI64; TU8; TU16; TU32; TU64; TF32; TF64; TString].
#[export] Instance scalar_countable : Countable Scalar.
Proof. refine (inj_countable scalar_code (λ n, scalars !! n) _). by intros []. Defined.
#[export] Instance type_id_countable : Countable TypeId.
Proof.
  refine (inj_countable' (λ t, match t with TScalar s => inl s | TVec s => inr (inl s) | Other n => inr (inr n) end)
    (λ x : Scalar + (Scalar + positive),
      match x with inl s => TScalar s | inr (inl s) => TVec s | inr (inr n) => Other n end) _).
  by intros [].
Defined.

(** The values of a type; the elements of [Vec<u8>] are bytes. *)
Definition scalar_value (s : Scalar) : Type :=
  match s with TBool => bool | TString => rstring | _ => Z end.
Section registry.
Context (other : positive → Type).
Definition value (t : TypeId) : Type :=
  match t with
  | TScalar s => scalar_value s
  | TVec TU8 => list byte
  | TVec s => list (scalar_value s)
  | Other n => other n
  end.

(** [Serializer]: a stream serializer with the identity of its type. *)
Record Serializer := MkSerializer { tag : TypeId; erased : StreamSerde (value tag) }.
Definition Serializer_new (t : TypeId) (s : Serde (value t)) : Serializer :=
  MkSerializer t (make_stream_serde s).
Definition downcast (t : TypeId) (s : Serializer) : option (StreamSerde (value t)) :=
  match decide (tag s = t) with
  | left e => Some (eq_rect (tag s) (λ t, StreamSerde (value t)) (erased s) t e)
  | right _ => None
  end.

(** ** Default serializers *)
Definition scalar_serde (s : Scalar) : Serde (scalar_value s) :=
  match s with
  | TBool => BoolSerde
  | TChar => RuneSerde
  | TI8 => Int8Serde
  | TI16 => Int16Serde
  | TI32 => Int32Serde
  | TI64 => Int64Serde
  | TU8 => UInt8Serde
  | TU16 => UInt16Serde
  | TU32 => UInt32Serde
  | TU64 => UInt64Serde
  | TF32 => Float32Serde
  | TF64 => Float64Serde
  | TString => StringSerde SerdeLimits_default
  end.
(** [std::mem::size_of] *)
Definition scalar_size (s : Scalar) : Z :=
  match s with
  | TBool | TI8 | TU8 => 1 | TI16 | TU16 => 2 | TChar | TI32 | TU32 | TF32 => 4
  | TI64 | TU64 | TF64 => 8 | TString => STRING_SIZE
  end.
Definition vec_serde (s : Scalar) : Serde (value (TVec s)) :=
  let array s := ArraySerde (scalar_serde s) (scalar_size s) SerdeLimits_default in
  match s with
  | TU8 => BytesSerde SerdeLimits_default
  | TBool => array TBool | TChar => array TChar | TI8 => array TI8 | TI16 => array TI16
  | TI32 => array TI32 | TI64 => array TI64 | TU16 => array TU16 | TU32 => array TU32
  | TU64 => array TU64 | TF32 => array TF32 | TF64 => array TF64 | TString => array TString
  end.
Definition default_serializer (t : TypeId) : option Serializer :=
  match t with
  | TVec s => Some (Serializer_new (TVec s) (vec_serde s))
  | TScalar s => Some (Serializer_new (TScalar s) (scalar_serde s))
  | Other _ => None
  end.

(** ** The registry *)
(** A provider is user code; it sees the environment through its service. *)
Definition SerdeProvider : Type := TypeId → option Z → RuntimeResult (option Serializer).
Record RegistryState := MkRegistry {
  providers : gmap (option Z) SerdeProvider;
  serializers : gmap (option Z * TypeId) Serializer }.
Definition registry_new : RegistryState := MkRegistry ∅ ∅.

Definition set_provider (service : option Z) (p : SerdeProvider) (st : RegistryState) :
    RuntimeResult unit * RegistryState :=
  if decide (is_Some (providers st !! service)) then (Err (DuplicateResource "service serde provider"), st)
  else if existsb (λ k, bool_decide (k.1.1 = service)) (map_to_list (serializers st))
  then (Err (DuplicateResource "service serde provider"), st)
  else (Ok tt, MkRegistry (<[service := p]> (providers st)) (serializers st)).

Definition typed (type_name : TypeId → string) (t : TypeId) (s : Serializer) : RuntimeResult (StreamSerde (value t)) :=
  ok_or (downcast t s) (InvalidConfiguration
    ("serde provider returned an incompatible serializer for " +:+ type_name t)).

Context (type_name : TypeId → string).
(** [get] up to the write lock: a cached serializer, or the one selected by
    the provider, the defaults and the stub. *)
Definition get_begin (service : option Z) (t : TypeId) (st : RegistryState) :
    RuntimeResult (StreamSerde (value t) + Serializer) :=
  match serializers st !! (service, t) with
  | Some s => inl <$> typed type_name t s
  | None =>
      selected ← match providers st !! service with Some p => p t service | None => Ok None end;
      let selected :=
        match selected with
        | Some s => s
        | None => match default_serializer t with
                  | Some s => s
                  | None => Serializer_new t (StubSerde (value t))
                  end
        end in
      _ ← typed type_name t selected;
      Ok (inr selected)
  end.
(** Under the write lock: [entry(key).or_insert(selected)]. *)
Definition get_end (service : option Z) (t : TypeId) (selected : Serializer) (st : RegistryState) :
    RuntimeResult (StreamSerde (value t)) * RegistryState :=
  let table := or_insert (serializers st) ((service, t), selected) in
  (match table !! (service, t) with Some s => typed type_name t s | None => Panic end,
   MkRegistry (providers st) table).
Definition get (service : option Z) (t : TypeId) (st : RegistryState) :
    RuntimeResult (StreamSerde (value t)) * RegistryState :=
  match get_begin service t st with
  | Ok (inl serde) => (Ok serde, st)
  | Ok (inr selected) => get_end service t selected st
  | Err e => (Err e, st)
  | Panic => (Panic, st)
  end.

Definition cache (service : option Z) (t : TypeId) (serde : StreamSerde (value t)) (st : RegistryState) :
    RuntimeResult (StreamSerde (value t)) * RegistryState :=
  let table := or_insert (serializers st) ((service, t), MkSerializer t serde) in
  (match table !! (service, t) ≫= downcast t with Some s => Ok s | None => Panic end,
   MkRegistry (providers st) table).

(** [RuntimeEnvironment::make_serde]: a failed resolution leaves a stub. *)
Definition make_serde (service : option Z) (t : TypeId) (st : RegistryState) :
    RuntimeResult (StreamSerde (value t)) * RegistryState :=
  match get service t st with
  | (Err _, st) => cache service t (make_stream_serde (StubSerde (value t))) st
  | r => r
  end.

(** ** Interleaved uses: another thread can act between the two halves of a
    [get], so the selection may come from any earlier state. *)
Inductive registry_step : RegistryState → RegistryState → Prop :=
| rs_provider service p st : registry_step st (set_provider service p st).2
| rs_get service t st0 selected st :
    get_begin service t st0 = Ok (inr selected) → registry_step st (get_end service t selected st).2
| rs_cache service t serde st : registry_step st (cache service t serde st).2.
Definition registry_reachable (st : RegistryState) : Prop := rtc registry_step registry_new st.

(** ** Lemmas *)
(** Every serializer is stored under its own type. *)
Definition well_tagged (st : RegistryState) : Prop :=
  ∀ k s, serializers st !! k = Some s → tag s = k.2.

Lemma downcast_tag t s : tag s = t ↔ is_Some (downcast t s).
Proof. unfold downcast. destruct (decide (tag s = t)); naive_solver. Qed.
Lemma typed_tag t s : tag s = t ↔ ∃ x, typed type_name t s = Ok x.
Proof.
  rewrite downcast_tag. unfold typed. destruct (downcast t s); cbn; naive_solver.
Qed.
Lemma or_insert_lookup {K} `{Countable K} {V} (m : gmap K V) k v k' :
  or_insert m (k, v) !! k' = match m !! k' with
                             | Some w => Some w
                             | None => if decide (k = k') then Some v else None
                             end.
Proof.
  unfold or_insert; cbn. destruct (m !! k) eqn:Hk.
  - destruct (m !! k') eqn:Hk'; [done|]. rewrite decide_False; [done|congruence].
  - case_decide as He; simplify_eq.
    + by rewrite Hk, lookup_insert_eq.
    + rewrite lookup_insert_ne by done. by destruct (m !! k').
Qed.
Lemma or_insert_tagged st service t s :
  well_tagged st → tag s = t →
  well_tagged (MkRegistry (providers st) (or_insert (serializers st) ((service, t), s))).
Proof.
  intros Hst Hs k s'. cbn. rewrite or_insert_lookup. destruct (serializers st !! k) eqn:Hk.
  - intros [= <-]. by apply Hst.
  - case_decide; naive_solver.
Qed.
Lemma get_begin_tag service t st selected : get_begin service t st = Ok (inr selected) → tag selected = t.
Proof.
  unfold get_begin. destruct (serializers st !! (service, t)) as [s|].
  - by destruct (typed type_name t s).
  - intros H. outcome_inv. simplify_eq. apply typed_tag. eauto.
Qed.

Lemma registry_step_spec st st' :
  registry_step st st' → well_tagged st → well_tagged st' ∧ serializers st ⊆ serializers st'.
Proof.
  intros Hs Hst. destruct Hs as [service p st|service t st0 selected st Hb|service t serde st].
  - unfold set_provider. repeat case_match; cbn; split; done.
  - apply get_begin_tag in Hb. split; [by apply or_insert_tagged|].
    apply map_subseteq_spec. intros k s Hk. cbn. by rewrite or_insert_lookup, Hk.
  - split; [by apply (or_insert_tagged _ _ _ (MkSerializer t serde))|].
    apply map_subseteq_spec. intros k s Hk. cbn. by rewrite or_insert_lookup, Hk.
Qed.
Lemma registry_steps_spec st st' :
  rtc registry_step st st' → well_tagged st → well_tagged st' ∧ serializers st ⊆ serializers st'.
Proof.
  induction 1 as [st|st st1 st2 Hs _ IH]; intros Hst; [done|].
  destruct (registry_step_spec _ _ Hs Hst) as [H1 H2]. destruct (IH H1) as [H3 H4].
  split; [done|]. by etrans.
Qed.
Lemma registry_reachable_tagged st : registry_reachable st → well_tagged st.
Proof. intros Hr. apply (registry_steps_spec _ _ Hr). intros k s. cbn. by rewrite lookup_empty. Qed.

Lemma get_cached service t st s serde :
  serializers st !! (service, t) = Some s → typed type_name t s = Ok serde → get service t st = (Ok serde, st).
Proof. intros Hs Ht. unfold get, get_begin. by rewrite Hs, Ht. Qed.
(** A [get] that succeeds leaves what it returned in the table. *)
Lemma get_stores service t st serde st1 :
  get service t st = (Ok serde, st1) →
  (st1 = st ∨ registry_step st st1) ∧
  ∃ s, serializers st1 !! (service, t) = Some s ∧ typed type_name t s = Ok serde.
Proof.
  unfold get. destruct (get_begin service t st) as [[x|selected]|e|] eqn:Hb; try done.
  - intros [= -> <-]. split; [by left|]. unfold get_begin in Hb.
    destruct (serializers st !! (service, t)) as [s|] eqn:Hs.
    + exists s. split; [done|]. destruct (typed type_name t s); cbn in Hb; by simplify_eq.
    + outcome_inv. done.
  - intros [=Hr <-]. split; [right; by apply (rs_get service t st selected st)|].
    unfold get_end in *; cbn in *. destruct (or_insert _ _ !! _) as [s|] eqn:Hs; [|done]. by exists s.
Qed.
Lemma cache_ok service t serde st :
  well_tagged st → ∃ x st1, cache service t serde st = (Ok x, st1) ∧ get service t st1 = (Ok x, st1).
Proof.
  intros Hst. unfold cache. set (table := or_insert _ _).
  assert (∃ s, table !! (service, t) = Some s ∧ tag s = t) as (s & Hs & Ht).
  { unfold table. rewrite or_insert_lookup. destruct (serializers st !! (service, t)) as [s|] eqn:He.
    - exists s. split; [done|]. by apply (Hst _ _ He).
    - rewrite decide_True by done. eauto. }
  rewrite Hs; cbn [mbind option_bind]. apply downcast_tag in Ht as [x Hx]. rewrite Hx. do 2 eexists. split; [done|].
  eapply get_cached; [exact Hs|]. unfold typed. by rewrite Hx.
Qed.
End registry.

(** * Properties *)

(** a service uses one serializer per type.  Once a lookup succeeded,
    every later lookup of that type returns the same serializer and changes
    nothing, however other threads register, resolve and cache in between;
    and caching never meets a serializer of another type. *)
Theorem registry_one_serializer other type_name st service t serde st1 st2 :
  registry_reachable other type_name st →
  get other type_name service t st = (Ok serde, st1) →
  rtc (registry_step other type_name) st1 st2 →
  get other type_name service t st2 = (Ok serde, st2) ∧
  ∀ service' t' serde', (cache other service' t' serde' st2).1 ≠ Panic.
Proof.
  intros Hr%registry_reachable_tagged Hget Hsteps.
  destruct (get_stores _ _ _ _ _ _ _ Hget) as [Hst1 (s & Hs & Ht)].
  assert (well_tagged other st1) as Hw1.
  { destruct Hst1 as [->|Hstep]; [done|]. by apply (registry_step_spec _ _ _ _ Hstep). }
  destruct (registry_steps_spec _ _ _ _ Hsteps Hw1) as [Hw2 Hsub]. split.
  - eapply get_cached; [|exact Ht]. by eapply lookup_weaken.
  - intros service' t' serde'. by destruct (cache_ok other type_name service' t' serde' st2 Hw2)
      as (x & st3 & -> & _).
Qed.

(** [make_serde] is total: unless a provider panics it returns a
    serializer, which later lookups of that type return too; a type that
    cannot be resolved gets the stub instead of an error. *)
Theorem make_serde_total other type_name st service t :
  registry_reachable other type_name st →
  (∀ p, providers other st !! service = Some p → p t service ≠ Panic) →
  ∃ serde st1, make_serde other type_name service t st = (Ok serde, st1) ∧
    get other type_name service t st1 = (Ok serde, st1).
Proof.
  intros Hr%registry_reachable_tagged Hp. unfold make_serde.
  destruct (get other type_name service t st) as [[serde|e|] st1] eqn:Hget.
  - destruct (get_stores _ _ _ _ _ _ _ Hget) as [_ (s & Hs & Ht)]. do 2 eexists. split; [done|].
    by eapply get_cached.
  - assert (st1 = st) as ->.
    { unfold get in Hget. destruct (get_begin other type_name service t st) as [[x|sel]| |] eqn:Hb; try congruence.
      apply get_begin_tag in Hb. unfold get_end in Hget. injection Hget as Hres _. rewrite or_insert_lookup in Hres.
      destruct (serializers other st !! (service, t)) as [s|] eqn:Hs.
      - destruct (proj1 (typed_tag other type_name t s) (Hr _ _ Hs)) as [x Hx]. congruence.
      - rewrite decide_True in Hres by done.
        destruct (proj1 (typed_tag other type_name t sel) Hb) as [x Hx]. congruence. }
    by apply cache_ok.
  - exfalso. unfold get in Hget. destruct (get_begin other type_name service t st) as [[x|sel]| |] eqn:Hb; try congruence.
    + unfold get_end in Hget. injection Hget as Hres _. rewrite or_insert_lookup in Hres.
      destruct (serializers other st !! (service, t)) as [s|]; [|rewrite decide_True in Hres by done];
        unfold typed in Hres; by destruct (downcast _ _ _).
    + unfold get_begin in Hb. destruct (serializers other st !! (service, t)) as [s|].
      { unfold typed in Hb. by destruct (downcast _ _ _). }
      apply bind_Panic in Hb as [Hb|(sel & _ & Hb)].
      * destruct (providers other st !! service) as [p|] eqn:Hpr; [|done]. by apply (Hp p).
      * apply bind_Panic in Hb as [Hb|(? & _ & Hb)]; [|done]. unfold typed in Hb. by destruct (downcast _ _ _).
Qed.

Notation no_others := (λ _ : positive, unit).
Notation no_names := (λ _ : TypeId, "T").
Lemma registry_one_serializer_witness :
  get no_others no_names (Some 1) (TScalar TI32)
    (get no_others no_names (Some 1) (TScalar TI32) (registry_new no_others)).2 =
  (Ok (make_stream_serde Int32Serde), (get no_others no_names (Some 1) (TScalar TI32) (registry_new no_others)).2).
Proof.
  apply (registry_one_serializer no_others no_names (registry_new no_others) (Some 1) (TScalar TI32)
    (make_stream_serde Int32Serde) (get no_others no_names (Some 1) (TScalar TI32) (registry_new no_others)).2).
  - apply rtc_refl.
  - reflexivity.
  - apply rtc_refl.
Defined.

Lemma make_serde_total_witness :
  ∃ serde st1, make_serde no_others no_names None (Other 1) (registry_new no_others) = (Ok serde, st1) ∧
    get no_others no_names None (Other 1) st1 = (Ok serde, st1).
Proof.
  apply (make_serde_total no_others no_names (registry_new no_others) None (Other 1)).
  - apply rtc_refl.
  - intros p Hp. vm_compute in Hp. discriminate Hp.
Defined.
