(* ===== verification/RotatingMap.v ===== *)
(** The sharded hash map with capacity reclamation of
    [src/src/runtime/store/rotatingmap.rs].

    The state keeps the two generations of every shard and the lifecycle
    flags.  [HashMap]s are [gmap]s; bucket capacities are not observable and
    are left out.  [hash] is the keyed hash of [RandomState].  The abstract
    object is one plain map with a lifecycle phase, and the map refines it
    under every sequence of operations and rotations. *)

From S2P Require Import Prelude Errors.
Local Open Scope Z_scope.

Definition ROTATING_MAP_SHRINK_FACTOR : Z := 4.
Definition DEFAULT_ROTATING_MAP_MIN_CAPACITY : Z := 1000.
Definition ROTATING_MAP_SHARDS : nat := 64.

Section rotating_map.
Context `{Countable K} {V : Type} (hash : K → Z).

Record Maps := MkMaps {
  current : gmap K V;
  previous : gmap K V;
  high_water_mark : Z }.

Record RotatingMap := MkRotatingMap {
  shards : list Maps;
  interval : Z;
  started : bool;
  stopped : bool;
  cancellation : bool;
  rotation_task : bool;
  min_capacity : Z }.

Definition with_min_capacity (interval min_capacity : Z) : RuntimeResult RotatingMap :=
  if decide (interval = 0) then Panic
  else Ok (MkRotatingMap (replicate ROTATING_MAP_SHARDS (MkMaps ∅ ∅ 0)) interval
             false false false false min_capacity).

Definition new (interval : Z) : RuntimeResult RotatingMap :=
  with_min_capacity interval DEFAULT_ROTATING_MAP_MIN_CAPACITY.

Definition set_shards (m : RotatingMap) (s : list Maps) : RotatingMap :=
  MkRotatingMap s (interval m) (started m) (stopped m) (cancellation m)
    (rotation_task m) (min_capacity m).

Definition shard (m : RotatingMap) (key : K) : nat :=
  Z.to_nat (wrap_u 64 (hash key) mod Z.of_nat (length (shards m))).

(** Runs [f] under the lock of the shard of [key]; indexing is checked. *)
Definition on_shard {R} (m : RotatingMap) (key : K)
    (f : Maps → RuntimeResult R * Maps) : RuntimeResult R * RotatingMap :=
  match shards m !! shard m key with
  | None => (Panic, m)
  | Some maps =>
      let '(r, maps) := f maps in
      (r, set_shards m (<[shard m key := maps]> (shards m)))
  end.

Definition upd_current (maps : Maps) (c : gmap K V) : Maps :=
  MkMaps c (previous maps) (high_water_mark maps).
Definition upd_previous (maps : Maps) (p : gmap K V) : Maps :=
  MkMaps (current maps) p (high_water_mark maps).

Definition set (m : RotatingMap) (key : K) (value : V) : RuntimeResult unit * RotatingMap :=
  on_shard m key (λ maps,
    if decide (is_Some (current maps !! key) ∨ is_Some (previous maps !! key))
    then (Err DuplicateKey, maps)
    else (Ok tt, upd_current maps (<[key := value]> (current maps)))).

Definition get_or_create (m : RotatingMap) (key : K) (factory : unit → V) :
    RuntimeResult (V * bool) * RotatingMap :=
  on_shard m key (λ maps,
    match current maps !! key with
    | Some v => (Ok (v, true), maps)
    | None =>
        match previous maps !! key with
        | Some v => (Ok (v, true), maps)
        | None =>
            let value := factory tt in
            (Ok (value, false), upd_current maps (<[key := value]> (current maps)))
        end
    end).

Definition get (m : RotatingMap) (key : K) : RuntimeResult (option V) * RotatingMap :=
  on_shard m key (λ maps,
    (Ok (match current maps !! key with
         | Some v => Some v
         | None => previous maps !! key
         end), maps)).

Definition pop (m : RotatingMap) (key : K) : RuntimeResult (option V) * RotatingMap :=
  on_shard m key (λ maps,
    match current maps !! key with
    | Some v => (Ok (Some v), upd_current maps (delete key (current maps)))
    | None => (Ok (previous maps !! key), upd_previous maps (delete key (previous maps)))
    end).

Definition pop_if (m : RotatingMap) (key : K) (predicate : V → bool) :
    RuntimeResult (option V) * RotatingMap :=
  on_shard m key (λ maps,
    match current maps !! key with
    | Some v =>
        if predicate v then (Ok (Some v), upd_current maps (delete key (current maps)))
        else (Ok None, maps)
    | None =>
        match previous maps !! key with
        | Some v =>
            if predicate v then (Ok (Some v), upd_previous maps (delete key (previous maps)))
            else (Ok None, maps)
        | None => (Ok None, maps)
        end
    end).

Definition rotate_shard (maps : Maps) (min_capacity : Z) : Maps :=
  let total := Z.of_nat (size (current maps)) + Z.of_nat (size (previous maps)) in
  let should_rotate :=
    bool_decide (high_water_mark maps = 0) ||
    bool_decide (saturating_mul usize_max total ROTATING_MAP_SHRINK_FACTOR
                 < high_water_mark maps) in
  let high := Z.max (high_water_mark maps) total in
  if decide (high < min_capacity) then MkMaps (current maps) (previous maps) high
  else if negb should_rotate then MkMaps (current maps) (previous maps) high
  else
    let fresh := collect_map (map_to_list (current maps)) in
    let fresh := foldl or_insert fresh (map_to_list (previous maps)) in
    MkMaps ∅ fresh total.

Definition rotate (m : RotatingMap) : RotatingMap :=
  set_shards m ((λ maps, rotate_shard maps (min_capacity m)) <$> shards m).

(** The [Storage] lifecycle. *)
Definition start (m : RotatingMap) : RuntimeResult unit * RotatingMap :=
  if stopped m then (Err (ResourceStopped "rotating map"), m)
  else if started m then (Err (ResourceAlreadyStarted "rotating map"), m)
  else (Ok tt, MkRotatingMap (shards m) (interval m) true (stopped m) (cancellation m)
                 true (min_capacity m)).

(** [stop] cancels the rotation task and waits for its end. *)
Definition stop (m : RotatingMap) : RotatingMap :=
  MkRotatingMap (shards m) (interval m) (started m) true true false (min_capacity m).

(** One wake-up of [rotation_loop], which runs from [start] to [stop]. *)
Definition rotation_tick (m : RotatingMap) : RotatingMap :=
  if rotation_task m && negb (cancellation m) then rotate m else m.
End rotating_map.
Arguments Maps K {_ _} V.
Arguments RotatingMap K {_ _} V.

(** * The abstract object: one map and a lifecycle phase *)
Inductive Phase := Fresh | Running | Closed.

Inductive MapOp (K V : Type) :=
| OpSet (key : K) (value : V)
| OpGetOrCreate (key : K) (factory : unit → V)
| OpGet (key : K)
| OpPop (key : K)
| OpPopIf (key : K) (predicate : V → bool)
| OpRotate
| OpTick
| OpStart
| OpStop.
Arguments OpSet {K V}. Arguments OpGetOrCreate {K V}. Arguments OpGet {K V}.
Arguments OpPop {K V}. Arguments OpPopIf {K V}. Arguments OpRotate {K V}.
Arguments OpTick {K V}. Arguments OpStart {K V}. Arguments OpStop {K V}.

Inductive MapOut (V : Type) :=
| OutUnit (r : RuntimeResult unit)
| OutCreated (r : RuntimeResult (V * bool))
| OutValue (r : RuntimeResult (option V)).
Arguments OutUnit {V}. Arguments OutCreated {V}. Arguments OutValue {V}.

Section refinement.
Context `{Countable K} {V : Type} (hash : K → Z).
Implicit Types (m : RotatingMap K V) (maps : Maps K V) (M : gmap K V).

Definition map_step (op : MapOp K V) (m : RotatingMap K V) : MapOut V * RotatingMap K V :=
  match op with
  | OpSet k v => let '(r, m) := set hash m k v in (OutUnit r, m)
  | OpGetOrCreate k f => let '(r, m) := get_or_create hash m k f in (OutCreated r, m)
  | OpGet k => let '(r, m) := get hash m k in (OutValue r, m)
  | OpPop k => let '(r, m) := pop hash m k in (OutValue r, m)
  | OpPopIf k p => let '(r, m) := pop_if hash m k p in (OutValue r, m)
  | OpRotate => (OutUnit (Ok tt), rotate m)
  | OpTick => (OutUnit (Ok tt), rotation_tick m)
  | OpStart => let '(r, m) := start m in (OutUnit r, m)
  | OpStop => (OutUnit (Ok tt), stop m)
  end.

Definition spec_step (op : MapOp K V) (s : gmap K V * Phase) : MapOut V * (gmap K V * Phase) :=
  let '(M, ph) := s in
  match op with
  | OpSet k v =>
      match M !! k with
      | Some _ => (OutUnit (Err DuplicateKey), s)
      | None => (OutUnit (Ok tt), (<[k := v]> M, ph))
      end
  | OpGetOrCreate k f =>
      match M !! k with
      | Some v => (OutCreated (Ok (v, true)), s)
      | None => (OutCreated (Ok (f tt, false)), (<[k := f tt]> M, ph))
      end
  | OpGet k => (OutValue (Ok (M !! k)), s)
  | OpPop k => (OutValue (Ok (M !! k)), (delete k M, ph))
  | OpPopIf k p =>
      match M !! k with
      | Some v => if p v then (OutValue (Ok (Some v)), (delete k M, ph))
                  else (OutValue (Ok None), s)
      | None => (OutValue (Ok None), s)
      end
  | OpRotate | OpTick => (OutUnit (Ok tt), s)
  | OpStart =>
      match ph with
      | Fresh => (OutUnit (Ok tt), (M, Running))
      | Running => (OutUnit (Err (ResourceAlreadyStarted "rotating map")), s)
      | Closed => (OutUnit (Err (ResourceStopped "rotating map")), s)
      end
  | OpStop => (OutUnit (Ok tt), (M, Closed))
  end.

Definition entries (maps : Maps K V) : gmap K V := current maps ∪ previous maps.

(** The shard invariant: the generations are disjoint and a key only lives
    in the shard it hashes to. *)
Definition index (k : K) : nat := Z.to_nat (wrap_u 64 (hash k) mod Z.of_nat ROTATING_MAP_SHARDS).
Definition shard_inv (M : gmap K V) (i : nat) (maps : Maps K V) : Prop :=
  current maps ##ₘ previous maps ∧
  ∀ k, entries maps !! k = if decide (index k = i) then M !! k else None.

Definition shards_rep (M : gmap K V) (s : list (Maps K V)) : Prop :=
  length s = ROTATING_MAP_SHARDS ∧ ∀ i maps, s !! i = Some maps → shard_inv M i maps.

Definition phase_rep (ph : Phase) (m : RotatingMap K V) : Prop :=
  match ph with
  | Fresh => started m = false ∧ stopped m = false
  | Running => started m = true ∧ stopped m = false
  | Closed => stopped m = true
  end.

Definition rep (m : RotatingMap K V) (s : gmap K V * Phase) : Prop :=
  shards_rep s.1 (shards m) ∧ phase_rep s.2 m.

Lemma index_lt k : (index k < ROTATING_MAP_SHARDS)%nat.
Proof.
  unfold index. pose proof (Z.mod_pos_bound (wrap_u 64 (hash k))
    (Z.of_nat ROTATING_MAP_SHARDS) ltac:(done)). lia.
Qed.

Lemma shards_rep_lookup M m k :
  shards_rep M (shards m) →
  shard hash m k = index k ∧ ∃ maps, shards m !! index k = Some maps ∧ shard_inv M (index k) maps.
Proof.
  intros [Hlen Hinv]. split; [unfold shard, index; by rewrite Hlen|].
  destruct (lookup_lt_is_Some_2 (shards m) (index k)) as [maps Hm];
    [rewrite Hlen; apply index_lt|]. eauto.
Qed.

Lemma shards_rep_insert M M' s k maps :
  shards_rep M s → shard_inv M' (index k) maps → (∀ k', k' ≠ k → M' !! k' = M !! k') →
  shards_rep M' (<[index k := maps]> s).
Proof.
  intros [Hlen Hinv] Hmaps Hother. split; [by rewrite length_insert|].
  intros i maps' [(<- & <- & _)|[Hne Hi]]%list_lookup_insert_Some; [done|].
  destruct (Hinv i maps' Hi) as [Hd He]. split; [done|]. intros k'. rewrite He.
  case_decide as Hk; [|done]. symmetry. apply Hother. by intros ->.
Qed.

(** An operation on one key: what it does to a shard is what the
    specification does to the map at that key. *)
Lemma on_shard_rep {R} M m k (f : Maps K V → RuntimeResult R * Maps K V) r M' :
  shards_rep M (shards m) →
  (∀ maps, shard_inv M (index k) maps →
    (f maps).1 = r ∧ shard_inv M' (index k) (f maps).2) →
  (∀ k', k' ≠ k → M' !! k' = M !! k') →
  (on_shard hash m k f).1 = r ∧ ∃ s, (on_shard hash m k f).2 = set_shards m s ∧ shards_rep M' s.
Proof.
  intros Hrep Hf Hother. destruct (shards_rep_lookup M m k Hrep) as (Hs & maps & Hl & Hinv).
  unfold on_shard. rewrite Hs, Hl. destruct (Hf maps Hinv) as [Hr Hi].
  destruct (f maps) as [r' maps']; cbn in *. split; [done|].
  eexists; split; [done|]. by eapply shards_rep_insert.
Qed.

Lemma shard_lookup M i maps k :
  shard_inv M i maps → index k = i →
  M !! k = match current maps !! k with Some v => Some v | None => previous maps !! k end.
Proof.
  intros [_ He] Hi. specialize (He k). rewrite decide_True in He by done. rewrite <-He.
  unfold entries. rewrite lookup_union. by destruct (current maps !! k), (previous maps !! k).
Qed.
Lemma shard_insert M i maps k v :
  shard_inv M i maps → index k = i → M !! k = None →
  shard_inv (<[k := v]> M) i (upd_current maps (<[k := v]> (current maps))).
Proof.
  intros Hinv Hi Hnone. pose proof (shard_lookup _ _ _ _ Hinv Hi) as Hl. rewrite Hnone in Hl.
  destruct Hinv as [Hd He]. split; cbn.
  - apply map_disjoint_insert_l. split; [|done]. by destruct (current maps !! k).
  - intros k'. unfold entries; cbn. rewrite <-insert_union_l.
    destruct (decide (k = k')) as [<-|]; [by rewrite !lookup_insert_eq, decide_True|].
    rewrite !lookup_insert_ne by done. apply He.
Qed.
Lemma shard_delete_current M i maps k :
  shard_inv M i maps → index k = i → is_Some (current maps !! k) →
  shard_inv (delete k M) i (upd_current maps (delete k (current maps))).
Proof.
  intros [Hd He] Hi [v Hk]. split; cbn; [by apply map_disjoint_delete_l|].
  intros k'. unfold entries in *; cbn.
  assert (previous maps !! k = None) by (by eapply map_disjoint_Some_l).
  rewrite <-(delete_id (previous maps) k), <-delete_union by done.
  destruct (decide (k = k')) as [<-|]; [by rewrite !lookup_delete_eq; case_decide|].
  rewrite !lookup_delete_ne by done. apply He.
Qed.
Lemma shard_delete_previous M i maps k :
  shard_inv M i maps → index k = i → current maps !! k = None →
  shard_inv (delete k M) i (upd_previous maps (delete k (previous maps))).
Proof.
  intros [Hd He] Hi Hk. split; cbn; [by apply map_disjoint_delete_r|].
  intros k'. unfold entries in *; cbn. rewrite <-(delete_id (current maps) k), <-delete_union by done.
  destruct (decide (k = k')) as [<-|]; [by rewrite !lookup_delete_eq; case_decide|].
  rewrite !lookup_delete_ne by done. apply He.
Qed.

(** Rotation only regroups: the entries of the shard stay the same. *)
Lemma rotate_shard_entries maps c : entries (rotate_shard maps c) = entries maps.
Proof.
  unfold rotate_shard. repeat case_match; try done. unfold entries; cbn.
  rewrite (left_id_L ∅ (∪)), or_insert_list, (collect_map_iter (current maps)) by done.
  by rewrite list_to_map_to_list.
Qed.
Lemma rotate_shard_inv M i maps c : shard_inv M i maps → shard_inv M i (rotate_shard maps c).
Proof.
  intros [Hd He]. split; [|by rewrite rotate_shard_entries].
  unfold rotate_shard. repeat case_match; try done. apply map_disjoint_empty_l.
Qed.
Lemma rotate_rep M m : shards_rep M (shards m) → shards_rep M (shards (rotate m)).
Proof.
  intros [Hlen Hinv]. split; cbn; [by rewrite length_fmap|].
  intros i maps' (maps & -> & Hm)%list_lookup_fmap_Some. eauto using rotate_shard_inv.
Qed.

(** The keyed operations against the specification, one lemma each. *)
Notation answers res r M' m :=
  (res.1 = r ∧ ∃ s, res.2 = set_shards m s ∧ shards_rep M' s).

Ltac key_op k Hk :=
  apply (on_shard_rep _ _ _ _ _ _ ltac:(eassumption));
  [intros maps Hinv; pose proof (shard_lookup _ _ _ k Hinv eq_refl) as Hl; rewrite Hk in Hl;
   destruct (current maps !! k) eqn:?, (previous maps !! k) eqn:?; simplify_eq/=
  |intros k' Hne; rewrite ?lookup_insert_ne, ?lookup_delete_ne by done; done].

Lemma set_rep M m k v : shards_rep M (shards m) →
  answers (set hash m k v) (if M !! k is Some _ then Err DuplicateKey else Ok tt)
    (if M !! k is Some _ then M else <[k := v]> M) m.
Proof.
  intros Hrep. unfold set. destruct (M !! k) eqn:Hk; key_op k Hk;
    split; cbn; try done; by apply shard_insert.
Qed.
Lemma get_or_create_rep M m k f : shards_rep M (shards m) →
  answers (get_or_create hash m k f)
    (Ok (if M !! k is Some v then (v, true) else (f tt, false)))
    (if M !! k is Some _ then M else <[k := f tt]> M) m.
Proof.
  intros Hrep. unfold get_or_create. destruct (M !! k) eqn:Hk; key_op k Hk;
    split; cbn; try done; by apply shard_insert.
Qed.
Lemma get_rep M m k : shards_rep M (shards m) → answers (get hash m k) (Ok (M !! k)) M m.
Proof. intros Hrep. unfold get. destruct (M !! k) eqn:Hk; key_op k Hk; done. Qed.
Lemma pop_rep M m k : shards_rep M (shards m) →
  answers (pop hash m k) (Ok (M !! k)) (delete k M) m.
Proof.
  intros Hrep. unfold pop. destruct (M !! k) eqn:Hk; key_op k Hk; split; cbn; try done;
    first [by apply shard_delete_current; eauto | by apply shard_delete_previous].
Qed.
Lemma pop_if_rep M m k p : shards_rep M (shards m) →
  answers (pop_if hash m k p)
    (Ok (if M !! k is Some v then if p v then Some v else None else None))
    (if M !! k is Some v then if p v then delete k M else M else M) m.
Proof.
  intros Hrep. unfold pop_if.
  destruct (M !! k) as [v|] eqn:Hk; [destruct (p v) eqn:Hp|]; key_op k Hk;
    rewrite ?Hp; split; cbn; try done;
    first [by apply shard_delete_current; eauto | by apply shard_delete_previous].
Qed.

#[export] Instance rotating_refines : Refines map_step spec_step rep.
Proof.
  intros op m [M ph] [Hrep Hph]. cbn in Hrep, Hph.
  destruct op as [k v|k f|k|k|k p| | | |]; cbn [map_step spec_step].
  - destruct (set_rep M m k v Hrep) as [Hr (s & Hm & Hs)], (set hash m k v), (M !! k);
      cbn in *; by subst.
  - destruct (get_or_create_rep M m k f Hrep) as [Hr (s & Hm & Hs)],
      (get_or_create hash m k f), (M !! k); cbn in *; by subst.
  - destruct (get_rep M m k Hrep) as [Hr (s & Hm & Hs)], (get hash m k); cbn in *; by subst.
  - destruct (pop_rep M m k Hrep) as [Hr (s & Hm & Hs)], (pop hash m k); cbn in *; by subst.
  - destruct (pop_if_rep M m k p Hrep) as [Hr (s & Hm & Hs)], (pop_if hash m k p),
      (M !! k) as [v|]; [destruct (p v)|]; cbn in *; by subst.
  - split; [done|]. split; [by apply rotate_rep|done].
  - split; [done|]. unfold rotation_tick. case_match; [|done].
    split; [by apply rotate_rep|done].
  - unfold start. destruct ph; cbn in Hph;
      [destruct Hph as [Hst Hsp]; rewrite ?Hst, ?Hsp..|rewrite Hph];
      (split; [done|]; split; [done|]); cbn; by rewrite ?Hst, ?Hsp.
  - done.
Qed.

Lemma with_min_capacity_rep interval c m :
  with_min_capacity interval c = Ok m → rep m (∅, Fresh).
Proof.
  unfold with_min_capacity. case_decide; [done|]. intros <-%(inj Ok). split; [|done].
  split; [done|]. cbn [shards fst].
  intros i maps [-> _]%lookup_replicate. split; cbn; [apply map_disjoint_empty_l|].
  intros k. unfold entries; cbn. rewrite (left_id_L ∅ (∪)), lookup_empty. by case_decide.
Qed.
End refinement.

(** * Properties *)

(** C31: a rotating map is one plain map: whatever the hash function, the
    minimum capacity and the interleaving of operations, manual rotations,
    rotation ticks, start and stop, every answer is the answer of a single
    unsharded map with a lifecycle phase.  Rotation never expires an entry. *)
Theorem rotating_map_is_map `{Countable K} {V} (hash : K → Z) interval c m
    (ops : list (MapOp K V)) :
  with_min_capacity interval c = Ok m →
  (run_ops (map_step hash) m ops).1 = (run_ops spec_step (∅, Fresh) ops).1.
Proof. intros Hm. by apply (run_refines _ _ (rep hash)), (with_min_capacity_rep _ interval c). Qed.

Lemma rotating_map_is_map_witness :
  ∃ m, with_min_capacity 60 1 = Ok m ∧
  (run_ops (map_step (λ k : Z, 7 * k)) m
    [OpSet 1 10; OpSet 65 11; OpRotate; OpSet 1 12; OpPopIf 65 (λ v, bool_decide (v = 11));
     OpStart; OpTick; OpGet 1; OpStop; OpStart]).1
  = [OutUnit (Ok tt); OutUnit (Ok tt); OutUnit (Ok tt); OutUnit (Err DuplicateKey);
     OutValue (Ok (Some 11)); OutUnit (Ok tt); OutUnit (Ok tt); OutValue (Ok (Some 10));
     OutUnit (Ok tt); OutUnit (Err (ResourceStopped "rotating map"))].
Proof.
  eexists. split; [reflexivity|]. rewrite (rotating_map_is_map _ 60 1) by reflexivity.
  vm_compute. reflexivity.
Defined.

(** a shard is regrouped exactly when it has once held the minimum
    capacity and now holds less than a quarter of its high water mark, or is
    inspected for the first time; its high water mark then restarts at the
    current size, and otherwise grows to it. *)
Theorem rotate_shard_policy `{Countable K} {V} (maps : Maps K V) c :
  let total := Z.of_nat (size (current maps)) + Z.of_nat (size (previous maps)) in
  let high := high_water_mark maps in
  0 ≤ high → total * ROTATING_MAP_SHRINK_FACTOR ≤ usize_max →
  (c ≤ Z.max high total ∧ (high = 0 ∨ total * 4 < high) →
    rotate_shard maps c = MkMaps ∅ (current maps ∪ previous maps) total) ∧
  (~ (c ≤ Z.max high total ∧ (high = 0 ∨ total * 4 < high)) →
    rotate_shard maps c = MkMaps (current maps) (previous maps) (Z.max high total)).
Proof.
  intros total high Hhigh Hfit. unfold rotate_shard, saturating_mul. fold total high.
  rewrite (Z.min_r usize_max) by done. unfold ROTATING_MAP_SHRINK_FACTOR.
  rewrite or_insert_list, (collect_map_iter (current maps)), list_to_map_to_list by done.
  split.
  - intros [Hc Hr]. rewrite decide_False by lia. repeat case_bool_decide; done || lia.
  - intros Hn. case_decide; [done|]. repeat case_bool_decide; try done; exfalso; apply Hn; lia.
Qed.

Lemma rotate_shard_policy_witness :
  rotate_shard (MkMaps {[1 := 5]} {[2 := 6]} 9) 8 = MkMaps ∅ ({[1 := 5]} ∪ {[2 := 6]} : gmap Z Z) 2.
Proof.
  destruct (rotate_shard_policy (MkMaps {[1 := 5]} {[2 := 6]} 9 : Maps Z Z) 8) as [Hr _];
    [done|vm_compute; done|].
  apply Hr. split; [vm_compute; done|right; vm_compute; done].
Defined.
