(* ===== verification/CallbackStore.v ===== *)
(** The callback table of the gRPC source,
    [src/src/datasource/grpc/callback_store.rs]: one callback is kept inline,
    and the table becomes a hash map when a second identifier is registered.
    It refines a plain map from identifiers to callbacks. *)

From S2P Require Import Prelude.

Section callback_store.
Context {C : Type}.

Inductive CallbackStore :=
| Inline (slot : option (string * C))
| Many (many : gmap string C).

Definition new : CallbackStore := Inline None.

Definition insert (self : CallbackStore) (id : string) (callback : C) :
    option C * CallbackStore :=
  match self with
  | Inline None => (None, Inline (Some (id, callback)))
  | Inline (Some (key, value)) =>
      if decide (key = id) then (Some value, Inline (Some (key, callback)))
      else (None, Many (<[id := callback]> (<[key := value]> ∅)))
  | Many many => (many !! id, Many (<[id := callback]> many))
  end.

Definition get (self : CallbackStore) (id : string) : option C :=
  match self with
  | Inline (Some (key, value)) => if decide (key = id) then Some value else None
  | Inline None => None
  | Many many => many !! id
  end.

Definition remove (self : CallbackStore) (id : string) : option C * CallbackStore :=
  match self with
  | Inline (Some (key, value)) =>
      if decide (key = id) then (Some value, Inline None) else (None, self)
  | Inline None => (None, self)
  | Many many => (many !! id, Many (delete id many))
  end.

Inductive StoreOp := OpInsert (id : string) (callback : C) | OpGet (id : string)
                   | OpRemove (id : string).

Definition store_step (op : StoreOp) (self : CallbackStore) : option C * CallbackStore :=
  match op with
  | OpInsert id c => insert self id c
  | OpGet id => (get self id, self)
  | OpRemove id => remove self id
  end.

(** [HashMap<String, C>]. *)
Definition hash_map_step (op : StoreOp) (m : gmap string C) : option C * gmap string C :=
  match op with
  | OpInsert id c => (m !! id, <[id := c]> m)
  | OpGet id => (m !! id, m)
  | OpRemove id => (m !! id, delete id m)
  end.

Definition store_map (self : CallbackStore) : gmap string C :=
  match self with
  | Inline None => ∅
  | Inline (Some (key, value)) => {[ key := value ]}
  | Many many => many
  end.

#[export] Instance store_refines :
  Refines store_step hash_map_step (λ s m, store_map s = m).
Proof.
  intros [id c|id|id] [[[key value]|]|many] m <-; cbn; try done;
    try (case_decide as Hk; subst); cbn;
    rewrite ?lookup_singleton_eq, ?lookup_singleton_ne, ?lookup_empty by done;
    split; try done.
  - by rewrite insert_singleton_eq.
  - by rewrite delete_singleton_eq.
  - by rewrite delete_singleton_ne.
Qed.
End callback_store.
Arguments CallbackStore C : clear implicits.
Arguments StoreOp C : clear implicits.

(** the callback table answers every sequence of registrations, lookups
    and removals exactly like a hash map, whether it is inline or not. *)
Theorem callback_store_is_map {C} (ops : list (StoreOp C)) :
  (run_ops store_step new ops).1 = (run_ops hash_map_step ∅ ops).1.
Proof. by apply (run_refines _ _ (λ s m, store_map s = m)). Qed.
