(* ===== verification/RequestTable.v ===== *)
(** Requests and the results that serve them: what the gRPC, HTTP and Kafka
    sources have in common.

    The three sources keep a pending map from a stream identifier to a request
    ([Arc<PendingRequest>], [Arc<KafkaResult>]), and a result that finds its
    request there holds the request's lifetime lock for reading while it runs a
    callback.  A source says what its requests and its results are
    ([RequestView], [ResultView]); the invariant [table_inv] ties the pending
    map, the readers of the locks and the results under way together, and the
    lemmas below say when a move of a request or of a result keeps it. *)

From S2P Require Import Prelude.

(** [v_reserved]: the request is in the pending map; [v_open]: a result may be
    under way for it; [v_ok] is the source's own invariant of a request. *)
Class RequestView (Req C : Type) := {
  v_sid : Req → string;
  v_reserved : Req → bool;
  v_open : Req → bool;
  v_readers : Req → gset nat;
  v_registered : Req → list (string * C);
  v_ok : nat → Req → Prop;
  reserved_open r : v_reserved r = true → v_open r = true }.
(** [v_target]: the request a result has found; [v_held]: the one whose lock it
    holds; [v_serves]: it has seen the request in the pending map under the
    lock; [v_callback]: the callback it runs. *)
Class ResultView (Res C : Type) := {
  v_id : Res → option string;
  v_target : Res → option nat;
  v_held : Res → option nat;
  v_serves : Res → bool;
  v_callback : Res → option (string * C);
  held_target x a : v_held x = Some a → v_target x = Some a;
  serves_held x a : v_serves x = true → v_target x = Some a → v_held x = Some a;
  callback_serves x ic : v_callback x = Some ic → v_serves x = true }.

Section table.
Context {Req Res C : Type} `{!RequestView Req C} `{!ResultView Res C}.
Implicit Types (pd : gmap string nat) (rq : gmap nat Req) (rs : gmap nat Res) (r : Req) (x : Res).

Record serving x r : Prop := {
  sv_sid : v_serves x = true → v_id x = Some (v_sid r) ∧ v_open r = true;
  sv_callback : ∀ ic, v_callback x = Some ic → ic ∈ v_registered r }.
Record table_inv pd rq rs (n : nat) : Prop := {
  i_requests : ∀ a r, rq !! a = Some r → (a < n)%nat ∧ v_ok a r;
  i_results : ∀ t x, rs !! t = Some x → (t < n)%nat;
  i_pending : ∀ id a, pd !! id = Some a ↔ ∃ r, rq !! a = Some r ∧ v_sid r = id ∧ v_reserved r = true;
  i_readers : ∀ a r t, rq !! a = Some r → t ∈ v_readers r ↔ ∃ x, rs !! t = Some x ∧ v_held x = Some a;
  i_target : ∀ t x a, rs !! t = Some x → v_target x = Some a → ∃ r, rq !! a = Some r ∧ serving x r }.

Lemma table_empty n : table_inv ∅ ∅ ∅ n.
Proof.
  split; intros *; rewrite ?lookup_empty; try done. split; [done|]. by intros (? & ? & _).
Qed.
Lemma table_reserved pd rq rs n a r :
  table_inv pd rq rs n → rq !! a = Some r → v_reserved r = true → pd !! v_sid r = Some a.
Proof. intros Hi Hr Hrv. apply (i_pending _ _ _ _ Hi). eauto. Qed.
Lemma table_target pd rq rs n t x a r :
  table_inv pd rq rs n → rs !! t = Some x → v_target x = Some a → rq !! a = Some r → serving x r.
Proof. intros Hi Hx Ha Hr. destruct (i_target _ _ _ _ Hi _ _ _ Hx Ha) as (r' & ? & ?). congruence. Qed.
Lemma table_reader pd rq rs n t x a :
  table_inv pd rq rs n → rs !! t = Some x → v_held x = Some a → ∃ r, rq !! a = Some r ∧ t ∈ v_readers r.
Proof.
  intros Hi Hx Hh. destruct (i_target _ _ _ _ Hi _ _ _ Hx (held_target _ _ Hh)) as (r & Hr & _). exists r.
  split; [done|]. apply (i_readers _ _ _ _ Hi _ _ _ Hr). eauto.
Qed.
Lemma table_fresh_request pd rq rs n : table_inv pd rq rs n → rq !! n = None.
Proof. intros Hi. destruct (rq !! n) eqn:He; [|done]. apply (i_requests _ _ _ _ Hi) in He as [? _]. lia. Qed.
Lemma table_fresh_result pd rq rs n : table_inv pd rq rs n → rs !! n = None.
Proof. intros Hi. destruct (rs !! n) eqn:He; [|done]. apply (i_results _ _ _ _ Hi) in He. lia. Qed.

(** A request moves. *)
Lemma table_request pd pd' rq rs n a r r' :
  table_inv pd rq rs n → rq !! a = Some r → v_ok a r' →
  (∀ id b, pd' !! id = Some b ↔ (a = b ∧ v_sid r' = id ∧ v_reserved r' = true) ∨ (a ≠ b ∧ pd !! id = Some b)) →
  v_readers r' = v_readers r → v_registered r ⊆ v_registered r' →
  (v_open r = true → v_readers r ≠ ∅ → v_sid r' = v_sid r ∧ v_open r' = true) →
  table_inv pd' (<[a := r']> rq) rs n.
Proof.
  intros [H1 H2 H3 H4 H5] Hr Hok Hp Hre Hreg Hkeep. split.
  - intros b rb. rewrite lookup_insert_Some. intros [[<- <-]|[_ Hb]]; [|by apply H1]. split; [by apply (H1 a r)|done].
  - exact H2.
  - intros id b. rewrite Hp. destruct (decide (a = b)) as [<-|Hab].
    + rewrite lookup_insert_eq. split; [intros [(_ & ? & ?)|[]]; by eauto|]. intros (? & ? & ? & ?). simplify_eq. auto.
    + rewrite lookup_insert_ne, <-H3 by done. split; [by intros [[]|[_ ?]]|auto].
  - intros b rb t. rewrite lookup_insert_Some. intros [[<- <-]|[_ Hb]]; [|by apply H4]. rewrite Hre. by apply H4.
  - intros t x b Hx Hb. destruct (H5 _ _ _ Hx Hb) as (rb & Hrb & Hs1 & Hs2).
    destruct (decide (a = b)) as [<-|]; [|rewrite lookup_insert_ne by done; by exists rb]. simplify_eq.
    exists r'. rewrite lookup_insert_eq. split; [done|]. split.
    + intros Hsv. destruct (Hs1 Hsv) as [Hsid Hop]. assert (Ht : t ∈ v_readers r).
      { apply (H4 _ _ _ Hr). exists x. by eauto using serves_held. }
      destruct (Hkeep Hop) as [-> ?]; [|done]. intros He. rewrite He in Ht. set_solver.
    + intros ic Hc. apply Hreg. by eapply Hs2.
Qed.
(** The pending map stays: the request keeps its identifier, or has none. *)
Lemma table_keep pd rq rs n a r r' :
  table_inv pd rq rs n → rq !! a = Some r → v_ok a r' →
  v_readers r' = v_readers r → v_registered r ⊆ v_registered r' →
  v_reserved r' = v_reserved r → (v_open r = true → v_sid r' = v_sid r) →
  (v_open r = true → v_readers r ≠ ∅ → v_open r' = true) → table_inv pd (<[a := r']> rq) rs n.
Proof.
  intros Hi Hr Hok Hre Hreg Hrv Hsid Hop. eapply table_request; [exact Hi|exact Hr|exact Hok| |done|done|auto].
  pose proof (reserved_open r) as Hro. intros id b. rewrite Hrv. destruct (decide (a = b)) as [<-|Hab].
  - rewrite (i_pending _ _ _ _ Hi). split; [|intros [(_ & ? & ?)|[]]; [|done]; exists r; rewrite <-Hsid by auto; auto].
    intros (r0 & ? & <- & ?). simplify_eq. left. by rewrite Hsid by auto.
  - split; [auto|]. by intros [[]|[_ ?]].
Qed.
(** A request takes its identifier, which is free. *)
Lemma table_take pd rq rs n a r r' :
  table_inv pd rq rs n → rq !! a = Some r → v_open r = false → pd !! v_sid r' = None → v_reserved r' = true →
  v_ok a r' → v_readers r' = v_readers r → v_registered r ⊆ v_registered r' →
  table_inv (<[v_sid r' := a]> pd) (<[a := r']> rq) rs n.
Proof.
  intros Hi Hr Ho Hp Hrv' Hok Hre Hreg.
  assert (Hrv : v_reserved r = false) by (destruct (v_reserved r) eqn:He; [by rewrite reserved_open in Ho|done]).
  eapply table_request; [exact Hi|exact Hr|exact Hok| |done|done|congruence].
  intros id b. rewrite lookup_insert_Some. split.
  - intros [[<- <-]|[Hid Hb]]; [by left|right]. split; [|done]. intros <-.
    apply (i_pending _ _ _ _ Hi) in Hb as (? & ? & ? & ?). simplify_eq. congruence.
  - intros [(-> & -> & _)|[Hne Hb]]; [by left|]. right. split; congruence.
Qed.
(** A request gives its identifier up. *)
Lemma table_give_up pd rq rs n a r r' :
  table_inv pd rq rs n → rq !! a = Some r → v_reserved r = true → v_reserved r' = false →
  v_ok a r' → v_readers r' = v_readers r → v_registered r ⊆ v_registered r' →
  (v_readers r ≠ ∅ → v_sid r' = v_sid r ∧ v_open r' = true) →
  table_inv (delete (v_sid r) pd) (<[a := r']> rq) rs n.
Proof.
  intros Hi Hr Hrv Hrv' Hok Hre Hreg Hop. pose proof (table_reserved _ _ _ _ _ _ Hi Hr Hrv) as Hres.
  eapply table_request; [exact Hi|exact Hr|exact Hok| |done|done|auto].
  intros id b. rewrite lookup_delete_Some. split.
  - intros [Hid Hb]. right. split; [|done]. intros <-. apply Hid.
    apply (i_pending _ _ _ _ Hi) in Hb as (? & ? & ? & ?). by simplify_eq.
  - intros [(_ & _ & ?)|[Hne Hb]]; [congruence|]. split; congruence.
Qed.
(** Every request moves, and nothing the table sees changes. *)
Lemma table_fmap pd rq rs n (f : Req → Req) :
  table_inv pd rq rs n → (∀ a r, v_ok a r → v_ok a (f r)) → (∀ r, v_sid (f r) = v_sid r) →
  (∀ r, v_reserved (f r) = v_reserved r) → (∀ r, v_open (f r) = v_open r) → (∀ r, v_readers (f r) = v_readers r) →
  (∀ r, v_registered (f r) = v_registered r) → table_inv pd (f <$> rq) rs n.
Proof.
  intros [H1 H2 H3 H4 H5] Hok Hsid Hrv Hop Hre Hreg. split.
  - intros a r. rewrite lookup_fmap, fmap_Some. intros (r0 & [? ?]%H1 & ->). auto.
  - exact H2.
  - intros id a. rewrite H3, lookup_fmap. destruct (rq !! a) as [r|]; cbn.
    + split; intros (? & [= <-] & ? & ?); eexists; (split; [done|]); rewrite ?Hsid, ?Hrv in *; done.
    + by split; intros (? & ? & _).
  - intros a r t. rewrite lookup_fmap, fmap_Some. intros (r0 & Hr & ->). rewrite Hre. by apply H4.
  - intros t x a Hx Ha. destruct (H5 _ _ _ Hx Ha) as (r & Hr & [Hs1 Hs2]). exists (f r).
    rewrite lookup_fmap, Hr. split; [done|]. split; rewrite ?Hsid, ?Hop, ?Hreg; done.
Qed.
(** A request arrives. *)
Lemma table_request_arrives pd rq rs n r :
  table_inv pd rq rs n → v_ok n r → v_reserved r = false → v_readers r = ∅ → table_inv pd (<[n := r]> rq) rs (S n).
Proof.
  intros Hi Hok Hrv Hre. pose proof (table_fresh_request _ _ _ _ Hi) as Hfr. destruct Hi as [H1 H2 H3 H4 H5]. split.
  - intros a r'. rewrite lookup_insert_Some. intros [[<- <-]|[_ [? ?]%H1]]; (split; [lia|done]).
  - intros t x Hx%H2. lia.
  - intros id a. rewrite H3. destruct (decide (a = n)) as [->|]; [|by rewrite lookup_insert_ne].
    rewrite lookup_insert_eq, Hfr. split; [by intros (? & ? & _)|]. intros (? & [= <-] & _ & ?). congruence.
  - intros a r' t. rewrite lookup_insert_Some. intros [[<- <-]|[_ Hr]]; [|by apply H4]. rewrite Hre.
    split; [set_solver|]. intros (x & Hx & Hh%held_target). destruct (H5 _ _ _ Hx Hh) as (? & ? & _). congruence.
  - intros t x a Hx Ha. destruct (H5 _ _ _ Hx Ha) as (r' & Hr & Hs). exists r'.
    rewrite lookup_insert_ne by congruence. done.
Qed.

(** A result moves, its lock stays. *)
Lemma table_result pd rq rs n t x x' :
  table_inv pd rq rs n → rs !! t = Some x → v_held x' = v_held x →
  (∀ a, v_target x' = Some a → ∃ r, rq !! a = Some r ∧ serving x' r) → table_inv pd rq (<[t := x']> rs) n.
Proof.
  intros [H1 H2 H3 H4 H5] Hx Hh Ht. split; [exact H1| |exact H3| |].
  - intros t' y. rewrite lookup_insert_Some. intros [[<- <-]|[_ Hy]]; by eapply H2.
  - intros a r t' Hr. rewrite (H4 _ _ _ Hr). destruct (decide (t = t')) as [<-|]; [|by rewrite lookup_insert_ne].
    rewrite lookup_insert_eq, Hx. split; intros (? & ? & ?); simplify_eq; eexists; split; try done; congruence.
  - intros t' y a. rewrite lookup_insert_Some. intros [[<- <-]|[_ Hy]]; [apply Ht|by eapply H5].
Qed.
(** A result moves and the readers of the request [a] move with it. *)
Lemma table_lock pd rq rs n t x x' a r r' :
  table_inv pd rq rs n → rs !! t = Some x → rq !! a = Some r → v_ok a r' →
  v_sid r' = v_sid r → v_reserved r' = v_reserved r → v_open r' = v_open r → v_registered r' = v_registered r →
  (∀ t', t' ∈ v_readers r' ↔ (t' = t ∧ v_held x' = Some a) ∨ (t' ≠ t ∧ t' ∈ v_readers r)) →
  (v_held x = None ∨ v_held x = Some a) → (v_held x' = None ∨ v_held x' = Some a) →
  v_serves x' = false → (∀ b, v_target x' = Some b → b = a) →
  table_inv pd (<[a := r']> rq) (<[t := x']> rs) n.
Proof.
  intros [H1 H2 H3 H4 H5] Hx Hr Hok Hsid Hrv Hop Hreg Hrs Hh Hh' Hsv Ht. split.
  - intros b rb. rewrite lookup_insert_Some. intros [[<- <-]|[_ Hb]]; [|by apply H1]. split; [by apply (H1 a r)|done].
  - intros t' y. rewrite lookup_insert_Some. intros [[<- <-]|[_ Hy]]; by eapply H2.
  - intros id b. rewrite H3. destruct (decide (a = b)) as [<-|]; [|by rewrite lookup_insert_ne].
    rewrite lookup_insert_eq. split; intros (r0 & Hr0 & ? & ?); simplify_eq; eexists; (split; [done|]); split; congruence.
  - intros b rb t'. rewrite lookup_insert_Some. intros [[<- <-]|[Hab Hb]].
    + rewrite Hrs. destruct (decide (t = t')) as [<-|Hne].
      * rewrite lookup_insert_eq. split; [intros [[_ ?]|[]]; by eauto|]. intros (? & ? & ?). simplify_eq. auto.
      * rewrite lookup_insert_ne, (H4 _ _ _ Hr) by done. split; [by intros [[]|[_ ?]]|auto].
    + rewrite (H4 _ _ _ Hb). destruct (decide (t = t')) as [<-|]; [|by rewrite lookup_insert_ne].
      rewrite lookup_insert_eq, Hx. split; intros (? & ? & ?); simplify_eq; exfalso; destruct Hh, Hh'; congruence.
  - intros t' y b. rewrite lookup_insert_Some. intros [[<- <-]|[_ Hy]] Hb.
    + rewrite (Ht _ Hb), lookup_insert_eq. eexists. split; [done|]. split; [congruence|].
      intros ic Hc%callback_serves. congruence.
    + destruct (H5 _ _ _ Hy Hb) as (rb & Hrb & Hs). destruct (decide (a = b)) as [<-|]; [|by rewrite lookup_insert_ne; eauto].
      simplify_eq. rewrite lookup_insert_eq. eexists. split; [done|]. destruct Hs as [Hs1 Hs2].
      split; rewrite ?Hsid, ?Hop, ?Hreg; done.
Qed.
Lemma table_result_arrives pd rq rs n x :
  table_inv pd rq rs n → v_target x = None → table_inv pd rq (<[n := x]> rs) (S n).
Proof.
  intros Hi Ht. pose proof (table_fresh_result _ _ _ _ Hi) as Hfr. destruct Hi as [H1 H2 H3 H4 H5]. split; [|..]; try done.
  - intros a r [? ?]%H1. split; [lia|done].
  - intros t y. rewrite lookup_insert_Some. intros [[<- <-]|[_ Hx%H2]]; lia.
  - intros a r t Hr. rewrite (H4 _ _ _ Hr). destruct (decide (t = n)) as [->|]; [|by rewrite lookup_insert_ne].
    rewrite lookup_insert_eq, Hfr. split; [by intros (? & ? & _)|]. intros (? & [= <-] & Hh%held_target). congruence.
  - intros t y a. rewrite lookup_insert_Some. intros [[<- <-]|[_ Hx]]; [congruence|by eapply H5].
Qed.
(** A result that no longer serves, or serves as it did. *)
Lemma serving_move x x' r :
  serving x r → v_id x' = v_id x → (v_serves x' = true → v_serves x = true) → v_callback x' = None → serving x' r.
Proof. intros [H1 H2] Hid Hs Hc. split; [rewrite Hid; auto|congruence]. Qed.
End table.

(** * Results of the HTTP and Kafka sources *)
(** Where a result is in [consume_result]. *)
Inductive ResultPc {C : Type} :=
| SGet
| SLock (a : nat)                       (** [lifetime.read] *)
| SCurrent (a : nat)                    (** [Arc::ptr_eq] *)
| SMessageId (a : nat)                  (** [get_message_id] runs *)
| SFind (a : nat) (message_id : string)
| SCallback (a : nat) (message_id : string) (callback : C)
| SDelete (a : nat) (message_id : string)
| SRelease (a : nat)
| SDone.
Arguments ResultPc : clear implicits.
Record Result {C : Type} := MkResult { s_sid : option string; s_pc : ResultPc C }.
Arguments Result : clear implicits.
Arguments MkResult {C}.
(** The request whose read guard the result holds. *)
Definition held {C} (g : ResultPc C) : option nat :=
  match g with
  | SCurrent a | SMessageId a | SFind a _ | SCallback a _ _ | SDelete a _ | SRelease a => Some a
  | _ => None
  end.
Definition target {C} (g : ResultPc C) : option nat := match g with SLock a => Some a | _ => held g end.
Definition serves {C} (g : ResultPc C) : bool :=
  match g with SMessageId _ | SFind _ _ | SCallback _ _ _ | SDelete _ _ => true | _ => false end.
#[export, refine] Instance result_view C : ResultView (Result C) C := {|
  v_id := s_sid; v_target x := target (s_pc x); v_held x := held (s_pc x); v_serves x := serves (s_pc x);
  v_callback x := match s_pc x with SCallback _ id c => Some (id, c) | _ => None end |}.
Proof. all: intros x; destruct (s_pc x); intros *; (done || by intros [= ->]). Defined.

Section results.
Context {Req C : Type} `{!RequestView Req C}.
Implicit Types (pd : gmap string nat) (rq : gmap nat Req) (rs : gmap nat (Result C)) (r : Req) (x : Result C) (g : ResultPc C).

Lemma results_target pd rq rs n t x a :
  table_inv pd rq rs n → rs !! t = Some x → target (s_pc x) = Some a → ∃ r, rq !! a = Some r ∧ serving x r.
Proof. intros Hi Hx Ha. by eapply (i_target _ _ _ _ Hi). Qed.
(** The result goes on with the request it has, and starts nothing. *)
Lemma results_same pd rq rs n t x g :
  table_inv pd rq rs n → rs !! t = Some x → held g = held (s_pc x) →
  (target g = None ∨ target g = target (s_pc x)) → (serves g = true → serves (s_pc x) = true) →
  (∀ a id c, g ≠ SCallback a id c) → table_inv pd rq (<[t := MkResult (s_sid x) g]> rs) n.
Proof.
  intros Hi Hx Hh Ht Hsv Hc. eapply table_result; [done|exact Hx|done|]. cbn. intros a Ha.
  destruct Ht as [Ht|Ht]; [congruence|]. rewrite Ht in Ha. destruct (results_target _ _ _ _ _ _ _ Hi Hx Ha) as (r & Hr & Hs).
  exists r. split; [done|]. apply (serving_move x); try done. cbn.
  destruct g as [|b|b|b|b mid|b mid c|b mid|b|]; try done. by destruct (Hc b mid c).
Qed.
Lemma results_found pd rq rs n t x id a :
  table_inv pd rq rs n → rs !! t = Some x → s_pc x = SGet → pd !! id = Some a →
  table_inv pd rq (<[t := MkResult (s_sid x) (SLock a)]> rs) n.
Proof.
  intros Hi Hx Hpc Hp. eapply table_result; [done|exact Hx|cbn; by rewrite Hpc|]. intros b [= <-].
  apply (i_pending _ _ _ _ Hi) in Hp as (r & Hr & _). exists r. by split.
Qed.
Lemma results_current pd rq rs n t x a :
  table_inv pd rq rs n → rs !! t = Some x → s_pc x = SCurrent a → (s_sid x ≫= λ id, pd !! id) = Some a →
  table_inv pd rq (<[t := MkResult (s_sid x) (SMessageId a)]> rs) n.
Proof.
  intros Hi Hx Hpc Hp. eapply table_result; [done|exact Hx|cbn; by rewrite Hpc|]. intros b [= <-].
  destruct (s_sid x) as [id|] eqn:Hsid; [|done]. cbn in Hp. apply (i_pending _ _ _ _ Hi) in Hp as (r & Hr & <- & Hrv).
  exists r. split; [done|]. split; [|done]. intros _. split; [done|]. by apply reserved_open.
Qed.
Lemma results_callback pd rq rs n t x a r id c :
  table_inv pd rq rs n → rs !! t = Some x → s_pc x = SFind a id → rq !! a = Some r → (id, c) ∈ v_registered r →
  table_inv pd rq (<[t := MkResult (s_sid x) (SCallback a id c)]> rs) n.
Proof.
  intros Hi Hx Hpc Hr Hc. eapply table_result; [done|exact Hx|cbn; by rewrite Hpc|]. intros b [= <-].
  destruct (results_target _ _ _ _ _ _ a Hi Hx) as (r' & ? & Hs & _); [by rewrite Hpc|]. simplify_eq. exists r.
  split; [done|]. split; cbn in *; [by rewrite Hpc in Hs|]. by intros ic [= <-].
Qed.
Lemma results_hold pd rq rs n t x a r r' :
  table_inv pd rq rs n → rs !! t = Some x → s_pc x = SLock a → rq !! a = Some r → v_ok a r' →
  v_sid r' = v_sid r → v_reserved r' = v_reserved r → v_open r' = v_open r → v_registered r' = v_registered r →
  v_readers r' = {[t]} ∪ v_readers r →
  table_inv pd (<[a := r']> rq) (<[t := MkResult (s_sid x) (SCurrent a)]> rs) n.
Proof.
  intros Hi Hx Hpc Hr ????? Hre. eapply (table_lock _ _ _ _ t x _ a r); try done; cbn.
  - intros t'. rewrite Hre, elem_of_union, elem_of_singleton. destruct (decide (t' = t)); naive_solver.
  - rewrite Hpc. auto.
  - auto.
  - by intros b [= <-].
Qed.
Lemma results_release pd rq rs n t x a r r' :
  table_inv pd rq rs n → rs !! t = Some x → held (s_pc x) = Some a → rq !! a = Some r → v_ok a r' →
  v_sid r' = v_sid r → v_reserved r' = v_reserved r → v_open r' = v_open r → v_registered r' = v_registered r →
  v_readers r' = v_readers r ∖ {[t]} →
  table_inv pd (<[a := r']> rq) (<[t := MkResult (s_sid x) SDone]> rs) n.
Proof.
  intros Hi Hx Hpc Hr ????? Hre. eapply (table_lock _ _ _ _ t x _ a r); try done; cbn; auto.
  intros t'. rewrite Hre. set_solver.
Qed.
End results.
