(* ===== verification/GrpcSource.v ===== *)
(** The gRPC source, [src/src/datasource/grpc/mod.rs] and its four kinds of
    call: unary ([nostreaming.rs]), client, server and bidirectional streaming.

    Requests (the [handle] of a kind) and results ([consume_result]) run as
    threads; a turn is one atomic section: an operation of the pending map, a
    change of a cancellation token or of the lifetime lock, a turn of a gauge,
    or the return of a handler.  The pending map is the plain map of the
    rotating map's specification, and a request's number is the identity of
    its [Arc<Pending>].  Handlers are arbitrary: their answers are arguments of
    the turns, and they may register callbacks, complete the result context
    and send responses at any time.  The caller may drop a request or a result
    at any time; a handler does not panic. *)

From S2P Require Import Prelude Errors CallbackStore RequestTable.
Local Open Scope Z_scope.

Inductive Kind := NoStreaming | ClientStreaming | ServerStreaming | BidiStreaming.
(** [HandlerResult], with [RequestContextCancelled] apart from other errors. *)
Inductive HandlerResult := HOk | HErr | HCancelled.
#[export] Instance handler_result_eq_dec : EqDecision HandlerResult.
Proof. solve_decision. Defined.
Definition is_ok (h : HandlerResult) : bool := match h with HOk => true | _ => false end.

(** Where a request is. *)
Inductive RequestPc :=
| GBegin                                (** [begin_request] runs *)
| GAdmit                                (** before [pending.set] *)
| GReject                               (** [end_request] of a duplicate runs *)
| GAdd                                  (** before [pending_requests.add] *)
| GNext                                 (** waits for the next request message *)
| GConsume                              (** [consume_message] runs *)
| GEof                                  (** [eof] runs *)
| GReceive                              (** [UnarySender::receive] *)
| GWait                                 (** [wait_done] *)
| FClosing (result : HandlerResult)     (** [finish], before [closing.cancel] *)
| FLock (result : HandlerResult)        (** [lifetime.write] *)
| FDecide (result : HandlerResult)
| FEnd (result : HandlerResult)         (** [end_request] runs *)
| FClose (result : HandlerResult)       (** before [result_context.close] *)
| FPop (result : HandlerResult)         (** before [pop_if] *)
| FRemove (result : HandlerResult)      (** before [pending_requests.remove] *)
| FUnlock (result : HandlerResult)      (** before the write guard is dropped *)
| GFailed                               (** [begin_request] failed *)
| GRejected
| GReturned (result : HandlerResult).

Section source.
(** [ResR], its [Default], and the closures of [ResultCallback]. *)
Context {ResR C : Type} (default_response : ResR).

(** [Pending] and its [ResultContext]; [registered] lists the accepted
    registrations. *)
Record Pending := MkPending {
  callbacks : option (CallbackStore C);
  registered : list (string * C);
  done : bool;
  readers : gset nat;
  writer : bool;
  closing : bool }.
(** [UnarySender]: the slot, what was sent so far and what [receive] took. *)
Record Unary := MkUnary { slot : option ResR; sent : list ResR; response : option ResR; answer : option ResR }.
(** [owned]: the caller still polls the request. *)
Record Request := MkRequest {
  kind : Kind;
  sid : string;
  pc : RequestPc;
  owned : bool;
  ends : nat;
  life : Pending;
  unary : Unary }.

(** Where a result is in [consume_result]. *)
Inductive ResultPc :=
| SGet
| SSelect (a : nat)                     (** the [closing] branch of the [select!] *)
| SLock (a : nat)                       (** [lifetime.read] *)
| SClosing (a : nat)                    (** [closing.is_cancelled] under the lock *)
| SCurrent (a : nat)                    (** [Arc::ptr_eq] *)
| SMessageId (a : nat)                  (** [get_message_id] runs *)
| SFind (a : nat) (message_id : string)
| SCallback (a : nat) (message_id : string) (callback : C)
| SRemove (a : nat) (message_id : string)
| SRelease (a : nat)
| SDone.
Record Result := MkResult { s_sid : option string; s_pc : ResultPc }.

(** [EndpointMetrics]; [times] holds the identifiers with a start time. *)
Record EndpointMetrics := MkMetrics {
  messages_total : Z;
  request_errors : Z;
  begin_request_failed : Z;
  missing_stream_id : Z;
  late_result : Z;
  unknown_message_id : Z;
  duplicate_message_id : Z;
  active_requests : Z;
  pending_requests : Z;
  times : gset string }.
Record Source := MkSource {
  pending : gmap string nat;
  requests : gmap nat Request;
  results : gmap nat Result;
  metrics : EndpointMetrics;
  next_id : nat }.
Implicit Types (s : Source) (r : Request) (p : Pending) (m : EndpointMetrics).

(** Whether metrics are enabled, and whether the input has a result stream. *)
Context (metrics_enabled has_result : bool).

Definition metrics_new : EndpointMetrics := MkMetrics 0 0 0 0 0 0 0 0 0 ∅.
Definition source_new : Source := MkSource ∅ ∅ ∅ metrics_new 0.
Definition pending_new : Pending := MkPending (Some CallbackStore.new) [] false ∅ false false.
Definition unary_new : Unary := MkUnary None [] None None.

(** ** Updates *)
Definition set_request s (a : nat) r : Source :=
  MkSource (pending s) (<[a := r]> (requests s)) (results s) (metrics s) (next_id s).
Definition set_result s (t : nat) (x : Result) : Source :=
  MkSource (pending s) (requests s) (<[t := x]> (results s)) (metrics s) (next_id s).
Definition set_pending s (pd : gmap string nat) : Source := MkSource pd (requests s) (results s) (metrics s) (next_id s).
Definition with_pc r (g : RequestPc) : Request := MkRequest (kind r) (sid r) g (owned r) (ends r) (life r) (unary r).
Definition with_life r (p : Pending) : Request := MkRequest (kind r) (sid r) (pc r) (owned r) (ends r) p (unary r).
Definition with_unary r (u : Unary) : Request := MkRequest (kind r) (sid r) (pc r) (owned r) (ends r) (life r) u.
Definition end_called r : Request := MkRequest (kind r) (sid r) (pc r) (owned r) (S (ends r)) (life r) (unary r).
Definition cancel_closing p : Pending := MkPending (callbacks p) (registered p) (done p) (readers p) (writer p) true.
Definition set_lock p (rs : gset nat) (w : bool) : Pending := MkPending (callbacks p) (registered p) (done p) rs w (closing p).
Definition set_callbacks p (c : option (CallbackStore C)) (l : list (string * C)) : Pending :=
  MkPending c l (done p) (readers p) (writer p) (closing p).
Definition goto s (a : nat) r (g : RequestPc) : Source := set_request s a (with_pc r g).

(** Counters move only while metrics are enabled. *)
Definition count s (f : EndpointMetrics → EndpointMetrics) : Source :=
  if metrics_enabled then MkSource (pending s) (requests s) (results s) (f (metrics s)) (next_id s) else s.
Definition inc_begin_failed m : EndpointMetrics :=
  MkMetrics (messages_total m) (request_errors m) (begin_request_failed m + 1) (missing_stream_id m) (late_result m)
    (unknown_message_id m) (duplicate_message_id m) (active_requests m) (pending_requests m) (times m).
Definition inc_missing m : EndpointMetrics :=
  MkMetrics (messages_total m) (request_errors m) (begin_request_failed m) (missing_stream_id m + 1) (late_result m)
    (unknown_message_id m) (duplicate_message_id m) (active_requests m) (pending_requests m) (times m).
Definition inc_late m : EndpointMetrics :=
  MkMetrics (messages_total m) (request_errors m) (begin_request_failed m) (missing_stream_id m) (late_result m + 1)
    (unknown_message_id m) (duplicate_message_id m) (active_requests m) (pending_requests m) (times m).
Definition inc_unknown m : EndpointMetrics :=
  MkMetrics (messages_total m) (request_errors m) (begin_request_failed m) (missing_stream_id m) (late_result m)
    (unknown_message_id m + 1) (duplicate_message_id m) (active_requests m) (pending_requests m) (times m).
Definition inc_duplicate m : EndpointMetrics :=
  MkMetrics (messages_total m) (request_errors m) (begin_request_failed m) (missing_stream_id m) (late_result m)
    (unknown_message_id m) (duplicate_message_id m + 1) (active_requests m) (pending_requests m) (times m).
Definition inc_active m : EndpointMetrics :=
  MkMetrics (messages_total m) (request_errors m) (begin_request_failed m) (missing_stream_id m) (late_result m)
    (unknown_message_id m) (duplicate_message_id m) (active_requests m + 1) (pending_requests m) (times m).
(** The end of a request: the gauge goes down, and it counts as a message or an error. *)
Definition count_end (ok : bool) m : EndpointMetrics :=
  MkMetrics (messages_total m + (if ok then 1 else 0)) (request_errors m + (if ok then 0 else 1))
    (begin_request_failed m) (missing_stream_id m) (late_result m)
    (unknown_message_id m) (duplicate_message_id m) (active_requests m - 1) (pending_requests m) (times m).
Definition pending_add (id : string) m : EndpointMetrics :=
  MkMetrics (messages_total m) (request_errors m) (begin_request_failed m) (missing_stream_id m) (late_result m)
    (unknown_message_id m) (duplicate_message_id m) (active_requests m) (pending_requests m + 1) ({[id]} ∪ times m).
Definition pending_remove (id : string) m : EndpointMetrics :=
  MkMetrics (messages_total m) (request_errors m) (begin_request_failed m) (missing_stream_id m) (late_result m)
    (unknown_message_id m) (duplicate_message_id m) (active_requests m) (pending_requests m - 1) (times m ∖ {[id]}).

(** ** Requests *)
(** [handle] up to [begin_owned]. *)
Definition request_arrives s (k : Kind) : Source :=
  MkSource (pending s) (<[next_id s := MkRequest k "" GBegin true 0 pending_new unary_new]> (requests s)) (results s)
    (metrics s) (S (next_id s)).
(** [begin] up to the admission: [begin_request] answers with an error, or
    with a context that may carry a stream identifier; [generated] is
    [new_stream_id()]. *)
Definition begin_returns s (a : nat) r (answer : option (option string)) (generated : string) : option Source :=
  match pc r, answer with
  | GBegin, None => Some (goto (count s inc_begin_failed) a r GFailed)
  | GBegin, Some id =>
      Some (set_request (count s inc_active) a
        (MkRequest (kind r) (default generated id) GAdmit (owned r) (ends r) (life r) (unary r)))
  | _, _ => None
  end.
(** [pending.set]: a duplicate identifier ends the request at once. *)
Definition admission s (a : nat) r : option Source :=
  match pc r with
  | GAdmit =>
      match pending s !! sid r with
      | Some _ => Some (goto (count s inc_begin_failed) a (end_called r) GReject)
      | None => Some (goto (set_pending s (<[sid r := a]> (pending s))) a r GAdd)
      end
  | _ => None
  end.
Definition reject_returns s (a : nat) r : option Source :=
  match pc r with
  | GReject => Some (goto (count s (count_end false)) a r GRejected)
  | _ => None
  end.
(** The next point of the owner, which drops the [RequestLifecycle] when the
    caller is gone: [closing] is cancelled and the cleanup is spawned. *)
Definition resume s (a : nat) r (g : RequestPc) : Source :=
  if owned r then goto s a r g
  else goto s a (with_life r (cancel_closing (life r))) (FClosing HCancelled).
(** The message of a unary or server-streaming call is at hand. *)
Definition first_point (k : Kind) : RequestPc :=
  match k with NoStreaming | ServerStreaming => GConsume | ClientStreaming | BidiStreaming => GNext end.
Definition admitted s (a : nat) r : option Source :=
  match pc r with
  | GAdd => Some (resume (if has_result then count s (pending_add (sid r)) else s) a r (first_point (kind r)))
  | _ => None
  end.
(** [requests.next()]: the end of the stream, a message, or an error. *)
Definition next_returns s (a : nat) r (item : option bool) : option Source :=
  match pc r with
  | GNext => Some (goto s a r (match item with None => GEof | Some true => GConsume | Some false => FClosing HErr end))
  | _ => None
  end.
Definition consume_returns s (a : nat) r (ok : bool) : option Source :=
  match pc r with
  | GConsume =>
      Some (resume s a r (if ok then match kind r with NoStreaming | ServerStreaming => GEof | _ => GNext end
                          else FClosing HErr))
  | _ => None
  end.
Definition eof_returns s (a : nat) r : option Source :=
  match pc r with
  | GEof =>
      Some (resume s a r
        (if has_result then match kind r with NoStreaming | ClientStreaming => GReceive | _ => GWait end
         else FClosing HOk))
  | _ => None
  end.
(** [UnarySender::receive]: the value in the slot; a cancelled context gives
    an error only when the slot is empty. *)
Definition take_response r (v : ResR) : Request :=
  with_unary r (MkUnary None (sent (unary r)) (Some v) (answer (unary r))).
Definition receive s (a : nat) r (cancelled : bool) : option Source :=
  match pc r, slot (unary r) with
  | GReceive, Some v => Some (goto s a (take_response r v) (FClosing HOk))
  | GReceive, None => if cancelled then Some (goto s a r (FClosing HErr)) else None
  | _, _ => None
  end.
(** [wait_done]: the [select!] of the result context and the request's. *)
Definition wait_done s (a : nat) r (cancelled : bool) : option Source :=
  match pc r with
  | GWait => if cancelled then Some (goto s a r (FClosing HCancelled))
             else if done (life r) then Some (goto s a r (FClosing HOk)) else None
  | _ => None
  end.
(** The caller drops the future of [handle]: handlers run on, [finish] too; a
    request that waits is cleaned up. *)
Definition disown r : Request := MkRequest (kind r) (sid r) (pc r) false (ends r) (life r) (unary r).
Definition drop_request s (a : nat) r : option Source :=
  if owned r then
    match pc r with
    | GNext | GReceive | GWait => Some (resume s a (disown r) (pc r))
    | GFailed | GRejected | GReturned _ => None
    | _ => Some (set_request s a (disown r))
    end
  else None.

(** ** [finish] *)
Definition finish_closing s (a : nat) r : option Source :=
  match pc r with
  | FClosing h => Some (goto s a (with_life r (cancel_closing (life r))) (FLock h))
  | _ => None
  end.
Definition finish_lock s (a : nat) r : option Source :=
  match pc r with
  | FLock h =>
      if decide (readers (life r) = ∅ ∧ writer (life r) = false)
      then Some (goto s a (with_life r (set_lock (life r) ∅ true)) (FDecide h)) else None
  | _ => None
  end.
(** A cancelled wait succeeded when the result context was completed; then
    [end_request] is called. *)
Definition finish_decide s (a : nat) r : option Source :=
  match pc r with
  | FDecide h => Some (goto s a (end_called r) (FEnd (if decide (h = HCancelled ∧ done (life r) = true) then HOk else h)))
  | _ => None
  end.
(** The answer of [end_request] is the result. *)
Definition end_returns s (a : nat) r (answer : HandlerResult) : option Source :=
  match pc r with FEnd _ => Some (goto s a r (FClose answer)) | _ => None end.
Definition finish_close s (a : nat) r : option Source :=
  match pc r with
  | FClose h =>
      Some (goto (count s (count_end (is_ok h))) a
        (with_life r (set_callbacks (life r) None (registered (life r)))) (FPop h))
  | _ => None
  end.
Definition finish_pop s (a : nat) r : option Source :=
  match pc r with
  | FPop h =>
      if decide (pending s !! sid r = Some a)
      then Some (goto (set_pending s (delete (sid r) (pending s))) a r (if has_result then FRemove h else FUnlock h))
      else Some (goto s a r (FUnlock h))
  | _ => None
  end.
Definition finish_remove s (a : nat) r : option Source :=
  match pc r with FRemove h => Some (goto (count s (pending_remove (sid r))) a r (FUnlock h)) | _ => None end.
(** The guard is dropped and [handle] answers: for a single response, what
    [receive] took, or else what is in the slot, or else the default. *)
Definition unary_answer (u : Unary) : Unary :=
  match response u with
  | Some v => MkUnary (slot u) (sent u) (response u) (Some v)
  | None => MkUnary None (sent u) None (Some (default default_response (slot u)))
  end.
Definition finish_unlock s (a : nat) r : option Source :=
  match pc r with
  | FUnlock h =>
      let r := with_life r (set_lock (life r) (readers (life r)) false) in
      let r := match kind r, h with
               | NoStreaming, HOk | ClientStreaming, HOk =>
                   if owned r then with_unary r (unary_answer (unary r)) else r
               | _, _ => r
               end in
      Some (goto s a r (GReturned h))
  | _ => None
  end.

(** ** The handler's references *)
Definition has_pending (g : RequestPc) : bool := match g with GBegin | GFailed => false | _ => true end.
(** [set_result_callback]: ignored once the result context is closed. *)
Definition set_result_callback s (a : nat) r (message_id : string) (c : C) : option Source :=
  if has_pending (pc r) then
    match callbacks (life r) with
    | None => Some s
    | Some store =>
        Some (set_request s a (with_life r
          (set_callbacks (life r) (Some (CallbackStore.insert store message_id c).2) ((message_id, c) :: registered (life r)))))
    end
  else None.
Definition complete p : Pending := MkPending (callbacks p) (registered p) true (readers p) (writer p) (closing p).
Definition result_done s (a : nat) r : option Source :=
  if has_pending (pc r) then Some (set_request s a (with_life r (complete (life r)))) else None.
(** [UnarySender::send] *)
Definition send (u : Unary) (v : ResR) : outcome unit unit * Unary :=
  match slot u with
  | Some _ => (Err (), u)
  | None => (Ok (), MkUnary (Some v) (sent u ++ [v]) (response u) (answer u))
  end.
Definition send_response s (a : nat) r (v : ResR) : Source := set_request s a (with_unary r (send (unary r) v).2).

(** ** Results *)
Definition result_arrives s (id : option string) : Source :=
  MkSource (pending s) (requests s) (<[next_id s := MkResult id SGet]> (results s)) (metrics s) (S (next_id s)).
Definition to s (t : nat) (x : Result) (g : ResultPc) : Source := set_result s t (MkResult (s_sid x) g).
Definition hold s (a t : nat) r : Source :=
  set_request s a (with_life r (set_lock (life r) ({[t]} ∪ readers (life r)) (writer (life r)))).
Definition release s (a t : nat) r : Source :=
  set_request s a (with_life r (set_lock (life r) (readers (life r) ∖ {[t]}) (writer (life r)))).
(** A turn of [consume_result]; [message_id] is the answer of [get_message_id]. *)
Definition result_turn s (t : nat) (x : Result) (message_id : string) : option Source :=
  match s_pc x with
  | SGet =>
      match s_sid x with
      | None => Some (to (count s inc_missing) t x SDone)
      | Some id =>
          match pending s !! id with
          | None => Some (to (count s inc_late) t x SDone)
          | Some a => Some (to s t x (SSelect a))
          end
      end
  | SSelect a =>
      r ← requests s !! a;
      Some (if closing (life r) then to (count s inc_late) t x SDone else to s t x (SLock a))
  | SLock a =>
      r ← requests s !! a;
      Some (if writer (life r) then to s t x (SSelect a) else to (hold s a t r) t x (SClosing a))
  | SClosing a =>
      r ← requests s !! a;
      Some (if closing (life r) || negb has_result then to (count s inc_late) t x (SRelease a) else to s t x (SCurrent a))
  | SCurrent a =>
      Some (if decide ((s_sid x ≫= λ id, pending s !! id) = Some a) then to s t x (SMessageId a)
            else to (count s inc_late) t x (SRelease a))
  | SMessageId a => Some (to s t x (SFind a message_id))
  | SFind a id =>
      r ← requests s !! a;
      Some (match callbacks (life r) ≫= λ store, CallbackStore.get store id with
            | Some c => to s t x (SCallback a id c)
            | None => to (count s inc_unknown) t x (SRelease a)
            end)
  | SCallback _ _ _ => None
  | SRemove a id =>
      r ← requests s !! a;
      Some (match callbacks (life r) with
            | None => to (count s inc_duplicate) t x (SRelease a)
            | Some store =>
                let (removed, store) := CallbackStore.remove store id in
                let s := set_request s a (with_life r (set_callbacks (life r) (Some store) (registered (life r)))) in
                to (match removed with None => count s inc_duplicate | Some _ => s end) t x (SRelease a)
            end)
  | SRelease a => r ← requests s !! a; Some (to (release s a t r) t x SDone)
  | SDone => None
  end.
(** The callback answers whether the message is finished. *)
Definition callback_returns s (t : nat) (x : Result) (finished : bool) : option Source :=
  match s_pc x with
  | SCallback a id _ => Some (to s t x (if finished then SRemove a id else SRelease a))
  | _ => None
  end.
Definition held (g : ResultPc) : option nat :=
  match g with
  | SClosing a | SCurrent a | SMessageId a | SFind a _ | SCallback a _ _ | SRemove a _ | SRelease a => Some a
  | _ => None
  end.
(** The caller drops the result: its read guard goes with it. *)
Definition drop_result s (t : nat) (x : Result) : option Source :=
  match held (s_pc x) with
  | None => Some (to s t x SDone)
  | Some a => r ← requests s !! a; Some (to (release s a t r) t x SDone)
  end.

(** ** The source *)
Inductive RequestTurn :=
| TBegin (answer : option (option string)) (generated : string) | TAdmit | TRejectReturns | TAdmitted
| TNext (item : option bool) | TConsume (ok : bool) | TEof | TReceive (cancelled : bool) | TWait (cancelled : bool)
| TClosing | TLock | TDecide | TEnd (answer : HandlerResult) | TClose | TPop | TRemove | TUnlock.
Definition request_turn s (a : nat) r (turn : RequestTurn) : option Source :=
  match turn with
  | TBegin answer generated => begin_returns s a r answer generated
  | TAdmit => admission s a r
  | TRejectReturns => reject_returns s a r
  | TAdmitted => admitted s a r
  | TNext item => next_returns s a r item
  | TConsume ok => consume_returns s a r ok
  | TEof => eof_returns s a r
  | TReceive cancelled => receive s a r cancelled
  | TWait cancelled => wait_done s a r cancelled
  | TClosing => finish_closing s a r
  | TLock => finish_lock s a r
  | TDecide => finish_decide s a r
  | TEnd answer => end_returns s a r answer
  | TClose => finish_close s a r
  | TPop => finish_pop s a r
  | TRemove => finish_remove s a r
  | TUnlock => finish_unlock s a r
  end.
Inductive ResultTurn := TStep (message_id : string) | TCallback (finished : bool).
Definition result_moves s (t : nat) (x : Result) (turn : ResultTurn) : option Source :=
  match turn with TStep message_id => result_turn s t x message_id | TCallback finished => callback_returns s t x finished end.
Inductive Turn :=
| TRequest (k : Kind) | TResult (id : option string)
| TMove (a : nat) (turn : RequestTurn) | TMoveResult (t : nat) (turn : ResultTurn)
| TDrop (a : nat) | TDropResult (t : nat)
| TSetCallback (a : nat) (message_id : string) (c : C) | TDone (a : nat) | TSend (a : nat) (v : ResR).
Definition advance s (turn : Turn) : option Source :=
  match turn with
  | TRequest k => Some (request_arrives s k)
  | TResult id => Some (result_arrives s id)
  | TMove a turn => r ← requests s !! a; request_turn s a r turn
  | TMoveResult t turn => x ← results s !! t; result_moves s t x turn
  | TDrop a => r ← requests s !! a; drop_request s a r
  | TDropResult t => x ← results s !! t; drop_result s t x
  | TSetCallback a id c => r ← requests s !! a; set_result_callback s a r id c
  | TDone a => r ← requests s !! a; result_done s a r
  | TSend a v => r ← requests s !! a; Some (send_response s a r v)
  end.
Definition source_step s s' : Prop := ∃ turn, advance s turn = Some s'.
Definition source_reachable s : Prop := rtc source_step source_new s.
End source.
Arguments Pending C : clear implicits.
Arguments Unary ResR : clear implicits.
Arguments Request ResR C : clear implicits.
Arguments ResultPc C : clear implicits.
Arguments Result C : clear implicits.
Arguments Source ResR C : clear implicits.
Arguments Turn ResR C : clear implicits.

(** * Lemmas *)
Section store.
Context {C : Type}.
Implicit Types store : CallbackStore C.
Lemma get_map store id : CallbackStore.get store id = store_map store !! id.
Proof. by destruct (store_refines (OpGet id) store _ eq_refl). Qed.
Lemma get_insert store id c id' c' :
  CallbackStore.get (CallbackStore.insert store id c).2 id' = Some c' →
  (id', c') = (id, c) ∨ CallbackStore.get store id' = Some c'.
Proof.
  rewrite !get_map. destruct (store_refines (OpInsert id c) store _ eq_refl) as [_ Hm]. cbn in Hm. rewrite Hm.
  rewrite lookup_insert_Some. intros [[-> ->]|[_ ?]]; auto.
Qed.
Lemma get_remove store id id' c' :
  CallbackStore.get (CallbackStore.remove store id).2 id' = Some c' → CallbackStore.get store id' = Some c'.
Proof.
  rewrite !get_map. destruct (store_refines (OpRemove id) store _ eq_refl) as [_ Hm]. cbn in Hm. rewrite Hm.
  by intros [_ ?]%lookup_delete_Some.
Qed.
End store.

Section invariants.
Context {ResR C : Type} (default_response : ResR) (metrics_enabled has_result : bool).
Notation step := (source_step (C := C) default_response metrics_enabled has_result).
Notation Source := (Source ResR C).
Notation Request := (Request ResR C).
Implicit Types (s : Source) (r : Request) (x : Result C) (p : Pending C) (u : Unary ResR).

(** ** What a program point says of its request *)
Definition locked (g : RequestPc) : bool :=
  match g with FDecide _ | FEnd _ | FClose _ | FPop _ | FRemove _ | FUnlock _ => true | _ => false end.
(** [closing] was cancelled by [finish]. *)
Definition shut (g : RequestPc) : bool :=
  match g with FLock _ | GReturned _ => true | _ => locked g end.
Definition ended (g : RequestPc) : bool :=
  match g with
  | GReject | GRejected | FEnd _ | FClose _ | FPop _ | FRemove _ | FUnlock _ | GReturned _ => true
  | _ => false
  end.
Definition closed (g : RequestPc) : bool :=
  match g with FPop _ | FRemove _ | FUnlock _ | GReturned _ => true | _ => false end.
(** The stream identifier is reserved. *)
Definition reserved (g : RequestPc) : bool :=
  match g with
  | GAdd | GNext | GConsume | GEof | GReceive | GWait | FClosing _ | FLock _ | FDecide _ | FEnd _ | FClose _ | FPop _ => true
  | _ => false
  end.
Definition over (g : RequestPc) : bool := match g with GFailed | GRejected | GReturned _ => true | _ => false end.
Definition finishing (g : RequestPc) : bool := match g with FClosing _ => true | _ => shut g end.
Definition unary_ok (g : RequestPc) u : Prop :=
  match response u with
  | Some v => head (sent u) = Some v
  | None => over g = false → slot u = head (sent u) ∧ (length (sent u) ≤ 1)%nat
  end.
Record req_ok r : Prop := {
  ro_writer : writer (life r) = locked (pc r);
  ro_readers : writer (life r) = true → readers (life r) = ∅;
  ro_shut : shut (pc r) = true → closing (life r) = true;
  ro_ends : ends r = if ended (pc r) then 1%nat else 0%nat;
  ro_callbacks : ∀ store id c,
    callbacks (life r) = Some store → CallbackStore.get store id = Some c → (id, c) ∈ registered (life r);
  ro_closed : closed (pc r) = true → callbacks (life r) = None;
  ro_unary : unary_ok (pc r) (unary r);
  ro_response : finishing (pc r) = false → response (unary r) = None }.

Definition target (g : ResultPc C) : option nat :=
  match g with SSelect a | SLock a => Some a | _ => held g end.
Definition serves (g : ResultPc C) : bool :=
  match g with SMessageId _ | SFind _ _ | SCallback _ _ _ | SRemove _ _ => true | _ => false end.
#[export, refine] Instance grpc_request : RequestView Request C := {|
  v_sid := sid; v_reserved r := reserved (pc r); v_open r := reserved (pc r);
  v_readers r := readers (life r); v_registered r := registered (life r); v_ok _ := req_ok |}.
Proof. done. Defined.
#[export, refine] Instance grpc_result : ResultView (Result C) C := {|
  v_id := s_sid; v_target x := target (s_pc x); v_held x := held (s_pc x); v_serves x := serves (s_pc x);
  v_callback x := match s_pc x with SCallback _ id c => Some (id, c) | _ => None end |}.
Proof. all: intros x; destruct (s_pc x); intros *; (done || by intros [= ->]). Defined.
Definition inv s : Prop := table_inv (pending s) (requests s) (results s) (next_id s).
Lemma grpc_ok s a r : inv s → requests s !! a = Some r → req_ok r.
Proof. intros Hi Hr. by apply (i_requests _ _ _ _ Hi _ _ Hr). Qed.

(** The pending map stays: the request keeps its identifier, or has none. *)
Lemma inv_keep s s' a r r' :
  inv s → requests s !! a = Some r →
  requests s' = <[a := r']> (requests s) → results s' = results s → next_id s' = next_id s → pending s' = pending s →
  req_ok r' →
  readers (life r') = readers (life r) → registered (life r) ⊆ registered (life r') →
  reserved (pc r') = reserved (pc r) → (reserved (pc r) = true → sid r' = sid r) → inv s'.
Proof.
  intros Hi Hr Hq Hs Hn Hp ??? Hrv ?. unfold inv. rewrite Hq, Hs, Hn, Hp.
  apply (table_keep (C := C) _ _ _ _ a r r'); try done. cbn. by rewrite Hrv.
Qed.
(** A result moves, its lock stays. *)
Lemma inv_result s s' t x x' :
  inv s → results s !! t = Some x → results s' = <[t := x']> (results s) →
  requests s' = requests s → pending s' = pending s → next_id s' = next_id s →
  held (s_pc x') = held (s_pc x) →
  (∀ a, target (s_pc x') = Some a → ∃ r, requests s !! a = Some r ∧ serving x' r) → inv s'.
Proof. intros Hi Hx Hs Hq Hp Hn ??. unfold inv. rewrite Hq, Hs, Hn, Hp. by apply (table_result (C := C) _ _ _ _ t x). Qed.

(** [req_ok] of a request whose point is known and that moves to a known point. *)
Ltac req_tac Hpc :=
  match goal with
  | H : req_ok ?r |- req_ok _ =>
      destruct H as [Hwr Hrd Hsh Hen Hcb Hcl Hun Hrp]; unfold unary_ok in *; rewrite Hpc in *; cbn in *;
      split; unfold unary_ok; cbn; auto; try congruence; try (destruct (response (unary r)); auto; done)
  end.
Ltac fields := unfold goto, set_request, set_pending, to, hold, release, count; case metrics_enabled; reflexivity.

Ltac keep Hi Hr Hpc :=
  eapply inv_keep; [exact Hi|exact Hr|fields|fields|fields|fields| |..];
    [|cbn; rewrite ?Hpc; try done..]; [cbn; req_tac Hpc].

Lemma inv_resume s s' a r g :
  inv s → requests s !! a = Some r → pending s' = pending s → requests s' = requests s → results s' = results s →
  next_id s' = next_id s → reserved (pc r) = true → reserved g = true → finishing (pc r) = false → shut g = false →
  ended (pc r) = false → ended g = false →
  inv (resume s' a r g).
Proof.
  intros Hi Hr Hp Hq Hs Hn Hrv Hrv' Hsh Hsh' He He'. destruct (grpc_ok _ _ _ Hi Hr) as []. unfold resume.
  assert (over (pc r) = false ∧ over g = false ∧ closed g = false ∧ locked (pc r) = false ∧ locked g = false ∧ shut (pc r) = false)
    as (Ho & Ho' & Hc & Hl & Hl' & Hs0) by (clear -Hrv Hrv' Hsh Hsh'; by destruct (pc r), g).
  unfold unary_ok in *. rewrite Ho, He in *.
  destruct (owned r); (eapply inv_keep; [exact Hi|exact Hr|cbn; by rewrite Hq|done|done|done| |..]);
    cbn; try done; try congruence.
  - split; cbn; rewrite ?Hl', ?Hc, ?Hsh', ?He'; try done; try congruence; [unfold unary_ok; cbn; by rewrite Ho'|auto].
  - split; cbn; rewrite ?Hl', ?Hc, ?Hsh', ?He'; try done; try congruence.
Qed.
Lemma reserved_pending s a r :
  inv s → requests s !! a = Some r → reserved (pc r) = true → pending s !! sid r = Some a.
Proof. intros Hi Hr Hrv. by apply (table_reserved (C := C) _ _ _ _ _ _ Hi Hr). Qed.
Lemma inv_admit s a r :
  inv s → requests s !! a = Some r → pc r = GAdmit → pending s !! sid r = None →
  inv (goto (set_pending s (<[sid r := a]> (pending s))) a r GAdd).
Proof.
  intros Hi Hr Hpc Hp. pose proof (grpc_ok _ _ _ Hi Hr) as Hok.
  apply (table_take (RequestView0 := grpc_request) (pending s) (requests s) (results s) (next_id s) a r (with_pc r GAdd)); try done; cbn;
    [by rewrite Hpc|req_tac Hpc].
Qed.
Lemma inv_pop s a r g h :
  inv s → requests s !! a = Some r → pc r = FPop h → g = FRemove h ∨ g = FUnlock h →
  inv (goto (set_pending s (delete (sid r) (pending s))) a r g).
Proof.
  intros Hi Hr Hpc Hg. pose proof (grpc_ok _ _ _ Hi Hr) as Hok.
  assert (Hre : readers (life r) = ∅) by (apply (ro_readers _ Hok); by rewrite (ro_writer _ Hok), Hpc).
  apply (table_give_up (RequestView0 := grpc_request) (pending s) (requests s) (results s) (next_id s) a r (with_pc r g)); try done; cbn.
  - by rewrite Hpc.
  - by destruct Hg as [-> | ->].
  - destruct Hg as [-> | ->]; req_tac Hpc.
Qed.
Lemma inv_take s a r v :
  inv s → requests s !! a = Some r → pc r = GReceive → slot (unary r) = Some v →
  inv (goto s a (take_response r v) (FClosing HOk)).
Proof.
  intros Hi Hr Hpc Hv. pose proof (grpc_ok _ _ _ Hi Hr) as Hok. keep Hi Hr Hpc.
  rewrite Hrp in Hun by done. by destruct Hun as [<- _].
Qed.
Lemma inv_take_lock s a r h :
  inv s → requests s !! a = Some r → pc r = FLock h → readers (life r) = ∅ →
  inv (goto s a (with_life r (set_lock (life r) ∅ true)) (FDecide h)).
Proof.
  intros Hi Hr Hpc Hv. pose proof (grpc_ok _ _ _ Hi Hr) as Hok. keep Hi Hr Hpc.
Qed.
Lemma inv_answer s a r :
  inv s → requests s !! a = Some r → pc r = FUnlock HOk →
  inv (goto s a (with_unary (with_life r (set_lock (life r) (readers (life r)) false))
        (unary_answer default_response (unary r))) (GReturned HOk)).
Proof.
  intros Hi Hr Hpc. pose proof (grpc_ok _ _ _ Hi Hr) as Hok. keep Hi Hr Hpc.
  unfold unary_answer. destruct (response (unary r)) eqn:?; cbn; by rewrite ?Heqo.
Qed.
Lemma inv_request_turn s s' a r turn :
  inv s → requests s !! a = Some r → request_turn default_response metrics_enabled has_result s a r turn = Some s' → inv s'.
Proof.
  intros Hi Hr H. pose proof (grpc_ok _ _ _ Hi Hr) as Hok.
  destruct turn; cbn in H; unfold begin_returns, admission, reject_returns, admitted, next_returns, consume_returns,
    eof_returns, receive, wait_done, finish_closing, finish_lock, finish_decide, end_returns, finish_close, finish_pop,
    finish_remove, finish_unlock in H; destruct (pc r) eqn:Hpc; try done; repeat case_match; simplify_eq;
    try (keep Hi Hr Hpc; fail); eauto using inv_admit, inv_pop, inv_take, inv_answer;
    try (eapply inv_resume; [exact Hi|exact Hr|fields|fields|fields|fields|..]; rewrite ?Hpc; by destruct (kind r));
    try exact (inv_answer s a r Hi Hr Hpc).
  - destruct_and!. by apply inv_take_lock.
  - exfalso. eapply reserved_pending in Hr; [|done|by rewrite Hpc]. done.
Qed.
Lemma inv_drop_request s s' a r :
  inv s → requests s !! a = Some r → drop_request s a r = Some s' → inv s'.
Proof.
  intros Hi Hr H. pose proof (grpc_ok _ _ _ Hi Hr) as Hok. unfold drop_request, resume, disown in H.
  destruct (owned r) eqn:Ho; [|done]. destruct (pc r) eqn:Hpc; simplify_eq; keep Hi Hr Hpc.
Qed.
Lemma inv_set_callback s s' a r id c :
  inv s → requests s !! a = Some r → set_result_callback s a r id c = Some s' → inv s'.
Proof.
  intros Hi Hr H. destruct (grpc_ok _ _ _ Hi Hr) as []. unfold set_result_callback in H.
  destruct (has_pending (pc r)); [|done]. destruct (callbacks (life r)) as [store|] eqn:Hc; simplify_eq; [|done].
  eapply inv_keep; [exact Hi|exact Hr|fields|fields|fields|fields| |..]; cbn; try done; [|set_solver].
  split; cbn; try done.
  - intros st id' c' [= <-] [[= -> ->]|Hg]%get_insert; [set_solver|]. apply elem_of_cons. eauto.
  - intros Hcl. specialize (ro_closed0 Hcl). congruence.
Qed.
Lemma inv_done s s' a r : inv s → requests s !! a = Some r → result_done s a r = Some s' → inv s'.
Proof.
  intros Hi Hr H. destruct (grpc_ok _ _ _ Hi Hr) as []. unfold result_done in H.
  destruct (has_pending (pc r)); simplify_eq.
  eapply inv_keep; [exact Hi|exact Hr|fields|fields|fields|fields| |..]; cbn; try done.
Qed.
Lemma inv_send s a r v : inv s → requests s !! a = Some r → inv (send_response s a r v).
Proof.
  intros Hi Hr. destruct (grpc_ok _ _ _ Hi Hr) as [].
  eapply inv_keep; [exact Hi|exact Hr|fields|fields|fields|fields| |..]; cbn; try done.
  split; cbn; try done; unfold unary_ok, send in *; destruct (slot (unary r)) eqn:Hsl; cbn; rewrite ?Hsl; try done.
  destruct (response (unary r)).
  - by destruct (sent (unary r)).
  - intros Hov. destruct ro_unary0 as [Hh Hlen]; [done|]. by destruct (sent (unary r)).
Qed.

(** *** Results *)
Ltac res_move Hi Hx :=
  eapply inv_result; [exact Hi|exact Hx|fields|fields|fields|fields|..]; cbn.
Ltac lock_move s t x a r :=
  eapply (table_lock (C := C) (pending s) (requests s) (results s) (next_id s) t x _ a r); try done; cbn.
Lemma grpc_inv_release s s' t x a r :
  inv s → results s !! t = Some x → requests s !! a = Some r → held (s_pc x) = Some a →
  s' = to (release s a t r) t x SDone → inv s'.
Proof.
  intros Hi Hx Hr Hh ->. destruct (grpc_ok _ _ _ Hi Hr) as []. lock_move s t x a r; auto.
  - split; try done. cbn. intros Hw. rewrite ro_readers0 by done. set_solver.
  - intros t'. set_solver.
Qed.
Lemma inv_hold s s' t x a r :
  inv s → results s !! t = Some x → requests s !! a = Some r → s_pc x = SLock a → writer (life r) = false →
  s' = to (hold s a t r) t x (SClosing a) → inv s'.
Proof.
  intros Hi Hx Hr Hpc Hw ->. destruct (grpc_ok _ _ _ Hi Hr) as []. lock_move s t x a r; auto.
  - split; try done. cbn. congruence.
  - intros t'. rewrite elem_of_union, elem_of_singleton. destruct (decide (t' = t)); naive_solver.
  - rewrite Hpc. auto.
  - intros b [= <-]. done.
Qed.
Lemma grpc_serving x r g :
  serving x r → (serves g = true → serves (s_pc x) = true) → (∀ a id c, g ≠ SCallback a id c) →
  serving (MkResult (s_sid x) g) r.
Proof.
  intros Hs Hsv Hc. apply (serving_move x); try done. cbn. destruct g as [| | | | | | |b id c| | |]; try done. by destruct (Hc b id c).
Qed.
Lemma inv_remove s t x a r id store removed st m :
  inv s → results s !! t = Some x → requests s !! a = Some r → s_pc x = SRemove a id →
  callbacks (life r) = Some store → CallbackStore.remove store id = (removed, st) →
  let s1 := set_request s a (with_life r (set_callbacks (life r) (Some st) (registered (life r)))) in
  inv (to (MkSource (pending s1) (requests s1) (results s1) m (next_id s1)) t x (SRelease a)).
Proof.
  intros Hi Hx Hr Hpc Hc Hrm s1. destruct (grpc_ok _ _ _ Hi Hr) as [].
  assert (Hi1 : inv s1).
  { eapply inv_keep; [exact Hi|exact Hr|fields|fields|fields|fields| |..]; cbn; try done. split; cbn; try done.
    - intros st' id' c' [= <-] Hg. apply (ro_callbacks0 store id' c' Hc). apply (get_remove _ id). by rewrite Hrm.
    - intros Hcl. specialize (ro_closed0 Hcl). congruence. }
  eapply (inv_result s1 _ t x); [done|exact Hx|reflexivity..| |]; cbn; [by rewrite Hpc|].
  intros b [= <-]. rewrite lookup_insert_eq. eexists. split; [done|]. apply grpc_serving; try done.
  eapply (table_target (C := C) _ _ _ _ _ _ a _ Hi1); [exact Hx|cbn; by rewrite Hpc|]. cbn. by rewrite lookup_insert_eq.
Qed.
Lemma inv_result_turn s s' t x id :
  inv s → results s !! t = Some x → result_turn metrics_enabled has_result s t x id = Some s' → inv s'.
Proof.
  intros Hi Hx H. unfold result_turn in H.
  assert (Hsv : ∀ a, target (s_pc x) = Some a → ∃ r, requests s !! a = Some r ∧ serving x r) by (intros a; by apply (i_target _ _ _ _ Hi t)).
  destruct (s_pc x) as [|a|a|a|a|a|a mid|a mid c|a mid|a|] eqn:Hpc; cbn in H, Hsv.
  - destruct (s_sid x) as [sid|]; [destruct (pending s !! sid) as [a|] eqn:Hp|]; simplify_eq; res_move Hi Hx;
      rewrite ?Hpc; try done.
    intros b [= <-]. apply (i_pending _ _ _ _ Hi) in Hp as (r & Hr & _). exists r. by split.
  - destruct (Hsv a eq_refl) as (r & Hr & Hs). rewrite Hr in H. injection H as <-. 
    case_match; res_move Hi Hx; rewrite ?Hpc; try done. intros b [= <-]. exists r. split; [done|by apply grpc_serving].
  - destruct (Hsv a eq_refl) as (r & Hr & Hs). rewrite Hr in H. injection H as <-. 
    case_match; [|by eapply inv_hold].
    res_move Hi Hx; rewrite ?Hpc; try done. intros b [= <-]. exists r. split; [done|by apply grpc_serving].
  - destruct (Hsv a eq_refl) as (r & Hr & Hs). rewrite Hr in H. injection H as <-. 
    case_match; res_move Hi Hx; rewrite ?Hpc; try done; intros b [= <-]; exists r; by split; [|apply grpc_serving].
  - destruct (Hsv a eq_refl) as (r & Hr & Hs). injection H as <-. 
    case_decide as Hcur; res_move Hi Hx; rewrite ?Hpc; try done; intros b [= <-]; exists r.
    + split; [done|]. destruct (s_sid x) as [sid|] eqn:Hsid; [|done]. cbn in Hcur. 
      apply (i_pending _ _ _ _ Hi) in Hcur as (r' & Hr' & <- & Hrv). simplify_eq. by split.
    + by split; [|apply grpc_serving].
  - destruct (Hsv a eq_refl) as (r & Hr & Hs). injection H as <-. 
    res_move Hi Hx; rewrite ?Hpc; try done. intros b [= <-]. exists r. split; [done|by apply grpc_serving; rewrite ?Hpc].
  - destruct (Hsv a eq_refl) as (r & Hr & Hs). rewrite Hr in H. injection H as <-.
    destruct (callbacks (life r) ≫= _) as [c|] eqn:Hc; res_move Hi Hx; rewrite ?Hpc; try done; intros b [= <-]; exists r.
    + split; [done|]. destruct Hs as [Hs _]. split; cbn in *; [by rewrite Hpc in Hs|]. intros ic [= <-].
      apply bind_Some in Hc as (store & Hst & Hg). by eapply (ro_callbacks r); [by apply (grpc_ok s a)|..].
    + by split; [|apply grpc_serving].
  - done.
  - destruct (Hsv a eq_refl) as (r & Hr & Hs). rewrite Hr in H. injection H as <-.
    destruct (callbacks (life r)) as [store|] eqn:Hc.
    + destruct (CallbackStore.remove store mid) as [removed st] eqn:Hrm. 
      unfold count. destruct removed; [|destruct metrics_enabled]; by eapply inv_remove.
    + res_move Hi Hx; rewrite ?Hpc; try done. intros b [= <-]. exists r. by split; [|apply grpc_serving].
  - destruct (Hsv a eq_refl) as (r & Hr & Hs). rewrite Hr in H. injection H as <-. eapply grpc_inv_release; [done..| |done]. by rewrite Hpc.
  - done.
Qed.
Lemma inv_callback_returns s s' t x fin :
  inv s → results s !! t = Some x → callback_returns s t x fin = Some s' → inv s'.
Proof.
  intros Hi Hx H. unfold callback_returns in H. destruct (s_pc x) as [| | | | | | |a mid c| | |] eqn:Hpc; simplify_eq.
  res_move Hi Hx; rewrite ?Hpc; [by destruct fin|].
  intros b Hb. destruct (i_target _ _ _ _ Hi _ _ a Hx) as (r & Hr & Hs); [cbn; by rewrite Hpc|].
  exists r. assert (b = a) as -> by (destruct fin; cbn in Hb; congruence).
  split; [done|]. apply grpc_serving; rewrite ?Hpc; by destruct fin.
Qed.
Lemma inv_drop_result s s' t x : inv s → results s !! t = Some x → drop_result s t x = Some s' → inv s'.
Proof.
  intros Hi Hx H. unfold drop_result in H. destruct (held (s_pc x)) as [a|] eqn:Hh.
  - destruct (requests s !! a) as [r|] eqn:Hr; simplify_eq/=. by eapply grpc_inv_release.
  - simplify_eq. by res_move Hi Hx.
Qed.
Lemma grpc_inv_step s s' : step s s' → inv s → inv s'.
Proof.
  intros [turn H] Hi. destruct turn; cbn in H; simplify_option_eq; 
    eauto using inv_request_turn, inv_drop_request, inv_drop_result, inv_set_callback, inv_done, inv_send.
  - apply (table_request_arrives (C := C)); try done. split; cbn; try done; [intros st id c [= <-]; by rewrite get_map|].
    unfold unary_ok. cbn. auto with lia.
  - by apply (table_result_arrives (C := C)).
  - destruct turn; eauto using inv_result_turn, inv_callback_returns.
Qed.
Lemma grpc_inv_reachable s : source_reachable default_response metrics_enabled has_result s → inv s.
Proof.
  intros Hs. refine (rtc_ind_r inv _ _ _ s Hs); [apply table_empty|].
  intros x y _ Hxy. by apply grpc_inv_step.
Qed.

(** ** Metrics *)
Definition is_active (g : RequestPc) : bool :=
  match g with
  | GAdmit | GReject | GAdd | GNext | GConsume | GEof | GReceive | GWait
  | FClosing _ | FLock _ | FDecide _ | FEnd _ | FClose _ => true
  | _ => false
  end.
(** The request ended, with this result. *)
Definition ended_with (ok : bool) (g : RequestPc) : bool :=
  match g with
  | FPop h | FRemove h | FUnlock h | GReturned h => Bool.eqb ok (is_ok h)
  | GRejected => negb ok
  | _ => false
  end.
Definition not_begun (g : RequestPc) : bool := match g with GFailed | GReject | GRejected => true | _ => false end.
Definition is_pending (g : RequestPc) : bool :=
  match g with
  | GNext | GConsume | GEof | GReceive | GWait
  | FClosing _ | FLock _ | FDecide _ | FEnd _ | FClose _ | FPop _ => has_result
  | FRemove _ => true
  | _ => false
  end.
Definition requests_at (f : RequestPc → bool) s : Z := tally (λ r, f (pc r)) (requests s).
Record counts s : Prop := {
  c_active : active_requests (metrics s) = requests_at is_active s;
  c_messages : messages_total (metrics s) = requests_at (ended_with true) s;
  c_errors : request_errors (metrics s) = requests_at (ended_with false) s;
  c_begin : begin_request_failed (metrics s) = requests_at not_begun s;
  c_pending : pending_requests (metrics s) = requests_at is_pending s }.

Lemma requests_at_move f s s' a r r' :
  requests s !! a = Some r → requests s' = <[a := r']> (requests s) →
  requests_at f s' = requests_at f s - (if f (pc r) then 1 else 0) + (if f (pc r') then 1 else 0).
Proof. intros Hr Hq. unfold requests_at. rewrite Hq. by apply (tally_update (λ r, f (pc r))). Qed.
(** The state changes at most one request, whose point stays. *)
Lemma counts_same s s' a r r' :
  counts s → metrics s' = metrics s → requests s !! a = Some r → requests s' = <[a := r']> (requests s) → pc r' = pc r →
  counts s'.
Proof.
  intros [] Hm Hr Hq Hpc. split; rewrite Hm; erewrite requests_at_move by eassumption; rewrite Hpc; lia.
Qed.
Lemma counts_results s s' :
  counts s → requests s' = requests s →
  (metrics s' = metrics s ∨ ∃ f, (f = inc_missing ∨ f = inc_late ∨ f = inc_unknown ∨ f = inc_duplicate) ∧ metrics s' = f (metrics s)) →
  counts s'.
Proof.
  intros [] Hq Hm. unfold requests_at in *.
  split; unfold requests_at; rewrite Hq; destruct Hm as [->|(f & [->|[->|[->| ->]]] & ->)]; done.
Qed.
Hypothesis enabled : metrics_enabled = true.
Ltac counted r Hr Hpc :=
  match goal with
  | H : counts _ |- counts _ =>
      destruct H as [Hc1 Hc2 Hc3 Hc4 Hc5]; split;
      (erewrite requests_at_move; [|exact Hr|reflexivity]); cbn; rewrite Hpc; cbn;
      try (destruct (kind r)); try match goal with h : HandlerResult |- _ => destruct h end; cbn; repeat case_match; simplify_eq; try congruence; lia
  end.
Lemma counts_turn s s' a r turn :
  inv s → counts s → requests s !! a = Some r →
  request_turn default_response metrics_enabled has_result s a r turn = Some s' → counts s'.
Proof.
  intros Hi Hc Hr H.
  destruct turn; cbn in H; unfold begin_returns, admission, reject_returns, admitted, next_returns, consume_returns,
    eof_returns, receive, wait_done, finish_closing, finish_lock, finish_decide, end_returns, finish_close, finish_pop,
    finish_remove, finish_unlock, resume, count in H; rewrite ?enabled in H; destruct (pc r) eqn:Hpc; try done.
  all: repeat case_match; simplify_eq; try (counted r Hr Hpc; fail).
  exfalso. eapply reserved_pending in Hr; [|done|by rewrite Hpc]. done.
Qed.
Ltac same := eapply counts_same; [eassumption|done|eassumption|reflexivity|done].
Lemma counts_result s s' t x turn :
  counts s → results s !! t = Some x → result_moves metrics_enabled has_result s t x turn = Some s' → counts s'.
Proof.
  intros Hc Hx H. destruct turn as [id|fin]; cbn in H; unfold result_turn, callback_returns, count in H; rewrite ?enabled in H.
  - destruct (s_pc x); cbn in H; simplify_option_eq; repeat case_match; simplify_option_eq; try done;
      try (eapply counts_results; [exact Hc|done|]; first [by left|right; eexists; split; [|done]; auto]; fail);
      try (same; fail).
    + eapply (counts_results (set_request s a _)); [|done|right; exists inc_duplicate; by auto].
      same.
  - destruct (s_pc x); simplify_eq. eapply counts_results; [exact Hc|done|by left].
Qed.
Lemma counts_step s s' : step s s' → inv s → counts s → counts s'.
Proof.
  intros [turn H] Hi Hc. destruct turn as [k|id|a turn|t turn|a|t|a id c|a|a v]; cbn in H.
  - injection H as <-. pose proof (table_fresh_request (C := C) _ _ _ _ Hi) as Hfr.
    destruct Hc as [H1 H2 H3 H4 H5]. unfold requests_at in *.
    split; cbn; unfold requests_at; cbn; rewrite tally_insert_new by done; cbn; lia.
  - injection H as <-. eapply counts_results; [exact Hc|done|by left].
  - destruct (requests s !! a) as [r|] eqn:Hr; [|done]. by eapply counts_turn.
  - destruct (results s !! t) as [x|] eqn:Hx; [|done]. by eapply counts_result.
  - destruct (requests s !! a) as [r|] eqn:Hr; [|done]. cbn in H. unfold drop_request, resume in H. cbn in H.
    destruct (owned r); [|done]. destruct (pc r) eqn:Hpc; simplify_eq; counted r Hr Hpc.
  - destruct (results s !! t) as [x|] eqn:Hx; [|done]. cbn in H. unfold drop_result in H.
    destruct (held (s_pc x)) as [a|]; [|simplify_eq; eapply counts_results; [exact Hc|done|by left]].
    destruct (requests s !! a) as [r|] eqn:Hr; simplify_eq/=. same.
  - destruct (requests s !! a) as [r|] eqn:Hr; [|done]. cbn in H. unfold set_result_callback in H.
    destruct (has_pending (pc r)); [|done]. destruct (callbacks (life r)); simplify_eq; [|done]. same.
  - destruct (requests s !! a) as [r|] eqn:Hr; [|done]. cbn in H. unfold result_done in H.
    destruct (has_pending (pc r)); simplify_eq. same.
  - destruct (requests s !! a) as [r|] eqn:Hr; simplify_eq/=. same.
Qed.
Lemma grpc_counts_reachable s : source_reachable default_response metrics_enabled has_result s → counts s.
Proof.
  intros Hs. assert (inv s ∧ counts s) as [_ ?]; [|done].
  refine (rtc_ind_r (λ s, inv s ∧ counts s) _ _ _ s Hs).
  - split; [by apply grpc_inv_reachable, rtc_refl|done].
  - intros x y _ Hxy [Hi Hc]. split; [by eapply grpc_inv_step|by eapply counts_step].
Qed.
End invariants.

(** ** The end of a request *)
Section finish.
Context {ResR C : Type} (default_response : ResR) (metrics_enabled has_result : bool) (a : nat).
Notation Source := (Source ResR C).
Notation reachable := (source_reachable (C := C) default_response metrics_enabled has_result).
Implicit Types (s : Source) (x : Result C) (cl : nat → bool).

(** The moves of request [a] and of the results that are there. *)
Inductive moves s s' : Prop :=
| m_request r turn :
    requests s !! a = Some r → request_turn default_response metrics_enabled has_result s a r turn = Some s' → moves s s'
| m_result t x turn :
    results s !! t = Some x → result_moves metrics_enabled has_result s t x turn = Some s' → moves s s'.

Definition finish_rank (g : RequestPc) : nat :=
  match g with
  | FClosing _ => 8 | FLock _ => 7 | FDecide _ => 6 | FEnd _ => 5 | FClose _ => 4 | FPop _ => 3 | FRemove _ => 2
  | FUnlock _ => 1 | _ => 0
  end.
(** How far a result can still go; [cl] tells which requests are closing. *)
Definition result_rank cl x : nat :=
  match s_pc x with
  | SGet => 12 | SSelect b => if cl b then 1 else 11 | SLock _ => 10 | SClosing _ => 9 | SCurrent _ => 8
  | SMessageId _ => 7 | SFind _ _ => 6 | SCallback _ _ _ => 5 | SRemove _ _ => 4 | SRelease _ => 3 | SDone => 0
  end.
Definition is_closing s (b : nat) : bool := default false (closing ∘ life <$> requests s !! b).
Definition weight cl (rs : gmap nat (Result C)) : nat := length (gather (λ x, replicate (result_rank cl x) ()) rs).
Definition finish_measure s : nat := finish_rank (default GBegin (pc <$> requests s !! a)) + weight (is_closing s) (results s).

Lemma weight_move cl rs t x x' :
  rs !! t = Some x → (weight cl (<[t := x']> rs) + result_rank cl x = weight cl rs + result_rank cl x')%nat.
Proof.
  intros Hx. unfold weight. rewrite (gather_insert (λ x, replicate (result_rank cl x) ()) rs t x').
  rewrite (gather_delete (λ x, replicate (result_rank cl x) ()) rs t x Hx), !length_app, !length_replicate. lia.
Qed.
Lemma weight_mono cl cl' rs : (∀ b, cl b = true → cl' b = true) → (weight cl' rs ≤ weight cl rs)%nat.
Proof.
  intros Hc. unfold weight, gather. induction (map_to_list rs) as [|[t x] l IH]; cbn; [lia|].
  rewrite !length_app, !length_replicate.
  assert (result_rank cl' x ≤ result_rank cl x)%nat; [|lia].
  unfold result_rank. destruct (s_pc x) as [|b| | | | | | | | |]; try lia. specialize (Hc b).
  destruct (cl b), (cl' b); first [lia|by specialize (Hc eq_refl)].
Qed.
Lemma closing_move s s' b r r' c :
  requests s !! b = Some r → requests s' = <[b := r']> (requests s) →
  (closing (life r) = true → closing (life r') = true) → is_closing s c = true → is_closing s' c = true.
Proof.
  intros Hr Hq Hc. unfold is_closing. rewrite Hq. destruct (decide (b = c)) as [<-|]; [|by rewrite lookup_insert_ne].
  rewrite lookup_insert_eq, Hr. cbn. auto.
Qed.

Lemma request_turn_decreases s s' r turn :
  requests s !! a = Some r → finishing (pc r) = true →
  request_turn default_response metrics_enabled has_result s a r turn = Some s' →
  (finish_measure s' < finish_measure s)%nat ∧ ∃ r', requests s' !! a = Some r' ∧ finishing (pc r') = true.
Proof.
  intros Hr Hf H. assert (Hm : ∃ r', requests s' = <[a := r']> (requests s) ∧ results s' = results s ∧
    (closing (life r) = true → closing (life r') = true) ∧ (finish_rank (pc r') < finish_rank (pc r))%nat ∧ finishing (pc r') = true).
  { destruct turn; cbn in H; unfold begin_returns, admission, reject_returns, admitted, next_returns, consume_returns,
      eof_returns, receive, wait_done, finish_closing, finish_lock, finish_decide, end_returns, finish_close, finish_pop,
      finish_remove, finish_unlock, count in H; destruct (pc r) eqn:Hpc; try done; repeat case_match; simplify_eq;
      (eexists; split; [reflexivity|]; cbn; split_and!; try done; lia). }
  destruct Hm as (r' & Hq & Hs & Hc & Hlt & Hf'). split; [|exists r'; by rewrite Hq, lookup_insert_eq].
  unfold finish_measure. rewrite Hs, Hq, lookup_insert_eq, Hr. cbn.
  assert (Hw : ∀ b, is_closing s b = true → is_closing s' b = true) by (intros b; by eapply closing_move).
  apply (weight_mono _ _ (results s)) in Hw. lia.
Qed.
Lemma result_move_decreases s s' t x turn :
  inv s → results s !! t = Some x → result_moves metrics_enabled has_result s t x turn = Some s' →
  (finish_measure s' < finish_measure s)%nat ∧
  pc <$> requests s' !! a = pc <$> requests s !! a.
Proof.
  intros Hi Hx H.
  assert (Hm : ∃ x', results s' = <[t := x']> (results s) ∧ (result_rank (is_closing s) x' < result_rank (is_closing s) x)%nat ∧
    ∀ b, closing ∘ life <$> requests s' !! b = closing ∘ life <$> requests s !! b ∧ pc <$> requests s' !! b = pc <$> requests s !! b).
  { assert (Hsame : ∀ b r r', requests s !! b = Some r → closing (life r') = closing (life r) → pc r' = pc r → ∀ c,
      closing ∘ life <$> <[b := r']> (requests s) !! c = closing ∘ life <$> requests s !! c ∧
      pc <$> <[b := r']> (requests s) !! c = pc <$> requests s !! c).
    { intros b r r' Hb Hc Hp c. destruct (decide (b = c)) as [<-|]; [|by rewrite lookup_insert_ne].
      rewrite lookup_insert_eq, Hb. cbn. by rewrite Hc, Hp. }
    destruct turn as [id|fin]; cbn in H; unfold result_turn, callback_returns, count in H;
      destruct (s_pc x) as [|b|b|b|b|b|b mid|b mid c|b mid|b|] eqn:Hpc; simplify_option_eq; repeat case_match; simplify_option_eq;
      (eexists; split_and!; [reflexivity| |]); unfold result_rank; cbn; rewrite ?Hpc; try lia; eauto.
    - case_match; lia.
    - case_match; lia.
    - case_match; lia.
    - unfold is_closing.
      match goal with H : requests s !! _ = Some _, H' : closing _ = _ |- _ => rewrite H; cbn; rewrite H' end. lia.
    - match goal with H : requests s !! b = Some ?r, H' : writer _ = _ |- _ =>
        pose proof (grpc_ok _ _ _ Hi H) as Hok; unfold is_closing; rewrite H; cbn; rewrite (ro_shut _ Hok); [lia|];
        rewrite (ro_writer _ Hok) in H'; by destruct (pc r) end. }
  destruct Hm as (x' & Hs & Hlt & Hsame). split; [|apply Hsame].
  unfold finish_measure. destruct (Hsame a) as [_ ->]. rewrite Hs.
  assert (Hw : ∀ b, is_closing s b = true → is_closing s' b = true).
  { intros b. unfold is_closing. by destruct (Hsame b) as [-> _]. }
  apply (weight_mono _ _ (<[t := x']> (results s))) in Hw. pose proof (weight_move (is_closing s) _ _ _ x' Hx). lia.
Qed.
(** A request in [finish] is never blocked for good: it can move, or a result
    that holds its lock can. *)
Lemma finish_progress s r :
  inv s → requests s !! a = Some r → finishing (pc r) = true → over (pc r) = false → ∃ s', moves s s'.
Proof.
  intros Hi Hr Hf Hov. pose proof (grpc_ok _ _ _ Hi Hr) as Hok.
  assert (Hgo : ∀ turn, is_Some (request_turn default_response metrics_enabled has_result s a r turn) → ∃ s', moves s s').
  { intros turn [s' H]. exists s'. by eapply m_request. }
  destruct (pc r) eqn:Hpc; try done.
  - apply (Hgo TClosing). cbn. unfold finish_closing. rewrite Hpc. eauto.
  - destruct (decide (readers (life r) = ∅)) as [He|He].
    + apply (Hgo TLock). cbn. unfold finish_lock. pose proof (ro_writer _ Hok) as Hw. rewrite Hpc in *.
      rewrite decide_True by done. eauto.
    + apply set_choose_L in He as [t Ht]. apply (i_readers _ _ _ _ Hi _ _ _ Hr) in Ht as (x & Hx & Hh). cbn in Hh.
      assert (∃ turn, is_Some (result_moves metrics_enabled has_result s t x turn)) as (turn & s' & H);
        [|exists s'; by eapply m_result].
      destruct (s_pc x) as [|b|b|b|b|b|b mid|b mid c|b mid|b|] eqn:Hpx; simplify_eq/=;
        try (exists (TStep ""); cbn; unfold result_turn; rewrite Hpx, ?Hr; cbn; eauto; fail).
      exists (TCallback true). cbn. unfold callback_returns. rewrite Hpx. eauto.
  - apply (Hgo TDecide). cbn. unfold finish_decide. rewrite Hpc. eauto.
  - apply (Hgo (TEnd HOk)). cbn. unfold end_returns. rewrite Hpc. eauto.
  - apply (Hgo TClose). cbn. unfold finish_close. rewrite Hpc. eauto.
  - apply (Hgo TPop). cbn. unfold finish_pop. rewrite Hpc. case_decide; eauto.
  - apply (Hgo TRemove). cbn. unfold finish_remove. rewrite Hpc. eauto.
  - apply (Hgo TUnlock). cbn. unfold finish_unlock. rewrite Hpc. eauto.
Qed.
Lemma moves_step s s' : moves s s' → source_step default_response metrics_enabled has_result s s'.
Proof. intros [r turn Hr H|t x turn Hx H]; [exists (TMove a turn)|exists (TMoveResult t turn)]; cbn; by rewrite ?Hr, ?Hx. Qed.
Lemma moves_decrease s s' :
  inv s → (∃ r, requests s !! a = Some r ∧ finishing (pc r) = true) → moves s s' →
  (finish_measure s' < finish_measure s)%nat ∧ ∃ r', requests s' !! a = Some r' ∧ finishing (pc r') = true.
Proof.
  intros Hi (r & Hr & Hf) [r0 turn Hr0 H|t x turn Hx H].
  - simplify_eq. by eapply request_turn_decreases.
  - destruct (result_move_decreases _ _ _ _ _ Hi Hx H) as [Hlt Hp]. split; [done|].
    rewrite Hr in Hp. destruct (requests s' !! a) as [r'|]; [|done]. exists r'. injection Hp as ->. done.
Qed.
End finish.

(** * Properties *)
Section properties.
Context {ResR C : Type} (default_response : ResR) (metrics_enabled has_result : bool).
Notation Source := (Source ResR C).
Implicit Types (s : Source) (r : Request ResR C).

(** C13: a gRPC result callback runs only for the request that owns the
    result's stream identifier, among those its handler registered under that
    message identifier, and never once [end_request] has been called. *)
Theorem grpc_callback_before_end s t id a message_id c :
  source_reachable default_response metrics_enabled has_result s → results s !! t = Some (MkResult id (SCallback a message_id c)) →
  ∃ r, requests s !! a = Some r ∧ id = Some (sid r) ∧ pending s !! sid r = Some a ∧ ends r = 0%nat ∧
    (message_id, c) ∈ registered (life r).
Proof.
  intros Hi%grpc_inv_reachable Hx. destruct (i_target _ _ _ _ Hi _ _ a Hx eq_refl) as (r & Hr & [Hs Hc]).
  destruct (Hs eq_refl) as [Hid Hrv]. cbn in Hrv. pose proof (grpc_ok _ _ _ Hi Hr) as Hok. exists r.
  split_and!; [done|done|by apply reserved_pending| |by eapply Hc].
  rewrite (ro_ends _ Hok). assert (Ht : t ∈ readers (life r)) by (apply (i_readers _ _ _ _ Hi _ _ _ Hr); eauto).
  destruct (ended (pc r)) eqn:He; [|done]. rewrite (ro_readers _ Hok) in Ht; [set_solver|].
  rewrite (ro_writer _ Hok). by destruct (pc r).
Qed.

(** C14: every gRPC request that [begin_request] accepted has called
    [end_request] exactly once when it is over, whether its identifier was a
    duplicate, its caller dropped it at any point, or it ran to its end; its
    callbacks are then closed and its identifier is free; no request calls it
    twice, and two requests never hold one identifier. *)
Theorem grpc_end_request_once s a r :
  source_reachable default_response metrics_enabled has_result s → requests s !! a = Some r →
  (ends r ≤ 1)%nat ∧ (over (pc r) = true → pc r ≠ GFailed → ends r = 1%nat) ∧ (pc r = GFailed → ends r = 0%nat) ∧
  (∀ h, pc r = GReturned h → callbacks (life r) = None ∧ closing (life r) = true ∧ pending s !! sid r ≠ Some a) ∧
  (∀ b r', requests s !! b = Some r' → reserved (pc r) = true → reserved (pc r') = true → sid r' = sid r → b = a).
Proof.
  intros Hi%grpc_inv_reachable Hr. pose proof (grpc_ok _ _ _ Hi Hr) as Hok. pose proof (ro_ends _ Hok) as He. split_and!.
  - destruct (ended (pc r)); lia.
  - intros Hov Hne. by destruct (pc r).
  - intros Hpc. by rewrite Hpc in He.
  - intros h Hpc. pose proof (ro_closed _ Hok) as Hc. pose proof (ro_shut _ Hok) as Hs. rewrite Hpc in *.
    split_and!; [auto..|]. intros (r' & ? & _ & Hrv)%(i_pending _ _ _ _ Hi). simplify_eq/=. by rewrite Hpc in Hrv.
  - intros b r' Hb Hrv Hrv' Hsid. apply (reserved_pending _ _ _ Hi) in Hr, Hb; congruence.
Qed.

(** C15: [finish] ends: once a request has entered it, the moves of the
    request and of the results under way come to an end, and at the end the
    request has returned, with [end_request] called once. *)
Theorem grpc_finish_returns s a r :
  source_reachable default_response metrics_enabled has_result s → requests s !! a = Some r → finishing (pc r) = true →
  sn (moves default_response metrics_enabled has_result a) s ∧
  ∀ s', rtc (moves default_response metrics_enabled has_result a) s s' →
    (∀ s'', ¬ moves default_response metrics_enabled has_result a s' s'') →
    ∃ r' h, requests s' !! a = Some r' ∧ pc r' = GReturned h ∧ ends r' = 1%nat.
Proof.
  intros Hi%grpc_inv_reachable Hr Hf. set (R := moves default_response metrics_enabled has_result a).
  set (P s := inv s ∧ ∃ r, requests s !! a = Some r ∧ finishing (pc r) = true).
  assert (Hstep : ∀ s s', P s → R s s' → P s' ∧ (finish_measure a s' < finish_measure a s)%nat).
  { intros s1 s2 [Hi1 Hf1] Hm. destruct (moves_decrease _ _ _ _ _ _ Hi1 Hf1 Hm). split; [|done]. split; [|done].
    eapply grpc_inv_step; [|exact Hi1]. by eapply moves_step. }
  assert (HP : P s) by (split; eauto). clear Hi Hr Hf. split.
  - remember (finish_measure a s) as n eqn:En. revert s HP En. induction (lt_wf n) as [n _ IH]. intros s HP ->.
    constructor. intros s' Hs'. destruct (Hstep _ _ HP Hs') as [HP' Hlt]. by eapply IH.
  - intros s' Hrtc Hnf. assert (P s') as [Hi' (r' & Hr' & Hf')].
    { clear Hnf. induction Hrtc as [|x y z Hxy _ IH]; [done|]. apply IH. by apply (Hstep x y). }
    destruct (over (pc r')) eqn:Hov.
    + pose proof (grpc_ok _ _ _ Hi' Hr') as Hok. pose proof (ro_ends _ Hok) as He.
      destruct (pc r') eqn:Hpc; try done. by exists r', result.
    + destruct (finish_progress default_response metrics_enabled has_result a s' r' Hi' Hr' Hf' Hov) as [s'' Hs''].
      by destruct (Hnf s'').
Qed.

(** a unary or client-streaming call that succeeds answers with the
    first response its handlers sent, taken by [receive] or found in the slot
    at the end, and with the default when none was sent. *)
Theorem grpc_unary_answer s a r :
  source_reachable default_response metrics_enabled has_result s → requests s !! a = Some r → pc r = FUnlock HOk → owned r = true →
  kind r = NoStreaming ∨ kind r = ClientStreaming →
  ∃ s' r', finish_unlock default_response s a r = Some s' ∧ requests s' !! a = Some r' ∧ pc r' = GReturned HOk ∧
    answer (unary r') = Some (default default_response (head (sent (unary r)))).
Proof.
  intros Hi%grpc_inv_reachable Hr Hpc Ho Hk. pose proof (grpc_ok _ _ _ Hi Hr) as Hok.
  pose proof (ro_unary _ Hok) as Hu. unfold unary_ok in Hu. rewrite Hpc in Hu. unfold finish_unlock. rewrite Hpc. cbn. rewrite Ho.
  assert (Ha : answer (unary_answer default_response (unary r)) = Some (default default_response (head (sent (unary r))))).
  { unfold unary_answer. destruct (response (unary r)); cbn; [by rewrite Hu|]. by destruct Hu as [-> _]. }
  eexists _, _. split; [reflexivity|]. cbn. rewrite lookup_insert_eq. split; [done|]. by destruct Hk as [-> | ->].
Qed.

(** with metrics enabled the gRPC gauges and counters agree with the
    requests: active and pending requests, successes, failures and requests
    that never began, under every interleaving and every drop. *)
Theorem grpc_metrics_agree s :
  metrics_enabled = true → source_reachable default_response metrics_enabled has_result s →
  active_requests (metrics s) = requests_at is_active s ∧
  pending_requests (metrics s) = requests_at (is_pending has_result) s ∧
  messages_total (metrics s) = requests_at (ended_with true) s ∧
  request_errors (metrics s) = requests_at (ended_with false) s ∧
  begin_request_failed (metrics s) = requests_at not_begun s.
Proof. intros He Hs. by destruct (grpc_counts_reachable _ _ _ He s Hs). Qed.
End properties.

(** ** Schedules *)
Fixpoint run {ResR C} (d : ResR) (metrics_enabled has_result : bool) (s : Source ResR C) (turns : list (Turn ResR C)) :
    option (Source ResR C) :=
  match turns with
  | [] => Some s
  | turn :: turns => s' ← advance d metrics_enabled has_result s turn; run d metrics_enabled has_result s' turns
  end.
Definition reached (has_result : bool) (turns : list (Turn Z nat)) : Source Z nat :=
  default source_new (run 0 true has_result source_new turns).
Lemma grpc_reached_reachable has_result turns : source_reachable 0 true has_result (reached has_result turns).
Proof.
  unfold reached. assert (∀ s s', source_reachable 0 true has_result s → run 0 true has_result s turns = Some s' →
    source_reachable 0 true has_result s') as H.
  { induction turns as [|turn turns IH]; intros s s' Hs Hr; cbn in Hr; simplify_option_eq; [done|].
    eapply IH; [|exact Hr]. eapply rtc_r; [exact Hs|by exists turn]. }
  destruct (run _ _ _ _ turns) eqn:Hr; [|apply rtc_refl]. eapply H; [apply rtc_refl|exact Hr].
Qed.
(** A unary request up to [receive], with a callback under "m". *)
Definition opened (a : nat) (k : Kind) : list (Turn Z nat) :=
  [TRequest k; TMove a (TBegin (Some (Some "s")) ""); TMove a TAdmit; TMove a TAdmitted; TSetCallback a "m" 7%nat].
(** The request's result runs its callback while the caller has gone away. *)
Definition served : list (Turn Z nat) :=
  opened 0 NoStreaming ++ [TMove 0 (TConsume true); TMove 0 TEof; TResult (Some "s")] ++
  replicate 7 (TMoveResult 1 (TStep "m")) ++ [TSend 0 5; TDrop 0; TMove 0 TClosing].
Lemma grpc_callback_before_end_witness :
  let s := reached true served in
  advance 0 true true s (TMove 0 TLock) = None ∧
  ∃ r, requests s !! 0%nat = Some r ∧ Some "s" = Some (sid r) ∧ pending s !! sid r = Some 0%nat ∧ ends r = 0%nat ∧
    ("m", 7%nat) ∈ registered (life r).
Proof.
  cbv zeta. split; [by vm_compute|].
  apply (grpc_callback_before_end 0 true true (reached true served) 1 (Some "s") 0 "m" 7%nat);
    [apply grpc_reached_reachable|by vm_compute].
Defined.
(** The result ends and the dropped request runs to its end. *)
Definition cleaned_up : list (Turn Z nat) :=
  served ++ [TMoveResult 1 (TCallback true); TMoveResult 1 (TStep ""); TMoveResult 1 (TStep "")] ++
  (TMove 0 <$> [TLock; TDecide; TEnd HErr; TClose; TPop; TRemove; TUnlock]).
Definition request_of (s : Source Z nat) (a : nat) : Request Z nat :=
  default (MkRequest NoStreaming "" GBegin true 0 pending_new unary_new) (requests s !! a).
Lemma grpc_end_request_once_witness :
  let s := reached true cleaned_up in
  pc (request_of s 0) = GReturned HErr ∧ ends (request_of s 0) = 1%nat ∧ callbacks (life (request_of s 0)) = None.
Proof.
  cbv zeta. assert (Hr : requests (reached true cleaned_up) !! 0%nat = Some (request_of (reached true cleaned_up) 0)) by by vm_compute.
  assert (Hpc : pc (request_of (reached true cleaned_up) 0) = GReturned HErr) by by vm_compute.
  destruct (grpc_end_request_once 0 true true _ 0 _ (grpc_reached_reachable true cleaned_up) Hr) as (_ & H1 & _ & H2 & _).
  split; [exact Hpc|]. split; [|apply (H2 _ Hpc)]. apply H1; rewrite Hpc; done.
Defined.
Lemma grpc_finish_returns_witness :
  sn (moves 0 true true 0) (reached true served) ∧ pc (request_of (reached true served) 0) = FLock HCancelled.
Proof.
  split; [|by vm_compute].
  apply (grpc_finish_returns 0 true true (reached true served) 0 (request_of (reached true served) 0));
    [apply grpc_reached_reachable|by vm_compute|by vm_compute].
Defined.
(** Two responses are sent; the first is the answer. *)
Definition answered : list (Turn Z nat) :=
  opened 0 NoStreaming ++ [TMove 0 (TConsume true); TMove 0 TEof; TSend 0 5; TMove 0 (TReceive false); TSend 0 6] ++
  (TMove 0 <$> [TClosing; TLock; TDecide; TEnd HOk; TClose; TPop; TRemove]).
Lemma grpc_unary_answer_witness :
  ∃ s' r', finish_unlock 0 (reached true answered) 0 (request_of (reached true answered) 0) = Some s' ∧
    requests s' !! 0%nat = Some r' ∧ pc r' = GReturned HOk ∧ answer (unary r') = Some 5.
Proof.
  apply (grpc_unary_answer 0 true true (reached true answered) 0 (request_of (reached true answered) 0));
    [apply grpc_reached_reachable|by vm_compute|by vm_compute|by vm_compute|by left; vm_compute].
Defined.
(** A second request with the identifier is rejected. *)
Definition duplicated : list (Turn Z nat) :=
  opened 0 NoStreaming ++ [TRequest BidiStreaming; TMove 1 (TBegin (Some (Some "s")) ""); TMove 1 TAdmit; TMove 1 TRejectReturns].
Lemma grpc_metrics_agree_witness :
  let s := reached true duplicated in
  active_requests (metrics s) = 1 ∧ request_errors (metrics s) = 1 ∧
  active_requests (metrics s) = requests_at is_active s ∧ request_errors (metrics s) = requests_at (ended_with false) s.
Proof.
  cbv zeta. destruct (grpc_metrics_agree 0 true true _ eq_refl (grpc_reached_reachable true duplicated)) as (H1 & _ & _ & H2 & _).
  split; [by vm_compute|]. split; [by vm_compute|]. by split.
Defined.

(** The start time of a request can be lost: an identifier that is used again
    between [pop_if] and [pending_requests.remove] of the request that had it
    keeps its place in the pending map but has no start time. *)
Theorem start_time_lost :
  ∃ s : Source Z nat, source_reachable 0 true true s ∧ pending s !! "s" = Some 1%nat ∧
    pending_requests (metrics s) = 1 ∧ times (metrics s) = ∅ ∧ pc (request_of s 1) = GConsume.
Proof.
  exists (reached true (opened 0 NoStreaming ++ [TMove 0 (TConsume false)] ++
    (TMove 0 <$> [TClosing; TLock; TDecide; TEnd HErr; TClose; TPop]) ++ opened 1 NoStreaming ++ [TMove 0 TRemove])).
  split; [apply grpc_reached_reachable|by vm_compute].
Qed.
(** A second response is accepted once the first was taken, and never answered. *)
Theorem second_response_accepted :
  (send (unary (request_of (reached true answered) 0)) 6).1 = Err () ∧
  sent (unary (request_of (reached true answered) 0)) = [5; 6].
Proof. by vm_compute. Qed.
