(* ===== verification/GrpcUnary.v ===== *)
(** The response slot of a unary gRPC call, [UnarySender] of
    [src/src/datasource/grpc/nostreaming.rs], with the wake-up protocol of
    [tokio::sync::Notify]: one receiver ([receive]) and any number of senders.
    A turn is one locked section of the slot or one operation of the
    notifier. *)

From S2P Require Import Prelude Errors.

Section unary.
Context {ResR : Type}.

(** Where [receive] is; [notified] says whether its waiter was notified. *)
Inductive ReceivePc :=
| UTop                                  (** [notified()], [enable()] *)
| UTake (notified : bool)               (** registered, before [take()] *)
| USleep (notified : bool)              (** the [select!] *)
| UCancelled                            (** the context ended, before [take()] *)
| UReturned (answer : outcome unit ResR).
(** [notifying] senders have filled the slot and not notified yet. *)
Record UnarySender := MkSender {
  value : option ResR;
  permit : bool;
  notifying : nat;
  receiver : ReceivePc;
  accepted : list ResR }.
Implicit Types s : UnarySender.

Definition sender_new : UnarySender := MkSender None false 0 UTop [].
Definition take s : option ResR * UnarySender :=
  (value s, MkSender None (permit s) (notifying s) (receiver s) (accepted s)).
Definition receiver_at s (g : ReceivePc) : UnarySender := MkSender (value s) (permit s) (notifying s) g (accepted s).
(** [send] up to [notify_one]: a filled slot is an error. *)
Definition send s (v : ResR) : outcome unit UnarySender :=
  match value s with
  | Some _ => Err ()
  | None => Ok (MkSender (Some v) (permit s) (S (notifying s)) (receiver s) (accepted s ++ [v]))
  end.
(** [notify_one] wakes the registered waiter, or else leaves one permit. *)
Definition notify_one s : option UnarySender :=
  match notifying s with
  | O => None
  | S n =>
      Some match receiver s with
           | UTake false => MkSender (value s) (permit s) n (UTake true) (accepted s)
           | USleep false => MkSender (value s) (permit s) n (USleep true) (accepted s)
           | g => MkSender (value s) true n g (accepted s)
           end
  end.
(** A turn of [receive]: [enable] takes the permit if there is one. *)
Definition receive_turn s : option UnarySender :=
  match receiver s with
  | UTop => Some (MkSender (value s) false (notifying s) (UTake (permit s)) (accepted s))
  | UTake n =>
      let (v, s) := take s in
      Some (receiver_at s (match v with Some v => UReturned (Ok v) | None => USleep n end))
  | USleep true => Some (receiver_at s UTop)
  | USleep false => None
  | UCancelled =>
      let (v, s) := take s in
      Some (receiver_at s (UReturned (match v with Some v => Ok v | None => Err () end)))
  | UReturned _ => None
  end.
Definition context_cancelled s : option UnarySender :=
  match receiver s with USleep _ => Some (receiver_at s UCancelled) | _ => None end.

(** What goes on without the environment, and with it. *)
Inductive sender_moves s s' : Prop :=
| um_notify : notify_one s = Some s' → sender_moves s s'
| um_receive : receive_turn s = Some s' → sender_moves s s'.
Inductive sender_step s s' : Prop :=
| us_moves : sender_moves s s' → sender_step s s'
| us_send v : send s v = Ok s' → sender_step s s'
| us_cancelled : context_cancelled s = Some s' → sender_step s s'.

(** * Lemmas *)
Definition returned s : bool := match receiver s with UReturned _ => true | _ => false end.
(** A waiting receiver with a full slot is going to be woken; until the
    receiver returns, the slot holds the first response. *)
Record sender_ok s : Prop := {
  so_wake : ∀ n, receiver s = USleep n → is_Some (value s) → n = true ∨ (notifying s > 0)%nat;
  so_first : returned s = false → value s = head (accepted s);
  so_answer : ∀ v, receiver s = UReturned (Ok v) → head (accepted s) = Some v }.

Lemma ok_step s s' : sender_step s s' → sender_ok s → sender_ok s'.
Proof.
  intros Hs [H1 H2 H3]. destruct s as [v p n g l]. cbn in *.
  assert (Hsplit : ∀ s', (∀ n, receiver s' = USleep n → is_Some (value s') → n = true ∨ (notifying s' > 0)%nat) →
    (returned s' = false → value s' = head (accepted s')) → (∀ v, receiver s' = UReturned (Ok v) → head (accepted s') = Some v) →
    sender_ok s') by by split.
  destruct Hs as [[H|H]|w H|H].
  - unfold notify_one in H. cbn in H. destruct n as [|n]; [done|].
    destruct g as [|[]|[]| |o]; simplify_eq; apply Hsplit; cbn; try done; naive_solver.
  - unfold receive_turn, take, receiver_at in H. cbn in H.
    destruct g as [|b|[]| |o]; simplify_eq; destruct v as [v|]; apply Hsplit; cbn in *; try done; naive_solver.
  - unfold send in H. cbn in H. destruct v; simplify_eq. apply Hsplit; cbn in *; [intros ? -> _; right; lia| |].
    + intros Hr. specialize (H2 Hr). by destruct l.
    + intros v Hg. specialize (H3 v Hg). by destruct l.
  - unfold context_cancelled, receiver_at in H. cbn in H. destruct g; simplify_eq. apply Hsplit; cbn in *; naive_solver.
Qed.
Lemma ok_reachable s : rtc sender_step sender_new s → sender_ok s.
Proof.
  intros Hs. refine (rtc_ind_r sender_ok _ _ _ s Hs); [by split|]. intros x y _ Hxy. by apply ok_step.
Qed.
Definition bit (b : bool) : nat := if b then 1 else 0.
Definition receive_rank (g : ReceivePc) : nat :=
  match g with UTop => 3 | UTake n => 4 * bit n + 2 | USleep n => 4 * bit n + 1 | UCancelled => 1 | UReturned _ => 0 end.
Definition sender_measure s : nat := 5 * notifying s + 4 * bit (permit s) + receive_rank (receiver s).
Lemma moves_measure s s' : sender_moves s s' → (sender_measure s' < sender_measure s)%nat.
Proof.
  destruct s as [v p n g l]. unfold sender_measure. intros [H|H].
  - unfold notify_one in H. cbn in H. destruct n; [done|]. destruct g as [|[]|[]| |]; simplify_eq; cbn; destruct p; cbn; lia.
  - unfold receive_turn, take, receiver_at in H. cbn in H.
    destruct g as [|[]|[]| |]; simplify_eq; cbn; destruct p; cbn; repeat case_match; cbn; lia.
Qed.
(** The response [v] is there for [receive], or was taken by it. *)
Definition holds_response (v : ResR) s : Prop :=
  (returned s = false ∧ value s = Some v) ∨ receiver s = UReturned (Ok v).
Lemma moves_holds v s s' : sender_moves s s' → holds_response v s → holds_response v s'.
Proof.
  destruct s as [w p n g l]. unfold holds_response. cbn. intros [H|H].
  - unfold notify_one in H. cbn in H. destruct n; [done|]. destruct g as [|[]|[]| |]; simplify_eq; cbn; naive_solver.
  - unfold receive_turn, take, receiver_at in H. cbn in H.
    destruct g as [|[]|[]| |]; simplify_eq; cbn; intros [[? ->]|?]; try done; by auto.
Qed.

(** C34: [receive] loses no wake-up: once a response was accepted and the
    receiver has not returned, the pending notifications and the receiver
    come to rest, and then the receiver has returned that response, which is
    the first one accepted, even when its context is cancelled meanwhile. *)
Theorem unary_receive_returns s v :
  rtc sender_step sender_new s → value s = Some v → returned s = false →
  head (accepted s) = Some v ∧ sn sender_moves s ∧
  ∀ s', rtc sender_moves s s' → (∀ s'', ¬ sender_moves s' s'') → receiver s' = UReturned (Ok v).
Proof.
  intros Hs Hv Hr. pose proof (ok_reachable _ Hs) as Hok. split_and!.
  - by rewrite <-(so_first _ Hok), Hv.
  - clear. remember (sender_measure s) as n eqn:En. revert s En. induction (lt_wf n) as [n _ IH]. intros s ->.
    constructor. intros s' Hs'%moves_measure. by eapply IH.
  - intros s' Hm Hnf. assert (sender_ok s' ∧ holds_response v s') as [Hok' Hh].
    { assert (Hh : holds_response v s) by by left. clear -Hm Hok Hh.
      induction Hm as [|x y z Hxy _ IH]; [done|]. apply IH; [eapply ok_step; [by constructor|done]|by eapply moves_holds]. }
    destruct Hh as [[Hr' Hv']|]; [|done]. destruct s' as [w p n g l]. cbn in *. subst w.
    assert (Hmove : is_Some (receive_turn (MkSender (Some v) p n g l)) ∨ is_Some (notify_one (MkSender (Some v) p n g l))).
    { destruct g as [|b|[]| |]; cbn; eauto; [|by unfold returned in Hr'].
      destruct (so_wake _ Hok' false) as [|Hn]; cbn; [done|by eauto|done|]. cbn in Hn. right. unfold notify_one. cbn.
      destruct n; [lia|eauto]. }
    destruct Hmove as [[s'' H]|[s'' H]]; exfalso; apply (Hnf s''); by constructor.
Qed.
End unary.

(** A response arrives while [receive] sleeps, and the context is cancelled
    before it is woken. *)
Definition late_response : UnarySender (ResR := Z) := MkSender (Some 5%Z) false 1 (UCancelled) [5%Z].
Lemma unary_receive_returns_witness :
  sn sender_moves late_response ∧ receive_turn late_response = Some (MkSender None false 1 (UReturned (Ok 5%Z)) [5%Z]).
Proof.
  split; [|by vm_compute]. apply (unary_receive_returns late_response 5%Z); [|by vm_compute|by vm_compute].
  apply (rtc_l _ _ (MkSender None false 0 (UTake false) [])); [by apply us_moves, um_receive; vm_compute|].
  apply (rtc_l _ _ (MkSender None false 0 (USleep false) [])); [by apply us_moves, um_receive; vm_compute|].
  apply (rtc_l _ _ (MkSender (Some 5%Z) false 1 (USleep false) [5%Z])); [by apply (us_send _ _ 5%Z); vm_compute|].
  apply rtc_once. by apply us_cancelled; vm_compute.
Defined.
