(* ===== verification/GrpcSink.v ===== *)
(** The streaming sessions of the gRPC sink, [src/src/datasink/grpc]:
    [clientstreaming.rs] and [bidistreaming.rs].

    A streaming session is shared by all the messages of one stream
    identifier: the first message creates it, the others wait for its cell,
    and a spawned task finishes it.  Messages, the finishing task and the close
    task of a session run as threads; a turn is one atomic section or the
    return of a handler or of the client, whose answers are arguments.  The
    pending map is the plain map of the rotating map's specification; a cell's
    number is the identity of its [Arc].  The future of a message is not
    dropped before it ends, and the write guard of [finish], dropped as soon as
    it is taken, is one turn. *)

From S2P Require Import Prelude Errors.
Local Open Scope Z_scope.

Inductive SessionKind := ClientStream | BidiStream.

(** What the finishing task does after the point it is at. *)
Inductive Next := ToReceive | ToHandle | ToEnd (ok : bool).
(** Where the finishing task is. *)
Inductive FinalizerPc :=
| NWait                                 (** client: the result context or the context *)
| NFinish (n : Next)                    (** before [finished.cancel] *)
| NReceive                              (** [close_and_recv], or [recv] of the loop *)
| NDrain (n : Next)                     (** [lifetime.write] *)
| NHandle                               (** [handle_response] runs *)
| NEnding (ok : bool)                   (** [end_request] runs *)
| NPop (ok : bool)
| NDone (ok : bool).
(** The close task of a bidirectional session. *)
Inductive ClosePc := KNone | KWait | KClosing | KClosed.
Record Session := MkSession {
  done : bool;
  finished : bool;
  readers : gset nat;
  finalizer : FinalizerPc;
  closer : ClosePc;
  received : bool;                      (** [receive_finished] was sent *)
  ends : nat }.
(** [OnceCell<Option<Arc<Pending>>>]: the creation runs in the message that
    came first. *)
Inductive Cell :=
| CEmpty
| CBegin (t : nat)                      (** [begin_request] runs *)
| CCall (t : nat)                       (** [client_function] runs *)
| CEnd (t : nat)                        (** the call failed, [end_request] runs *)
| CFailed (begun : bool)
| CReady (x : Session).
Record CellEntry := MkCell { c_sid : string; c_cell : Cell }.

(** Where a message is in [consume]. *)
Inductive MessagePc :=
| MGet
| MCell (c : nat)                       (** [get_or_init] *)
| MInit (c : nat)                       (** it runs the creation *)
| MPop (c : nat)
| MSelect (c : nat)
| MLock (c : nat)
| MCheck (c : nat)
| MConsume (c : nat)                    (** [consume_message] runs *)
| MRelease (c : nat) (rejected : bool)
| MDone
| MRejected.
Record Message := MkMessage { m_sid : string; m_pc : MessagePc }.

Record SinkMetrics := MkSinkMetrics {
  messages_total : Z; request_errors : Z; begin_request_failed : Z; active_requests : Z }.
Record Sink := MkSink {
  pending : gmap string nat;
  cells : gmap nat CellEntry;
  messages : gmap nat Message;
  metrics : SinkMetrics;
  next_id : nat }.

Section sink.
Context (kind : SessionKind) (enabled : bool).
Implicit Types (s : Sink) (x : Session) (e : CellEntry) (m : Message).

Definition sink_new : Sink := MkSink ∅ ∅ ∅ (MkSinkMetrics 0 0 0 0) 0.
(** [Pending], and the tasks spawned for it. *)
Definition session_new : Session :=
  match kind with
  | ClientStream => MkSession false false ∅ NWait KNone false 0
  | BidiStream => MkSession false false ∅ NReceive KWait false 0
  end.
Definition set_cell s (c : nat) e (y : Cell) : Sink :=
  MkSink (pending s) (<[c := MkCell (c_sid e) y]> (cells s)) (messages s) (metrics s) (next_id s).
Definition goto s (t : nat) m (g : MessagePc) : Sink :=
  MkSink (pending s) (cells s) (<[t := MkMessage (m_sid m) g]> (messages s)) (metrics s) (next_id s).
Definition set_pending s (p : gmap string nat) : Sink := MkSink p (cells s) (messages s) (metrics s) (next_id s).
Definition count s (f : SinkMetrics → SinkMetrics) : Sink :=
  if enabled then MkSink (pending s) (cells s) (messages s) (f (metrics s)) (next_id s) else s.

(** ** [EndpointMetrics] *)
Definition request_start (k : SinkMetrics) : SinkMetrics :=
  MkSinkMetrics (messages_total k) (request_errors k) (begin_request_failed k) (active_requests k + 1).
Definition request_end (ok : bool) (k : SinkMetrics) : SinkMetrics :=
  MkSinkMetrics (messages_total k + (if ok then 1 else 0)) (request_errors k + (if ok then 0 else 1))
    (begin_request_failed k) (active_requests k - 1).
Definition begin_failed (k : SinkMetrics) : SinkMetrics :=
  MkSinkMetrics (messages_total k) (request_errors k) (begin_request_failed k + 1) (active_requests k).
Definition reject_closing_request (k : SinkMetrics) : SinkMetrics :=
  MkSinkMetrics (messages_total k) (request_errors k + 1) (begin_request_failed k) (active_requests k).

Definition set_done x : Session :=
  MkSession true (finished x) (readers x) (finalizer x) (closer x) (received x) (ends x).
Definition set_readers x (rs : gset nat) : Session :=
  MkSession (done x) (finished x) rs (finalizer x) (closer x) (received x) (ends x).
Definition at_point x (g : FinalizerPc) : Session :=
  MkSession (done x) (finished x) (readers x) g (closer x) (received x) (ends x).
Definition pop_if s (id : string) (c : nat) : Sink :=
  if decide (pending s !! id = Some c) then set_pending s (delete id (pending s)) else s.

(** ** Messages *)
(** A message arrives; [id] is its stream identifier, or a new one. *)
Definition message_arrives s (id : string) : Sink :=
  MkSink (pending s) (cells s) (<[next_id s := MkMessage id MGet]> (messages s)) (metrics s) (S (next_id s)).
Definition get_or_create s (t : nat) m : option Sink :=
  match m_pc m with
  | MGet =>
      match pending s !! m_sid m with
      | Some c => Some (goto s t m (MCell c))
      | None =>
          let c := next_id s in
          Some (MkSink (<[m_sid m := c]> (pending s)) (<[c := MkCell (m_sid m) CEmpty]> (cells s))
            (<[t := MkMessage (m_sid m) (MCell c)]> (messages s)) (metrics s) (S c))
      end
  | _ => None
  end.
(** [OnceCell::get_or_init]: an empty cell is taken, one in use is waited for. *)
Definition get_or_init s (t : nat) m : option Sink :=
  match m_pc m with
  | MCell c =>
      e ← cells s !! c;
      match c_cell e with
      | CEmpty => Some (goto (set_cell s c e (CBegin t)) t m (MInit c))
      | CFailed _ => Some (goto s t m (MPop c))
      | CReady _ => Some (goto s t m (MSelect c))
      | _ => None
      end
  | _ => None
  end.
(** The creation: [begin_request], [client_function] and, when the call
    fails, [end_request]; [ok] is the answer. *)
Definition create s (t : nat) m (ok : bool) : option Sink :=
  match m_pc m with
  | MInit c =>
      e ← cells s !! c;
      match c_cell e with
      | CBegin _ =>
          if ok then Some (set_cell (count s request_start) c e (CCall t))
          else Some (goto (set_cell (count s begin_failed) c e (CFailed false)) t m (MPop c))
      | CCall _ =>
          if ok then Some (goto (set_cell s c e (CReady session_new)) t m (MSelect c))
          else Some (set_cell s c e (CEnd t))
      | CEnd _ => Some (goto (set_cell (count s (request_end false)) c e (CFailed true)) t m (MPop c))
      | _ => None
      end
  | _ => None
  end.
Definition drop_reservation s (t : nat) m : option Sink :=
  match m_pc m with MPop c => Some (goto (pop_if s (m_sid m) c) t m MDone) | _ => None end.
(** From the [select!] to the end of [consume]. *)
Definition session_turn s (t : nat) m (ok : bool) : option Sink :=
  match m_pc m with
  | MSelect c | MLock c | MCheck c | MConsume c | MRelease c _ =>
      e ← cells s !! c;
      match c_cell e with
      | CReady x =>
          Some match m_pc m with
               | MSelect _ => if finished x then goto (count s reject_closing_request) t m MRejected else goto s t m (MLock c)
               | MLock _ => goto (set_cell s c e (CReady (set_readers x ({[t]} ∪ readers x)))) t m (MCheck c)
               | MCheck _ => if finished x then goto (count s reject_closing_request) t m (MRelease c true)
                             else goto s t m (MConsume c)
               | MConsume _ => if ok then goto s t m (MRelease c false)
                               else goto (set_cell s c e (CReady (set_done x))) t m (MRelease c false)
               | MRelease _ rejected =>
                   goto (set_cell s c e (CReady (set_readers x (readers x ∖ {[t]})))) t m
                     (if rejected then MRejected else MDone)
               | _ => s
               end
      | _ => None
      end
  | _ => None
  end.

(** ** The finishing task *)
Inductive Answer := AOk | ANone | AErr.
Definition after_finish (n : Next) : FinalizerPc := match n with ToReceive => NReceive | n => NDrain n end.
Definition after_receive (answer : Answer) : FinalizerPc :=
  match kind, answer with
  | ClientStream, AErr => NDrain (ToEnd false)
  | ClientStream, _ => NDrain ToHandle
  | BidiStream, AOk => NHandle
  | BidiStream, ANone => NFinish (ToEnd true)
  | BidiStream, AErr => NFinish (ToEnd false)
  end.
Definition call_end x (ok : bool) : Session :=
  MkSession (done x) (finished x) (readers x) (NEnding ok) (closer x) (received x) (S (ends x)).
Definition after_handle x (ok : bool) : Session :=
  match kind with
  | ClientStream => call_end x ok
  | BidiStream => at_point x (if ok then NReceive else NFinish (ToEnd false))
  end.
(** [answer] is what the client or the handler answers, or whether the wait
    ended because the context was cancelled ([AErr]). *)
Definition finalizer_turn x (answer : Answer) : option Session :=
  match finalizer x with
  | NWait =>
      match answer with
      | AErr => Some (at_point x (NFinish (ToEnd false)))
      | _ => if done x then Some (at_point x (NFinish ToReceive)) else None
      end
  | NFinish n => Some (MkSession (done x) true (readers x) (after_finish n) (closer x) (received x) (ends x))
  | NReceive => Some (at_point x (after_receive answer))
  | NDrain n =>
      if decide (readers x = ∅) then
        match n with
        | ToEnd ok => Some (call_end x ok)
        | _ => Some (at_point x NHandle)
        end
      else None
  | NHandle => Some (after_handle x (match answer with AErr => false | _ => true end))
  | NEnding ok => Some (at_point x (NPop ok))
  | NPop ok =>
      Some (MkSession (done x) (finished x) (readers x) (NDone ok) (closer x) true (ends x))
  | NDone _ => None
  end.
(** The turn in the sink: metrics when [end_request] returned, and [pop_if]. *)
Definition finish_turn s (c : nat) e x (answer : Answer) : option Sink :=
  x' ← finalizer_turn x answer;
  let s' := set_cell s c e (CReady x') in
  Some match finalizer x with
       | NEnding ok => count s' (request_end ok)
       | NPop _ => pop_if s' (c_sid e) c
       | _ => s'
       end.
(** [close_send] once the session is done, cancelled or received to its end. *)
Definition set_closer x (g : ClosePc) : Session :=
  MkSession (done x) (finished x) (readers x) (finalizer x) g (received x) (ends x).
Definition close_turn x (cancelled : bool) : option Session :=
  match closer x with
  | KWait => if done x || cancelled || received x then Some (set_closer x KClosing) else None
  | KClosing => Some (set_closer x KClosed)
  | _ => None
  end.

(** ** The sink *)
Inductive MessageTurn := TGet | TInit | TCreate (ok : bool) | TPop | TSession (ok : bool).
Definition message_turn s (t : nat) m (turn : MessageTurn) : option Sink :=
  match turn with
  | TGet => get_or_create s t m
  | TInit => get_or_init s t m
  | TCreate ok => create s t m ok
  | TPop => drop_reservation s t m
  | TSession ok => session_turn s t m ok
  end.
Inductive SessionTurn := TFinish (answer : Answer) | TClose (cancelled : bool) | TSetDone.
Definition session_moves s (c : nat) e x (turn : SessionTurn) : option Sink :=
  match turn with
  | TFinish answer => finish_turn s c e x answer
  | TClose cancelled => x' ← close_turn x cancelled; Some (set_cell s c e (CReady x'))
  | TSetDone => Some (set_cell s c e (CReady (set_done x)))
  end.
Inductive Turn := TArrive (id : string) | TMessage (t : nat) (turn : MessageTurn) | TMove (c : nat) (turn : SessionTurn).
Definition advance s (turn : Turn) : option Sink :=
  match turn with
  | TArrive id => Some (message_arrives s id)
  | TMessage t turn => m ← messages s !! t; message_turn s t m turn
  | TMove c turn =>
      e ← cells s !! c;
      match c_cell e with CReady x => session_moves s c e x turn | _ => None end
  end.
Definition sink_step s s' : Prop := ∃ turn, advance s turn = Some s'.
Definition sink_reachable s : Prop := rtc sink_step sink_new s.
End sink.

(** * Lemmas *)
Section invariants.
Context (kind : SessionKind) (enabled : bool).
Notation step := (sink_step kind enabled).
Implicit Types (s : Sink) (x : Session) (y : Cell) (e : CellEntry) (m : Message) (g : MessagePc).

(** ** What the points say *)
Definition is_client : bool := match kind with ClientStream => true | BidiStream => false end.
(** [finished] is set. *)
Definition shut (p : FinalizerPc) : bool :=
  match p with NDrain _ | NEnding _ | NPop _ | NDone _ => true | NReceive | NHandle => is_client | _ => false end.
(** The admitted handlers have returned. *)
Definition drained (p : FinalizerPc) : bool :=
  match p with NEnding _ | NPop _ | NDone _ => true | NHandle => is_client | _ => false end.
Definition ended (p : FinalizerPc) : bool := match p with NEnding _ | NPop _ | NDone _ => true | _ => false end.
Definition possible (p : FinalizerPc) : bool :=
  match p with
  | NWait | NFinish ToReceive | NDrain ToHandle => is_client
  | NFinish ToHandle | NDrain ToReceive => false
  | _ => true
  end.
Record session_ok x : Prop := {
  so_possible : possible (finalizer x) = true;
  so_finished : shut (finalizer x) = true → finished x = true;
  so_unfinished : finished x = true → shut (finalizer x) = true;
  so_ends : ends x = if ended (finalizer x) then 1%nat else 0%nat }.
Definition popped y : bool := match y with CReady x => match finalizer x with NDone _ => true | _ => false end | _ => false end.
Definition live y : bool := match y with CFailed _ => false | _ => negb (popped y) end.
Definition owner y : option nat := match y with CBegin t | CCall t | CEnd t => Some t | _ => None end.
Definition readers_of y : gset nat := match y with CReady x => readers x | _ => ∅ end.
Definition holds g : option nat := match g with MCheck c | MConsume c | MRelease c _ => Some c | _ => None end.
Definition target g : option nat :=
  match g with MCell c | MInit c | MPop c | MSelect c | MLock c => Some c | _ => holds g end.
Definition fits (t : nat) g y : bool :=
  match g, y with
  | MInit _, _ => bool_decide (owner y = Some t)
  | MPop _, CFailed _ => true
  | MPop _, _ => false
  | (MSelect _ | MLock _ | MCheck _ | MRelease _ _), CReady _ => true
  | (MSelect _ | MLock _ | MCheck _ | MRelease _ _), _ => false
  | MConsume _, CReady x => negb (drained (finalizer x))
  | MConsume _, _ => false
  | _, _ => true
  end.
Definition cell_ok y : Prop := ∀ x, y = CReady x → session_ok x.
Record inv s : Prop := {
  i_cells : ∀ c e, cells s !! c = Some e →
    (c < next_id s)%nat ∧ cell_ok (c_cell e) ∧ (live (c_cell e) = true → pending s !! c_sid e = Some c);
  i_pending : ∀ id c, pending s !! id = Some c →
    ∃ e, cells s !! c = Some e ∧ c_sid e = id ∧ popped (c_cell e) = false;
  i_messages : ∀ t m, messages s !! t = Some m → (t < next_id s)%nat ∧
    ∀ c, target (m_pc m) = Some c → ∃ e, cells s !! c = Some e ∧ m_sid m = c_sid e ∧ fits t (m_pc m) (c_cell e) = true;
  i_owner : ∀ c e t, cells s !! c = Some e → owner (c_cell e) = Some t → ∃ m, messages s !! t = Some m ∧ m_pc m = MInit c;
  i_readers : ∀ c e t, cells s !! c = Some e →
    t ∈ readers_of (c_cell e) ↔ ∃ m, messages s !! t = Some m ∧ holds (m_pc m) = Some c }.

(** The pending map after a move that may free the identifier of [c]. *)
Definition frees (c : nat) (p p' : gmap string nat) : Prop := ∀ id b, p' !! id = Some b ↔ p !! id = Some b ∧ (b = c → p' !! id = Some c).
Lemma holds_target g c : holds g = Some c → target g = Some c.
Proof. by destruct g. Qed.

(** A message and its cell move. *)
Lemma inv_message s s' c e y' t m g' :
  inv s → cells s !! c = Some e → messages s !! t = Some m →
  cells s' = <[c := MkCell (c_sid e) y']> (cells s) → messages s' = <[t := MkMessage (m_sid m) g']> (messages s) →
  next_id s' = next_id s → m_sid m = c_sid e → (target (m_pc m) = None ∨ target (m_pc m) = Some c) →
  cell_ok y' → frees c (pending s) (pending s') → (live y' = true → pending s' !! c_sid e = Some c) →
  (popped y' = true → pending s' !! c_sid e ≠ Some c) →
  (∀ b, target g' = Some b → b = c ∧ fits t g' y' = true) →
  (∀ t' m', t' ≠ t → messages s !! t' = Some m' → target (m_pc m') = Some c → fits t' (m_pc m') (c_cell e) = true →
     fits t' (m_pc m') y' = true) →
  (∀ t', owner y' = Some t' → (t' = t ∧ g' = MInit c) ∨ (t' ≠ t ∧ owner (c_cell e) = Some t')) →
  (∀ t', t' ∈ readers_of y' ↔ (t' = t ∧ holds g' = Some c) ∨ (t' ≠ t ∧ t' ∈ readers_of (c_cell e))) →
  inv s'.
Proof.
  intros [H1 H2 H3 H4 H5] He Hm Hc Hq Hn Hsid Ht Hy Hfr Hlv Hpop Ht' Hoth Hown Hrd. split.
  - intros b eb. rewrite Hc, Hn, lookup_insert_Some. intros [[<- <-]|[Hne Hb]]; cbn.
    + split; [by apply (H1 c e)|done].
    + destruct (H1 b eb Hb) as (? & ? & Hl). split_and!; [done|done|]. intros Hlb. apply Hfr. split; [auto|congruence].
  - intros id b Hb. pose proof Hb as [Hb0 _]%Hfr. destruct (H2 _ _ Hb0) as (eb & Heb & <- & Hpb). rewrite Hc.
    destruct (decide (c = b)) as [<-|]; [|rewrite lookup_insert_ne by done; by exists eb]. simplify_eq.
    rewrite lookup_insert_eq. eexists. split_and!; [done|done|]. cbn. destruct (popped y') eqn:Hp; [|done]. by destruct (Hpop eq_refl).
  - intros t0 m0. rewrite Hq, Hn, lookup_insert_Some. intros [[<- <-]|[Hne H0]]; cbn.
    + split; [by apply (H3 t m)|]. intros b Hb. destruct (Ht' b Hb) as [-> ?]. rewrite Hc, lookup_insert_eq. by eexists.
    + destruct (H3 t0 m0 H0) as [? Hf]. split; [done|]. intros b Hb. destruct (Hf b Hb) as (eb & Heb & ? & ?). rewrite Hc.
      destruct (decide (c = b)) as [<-|]; [|rewrite lookup_insert_ne by done; by exists eb]. simplify_eq.
      rewrite lookup_insert_eq. eexists. split_and!; [done|done|]. cbn. by apply Hoth.
  - intros b eb t0. rewrite Hc, Hq, lookup_insert_Some. intros [[<- <-]|[Hne Hb]]; cbn.
    + intros [[-> ->]|[Hd Ho]]%Hown; [rewrite lookup_insert_eq; by eexists|].
      rewrite lookup_insert_ne by done. by eapply H4.
    + intros Ho. destruct (H4 _ _ _ Hb Ho) as (m0 & Hm0 & Hp0). destruct (decide (t = t0)) as [<-|].
      * simplify_eq. rewrite Hp0 in Ht. cbn in Ht. destruct Ht; congruence.
      * rewrite lookup_insert_ne by done. eauto.
  - intros b eb t0. rewrite Hc, Hq, lookup_insert_Some. intros [[<- <-]|[Hne Hb]]; cbn.
    + rewrite Hrd. destruct (decide (t = t0)) as [<-|Hd].
      * rewrite lookup_insert_eq. split; [intros [[_ ?]|[]]; by eauto|]. intros (? & [= <-] & ?). auto.
      * rewrite lookup_insert_ne, (H5 _ _ _ He) by done. split; [intros [[? _]|[_ ?]]; by eauto|auto].
    + rewrite (H5 _ _ _ Hb). destruct (decide (t = t0)) as [<-|]; [|by rewrite lookup_insert_ne].
      rewrite lookup_insert_eq, Hm. split; intros (? & [= <-] & Hh%holds_target); exfalso.
      * destruct Ht; congruence.
      * by destruct (Ht' _ Hh).
Qed.
(** Only the session of a cell moves. *)
Lemma inv_session s s' c e x x' :
  inv s → cells s !! c = Some e → c_cell e = CReady x →
  cells s' = <[c := MkCell (c_sid e) (CReady x')]> (cells s) → messages s' = messages s → next_id s' = next_id s →
  session_ok x' → readers x' = readers x → frees c (pending s) (pending s') →
  (popped (CReady x') = false → pending s' !! c_sid e = Some c) → (popped (CReady x') = true → pending s' !! c_sid e ≠ Some c) →
  (drained (finalizer x') = true → drained (finalizer x) = true ∨ readers x = ∅) → inv s'.
Proof.
  intros [H1 H2 H3 H4 H5] He Hx Hc Hq Hn Hok Hre Hfr Hlv Hpop Hdr. split.
  - intros b eb. rewrite Hc, Hn, lookup_insert_Some. intros [[<- <-]|[Hne Hb]]; cbn.
    + split_and!; [by apply (H1 c e)|by intros ? [= <-]|]. intros Hl. apply Hlv. cbn. by destruct (finalizer x').
    + destruct (H1 b eb Hb) as (? & ? & Hl). split_and!; [done|done|]. intros Hlb. apply Hfr. split; [auto|congruence].
  - intros id b Hb. pose proof Hb as [Hb0 _]%Hfr. destruct (H2 _ _ Hb0) as (eb & Heb & <- & Hpb). rewrite Hc.
    destruct (decide (c = b)) as [<-|]; [|rewrite lookup_insert_ne by done; by exists eb]. simplify_eq.
    rewrite lookup_insert_eq. eexists. split_and!; [done|done|]. cbn [c_cell]. destruct (popped _) eqn:Hp; [|done]. by destruct (Hpop eq_refl).
  - intros t0 m0. rewrite Hq, Hn. intros H0. destruct (H3 t0 m0 H0) as [? Hf]. split; [done|]. intros b Hb.
    destruct (Hf b Hb) as (eb & Heb & ? & Hfit). rewrite Hc.
    destruct (decide (c = b)) as [<-|]; [|rewrite lookup_insert_ne by done; by exists eb]. simplify_eq.
    rewrite lookup_insert_eq. eexists. split_and!; [done|done|]. cbn [c_cell]. rewrite Hx in Hfit.
    destruct (m_pc m0) as [| | | | | | |c0| | |] eqn:Hp; cbn in *; try done.
    destruct (drained (finalizer x')) eqn:Hd; [|done]. destruct (Hdr eq_refl) as [Hd'|Hre']; [by rewrite Hd' in Hfit|].
    assert (t0 ∈ readers_of (c_cell e)) as Hin by (apply (H5 c e t0 He); exists m0; by rewrite Hp).
    rewrite Hx in Hin. cbn in Hin. set_solver.
  - intros b eb t0. rewrite Hc, Hq, lookup_insert_Some. intros [[<- <-]|[Hne Hb]]; cbn; [done|by apply H4].
  - intros b eb t0. rewrite Hc, Hq, lookup_insert_Some. intros [[<- <-]|[Hne Hb]]; cbn; [|by apply H5].
    rewrite Hre, <-(H5 _ _ _ He), Hx. done.
Qed.

Lemma frees_refl c (p : gmap string nat) : frees c p p.
Proof. intros id b. split; [|by intros [? _]]. intros Hb. split; [done|]. by intros ->. Qed.
Lemma frees_pop c id (p : gmap string nat) :
  (∀ id', p !! id' = Some c → id' = id) → frees c p (if decide (p !! id = Some c) then delete id p else p).
Proof.
  intros Hu. case_decide as Hd; [|apply frees_refl]. intros id' b. rewrite lookup_delete_Some. split.
  - intros [Hne Hb]. split; [done|]. intros ->. by apply Hu in Hb as ->.
  - intros [Hb Hc]. split; [|done]. intros <-. rewrite Hd in Hb. injection Hb as <-. specialize (Hc eq_refl).
    by rewrite lookup_delete_eq in Hc.
Qed.
Lemma pending_unique s c e id : inv s → cells s !! c = Some e → pending s !! id = Some c → id = c_sid e.
Proof. intros Hi He (e' & He' & <- & _)%(i_pending _ Hi). congruence. Qed.
Ltac fields := unfold goto, set_cell, set_pending, count; case enabled; reflexivity.
Ltac others :=
  intros ? m' ? ? ?; destruct (m_pc m'); cbn; repeat case_bool_decide; try done; try congruence.

(** The cell stays. *)
Lemma session_inv_goto s s' c e t m g' :
  inv s → cells s !! c = Some e → messages s !! t = Some m →
  messages s' = <[t := MkMessage (m_sid m) g']> (messages s) → cells s' = cells s → pending s' = pending s →
  next_id s' = next_id s → m_sid m = c_sid e → (target (m_pc m) = None ∨ target (m_pc m) = Some c) →
  (∀ b, target g' = Some b → b = c ∧ fits t g' (c_cell e) = true) → holds g' = holds (m_pc m) →
  (m_pc m = MInit c → g' = MInit c) → inv s'.
Proof.
  intros Hi He Hm Hq Hc Hp Hn Hsid Ht Ht' Hh Hini. destruct (i_cells _ Hi _ _ He) as (_ & Hok & Hlv).
  eapply (inv_message s s' c e (c_cell e) t m g'); try done.
  - rewrite Hc. symmetry. apply insert_id. rewrite He. by destruct e.
  - rewrite Hp. apply frees_refl.
  - by rewrite Hp.
  - rewrite Hp. intros Hpop Hpe. apply (i_pending _ Hi) in Hpe as (e' & He' & _ & Hpf). congruence.
  - intros t' Ho. destruct (decide (t' = t)) as [->|]; [|by right]. left. split; [done|].
    destruct (i_owner _ Hi _ _ _ He Ho) as (m0 & Hm0 & Hp0). simplify_eq. auto.
  - intros t'. rewrite Hh. pose proof (i_readers _ Hi c e t He) as Hr. destruct (decide (t' = t)) as [->|]; [|naive_solver].
    rewrite Hr, Hm. naive_solver.
Qed.
Lemma inv_created s t m :
  inv s → messages s !! t = Some m → m_pc m = MGet → pending s !! m_sid m = None →
  inv (MkSink (<[m_sid m := next_id s]> (pending s)) (<[next_id s := MkCell (m_sid m) CEmpty]> (cells s))
         (<[t := MkMessage (m_sid m) (MCell (next_id s))]> (messages s)) (metrics s) (S (next_id s))).
Proof.
  intros Hi Hm Hpc Hp. assert (Hfr : cells s !! next_id s = None).
  { destruct (cells s !! next_id s) eqn:He; [|done]. apply (i_cells _ Hi) in He as [? _]. lia. }
  destruct Hi as [H1 H2 H3 H4 H5]. split; cbn.
  - intros b eb. rewrite lookup_insert_Some. intros [[<- <-]|[Hne Hb]]; cbn.
    + split_and!; [lia|by intros ?|intros _; by rewrite lookup_insert_eq].
    + destruct (H1 b eb Hb) as (? & ? & Hl). split_and!; [lia|done|]. intros Hlb. specialize (Hl Hlb).
      rewrite lookup_insert_ne; [done|]. congruence.
  - intros id b. rewrite lookup_insert_Some. intros [[<- <-]|[Hne (eb & Heb & ? & ?)%H2]].
    + rewrite lookup_insert_eq. by eexists.
    + exists eb. rewrite lookup_insert_ne; [done|congruence].
  - intros t0 m0. rewrite lookup_insert_Some. intros [[<- <-]|[Hne H0]]; cbn.
    + split; [destruct (H3 t m Hm); lia|]. intros b [= <-]. rewrite lookup_insert_eq. by eexists.
    + destruct (H3 t0 m0 H0) as [? Hf]. split; [lia|]. intros b Hb. destruct (Hf b Hb) as (eb & Heb & ?).
      exists eb. rewrite lookup_insert_ne; [done|congruence].
  - intros b eb t0. rewrite lookup_insert_Some. intros [[<- <-]|[Hne Hb]]; [done|]. intros Ho.
    destruct (H4 _ _ _ Hb Ho) as (m0 & Hm0 & Hp0). exists m0. rewrite lookup_insert_ne; [done|]. intros <-. congruence.
  - intros b eb t0. rewrite lookup_insert_Some. intros [[<- <-]|[Hne Hb]].
    + cbn. split; [set_solver|]. intros (m0 & Hm0 & Hh). rewrite lookup_insert_Some in Hm0.
      destruct Hm0 as [[<- <-]|[_ Hm0]]; [done|]. destruct (H3 _ _ Hm0) as [_ Hf].
      destruct (Hf _ (holds_target _ _ Hh)) as (? & ? & _). congruence.
    + rewrite (H5 _ _ _ Hb). destruct (decide (t = t0)) as [<-|]; [|by rewrite lookup_insert_ne].
      rewrite lookup_insert_eq, Hm. split; intros (? & [= <-] & Hh); [by rewrite Hpc in Hh|done].
Qed.
Lemma session_inv_arrives s id : inv s → inv (message_arrives s id).
Proof.
  intros [H1 H2 H3 H4 H5].
  assert (Hfr : messages s !! next_id s = None).
  { destruct (messages s !! next_id s) eqn:He; [|done]. apply H3 in He as [? _]. lia. }
  split; cbn.
  - intros c e Hc. destruct (H1 c e Hc) as [? ?]. split; [lia|done].
  - done.
  - intros t m. rewrite lookup_insert_Some. intros [[<- <-]|[_ Hm]]; [split; [lia|done]|].
    destruct (H3 t m Hm) as [? ?]. split; [lia|done].
  - intros c e t Hc Ho. destruct (H4 _ _ _ Hc Ho) as (m & Hm & ?). exists m. rewrite lookup_insert_ne; [done|congruence].
  - intros c e t Hc. rewrite (H5 _ _ _ Hc). destruct (decide (next_id s = t)) as [<-|]; [|by rewrite lookup_insert_ne].
    rewrite lookup_insert_eq, Hfr. split; [by intros (? & ? & _)|]. by intros (? & [= <-] & ?).
Qed.

(** The cell of a message moves on, its identifier stays reserved. *)
Lemma inv_cell s s' c e y' t m g' :
  inv s → cells s !! c = Some e → messages s !! t = Some m →
  messages s' = <[t := MkMessage (m_sid m) g']> (messages s) → cells s' = <[c := MkCell (c_sid e) y']> (cells s) →
  pending s' = pending s → next_id s' = next_id s → target (m_pc m) = Some c → m_sid m = c_sid e →
  cell_ok y' → live (c_cell e) = true → popped y' = false →
  (∀ b, target g' = Some b → b = c ∧ fits t g' y' = true) →
  (∀ t' m', t' ≠ t → messages s !! t' = Some m' → target (m_pc m') = Some c → fits t' (m_pc m') (c_cell e) = true →
     fits t' (m_pc m') y' = true) →
  (∀ t', owner y' = Some t' → t' = t ∧ g' = MInit c) →
  (∀ t', t' ∈ readers_of y' ↔ (t' = t ∧ holds g' = Some c) ∨ (t' ≠ t ∧ t' ∈ readers_of (c_cell e))) →
  inv s'.
Proof.
  intros Hi He Hm Hq Hc Hp Hn Ht Hsid Hok Hlv Hpop Ht' Hoth Hown Hrd. destruct (i_cells _ Hi _ _ He) as (_ & _ & Hl).
  eapply inv_message; try done; [by right|rewrite Hp; apply frees_refl|rewrite Hp; auto|congruence|].
  intros t' Ho. left. by apply Hown.
Qed.
Lemma session_ok_new : session_ok (session_new kind).
Proof. unfold session_new. destruct kind eqn:Hk; split; cbn; unfold is_client; by rewrite ?Hk. Qed.
Lemma message_fits s t m c :
  inv s → messages s !! t = Some m → target (m_pc m) = Some c →
  ∃ e, cells s !! c = Some e ∧ m_sid m = c_sid e ∧ fits t (m_pc m) (c_cell e) = true.
Proof. intros Hi Hm. by apply (i_messages _ Hi t m Hm). Qed.

Lemma inv_get_or_init s s' t m :
  inv s → messages s !! t = Some m → get_or_init s t m = Some s' → inv s'.
Proof.
  intros Hi Hm H. unfold get_or_init in H. destruct (m_pc m) as [|c| | | | | | | | |] eqn:Hpc; try done.
  destruct (message_fits _ _ _ c Hi Hm) as (e & He & Hsid & _); [by rewrite Hpc|]. rewrite He in H. cbn in H.
  destruct (c_cell e) eqn:Hy; simplify_eq.
  - eapply inv_cell; [exact Hi|exact He|exact Hm|fields|fields|fields|fields|..]; rewrite ?Hpc, ?Hy; try done; cbn.
    + intros b [= <-]. by rewrite bool_decide_true.
    + others.
    + by intros t' [= ->].
    + set_solver.
  - eapply session_inv_goto; [exact Hi|exact He|exact Hm|fields|fields|fields|fields|..]; rewrite ?Hpc, ?Hy; try done; [by right|].
    by intros b [= <-].
  - eapply session_inv_goto; [exact Hi|exact He|exact Hm|fields|fields|fields|fields|..]; rewrite ?Hpc, ?Hy; try done; [by right|].
    by intros b [= <-].
Qed.
(** The creation goes on or ends. *)
Lemma inv_init s s' c e y' t m g' :
  inv s → cells s !! c = Some e → messages s !! t = Some m → m_pc m = MInit c → owner (c_cell e) = Some t →
  cells s' = <[c := MkCell (c_sid e) y']> (cells s) → messages s' = <[t := MkMessage (m_sid m) g']> (messages s) →
  pending s' = pending s → next_id s' = next_id s → m_sid m = c_sid e →
  cell_ok y' → popped y' = false → readers_of y' = ∅ → target g' = Some c → holds g' = None → fits t g' y' = true →
  (∀ t', owner y' = Some t' → t' = t ∧ g' = MInit c) → inv s'.
Proof.
  intros Hi He Hm Hpc Ho Hc Hq Hp Hn Hsid Hok Hpop Hre Ht Hh Hf Ho'.
  eapply (inv_cell s s' c e y' t m g'); try done; rewrite ?Hpc; try done.
  - by destruct (c_cell e).
  - intros b Hb. split; congruence.
  - intros t' m' Hne Hm' _ Hf'. destruct (m_pc m') eqn:Hpc'; cbn in *; try done; destruct (c_cell e); try done.
    all: case_bool_decide; simplify_eq/=.
  - intros t'. rewrite Hre, Hh. destruct (c_cell e); cbn in *; set_solver.
Qed.
Lemma inv_create s s' t m ok :
  inv s → messages s !! t = Some m → create kind enabled s t m ok = Some s' → inv s'.
Proof.
  intros Hi Hm H. unfold create in H. destruct (m_pc m) as [| |c| | | | | | | |] eqn:Hpc; try done.
  destruct (message_fits _ _ _ c Hi Hm) as (e & He & Hsid & Hf); [by rewrite Hpc|]. rewrite He in H. cbn in H.
  rewrite Hpc in Hf. cbn in Hf. apply bool_decide_eq_true in Hf.
  assert (Hst : messages s = <[t := MkMessage (m_sid m) (MInit c)]> (messages s)).
  { symmetry. apply insert_id. rewrite Hm, <-Hpc. by destruct m. }
  assert (Hown : owner (c_cell e) = Some t) by done.
  destruct (c_cell e) as [|t0|t0|t0| |] eqn:Hy; try done; cbn in Hf; injection Hf as ->; destruct ok; simplify_eq.
  all: eapply (inv_init s _ c e _ t m); [exact Hi|exact He|exact Hm|exact Hpc|by rewrite Hy|fields| |fields|fields|..].
  all: try (fields; fail); try (transitivity (messages s); [fields|exact Hst]); try done; cbn;
    rewrite ?bool_decide_true by done; try done; try (by intros t' [= ->]); try (by unfold session_new; destruct kind).
  intros x [= <-]. apply session_ok_new.
Qed.
Lemma inv_drop_reservation s s' t m :
  inv s → messages s !! t = Some m → drop_reservation s t m = Some s' → inv s'.
Proof.
  intros Hi Hm H. unfold drop_reservation in H. destruct (m_pc m) as [| | |c| | | | | | |] eqn:Hpc; try done. injection H as <-.
  destruct (message_fits _ _ _ c Hi Hm) as (e & He & Hsid & Hf); [by rewrite Hpc|]. rewrite Hpc in Hf.
  destruct (i_cells _ Hi _ _ He) as (_ & Hok & Hlv).
  eapply (inv_message s _ c e (c_cell e) t m MDone); try done.
  - transitivity (cells s); [unfold pop_if; by case_decide|]. symmetry. apply insert_id. rewrite He. by destruct e.
  - unfold pop_if. by case_decide.
  - unfold pop_if. by case_decide.
  - right. by rewrite Hpc.
  - cbn. unfold pop_if. pose proof (frees_pop c (m_sid m) (pending s)) as Hfp. case_decide; apply Hfp;
      intros id' Hid; rewrite Hsid; by eapply pending_unique.
  - by destruct (c_cell e).
  - by destruct (c_cell e).
  - intros t' Ho. by destruct (c_cell e).
  - intros t'. pose proof (i_readers _ Hi c e t' He) as Hr. destruct (c_cell e); try done; cbn. set_solver.
Qed.
Lemma fits_ready t g x x' : finalizer x' = finalizer x → fits t g (CReady x) = true → fits t g (CReady x') = true.
Proof. intros Hf. destruct g; cbn; by rewrite ?Hf. Qed.
Lemma session_ok_frame x x' :
  session_ok x → finalizer x' = finalizer x → finished x' = finished x → ends x' = ends x → session_ok x'.
Proof. intros [] H1 H2 H3. split; by rewrite ?H1, ?H2, ?H3. Qed.
(** A message takes or gives back the read lock, or completes the session. *)
Lemma inv_use s s' c e x x' t m g' :
  inv s → cells s !! c = Some e → messages s !! t = Some m → c_cell e = CReady x →
  cells s' = <[c := MkCell (c_sid e) (CReady x')]> (cells s) → messages s' = <[t := MkMessage (m_sid m) g']> (messages s) →
  pending s' = pending s → next_id s' = next_id s → target (m_pc m) = Some c → m_sid m = c_sid e →
  finalizer x' = finalizer x → finished x' = finished x → ends x' = ends x →
  (∀ b, target g' = Some b → b = c ∧ fits t g' (CReady x) = true) →
  (∀ t', t' ∈ readers x' ↔ (t' = t ∧ holds g' = Some c) ∨ (t' ≠ t ∧ t' ∈ readers x)) → inv s'.
Proof.
  intros Hi He Hm Hy Hc Hq Hp Hn Ht Hsid Hf Hfi Hen Ht' Hrd. destruct (i_cells _ Hi _ _ He) as (_ & Hok & Hlv).
  assert (Hpop : popped (CReady x') = popped (CReady x)) by (cbn; by rewrite Hf).
  eapply (inv_message s s' c e (CReady x') t m g'); try done; rewrite ?Hpop.
  - by right.
  - intros ? [= <-]. eapply session_ok_frame; [by apply Hok|done..].
  - rewrite Hp. apply frees_refl.
  - cbn [live]. rewrite Hpop, Hp. rewrite Hy in Hlv. exact Hlv.
  - rewrite Hp. intros Hpo Hpe. apply (i_pending _ Hi) in Hpe as (e' & He' & _ & Hpf). simplify_eq. congruence.
  - intros b Hb. destruct (Ht' b Hb) as [-> Hfit]. split; [done|by eapply fits_ready].
  - intros t' m' _ _ _ Hfit. rewrite Hy in Hfit. by eapply fits_ready.
  - rewrite Hy. exact Hrd.
Qed.
Lemma inv_session_turn s s' t m ok :
  inv s → messages s !! t = Some m → session_turn enabled s t m ok = Some s' → inv s'.
Proof.
  intros Hi Hm H. unfold session_turn in H.
  assert (Hc : ∃ c, target (m_pc m) = Some c) by (destruct (m_pc m); try done; by eexists). destruct Hc as [c Ht].
  destruct (message_fits _ _ _ c Hi Hm Ht) as (e & He & Hsid & Hf).
  destruct (m_pc m) as [| | | |d|d|d|d|d rej| |] eqn:Hpc; try done; cbn in Ht; injection Ht as ->; rewrite He in H; cbn in H;
    destruct (c_cell e) as [| | | | |x] eqn:Hy; try done; injection H as <-.
  - destruct (finished x) eqn:Hfi; (eapply session_inv_goto; [exact Hi|exact He|exact Hm|fields|fields|fields|fields|done|..]);
      rewrite ?Hpc, ?Hy; cbn; try done; [by right|by right|by intros b [= <-]].
  - eapply inv_use; [exact Hi|exact He|exact Hm|exact Hy|fields|fields|fields|fields|by rewrite Hpc|done..| |]; cbn.
    + by intros b [= <-].
    + intros t'. rewrite elem_of_union, elem_of_singleton. destruct (decide (t' = t)) as [->|]; naive_solver.
  - destruct (i_cells _ Hi _ _ He) as (_ & Hok & _). specialize (Hok x Hy).
    destruct (finished x) eqn:Hfi; (eapply session_inv_goto; [exact Hi|exact He|exact Hm|fields|fields|fields|fields|done|..]);
      rewrite ?Hpc, ?Hy; cbn; try done; [by right|by intros b [= <-]|by right|].
    intros b [= <-]. split; [done|]. destruct (drained (finalizer x)) eqn:Hd; [|done].
    pose proof (so_finished _ Hok) as Hs. rewrite Hs in Hfi; [done|]. by destruct (finalizer x).
  - assert (Hr : t ∈ readers x).
    { assert (t ∈ readers_of (c_cell e)) as Hr by (apply (i_readers _ Hi _ _ _ He); exists m; by rewrite Hpc). by rewrite Hy in Hr. }
    destruct ok.
    + eapply session_inv_goto; [exact Hi|exact He|exact Hm|fields|fields|fields|fields|done|..];
        rewrite ?Hpc, ?Hy; cbn; try done; [by right|by intros b [= <-]].
    + eapply inv_use; [exact Hi|exact He|exact Hm|exact Hy|fields|fields|fields|fields|by rewrite Hpc|done..| |]; cbn.
      * by intros b [= <-].
      * intros t'. destruct (decide (t' = t)) as [->|]; naive_solver.
  - eapply inv_use; [exact Hi|exact He|exact Hm|exact Hy|fields|fields|fields|fields|by rewrite Hpc|done..| |]; cbn.
    + intros b. by destruct rej.
    + intros t'. assert (holds (if rej then MRejected else MDone) = None) as -> by by destruct rej.
      rewrite elem_of_difference, elem_of_singleton. naive_solver.
Qed.

(** *** The finishing task *)
Lemma finalizer_ok x x' answer :
  session_ok x → finalizer_turn kind x answer = Some x' →
  session_ok x' ∧ readers x' = readers x ∧ (drained (finalizer x') = true → drained (finalizer x) = true ∨ readers x = ∅) ∧
  (popped (CReady x') = match finalizer x with NPop _ => true | _ => false end) ∧ popped (CReady x) = false.
Proof.
  intros [H1 H2 H3 H4] H. unfold finalizer_turn, call_end, after_handle, after_receive, at_point, popped in *.
  assert (Hk : is_client = match kind with ClientStream => true | BidiStream => false end) by done.
  destruct (finalizer x) as [|[]| |[]| |b|b|b] eqn:Hpc; cbn in *; destruct kind; rewrite ?Hk in *; try done;
    repeat case_match; simplify_eq; cbn; (split_and!; [split; cbn; rewrite ?Hk; auto; try congruence; try lia|rewrite ?Hk; auto..]).
Qed.
Lemma inv_finish s s' c e x answer :
  inv s → cells s !! c = Some e → c_cell e = CReady x → finish_turn kind enabled s c e x answer = Some s' → inv s'.
Proof.
  intros Hi He Hy H. unfold finish_turn in H. destruct (finalizer_turn kind x answer) as [x'|] eqn:Hx; [|done].
  injection H as <-. destruct (i_cells _ Hi _ _ He) as (_ & Hok & Hlv).
  destruct (finalizer_ok _ _ _ (Hok _ Hy) Hx) as (Hok' & Hre & Hdr & Hpop & Hpop0).
  assert (Hpe : pending s !! c_sid e = Some c) by (apply Hlv; rewrite Hy; cbn [live]; by rewrite Hpop0).
  eapply (inv_session s _ c e x x'); [done..| | | | | | | | |]; try done; rewrite ?Hpop; destruct (finalizer x) eqn:Hpc; try done;
    try fields; try (unfold pop_if; cbn; by rewrite decide_True).
  all: try apply frees_refl; try (unfold count; case enabled; apply frees_refl || done).
  - unfold pop_if. cbn. pose proof (frees_pop c (c_sid e) (pending s)) as Hfp. case_decide; cbn; apply Hfp;
      intros id' Hid; by eapply pending_unique.
  - intros _. unfold pop_if. cbn. rewrite decide_True by done. cbn. by rewrite lookup_delete_eq.
Qed.
Lemma inv_session_same s c e x x' :
  inv s → cells s !! c = Some e → c_cell e = CReady x → finalizer x' = finalizer x → finished x' = finished x →
  ends x' = ends x → readers x' = readers x → inv (set_cell s c e (CReady x')).
Proof.
  intros Hi He Hy Hf Hfi Hen Hre. destruct (i_cells _ Hi _ _ He) as (_ & Hok & Hlv). rewrite Hy in Hlv.
  assert (Hpop : popped (CReady x') = popped (CReady x)) by (cbn; by rewrite Hf).
  eapply (inv_session s _ c e x x'); [done..| | | | | | | | |]; try done; rewrite ?Hpop, ?Hf.
  - eapply session_ok_frame; [by apply Hok|done..].
  - apply frees_refl.
  - intros Hp. apply Hlv. cbn [live]. by rewrite Hp.
  - intros Hpo Hpe. apply (i_pending _ Hi) in Hpe as (e' & He' & _ & Hpf). simplify_eq. congruence.
  - auto.
Qed.
Lemma session_inv_step s s' : step s s' → inv s → inv s'.
Proof.
  intros [turn H] Hi. destruct turn as [id|t turn|c turn]; cbn in H.
  - injection H as <-. by apply session_inv_arrives.
  - destruct (messages s !! t) as [m|] eqn:Hm; [|done]. cbn in H. destruct turn; cbn in H;
      [|by eapply inv_get_or_init|by eapply inv_create|by eapply inv_drop_reservation|by eapply inv_session_turn].
    unfold get_or_create in H. destruct (m_pc m) eqn:Hpc; try done.
    destruct (pending s !! m_sid m) as [c|] eqn:Hp; simplify_eq; [|by eapply inv_created].
    destruct (i_pending _ Hi _ _ Hp) as (e & He & Hsid & _).
    eapply session_inv_goto; [exact Hi|exact He|exact Hm|fields|fields|fields|fields|..]; rewrite ?Hpc; try done; [by left|].
    by intros b [= <-].
  - destruct (cells s !! c) as [e|] eqn:He; [|done]. cbn in H. destruct (c_cell e) as [| | | | |x] eqn:Hy; try done.
    destruct turn as [answer|cancelled|]; cbn in H.
    + by eapply inv_finish.
    + unfold close_turn in H. destruct (closer x); simplify_option_eq; repeat case_match; simplify_option_eq;
        by eapply inv_session_same.
    + injection H as <-. by eapply inv_session_same.
Qed.
Lemma session_inv_reachable s : sink_reachable kind enabled s → inv s.
Proof.
  intros Hs. refine (rtc_ind_r inv _ _ _ s Hs); [|intros a b _ Hab; by apply session_inv_step].
  by split; cbn; intros *; rewrite ?lookup_empty.
Qed.

(** ** Metrics *)
Definition is_active y : bool :=
  match y with
  | CCall _ | CEnd _ => true
  | CReady x => match finalizer x with NPop _ | NDone _ => false | _ => true end
  | _ => false
  end.
Definition succeeded y : bool :=
  match y with CReady x => match finalizer x with NPop b | NDone b => b | _ => false end | _ => false end.
Definition failed y : bool :=
  match y with
  | CFailed b => b
  | CReady x => match finalizer x with NPop b | NDone b => negb b | _ => false end
  | _ => false
  end.
Definition not_begun y : bool := match y with CFailed b => negb b | _ => false end.
Definition rejected g : bool := match g with MRelease _ b => b | MRejected => true | _ => false end.
Definition cells_at (f : Cell → bool) s : Z := tally (λ e, f (c_cell e)) (cells s).
Definition messages_at (f : MessagePc → bool) s : Z := tally (λ m, f (m_pc m)) (messages s).
Record counts s : Prop := {
  k_active : active_requests (metrics s) = cells_at is_active s;
  k_messages : messages_total (metrics s) = cells_at succeeded s;
  k_errors : request_errors (metrics s) = cells_at failed s + messages_at rejected s;
  k_begin : begin_request_failed (metrics s) = cells_at not_begun s }.
Definition one (b : bool) : Z := if b then 1 else 0.
(** One cell and one message change. *)
Lemma counts_move s s' c e y' t m g' :
  counts s → cells s !! c = Some e → messages s !! t = Some m →
  cells s' = <[c := MkCell (c_sid e) y']> (cells s) → messages s' = <[t := MkMessage (m_sid m) g']> (messages s) →
  active_requests (metrics s') - active_requests (metrics s) = one (is_active y') - one (is_active (c_cell e)) →
  messages_total (metrics s') - messages_total (metrics s) = one (succeeded y') - one (succeeded (c_cell e)) →
  request_errors (metrics s') - request_errors (metrics s) =
    one (failed y') - one (failed (c_cell e)) + one (rejected g') - one (rejected (m_pc m)) →
  begin_request_failed (metrics s') - begin_request_failed (metrics s) = one (not_begun y') - one (not_begun (c_cell e)) →
  counts s'.
Proof.
  intros [H1 H2 H3 H4] He Hm Hc Hq H5 H6 H7 H8. unfold cells_at, messages_at, one in *.
  split; unfold cells_at, messages_at; rewrite ?Hc, ?Hq;
    rewrite ?(tally_update _ (cells s) c e), ?(tally_update _ (messages s) t m) by done; cbn; lia.
Qed.
Lemma cells_stay s c e : cells s !! c = Some e → cells s = <[c := MkCell (c_sid e) (c_cell e)]> (cells s).
Proof. intros He. symmetry. apply insert_id. rewrite He. by destruct e. Qed.
Lemma messages_stay s t m : messages s !! t = Some m → messages s = <[t := MkMessage (m_sid m) (m_pc m)]> (messages s).
Proof. intros Hm. symmetry. apply insert_id. rewrite Hm. by destruct m. Qed.
Lemma counts_cell s s' c e y' :
  counts s → cells s !! c = Some e →
  cells s' = <[c := MkCell (c_sid e) y']> (cells s) → messages s' = messages s →
  active_requests (metrics s') - active_requests (metrics s) = one (is_active y') - one (is_active (c_cell e)) →
  messages_total (metrics s') - messages_total (metrics s) = one (succeeded y') - one (succeeded (c_cell e)) →
  request_errors (metrics s') - request_errors (metrics s) = one (failed y') - one (failed (c_cell e)) →
  begin_request_failed (metrics s') - begin_request_failed (metrics s) = one (not_begun y') - one (not_begun (c_cell e)) →
  counts s'.
Proof.
  intros [H1 H2 H3 H4] He Hc Hq H5 H6 H7 H8. unfold cells_at, messages_at, one in *.
  split; unfold cells_at, messages_at; rewrite ?Hc, ?Hq, ?(tally_update _ (cells s) c e) by done; cbn; lia.
Qed.
Lemma counts_message s s' t m g' :
  counts s → messages s !! t = Some m → messages s' = <[t := MkMessage (m_sid m) g']> (messages s) → cells s' = cells s →
  active_requests (metrics s') = active_requests (metrics s) → messages_total (metrics s') = messages_total (metrics s) →
  begin_request_failed (metrics s') = begin_request_failed (metrics s) →
  request_errors (metrics s') - request_errors (metrics s) = one (rejected g') - one (rejected (m_pc m)) → counts s'.
Proof.
  intros [H1 H2 H3 H4] Hm Hq Hc H5 H6 H7 H8. unfold cells_at, messages_at, one in *.
  split; unfold cells_at, messages_at; rewrite ?Hc, ?Hq, ?(tally_update _ (messages s) t m) by done; cbn; lia.
Qed.
Hypothesis metrics_on : enabled = true.
Ltac sums Hy Hpc := rewrite ?Hy, ?Hpc; unfold count, goto, set_cell; rewrite ?metrics_on; cbn; lia.
Lemma counts_message_turn s s' t m turn :
  inv s → counts s → messages s !! t = Some m → message_turn kind enabled s t m turn = Some s' → counts s'.
Proof.
  intros Hi Hc Hm H. destruct turn as [| |ok| |ok]; cbn in H.
  - unfold get_or_create in H. destruct (m_pc m) eqn:Hpc; try done. destruct (pending s !! m_sid m); simplify_eq.
    + eapply counts_message; [exact Hc|exact Hm|reflexivity|done..|sums Hpc Hpc].
    + assert (Hfr : cells s !! next_id s = None).
      { destruct (cells s !! next_id s) eqn:He; [|done]. apply (i_cells _ Hi) in He as [? _]. lia. }
      destruct Hc as [H1 H2 H3 H4]. unfold cells_at, messages_at in *. split; unfold cells_at, messages_at; cbn;
        rewrite ?tally_insert_new, ?(tally_update _ _ t m) by done; cbn; rewrite ?Hpc; cbn; lia.
  - unfold get_or_init in H. destruct (m_pc m) as [|c| | | | | | | | |] eqn:Hpc; try done.
    destruct (cells s !! c) as [e|] eqn:He; [|done]. cbn in H. destruct (c_cell e) eqn:Hy; simplify_eq.
    + eapply counts_move; [exact Hc|exact He|exact Hm|reflexivity|reflexivity|sums Hy Hpc..].
    + eapply counts_message; [exact Hc|exact Hm|reflexivity|done..|sums Hpc Hpc].
    + eapply counts_message; [exact Hc|exact Hm|reflexivity|done..|sums Hpc Hpc].
  - unfold create in H. destruct (m_pc m) as [| |c| | | | | | | |] eqn:Hpc; try done.
    destruct (cells s !! c) as [e|] eqn:He; [|done]. cbn in H. pose proof (messages_stay _ _ _ Hm) as Hst.
    assert (Hn : is_active (CReady (session_new kind)) = true ∧ succeeded (CReady (session_new kind)) = false ∧
      failed (CReady (session_new kind)) = false) by (unfold session_new; by destruct kind). destruct Hn as (Hn1 & Hn2 & Hn3).
    unfold count in H. rewrite metrics_on in H.
    destruct (c_cell e) eqn:Hy; try done; destruct ok; simplify_eq;
      (eapply counts_move; [exact Hc|exact He|exact Hm|reflexivity|first [reflexivity|exact Hst]|..]);
      rewrite ?Hy, ?Hpc, ?Hn1, ?Hn2, ?Hn3; cbn; lia.
  - unfold drop_reservation in H. destruct (m_pc m) eqn:Hpc; simplify_eq.
    eapply counts_message; [exact Hc|exact Hm|unfold pop_if; by case_decide..|]. unfold pop_if. rewrite Hpc. case_decide; cbn; lia.
  - unfold session_turn in H.
    assert (Hx : ∃ c e x, target (m_pc m) = Some c ∧ cells s !! c = Some e ∧ c_cell e = CReady x).
    { destruct (m_pc m) eqn:Hpc; try done; destruct (cells s !! c) as [e|] eqn:He; try done; cbn in H;
        destruct (c_cell e) eqn:Hy; try done; by exists c, e, x. }
    destruct Hx as (c & e & x & Ht & He & Hy). unfold count in H. rewrite metrics_on in H.
    destruct (m_pc m) as [| | | |d|d|d|d|d rej| |] eqn:Hpc; try done; cbn in Ht; injection Ht as ->; rewrite He in H; cbn in H;
      rewrite Hy in H; injection H as <-; repeat case_match;
      first [eapply counts_message; [exact Hc|exact Hm|reflexivity|done..|rewrite Hpc; cbn; lia]
            |eapply counts_move; [exact Hc|exact He|exact Hm|reflexivity|reflexivity|rewrite ?Hy, ?Hpc; cbn; lia..]].
Qed.
Lemma counts_session s s' c e x turn :
  counts s → cells s !! c = Some e → c_cell e = CReady x → session_moves kind enabled s c e x turn = Some s' → counts s'.
Proof.
  intros Hc He Hy H. destruct turn as [answer|cancelled|]; cbn in H.
  - unfold finish_turn in H. destruct (finalizer_turn kind x answer) as [x'|] eqn:Hx; [|done]. injection H as <-.
    assert (Hf : match finalizer x with
      | NEnding b => finalizer x' = NPop b
      | NPop b => finalizer x' = NDone b
      | NDone _ => False
      | _ => match finalizer x' with NPop _ | NDone _ => False | _ => True end
      end).
    { unfold finalizer_turn, call_end, after_handle, after_receive, at_point in Hx.
      destruct (finalizer x) as [|[]| |[]| | | |], kind; simplify_option_eq; repeat case_match; simplify_eq/=; done. }
    destruct (finalizer x) eqn:Hpc; (eapply (counts_cell s _ c e (CReady x')); [exact Hc|exact He|..]);
      unfold pop_if, count; rewrite ?metrics_on; try (case_decide; reflexivity); try reflexivity;
      rewrite ?Hy; unfold is_active, succeeded, failed, not_begun; rewrite ?Hpc, ?Hf; cbn; try case_decide; cbn;
      try (destruct (finalizer x')); try done; try destruct ok; cbn; lia.
  - assert (Hx : ∃ x', s' = set_cell s c e (CReady x') ∧ finalizer x' = finalizer x).
    { unfold close_turn in H. destruct (closer x); simplify_option_eq; repeat case_match; simplify_option_eq; by eexists. }
    destruct Hx as (x' & -> & Hf).
    eapply (counts_cell s _ c e (CReady x')); [exact Hc|exact He|reflexivity..| | | |]; rewrite ?Hy; cbn; rewrite ?Hf; lia.
  - injection H as <-.
    eapply (counts_cell s _ c e (CReady (set_done x))); [exact Hc|exact He|reflexivity..| | | |]; rewrite ?Hy; cbn; lia.
Qed.
Lemma session_counts_reachable s : sink_reachable kind enabled s → counts s.
Proof.
  intros Hs. assert (inv s ∧ counts s) as [_ ?]; [|done].
  refine (rtc_ind_r (λ s, inv s ∧ counts s) _ _ _ s Hs); [split; [by apply session_inv_reachable, rtc_refl|done]|].
  intros a b _ Hab [Hi Hc]. split; [by eapply session_inv_step|]. destruct Hab as [turn H].
  destruct turn as [id|t turn|c turn]; cbn in H.
  - injection H as <-. assert (Hfr : messages a !! next_id a = None).
    { destruct (messages a !! next_id a) eqn:He; [|done]. apply (i_messages _ Hi) in He as [? _]. lia. }
    destruct Hc as [H1 H2 H3 H4]. unfold cells_at, messages_at in *.
    split; unfold cells_at, messages_at; cbn; rewrite ?tally_insert_new by done; cbn; lia.
  - destruct (messages a !! t) as [m|] eqn:Hm; [|done]. by eapply counts_message_turn.
  - destruct (cells a !! c) as [e|] eqn:He; [|done]. cbn in H. destruct (c_cell e) eqn:Hy; try done. by eapply counts_session.
Qed.
End invariants.

(** * Properties *)
Section properties.
Context (kind : SessionKind) (enabled : bool).
Implicit Types (s : Sink) (x : Session).

(** C16: [consume_message] of a streaming sink runs only in the open session
    of the message's stream identifier: before [end_request] is called and, in
    a client stream, before its response is handled; a message that comes once
    the session is finished is refused. *)
Theorem grpc_session_exclusive s t id c :
  sink_reachable kind enabled s → messages s !! t = Some (MkMessage id (MConsume c)) →
  ∃ e x, cells s !! c = Some e ∧ c_cell e = CReady x ∧ c_sid e = id ∧ pending s !! id = Some c ∧ ends x = 0%nat ∧
    (kind = ClientStream → finalizer x ≠ NHandle).
Proof.
  intros Hi%session_inv_reachable Hm. destruct (message_fits _ _ _ _ c Hi Hm eq_refl) as (e & He & Hsid & Hf). cbn in Hsid, Hf.
  destruct (c_cell e) as [| | | | |x] eqn:Hy; try done. destruct (i_cells _ _ Hi _ _ He) as (_ & Hok & Hlv).
  rewrite Hy in Hok, Hlv. specialize (Hok x eq_refl). exists e, x. split_and!; [done|done|done| | |].
  - rewrite Hsid. apply Hlv. cbn. by destruct (finalizer x).
  - rewrite (so_ends _ _ Hok). by destruct (finalizer x).
  - intros -> Hh. by rewrite Hh in Hf.
Qed.

(** the messages of one stream identifier share one session: two cells
    that are being created or open never have the same identifier; a session
    calls [end_request] at most once, and exactly once when it is over, and a
    creation that failed after [begin_request] has called it. *)
Theorem grpc_session_unique s :
  sink_reachable kind enabled s →
  (∀ c e c' e', cells s !! c = Some e → cells s !! c' = Some e' → live (c_cell e) = true → live (c_cell e') = true →
    c_sid e = c_sid e' → c = c') ∧
  (∀ c e x, cells s !! c = Some e → c_cell e = CReady x →
    (ends x ≤ 1)%nat ∧ (∀ ok, finalizer x = NDone ok → ends x = 1%nat ∧ pending s !! c_sid e ≠ Some c)).
Proof.
  intros Hi%session_inv_reachable. split.
  - intros c e c' e' He He' Hl Hl' Hsid. apply (i_cells _ _ Hi) in He as (_ & _ & H). apply (i_cells _ _ Hi) in He' as (_ & _ & H').
    specialize (H Hl). specialize (H' Hl'). congruence.
  - intros c e x He Hy. destruct (i_cells _ _ Hi _ _ He) as (_ & Hok & _). pose proof (so_ends _ _ (Hok x Hy)) as Hen.
    split; [destruct (ended _); lia|]. intros ok Hf. rewrite Hf in Hen. split; [done|].
    intros (e' & He' & _ & Hp)%(i_pending _ _ Hi). simplify_eq. rewrite Hy in Hp. cbn in Hp. by rewrite Hf in Hp.
Qed.

(** a session that waits for its messages waits only for handlers that
    run or can move: every reader of the lifetime lock has a turn. *)
Theorem grpc_drain_progress s c e x t :
  sink_reachable kind enabled s → cells s !! c = Some e → c_cell e = CReady x → t ∈ readers x →
  ∃ m, messages s !! t = Some m ∧ is_Some (message_turn kind enabled s t m (TSession true)).
Proof.
  intros Hi%session_inv_reachable He Hy Ht. assert (t ∈ readers_of (c_cell e)) as Hr by by rewrite Hy.
  apply (i_readers _ _ Hi _ _ _ He) in Hr as (m & Hm & Hh). exists m. split; [done|]. cbn. unfold session_turn.
  destruct (m_pc m); simplify_eq/=; rewrite He; cbn; rewrite Hy; eauto.
Qed.

(** with metrics enabled the counters of a streaming sink agree with its
    sessions and messages: sessions under way, ended well, ended badly or never
    begun, and the messages refused by a session that is completing. *)
Theorem grpc_sink_metrics_agree s :
  enabled = true → sink_reachable kind enabled s →
  active_requests (metrics s) = cells_at is_active s ∧ messages_total (metrics s) = cells_at succeeded s ∧
  request_errors (metrics s) = cells_at failed s + messages_at rejected s ∧
  begin_request_failed (metrics s) = cells_at not_begun s.
Proof. intros He Hs. by destruct (session_counts_reachable kind enabled He s Hs). Qed.
End properties.

(** ** Schedules *)
Fixpoint run (kind : SessionKind) (s : Sink) (turns : list Turn) : option Sink :=
  match turns with [] => Some s | turn :: turns => s' ← advance kind true s turn; run kind s' turns end.
Definition reached (kind : SessionKind) (turns : list Turn) : Sink := default sink_new (run kind sink_new turns).
Lemma session_reached_reachable kind turns : sink_reachable kind true (reached kind turns).
Proof.
  unfold reached. assert (∀ s s', sink_reachable kind true s → run kind s turns = Some s' → sink_reachable kind true s') as H.
  { induction turns as [|turn turns IH]; intros s s' Hs Hr; cbn in Hr; simplify_option_eq; [done|].
    eapply IH; [|exact Hr]. eapply rtc_r; [exact Hs|by exists turn]. }
  destruct (run _ _ turns) eqn:Hr; [|apply rtc_refl]. eapply H; [apply rtc_refl|exact Hr].
Qed.
(** Message 0 opens a session, cell 1, and its handler runs. *)
Definition opened : list Turn :=
  TArrive "s" :: (TMessage 0 <$> [TGet; TInit; TCreate true; TCreate true; TSession true; TSession true; TSession true]).
(** The session is completed, and waits for the handler; message 2 is refused. *)
Definition completing : list Turn :=
  opened ++ [TMove 1 TSetDone; TMove 1 (TFinish AOk); TMove 1 (TFinish AOk); TMove 1 (TFinish AOk); TArrive "s"] ++
  (TMessage 2 <$> [TGet; TInit; TSession true]).
Lemma grpc_session_exclusive_witness :
  let s := reached ClientStream completing in
  advance ClientStream true s (TMove 1 (TFinish AOk)) = None ∧ m_pc <$> messages s !! 2%nat = Some MRejected ∧
  ∃ e x, cells s !! 1%nat = Some e ∧ c_cell e = CReady x ∧ c_sid e = "s" ∧ pending s !! "s" = Some 1%nat ∧ ends x = 0%nat ∧
    (ClientStream = ClientStream → finalizer x ≠ NHandle).
Proof.
  cbv zeta. split; [by vm_compute|]. split; [by vm_compute|].
  apply (grpc_session_exclusive ClientStream true (reached ClientStream completing) 0 "s" 1);
    [apply session_reached_reachable|by vm_compute].
Defined.
(** The handler returns, the response is handled and the session ends. *)
Definition closed : list Turn :=
  completing ++ [TMessage 0 (TSession true); TMessage 0 (TSession true)] ++
  replicate 4 (TMove 1 (TFinish AOk)).
Definition session_of (s : Sink) (c : nat) : Session :=
  match c_cell <$> cells s !! c with Some (CReady x) => x | _ => session_new ClientStream end.
Lemma grpc_session_unique_witness :
  let s := reached ClientStream closed in ends (session_of s 1) = 1%nat ∧ pending s = ∅.
Proof.
  cbv zeta. split; [|by vm_compute].
  destruct (grpc_session_unique ClientStream true _ (session_reached_reachable ClientStream closed)) as [_ H].
  destruct (H 1%nat (MkCell "s" (CReady (session_of (reached ClientStream closed) 1))) (session_of (reached ClientStream closed) 1))
    as [_ H']; [by vm_compute|done|]. apply (H' true). by vm_compute.
Defined.
Lemma grpc_drain_progress_witness :
  ∃ m, messages (reached ClientStream completing) !! 0%nat = Some m ∧
    is_Some (message_turn ClientStream true (reached ClientStream completing) 0 m (TSession true)).
Proof.
  apply (grpc_drain_progress ClientStream true (reached ClientStream completing) 1
    (MkCell "s" (CReady (session_of (reached ClientStream completing) 1))) (session_of (reached ClientStream completing) 1));
    [apply session_reached_reachable|by vm_compute|done|by apply (bool_decide_unpack (_ ∈ _)); vm_compute].
Defined.
Lemma grpc_sink_metrics_agree_witness :
  let s := reached ClientStream closed in
  messages_total (metrics s) = 1 ∧ request_errors (metrics s) = 1 ∧ messages_total (metrics s) = cells_at succeeded s ∧
  request_errors (metrics s) = cells_at failed s + messages_at rejected s.
Proof.
  cbv zeta. destruct (grpc_sink_metrics_agree ClientStream true _ eq_refl (session_reached_reachable ClientStream closed)) as (_ & H1 & H2 & _).
  split; [by vm_compute|]. split; [by vm_compute|]. by split.
Defined.
