(* ===== verification/HttpSource.v ===== *)
(** The HTTP source, [src/src/datasource/http/axum.rs]: requests
    ([serve_http]), the results that complete them ([consume_result]) and the
    drain of the connector.

    Requests and results run as threads; a turn is one atomic section: an
    operation of the pending map, of the task tracker, of the lifetime lock or
    of the metrics, or the return of a handler, whose answers are arguments.
    The pending map is the plain map of the rotating map's specification, and a
    request's number is the identity of its [Arc<PendingRequest>].  A client
    that goes away only cancels the request's context, since the request is
    handed over to a task; the context can be cancelled at any time.  Of the
    response its status is modelled.  A handler does not panic. *)

From S2P Require Import Prelude Errors RequestTable.
Local Open Scope Z_scope.

(** Where a request is. *)
Inductive RequestPc :=
| HGuard                                (** [serve_http], before [is_closed] *)
| HTrack                                (** before [track_future] *)
| HRun                                  (** method and body *)
| HBegin                                (** [begin_request] runs *)
| HRegister                             (** before [pending.set] *)
| HDuplicate                            (** [end_request] of a duplicate runs *)
| HAdd                                  (** before [pending_requests.add] *)
| HConsume                              (** [consume_message] runs *)
| HAwait                                (** the result context or the context *)
| HPop (ok cancelled : bool)            (** before [pending.pop] *)
| HRemove (removed : option nat) (ok cancelled : bool)
| HLock (removed : option nat) (ok cancelled : bool)
| HDecide (removed : option nat) (ok cancelled : bool)
| HEnd (removed : option nat) (ok : bool)      (** [end_request] runs *)
| HClose (removed : option nat) (ok : bool)    (** before [result_context.close] *)
| HUnlock (removed : option nat) (ok : bool)   (** before the write guard is dropped *)
| HUntrack (e : option bool)            (** before the tracker's token is dropped *)
| HReturned (e : option bool).
(** The last two tell how a request that registered ended; [None] when it
    was turned away or [begin_request] failed. *)

Section source.
Context {C : Type}.
(** [PendingRequest] with its [ResultContext]; [registered] lists the accepted
    registrations. *)
Record Pending := MkPending {
  callbacks : option (gmap string C);
  registered : list (string * C);
  done : bool;
  readers : gset nat;
  writer : bool }.
Record Request := MkRequest { sid : string; pc : RequestPc; ends : nat; status : Z; life : Pending }.
Record HttpMetrics := MkMetrics {
  messages_total : Z; request_errors : Z; begin_request_failed : Z; missing_stream_id : Z; late_result : Z;
  unknown_message_id : Z; duplicate_message_id : Z; invalid_http_method : Z; active_requests : Z; pending_requests : Z }.
(** [closed] and [tracked] are the task tracker's. *)
Record Source := MkSource {
  pending : gmap string nat;
  requests : gmap nat Request;
  results : gmap nat (Result C);
  metrics : HttpMetrics;
  closed : bool;
  tracked : Z;
  next_id : nat }.
Implicit Types (s : Source) (r : Request) (p : Pending) (m : HttpMetrics).
Context (metrics_enabled has_result : bool).

Definition metrics_new : HttpMetrics := MkMetrics 0 0 0 0 0 0 0 0 0 0.
Definition source_new : Source := MkSource ∅ ∅ ∅ metrics_new false 0 0.
Definition pending_new : Pending := MkPending (Some ∅) [] false ∅ false.

(** ** Updates *)
Definition set_request s (a : nat) r : Source :=
  MkSource (pending s) (<[a := r]> (requests s)) (results s) (metrics s) (closed s) (tracked s) (next_id s).
Definition set_result s (t : nat) (x : Result C) : Source :=
  MkSource (pending s) (requests s) (<[t := x]> (results s)) (metrics s) (closed s) (tracked s) (next_id s).
Definition set_pending s (pd : gmap string nat) : Source :=
  MkSource pd (requests s) (results s) (metrics s) (closed s) (tracked s) (next_id s).
Definition set_tracker s (c : bool) (n : Z) : Source :=
  MkSource (pending s) (requests s) (results s) (metrics s) c n (next_id s).
Definition with_pc r (g : RequestPc) : Request := MkRequest (sid r) g (ends r) (status r) (life r).
Definition with_life r (p : Pending) : Request := MkRequest (sid r) (pc r) (ends r) (status r) p.
Definition with_status r (z : Z) : Request := MkRequest (sid r) (pc r) (ends r) z (life r).
Definition end_called r : Request := MkRequest (sid r) (pc r) (S (ends r)) (status r) (life r).
Definition set_lock p (rs : gset nat) (w : bool) : Pending := MkPending (callbacks p) (registered p) (done p) rs w.
Definition set_callbacks p (c : option (gmap string C)) (l : list (string * C)) : Pending :=
  MkPending c l (done p) (readers p) (writer p).
Definition goto s (a : nat) r (g : RequestPc) : Source := set_request s a (with_pc r g).
Definition count s (f : HttpMetrics → HttpMetrics) : Source :=
  if metrics_enabled
  then MkSource (pending s) (requests s) (results s) (f (metrics s)) (closed s) (tracked s) (next_id s) else s.
(** The change of one counter: an index and a difference. *)
Inductive Counter :=
| KMessages | KErrors | KBegin | KMissing | KLate | KUnknown | KDuplicate | KMethod | KActive | KPending.
#[export] Instance counter_eq_dec : EqDecision Counter.
Proof. solve_decision. Defined.
Definition add (k : Counter) (d : Z) m : HttpMetrics :=
  let on k' := if decide (k = k') then d else 0 in
  MkMetrics (messages_total m + on KMessages) (request_errors m + on KErrors) (begin_request_failed m + on KBegin)
    (missing_stream_id m + on KMissing) (late_result m + on KLate) (unknown_message_id m + on KUnknown)
    (duplicate_message_id m + on KDuplicate) (invalid_http_method m + on KMethod) (active_requests m + on KActive)
    (pending_requests m + on KPending).
Definition count_end (ok : bool) m : HttpMetrics := add (if ok then KMessages else KErrors) 1 (add KActive (-1) m).

(** ** Requests *)
Definition request_arrives s : Source :=
  MkSource (pending s) (<[next_id s := MkRequest "" HGuard 0 200 pending_new]> (requests s)) (results s) (metrics s)
    (closed s) (tracked s) (S (next_id s)).
(** A source that is closing answers 503. *)
Definition guard s (a : nat) r : option Source :=
  match pc r with
  | HGuard => Some (if closed s then goto s a (with_status r 503) (HReturned None) else goto s a r HTrack)
  | _ => None
  end.
Definition track s (a : nat) r : option Source :=
  match pc r with HTrack => Some (goto (set_tracker s (closed s) (tracked s + 1)) a r HRun) | _ => None end.
(** Another method gives 405, a body that cannot be read 400. *)
Definition check_request s (a : nat) r (method_ok body_ok : bool) : option Source :=
  match pc r with
  | HRun =>
      if negb method_ok then Some (goto (count s (add KMethod 1)) a (with_status r 405) (HUntrack None))
      else if negb body_ok then Some (goto s a (with_status r 400) (HUntrack None))
      else Some (goto s a r HBegin)
  | _ => None
  end.
(** [begin_request] answers with an error, or with a context that may carry a
    stream identifier; [generated] is [new_stream_id()]. *)
Definition begin_returns s (a : nat) r (answer : option (option string)) (generated : string) : option Source :=
  match pc r, answer with
  | HBegin, None => Some (goto (count s (add KBegin 1)) a r (HUntrack None))
  | HBegin, Some id =>
      Some (set_request (count s (add KActive 1)) a
        (MkRequest (default generated id) (if has_result then HRegister else HConsume) (ends r) (status r) (life r)))
  | _, _ => None
  end.
Definition register s (a : nat) r : option Source :=
  match pc r with
  | HRegister =>
      match pending s !! sid r with
      | Some _ => Some (goto s a (end_called r) HDuplicate)
      | None => Some (goto (set_pending s (<[sid r := a]> (pending s))) a r HAdd)
      end
  | _ => None
  end.
Definition duplicate_returns s (a : nat) r : option Source :=
  match pc r with
  | HDuplicate =>
      Some (goto (count s (count_end false)) a (with_life r (set_callbacks (life r) None (registered (life r)))) (HUntrack (Some false)))
  | _ => None
  end.
Definition pending_add s (a : nat) r : option Source :=
  match pc r with HAdd => Some (goto (count s (add KPending 1)) a r HConsume) | _ => None end.
Definition consume_returns s (a : nat) r (ok : bool) : option Source :=
  match pc r with
  | HConsume => Some (goto s a r (if ok && has_result then HAwait else HPop ok false))
  | _ => None
  end.
(** The [select!]: the result context was completed, or the context ended. *)
Definition await s (a : nat) r (cancelled : bool) : option Source :=
  match pc r with
  | HAwait => if cancelled then Some (goto s a r (HPop false true))
              else if done (life r) then Some (goto s a r (HPop true false)) else None
  | _ => None
  end.
Definition pop_pending s (a : nat) r : option Source :=
  match pc r with
  | HPop ok cancelled =>
      if has_result
      then Some (goto (set_pending s (delete (sid r) (pending s))) a r (HRemove (pending s !! sid r) ok cancelled))
      else Some (goto s a r (HLock None ok cancelled))
  | _ => None
  end.
Definition pending_remove s (a : nat) r : option Source :=
  match pc r with
  | HRemove removed ok cancelled => Some (goto (count s (add KPending (-1))) a r (HLock removed ok cancelled))
  | _ => None
  end.
(** [lifetime.write] of the removed entry. *)
Definition take_lifetime s (a : nat) r : option Source :=
  match pc r with
  | HLock None ok cancelled => Some (goto s a r (HDecide None ok cancelled))
  | HLock (Some b) ok cancelled =>
      rb ← requests s !! b;
      if decide (readers (life rb) = ∅ ∧ writer (life rb) = false) then
        let s := set_request s b (with_life rb (set_lock (life rb) ∅ true)) in
        r ← requests s !! a;
        Some (goto s a r (HDecide (Some b) ok cancelled))
      else None
  | _ => None
  end.
Definition decide_result s (a : nat) r : option Source :=
  match pc r with
  | HDecide removed ok cancelled => Some (goto s a (end_called r) (HEnd removed (ok || cancelled && done (life r))))
  | _ => None
  end.
Definition end_returns s (a : nat) r : option Source :=
  match pc r with HEnd removed ok => Some (goto s a r (HClose removed ok)) | _ => None end.
Definition close_result s (a : nat) r : option Source :=
  match pc r with
  | HClose removed ok =>
      Some (goto (count s (count_end ok)) a (with_life r (set_callbacks (life r) None (registered (life r)))) (HUnlock removed ok))
  | _ => None
  end.
Definition unlock s (a : nat) r : option Source :=
  match pc r with
  | HUnlock None ok => Some (goto s a r (HUntrack (Some ok)))
  | HUnlock (Some b) ok =>
      rb ← requests s !! b;
      let s := set_request s b (with_life rb (set_lock (life rb) (readers (life rb)) false)) in
      r ← requests s !! a;
      Some (goto s a r (HUntrack (Some ok)))
  | _ => None
  end.
Definition untrack s (a : nat) r : option Source :=
  match pc r with HUntrack e => Some (goto (set_tracker s (closed s) (tracked s - 1)) a r (HReturned e)) | _ => None end.

(** ** The handler's references *)
Definition has_context (g : RequestPc) : bool :=
  match g with HGuard | HTrack | HRun | HBegin | HRegister => false | _ => true end.
Definition set_result_callback s (a : nat) r (message_id : string) (c : C) : option Source :=
  if has_context (pc r) then
    match callbacks (life r) with
    | None => Some s
    | Some l =>
        Some (set_request s a (with_life r (set_callbacks (life r) (Some (<[message_id := c]> l)) ((message_id, c) :: registered (life r)))))
    end
  else None.
Definition complete p : Pending := MkPending (callbacks p) (registered p) true (readers p) (writer p).
Definition result_done s (a : nat) r : option Source :=
  if has_context (pc r) then Some (set_request s a (with_life r (complete (life r)))) else None.
(** [HandlerData::set_status] *)
Definition set_status s (a : nat) r (z : Z) : option Source :=
  match pc r with
  | HGuard | HTrack | HRun | HUntrack _ | HReturned _ => None
  | _ => Some (set_request s a (with_status r z))
  end.

(** ** Results *)
Definition result_arrives s (id : option string) : Source :=
  MkSource (pending s) (requests s) (<[next_id s := MkResult id SGet]> (results s)) (metrics s) (closed s) (tracked s)
    (S (next_id s)).
Definition to s (t : nat) (x : Result C) (g : ResultPc C) : Source := set_result s t (MkResult (s_sid x) g).
Definition hold s (a t : nat) r : Source :=
  set_request s a (with_life r (set_lock (life r) ({[t]} ∪ readers (life r)) (writer (life r)))).
Definition release s (a t : nat) r : Source :=
  set_request s a (with_life r (set_lock (life r) (readers (life r) ∖ {[t]}) (writer (life r)))).
Definition result_turn s (t : nat) (x : Result C) (message_id : string) : option Source :=
  match s_pc x with
  | SGet =>
      match s_sid x with
      | None => Some (to (count s (add KMissing 1)) t x SDone)
      | Some id =>
          match pending s !! id with
          | None => Some (to (count s (add KLate 1)) t x SDone)
          | Some a => Some (to s t x (SLock a))
          end
      end
  | SLock a => r ← requests s !! a; if writer (life r) then None else Some (to (hold s a t r) t x (SCurrent a))
  | SCurrent a =>
      Some (if decide ((s_sid x ≫= λ id, pending s !! id) = Some a) then to s t x (SMessageId a)
            else to (count s (add KLate 1)) t x (SRelease a))
  | SMessageId a => Some (to s t x (SFind a message_id))
  | SFind a id =>
      r ← requests s !! a;
      Some (match callbacks (life r) ≫= λ l, l !! id with
            | Some c => to s t x (SCallback a id c)
            | None => to (count s (add KUnknown 1)) t x (SRelease a)
            end)
  | SCallback _ _ _ => None
  | SDelete a id =>
      r ← requests s !! a;
      Some (match callbacks (life r) ≫= λ l, (λ _, l) <$> l !! id with
            | None => to (count s (add KDuplicate 1)) t x (SRelease a)
            | Some l => to (set_request s a (with_life r (set_callbacks (life r) (Some (delete id l)) (registered (life r))))) t x (SRelease a)
            end)
  | SRelease a => r ← requests s !! a; Some (to (release s a t r) t x SDone)
  | SDone => None
  end.
Definition callback_returns s (t : nat) (x : Result C) (finished : bool) : option Source :=
  match s_pc x with
  | SCallback a id _ => Some (to s t x (if finished then SDelete a id else SRelease a))
  | _ => None
  end.
Definition drop_result s (t : nat) (x : Result C) : option Source :=
  match held (s_pc x) with
  | None => Some (to s t x SDone)
  | Some a => r ← requests s !! a; Some (to (release s a t r) t x SDone)
  end.

(** ** The source *)
Inductive RequestTurn :=
| TGuard | TTrack | TCheck (method_ok body_ok : bool) | TBegin (answer : option (option string)) (generated : string) | TRegister
| TDuplicate | TAdd | TConsume (ok : bool) | TAwait (cancelled : bool) | TPop | TRemove | TLock | TDecide | TEnd | TClose
| TUnlock | TUntrack.
Definition request_turn s (a : nat) r (turn : RequestTurn) : option Source :=
  match turn with
  | TGuard => guard s a r
  | TTrack => track s a r
  | TCheck method_ok body_ok => check_request s a r method_ok body_ok
  | TBegin answer generated => begin_returns s a r answer generated
  | TRegister => register s a r
  | TDuplicate => duplicate_returns s a r
  | TAdd => pending_add s a r
  | TConsume ok => consume_returns s a r ok
  | TAwait cancelled => await s a r cancelled
  | TPop => pop_pending s a r
  | TRemove => pending_remove s a r
  | TLock => take_lifetime s a r
  | TDecide => decide_result s a r
  | TEnd => end_returns s a r
  | TClose => close_result s a r
  | TUnlock => unlock s a r
  | TUntrack => untrack s a r
  end.
Inductive Turn :=
| TRequest | TResult (id : option string)
| TMove (a : nat) (turn : RequestTurn) | TResultStep (t : nat) (message_id : string) | TCallback (t : nat) (finished : bool)
| TDropResult (t : nat) | TSetCallback (a : nat) (message_id : string) (c : C) | TDone (a : nat) | TStatus (a : nat) (z : Z)
| TStop | TReopen.
(** [TStop] is the [close] of [stop], [TReopen] the [reopen] of [start]. *)
Definition advance s (turn : Turn) : option Source :=
  match turn with
  | TRequest => Some (request_arrives s)
  | TResult id => Some (result_arrives s id)
  | TMove a turn => r ← requests s !! a; request_turn s a r turn
  | TResultStep t message_id => x ← results s !! t; result_turn s t x message_id
  | TCallback t finished => x ← results s !! t; callback_returns s t x finished
  | TDropResult t => x ← results s !! t; drop_result s t x
  | TSetCallback a id c => r ← requests s !! a; set_result_callback s a r id c
  | TDone a => r ← requests s !! a; result_done s a r
  | TStatus a z => r ← requests s !! a; set_status s a r z
  | TStop => Some (set_tracker s true (tracked s))
  | TReopen => Some (set_tracker s false (tracked s))
  end.
Definition source_step s s' : Prop := ∃ turn, advance s turn = Some s'.
Definition source_reachable s : Prop := rtc source_step source_new s.
(** [request_tasks.wait()] returns: closed, and nothing tracked. *)
Definition drained s : bool := closed s && bool_decide (tracked s = 0).
End source.

Arguments Pending : clear implicits.
Arguments Request : clear implicits.
Arguments Source : clear implicits.
Arguments Turn : clear implicits.

Section invariants.
Context {C : Type} (metrics_enabled has_result : bool).
Notation step := (source_step (C := C) metrics_enabled has_result).
Notation Source := (Source C).
Notation Request := (Request C).
Implicit Types (s : Source) (r : Request) (x : Result C) (p : Pending C).

(** ** What a program point says of its request *)
Definition removed_of (g : RequestPc) : option (option nat) :=
  match g with
  | HRemove b _ _ | HLock b _ _ | HDecide b _ _ | HEnd b _ | HClose b _ | HUnlock b _ => Some b
  | _ => None
  end.
Definition locked (g : RequestPc) : bool :=
  match g with HDecide (Some _) _ _ | HEnd (Some _) _ | HClose (Some _) _ | HUnlock (Some _) _ => true | _ => false end.
Definition ended (g : RequestPc) : bool :=
  match g with
  | HDuplicate | HEnd _ _ | HClose _ _ | HUnlock _ _ | HUntrack (Some _) | HReturned (Some _) => true
  | _ => false
  end.
Definition shut (g : RequestPc) : bool :=
  match g with HUnlock _ _ | HUntrack (Some _) | HReturned (Some _) => true | _ => false end.
(** The request is in the pending map. *)
Definition reserved (g : RequestPc) : bool :=
  match g with HAdd => true | HConsume | HAwait | HPop _ _ => has_result | _ => false end.
(** A result may be under way for the request. *)
Definition open (g : RequestPc) : bool :=
  match g with HRemove (Some _) _ _ | HLock (Some _) _ _ => true | _ => reserved g end.
(** Only sources with a result stream come here. *)
Definition with_result (g : RequestPc) : bool := match g with HRegister | HDuplicate | HAdd | HAwait => true | _ => false end.
Definition own (a : nat) : option nat := if has_result then Some a else None.
Record req_ok (a : nat) r : Prop := {
  ro_writer : writer (life r) = locked (pc r);
  ro_readers : writer (life r) = true → readers (life r) = ∅;
  ro_ends : ends r = if ended (pc r) then 1%nat else 0%nat;
  ro_callbacks : ∀ l id c, callbacks (life r) = Some l → l !! id = Some c → (id, c) ∈ registered (life r);
  ro_closed : shut (pc r) = true → callbacks (life r) = None;
  ro_removed : ∀ b, removed_of (pc r) = Some b → b = own a;
  ro_result : with_result (pc r) = true → has_result = true }.
#[export, refine] Instance http_request : RequestView Request C := {|
  v_sid := sid; v_reserved r := reserved (pc r); v_open r := open (pc r);
  v_readers r := readers (life r); v_registered r := registered (life r); v_ok := req_ok |}.
Proof. intros r. by destruct (pc r). Defined.

Definition inv s : Prop := table_inv (pending s) (requests s) (results s) (next_id s).

Lemma http_keep s s' a r r' :
  inv s → requests s !! a = Some r →
  requests s' = <[a := r']> (requests s) → results s' = results s → next_id s' = next_id s → pending s' = pending s →
  req_ok a r' →
  readers (life r') = readers (life r) → registered (life r) ⊆ registered (life r') →
  reserved (pc r') = reserved (pc r) → (open (pc r) = true → sid r' = sid r) →
  (open (pc r) = true → readers (life r) ≠ ∅ → open (pc r') = true) → inv s'.
Proof. intros Hi Hr Hq Hs Hn Hp ??????. unfold inv. rewrite Hq, Hs, Hn, Hp. by apply (table_keep (C := C) _ _ _ _ a r r'). Qed.
Lemma http_ok s a r : inv s → requests s !! a = Some r → req_ok a r.
Proof. intros Hi Hr. by apply (i_requests _ _ _ _ Hi _ _ Hr). Qed.

(** *** Requests *)
Ltac fields := unfold goto, set_request, set_pending, set_tracker, to, hold, release, count; case metrics_enabled; reflexivity.
(** [req_ok] of a request whose point is known and that moves to a known point. *)
Ltac req_tac Hpc :=
  match goal with
  | H : req_ok ?a ?r |- req_ok _ _ =>
      destruct H as [Hwr Hrd Hen Hcb Hcl Hrm Hrs]; rewrite Hpc in *; cbn in *; split; cbn; auto; try congruence
  end.
Ltac keep Hi Hr Hpc :=
  eapply http_keep; [exact Hi|exact Hr|fields|fields|fields|fields| |..];
    [|cbn; rewrite ?Hpc; try done..]; [cbn; req_tac Hpc].
Lemma http_take_lock s a r ok cancelled :
  inv s → requests s !! a = Some r → pc r = HLock (Some a) ok cancelled → readers (life r) = ∅ →
  inv (goto s a (with_life r (set_lock (life r) ∅ true)) (HDecide (Some a) ok cancelled)).
Proof.
  intros Hi Hr Hpc He. pose proof (http_ok _ _ _ Hi Hr) as Hok. keep Hi Hr Hpc.
Qed.
Lemma http_release_lock s a r ok :
  inv s → requests s !! a = Some r → pc r = HUnlock (Some a) ok →
  inv (goto s a (with_life r (set_lock (life r) (readers (life r)) false)) (HUntrack (Some ok))).
Proof.
  intros Hi Hr Hpc. pose proof (http_ok _ _ _ Hi Hr) as Hok. keep Hi Hr Hpc.
Qed.
Lemma http_register s a r :
  inv s → requests s !! a = Some r → pc r = HRegister → pending s !! sid r = None →
  inv (goto (set_pending s (<[sid r := a]> (pending s))) a r HAdd).
Proof.
  intros Hi Hr Hpc Hp. pose proof (http_ok _ _ _ Hi Hr) as Hok.
  apply (table_take (RequestView0 := http_request) (pending s) (requests s) (results s) (next_id s) a r (with_pc r HAdd)); try done; cbn; [by rewrite Hpc|req_tac Hpc].
Qed.
Lemma http_pop s a r ok cancelled :
  has_result = true → inv s → requests s !! a = Some r → pc r = HPop ok cancelled →
  inv (goto (set_pending s (delete (sid r) (pending s))) a r (HRemove (pending s !! sid r) ok cancelled)).
Proof.
  intros Hh Hi Hr Hpc. pose proof (http_ok _ _ _ Hi Hr) as Hok.
  assert (Hp : pending s !! sid r = Some a) by (apply (table_reserved _ _ _ _ _ _ Hi Hr); cbn; by rewrite Hpc).
  rewrite Hp. apply (table_give_up (RequestView0 := http_request) (pending s) (requests s) (results s) (next_id s) a r (with_pc r (HRemove (Some a) ok cancelled))); try done; cbn.
  - by rewrite Hpc.
  - req_tac Hpc. intros b [= <-]. unfold own. by rewrite Hh.
Qed.
Lemma own_some a b : Some b = own a → b = a ∧ has_result = true.
Proof. unfold own. destruct has_result; [|done]. by intros [= ->]. Qed.
Lemma goto_set_request s a r r' g : goto (set_request s a r) a r' g = goto s a r' g.
Proof. unfold goto, set_request. cbn. by rewrite insert_insert_eq. Qed.
(** The lock a request takes and releases is its own. *)
Lemma take_lifetime_own s s' a r b ok cancelled :
  inv s → requests s !! a = Some r → pc r = HLock (Some b) ok cancelled → take_lifetime s a r = Some s' →
  b = a ∧ readers (life r) = ∅ ∧ s' = goto s a (with_life r (set_lock (life r) ∅ true)) (HDecide (Some a) ok cancelled).
Proof.
  intros Hi Hr Hpc H. pose proof (ro_removed _ _ (http_ok _ _ _ Hi Hr) (Some b)) as Hb. unfold take_lifetime in H.
  rewrite Hpc in *. destruct (own_some _ _ (Hb eq_refl)) as [-> _]. rewrite Hr in H. cbn in H.
  case_decide as Hd; [|done]. rewrite lookup_insert_eq in H. cbn in H. rewrite goto_set_request in H. simplify_eq.
  by destruct Hd.
Qed.
Lemma unlock_own s s' a r b ok :
  inv s → requests s !! a = Some r → pc r = HUnlock (Some b) ok → unlock s a r = Some s' →
  b = a ∧ s' = goto s a (with_life r (set_lock (life r) (readers (life r)) false)) (HUntrack (Some ok)).
Proof.
  intros Hi Hr Hpc H. pose proof (ro_removed _ _ (http_ok _ _ _ Hi Hr) (Some b)) as Hb. unfold unlock in H.
  rewrite Hpc in *. destruct (own_some _ _ (Hb eq_refl)) as [-> _]. rewrite Hr in H. cbn in H.
  rewrite lookup_insert_eq in H. cbn in H. rewrite goto_set_request in H. by simplify_eq.
Qed.
Lemma http_take_lifetime s s' a r : inv s → requests s !! a = Some r → take_lifetime s a r = Some s' → inv s'.
Proof.
  intros Hi Hr H. pose proof (http_ok _ _ _ Hi Hr) as Hok.
  destruct (pc r) as [| | | | | | | | | | |[b|] ok cancelled| | | | | |] eqn:Hpc;
    try (unfold take_lifetime in H; rewrite Hpc in H; simplify_eq; keep Hi Hr Hpc; fail).
  destruct (take_lifetime_own _ _ _ _ _ _ _ Hi Hr Hpc H) as (-> & ? & ->). by apply http_take_lock.
Qed.
Lemma http_unlock s s' a r : inv s → requests s !! a = Some r → unlock s a r = Some s' → inv s'.
Proof.
  intros Hi Hr H. pose proof (http_ok _ _ _ Hi Hr) as Hok.
  destruct (pc r) as [| | | | | | | | | | | | | | |[b|] ok| |] eqn:Hpc;
    try (unfold unlock in H; rewrite Hpc in H; simplify_eq; keep Hi Hr Hpc; fail).
  destruct (unlock_own _ _ _ _ _ _ Hi Hr Hpc H) as (-> & ->). by apply http_release_lock.
Qed.
Lemma http_request_turn s s' a r turn :
  inv s → requests s !! a = Some r → request_turn metrics_enabled has_result s a r turn = Some s' → inv s'.
Proof.
  intros Hi Hr H. pose proof (http_ok _ _ _ Hi Hr) as Hok.
  destruct turn; cbn in H; try (by eauto using http_take_lifetime, http_unlock);
    unfold guard, track, check_request, begin_returns, register, duplicate_returns, pending_add,
    consume_returns, await, pop_pending, pending_remove, decide_result, end_returns, close_result,
    untrack in H; destruct (pc r) eqn:Hpc; try done; repeat case_match; simplify_eq;
    try (keep Hi Hr Hpc; fail); eauto using http_register, http_pop.
  - assert (Hh : has_result = true) by (apply (ro_result _ _ Hok); by rewrite Hpc). keep Hi Hr Hpc.
  - match goal with H : _ && _ = true |- _ => apply andb_true_iff in H as [_ Hh] end. keep Hi Hr Hpc.
  - match goal with H : has_result = false |- _ => rename H into Hh end.
    eapply http_keep; [exact Hi|exact Hr|fields|fields|fields|fields| |..]; cbn; rewrite ?Hpc; cbn; try done; [|congruence].
    req_tac Hpc. intros b [= <-]. unfold own. by rewrite Hh.
Qed.
Ltac life_move Hi Hr :=
  eapply http_keep; [exact Hi|exact Hr|fields|fields|fields|fields| |..]; cbn; try done.
Lemma http_set_callback s s' a r id c :
  inv s → requests s !! a = Some r → set_result_callback s a r id c = Some s' → inv s'.
Proof.
  intros Hi Hr H. destruct (http_ok _ _ _ Hi Hr) as [Hwr Hrd Hen Hcb Hcl Hrm Hrs]. unfold set_result_callback in H.
  destruct (has_context (pc r)); [|done]. destruct (callbacks (life r)) as [l|] eqn:Hc; simplify_eq; [|done].
  eapply http_keep; [exact Hi|exact Hr|fields|fields|fields|fields| |..]; cbn; try done; [|set_solver].
  split; cbn; try done.
  - intros l' id' c' [= <-]. rewrite lookup_insert_Some. intros [[-> ->]|[_ Hg]]; [set_solver|]. apply elem_of_cons. eauto.
  - intros Hsh. specialize (Hcl Hsh). congruence.
Qed.
Lemma http_done s s' a r : inv s → requests s !! a = Some r → result_done s a r = Some s' → inv s'.
Proof.
  intros Hi Hr H. destruct (http_ok _ _ _ Hi Hr). unfold result_done in H.
  destruct (has_context (pc r)); simplify_eq. life_move Hi Hr.
Qed.
Lemma http_set_status s s' a r z : inv s → requests s !! a = Some r → set_status s a r z = Some s' → inv s'.
Proof.
  intros Hi Hr H. destruct (http_ok _ _ _ Hi Hr). assert (s' = set_request s a (with_status r z)) as ->.
  { unfold set_status in H. destruct (pc r); by simplify_eq. }
  life_move Hi Hr.
Qed.

(** *** Results *)
(** The state after a result's move, as the table sees it. *)
Ltac table := unfold inv, to, set_result, hold, release, set_request, count; case metrics_enabled; cbn.
Lemma http_release s t x a r :
  inv s → results s !! t = Some x → requests s !! a = Some r → held (s_pc x) = Some a →
  inv (to (release s a t r) t x SDone).
Proof.
  intros Hi Hx Hr Hh. destruct (http_ok _ _ _ Hi Hr) as [Hwr Hrd Hen Hcb Hcl Hrm Hrs].
  eapply (results_release _ _ _ _ t x a r); try done. split; try done. cbn. intros Hw. rewrite Hrd by done. set_solver.
Qed.
Lemma http_hold s t x a r :
  inv s → results s !! t = Some x → requests s !! a = Some r → s_pc x = SLock a → writer (life r) = false →
  inv (to (hold s a t r) t x (SCurrent a)).
Proof.
  intros Hi Hx Hr Hpc Hw. destruct (http_ok _ _ _ Hi Hr) as [Hwr Hrd Hen Hcb Hcl Hrm Hrs].
  eapply (results_hold _ _ _ _ t x a r); try done. split; try done. cbn. congruence.
Qed.
Lemma http_same s s' t x g :
  inv s → results s !! t = Some x → s' = s ∨ (∃ k, s' = count metrics_enabled s (add k 1)) →
  held g = held (s_pc x) → (target g = None ∨ target g = target (s_pc x)) →
  (serves g = true → serves (s_pc x) = true) → (∀ a id c, g ≠ SCallback a id c) → inv (to s' t x g).
Proof. intros Hi Hx [->|(k & ->)] *; table; by apply results_same. Qed.
Lemma http_remove s t x a r id l :
  inv s → results s !! t = Some x → requests s !! a = Some r → s_pc x = SDelete a id → callbacks (life r) = Some l →
  inv (to (set_request s a (with_life r (set_callbacks (life r) (Some (delete id l)) (registered (life r))))) t x (SRelease a)).
Proof.
  intros Hi Hx Hr Hpc Hc. destruct (http_ok _ _ _ Hi Hr) as [Hwr Hrd Hen Hcb Hcl Hrm Hrs].
  set (s1 := set_request s a _). assert (Hi1 : inv s1).
  { life_move Hi Hr. split; cbn; try done.
    - intros l' id' c' [= <-] [_ Hg]%lookup_delete_Some. by eapply Hcb.
    - intros Hsh. specialize (Hcl Hsh). congruence. }
  apply (http_same s1); try done; rewrite ?Hpc; auto.
Qed.
Lemma http_result_turn s s' t x id :
  inv s → results s !! t = Some x → result_turn metrics_enabled s t x id = Some s' → inv s'.
Proof.
  intros Hi Hx H. unfold result_turn in H. pose proof (http_same s) as Hsame.
  destruct (s_pc x) as [|a|a|a|a mid|a mid c|a mid|a|] eqn:Hpc; try done.
  - destruct (s_sid x) as [id'|] eqn:Hid; [destruct (pending s !! id') as [a|] eqn:Hp|]; simplify_eq;
      [by eapply results_found|apply Hsame; rewrite ?Hpc; eauto; done..].
  - destruct (requests s !! a) as [r|] eqn:Hr; [|done]. cbn in H. case_match; simplify_eq. by apply http_hold.
  - injection H as <-. case_decide as Hcur; [by apply results_current|]. apply Hsame; rewrite ?Hpc; eauto; done.
  - injection H as <-. apply Hsame; rewrite ?Hpc; eauto; done.
  - destruct (requests s !! a) as [r|] eqn:Hr; [|done]. injection H as <-.
    destruct (callbacks (life r) ≫= _) as [c|] eqn:Hc; [|apply Hsame; rewrite ?Hpc; eauto; done].
    apply bind_Some in Hc as (l & Hl & Hg). eapply results_callback; try done.
    by eapply (ro_callbacks _ _ (http_ok _ _ _ Hi Hr)).
  - destruct (requests s !! a) as [r|] eqn:Hr; [|done]. injection H as <-.
    destruct (callbacks (life r)) as [l|] eqn:Hc; cbn; [destruct (l !! mid); cbn; [by eapply http_remove|]|];
      apply Hsame; rewrite ?Hpc; eauto; done.
  - destruct (requests s !! a) as [r|] eqn:Hr; [|done]. injection H as <-. apply http_release; try done. by rewrite Hpc.
Qed.
Lemma http_callback_returns s s' t x fin :
  inv s → results s !! t = Some x → callback_returns s t x fin = Some s' → inv s'.
Proof.
  intros Hi Hx H. unfold callback_returns in H. destruct (s_pc x) as [| | | | |a mid c| | |] eqn:Hpc; simplify_eq.
  apply (http_same s); auto; rewrite ?Hpc; by destruct fin; auto.
Qed.
Lemma http_drop_result s s' t x : inv s → results s !! t = Some x → drop_result s t x = Some s' → inv s'.
Proof.
  intros Hi Hx H. unfold drop_result in H. destruct (held (s_pc x)) as [a|] eqn:Hh.
  - destruct (requests s !! a) as [r|] eqn:Hr; simplify_eq/=. by apply http_release.
  - simplify_eq. apply (http_same s); auto; done.
Qed.
Lemma http_inv_step s s' : step s s' → inv s → inv s'.
Proof.
  intros [turn H] Hi. destruct turn; cbn in H; simplify_option_eq;
    eauto using http_request_turn, http_result_turn, http_callback_returns, http_drop_result, http_set_callback, http_done,
      http_set_status.
  - by apply (table_request_arrives (C := C)); [|split; cbn; try done; intros l id c [= <-]; rewrite lookup_empty|..].
  - by apply (table_result_arrives (C := C)).
Qed.
Lemma http_inv_reachable s : source_reachable metrics_enabled has_result s → inv s.
Proof.
  intros Hs. refine (rtc_ind_r inv _ _ _ s Hs); [apply table_empty|]. intros x y _ Hxy. by apply http_inv_step.
Qed.

(** ** Counting *)
Definition is_active (g : RequestPc) : bool :=
  match g with
  | HRegister | HDuplicate | HAdd | HConsume | HAwait | HPop _ _ | HRemove _ _ _ | HLock _ _ _ | HDecide _ _ _
  | HEnd _ _ | HClose _ _ => true
  | _ => false
  end.
Definition is_pending (g : RequestPc) : bool :=
  match g with HConsume | HAwait | HPop _ _ => has_result | HRemove _ _ _ => true | _ => false end.
(** The request ended, with this result. *)
Definition ended_with (ok : bool) (g : RequestPc) : bool :=
  match g with HUnlock _ h | HUntrack (Some h) | HReturned (Some h) => Bool.eqb ok h | _ => false end.
(** The tracker holds a token of the request. *)
Definition running (g : RequestPc) : bool :=
  match g with HGuard | HTrack | HReturned _ => false | _ => true end.
Definition requests_at (f : RequestPc → bool) s : Z := tally (λ r, f (pc r)) (requests s).
Record counts s : Prop := {
  c_active : active_requests (metrics s) = requests_at is_active s;
  c_pending : pending_requests (metrics s) = requests_at is_pending s;
  c_messages : messages_total (metrics s) = requests_at (ended_with true) s;
  c_errors : request_errors (metrics s) = requests_at (ended_with false) s }.
(** How far [f] counts more requests when [r] becomes [r']. *)
Definition shift (f : RequestPc → bool) r r' : Z := (if f (pc r') then 1 else 0) - (if f (pc r) then 1 else 0).
(** The counters change as a request that moves from [r] to [r'] asks. *)
Record moved s s' r r' : Prop := {
  m_tracked : tracked s' = tracked s + shift running r r';
  m_active : metrics_enabled = true → active_requests (metrics s') = active_requests (metrics s) + shift is_active r r';
  m_pending : metrics_enabled = true → pending_requests (metrics s') = pending_requests (metrics s) + shift is_pending r r';
  m_messages :
    metrics_enabled = true → messages_total (metrics s') = messages_total (metrics s) + shift (ended_with true) r r';
  m_errors :
    metrics_enabled = true → request_errors (metrics s') = request_errors (metrics s) + shift (ended_with false) r r' }.
Lemma http_requests_move f s s' a r r' :
  requests s !! a = Some r → requests s' = <[a := r']> (requests s) → requests_at f s' = requests_at f s + shift f r r'.
Proof. intros Hr Hq. unfold requests_at, shift. rewrite Hq, (tally_update (λ r, f (pc r)) _ _ r); [lia|done]. Qed.

Ltac moved_tac Hpc :=
  unfold count; destruct metrics_enabled eqn:Hme;
  (eexists; (split; [reflexivity|]); split; unfold shift; cbn; rewrite ?Hpc; cbn; repeat case_match; simplify_eq; intros; first [lia|congruence]).
Lemma http_turn_moved s s' a r turn :
  inv s → requests s !! a = Some r → request_turn metrics_enabled has_result s a r turn = Some s' →
  ∃ r', requests s' = <[a := r']> (requests s) ∧ moved s s' r r'.
Proof.
  intros Hi Hr H. pose proof (ro_result _ _ (http_ok _ _ _ Hi Hr)) as Hwr.
  destruct turn; cbn in H; unfold guard, track, check_request, begin_returns, register, duplicate_returns, pending_add,
    consume_returns, await, pop_pending, pending_remove, decide_result, end_returns, close_result, untrack in H;
    destruct (pc r) eqn:Hpc; try done;
    try (unfold take_lifetime, unlock in H; rewrite Hpc in H; done); repeat case_match; simplify_eq; try (moved_tac Hpc; fail).
  - specialize (Hwr eq_refl). moved_tac Hpc.
  - destruct removed as [b|]; [destruct (take_lifetime_own _ _ _ _ _ _ _ Hi Hr Hpc H) as (-> & _ & ->); moved_tac Hpc|].
    unfold take_lifetime in H. rewrite Hpc in H. simplify_eq. moved_tac Hpc.
  - destruct removed as [b|]; [destruct (unlock_own _ _ _ _ _ _ Hi Hr Hpc H) as (-> & ->); moved_tac Hpc|].
    unfold unlock in H. rewrite Hpc in H. simplify_eq. moved_tac Hpc.
Qed.
Definition is_move (turn : Turn C) : option (nat * RequestTurn) := match turn with TMove a move => Some (a, move) | _ => None end.
(** The other steps leave the points that count, and their counters, alone. *)
Record quiet s s' : Prop := {
  q_requests : ∀ f, f HGuard = false → requests_at f s' = requests_at f s;
  q_tracked : tracked s' = tracked s;
  q_active : active_requests (metrics s') = active_requests (metrics s);
  q_pending : pending_requests (metrics s') = pending_requests (metrics s);
  q_messages : messages_total (metrics s') = messages_total (metrics s);
  q_errors : request_errors (metrics s') = request_errors (metrics s) }.
Lemma quiet_stay s s' a r r' :
  requests s !! a = Some r → requests s' = <[a := r']> (requests s) → pc r' = pc r →
  tracked s' = tracked s → metrics s' = metrics s → quiet s s'.
Proof.
  intros Hr Hq Hpc Ht Hm. split; rewrite ?Hm; try done. intros f _. rewrite (http_requests_move f _ _ _ _ _ Hr Hq).
  unfold shift. rewrite Hpc. lia.
Qed.
Lemma quiet_same s s' :
  requests s' = requests s → tracked s' = tracked s →
  (metrics s' = metrics s ∨ ∃ k, k ∈ [KMissing; KLate; KUnknown; KDuplicate] ∧ metrics s' = add k 1 (metrics s)) → quiet s s'.
Proof.
  intros Hq Ht Hm. split; [intros f _; unfold requests_at; by rewrite Hq|done|..];
    (destruct Hm as [->|(k & Hk & ->)]; [done|]; rewrite !elem_of_cons, elem_of_nil in Hk;
     destruct Hk as [->|[->|[->|[->|[]]]]]; cbn; repeat case_decide; done || lia).
Qed.
Ltac same := apply quiet_same; [by unfold count; case metrics_enabled..|];
  unfold count; case metrics_enabled; first [by left|right; eexists; split; [|reflexivity]; by apply (bool_decide_unpack _)].
Ltac stay := eapply quiet_stay; [eassumption|reflexivity|reflexivity|reflexivity|reflexivity].
Lemma http_quiet_result s s' t x id : result_turn metrics_enabled s t x id = Some s' → quiet s s'.
Proof.
  intros H. unfold result_turn in H.
  destruct (s_pc x); simplify_option_eq; repeat case_match; simplify_option_eq; first [same|stay].
Qed.
Lemma http_quiet s s' turn :
  inv s → advance metrics_enabled has_result s turn = Some s' → (∀ a move, turn ≠ TMove a move) → quiet s s'.
Proof.
  intros Hi H Hne. destruct turn as [|id|a move|t id|t fin|t|a id c|a|a z| |]; cbn in H;
    simplify_option_eq; try (same; fail).
  - split; try done. intros f Hf. unfold requests_at. cbn. rewrite tally_insert_new; [cbn; rewrite Hf; lia|].
    by eapply (table_fresh_request (C := C)).
  - by destruct (Hne a move).
  - by eapply http_quiet_result.
  - unfold callback_returns in *. case_match; simplify_eq. same.
  - unfold drop_result in *. case_match; simplify_option_eq; [stay|same].
  - unfold set_result_callback in *. case_match; [|done]. case_match; simplify_eq; [stay|same].
  - unfold result_done in *. case_match; simplify_eq. stay.
  - unfold set_status in *. case_match; simplify_eq; stay.
Qed.
Lemma http_counts_step s s' :
  metrics_enabled = true → step s s' → inv s → counts s → counts s'.
Proof.
  intros He [turn H] Hi [H1 H2 H3 H4]. destruct (is_move turn) as [[a move]|] eqn:Hm.
  - destruct turn; try done. injection Hm as -> ->. cbn in H. destruct (requests s !! a) as [r|] eqn:Hr; [|done].
    destruct (http_turn_moved _ _ _ _ _ Hi Hr H) as (r' & Hq & []). split; rewrite (http_requests_move _ _ _ _ _ _ Hr Hq); rewrite ?m_active0, ?m_pending0, ?m_messages0, ?m_errors0 by done; lia.
  - destruct (http_quiet _ _ _ Hi H) as []; [by intros ? ? ->|]. split; (rewrite q_requests0; [congruence|done]).
Qed.
Lemma http_tracked_step s s' : step s s' → inv s → tracked s = requests_at running s → tracked s' = requests_at running s'.
Proof.
  intros [turn H] Hi Ht. destruct (is_move turn) as [[a move]|] eqn:Hm.
  - destruct turn; try done. injection Hm as -> ->. cbn in H. destruct (requests s !! a) as [r|] eqn:Hr; [|done].
    destruct (http_turn_moved _ _ _ _ _ Hi Hr H) as (r' & Hq & []). rewrite (http_requests_move _ _ _ _ _ _ Hr Hq). lia.
  - destruct (http_quiet _ _ _ Hi H) as []; [by intros ? ? ->|]. (rewrite q_requests0; [congruence|done]).
Qed.
Lemma http_counts_reachable s :
  source_reachable metrics_enabled has_result s →
  tracked s = requests_at running s ∧ (metrics_enabled = true → counts s).
Proof.
  intros Hs. refine (rtc_ind_r (λ s, tracked s = requests_at running s ∧ (metrics_enabled = true → counts s)) _ _ _ s Hs).
  - done.
  - intros x y Hx%http_inv_reachable Hxy [Ht Hc]. split; [by eapply http_tracked_step|].
    intros He. eapply http_counts_step; eauto.
Qed.

(** ** The drain *)
Definition idle (g : RequestPc) : bool := match g with HGuard | HReturned _ => true | _ => false end.
Definition all_idle s : Prop := ∀ a r, requests s !! a = Some r → idle (pc r) = true.
Lemma http_none_at f s : requests_at f s = 0 ↔ ∀ a r, requests s !! a = Some r → f (pc r) = false.
Proof.
  unfold requests_at. split.
  - intros Ht a r Hr. rewrite (tally_delete (λ r, f (pc r)) _ _ _ Hr) in Ht.
    pose proof (tally_nonneg (λ r, f (pc r)) (delete a (requests s))). destruct (f (pc r)); [lia|done].
  - intros Hf. unfold tally. replace (filter _ _) with (∅ : gmap nat Request); [done|]. symmetry. apply map_empty. intros a. apply map_lookup_filter_None. right. intros r Hr. cbn. by rewrite (Hf _ _ Hr).
Qed.
Lemma all_idle_at s : all_idle s ↔ requests_at (negb ∘ idle) s = 0.
Proof.
  rewrite http_none_at. unfold all_idle. split; intros H a r Hr; specialize (H a r Hr); cbn in *; by destruct (idle (pc r)).
Qed.
Lemma http_closed s s' turn :
  advance metrics_enabled has_result s turn = Some s' → is_move turn = None → turn ≠ TReopen → closed s = true → closed s' = true.
Proof.
  intros H Hm Hne Hc. destruct turn; try done; cbn in H; simplify_option_eq; try done;
    unfold result_turn, callback_returns, drop_result, set_result_callback, result_done, set_status, count in *;
    repeat case_match; simplify_option_eq; repeat case_match; simplify_option_eq; done.
Qed.
(** A step other than a start keeps a drained source drained. *)
Lemma http_idle_step s s' turn :
  inv s → closed s = true → all_idle s → turn ≠ TReopen → advance metrics_enabled has_result s turn = Some s' →
  closed s' = true ∧ all_idle s'.
Proof.
  intros Hi Hc Ha Hne H. destruct (is_move turn) as [[a move]|] eqn:Hm.
  - destruct turn; try done. injection Hm as -> ->. cbn in H. destruct (requests s !! a) as [r|] eqn:Hr; [|done].
    pose proof (Ha _ _ Hr) as Hid. assert (s' = goto s a (with_status r 503) (HReturned None)) as ->.
    { cbn in H. destruct move; cbn in H; unfold guard, track, check_request, begin_returns, register, duplicate_returns,
        pending_add, consume_returns, await, pop_pending, pending_remove, take_lifetime, decide_result, end_returns,
        close_result, unlock, untrack in H; destruct (pc r); try done. rewrite Hc in H. by simplify_eq. }
    split; [done|]. intros b rb. cbn. rewrite lookup_insert_Some. intros [[_ <-]|[_ Hb]]; [done|]. by eapply Ha.
  - split; [by eapply http_closed|]. apply all_idle_at. apply all_idle_at in Ha.
    destruct (http_quiet _ _ _ Hi H) as []; [by intros ? ? ->|]. by rewrite q_requests0.
Qed.
End invariants.

(** * Properties *)
Section properties.
Context {C : Type} (metrics_enabled has_result : bool).
Implicit Types (s : Source C) (r : Request C).

(** an HTTP result callback runs only for the request that has the
    result's stream identifier, among those its handler registered under that
    message identifier, and never once [end_request] has been called. *)
Theorem http_callback_before_end s t id a message_id c :
  source_reachable metrics_enabled has_result s → results s !! t = Some (MkResult id (SCallback a message_id c)) →
  ∃ r, requests s !! a = Some r ∧ id = Some (sid r) ∧ ends r = 0%nat ∧ (message_id, c) ∈ registered (life r).
Proof.
  intros Hi%http_inv_reachable Hx. destruct (results_target _ _ _ _ _ _ a Hi Hx eq_refl) as (r & Hr & [Hs Hc]).
  destruct (Hs eq_refl) as [Hid Hop]. exists r. split_and!; [done|done| |by apply Hc].
  rewrite (ro_ends _ _ _ (http_ok _ _ _ _ Hi Hr)). cbn in Hop. by destruct (pc r).
Qed.

(** C17: every HTTP request that [begin_request] accepted calls
    [end_request] exactly once, also a duplicate, one whose handler failed and
    one whose client went away; when it returns, its callbacks are closed and
    its stream identifier is free; a request that was turned away never calls
    it. *)
Theorem http_end_request_once s a r :
  source_reachable metrics_enabled has_result s → requests s !! a = Some r →
  (ends r ≤ 1)%nat ∧ (pc r = HReturned None → ends r = 0%nat) ∧
  (∀ ok, pc r = HReturned (Some ok) → ends r = 1%nat ∧ callbacks (life r) = None ∧ ∀ id, pending s !! id ≠ Some a).
Proof.
  intros Hi%http_inv_reachable Hr. destruct (http_ok _ _ _ _ Hi Hr) as [_ _ He _ Hcl _ _]. split_and!.
  - rewrite He. destruct (ended (pc r)); lia.
  - intros Hpc. by rewrite He, Hpc.
  - intros ok Hpc. rewrite He, Hpc in *. split_and!; [done|by apply Hcl|].
    intros id (r' & ? & _ & Hrv)%(i_pending _ _ _ _ Hi). simplify_eq/=. by rewrite Hpc in Hrv.
Qed.

(** with metrics enabled the HTTP source's gauges and counters agree
    with its requests at every step: active and pending requests, successes
    and failures. *)
Theorem http_metrics_agree s :
  metrics_enabled = true → source_reachable metrics_enabled has_result s →
  active_requests (metrics s) = requests_at is_active s ∧ pending_requests (metrics s) = requests_at (is_pending has_result) s ∧
  messages_total (metrics s) = requests_at (ended_with true) s ∧ request_errors (metrics s) = requests_at (ended_with false) s.
Proof. intros He Hs. destruct (http_counts_reachable _ _ _ Hs) as [_ Hc]. by destruct (Hc He). Qed.

(** when the drain of an HTTP connector returns, and no request stands
    between the closing check and the task tracker, the source stays drained
    until the next start: requests only arrive to be answered 503, no handler
    runs and nothing is pending. *)
Theorem http_stop_drains s s' :
  source_reachable metrics_enabled has_result s → drained s = true → (∀ a r, requests s !! a = Some r → pc r ≠ HTrack) →
  rtc (λ s s', ∃ turn, turn ≠ TReopen ∧ advance metrics_enabled has_result s turn = Some s') s s' →
  drained s' = true ∧ pending s' = ∅ ∧ ∀ a r, requests s' !! a = Some r → pc r = HGuard ∨ ∃ e, pc r = HReturned e.
Proof.
  intros Hs Hd Htr Hrtc. assert (closed s = true ∧ all_idle s) as [Hc Ha].
  { unfold drained in Hd. apply andb_true_iff in Hd as [? Ht%bool_decide_eq_true]. split; [done|]. intros a r Hr.
    destruct (http_counts_reachable _ _ _ Hs) as [Hn _]. rewrite Ht in Hn. symmetry in Hn.
    specialize (proj1 (http_none_at _ _) Hn _ _ Hr) as Hp. specialize (Htr _ _ Hr). by destruct (pc r). }
  assert (source_reachable metrics_enabled has_result s' ∧ closed s' = true ∧ all_idle s') as (Hs' & Hc' & Ha').
  { clear Hd Htr. induction Hrtc as [|s1 s2 s3 (turn & Hne & H) _ IH]; [done|].
    destruct (http_idle_step _ _ _ _ _ (http_inv_reachable _ _ _ Hs) Hc Ha Hne H).
    apply IH; try done. eapply rtc_r; [exact Hs|by exists turn]. }
  pose proof (http_inv_reachable _ _ _ Hs') as Hi. split_and!.
  - unfold drained. rewrite Hc', bool_decide_true; [done|]. destruct (http_counts_reachable _ _ _ Hs') as [-> _].
    apply http_none_at. intros a r Hr. specialize (Ha' _ _ Hr). by destruct (pc r).
  - apply map_empty. intros id. destruct (pending s' !! id) as [a|] eqn:Hp; [|done].
    apply (i_pending _ _ _ _ Hi) in Hp as (r & Hr & _ & Hrv). specialize (Ha' _ _ Hr). cbn in Hrv. by destruct (pc r).
  - intros a r Hr. specialize (Ha' _ _ Hr). destruct (pc r); eauto; done.
Qed.
End properties.

(** ** Schedules *)
Fixpoint run {C} (metrics_enabled has_result : bool) (s : Source C) (turns : list (Turn C)) : option (Source C) :=
  match turns with
  | [] => Some s
  | turn :: turns => s' ← advance metrics_enabled has_result s turn; run metrics_enabled has_result s' turns
  end.
Definition reached (has_result : bool) (turns : list (Turn nat)) : Source nat :=
  default source_new (run true has_result source_new turns).
Lemma http_reached_reachable has_result turns : source_reachable true has_result (reached has_result turns).
Proof.
  unfold reached. assert (∀ s s', source_reachable true has_result s → run true has_result s turns = Some s' →
    source_reachable true has_result s') as H.
  { induction turns as [|turn turns IH]; intros s s' Hs Hr; cbn in Hr; simplify_option_eq; [done|].
    eapply IH; [|exact Hr]. eapply rtc_r; [exact Hs|by exists turn]. }
  destruct (run _ _ _ turns) eqn:Hr; [|apply rtc_refl]. eapply H; [apply rtc_refl|exact Hr].
Qed.
(** A schedule with no start in it. *)
Lemma http_run_stopped {C} metrics_enabled has_result (s s' : Source C) turns :
  run metrics_enabled has_result s turns = Some s' → Forall (λ turn, turn ≠ TReopen) turns →
  rtc (λ s s', ∃ turn, turn ≠ TReopen ∧ advance metrics_enabled has_result s turn = Some s') s s'.
Proof.
  revert s. induction turns as [|turn turns IH]; intros s Hr Hf; cbn in Hr; simplify_option_eq; [done|].
  inversion Hf; subst. eapply rtc_l; [by exists turn|]. by apply IH.
Qed.
Definition request_of (s : Source nat) (a : nat) : Request nat :=
  default (MkRequest "" HGuard 0 200 pending_new) (requests s !! a).
(** A request up to the wait for its result, with a callback under "m". *)
Definition awaiting : list (Turn nat) :=
  [TRequest] ++ (TMove 0 <$> [TGuard; TTrack; TCheck true true; TBegin (Some (Some "s")) ""; TRegister; TAdd]) ++
  [TSetCallback 0 "m" 7%nat; TMove 0 (TConsume true)].
(** A result runs its callback; the request, cancelled, is no longer pending
    and waits for the lock. *)
Definition served : list (Turn nat) :=
  awaiting ++ [TResult (Some "s")] ++ replicate 5 (TResultStep 1 "m") ++ (TMove 0 <$> [TAwait true; TPop; TRemove]).
Lemma http_callback_before_end_witness :
  let s := reached true served in
  advance true true s (TMove 0 TLock) = None ∧ pending s = ∅ ∧
  ∃ r, requests s !! 0%nat = Some r ∧ Some "s" = Some (sid r) ∧ ends r = 0%nat ∧ ("m", 7%nat) ∈ registered (life r).
Proof.
  cbv zeta. split; [by vm_compute|]. split; [by vm_compute|].
  apply (http_callback_before_end true true (reached true served) 1 (Some "s") 0 "m" 7%nat);
    [apply http_reached_reachable|by vm_compute].
Defined.
(** The callback completes the request, which ends well although it was cancelled. *)
Definition returned : list (Turn nat) :=
  served ++ [TDone 0; TStatus 0 201; TCallback 1 true; TResultStep 1 ""; TResultStep 1 ""] ++
  (TMove 0 <$> [TLock; TDecide; TEnd; TClose; TUnlock; TUntrack]).
Lemma http_end_request_once_witness :
  let r := request_of (reached true returned) 0 in
  pc r = HReturned (Some true) ∧ status r = 201 ∧ ends r = 1%nat ∧ callbacks (life r) = None.
Proof.
  cbv zeta. assert (Hr : requests (reached true returned) !! 0%nat = Some (request_of (reached true returned) 0)) by by vm_compute.
  assert (Hpc : pc (request_of (reached true returned) 0) = HReturned (Some true)) by by vm_compute.
  destruct (http_end_request_once true true _ 0 _ (http_reached_reachable true returned) Hr) as (_ & _ & H).
  destruct (H _ Hpc) as (He & Hc & _). split; [exact Hpc|]. split; [by vm_compute|]. by split.
Defined.
(** A second request with the identifier fails, while the first waits. *)
Definition duplicated : list (Turn nat) :=
  awaiting ++ [TRequest] ++ (TMove 1 <$> [TGuard; TTrack; TCheck true true; TBegin (Some (Some "s")) ""; TRegister; TDuplicate]).
Lemma http_metrics_agree_witness :
  let s := reached true duplicated in
  active_requests (metrics s) = 1 ∧ pending_requests (metrics s) = 1 ∧ request_errors (metrics s) = 1 ∧
  request_errors (metrics s) = requests_at (ended_with false) s.
Proof.
  cbv zeta. destruct (http_metrics_agree true true _ eq_refl (http_reached_reachable true duplicated)) as (_ & _ & _ & H).
  split; [by vm_compute|]. split; [by vm_compute|]. split; [by vm_compute|]. exact H.
Defined.
(** The source stops after the request; a later request gets 503. *)
Definition late : list (Turn nat) := [TRequest; TMove 2 TGuard].
Lemma http_stop_drains_witness :
  let s := reached true (returned ++ [TStop]) in
  let s' := reached true (returned ++ [TStop] ++ late) in
  status (request_of s' 2) = 503 ∧
  drained s' = true ∧ pending s' = ∅ ∧ ∀ a r, requests s' !! a = Some r → pc r = HGuard ∨ ∃ e, pc r = HReturned e.
Proof.
  cbv zeta. split; [by vm_compute|]. apply (http_stop_drains true true (reached true (returned ++ [TStop]))).
  - apply http_reached_reachable.
  - by vm_compute.
  - intros a r Hr. assert (Hf : map_Forall (λ _ r, idle (pc r) = true) (requests (reached true (returned ++ [TStop])))).
    { apply (bool_decide_unpack _). by vm_compute. }
    intros Hpc. specialize (Hf _ _ Hr). cbn in Hf. by rewrite Hpc in Hf.
  - apply (http_run_stopped _ _ _ _ late); [by vm_compute|by repeat constructor].
Defined.

(** A request that saw the source open before [stop] closed it is tracked
    after the drain has returned: its handler then runs in a stopped source. *)
Theorem request_after_drain :
  ∃ s s' : Source nat, source_reachable true true s ∧ drained s = true ∧
    rtc (λ s s', ∃ turn, turn ≠ TReopen ∧ advance true true s turn = Some s') s s' ∧ pc (request_of s' 0) = HConsume.
Proof.
  exists (reached true ([TRequest; TMove 0 TGuard; TStop])), (reached true ([TRequest; TMove 0 TGuard; TStop] ++
    (TMove 0 <$> [TTrack; TCheck true true; TBegin (Some (Some "s")) ""; TRegister; TAdd]))).
  split; [apply http_reached_reachable|]. split; [by vm_compute|]. split; [|by vm_compute].
  apply (http_run_stopped _ _ _ _ (TMove 0 <$> [TTrack; TCheck true true; TBegin (Some (Some "s")) ""; TRegister; TAdd]));
    [by vm_compute|by repeat constructor].
Qed.
