(* ===== verification/KafkaSource.v ===== *)
(** The Kafka source's requests, [src/src/datasource/kafka/rdkafka.rs]: the
    concurrency gate, [endpoint_request] and [consume_result].

    A lane hands a message to [endpoint_request]; requests and results run as
    threads, a turn is one atomic section: an operation of the pending map, an
    atomic of the gate, an operation of the lifetime lock or of the metrics,
    or the return of a handler, whose answers are arguments.  The pending map is
    the plain map of the rotating map's specification, a request's number the
    identity of its [Arc<KafkaResult>].  A lane does not drop a request; a
    result may be dropped by its caller.  [Notify] is modelled as documented:
    [notify_waiters] wakes the [notified] futures that exist, and leaves no
    permit behind.  A handler does not panic. *)

From S2P Require Import Prelude Errors RequestTable.
Local Open Scope Z_scope.

(** Where a request is. *)
Inductive RequestPc :=
| KStopped                              (** [acquire_concurrency]: before [stopped.load] *)
| KLimit                                (** before [handler.concurrency] and [active.load] *)
| KTry (active : Z)                     (** before [compare_exchange] *)
| KNotified                             (** before [changed.notified()] *)
| KWait (woken : bool)                  (** in [notified().await] *)
| KBegin                                (** [begin_request] runs *)
| KRegister                             (** before [pending.set] *)
| KDuplicate                            (** [end_request] of a duplicate runs *)
| KAdd                                  (** before [pending_requests.add] *)
| KConsume                              (** [consume_message] runs *)
| KAwait                                (** the result context or the context *)
| KRemove (ok cancelled : bool)         (** before [pending_requests.remove] *)
| KPop (ok cancelled : bool)            (** before [pending.pop] *)
| KLock (removed : option nat) (ok cancelled : bool)
| KDecide (removed : option nat) (ok cancelled : bool)
| KEnd (removed : option nat) (ok : bool)       (** [end_request] runs *)
| KUnlock (removed : option nat) (ok : bool)    (** before the write guard is dropped *)
| KRelease (e : option bool)            (** before [ActiveRequestGuard] is dropped *)
| KNotify (e : option bool)             (** before its [notify_waiters] *)
| KReturned (e : option bool).          (** [None]: stopped, or [begin_request] failed *)

Section source.
Context {C : Type}.
(** [KafkaResult] with its [ResultContext]; [registered] lists the registrations. *)
Record Pending := MkPending {
  callbacks : gmap string C;
  registered : list (string * C);
  done : bool;
  readers : gset nat;
  writer : bool }.
Record Request := MkRequest { sid : string; pc : RequestPc; ends : nat; life : Pending }.
(** [times] holds the identifiers with a start time. *)
Record EndpointMetrics := MkMetrics {
  messages_total : Z; request_errors : Z; begin_request_failed : Z; missing_stream_id : Z; late_result : Z;
  unknown_message_id : Z; duplicate_message_id : Z; active_requests : Z; pending_requests : Z; times : gset string }.
(** [Concurrency]; the requests that wait on [changed] are at [KWait]. *)
Record Concurrency := MkConcurrency { active : Z; stopped : bool }.
Record Source := MkSource {
  pending : gmap string nat;
  requests : gmap nat Request;
  results : gmap nat (Result C);
  metrics : EndpointMetrics;
  gate : Concurrency;
  next_id : nat }.
Implicit Types (s : Source) (r : Request) (p : Pending) (m : EndpointMetrics).
Context (metrics_enabled has_result : bool).

Definition metrics_new : EndpointMetrics := MkMetrics 0 0 0 0 0 0 0 0 0 ∅.
Definition source_new : Source := MkSource ∅ ∅ ∅ metrics_new (MkConcurrency 0 false) 0.
Definition pending_new : Pending := MkPending ∅ [] false ∅ false.

(** ** Updates *)
Definition set_requests s (rs : gmap nat Request) : Source :=
  MkSource (pending s) rs (results s) (metrics s) (gate s) (next_id s).
Definition set_request s (a : nat) r : Source := set_requests s (<[a := r]> (requests s)).
Definition set_result s (t : nat) (x : Result C) : Source :=
  MkSource (pending s) (requests s) (<[t := x]> (results s)) (metrics s) (gate s) (next_id s).
Definition set_pending s (pd : gmap string nat) : Source :=
  MkSource pd (requests s) (results s) (metrics s) (gate s) (next_id s).
Definition set_gate s (g : Concurrency) : Source :=
  MkSource (pending s) (requests s) (results s) (metrics s) g (next_id s).
Definition with_pc r (g : RequestPc) : Request := MkRequest (sid r) g (ends r) (life r).
Definition with_life r (p : Pending) : Request := MkRequest (sid r) (pc r) (ends r) p.
Definition end_called r : Request := MkRequest (sid r) (pc r) (S (ends r)) (life r).
Definition set_lock p (rs : gset nat) (w : bool) : Pending := MkPending (callbacks p) (registered p) (done p) rs w.
Definition set_callbacks p (c : gmap string C) (l : list (string * C)) : Pending := MkPending c l (done p) (readers p) (writer p).
Definition goto s (a : nat) r (g : RequestPc) : Source := set_request s a (with_pc r g).

(** ** Metrics *)
Definition count s (f : EndpointMetrics → EndpointMetrics) : Source :=
  if metrics_enabled
  then MkSource (pending s) (requests s) (results s) (f (metrics s)) (gate s) (next_id s) else s.
Inductive Counter := KMessages | KErrors | KBeginFailed | KMissing | KLate | KUnknown | KDuplicated | KActive.
#[export] Instance kafka_counter_eq_dec : EqDecision Counter.
Proof. solve_decision. Defined.
Definition add (k : Counter) (d : Z) m : EndpointMetrics :=
  let on k' := if decide (k = k') then d else 0 in
  MkMetrics (messages_total m + on KMessages) (request_errors m + on KErrors) (begin_request_failed m + on KBeginFailed)
    (missing_stream_id m + on KMissing) (late_result m + on KLate) (unknown_message_id m + on KUnknown)
    (duplicate_message_id m + on KDuplicated) (active_requests m + on KActive) (pending_requests m) (times m).
Definition count_end (ok : bool) m : EndpointMetrics := add (if ok then KMessages else KErrors) 1 (add KActive (-1) m).
Definition set_times m (d : Z) (l : gset string) : EndpointMetrics :=
  MkMetrics (messages_total m) (request_errors m) (begin_request_failed m) (missing_stream_id m) (late_result m)
    (unknown_message_id m) (duplicate_message_id m) (active_requests m) (pending_requests m + d) l.
Definition times_add (id : string) m : EndpointMetrics := set_times m 1 ({[id]} ∪ times m).
Definition times_remove (id : string) m : EndpointMetrics := set_times m (-1) (times m ∖ {[id]}).

(** ** The gate *)
Definition request_arrives s : Source :=
  MkSource (pending s) (<[next_id s := MkRequest "" KStopped 0 pending_new]> (requests s)) (results s) (metrics s) (gate s)
    (S (next_id s)).
(** [notify_waiters] *)
Definition wake r : Request := match pc r with KWait _ => with_pc r (KWait true) | _ => r end.
Definition notify_waiters s : Source := set_requests s (wake <$> requests s).
(** A turn of [acquire_concurrency]; [limit] is the handler's answer. *)
Definition acquire_turn s (a : nat) r (limit : Z) : option Source :=
  match pc r with
  | KStopped => Some (goto s a r (if stopped (gate s) then KReturned None else KLimit))
  | KLimit =>
      let n := active (gate s) in
      Some (goto s a r (if bool_decide (limit = 0) || (n <? limit) then KTry n else KNotified))
  | KTry n =>
      if decide (active (gate s) = n)
      then Some (goto (set_gate s (MkConcurrency (n + 1) (stopped (gate s)))) a r KBegin)
      else Some (goto s a r KStopped)
  | KNotified => Some (goto s a r (KWait false))
  | KWait true => Some (goto s a r KStopped)
  | _ => None
  end.
(** [ActiveRequestGuard] is dropped. *)
Definition release_turn s (a : nat) r : option Source :=
  match pc r with
  | KRelease e => Some (goto (set_gate s (MkConcurrency (active (gate s) - 1) (stopped (gate s)))) a r (KNotify e))
  | KNotify e => Some (notify_waiters (goto s a r (KReturned e)))
  | _ => None
  end.
(** [start] and [stop]: a store, then [notify_waiters]; the store alone is a
    turn too. *)
Definition set_stopped s (b : bool) : Source := set_gate s (MkConcurrency (active (gate s)) b).

(** ** Requests *)
(** [begin_request] answers with an error, or with a context that may carry a
    stream identifier; [generated] is [new_stream_id()]. *)
Definition begin_returns s (a : nat) r (answer : option (option string)) (generated : string) : option Source :=
  match pc r, answer with
  | KBegin, None => Some (goto (count s (add KBeginFailed 1)) a r (KRelease None))
  | KBegin, Some id =>
      Some (set_request (count s (add KActive 1)) a
        (MkRequest (default generated id) (if has_result then KRegister else KConsume) (ends r) (life r)))
  | _, _ => None
  end.
Definition register s (a : nat) r : option Source :=
  match pc r with
  | KRegister =>
      match pending s !! sid r with
      | Some _ => Some (goto s a (end_called r) KDuplicate)
      | None => Some (goto (set_pending s (<[sid r := a]> (pending s))) a r KAdd)
      end
  | _ => None
  end.
Definition duplicate_returns s (a : nat) r : option Source :=
  match pc r with KDuplicate => Some (goto (count s (count_end false)) a r (KRelease (Some false))) | _ => None end.
Definition pending_add s (a : nat) r : option Source :=
  match pc r with KAdd => Some (goto (count s (times_add (sid r))) a r KConsume) | _ => None end.
Definition consume_returns s (a : nat) r (ok : bool) : option Source :=
  match pc r with
  | KConsume => Some (goto s a r (if has_result then if ok then KAwait else KRemove false false else KLock None ok false))
  | _ => None
  end.
(** The [select!]: the result context was completed, or the context ended. *)
Definition await s (a : nat) r (cancelled : bool) : option Source :=
  match pc r with
  | KAwait => if cancelled then Some (goto s a r (KRemove false true))
              else if done (life r) then Some (goto s a r (KRemove true false)) else None
  | _ => None
  end.
Definition pending_remove s (a : nat) r : option Source :=
  match pc r with
  | KRemove ok cancelled => Some (goto (count s (times_remove (sid r))) a r (KPop ok cancelled))
  | _ => None
  end.
Definition pop_pending s (a : nat) r : option Source :=
  match pc r with
  | KPop ok cancelled =>
      Some (goto (set_pending s (delete (sid r) (pending s))) a r (KLock (pending s !! sid r) ok cancelled))
  | _ => None
  end.
(** [lifetime.write] of the removed entry. *)
Definition take_lifetime s (a : nat) r : option Source :=
  match pc r with
  | KLock None ok cancelled => Some (goto s a r (KDecide None ok cancelled))
  | KLock (Some b) ok cancelled =>
      rb ← requests s !! b;
      if decide (readers (life rb) = ∅ ∧ writer (life rb) = false) then
        let s := set_request s b (with_life rb (set_lock (life rb) ∅ true)) in
        r ← requests s !! a;
        Some (goto s a r (KDecide (Some b) ok cancelled))
      else None
  | _ => None
  end.
Definition decide_result s (a : nat) r : option Source :=
  match pc r with
  | KDecide removed ok cancelled => Some (goto s a (end_called r) (KEnd removed (ok || cancelled && done (life r))))
  | _ => None
  end.
Definition end_returns s (a : nat) r : option Source :=
  match pc r with KEnd removed ok => Some (goto (count s (count_end ok)) a r (KUnlock removed ok)) | _ => None end.
Definition unlock s (a : nat) r : option Source :=
  match pc r with
  | KUnlock None ok => Some (goto s a r (KRelease (Some ok)))
  | KUnlock (Some b) ok =>
      rb ← requests s !! b;
      let s := set_request s b (with_life rb (set_lock (life rb) (readers (life rb)) false)) in
      r ← requests s !! a;
      Some (goto s a r (KRelease (Some ok)))
  | _ => None
  end.

(** ** The handler's references *)
Definition has_context (g : RequestPc) : bool :=
  match g with KStopped | KLimit | KTry _ | KNotified | KWait _ | KBegin | KRegister => false | _ => true end.
Definition set_result_callback s (a : nat) r (message_id : string) (c : C) : option Source :=
  if has_context (pc r)
  then Some (set_request s a (with_life r (set_callbacks (life r) (<[message_id := c]> (callbacks (life r))) ((message_id, c) :: registered (life r)))))
  else None.
Definition complete p : Pending := MkPending (callbacks p) (registered p) true (readers p) (writer p).
Definition result_done s (a : nat) r : option Source :=
  if has_context (pc r) then Some (set_request s a (with_life r (complete (life r)))) else None.

(** ** Results *)
Definition result_arrives s (id : option string) : Source :=
  MkSource (pending s) (requests s) (<[next_id s := MkResult id SGet]> (results s)) (metrics s) (gate s) (S (next_id s)).
Definition to s (t : nat) (x : Result C) (g : ResultPc C) : Source := set_result s t (MkResult (s_sid x) g).
Definition hold s (a t : nat) r : Source :=
  set_request s a (with_life r (set_lock (life r) ({[t]} ∪ readers (life r)) (writer (life r)))).
Definition release s (a t : nat) r : Source :=
  set_request s a (with_life r (set_lock (life r) (readers (life r) ∖ {[t]}) (writer (life r)))).
Definition result_turn s (t : nat) (x : Result C) (message_id : string) : option Source :=
  match s_pc x with
  | SGet =>
      match s_sid x with
      | None => Some (to (count s (add KMissing 1)) t x SDone)
      | Some id =>
          match pending s !! id with
          | None => Some (to (count s (add KLate 1)) t x SDone)
          | Some a => Some (to s t x (SLock a))
          end
      end
  | SLock a => r ← requests s !! a; if writer (life r) then None else Some (to (hold s a t r) t x (SCurrent a))
  | SCurrent a =>
      Some (if decide ((s_sid x ≫= λ id, pending s !! id) = Some a) then to s t x (SMessageId a)
            else to (count s (add KLate 1)) t x (SRelease a))
  | SMessageId a => Some (to s t x (SFind a message_id))
  | SFind a id =>
      r ← requests s !! a;
      Some (match callbacks (life r) !! id with
            | Some c => to s t x (SCallback a id c)
            | None => to (count s (add KUnknown 1)) t x (SRelease a)
            end)
  | SCallback _ _ _ => None
  | SDelete a id =>
      r ← requests s !! a;
      Some (match callbacks (life r) !! id with
            | None => to (count s (add KDuplicated 1)) t x (SRelease a)
            | Some _ =>
                to (set_request s a (with_life r (set_callbacks (life r) (delete id (callbacks (life r))) (registered (life r))))) t x (SRelease a)
            end)
  | SRelease a => r ← requests s !! a; Some (to (release s a t r) t x SDone)
  | SDone => None
  end.
Definition callback_returns s (t : nat) (x : Result C) (finished : bool) : option Source :=
  match s_pc x with
  | SCallback a id _ => Some (to s t x (if finished then SDelete a id else SRelease a))
  | _ => None
  end.
Definition drop_result s (t : nat) (x : Result C) : option Source :=
  match held (s_pc x) with
  | None => Some (to s t x SDone)
  | Some a => r ← requests s !! a; Some (to (release s a t r) t x SDone)
  end.

(** ** The source *)
Inductive RequestTurn :=
| TAcquire (limit : Z) | TBegin (answer : option (option string)) (generated : string) | TRegister | TDuplicate | TAdd
| TConsume (ok : bool) | TAwait (cancelled : bool) | TRemove | TPop | TLock | TDecide | TEnd | TUnlock | TRelease.
Definition request_turn s (a : nat) r (turn : RequestTurn) : option Source :=
  match turn with
  | TAcquire limit => acquire_turn s a r limit
  | TBegin answer generated => begin_returns s a r answer generated
  | TRegister => register s a r
  | TDuplicate => duplicate_returns s a r
  | TAdd => pending_add s a r
  | TConsume ok => consume_returns s a r ok
  | TAwait cancelled => await s a r cancelled
  | TRemove => pending_remove s a r
  | TPop => pop_pending s a r
  | TLock => take_lifetime s a r
  | TDecide => decide_result s a r
  | TEnd => end_returns s a r
  | TUnlock => unlock s a r
  | TRelease => release_turn s a r
  end.
Inductive Turn :=
| TRequest | TResult (id : option string)
| TMove (a : nat) (turn : RequestTurn) | TResultStep (t : nat) (message_id : string) | TCallback (t : nat) (finished : bool)
| TDropResult (t : nat) | TSetCallback (a : nat) (message_id : string) (c : C) | TDone (a : nat)
| TStopped (b : bool) | TNotifyAll.
(** [TStopped] and [TNotifyAll] are the two statements of [start] and [stop]. *)
Definition advance s (turn : Turn) : option Source :=
  match turn with
  | TRequest => Some (request_arrives s)
  | TResult id => Some (result_arrives s id)
  | TMove a turn => r ← requests s !! a; request_turn s a r turn
  | TResultStep t message_id => x ← results s !! t; result_turn s t x message_id
  | TCallback t finished => x ← results s !! t; callback_returns s t x finished
  | TDropResult t => x ← results s !! t; drop_result s t x
  | TSetCallback a id c => r ← requests s !! a; set_result_callback s a r id c
  | TDone a => r ← requests s !! a; result_done s a r
  | TStopped b => Some (set_stopped s b)
  | TNotifyAll => Some (notify_waiters s)
  end.
Definition source_step s s' : Prop := ∃ turn, advance s turn = Some s'.
Definition source_reachable s : Prop := rtc source_step source_new s.
End source.
Arguments Pending : clear implicits.
Arguments Request : clear implicits.
Arguments Source : clear implicits.
Arguments Turn : clear implicits.
Section invariants.
Context {C : Type} (metrics_enabled has_result : bool).
Notation step := (source_step (C := C) metrics_enabled has_result).
Notation Source := (Source C).
Notation Request := (Request C).
Implicit Types (s : Source) (r : Request) (x : Result C) (p : Pending C).

(** ** What a program point says of its request *)
Definition removed_of (g : RequestPc) : option (option nat) :=
  match g with KLock b _ _ | KDecide b _ _ | KEnd b _ | KUnlock b _ => Some b | _ => None end.
Definition locked (g : RequestPc) : bool :=
  match g with KDecide (Some _) _ _ | KEnd (Some _) _ | KUnlock (Some _) _ => true | _ => false end.
Definition ended (g : RequestPc) : bool :=
  match g with
  | KDuplicate | KEnd _ _ | KUnlock _ _ | KRelease (Some _) | KNotify (Some _) | KReturned (Some _) => true
  | _ => false
  end.
(** The request is in the pending map. *)
Definition reserved (g : RequestPc) : bool :=
  match g with KAdd | KRemove _ _ | KPop _ _ => true | KConsume | KAwait => has_result | _ => false end.
(** A result may be under way for the request. *)
Definition open (g : RequestPc) : bool := match g with KLock (Some _) _ _ => true | _ => reserved g end.
(** Only sources with a result stream come here. *)
Definition with_result (g : RequestPc) : bool :=
  match g with KRegister | KDuplicate | KAdd | KAwait | KRemove _ _ | KPop _ _ => true | _ => false end.
Definition own (a : nat) : option nat := if has_result then Some a else None.
Record req_ok (a : nat) r : Prop := {
  ro_writer : writer (life r) = locked (pc r);
  ro_readers : writer (life r) = true → readers (life r) = ∅;
  ro_ends : ends r = if ended (pc r) then 1%nat else 0%nat;
  ro_callbacks : ∀ id c, callbacks (life r) !! id = Some c → (id, c) ∈ registered (life r);
  ro_removed : ∀ b, removed_of (pc r) = Some b → b = own a;
  ro_result : with_result (pc r) = true → has_result = true }.
#[export, refine] Instance kafka_request : RequestView Request C := {|
  v_sid := sid; v_reserved r := reserved (pc r); v_open r := open (pc r);
  v_readers r := readers (life r); v_registered r := registered (life r); v_ok := req_ok |}.
Proof. intros r. by destruct (pc r). Defined.

Definition inv s : Prop := table_inv (pending s) (requests s) (results s) (next_id s).

Lemma kafka_keep s s' a r r' :
  inv s → requests s !! a = Some r →
  requests s' = <[a := r']> (requests s) → results s' = results s → next_id s' = next_id s → pending s' = pending s →
  req_ok a r' →
  readers (life r') = readers (life r) → registered (life r) ⊆ registered (life r') →
  reserved (pc r') = reserved (pc r) → (open (pc r) = true → sid r' = sid r) →
  (open (pc r) = true → readers (life r) ≠ ∅ → open (pc r') = true) → inv s'.
Proof. intros Hi Hr Hq Hs Hn Hp ??????. unfold inv. rewrite Hq, Hs, Hn, Hp. by apply (table_keep (C := C) _ _ _ _ a r r'). Qed.
Lemma kafka_ok s a r : inv s → requests s !! a = Some r → req_ok a r.
Proof. intros Hi Hr. by apply (i_requests _ _ _ _ Hi _ _ Hr). Qed.

(** *** Requests *)
Ltac fields := unfold goto, set_request, set_pending, set_gate, set_requests, to, hold, release, count; case metrics_enabled; reflexivity.
(** [req_ok] of a request whose point is known and that moves to a known point. *)
Ltac req_tac Hpc :=
  match goal with
  | H : req_ok ?a ?r |- req_ok _ _ =>
      destruct H as [Hwr Hrd Hen Hcb Hrm Hrs]; rewrite Hpc in *; cbn in *; split; cbn; auto; try congruence
  end.
Ltac keep Hi Hr Hpc :=
  eapply kafka_keep; [exact Hi|exact Hr|fields|fields|fields|fields| |..];
    [|cbn; rewrite ?Hpc; try done..]; [cbn; req_tac Hpc].
Lemma kafka_take_lock s a r ok cancelled :
  inv s → requests s !! a = Some r → pc r = KLock (Some a) ok cancelled → readers (life r) = ∅ →
  inv (goto s a (with_life r (set_lock (life r) ∅ true)) (KDecide (Some a) ok cancelled)).
Proof.
  intros Hi Hr Hpc He. pose proof (kafka_ok _ _ _ Hi Hr) as Hok. keep Hi Hr Hpc.
Qed.
Lemma kafka_release_lock s a r ok :
  inv s → requests s !! a = Some r → pc r = KUnlock (Some a) ok →
  inv (goto s a (with_life r (set_lock (life r) (readers (life r)) false)) (KRelease (Some ok))).
Proof.
  intros Hi Hr Hpc. pose proof (kafka_ok _ _ _ Hi Hr) as Hok. keep Hi Hr Hpc.
Qed.
Lemma kafka_register s a r :
  inv s → requests s !! a = Some r → pc r = KRegister → pending s !! sid r = None →
  inv (goto (set_pending s (<[sid r := a]> (pending s))) a r KAdd).
Proof.
  intros Hi Hr Hpc Hp. pose proof (kafka_ok _ _ _ Hi Hr) as Hok.
  apply (table_take (RequestView0 := kafka_request) (pending s) (requests s) (results s) (next_id s) a r (with_pc r KAdd)); try done; cbn; [by rewrite Hpc|req_tac Hpc].
Qed.
Lemma kafka_pop s a r ok cancelled :
  inv s → requests s !! a = Some r → pc r = KPop ok cancelled →
  inv (goto (set_pending s (delete (sid r) (pending s))) a r (KLock (pending s !! sid r) ok cancelled)).
Proof.
  intros Hi Hr Hpc. pose proof (kafka_ok _ _ _ Hi Hr) as Hok.
  assert (Hh : has_result = true) by (apply (ro_result _ _ Hok); by rewrite Hpc).
  assert (Hp : pending s !! sid r = Some a) by (apply (table_reserved _ _ _ _ _ _ Hi Hr); cbn; by rewrite Hpc).
  rewrite Hp. apply (table_give_up (RequestView0 := kafka_request) (pending s) (requests s) (results s) (next_id s) a r (with_pc r (KLock (Some a) ok cancelled))); try done; cbn.
  - by rewrite Hpc.
  - req_tac Hpc. intros b [= <-]. unfold own. by rewrite Hh.
Qed.
Lemma kafka_own_some a b : Some b = own a → b = a ∧ has_result = true.
Proof. unfold own. destruct has_result; [|done]. by intros [= ->]. Qed.
Lemma kafka_goto_set_request s a r r' g : goto (set_request s a r) a r' g = goto s a r' g.
Proof. unfold goto, set_request. cbn. by rewrite insert_insert_eq. Qed.
(** The lock a request takes and releases is its own. *)
Lemma kafka_take_own s s' a r b ok cancelled :
  inv s → requests s !! a = Some r → pc r = KLock (Some b) ok cancelled → take_lifetime s a r = Some s' →
  b = a ∧ readers (life r) = ∅ ∧ s' = goto s a (with_life r (set_lock (life r) ∅ true)) (KDecide (Some a) ok cancelled).
Proof.
  intros Hi Hr Hpc H. pose proof (ro_removed _ _ (kafka_ok _ _ _ Hi Hr) (Some b)) as Hb. unfold take_lifetime in H.
  rewrite Hpc in *. destruct (kafka_own_some _ _ (Hb eq_refl)) as [-> _]. rewrite Hr in H. cbn in H.
  case_decide as Hd; [|done]. rewrite lookup_insert_eq in H. cbn in H. rewrite kafka_goto_set_request in H. simplify_eq.
  by destruct Hd.
Qed.
Lemma kafka_unlock_own s s' a r b ok :
  inv s → requests s !! a = Some r → pc r = KUnlock (Some b) ok → unlock s a r = Some s' →
  b = a ∧ s' = goto s a (with_life r (set_lock (life r) (readers (life r)) false)) (KRelease (Some ok)).
Proof.
  intros Hi Hr Hpc H. pose proof (ro_removed _ _ (kafka_ok _ _ _ Hi Hr) (Some b)) as Hb. unfold unlock in H.
  rewrite Hpc in *. destruct (kafka_own_some _ _ (Hb eq_refl)) as [-> _]. rewrite Hr in H. cbn in H.
  rewrite lookup_insert_eq in H. cbn in H. rewrite kafka_goto_set_request in H. by simplify_eq.
Qed.
Lemma kafka_take_lifetime s s' a r : inv s → requests s !! a = Some r → take_lifetime s a r = Some s' → inv s'.
Proof.
  intros Hi Hr H. pose proof (kafka_ok _ _ _ Hi Hr) as Hok.
  destruct (pc r) as [| | | | | | | | | | | | |[b|] ok cancelled| | | | | |] eqn:Hpc;
    try (unfold take_lifetime in H; rewrite Hpc in H; simplify_eq; keep Hi Hr Hpc; fail).
  destruct (kafka_take_own _ _ _ _ _ _ _ Hi Hr Hpc H) as (-> & ? & ->). by apply kafka_take_lock.
Qed.
Lemma kafka_unlock s s' a r : inv s → requests s !! a = Some r → unlock s a r = Some s' → inv s'.
Proof.
  intros Hi Hr H. pose proof (kafka_ok _ _ _ Hi Hr) as Hok.
  destruct (pc r) as [| | | | | | | | | | | | | | | |[b|] ok| | |] eqn:Hpc;
    try (unfold unlock in H; rewrite Hpc in H; simplify_eq; keep Hi Hr Hpc; fail).
  destruct (kafka_unlock_own _ _ _ _ _ _ Hi Hr Hpc H) as (-> & ->). by apply kafka_release_lock.
Qed.
Lemma kafka_notify s : inv s → inv (notify_waiters s).
Proof.
  intros Hi. apply (table_fmap (C := C)); try done; cbn;
    try (intros r; unfold wake; destruct (pc r) eqn:Hpc; cbn; rewrite ?Hpc; done).
  intros a r Hok. unfold wake. destruct (pc r) eqn:Hpc; try done. destruct Hok. rewrite Hpc in *. by split.
Qed.
Lemma kafka_gate s g : inv s → inv (set_gate s g).
Proof. done. Qed.
Lemma kafka_request_turn s s' a r turn :
  inv s → requests s !! a = Some r → request_turn metrics_enabled has_result s a r turn = Some s' → inv s'.
Proof.
  intros Hi Hr H. pose proof (kafka_ok _ _ _ Hi Hr) as Hok. pose proof (ro_result _ _ Hok) as Hh.
  destruct turn; cbn in H; try (by eauto using kafka_take_lifetime, kafka_unlock);
    unfold acquire_turn, begin_returns, register, duplicate_returns, pending_add, consume_returns, await, pop_pending,
    pending_remove, decide_result, end_returns, release_turn in H; destruct (pc r) eqn:Hpc; try done;
    repeat case_match; simplify_eq; try (specialize (Hh eq_refl)); try (keep Hi Hr Hpc; fail);
    eauto using kafka_register, kafka_pop.
  - match goal with H : has_result = false |- _ => rename H into Hn end.
    eapply kafka_keep; [exact Hi|exact Hr|fields|fields|fields|fields| |..]; cbn; rewrite ?Hpc; cbn; try done; [|congruence].
    clear Hh. req_tac Hpc. intros b [= <-]. unfold own. by rewrite Hn.
  - apply kafka_notify. keep Hi Hr Hpc.
Qed.
Ltac life_move Hi Hr :=
  eapply kafka_keep; [exact Hi|exact Hr|fields|fields|fields|fields| |..]; cbn; try done.
Lemma kafka_set_callback s s' a r id c :
  inv s → requests s !! a = Some r → set_result_callback s a r id c = Some s' → inv s'.
Proof.
  intros Hi Hr H. destruct (kafka_ok _ _ _ Hi Hr) as [Hwr Hrd Hen Hcb Hrm Hrs]. unfold set_result_callback in H.
  destruct (has_context (pc r)); simplify_eq.
  eapply kafka_keep; [exact Hi|exact Hr|fields|fields|fields|fields| |..]; cbn; try done; [|set_solver].
  split; cbn; try done. intros id' c'. rewrite lookup_insert_Some. intros [[-> ->]|[_ Hg]]; [set_solver|].
  apply elem_of_cons. eauto.
Qed.
Lemma kafka_done s s' a r : inv s → requests s !! a = Some r → result_done s a r = Some s' → inv s'.
Proof.
  intros Hi Hr H. destruct (kafka_ok _ _ _ Hi Hr). unfold result_done in H.
  destruct (has_context (pc r)); simplify_eq. life_move Hi Hr.
Qed.

(** *** Results *)
(** The state after a result's move, as the table sees it. *)
Ltac table := unfold inv, to, set_result, hold, release, set_request, set_requests, count; case metrics_enabled; cbn.
Lemma kafka_release s t x a r :
  inv s → results s !! t = Some x → requests s !! a = Some r → held (s_pc x) = Some a →
  inv (to (release s a t r) t x SDone).
Proof.
  intros Hi Hx Hr Hh. destruct (kafka_ok _ _ _ Hi Hr) as [Hwr Hrd Hen Hcb Hrm Hrs].
  eapply (results_release _ _ _ _ t x a r); try done. split; try done. cbn. intros Hw. rewrite Hrd by done. set_solver.
Qed.
Lemma kafka_hold s t x a r :
  inv s → results s !! t = Some x → requests s !! a = Some r → s_pc x = SLock a → writer (life r) = false →
  inv (to (hold s a t r) t x (SCurrent a)).
Proof.
  intros Hi Hx Hr Hpc Hw. destruct (kafka_ok _ _ _ Hi Hr) as [Hwr Hrd Hen Hcb Hrm Hrs].
  eapply (results_hold _ _ _ _ t x a r); try done. split; try done. cbn. congruence.
Qed.
Lemma kafka_same s s' t x g :
  inv s → results s !! t = Some x → s' = s ∨ (∃ k, s' = count metrics_enabled s (add k 1)) →
  held g = held (s_pc x) → (target g = None ∨ target g = target (s_pc x)) →
  (serves g = true → serves (s_pc x) = true) → (∀ a id c, g ≠ SCallback a id c) → inv (to s' t x g).
Proof. intros Hi Hx [->|(k & ->)] *; table; by apply results_same. Qed.
Lemma kafka_remove s t x a r id :
  inv s → results s !! t = Some x → requests s !! a = Some r → s_pc x = SDelete a id →
  inv (to (set_request s a (with_life r (set_callbacks (life r) (delete id (callbacks (life r))) (registered (life r))))) t x (SRelease a)).
Proof.
  intros Hi Hx Hr Hpc. destruct (kafka_ok _ _ _ Hi Hr) as [Hwr Hrd Hen Hcb Hrm Hrs].
  set (s1 := set_request s a _). assert (Hi1 : inv s1).
  { life_move Hi Hr. split; cbn; try done. intros id' c' [_ Hg]%lookup_delete_Some. by eapply Hcb. }
  apply (kafka_same s1); try done; rewrite ?Hpc; auto.
Qed.
Lemma kafka_result_turn s s' t x id :
  inv s → results s !! t = Some x → result_turn metrics_enabled s t x id = Some s' → inv s'.
Proof.
  intros Hi Hx H. unfold result_turn in H. pose proof (kafka_same s) as Hsame.
  destruct (s_pc x) as [|a|a|a|a mid|a mid c|a mid|a|] eqn:Hpc; try done.
  - destruct (s_sid x) as [id'|] eqn:Hid; [destruct (pending s !! id') as [a|] eqn:Hp|]; simplify_eq;
      [by eapply results_found|apply Hsame; rewrite ?Hpc; eauto; done..].
  - destruct (requests s !! a) as [r|] eqn:Hr; [|done]. cbn in H. case_match; simplify_eq. by apply kafka_hold.
  - injection H as <-. case_decide as Hcur; [by apply results_current|]. apply Hsame; rewrite ?Hpc; eauto; done.
  - injection H as <-. apply Hsame; rewrite ?Hpc; eauto; done.
  - destruct (requests s !! a) as [r|] eqn:Hr; [|done]. injection H as <-.
    destruct (callbacks (life r) !! mid) as [c|] eqn:Hc; [|apply Hsame; rewrite ?Hpc; eauto; done].
    eapply results_callback; try done.
    by eapply (ro_callbacks _ _ (kafka_ok _ _ _ Hi Hr)).
  - destruct (requests s !! a) as [r|] eqn:Hr; [|done]. injection H as <-.
    destruct (callbacks (life r) !! mid); [by eapply kafka_remove|]. apply Hsame; rewrite ?Hpc; eauto; done.
  - destruct (requests s !! a) as [r|] eqn:Hr; [|done]. injection H as <-. apply kafka_release; try done. by rewrite Hpc.
Qed.
Lemma kafka_callback_returns s s' t x fin :
  inv s → results s !! t = Some x → callback_returns s t x fin = Some s' → inv s'.
Proof.
  intros Hi Hx H. unfold callback_returns in H. destruct (s_pc x) as [| | | | |a mid c| | |] eqn:Hpc; simplify_eq.
  apply (kafka_same s); auto; rewrite ?Hpc; by destruct fin; auto.
Qed.
Lemma kafka_drop_result s s' t x : inv s → results s !! t = Some x → drop_result s t x = Some s' → inv s'.
Proof.
  intros Hi Hx H. unfold drop_result in H. destruct (held (s_pc x)) as [a|] eqn:Hh.
  - destruct (requests s !! a) as [r|] eqn:Hr; simplify_eq/=. by apply kafka_release.
  - simplify_eq. apply (kafka_same s); auto; done.
Qed.
Lemma kafka_inv_step s s' : step s s' → inv s → inv s'.
Proof.
  intros [turn H] Hi. destruct turn; cbn in H; simplify_option_eq;
    eauto using kafka_request_turn, kafka_result_turn, kafka_callback_returns, kafka_drop_result, kafka_set_callback, kafka_done,
      kafka_notify.
  - by apply (table_request_arrives (C := C)); [|split; cbn; try done; intros id c; rewrite lookup_empty|..].
  - by apply (table_result_arrives (C := C)).
Qed.
Lemma kafka_inv_reachable s : source_reachable metrics_enabled has_result s → inv s.
Proof.
  intros Hs. refine (rtc_ind_r inv _ _ _ s Hs); [apply table_empty|]. intros x y _ Hxy. by apply kafka_inv_step.
Qed.


(** ** Counting *)
Definition is_active (g : RequestPc) : bool :=
  match g with
  | KRegister | KDuplicate | KAdd | KConsume | KAwait | KRemove _ _ | KPop _ _ | KLock _ _ _ | KDecide _ _ _ | KEnd _ _ => true
  | _ => false
  end.
Definition is_pending (g : RequestPc) : bool :=
  match g with KConsume | KAwait => has_result | KRemove _ _ => true | _ => false end.
(** The request ended, with this result. *)
Definition ended_with (ok : bool) (g : RequestPc) : bool :=
  match g with KUnlock _ h | KRelease (Some h) | KNotify (Some h) | KReturned (Some h) => Bool.eqb ok h | _ => false end.
(** The request has passed the gate. *)
Definition admitted (g : RequestPc) : bool :=
  match g with
  | KStopped | KLimit | KTry _ | KNotified | KWait _ | KNotify _ | KReturned _ => false
  | _ => true
  end.
Definition requests_at (f : RequestPc → bool) s : Z := tally (λ r, f (pc r)) (requests s).
(** How far [f] counts more requests when [r] becomes [r']. *)
Definition shift (f : RequestPc → bool) r r' : Z := (if f (pc r') then 1 else 0) - (if f (pc r) then 1 else 0).
Record counts s : Prop := {
  c_active : active_requests (metrics s) = requests_at is_active s;
  c_pending : pending_requests (metrics s) = requests_at is_pending s;
  c_messages : messages_total (metrics s) = requests_at (ended_with true) s;
  c_errors : request_errors (metrics s) = requests_at (ended_with false) s }.
(** The identifiers of the pending requests. *)
Definition timed s (id : string) : Prop :=
  ∃ b r, requests s !! b = Some r ∧ is_pending (pc r) = true ∧ sid r = id.
(** The counters change as a request that moves from [r] to [r'] asks. *)
Record moved s s' r r' : Prop := {
  m_gate : active (gate s') = active (gate s) + shift admitted r r';
  m_active : metrics_enabled = true → active_requests (metrics s') = active_requests (metrics s) + shift is_active r r';
  m_pending : metrics_enabled = true → pending_requests (metrics s') = pending_requests (metrics s) + shift is_pending r r';
  m_messages :
    metrics_enabled = true → messages_total (metrics s') = messages_total (metrics s) + shift (ended_with true) r r';
  m_errors :
    metrics_enabled = true → request_errors (metrics s') = request_errors (metrics s) + shift (ended_with false) r r' }.
(** A point's flag of the wait does not matter. *)
Definition blind (f : RequestPc → bool) : Prop := f (KWait true) = f (KWait false).
Lemma kafka_requests_move f s s' a r r' :
  requests s !! a = Some r → requests s' = <[a := r']> (requests s) → requests_at f s' = requests_at f s + shift f r r'.
Proof. intros Hr Hq. unfold requests_at, shift. rewrite Hq, (tally_update (λ r, f (pc r)) _ _ r); [lia|done]. Qed.
Lemma wake_pc f r : blind f → f (pc (wake r)) = f (pc r).
Proof. intros Hf. unfold wake. destruct (pc r) as [| | | |[]| | | | | | | | | | | | | | |] eqn:Hpc; cbn; by rewrite ?Hpc. Qed.
Lemma wake_sid r : sid (wake r) = sid r.
Proof. unfold wake. by destruct (pc r). Qed.
Lemma kafka_requests_notify f s : blind f → requests_at f (notify_waiters s) = requests_at f s.
Proof. intros Hf. unfold requests_at. cbn. apply tally_fmap. intros r. by apply wake_pc. Qed.
Lemma timed_notify s id : timed (notify_waiters s) id ↔ timed s id.
Proof.
  unfold timed. cbn. split.
  - intros (b & r & Hr & Hp & <-). rewrite lookup_fmap, fmap_Some in Hr. destruct Hr as (r0 & Hr & ->).
    rewrite wake_pc in Hp by done. exists b, r0. by rewrite wake_sid.
  - intros (b & r & Hr & Hp & <-). exists b, (wake r). rewrite lookup_fmap, Hr, wake_pc, wake_sid by done. done.
Qed.

Ltac moved_tac Hpc :=
  unfold count; destruct metrics_enabled eqn:Hme;
  (eexists; (split; [reflexivity|]); split; unfold shift; cbn; rewrite ?Hpc; cbn; repeat case_match; simplify_eq; intros;
   first [lia|congruence]).
(** A turn of a request moves it, and the last one wakes the waiting ones. *)
Lemma kafka_turn_moved s s' a r turn :
  inv s → requests s !! a = Some r → request_turn metrics_enabled has_result s a r turn = Some s' →
  ∃ s1, (s' = s1 ∨ s' = notify_waiters s1) ∧ ∃ r', requests s1 = <[a := r']> (requests s) ∧ moved s s1 r r'.
Proof.
  intros Hi Hr H. pose proof (ro_result _ _ (kafka_ok _ _ _ Hi Hr)) as Hh.
  destruct turn; cbn in H; unfold acquire_turn, begin_returns, register, duplicate_returns, pending_add,
    consume_returns, await, pop_pending, pending_remove, decide_result, end_returns, release_turn in H;
    destruct (pc r) eqn:Hpc; try done; try (unfold take_lifetime, unlock in H; rewrite Hpc in H; done);
    repeat case_match; simplify_eq; try (specialize (Hh eq_refl));
    try (eexists; (split; [by left|]); moved_tac Hpc; fail).
  - eexists; (split; [by left|]).
    destruct removed as [b|]; [destruct (kafka_take_own _ _ _ _ _ _ _ Hi Hr Hpc H) as (-> & _ & ->); moved_tac Hpc|].
    unfold take_lifetime in H. rewrite Hpc in H. simplify_eq. moved_tac Hpc.
  - eexists; (split; [by left|]).
    destruct removed as [b|]; [destruct (kafka_unlock_own _ _ _ _ _ _ Hi Hr Hpc H) as (-> & ->); moved_tac Hpc|].
    unfold unlock in H. rewrite Hpc in H. simplify_eq. moved_tac Hpc.
  - exists (goto s a r (KReturned e)). split; [by right|]. moved_tac Hpc.
Qed.
Definition is_move (turn : Turn C) : option (nat * RequestTurn) := match turn with TMove a move => Some (a, move) | _ => None end.
(** The other steps leave the points that count, and their counters, alone. *)
Record quiet s s' : Prop := {
  q_requests : ∀ f, f KStopped = false → blind f → requests_at f s' = requests_at f s;
  q_timed : ∀ id, timed s' id ↔ timed s id;
  q_gate : active (gate s') = active (gate s);
  q_active : active_requests (metrics s') = active_requests (metrics s);
  q_pending : pending_requests (metrics s') = pending_requests (metrics s);
  q_times : times (metrics s') = times (metrics s);
  q_messages : messages_total (metrics s') = messages_total (metrics s);
  q_errors : request_errors (metrics s') = request_errors (metrics s) }.
Lemma timed_insert s s' a r r' id :
  requests s !! a = Some r → requests s' = <[a := r']> (requests s) →
  timed s' id ↔ (is_pending (pc r') = true ∧ sid r' = id) ∨
    ∃ b rb, b ≠ a ∧ requests s !! b = Some rb ∧ is_pending (pc rb) = true ∧ sid rb = id.
Proof.
  intros Hr Hq. unfold timed. rewrite Hq. split.
  - intros (b & rb & Hb & Hp & Hs). apply lookup_insert_Some in Hb as [[<- <-]|[Hne Hb]]; [by left|right]. by exists b, rb.
  - intros [[Hp Hs]|(b & rb & Hne & Hb & Hp & Hs)]; [exists a, r'; by rewrite lookup_insert_eq|].
    exists b, rb. by rewrite lookup_insert_ne.
Qed.
Lemma timed_split s a r id :
  requests s !! a = Some r → timed s id ↔ (is_pending (pc r) = true ∧ sid r = id) ∨
    ∃ b rb, b ≠ a ∧ requests s !! b = Some rb ∧ is_pending (pc rb) = true ∧ sid rb = id.
Proof. intros Hr. rewrite (timed_insert s s a r r); [done|done|]. by rewrite insert_id. Qed.
Lemma kafka_quiet_stay s s' a r r' :
  requests s !! a = Some r → requests s' = <[a := r']> (requests s) → pc r' = pc r → sid r' = sid r →
  gate s' = gate s → metrics s' = metrics s → quiet s s'.
Proof.
  intros Hr Hq Hpc Hsid Ht Hm. split; rewrite ?Hm, ?Ht; try done.
  - intros f _ _. rewrite (kafka_requests_move f _ _ _ _ _ Hr Hq). unfold shift. rewrite Hpc. lia.
  - intros id. rewrite (timed_insert _ _ _ _ _ _ Hr Hq), (timed_split _ _ _ _ Hr), Hpc, Hsid. done.
Qed.
Lemma kafka_quiet_same s s' :
  requests s' = requests s → active (gate s') = active (gate s) →
  (metrics s' = metrics s ∨ ∃ k, k ∈ [KMissing; KLate; KUnknown; KDuplicated] ∧ metrics s' = add k 1 (metrics s)) → quiet s s'.
Proof.
  intros Hq Ht Hm. split; [intros f _ _; unfold requests_at; by rewrite Hq|intros id; unfold timed; by rewrite Hq|done|..];
    (destruct Hm as [->|(k & Hk & ->)]; [done|]; rewrite !elem_of_cons, elem_of_nil in Hk;
     destruct Hk as [->|[->|[->|[->|[]]]]]; cbn; repeat case_decide; done || lia).
Qed.
Ltac same := apply kafka_quiet_same; [by unfold count; case metrics_enabled..|];
  unfold count; case metrics_enabled; first [by left|right; eexists; split; [|reflexivity]; by apply (bool_decide_unpack _)].
Ltac stay := eapply kafka_quiet_stay; [eassumption|reflexivity|reflexivity|reflexivity|reflexivity|reflexivity].
Lemma kafka_quiet_result s s' t x id : result_turn metrics_enabled s t x id = Some s' → quiet s s'.
Proof.
  intros H. unfold result_turn in H.
  destruct (s_pc x); simplify_option_eq; repeat case_match; simplify_option_eq; first [same|stay].
Qed.
Lemma kafka_quiet s s' turn :
  inv s → advance metrics_enabled has_result s turn = Some s' → is_move turn = None → quiet s s'.
Proof.
  intros Hi H Hne. destruct turn as [|id|a move|t id|t fin|t|a id c|a|b|]; cbn in H;
    simplify_option_eq; try (same; fail).
  - pose proof (table_fresh_request (C := C) _ _ _ _ Hi) as Hfr. split; try done.
    + intros f Hf _. unfold requests_at. cbn. rewrite tally_insert_new; [cbn; rewrite Hf; lia|done].
    + intros id. unfold timed. cbn. split.
      * intros (b & r & [[<- <-]|[_ Hb]]%lookup_insert_Some & Hp & Hs); [done|by exists b, r].
      * intros (b & r & Hb & Hp & Hs). exists b, r. rewrite lookup_insert_ne by congruence. done.
  - by eapply kafka_quiet_result.
  - unfold callback_returns in *. case_match; simplify_eq. same.
  - unfold drop_result in *. case_match; simplify_option_eq; [stay|same].
  - unfold set_result_callback in *. case_match; simplify_eq. stay.
  - unfold result_done in *. case_match; simplify_eq. stay.
  - split; try done; [by intros; apply kafka_requests_notify|intros id; apply timed_notify].
Qed.
(** What a step does to a counter that follows the points [f]. *)
Lemma kafka_requests_turn f s s1 s' a r r' :
  blind f → requests s !! a = Some r → requests s1 = <[a := r']> (requests s) → (s' = s1 ∨ s' = notify_waiters s1) →
  requests_at f s' = requests_at f s + shift f r r'.
Proof.
  intros Hf Hr Hq Hs. rewrite <-(kafka_requests_move f s s1 a r r' Hr Hq).
  destruct Hs as [->| ->]; [done|by apply kafka_requests_notify].
Qed.
Lemma kafka_counts_step s s' : metrics_enabled = true → step s s' → inv s → counts s → counts s'.
Proof.
  intros He [turn H] Hi [H1 H2 H3 H4]. destruct (is_move turn) as [[a move]|] eqn:Hm.
  - destruct turn; try done. injection Hm as -> ->. cbn in H. destruct (requests s !! a) as [r|] eqn:Hr; [|done].
    destruct (kafka_turn_moved _ _ _ _ _ Hi Hr H) as (s1 & Hs1 & r' & Hq & []).
    assert (Hmm : metrics s' = metrics s1) by (by destruct Hs1 as [->| ->]).
    split; rewrite Hmm, ?m_active0, ?m_pending0, ?m_messages0, ?m_errors0 by done;
      (erewrite kafka_requests_turn; [|done|exact Hr|exact Hq|exact Hs1]); lia.
  - destruct (kafka_quiet _ _ _ Hi H Hm) as []. split; (rewrite q_requests0; [congruence|done|done]).
Qed.
Lemma kafka_gate_step s s' : step s s' → inv s → active (gate s) = requests_at admitted s → active (gate s') = requests_at admitted s'.
Proof.
  intros [turn H] Hi Ht. destruct (is_move turn) as [[a move]|] eqn:Hm.
  - destruct turn; try done. injection Hm as -> ->. cbn in H. destruct (requests s !! a) as [r|] eqn:Hr; [|done].
    destruct (kafka_turn_moved _ _ _ _ _ Hi Hr H) as (s1 & Hs1 & r' & Hq & []).
    assert (Hg : gate s' = gate s1) by (by destruct Hs1 as [->| ->]).
    rewrite Hg, m_gate0. erewrite kafka_requests_turn; [|done|exact Hr|exact Hq|exact Hs1]. lia.
  - destruct (kafka_quiet _ _ _ Hi H Hm) as []. rewrite q_requests0; [congruence|done|done].
Qed.
Lemma kafka_counts_reachable s :
  source_reachable metrics_enabled has_result s →
  active (gate s) = requests_at admitted s ∧ (metrics_enabled = true → counts s).
Proof.
  intros Hs. refine (rtc_ind_r (λ s, active (gate s) = requests_at admitted s ∧ (metrics_enabled = true → counts s)) _ _ _ s Hs).
  - done.
  - intros x y Hx%kafka_inv_reachable Hxy [Ht Hc]. split; [by eapply kafka_gate_step|].
    intros He. eapply kafka_counts_step; eauto.
Qed.

(** ** Start times *)
Inductive retimed (l l' : gset string) r r' : Prop :=
| rt_same : l' = l → is_pending (pc r') = is_pending (pc r) → (is_pending (pc r) = true → sid r' = sid r) → retimed l l' r r'
| rt_add : l' = {[sid r']} ∪ l → is_pending (pc r) = false → is_pending (pc r') = true → retimed l l' r r'
| rt_remove : l' = l ∖ {[sid r]} → is_pending (pc r) = true → is_pending (pc r') = false → retimed l l' r r'.
Ltac retime Hpc :=
  eexists; (split; [reflexivity|]);
  first [apply rt_same; cbn; rewrite ?Hpc; cbn; solve [done|congruence]
        |apply rt_add; cbn; rewrite ?Hpc; cbn; solve [done|congruence]
        |apply rt_remove; cbn; rewrite ?Hpc; cbn; solve [done|congruence]].
Lemma kafka_turn_times s s' a r turn :
  metrics_enabled = true → inv s → requests s !! a = Some r → request_turn metrics_enabled has_result s a r turn = Some s' →
  ∃ s1, (s' = s1 ∨ s' = notify_waiters s1) ∧ ∃ r', requests s1 = <[a := r']> (requests s) ∧
    retimed (times (metrics s)) (times (metrics s1)) r r'.
Proof.
  intros He Hi Hr H. pose proof (ro_result _ _ (kafka_ok _ _ _ Hi Hr)) as Hh.
  destruct turn; cbn in H; unfold acquire_turn, begin_returns, register, duplicate_returns, pending_add,
    consume_returns, await, pop_pending, pending_remove, decide_result, end_returns, release_turn, count in H;
    rewrite ?He in H; destruct (pc r) eqn:Hpc; try done; try (unfold take_lifetime, unlock in H; rewrite Hpc in H; done);
    repeat case_match; try done; repeat match goal with H : Some _ = Some _ |- _ => injection H as <- end;
    try (specialize (Hh eq_refl)); try (eexists; (split; [by left|]); retime Hpc; fail).
  - eexists; (split; [by left|]).
    destruct removed as [b|]; [destruct (kafka_take_own _ _ _ _ _ _ _ Hi Hr Hpc H) as (-> & _ & ->); retime Hpc|].
    unfold take_lifetime in H. rewrite Hpc in H. injection H as <-. retime Hpc.
  - eexists; (split; [by left|]).
    destruct removed as [b|]; [destruct (kafka_unlock_own _ _ _ _ _ _ Hi Hr Hpc H) as (-> & ->); retime Hpc|].
    unfold unlock in H. rewrite Hpc in H. injection H as <-. retime Hpc.
  - exists (goto s a r (KReturned e)). split; [by right|]. retime Hpc.
Qed.
Lemma pending_reserved g : is_pending g = true → reserved g = true.
Proof. by destruct g. Qed.
Lemma kafka_times_step s s' :
  metrics_enabled = true → step s s' → inv s → (∀ id, id ∈ times (metrics s) ↔ timed s id) →
  ∀ id, id ∈ times (metrics s') ↔ timed s' id.
Proof.
  intros He [turn H] Hi Ht id. destruct (is_move turn) as [[a move]|] eqn:Hm.
  - destruct turn; try done. injection Hm as -> ->. cbn in H. destruct (requests s !! a) as [r|] eqn:Hr; [|done].
    destruct (kafka_turn_times _ _ _ _ _ He Hi Hr H) as (s1 & Hs1 & r' & Hq & Hrt).
    assert (times (metrics s') = times (metrics s1) ∧ (timed s' id ↔ timed s1 id)) as [-> ->].
    { destruct Hs1 as [->| ->]; [done|]. split; [done|apply timed_notify]. }
    rewrite (timed_insert _ _ _ _ _ _ Hr Hq). pose proof (Ht id) as Hid. rewrite (timed_split _ _ _ _ Hr) in Hid.
    destruct Hrt as [-> Hp Hsid| -> Hp Hp'| -> Hp Hp'].
    + rewrite Hid, Hp. split; intros [[Hpe Hse]|?]; auto; left; (split; [done|]); rewrite Hsid in * by done; done.
    + rewrite elem_of_union, elem_of_singleton, Hid, Hp, Hp'. split; [intros [->|[[? _]|?]]; auto; done|].
      intros [[_ <-]|?]; auto.
    + rewrite elem_of_difference, elem_of_singleton, Hid, Hp'. split.
      * intros [[[_ Hse]|?] Hne]; [by rewrite Hse in Hne|auto].
      * intros [[? _]|(b & rb & Hne & Hb & Hpb & <-)]; [done|]. split; [right; by exists b, rb|]. intros Hse.
        pose proof (table_reserved (C := C) _ _ _ _ _ _ Hi Hb (pending_reserved _ Hpb)) as Hpd.
        pose proof (table_reserved (C := C) _ _ _ _ _ _ Hi Hr (pending_reserved _ Hp)) as Hpd'. cbn in *. congruence.
  - destruct (kafka_quiet _ _ _ Hi H Hm) as []. by rewrite q_times0, q_timed0.
Qed.
Lemma kafka_times_reachable s :
  metrics_enabled = true → source_reachable metrics_enabled has_result s → ∀ id, id ∈ times (metrics s) ↔ timed s id.
Proof.
  intros He Hs. refine (rtc_ind_r (λ s, ∀ id, id ∈ times (metrics s) ↔ timed s id) _ _ _ s Hs).
  - intros id. cbn. split; [set_solver|]. intros (b & r & Hb & _). cbn in Hb. by rewrite lookup_empty in Hb.
  - intros x y Hx%kafka_inv_reachable Hxy Ht. by eapply kafka_times_step.
Qed.

(** ** The limit *)
Context (limit : Z).
Definition limited (turn : Turn C) : Prop := ∀ a l, turn = TMove a (TAcquire l) → l = limit.
Definition limited_step s s' : Prop := ∃ turn, limited turn ∧ advance metrics_enabled has_result s turn = Some s'.
(** What a request read of the gate allowed it to try. *)
Definition try_ok s : Prop := ∀ a r n, requests s !! a = Some r → pc r = KTry n → n < limit.
Lemma try_ok_insert s s' a r' :
  try_ok s → requests s' = <[a := r']> (requests s) → (∀ n, pc r' = KTry n → n < limit) → try_ok s'.
Proof. intros Ht Hq Hr b rb n. rewrite Hq, lookup_insert_Some. intros [[_ <-]|[_ Hb]]; [apply Hr|by eapply Ht]. Qed.
Lemma try_ok_notify s : try_ok s → try_ok (notify_waiters s).
Proof.
  intros Ht b rb n. cbn. rewrite lookup_fmap, fmap_Some. intros (r & Hr & ->) Hpc. eapply Ht; [exact Hr|].
  unfold wake in Hpc. by destruct (pc r) eqn:Hp; cbn in Hpc; rewrite ?Hp in Hpc.
Qed.
(** Only [acquire_concurrency] takes a place. *)
Lemma kafka_other_turn s s' a r turn :
  inv s → requests s !! a = Some r → request_turn metrics_enabled has_result s a r turn = Some s' →
  (∀ l, turn ≠ TAcquire l) →
  ∃ s1, (s' = s1 ∨ s' = notify_waiters s1) ∧ active (gate s1) ≤ active (gate s) ∧
    ∃ r', requests s1 = <[a := r']> (requests s) ∧ ∀ n, pc r' ≠ KTry n.
Proof.
  intros Hi Hr H Hne. destruct turn as [l| | | | | | | | | | | | |]; cbn in H; [by destruct (Hne l)|..];
    unfold begin_returns, register, duplicate_returns, pending_add, consume_returns, await, pop_pending, pending_remove,
    decide_result, end_returns, release_turn, count in H; destruct (pc r) eqn:Hpc; try done;
    try (unfold take_lifetime, unlock in H; rewrite Hpc in H; done); repeat case_match; simplify_eq;
    try (eexists; (split; [by left|]); (split; [cbn; lia|]); eexists; by split; [reflexivity|cbn]).
  - eexists; (split; [by left|]).
    destruct removed as [b|]; [destruct (kafka_take_own _ _ _ _ _ _ _ Hi Hr Hpc H) as (-> & _ & ->)|
      unfold take_lifetime in H; rewrite Hpc in H; simplify_eq]; (split; [cbn; lia|]); eexists; by split; [reflexivity|cbn].
  - eexists; (split; [by left|]).
    destruct removed as [b|]; [destruct (kafka_unlock_own _ _ _ _ _ _ Hi Hr Hpc H) as (-> & ->)|
      unfold unlock in H; rewrite Hpc in H; simplify_eq]; (split; [cbn; lia|]); eexists; by split; [reflexivity|cbn].
  - exists (goto s a r (KReturned e)). split; [by right|]. split; [cbn; lia|]. eexists. by split; [reflexivity|cbn].
Qed.
Lemma kafka_acquire_limit s s' a r :
  0 < limit → try_ok s → active (gate s) ≤ limit → requests s !! a = Some r → acquire_turn s a r limit = Some s' →
  try_ok s' ∧ active (gate s') ≤ limit.
Proof.
  intros Hl Ht Hle Hr H. unfold acquire_turn in H.
  destruct (pc r) as [| |n| |[]| | | | | | | | | | | | | | |] eqn:Hpc; simplify_eq.
  - split; [|done]. eapply try_ok_insert; [done|reflexivity|]. intros n. cbn. by case_match.
  - split; [|done]. eapply try_ok_insert; [done|reflexivity|]. intros n. cbn. case_match eqn:Hb; [|done].
    intros [= <-]. rewrite bool_decide_false in Hb by lia. cbn in Hb. lia.
  - case_decide as Hn; simplify_eq; (split; [eapply try_ok_insert; [exact Ht|reflexivity|done]|]); cbn; [|done].
    specialize (Ht _ _ _ Hr Hpc). lia.
  - split; [|done]. by eapply try_ok_insert; [|reflexivity|].
  - split; [|done]. by eapply try_ok_insert; [|reflexivity|].
Qed.
Lemma kafka_quiet_try s s' turn :
  try_ok s → advance metrics_enabled has_result s turn = Some s' → is_move turn = None → try_ok s'.
Proof.
  intros Ht H Hm. assert (Hsame : requests s' = requests s → try_ok s') by (unfold try_ok; by intros ->).
  assert (Hstay : ∀ a r r', requests s !! a = Some r → requests s' = <[a := r']> (requests s) → pc r' = pc r → try_ok s').
  { intros a r r' Hr Hq Hpc. eapply try_ok_insert; [done|exact Hq|]. intros n. rewrite Hpc. by eapply Ht. }
  destruct turn; try done; cbn in H;
    unfold result_turn, callback_returns, drop_result, set_result_callback, result_done, count in H;
    simplify_option_eq; repeat case_match; simplify_option_eq; repeat case_match; simplify_option_eq;
    first [by apply Hsame|by eapply Hstay; [eassumption|reflexivity|]|by apply try_ok_notify|idtac].
  by eapply try_ok_insert; [|reflexivity|].
Qed.
Lemma kafka_limit_step s s' :
  0 < limit → limited_step s s' → inv s → try_ok s → active (gate s) ≤ limit → try_ok s' ∧ active (gate s') ≤ limit.
Proof.
  intros Hl (turn & Hlim & H) Hi Ht Hle. destruct (is_move turn) as [[a move]|] eqn:Hm.
  - destruct turn; try done. injection Hm as -> ->. cbn in H. destruct (requests s !! a) as [r|] eqn:Hr; [|done].
    assert ((∃ l, move = TAcquire l) ∨ ∀ l, move ≠ TAcquire l) as [(l & ->)|Hne] by (destruct move; eauto).
    + rewrite (Hlim a l eq_refl) in H. by eapply kafka_acquire_limit.
    + destruct (kafka_other_turn _ _ _ _ _ Hi Hr H Hne) as (s1 & Hs1 & Hac & r' & Hq & Hn).
      assert (try_ok s1) by (eapply try_ok_insert; [done|exact Hq|]; intros n Hp; by destruct (Hn n)).
      destruct Hs1 as [->| ->]; (split; [by try apply try_ok_notify|]); cbn; lia.
  - split; [by eapply kafka_quiet_try|]. destruct (kafka_quiet _ _ _ Hi H Hm) as []. lia.
Qed.
End invariants.

(** * Properties *)
Section properties.
Context {C : Type} (metrics_enabled has_result : bool).
Implicit Types (s : Source C) (r : Request C).

(** C19: a Kafka result callback runs only for the request that has the
    result's stream identifier, among those its handler registered under that
    message identifier, and never once [end_request] has been called. *)
Theorem kafka_callback_before_end s t id a message_id c :
  source_reachable metrics_enabled has_result s → results s !! t = Some (MkResult id (SCallback a message_id c)) →
  ∃ r, requests s !! a = Some r ∧ id = Some (sid r) ∧ ends r = 0%nat ∧ (message_id, c) ∈ registered (life r).
Proof.
  intros Hi%kafka_inv_reachable Hx. destruct (results_target _ _ _ _ _ _ a Hi Hx eq_refl) as (r & Hr & [Hs Hc]).
  destruct (Hs eq_refl) as [Hid Hop]. exists r. split_and!; [done|done| |by apply Hc].
  rewrite (ro_ends _ _ _ (kafka_ok _ _ _ _ Hi Hr)). cbn in Hop. by destruct (pc r).
Qed.

(** every Kafka message that [begin_request] accepted calls
    [end_request] exactly once, also one whose identifier is taken, one whose
    handler failed and one whose context ended; when it returns its stream
    identifier is free and it holds no place in the gate; a message that was
    refused never calls it. *)
Theorem kafka_end_request_once s a r :
  source_reachable metrics_enabled has_result s → requests s !! a = Some r →
  (ends r ≤ 1)%nat ∧ (pc r = KReturned None → ends r = 0%nat) ∧
  (∀ ok, pc r = KReturned (Some ok) → ends r = 1%nat ∧ ∀ id, pending s !! id ≠ Some a) ∧
  active (gate s) = requests_at admitted s.
Proof.
  intros Hs Hr. destruct (kafka_counts_reachable _ _ _ Hs) as [Hg _]. apply kafka_inv_reachable in Hs as Hi.
  destruct (kafka_ok _ _ _ _ Hi Hr) as [_ _ He _ _ _]. split_and!; [|..|done].
  - rewrite He. destruct (ended (pc r)); lia.
  - intros Hpc. by rewrite He, Hpc.
  - intros ok Hpc. rewrite He, Hpc in *. split; [done|].
    intros id (r' & ? & _ & Hrv)%(i_pending _ _ _ _ Hi). simplify_eq/=. by rewrite Hpc in Hrv.
Qed.

(** with metrics enabled the Kafka source's gauges and counters agree
    with its requests at every step, and the start times are those of the
    pending requests, no more and no fewer. *)
Theorem kafka_metrics_agree s :
  metrics_enabled = true → source_reachable metrics_enabled has_result s →
  active_requests (metrics s) = requests_at is_active s ∧ pending_requests (metrics s) = requests_at (is_pending has_result) s ∧
  messages_total (metrics s) = requests_at (ended_with true) s ∧ request_errors (metrics s) = requests_at (ended_with false) s ∧
  ∀ id, id ∈ times (metrics s) ↔ timed has_result s id.
Proof.
  intros He Hs. destruct (kafka_counts_reachable _ _ _ Hs) as [_ Hc]. destruct (Hc He). split_and!; try done.
  by apply kafka_times_reachable with metrics_enabled.
Qed.

(** C20: while the handler asks for a concurrency of [limit], at most
    [limit] messages are between the gate and the end of their request, under
    every interleaving of the compare-and-swap loop. *)
Theorem kafka_concurrency_bounded limit s :
  0 < limit → rtc (limited_step (C := C) metrics_enabled has_result limit) source_new s →
  requests_at admitted s ≤ limit ∧ active (gate s) = requests_at admitted s.
Proof.
  intros Hl Hs. assert (source_reachable metrics_enabled has_result s ∧ try_ok limit s ∧ active (gate s) ≤ limit) as (Hr & _ & Hle).
  { refine (rtc_ind_r (λ s, source_reachable metrics_enabled has_result s ∧ try_ok limit s ∧ active (gate s) ≤ limit) _ _ _ s Hs).
    - split_and!; [apply rtc_refl| |cbn; lia]. intros a r n Ha. cbn in Ha. by rewrite lookup_empty in Ha.
    - intros x y _ Hxy (Hx & Ht & Hle). split; [|].
      + destruct Hxy as (turn & _ & H). eapply rtc_r; [exact Hx|by exists turn].
      + eapply kafka_limit_step; try done. by apply kafka_inv_reachable in Hx. }
  destruct (kafka_counts_reachable _ _ _ Hr) as [Hg _]. split; [lia|done].
Qed.
End properties.

(** ** Schedules *)
Fixpoint run {C} (metrics_enabled has_result : bool) (s : Source C) (turns : list (Turn C)) : option (Source C) :=
  match turns with
  | [] => Some s
  | turn :: turns => s' ← advance metrics_enabled has_result s turn; run metrics_enabled has_result s' turns
  end.
Definition reached (turns : list (Turn nat)) : Source nat := default source_new (run true true source_new turns).
Lemma kafka_run_limited limit turns :
  Forall (limited limit) turns → rtc (limited_step true true limit) source_new (reached turns).
Proof.
  intros Hf. unfold reached. assert (∀ s s', rtc (limited_step true true limit) source_new s → run true true s turns = Some s' →
    rtc (limited_step true true limit) source_new s') as H.
  { induction Hf as [|turn turns Ht _ IH]; intros s s' Hs Hr; cbn in Hr; simplify_option_eq; [done|].
    eapply IH; [|exact Hr]. eapply rtc_r; [exact Hs|by exists turn]. }
  destruct (run _ _ _ turns) eqn:Hr; [|apply rtc_refl]. eapply H; [apply rtc_refl|exact Hr].
Qed.
Lemma kafka_run_reachable limit turns : Forall (limited limit) turns → source_reachable true true (reached turns).
Proof.
  intros Hf%kafka_run_limited. revert Hf. apply (rtc_congruence (λ s, s)). intros x y (turn & _ & H). by exists turn.
Qed.
Ltac limits := repeat constructor; intros ? ? [= ]; subst; reflexivity.
Definition request_of (s : Source nat) (a : nat) : Request nat :=
  default (MkRequest "" KStopped 0 pending_new) (requests s !! a).
(** Through the gate, with a limit of 1. *)
Definition enter (a : nat) : list (Turn nat) := TMove a <$> [TAcquire 1; TAcquire 1; TAcquire 1].
(** A message up to the wait for its result, with a callback under "m". *)
Definition awaiting : list (Turn nat) :=
  [TRequest] ++ enter 0 ++ (TMove 0 <$> [TBegin (Some (Some "s")) ""; TRegister; TAdd]) ++
  [TSetCallback 0 "m" 7%nat; TMove 0 (TConsume true)].
(** Its result runs the callback while the message's context ends. *)
Definition served : list (Turn nat) :=
  awaiting ++ [TResult (Some "s")] ++ replicate 5 (TResultStep 1 "m") ++ (TMove 0 <$> [TAwait true; TRemove; TPop]).
Lemma served_limited : Forall (limited 1) served.
Proof. limits. Qed.
Lemma kafka_callback_before_end_witness :
  let s := reached served in
  advance true true s (TMove 0 TLock) = None ∧
  ∃ r, requests s !! 0%nat = Some r ∧ Some "s" = Some (sid r) ∧ ends r = 0%nat ∧ ("m", 7%nat) ∈ registered (life r).
Proof.
  cbv zeta. split; [by vm_compute|].
  apply (kafka_callback_before_end true true (reached served) 1 (Some "s") 0 "m" 7%nat);
    [apply (kafka_run_reachable 1), served_limited|by vm_compute].
Defined.
(** The message ends; a second one waits at the gate meanwhile. *)
Definition over : list (Turn nat) :=
  served ++ [TDone 0; TCallback 1 true; TResultStep 1 ""; TResultStep 1 ""] ++
  (TMove 0 <$> [TLock; TDecide; TEnd; TUnlock; TRelease; TRelease]).
Lemma over_limited : Forall (limited 1) over.
Proof. limits. Qed.
Lemma kafka_end_request_once_witness :
  pc (request_of (reached over) 0) = KReturned (Some true) ∧ ends (request_of (reached over) 0) = 1%nat ∧
  active (gate (reached over)) = 0.
Proof.
  assert (Hr : requests (reached over) !! 0%nat = Some (request_of (reached over) 0)) by by vm_compute.
  assert (Hpc : pc (request_of (reached over) 0) = KReturned (Some true)) by by vm_compute.
  destruct (kafka_end_request_once true true _ 0 _ (kafka_run_reachable 1 _ over_limited) Hr) as (_ & _ & H & Hg).
  split; [exact Hpc|]. split; [apply (H _ Hpc)|]. rewrite Hg. by vm_compute.
Defined.
(** A message waits for its result, another for the gate. *)
Definition full : list (Turn nat) := awaiting ++ [TRequest] ++ (TMove 1 <$> [TAcquire 1; TAcquire 1; TAcquire 1]).
Lemma full_limited : Forall (limited 1) full.
Proof. limits. Qed.
Lemma kafka_metrics_agree_witness :
  times (metrics (reached full)) = {["s"]} ∧ timed true (reached full) "s" ∧
  pending_requests (metrics (reached full)) = requests_at (is_pending true) (reached full).
Proof.
  destruct (kafka_metrics_agree true true _ eq_refl (kafka_run_reachable 1 _ full_limited)) as (_ & Hp & _ & _ & Ht).
  split; [by vm_compute|]. split; [|exact Hp]. apply Ht. apply (bool_decide_unpack _). by vm_compute.
Defined.
Lemma kafka_concurrency_bounded_witness :
  pc (request_of (reached full) 1) = KWait false ∧ requests_at admitted (reached full) ≤ 1.
Proof.
  split; [by vm_compute|]. apply (kafka_concurrency_bounded true true 1); [lia|apply kafka_run_limited, full_limited].
Defined.

(** A wakeup can be lost: [notified] is called after the gate was read, so a
    message that found the gate full sleeps on although the place was released
    and the source was stopped, both with [notify_waiters], in between; then
    nothing that is under way wakes it. *)
Definition asleep : list (Turn nat) :=
  [TRequest] ++ enter 0 ++ [TRequest] ++ (TMove 1 <$> [TAcquire 1; TAcquire 1]) ++
  (TMove 0 <$> [TBegin None ""; TRelease; TRelease]) ++ [TStopped true; TNotifyAll; TMove 1 (TAcquire 1)].
Theorem wakeup_lost :
  source_reachable true true (reached asleep) ∧ active (gate (reached asleep)) = 0 ∧ stopped (gate (reached asleep)) = true ∧
  pc (request_of (reached asleep) 1) = KWait false ∧ (∀ a turn, advance true true (reached asleep) (TMove a turn) = None).
Proof.
  split; [apply (kafka_run_reachable 1); limits|]. split; [by vm_compute|]. split; [by vm_compute|]. split; [by vm_compute|].
  intros a turn. assert (Hq : requests (reached asleep) =
    {[0%nat := MkRequest "" (KReturned None) 0 pending_new; 1%nat := MkRequest "" (KWait false) 0 pending_new]}) by by vm_compute.
  unfold advance. rewrite Hq. destruct a as [|[|a]]; [by destruct turn as [| []| | | | | | | | | | | |]..|].
  rewrite lookup_insert_ne, lookup_singleton_ne by lia. done.
Qed.
