(* ===== verification/PendingQueue.v ===== *)
(** The wait queue of the task pools, [PendingQueue] of
    [src/src/runtime/pool/queuedpool.rs].

    The FIFO queue is a doubly linked list whose links are task identifiers in
    a hash map; the priority queue is an ordered tree with an index from
    identifiers to keys.  Every [unwrap] of the source is a panic branch here.
    Both refine plain lists: [FifoSpec] appends and promotes to the front,
    [PrioritySpec] inserts in key order and re-inserts at [i32::MIN]. *)

From S2P Require Import Prelude.
Local Open Scope Z_scope.

(** [HashMap::get_mut(&key).unwrap()] followed by an update in place. *)
Definition get_mut_unwrap {E V} (m : gmap Z V) (key : Z) (f : V → V) : outcome E (gmap Z V) :=
  match m !! key with Some v => Ok (<[key := f v]> m) | None => Panic end.

(** [Option::unwrap]. *)
Definition unwrap {E A} (o : option A) : outcome E A :=
  match o with Some a => Ok a | None => Panic end.

(** ** Ordered trees with [(i32, u64)] keys *)
Notation Key := (Z * Z)%type.
Definition key_ltb (a b : Key) : bool :=
  bool_decide (a.1 < b.1 ∨ (a.1 = b.1 ∧ a.2 < b.2)).

(** [BTreeMap::first_key_value]. *)
Definition btree_first {V} (m : gmap Key V) : option (Key * V) :=
  foldr (λ kv acc,
    match acc with
    | Some kv' => if key_ltb kv'.1 kv.1 then Some kv' else Some kv
    | None => Some kv
    end) None (map_to_list m).

Section pending_queue.
Context {Entry : Type}.
Notation qresult := (outcome Empty_set).

Record FifoEntry := MkFifoEntry {
  entry : Entry;
  previous : option Z;
  next : option Z }.

Inductive PendingQueue :=
| Fifo (entries : gmap Z FifoEntry) (head tail : option Z)
| Priority (entries : gmap Key Entry) (positions : gmap Z Key).

Definition set_next (n : option Z) (e : FifoEntry) := MkFifoEntry (entry e) (previous e) n.
Definition set_previous (p : option Z) (e : FifoEntry) := MkFifoEntry (entry e) p (next e).

Definition new (priority : bool) : PendingQueue :=
  if priority then Priority ∅ ∅ else Fifo ∅ None None.

Definition len (q : PendingQueue) : Z :=
  match q with
  | Fifo entries _ _ => Z.of_nat (size entries)
  | Priority entries _ => Z.of_nat (size entries)
  end.

Definition is_empty (q : PendingQueue) : bool := bool_decide (len q = 0).

Definition push (q : PendingQueue) (id priority : Z) (e : Entry) : qresult PendingQueue :=
  match q with
  | Priority entries positions =>
      let key := (priority, id) in
      Ok (Priority (<[key := e]> entries) (<[id := key]> positions))
  | Fifo entries head tail =>
      '(entries, head) ←
        match tail with
        | Some previous =>
            entries ← get_mut_unwrap entries previous (set_next (Some id));
            Ok (entries, head)
        | None => Ok (entries, Some id)
        end;
      Ok (Fifo (<[id := MkFifoEntry e tail None]> entries) head (Some id))
  end.

Definition pop (q : PendingQueue) : qresult (option (Z * Entry) * PendingQueue) :=
  match q with
  | Priority entries positions =>
      match btree_first entries with
      | None => Ok (None, q)
      | Some ((p, id), e) =>
          Ok (Some (id, e), Priority (delete (p, id) entries) (delete id positions))
      end
  | Fifo entries head tail =>
      match head with
      | None => Ok (None, q)
      | Some id =>
          node ← unwrap (entries !! id);
          let entries := delete id entries in
          let head := next node in
          match next node with
          | Some next =>
              entries ← get_mut_unwrap entries next (set_previous None);
              Ok (Some (id, entry node), Fifo entries head tail)
          | None => Ok (Some (id, entry node), Fifo entries head None)
          end
      end
  end.

Definition promote (q : PendingQueue) (id : Z) : qresult (bool * PendingQueue) :=
  match q with
  | Priority entries positions =>
      match positions !! id with
      | None => Ok (false, q)
      | Some key =>
          e ← unwrap (entries !! key);
          let key' := (i32_min, key.2) in
          Ok (true, Priority (<[key' := e]> (delete key entries)) (<[id := key']> positions))
      end
  | Fifo entries head tail =>
      if decide (head = Some id) then Ok (false, q)
      else
        match entries !! id with
        | None => Ok (false, q)
        | Some node =>
            previous ← unwrap (previous node);
            entries ← get_mut_unwrap entries previous (set_next (next node));
            '(entries, tail) ←
              match next node with
              | Some next =>
                  entries ← get_mut_unwrap entries next (set_previous (Some previous));
                  Ok (entries, tail)
              | None => Ok (entries, Some previous)
              end;
            first ← unwrap head;
            entries ← get_mut_unwrap entries first (set_previous (Some id));
            entries ← get_mut_unwrap entries id (λ n, set_next head (set_previous None n));
            Ok (true, Fifo entries (Some id) tail)
        end
  end.

(** ** The queue as an object

    The actor numbers the tasks: [OpPush] takes the next identifier. *)
Inductive QueueOp :=
| OpPush (priority : Z) (e : Entry)
| OpPop
| OpPromote (id : Z)
| OpLen.
Inductive QueueOut :=
| OutPushed (id : Z)
| OutPopped (r : option (Z * Entry))
| OutPromoted (b : bool)
| OutLen (n : Z)
| OutPanic.

Definition queue_step (op : QueueOp) (s : PendingQueue * Z) : QueueOut * (PendingQueue * Z) :=
  let '(q, next_id) := s in
  match op with
  | OpPush p e =>
      match push q next_id p e with
      | Ok q => (OutPushed next_id, (q, next_id + 1))
      | _ => (OutPanic, s)
      end
  | OpPop =>
      match pop q with Ok (r, q) => (OutPopped r, (q, next_id)) | _ => (OutPanic, s) end
  | OpPromote id =>
      match promote q id with Ok (b, q) => (OutPromoted b, (q, next_id)) | _ => (OutPanic, s) end
  | OpLen => (OutLen (len q), s)
  end.

(** *** The FIFO specification: a list of identified tasks *)
Definition take_id (id : Z) (l : list (Z * Entry)) : option (Entry * list (Z * Entry)) :=
  '(i, p) ← list_find (λ p, p.1 = id) l;
  Some (p.2, delete i l).

Definition fifo_promote (id : Z) (l : list (Z * Entry)) : bool * list (Z * Entry) :=
  match l with
  | [] => (false, l)
  | (hd, _) :: _ =>
      if decide (hd = id) then (false, l)
      else match take_id id l with
           | Some (e, l') => (true, (id, e) :: l')
           | None => (false, l)
           end
  end.

Definition fifo_spec (op : QueueOp) (s : list (Z * Entry) * Z) :
    QueueOut * (list (Z * Entry) * Z) :=
  let '(l, next_id) := s in
  match op with
  | OpPush _ e => (OutPushed next_id, (l ++ [(next_id, e)], next_id + 1))
  | OpPop =>
      match l with
      | [] => (OutPopped None, s)
      | p :: l => (OutPopped (Some p), (l, next_id))
      end
  | OpPromote id => let '(b, l) := fifo_promote id l in (OutPromoted b, (l, next_id))
  | OpLen => (OutLen (Z.of_nat (length l)), s)
  end.

(** *** The priority specification: a list sorted by (priority, identifier) *)
Fixpoint key_insert (k : Key) (e : Entry) (l : list (Key * Entry)) : list (Key * Entry) :=
  match l with
  | [] => [(k, e)]
  | p :: l' => if key_ltb k p.1 then (k, e) :: l else p :: key_insert k e l'
  end.

Definition priority_promote (id : Z) (l : list (Key * Entry)) : bool * list (Key * Entry) :=
  match list_find (λ p, p.1.2 = id) l with
  | Some (i, p) => (true, key_insert (i32_min, id) p.2 (delete i l))
  | None => (false, l)
  end.

Definition priority_spec (op : QueueOp) (s : list (Key * Entry) * Z) :
    QueueOut * (list (Key * Entry) * Z) :=
  let '(l, next_id) := s in
  match op with
  | OpPush p e => (OutPushed next_id, (key_insert (p, next_id) e l, next_id + 1))
  | OpPop =>
      match l with
      | [] => (OutPopped None, s)
      | (k, e) :: l => (OutPopped (Some (k.2, e)), (l, next_id))
      end
  | OpPromote id => let '(b, l) := priority_promote id l in (OutPromoted b, (l, next_id))
  | OpLen => (OutLen (Z.of_nat (length l)), s)
  end.
End pending_queue.
Arguments FifoEntry Entry : clear implicits.
Arguments PendingQueue Entry : clear implicits.
Arguments QueueOp Entry : clear implicits.
Arguments QueueOut Entry : clear implicits.

(** * The linked list *)
Section fifo.
Context {Entry : Type}.
Implicit Types (l : list (Z * Entry)) (p n : option Z) (id : Z) (e : Entry).

Definition first_id l n : option Z := match l with [] => n | (id, _) :: _ => Some id end.
Fixpoint last_id p l : option Z :=
  match l with [] => p | (id, _) :: l => last_id (Some id) l end.

(** The nodes of a list segment between the neighbours [p] and [n]. *)
Fixpoint seg p l n : gmap Z (FifoEntry Entry) :=
  match l with
  | [] => ∅
  | (id, e) :: l => <[id := MkFifoEntry e p (first_id l n)]> (seg (Some id) l n)
  end.

Lemma seg_lookup_None p l n id : id ∉ l.*1 → seg p l n !! id = None.
Proof.
  revert p; induction l as [|[id' e] l IH]; intros p; cbn; [done|].
  rewrite not_elem_of_cons. intros [? ?]. rewrite lookup_insert_ne by done. auto.
Qed.
Lemma seg_lookup_Some p l n id : id ∈ l.*1 → is_Some (seg p l n !! id).
Proof.
  revert p; induction l as [|[id' e] l IH]; intros p; cbn; [by rewrite elem_of_nil|].
  destruct (decide (id = id')) as [->|]; [by rewrite lookup_insert_eq; eauto|].
  rewrite lookup_insert_ne by done. intros [?|?]%elem_of_cons; [done|auto].
Qed.
Lemma seg_app p l1 l2 n :
  seg p (l1 ++ l2) n = seg p l1 (first_id l2 n) ∪ seg (last_id p l1) l2 n.
Proof.
  revert p; induction l1 as [|[id e] l1 IH]; intros p; cbn.
  - by rewrite (left_id_L ∅ (∪)).
  - rewrite IH, insert_union_l. f_equal. f_equal. f_equal. by destruct l1 as [|[]].
Qed.
Lemma last_id_app p l1 l2 : last_id p (l1 ++ l2) = last_id (last_id p l1) l2.
Proof. revert p; induction l1 as [|[] l1 IH]; intros p; cbn; auto. Qed.
Lemma first_id_app l1 l2 n : first_id (l1 ++ l2) n = first_id l1 (first_id l2 n).
Proof. by destruct l1 as [|[]]. Qed.

Lemma size_seg p l n : NoDup l.*1 → size (seg p l n) = length l.
Proof.
  revert p; induction l as [|[id e] l IH]; intros p; cbn; [by rewrite map_size_empty|].
  intros [? ?]%NoDup_cons. rewrite map_size_insert_None by by apply seg_lookup_None.
  by rewrite IH.
Qed.

(** Updates of the links at the ends of a segment. *)
Lemma seg_set_previous p p' id e l n :
  <[id := MkFifoEntry e p' (first_id l n)]> (seg p ((id, e) :: l) n) = seg p' ((id, e) :: l) n.
Proof. cbn. by rewrite insert_insert_eq. Qed.
Lemma seg_set_next p l id e n n' :
  id ∉ l.*1 → <[id := MkFifoEntry e (last_id p l) n']> (seg p (l ++ [(id, e)]) n)
    = seg p (l ++ [(id, e)]) n'.
Proof.
  intros Hid. rewrite !seg_app; cbn.
  rewrite insert_union_r by by apply seg_lookup_None. by rewrite insert_insert_eq.
Qed.

(** The node in the middle, taken out of the map. *)
Lemma seg_mid p l1 id e l2 n :
  id ∉ l1.*1 →
  seg p (l1 ++ (id, e) :: l2) n
    = <[id := MkFifoEntry e (last_id p l1) (first_id l2 n)]>
        (seg p l1 (Some id) ∪ seg (Some id) l2 n).
Proof.
  intros. rewrite seg_app; cbn. by rewrite insert_union_r by by apply seg_lookup_None.
Qed.

Lemma get_mut_seg_first p p' id e l n m :
  get_mut_unwrap (E := Empty_set) (seg p ((id, e) :: l) n ∪ m) id (set_previous p')
    = Ok (seg p' ((id, e) :: l) n ∪ m).
Proof.
  unfold get_mut_unwrap. cbn. rewrite <-insert_union_l, lookup_insert_eq.
  unfold set_previous; cbn. by rewrite insert_insert_eq, insert_union_l.
Qed.
Lemma get_mut_seg_last p l id e n n' m :
  id ∉ l.*1 →
  get_mut_unwrap (E := Empty_set) (seg p (l ++ [(id, e)]) n ∪ m) id (set_next n')
    = Ok (seg p (l ++ [(id, e)]) n' ∪ m).
Proof.
  intros Hid. unfold get_mut_unwrap.
  assert (seg p (l ++ [(id, e)]) n !! id = Some (MkFifoEntry e (last_id p l) n)) as Hl.
  { rewrite seg_mid by done. by rewrite lookup_insert_eq. }
  rewrite (lookup_union_Some_l _ _ _ _ Hl). unfold set_next; cbn.
  by rewrite <-(seg_set_next p l id e n n'), insert_union_l.
Qed.
Lemma get_mut_insert_ne {V} (m : gmap Z V) id x k f m' :
  id ≠ k → get_mut_unwrap (E := Empty_set) m k f = Ok m' →
  get_mut_unwrap (E := Empty_set) (<[id := x]> m) k f = Ok (<[id := x]> m').
Proof.
  intros Hne. unfold get_mut_unwrap. rewrite lookup_insert_ne by done.
  destruct (m !! k); [|done]. intros <-%(inj Ok). by rewrite insert_insert_ne.
Qed.
Lemma get_mut_union_r {V} (m1 m2 : gmap Z V) k f m' :
  m1 !! k = None → get_mut_unwrap (E := Empty_set) m2 k f = Ok m' →
  get_mut_unwrap (E := Empty_set) (m1 ∪ m2) k f = Ok (m1 ∪ m').
Proof.
  intros Hne. unfold get_mut_unwrap. rewrite lookup_union_r by done.
  destruct (m2 !! k); [|done]. intros <-%(inj Ok). by rewrite insert_union_r.
Qed.

(** ** Representation *)
Definition fifo_queue l : PendingQueue Entry := Fifo (seg None l None) (first_id l None) (last_id None l).

Lemma fifo_push l id prio e :
  id ∉ l.*1 → NoDup l.*1 → push (fifo_queue l) id prio e = Ok (fifo_queue (l ++ [(id, e)])).
Proof.
  intros Hid Hnd. unfold fifo_queue, push.
  rewrite last_id_app, first_id_app; cbn [last_id first_id].
  destruct l as [|[id' e'] l _] using rev_ind; [cbn; by rewrite insert_empty|].
  rewrite last_id_app; cbn [last_id]. rewrite fmap_app, NoDup_app in Hnd.
  assert (id' ∉ l.*1) by (destruct Hnd as (_ & Hd & _); set_solver).
  pose proof (get_mut_seg_last None l id' e' None (Some id) ∅) as Hg.
  rewrite !(right_id_L ∅ (∪)) in Hg. rewrite Hg by done. cbn [mbind outcome_bind].
  rewrite (seg_mid None (l ++ [(id', e')])) by done. cbn [seg].
  rewrite (right_id_L ∅ (∪)), last_id_app. cbn. do 2 f_equal. by destruct l as [|[]].
Qed.

Lemma fifo_pop id e l :
  NoDup (id :: l.*1) → pop (fifo_queue ((id, e) :: l)) = Ok (Some (id, e), fifo_queue l).
Proof.
  intros [Hid Hnd]%NoDup_cons. unfold fifo_queue, pop. cbn [first_id seg last_id].
  rewrite lookup_insert_eq. cbn [unwrap mbind outcome_bind next].
  rewrite delete_insert_id by by apply seg_lookup_None.
  destruct l as [|[id' e'] l]; [done|]. cbn [first_id].
  pose proof (get_mut_seg_first (Some id) None id' e' l None ∅) as Hg.
  rewrite !(right_id_L ∅ (∪)) in Hg. by rewrite Hg.
Qed.

(** Unlinking: the neighbours of a node are joined. *)
Lemma fifo_unlink l1 pid pe id e l2 :
  NoDup (l1 ++ (pid, pe) :: (id, e) :: l2).*1 →
  (entries ← get_mut_unwrap (E := Empty_set) (seg None (l1 ++ (pid, pe) :: (id, e) :: l2) None)
               pid (set_next (first_id l2 None));
   match first_id l2 None with
   | Some next =>
       entries ← get_mut_unwrap entries next (set_previous (Some pid));
       Ok (entries, last_id None (l1 ++ (pid, pe) :: (id, e) :: l2))
   | None => Ok (entries, Some pid)
   end)
  = Ok (<[id := MkFifoEntry e (Some pid) (first_id l2 None)]>
          (seg None (l1 ++ (pid, pe) :: l2) None), last_id None (l1 ++ (pid, pe) :: l2)).
Proof.
  intros Hnd. change (l1 ++ (pid, pe) :: (id, e) :: l2) with (l1 ++ [(pid, pe)] ++ (id, e) :: l2) in *.
  change (l1 ++ (pid, pe) :: l2) with (l1 ++ [(pid, pe)] ++ l2).
  rewrite !fmap_app in Hnd; cbn in Hnd.
  apply NoDup_app in Hnd as (_ & Hd & Hnd). apply NoDup_cons in Hnd as [Hpid Hnd].
  apply NoDup_cons in Hnd as [Hid Hnd].
  assert (pid ∉ l1.*1 ∧ id ∉ l1.*1 ∧ id ≠ pid) as (? & ? & ?) by set_solver.
  rewrite app_assoc, seg_mid by (rewrite fmap_app; set_solver).
  rewrite last_id_app; cbn [last_id].
  erewrite get_mut_insert_ne; [|done|by apply get_mut_seg_last]. cbn [mbind outcome_bind].
  rewrite (app_assoc l1 _ l2), (seg_app _ (l1 ++ [(pid, pe)]) l2), !last_id_app. cbn [last_id].
  destruct l2 as [|[nid ne] l2]; [by rewrite ?(right_id_L ∅ (∪))|]. cbn [first_id].
  assert (nid ∉ (l1 ++ [(pid, pe)]).*1) by (rewrite fmap_app; set_solver).
  pose proof (get_mut_seg_first (Some id) (Some pid) nid ne l2 None ∅) as Hg.
  rewrite !(right_id_L ∅ (∪)) in Hg.
  erewrite get_mut_insert_ne; [|set_solver|apply get_mut_union_r; [by apply seg_lookup_None|exact Hg]].
  done.
Qed.

Lemma fifo_promote_mid l1 pid pe id e l2 :
  NoDup (l1 ++ (pid, pe) :: (id, e) :: l2).*1 →
  promote (fifo_queue (l1 ++ (pid, pe) :: (id, e) :: l2)) id
    = Ok (true, fifo_queue ((id, e) :: l1 ++ (pid, pe) :: l2)).
Proof.
  intros Hnd. pose proof (fifo_unlink _ _ _ _ _ _ Hnd) as Hun.
  rewrite fmap_app in Hnd; cbn in Hnd. apply NoDup_app in Hnd as (_ & Hd & Hnd).
  assert (id ∉ (l1 ++ [(pid, pe)]).*1 ∧ id ∉ l2.*1) as [Hid1 Hid2].
  { rewrite fmap_app, !NoDup_cons in *. set_solver. }
  destruct (l1 ++ (pid, pe) :: l2) as [|[hid he] rest] eqn:Hrest; [by destruct l1|].
  assert (id ≠ hid) as Hne by (destruct l1 as [|[]]; cbn in *; simplify_eq; set_solver).
  assert (first_id (l1 ++ (pid, pe) :: (id, e) :: l2) None = Some hid) as Hhd
    by (destruct l1 as [|[]]; by simplify_eq/=).
  unfold promote, fifo_queue. rewrite Hhd, decide_False by congruence.
  assert (seg None (l1 ++ (pid, pe) :: (id, e) :: l2) None !! id
    = Some (MkFifoEntry e (Some pid) (first_id l2 None))) as ->.
  { change (l1 ++ (pid, pe) :: (id, e) :: l2) with (l1 ++ [(pid, pe)] ++ (id, e) :: l2).
    rewrite app_assoc, seg_mid, last_id_app by done. by rewrite lookup_insert_eq. }
  cbn [previous next unwrap]. cbn [mbind outcome_bind]. rewrite bind_bind, Hun.
  cbn [mbind outcome_bind].
  pose proof (get_mut_seg_first None (Some id) hid he rest None ∅) as Hg.
  rewrite !(right_id_L ∅ (∪)) in Hg.
  rewrite (get_mut_insert_ne _ id _ hid _ _ Hne Hg). cbn [mbind outcome_bind].
  unfold get_mut_unwrap. rewrite lookup_insert_eq. cbn [mbind outcome_bind].
  by rewrite insert_insert_eq.
Qed.
End fifo.

Section fifo_refinement.
Context {Entry : Type}.
Implicit Types l : list (Z * Entry).

Definition fifo_rep (c : PendingQueue Entry * Z) (a : list (Z * Entry) * Z) : Prop :=
  c = (fifo_queue a.1, a.2) ∧ NoDup a.1.*1 ∧ ∀ id, id ∈ a.1.*1 → id < a.2.

Lemma take_id_spec id l :
  match take_id id l with
  | Some (e, l') => ∃ l1 l2, l = l1 ++ (id, e) :: l2 ∧ l' = l1 ++ l2
  | None => id ∉ l.*1
  end.
Proof.
  unfold take_id. destruct (list_find _ l) as [[i [id' e]]|] eqn:Hf; cbn.
  - apply list_find_Some in Hf as (Hl & Hid & _). cbn in Hid; subst id'.
    exists (take i l), (drop (S i) l). rewrite delete_take_drop.
    split; [symmetry; by apply take_drop_middle|done].
  - apply list_find_None in Hf. rewrite Forall_forall in Hf.
    intros (p & -> & Hp)%list_elem_of_fmap. by eapply Hf.
Qed.

Lemma fifo_promote_refines id l :
  NoDup l.*1 →
  promote (fifo_queue l) id = Ok ((fifo_promote id l).1, fifo_queue (fifo_promote id l).2)
  ∧ (fifo_promote id l).2 ≡ₚ l.
Proof.
  intros Hnd. unfold fifo_promote. destruct l as [|[hd he] l]; [done|].
  case_decide as Hhd; [subst; unfold promote, fifo_queue; by rewrite decide_True|].
  pose proof (take_id_spec id ((hd, he) :: l)) as Ht.
  destruct (take_id id _) as [[e l']|]; cbn [fst snd].
  - destruct Ht as (l1 & l2 & Hl & ->). rewrite Hl in *.
    destruct l1 as [|[pid pe] l1 _] using rev_ind; [by simplify_eq/=|].
    rewrite <-!app_assoc in *; cbn [app] in *. split; [by apply fifo_promote_mid|].
    change ((pid, pe) :: (id, e) :: l2) with ([(pid, pe)] ++ (id, e) :: l2).
    change ((pid, pe) :: l2) with ([(pid, pe)] ++ l2).
    rewrite !app_assoc. apply Permutation_middle.
  - split; [|done]. unfold promote, fifo_queue.
    rewrite decide_False by (cbn; congruence). by rewrite seg_lookup_None.
Qed.

#[export] Instance fifo_refines : Refines queue_step fifo_spec (fifo_rep).
Proof.
  intros op [q nid] [l nid'] (Heq & Hnd & Hlt); cbn in *. simplify_eq.
  assert (nid' ∉ l.*1) by (intros ?%Hlt; lia).
  destruct op as [prio e| |id|]; cbn [queue_step fifo_spec].
  - rewrite fifo_push by done. split; [done|]. split; [done|]. cbn.
    rewrite fmap_app, NoDup_app; cbn. split.
    + split_and!; [done|set_solver|apply NoDup_singleton].
    + intros id [?%Hlt|?%list_elem_of_singleton]%elem_of_app; lia.
  - destruct l as [|[id e] l]; [done|]. rewrite fifo_pop by done.
    split; [done|]. split; [done|]. cbn in *. apply NoDup_cons in Hnd. set_solver.
  - destruct (fifo_promote_refines id l Hnd) as [-> Hp].
    destruct (fifo_promote id l) as [b l']; cbn in *. split; [done|]. split; [done|]; cbn.
    rewrite Hp. split; [done|]. intros id'. rewrite Hp. apply Hlt.
  - cbn. rewrite size_seg by done. done.
Qed.
End fifo_refinement.

(** * The priority queue *)
Section priority.
Context {Entry : Type}.
Implicit Types (l : list (Key * Entry)) (k : Key).

Definition key_lt (a b : Key) : Prop := a.1 < b.1 ∨ (a.1 = b.1 ∧ a.2 < b.2).
Lemma key_ltb_spec a b : key_ltb a b = true ↔ key_lt a b.
Proof. unfold key_ltb. by rewrite bool_decide_eq_true. Qed.
Lemma key_ltb_false a b : key_ltb a b = false ↔ a = b ∨ key_lt b a.
Proof.
  unfold key_ltb, key_lt. rewrite bool_decide_eq_false. destruct a, b; cbn.
  split; [|intros [[= -> ->]|?]; lia]. intros Hn.
  destruct (decide (z = z1 ∧ z0 = z2)) as [[-> ->]|]; [by left|right; lia].
Qed.
Lemma key_lt_trans a b c : key_lt a b → key_lt b c → key_lt a c.
Proof. unfold key_lt; lia. Qed.
Lemma key_lt_irrefl a : ~ key_lt a a.
Proof. unfold key_lt; lia. Qed.

Notation sorted l := (StronglySorted key_lt l.*1).

Lemma btree_fold_elem (ps : list (Key * Entry)) q :
  foldr (λ kv acc, match acc with
    | Some kv' => if key_ltb kv'.1 kv.1 then Some kv' else Some kv
    | None => Some kv end) None ps = Some q → q ∈ ps.
Proof.
  revert q; induction ps as [|p ps IH]; cbn; intros q; [done|].
  repeat case_match; intros [= <-]; rewrite elem_of_cons; auto.
Qed.

Lemma btree_first_list (m : gmap Key Entry) k e :
  m !! k = Some e → (∀ k' e', m !! k' = Some e' → k' = k ∨ key_lt k k') →
  btree_first m = Some (k, e).
Proof.
  intros Hk Hmin. unfold btree_first.
  assert ((k, e) ∈ map_to_list m) as Hin by by apply elem_of_map_to_list.
  assert (∀ p, p ∈ map_to_list m → p = (k, e) ∨ key_lt k p.1) as Hall.
  { intros [k' e'] Hp%elem_of_map_to_list. destruct (Hmin _ _ Hp) as [->|]; [left; congruence|auto]. }
  clear Hk Hmin. induction (map_to_list m) as [|p ps IH]; [by apply elem_of_nil in Hin|].
  cbn. apply elem_of_cons in Hin as [<-|Hin].
  - destruct (foldr _ _ _) as [q|] eqn:Hq; [|done]. apply btree_fold_elem in Hq.
    destruct (key_ltb q.1 (k, e).1) eqn:Hlt; [|done]. apply key_ltb_spec in Hlt; cbn in Hlt.
    destruct (Hall q) as [->|Hkq]; [by right|done|].
    destruct (key_lt_irrefl k). by eapply key_lt_trans.
  - rewrite IH by (done || set_solver). cbn. destruct (key_ltb k p.1) eqn:Hlt; [done|].
    apply key_ltb_false in Hlt. destruct (Hall p) as [->|Hkp]; [by left|done|].
    destruct (key_lt_irrefl k). destruct Hlt as [->|?]; [done|by eapply key_lt_trans].
Qed.

(** A sorted list read as a tree: its head is the first entry. *)
Lemma sorted_NoDup l : sorted l → NoDup l.*1.
Proof.
  induction l as [|p l IH]; cbn; [constructor|]. intros [Hs Hf]%StronglySorted_inv.
  constructor; [|auto]. intros Hin. rewrite Forall_forall in Hf.
  by apply (key_lt_irrefl p.1), Hf.
Qed.
Lemma btree_first_sorted k e l :
  sorted ((k, e) :: l) → btree_first (list_to_map ((k, e) :: l)) = Some (k, e).
Proof.
  intros Hs. apply btree_first_list; [by rewrite list_to_map_cons, lookup_insert_eq|].
  intros k' e' Hl%elem_of_list_to_map_2. apply elem_of_cons in Hl as [[= -> ->]|Hl]; [by left|].
  right. apply StronglySorted_inv in Hs as [_ Hf]. rewrite Forall_forall in Hf.
  apply Hf, list_elem_of_fmap. by exists (k', e').
Qed.
Lemma key_insert_perm k e l : key_insert k e l ≡ₚ (k, e) :: l.
Proof.
  induction l as [|p l IH]; cbn; [done|]. case_match; [done|].
  rewrite IH. apply Permutation_swap.
Qed.
Lemma key_insert_sorted k e l : k ∉ l.*1 → sorted l → sorted (key_insert k e l).
Proof.
  induction l as [|p l IH]; cbn; intros Hk Hs; [repeat constructor|].
  pose proof Hs as [Hs' Hf]%StronglySorted_inv.
  destruct (key_ltb k p.1) eqn:Hlt; cbn.
  - apply key_ltb_spec in Hlt. constructor; [done|]. constructor; [done|].
    eapply Forall_impl; [exact Hf|]. intros k'. by apply key_lt_trans.
  - apply key_ltb_false in Hlt as [->|Hlt]; [set_solver|].
    constructor; [apply IH; set_solver|]. rewrite key_insert_perm; cbn. by constructor.
Qed.

(** ** Representation *)
Notation ids l := ((λ p : Key * Entry, p.1.2) <$> l).
Definition position_list l : list (Z * Key) := (λ p, (p.1.2, p.1)) <$> l.
Definition priority_queue l : PendingQueue Entry :=
  Priority (list_to_map l) (list_to_map (position_list l)).

Definition priority_rep (c : PendingQueue Entry * Z) (a : list (Key * Entry) * Z) : Prop :=
  c = (priority_queue a.1, a.2) ∧ sorted a.1 ∧ NoDup (ids a.1) ∧ ∀ id, id ∈ ids a.1 → id < a.2.

Lemma position_keys l : (position_list l).*1 = ids l.
Proof. unfold position_list. rewrite <-list_fmap_compose. by apply list_fmap_ext. Qed.
Lemma ids_keys l k : k.2 ∉ ids l → k ∉ l.*1.
Proof. intros Hk (p & -> & Hp)%list_elem_of_fmap. apply Hk, list_elem_of_fmap. eauto. Qed.

Lemma priority_queue_perm l l' :
  NoDup l.*1 → NoDup (ids l) → l ≡ₚ l' → priority_queue l = priority_queue l'.
Proof.
  intros Hk Hi Hp. unfold priority_queue. f_equal; apply list_to_map_proper; try done.
  - by rewrite position_keys. - unfold position_list. by rewrite Hp.
Qed.
Lemma priority_queue_insert k e l :
  k.2 ∉ ids l → sorted l → NoDup (ids l) →
  priority_queue (key_insert k e l)
    = Priority (<[k := e]> (list_to_map l)) (<[k.2 := k]> (list_to_map (position_list l))).
Proof.
  intros Hk Hs Hi. rewrite (priority_queue_perm _ ((k, e) :: l)); [done| | |apply key_insert_perm].
  - apply sorted_NoDup, key_insert_sorted; [by apply ids_keys|done].
  - rewrite key_insert_perm; cbn. by constructor.
Qed.

Lemma priority_pop k e l :
  sorted ((k, e) :: l) → NoDup (ids ((k, e) :: l)) →
  pop (priority_queue ((k, e) :: l)) = Ok (Some (k.2, e), priority_queue l).
Proof.
  intros Hs Hi. pose proof (sorted_NoDup _ Hs) as [Hk _]%NoDup_cons.
  apply NoDup_cons in Hi as [Hid _]. unfold pop, priority_queue.
  rewrite btree_first_sorted by done. destruct k as [p id]. cbn.
  rewrite !delete_insert_id; [done| |];
    apply not_elem_of_list_to_map_1; [by rewrite position_keys|done].
Qed.

Lemma sorted_middle l1 p l2 : sorted (l1 ++ p :: l2) → sorted (l1 ++ l2).
Proof.
  induction l1 as [|q l1 IH]; cbn; intros [Hs Hf]%StronglySorted_inv; [done|].
  constructor; [auto|]. rewrite fmap_app in *. rewrite Forall_app in *; cbn in *.
  destruct Hf as [? [_ ?]%Forall_cons]. by split.
Qed.

Lemma priority_promote_refines id l :
  sorted l → NoDup (ids l) →
  promote (priority_queue l) id
    = Ok ((priority_promote id l).1, priority_queue (priority_promote id l).2)
  ∧ sorted (priority_promote id l).2 ∧ ids (priority_promote id l).2 ≡ₚ ids l.
Proof.
  intros Hs Hi. unfold priority_promote.
  destruct (list_find _ l) as [[i [k e]]|] eqn:Hf; cbn [fst snd].
  - apply list_find_Some in Hf as (Hl & Hid & _). cbn in Hid. rewrite delete_take_drop.
    assert (Hp : l ≡ₚ (k, e) :: take i l ++ drop (S i) l).
    { rewrite <-(take_drop_middle l i (k, e) Hl) at 1. by rewrite Permutation_middle. }
    assert (Hs' : sorted (take i l ++ drop (S i) l)).
    { apply (sorted_middle _ (k, e)). by rewrite take_drop_middle. }
    pose proof (sorted_NoDup _ Hs) as Hk.
    rewrite (priority_queue_perm l _ Hk Hi Hp). rewrite Hp in Hk, Hi.
    set (rest := take i l ++ drop (S i) l) in *. clearbody rest. cbn in Hk, Hi |- *.
    apply NoDup_cons in Hk as [Hk _], Hi as [Hik Hi]. rewrite Hid in *.
    rewrite lookup_insert_eq. cbn [mbind outcome_bind]. rewrite lookup_insert_eq. cbn.
    rewrite delete_insert_id, insert_insert_eq by (by apply not_elem_of_list_to_map_1).
    rewrite Hid, priority_queue_insert by done. split_and!; [done| |].
    + apply key_insert_sorted; [by apply ids_keys|done].
    + rewrite Hp, key_insert_perm; cbn. by rewrite Hid.
  - split_and!; [|done..]. unfold promote, priority_queue.
    rewrite not_elem_of_list_to_map_1; [done|]. rewrite position_keys.
    apply list_find_None in Hf. rewrite Forall_forall in Hf.
    intros (p & -> & Hp)%list_elem_of_fmap. by eapply Hf.
Qed.

Lemma priority_promote_items id l :
  (λ p, (p.1.2, p.2)) <$> l ≡ₚ (λ p, (p.1.2, p.2)) <$> (priority_promote id l).2.
Proof.
  unfold priority_promote. destruct (list_find _ l) as [[i [k e]]|] eqn:Hf; cbn; [|done].
  apply list_find_Some in Hf as (Hl & Hid & _). cbn in Hid.
  rewrite key_insert_perm, delete_take_drop; cbn.
  rewrite <-(take_drop_middle l i (k, e) Hl) at 1. rewrite <-Permutation_middle; cbn. by rewrite Hid.
Qed.

#[export] Instance priority_refines : Refines queue_step priority_spec priority_rep.
Proof.
  intros op [q nid] [l nid'] (Heq & Hs & Hi & Hlt); cbn in *. simplify_eq.
  assert (nid' ∉ ids l) by (intros ?%Hlt; lia).
  destruct op as [prio e| |id|]; cbn [queue_step priority_spec].
  - split; [done|]. split; cbn; [f_equal; symmetry; by apply (priority_queue_insert (prio, nid'))|].
    split_and!; [apply key_insert_sorted; [by apply ids_keys|done]| |].
    + rewrite key_insert_perm; cbn. by constructor.
    + intros id. rewrite key_insert_perm; cbn. intros [-> | ?%Hlt]%elem_of_cons; lia.
  - destruct l as [|[k e] l]; [done|]. rewrite priority_pop by done.
    split; [done|]. split; [done|]. cbn in *.
    apply StronglySorted_inv in Hs as [? _]. apply NoDup_cons in Hi as [_ ?].
    split_and!; [done..|]. intros id ?. apply Hlt. by right.
  - destruct (priority_promote_refines id l Hs Hi) as (-> & Hs' & Hp).
    destruct (priority_promote id l) as [b l']; cbn in *. split; [done|]. split; [done|]; cbn.
    split; [done|]. rewrite Hp. split; [done|]. intros id'. rewrite Hp. apply Hlt.
  - cbn. rewrite map_size_list_to_map by by apply sorted_NoDup. done.
Qed.
End priority.

(** * What the queue promises to the pool

    For the actor a queue is a bag of identified tasks: [holds q n ts] says
    that [q] holds the tasks [ts], all numbered below [n]. *)
Section bag.
Context {Entry : Type}.
Implicit Types (q : PendingQueue Entry) (ts : list (Z * Entry)).

Definition holds q (n : Z) ts : Prop :=
  (∃ l, fifo_rep (q, n) (l, n) ∧ ts ≡ₚ l) ∨
  (∃ l, priority_rep (q, n) (l, n) ∧ ts ≡ₚ ((λ p, (p.1.2, p.2)) <$> l)).

Lemma holds_new b : holds (new b) 0 [].
Proof.
  destruct b; [right|left]; exists []; (split; [|done]); (split; [done|]); cbn.
  - split_and!; [constructor..|set_solver]. - split; [constructor|set_solver].
Qed.
#[export] Instance holds_proper q n : Proper ((≡ₚ) ==> iff) (holds q n).
Proof. intros ts ts' Hts. unfold holds. by setoid_rewrite Hts. Qed.

Lemma holds_len q n ts : holds q n ts → len q = Z.of_nat (length ts).
Proof.
  intros [(l & Hr & ->)|(l & Hr & ->)].
  - destruct (fifo_refines OpLen _ _ Hr) as [[= Ho] _]. done.
  - destruct (priority_refines OpLen _ _ Hr) as [[= Ho] _]. by rewrite length_fmap.
Qed.
Lemma holds_is_empty q n ts : holds q n ts → is_empty q = true ↔ ts = [].
Proof.
  intros Hh. unfold is_empty. rewrite bool_decide_eq_true, (holds_len _ _ _ Hh).
  destruct ts; cbn; split; (done || lia).
Qed.
Lemma holds_push q n ts p e :
  holds q n ts → ∃ q', push q n p e = Ok q' ∧ holds q' (n + 1) ((n, e) :: ts).
Proof.
  intros [(l & Hr & Hp)|(l & Hr & Hp)].
  - destruct (fifo_refines (OpPush p e) _ _ Hr) as [Ho Hr'].
    cbn in Ho, Hr'. destruct (push q n p e) as [q'| |]; [|done..]. exists q'. split; [done|].
    left. eexists; split; [exact Hr'|]. by rewrite Hp, Permutation_cons_append.
  - destruct (priority_refines (OpPush p e) _ _ Hr) as [Ho Hr'].
    cbn in Ho, Hr'. destruct (push q n p e) as [q'| |]; [|done..]. exists q'. split; [done|].
    right. eexists; split; [exact Hr'|]. by rewrite Hp, key_insert_perm.
Qed.
Lemma holds_pop q n ts :
  holds q n ts → ts ≠ [] →
  ∃ id e q' ts', pop q = Ok (Some (id, e), q') ∧ holds q' n ts' ∧ ts ≡ₚ (id, e) :: ts'.
Proof.
  intros [(l & Hr & Hp)|(l & Hr & Hp)] Hne.
  - destruct (fifo_refines OpPop _ _ Hr) as [Ho Hr']. cbn in Ho, Hr'.
    destruct l as [|[id e] l]; [by apply Permutation_nil_r in Hp|].
    destruct (pop q) as [[r q']| |]; simplify_eq/=.
    exists id, e, q', l. split_and!; [done|left; by eexists|done].
  - destruct (priority_refines OpPop _ _ Hr) as [Ho Hr']. cbn in Ho, Hr'.
    destruct l as [|[k e] l]; [by apply Permutation_nil_r in Hp|].
    destruct (pop q) as [[r q']| |]; simplify_eq/=.
    eexists k.2, e, q', _. split_and!; [done|right; by eexists|done].
Qed.
Lemma holds_promote q n ts id :
  holds q n ts → ∃ b q', promote q id = Ok (b, q') ∧ holds q' n ts.
Proof.
  intros [(l & Hr & Hp)|(l & Hr & Hp)].
  - pose proof Hr as ([= ->] & Hnd & _). cbn in Hnd.
    destruct (fifo_promote_refines id l Hnd) as [He Hperm].
    destruct (fifo_refines (OpPromote id) _ _ Hr) as [_ Hr'].
    cbn [queue_step fifo_spec] in Hr'. rewrite He in Hr' |- *.
    eexists _, _. split; [done|]. destruct (fifo_promote id l) as [b l']; cbn in *.
    left. exists l'. split; [done|]. by rewrite Hp, Hperm.
  - pose proof Hr as ([= ->] & Hs & Hnd & _). cbn in Hs, Hnd.
    destruct (priority_promote_refines id l Hs Hnd) as (He & _ & _).
    destruct (priority_refines (OpPromote id) _ _ Hr) as [_ Hr'].
    cbn [queue_step priority_spec] in Hr'. rewrite He in Hr' |- *.
    eexists _, _. split; [done|]. pose proof (priority_promote_items id l) as Hi.
    destruct (priority_promote id l) as [b l']; cbn in *.
    right. exists l'. split; [done|]. by rewrite Hp, Hi.
Qed.
End bag.

(** * Properties *)

(** C10: the FIFO wait queue, a doubly linked list threaded through a hash
    map, behaves as a list under every sequence of operations: tasks leave in
    arrival order, promotion moves one task to the front and reports whether
    it moved, and no [unwrap] of the link surgery ever panics. *)
Theorem fifo_queue_is_list {Entry} (ops : list (QueueOp Entry)) :
  (run_ops queue_step (new false, 0) ops).1 = (run_ops fifo_spec ([], 0) ops).1.
Proof. apply (run_refines _ _ fifo_rep). split; [done|]. split; [constructor|set_solver]. Qed.

(** C9: the priority wait queue, an ordered tree with an identifier index,
    behaves as a list sorted by (priority, arrival): the smallest key leaves
    first, promotion re-inserts a task at [i32::MIN], and the index and the
    tree never disagree (no [unwrap] panics). *)
Theorem priority_queue_is_sorted_list {Entry} (ops : list (QueueOp Entry)) :
  (run_ops queue_step (new true, 0) ops).1 = (run_ops priority_spec ([], 0) ops).1.
Proof.
  apply (run_refines _ _ priority_rep). split; [done|]. cbn. split_and!; [constructor..|set_solver].
Qed.
