(* ===== verification/QueuedPool.v ===== *)
(** The task pool actor, [QueuedPool] of [src/src/runtime/pool/queuedpool.rs].

    [Actor] holds the local variables of [run]; [iterate] is one turn of its
    loop: the selected event, the scheduling code after it and the exit test.
    [Pool] is the actor with its command channel and its executor tasks;
    [pool_step] is the interleaving of clients, actor, executors and context
    cancellations.  Every interleaving of the clients' check-then-send
    sequences is covered, since [Send] is possible in every state.

    Identifiers ([next_id], [next_worker]) are unbounded, gauges and counters
    are effects, durations are not observed.  A panicking task ends the process
    ([run_task]) and is not a step of the pool. *)

From S2P Require Import Prelude Errors PendingQueue.
Local Open Scope Z_scope.

Section queued_pool.
Context {Task : Type}.

(** A queued task with the handle that aborts its cancellation watcher: the
    identifier the watcher was registered under. *)
Record Entry := MkEntry { task : Task; cancellation : Z }.

(** [reply] names the one-shot channel of the caller. *)
Inductive Command :=
| Add (priority : Z) (t : Task) (reply : Z)
| Start (count : Z)
| Resize (count : Z)
| Stop
| Ready (id : Z).

Inductive Effect :=
| Reply (reply : Z) (r : RuntimeResult unit)
| SpawnWorker (id : Z)
| CloseWorker (id : Z)
| SendTask (id : Z) (t : Task)
| MetricRejected | MetricCancelled
| MetricQueueLength (n : Z) | MetricTarget (n : Z).

(** The local variables of [run].  [cancellations] are the watchers that
    neither fired nor were aborted, [workers] the members of the [JoinSet]. *)
Record Actor := MkActor {
  queue : PendingQueue Entry;
  cancellations : gset Z;
  workers : gset Z;
  executors : gset Z;
  idle : list Z;
  next_worker : Z;
  busy : Z;
  retiring : bool;
  next_id : Z;
  target : Z;
  started : bool;
  stopped : bool;
  receiving : bool }.

(** What [tokio::select!] delivers.  [cancelled] is the answer of
    [context.is_cancelled()] when an [Add] is handled. *)
Inductive Event :=
| EvCancelled (id : Z)
| EvCommand (c : Command) (cancelled : bool)
| EvClosed
| EvJoined (id : Z).

Notation aresult := (outcome Empty_set).
Context (name : string) (has_metrics : bool).
Definition metric (e : Effect) : list Effect := if has_metrics then [e] else [].

Definition actor_init (priority : bool) (executors : Z) : Actor :=
  MkActor (new priority) ∅ ∅ ∅ [] 0 0 false 0 executors false false true.

(** The select branches (lines 467 to 507). *)
Definition on_event (ev : Event) (a : Actor) : aresult (Actor * list Effect) :=
  match ev with
  | EvCancelled id =>
      '(b, q) ← promote (queue a) id;
      Ok (MkActor q (cancellations a ∖ {[id]}) (workers a) (executors a) (idle a)
            (next_worker a) (busy a) (retiring a) (next_id a) (target a) (started a)
            (stopped a) (receiving a),
          if (b : bool) then metric MetricCancelled else [])
  | EvCommand (Add priority t reply) cancelled =>
      if stopped a then
        Ok (a, metric MetricRejected ++ [Reply reply (Err (ResourceStopped name))])
      else if (cancelled : bool) then
        Ok (a, metric MetricRejected ++ [Reply reply (Err ContextCancelled)])
      else
        let id := next_id a in
        q ← push (queue a) id priority (MkEntry t id);
        Ok (MkActor q ({[id]} ∪ cancellations a) (workers a) (executors a) (idle a)
              (next_worker a) (busy a) (retiring a) (id + 1) (target a) (started a)
              (stopped a) (receiving a),
            metric (MetricQueueLength (len q)) ++ [Reply reply (Ok tt)])
  | EvCommand (Start count) _ =>
      if stopped a then Ok (a, [])
      else Ok (MkActor (queue a) (cancellations a) (workers a) (executors a) (idle a)
                 (next_worker a) (busy a) (retiring a) (next_id a) count true
                 (stopped a) (receiving a), [])
  | EvCommand (Resize count) _ =>
      if stopped a then Ok (a, [])
      else Ok (MkActor (queue a) (cancellations a) (workers a) (executors a) (idle a)
                 (next_worker a) (busy a) (retiring a) (next_id a) count (started a)
                 (stopped a) (receiving a), [])
  | EvCommand Stop _ =>
      Ok (MkActor (queue a) (cancellations a) (workers a) (executors a) (idle a)
            (next_worker a) (busy a) (retiring a) (next_id a) (target a) true
            true (receiving a), [])
  | EvClosed =>
      Ok (MkActor (queue a) (cancellations a) (workers a) (executors a) (idle a)
            (next_worker a) (busy a) (retiring a) (next_id a) (target a) true
            true false, [])
  | EvCommand (Ready id) _ =>
      if decide (busy a = 0) then Panic
      else Ok (MkActor (queue a) (cancellations a) (workers a) (executors a)
                 (idle a ++ [id]) (next_worker a) (busy a - 1) (retiring a) (next_id a)
                 (target a) (started a) (stopped a) (receiving a), [])
  | EvJoined id =>
      Ok (MkActor (queue a) (cancellations a) (workers a ∖ {[id]}) (executors a) (idle a)
            (next_worker a) (busy a) (retiring a) (next_id a) (target a) (started a)
            (stopped a) (receiving a), [])
  end.

(** [while executors.len() > target && !idle.is_empty()]. *)
Fixpoint retire_idle (target : Z) (executors : gset Z) (idle : list Z) :
    gset Z * list Z * list Effect :=
  match idle with
  | [] => (executors, [], [])
  | id :: rest =>
      if decide (Z.of_nat (size executors) > target) then
        let '(ex, idle, eff) := retire_idle target (executors ∖ {[id]}) rest in
        (ex, idle, CloseWorker id :: eff)
      else (executors, idle, [])
  end.

(** [while executors.len() < target]; each turn adds one fresh executor, so
    the number of turns is bounded by the difference. *)
Fixpoint spawn_workers (fuel : nat) (target : Z) (executors workers : gset Z) (idle : list Z)
    (next_worker : Z) : gset Z * gset Z * list Z * Z * list Effect :=
  match fuel with
  | O => (executors, workers, idle, next_worker, [])
  | S fuel =>
      if decide (Z.of_nat (size executors) < target) then
        let id := next_worker in
        let '(ex, ws, idle, nw, eff) :=
          spawn_workers fuel target ({[id]} ∪ executors) ({[id]} ∪ workers) (idle ++ [id])
            (next_worker + 1) in
        (ex, ws, idle, nw, SpawnWorker id :: eff)
      else (executors, workers, idle, next_worker, [])
  end.

(** [while !idle.is_empty() && !queue.is_empty()]; indexing [executors] is
    checked. *)
Fixpoint dispatch (idle : list Z) (queue : PendingQueue Entry) (cancellations executors : gset Z)
    (busy : Z) : aresult (list Z * PendingQueue Entry * gset Z * Z * list Effect) :=
  match idle with
  | [] => Ok ([], queue, cancellations, busy, [])
  | worker :: rest =>
      if is_empty queue then Ok (idle, queue, cancellations, busy, [])
      else
        '(popped, queue) ← pop queue;
        '(_, entry) ← unwrap popped;
        let eff := metric (MetricQueueLength (len queue)) in
        if decide (worker ∈ executors) then
          '(idle, queue, cs, busy, eff') ←
            dispatch rest queue (cancellations ∖ {[cancellation entry]}) executors (busy + 1);
          Ok (idle, queue, cs, busy, eff ++ SendTask worker (task entry) :: eff')
        else Panic
  end.

Definition schedule (a : Actor) : aresult (Actor * list Effect) :=
  if started a && negb (retiring a) then
    let '(ex, idl, eff1) := retire_idle (target a) (executors a) (idle a) in
    let '(ex, ws, idl, nw, eff2) :=
      spawn_workers (Z.to_nat (target a - Z.of_nat (size ex))) (target a) ex (workers a) idl
        (next_worker a) in
    '(idl, q, cs, b, eff3) ← dispatch idl (queue a) (cancellations a) ex (busy a);
    Ok (MkActor q cs ws ex idl nw b (retiring a) (next_id a) (target a) (started a)
          (stopped a) (receiving a), eff1 ++ eff2 ++ eff3)
  else Ok (a, []).

(** The end of the turn: retirement and the exit test. *)
Definition wind_up (a : Actor) : Actor * list Effect * bool :=
  let '(a, eff) :=
    if stopped a && is_empty (queue a) && bool_decide (busy a = 0) && negb (retiring a)
    then (MkActor (queue a) (cancellations a) (workers a) ∅ [] (next_worker a) (busy a) true
            (next_id a) (target a) (started a) (stopped a) (receiving a),
          CloseWorker <$> elements (executors a))
    else (a, []) in
  (a, eff, retiring a && bool_decide (workers a = ∅)).

(** One turn of the loop; the flag says whether it breaks. *)
Definition iterate (ev : Event) (a : Actor) : aresult (Actor * list Effect * bool) :=
  '(a, eff1) ← on_event ev a;
  '(a, eff2) ← schedule a;
  let eff3 := metric (MetricTarget (target a)) in
  let '(a, eff4, fin) := wind_up a in
  Ok (a, eff1 ++ eff2 ++ eff3 ++ eff4, fin).

(** ** The pool: actor, channel and executor tasks *)
Record Worker := MkWorker { mailbox : list Task; running : option Task; open : bool }.

Record Pool := MkPool {
  actor : Actor;
  drained : bool;
  channel : list Command;
  live : gmap Z Worker;
  exited : gset Z;
  accepted : list Task;
  completed : list Task }.

Inductive Label :=
| Send (c : Command)
| Recv (cancelled : bool)
| Fire (id : Z)
| Join (id : Z)
| WorkerRecv (id : Z)
| WorkerFinish (id : Z)
| WorkerExit (id : Z).

(** Effects of the actor on the executor tasks; sending to an executor whose
    task has ended is the [unreachable!] of the source. *)
Definition apply_effect (ws : gmap Z Worker) (e : Effect) : aresult (gmap Z Worker) :=
  match e with
  | SpawnWorker id => Ok (<[id := MkWorker [] None true]> ws)
  | CloseWorker id => Ok (alter (λ w, MkWorker (mailbox w) (running w) false) id ws)
  | SendTask id t =>
      match ws !! id with
      | Some w => Ok (<[id := MkWorker (mailbox w ++ [t]) (running w) (open w)]> ws)
      | None => Panic
      end
  | _ => Ok ws
  end.

Definition is_accept (reply : Z) (e : Effect) : bool :=
  match e with Reply r (Ok _) => bool_decide (r = reply) | _ => false end.
Definition accepts (ev : Event) (eff : list Effect) : list Task :=
  match ev with
  | EvCommand (Add _ t reply) _ =>
      if existsb (is_accept reply) eff then [t] else []
  | _ => []
  end.

Definition actor_turn (ev : Event) (p : Pool) : aresult Pool :=
  '(a, eff, fin) ← iterate ev (actor p);
  ws ← fold_res apply_effect (live p) eff;
  Ok (MkPool a fin (channel p) ws (exited p) (accepted p ++ accepts ev eff) (completed p)).

(** Clients send [Add], [Start], [Resize] and [Stop]; executor counts come
    from [executors()], which is positive. *)
Definition client_command (c : Command) : bool :=
  match c with
  | Add _ _ _ | Stop => true
  | Start n | Resize n => bool_decide (1 ≤ n)
  | Ready _ => false
  end.

(** [None] is a disabled step.  After the actor has left its loop the
    channel is closed and only failed sends remain. *)
Definition pool_step (l : Label) (p : Pool) : option (aresult Pool) :=
  match l with
  | Send c =>
      if negb (drained p) && client_command c
      then Some (Ok (MkPool (actor p) (drained p) (channel p ++ [c]) (live p) (exited p)
                       (accepted p) (completed p)))
      else None
  | Recv cancelled =>
      if negb (drained p) && receiving (actor p) then
        match channel p with
        | c :: rest =>
            Some (actor_turn (EvCommand c cancelled)
              (MkPool (actor p) (drained p) rest (live p) (exited p) (accepted p) (completed p)))
        | [] => None
        end
      else None
  | Fire id =>
      if negb (drained p) && bool_decide (id ∈ cancellations (actor p))
      then Some (actor_turn (EvCancelled id) p) else None
  | Join id =>
      if negb (drained p) && bool_decide (id ∈ exited p)
      then Some (actor_turn (EvJoined id)
             (MkPool (actor p) (drained p) (channel p) (live p) (exited p ∖ {[id]})
                (accepted p) (completed p)))
      else None
  | WorkerRecv id =>
      match live p !! id with
      | Some (MkWorker (t :: ts) None o) =>
          Some (Ok (MkPool (actor p) (drained p) (channel p)
            (<[id := MkWorker ts (Some t) o]> (live p)) (exited p) (accepted p) (completed p)))
      | _ => None
      end
  | WorkerFinish id =>
      match live p !! id with
      | Some (MkWorker ts (Some t) o) =>
          Some (Ok (MkPool (actor p) (drained p) (channel p ++ [Ready id])
            (<[id := MkWorker ts None o]> (live p)) (exited p) (accepted p)
            (completed p ++ [t])))
      | _ => None
      end
  | WorkerExit id =>
      match live p !! id with
      | Some (MkWorker [] None false) =>
          Some (Ok (MkPool (actor p) (drained p) (channel p) (delete id (live p))
            ({[id]} ∪ exited p) (accepted p) (completed p)))
      | _ => None
      end
  end.

Definition pool_init (priority : bool) (executors : Z) : Pool :=
  MkPool (actor_init priority executors) false [] ∅ ∅ [] [].

Inductive reachable (priority : bool) (executors : Z) : Pool → Prop :=
| reach_init : reachable priority executors (pool_init priority executors)
| reach_step l p p' :
    reachable priority executors p → pool_step l p = Some (Ok p') →
    reachable priority executors p'.
End queued_pool.
Arguments Entry Task : clear implicits.
Arguments Command Task : clear implicits.
Arguments Effect Task : clear implicits.
Arguments Actor Task : clear implicits.
Arguments Event Task : clear implicits.
Arguments Worker Task : clear implicits.
Arguments Pool Task : clear implicits.
Arguments Label Task : clear implicits.

(** ** The client side: [QueuedPool::start], [add_task], [stop],
    [reload_config]

    [state] is 0 (created), 1 (started) or 2 (stopped).  Each function returns
    its answer, the new state and the command it sends; the answer of an
    accepted [add_task] is the reply of the actor. *)
Section clients.
Context {Task : Type} (name : string).

(** [available_parallelism] is 1 when the platform does not know. *)
Definition resolve_executors (available_parallelism : option Z) (count : Z) : Z :=
  if decide (count = 0) then default 1 available_parallelism else count.

(** [pool_config] is the executor count of the pool in the current runtime
    configuration. *)
Definition executors_count (available_parallelism pool_config : option Z)
    (fallback_executors : Z) : Z :=
  resolve_executors available_parallelism (default fallback_executors pool_config).

(** [sent] is whether the channel is still open. *)
Definition start (state count : Z) (sent : bool) :
    RuntimeResult unit * Z * list (Command Task) :=
  if decide (state = 0) then
    if sent then (Ok tt, 1, [Start count])
    else (Err (ResourceStopped name), 1, [])
  else if decide (state = 2) then (Err (ResourceStopped name), state, [])
  else (Err (ResourceAlreadyStarted name), state, []).

(** The checks of [add_task] before the actor decides. *)
Definition add_task (cancelled : bool) (state : Z) (sent : bool) (priority : Z) (t : Task)
    (reply : Z) : RuntimeResult unit * list (Command Task) :=
  if cancelled then (Err ContextCancelled, [])
  else if decide (state = 2) then (Err (ResourceStopped name), [])
  else if sent then (Ok tt, [Add priority t reply])
  else (Err (ResourceStopped name), []).

(** [rx.await.unwrap_or_else(..)]: a dropped reply means the pool is gone. *)
Definition await_reply (r : option (RuntimeResult unit)) : RuntimeResult unit :=
  default (Err (ResourceStopped name)) r.

Definition stop (state : Z) : Z * list (Command Task) :=
  (2, if decide (state = 2) then [] else [Stop]).
End clients.

(** * Invariant of the executors *)
Section executors.
Context {Task : Type}.
Implicit Types (ws : gmap Z (Worker Task)) (ch : list (Command Task)) (ex wks xt : gset Z)
  (idl : list Z) (nw b t w : Z).

Definition worker_tasks (wk : Worker Task) : list Task := mailbox wk ++ option_list (running wk).
Definition in_flight ws : list Task := gather worker_tasks ws.
Definition wload (o : option (Worker Task)) : nat :=
  match o with Some wk => length (worker_tasks wk) | None => 0 end.
Fixpoint readies w ch : nat :=
  match ch with
  | [] => 0
  | Ready id :: ch => (if decide (id = w) then 1 else 0) + readies w ch
  | _ :: ch => readies w ch
  end.

(** Every executor is idle or owns exactly one task (waiting in its mailbox,
    running, or reported by a [Ready] still in the channel). *)
Record exec_ok ch xt ex idl nw b wks ws : Prop := {
  ok_nodup : NoDup idl;
  ok_idle : ∀ w, w ∈ idl → w ∈ ex;
  ok_live : ∀ w, w ∈ ex ↔ ∃ wk, ws !! w = Some wk ∧ open wk = true;
  ok_fresh : ∀ w, w ∈ dom ws ∪ xt → w < nw;
  ok_load : ∀ w, (wload (ws !! w) + readies w ch)%nat
                 = if decide (w ∈ ex ∧ w ∉ idl) then 1%nat else 0%nat;
  ok_busy : b = Z.of_nat (size ex) - Z.of_nat (length idl);
  ok_workers : wks = dom ws ∪ xt;
  ok_exited : dom ws ## xt }.

(** The work left in the executors, the weight of the termination argument:
    a waiting task counts 4, a running one 3, a live executor 2. *)
Definition weight (wk : Worker Task) : nat :=
  4 * length (mailbox wk) + 3 * length (option_list (running wk)) + 2.
Definition potential ws : nat := total weight ws.

Lemma potential_delete ws w wk :
  ws !! w = Some wk → potential ws = (weight wk + potential (delete w ws))%nat.
Proof. apply total_delete. Qed.
Lemma potential_insert ws w wk :
  potential (<[w := wk]> ws) = (weight wk + potential (delete w ws))%nat.
Proof. apply total_insert. Qed.
Lemma potential_update ws w wk wk' :
  ws !! w = Some wk →
  (potential (<[w := wk']> ws) + weight wk = potential ws + weight wk')%nat.
Proof. apply total_update. Qed.

Lemma in_flight_delete ws w wk :
  ws !! w = Some wk → in_flight ws ≡ₚ worker_tasks wk ++ in_flight (delete w ws).
Proof. apply gather_delete. Qed.
Lemma in_flight_insert ws w wk :
  in_flight (<[w := wk]> ws) ≡ₚ worker_tasks wk ++ in_flight (delete w ws).
Proof. apply gather_insert. Qed.
Lemma in_flight_empty : in_flight ∅ = [].
Proof. apply gather_empty. Qed.
Lemma readies_app w ch1 ch2 : readies w (ch1 ++ ch2) = (readies w ch1 + readies w ch2)%nat.
Proof. induction ch1 as [|[] ch1 IH]; cbn; lia. Qed.

(** ** Closing idle executors *)
Lemma exec_close ch xt ex id idl nw b wks ws :
  exec_ok ch xt ex (id :: idl) nw b wks ws →
  ∃ ws', apply_effect ws (CloseWorker id) = Ok ws' ∧
    exec_ok ch xt (ex ∖ {[id]}) idl nw b wks ws' ∧ in_flight ws' ≡ₚ in_flight ws ∧
    potential ws' = potential ws ∧ size ex = S (size (ex ∖ {[id]})).
Proof.
  intros [Hnd Hidle Hlive Hfresh Hload Hbusy Hw Hx]. cbn. eexists; split; [done|].
  apply NoDup_cons in Hnd as [Hni Hnd].
  assert (id ∈ ex) as Hin by (apply Hidle; set_solver).
  destruct (proj1 (Hlive id) Hin) as (wk & Hwk & Ho).
  assert (size ex = S (size (ex ∖ {[id]}))) as Hsz.
  { rewrite (union_difference_L {[id]} ex) at 1 by set_solver.
    rewrite size_union, size_singleton by set_solver. done. }
  assert (Hdom : dom (alter (λ k : Worker Task, MkWorker (mailbox k) (running k) false) id ws) = dom ws)
    by apply dom_alter_L.
  assert (Heq : alter (λ k : Worker Task, MkWorker (mailbox k) (running k) false) id ws
    = <[id := MkWorker (mailbox wk) (running wk) false]> ws).
  { apply map_eq. intros w. destruct (decide (id = w)) as [<-|];
      rewrite ?lookup_alter_eq, ?lookup_alter_ne, ?lookup_insert_eq, ?lookup_insert_ne by done;
      [by rewrite Hwk|done]. }
  split_and!; [split| | |done].
  - done.
  - intros w Hin'. apply elem_of_difference. set_solver.
  - intros w. rewrite elem_of_difference, Hlive, elem_of_singleton, Heq.
    destruct (decide (id = w)) as [<-|]; rewrite ?lookup_insert_eq, ?lookup_insert_ne by done;
      naive_solver.
  - by rewrite Hdom.
  - intros w. specialize (Hload w). rewrite Heq.
    destruct (decide (id = w)) as [<-|Hne].
    + rewrite lookup_insert_eq. rewrite Hwk in Hload. cbn in *.
      rewrite decide_False in Hload by set_solver. rewrite decide_False by set_solver. done.
    + rewrite lookup_insert_ne, Hload by done.
      destruct (decide (w ∈ ex ∧ w ∉ id :: idl)), (decide (w ∈ ex ∖ {[id]} ∧ w ∉ idl)); set_solver.
  - cbn [length] in Hbusy. lia.
  - by rewrite Hdom.
  - by rewrite Hdom.
  - rewrite Heq, in_flight_insert, (in_flight_delete ws id wk) by done. done.
  - rewrite Heq. pose proof (potential_update ws id wk (MkWorker (mailbox wk) (running wk) false) Hwk)
      as Hp. unfold weight in Hp; cbn in Hp. lia.
Qed.

Lemma retire_idle_ok ch xt ex idl nw b wks ws t ex' idl' eff :
  exec_ok ch xt ex idl nw b wks ws → retire_idle t ex idl = (ex', idl', eff) →
  ∃ ws', fold_res apply_effect ws eff = Ok ws' ∧
    exec_ok ch xt ex' idl' nw b wks ws' ∧ in_flight ws' ≡ₚ in_flight ws ∧
    potential ws' = potential ws ∧ (Z.of_nat (size ex') < t → ex' = ex).
Proof.
  revert ex ws ex' idl' eff. induction idl as [|id idl IH]; intros ex ws ex' idl' eff Hok; cbn.
  - intros [= <- <- <-]. by exists ws.
  - case_decide as Hgt; [|intros [= <- <- <-]; by exists ws].
    destruct (retire_idle t (ex ∖ {[id]}) idl) as [[ex1 idl1] eff1] eqn:Hr.
    intros [= <- <- <-].
    destruct (exec_close _ _ _ _ _ _ _ _ _ Hok) as (ws1 & Hws1 & Hok1 & Hf1 & Hp1 & Hsz).
    destruct (IH _ _ _ _ _ Hok1 Hr) as (ws2 & Hws2 & Hok2 & Hf2 & Hp2 & Hlt).
    exists ws2. cbn [fold_res]. rewrite Hws1. cbn. split_and!; [done..|by rewrite Hf2|lia|].
    intros Hs. rewrite (Hlt Hs) in Hs. lia.
Qed.

(** ** Spawning executors *)
Lemma exec_spawn ch xt ex idl nw b wks ws :
  exec_ok ch xt ex idl nw b wks ws →
  exec_ok ch xt ({[nw]} ∪ ex) (idl ++ [nw]) (nw + 1) b ({[nw]} ∪ wks)
    (<[nw := MkWorker [] None true]> ws) ∧
  in_flight (<[nw := MkWorker [] None true]> ws) ≡ₚ in_flight ws ∧
  potential (<[nw := MkWorker [] None true]> ws) = (2 + potential ws)%nat ∧
  size ({[nw]} ∪ ex) = S (size ex).
Proof.
  intros [Hnd Hidle Hlive Hfresh Hload Hbusy Hw Hx].
  assert (ws !! nw = None ∧ nw ∉ xt) as [Hnone Hxt].
  { split; [apply not_elem_of_dom|]; intros Hin; specialize (Hfresh nw); set_solver by lia. }
  assert (nw ∉ ex) as Hnex by (rewrite Hlive, Hnone; naive_solver).
  assert (size ({[nw]} ∪ ex) = S (size ex)) as Hsz
    by (rewrite size_union, size_singleton by set_solver; done).
  split_and!; [split| | |done].
  - apply NoDup_app. split_and!; [done| |apply NoDup_singleton].
    intros w Hin ->%list_elem_of_singleton. by apply Hnex, Hidle.
  - intros w. rewrite elem_of_app, list_elem_of_singleton. set_solver.
  - intros w. rewrite elem_of_union, elem_of_singleton, Hlive.
    destruct (decide (nw = w)) as [<-|]; rewrite ?lookup_insert_eq, ?lookup_insert_ne by done;
      naive_solver.
  - intros w. rewrite dom_insert_L. intros Hin.
    assert (w = nw ∨ w ∈ dom ws ∪ xt) as [->|?%Hfresh] by set_solver; lia.
  - intros w. specialize (Hload w). destruct (decide (nw = w)) as [<-|Hne].
    + rewrite lookup_insert_eq. rewrite Hnone in Hload. rewrite decide_False in Hload by set_solver.
      rewrite decide_False by set_solver. done.
    + rewrite lookup_insert_ne, Hload by done.
      destruct (decide (w ∈ ex ∧ w ∉ idl)), (decide (w ∈ {[nw]} ∪ ex ∧ w ∉ idl ++ [nw]));
        set_solver.
  - rewrite length_app; cbn [length]. lia.
  - rewrite dom_insert_L. set_solver.
  - rewrite dom_insert_L. set_solver.
  - rewrite in_flight_insert, delete_id by done. done.
  - rewrite potential_insert, delete_id by done. done.
Qed.

Lemma spawn_workers_ok ch xt fuel t ex wks idl nw b ws ex' wks' idl' nw' eff :
  exec_ok ch xt ex idl nw b wks ws → (Z.to_nat (t - Z.of_nat (size ex)) ≤ fuel)%nat →
  spawn_workers fuel t ex wks idl nw = (ex', wks', idl', nw', eff) →
  ∃ ws', fold_res apply_effect ws eff = Ok ws' ∧
    exec_ok ch xt ex' idl' nw' b wks' ws' ∧ in_flight ws' ≡ₚ in_flight ws ∧
    Z.of_nat (size ex') = Z.max (Z.of_nat (size ex)) t ∧
    potential ws' = (potential ws + 2 * Z.to_nat (t - Z.of_nat (size ex)))%nat.
Proof.
  revert ex wks idl nw ws ex' wks' idl' nw' eff.
  induction fuel as [|fuel IH]; intros ex wks idl nw ws ex' wks' idl' nw' eff Hok Hfuel; cbn.
  { intros [= <- <- <- <- <-]. exists ws. split_and!; [done..|lia|lia]. }
  case_decide as Hlt; [|intros [= <- <- <- <- <-]; exists ws; split_and!; [done..|lia|lia]].
  destruct (exec_spawn _ _ _ _ _ _ _ _ Hok) as (Hok1 & Hf1 & Hp1 & Hsz).
  destruct (spawn_workers fuel t _ _ _ _) as [[[[ex1 wks1] idl1] nw1] eff1] eqn:Hs.
  intros [= <- <- <- <- <-].
  destruct (IH _ _ _ _ _ _ _ _ _ _ Hok1 ltac:(lia) Hs) as (ws2 & Hws2 & Hok2 & Hf2 & Hsz2 & Hw2).
  exists ws2. cbn [fold_res apply_effect mbind outcome_bind]. split_and!; [done..| |lia|].
  - by rewrite Hf2.
  - lia.
Qed.

(** ** Dispatching tasks *)
Lemma exec_send ch xt ex w idl nw b wks ws x :
  exec_ok ch xt ex (w :: idl) nw b wks ws →
  ∃ ws', apply_effect ws (SendTask w x) = Ok ws' ∧
    exec_ok ch xt ex idl nw (b + 1) wks ws' ∧ in_flight ws' ≡ₚ x :: in_flight ws ∧
    potential ws' = (4 + potential ws)%nat.
Proof.
  intros [Hnd Hidle Hlive Hfresh Hload Hbusy Hw Hx]. apply NoDup_cons in Hnd as [Hni Hnd].
  assert (w ∈ ex) as Hin by (apply Hidle; set_solver).
  destruct (proj1 (Hlive w) Hin) as (wk & Hwk & Ho). cbn. rewrite Hwk.
  eexists; split; [done|]. split_and!; [split| |].
  - done.
  - set_solver.
  - intros w'. rewrite Hlive. destruct (decide (w = w')) as [<-|];
      rewrite ?lookup_insert_eq, ?lookup_insert_ne by done; naive_solver.
  - rewrite dom_insert_L. intros w' Hin'. apply Hfresh.
    assert (w ∈ dom ws) by by apply elem_of_dom_2 in Hwk. set_solver.
  - intros w'. specialize (Hload w'). destruct (decide (w = w')) as [<-|Hne].
    + rewrite lookup_insert_eq. rewrite Hwk in Hload. cbn in *.
      rewrite decide_False in Hload by set_solver. rewrite decide_True by done.
      unfold worker_tasks in *; cbn. rewrite !length_app in *; cbn. lia.
    + rewrite lookup_insert_ne, Hload by done.
      destruct (decide (w' ∈ ex ∧ w' ∉ w :: idl)), (decide (w' ∈ ex ∧ w' ∉ idl)); set_solver.
  - cbn [length] in Hbusy. lia.
  - rewrite dom_insert_L. apply elem_of_dom_2 in Hwk. set_solver.
  - rewrite dom_insert_L. apply elem_of_dom_2 in Hwk. set_solver.
  - rewrite in_flight_insert, (in_flight_delete ws w wk) by done.
    unfold worker_tasks; cbn. rewrite <-!app_assoc. cbn. by rewrite <-Permutation_middle.
  - pose proof (potential_update ws w wk (MkWorker (mailbox wk ++ [x]) (running wk) (open wk)) Hwk)
      as Hp. unfold weight in Hp; cbn in Hp. rewrite length_app in Hp; cbn in Hp. lia.
Qed.

Lemma fold_metric has_metrics (e : Effect Task) ws :
  (∀ ws, apply_effect ws e = Ok ws) → fold_res apply_effect ws (metric has_metrics e) = Ok ws.
Proof. intros He. destruct has_metrics; cbn [metric fold_res]; [by rewrite He|done]. Qed.

Definition bag_tasks (ts : list (Z * Entry Task)) : list Task := (λ p, task p.2) <$> ts.

Lemma dispatch_ok has_metrics ch xt ex nw wks q n ts cs idl b ws :
  exec_ok ch xt ex idl nw b wks ws → holds q n ts →
  ∃ idl' q' cs' b' eff ws' ts',
    dispatch has_metrics idl q cs ex b = Ok (idl', q', cs', b', eff) ∧
    fold_res apply_effect ws eff = Ok ws' ∧ exec_ok ch xt ex idl' nw b' wks ws' ∧
    holds q' n ts' ∧ bag_tasks ts' ++ in_flight ws' ≡ₚ bag_tasks ts ++ in_flight ws ∧
    (idl' = [] ∨ ts' = []) ∧ cs' ⊆ cs ∧
    (5 * length ts' + potential ws' ≤ 5 * length ts + potential ws)%nat.
Proof.
  revert q ts cs b ws. induction idl as [|w idl IH]; intros q ts cs b ws Hok Hh; cbn -[pop].
  { eexists [], q, cs, b, [], ws, ts. split_and!; auto. }
  destruct (is_empty q) eqn:He.
  { apply (holds_is_empty _ _ _ Hh) in He as ->.
    eexists (w :: idl), q, cs, b, [], ws, []. split_and!; auto. }
  destruct (holds_pop q n ts Hh) as (id & e & q1 & ts1 & -> & Hh1 & Hp1).
  { intros ->. by rewrite (proj2 (holds_is_empty _ _ _ Hh)) in He. }
  cbn [mbind outcome_bind unwrap].
  rewrite decide_True by (eapply ok_idle; [exact Hok|by left]).
  destruct (exec_send _ _ _ _ _ _ _ _ _ (task e) Hok) as (ws1 & Hws1 & Hok1 & Hf1 & Hpot1).
  destruct (IH q1 ts1 (cs ∖ {[cancellation e]}) (b + 1) ws1 Hok1 Hh1)
    as (idl' & q' & cs' & b' & eff & ws' & ts' & -> & Hws & Hok' & Hh' & Hp' & Hq' & Hcs' & Hm').
  cbn [mbind outcome_bind]. eexists idl', q', cs', b', _, ws', ts'. split_and!; [done| |done..| |done|set_solver|].
  - rewrite fold_res_app, fold_metric by done. cbn [fold_res mbind outcome_bind].
    by rewrite Hws1.
  - rewrite Hp', Hf1. unfold bag_tasks. rewrite Hp1; cbn. by rewrite <-Permutation_middle.
  - rewrite Hp1; cbn [length]. lia.
Qed.
End executors.

(** * Invariant of the pool *)
Section pool_invariant.
Context {Task : Type} (name : string) (hm : bool).
Implicit Types (a : Actor Task) (p : Pool Task) (ws : gmap Z (Worker Task))
  (ch : list (Command Task)) (xt : gset Z) (acc comp : list Task) (eff : list (Effect Task)).

Record core ch xt acc comp a ws : Prop := {
  c_exec : exec_ok ch xt (executors a) (idle a) (next_worker a) (busy a) (workers a) ws;
  c_bag : ∃ ts, holds (queue a) (next_id a) ts ∧ acc ≡ₚ bag_tasks ts ++ in_flight ws ++ comp;
  c_target : 1 ≤ target a;
  c_stop : stopped a = true → started a = true;
  c_receiving : receiving a = true;
  c_retiring : retiring a = true →
    stopped a = true ∧ is_empty (queue a) = true ∧ executors a = ∅ }.

(** What the scheduling code establishes at the end of every turn. *)
Record settled a : Prop := {
  s_staffed : started a = true → retiring a = false →
    target a ≤ Z.of_nat (size (executors a)) ∧ (idle a = [] ∨ is_empty (queue a) = true);
  s_retire : stopped a = true → is_empty (queue a) = true → busy a = 0 → retiring a = true }.

Definition valid_command (c : Command Task) : Prop :=
  match c with Start n | Resize n => 1 ≤ n | _ => True end.

(** Work left in the actor and its executors, for termination after [Stop]. *)
Definition slack a : nat :=
  if retiring a then 0%nat else Z.to_nat (target a - Z.of_nat (size (executors a))).
Definition work a ws : nat :=
  5 * Z.to_nat (len (queue a)) + potential ws + size (cancellations a) + 3 * slack a.

#[local] Arguments work : simpl never.

Definition no_accept eff : Prop := ∀ r, existsb (is_accept r) eff = false.

Lemma no_accept_nil : no_accept [].
Proof. done. Qed.
Lemma no_accept_app eff1 eff2 : no_accept eff1 → no_accept eff2 → no_accept (eff1 ++ eff2).
Proof. intros H1 H2 r. by rewrite existsb_app, H1, H2. Qed.
Lemma no_accept_cons e eff : no_accept [e] → no_accept eff → no_accept (e :: eff).
Proof. apply (no_accept_app [e]). Qed.
Lemma no_accept_metric e : (∀ r, is_accept r e = false) → no_accept (metric hm e).
Proof. intros He r. destruct hm; cbn; by rewrite ?He. Qed.
Lemma no_accept_close l : no_accept (CloseWorker <$> l).
Proof. intros r. by induction l. Qed.
Lemma no_accept_retire t ex idl : no_accept (retire_idle t ex idl).2.
Proof.
  revert ex; induction idl as [|id idl IH]; intros ex; cbn; [done|]. case_decide; [|done].
  specialize (IH (ex ∖ {[id]})). destruct (retire_idle _ _ _) as [[]]. by apply no_accept_cons.
Qed.
Lemma no_accept_spawn fuel t ex wks idl nw : no_accept (spawn_workers fuel t ex wks idl nw).2.
Proof.
  revert ex wks idl nw; induction fuel as [|fuel IH]; intros ex wks idl nw; cbn; [done|].
  case_decide; [|done]. specialize (IH ({[nw]} ∪ ex) ({[nw]} ∪ wks) (idl ++ [nw]) (nw + 1)).
  destruct (spawn_workers _ _ _ _ _ _) as [[[[]]]]. by apply no_accept_cons.
Qed.
Lemma no_accept_dispatch idl q cs ex b r :
  dispatch (Task := Task) hm idl q cs ex b = Ok r → no_accept r.2.
Proof.
  revert q cs b r; induction idl as [|w idl IH]; intros q cs b r; cbn -[pop].
  { by intros <-%(inj Ok). }
  destruct (is_empty q); [by intros <-%(inj Ok)|].
  intros ([po q1] & _ & ([id e] & _ & Hd)%bind_Ok)%bind_Ok. case_decide; [|done].
  apply bind_Ok in Hd as ([[[[idl' q'] cs'] b'] eff'] & Hd%IH & <-%(inj Ok)). cbn in *.
  apply no_accept_app; [by apply no_accept_metric|]. by apply no_accept_cons.
Qed.

Lemma holds_queue_len q n (ts : list (Z * Entry Task)) :
  holds q n ts → Z.to_nat (len q) = length ts.
Proof. intros Hh. rewrite (holds_len _ _ _ Hh). lia. Qed.

(** The scheduling code. *)
Lemma schedule_core ch xt acc comp a ws :
  core ch xt acc comp a ws →
  ∃ a' eff ws', schedule hm a = Ok (a', eff) ∧ fold_res apply_effect ws eff = Ok ws' ∧
    core ch xt acc comp a' ws' ∧ no_accept eff ∧ stopped a' = stopped a ∧
    (started a' = true → retiring a' = false →
      target a' ≤ Z.of_nat (size (executors a')) ∧ (idle a' = [] ∨ is_empty (queue a') = true)) ∧
    (work a' ws' ≤ work a ws)%nat.
Proof.
  intros [Hex Hbag Ht Hst Hrv Hret]. unfold schedule.
  destruct (started a && negb (retiring a)) eqn:Hgo.
  2: { exists a, [], ws. do 5 (split; [done|]). split; [|done].
       intros Hs Hr. by rewrite Hs, Hr in Hgo. }
  apply andb_true_iff in Hgo as [Hstarted Hnr%negb_true_iff].
  destruct (retire_idle _ _ _) as [[ex1 idl1] eff1] eqn:Hr.
  pose proof (no_accept_retire (target a) (executors a) (idle a)) as Hna1. rewrite Hr in Hna1.
  destruct (retire_idle_ok _ _ _ _ _ _ _ _ _ _ _ _ Hex Hr) as (ws1 & Hws1 & Hok1 & Hf1 & Hp1 & Hlt1).
  destruct (spawn_workers _ _ _ _ _ _) as [[[[ex2 wks2] idl2] nw2] eff2] eqn:Hs.
  pose proof (no_accept_spawn (Z.to_nat (target a - Z.of_nat (size ex1))) (target a) ex1 (workers a)
    idl1 (next_worker a)) as Hna2. rewrite Hs in Hna2.
  destruct (spawn_workers_ok _ _ _ _ _ _ _ _ _ _ _ _ _ _ _ Hok1 ltac:(done) Hs)
    as (ws2 & Hws2 & Hok2 & Hf2 & Hsz2 & Hp2).
  destruct Hbag as (ts & Hh & Hacc).
  destruct (dispatch_ok hm _ _ _ _ _ _ _ _ (cancellations a) _ _ _ Hok2 Hh)
    as (idl3 & q3 & cs3 & b3 & eff3 & ws3 & ts3 & Hd & Hws3 & Hok3 & Hh3 & Hp3 & Hq3 & Hcs3 & Hm3).
  pose proof (no_accept_dispatch _ _ _ _ _ _ Hd) as Hna3. cbn in Hna3.
  rewrite Hd. cbn [mbind outcome_bind]. eexists _, _, ws3. split; [done|].
  split_and!.
  - rewrite fold_res_app, Hws1. cbn [mbind outcome_bind]. rewrite fold_res_app, Hws2.
    cbn [mbind outcome_bind]. by rewrite Hws3.
  - split; cbn; try done.
    + exists ts3. split; [done|]. rewrite Hacc, !app_assoc, Hp3, Hf2, Hf1. done.
    + by rewrite Hnr.
  - by repeat apply no_accept_app.
  - done.
  - cbn. intros _ _. split; [lia|]. destruct Hq3 as [->| ->]; [by left|right].
    by apply (holds_is_empty _ _ _ Hh3).
  - unfold work, slack; cbn. rewrite Hnr, (holds_queue_len _ _ _ Hh), (holds_queue_len _ _ _ Hh3).
    assert (Z.to_nat (target a - Z.of_nat (size ex1)) ≤
            Z.to_nat (target a - Z.of_nat (size (executors a))))%nat.
    { destruct (decide (Z.of_nat (size ex1) < target a)) as [Hl|]; [by rewrite (Hlt1 Hl)|lia]. }
    apply subseteq_size in Hcs3. lia.
Qed.

(** ** Retirement *)
Lemma exec_perm ch xt ex idl idl' nw b wks ws :
  idl ≡ₚ idl' → exec_ok ch xt ex idl nw b wks ws → exec_ok ch xt ex idl' nw b wks ws.
Proof.
  intros Hp [Hnd Hidle Hlive Hfresh Hload Hbusy Hw Hx]. split; try done.
  - by rewrite <-Hp. - intros w. rewrite <-Hp. apply Hidle.
  - intros w. rewrite Hload. apply decide_ext. by rewrite Hp.
  - by rewrite <-Hp.
Qed.

Lemma close_all ch xt ex idl nw wks ws :
  exec_ok ch xt ex idl nw 0 wks ws →
  ∃ ws', fold_res apply_effect ws (CloseWorker <$> idl) = Ok ws' ∧
    exec_ok ch xt ∅ [] nw 0 wks ws' ∧ in_flight ws' ≡ₚ in_flight ws ∧ potential ws' = potential ws.
Proof.
  revert ex ws. induction idl as [|id idl IH]; intros ex ws Hok.
  - exists ws. assert (ex = ∅) as ->; [|done].
    pose proof (ok_busy _ _ _ _ _ _ _ _ Hok) as Hb. apply leibniz_equiv, size_empty_inv.
    cbn in Hb. lia.
  - destruct (exec_close _ _ _ _ _ _ _ _ _ Hok) as (ws1 & Hws1 & Hok1 & Hf1 & Hp1 & _).
    destruct (IH _ _ Hok1) as (ws2 & Hws2 & Hok2 & Hf2 & Hp2).
    exists ws2. cbn [fmap list_fmap fold_res]. rewrite Hws1. cbn [mbind outcome_bind].
    split_and!; [done..|by rewrite Hf2|lia].
Qed.

(** All executors are idle when none is busy. *)
Lemma idle_all ch xt ex idl nw wks ws :
  exec_ok ch xt ex idl nw 0 wks ws → idl ≡ₚ elements ex.
Proof.
  intros Hok. apply submseteq_length_Permutation.
  - apply NoDup_submseteq; [apply Hok|]. intros w Hw. apply elem_of_elements. by apply Hok.
  - pose proof (ok_busy _ _ _ _ _ _ _ _ Hok) as Hb.
    change (size ex) with (length (elements ex)) in Hb. lia.
Qed.

Lemma wind_up_core ch xt acc comp a ws :
  core ch xt acc comp a ws →
  (started a = true → retiring a = false →
    target a ≤ Z.of_nat (size (executors a)) ∧ (idle a = [] ∨ is_empty (queue a) = true)) →
  let '(a', eff, fin) := wind_up a in
  ∃ ws', fold_res apply_effect ws eff = Ok ws' ∧ core ch xt acc comp a' ws' ∧ no_accept eff ∧
    stopped a' = stopped a ∧ settled a' ∧ (work a' ws' ≤ work a ws)%nat ∧
    fin = retiring a' && bool_decide (workers a' = ∅).
Proof.
  intros Hc Hstaff. pose proof Hc as [Hex Hbag Ht Hst Hrv Hret]. unfold wind_up.
  destruct (stopped a && is_empty (queue a) && bool_decide (busy a = 0) && negb (retiring a)) eqn:Hgo.
  - rewrite !andb_true_iff, bool_decide_eq_true, negb_true_iff in Hgo.
    destruct Hgo as (((Hs & He) & Hb) & Hr). rewrite Hb in Hex.
    apply (exec_perm _ _ _ _ _ _ _ _ _ (idle_all _ _ _ _ _ _ _ Hex)) in Hex.
    destruct (close_all _ _ _ _ _ _ _ Hex) as (ws' & Hws & Hok & Hf & Hp).
    exists ws'. cbn. rewrite Hb. split_and!; [done| |apply no_accept_close|done| | |done].
    + split; cbn; try done. destruct Hbag as (ts & Hh & Hacc). exists ts. by rewrite Hf.
    + by split.
    + unfold work, slack; cbn. rewrite Hr, Hp. lia.
  - exists ws. split_and!; [done..| | |done]; [|done]. split; [done|]. intros Hs He Hb.
    destruct (retiring a) eqn:Hr; [done|]. by rewrite Hs, He, Hb in Hgo.
Qed.

(** ** Events *)
Lemma on_cancelled ch xt acc comp a ws id :
  core ch xt acc comp a ws → id ∈ cancellations a →
  ∃ a' eff, on_event name hm (EvCancelled id) a = Ok (a', eff) ∧
    core ch xt acc comp a' ws ∧ fold_res apply_effect ws eff = Ok ws ∧ no_accept eff ∧
    stopped a' = stopped a ∧ (work a' ws < work a ws)%nat.
Proof.
  intros [Hex Hbag Ht Hst Hrv Hret] Hid. destruct Hbag as (ts & Hh & Hacc).
  destruct (holds_promote _ _ _ id Hh) as (b & q' & Hpr & Hh').
  cbn [on_event]. rewrite Hpr. cbn [mbind outcome_bind].
  eexists _, _. split; [done|]. split_and!; [|destruct b|destruct b|done|].
  - split; cbn; eauto. intros Hr. destruct (Hret Hr) as (? & He & ?). split_and!; [done| |done].
    apply (holds_is_empty _ _ _ Hh'). by apply (holds_is_empty _ _ _ Hh).
  - by apply fold_metric. - done.
  - by apply no_accept_metric. - done.
  - unfold work, slack; cbn. rewrite (holds_queue_len _ _ _ Hh), (holds_queue_len _ _ _ Hh').
    assert (size (cancellations a ∖ {[id]}) < size (cancellations a))%nat; [|lia].
    apply subset_size. set_solver.
Qed.

Lemma on_joined ch xt acc comp a ws id :
  core ch xt acc comp a ws → id ∈ xt →
  ∃ a', on_event name hm (EvJoined id) a = Ok (a', []) ∧
    core ch (xt ∖ {[id]}) acc comp a' ws ∧ stopped a' = stopped a ∧ work a' ws = work a ws.
Proof.
  intros [Hex Hbag Ht Hst Hrv Hret] Hid. eexists. split; [done|]. split; [|done].
  split; cbn; eauto. destruct Hex as [Hnd Hidle Hlive Hfresh Hload Hbusy Hw Hx].
  split; try done; [intros w Hin; apply Hfresh; set_solver|set_solver..].
Qed.

(** A command other than [Ready] leaves the executors alone. *)
Lemma exec_skip c ch xt ex idl nw b wks ws :
  (∀ id, c ≠ Ready id) → exec_ok (c :: ch) xt ex idl nw b wks ws → exec_ok ch xt ex idl nw b wks ws.
Proof.
  intros Hc [Hnd Hidle Hlive Hfresh Hload Hbusy Hw Hx]. split; try done.
  intros w. rewrite <-Hload. destruct c; cbn; try done. by destruct (Hc id).
Qed.

Lemma exec_ready id ch xt ex idl nw b wks ws :
  exec_ok (Ready id :: ch) xt ex idl nw b wks ws →
  exec_ok ch xt ex (idl ++ [id]) nw (b - 1) wks ws ∧ b ≠ 0 ∧ id ∈ ex.
Proof.
  intros [Hnd Hidle Hlive Hfresh Hload Hbusy Hw Hx].
  assert (id ∈ ex ∧ id ∉ idl) as [Hin Hni].
  { specialize (Hload id). cbn in Hload. rewrite decide_True in Hload by done.
    destruct (decide (id ∈ ex ∧ id ∉ idl)); [done|lia]. }
  assert (length idl < size ex)%nat as Hlt.
  { assert (length (id :: idl) ≤ size ex)%nat; [|cbn in *; lia].
    apply submseteq_length. apply NoDup_submseteq; [by constructor|].
    intros w. rewrite elem_of_elements. set_solver. }
  split_and!; [|lia|done]. split; try done.
  - apply NoDup_app. split_and!; [done|set_solver|apply NoDup_singleton].
  - intros w. rewrite elem_of_app, list_elem_of_singleton. intros [?| ->]; auto.
  - intros w. specialize (Hload w). cbn in Hload. destruct (decide (id = w)) as [<-|Hne].
    + rewrite decide_True in Hload by done. rewrite decide_False by set_solver. lia.
    + transitivity (wload (ws !! w) + (0 + readies w ch))%nat; [done|]. rewrite Hload.
      destruct (decide (w ∈ ex ∧ w ∉ idl)), (decide (w ∈ ex ∧ w ∉ idl ++ [id])); set_solver.
  - rewrite length_app; cbn. lia.
Qed.

Lemma on_command c cancelled ch xt acc comp a ws :
  core (c :: ch) xt acc comp a ws → valid_command c →
  ∃ a' eff, on_event name hm (EvCommand c cancelled) a = Ok (a', eff) ∧
    fold_res apply_effect ws eff = Ok ws ∧
    (∀ eff', no_accept eff' →
      core ch xt (acc ++ accepts (EvCommand c cancelled) (eff ++ eff')) comp a' ws) ∧
    (stopped a = true → stopped a' = true ∧ work a' ws = work a ws).
Proof.
  intros [Hex Hbag Ht Hst Hrv Hret] Hv. destruct Hbag as (ts & Hh & Hacc).
  destruct c as [prio t r|n|n| |id]; cbn [on_event].
  - assert (Hexs : exec_ok ch xt (executors a) (idle a) (next_worker a) (busy a) (workers a) ws)
      by (eapply exec_skip; [|exact Hex]; done).
    destruct (stopped a) eqn:Hstop; [|destruct cancelled].
    + eexists a, _. split; [done|]. split_and!; [|intros eff' Hn|done].
      * rewrite fold_res_app, fold_metric by done. done.
      * cbn [accepts]. rewrite !existsb_app, (no_accept_metric MetricRejected), Hn by done. cbn.
        rewrite app_nil_r. split; rewrite ?Hstop; eauto.
    + eexists a, _. split; [done|]. split_and!; [|intros eff' Hn|done].
      * rewrite fold_res_app, fold_metric by done. done.
      * cbn [accepts]. rewrite !existsb_app, (no_accept_metric MetricRejected), Hn by done. cbn.
        rewrite app_nil_r. split; rewrite ?Hstop; eauto.
    + destruct (holds_push _ _ _ prio (MkEntry t (next_id a)) Hh) as (q' & Hpu & Hh').
      rewrite Hpu. cbn [mbind outcome_bind]. eexists _, _. split; [done|].
      split_and!; [|intros eff' Hn|done].
      * rewrite fold_res_app, fold_metric by done. done.
      * cbn [accepts]. rewrite !existsb_app. cbn [existsb is_accept].
        rewrite bool_decide_true, orb_true_l, orb_true_r by done. cbn.
        split; cbn; try done.
        -- eexists; split; [done|]. cbn. rewrite Hacc. by rewrite <-Permutation_cons_append.
        -- intros Hr. destruct (Hret Hr) as (? & _). congruence.
  - apply exec_skip in Hex; [|done].
    destruct (stopped a) eqn:Hs; eexists _, []; (split; [done|]; split; [done|]);
      (split; [|done]); intros eff' Hn; cbn; rewrite app_nil_r; split; cbn; rewrite ?Hs; eauto.
  - apply exec_skip in Hex; [|done].
    destruct (stopped a) eqn:Hs; eexists _, []; (split; [done|]; split; [done|]);
      (split; [|done]); intros eff' Hn; cbn; rewrite app_nil_r; split; cbn; rewrite ?Hs; eauto.
  - eexists _, []. split; [done|]. split_and!; [done| |done].
    intros eff' Hn. cbn. rewrite app_nil_r. apply exec_skip in Hex; [|done].
    split; cbn; eauto. intros Hr. by destruct (Hret Hr) as (? & ? & ?).
  - apply exec_ready in Hex as (Hex & Hb & Hin). rewrite decide_False by done.
    eexists _, []. split; [done|]. split_and!; [done| |done].
    intros eff' Hn. cbn. rewrite app_nil_r. split; cbn; eauto.
Qed.

(** ** Turns of the actor and of the executors *)
Record pool_ok p : Prop := {
  p_core : core (channel p) (exited p) (accepted p) (completed p) (actor p) (live p);
  p_valid : Forall valid_command (channel p);
  p_settled : settled (actor p);
  p_drained : drained p = retiring (actor p) && bool_decide (workers (actor p) = ∅) }.

(** The measure of the drain. *)
Definition mu p : nat :=
  work (actor p) (live p) + 2 * length (channel p) + size (exited p).

Definition internal (l : Label Task) : Prop := match l with Send _ => False | _ => True end.

Lemma turn_ok ev p a1 eff1 :
  on_event name hm ev (actor p) = Ok (a1, eff1) →
  fold_res apply_effect (live p) eff1 = Ok (live p) →
  (∀ eff', no_accept eff' →
    core (channel p) (exited p) (accepted p ++ accepts ev (eff1 ++ eff')) (completed p) a1 (live p)) →
  Forall valid_command (channel p) →
  ∃ p', actor_turn name hm ev p = Ok p' ∧ pool_ok p' ∧ stopped (actor p') = stopped a1 ∧
    (mu p' ≤ work a1 (live p) + 2 * length (channel p) + size (exited p))%nat.
Proof.
  intros Hev Hfold Hcore Hval.
  destruct (schedule_core _ _ _ _ _ _ (Hcore [] no_accept_nil))
    as (a2 & eff2 & ws2 & Hs & Hf2 & _ & Hn2 & _).
  destruct (wind_up a2) as [[a3 eff4] fin] eqn:Hw.
  set (tail := eff2 ++ metric hm (MetricTarget (target a2)) ++ eff4).
  assert (no_accept tail → ∃ p', actor_turn name hm ev p = Ok p' ∧ pool_ok p' ∧
    stopped (actor p') = stopped a1 ∧
    (mu p' ≤ work a1 (live p) + 2 * length (channel p) + size (exited p))%nat) as Hgo.
  - intros Hn. specialize (Hcore tail Hn).
    destruct (schedule_core _ _ _ _ _ _ Hcore)
      as (a2' & eff2' & ws2' & Hs' & Hf2' & Hc2 & _ & Hst2 & Hstaff & Hw2).
    rewrite Hs in Hs'. simplify_eq.
    pose proof (wind_up_core _ _ _ _ _ _ Hc2 Hstaff) as Hwu. rewrite Hw in Hwu.
    destruct Hwu as (ws3 & Hf4 & Hc3 & _ & Hst3 & Hset & Hw3 & ->).
    eexists. split; [|split; [|split]].
    + unfold actor_turn, iterate. rewrite Hev. cbn [mbind outcome_bind]. rewrite Hs.
      cbn [mbind outcome_bind]. rewrite Hw. cbn [mbind outcome_bind].
      rewrite fold_res_app, Hfold. cbn [mbind outcome_bind]. rewrite fold_res_app, Hf2'.
      cbn [mbind outcome_bind]. rewrite fold_res_app, fold_metric by done.
      cbn [mbind outcome_bind]. rewrite Hf4. cbn [mbind outcome_bind]. reflexivity.
    + by split.
    + cbn. by rewrite Hst3.
    + unfold mu; cbn. lia.
  - apply Hgo. apply no_accept_app; [done|]. apply no_accept_app; [by apply no_accept_metric|].
    unfold wind_up in Hw. destruct (_ && _ && _ && _) in Hw; simplify_eq; [|done].
    apply no_accept_close.
Qed.

Lemma exec_update ch ch' xt ex idl nw b wks ws w wk wk' :
  ws !! w = Some wk → open wk' = open wk →
  (∀ w', w' ≠ w → readies w' ch' = readies w' ch) →
  (length (worker_tasks wk') + readies w ch' = length (worker_tasks wk) + readies w ch)%nat →
  exec_ok ch xt ex idl nw b wks ws → exec_ok ch' xt ex idl nw b wks (<[w := wk']> ws).
Proof.
  intros Hwk Ho Hne Hsum [Hnd Hidle Hlive Hfresh Hload Hbusy Hw Hx].
  assert (Hdom : dom (<[w := wk']> ws) = dom ws).
  { rewrite dom_insert_L. apply elem_of_dom_2 in Hwk. set_solver. }
  split; rewrite ?Hdom; try done.
  - intros w'. rewrite Hlive. destruct (decide (w = w')) as [<-|];
      rewrite ?lookup_insert_eq, ?lookup_insert_ne by done; [|done].
    rewrite Hwk. split; intros (k & [= <-] & Hk); eexists; (split; [done|congruence]).
  - intros w'. specialize (Hload w'). destruct (decide (w = w')) as [<-|].
    + rewrite lookup_insert_eq. rewrite Hwk in Hload. cbn in *. lia.
    + by rewrite lookup_insert_ne, Hne by done.
Qed.

Lemma exec_exit ch xt ex idl nw b wks ws w :
  ws !! w = Some (MkWorker [] None false) →
  exec_ok ch xt ex idl nw b wks ws → exec_ok ch ({[w]} ∪ xt) ex idl nw b wks (delete w ws).
Proof.
  intros Hwk [Hnd Hidle Hlive Hfresh Hload Hbusy Hw Hx].
  assert (w ∈ dom ws) as Hd by by apply elem_of_dom_2 in Hwk.
  split; rewrite ?dom_delete_L; try done.
  - intros w'. rewrite Hlive. destruct (decide (w = w')) as [<-|];
      rewrite ?lookup_delete_eq, ?lookup_delete_ne by done; [|done].
    rewrite Hwk. naive_solver.
  - intros w' Hin. apply Hfresh. destruct (decide (w = w')) as [<-|]; set_solver.
  - intros w'. specialize (Hload w'). destruct (decide (w = w')) as [<-|].
    + rewrite lookup_delete_eq. by rewrite Hwk in Hload.
    + by rewrite lookup_delete_ne by done.
  - rewrite Hw. apply set_eq. intros w'. destruct (decide (w = w')) as [<-|]; set_solver.
  - set_solver.
Qed.

(** ** Every step of the pool preserves the invariant and, once stopped,
    every internal step reduces the work left *)
Definition good_step (l : Label Task) p p' : Prop :=
  pool_ok p' ∧
  (stopped (actor p) = true →
    stopped (actor p') = true ∧ (internal l → (mu p' < mu p)%nat)).

Lemma send_good c p r :
  pool_ok p → pool_step name hm (Send c) p = Some r → ∃ p', r = Ok p' ∧ good_step (Send c) p p'.
Proof.
  intros [Hc Hv Hset Hdr]. cbn [pool_step].
  destruct (negb (drained p) && client_command c) eqn:Hg; [|done]. intros [= <-].
  apply andb_true_iff in Hg as [_ Hcc]. eexists; split; [done|]. split; [|by intros Hs; split].
  split; cbn; try done.
  - destruct Hc as [Hex Hb Ht Hst Hrv Hret]. split; try done.
    destruct Hex as [Hnd Hidle Hlive Hfresh Hload Hbusy Hw Hx]. split; try done.
    intros w. rewrite readies_app, <-Hload. by destruct c; cbn; rewrite ?Nat.add_0_r.
  - apply Forall_app; split; [done|]. repeat constructor.
    destruct c; cbn in *; try done; by apply bool_decide_eq_true in Hcc.
Qed.

Lemma recv_good b p r :
  pool_ok p → pool_step name hm (Recv b) p = Some r → ∃ p', r = Ok p' ∧ good_step (Recv b) p p'.
Proof.
  intros [Hc Hv Hset Hdr]. cbn [pool_step].
  destruct (negb (drained p) && receiving (actor p)); [|done].
  destruct (channel p) as [|c ch] eqn:Hch; [done|]. intros [= <-].
  inv Hv. destruct (on_command c b _ _ _ _ _ _ Hc) as (a1 & eff1 & Hev & Hf & Hcore & Hm); [done|].
  edestruct (turn_ok (EvCommand c b) (MkPool (actor p) (drained p) ch (live p) (exited p)
    (accepted p) (completed p)) a1 eff1) as (p' & -> & Hok & Hst & Hmu); try done.
  eexists; split_and!; [done..|]. split; [done|]. intros Hs. destruct (Hm Hs) as [Hs' Hw].
  rewrite Hst. split; [done|]. intros _. unfold mu in *; rewrite Hch; cbn in *. lia.
Qed.

Lemma fire_good id p r :
  pool_ok p → pool_step name hm (Fire id) p = Some r → ∃ p', r = Ok p' ∧ good_step (Fire id) p p'.
Proof.
  intros [Hc Hv Hset Hdr]. cbn [pool_step].
  destruct (negb (drained p) && bool_decide (id ∈ cancellations (actor p))) eqn:Hg; [|done].
  intros [= <-]. apply andb_true_iff in Hg as [_ Hin%bool_decide_eq_true].
  destruct (on_cancelled _ _ _ _ _ _ _ Hc Hin) as (a1 & eff1 & Hev & Hc1 & Hf & _ & Hs1 & Hw1).
  edestruct (turn_ok (EvCancelled id) p a1 eff1) as (p' & -> & Hok & Hst & Hmu); try done.
  { intros eff' _. cbn. by rewrite app_nil_r. }
  eexists; split_and!; [done..|]. split; [done|]. intros Hs. rewrite Hst, Hs1. split; [done|].
  intros _. unfold mu in *. lia.
Qed.

Lemma join_good id p r :
  pool_ok p → pool_step name hm (Join id) p = Some r → ∃ p', r = Ok p' ∧ good_step (Join id) p p'.
Proof.
  intros [Hc Hv Hset Hdr]. cbn [pool_step].
  destruct (negb (drained p) && bool_decide (id ∈ exited p)) eqn:Hg; [|done].
  intros [= <-]. apply andb_true_iff in Hg as [_ Hin%bool_decide_eq_true].
  destruct (on_joined _ _ _ _ _ _ _ Hc Hin) as (a1 & Hev & Hc1 & Hs1 & Hw1).
  edestruct (turn_ok (EvJoined id) (MkPool (actor p) (drained p) (channel p) (live p)
    (exited p ∖ {[id]}) (accepted p) (completed p)) a1 []) as (p' & -> & Hok & Hst & Hmu); try done.
  { intros eff' _. cbn. by rewrite app_nil_r. }
  eexists; split_and!; [done..|]. split; [done|]. intros Hs. rewrite Hst, Hs1. split; [done|].
  intros _. assert (size (exited p ∖ {[id]}) < size (exited p))%nat
    by (apply subset_size; set_solver). unfold mu in *; cbn in *. lia.
Qed.

Lemma worker_recv_good id p r :
  pool_ok p → pool_step name hm (WorkerRecv id) p = Some r →
  ∃ p', r = Ok p' ∧ good_step (WorkerRecv id) p p'.
Proof.
  intros [Hc Hv Hset Hdr]. cbn [pool_step].
  destruct (live p !! id) as [[[|t ts] [t'|] o]|] eqn:Hl; try done. intros [= <-].
  eexists; split; [done|]. split.
  - destruct Hc as [Hex Hb Ht Hst Hrv Hret]. split; try done. split; try done; cbn.
    + eapply exec_update; [exact Hl|done..| |done].
      unfold worker_tasks; cbn. rewrite !length_app; cbn; lia.
    + destruct Hb as (bs & Hh & Ha). exists bs. split; [done|]. rewrite Ha, in_flight_insert,
        (in_flight_delete _ _ _ Hl). unfold worker_tasks; cbn.
      rewrite app_nil_r. by rewrite <-(Permutation_cons_append ts t).
  - intros Hs. split; [done|]. intros _. unfold mu, work; cbn.
    pose proof (potential_update (live p) id _ (MkWorker ts (Some t) o) Hl) as Hp.
    unfold weight in Hp; cbn in Hp. lia.
Qed.

Lemma worker_finish_good id p r :
  pool_ok p → pool_step name hm (WorkerFinish id) p = Some r →
  ∃ p', r = Ok p' ∧ good_step (WorkerFinish id) p p'.
Proof.
  intros [Hc Hv Hset Hdr]. cbn [pool_step].
  destruct (live p !! id) as [[ts [t|] o]|] eqn:Hl; try done. intros [= <-].
  eexists; split; [done|]. split.
  - destruct Hc as [Hex Hb Ht Hst Hrv Hret]. split; try done; cbn.
    + split; try done; cbn.
      * eapply exec_update; [exact Hl|done| | |exact Hex].
        -- intros w' Hw'. rewrite readies_app; cbn. rewrite decide_False by done. lia.
        -- rewrite readies_app; unfold worker_tasks; cbn. rewrite decide_True by done.
           rewrite !length_app; cbn; lia.
      * destruct Hb as (bs & Hh & Ha). exists bs. split; [done|]. rewrite Ha, in_flight_insert,
          (in_flight_delete _ _ _ Hl). unfold worker_tasks; cbn. solve_Permutation.
    + apply Forall_app; split; [done|]. by repeat constructor.
  - intros Hs. split; [done|]. intros _. unfold mu, work; cbn.
    pose proof (potential_update (live p) id _ (MkWorker ts None o) Hl) as Hp.
    unfold weight in Hp; cbn in Hp. rewrite length_app; cbn. lia.
Qed.

Lemma worker_exit_good id p r :
  pool_ok p → pool_step name hm (WorkerExit id) p = Some r →
  ∃ p', r = Ok p' ∧ good_step (WorkerExit id) p p'.
Proof.
  intros [Hc Hv Hset Hdr]. cbn [pool_step].
  destruct (live p !! id) as [[[|t ts] [t'|] [|]]|] eqn:Hl; try done. intros [= <-].
  eexists; split; [done|]. split.
  - destruct Hc as [Hex Hb Ht Hst Hrv Hret]. split; try done. split; try done; cbn.
    + by apply exec_exit.
    + destruct Hb as (bs & Hh & Ha). exists bs. by rewrite (in_flight_delete _ _ _ Hl) in Ha.
  - intros Hs. split; [done|]. intros _. unfold mu, work; cbn.
    rewrite (potential_delete _ _ _ Hl). unfold weight; cbn.
    assert (size ({[id]} ∪ exited p) ≤ S (size (exited p)))%nat; [|lia].
    rewrite size_union_alt, size_singleton.
    pose proof (subseteq_size (exited p ∖ {[id]}) (exited p)). set_solver by lia.
Qed.

Lemma pool_step_ok l p r :
  pool_ok p → pool_step name hm l p = Some r → ∃ p', r = Ok p' ∧ good_step l p p'.
Proof.
  destruct l; eauto using send_good, recv_good, fire_good, join_good, worker_recv_good,
    worker_finish_good, worker_exit_good.
Qed.

Lemma pool_init_ok priority n : 1 ≤ n → pool_ok (pool_init priority n).
Proof.
  intros Hn. split; [|constructor|by split|done]. split; cbn; try done.
  - split; cbn; try done; try set_solver; try constructor.
  - exists []. split; [apply holds_new|]. by rewrite in_flight_empty.
Qed.

Lemma reachable_ok priority n p : 1 ≤ n → reachable name hm priority n p → pool_ok p.
Proof.
  intros Hn. induction 1 as [|l p p' _ IH Hs]; [by apply pool_init_ok|].
  destruct (pool_step_ok _ _ _ IH Hs) as (? & [= <-] & Hok & _). done.
Qed.

(** ** Progress: a stopped pool that has not drained can move *)
Lemma no_deadlock a ws :
  exec_ok [] ∅ (executors a) (idle a) (next_worker a) (busy a) (workers a) ws →
  map_Forall (λ _ wk, worker_tasks wk = [] ∧ open wk = true) ws →
  settled a → stopped a = true → started a = true → 1 ≤ target a →
  (retiring a = true → executors a = ∅) →
  retiring a && bool_decide (workers a = ∅) = true.
Proof.
  intros Hex Hall [Hstaff Hret] Hs Hst Ht Hr.
  destruct Hex as [Hnd Hidle Hlive Hfresh Hload Hbusy Hw Hx].
  assert (Hsub : ∀ w, w ∈ executors a → w ∈ idle a).
  { intros w Hin. specialize (Hload w). cbn in Hload.
    destruct (proj1 (Hlive w) Hin) as (wk & Hwk & _). rewrite Hwk in Hload. cbn in Hload.
    destruct (Hall w wk Hwk) as [Hnil _]. rewrite Hnil in Hload. cbn in Hload.
    destruct (decide (w ∈ idle a)); [done|]. by rewrite decide_True in Hload. }
  assert (size (executors a) ≤ length (idle a))%nat.
  { apply submseteq_length, NoDup_submseteq; [apply NoDup_elements|].
    intros w Hw'%elem_of_elements. auto. }
  assert (length (idle a) ≤ size (executors a))%nat.
  { apply submseteq_length, NoDup_submseteq; [done|]. intros w Hw'. apply elem_of_elements. auto. }
  assert (retiring a = true) as Hrt.
  { destruct (retiring a) eqn:Hrt; [done|]. destruct (Hstaff Hst eq_refl) as [Hsz [Hi|He]].
    - rewrite Hi in *; cbn in *. lia.
    - apply Hret; [done..|lia]. }
  rewrite Hrt. apply bool_decide_eq_true. rewrite Hw.
  assert (ws = ∅) as ->; [|set_solver]. apply map_empty. intros w.
  destruct (ws !! w) as [wk|] eqn:Hwk; [|done].
  assert (w ∈ executors a) as Hin by (apply Hlive; exists wk; by destruct (Hall w wk Hwk)).
  rewrite Hr in Hin by done. set_solver.
Qed.

Lemma progress p :
  pool_ok p → stopped (actor p) = true → drained p = false →
  ∃ l p', internal l ∧ pool_step name hm l p = Some (Ok p').
Proof.
  intros Hok Hs Hd.
  assert ((∃ l, internal l ∧ is_Some (pool_step name hm l p)) → ∃ l p', internal l ∧
    pool_step name hm l p = Some (Ok p')) as Hgo.
  { intros (l & Hi & r & Hl). destruct (pool_step_ok _ _ _ Hok Hl) as (p' & -> & _). eauto. }
  apply Hgo. clear Hgo. destruct Hok as [[Hex Hb Ht Hst Hrv Hret] Hv Hset Hdr].
  destruct (channel p) as [|c ch] eqn:Hch.
  2: { exists (Recv false). cbn. by rewrite Hd, Hrv, Hch. }
  destruct (decide (exited p = ∅)) as [Hx|[id Hid]%set_choose_L].
  2: { exists (Join id). cbn. rewrite Hd, bool_decide_true by done. done. }
  destruct (decide (map_Forall (λ _ wk, worker_tasks wk = [] ∧ open wk = true) (live p)))
    as [Hall|(id & [ts r o] & Hl & Hn)%map_not_Forall].
  - exfalso. rewrite Hx in Hex. rewrite (no_deadlock _ _ Hex) in Hdr; try done; [congruence|auto|].
    intros Hr. by destruct (Hret Hr) as (_ & _ & ?).
  - destruct r as [t|]; [exists (WorkerFinish id)|destruct ts as [|t ts];
      [destruct o; [by destruct Hn|exists (WorkerExit id)]|exists (WorkerRecv id)]];
      cbn; by rewrite Hl.
  - apply _.
Qed.

(** ** Runs after the stop *)
Definition internal_step p p' : Prop := ∃ l, internal l ∧ pool_step name hm l p = Some (Ok p').

Lemma internal_run n p p' :
  pool_ok p → stopped (actor p) = true → nsteps internal_step n p p' →
  pool_ok p' ∧ stopped (actor p') = true ∧ (n + mu p' ≤ mu p)%nat.
Proof.
  intros Hok Hs Hr. induction Hr as [p|n p p1 p2 (l & Hi & Hl) Hr IH]; [done|].
  destruct (pool_step_ok _ _ _ Hok Hl) as (? & [= <-] & Hok1 & Hg).
  destruct (Hg Hs) as [Hs1 Hmu]. specialize (Hmu Hi). destruct (IH Hok1 Hs1) as (? & ? & ?).
  split_and!; [done..|lia].
Qed.

Lemma drained_complete p : pool_ok p → drained p = true → accepted p ≡ₚ completed p.
Proof.
  intros [[Hex (ts & Hh & Hacc) Ht Hst Hrv Hret] Hv Hset Hdr] Hd. rewrite Hd in Hdr.
  symmetry in Hdr. apply andb_true_iff in Hdr as [Hr Hw%bool_decide_eq_true].
  destruct (Hret Hr) as (_ & He & _). apply (holds_is_empty _ _ _ Hh) in He as ->.
  rewrite (ok_workers _ _ _ _ _ _ _ _ Hex) in Hw.
  assert (live p = ∅) as Hl by (apply dom_empty_inv_L; set_solver).
  by rewrite Hacc, Hl, in_flight_empty.
Qed.
End pool_invariant.

(** A run given by its labels, stopping at the first disabled one. *)
Fixpoint pool_after {Task} name hm (p : Pool Task) (ls : list (Label Task)) : Pool Task :=
  match ls with
  | [] => p
  | l :: ls =>
      match pool_step name hm l p with
      | Some (Ok p') => pool_after name hm p' ls
      | _ => p
      end
  end.
Lemma pool_after_reachable {Task} name hm priority n (p : Pool Task) ls :
  reachable name hm priority n p → reachable name hm priority n (pool_after name hm p ls).
Proof.
  revert p; induction ls as [|l ls IH]; intros p Hp; cbn; [done|].
  destruct (pool_step name hm l p) as [[p'| |]|] eqn:Hl; try done. eapply IH, reach_step; eauto.
Qed.

(** * Properties *)

(** C1: the pool actor never panics, whatever clients, executors and
    cancellations do: no [unwrap] on the queue, no missing executor, no
    underflow of [busy], no send to a finished executor.  In every reachable
    state an executor owns at most one task, there are never more running
    tasks than executors, and no accepted task is lost or duplicated: the
    accepted tasks are exactly the queued, the dispatched and the completed. *)
Theorem pool_safety {Task} name hm priority n (p : Pool Task) :
  1 ≤ n → reachable name hm priority n p →
  (∀ l, pool_step name hm l p ≠ Some Panic) ∧
  (∀ w wk, live p !! w = Some wk → (length (worker_tasks wk) ≤ 1)%nat) ∧
  busy (actor p) + Z.of_nat (length (idle (actor p))) = Z.of_nat (size (executors (actor p))) ∧
  ∃ ts, holds (queue (actor p)) (next_id (actor p)) ts ∧
    accepted p ≡ₚ bag_tasks ts ++ in_flight (live p) ++ completed p.
Proof.
  intros Hn Hr. apply reachable_ok in Hr as Hok; [|done].
  pose proof Hok as [[Hex Hbag _ _ _ _] _ _ _]. split_and!; [| | |done].
  - intros l Hl. by destruct (pool_step_ok _ _ _ _ _ Hok Hl) as (? & ? & _).
  - intros w wk Hw. pose proof (ok_load _ _ _ _ _ _ _ _ Hex w) as Hl. rewrite Hw in Hl.
    cbn in Hl. case_decide; lia.
  - pose proof (ok_busy _ _ _ _ _ _ _ _ Hex). lia.
Qed.

Lemma pool_safety_witness :
  let p := pool_after "pool" false (pool_init false 2)
    [Send (Add 0 7 1); Recv false; Send (Start 2); Recv false; WorkerRecv 0; WorkerFinish 0] in
  completed p = [7] ∧
  ∃ ts, holds (queue (actor p)) (next_id (actor p)) ts ∧
    accepted p ≡ₚ bag_tasks ts ++ in_flight (live p) ++ completed p.
Proof.
  split; [vm_compute; reflexivity|].
  apply (pool_safety "pool" false false 2); [done|]. apply pool_after_reachable, reach_init.
Defined.

(** C2: stopping drains.  After the actor has seen [Stop], and without
    further client sends, every run of the actor, its executors and the
    cancellations is finite, and a run that cannot be continued has left the
    loop ([drained]) with every accepted task completed exactly once. *)
Theorem pool_stop_drains {Task} name hm priority n (p : Pool Task) :
  1 ≤ n → reachable name hm priority n p → stopped (actor p) = true →
  (∀ k p', nsteps (internal_step name hm) k p p' → (k ≤ mu p)%nat) ∧
  (∀ p', rtc (internal_step name hm) p p' → ~ (∃ p'', internal_step name hm p' p'') →
    drained p' = true ∧ accepted p' ≡ₚ completed p').
Proof.
  intros Hn Hr Hs. apply reachable_ok in Hr as Hok; [|done]. split.
  - intros k p' Hk. destruct (internal_run _ _ _ _ _ Hok Hs Hk) as (_ & _ & ?). lia.
  - intros p' [k Hk]%rtc_nsteps_1 Hstuck.
    destruct (internal_run _ _ _ _ _ Hok Hs Hk) as (Hok' & Hs' & _).
    destruct (drained p') eqn:Hd; [split; [done|by apply (drained_complete _)]|].
    destruct Hstuck. destruct (progress name hm p' Hok' Hs' Hd) as (l & p'' & Hi & Hl).
    exists p'', l. done.
Qed.

Lemma pool_stop_drains_witness :
  let p := pool_after "pool" true (pool_init true 1)
    [Send (Add 3 7 1); Recv false; Send Stop; Recv false] in
  accepted p = [7] ∧
  ∀ p', rtc (internal_step "pool" true) p p' → ~ (∃ p'', internal_step "pool" true p' p'') →
    drained p' = true ∧ accepted p' ≡ₚ completed p'.
Proof.
  split; [vm_compute; reflexivity|].
  apply (pool_stop_drains "pool" true true 1);
    [done|apply pool_after_reachable, reach_init|vm_compute; reflexivity].
Defined.
