(* ===== verification/Context.v ===== *)
(** Message contexts and payloads, [src/src/runtime/common.rs].

    Strings are Coq strings (header names and values are ASCII), instants and
    durations are nanosecond counts, [instant_max] is the largest [Instant] of
    the platform ([Instant + Duration] panics above it).  The cancellation
    token of [tokio_util] and the OpenTelemetry context are parameters: a token
    is read through [token_cancelled], a propagator is a pair of functions. *)

From S2P Require Import Prelude.
From Stdlib Require Import Strings.Ascii.
From Stdlib Require Strings.String.
Local Open Scope Z_scope.

Definition STREAM_ID_HEADER : string := "x-stream-id".
Definition TRACE_SAMPLING_HEADER : string := "x-trace".

(** * Trace headers *)
Definition ascii_Z (c : ascii) : Z := Z.of_N (N_of_ascii c).
Definition hex_digit (c : ascii) : option Z :=
  let z := ascii_Z c in
  if decide (48 ≤ z ≤ 57) then Some (z - 48)
  else if decide (97 ≤ z ≤ 102) then Some (z - 87)
  else if decide (65 ≤ z ≤ 70) then Some (z - 55)
  else None.
Definition is_ascii_hexdigit (c : ascii) : bool := bool_decide (is_Some (hex_digit c)).

Definition substring_list (s : list ascii) (from to : nat) : list ascii :=
  take (to - from) (drop from s).

(** [u8::from_str_radix(_, 16)] on two digits. *)
Definition from_hex2 (s : list ascii) : option Z :=
  match s with
  | [a; b] => x ← hex_digit a; y ← hex_digit b; Some (16 * x + y)
  | _ => None
  end.

(** The check of one byte by position: dashes at 2, 35 and 52. *)
Definition hex_or_dash (index : nat) (c : ascii) : bool :=
  bool_decide (index = 2%nat ∨ index = 35%nat ∨ index = 52%nat) || is_ascii_hexdigit c.

Definition traceparent_flags (value : string) : option Z :=
  let bytes := String.list_ascii_of_string value in
  if decide (length bytes ≠ 55%nat ∨ bytes !! 2%nat ≠ Some "-"%char ∨
             bytes !! 35%nat ≠ Some "-"%char ∨ bytes !! 52%nat ≠ Some "-"%char)
  then None
  else if negb (forallb (λ p : nat * ascii, hex_or_dash p.1 p.2) (imap (λ i c, (i, c)) bytes))
  then None
  else if decide (substring_list bytes 0 2 = ["f"; "f"]%char)
       then None
  else if forallb (λ c, bool_decide (c = "0"%char)) (substring_list bytes 3 35) then None
  else if forallb (λ c, bool_decide (c = "0"%char)) (substring_list bytes 36 52) then None
  else from_hex2 (substring_list bytes 53 55).

Definition traceparent_is_sampled (value : string) : bool :=
  match traceparent_flags value with
  | Some flags => negb (bool_decide (Z.land flags 1 = 0))
  | None => false
  end.

(** * Message contexts *)
Section context.
Context {Token Otel Any : Type} (instant_max : Z).

Record MessageContext := MkContext {
  cancellation : Token;
  deadline : option Z;
  metadata : gmap string string;
  open_telemetry : Otel;
  sampling_enabled : bool;
  priority : option Z;
  local_values : list (Z * Any) }.

(** [fresh] is the token made by [CancellationToken::new()], [root] the empty
    OpenTelemetry context. *)
Definition new (fresh : Token) (root : Otel) : MessageContext :=
  MkContext fresh None ∅ root false None [].

(** [child_token] is the result of [self.cancellation.child_token()]. *)
Definition child (self : MessageContext) (child_token : Token) : MessageContext :=
  MkContext child_token (deadline self) (metadata self) (open_telemetry self)
    (sampling_enabled self) (priority self) (local_values self).

Definition set_deadline (self : MessageContext) (d : option Z) : MessageContext :=
  MkContext (cancellation self) d (metadata self) (open_telemetry self)
    (sampling_enabled self) (priority self) (local_values self).
Definition set_metadata (self : MessageContext) (m : gmap string string) : MessageContext :=
  MkContext (cancellation self) (deadline self) m (open_telemetry self)
    (sampling_enabled self) (priority self) (local_values self).

Definition with_deadline (fresh : Token) (root : Otel) (d : Z) : MessageContext :=
  set_deadline (new fresh root) (Some d).

(** [Instant + Duration]. *)
Definition instant_add (now d : Z) : outcome Empty_set Z :=
  if decide (now + d ≤ instant_max) then Ok (now + d) else Panic.

Definition with_timeout (fresh : Token) (root : Otel) (now timeout : Z) :
    outcome Empty_set MessageContext :=
  with_deadline fresh root <$> instant_add now timeout.

Definition with_timeout_limit (self : MessageContext) (now timeout : Z) :
    outcome Empty_set MessageContext :=
  d ← instant_add now timeout;
  match deadline self with
  | Some current => if decide (d < current) then Ok (set_deadline self (Some d)) else Ok self
  | None => Ok (set_deadline self (Some d))
  end.

(** A context key is its identity. *)
Definition with_local_value (self : MessageContext) (key : Z) (value : Any) : MessageContext :=
  MkContext (cancellation self) (deadline self) (metadata self) (open_telemetry self)
    (sampling_enabled self) (priority self) ((key, value) :: local_values self).

(** The walk over the bindings; [downcast] is [Arc::downcast]. *)
Fixpoint find_binding {T} (downcast : Any → option T) (key : Z) (l : list (Z * Any)) : option T :=
  match l with
  | [] => None
  | (k, v) :: l => if decide (k = key) then downcast v else find_binding downcast key l
  end.
Definition local_value {T} (downcast : Any → option T) (self : MessageContext) (key : Z) : option T :=
  find_binding downcast key (local_values self).

(** [extract] is the text map propagator. *)
Definition with_metadata (extract : gmap string string → Otel) (self : MessageContext)
    (md : gmap string string) : MessageContext :=
  let explicit_sampling :=
    match md !! TRACE_SAMPLING_HEADER with
    | Some value => negb (bool_decide (value = ""%string))
    | None => false
    end in
  let sampled_parent :=
    match md !! "traceparent"%string with
    | Some value => traceparent_is_sampled value
    | None => false
    end in
  let valid_parent :=
    match md !! "traceparent"%string with
    | Some value => bool_decide (is_Some (traceparent_flags value))
    | None => false
    end in
  let sampling := explicit_sampling || sampled_parent in
  MkContext (cancellation self) (deadline self) md
    (if sampling || valid_parent then extract md else open_telemetry self)
    sampling (priority self) (local_values self).

Definition with_metadata_untraced (self : MessageContext) (md : gmap string string) :
    MessageContext := set_metadata self md.

Definition with_stream_id (self : MessageContext) (stream_id : string) : MessageContext :=
  set_metadata self (<[STREAM_ID_HEADER := stream_id]> (metadata self)).
Definition stream_id (self : MessageContext) : option string :=
  metadata self !! STREAM_ID_HEADER.

Definition remaining (self : MessageContext) (now : Z) : option Z :=
  (λ d, saturating_sub d now) <$> deadline self.

Definition with_open_telemetry_context (self : MessageContext) (c : Otel) : MessageContext :=
  MkContext (cancellation self) (deadline self) (metadata self) c
    (sampling_enabled self) (priority self) (local_values self).

(** [span] is [None] for a disabled span, else the context of the span. *)
Definition with_span_context (self : MessageContext) (span : option Otel) : MessageContext :=
  match span with
  | Some c => if sampling_enabled self then with_open_telemetry_context self c else self
  | None => self
  end.

Definition enable_sampling (self : MessageContext) : MessageContext :=
  MkContext (cancellation self) (deadline self)
    (<[TRACE_SAMPLING_HEADER := "1"%string]> (metadata self)) (open_telemetry self)
    true (priority self) (local_values self).

Definition with_priority (self : MessageContext) (p : Z) : MessageContext :=
  MkContext (cancellation self) (deadline self) (metadata self) (open_telemetry self)
    (sampling_enabled self) (Some p) (local_values self).

(** [span_valid] and [inject] are the OpenTelemetry side. *)
Definition extend_transport_metadata_with_tracing (span_valid : Otel → bool)
    (inject : Otel → gmap string string → gmap string string) (self : MessageContext)
    (md : gmap string string) (tracing_enabled : bool) : gmap string string :=
  let md :=
    match metadata self !! STREAM_ID_HEADER with
    | Some value => <[STREAM_ID_HEADER := value]> md
    | None => md
    end in
  if negb tracing_enabled then md
  else
    let md :=
      match metadata self !! TRACE_SAMPLING_HEADER with
      | Some value => <[TRACE_SAMPLING_HEADER := value]> md
      | None => md
      end in
    if span_valid (open_telemetry self) then inject (open_telemetry self) md else md.

Definition transport_metadata_with_tracing span_valid inject (self : MessageContext)
    (tracing_enabled : bool) : gmap string string :=
  extend_transport_metadata_with_tracing span_valid inject self ∅ tracing_enabled.

(** *** gRPC deadlines *)
Definition digit (c : ascii) : option Z :=
  let z := ascii_Z c in if decide (48 ≤ z ≤ 57) then Some (z - 48) else None.
Fixpoint parse_digits (acc : Z) (s : list ascii) : option Z :=
  match s with
  | [] => Some acc
  | c :: s =>
      d ← digit c;
      if decide (10 * acc + d ≤ u64_max) then parse_digits (10 * acc + d) s else None
  end.
(** [str::parse::<u64>]: an optional plus sign and at least one digit. *)
Definition parse_u64 (s : list ascii) : option Z :=
  let s := match s with "+"%char :: s => s | _ => s end in
  match s with [] => None | _ => parse_digits 0 s end.

Definition NANOS : Z := 1000000000.
(** Durations in nanoseconds; the hour and minute products saturate. *)
Definition grpc_timeout (value : string) : option Z :=
  let bytes := String.list_ascii_of_string value in
  match last bytes with
  | None => None
  | Some unit =>
      number ← parse_u64 (take (length bytes - 1) bytes);
      if decide (unit = "H"%char) then Some (saturating_mul u64_max number (60 * 60) * NANOS)
      else if decide (unit = "M"%char) then Some (saturating_mul u64_max number 60 * NANOS)
      else if decide (unit = "S"%char) then Some (number * NANOS)
      else if decide (unit = "m"%char) then Some (number * 1000000)
      else if decide (unit = "u"%char) then Some (number * 1000)
      else if decide (unit = "n"%char) then Some number
      else None
  end.

(** The ASCII entries of a request, [None] for a value that is not text. *)
Definition keep_entry (tracing_enabled : bool) (entry : string * option string) :
    option (string * string) :=
  let '(name, value) := entry in
  if negb tracing_enabled && bool_decide (name = TRACE_SAMPLING_HEADER ∨ name = "traceparent"%string
       ∨ name = "tracestate"%string ∨ name = "baggage"%string)
  then None else (λ v, (name, v)) <$> value.

Definition from_tonic_request_with_tracing (fresh : Token) (root : Otel)
    (extract : gmap string string → Otel) (now : Z) (entries : list (string * option string))
    (tracing_enabled : bool) : outcome Empty_set MessageContext :=
  let md := collect_map (omap (keep_entry tracing_enabled) entries) in
  let timeout := md !! "grpc-timeout"%string ≫= grpc_timeout in
  let context :=
    if tracing_enabled then with_metadata extract (new fresh root) md
    else with_metadata_untraced (new fresh root) md in
  match timeout with
  | Some timeout =>
      d ← instant_add now timeout;
      Ok (set_deadline context (Some d))
  | None => Ok context
  end.

(** [token_cancelled] is the state of the token. *)
Definition is_cancelled (token_cancelled : Token → bool) (self : MessageContext) (now : Z) : bool :=
  token_cancelled (cancellation self) ||
  match deadline self with Some d => bool_decide (d ≤ now) | None => false end.
End context.
Arguments MessageContext : clear implicits.

(** * Transport operations that outlive their caller

    [CompleteOnDrop] as the executor sees it: the future it owns ([None] once
    it completed or was handed over), the [polling] flag, the cancellation of
    its context and the futures given to [tokio::spawn]. *)
Inductive Poll := Ready | Pending | Panicked.
#[export] Instance poll_eq_dec : EqDecision Poll.
Proof. solve_decision. Defined.

Record CompleteOnDrop := MkOperation {
  future : bool;
  polling : bool;
  ctx_cancelled : bool;
  spawned : nat }.

Definition operation_new : CompleteOnDrop := MkOperation true false false 0.

(** [poll]: [result] is what the inner future answers; a panic leaves the
    [polling] flag set. *)
Definition poll (self : CompleteOnDrop) (result : Poll) : outcome Empty_set CompleteOnDrop :=
  if negb (future self) then Panic
  else match result with
       | Ready => Ok (MkOperation false false (ctx_cancelled self) (spawned self))
       | Pending => Ok (MkOperation true false (ctx_cancelled self) (spawned self))
       | Panicked => Ok (MkOperation true true (ctx_cancelled self) (spawned self))
       end.

Definition drop_operation (self : CompleteOnDrop) : CompleteOnDrop :=
  if future self
  then MkOperation false (polling self) true
         (if polling self then spawned self else S (spawned self))
  else self.

(** * Lemmas *)
Section traceparent.
Implicit Types s v t sp fl : list ascii.
Notation hex s := (Forall (λ c, is_ascii_hexdigit c = true) s).

Lemma imap_forallb (P : nat → ascii → bool) s :
  forallb (λ p : nat * ascii, P p.1 p.2) (imap (λ i c, (i, c)) s) = true
  ↔ ∀ i c, s !! i = Some c → P i c = true.
Proof.
  rewrite forallb_forall. setoid_rewrite <-list_elem_of_In.
  setoid_rewrite elem_of_lookup_imap. split.
  - intros Hp i c Hi. apply (Hp (i, c)). eauto.
  - intros Hp x (i & c & -> & Hi). by apply Hp.
Qed.

(** A string of 55 bytes with the three dashes splits into four fields. *)
Lemma split_fields s :
  length s = 55%nat → s !! 2%nat = Some "-"%char → s !! 35%nat = Some "-"%char →
  s !! 52%nat = Some "-"%char →
  s = substring_list s 0 2 ++ "-"%char :: substring_list s 3 35 ++ "-"%char ::
      substring_list s 36 52 ++ "-"%char :: substring_list s 53 55.
Proof.
  intros Hlen H2 H35 H52. unfold substring_list.
  rewrite <-(take_drop_middle s 2 _ H2) at 1. f_equal; try done. f_equal.
  rewrite <-(take_drop 32 (drop 3 s)) at 1. f_equal; try done.
  rewrite drop_drop; cbn [Nat.add].
  rewrite (drop_S s _ 35 H35). f_equal.
  rewrite <-(take_drop 16 (drop 36 s)) at 1. f_equal; try done.
  rewrite drop_drop; cbn [Nat.add].
  rewrite (drop_S s _ 52 H52). f_equal. rewrite take_ge; [done|].
  rewrite length_drop. lia.
Qed.

Definition traceparent_of v t sp fl : list ascii :=
  v ++ "-"%char :: t ++ "-"%char :: sp ++ "-"%char :: fl.

Lemma fields_substring v t sp fl :
  length v = 2%nat → length t = 32%nat → length sp = 16%nat → length fl = 2%nat →
  let s := traceparent_of v t sp fl in
  length s = 55%nat ∧
  (s !! 2%nat = Some "-"%char ∧ s !! 35%nat = Some "-"%char ∧ s !! 52%nat = Some "-"%char) ∧
  substring_list s 0 2 = v ∧ substring_list s 3 35 = t ∧
  substring_list s 36 52 = sp ∧ substring_list s 53 55 = fl.
Proof.
  intros Hv Ht Hs Hf s.
  assert (Hd3 : drop 3 s = t ++ "-"%char :: sp ++ "-"%char :: fl).
  { unfold s, traceparent_of. change 3%nat with (2 + 1)%nat. rewrite <-drop_drop, drop_app_length'; done. }
  assert (Hd36 : drop 36 s = sp ++ "-"%char :: fl).
  { change 36%nat with (3 + 33)%nat. rewrite <-drop_drop, Hd3.
    change 33%nat with (32 + 1)%nat. rewrite <-drop_drop, drop_app_length'; done. }
  assert (Hd53 : drop 53 s = fl).
  { change 53%nat with (36 + 17)%nat. rewrite <-drop_drop, Hd36.
    change 17%nat with (16 + 1)%nat. rewrite <-drop_drop, drop_app_length'; done. }
  unfold substring_list. rewrite Hd3, Hd36, Hd53, drop_0. cbn [Nat.sub].
  split_and!.
  - unfold s, traceparent_of. repeat (rewrite length_app; cbn [length]). lia.
  - unfold s, traceparent_of. rewrite lookup_app_r by lia. by rewrite Hv.
  - change 35%nat with (3 + 32)%nat. rewrite <-lookup_drop, Hd3.
    rewrite lookup_app_r by lia. by rewrite Ht.
  - change 52%nat with (36 + 16)%nat. rewrite <-lookup_drop, Hd36.
    rewrite lookup_app_r by lia. by rewrite Hs.
  - by apply take_app_length'. - by apply take_app_length'. - by apply take_app_length'.
  - rewrite take_ge; [done|lia].
Qed.

Lemma hex_positions s :
  (∀ i c, s !! i = Some c → hex_or_dash i c = true) →
  hex (substring_list s 0 2) ∧ hex (substring_list s 3 35) ∧
  hex (substring_list s 36 52) ∧ hex (substring_list s 53 55).
Proof.
  intros Hs. unfold substring_list, hex_or_dash in *. split_and!; apply Forall_lookup; intros i c Hi;
    apply lookup_take_Some in Hi as [Hi Hlt]; rewrite lookup_drop in Hi;
    specialize (Hs _ _ Hi); rewrite bool_decide_false in Hs by lia; done.
Qed.

Lemma positions_hex v t sp fl i c :
  length v = 2%nat → length t = 32%nat → length sp = 16%nat →
  hex v → hex t → hex sp → hex fl → traceparent_of v t sp fl !! i = Some c →
  hex_or_dash i c = true.
Proof.
  intros Hv Ht Hs Fv Ft Fs Ff. unfold traceparent_of, hex_or_dash.
  assert (∀ l (j : nat) k, hex l → l !! j = Some k → is_ascii_hexdigit k = true) as Hl.
  { intros l j k Hall Hj. by eapply (proj1 (Forall_lookup _ _) Hall). }
  intros [Hi|[Hge Hi]]%lookup_app_Some; [by rewrite (Hl _ _ _ Fv Hi), orb_true_r|].
  destruct (decide (i = 2%nat)) as [->|]; [done|].
  rewrite lookup_cons_ne_0 in Hi by lia.
  apply lookup_app_Some in Hi as [Hi|[Hge2 Hi]]; [by rewrite (Hl _ _ _ Ft Hi), orb_true_r|].
  destruct (decide (i = 35%nat)) as [->|]; [done|].
  rewrite lookup_cons_ne_0 in Hi by lia.
  apply lookup_app_Some in Hi as [Hi|[Hge3 Hi]]; [by rewrite (Hl _ _ _ Fs Hi), orb_true_r|].
  destruct (decide (i = 52%nat)) as [->|]; [done|].
  rewrite lookup_cons_ne_0 in Hi by lia. by rewrite (Hl _ _ _ Ff Hi), orb_true_r.
Qed.
End traceparent.

(** ** Derivation: every way to make a context from another one *)
Section derivation.
Context {Token Otel Any : Type} (instant_max : Z) (extract : gmap string string → Otel).
Context (token_child : Token → Token → Prop).
Notation Ctx := (MessageContext Token Otel Any).
Implicit Types c : Ctx.

Inductive derives : Ctx → Ctx → Prop :=
| der_child c tok : token_child (cancellation c) tok → derives c (child c tok)
| der_timeout c now timeout c' :
    with_timeout_limit instant_max c now timeout = Ok c' → derives c c'
| der_metadata c md : derives c (with_metadata extract c md)
| der_untraced c md : derives c (with_metadata_untraced c md)
| der_stream_id c id : derives c (with_stream_id c id)
| der_otel c o : derives c (with_open_telemetry_context c o)
| der_span c o : derives c (with_span_context c o)
| der_sampling c : derives c (enable_sampling c)
| der_priority c p : derives c (with_priority c p)
| der_local c k v : derives c (with_local_value c k v).

Definition deadline_le (a b : option Z) : Prop :=
  match a, b with Some x, Some y => x ≤ y | _, None => True | None, Some _ => False end.

Lemma derives_deadline c c' : derives c c' → deadline_le (deadline c') (deadline c).
Proof.
  assert (Hrefl : ∀ o, deadline_le o o) by (intros [d|]; cbn; [lia|done]).
  destruct 1 as [| c now timeout c' Hd| | | | |c [o|]| | |]; cbn; try apply Hrefl.
  - unfold with_timeout_limit in Hd. apply bind_Ok in Hd as (d & _ & Hd).
    destruct (deadline c) as [cur|] eqn:Hc; [|by destruct (deadline c')].
    case_decide; simplify_eq/=; rewrite ?Hc; cbn; lia.
  - destruct (sampling_enabled c); apply Hrefl.
Qed.

Lemma derives_token c c' : derives c c' →
  cancellation c' = cancellation c ∨ token_child (cancellation c) (cancellation c').
Proof.
  destruct 1 as [| c now timeout c' Hd| | | | |c [o|]| | |]; cbn; auto.
  - unfold with_timeout_limit in Hd. apply bind_Ok in Hd as (d & _ & Hd).
    destruct (deadline c) as [cur|]; [case_decide|]; simplify_eq/=; auto.
  - destruct (sampling_enabled c); auto.
Qed.
End derivation.

(** ** Histories of a transport operation *)
Inductive operation_reach : CompleteOnDrop → option Poll → bool → Prop :=
| op_new : operation_reach operation_new None false
| op_poll s r last result s' :
    operation_reach s last false → r ≠ Some Panicked → last = r → future s = true →
    poll s result = Ok s' → operation_reach s' (Some result) false
| op_drop s last : operation_reach s last false → operation_reach (drop_operation s) last true.

Lemma operation_reach_inv s last dropped :
  operation_reach s last dropped →
  if dropped then
    future s = false ∧
    (last = Some Ready → ctx_cancelled s = false ∧ spawned s = 0%nat) ∧
    (last = Some Panicked → ctx_cancelled s = true ∧ spawned s = 0%nat) ∧
    (last = None ∨ last = Some Pending → ctx_cancelled s = true ∧ spawned s = 1%nat)
  else
    ctx_cancelled s = false ∧ spawned s = 0%nat ∧
    future s = negb (bool_decide (last = Some Ready)) ∧
    polling s = bool_decide (last = Some Panicked).
Proof.
  induction 1 as [|s r last result s' _ IH Hr Hl Hf Hp|s last _ IH]; [done| |].
  - destruct IH as (Hc & Hs & _ & _). unfold poll in Hp. rewrite Hf in Hp.
    destruct result; cbn in Hp; simplify_eq; cbn; rewrite Hc, Hs; done.
  - destruct IH as (Hc & Hs & Hf & Hp). unfold drop_operation. rewrite Hf, Hp.
    destruct last as [[]|]; cbn; rewrite ?Hc, ?Hs, ?Hf; naive_solver.
Qed.

(** * Properties *)

(** the trace header parser accepts exactly the W3C version-00 layout:
    four hexadecimal fields of 2, 32, 16 and 2 digits separated by dashes,
    whose version is not [ff] and whose trace and span identifiers are not all
    zero; the answer is the value of the last field. *)
Theorem traceparent_grammar (value : string) flags :
  traceparent_flags value = Some flags ↔
  ∃ v t sp fl,
    String.list_ascii_of_string value = traceparent_of v t sp fl ∧
    length v = 2%nat ∧ length t = 32%nat ∧ length sp = 16%nat ∧ length fl = 2%nat ∧
    Forall (λ c, is_ascii_hexdigit c = true) (v ++ t ++ sp ++ fl) ∧
    v ≠ ["f"; "f"]%char ∧ Exists (.≠ "0"%char) t ∧ Exists (.≠ "0"%char) sp ∧
    from_hex2 fl = Some flags.
Proof.
  assert (Hz : ∀ l, forallb (λ c, bool_decide (c = "0"%char)) l = false ↔ Exists (.≠ "0"%char) l).
  { intros l. induction l as [|c l IH]; cbn; [by rewrite Exists_nil|].
    rewrite Exists_cons, <-IH. case_bool_decide; cbn; intuition congruence. }
  unfold traceparent_flags. set (s := String.list_ascii_of_string value).
  setoid_rewrite Forall_app. setoid_rewrite Forall_app. setoid_rewrite Forall_app. split.
  - case_decide as H1; [done|]. destruct (forallb _ (imap _ s)) eqn:H2; cbn [negb]; [|done].
    case_decide as H3; [done|]. destruct (forallb _ (substring_list s 3 35)) eqn:H4; [done|].
    destruct (forallb _ (substring_list s 36 52)) eqn:H5; [done|]. intros H6.
    assert (length s = 55%nat ∧ s !! 2%nat = Some "-"%char ∧ s !! 35%nat = Some "-"%char ∧
      s !! 52%nat = Some "-"%char) as (Hlen & ? & ? & ?).
    { split_and!; apply dec_stable; tauto. }
    pose proof (hex_positions s (proj1 (imap_forallb hex_or_dash s) H2)) as Hhex.
    exists (substring_list s 0 2), (substring_list s 3 35), (substring_list s 36 52),
      (substring_list s 53 55).
    split; [by apply split_fields|]. rewrite <-!Hz. unfold substring_list.
    rewrite !length_take, !length_drop, Hlen. split_and!; try done; tauto.
  - intros (v & t & sp & fl & Hs & Hv & Ht & Hsp & Hfl & (Fv & Ft & Fsp & Ffl) & Hff & Zt & Zsp & Hx).
    destruct (fields_substring v t sp fl Hv Ht Hsp Hfl) as (Hlen & (? & ? & ?) & S1 & S2 & S3 & S4).
    rewrite <-Hs in *. rewrite decide_False by tauto.
    rewrite (proj2 (imap_forallb hex_or_dash s)) by (rewrite Hs; eauto using positions_hex).
    cbn [negb].
    rewrite S1, S2, S3, S4, decide_False by done. rewrite <-Hz in Zt, Zsp. by rewrite Zt, Zsp.
Qed.

(** cancellation is inherited.  Whatever sequence of derivations (child
    scopes, timeout limits, metadata, spans, priorities, local values) leads
    from a cancelled context to another one, that one is cancelled too, at any
    later time, and its deadline is never later. *)
Theorem cancellation_inherited {Token Otel Any} instant_max (extract : gmap string string → Otel)
    (token_child : Token → Token → Prop) (before after : Token → bool)
    (c c' : MessageContext Token Otel Any) now now' :
  (∀ t, before t = true → after t = true) →
  (∀ t t', token_child t t' → after t = true → after t' = true) →
  rtc (derives instant_max extract token_child) c c' → now ≤ now' →
  deadline_le (deadline c') (deadline c) ∧
  (is_cancelled before c now = true → is_cancelled after c' now' = true).
Proof.
  intros Hmono Hchild Hd Hnow.
  assert (deadline_le (deadline c') (deadline c) ∧
    (after (cancellation c) = true → after (cancellation c') = true)) as [Hle Htok].
  { induction Hd as [c|c c1 c2 H1 _ [IHd IHt]].
    { split; [|done]. destruct (deadline c); cbn; [lia|done]. }
    apply derives_deadline in H1 as Hd1. apply derives_token in H1 as Ht1. split.
    - destruct (deadline c), (deadline c1), (deadline c2); cbn in *; try done; lia.
    - intros Ha. apply IHt. destruct Ht1 as [->|]; [done|]. by eapply Hchild. }
  split; [done|]. unfold is_cancelled. rewrite !orb_true_iff. intros [Hb|Hdl]; [by left; auto|right].
  destruct (deadline c), (deadline c'); cbn in *; try done.
  rewrite bool_decide_eq_true in *. lia.
Qed.

(** Tokens of a cancellation tree as paths; a token is cancelled when a prefix
    of it is. *)
Lemma cancellation_inherited_witness :
  let after := λ t : list nat, bool_decide (t = [1%nat] ∨ t = [1%nat; 2%nat]) in
  let c := MkContext (Any := unit) [1%nat] (Some 100) ∅ tt false None [] in
  let c' := with_priority (child c [1%nat; 2%nat]) 5 in
  deadline_le (deadline c') (deadline c) ∧
  (is_cancelled (λ _, false) c 120 = true → is_cancelled after c' 130 = true).
Proof.
  intros after c c'.
  apply (cancellation_inherited 1000 (λ _, tt)
    (λ t t', t = [1%nat] ∧ t' = [1%nat; 2%nat]) (λ _, false) after c c' 120 130); [done| | |done].
  - intros t t' [-> ->] _. vm_compute. reflexivity.
  - eapply rtc_l; [by apply (der_child _ _ _ c [1%nat; 2%nat])|]. apply rtc_once, der_priority.
Defined.

(** the transport metadata carries what the receiver needs: a context
    rebuilt from it has the sender's stream identifier, and with tracing
    enabled an explicitly sampled request stays sampled and its header is
    kept; with tracing disabled nothing but the stream identifier crosses. *)
Theorem transport_roundtrip {Token Otel Any} span_valid inject (extract : gmap string string → Otel)
    (c r : MessageContext Token Otel Any) tracing :
  (∀ o md h, h = STREAM_ID_HEADER ∨ h = TRACE_SAMPLING_HEADER → inject o md !! h = md !! h) →
  let md := transport_metadata_with_tracing span_valid inject c tracing in
  let received := with_metadata extract r md in
  stream_id received = stream_id c ∧
  (tracing = true → metadata received !! TRACE_SAMPLING_HEADER = metadata c !! TRACE_SAMPLING_HEADER ∧
    ((∃ v, metadata c !! TRACE_SAMPLING_HEADER = Some v ∧ v ≠ ""%string) →
      sampling_enabled received = true)) ∧
  (tracing = false → dom md ⊆ {[STREAM_ID_HEADER]} ∧ sampling_enabled received = false).
Proof.
  intros Hinj md received.
  assert (Hm : ∀ h, h = STREAM_ID_HEADER ∨ (h = TRACE_SAMPLING_HEADER ∧ tracing = true) →
    md !! h = metadata c !! h).
  { intros h Hh. unfold md, transport_metadata_with_tracing, extend_transport_metadata_with_tracing.
    destruct Hh as [->|[-> ->]]; [destruct tracing|]; cbn [negb];
      destruct (metadata c !! STREAM_ID_HEADER) eqn:?, (metadata c !! TRACE_SAMPLING_HEADER) eqn:?;
      try destruct (span_valid _); rewrite ?Hinj by auto; simplify_map_eq; done. }
  split_and!.
  - by apply Hm; left.
  - intros ->. split; [apply Hm; auto|]. intros (v & Hv & Hne).
    pose proof (Hm TRACE_SAMPLING_HEADER ltac:(auto)) as Ht. rewrite Hv in Ht. clearbody md.
    unfold received, with_metadata; cbn [sampling_enabled]. rewrite Ht. by rewrite bool_decide_false.
  - intros ->. unfold received, md, transport_metadata_with_tracing,
      extend_transport_metadata_with_tracing; cbn [negb].
    destruct (metadata c !! STREAM_ID_HEADER); split; cbn; simplify_map_eq; try done; set_solver.
Qed.

Lemma transport_roundtrip_witness :
  let c := enable_sampling (with_stream_id (new (Token := unit) (Any := unit) tt tt) "s-1"%string) in
  let md := transport_metadata_with_tracing (λ _, false) (λ _ md, md) c true in
  stream_id (with_metadata (λ _, tt) c md) = Some "s-1"%string.
Proof.
  intros c md.
  destruct (transport_roundtrip (λ _, false) (λ _ md, md) (λ _, tt) c c true) as [H _]; [done|].
  unfold md. rewrite H. reflexivity.
Defined.

(** a transport operation whose caller goes away is neither lost nor run
    twice: dropping it before completion cancels its context and hands the
    future over exactly once; dropping it after completion does neither, and a
    future that panicked is never resumed. *)
Theorem complete_on_drop_once s last :
  operation_reach s last true →
  (last = Some Ready → ctx_cancelled s = false ∧ spawned s = 0%nat) ∧
  (last = Some Panicked → ctx_cancelled s = true ∧ spawned s = 0%nat) ∧
  (last = None ∨ last = Some Pending → ctx_cancelled s = true ∧ spawned s = 1%nat).
Proof. intros Hr%operation_reach_inv. tauto. Qed.

Lemma complete_on_drop_once_witness :
  let s := drop_operation (MkOperation true false false 0) in
  ctx_cancelled s = true ∧ spawned s = 1%nat.
Proof.
  apply (complete_on_drop_once _ (Some Pending)); [|by right].
  apply op_drop. by apply (op_poll operation_new None None Pending); [apply op_new|..].
Defined.

(** A peer can make the server panic: a timeout whose sum with the current
    instant is not representable (an instant holds 64-bit signed seconds). *)
Theorem huge_grpc_timeout_panics {Token Otel Any} instant_max fresh root
    (extract : gmap string string → Otel) now tracing_enabled :
  0 ≤ now → instant_max ≤ 2 ^ 63 * NANOS →
  from_tonic_request_with_tracing (Token := Token) (Any := Any) instant_max fresh root extract now
    [("grpc-timeout"%string, Some "18446744073709551615S"%string)] tracing_enabled = Panic.
Proof.
  intros Hn Hmax. unfold from_tonic_request_with_tracing.
  replace (omap (keep_entry tracing_enabled) _) with [("grpc-timeout"%string, "18446744073709551615S"%string)]
    by (destruct tracing_enabled; vm_compute; reflexivity).
  replace (_ ≫= grpc_timeout) with (Some (18446744073709551615 * NANOS)) by (vm_compute; reflexivity).
  unfold instant_add. rewrite decide_False; [done|]. unfold NANOS in *. lia.
Qed.
