(* ===== verification/DelayPool.v ===== *)
(** The delay pool, [src/src/runtime/pool/delaypool.rs].

    The state holds the admission flag, the spawned operations with their
    phase, the pool's gauges and a log of callback starts; time and context
    cancellations are steps of their own.  [delay] is the whole admission
    function; [ready_first], [ready_timer] and [ready_cancelled] are the three
    ways [wait_ready] ends; [execute_begin] and [execute_end] are the two
    halves of [execute] around the callback. *)

From S2P Require Import Prelude Errors Context.
Local Open Scope Z_scope.

(** Tokens are numbers; the OpenTelemetry context and local values play no role. *)
Notation Ctx := (MessageContext Z unit unit).

Inductive DelayPhase := Spawned | Selecting | Executing (cancelled : bool).

Record ScheduledDelay := MkScheduled {
  sd_context : Ctx;
  run_at : Z;
  expedited_by_deadline : bool;
  requested_at : option Z;
  phase : DelayPhase }.

Record DelayPool := MkDelayPool {
  stopped : bool;
  clock : Z;
  cancelled_tokens : gset Z;
  scheduled : gmap Z ScheduledDelay;
  next : Z;
  active_tasks : Z;
  wait_queue_length : Z;
  tasks_total : Z;
  task_cancelled : Z;
  stop_timeout : Z;
  starts : list (ScheduledDelay * Z * bool) }.

Definition delay_pool_new (now : Z) : DelayPool := MkDelayPool false now ∅ ∅ 0 0 0 0 0 0 [].

Section delay_pool.
Context (instant_max : Z) (has_metrics : bool).
Implicit Types (self : DelayPool) (sd : ScheduledDelay).

Definition bump (n d : Z) : Z := if has_metrics then n + d else n.

Definition ctx_cancelled self (c : Ctx) : bool :=
  is_cancelled (λ t, bool_decide (t ∈ cancelled_tokens self)) c (clock self).

Definition set_scheduled self (s : gmap Z ScheduledDelay) : DelayPool :=
  MkDelayPool (stopped self) (clock self) (cancelled_tokens self) s (next self)
    (active_tasks self) (wait_queue_length self) (tasks_total self) (task_cancelled self)
    (stop_timeout self) (starts self).

(** [DelayPool::delay]. *)
Definition delay self (context : Ctx) (duration : Z) : RuntimeResult unit * DelayPool :=
  if ctx_cancelled self context then (Err ContextCancelled, self)
  else
    let requested := checked_add instant_max (clock self) duration in
    let run_at :=
      match requested, deadline context with
      | Some requested, Some deadline => Some (Z.min requested deadline)
      | Some requested, None => Some requested
      | None, Some deadline => Some deadline
      | None, None => None
      end in
    match run_at with
    | None => (Err (InvalidConfiguration "delay duration exceeds the clock range"), self)
    | Some run_at =>
        let expedited :=
          match requested with Some r => bool_decide (run_at < r) | None => true end in
        if stopped self then (Err (ResourceStopped "delay"), self)
        else
          (Ok tt,
           MkDelayPool (stopped self) (clock self) (cancelled_tokens self)
             (<[next self := MkScheduled context run_at expedited requested Spawned]>
               (scheduled self))
             (next self + 1) (active_tasks self + 1) (bump (wait_queue_length self) 1)
             (tasks_total self) (task_cancelled self) (stop_timeout self) (starts self))
    end.

Definition with_phase sd (ph : DelayPhase) : ScheduledDelay :=
  MkScheduled (sd_context sd) (run_at sd) (expedited_by_deadline sd) (requested_at sd) ph.

(** The entry of [execute]: the flag is counted and the callback starts. *)
Definition execute_begin self (id : Z) sd (cancelled : bool) : DelayPool :=
  MkDelayPool (stopped self) (clock self) (cancelled_tokens self)
    (<[id := with_phase sd (Executing cancelled)]> (scheduled self)) (next self)
    (active_tasks self) (wait_queue_length self) (tasks_total self)
    (if cancelled then bump (task_cancelled self) 1 else task_cancelled self)
    (stop_timeout self) (starts self ++ [(sd, clock self, cancelled)]).

(** First poll of [wait_ready]. *)
Definition ready_first self (id : Z) : option DelayPool :=
  sd ← scheduled self !! id;
  match phase sd with
  | Spawned =>
      if decide (run_at sd ≤ clock self)
      then Some (execute_begin self id sd
             (expedited_by_deadline sd || ctx_cancelled self (sd_context sd)))
      else Some (set_scheduled self (<[id := with_phase sd Selecting]> (scheduled self)))
  | _ => None
  end.

(** The two branches of its [select!]. *)
Definition ready_timer self (id : Z) : option DelayPool :=
  sd ← scheduled self !! id;
  match phase sd with
  | Selecting =>
      if decide (run_at sd ≤ clock self)
      then Some (execute_begin self id sd (expedited_by_deadline sd)) else None
  | _ => None
  end.
Definition ready_cancelled self (id : Z) : option DelayPool :=
  sd ← scheduled self !! id;
  match phase sd with
  | Selecting =>
      if ctx_cancelled self (sd_context sd) then Some (execute_begin self id sd true) else None
  | _ => None
  end.

(** The end of [execute]; the tracker forgets the operation. *)
Definition execute_end self (id : Z) : option DelayPool :=
  sd ← scheduled self !! id;
  match phase sd with
  | Executing _ =>
      Some (MkDelayPool (stopped self) (clock self) (cancelled_tokens self)
        (delete id (scheduled self)) (next self) (active_tasks self - 1)
        (bump (wait_queue_length self) (-1)) (bump (tasks_total self) 1)
        (task_cancelled self) (stop_timeout self) (starts self))
  | _ => None
  end.

(** [stop] up to its wait, the diagnostic of an expired stop context, and
    the condition under which it returns: the tracker is closed and empty. *)
Definition stop_begin self : DelayPool :=
  MkDelayPool true (clock self) (cancelled_tokens self) (scheduled self) (next self)
    (active_tasks self) (wait_queue_length self) (tasks_total self) (task_cancelled self)
    (stop_timeout self) (starts self).
Definition stop_timed_out self : DelayPool :=
  MkDelayPool (stopped self) (clock self) (cancelled_tokens self) (scheduled self) (next self)
    (active_tasks self) (wait_queue_length self) (tasks_total self) (task_cancelled self)
    (bump (stop_timeout self) 1) (starts self).
Definition stop_returns self : bool := stopped self && bool_decide (scheduled self = ∅).

Definition advance self (d : Z) : DelayPool :=
  MkDelayPool (stopped self) (clock self + d) (cancelled_tokens self) (scheduled self) (next self)
    (active_tasks self) (wait_queue_length self) (tasks_total self) (task_cancelled self)
    (stop_timeout self) (starts self).
Definition cancel_token self (t : Z) : DelayPool :=
  MkDelayPool (stopped self) (clock self) ({[t]} ∪ cancelled_tokens self) (scheduled self)
    (next self) (active_tasks self) (wait_queue_length self) (tasks_total self)
    (task_cancelled self) (stop_timeout self) (starts self).

Inductive delay_step : DelayPool → DelayPool → Prop :=
| st_delay s c d r s' : 0 ≤ d → delay s c d = (r, s') → delay_step s s'
| st_first s id s' : ready_first s id = Some s' → delay_step s s'
| st_timer s id s' : ready_timer s id = Some s' → delay_step s s'
| st_cancelled s id s' : ready_cancelled s id = Some s' → delay_step s s'
| st_end s id s' : execute_end s id = Some s' → delay_step s s'
| st_stop s : delay_step s (stop_begin s)
| st_timeout s : delay_step s (stop_timed_out s)
| st_advance s d : 0 ≤ d → delay_step s (advance s d)
| st_cancel s t : delay_step s (cancel_token s t).

(** ** Invariant *)
Definition admitted sd : Prop :=
  match requested_at sd with
  | Some r => run_at sd ≤ r ∧ (expedited_by_deadline sd = false → run_at sd = r)
  | None => expedited_by_deadline sd = true
  end ∧
  (expedited_by_deadline sd = true →
    match deadline (sd_context sd) with Some d => run_at sd = d | None => False end).

(** A callback that started at [t] with the flag [b]: the flag is the truth. *)
Definition start_ok self (st : ScheduledDelay * Z * bool) : Prop :=
  let '(sd, t, b) := st in
  t ≤ clock self ∧
  if (b : bool) then
    cancellation (sd_context sd) ∈ cancelled_tokens self ∨
    match deadline (sd_context sd) with Some d => d ≤ t | None => False end
  else match requested_at sd with Some r => r ≤ t | None => False end.

Definition is_executing sd : bool := match phase sd with Executing _ => true | _ => false end.

Notation executing := (tally is_executing).

Record delay_inv self : Prop := {
  d_admitted : ∀ id sd, scheduled self !! id = Some sd → admitted sd;
  d_starts : Forall (start_ok self) (starts self);
  d_fresh : ∀ id, id ∈ dom (scheduled self) → id < next self;
  d_active : active_tasks self = Z.of_nat (size (scheduled self));
  d_queue : has_metrics = true → wait_queue_length self = active_tasks self;
  (* every admitted operation is scheduled or has finished *)
  d_total : has_metrics = true → tasks_total self = next self - active_tasks self;
  d_count : Z.of_nat (length (starts self)) =
    next self - active_tasks self + executing (scheduled self) }.

(** ** Lemmas *)
Lemma start_ok_mono self self' st :
  clock self ≤ clock self' → cancelled_tokens self ⊆ cancelled_tokens self' →
  start_ok self st → start_ok self' st.
Proof.
  intros Hc Ht. destruct st as [[sd t] b]. unfold start_ok. intros [? Hb].
  split; [lia|]. destruct b; [|done]. destruct Hb; [left; set_solver|by right].
Qed.

(** Starting the callback of a waiting operation. *)
Lemma begin_inv self id sd b :
  delay_inv self → scheduled self !! id = Some sd → is_executing sd = false →
  start_ok self (sd, clock self, b) → delay_inv (execute_begin self id sd b).
Proof.
  intros [Had Hst Hfr Hac Hq Htot Hcnt] Hl Hne Hok.
  assert (id ∈ dom (scheduled self)) as Hid by by apply elem_of_dom_2 in Hl.
  split; cbn.
  - intros id' sd' [[<- <-]|[Hn Hl']]%lookup_insert_Some; [|eauto]. apply (Had id sd Hl).
  - apply Forall_app; split; [|by apply Forall_singleton].
    eapply Forall_impl; [exact Hst|]. intros st. by apply start_ok_mono.
  - intros id'. rewrite dom_insert_L. intros ?. apply Hfr. set_solver.
  - rewrite map_size_insert_Some by eauto. done.
  - done.
  - done.
  - rewrite length_app, (tally_insert is_executing); cbn [length].
    rewrite (tally_delete is_executing _ id sd Hl), Hne in Hcnt. cbn. lia.
Qed.

Lemma cancelled_start self sd b :
  admitted sd → (b = true → ctx_cancelled self (sd_context sd) = true) →
  (b = false → run_at sd ≤ clock self ∧ expedited_by_deadline sd = false) →
  start_ok self (sd, clock self, b).
Proof.
  intros [Hr Hx] Ht Hf. split; [lia|]. destruct b.
  - specialize (Ht eq_refl). unfold ctx_cancelled, is_cancelled in Ht.
    apply orb_true_iff in Ht as [Ht%bool_decide_eq_true|Ht]; [by left|right].
    destruct (deadline _); [|done]. by apply bool_decide_eq_true in Ht.
  - destruct (Hf eq_refl) as [Hle He]. destruct (requested_at sd) as [r|]; [|congruence].
    destruct Hr as [_ Hr]. rewrite <-(Hr He). done.
Qed.
Lemma expedited_cancelled self sd :
  admitted sd → expedited_by_deadline sd = true → run_at sd ≤ clock self →
  ctx_cancelled self (sd_context sd) = true.
Proof.
  intros [_ Hx] He Hle. specialize (Hx He). unfold ctx_cancelled, is_cancelled.
  destruct (deadline (sd_context sd)) as [d|]; [|done].
  rewrite (bool_decide_true (d ≤ clock self)) by lia. apply orb_true_r.
Qed.

Lemma delay_inv_admit self c d r self' :
  delay_inv self → delay self c d = (r, self') → delay_inv self'.
Proof.
  intros Hinv. unfold delay. destruct (ctx_cancelled self c); [by intros [= _ <-]|].
  set (req := checked_add instant_max (clock self) d). cbv zeta.
  destruct (match req with Some _ => _ | None => _ end) as [ra|] eqn:Hra; [|by intros [= _ <-]].
  destruct (stopped self); [by intros [= _ <-]|]. intros [= _ <-].
  destruct Hinv as [Had Hst Hfr Hac Hq Htot Hcnt].
  assert (Hn : scheduled self !! next self = None).
  { apply not_elem_of_dom. intros ?%Hfr. lia. }
  split; cbn.
  - intros id' sd' [[<- <-]|[_ Hl']]%lookup_insert_Some; [|eauto]. clear -Hra. split; cbn.
    + destruct req as [r|]; [|done]. destruct (deadline c) as [dl|]; injection Hra as <-.
      * split; [lia|]. intros Hb%bool_decide_eq_false. lia.
      * done.
    + destruct req as [r|], (deadline c) as [dl|]; simplify_eq; try done;
        intros Hb; try apply bool_decide_eq_true in Hb; lia.
  - eapply Forall_impl; [exact Hst|]. intros st. by apply start_ok_mono.
  - intros id'. rewrite dom_insert_L. intros [->%elem_of_singleton|?%Hfr]%elem_of_union; lia.
  - rewrite map_size_insert_None by done. lia.
  - intros Hm. unfold bump. rewrite Hm, Hq by done. lia.
  - intros Hm. rewrite Htot by done. lia.
  - rewrite (tally_insert is_executing), delete_id by done. cbn. lia.
Qed.

Lemma end_inv s id s' : delay_inv s → execute_end s id = Some s' → delay_inv s'.
Proof.
  intros Hinv Hd. unfold execute_end in Hd. destruct (scheduled s !! id) as [sd|] eqn:Hl; [|done]. cbn in Hd.
  destruct (phase sd) eqn:Hp; try done. injection Hd as <-.
  destruct Hinv as [Ha Hst Hfr Hac Hq Htot Hcnt].
  assert (size (scheduled s) = S (size (delete id (scheduled s)))) as Hsz.
  { rewrite map_size_delete_Some by eauto.
    assert (size (scheduled s) ≠ 0%nat); [|lia]. intros Hz%map_size_empty_inv.
    rewrite Hz in Hl. done. }
  split; cbn.
  - intros id' sd' [_ Hl']%lookup_delete_Some. eauto.
  - eapply Forall_impl; [exact Hst|]. intros st. by apply start_ok_mono.
  - intros id'. rewrite dom_delete_L. intros ?. apply Hfr. set_solver.
  - lia.
  - intros Hm. unfold bump. rewrite Hm, Hq by done. lia.
  - intros Hm. unfold bump. rewrite Hm, Htot by done. lia.
  - assert (is_executing sd = true) as He by (unfold is_executing; by rewrite Hp).
    rewrite (tally_delete is_executing _ id sd Hl), He in Hcnt. lia.
Qed.

Lemma delay_inv_step self self' : delay_step self self' → delay_inv self → delay_inv self'.
Proof.
  intros Hs Hinv. destruct Hs as [s c d r s' _ Hd|s id s' Hd|s id s' Hd|s id s' Hd|s id s' Hd|s|s|s d Hd|s t].
  - by eapply delay_inv_admit.
  - unfold ready_first in Hd. destruct (scheduled s !! id) as [sd|] eqn:Hl; [|done]. cbn in Hd.
    destruct (phase sd) eqn:Hp; try done. pose proof (d_admitted _ Hinv _ _ Hl) as Had.
    case_decide as Hle; injection Hd as <-.
    + apply begin_inv; [done..|by unfold is_executing; rewrite Hp|].
      apply cancelled_start; [done| |].
      * intros [He|?]%orb_true_iff; [by apply expedited_cancelled|done].
      * intros [? ?]%orb_false_iff. done.
    + destruct Hinv as [Ha Hst Hfr Hac Hq Htot Hcnt]. split; cbn; try done.
      * intros id' sd' [[<- <-]|[_ Hl']]%lookup_insert_Some; [apply Had|eauto].
      * intros id'. rewrite dom_insert_L. apply elem_of_dom_2 in Hl. intros ?. apply Hfr. set_solver.
      * by rewrite map_size_insert_Some by eauto.
      * assert (is_executing sd = false) as He by (unfold is_executing; by rewrite Hp).
        rewrite (tally_insert is_executing). rewrite (tally_delete is_executing _ id sd Hl), He in Hcnt.
        done.
  - unfold ready_timer in Hd. destruct (scheduled s !! id) as [sd|] eqn:Hl; [|done]. cbn in Hd.
    destruct (phase sd) eqn:Hp; try done. case_decide; [|done]. injection Hd as <-.
    pose proof (d_admitted _ Hinv _ _ Hl) as Had.
    apply begin_inv; [done..|by unfold is_executing; rewrite Hp|].
    apply cancelled_start; [done|intros; by apply expedited_cancelled|done].
  - unfold ready_cancelled in Hd. destruct (scheduled s !! id) as [sd|] eqn:Hl; [|done]. cbn in Hd.
    destruct (phase sd) eqn:Hp; try done. destruct (ctx_cancelled s _) eqn:Hc; [|done].
    injection Hd as <-. pose proof (d_admitted _ Hinv _ _ Hl) as Had.
    apply begin_inv; [done..|by unfold is_executing; rewrite Hp|]. by apply cancelled_start.
  - by eapply end_inv.
  - by destruct Hinv.
  - by destruct Hinv.
  - destruct Hinv as [Ha Hst Hfr Hac Hq Htot Hcnt]. split; cbn; try done.
    eapply Forall_impl; [exact Hst|]. intros st. apply start_ok_mono; cbn; [lia|done].
  - destruct Hinv as [Ha Hst Hfr Hac Hq Htot Hcnt]. split; cbn; try done.
    eapply Forall_impl; [exact Hst|]. intros st. apply start_ok_mono; cbn; [lia|set_solver].
Qed.
End delay_pool.

Lemma delay_inv_reach instant_max hm now p :
  rtc (delay_step instant_max hm) (delay_pool_new now) p → delay_inv hm p.
Proof.
  intros Hr. apply (rtc_ind_r (λ q, delay_inv hm q) (delay_pool_new now)) in Hr; [done| |].
  - split; cbn; try done; set_solver.
  - intros. by eapply delay_inv_step.
Qed.

(** * Properties *)

(** the flag a delayed callback is started with tells the truth.  In
    every history of a delay pool, a callback started with [cancelled] has a
    cancelled context (its token, or its deadline has passed), and one started
    without it has waited its full requested delay; the pool never starts a
    callback early for another reason, and never twice: operations not yet
    finished are exactly the active ones, and each finished operation was
    started once. *)
Theorem delay_flag_truthful instant_max hm now p :
  rtc (delay_step instant_max hm) (delay_pool_new now) p →
  (∀ sd t b, (sd, t, b) ∈ starts p →
    if (b : bool) then
      cancellation (sd_context sd) ∈ cancelled_tokens p ∨
      match deadline (sd_context sd) with Some d => d ≤ t | None => False end
    else match requested_at sd with Some r => r ≤ t | None => False end) ∧
  active_tasks p = Z.of_nat (size (scheduled p)) ∧
  Z.of_nat (length (starts p)) = next p - active_tasks p + tally is_executing (scheduled p).
Proof.
  intros Hr. destruct (delay_inv_reach _ _ _ _ Hr) as [_ Hst _ Hac _ _ Hcnt].
  split_and!; [|done..]. intros sd t b Hin. rewrite Forall_forall in Hst. by apply Hst in Hin as [_ ?].
Qed.

Lemma delay_flag_truthful_witness :
  let c := MkContext (Any := unit) 7 (Some 30) ∅ tt false None [] in
  let p0 := (delay 1000 true (delay_pool_new 10) c 50).2 in
  ∃ p, ready_first true (advance p0 25) 0 = Some p ∧
    (∀ sd t b, (sd, t, b) ∈ starts p →
    if (b : bool) then
      cancellation (sd_context sd) ∈ cancelled_tokens p ∨
      match deadline (sd_context sd) with Some d => d ≤ t | None => False end
    else match requested_at sd with Some r => r ≤ t | None => False end).
Proof.
  intros c p0. eexists; split; [vm_compute; reflexivity|].
  apply (delay_flag_truthful 1000 true 10).
  eapply rtc_l; [by apply (st_delay _ _ _ c 50 (Ok tt) p0)|].
  eapply rtc_l; [by apply (st_advance _ _ _ 25)|].
  apply rtc_once. apply (st_first _ _ _ 0). vm_compute. reflexivity.
Defined.

(** [stop] returns only when every admitted operation has finished: no
    later admission succeeds, and the callbacks started are exactly the
    operations ever admitted. *)
Theorem delay_stop_complete instant_max hm now p c d :
  rtc (delay_step instant_max hm) (delay_pool_new now) p → stop_returns p = true →
  Z.of_nat (length (starts p)) = next p ∧ active_tasks p = 0 ∧
  (hm = true → tasks_total p = next p) ∧
  (delay instant_max hm p c d).2 = p ∧ (delay instant_max hm p c d).1 ≠ Ok tt.
Proof.
  intros Hr [Hs He%bool_decide_eq_true]%andb_true_iff.
  destruct (delay_inv_reach _ _ _ _ Hr) as [_ _ _ Hac _ Htot Hcnt].
  rewrite He in *. rewrite map_size_empty in Hac.
  assert (tally is_executing (∅ : gmap Z ScheduledDelay) = 0) as Hx
    by (unfold tally; by rewrite map_filter_empty).
  split_and!; [lia|lia|intros Hm; rewrite Htot by done; lia| |];
    unfold delay; rewrite Hs; destruct (ctx_cancelled p c); try done;
    destruct (checked_add _ _ _), (deadline c); done.
Qed.

Lemma delay_stop_complete_witness :
  stop_returns (stop_begin (delay_pool_new 5)) = true ∧
  Z.of_nat (length (starts (stop_begin (delay_pool_new 5)))) = next (stop_begin (delay_pool_new 5)).
Proof.
  split; [reflexivity|].
  apply (delay_stop_complete 1000 true 5 _ (new 0 tt) 1); [|reflexivity].
  apply rtc_once, st_stop.
Defined.
