(* ===== verification/JoinStore.v ===== *)
(** The join storage, [src/src/runtime/store/hashmap.rs].

    Entries are shared ([Arc<Entry<K>>]): [heap] maps an identity to the entry,
    [items] a key to an identity, and pointer comparison is comparison of
    identities.  Every [join_value] call and every expiry timer is a thread of
    its own; a step of a thread is the code between two lock acquisitions or
    awaits, so other threads, time and configuration reloads may intervene
    exactly where the source can be suspended.  User callbacks are the answers
    given to [join_invoked].  Instants are nanosecond counts without an upper
    bound. *)

From S2P Require Import Prelude Errors.
Local Open Scope Z_scope.

Section join_storage.
Context `{Countable K} {V : Type}.

(** [Entry] with its locked [Item]; [e_key] records the key it was made for. *)
Record Entry := MkEntry {
  values : list (list V);
  processed : bool;
  generation : Z;
  e_deadline : option Z;
  locked : bool;
  e_key : K }.

Inductive JoinPc :=
| JLookup
| JLock (item : Z)
| JInvoke (item : Z)
| JRetire (item : Z)
| JRemove (item : Z)
| JDone.

(** A [join_value_with] call: its arguments and the settings it read. *)
Record Joiner := MkJoiner {
  j_key : K;
  j_index : nat;
  j_value : V;
  j_ctx_deadline : option Z;
  j_ttl : Z;
  j_renew : bool;
  j_pc : JoinPc }.

Inductive TimerPc := TWait | TCallback | TRemove | TDone.

Record Timer := MkTimer {
  t_key : K;
  t_item : Z;
  t_generation : Z;
  t_deadline : Z;
  t_ctx_deadline : option Z;
  t_cancelled : bool;
  t_pc : TimerPc }.

Inductive JoinEvent :=
| Invoked (item : Z) (vs : list (list V))
| Completed (item : Z)
| Expired (item : Z) (vs : list (list V)).

Record Store := MkStore {
  now : Z;
  items : gmap K Z;
  heap : gmap Z Entry;
  next_item : Z;
  joiners : gmap Z Joiner;
  timers : gmap Z Timer;
  next_thread : Z;
  count : Z;
  evictions_total : Z;
  events : list JoinEvent }.

Definition store_new (t : Z) : Store := MkStore t ∅ ∅ 0 ∅ ∅ 0 0 0 [].

Definition expired (e : Entry) (now : Z) : bool :=
  match e_deadline e with Some d => bool_decide (d ≤ now) | None => false end.

Definition with_pc (j : Joiner) (pc : JoinPc) : Joiner :=
  MkJoiner (j_key j) (j_index j) (j_value j) (j_ctx_deadline j) (j_ttl j) (j_renew j) pc.

Definition set_joiner (s : Store) (tid : Z) (j : Joiner) : Store :=
  MkStore (now s) (items s) (heap s) (next_item s) (<[tid := j]> (joiners s)) (timers s)
    (next_thread s) (count s) (evictions_total s) (events s).
Definition set_timer (s : Store) (tid : Z) (t : Timer) : Store :=
  MkStore (now s) (items s) (heap s) (next_item s) (joiners s) (<[tid := t]> (timers s))
    (next_thread s) (count s) (evictions_total s) (events s).
Definition set_entry (s : Store) (item : Z) (e : Entry) : Store :=
  MkStore (now s) (items s) (<[item := e]> (heap s)) (next_item s) (joiners s) (timers s)
    (next_thread s) (count s) (evictions_total s) (events s).
Definition log_event (s : Store) (e : JoinEvent) : Store :=
  MkStore (now s) (items s) (heap s) (next_item s) (joiners s) (timers s) (next_thread s)
    (count s) (evictions_total s) (events s ++ [e]).

(** The head of [join_value_with]: the configuration is read once. *)
Definition join_begin (s : Store) (key : K) (index : nat) (value : V)
    (ctx_deadline : option Z) (config : Z * bool) : Store :=
  let ttl := match ctx_deadline with
             | Some d => saturating_sub d (now s)
             | None => config.1
             end in
  MkStore (now s) (items s) (heap s) (next_item s)
    (<[next_thread s := MkJoiner key index value ctx_deadline ttl config.2 JLookup]> (joiners s))
    (timers s) (next_thread s + 1) (count s) (evictions_total s) (events s).

(** The block under the [items] lock: reuse a live entry or insert a new one. *)
Definition join_lookup (s : Store) (tid : Z) (j : Joiner) : option Store :=
  match j_pc j with
  | JLookup =>
      let fresh :=
        let e := MkEntry [] false 0
                   (if decide (0 < j_ttl j) then Some (now s + j_ttl j) else None)
                   false (j_key j) in
        let is_new_key := bool_decide (items s !! j_key j = None) in
        MkStore (now s) (<[j_key j := next_item s]> (items s)) (<[next_item s := e]> (heap s))
          (next_item s + 1) (<[tid := with_pc j (JLock (next_item s))]> (joiners s)) (timers s)
          (next_thread s) (if is_new_key then count s + 1 else count s)
          (evictions_total s) (events s) in
      match items s !! j_key j with
      | Some p =>
          match heap s !! p with
          | Some e =>
              if expired e (now s) then Some fresh
              else Some (set_joiner s tid (with_pc j (JLock p)))
          | None => None
          end
      | None => Some fresh
      end
  | _ => None
  end.

(** [resize_with] and the push at [index]. *)
Definition push_value (vs : list (list V)) (index : nat) (v : V) : list (list V) :=
  let vs := if decide (length vs ≤ index)%nat then vs ++ replicate (S index - length vs) [] else vs in
  alter (λ l, l ++ [v]) index vs.

(** Taking the item lock: a processed or expired entry is retired, otherwise
    the value is stored, the first value arms the timer, and the callback is
    entered with the lock held.  The timer needs the entry's deadline
    ([expect('positive TTL has a deadline')]). *)
Definition join_lock (s : Store) (tid : Z) (j : Joiner) : option (outcome Empty_set Store) :=
  match j_pc j with
  | JLock p =>
      e ← heap s !! p;
      if locked e then None
      else if processed e || expired e (now s)
      then Some (Ok (set_joiner s tid (with_pc j (JRetire p))))
      else
        let first_value := bool_decide (values e = []) in
        let vs := push_value (values e) (j_index j) (j_value j) in
        let gen := if first_value then wrap_u 64 (generation e + 1) else generation e in
        let e' := MkEntry vs (processed e) gen (e_deadline e) true (e_key e) in
        let s := log_event (set_entry (set_joiner s tid (with_pc j (JInvoke p))) p e')
                   (Invoked p vs) in
        if first_value && bool_decide (0 < j_ttl j) then
          match e_deadline e with
          | None => Some Panic
          | Some d =>
              Some (Ok (MkStore (now s) (items s) (heap s) (next_item s) (joiners s)
                (<[next_thread s := MkTimer (j_key j) p gen d (j_ctx_deadline j) false TWait]>
                  (timers s))
                (next_thread s + 1) (count s) (evictions_total s) (events s)))
          end
        else Some (Ok s)
  | _ => None
  end.

Definition cancel_timer (item gen : Z) (t : Timer) : Timer :=
  if decide (t_item t = item ∧ t_generation t = gen)
  then MkTimer (t_key t) (t_item t) (t_generation t) (t_deadline t) (t_ctx_deadline t) true (t_pc t)
  else t.

(** The callback returned [r]; the lock is released. *)
Definition join_invoked (s : Store) (tid : Z) (j : Joiner) (r : bool) : option Store :=
  match j_pc j with
  | JInvoke p =>
      e ← heap s !! p;
      let dl := if negb r && j_renew j then Some (now s + j_ttl j) else e_deadline e in
      let e' := MkEntry (values e) r (generation e) dl false (e_key e) in
      let s := set_entry (set_joiner s tid (with_pc j (if r then JRemove p else JDone))) p e' in
      if r then
        Some (log_event
          (MkStore (now s) (items s) (heap s) (next_item s) (joiners s)
            (cancel_timer p (generation e) <$> timers s) (next_thread s) (count s)
            (evictions_total s) (events s)) (Completed p))
      else Some s
  | _ => None
  end.

(** [remove_if_same]. *)
Definition remove_if_same (s : Store) (key : K) (p : Z) (evicted : bool) : Store :=
  if decide (items s !! key = Some p)
  then MkStore (now s) (delete key (items s)) (heap s) (next_item s) (joiners s) (timers s)
         (next_thread s) (count s - 1) (if evicted then evictions_total s + 1 else evictions_total s)
         (events s)
  else s.

Definition join_remove (s : Store) (tid : Z) (j : Joiner) : option Store :=
  match j_pc j with
  | JRetire p => Some (set_joiner (remove_if_same s (j_key j) p false) tid (with_pc j JLookup))
  | JRemove p => Some (set_joiner (remove_if_same s (j_key j) p false) tid (with_pc j JDone))
  | _ => None
  end.

Definition timer_pc (t : Timer) (pc : TimerPc) : Timer :=
  MkTimer (t_key t) (t_item t) (t_generation t) (t_deadline t) (t_ctx_deadline t) (t_cancelled t) pc.

(** The select of [arm_expiry]; [ctx_cancelled] says that the token of the
    accepting context is cancelled, which only ends the wait of a context
    with a deadline. *)
Definition timer_due (s : Store) (t : Timer) (ctx_cancelled : bool) : bool :=
  match t_ctx_deadline t with
  | Some d => bool_decide (d ≤ now s) || ctx_cancelled
  | None => bool_decide (t_deadline t ≤ now s)
  end.

(** A wake-up of the timer, up to the callback: [biased] cancellation first,
    then the item lock, the generation test and the renewal test. *)
Definition timer_wake (s : Store) (tid : Z) (t : Timer) (ctx_cancelled : bool) : option Store :=
  match t_pc t with
  | TWait =>
      if t_cancelled t then Some (set_timer s tid (timer_pc t TDone))
      else if negb (timer_due s t ctx_cancelled) then None
      else
        e ← heap s !! t_item t;
        if locked e then None
        else if processed e || negb (bool_decide (generation e = t_generation t))
        then Some (set_timer s tid (timer_pc t TDone))
        else
          match t_ctx_deadline t, e_deadline e with
          | None, Some renewed =>
              if decide (now s < renewed)
              then Some (set_timer s tid
                     (MkTimer (t_key t) (t_item t) (t_generation t) renewed (t_ctx_deadline t)
                        (t_cancelled t) TWait))
              else Some (log_event (set_entry (set_timer s tid (timer_pc t TCallback)) (t_item t)
                     (MkEntry (values e) true (generation e) (e_deadline e) false (e_key e)))
                     (Expired (t_item t) (values e)))
          | _, _ =>
              Some (log_event (set_entry (set_timer s tid (timer_pc t TCallback)) (t_item t)
                (MkEntry (values e) true (generation e) (e_deadline e) false (e_key e)))
                (Expired (t_item t) (values e)))
          end
  | _ => None
  end.

(** The expiry callback ends; then the entry is removed if it is still the
    stored one. *)
Definition timer_finish (s : Store) (tid : Z) (t : Timer) : option Store :=
  match t_pc t with
  | TCallback => Some (set_timer s tid (timer_pc t TRemove))
  | TRemove => Some (set_timer (remove_if_same s (t_key t) (t_item t) true) tid (timer_pc t TDone))
  | _ => None
  end.

(** [Storage::start] and [stop] only guard each other. *)
Definition storage_start (started stopped : bool) : RuntimeResult unit * (bool * bool) :=
  if stopped then (Err (ResourceStopped "hashmap join storage"), (started, stopped))
  else if started then (Err (ResourceAlreadyStarted "hashmap join storage"), (started, stopped))
  else (Ok tt, (true, stopped)).
Definition storage_stop (started stopped : bool) : bool * bool := (started, true).

Definition advance (s : Store) (d : Z) : Store :=
  MkStore (now s + d) (items s) (heap s) (next_item s) (joiners s) (timers s) (next_thread s)
    (count s) (evictions_total s) (events s).

Inductive join_step : Store → Store → Prop :=
| js_begin s key index value dl cfg : join_step s (join_begin s key index value dl cfg)
| js_lookup s tid j s' : joiners s !! tid = Some j → join_lookup s tid j = Some s' → join_step s s'
| js_lock s tid j s' : joiners s !! tid = Some j → join_lock s tid j = Some (Ok s') → join_step s s'
| js_invoked s tid j r s' :
    joiners s !! tid = Some j → join_invoked s tid j r = Some s' → join_step s s'
| js_remove s tid j s' : joiners s !! tid = Some j → join_remove s tid j = Some s' → join_step s s'
| js_wake s tid t c s' : timers s !! tid = Some t → timer_wake s tid t c = Some s' → join_step s s'
| js_finish s tid t s' : timers s !! tid = Some t → timer_finish s tid t = Some s' → join_step s s'
| js_advance s d : 0 ≤ d → join_step s (advance s d).
End join_storage.
Arguments Entry K V : clear implicits.
Arguments Joiner K V : clear implicits.
Arguments JoinEvent V : clear implicits.
Arguments Timer K : clear implicits.
Arguments Store K {_ _} V.

(** * Invariant *)
Section join_invariant.
Context `{Countable K} {V : Type}.
Implicit Types (s : Store K V) (e : Entry K V) (j : Joiner K V) (p : Z).

Definition about p (ev : JoinEvent V) : Prop :=
  match ev with Invoked q _ => q = p | Completed q => q = p | Expired q _ => q = p end.
Definition closes p (ev : JoinEvent V) : Prop :=
  match ev with Invoked _ _ => False | Completed q => q = p | Expired q _ => q = p end.

(** Nothing happens to a group after the event that closed it. *)
Definition closed_once (evs : list (JoinEvent V)) : Prop :=
  ∀ p l1 ev l2, evs = l1 ++ ev :: l2 → closes p ev → Forall (λ ev', ~ about p ev') l2.

Definition pushed j : list V :=
  match j_pc j with JInvoke _ | JRemove _ | JDone => [j_value j] | _ => [] end.
Definition stored e : list V := concat (values e).

(** The callback of some invocation saw the value of the call. *)
Definition delivered j (evs : list (JoinEvent V)) : Prop :=
  ∃ p vs l, Invoked p vs ∈ evs ∧ vs !! j_index j = Some l ∧ j_value j ∈ l.

Record join_inv s : Prop := {
  i_items : ∀ k p, items s !! k = Some p → ∃ e, heap s !! p = Some e ∧ e_key e = k;
  i_heap : ∀ p e, heap s !! p = Some e → p < next_item s;
  i_count : count s = Z.of_nat (size (items s));
  i_threads : ∀ tid, tid ∈ dom (joiners s) ∪ dom (timers s) → tid < next_thread s;
  i_events : closed_once (events s);
  i_about : ∀ p ev, ev ∈ events s → about p ev → is_Some (heap s !! p);
  i_closed : ∀ p e, heap s !! p = Some e →
    processed e = true ↔ Exists (closes p) (events s);
  i_locked : ∀ p e, heap s !! p = Some e →
    locked e = true ↔ ∃ tid j, joiners s !! tid = Some j ∧ j_pc j = JInvoke p;
  i_exclusive : ∀ t1 t2 j1 j2 p, joiners s !! t1 = Some j1 → joiners s !! t2 = Some j2 →
    j_pc j1 = JInvoke p → j_pc j2 = JInvoke p → t1 = t2;
  i_unlocked : ∀ p e, heap s !! p = Some e → locked e = true → processed e = false;
  i_ptr : ∀ tid j, joiners s !! tid = Some j →
    match j_pc j with JInvoke p | JLock p | JRetire p | JRemove p => is_Some (heap s !! p) | _ => True end;
  i_delivered : ∀ tid j, joiners s !! tid = Some j → pushed j ≠ [] → delivered j (events s);
  i_stored : gather stored (heap s) ≡ₚ gather pushed (joiners s) }.

Lemma closed_once_snoc evs ev p :
  closed_once evs → about p ev → ~ Exists (closes p) evs → closed_once (evs ++ [ev]).
Proof.
  intros Hc Ha Hn q l1 ev' l2 Heq Hcl.
  destruct l2 as [|x l2 _] using rev_ind; [constructor|].
  rewrite app_comm_cons, app_assoc in Heq. apply app_inj_tail in Heq as [-> ->].
  apply Forall_app. split; [by eapply Hc|]. apply Forall_singleton. intros Hq.
  apply Hn. apply Exists_app. right. left.
  assert (p = q) as ->; [|done]. destruct x; cbn in *; congruence.
Qed.

Lemma push_value_stored vs i (v : V) : concat (push_value vs i v) ≡ₚ v :: concat vs.
Proof.
  unfold push_value.
  set (ws := if decide (length vs ≤ i)%nat then _ else vs).
  assert (concat ws = concat vs ∧ (i < length ws)%nat) as [Hc Hlt].
  { unfold ws. case_decide; [|split; [done|lia]]. rewrite concat_app, length_app, length_replicate.
    split; [|lia]. rewrite <-(app_nil_r (concat vs)) at 2. f_equal.
    by induction (S i - length vs)%nat. }
  clearbody ws. rewrite <-Hc. clear Hc. revert i Hlt.
  induction ws as [|w ws IH]; intros i Hlt; cbn in Hlt; [lia|].
  destruct i as [|i]; cbn.
  - by rewrite <-(Permutation_cons_append w v).
  - change (list_alter (λ l, l ++ [v]) i ws) with (alter (λ l, l ++ [v]) i ws).
    rewrite IH by lia. symmetry. apply Permutation_middle.
Qed.
Lemma push_value_lookup vs i (v : V) : ∃ l, push_value vs i v !! i = Some l ∧ v ∈ l.
Proof.
  unfold push_value. set (ws := if decide (length vs ≤ i)%nat then _ else vs).
  assert (i < length ws)%nat as Hlt.
  { unfold ws. case_decide; [|lia]. rewrite length_app, length_replicate. lia. }
  clearbody ws. apply lookup_lt_is_Some in Hlt as [l Hl].
  exists (l ++ [v]). rewrite list_lookup_alter_eq, Hl. split; [done|]. set_solver.
Qed.

Lemma delivered_mono j evs evs' : delivered j evs → delivered j (evs ++ evs').
Proof. intros (p & vs & l & ? & ? & ?). exists p, vs, l. split; [|done]. set_solver. Qed.

(** A joiner that only moves its program counter among the states that hold
    no lock. *)
Lemma inv_set_joiner s tid j pc :
  join_inv s → joiners s !! tid = Some j →
  (∀ p, j_pc j ≠ JInvoke p) → (∀ p, pc ≠ JInvoke p) →
  pushed (with_pc j pc) = pushed j →
  match pc with JLock p | JRetire p | JRemove p => is_Some (heap s !! p) | _ => True end →
  join_inv (set_joiner s tid (with_pc j pc)).
Proof.
  intros [Hit Hhp Hct Hth Hev Hab Hcl Hlk Hex Hun Hpt Hdl Hst] Hj Hold Hnew Hpu Hptr.
  split; cbn; try done.
  - intros t. rewrite dom_insert_L. apply elem_of_dom_2 in Hj. intros ?. apply Hth. set_solver.
  - intros p e He. rewrite (Hlk p e He). split; intros (t & j' & Hj' & Hpc).
    + exists t, j'. destruct (decide (tid = t)) as [<-|]; [|by rewrite lookup_insert_ne].
      rewrite Hj in Hj'. simplify_eq. by destruct (Hold p).
    + apply lookup_insert_Some in Hj' as [[<- <-]|[_ Hj']]; [by destruct (Hnew p)|eauto].
  - intros t1 t2 j1 j2 p [[<- <-]|[_ H1]]%lookup_insert_Some [[<- <-]|[_ H2]]%lookup_insert_Some Hp1 Hp2;
      try done; try (by destruct (Hnew p)). by eapply Hex.
  - intros t j' [[<- <-]|[_ Hj']]%lookup_insert_Some; [|by eapply Hpt]. cbn.
    destruct pc; try done. by destruct (Hnew item).
  - intros t j' [[<- <-]|[_ Hj']]%lookup_insert_Some; [|by eapply Hdl]. rewrite Hpu.
    apply (Hdl tid j Hj).
  - rewrite Hst. symmetry. eapply gather_update; [exact Hj|by rewrite Hpu].
Qed.

Lemma inv_begin s key index value dl cfg :
  join_inv s → join_inv (join_begin s key index value dl cfg).
Proof.
  intros [Hit Hhp Hct Hth Hev Hab Hcl Hlk Hex Hun Hpt Hdl Hst].
  assert (joiners s !! next_thread s = None) as Hn.
  { apply not_elem_of_dom. intros Hin. specialize (Hth (next_thread s)). set_solver by lia. }
  split; cbn; try done.
  - intros t. rewrite dom_insert_L. intros Ht.
    destruct (decide (t = next_thread s)) as [->|]; [lia|]. specialize (Hth t). set_solver by lia.
  - intros p e He. rewrite (Hlk p e He). split; intros (t & j' & Hj' & Hpc).
    + exists t, j'. rewrite lookup_insert_ne by (intros <-; congruence). done.
    + apply lookup_insert_Some in Hj' as [[<- <-]|[_ Hj']]; [done|eauto].
  - intros t1 t2 j1 j2 p [[<- <-]|[_ H1]]%lookup_insert_Some [[<- <-]|[_ H2]]%lookup_insert_Some Hp1 Hp2;
      try done. by eapply Hex.
  - intros t j' [[<- <-]|[_ Hj']]%lookup_insert_Some; [done|by eapply Hpt].
  - intros t j' [[<- <-]|[_ Hj']]%lookup_insert_Some; [done|by eapply Hdl].
  - by rewrite gather_insert_new by done.
Qed.

Lemma inv_new_entry s k dl :
  join_inv s →
  join_inv (MkStore (now s) (<[k := next_item s]> (items s))
    (<[next_item s := MkEntry [] false 0 dl false k]> (heap s)) (next_item s + 1) (joiners s)
    (timers s) (next_thread s)
    (if bool_decide (items s !! k = None) then count s + 1 else count s)
    (evictions_total s) (events s)).
Proof.
  intros [Hit Hhp Hct Hth Hev Hab Hcl Hlk Hex Hun Hpt Hdl Hst].
  assert (heap s !! next_item s = None) as Hn.
  { destruct (heap s !! next_item s) eqn:He; [|done]. apply Hhp in He. lia. }
  assert (Hno : ∀ ev, ev ∈ events s → ~ about (next_item s) ev).
  { intros ev Hin Ha. apply (Hab _ _ Hin) in Ha as [e He]. congruence. }
  split; cbn; try done.
  - intros k' p [[<- <-]|[_ Hk]]%lookup_insert_Some; [by rewrite lookup_insert_eq; eauto|].
    destruct (Hit _ _ Hk) as (e & He & <-). exists e.
    rewrite lookup_insert_ne by (intros <-; congruence). done.
  - intros p e [[<- <-]|[_ He]]%lookup_insert_Some; [lia|]. apply Hhp in He. lia.
  - rewrite Hct. case_bool_decide as Hk.
    + rewrite map_size_insert_None by done. lia.
    + rewrite map_size_insert_Some; [done|]. by apply not_eq_None_Some in Hk.
  - intros p ev Hin Ha. destruct (Hab _ _ Hin Ha) as [e He]. exists e.
    rewrite lookup_insert_ne by (intros <-; congruence). done.
  - intros p e [[<- <-]|[_ He]]%lookup_insert_Some; [|exact (Hcl p e He)]. cbn. split; [done|].
    intros (ev & Hin & Hc)%Exists_exists. destruct (Hno ev Hin). by destruct ev.
  - intros p e [[<- <-]|[_ He]]%lookup_insert_Some; [|exact (Hlk p e He)]. cbn. split; [done|].
    intros (t & j & Hj & Hpc). apply Hpt in Hj. rewrite Hpc in Hj. destruct Hj. congruence.
  - intros p e [[<- <-]|[_ He]]%lookup_insert_Some; [done|exact (Hun p e He)].
  - intros t j Hj. apply Hpt in Hj. destruct (j_pc j); try done;
      destruct Hj as [e He]; exists e; rewrite lookup_insert_ne by (intros <-; congruence); done.
  - by rewrite gather_insert_new by done.
Qed.

Lemma inv_lookup s tid j s' :
  join_inv s → joiners s !! tid = Some j → join_lookup s tid j = Some s' → join_inv s'.
Proof.
  intros Hinv Hj Hs. unfold join_lookup in Hs. destruct (j_pc j) eqn:Hpc; try done.
  set (dl := if decide (0 < j_ttl j) then Some (now s + j_ttl j) else None) in Hs.
  assert (join_inv (set_joiner (MkStore (now s) (<[j_key j := next_item s]> (items s))
    (<[next_item s := MkEntry [] false 0 dl false (j_key j)]> (heap s)) (next_item s + 1) (joiners s)
    (timers s) (next_thread s) (if bool_decide (items s !! j_key j = None) then count s + 1 else count s)
    (evictions_total s) (events s)) tid (with_pc j (JLock (next_item s))))) as Hfresh.
  { apply inv_set_joiner; [by apply inv_new_entry|done|by rewrite Hpc|done| |].
    - unfold pushed; cbn. by rewrite Hpc.
    - cbn. rewrite lookup_insert_eq. eauto. }
  destruct (items s !! j_key j) as [p|] eqn:Hi; [|by simplify_eq].
  destruct (heap s !! p) as [e|] eqn:He; [|done].
  destruct (expired e (now s)); simplify_eq; [done|].
  apply inv_set_joiner; [done|done|by rewrite Hpc|done| |by rewrite He; eauto].
  unfold pushed; cbn. by rewrite Hpc.
Qed.

Lemma inv_timers s ts nt :
  join_inv s → (∀ t, t ∈ dom ts → t < nt) → next_thread s ≤ nt →
  join_inv (MkStore (now s) (items s) (heap s) (next_item s) (joiners s) ts nt (count s)
    (evictions_total s) (events s)).
Proof.
  intros [Hit Hhp Hct Hth Hev Hab Hcl Hlk Hex Hun Hpt Hdl Hst] Hts Hnt. split; cbn; try done.
  intros t. rewrite elem_of_union. intros [Ht|Ht]; [|auto]. specialize (Hth t). set_solver by lia.
Qed.

Lemma inv_remove_if_same s key p b : join_inv s → join_inv (remove_if_same s key p b).
Proof.
  intros Hinv. unfold remove_if_same. case_decide as Hk; [|done].
  destruct Hinv as [Hit Hhp Hct Hth Hev Hab Hcl Hlk Hex Hun Hpt Hdl Hst]. split; cbn; try done.
  - intros k q [_ Hq]%lookup_delete_Some. auto.
  - rewrite Hct, map_size_delete_Some by eauto.
    assert (size (items s) ≠ 0%nat); [|lia]. intros Hz%map_size_empty_inv. by rewrite Hz in Hk.
Qed.

(** Storing a value and entering the callback. *)
Lemma inv_push s tid j p e gen :
  join_inv s → joiners s !! tid = Some j → j_pc j = JLock p → heap s !! p = Some e →
  locked e = false → processed e = false →
  let vs := push_value (values e) (j_index j) (j_value j) in
  join_inv (log_event (set_entry (set_joiner s tid (with_pc j (JInvoke p))) p
    (MkEntry vs false gen (e_deadline e) true (e_key e))) (Invoked p vs)).
Proof.
  intros [Hit Hhp Hct Hth Hev Hab Hcl Hlk Hex Hun Hpt Hdl Hst] Hj Hpc He Hlo Hpr vs.
  assert (Hopen : ~ Exists (closes p) (events s)) by (rewrite <-(Hcl p e He); congruence).
  assert (Hfree : ∀ t j', joiners s !! t = Some j' → j_pc j' ≠ JInvoke p).
  { intros t j' Hj' Hp'. assert (locked e = true) by (apply (Hlk p e He); eauto). congruence. }
  split; cbn; try done.
  - intros k q Hk. destruct (Hit _ _ Hk) as (e' & He' & Hk').
    destruct (decide (p = q)) as [<-|]; [|rewrite lookup_insert_ne by done; eauto].
    rewrite lookup_insert_eq. eexists; split; [done|]. cbn. congruence.
  - intros q e' [[<- <-]|[_ He']]%lookup_insert_Some; eauto.
  - intros t. rewrite dom_insert_L. apply elem_of_dom_2 in Hj. intros ?. apply Hth. set_solver.
  - by apply (closed_once_snoc _ _ p).
  - intros q ev. rewrite elem_of_app, list_elem_of_singleton.
    intros [Hin| ->] Ha; [|cbn in Ha; subst q; rewrite lookup_insert_eq; eauto].
    destruct (Hab _ _ Hin Ha) as [e' He'].
    destruct (decide (p = q)) as [<-|]; [rewrite lookup_insert_eq|rewrite lookup_insert_ne by done]; eauto.
  - intros q e' [[<- <-]|[_ He']]%lookup_insert_Some; cbn; rewrite Exists_app, Exists_cons, Exists_nil; cbn.
    + split; [done|tauto].
    + rewrite (Hcl q e' He'). tauto.
  - intros q e' [[<- <-]|[Hne He']]%lookup_insert_Some; cbn.
    + split; [intros _|done]. exists tid, (with_pc j (JInvoke p)). by rewrite lookup_insert_eq.
    + rewrite (Hlk q e' He'). split; intros (t & j' & Hj' & Hp').
      * exists t, j'. rewrite lookup_insert_ne; [done|]. intros <-. congruence.
      * apply lookup_insert_Some in Hj' as [[<- <-]|[_ Hj']]; [|eauto]. cbn in Hp'. congruence.
  - intros t1 t2 j1 j2 q [[<- <-]|[_ H1]]%lookup_insert_Some [[<- <-]|[_ H2]]%lookup_insert_Some Hp1 Hp2;
      cbn in *; simplify_eq; try done; [by destruct (Hfree _ _ H2)|by destruct (Hfree _ _ H1)|].
    by eapply Hex.
  - intros q e' [[<- <-]|[_ He']]%lookup_insert_Some; [done|exact (Hun q e' He')].
  - assert (Hs : ∀ q, is_Some (heap s !! q) → is_Some (<[p := MkEntry vs false gen (e_deadline e) true
      (e_key e)]> (heap s) !! q)).
    { intros q Hq. destruct (decide (p = q)) as [<-|];
        [rewrite lookup_insert_eq|rewrite lookup_insert_ne by done]; eauto. }
    intros t j' [[<- <-]|[_ Hj']]%lookup_insert_Some; cbn; [apply Hs; eauto|].
    apply Hpt in Hj'. destruct (j_pc j'); auto.
  - intros t j' [[<- <-]|[_ Hj']]%lookup_insert_Some Hne; [|eauto using delivered_mono].
    destruct (push_value_lookup (values e) (j_index j) (j_value j)) as (l & Hl & Hin).
    exists p, vs, l. split; [set_solver|]. done.
  - rewrite gather_insert. rewrite (gather_insert _ (joiners s)). unfold stored at 1, pushed at 1. cbn.
    assert (concat vs ≡ₚ j_value j :: concat (values e)) as -> by apply push_value_stored.
    cbn. f_equiv.
    rewrite (gather_delete _ _ _ _ He), (gather_delete _ _ _ _ Hj) in Hst.
    unfold pushed at 1 in Hst. by rewrite Hpc in Hst.
Qed.

Lemma inv_lock s tid j s' :
  join_inv s → joiners s !! tid = Some j → join_lock s tid j = Some (Ok s') → join_inv s'.
Proof.
  intros Hinv Hj Hs. unfold join_lock in Hs. destruct (j_pc j) eqn:Hpc; try done.
  destruct (heap s !! item) as [e|] eqn:He; [|done]. cbn -[push_value] in Hs.
  destruct (locked e) eqn:Hlo; [done|].
  destruct (processed e) eqn:Hpr; cbn -[push_value] in Hs; [|destruct (expired e (now s))].
  - simplify_eq. apply inv_set_joiner; [done|done|by rewrite Hpc|done| |by rewrite He; eauto].
    unfold pushed; cbn. by rewrite Hpc.
  - simplify_eq. apply inv_set_joiner; [done|done|by rewrite Hpc|done| |by rewrite He; eauto].
    unfold pushed; cbn. by rewrite Hpc.
  - set (gen := if bool_decide (values e = []) then _ else _) in Hs.
    pose proof (inv_push s tid j item e gen Hinv Hj Hpc He Hlo Hpr) as Hp.
    destruct (bool_decide (values e = []) && bool_decide (0 < j_ttl j)); [|by simplify_eq].
    destruct (e_deadline e) as [d|] eqn:Hd; simplify_eq.
    apply (inv_timers _ (<[next_thread s := MkTimer (j_key j) item gen d
      (j_ctx_deadline j) false TWait]> (timers s)) (next_thread s + 1)) in Hp; [exact Hp| |cbn; lia].
    intros t. rewrite dom_insert_L. intros [->%elem_of_singleton|Ht]%elem_of_union; [lia|].
    pose proof (i_threads _ Hinv t). set_solver by lia.
Qed.

(** The callback returns and the lock is released. *)
Lemma inv_release s tid j p e (r : bool) dl :
  join_inv s → joiners s !! tid = Some j → j_pc j = JInvoke p → heap s !! p = Some e →
  join_inv (MkStore (now s) (items s)
    (<[p := MkEntry (values e) r (generation e) dl false (e_key e)]> (heap s)) (next_item s)
    (<[tid := with_pc j (if r then JRemove p else JDone)]> (joiners s)) (timers s) (next_thread s)
    (count s) (evictions_total s) (events s ++ (if r then [Completed p] else []))).
Proof.
  intros [Hit Hhp Hct Hth Hev Hab Hcl Hlk Hex Hun Hpt Hdl Hst] Hj Hpc He.
  assert (Hlo : locked e = true) by (apply (Hlk p e He); eauto).
  pose proof (Hun p e He Hlo) as Hpr.
  assert (Hopen : ~ Exists (closes p) (events s)) by (rewrite <-(Hcl p e He); congruence).
  set (e' := MkEntry (values e) r (generation e) dl false (e_key e)).
  assert (Hs : ∀ q, is_Some (heap s !! q) → is_Some (<[p := e']> (heap s) !! q)).
  { intros q Hq. destruct (decide (p = q)) as [<-|];
      [rewrite lookup_insert_eq|rewrite lookup_insert_ne by done]; eauto. }
  set (j' := with_pc j (if r then JRemove p else JDone)).
  assert (∀ q, j_pc j' ≠ JInvoke q) as Hnew by (unfold j'; by destruct r).
  split; cbn; try done.
  - intros k q Hk. destruct (Hit _ _ Hk) as (e1 & He1 & Hk1).
    destruct (decide (p = q)) as [<-|]; [|rewrite lookup_insert_ne by done; eauto].
    rewrite lookup_insert_eq. eexists; split; [done|]. cbn. congruence.
  - intros q e1 [[<- <-]|[_ He1]]%lookup_insert_Some; eauto.
  - intros t. rewrite dom_insert_L. apply elem_of_dom_2 in Hj. intros ?. apply Hth. set_solver.
  - destruct r; [by apply (closed_once_snoc _ _ p)|by rewrite app_nil_r].
  - intros q ev. rewrite elem_of_app. intros [Hin|Hin] Ha; [by apply Hs; eapply Hab|].
    destruct r; [|by apply elem_of_nil in Hin]. apply list_elem_of_singleton in Hin as ->.
    cbn in Ha; subst q. apply Hs. eauto.
  - intros q e1 [[<- <-]|[Hne He1]]%lookup_insert_Some; rewrite Exists_app.
    + unfold e'; destruct r; cbn; rewrite ?Exists_cons, ?Exists_nil; cbn; [tauto|].
      split; [done|tauto].
    + rewrite (Hcl q e1 He1). destruct r; rewrite ?Exists_cons, ?Exists_nil; cbn; [|tauto].
      split; [tauto|]. intros [?|[?|?]]; [done|congruence|done].
  - intros q e1 [[<- <-]|[Hne He1]]%lookup_insert_Some.
    + split; [done|]. intros (t & j1 & [[<- <-]|[Ht Hj1]]%lookup_insert_Some & Hp1); [by destruct (Hnew p)|].
      destruct Ht. by eapply Hex.
    + rewrite (Hlk q e1 He1). split; intros (t & j1 & Hj1 & Hp1).
      * exists t, j1. rewrite lookup_insert_ne; [done|]. intros <-. congruence.
      * apply lookup_insert_Some in Hj1 as [[<- <-]|[_ Hj1]]; [by destruct (Hnew q)|eauto].
  - intros t1 t2 j1 j2 q [[<- <-]|[_ H1]]%lookup_insert_Some [[<- <-]|[_ H2]]%lookup_insert_Some Hp1 Hp2;
      try done; try (by destruct (Hnew q)). by eapply Hex.
  - intros q e1 [[<- <-]|[_ He1]]%lookup_insert_Some; [done|exact (Hun q e1 He1)].
  - intros t j1 [[<- <-]|[_ Hj1]]%lookup_insert_Some.
    + unfold j'; destruct r; cbn; [apply Hs; eauto|done].
    + apply Hpt in Hj1. destruct (j_pc j1); auto.
  - intros t j1 [[<- <-]|[_ Hj1]]%lookup_insert_Some Hne; [|eauto using delivered_mono].
    apply delivered_mono. apply (Hdl tid j Hj). unfold pushed. by rewrite Hpc.
  - rewrite (gather_update stored _ p e e') by done. rewrite Hst. symmetry.
    eapply gather_update; [exact Hj|]. unfold pushed, j'; cbn. rewrite Hpc. by destruct r.
Qed.

Lemma inv_invoked s tid j r s' :
  join_inv s → joiners s !! tid = Some j → join_invoked s tid j r = Some s' → join_inv s'.
Proof.
  intros Hinv Hj Hs. unfold join_invoked in Hs. destruct (j_pc j) eqn:Hpc; try done.
  destruct (heap s !! item) as [e|] eqn:He; [|done]. cbn in Hs.
  pose proof (inv_release s tid j item e r
    (if negb r && j_renew j then Some (now s + j_ttl j) else e_deadline e) Hinv Hj Hpc He) as Hr.
  destruct r; simplify_eq; cbn in Hr; [|by rewrite app_nil_r in Hr].
  apply (inv_timers _ (cancel_timer item (generation e) <$> timers s) (next_thread s)) in Hr;
    [exact Hr| |done].
  intros t. rewrite dom_fmap_L. intros Ht. apply (i_threads _ Hinv). set_solver.
Qed.

(** The timer closes the group. *)
Lemma inv_expire s p e :
  join_inv s → heap s !! p = Some e → locked e = false → processed e = false →
  join_inv (log_event (set_entry s p
    (MkEntry (values e) true (generation e) (e_deadline e) false (e_key e))) (Expired p (values e))).
Proof.
  intros [Hit Hhp Hct Hth Hev Hab Hcl Hlk Hex Hun Hpt Hdl Hst] He Hlo Hpr.
  assert (Hopen : ~ Exists (closes p) (events s)) by (rewrite <-(Hcl p e He); congruence).
  set (e' := MkEntry (values e) true (generation e) (e_deadline e) false (e_key e)).
  assert (Hs : ∀ q, is_Some (heap s !! q) → is_Some (<[p := e']> (heap s) !! q)).
  { intros q Hq. destruct (decide (p = q)) as [<-|];
      [rewrite lookup_insert_eq|rewrite lookup_insert_ne by done]; eauto. }
  split; cbn; try done.
  - intros k q Hk. destruct (Hit _ _ Hk) as (e1 & He1 & Hk1).
    destruct (decide (p = q)) as [<-|]; [|rewrite lookup_insert_ne by done; eauto].
    rewrite lookup_insert_eq. eexists; split; [done|]. cbn. congruence.
  - intros q e1 [[<- <-]|[_ He1]]%lookup_insert_Some; eauto.
  - by apply (closed_once_snoc _ _ p).
  - intros q ev. rewrite elem_of_app, list_elem_of_singleton.
    intros [Hin| ->] Ha; apply Hs; [by eapply Hab|]. cbn in Ha; subst q. eauto.
  - intros q e1 [[<- <-]|[Hne He1]]%lookup_insert_Some; rewrite Exists_app, Exists_cons, Exists_nil.
    + cbn. tauto.
    + rewrite (Hcl q e1 He1). cbn. split; [tauto|]. intros [?|[?|?]]; [done|congruence|done].
  - intros q e1 [[<- <-]|[Hne He1]]%lookup_insert_Some; [|exact (Hlk q e1 He1)].
    cbn. rewrite <-(Hlk p e He), Hlo. done.
  - intros q e1 [[<- <-]|[_ He1]]%lookup_insert_Some; [done|exact (Hun q e1 He1)].
  - intros t j1 Hj1. apply Hpt in Hj1. destruct (j_pc j1); auto.
  - intros t j1 Hj1 Hne. eauto using delivered_mono.
  - by rewrite (gather_update stored _ p e e') by done.
Qed.

Lemma inv_set_timer s tid t t' :
  join_inv s → timers s !! tid = Some t → join_inv (set_timer s tid t').
Proof.
  intros Hinv Ht. apply (inv_timers s (<[tid := t']> (timers s)) (next_thread s)); [done| |done].
  intros u. rewrite dom_insert_L. apply elem_of_dom_2 in Ht. intros Hu. apply (i_threads _ Hinv). set_solver.
Qed.

Lemma inv_wake s tid t c s' :
  join_inv s → timers s !! tid = Some t → timer_wake s tid t c = Some s' → join_inv s'.
Proof.
  intros Hinv Ht Hs. unfold timer_wake in Hs. destruct (t_pc t); try done.
  destruct (t_cancelled t); [simplify_eq; by eapply inv_set_timer|].
  destruct (negb (timer_due s t c)); [done|].
  destruct (heap s !! t_item t) as [e|] eqn:He; [|done]. cbn in Hs.
  destruct (locked e) eqn:Hlo; [done|].
  destruct (processed e) eqn:Hpr; cbn in Hs; [simplify_eq; by eapply inv_set_timer|].
  destruct (negb (bool_decide _)); [simplify_eq; by eapply inv_set_timer|].
  assert (Hexp : join_inv (log_event (set_entry (set_timer s tid (timer_pc t TCallback)) (t_item t)
    (MkEntry (values e) true (generation e) (e_deadline e) false (e_key e)))
    (Expired (t_item t) (values e)))) by (apply inv_expire; [by eapply inv_set_timer|done..]).
  destruct (t_ctx_deadline t), (e_deadline e) as [rn|]; try (by simplify_eq).
  case_decide; simplify_eq; [by eapply inv_set_timer|done].
Qed.

Lemma inv_step s s' : join_step s s' → join_inv s → join_inv s'.
Proof.
  intros Hs Hinv. destruct Hs as [s key index value dl cfg|s tid j s' Hj Hs|s tid j s' Hj Hs
    |s tid j r s' Hj Hs|s tid j s' Hj Hs|s tid t c s' Ht Hs|s tid t s' Ht Hs|s d Hd].
  - by apply inv_begin.
  - by eapply inv_lookup.
  - by eapply inv_lock.
  - by eapply inv_invoked.
  - unfold join_remove in Hs. destruct (j_pc j) eqn:Hpc; simplify_eq;
      (apply inv_set_joiner; [by apply inv_remove_if_same| |by rewrite Hpc|done| |done]);
      try (unfold pushed; cbn; by rewrite Hpc); unfold remove_if_same; by case_decide.
  - by eapply inv_wake.
  - unfold timer_finish in Hs. destruct (t_pc t); simplify_eq; eapply inv_set_timer; try done.
    + by apply inv_remove_if_same.
    + unfold remove_if_same. by case_decide.
  - by destruct Hinv.
Qed.

Lemma inv_reach t s : rtc join_step (store_new t) s → join_inv s.
Proof.
  intros Hr. apply (rtc_ind_r (λ q, join_inv q) (store_new t)) in Hr; [done| |].
  - split; cbn; try done; try set_solver. intros p l1 ev l2 Heq. by destruct l1.
  - intros. by eapply inv_step.
Qed.
End join_invariant.

(** * Properties *)

(** C3: a join group is closed once.  In every interleaving of [join_value]
    calls, callbacks, expiry timers, renewals and time, no callback ever runs
    for a group after the one that completed or expired it, two callbacks of
    one group never overlap, and the gauge counts the stored groups. *)
Theorem join_group_closed_once `{Countable K} {V} t (s : Store K V) :
  rtc join_step (store_new t) s →
  (∀ p l1 ev l2, events s = l1 ++ ev :: l2 → closes p ev → Forall (λ ev', ~ about p ev') l2) ∧
  (∀ t1 t2 j1 j2 p, joiners s !! t1 = Some j1 → joiners s !! t2 = Some j2 →
    j_pc j1 = JInvoke p → j_pc j2 = JInvoke p → t1 = t2) ∧
  count s = Z.of_nat (size (items s)).
Proof. intros Hr%inv_reach. destruct Hr. done. Qed.

(** A group of two values: the second callback completes it. *)
Definition join_example : Store Z Z :=
  let s := join_begin (store_new 0) 7 0 10 None (5, false) in
  let s := join_begin s 7 1 20 None (5, false) in
  s.
Fixpoint run_joiner (s : Store Z Z) (tid : Z) (acts : list (option bool)) : Store Z Z :=
  match acts with
  | [] => s
  | a :: acts =>
      match joiners s !! tid with
      | None => s
      | Some j =>
          let s' :=
            match j_pc j, a with
            | JLookup, _ => join_lookup s tid j
            | JLock _, _ => match join_lock s tid j with Some (Ok s') => Some s' | _ => None end
            | JInvoke _, Some r => join_invoked s tid j r
            | _, _ => join_remove s tid j
            end in
          match s' with Some s' => run_joiner s' tid acts | None => s end
      end
  end.
Lemma run_joiner_reach s0 s tid acts :
  rtc join_step s0 s → rtc join_step s0 (run_joiner s tid acts).
Proof.
  revert s; induction acts as [|a acts IH]; intros s Hs; cbn; [done|].
  destruct (joiners s !! tid) as [j|] eqn:Hj; [|done].
  destruct (match j_pc j with JLookup => _ | _ => _ end) as [s'|] eqn:Hs'; [|done].
  apply IH. eapply rtc_r; [exact Hs|].
  destruct (j_pc j) eqn:Hpc; [by eapply js_lookup| |destruct a as [r|];
    [by eapply js_invoked|by eapply js_remove]|by eapply js_remove..].
  destruct (join_lock s tid j) as [[s1| |]|] eqn:Hl; simplify_eq. by eapply js_lock.
Qed.
Lemma join_example_reach : rtc join_step (store_new 0) join_example.
Proof. eapply rtc_l; [apply js_begin|]. apply rtc_once. apply js_begin. Qed.

Lemma join_group_closed_once_witness :
  let s := run_joiner (run_joiner join_example 0 [None; None; Some false]) 1
             [None; None; Some true; None] in
  events s = [Invoked 0 [[10]]; Invoked 0 [[10]; [20]]; Completed 0] ∧
  count s = Z.of_nat (size (items s)).
Proof.
  split; [vm_compute; reflexivity|].
  apply (join_group_closed_once 0). by apply run_joiner_reach, run_joiner_reach, join_example_reach.
Defined.

(** C4: no value is lost or joined twice.  The values kept in the groups are
    exactly the values of the calls that reached their callback (a call that
    waited for a group that closed meanwhile retries with its value), and the
    value of every call that returned was shown to a callback of its group. *)
Theorem join_values_delivered `{Countable K} {V} t (s : Store K V) :
  rtc join_step (store_new t) s →
  gather stored (heap s) ≡ₚ gather pushed (joiners s) ∧
  ∀ tid j, joiners s !! tid = Some j → j_pc j = JDone →
    ∃ p vs l, Invoked p vs ∈ events s ∧ vs !! j_index j = Some l ∧ j_value j ∈ l.
Proof.
  intros Hr%inv_reach. split; [apply Hr|]. intros tid j Hj Hpc.
  apply (i_delivered _ Hr tid j Hj). unfold pushed. by rewrite Hpc.
Qed.

Lemma join_values_delivered_witness :
  let s := run_joiner join_example 0 [None; None; Some false] in
  (j_pc <$> joiners s !! 0) = Some JDone ∧ gather stored (heap s) ≡ₚ gather pushed (joiners s).
Proof.
  split; [vm_compute; reflexivity|].
  apply (join_values_delivered 0). apply run_joiner_reach, join_example_reach.
Defined.

(** mixed lifetimes can panic.  A call without lifetime (zero TTL) creates
    a group without deadline; when a call with a positive lifetime (a context
    deadline) takes the group's lock first, arming its timer fails with
    "positive TTL has a deadline". *)
Theorem join_mixed_ttl_panics :
  ∃ (s : Store Z Z) tid j,
    rtc join_step (store_new 0) s ∧ joiners s !! tid = Some j ∧ join_lock s tid j = Some Panic.
Proof.
  set (s0 := join_begin (join_begin (store_new 0) 7 0 10 None (0, false)) 7 1 20 (Some 5) (0, false)).
  exists (run_joiner (run_joiner s0 0 [None]) 1 [None]), 1, (MkJoiner 7 1 20 (Some 5) 5 false (JLock 0)).
  split.
  - apply run_joiner_reach, run_joiner_reach. eapply rtc_l; [apply js_begin|].
    apply rtc_once. apply js_begin.
  - split; reflexivity.
Qed.
