(* ===== verification/Config.v ===== *)
(** Service configuration: the data of [src/src/runtime/config/mod.rs] with the
    enumerations of [src/src/api/serviceapi.rs] it uses, and the indexed
    snapshot of [src/src/runtime/config/runtime.rs].

    Floats are bit patterns, durations are milliseconds, the free-form
    properties are values of the parameter [Json] ([serde_json::Value]).
    [Arc] is sharing of immutable values and disappears. *)

From S2P Require Import Prelude Errors.
From stdpp Require Import pretty.
From Stdlib Require Import Strings.Ascii.
Local Open Scope Z_scope.

Module Api.
Inductive ProgrammingLanguage :=
| PLUndefined | GoLang | CppUserver | Python | Rust | TypeScript | CppCoro.
Inductive JoinStorageType := JSUndefined | HashMap | RocksDB | Aerospike.
Inductive TransformationType :=
| TTUndefined | TTInput | TTMap | TTFilter | TTJoin | TTMultiJoin | TTProcess | TTFlatMap
| TTFlatMapIterable | TTKeyBy | TTMerge | TTSplit | TTCase | TTSink | TTCycleLink | TTError
| TTDelay | TTWhen | TTSubStream.
Inductive JoinType := JTUndefined | Inner | Left | Right | Outer.
Inductive HTTPMethodType :=
| HMUndefined | GET | POST | PUT | PATCH | DELETE | HEAD | OPTIONS | TRACE | CONNECT.
Inductive GrpcMethodType :=
| GMUndefined | NoStreaming | ClientStreaming | ServerStreaming | BidirectionalStreaming.
Inductive DataConnectorType :=
| DCUndefined | DCHTTP | DCGRPC | DCKafka | DCCustom | DCCron | DCTemporal.
Inductive ProcessPattern := PPUndefined | Execute | Collect.
Inductive LogLevel := LLUndefined | CRITICAL | FATAL | ERROR | WARNING | INFO | DEBUG.
Inductive KubernetesWorkloadType := Deployment | StatefulSet.
Inductive KafkaSecurityProtocol := PLAINTEXT | SASLPLAINTEXT | SASLSSL.
Inductive KafkaSaslMechanism := PLAIN | SCRAMSHA256 | SCRAMSHA512.
Inductive ScheduleOverlapPolicy := OverlapAllow | OverlapSkip.
Inductive ScheduleMissedRunPolicy := MissedSkip | FireOnce.
Inductive TypeDefinitionFormat := TDUndefined | Native | Protobuf | FlatBuffers | CapNProto | OpenAPI.
Inductive DataType :=
| DTUndefined | DTInt | DTUint | DTByte | DTChar | DTBoolean | DTUnicodeChar | DTString
| DTUnicodeString | DTFloat | DTDouble | DTInt8 | DTInt16 | DTInt32 | DTInt64 | DTUint8
| DTUint16 | DTUint32 | DTUint64 | DTAny | DTError | DTArray | DTMap | DTStruct | DTCustom.
End Api.
#[export] Instance connector_type_eq_dec : EqDecision Api.DataConnectorType.
Proof. solve_decision. Defined.

(** * Call semantics and links *)
Inductive CallSemantics :=
| FunctionCall
| ParallelCall
| TaskPool (pool_name : string)
| PriorityTaskPool (pool_name : string) (priority : Z).

Definition CallSemantics_default : CallSemantics := FunctionCall.
Definition is_async (s : CallSemantics) : bool :=
  match s with FunctionCall => false | _ => true end.

Record LinkConfig := MkLink { l_from : Z; l_to : Z; call_semantics : CallSemantics; l_async : bool }.

(** * Services, pools and connectors *)
Record ServiceConfig := MkService {
  svc_id : Z;
  svc_name : string;
  programming_language : Api.ProgrammingLanguage;
  module_path : string;
  default_call_semantics : CallSemantics;
  http_host : string;
  http_port : Z;
  metrics_handler : string;
  status_handler : string;
  startup_handler : string;
  readiness_handler : string;
  liveness_handler : string;
  kubernetes_workload_type : Api.KubernetesWorkloadType;
  grpc_host : string;
  grpc_port : Z;
  default_grpc_timeout : Z;
  color : string;
  log_level : Api.LogLevel;
  svc_environment : string;
  shutdown_timeout : Z }.

Definition ServiceConfig_default : ServiceConfig :=
  MkService 0 "" Api.Rust "" FunctionCall "0.0.0.0" 8080 "metrics" "status" "health/startup"
    "health/ready" "health/live" Api.Deployment "0.0.0.0" 9090 5000 "" Api.LLUndefined "" 30000.

Record PoolConfig := MkPoolConfig { pool_name : string; executors_count : Z; queue_capacity : Z }.

Record HttpDataConnectorConfig := MkHttpConnector {
  hc_id : Z; hc_name : string; hc_host : string; hc_port : Z; hc_address : string;
  use_dedicated_listener : bool }.
Record GrpcDataConnectorConfig := MkGrpcConnector {
  gc_id : Z; gc_name : string; gc_address : string; connections_count : Z }.
Definition default_connections_count : Z := 1.
Record KafkaDataConnectorConfig := MkKafkaConnector {
  kc_id : Z; kc_name : string; brokers : string; version : string; dial_timeout : Z;
  use_partitioner : bool; kc_async : bool; security_protocol : Api.KafkaSecurityProtocol;
  sasl_mechanism : Api.KafkaSaslMechanism; username : string; password : string }.
Definition default_kafka_security_protocol := Api.PLAINTEXT.
Definition default_kafka_sasl_mechanism := Api.PLAIN.
Record CronDataConnectorConfig := MkCronConnector { cc_id : Z; cc_name : string }.
Record TemporalDataConnectorConfig := MkTemporalConnector {
  tc_id : Z; tc_name : string; tc_address : string; namespace : string; identity : string }.
Record CustomDataConnectorConfig := MkCustomConnector { uc_id : Z; uc_name : string }.

Inductive RuntimeDataConnectorConfig :=
| HttpConnector (config : HttpDataConnectorConfig)
| GrpcConnector (config : GrpcDataConnectorConfig)
| KafkaConnector (config : KafkaDataConnectorConfig)
| CronConnector (config : CronDataConnectorConfig)
| TemporalConnector (config : TemporalDataConnectorConfig)
| CustomConnector (config : CustomDataConnectorConfig).

Definition connector_id (c : RuntimeDataConnectorConfig) : Z :=
  match c with
  | HttpConnector c => hc_id c | GrpcConnector c => gc_id c | KafkaConnector c => kc_id c
  | CronConnector c => cc_id c | TemporalConnector c => tc_id c | CustomConnector c => uc_id c
  end.
Definition connector_name (c : RuntimeDataConnectorConfig) : string :=
  match c with
  | HttpConnector c => hc_name c | GrpcConnector c => gc_name c | KafkaConnector c => kc_name c
  | CronConnector c => cc_name c | TemporalConnector c => tc_name c | CustomConnector c => uc_name c
  end.
Definition connector_type (c : RuntimeDataConnectorConfig) : Api.DataConnectorType :=
  match c with
  | HttpConnector _ => Api.DCHTTP | GrpcConnector _ => Api.DCGRPC | KafkaConnector _ => Api.DCKafka
  | CronConnector _ => Api.DCCron | TemporalConnector _ => Api.DCTemporal
  | CustomConnector _ => Api.DCCustom
  end.

(** * Endpoints *)
Record HttpEndpointConfig := MkHttpEndpoint {
  he_id : Z; he_name : string; he_connector : Z; he_tracing : bool;
  http_method_type : Api.HTTPMethodType; he_path : string }.
Record GrpcEndpointConfig := MkGrpcEndpoint {
  ge_id : Z; ge_name : string; ge_connector : Z; ge_tracing : bool;
  grpc_method_type : Api.GrpcMethodType }.
Record KafkaEndpointConfig := MkKafkaEndpoint {
  ke_id : Z; ke_name : string; ke_connector : Z; ke_tracing : bool; ke_enabled : bool;
  create_topic : bool; topic : string; partitions : Z; consumer_group : string;
  replication_factor : Z }.
Record CronEndpointConfig := MkCronEndpoint {
  ce_id : Z; ce_name : string; ce_connector : Z; ce_tracing : bool; ce_enabled : bool;
  ce_schedule : string; ce_timezone : string; ce_overlap_policy : Api.ScheduleOverlapPolicy;
  ce_missed_run_policy : Api.ScheduleMissedRunPolicy }.
Record TemporalEndpointConfig := MkTemporalEndpoint {
  te_id : Z; te_name : string; te_connector : Z; te_tracing : bool; te_enabled : bool;
  task_queue : string; te_schedule : string; schedule_id : string; te_timezone : string;
  te_overlap_policy : Api.ScheduleOverlapPolicy; te_missed_run_policy : Api.ScheduleMissedRunPolicy;
  workflow_execution_timeout : Z; activity_start_to_close_timeout : Z;
  activity_heartbeat_timeout : Z; maximum_attempts : Z; max_concurrent_activities : Z;
  max_concurrent_workflow_tasks : Z }.
Definition default_schedule_timezone : string := "UTC".
Definition default_overlap_policy := Api.OverlapSkip.
Definition default_missed_run_policy := Api.MissedSkip.
Record CustomEndpointConfig := MkCustomEndpoint {
  ue_enabled : bool; ue_id : Z; ue_name : string; ue_connector : Z; ue_tracing : bool }.

Inductive RuntimeEndpointConfig :=
| HttpEndpoint (config : HttpEndpointConfig)
| GrpcEndpoint (config : GrpcEndpointConfig)
| KafkaEndpoint (config : KafkaEndpointConfig)
| CronEndpoint (config : CronEndpointConfig)
| TemporalEndpoint (config : TemporalEndpointConfig)
| CustomEndpoint (config : CustomEndpointConfig).

Definition endpoint_id (e : RuntimeEndpointConfig) : Z :=
  match e with
  | HttpEndpoint c => he_id c | GrpcEndpoint c => ge_id c | KafkaEndpoint c => ke_id c
  | CronEndpoint c => ce_id c | TemporalEndpoint c => te_id c | CustomEndpoint c => ue_id c
  end.
Definition endpoint_name (e : RuntimeEndpointConfig) : string :=
  match e with
  | HttpEndpoint c => he_name c | GrpcEndpoint c => ge_name c | KafkaEndpoint c => ke_name c
  | CronEndpoint c => ce_name c | TemporalEndpoint c => te_name c | CustomEndpoint c => ue_name c
  end.
Definition data_connector_id (e : RuntimeEndpointConfig) : Z :=
  match e with
  | HttpEndpoint c => he_connector c | GrpcEndpoint c => ge_connector c
  | KafkaEndpoint c => ke_connector c | CronEndpoint c => ce_connector c
  | TemporalEndpoint c => te_connector c | CustomEndpoint c => ue_connector c
  end.
Definition endpoint_connector_type (e : RuntimeEndpointConfig) : Api.DataConnectorType :=
  match e with
  | HttpEndpoint _ => Api.DCHTTP | GrpcEndpoint _ => Api.DCGRPC | KafkaEndpoint _ => Api.DCKafka
  | CronEndpoint _ => Api.DCCron | TemporalEndpoint _ => Api.DCTemporal
  | CustomEndpoint _ => Api.DCCustom
  end.
Definition endpoint_tracing_enabled (e : RuntimeEndpointConfig) : bool :=
  match e with
  | HttpEndpoint c => he_tracing c | GrpcEndpoint c => ge_tracing c | KafkaEndpoint c => ke_tracing c
  | CronEndpoint c => ce_tracing c | TemporalEndpoint c => te_tracing c | CustomEndpoint c => ue_tracing c
  end.

(** * Streams *)
Section streams.
Context {Json : Type}.

Record StreamConfig := MkStream {
  str_id : Z; str_name : string; pipeline : string; component : string; id_source : Z;
  id_sources : list Z; id_service : Z; value_type : option string; key_type : option string;
  x_pos : Z; y_pos : Z; properties : gmap string Json }.

Definition StreamConfig_new (id : Z) (name : string) : StreamConfig :=
  MkStream id name "" "" 0 [] 0 None None 0 0 ∅.
Definition property (s : StreamConfig) (name : string) : option Json := properties s !! name.
(** [as_bool] is [serde_json::Value::as_bool]. *)
Definition property_bool (as_bool : Json → option bool) (s : StreamConfig) (name : string) :
    option bool := property s name ≫= as_bool.
Definition with_graph (s : StreamConfig) (svc src : Z) (srcs : list Z) (vt kt : option string)
    (x y : Z) : StreamConfig :=
  MkStream (str_id s) (str_name s) (pipeline s) (component s) src srcs svc vt kt x y (properties s).
Definition with_component (s : StreamConfig) (c : string) : StreamConfig :=
  MkStream (str_id s) (str_name s) (pipeline s) c (id_source s) (id_sources s) (id_service s)
    (value_type s) (key_type s) (x_pos s) (y_pos s) (properties s).
Definition with_pipeline (s : StreamConfig) (p : string) : StreamConfig :=
  MkStream (str_id s) (str_name s) p (component s) (id_source s) (id_sources s) (id_service s)
    (value_type s) (key_type s) (x_pos s) (y_pos s) (properties s).

(** The structures of the [stream_config!] macro hold only their stream. *)
Inductive RuntimeStreamConfig :=
| Plain (stream : StreamConfig) | ErrorStream (stream : StreamConfig)
| MapStream (stream : StreamConfig) | FilterStream (stream : StreamConfig)
| FlatMapStream (stream : StreamConfig) | FlatMapIterableStream (stream : StreamConfig)
| KeyByStream (stream : StreamConfig) | MergeStream (stream : StreamConfig)
| SplitStream (stream : StreamConfig) | CaseStream (stream : StreamConfig)
| WhenStream (stream : StreamConfig) | CycleLinkStream (stream : StreamConfig)
| InputStream (stream : StreamConfig) (endpoint_id : Z)
| SubStream (stream : StreamConfig)
| ProcessStream (stream : StreamConfig) (pattern : Api.ProcessPattern)
| DelayStream (stream : StreamConfig) (duration : Z)
| SinkStream (stream : StreamConfig) (endpoint_id : Z)
| JoinStream (stream : StreamConfig) (join_type : Api.JoinType)
    (join_storage : Api.JoinStorageType) (ttl : Z) (renew_ttl : bool)
| MultiJoinStream (stream : StreamConfig) (join_storage : Api.JoinStorageType) (ttl : Z)
    (renew_ttl : bool).

Definition stream (c : RuntimeStreamConfig) : StreamConfig :=
  match c with
  | Plain s | ErrorStream s | MapStream s | FilterStream s | FlatMapStream s
  | FlatMapIterableStream s | KeyByStream s | MergeStream s | SplitStream s | CaseStream s
  | WhenStream s | CycleLinkStream s | InputStream s _ | SubStream s | ProcessStream s _
  | DelayStream s _ | SinkStream s _ | JoinStream s _ _ _ _ | MultiJoinStream s _ _ _ => s
  end.
(** The duration of a delay stream. *)
Definition stream_delay (c : RuntimeStreamConfig) : option (StreamConfig * Z) :=
  match c with DelayStream s d => Some (s, d) | _ => None end.
Definition transformation_type (c : RuntimeStreamConfig) : Api.TransformationType :=
  match c with
  | Plain _ => Api.TTUndefined | ErrorStream _ => Api.TTError | MapStream _ => Api.TTMap
  | FilterStream _ => Api.TTFilter | FlatMapStream _ => Api.TTFlatMap
  | FlatMapIterableStream _ => Api.TTFlatMapIterable | KeyByStream _ => Api.TTKeyBy
  | MergeStream _ => Api.TTMerge | SplitStream _ => Api.TTSplit | CaseStream _ => Api.TTCase
  | WhenStream _ => Api.TTWhen | CycleLinkStream _ => Api.TTCycleLink
  | InputStream _ _ => Api.TTInput | SubStream _ => Api.TTSubStream
  | ProcessStream _ _ => Api.TTProcess | DelayStream _ _ => Api.TTDelay
  | SinkStream _ _ => Api.TTSink | JoinStream _ _ _ _ _ => Api.TTJoin
  | MultiJoinStream _ _ _ _ => Api.TTMultiJoin
  end.
Definition stream_endpoint_id (c : RuntimeStreamConfig) : option Z :=
  match c with InputStream _ e | SinkStream _ e => Some e | _ => None end.

Record ModuleConfig := MkModule {
  mod_name : string; mod_path : string; mod_properties : gmap string Json }.
Record TypeConfig := MkType {
  type_name : string; data_type : Api.DataType; type_definition : string; type_import : string;
  t_value_type : string; t_key_type : string; package : string; t_module : string;
  definition_format : Api.TypeDefinitionFormat; public_type : bool; transfer_by_value : bool;
  use_alias : bool; t_properties : gmap string Json }.
End streams.
Arguments StreamConfig : clear implicits.
Arguments RuntimeStreamConfig : clear implicits.
Arguments ModuleConfig : clear implicits.
Arguments TypeConfig : clear implicits.

(** * The indexed snapshot *)

(** [format!("{s:?}")] for a string: quoted, with its escapes. *)
Definition debug_char (c : ascii) : string :=
  match c with
  | "010"%char => "\n" | "013"%char => "\r" | "009"%char => "\t" | "000"%char => "\0"
  | "092"%char => "\\" | "034"%char => String "092" (String "034" "")
  | c => String c ""
  end.
Fixpoint debug_body (s : string) : string :=
  match s with
  | EmptyString => ""
  | String c s => debug_char c +:+ debug_body s
  end.
Definition debug (s : string) : string :=
  String "034" (debug_body s +:+ String "034" "").

Section runtime_config.
Context {Json : Type}.
Notation StreamC := (RuntimeStreamConfig Json).

Record RuntimeConfig := MkRuntimeConfig {
  rc_default_call_semantics : CallSemantics;
  services_by_id : gmap Z ServiceConfig;
  services_by_name : gmap string ServiceConfig;
  streams_by_id : gmap Z StreamC;
  streams_by_name : gmap string StreamC;
  pools_by_name : gmap string PoolConfig;
  data_connectors_by_id : gmap Z RuntimeDataConnectorConfig;
  data_connectors_by_name : gmap string RuntimeDataConnectorConfig;
  endpoints_by_id : gmap Z RuntimeEndpointConfig;
  endpoints_by_name : gmap string RuntimeEndpointConfig;
  links : gmap (Z * Z) LinkConfig;
  modules_by_name : gmap string (ModuleConfig Json);
  types_by_name : gmap string (TypeConfig Json) }.

Definition with_default_call_semantics (d : CallSemantics) : RuntimeConfig :=
  MkRuntimeConfig d ∅ ∅ ∅ ∅ ∅ ∅ ∅ ∅ ∅ ∅ ∅ ∅.

Definition duplicate {A} (kind : string) (id : Z) : RuntimeResult A :=
  Err (InvalidConfiguration ("duplicate " +:+ kind +:+ ": " +:+ pretty id)).
Definition duplicate_name {A} (kind name : string) : RuntimeResult A :=
  Err (InvalidConfiguration ("duplicate " +:+ kind +:+ " name: " +:+ name)).

(** The pair of tables every section with identifiers fills: the loops over
    services, streams and data connectors (and the tail of the endpoint loop). *)
Definition insert_both {A} (id_kind name_kind : string) (id : A → Z) (name : A → string)
    (tables : gmap Z A * gmap string A) (a : A) : RuntimeResult (gmap Z A * gmap string A) :=
  let '(by_id, by_name) := tables in
  if decide (is_Some (by_id !! id a)) then duplicate id_kind (id a)
  else if decide (is_Some (by_name !! name a)) then duplicate_name name_kind (name a)
  else Ok (<[id a := a]> by_id, <[name a := a]> by_name).

Definition insert_name {A} (kind : string) (name : A → string) (t : gmap string A) (a : A) :
    RuntimeResult (gmap string A) :=
  if decide (is_Some (t !! name a)) then duplicate_name kind (name a)
  else Ok (<[name a := a]> t).

(** The checks of an endpoint against its connector. *)
Definition check_endpoint (connectors : gmap Z RuntimeDataConnectorConfig)
    (e : RuntimeEndpointConfig) : RuntimeResult unit :=
  match connectors !! data_connector_id e with
  | None =>
      Err (InvalidConfiguration ("endpoint " +:+ debug (endpoint_name e) +:+
        " references unknown data connector " +:+ pretty (data_connector_id e)))
  | Some connector =>
      if decide (connector_type connector ≠ endpoint_connector_type e) then
        Err (InvalidConfiguration ("endpoint " +:+ debug (endpoint_name e) +:+
          " type does not match data connector " +:+ debug (connector_name connector)))
      else
        match e with
        | CronEndpoint c =>
            if decide (ce_timezone c ≠ "UTC") then
              Err (InvalidConfiguration ("Cron endpoint " +:+ debug (ce_name c) +:+
                " requires timezone UTC"))
            else Ok tt
        | TemporalEndpoint c =>
            if decide (te_schedule c ≠ "" ∧ te_timezone c ≠ "UTC") then
              Err (InvalidConfiguration ("scheduled Temporal endpoint " +:+ debug (te_name c) +:+
                " requires timezone UTC"))
            else Ok tt
        | _ => Ok tt
        end
  end.

Definition insert_endpoint (connectors : gmap Z RuntimeDataConnectorConfig)
    (tables : gmap Z RuntimeEndpointConfig * gmap string RuntimeEndpointConfig)
    (e : RuntimeEndpointConfig) :
    RuntimeResult (gmap Z RuntimeEndpointConfig * gmap string RuntimeEndpointConfig) :=
  let '(by_id, by_name) := tables in
  if decide (is_Some (by_id !! endpoint_id e)) then duplicate "endpoint id" (endpoint_id e)
  else if decide (is_Some (by_name !! endpoint_name e))
  then duplicate_name "endpoint" (endpoint_name e)
  else
    _ ← check_endpoint connectors e;
    Ok (<[endpoint_id e := e]> by_id, <[endpoint_name e := e]> by_name).

Definition insert_link (t : gmap (Z * Z) LinkConfig) (l : LinkConfig) :
    RuntimeResult (gmap (Z * Z) LinkConfig) :=
  if decide (is_Some (t !! (l_from l, l_to l)))
  then Err (InvalidConfiguration ("duplicate link from=" +:+ pretty (l_from l) +:+
         " to=" +:+ pretty (l_to l)))
  else Ok (<[(l_from l, l_to l) := l]> t).

Definition semantics_pool (s : CallSemantics) : option string :=
  match s with TaskPool p | PriorityTaskPool p _ => Some p | _ => None end.

(** A pool that is only referenced gets one executor. *)
Definition reference_pool (pools : gmap string PoolConfig) (s : CallSemantics) :
    gmap string PoolConfig :=
  match semantics_pool s with
  | Some p => or_insert pools (p, MkPoolConfig p 1 0)
  | None => pools
  end.

Definition from_parts (d : CallSemantics) (services : list ServiceConfig) (streams : list StreamC)
    (pools : list PoolConfig) (connectors : list RuntimeDataConnectorConfig)
    (endpoints : list RuntimeEndpointConfig) (lks : list LinkConfig) : RuntimeResult RuntimeConfig :=
  '(sid, sname) ← fold_res (insert_both "service id" "service" svc_id svc_name) (∅, ∅) services;
  '(stid, stname) ← fold_res (insert_both "stream id" "stream" (λ c, str_id (stream c))
                       (λ c, str_name (stream c))) (∅, ∅) streams;
  pools ← fold_res (insert_name "pool" pool_name) ∅ pools;
  '(cid, cname) ← fold_res (insert_both "data connector id" "data connector" connector_id
                     connector_name) (∅, ∅) connectors;
  '(eid, ename) ← fold_res (insert_endpoint cid) (∅, ∅) endpoints;
  lks ← fold_res insert_link ∅ lks;
  let referenced :=
    d :: (default_call_semantics <$> (map_to_list sid).*2) ++ (call_semantics <$> (map_to_list lks).*2) in
  let pools := foldl reference_pool pools referenced in
  Ok (MkRuntimeConfig d sid sname stid stname pools cid cname eid ename lks ∅ ∅).

(** The sections a configuration provides ([trait Config]). *)
Record ConfigParts := MkParts {
  cp_default_call_semantics : CallSemantics;
  cp_services : list ServiceConfig;
  cp_streams : list StreamC;
  cp_pools : list PoolConfig;
  cp_data_connectors : list RuntimeDataConnectorConfig;
  cp_endpoints : list RuntimeEndpointConfig;
  cp_links : list LinkConfig;
  cp_modules : list (ModuleConfig Json);
  cp_types : list (TypeConfig Json) }.

Definition RuntimeConfig_new (config : ConfigParts) : RuntimeResult RuntimeConfig :=
  r ← from_parts (cp_default_call_semantics config) (cp_services config) (cp_streams config)
        (cp_pools config) (cp_data_connectors config) (cp_endpoints config) (cp_links config);
  ms ← fold_res (insert_name "module" mod_name) (modules_by_name r) (cp_modules config);
  ts ← fold_res (insert_name "type" type_name) (types_by_name r) (cp_types config);
  Ok (MkRuntimeConfig (rc_default_call_semantics r) (services_by_id r) (services_by_name r)
        (streams_by_id r) (streams_by_name r) (pools_by_name r) (data_connectors_by_id r)
        (data_connectors_by_name r) (endpoints_by_id r) (endpoints_by_name r) (links r) ms ts).

(** ** Lookups.  [HashMap::values] iterates in no particular order. *)
Definition service_by_id (r : RuntimeConfig) (id : Z) : option ServiceConfig := services_by_id r !! id.
Definition service_by_name (r : RuntimeConfig) (name : string) : option ServiceConfig :=
  services_by_name r !! name.
Definition services (r : RuntimeConfig) : list ServiceConfig := (map_to_list (services_by_id r)).*2.
Definition stream_by_id (r : RuntimeConfig) (id : Z) : option StreamC := streams_by_id r !! id.
Definition stream_by_name (r : RuntimeConfig) (name : string) : option StreamC :=
  streams_by_name r !! name.
Definition streams (r : RuntimeConfig) : list StreamC := (map_to_list (streams_by_id r)).*2.
Definition pool_by_name (r : RuntimeConfig) (name : string) : option PoolConfig := pools_by_name r !! name.
Definition pools (r : RuntimeConfig) : list PoolConfig := (map_to_list (pools_by_name r)).*2.
Definition data_connector_by_id (r : RuntimeConfig) (id : Z) : option RuntimeDataConnectorConfig :=
  data_connectors_by_id r !! id.
Definition endpoint_by_id (r : RuntimeConfig) (id : Z) : option RuntimeEndpointConfig :=
  endpoints_by_id r !! id.
Definition data_connectors (r : RuntimeConfig) : list RuntimeDataConnectorConfig :=
  (map_to_list (data_connectors_by_id r)).*2.
Definition endpoints (r : RuntimeConfig) : list RuntimeEndpointConfig :=
  (map_to_list (endpoints_by_id r)).*2.
Definition link (r : RuntimeConfig) (from to : Z) : option LinkConfig := links r !! (from, to).
Definition link_values (r : RuntimeConfig) : list LinkConfig := (map_to_list (links r)).*2.
Definition module_by_name (r : RuntimeConfig) (name : string) : option (ModuleConfig Json) :=
  modules_by_name r !! name.
Definition modules (r : RuntimeConfig) : list (ModuleConfig Json) := (map_to_list (modules_by_name r)).*2.
Definition type_by_name (r : RuntimeConfig) (name : string) : option (TypeConfig Json) :=
  types_by_name r !! name.
Definition types (r : RuntimeConfig) : list (TypeConfig Json) := (map_to_list (types_by_name r)).*2.
End runtime_config.
Arguments RuntimeConfig : clear implicits.
Arguments ConfigParts : clear implicits.

(** * Lemmas *)

(** A table holds exactly the elements of a list, by key. *)
Definition index_of {K A} `{Countable K} (f : A → K) (l : list A) (t : gmap K A) : Prop :=
  ∀ k a, t !! k = Some a ↔ a ∈ l ∧ f a = k.

Section tables.
Context {K A : Type} `{Countable K} (f : A → K).

Lemma index_of_nil : index_of f [] ∅.
Proof. intros k a. rewrite lookup_empty, elem_of_nil. naive_solver. Qed.
Lemma index_of_None l t k : index_of f l t → t !! k = None ↔ k ∉ f <$> l.
Proof.
  intros Ht. rewrite list_elem_of_fmap. destruct (t !! k) as [a|] eqn:Hk.
  - apply Ht in Hk as [Hin <-]. naive_solver.
  - split; [|done]. intros _ (a & -> & Hin). assert (t !! f a = Some a) by by apply Ht. congruence.
Qed.
Lemma index_of_snoc l t a :
  index_of f l t → t !! f a = None → index_of f (l ++ [a]) (<[f a := a]> t).
Proof.
  intros Ht Hn k b. rewrite elem_of_app, list_elem_of_singleton, lookup_insert_Some, (Ht k b).
  split; [naive_solver|]. intros [[Hin| ->] <-]; [|by left]. right. split; [|done].
  intros Hk. assert (t !! f b = Some b) by by apply Ht. congruence.
Qed.
End tables.

(** The loop over one table. *)
Lemma insert_name_spec {A} kind (name : A → string) l :
  (NoDup (name <$> l) ∧ ∃ t, fold_res (insert_name kind name) ∅ l = Ok t ∧ index_of name l t) ∨
  (~ NoDup (name <$> l) ∧ ∃ e, fold_res (insert_name kind name) ∅ l = Err e).
Proof.
  rewrite <-(all_ok_NoDup name [] l) by constructor.
  apply (fold_res_spec _ (index_of name) (λ pre a, name a ∉ name <$> pre)) with (l := l) (pre := []);
    [|apply index_of_nil].
  intros pre a t Ht. unfold insert_name. destruct (t !! name a) as [b|] eqn:Hn.
  - right. rewrite decide_True by eauto. split; [|unfold duplicate_name; eauto].
    rewrite <-(index_of_None name pre t) by done. congruence.
  - left. rewrite decide_False by (by intros []). split; [by apply (index_of_None name pre t)|].
    eexists; split; [done|]. by apply index_of_snoc.
Qed.

(** The loop over a pair of tables, with a further check [chk]. *)
Lemma insert_pair_spec {A} (id : A → Z) (name : A → string) (good : A → Prop)
    (g : gmap Z A * gmap string A → A → RuntimeResult (gmap Z A * gmap string A)) l :
  (∀ by_id by_name a,
    (by_id !! id a = None → by_name !! name a = None →
      (good a ∧ g (by_id, by_name) a = Ok (<[id a := a]> by_id, <[name a := a]> by_name)) ∨
      (~ good a ∧ ∃ e, g (by_id, by_name) a = Err e)) ∧
    (is_Some (by_id !! id a) ∨ is_Some (by_name !! name a) → ∃ e, g (by_id, by_name) a = Err e)) →
  (NoDup (id <$> l) ∧ NoDup (name <$> l) ∧ Forall good l) ∧
    (∃ t1 t2, fold_res g (∅, ∅) l = Ok (t1, t2) ∧ index_of id l t1 ∧ index_of name l t2) ∨
  ~ (NoDup (id <$> l) ∧ NoDup (name <$> l) ∧ Forall good l) ∧ ∃ e, fold_res g (∅, ∅) l = Err e.
Proof.
  intros Hg.
  assert (Hiff : all_ok (λ pre a, id a ∉ id <$> pre ∧ (name a ∉ name <$> pre ∧ good a)) [] l ↔
    NoDup (id <$> l) ∧ NoDup (name <$> l) ∧ Forall good l).
  { rewrite all_ok_and. rewrite (all_ok_and (λ pre a, name a ∉ name <$> pre) (λ _ a, good a)).
    rewrite all_ok_Forall, !all_ok_NoDup by constructor. done. }
  rewrite <-Hiff.
  destruct (fold_res_spec g (λ pre t, index_of id pre t.1 ∧ index_of name pre t.2)
    (λ pre a, id a ∉ id <$> pre ∧ (name a ∉ name <$> pre ∧ good a))) with (l := l) (pre := @nil A)
    (b := (∅, ∅) : gmap Z A * gmap string A) as [(Hok & [t1 t2] & Hf & Ht)|?].
  - intros pre a [t1 t2] [H1 H2]; cbn in *. destruct (Hg t1 t2 a) as [Hgood Hbad].
    rewrite <-(index_of_None id pre t1), <-(index_of_None name pre t2) by done.
    destruct (t1 !! id a) eqn:E1; [right; split; [naive_solver|eauto]|].
    destruct (t2 !! name a) eqn:E2; [right; split; [naive_solver|eauto]|].
    destruct (Hgood eq_refl eq_refl) as [[? ->]|[? ?]]; [|right; split; [naive_solver|done]].
    left. split; [done|]. eexists; split; [done|]. cbn. split; by apply index_of_snoc.
  - split; apply index_of_nil.
  - left. split; [done|]. exists t1, t2. done.
  - by right.
Qed.

Lemma insert_both_spec {A} k1 k2 (id : A → Z) (name : A → string) l :
  (NoDup (id <$> l) ∧ NoDup (name <$> l)) ∧
    (∃ t1 t2, fold_res (insert_both k1 k2 id name) (∅, ∅) l = Ok (t1, t2) ∧
      index_of id l t1 ∧ index_of name l t2) ∨
  ~ (NoDup (id <$> l) ∧ NoDup (name <$> l)) ∧
    ∃ e, fold_res (insert_both k1 k2 id name) (∅, ∅) l = Err e.
Proof.
  destruct (insert_pair_spec id name (λ _, True) (insert_both k1 k2 id name) l) as [?|?];
    [|left; naive_solver|right; rewrite Forall_forall in *; naive_solver].
  intros t1 t2 a. unfold insert_both, duplicate, duplicate_name. split.
  - intros H1 H2. left. rewrite H1, H2, !decide_False by (by intros []). done.
  - intros Hd. case_decide; [eauto|]. case_decide; [eauto|]. naive_solver.
Qed.

(** ** Endpoints *)
Definition timezone_ok (e : RuntimeEndpointConfig) : Prop :=
  match e with
  | CronEndpoint c => ce_timezone c = "UTC"
  | TemporalEndpoint c => te_schedule c = "" ∨ te_timezone c = "UTC"
  | _ => True
  end.
Definition valid_endpoint (connectors : list RuntimeDataConnectorConfig) (e : RuntimeEndpointConfig) : Prop :=
  ∃ c, c ∈ connectors ∧ connector_id c = data_connector_id e ∧
       connector_type c = endpoint_connector_type e ∧ timezone_ok e.

Lemma check_endpoint_spec cs t e :
  index_of connector_id cs t →
  (valid_endpoint cs e ∧ check_endpoint t e = Ok tt) ∨
  (~ valid_endpoint cs e ∧ ∃ err, check_endpoint t e = Err err).
Proof.
  intros Ht. unfold check_endpoint, valid_endpoint.
  destruct (t !! data_connector_id e) as [c|] eqn:Hc.
  - pose proof Hc as [Hin Hid]%Ht.
    assert (Huniq : ∀ c', c' ∈ cs → connector_id c' = data_connector_id e → c' = c).
    { intros c' Hin' Hid'. assert (t !! data_connector_id e = Some c') by by apply Ht. congruence. }
    case_decide as Hty.
    + right. split; [|eauto]. intros (c' & H1 & H2 & H3 & _). by rewrite (Huniq c') in H3.
    + destruct e as [e|e|e|e|e|e]; cbn [timezone_ok] in *;
        try (left; split; [exists c; done|done]).
      * case_decide as Htz; [right; split; [naive_solver|eauto]|].
        left. split; [exists c|]; done.
      * case_decide as Htz; [right; split; [naive_solver|eauto]|].
        left. split; [exists c|done]. split_and!; try done.
        destruct (decide (te_schedule e = "")); [by left|right]. apply dec_stable. tauto.
  - right. split; [|eauto]. intros (c' & H1 & H2 & _). assert (t !! data_connector_id e = Some c') by by apply Ht.
    congruence.
Qed.

(** ** Links and pools *)
Definition link_key (l : LinkConfig) : Z * Z := (l_from l, l_to l).
Lemma insert_link_spec l :
  (NoDup (link_key <$> l) ∧ ∃ t, fold_res insert_link ∅ l = Ok t ∧ index_of link_key l t) ∨
  (~ NoDup (link_key <$> l) ∧ ∃ e, fold_res insert_link ∅ l = Err e).
Proof.
  rewrite <-(all_ok_NoDup link_key [] l) by constructor.
  apply (fold_res_spec _ (index_of link_key) (λ pre a, link_key a ∉ link_key <$> pre))
    with (l := l) (pre := []); [|apply index_of_nil].
  intros pre a t Ht. unfold insert_link. fold (link_key a).
  destruct (t !! link_key a) as [b|] eqn:Hn.
  - right. rewrite decide_True by eauto. split; [|eauto].
    rewrite <-(index_of_None link_key pre t) by done. congruence.
  - left. rewrite decide_False by (by intros []). split; [by apply (index_of_None link_key pre t)|].
    eexists; split; [done|]. by apply (index_of_snoc link_key).
Qed.

Lemma reference_pool_lookup pools s n c :
  pools !! n = Some c → reference_pool pools s !! n = Some c.
Proof.
  intros Hn. unfold reference_pool, or_insert. destruct (semantics_pool s) as [p|]; [cbn|done].
  destruct (pools !! p) eqn:Hp; [done|]. by rewrite lookup_insert_ne by congruence.
Qed.
Lemma reference_pools_keep pools l n c :
  pools !! n = Some c → foldl reference_pool pools l !! n = Some c.
Proof.
  revert pools; induction l as [|s l IH]; intros pools Hn; cbn; [done|].
  apply IH. by apply reference_pool_lookup.
Qed.
Lemma reference_pools_have pools l s p :
  s ∈ l → semantics_pool s = Some p → is_Some (foldl reference_pool pools l !! p).
Proof.
  revert pools; induction l as [|s' l IH]; intros pools Hin Hp; [by apply elem_of_nil in Hin|].
  apply elem_of_cons in Hin as [<-|Hin]; [|by apply IH]. cbn.
  assert (is_Some (reference_pool pools s !! p)) as [c Hc].
  { unfold reference_pool, or_insert. rewrite Hp; cbn.
    destruct (pools !! p) eqn:E; [by rewrite E|]. by rewrite lookup_insert_eq. }
  exists c. by apply reference_pools_keep.
Qed.
(** A pool that was not declared has one executor. *)
Lemma reference_pools_new pools l n c :
  foldl reference_pool pools l !! n = Some c → pools !! n = None → c = MkPoolConfig n 1 0.
Proof.
  revert pools; induction l as [|s l IH]; intros pools Hn Hnone; cbn in *; [congruence|].
  destruct (reference_pool pools s !! n) as [c'|] eqn:Hr; [|by eapply IH].
  rewrite (reference_pools_keep _ _ _ _ Hr) in Hn. simplify_eq. unfold reference_pool, or_insert in Hr.
  destruct (semantics_pool s) as [p|]; [cbn in Hr|congruence].
  destruct (pools !! p) eqn:E; [congruence|]. apply lookup_insert_Some in Hr as [[-> <-]|[_ ?]]; [done|congruence].
Qed.

(** ** The whole snapshot *)
Section snapshot.
Context {Json : Type}.

(** What a configuration must satisfy. *)
Definition valid_parts (services : list ServiceConfig) (streams : list (RuntimeStreamConfig Json))
    pools connectors endpoints lks : Prop :=
  (NoDup (svc_id <$> services) ∧ NoDup (svc_name <$> services)) ∧
  (NoDup ((λ c, str_id (stream c)) <$> streams) ∧ NoDup ((λ c, str_name (stream c)) <$> streams)) ∧
  NoDup (pool_name <$> pools) ∧
  (NoDup (connector_id <$> connectors) ∧ NoDup (connector_name <$> connectors)) ∧
  (NoDup (endpoint_id <$> endpoints) ∧ NoDup (endpoint_name <$> endpoints) ∧
    Forall (valid_endpoint connectors) endpoints) ∧
  NoDup (link_key <$> lks).

(** What the snapshot then promises. *)
Record snapshot_of d (services : list ServiceConfig) streams (pools : list PoolConfig)
    (connectors : list RuntimeDataConnectorConfig) (endpoints : list RuntimeEndpointConfig)
    (lks : list LinkConfig) (r : RuntimeConfig Json) : Prop := {
  sn_default : rc_default_call_semantics r = d;
  sn_services : index_of svc_id services (services_by_id r) ∧
                index_of svc_name services (services_by_name r);
  sn_streams : index_of (λ c, str_id (stream c)) streams (streams_by_id r) ∧
               index_of (λ c, str_name (stream c)) streams (streams_by_name r);
  sn_connectors : index_of connector_id connectors (data_connectors_by_id r) ∧
                  index_of connector_name connectors (data_connectors_by_name r);
  sn_endpoints : index_of endpoint_id endpoints (endpoints_by_id r) ∧
                 index_of endpoint_name endpoints (endpoints_by_name r);
  sn_links : index_of link_key lks (links r);
  sn_pools_declared : ∀ p, p ∈ pools → pools_by_name r !! pool_name p = Some p;
  sn_pools_referenced : ∀ s p, semantics_pool s = Some p →
    s = d ∨ s ∈ default_call_semantics <$> services ∨ s ∈ call_semantics <$> lks →
    is_Some (pools_by_name r !! p);
  sn_pools_only : ∀ n c, pools_by_name r !! n = Some c →
    (c ∈ pools ∧ pool_name c = n) ∨ c = MkPoolConfig n 1 0 }.

Lemma insert_endpoints_spec cs t endpoints :
  index_of connector_id cs t →
  (NoDup (endpoint_id <$> endpoints) ∧ NoDup (endpoint_name <$> endpoints) ∧
    Forall (valid_endpoint cs) endpoints) ∧
    (∃ t1 t2, fold_res (insert_endpoint t) (∅, ∅) endpoints = Ok (t1, t2) ∧
      index_of endpoint_id endpoints t1 ∧ index_of endpoint_name endpoints t2) ∨
  ~ (NoDup (endpoint_id <$> endpoints) ∧ NoDup (endpoint_name <$> endpoints) ∧
    Forall (valid_endpoint cs) endpoints) ∧ ∃ e, fold_res (insert_endpoint t) (∅, ∅) endpoints = Err e.
Proof.
  intros Ht. apply insert_pair_spec. intros t1 t2 a. unfold insert_endpoint, duplicate, duplicate_name.
  split.
  - intros H1 H2. rewrite H1, H2, !decide_False by (by intros []).
    destruct (check_endpoint_spec cs t a Ht) as [[? ->]|[? [err ->]]]; [by left|right]. eauto.
  - intros Hd. case_decide; [eauto|]. case_decide; [eauto|]. naive_solver.
Qed.

Lemma from_parts_spec d services streams pools connectors endpoints lks :
  (valid_parts services streams pools connectors endpoints lks ∧
    ∃ r, from_parts d services streams pools connectors endpoints lks = Ok r ∧
      snapshot_of d services streams pools connectors endpoints lks r) ∨
  (~ valid_parts services streams pools connectors endpoints lks ∧
    ∃ e, from_parts d services streams pools connectors endpoints lks = Err e).
Proof.
  unfold valid_parts, from_parts.
  destruct (insert_both_spec "service id" "service" svc_id svc_name services)
    as [(? & sid & sname & -> & Hs1 & Hs2)|(? & e & ->)]; [cbn [mbind outcome_bind]|right; split; [tauto|by exists e]].
  destruct (insert_both_spec "stream id" "stream" (λ c, str_id (stream c)) (λ c, str_name (stream c)) streams)
    as [(? & stid & stname & -> & Ht1 & Ht2)|(? & e & ->)]; [cbn [mbind outcome_bind]|right; split; [tauto|by exists e]].
  destruct (insert_name_spec "pool" pool_name pools) as [(? & tp & -> & Hp)|(? & e & ->)];
    [cbn [mbind outcome_bind]|right; split; [tauto|by exists e]].
  destruct (insert_both_spec "data connector id" "data connector" connector_id connector_name connectors)
    as [(? & cid & cname & -> & Hc1 & Hc2)|(? & e & ->)]; [cbn [mbind outcome_bind]|right; split; [tauto|by exists e]].
  destruct (insert_endpoints_spec connectors cid endpoints Hc1)
    as [(? & eid & ename & -> & He1 & He2)|(? & e & ->)]; [cbn [mbind outcome_bind]|right; split; [tauto|by exists e]].
  destruct (insert_link_spec lks) as [(? & tl & -> & Hl)|(? & e & ->)];
    [cbn [mbind outcome_bind]|right; split; [tauto|by exists e]].
  left. split; [tauto|]. eexists; split; [done|].
  split; cbn -[foldl]; try done.
  - intros p Hin. apply reference_pools_keep. by apply Hp.
  - intros s p Hs Href. eapply reference_pools_have; [|exact Hs].
    rewrite elem_of_cons, elem_of_app. destruct Href as [->|[Hin|Hin]]; [by left|right; left|right; right];
      apply list_elem_of_fmap in Hin as (a & -> & Hin); apply list_elem_of_fmap; exists a; (split; [done|]);
      apply list_elem_of_fmap.
    + exists (svc_id a, a). split; [done|]. apply elem_of_map_to_list. by apply Hs1.
    + exists (link_key a, a). split; [done|]. apply elem_of_map_to_list. by apply Hl.
  - intros n c Hn. destruct (tp !! n) as [c'|] eqn:Ht.
    + rewrite (reference_pools_keep _ _ _ _ Ht) in Hn. simplify_eq. left. by apply Hp.
    + right. by eapply reference_pools_new.
Qed.
End snapshot.

(** * Properties *)

(** a configuration is accepted exactly when its identifiers and names
    are unique per section, every endpoint refers to a connector of its own
    type, scheduled endpoints are in UTC and no link is declared twice; a
    rejected one is an error value, never a panic. *)
Theorem from_parts_accepts {Json} d services (streams : list (RuntimeStreamConfig Json)) pools
    connectors endpoints lks :
  ((∃ r, from_parts d services streams pools connectors endpoints lks = Ok r) ↔
    valid_parts services streams pools connectors endpoints lks) ∧
  from_parts d services streams pools connectors endpoints lks ≠ Panic.
Proof.
  destruct (from_parts_spec d services streams pools connectors endpoints lks)
    as [(Hv & r & -> & _)|(Hv & e & ->)]; (split; [split; [intros [? ?]|intros ?]|done]);
    try done; eauto.
Qed.

(** an accepted snapshot answers every lookup from the configuration:
    each table, by identifier and by name, holds exactly the configured
    elements; declared pools are kept as they are, and every pool named by the
    default, a service's or a link's call semantics exists, undeclared ones
    with a single executor. *)
Theorem from_parts_snapshot {Json} d services (streams : list (RuntimeStreamConfig Json)) pools
    connectors endpoints lks r :
  from_parts d services streams pools connectors endpoints lks = Ok r →
  snapshot_of d services streams pools connectors endpoints lks r.
Proof.
  intros Hr. destruct (from_parts_spec d services streams pools connectors endpoints lks)
    as [(Hv & r' & Hr' & Hs)|(Hv & e & He)]; rewrite ?Hr' in Hr; rewrite ?He in Hr; [|done].
  by simplify_eq.
Qed.

Lemma from_parts_snapshot_witness :
  ∃ r, from_parts (Json := unit) (TaskPool "main") [ServiceConfig_default] [Plain (StreamConfig_new 1 "in")]
    [] [] [] [MkLink 1 2 (PriorityTaskPool "fast" 3) false] = Ok r ∧
  (∀ s p, semantics_pool s = Some p →
      s = TaskPool "main" ∨ s ∈ default_call_semantics <$> [ServiceConfig_default] ∨
      s ∈ call_semantics <$> [MkLink 1 2 (PriorityTaskPool "fast" 3) false] →
      is_Some (pools_by_name r !! p)).
Proof.
  eexists. split; [reflexivity|].
  apply (sn_pools_referenced _ _ _ _ _ _ _ _ (from_parts_snapshot (Json := unit) (TaskPool "main")
    [ServiceConfig_default] [Plain (StreamConfig_new 1 "in")] [] [] []
    [MkLink 1 2 (PriorityTaskPool "fast" 3) false] _ eq_refl)).
Defined.
