(* ===== verification/ConfigLoader.v ===== *)
(** The configuration loader, [src/src/runtime/config/loader.rs]: layered YAML
    documents, the snapshot built from them, and its transactional reload.

    The application configuration [C] is the type parameter of the source's
    [ConfigLoader<C>]; its trait operations and serde_yaml's conversions are
    the fields of [ConfigOps].  The file system and the process environment
    change between two reloads: every operation that reads them takes the
    [World] it runs in.  A loader is shared: reloads, called by the watching
    task and by anyone who holds it, run concurrently, in steps of one shared
    access each ([System]). *)

From S2P Require Import Prelude Errors Config.
From Stdlib Require Import Ascii.

(** * YAML documents

    A mapping keeps its entries in insertion order under unique keys; every
    other value (scalar, sequence, tagged value) is a [Leaf] for the merge. *)
Section yaml.
Context {K Atom : Type} `{EqDecision K}.

Inductive Yaml :=
| Leaf (a : Atom)
| Mapping (entries : list (K * Yaml)).

(** [Mapping::get]; [Mapping::get_mut] with the update applied through it. *)
Fixpoint get (k : K) (m : list (K * Yaml)) : option Yaml :=
  match m with
  | [] => None
  | (k', v) :: m => if decide (k' = k) then Some v else get k m
  end.
Fixpoint update (k : K) (v : Yaml) (m : list (K * Yaml)) : list (K * Yaml) :=
  match m with
  | [] => []
  | (k', v') :: m => if decide (k' = k) then (k', v) :: m else (k', v') :: update k v m
  end.

Fixpoint merge_yaml (base override_value : Yaml) {struct override_value} : Yaml :=
  match base, override_value with
  | Mapping base, Mapping override_map =>
      Mapping ((fix merge_entries (base over : list (K * Yaml)) :=
        match over with
        | [] => base
        | (key, value) :: over =>
            merge_entries
              match get key base with
              | Some base_value => update key (merge_yaml base_value value) base
              | None => base ++ [(key, value)]
              end over
        end) base override_map)
  | _, _ => override_value
  end.
(** The loop over the override's entries. *)
Fixpoint merge_entries (base over : list (K * Yaml)) : list (K * Yaml) :=
  match over with
  | [] => base
  | (key, value) :: over =>
      merge_entries
        match get key base with
        | Some base_value => update key (merge_yaml base_value value) base
        | None => base ++ [(key, value)]
        end over
  end.

(** ** Specification: what is found along a path *)
Inductive lookup_result := Found (v : Yaml) | Missing | Blocked.

(** Walking [path] down a document finds a value, stops at a mapping without
    the next key, or is stopped by a leaf. *)
Fixpoint walk (path : list K) (y : Yaml) : lookup_result :=
  match path, y with
  | [], _ => Found y
  | _ :: _, Leaf _ => Blocked
  | k :: path, Mapping m => match get k m with Some v => walk path v | None => Missing end
  end.
Definition at_path (path : list K) (y : Yaml) : option Yaml :=
  match walk path y with Found v => Some v | _ => None end.

(** Keys are unique at every level. *)
Fixpoint unique_keys (y : Yaml) : Prop :=
  match y with
  | Leaf _ => True
  | Mapping m => NoDup m.*1 ∧
      (fix all (m : list (K * Yaml)) := match m with [] => True | (_, v) :: m => unique_keys v ∧ all m end) m
  end.
Fixpoint unique_entries (m : list (K * Yaml)) : Prop :=
  match m with [] => True | (_, v) :: m => unique_keys v ∧ unique_entries m end.

(** ** Lemmas *)
Lemma Yaml_rect' (P : Yaml → Prop) :
  (∀ a, P (Leaf a)) → (∀ m, Forall (λ e, P e.2) m → P (Mapping m)) → ∀ y, P y.
Proof.
  intros Hl Hm. fix IH 1. intros [a|m]; [apply Hl|apply Hm].
  induction m as [|[k v] m IHm]; [constructor|]. constructor; [apply IH|apply IHm].
Qed.

Lemma merge_mappings b o : merge_yaml (Mapping b) (Mapping o) = Mapping (merge_entries b o).
Proof. reflexivity. Qed.
Lemma unique_mapping m : unique_keys (Mapping m) ↔ NoDup m.*1 ∧ unique_entries m.
Proof.
  reflexivity.
Qed.

Lemma get_update k v m k' :
  get k' (update k v m) = if decide (k = k') then match get k m with Some _ => Some v | None => None end
                          else get k' m.
Proof.
  induction m as [|[k1 v1] m IH]; cbn; [by case_decide|].
  repeat (cbn; case_decide; simplify_eq; try done); by rewrite IH.
Qed.
Lemma get_app k m1 m2 : get k (m1 ++ m2) = match get k m1 with Some v => Some v | None => get k m2 end.
Proof. induction m1 as [|[k1 v1] m1 IH]; cbn; [done|]. by case_decide. Qed.
Lemma get_None k m : get k m = None ↔ k ∉ m.*1.
Proof.
  induction m as [|[k1 v1] m IH]; cbn; [split; [intros _; apply not_elem_of_nil|done]|].
  rewrite elem_of_cons. case_decide; naive_solver.
Qed.

(** One key after the loop. *)
Lemma merge_entries_get k base over :
  NoDup over.*1 →
  get k (merge_entries base over) =
    match get k base, get k over with
    | Some b, Some o => Some (merge_yaml b o)
    | Some b, None => Some b
    | None, o => o
    end.
Proof.
  revert base. induction over as [|[k1 v1] over IH]; intros base Hnd; cbn; [by destruct (get k base)|].
  apply NoDup_cons in Hnd as [Hk1%get_None Hnd]. cbn [fst] in Hk1. rewrite IH by done.
  destruct (get k1 base) as [b1|] eqn:Hb.
  - rewrite get_update. case_decide as Hk; simplify_eq; [|done]. by rewrite Hb, Hk1.
  - rewrite get_app; cbn. case_decide as Hk; simplify_eq; [by rewrite Hb, Hk1|].
    by destruct (get k base).
Qed.

(** ** Unique keys are preserved *)
Lemma update_keys k v m : (update k v m).*1 = m.*1.
Proof. induction m as [|[k1 v1] m IH]; cbn; [done|]. case_decide; cbn; [done|]. by rewrite IH. Qed.
Lemma unique_get k v m : unique_entries m → get k m = Some v → unique_keys v.
Proof. induction m as [|[k1 v1] m IH]; cbn; [done|]. case_decide; naive_solver. Qed.
Lemma unique_update k v m : unique_entries m → unique_keys v → unique_entries (update k v m).
Proof. induction m as [|[k1 v1] m IH]; cbn; [done|]. case_decide; cbn; naive_solver. Qed.
Lemma unique_app m1 m2 : unique_entries (m1 ++ m2) ↔ unique_entries m1 ∧ unique_entries m2.
Proof. induction m1 as [|[k1 v1] m1 IH]; cbn; tauto. Qed.

Lemma merge_unique b o : unique_keys b → unique_keys o → unique_keys (merge_yaml b o).
Proof.
  revert b. induction o as [a|o IH] using Yaml_rect'; intros [b|b]; try done.
  rewrite merge_mappings, !unique_mapping.
  intros [Hnb Hub] [_ Huo]. revert b Hnb Hub.
  induction IH as [|[k v] o Hv _ IHo]; intros b Hnb Hub; cbn; [done|].
  destruct Huo as [Huv Huo]. apply (IHo Huo).
  - destruct (get k b) as [b1|] eqn:Hg; [by rewrite update_keys|].
    rewrite fmap_app. apply NoDup_app. cbn. split_and!; [done| |apply NoDup_singleton].
    intros x Hx ->%list_elem_of_singleton. by apply get_None in Hg.
  - destruct (get k b) as [b1|] eqn:Hg.
    + apply unique_update; [done|]. apply Hv; [by eapply unique_get|done].
    + apply unique_app. cbn. done.
Qed.

(** The walk through a merged document. *)
Lemma merge_walk path b o :
  unique_keys o →
  at_path path (merge_yaml b o) =
    match walk path o with
    | Found v => Some match at_path path b with Some b' => merge_yaml b' v | None => v end
    | Missing => at_path path b
    | Blocked => None
    end.
Proof.
  revert b o. induction path as [|k path IH]; intros b o Ho; [done|].
  destruct o as [a|o]; [by destruct b|]. destruct b as [b|b].
  - cbn. unfold at_path; cbn. destruct (get k o) as [v|]; [|done]. by destruct (walk path v).
  - rewrite merge_mappings. apply unique_mapping in Ho as [Hnd Hu].
    unfold at_path in *; cbn. rewrite merge_entries_get by done.
    destruct (get k b) as [b1|] eqn:Hb, (get k o) as [o1|] eqn:Hg; cbn; try done.
    apply IH. by eapply unique_get.
Qed.
End yaml.
Arguments Yaml : clear implicits.
Arguments lookup_result : clear implicits.

(** * Paths

    [Path::components]: repeated separators and inner [.] components are
    dropped, a leading [/] or [.] is kept.  Two paths are equal when their
    components are. *)
Inductive Component := RootDir | CurDir | ParentDir | Normal (name : string).
#[export] Instance component_eq_dec : EqDecision Component.
Proof. solve_decision. Defined.

Fixpoint split_path (s : string) : list string :=
  match s with
  | EmptyString => [""]
  | String c s =>
      let parts := split_path s in
      if decide (c = "/"%char) then "" :: parts
      else match parts with p :: ps => String c p :: ps | [] => [String c ""] end
  end.
Definition component (s : string) : option Component :=
  if decide (s = "" ∨ s = ".") then None
  else Some (if decide (s = "..") then ParentDir else Normal s).
Definition clean_path (path : string) : list Component :=
  match split_path path with
  | [] => []
  | first :: rest =>
      match first with
      | "" => match rest with [] => [] | _ => [RootDir] end
      | "." => [CurDir]
      | _ => option_list (component first)
      end ++ omap component rest
  end.

(** * The loader *)
Inductive EventKind := AnyEvent | Access | Create | Modify | Remove | OtherEvent.
Record Event := MkEvent { kind : EventKind; paths : list string }.

Section loader.
(** The application's configuration type, its YAML keys and scalars. *)
Context {C K Atom Json : Type} `{EqDecision K}.
Notation Yaml := (Yaml K Atom).
Notation RuntimeConfig := (RuntimeConfig Json).

(** [trait Config] and its serde implementations. *)
Record ConfigOps := MkOps {
  to_value : C → outcome string Yaml;
  from_value : Yaml → outcome string C;
  validate : C → outcome string ();
  config_parts : C → ConfigParts Json }.
Context (ops : ConfigOps).

(** What the loader reads from outside: files, symbolic links, environment
    variables, and whether a directory can be watched. *)
Record World := MkWorld {
  read_file : string → outcome string Yaml;
  canonicalize : string → option string;
  apply_environment : C → outcome string C;
  watch : list Component → outcome string () }.

Definition ReloadHandler : Type := C → RuntimeConfig → outcome string ().

Record ConfigLoader := MkLoader {
  base_path : option string;
  override_path : option string;
  defaults : C;
  current : C;
  runtime_config : RuntimeConfig;
  reload_handler : option ReloadHandler;
  watched_target : option string;
  watching : bool;
  reload_success : option N;
  reload_error : option N }.

Definition config_error {A} (m : outcome string A) : RuntimeResult A := map_err InvalidConfiguration m.

Definition read_yaml (w : World) (path : string) : RuntimeResult Yaml := config_error (read_file w path).

Definition merge_layer (w : World) (path : option string) (value : Yaml) : RuntimeResult Yaml :=
  match path with
  | Some path => layer ← read_yaml w path; Ok (merge_yaml value layer)
  | None => Ok value
  end.

Definition load_snapshot (w : World) (base_path override_path : option string) (defaults : C) : RuntimeResult C :=
  value ← config_error (to_value ops defaults);
  value ← merge_layer w base_path value;
  value ← merge_layer w override_path value;
  config ← config_error (from_value ops value);
  config ← config_error (apply_environment w config);
  _ ← config_error (validate ops config);
  Ok config.

(** [load]; the counters are what the metrics registry returned for them. *)
Definition load (w : World) (base_path override_path : option string) (defaults : C)
    (success error : option N) : RuntimeResult ConfigLoader :=
  initial ← load_snapshot w base_path override_path defaults;
  rc ← RuntimeConfig_new (config_parts ops initial);
  Ok (MkLoader base_path override_path defaults initial rc None None false success error).

Definition set_reload_handler (h : ReloadHandler) (l : ConfigLoader) : ConfigLoader :=
  MkLoader (base_path l) (override_path l) (defaults l) (current l) (runtime_config l) (Some h)
    (watched_target l) (watching l) (reload_success l) (reload_error l).
Definition set_watch (target : option string) (on : bool) (l : ConfigLoader) : ConfigLoader :=
  MkLoader (base_path l) (override_path l) (defaults l) (current l) (runtime_config l) (reload_handler l)
    target on (reload_success l) (reload_error l).
Definition count_reload (success error : option N) (l : ConfigLoader) : ConfigLoader :=
  MkLoader (base_path l) (override_path l) (defaults l) (current l) (runtime_config l) (reload_handler l)
    (watched_target l) (watching l) success error.

(** [reload_candidate] up to its two stores: everything that can fail. *)
Definition build_candidate (w : World) (l : ConfigLoader) : RuntimeResult (C * RuntimeConfig) :=
  candidate ← load_snapshot w (base_path l) (override_path l) (defaults l);
  rc ← RuntimeConfig_new (config_parts ops candidate);
  Ok (candidate, rc).
Definition call_handler (handler : option ReloadHandler) (candidate : C) (rc : RuntimeConfig) : RuntimeResult () :=
  match handler with
  | Some handler => config_error (handler candidate rc)
  | None => Ok tt
  end.
Definition prepare_candidate (w : World) (l : ConfigLoader) : RuntimeResult (C * RuntimeConfig) :=
  '(candidate, rc) ← build_candidate w l;
  _ ← call_handler (reload_handler l) candidate rc;
  Ok (candidate, rc).
(** The two stores, each an atomic pointer swap. *)
Definition store_current (candidate : C) (l : ConfigLoader) : ConfigLoader :=
  MkLoader (base_path l) (override_path l) (defaults l) candidate (runtime_config l) (reload_handler l)
    (watched_target l) (watching l) (reload_success l) (reload_error l).
Definition store_runtime_config (rc : RuntimeConfig) (l : ConfigLoader) : ConfigLoader :=
  MkLoader (base_path l) (override_path l) (defaults l) (current l) rc (reload_handler l)
    (watched_target l) (watching l) (reload_success l) (reload_error l).

(** A reload that runs alone. *)
Definition reload_candidate (w : World) (l : ConfigLoader) : ConfigLoader * RuntimeResult C :=
  match prepare_candidate w l with
  | Ok (candidate, rc) => (store_runtime_config rc (store_current candidate l), Ok candidate)
  | Err e => (l, Err e)
  | Panic => (l, Panic)
  end.

Definition reload (w : World) (l : ConfigLoader) : ConfigLoader * RuntimeResult C :=
  match reload_candidate w l with
  | (l, Ok candidate) => (count_reload (N.succ <$> reload_success l) (reload_error l) l, Ok candidate)
  | (l, Err e) => (count_reload (reload_success l) (N.succ <$> reload_error l) l, Err e)
  | (l, Panic) => (l, Panic)
  end.

Definition is_relevant_event (w : World) (event : Event) (l : ConfigLoader) : ConfigLoader * bool :=
  match kind event with
  | Create | Modify | Remove =>
      match override_path l with
      | None => (l, false)
      | Some path =>
          let configured := clean_path path in
          let current_target := canonicalize w path in
          let target_changed := bool_decide (current_target ≠ watched_target l) in
          let l := if target_changed then set_watch current_target (watching l) l else l in
          (l, target_changed || existsb (λ p, bool_decide (clean_path p = configured) ||
                match current_target with
                | Some target => bool_decide (clean_path p = clean_path target)
                | None => false
                end) (paths event))
      end
  | _ => (l, false)
  end.

(** [Path::parent] up to the empty path, which becomes ["."]. *)
Definition parent (path : string) : list Component :=
  match clean_path path with
  | [] => [CurDir]
  | [_] => [CurDir]
  | l => removelast l
  end.

Definition start (w : World) (l : ConfigLoader) : ConfigLoader * RuntimeResult () :=
  match override_path l with
  | None => (l, Ok tt)
  | Some path =>
      match config_error (watch w (parent path)) with
      | Ok _ => (set_watch (canonicalize w path) true l, Ok tt)
      | Err e => (l, Err e)
      | Panic => (l, Panic)
      end
  end.
Definition stop (l : ConfigLoader) : ConfigLoader := set_watch (watched_target l) false l.

(** ** Concurrent uses of a loader

    A reload goes through these points; [reload_turn] is one access of the
    loader.  [stored] logs the stores, by the reload that made them. *)
Inductive ReloadPc :=
| RLoad
| RHandle (candidate : C) (rc : RuntimeConfig)
| RStoreCurrent (candidate : C) (rc : RuntimeConfig) (handler : option ReloadHandler)
| RStoreRuntime (candidate : C) (rc : RuntimeConfig) (handler : option ReloadHandler)
| RCount (result : RuntimeResult C)
| RDone (result : RuntimeResult C).
Record System := MkSystem {
  loader : ConfigLoader;
  reloads : gmap nat ReloadPc;
  next_reload : nat;
  stored : list (nat * (C + RuntimeConfig)) }.
Implicit Types s : System.
Definition set_loader s (l : ConfigLoader) : System := MkSystem l (reloads s) (next_reload s) (stored s).
Definition set_reload s (i : nat) (pc : ReloadPc) : System :=
  MkSystem (loader s) (<[i := pc]> (reloads s)) (next_reload s) (stored s).
Definition log_store s (i : nat) (x : C + RuntimeConfig) : System :=
  MkSystem (loader s) (reloads s) (next_reload s) (stored s ++ [(i, x)]).
Definition call_reload s : System :=
  MkSystem (loader s) (<[next_reload s := RLoad]> (reloads s)) (S (next_reload s)) (stored s).
Definition reload_turn (w : World) s (i : nat) (pc : ReloadPc) : option System :=
  let l := loader s in
  match pc with
  | RLoad => Some (set_reload s i match build_candidate w l with
                                  | Ok (c, rc) => RHandle c rc | Err e => RCount (Err e) | Panic => RDone Panic end)
  | RHandle c rc => Some (set_reload s i match call_handler (reload_handler l) c rc with
                                         | Ok _ => RStoreCurrent c rc (reload_handler l)
                                         | Err e => RCount (Err e) | Panic => RDone Panic end)
  | RStoreCurrent c rc h => Some (set_reload (log_store (set_loader s (store_current c l)) i (inl c)) i (RStoreRuntime c rc h))
  | RStoreRuntime c rc h => Some (set_reload (log_store (set_loader s (store_runtime_config rc l)) i (inr rc)) i (RCount (Ok c)))
  | RCount r => Some (set_reload (set_loader s match r with
                 | Ok _ => count_reload (N.succ <$> reload_success l) (reload_error l) l
                 | _ => count_reload (reload_success l) (N.succ <$> reload_error l) l end) i (RDone r))
  | RDone _ => None
  end.
(** One turn of the watching task: a relevant event calls [reload_from_watch]. *)
Definition watch_turn (w : World) (event : outcome string Event) s : option System :=
  if watching (loader s) then
    Some (match event with
          | Ok event =>
              match is_relevant_event w event (loader s) with
              | (l, true) => call_reload (set_loader s l)
              | (l, false) => set_loader s l
              end
          | _ => s
          end)
  else None.
(** [UStop] is [stop], and the end of a watching task that a panicking handler
    unwinds. *)
Inductive Use :=
| UReload | UTurn (w : World) (i : nat) | UHandler (h : ReloadHandler) | UStart (w : World) | UStop
| UWatch (w : World) (event : outcome string Event).
Definition use s (u : Use) : option System :=
  match u with
  | UReload => Some (call_reload s)
  | UTurn w i => pc ← reloads s !! i; reload_turn w s i pc
  | UHandler h => Some (set_loader s (set_reload_handler h (loader s)))
  | UStart w => Some (set_loader s (start w (loader s)).1)
  | UStop => Some (set_loader s (stop (loader s)))
  | UWatch w event => watch_turn w event s
  end.
Definition loader_step s s' : Prop := ∃ u, use s u = Some s'.
Definition system_new (l : ConfigLoader) : System := MkSystem l ∅ 0 [].
Definition loaded (l : ConfigLoader) : Prop :=
  ∃ w base over d success error, load w base over d success error = Ok l.
(** A reload under way; uses that call one only when there is none. *)
Definition under_way (pc : ReloadPc) : Prop := match pc with RDone _ => False | _ => True end.
Definition serial_step s s' : Prop :=
  ∃ u, use s u = Some s' ∧
    match u with UReload | UWatch _ _ => map_Forall (λ _ pc, ¬ under_way pc) (reloads s) | _ => True end.

(** ** Lemmas *)
(** A configuration that was validated, with the snapshot built from it. *)
Definition valid_pair (c : C) (rc : RuntimeConfig) : Prop :=
  RuntimeConfig_new (config_parts ops c) = Ok rc ∧ validate ops c = Ok tt.
(** What is published was built and validated as a whole. *)
Definition published (l : ConfigLoader) : Prop := valid_pair (current l) (runtime_config l).

Lemma map_err_Ok {E F A} (f : E → F) (m : outcome E A) a : map_err f m = Ok a ↔ m = Ok a.
Proof. destruct m; cbn; naive_solver. Qed.

Lemma load_snapshot_valid w base over d c : load_snapshot w base over d = Ok c → validate ops c = Ok tt.
Proof.
  unfold load_snapshot, config_error. intros H. outcome_inv. simplify_eq.
  match goal with H : map_err _ (validate _ _) = Ok ?u |- _ => apply map_err_Ok in H; by destruct u end.
Qed.
Lemma build_candidate_valid w l c rc : build_candidate w l = Ok (c, rc) → valid_pair c rc.
Proof. unfold build_candidate. intros H. outcome_inv. simplify_eq. split; [done|]. by eapply load_snapshot_valid. Qed.
Lemma loaded_published l : loaded l → published l.
Proof.
  intros (w & base & over & d & success & error & Hl). unfold load in Hl. outcome_inv. simplify_eq.
  split; [done|]. by eapply load_snapshot_valid.
Qed.

Lemma reload_cases w l :
  (∃ c rc, prepare_candidate w l = Ok (c, rc) ∧
    reload w l = (count_reload (N.succ <$> reload_success l) (reload_error l)
                    (store_runtime_config rc (store_current c l)), Ok c)) ∨
  (∃ e, prepare_candidate w l = Err e ∧
    reload w l = (count_reload (reload_success l) (N.succ <$> reload_error l) l, Err e)) ∨
  (prepare_candidate w l = Panic ∧ reload w l = (l, Panic)).
Proof. unfold reload, reload_candidate. destruct (prepare_candidate w l) as [[c rc]|e|] eqn:H; eauto 10. Qed.

(** The stores a reload has made at each of its points. *)
Definition stored_by (i : nat) (log : list (nat * (C + RuntimeConfig))) : list (C + RuntimeConfig) :=
  (filter (λ x, x.1 = i) log).*2.
Definition approved (c : C) (rc : RuntimeConfig) (h : option ReloadHandler) : Prop :=
  valid_pair c rc ∧ call_handler h c rc = Ok tt.
Definition pc_ok (pc : ReloadPc) (made : list (C + RuntimeConfig)) : Prop :=
  match pc with
  | RLoad => made = []
  | RHandle c rc => made = [] ∧ valid_pair c rc
  | RStoreCurrent c rc h => made = [] ∧ approved c rc h
  | RStoreRuntime c rc h => made = [inl c] ∧ approved c rc h
  | RCount (Ok c) | RDone (Ok c) => ∃ rc, made = [inl c; inr rc] ∧ valid_pair c rc
  | RCount _ | RDone _ => made = []
  end.
Definition stores_current (x : nat * (C + RuntimeConfig)) : option C := match x.2 with inl c => Some c | _ => None end.
Definition stores_runtime (x : nat * (C + RuntimeConfig)) : option RuntimeConfig := match x.2 with inr rc => Some rc | _ => None end.
Record system_inv (l0 : ConfigLoader) s : Prop := {
  sy_fresh : ∀ i, (next_reload s ≤ i)%nat → reloads s !! i = None ∧ stored_by i (stored s) = [];
  sy_pc : ∀ i pc, reloads s !! i = Some pc → pc_ok pc (stored_by i (stored s));
  sy_current : current (loader s) = default (current l0) (last (omap stores_current (stored s)));
  sy_runtime : runtime_config (loader s) = default (runtime_config l0) (last (omap stores_runtime (stored s)));
  sy_valid : Forall (λ x, match x.2 with inl c => ∃ rc, valid_pair c rc | inr rc => ∃ c, valid_pair c rc end) (stored s) }.

Lemma stored_by_snoc i j x log : stored_by i (log ++ [(j, x)]) = stored_by i log ++ (if decide (j = i) then [x] else []).
Proof.
  unfold stored_by. rewrite filter_app, fmap_app. f_equal. rewrite filter_cons. cbn. by case_decide.
Qed.
Lemma relevant_keeps w e l : current (is_relevant_event w e l).1 = current l ∧ runtime_config (is_relevant_event w e l).1 = runtime_config l.
Proof.
  unfold is_relevant_event. destruct (kind e); try done; destruct (override_path l); cbn; try done; by case_bool_decide.
Qed.
Lemma start_keeps w l : current (start w l).1 = current l ∧ runtime_config (start w l).1 = runtime_config l.
Proof. unfold start. destruct (override_path l); [|done]. by destruct (config_error _). Qed.
Lemma set_loader_inv l0 s l :
  current l = current (loader s) → runtime_config l = runtime_config (loader s) → system_inv l0 s → system_inv l0 (set_loader s l).
Proof. intros Hc Hr [H1 H2 H3 H4 H5]. split; cbn; rewrite ?Hc, ?Hr; done. Qed.
Lemma call_reload_inv l0 s : system_inv l0 s → system_inv l0 (call_reload s).
Proof.
  intros [H1 H2 H3 H4 H5]. split; cbn; try done.
  - intros i Hi. rewrite lookup_insert_ne by lia. apply H1. lia.
  - intros i pc. rewrite lookup_insert_Some. intros [[<- <-]|[_ Hi]]; [|by apply H2]. cbn. by apply H1.
Qed.
Lemma set_reload_inv l0 s i pc pc' :
  reloads s !! i = Some pc → pc_ok pc' (stored_by i (stored s)) → system_inv l0 s → system_inv l0 (set_reload s i pc').
Proof.
  intros Hi Hp [H1 H2 H3 H4 H5]. split; cbn; try done.
  - intros j Hj. destruct (H1 j Hj) as [Hn Hs]. rewrite lookup_insert_ne; [done|]. intros <-. congruence.
  - intros j pc0. rewrite lookup_insert_Some. intros [[<- <-]|[_ Hj]]; [done|by apply H2].
Qed.
(** One of the two stores, by reload [i]. *)
Lemma store_inv l0 s i pc pc' l x :
  reloads s !! i = Some pc → pc_ok pc' (stored_by i (stored s) ++ [x]) →
  match x with
  | inl c => current l = c ∧ runtime_config l = runtime_config (loader s) ∧ ∃ rc, valid_pair c rc
  | inr rc => current l = current (loader s) ∧ runtime_config l = rc ∧ ∃ c, valid_pair c rc
  end → system_inv l0 s →
  system_inv l0 (set_reload (log_store (set_loader s l) i x) i pc').
Proof.
  intros Hi Hp Hx [H1 H2 H3 H4 H5]. split; cbn [reloads next_reload stored loader set_reload log_store set_loader].
  - intros j Hj. destruct (H1 j Hj) as [Hn Hs]. assert (i ≠ j) by (intros <-; congruence).
    rewrite lookup_insert_ne, stored_by_snoc, Hs by done. by rewrite decide_False.
  - intros j pc0. rewrite lookup_insert_Some, stored_by_snoc. intros [[<- <-]|[Hne Hj]]; [by rewrite decide_True|].
    rewrite decide_False, app_nil_r by done. by apply H2.
  - rewrite omap_app. destruct x as [c|rc]; destruct Hx as (Hc & Hr & _); cbn; [by rewrite last_snoc|by rewrite app_nil_r, Hc].
  - rewrite omap_app. destruct x as [c|rc]; destruct Hx as (Hc & Hr & _); cbn; [by rewrite app_nil_r, Hr|by rewrite last_snoc].
  - apply Forall_app. split; [done|]. constructor; [|constructor]. cbn. by destruct x as [c|rc]; destruct Hx as (_ & _ & ?).
Qed.
Lemma reload_turn_inv l0 w s i pc s' :
  reloads s !! i = Some pc → reload_turn w s i pc = Some s' → system_inv l0 s → system_inv l0 s'.
Proof.
  intros Hi H Hs. pose proof (sy_pc _ _ Hs _ _ Hi) as Hp. destruct pc as [|c rc|c rc h|c rc h|r|r]; cbn in H, Hp; simplify_eq.
  - eapply set_reload_inv; [exact Hi| |done]. destruct (build_candidate w (loader s)) as [[c rc]|e|] eqn:Hb; cbn; try done.
    split; [done|]. by eapply build_candidate_valid.
  - eapply set_reload_inv; [exact Hi| |done]. destruct Hp as [Hm Hv].
    destruct (call_handler _ c rc) as [[]|e|] eqn:Hh; by cbn.
  - destruct Hp as [Hm Ha]. eapply store_inv; [exact Hi| | |done]; [by rewrite Hm|]. split_and!; [done..|]. destruct Ha. eauto.
  - destruct Hp as [Hm Ha]. eapply store_inv; [exact Hi| | |done]; [rewrite Hm; destruct Ha; cbn; eauto|].
    split_and!; [done..|]. destruct Ha. eauto.
  - eapply (set_reload_inv _ (set_loader s _)); [exact Hi|exact Hp|]. by apply set_loader_inv; [destruct r..|].
Qed.
Lemma use_inv l0 s u s' : use s u = Some s' → system_inv l0 s → system_inv l0 s'.
Proof.
  intros H Hs. destruct u as [|w i|h|w| |w e]; cbn in H.
  - simplify_eq. by apply call_reload_inv.
  - destruct (reloads s !! i) as [pc|] eqn:Hi; [|done]. by eapply reload_turn_inv.
  - simplify_eq. by apply set_loader_inv.
  - simplify_eq. by apply set_loader_inv; [apply start_keeps..|].
  - simplify_eq. by apply set_loader_inv.
  - unfold watch_turn in H. destruct (watching (loader s)); [|done]. injection H as <-.
    destruct e as [e|e|]; [|done..]. destruct (relevant_keeps w e (loader s)) as [Hc Hr].
    destruct (is_relevant_event w e (loader s)) as [l []]; [apply call_reload_inv|]; by apply set_loader_inv.
Qed.
Lemma system_new_inv l : system_inv l (system_new l).
Proof. split; cbn; try done. Qed.
Lemma system_inv_reachable l0 s : rtc loader_step (system_new l0) s → system_inv l0 s.
Proof.
  apply (rtc_ind_r (system_inv l0)); [apply system_new_inv|]. intros x y _ (u & Hu) Hx. by eapply use_inv.
Qed.
(** Anything a loader publishes was stored by a reload, or loaded at first. *)
Lemma last_elem_of {A} (l : list A) x : last l = Some x → x ∈ l.
Proof. intros [l' ->]%last_Some. apply elem_of_app. right. by left. Qed.
Lemma reachable_valid l0 s : loaded l0 → rtc loader_step (system_new l0) s →
  (∃ rc, valid_pair (current (loader s)) rc) ∧ (∃ c, valid_pair c (runtime_config (loader s))).
Proof.
  intros Hl0%loaded_published [_ _ Hc Hr Hv]%system_inv_reachable. rewrite Hc, Hr. rewrite Forall_forall in Hv. split.
  - destruct (last (omap stores_current _)) as [c|] eqn:Hlast; [|cbn; eauto]. clear Hc Hr.
    apply last_elem_of, list_elem_of_omap in Hlast as ([i [c'|rc']] & Hin & Hx); [injection Hx as <-|done]. exact (Hv _ Hin).
  - destruct (last (omap stores_runtime _)) as [rc|] eqn:Hlast; [|cbn; eauto]. clear Hc Hr.
    apply last_elem_of, list_elem_of_omap in Hlast as ([i [c'|rc']] & Hin & Hx); [done|injection Hx as <-]. exact (Hv _ Hin).
Qed.

(** *** Reloads one at a time *)
Record serial_inv s : Prop := {
  se_fresh : ∀ i, (next_reload s ≤ i)%nat → reloads s !! i = None;
  se_one : ∀ i j pc pc', reloads s !! i = Some pc → reloads s !! j = Some pc' → under_way pc → under_way pc' → i = j;
  se_pc : ∀ i pc, reloads s !! i = Some pc →
    match pc with
    | RHandle c rc | RStoreCurrent c rc _ => valid_pair c rc
    | RStoreRuntime c rc _ => valid_pair c rc ∧ current (loader s) = c
    | _ => True
    end;
  se_published : (∀ i c rc h, reloads s !! i ≠ Some (RStoreRuntime c rc h)) → published (loader s) }.
Lemma serial_loader s l :
  current l = current (loader s) → runtime_config l = runtime_config (loader s) → serial_inv s → serial_inv (set_loader s l).
Proof. intros Hc Hr [H1 H2 H3 H4]. split; cbn; unfold published; rewrite ?Hc, ?Hr; done. Qed.
Lemma serial_call s : map_Forall (λ _ pc, ¬ under_way pc) (reloads s) → serial_inv s → serial_inv (call_reload s).
Proof.
  intros Hno [H1 H2 H3 H4]. split; cbn.
  - intros i Hi. rewrite lookup_insert_ne by lia. apply H1. lia.
  - intros i j pc pc'. rewrite !lookup_insert_Some. intros [[<- <-]|[_ Hi]] [[<- <-]|[_ Hj]] Hu Hu'; try done.
    + by destruct (Hno _ _ Hj).
    + by destruct (Hno _ _ Hi).
    + by destruct (Hno _ _ Hi).
  - intros i pc. rewrite lookup_insert_Some. intros [[<- <-]|[_ Hi]]; [done|by apply (H3 i)].
  - intros Hs. apply H4. intros i c rc h Hi. apply (Hs i c rc h). rewrite lookup_insert_ne; [done|].
    intros <-. rewrite H1 in Hi; [done|lia].
Qed.
(** A turn of the reload under way. *)
Lemma serial_move s i pc pc' l :
  reloads s !! i = Some pc → under_way pc → serial_inv s →
  match pc' with
  | RHandle c rc | RStoreCurrent c rc _ => valid_pair c rc
  | RStoreRuntime c rc _ => valid_pair c rc ∧ current l = c
  | _ => True
  end →
  match pc' with RStoreRuntime _ _ _ => True | _ => published l end →
  ∀ log, serial_inv (MkSystem l (<[i := pc']> (reloads s)) (next_reload s) log).
Proof.
  intros Hi Hu [H1 H2 H3 H4] Hpc Hpub log.
  assert (Hmine : ∀ j x, reloads s !! j = Some x → j ≠ i → ¬ under_way x) by (intros j x Hj Hne Hx; by eapply Hne, H2).
  split; cbn.
  - intros j Hj. rewrite lookup_insert_ne; [by apply H1|]. intros <-. rewrite H1 in Hi; done.
  - intros j k x y. rewrite !lookup_insert_Some. intros [[<- <-]|[Hne Hj]] [[<- <-]|[Hne' Hk]] Hux Huy; try done.
    + by destruct (Hmine k y Hk).
    + by destruct (Hmine j x Hj).
    + by eapply H2.
  - intros j x. rewrite lookup_insert_Some. intros [[<- <-]|[Hne Hj]]; [done|].
    pose proof (Hmine j x Hj (not_eq_sym Hne)) as Hn. destruct x; done || by destruct Hn.
  - intros Hs. destruct pc'; try done. by destruct (Hs i candidate rc handler); apply lookup_insert_eq.
Qed.
Lemma serial_turn w s i pc s' :
  reloads s !! i = Some pc → reload_turn w s i pc = Some s' → serial_inv s → serial_inv s'.
Proof.
  intros Hi H Hs. pose proof Hs as [_ H2 H3 H4]. pose proof (H3 _ _ Hi) as Hp.
  assert (Hpub : under_way pc → (∀ c rc h, pc ≠ RStoreRuntime c rc h) → published (loader s)).
  { intros Hu Hne. apply H4. intros j c rc h Hj. assert (j = i) as -> by by eapply H2. simplify_eq. by eapply Hne. }
  destruct pc as [|c rc|c rc h|c rc h|r|r]; cbn in H, Hp; simplify_eq; (eapply (serial_move s); [exact Hi|done|exact Hs|..]).
  - destruct (build_candidate w (loader s)) as [[c rc]|e|] eqn:Hb; [by eapply build_candidate_valid|done..].
  - destruct (build_candidate w (loader s)) as [[c rc]|e|] eqn:Hb; by apply Hpub.
  - by destruct (call_handler _ c rc).
  - destruct (call_handler _ c rc); by apply Hpub.
  - done.
  - done.
  - done.
  - cbn. destruct Hp as [Hv Hc]. unfold published. cbn. by rewrite Hc.
  - done.
  - assert (published (loader s)) as Hl by by apply Hpub. by destruct r.
Qed.
Lemma serial_step_inv s s' : serial_step s s' → serial_inv s → serial_inv s'.
Proof.
  intros (u & H & Hidle) Hs. destruct u as [|w i|h|w| |w e]; cbn in H.
  - simplify_eq. by apply serial_call.
  - destruct (reloads s !! i) as [pc|] eqn:Hi; [|done]. by eapply serial_turn.
  - simplify_eq. by apply serial_loader.
  - simplify_eq. by apply serial_loader; [apply start_keeps..|].
  - simplify_eq. by apply serial_loader.
  - unfold watch_turn in H. destruct (watching (loader s)); [|done]. injection H as <-.
    destruct e as [e|e|]; [|done..]. destruct (relevant_keeps w e (loader s)) as [Hc Hr].
    destruct (is_relevant_event w e (loader s)) as [l []]; [apply serial_call; [done|]|]; by apply serial_loader.
Qed.
Lemma serial_reachable l0 s : loaded l0 → rtc serial_step (system_new l0) s → serial_inv s.
Proof.
  intros Hl0%loaded_published. apply (rtc_ind_r serial_inv); [|intros x y _ Hxy; by apply serial_step_inv].
  split; cbn; try done.
Qed.
End loader.
Arguments ConfigOps : clear implicits.
Arguments World : clear implicits.
Arguments ConfigLoader : clear implicits.
Arguments System : clear implicits.
Arguments Use : clear implicits.

(** * Properties *)

(** C36: merging an override into a document, at every path.  A value the
    override has wins (two mappings are merged key by key, anything else is
    replaced), a key the override does not have keeps the base's value, and a
    path below a leaf of the override is gone; keys stay unique. *)
Theorem merge_precedence {K Atom} `{EqDecision K} (base over : Yaml K Atom) :
  unique_keys base → unique_keys over →
  unique_keys (merge_yaml base over) ∧
  ∀ path, at_path path (merge_yaml base over) =
    match walk path over with
    | Found (Leaf a) => Some (Leaf a)
    | Found (Mapping o) => Some match at_path path base with
                                | Some b => merge_yaml b (Mapping o)
                                | None => Mapping o
                                end
    | Missing => at_path path base
    | Blocked => None
    end.
Proof.
  intros Hb Ho. split; [by apply merge_unique|]. intros path. rewrite merge_walk by done.
  destruct (walk path over) as [[a|o]| |]; try done. by destruct (at_path path base) as [[]|].
Qed.

Lemma merge_precedence_witness :
  at_path ["pool"; "executors"] (merge_yaml
    (Mapping [("pool", Mapping [("executors", Leaf 1%Z); ("name", Leaf 2%Z)])])
    (Mapping [("pool", Mapping [("executors", Leaf 8%Z)])])) = Some (Leaf 8%Z) ∧
  at_path ["pool"; "name"] (merge_yaml
    (Mapping [("pool", Mapping [("executors", Leaf 1%Z); ("name", Leaf 2%Z)])])
    (Mapping [("pool", Mapping [("executors", Leaf 8%Z)])])) = Some (Leaf 2%Z).
Proof.
  assert (Hb : unique_keys (Mapping [("pool", Mapping [("executors", Leaf 1%Z); ("name", Leaf 2%Z)])])).
  { cbn. split_and!; try done; apply (bool_decide_unpack _); vm_compute; exact I. }
  assert (Ho : unique_keys (Mapping [("pool", Mapping [("executors", Leaf 8%Z)])])).
  { cbn. split_and!; try done; apply (bool_decide_unpack _); vm_compute; exact I. }
  split.
  - exact (proj2 (merge_precedence _ _ Hb Ho) ["pool"; "executors"]).
  - exact (proj2 (merge_precedence _ _ Hb Ho) ["pool"; "name"]).
Defined.

(** A reload that runs alone publishes the candidate it returns, after loading,
    building the snapshot and the reload handler succeeded; a failed one
    changes nothing but the error counter. *)
Theorem reload_outcome {C K Atom Json} `{EqDecision K} (ops : ConfigOps C K Atom Json)
    (w : World C K Atom) (l : ConfigLoader C Json) :
  match reload ops w l with
  | (l', Ok c) => current l' = c ∧ load_snapshot ops w (base_path l) (override_path l) (defaults l) = Ok c ∧
      RuntimeConfig_new (config_parts ops c) = Ok (runtime_config l') ∧
      (∀ h, reload_handler l = Some h → h c (runtime_config l') = Ok tt) ∧
      reload_success l' = N.succ <$> reload_success l ∧ reload_error l' = reload_error l
  | (l', Err _) => l' = count_reload (reload_success l) (N.succ <$> reload_error l) l
  | (l', Panic) => l' = l
  end.
Proof.
  destruct (reload_cases ops w l) as [(c & rc & Hp & ->)|[(e & _ & ->)|[_ ->]]]; try done.
  unfold prepare_candidate, build_candidate in Hp. outcome_inv. simplify_eq. cbn.
  match goal with H : (_ ≫= _) = Ok _ |- _ => apply bind_Ok in H as (u & Hh' & H); simplify_eq end. split_and!; try done.
  intros h Hh. rewrite Hh in *.
  match goal with H : call_handler _ _ _ = Ok ?u |- _ => apply map_err_Ok in H; by destruct u end.
Qed.

(** The turns of a reload that runs alone are [reload]. *)
Theorem reload_turns_alone {C K Atom Json} `{EqDecision K} (ops : ConfigOps C K Atom Json)
    (w : World C K Atom) (s : System C Json) i :
  reloads s !! i = Some RLoad →
  ∃ s', rtc (λ x y, use ops x (UTurn w i) = Some y) s s' ∧
    loader s' = (reload ops w (loader s)).1 ∧ reloads s' !! i = Some (RDone (reload ops w (loader s)).2).
Proof.
  intros Hi. set (P := λ s' : System C Json,
    loader s' = (reload ops w (loader s)).1 ∧ reloads s' !! i = Some (RDone (reload ops w (loader s)).2)).
  change (∃ s', rtc (λ x y, use ops x (UTurn w i) = Some y) s s' ∧ P s').
  assert (Hthen : ∀ x y pc, reloads x !! i = Some pc → reload_turn ops w x i pc = Some y →
    (∃ s', rtc (λ x y, use ops x (UTurn w i) = Some y) y s' ∧ P s') →
    ∃ s', rtc (λ x y, use ops x (UTurn w i) = Some y) x s' ∧ P s').
  { intros x y pc Hx Hy (s' & Hs' & HP). exists s'. split; [|done]. eapply rtc_l; [|exact Hs']. cbn. by rewrite Hx. }
  assert (Hend : ∀ x, P x → ∃ s', rtc (λ x y, use ops x (UTurn w i) = Some y) x s' ∧ P s').
  { intros x Hx. exists x. split; [apply rtc_refl|done]. }
  assert (Hlk : ∀ (x : System C Json) pc, reloads (set_reload x i pc) !! i = Some pc) by (intros x pc; apply lookup_insert_eq).
  eapply Hthen; [exact Hi|reflexivity|]. unfold P, reload, reload_candidate, prepare_candidate in *.
  destruct (build_candidate ops w (loader s)) as [[c rc]|e|]; cbn [mbind outcome_bind] in *.
  - eapply Hthen; [apply Hlk|reflexivity|]. cbn [loader set_reload].
    destruct (call_handler (reload_handler (loader s)) c rc) as [[]|e|]; cbn [mbind outcome_bind] in *.
    + do 3 (eapply Hthen; [apply Hlk|reflexivity|]). apply Hend. split; [reflexivity|apply Hlk].
    + eapply Hthen; [apply Hlk|reflexivity|]. apply Hend. split; [reflexivity|apply Hlk].
    + apply Hend. split; [reflexivity|apply Hlk].
  - eapply Hthen; [apply Hlk|reflexivity|]. apply Hend. split; [reflexivity|apply Hlk].
  - apply Hend. split; [reflexivity|apply Hlk].
Qed.

(** C32: reloading is transactional, as far as two separate stores go.  However
    reloads, called from anywhere and by the watching task, interleave, a
    reader finds a configuration that was validated and a snapshot that was
    built from a validated configuration; a reload that answered an error has
    stored nothing, and one that answered a configuration has stored exactly
    that configuration and the snapshot built from it, in this order, after
    loading, building and the reload handler succeeded.  When no two reloads
    overlap, the published snapshot is the one built from the published
    configuration, at every moment except between the two stores of a
    reload. *)
Theorem reload_transactional {C K Atom Json} `{EqDecision K} (ops : ConfigOps C K Atom Json) (l0 : ConfigLoader C Json) :
  loaded ops l0 →
  (∀ s, rtc (loader_step ops) (system_new l0) s →
     (∃ rc, valid_pair ops (current (loader s)) rc) ∧ (∃ c, valid_pair ops c (runtime_config (loader s))) ∧
     (∀ i r, reloads s !! i = Some (RDone r) →
        match r with
        | Ok c => ∃ rc, stored_by i (stored s) = [inl c; inr rc] ∧ valid_pair ops c rc
        | _ => stored_by i (stored s) = []
        end) ∧
     (∀ u s', use ops s u = Some s' →
        stored s' = stored s ∧ current (loader s') = current (loader s) ∧ runtime_config (loader s') = runtime_config (loader s) ∨
        ∃ w i c rc h, u = UTurn w i ∧ approved ops c rc h ∧
          (reloads s !! i = Some (RStoreCurrent c rc h) ∨ reloads s !! i = Some (RStoreRuntime c rc h)))) ∧
  (∀ s, rtc (serial_step ops) (system_new l0) s →
     (∀ i c rc h, reloads s !! i ≠ Some (RStoreRuntime c rc h)) → published ops (loader s)).
Proof.
  intros Hl0. split; [|intros s Hs; by apply (se_published _ s), (serial_reachable _ l0)].
  intros s Hs. destruct (reachable_valid ops l0 s Hl0 Hs) as [Hc Hr]. pose proof (system_inv_reachable _ _ _ Hs) as Hi.
  split_and!; [done..| |].
  - intros i r Hd. apply (sy_pc _ _ _ Hi) in Hd. by destruct r.
  - intros u s' Hu. destruct u as [|w i|h|w| |w e]; cbn in Hu.
    + simplify_eq. by left.
    + destruct (reloads s !! i) as [pc|] eqn:Hpc; [|done]. pose proof (sy_pc _ _ _ Hi _ _ Hpc) as Hp.
      destruct pc as [|c rc|c rc h|c rc h|r|r]; cbn in Hu, Hp; simplify_eq; try (left; by try destruct r).
      * right. exists w, i, c, rc, h. split_and!; [done|apply Hp|auto].
      * right. exists w, i, c, rc, h. split_and!; [done|apply Hp|auto].
    + simplify_eq. by left.
    + simplify_eq. left. destruct (start_keeps w (loader s)). done.
    + simplify_eq. by left.
    + left. unfold watch_turn in Hu. destruct (watching (loader s)); [|done]. injection Hu as <-.
      destruct e as [e|e|]; [|done..]. destruct (relevant_keeps w e (loader s)) as [H1 H2].
      by destruct (is_relevant_event w e (loader s)) as [l []].
Qed.

(** A configuration that is the name of its default pool. *)
Definition example_ops : ConfigOps string string string unit :=
  MkOps (λ c, Ok (Leaf c)) (λ y, match y with Leaf c => Ok c | Mapping _ => Err "string expected" end)
    (λ c, if decide (c = "") then Err "empty" else Ok tt)
    (λ c, MkParts (TaskPool c) [] [] [] [] [] [] [] []).
Definition example_world (content : string) : World string string string :=
  MkWorld (λ _, Ok (Leaf content)) Some Ok (λ _, Ok tt).
Definition example_config (pool : string) : RuntimeConfig unit :=
  MkRuntimeConfig (TaskPool pool) ∅ ∅ ∅ ∅ {[pool := MkPoolConfig pool 1 0]} ∅ ∅ ∅ ∅ ∅ ∅ ∅.
Definition example_loader (pool : string) : ConfigLoader string unit :=
  MkLoader None (Some "app.yaml") "default" pool (example_config pool) None None false (Some 0%N) (Some 0%N).

Lemma example_loaded : loaded example_ops (example_loader "a").
Proof. exists (example_world "a"), None, (Some "app.yaml"), "default", (Some 0%N), (Some 0%N). vm_compute. reflexivity. Qed.

(** ** Schedules *)
Fixpoint run_uses (s : System string unit) (us : list (Use string string string unit)) : option (System string unit) :=
  match us with [] => Some s | u :: us => s' ← use example_ops s u; run_uses s' us end.
Lemma run_uses_steps us s s' : run_uses s us = Some s' → rtc (loader_step example_ops) s s'.
Proof.
  revert s. induction us as [|u us IH]; intros s H; cbn in H; [simplify_eq; apply rtc_refl|].
  destruct (use example_ops s u) as [s1|] eqn:Hu; [|done]. eapply rtc_l; [by exists u|by apply IH].
Qed.
(** An empty file is read: the reload fails. *)
Definition failed_reload : list (Use string string string unit) := [UReload; UTurn (example_world "") 0; UTurn (example_world "") 0].
Definition after_failed_reload : System string unit :=
  default (system_new (example_loader "a")) (run_uses (system_new (example_loader "a")) failed_reload).
Lemma reload_transactional_witness :
  reloads after_failed_reload !! 0%nat = Some (RDone (Err (InvalidConfiguration "empty"))) ∧
  stored_by 0 (stored after_failed_reload) = [] ∧ reload_error (loader after_failed_reload) = Some 1%N.
Proof.
  split; [vm_compute; reflexivity|]. split; [|vm_compute; reflexivity].
  refine (proj1 (proj2 (proj2 (proj1 (reload_transactional example_ops (example_loader "a") example_loaded)
    after_failed_reload _))) 0%nat (Err (InvalidConfiguration "empty")) _).
  - apply (run_uses_steps failed_reload). vm_compute. reflexivity.
  - vm_compute. reflexivity.
Defined.

(** Two reloads that run at the same time publish through two separate stores:
    when their stores interleave, both succeed and the published snapshot
    belongs to the other reload's configuration, for good. *)
Definition mixed_reloads : list (Use string string string unit) :=
  let b := UTurn (example_world "b") 0 in let c := UTurn (example_world "c") 1 in
  [UReload; UReload; b; b; c; c; b; c; c; b; b; c].
Theorem concurrent_reloads_mix_snapshots :
  ∃ s : System string unit, rtc (loader_step example_ops) (system_new (example_loader "a")) s ∧
    reloads s !! 0%nat = Some (RDone (Ok "b")) ∧ reloads s !! 1%nat = Some (RDone (Ok "c")) ∧
    current (loader s) = "c" ∧ runtime_config (loader s) = example_config "b" ∧
    RuntimeConfig_new (config_parts example_ops (current (loader s))) ≠ Ok (runtime_config (loader s)).
Proof.
  exists (default (system_new (example_loader "a")) (run_uses (system_new (example_loader "a")) mixed_reloads)).
  split_and!; [apply (run_uses_steps mixed_reloads); vm_compute; reflexivity|vm_compute; reflexivity..|vm_compute; discriminate].
Qed.
