(* ===== verification/Environment.v ===== *)
(** The runtime environment, [src/src/runtime/environment/mod.rs]: the registry
    that the parts of a service share.

    The handles it stores ([Arc<TaskPool>], endpoint consumers, storages) are
    type parameters with the operations the registry calls on them.  The
    telemetry engines are left out: no operation modelled here reads them. *)

From S2P Require Import Prelude Errors Config.
From stdpp Require Import pretty.
Local Open Scope Z_scope.

(** A call counter is a shared cell; a link holds its address. *)
Record GraphLink := MkGraphLink {
  gl_from : Z;
  gl_to : Z;
  gl_call_semantics : CallSemantics;
  gl_type_name : string;
  gl_calls : Z }.

Definition id_le (a b : Z * string) : Prop := a.1 ≤ b.1.
#[export] Instance id_le_dec : RelDecision id_le.
Proof. intros a b. unfold id_le. apply _. Defined.

Section environment.
Context {Json Pool PriorityPool Endpoint Storage Buildable : Type}.

Record RuntimeEnvironment := MkEnvironment {
  service_id : option Z;
  runtime_config : RuntimeConfig Json;
  graph_links : list GraphLink;
  runtime_streams : gset Z;
  runtime_buildables : list Buildable;
  endpoint_consumers : gmap Z Endpoint;
  task_pools : gmap string Pool;
  priority_task_pools : gmap string PriorityPool;
  storages : list Storage }.
Implicit Types env : RuntimeEnvironment.

Definition environment_new (d : CallSemantics) : RuntimeEnvironment :=
  MkEnvironment None (with_default_call_semantics d) [] ∅ [] ∅ ∅ ∅ [].
(** [for_service]: the clone shares every registry with the original, so it is
    the same state seen under a service identity. *)
Definition for_service env (id : Z) : RuntimeEnvironment :=
  MkEnvironment (Some id) (runtime_config env) (graph_links env) (runtime_streams env)
    (runtime_buildables env) (endpoint_consumers env) (task_pools env) (priority_task_pools env)
    (storages env).

(** ** Configuration lookups *)
Definition service_name env : string :=
  match service_id env ≫= service_by_id (runtime_config env) with
  | Some service => svc_name service
  | None => match services (runtime_config env) with [service] => svc_name service | _ => "" end
  end.
Definition service_config env (id : Z) : option ServiceConfig := service_by_id (runtime_config env) id.
Definition stream_config env (id : Z) : option (RuntimeStreamConfig Json) :=
  stream_by_id (runtime_config env) id.

(** [i32::checked_abs] *)
Definition checked_abs (id : Z) : option Z := if decide (id = -2147483648) then None else Some (Z.abs id).
Definition stream_grouping env (id : Z) : string * string :=
  match checked_abs id ≫= stream_config env with
  | Some config => (pipeline (stream config), component (stream config))
  | None => ("", "")
  end.
Definition stream_name env (id : Z) : string :=
  match stream_config env id with
  | Some config => str_name (stream config)
  | None => pretty id
  end.
(** [sort_unstable_by_key] on the identifiers, which are unique. *)
Definition stream_list env : list (Z * string) :=
  merge_sort id_le
    ((λ config, (str_id (stream config), str_name (stream config))) <$> streams (runtime_config env)).

Definition env_call_semantics env (from to : Z) : CallSemantics :=
  match link (runtime_config env) from to with
  | Some l => call_semantics l
  | None =>
      match service_id env ≫= service_by_id (runtime_config env) with
      | Some service => default_call_semantics service
      | None => rc_default_call_semantics (runtime_config env)
      end
  end.
Definition function_call_async env (from to : Z) : bool :=
  match link (runtime_config env) from to with
  | Some l => match call_semantics l with FunctionCall => l_async l | _ => false end
  | None => false
  end.

(** ** Registration *)
Definition set_links env (ls : list GraphLink) : RuntimeEnvironment :=
  MkEnvironment (service_id env) (runtime_config env) ls (runtime_streams env) (runtime_buildables env)
    (endpoint_consumers env) (task_pools env) (priority_task_pools env) (storages env).
Definition register_runtime_stream env (id : Z) : RuntimeEnvironment :=
  MkEnvironment (service_id env) (runtime_config env) (graph_links env) ({[id]} ∪ runtime_streams env)
    (runtime_buildables env) (endpoint_consumers env) (task_pools env) (priority_task_pools env)
    (storages env).
Definition register_runtime_buildable env (b : Buildable) : RuntimeEnvironment :=
  MkEnvironment (service_id env) (runtime_config env) (graph_links env) (runtime_streams env)
    (runtime_buildables env ++ [b]) (endpoint_consumers env) (task_pools env) (priority_task_pools env)
    (storages env).
(** The live buildables ([Weak::upgrade]) are built in order; the first error
    ends the loop. *)
Definition build_runtime_streams {S} (upgrade : Buildable → option S) (build : S → RuntimeResult unit) env :
    RuntimeResult unit :=
  fold_res (λ _ b, build b) tt (omap upgrade (runtime_buildables env)).

Fixpoint put_link (l : GraphLink) (ls : list GraphLink) : list GraphLink :=
  match ls with
  | [] => [l]
  | l' :: ls =>
      if decide (gl_from l' = gl_from l ∧ gl_to l' = gl_to l) then l :: ls else l' :: put_link l ls
  end.
Definition register_graph_link env (l : GraphLink) : RuntimeEnvironment :=
  set_links env (put_link l (graph_links env)).

(** [HashMap::insert] returns the replaced value, which decides the result. *)
Definition register_endpoint_consumer (id_of : Endpoint → Z) env (c : Endpoint) :
    RuntimeResult unit * RuntimeEnvironment :=
  let id := id_of c in
  (if decide (is_Some (endpoint_consumers env !! id))
   then Err (DuplicateResource ("endpoint consumer " +:+ pretty id)) else Ok tt,
   MkEnvironment (service_id env) (runtime_config env) (graph_links env) (runtime_streams env)
     (runtime_buildables env) (<[id := c]> (endpoint_consumers env)) (task_pools env)
     (priority_task_pools env) (storages env)).
Definition register_task_pool (name_of : Pool → string) env (p : Pool) :
    RuntimeResult unit * RuntimeEnvironment :=
  let name := name_of p in
  (if decide (is_Some (task_pools env !! name)) then Err (DuplicateResource name) else Ok tt,
   MkEnvironment (service_id env) (runtime_config env) (graph_links env) (runtime_streams env)
     (runtime_buildables env) (endpoint_consumers env) (<[name := p]> (task_pools env))
     (priority_task_pools env) (storages env)).
Definition register_priority_task_pool (name_of : PriorityPool → string) env (p : PriorityPool) :
    RuntimeResult unit * RuntimeEnvironment :=
  let name := name_of p in
  (if decide (is_Some (priority_task_pools env !! name)) then Err (DuplicateResource name) else Ok tt,
   MkEnvironment (service_id env) (runtime_config env) (graph_links env) (runtime_streams env)
     (runtime_buildables env) (endpoint_consumers env) (task_pools env)
     (<[name := p]> (priority_task_pools env)) (storages env)).
Definition register_storage env (s : Storage) : RuntimeEnvironment :=
  MkEnvironment (service_id env) (runtime_config env) (graph_links env) (runtime_streams env)
    (runtime_buildables env) (endpoint_consumers env) (task_pools env) (priority_task_pools env)
    (storages env ++ [s]).

Definition endpoint_consumer env (id : Z) : option Endpoint := endpoint_consumers env !! id.
Definition endpoint_consumer_values env : list Endpoint := (map_to_list (endpoint_consumers env)).*2.
Definition clear_endpoint_consumers env : RuntimeEnvironment :=
  MkEnvironment (service_id env) (runtime_config env) (graph_links env) (runtime_streams env)
    (runtime_buildables env) ∅ (task_pools env) (priority_task_pools env) (storages env).
Definition task_pool env (name : string) : RuntimeResult Pool :=
  ok_or (task_pools env !! name) (TaskPoolNotFound name).
Definition priority_task_pool env (name : string) : RuntimeResult PriorityPool :=
  ok_or (priority_task_pools env !! name) (PriorityTaskPoolNotFound name).

(** Publishing a snapshot stores it, then tells every pool to reload. *)
Definition publish_runtime_config env (config : RuntimeConfig Json) :
    RuntimeEnvironment * list (Pool + PriorityPool) :=
  (MkEnvironment (service_id env) config (graph_links env) (runtime_streams env)
     (runtime_buildables env) (endpoint_consumers env) (task_pools env) (priority_task_pools env)
     (storages env),
   (inl <$> (map_to_list (task_pools env)).*2) ++ (inr <$> (map_to_list (priority_task_pools env)).*2)).
End environment.
Arguments RuntimeEnvironment : clear implicits.

(** * Parallel calls

    [spawn_parallel] and [drain_parallel] as a step relation.  A task may
    spawn further tasks while it runs; [drain_parallel] takes the registered
    handles, awaits each, and looks again until it finds none. *)
Inductive DrainPc := NotDraining | Awaiting (tasks : list Z) | Drained.

Record Parallel := MkParallel {
  parallel_tasks : list Z;   (** registered handles *)
  next_task : Z;
  live : gset Z;             (** spawned and not finished *)
  drain : DrainPc }.

Definition parallel_new : Parallel := MkParallel [] 0 ∅ NotDraining.
Definition spawn_parallel (p : Parallel) : Parallel :=
  MkParallel (parallel_tasks p ++ [next_task p]) (next_task p + 1) ({[next_task p]} ∪ live p) (drain p).
Definition task_ends (p : Parallel) (t : Z) : Parallel :=
  MkParallel (parallel_tasks p) (next_task p) (live p ∖ {[t]}) (drain p).
(** [std::mem::take] under the lock, and the test for an empty list. *)
Definition drain_take (p : Parallel) : Parallel :=
  MkParallel [] (next_task p) (live p)
    (match parallel_tasks p with [] => Drained | ts => Awaiting ts end).
(** [task.await] returns once that task has finished. *)
Definition drain_await (p : Parallel) : option Parallel :=
  match drain p with
  | Awaiting (t :: ts) =>
      if decide (t ∈ live p) then None
      else Some (MkParallel (parallel_tasks p) (next_task p) (live p) (Awaiting ts))
  | _ => None
  end.

(** Before draining anything may spawn; afterwards only a live task can. *)
Inductive parallel_step : Parallel → Parallel → Prop :=
| par_spawn p : drain p = NotDraining → parallel_step p (spawn_parallel p)
| par_task_spawn p t : t ∈ live p → parallel_step p (spawn_parallel p)
| par_end p t : t ∈ live p → parallel_step p (task_ends p t)
| par_drain p : drain p = NotDraining → parallel_step p (drain_take p)
| par_await p p' : drain_await p = Some p' → parallel_step p p'
| par_again p : drain p = Awaiting [] → parallel_step p (drain_take p).

(** Every live task is still registered or about to be awaited. *)
Definition tracked (p : Parallel) : Prop :=
  match drain p with
  | NotDraining => ∀ t, t ∈ live p → t ∈ parallel_tasks p
  | Awaiting ts => ∀ t, t ∈ live p → t ∈ parallel_tasks p ∨ t ∈ ts
  | Drained => parallel_tasks p = [] ∧ live p = ∅
  end.

(** * Lemmas *)
Lemma RuntimeConfig_new_snapshot {Json} (c : ConfigParts Json) r :
  RuntimeConfig_new c = Ok r →
  snapshot_of (cp_default_call_semantics c) (cp_services c) (cp_streams c) (cp_pools c)
    (cp_data_connectors c) (cp_endpoints c) (cp_links c) r.
Proof.
  unfold RuntimeConfig_new. intros H. outcome_inv. simplify_eq.
  destruct (from_parts_spec (cp_default_call_semantics c) (cp_services c) (cp_streams c) (cp_pools c)
    (cp_data_connectors c) (cp_endpoints c) (cp_links c)) as [(_ & r' & Hr & Hs)|(_ & e & He)]; [|congruence].
  match goal with H : from_parts _ _ _ _ _ _ _ = Ok ?x |- _ =>
    tryif unify x r' then fail else (assert (r' = x) as -> by congruence) end.
  destruct Hs; split; cbn in *; done.
Qed.

Section links.
Notation key l := (gl_from l, gl_to l).

Lemma put_link_keys l ls k : k ∈ (λ l, key l) <$> put_link l ls ↔ k = key l ∨ k ∈ (λ l, key l) <$> ls.
Proof.
  induction ls as [|l' ls IH]; cbn [put_link].
  - rewrite !fmap_cons, fmap_nil, elem_of_cons. done.
  - case_decide as Hk; rewrite !fmap_cons, !elem_of_cons; [|rewrite IH; tauto].
    assert (key l' = key l) as -> by (destruct Hk; congruence). tauto.
Qed.
Lemma put_link_NoDup l ls : NoDup ((λ l, key l) <$> ls) → NoDup ((λ l, key l) <$> put_link l ls).
Proof.
  induction ls as [|l' ls IH]; cbn [put_link]; intros Hnd; [apply NoDup_singleton|].
  rewrite fmap_cons, NoDup_cons in Hnd. destruct Hnd as [Hn Hnd].
  case_decide as Hk; rewrite fmap_cons, NoDup_cons.
  - assert (key l = key l') as -> by (destruct Hk; congruence). done.
  - rewrite put_link_keys. split; [|by apply IH]. intros [?|?]; [|done]. apply Hk. split; congruence.
Qed.
Lemma put_link_elem l ls x :
  NoDup ((λ l, key l) <$> ls) → x ∈ put_link l ls ↔ x = l ∨ (x ∈ ls ∧ key x ≠ key l).
Proof.
  induction ls as [|l' ls IH]; cbn [put_link]; intros Hnd.
  - rewrite list_elem_of_singleton, elem_of_nil. tauto.
  - rewrite fmap_cons, NoDup_cons in Hnd. destruct Hnd as [Hn Hnd]. case_decide as Hk.
    + assert (Heq : key l' = key l) by (destruct Hk; congruence). rewrite !elem_of_cons. split.
      * intros [->|Hx]; [by left|]. right. split; [by right|]. intros Hxl. apply Hn.
        rewrite Heq, <-Hxl. apply list_elem_of_fmap. by exists x.
      * intros [->|[[->|Hx] Hne]]; [by left|done|by right].
    + rewrite !elem_of_cons, IH by done. split; [|tauto].
      intros [->|[->|[Hx Hne]]]; [|tauto..]. right. split; [by left|]. intros ?. apply Hk. split; congruence.
Qed.

(** After any sequence of registrations. *)
Lemma put_links_spec regs x :
  let ls := foldl (λ ls l, put_link l ls) [] regs in
  NoDup ((λ l, key l) <$> ls) ∧
  (x ∈ ls ↔ ∃ before after, regs = before ++ x :: after ∧ key x ∉ (λ l, key l) <$> after).
Proof.
  revert x. induction regs as [|l regs IH] using rev_ind; intros x; cbn.
  - split; [apply NoDup_nil_2|]. rewrite elem_of_nil. split; [done|]. by intros ([] & ? & ? & _).
  - rewrite foldl_app. cbn. destruct (IH x) as [Hnd Hx]. split; [by apply put_link_NoDup|].
    rewrite put_link_elem, Hx by done. split.
    + intros [->|[(b & a & -> & Hk) Hne]]; [exists regs, []; split; [done|apply not_elem_of_nil]|].
      exists b, (a ++ [l]). rewrite <-app_assoc. split; [done|].
      rewrite fmap_app, elem_of_app; cbn. rewrite list_elem_of_singleton. tauto.
    + intros (b & a & Hr & Hk). induction a as [|l' a _] using rev_ind.
      * apply app_inj_tail in Hr as [_ ->]. by left.
      * right. change (b ++ x :: a ++ [l']) with (b ++ (x :: a) ++ [l']) in Hr. rewrite app_assoc in Hr.
        apply app_inj_tail in Hr as [-> ->].
        rewrite fmap_app, elem_of_app in Hk; cbn in Hk. rewrite list_elem_of_singleton in Hk.
        split; [|tauto].
        exists b, a. split; [done|tauto].
Qed.
End links.

Lemma parallel_step_tracked p p' : parallel_step p p' → tracked p → tracked p'.
Proof.
  unfold tracked. intros Hs Hp. destruct Hs as [p Hd|p t Ht|p t Ht|p Hd|p p' Ha|p Hd]; cbn.
  - rewrite Hd in *. intros t. rewrite elem_of_union, elem_of_singleton, elem_of_app, list_elem_of_singleton.
    naive_solver.
  - destruct (drain p); [..|destruct Hp as [_ Hl]; rewrite Hl in Ht; set_solver];
      intros u; rewrite elem_of_union, elem_of_singleton, elem_of_app, list_elem_of_singleton; naive_solver.
  - destruct (drain p); [set_solver..|]. destruct Hp as [? ->]. set_solver.
  - rewrite Hd in *. destruct (parallel_tasks p) as [|t ts] eqn:He.
    + split; [done|]. set_solver.
    + intros u Hu. right. by apply Hp.
  - unfold drain_await in Ha. destruct (drain p) as [|[|t ts]|]; try done. case_decide as Hl; simplify_eq.
    cbn. intros u Hu. destruct (Hp u Hu) as [?|[->|?]%elem_of_cons]; naive_solver.
  - rewrite Hd in *. destruct (parallel_tasks p) as [|t ts] eqn:He.
    + split; [done|]. set_solver.
    + intros u Hu. right. destruct (Hp u Hu) as [?|?]; [done|set_solver].
Qed.

(** * Properties *)

(** the call semantics of a link are the link's own, otherwise the
    service's default, otherwise the global default; and the pool they name is
    part of the published configuration. *)
Theorem call_semantics_resolved {Json Pool PriorityPool Endpoint Storage Buildable}
    (env : RuntimeEnvironment Json Pool PriorityPool Endpoint Storage Buildable) (c : ConfigParts Json) from to :
  RuntimeConfig_new c = Ok (runtime_config env) →
  (∀ l, l ∈ cp_links c → link_key l = (from, to) → env_call_semantics env from to = call_semantics l) ∧
  ((from, to) ∉ link_key <$> cp_links c →
    (∀ s, s ∈ cp_services c → service_id env = Some (svc_id s) →
      env_call_semantics env from to = default_call_semantics s) ∧
    ((∀ s, s ∈ cp_services c → service_id env ≠ Some (svc_id s)) →
      env_call_semantics env from to = cp_default_call_semantics c)) ∧
  ∀ p, semantics_pool (env_call_semantics env from to) = Some p →
    is_Some (pool_by_name (runtime_config env) p).
Proof.
  intros Hs%RuntimeConfig_new_snapshot. destruct Hs as [Hd [Hsvc _] _ _ _ Hl _ Hp _].
  unfold env_call_semantics, link, service_by_id, pool_by_name. split_and!.
  - intros l Hin Hk. assert (links (runtime_config env) !! (from, to) = Some l) as -> by by apply Hl. done.
  - intros Hn%(index_of_None _ _ _ (from, to) Hl). rewrite Hn. split.
    + intros s Hin ->. cbn. assert (services_by_id (runtime_config env) !! svc_id s = Some s) as ->
        by by apply Hsvc. done.
    + intros Hns. destruct (service_id env) as [id|]; cbn; [|done].
      destruct (services_by_id (runtime_config env) !! id) as [s|] eqn:He; [|done].
      apply Hsvc in He as [Hin <-]. by destruct (Hns s Hin).
  - intros p Hsem. apply (Hp _ _ Hsem).
    destruct (links (runtime_config env) !! (from, to)) as [l|] eqn:Hlk.
    + right; right. apply Hl in Hlk as [? _]. apply list_elem_of_fmap. by exists l.
    + destruct (service_id env) as [id|]; cbn; [|left; done].
      destruct (services_by_id (runtime_config env) !! id) as [s|] eqn:He; [|left; done].
      right; left. apply Hsvc in He as [? _]. apply list_elem_of_fmap. by exists s.
Qed.

(** the live graph keeps one entry per pair of streams: after any
    sequence of registrations, a link is listed exactly when it is the last
    one registered for its pair. *)
Theorem graph_links_last_wins {Json Pool PriorityPool Endpoint Storage Buildable} d (regs : list GraphLink) x :
  let env := foldl register_graph_link
               (environment_new d : RuntimeEnvironment Json Pool PriorityPool Endpoint Storage Buildable) regs in
  NoDup ((λ l, (gl_from l, gl_to l)) <$> graph_links env) ∧
  (x ∈ graph_links env ↔ ∃ before after, regs = before ++ x :: after ∧
     (gl_from x, gl_to x) ∉ (λ l, (gl_from l, gl_to l)) <$> after).
Proof.
  assert (Hg : ∀ env : RuntimeEnvironment Json Pool PriorityPool Endpoint Storage Buildable,
    graph_links (foldl register_graph_link env regs) = foldl (λ ls l, put_link l ls) (graph_links env) regs).
  { induction regs as [|l regs IH]; intros env; cbn; [done|]. by rewrite IH. }
  cbn. rewrite Hg. apply (put_links_spec regs x).
Qed.

(** draining waits for everything: when [drain_parallel] returns, no
    parallel call is alive and none is left in the registry, including those
    spawned by other parallel calls while it waited. *)
Theorem drain_parallel_complete p :
  rtc parallel_step parallel_new p → drain p = Drained → live p = ∅ ∧ parallel_tasks p = [].
Proof.
  intros Hr Hd. assert (tracked p) as Ht.
  { revert Hr. apply (rtc_ind_r tracked parallel_new); [cbn; set_solver|].
    intros y z _ Hyz Hy. by eapply parallel_step_tracked. }
  unfold tracked in Ht. rewrite Hd in Ht. tauto.
Qed.

Definition environment_example : RuntimeEnvironment unit unit unit unit unit unit :=
  for_service (environment_new (TaskPool "main")) 1.
Lemma call_semantics_resolved_witness :
  RuntimeConfig_new (MkParts (Json := unit) (TaskPool "main") [] [] [] [] [] [MkLink 1 2 (TaskPool "fast") false] [] []) =
    Ok (runtime_config (publish_runtime_config environment_example
      (MkRuntimeConfig (TaskPool "main") ∅ ∅ ∅ ∅
        {["main" := MkPoolConfig "main" 1 0; "fast" := MkPoolConfig "fast" 1 0]} ∅ ∅ ∅ ∅
        {[(1, 2) := MkLink 1 2 (TaskPool "fast") false]} ∅ ∅)).1) ∧
  env_call_semantics (publish_runtime_config environment_example
      (MkRuntimeConfig (TaskPool "main") ∅ ∅ ∅ ∅
        {["main" := MkPoolConfig "main" 1 0; "fast" := MkPoolConfig "fast" 1 0]} ∅ ∅ ∅ ∅
        {[(1, 2) := MkLink 1 2 (TaskPool "fast") false]} ∅ ∅)).1 1 2 = TaskPool "fast".
Proof.
  assert (H : RuntimeConfig_new (MkParts (Json := unit) (TaskPool "main") [] [] [] [] []
      [MkLink 1 2 (TaskPool "fast") false] [] []) =
    Ok (runtime_config (publish_runtime_config environment_example
      (MkRuntimeConfig (TaskPool "main") ∅ ∅ ∅ ∅
        {["main" := MkPoolConfig "main" 1 0; "fast" := MkPoolConfig "fast" 1 0]} ∅ ∅ ∅ ∅
        {[(1, 2) := MkLink 1 2 (TaskPool "fast") false]} ∅ ∅)).1)) by (vm_compute; reflexivity).
  split; [exact H|].
  refine (proj1 (call_semantics_resolved _ _ 1 2 H) (MkLink 1 2 (TaskPool "fast") false) _ eq_refl).
  left.
Defined.

Definition drain_example : Parallel := MkParallel [] 1 ∅ Drained.
Lemma drain_parallel_complete_witness :
  rtc parallel_step parallel_new drain_example ∧ live drain_example = ∅.
Proof.
  assert (Hr : rtc parallel_step parallel_new drain_example).
  { eapply rtc_l; [by apply par_spawn|]. eapply rtc_l; [by apply par_drain|].
    eapply rtc_l; [apply (par_end _ 0), (bool_decide_unpack _); vm_compute; exact I|].
    eapply rtc_l; [apply par_await; vm_compute; reflexivity|].
    eapply rtc_l; [apply par_again; vm_compute; reflexivity|]. apply rtc_refl. }
  split; [exact Hr|]. exact (proj1 (drain_parallel_complete drain_example Hr eq_refl)).
Defined.
