(* ===== verification/Metrics.v ===== *)
(** The metrics registry, [src/src/runtime/environment/metrics.rs].

    The registry, the atomic cells and the histograms behind the handles are
    one shared state.  Operations on the registry hold its lock and are one
    step; a gauge writes its cell and the OpenTelemetry instrument in two, so
    concurrent gauges are a step relation.  [f64] is IEEE binary64 as in
    [SpecFloat]; its decimal text is a parameter, and the OpenTelemetry SDK
    is the list of the recordings it receives.  Debug assertions are off, as
    in a release build. *)

From stdpp Require Import pretty.
From Stdlib Require Import Strings.Ascii Floats.SpecFloat Sorting.Sorted.
From Stdlib Require Strings.String.
From S2P Require Import Prelude Errors SortedMap.
Local Open Scope Z_scope.

(** * Floats *)
Definition f64 : Type := spec_float.
Definition f64_of_Z (z : Z) : f64 := binary_normalize 53 1024 z 0 false.
Definition f64_add : f64 → f64 → f64 := SFadd 53 1024.
Definition f64_lt : f64 → f64 → bool := SFltb.
Definition f64_zero : f64 := S754_zero false.
(** [f64::from_bits] *)
Definition f64_from_bits (b : Z) : f64 :=
  let s := Z.testbit b 63 in
  let e := Z.land (Z.shiftr b 52) 2047 in
  let m := Z.land b (2 ^ 52 - 1) in
  if decide (e = 2047) then if decide (m = 0) then S754_infinity s else S754_nan
  else if decide (e = 0) then match m with Zpos p => S754_finite s p (-1074) | _ => S754_zero s end
  else match m + 2 ^ 52 with Zpos p => S754_finite s p (e - 1075) | _ => S754_zero s end.
(** The literal [a / b], rounded to nearest. *)
Definition f64_ratio (a b : Z) : f64 := SFdiv 53 1024 (f64_of_Z a) (f64_of_Z b).

(** [slice::partition_point]: binary search, the slice halved in each turn. *)
Fixpoint partition_search {A} (fuel : nat) (pred : A → bool) (l : list A) (base size : nat) : nat :=
  match fuel with
  | S fuel =>
      if decide (size ≤ 1)%nat then base
      else
        let half := Nat.div2 size in
        let mid := (base + half)%nat in
        let base := match l !! mid with Some x => if pred x then mid else base | None => base end in
        partition_search fuel pred l base (size - half)
  | O => base
  end.
Definition partition_point {A} (pred : A → bool) (l : list A) : nat :=
  match l with
  | [] => 0
  | _ =>
      let base := partition_search (length l) pred l 0 (length l) in
      match l !! base with Some x => if pred x then S base else base | None => base end
  end.

(** * Data *)
Definition Labels : Type := list (string * string).   (** a [BTreeMap], see [SortedMap] *)
Record MetricKey := MkKey { key_name : string; key_labels : Labels }.
#[export] Instance MetricKey_eq_dec : EqDecision MetricKey.
Proof. solve_decision. Defined.
Definition key_fields (k : MetricKey) : string * Labels := (key_name k, key_labels k).
(** The derived order. *)
#[export] Instance MetricKey_Ord : Ord MetricKey := λ x y, compare (key_fields x) (key_fields y).
#[export] Instance key_fields_inj : Inj (=) (=) key_fields.
Proof. by intros [] [] [= -> ->]. Qed.
#[export] Instance MetricKey_TotalOrd : TotalOrd MetricKey.
Proof. apply (TotalOrd_inj key_fields). Qed.

(** An instrument built by the meter, and what it is told. *)
Record Instrument := MkInstrument { i_name : string; i_description : string; i_boundaries : option (list f64) }.
Inductive OtelEvent :=
| CounterAdd (i : Instrument) (value : Z) (attributes : Labels)
| UpDownAdd (i : Instrument) (value : Z) (attributes : Labels)
| HistogramRecord (i : Instrument) (value : f64) (attributes : Labels).

Inductive MetricKind := KCounter | KGauge | KHistogram | KObservableGauge.
#[export] Instance MetricKind_eq_dec : EqDecision MetricKind.
Proof. solve_decision. Defined.
Record HistogramValue := MkHistogram { bounds : list f64; buckets : list Z; count : Z; sum : f64 }.
(** A handle: [Int64Counter], [Int64Gauge] and [Float64Histogram] have the
    same fields; [cell] names the shared value. *)
Record Handle := MkHandle { cell : nat; otel : option Instrument; attributes : Labels; enabled : bool }.

Section metrics.
Context {W : Type}.                            (** what observable gauges read *)
Inductive Metric :=
| Counter (help : string) (value : nat) (otel : option Instrument) (attributes : Labels)
| Gauge (help : string) (value : nat) (otel : option Instrument) (attributes : Labels)
| Histogram (help : string) (value : nat) (otel : option Instrument) (attributes : Labels)
| ObservableGauge (help : string) (observe : W → f64) (otel : option Instrument).
Definition kind (m : Metric) : MetricKind :=
  match m with
  | Counter _ _ _ _ => KCounter | Gauge _ _ _ _ => KGauge
  | Histogram _ _ _ _ => KHistogram | ObservableGauge _ _ _ => KObservableGauge
  end.
Definition help (m : Metric) : string :=
  match m with Counter h _ _ _ | Gauge h _ _ _ | Histogram h _ _ _ | ObservableGauge h _ _ => h end.
Record Metrics := MkMetrics {
  registry : list (MetricKey * Metric);
  meter : bool;                                (** an OpenTelemetry meter is present *)
  noop : bool;
  ints : gmap nat Z;
  hists : gmap nat HistogramValue;
  next_cell : nat;
  exported : list OtelEvent }.
Record MetricsScope := MkScope { namespace : string; scope_labels : Labels }.
Implicit Types (m : Metrics) (sc : MetricsScope).

Definition metrics_new : Metrics := MkMetrics [] false false ∅ ∅ 0 [].
Definition metrics_noop : Metrics := MkMetrics [] false true ∅ ∅ 0 [].
Definition with_meter : Metrics := MkMetrics [] true false ∅ ∅ 0 [].
Definition has_otel m : bool := meter m.
Definition is_noop m : bool := noop m.

Definition alloc_int m : nat * Metrics :=
  (next_cell m, MkMetrics (registry m) (meter m) (noop m) (<[next_cell m := 0]> (ints m)) (hists m) (S (next_cell m)) (exported m)).
Definition alloc_hist m (h : HistogramValue) : nat * Metrics :=
  (next_cell m, MkMetrics (registry m) (meter m) (noop m) (ints m) (<[next_cell m := h]> (hists m)) (S (next_cell m)) (exported m)).
Definition set_registry m r : Metrics :=
  MkMetrics r (meter m) (noop m) (ints m) (hists m) (next_cell m) (exported m).
Definition set_ints m i : Metrics :=
  MkMetrics (registry m) (meter m) (noop m) i (hists m) (next_cell m) (exported m).
Definition set_hists m h : Metrics :=
  MkMetrics (registry m) (meter m) (noop m) (ints m) h (next_cell m) (exported m).
Definition export m (e : OtelEvent) : Metrics :=
  MkMetrics (registry m) (meter m) (noop m) (ints m) (hists m) (next_cell m) (exported m ++ [e]).

(** * Registration *)
Definition join_name (namespace name : string) : string :=
  if decide (namespace = "") then name
  else if decide (name = "") then namespace
  else namespace +:+ "_" +:+ name.
Definition metric_attributes (labels : Labels) : Labels := labels.
Definition scope (namespace : string) (labels : Labels) : MetricsScope := MkScope namespace labels.
Definition sub_scope sc (namespace' : string) (labels : Labels) : MetricsScope :=
  MkScope (join_name (namespace sc) namespace') (sm_extend (scope_labels sc) labels).
Definition scope_key sc (name : string) (labels : Labels) : MetricKey :=
  MkKey (join_name (namespace sc) name) (sm_extend (scope_labels sc) labels).
Fixpoint validate_metric_family (registry : list (MetricKey * Metric)) (name : string) (expected_kind : MetricKind)
    (expected_help : string) : outcome MetricsError unit :=
  match registry with
  | [] => Ok tt
  | (key, metric) :: registry =>
      if decide (key_name key ≠ name) then validate_metric_family registry name expected_kind expected_help
      else if decide (kind metric ≠ expected_kind) then Err (TypeConflict name)
      else if decide (help metric ≠ expected_help) then Err (DescriptionConflict name)
      else Ok tt
  end.
Definition default_duration_bounds : list f64 :=
  [f64_ratio 1 100000; f64_ratio 5 100000; f64_ratio 1 10000; f64_ratio 5 10000; f64_ratio 1 1000; f64_ratio 5 1000;
   f64_ratio 1 100; f64_ratio 5 100; f64_ratio 1 10; f64_ratio 5 10; f64_of_Z 1; f64_of_Z 5; f64_of_Z 10].

Definition counter m sc (name help : string) (labels : Labels) : outcome MetricsError Handle * Metrics :=
  if noop m then let '(value, m) := alloc_int m in (Ok (MkHandle value None [] false), m)
  else
    let key := scope_key sc name labels in
    match validate_metric_family (registry m) (key_name key) KCounter help with
    | Ok _ =>
        match sm_get key (registry m) with
        | Some (Counter _ value otel attributes) => (Ok (MkHandle value otel attributes true), m)
        | Some _ => (Err (TypeConflict (key_name key)), m)
        | None =>
            let '(value, m) := alloc_int m in
            let attributes := metric_attributes (key_labels key) in
            let otel := if meter m then Some (MkInstrument (key_name key) help None) else None in
            (Ok (MkHandle value otel attributes true),
             set_registry m (sm_insert key (Counter help value otel attributes) (registry m)))
        end
    | Err e => (Err e, m)
    | Panic => (Panic, m)
    end.
Definition gauge m sc (name help : string) (labels : Labels) : outcome MetricsError Handle * Metrics :=
  if noop m then let '(value, m) := alloc_int m in (Ok (MkHandle value None [] false), m)
  else
    let key := scope_key sc name labels in
    match validate_metric_family (registry m) (key_name key) KGauge help with
    | Ok _ =>
        match sm_get key (registry m) with
        | Some (Gauge _ value otel attributes) => (Ok (MkHandle value otel attributes true), m)
        | Some _ => (Err (TypeConflict (key_name key)), m)
        | None =>
            let '(value, m) := alloc_int m in
            let attributes := metric_attributes (key_labels key) in
            let otel := if meter m then Some (MkInstrument (key_name key) help None) else None in
            (Ok (MkHandle value otel attributes true),
             set_registry m (sm_insert key (Gauge help value otel attributes) (registry m)))
        end
    | Err e => (Err e, m)
    | Panic => (Panic, m)
    end.
Definition histogram m sc (name help : string) (labels : Labels) (bounds : option (list f64)) :
    outcome MetricsError Handle * Metrics :=
  if noop m then let '(value, m) := alloc_hist m (MkHistogram [] [] 0 f64_zero) in (Ok (MkHandle value None [] false), m)
  else
    let key := scope_key sc name labels in
    match validate_metric_family (registry m) (key_name key) KHistogram help with
    | Ok _ =>
        match sm_get key (registry m) with
        | Some (Histogram _ value otel attributes) => (Ok (MkHandle value otel attributes true), m)
        | Some _ => (Err (TypeConflict (key_name key)), m)
        | None =>
            let bounds := default default_duration_bounds bounds in
            let bucket_count := S (length bounds) in
            let otel := if meter m then Some (MkInstrument (key_name key) help (Some bounds)) else None in
            let '(value, m) := alloc_hist m (MkHistogram bounds (replicate bucket_count 0) 0 f64_zero) in
            let attributes := metric_attributes (key_labels key) in
            (Ok (MkHandle value otel attributes true),
             set_registry m (sm_insert key (Histogram help value otel attributes) (registry m)))
        end
    | Err e => (Err e, m)
    | Panic => (Panic, m)
    end.
Definition observable_float64_gauge m sc (name help : string) (labels : Labels) (observe : W → f64) :
    outcome MetricsError unit * Metrics :=
  if noop m then (Ok tt, m)
  else
    let key := scope_key sc name labels in
    match validate_metric_family (registry m) (key_name key) KObservableGauge help with
    | Ok _ =>
        match sm_get key (registry m) with
        | Some (ObservableGauge _ _ _) => (Ok tt, m)
        | Some _ => (Err (TypeConflict (key_name key)), m)
        | None =>
            let otel := if meter m then Some (MkInstrument (key_name key) help None) else None in
            (Ok tt, set_registry m (sm_insert key (ObservableGauge help observe otel) (registry m)))
        end
    | Err e => (Err e, m)
    | Panic => (Panic, m)
    end.

(** * Instruments *)
Definition counter_add m (h : Handle) (value : Z) : Metrics :=
  if enabled h then
    match otel h with
    | Some i => export m (CounterAdd i (wrap_u 64 value) (attributes h))
    | None => set_ints m (alter (λ x, wrap_s 64 (x + value)) (cell h) (ints m))
    end
  else m.
Definition counter_inc m h : Metrics := counter_add m h 1.
Definition int_get m (h : Handle) : Z := if enabled h then default 0 (ints m !! cell h) else 0.

(** The two steps of a gauge: the cell, which yields the difference to
    export, and the instrument. *)
Definition gauge_fetch_add m (h : Handle) (value : Z) : Z * Metrics :=
  (value, set_ints m (alter (λ x, wrap_s 64 (x + value)) (cell h) (ints m))).
Definition gauge_swap m (h : Handle) (value : Z) : Z * Metrics :=
  (wrap_s 64 (value - default 0 (ints m !! cell h)), set_ints m (alter (λ _, value) (cell h) (ints m))).
Definition gauge_export m (h : Handle) (delta : Z) : Metrics :=
  match otel h with Some i => export m (UpDownAdd i delta (attributes h)) | None => m end.
Definition gauge_add m (h : Handle) (value : Z) : Metrics :=
  if enabled h then let '(delta, m) := gauge_fetch_add m h value in gauge_export m h delta else m.
Definition gauge_set m (h : Handle) (value : Z) : Metrics :=
  if enabled h then let '(delta, m) := gauge_swap m h value in gauge_export m h delta else m.
Definition gauge_inc m h : Metrics := gauge_add m h 1.
Definition gauge_dec m h : Metrics := gauge_add m h (-1).

Definition observe_value (h : HistogramValue) (value : f64) : HistogramValue :=
  let index := partition_point (λ bound, f64_lt bound value) (bounds h) in
  MkHistogram (bounds h) (alter (λ b, wrap_u 64 (b + 1)) index (buckets h)) (wrap_u 64 (count h + 1)) (f64_add (sum h) value).
Definition observe m (h : Handle) (value : f64) : Metrics :=
  if enabled h then
    let m := set_hists m (alter (λ v, observe_value v value) (cell h) (hists m)) in
    match otel h with Some i => export m (HistogramRecord i value (attributes h)) | None => m end
  else m.
Definition histogram_count m (h : Handle) : Z :=
  if enabled h then match hists m !! cell h with Some v => count v | None => 0 end else 0.
Definition histogram_sum m (h : Handle) : f64 :=
  if enabled h then match hists m !! cell h with Some v => sum v | None => f64_zero end else f64_zero.
End metrics.
Arguments Metric : clear implicits.
Arguments Metrics : clear implicits.

(** * Text exposition *)
Definition quote : ascii := "034"%char.
Definition backslash : ascii := "\"%char.
Definition newline_char : ascii := "010"%char.
Definition nl : string := String newline_char "".
(** [str::replace] of one character. *)
Definition replace (c : ascii) (by_ : list ascii) (s : list ascii) : list ascii :=
  s ≫= λ d, if decide (d = c) then by_ else [d].
Definition escape_help (s : list ascii) : list ascii :=
  replace newline_char [backslash; "n"%char] (replace backslash [backslash; backslash] s).
Definition escape_label (s : list ascii) : list ascii :=
  replace newline_char [backslash; "n"%char] (replace quote [backslash; quote] (replace backslash [backslash; backslash] s)).
Definition write_header (name help metric_type : string) : string :=
  "# HELP " +:+ name +:+ " " +:+ String.string_of_list_ascii (escape_help (chars help)) +:+ nl +:+
  "# TYPE " +:+ name +:+ " " +:+ metric_type +:+ nl.
Definition write_label (kv : string * string) : string :=
  kv.1 +:+ "=" +:+ String quote (String.string_of_list_ascii (escape_label (chars kv.2)) +:+ String quote "").
Definition write_labels (labels : Labels) : string :=
  match labels with [] => "" | _ => "{" +:+ String.concat "," (write_label <$> labels) +:+ "}" end.
Definition write_sample (name : string) (labels : Labels) (value : string) : string :=
  name +:+ write_labels labels +:+ " " +:+ value +:+ nl.

Section render.
Context {W : Type} (f64_to_string : f64 → string) (world : W).
Implicit Types m : Metrics W.
(** The cumulative buckets of a histogram, from [index] on. *)
Fixpoint render_buckets (key : MetricKey) (bounds : list f64) (index : nat) (cumulative : Z) (buckets : list Z) : string :=
  match buckets with
  | [] => ""
  | count :: buckets =>
      let cumulative := wrap_u 64 (cumulative + count) in
      let bound := match bounds !! index with Some b => f64_to_string b | None => "+Inf" end in
      write_sample (key_name key +:+ "_bucket") (sm_insert "le" bound (key_labels key)) (pretty cumulative) +:+
      render_buckets key bounds (S index) cumulative buckets
  end.
Definition render_metric m (key : MetricKey) (metric : Metric W) : string :=
  match metric with
  | Counter _ value _ _ | Gauge _ value _ _ =>
      write_sample (key_name key) (key_labels key) (pretty (default 0 (ints m !! value)))
  | Histogram _ value _ _ =>
      match hists m !! value with
      | Some h =>
          render_buckets key (bounds h) 0 0 (buckets h) +:+
          write_sample (key_name key +:+ "_sum") (key_labels key) (f64_to_string (sum h)) +:+
          write_sample (key_name key +:+ "_count") (key_labels key) (pretty (count h))
      | None => ""
      end
  | ObservableGauge _ observe _ => write_sample (key_name key) (key_labels key) (f64_to_string (observe world))
  end.
Definition kind_text (k : MetricKind) : string :=
  match k with KCounter => "counter" | KGauge | KObservableGauge => "gauge" | KHistogram => "histogram" end.
Definition render_header (key : MetricKey) (metric : Metric W) : string :=
  write_header (key_name key) (help metric) (kind_text (kind metric)).
(** The loop with the set of families already rendered. *)
Fixpoint render_loop m (rendered_families : gset string) (registry : list (MetricKey * Metric W)) : string :=
  match registry with
  | [] => ""
  | (key, metric) :: registry =>
      (if decide (key_name key ∈ rendered_families) then "" else render_header key metric) +:+
      render_metric m key metric +:+
      render_loop m ({[key_name key]} ∪ rendered_families) registry
  end.
Definition render_prometheus m : string := if noop m then "" else render_loop m ∅ (registry m).
End render.

(** * Tokio's runtime metrics *)
Record TokioRuntimeSnapshot := MkSnapshot {
  workers_count : Z; live_tasks_count : Z; total_park_count : Z; max_park_count : Z; min_park_count : Z;
  total_busy_duration_seconds : Z; max_busy_duration_seconds : Z; min_busy_duration_seconds : Z;
  global_queue_depth : Z; busy_ratio : Z }.
Definition snapshot_default : TokioRuntimeSnapshot := MkSnapshot 0 0 0 0 0 0 0 0 0 0.
Definition tokio_gauges : list (string * string * (TokioRuntimeSnapshot → f64)) :=
  [("tokio_workers_count", "Number of Tokio runtime worker threads", λ s, f64_of_Z (workers_count s));
   ("tokio_live_tasks_count", "Number of live Tokio tasks", λ s, f64_of_Z (live_tasks_count s));
   ("tokio_total_park_count", "Worker parks observed in the latest Tokio sampling interval",
     λ s, f64_of_Z (total_park_count s));
   ("tokio_max_park_count", "Maximum worker parks in the latest Tokio sampling interval",
     λ s, f64_of_Z (max_park_count s));
   ("tokio_min_park_count", "Minimum worker parks in the latest Tokio sampling interval",
     λ s, f64_of_Z (min_park_count s));
   ("tokio_total_busy_duration_seconds", "Total worker busy duration in the latest Tokio sampling interval",
     λ s, f64_from_bits (total_busy_duration_seconds s));
   ("tokio_max_busy_duration_seconds", "Maximum worker busy duration in the latest Tokio sampling interval",
     λ s, f64_from_bits (max_busy_duration_seconds s));
   ("tokio_min_busy_duration_seconds", "Minimum worker busy duration in the latest Tokio sampling interval",
     λ s, f64_from_bits (min_busy_duration_seconds s));
   ("tokio_global_queue_depth", "Tasks currently scheduled in the Tokio global queue",
     λ s, f64_of_Z (global_queue_depth s));
   ("tokio_busy_ratio", "Ratio of worker busy duration to elapsed sampling time", λ s, f64_from_bits (busy_ratio s))]%string.
Fixpoint register_gauges (m : Metrics TokioRuntimeSnapshot) (sc : MetricsScope)
    (gauges : list (string * string * (TokioRuntimeSnapshot → f64))) : outcome MetricsError unit * Metrics TokioRuntimeSnapshot :=
  match gauges with
  | [] => (Ok tt, m)
  | (name, help, observe) :: gauges =>
      match observable_float64_gauge m sc name help [] observe with
      | (Ok _, m) => register_gauges m sc gauges
      | r => r
      end
  end.
Definition register_tokio_runtime_metrics (m : Metrics TokioRuntimeSnapshot) :
    outcome MetricsError unit * Metrics TokioRuntimeSnapshot :=
  register_gauges m (scope "" []) tokio_gauges.
Record TokioRuntimeMetrics := MkTokio {
  snapshot : TokioRuntimeSnapshot;
  registered : bool;
  sampler : bool }.                            (** a sampling task is owned *)
Definition tokio_start (t : TokioRuntimeMetrics) (m : Metrics TokioRuntimeSnapshot) :
    RuntimeResult unit * TokioRuntimeMetrics * Metrics TokioRuntimeSnapshot :=
  if is_noop m then (Ok tt, t, m)
  else if sampler t then (Ok tt, t, m)
  else
    let '(r, m) := if registered t then (Ok tt, m) else register_tokio_runtime_metrics m in
    match r with
    | Ok _ => (Ok tt, MkTokio (snapshot t) true true, m)
    | Err e => (Err (MetricsErr e), t, m)
    | Panic => (Panic, t, m)
    end.
(** The handle is taken before the sampler is joined; [joined] is its end. *)
Definition tokio_stop (t : TokioRuntimeMetrics) (joined : outcome string unit) : RuntimeResult unit * TokioRuntimeMetrics :=
  if sampler t then
    (match joined with Ok _ => Ok tt | Err e => Err (Transport e) | Panic => Panic end,
     MkTokio (snapshot t) (registered t) false)
  else (Ok tt, t).

(** * Lemmas *)

(** ** Binary search *)
Lemma div2_double_le n : (Nat.div2 n + Nat.div2 n ≤ n)%nat.
Proof.
  pose proof (Nat.div2_odd n) as H. set (half := Nat.div2 n) in *. clearbody half.
  destruct (Nat.odd n); cbn in H; lia.
Qed.
Section partition.
Context {A : Type} (pred : A → bool) (l : list A).
Lemma partition_search_bound fuel base size :
  (1 ≤ size)%nat → (base + size ≤ length l)%nat → (partition_search fuel pred l base size < length l)%nat.
Proof.
  revert base size. induction fuel as [|fuel IH]; intros base size H1 H2; cbn [partition_search]; [lia|].
  destruct (decide (size ≤ 1)%nat) as [Hs|Hs]; [lia|]. destruct size as [|[|size]]; [lia..|].
  pose proof (div2_double_le size) as Hhalf. cbn [Nat.div2] in *. set (half := Nat.div2 size) in *. clearbody half.
  apply IH; [lia|]. destruct (l !! _) as [x|]; [destruct (pred x)|]; lia.
Qed.
Lemma partition_point_unfold :
  (1 ≤ length l)%nat →
  partition_point pred l =
    let base := partition_search (length l) pred l 0 (length l) in
    match l !! base with Some x => if pred x then S base else base | None => base end.
Proof. destruct l; cbn; [lia|done]. Qed.
Lemma partition_point_bound : (partition_point pred l ≤ length l)%nat.
Proof.
  destruct (decide (1 ≤ length l)%nat) as [Hl|Hl]; [|destruct l; cbn in *; [done|lia]].
  rewrite partition_point_unfold by done. pose proof (partition_search_bound (length l) 0 (length l) Hl ltac:(lia)) as Hb.
  cbn zeta. destruct (l !! _) as [x|]; [destruct (pred x)|]; lia.
Qed.
(** On a slice split at [n], the search finds [n]. *)
Context (n : nat) (Hn : (n ≤ length l)%nat).
Context (Hsplit : ∀ i x, l !! i = Some x → pred x = bool_decide (i < n)%nat).
Lemma partition_search_spec fuel base size :
  (size ≤ fuel)%nat → (1 ≤ size)%nat → (base + size ≤ length l)%nat →
  (base = 0 ∨ base < n)%nat → (n ≤ base + size)%nat →
  let b := partition_search fuel pred l base size in (b = 0 ∨ b < n)%nat ∧ (n ≤ S b)%nat.
Proof.
  revert base size. induction fuel as [|fuel IH]; intros base size Hf H1 H2 H3 H4; cbn [partition_search]; [lia|].
  destruct (decide (size ≤ 1)%nat) as [Hs|Hs]; [lia|]. destruct size as [|[|size]]; [lia..|].
  pose proof (div2_double_le size) as Hhalf. cbn [Nat.div2] in *. set (half := Nat.div2 size) in *. clearbody half.
  destruct (lookup_lt_is_Some_2 l (base + S half)) as [x Hx]; [lia|]. rewrite Hx, (Hsplit _ _ Hx).
  destruct (decide (base + S half < n)%nat) as [Hlt|Hge]; [rewrite bool_decide_true by done|rewrite bool_decide_false by done]; apply IH; lia.
Qed.
Lemma partition_point_spec : partition_point pred l = n.
Proof.
  destruct (decide (1 ≤ length l)%nat) as [Hl|Hl].
  - rewrite partition_point_unfold by done. pose proof (partition_search_bound (length l) 0 (length l) Hl ltac:(lia)) as Hb.
    destruct (partition_search_spec (length l) 0 (length l) ltac:(lia) Hl ltac:(lia) ltac:(lia) ltac:(lia)) as [H1 H2].
    destruct (lookup_lt_is_Some_2 l _ Hb) as [x Hx]. cbn zeta. rewrite Hx, (Hsplit _ _ Hx). case_bool_decide; lia.
  - assert (l = []) as -> by (apply length_zero_iff_nil; lia). cbn in *. lia.
Qed.
End partition.

(** ** Floats *)
Lemma f64_lt_trans x y z : f64_lt x y = true → f64_lt y z = true → f64_lt x z = true.
Proof.
  unfold f64_lt, SFltb.
  destruct x as [sx|sx| |sx mx ex], y as [sy|sy| |sy my ey], z as [sz|sz| |sz mz ez]; cbn;
    repeat match goal with s : bool |- _ => destruct s end; try done.
  all: destruct (ex ?= ey) eqn:E1, (ey ?= ez) eqn:E2; rewrite ?Z.compare_eq_iff, ?Z.compare_lt_iff, ?Z.compare_gt_iff in *; try done.
  all: destruct (ex ?= ez) eqn:E3; rewrite ?Z.compare_eq_iff, ?Z.compare_lt_iff, ?Z.compare_gt_iff in *; try done; try lia.
  all: change (Pos.compare_cont Eq) with Pos.compare in *.
  all: destruct (Pos.compare mx my) eqn:E4, (Pos.compare my mz) eqn:E5, (Pos.compare mx mz) eqn:E6; cbn in *; try done;
    rewrite ?Pos.compare_eq_iff, ?Pos.compare_lt_iff, ?Pos.compare_gt_iff in *; lia.
Qed.

(** ** Histograms *)
Definition texts (l : list string) : string := foldr String.append "" l.
Definition total (l : list Z) : Z := foldr Z.add 0 l.
Definition histogram_new (bs : list f64) : HistogramValue := MkHistogram bs (replicate (S (length bs)) 0) 0 f64_zero.
Definition increasing (bs : list f64) : Prop := StronglySorted (λ x y, f64_lt x y = true) bs.
(** The number of observations that are not above bound [i]; the last bucket
    has no bound. *)
Definition within (bs : list f64) (i : nat) (v : f64) : bool :=
  match bs !! i with Some b => negb (f64_lt b v) | None => true end.
Definition observed_le (bs : list f64) (i : nat) (vs : list f64) : Z :=
  Z.of_nat (length (filter (λ v, within bs i v = true) vs)).

Lemma increasing_split bs v :
  increasing bs → ∃ n, (n ≤ length bs)%nat ∧ ∀ i b, bs !! i = Some b → f64_lt b v = bool_decide (i < n)%nat.
Proof.
  induction 1 as [|b bs Hs IH Hall]; [by exists 0%nat|]. destruct (f64_lt b v) eqn:E.
  - destruct IH as (n & Hn & Hsplit). exists (S n). split; [cbn; lia|]. intros [|i] b' Hb; cbn in Hb.
    + injection Hb as <-. rewrite E. by rewrite bool_decide_true by lia.
    + rewrite (Hsplit _ _ Hb). apply bool_decide_ext. lia.
  - exists 0%nat. split; [lia|]. intros i b' Hb. rewrite bool_decide_false by lia.
    destruct i as [|i]; [by injection Hb as <-|]. rewrite Forall_forall in Hall.
    destruct (f64_lt b' v) eqn:E'; [|done].
    by rewrite (f64_lt_trans b b' v) in E by (done || apply Hall, list_elem_of_lookup; eauto).
Qed.
Lemma rank_spec bs v i :
  increasing bs → (i ≤ length bs)%nat →
  (partition_point (λ b, f64_lt b v) bs ≤ i)%nat ↔ within bs i v = true.
Proof.
  intros (n & Hn & Hsplit)%(increasing_split bs v) Hi. rewrite (partition_point_spec _ bs n Hn Hsplit).
  unfold within. destruct (bs !! i) as [b|] eqn:Eb.
  - rewrite negb_true_iff, (Hsplit _ _ Eb), bool_decide_eq_false. lia.
  - apply lookup_ge_None_1 in Eb. split; [done|lia].
Qed.

Lemma total_app l k : total (l ++ k) = total l + total k.
Proof. induction l as [|x l IH]; cbn; [done|]. unfold total in *. cbn. lia. Qed.
Lemma total_take_alter (f : Z → Z) l n k x :
  l !! n = Some x → f x = x + 1 → total (take k (alter f n l)) = total (take k l) + (if decide (n < k)%nat then 1 else 0).
Proof.
  revert n k. induction l as [|y l IH]; intros [|n] [|k] Hx Hf; cbn in Hx; [done|done|done|done|..].
  - done.
  - injection Hx as ->. change (f x + total (take k l) = x + total (take k l) + 1). lia.
  - done.
  - change (y + total (take k (alter f n l)) = y + total (take k l) + (if decide (S n < S k)%nat then 1 else 0)).
    rewrite (IH n k Hx Hf). destruct (decide (n < k)%nat), (decide (S n < S k)%nat); lia.
Qed.
Lemma total_nonneg l : Forall (λ b, 0 ≤ b) l → 0 ≤ total l.
Proof. induction 1; cbn; [done|]. unfold total in *. cbn. lia. Qed.
Lemma total_ge l n x : Forall (λ b, 0 ≤ b) l → l !! n = Some x → x ≤ total l.
Proof.
  intros H. revert n. induction H as [|y l Hy Hl IH]; intros [|n] Hx; cbn in Hx; [done|done|..].
  - injection Hx as ->. cbn. pose proof (total_nonneg l Hl). unfold total in *. cbn. lia.
  - specialize (IH n Hx). unfold total in *. cbn. lia.
Qed.
Lemma total_take_le l k : Forall (λ b, 0 ≤ b) l → 0 ≤ total (take k l) ≤ total l.
Proof.
  intros H. rewrite <-(take_drop k l) at 3. rewrite total_app.
  pose proof (total_nonneg (take k l) (Forall_take _ _ _ H)). pose proof (total_nonneg (drop k l) (Forall_drop _ _ _ H)). lia.
Qed.

Record counts_inv (bs vs : list f64) (h : HistogramValue) : Prop := {
  ci_bounds : bounds h = bs;
  ci_length : length (buckets h) = S (length bs);
  ci_pos : Forall (λ b, 0 ≤ b) (buckets h);
  ci_count : count h = Z.of_nat (length vs);
  ci_total : total (buckets h) = Z.of_nat (length vs);
  ci_le i : (i ≤ length bs)%nat → total (take (S i) (buckets h)) = observed_le bs i vs }.
Lemma counts_inv_observe bs vs h v :
  increasing bs → Z.of_nat (length vs) + 1 < 2 ^ 64 →
  counts_inv bs vs h → counts_inv bs (vs ++ [v]) (observe_value h v).
Proof.
  intros Hinc Hmax [<- Hl Hp Hc Ht Hle]. unfold observe_value.
  pose proof (partition_point_bound (λ b, f64_lt b v) (bounds h)) as Hb.
  set (n := partition_point _ _) in *.
  destruct (lookup_lt_is_Some_2 (buckets h) n) as [x Hx]; [lia|].
  assert (0 ≤ x) by (by eapply Forall_lookup_1 in Hx; [|done]).
  assert (wrap_u 64 (x + 1) = x + 1) as Hw.
  { apply wrap_u_id. split; [lia|]. pose proof (total_ge _ _ _ Hp Hx). lia. }
  split; cbn -[take]; try done.
  - by rewrite length_alter.
  - apply Forall_alter; [done|]. intros y Hy. rewrite Hy in Hx. injection Hx as ->. intros _. lia.
  - rewrite length_app, Hc. cbn. rewrite wrap_u_id; [lia|split; lia].
  - rewrite <-(firstn_all (alter _ _ _)), length_alter, (total_take_alter _ _ _ _ _ Hx Hw), firstn_all, length_app, Ht.
    rewrite decide_True by lia. cbn. lia.
  - intros i Hi. rewrite (total_take_alter _ _ _ _ _ Hx Hw), Hle by done. unfold observed_le.
    rewrite filter_app, length_app.
    pose proof (rank_spec (bounds h) v i Hinc Hi) as Hr. fold n in Hr.
    destruct (decide (n < S i)%nat) as [Hn|Hn].
    + rewrite (filter_cons_True _ _ []) by (apply Hr; lia). rewrite filter_nil. cbn [length]. lia.
    + rewrite (filter_cons_False _ _ []) by (rewrite <-Hr; lia). rewrite filter_nil. cbn [length]. lia.
Qed.
Lemma counts_inv_run bs vs :
  increasing bs → Z.of_nat (length vs) < 2 ^ 64 → counts_inv bs vs (foldl observe_value (histogram_new bs) vs).
Proof.
  intros Hinc. induction vs as [|v vs IH] using rev_ind; intros Hmax.
  - cbn [foldl]. assert (∀ k, total (replicate k 0) = 0) as Hz by (induction k; cbn; [done|by unfold total in *; cbn; lia]).
    split; [done|apply length_replicate|by apply Forall_replicate|done|apply Hz|].
    intros i Hi. cbn [buckets histogram_new]. rewrite take_replicate, Hz. done.
  - rewrite foldl_app. cbn. rewrite length_app in Hmax. cbn in Hmax. apply counts_inv_observe; [done|lia|apply IH; lia].
Qed.

(** The text of the buckets, from prefix sums. *)
Lemma render_buckets_prefix fts key bs l :
  Forall (λ b, 0 ≤ b) l → total l < 2 ^ 64 →
  ∀ k, (k ≤ length l)%nat →
  render_buckets fts key bs k (total (take k l)) (drop k l) =
  texts ((λ i, write_sample (key_name key +:+ "_bucket")
                 (sm_insert "le" (match bs !! i with Some b => fts b | None => "+Inf" end) (key_labels key))
                 (pretty (total (take (S i) l)))) <$> seq k (length l - k)).
Proof.
  intros Hp Ht k Hk. remember (length l - k)%nat as n eqn:En. revert k Hk En.
  induction n as [|n IH]; intros k Hk En.
  - rewrite drop_ge by lia. done.
  - destruct (lookup_lt_is_Some_2 l k) as [x Hx]; [lia|].
    rewrite (drop_S _ _ _ Hx). cbn -[take]. unfold texts in IH |- *. cbn -[take].
    assert (total (take (S k) l) = wrap_u 64 (total (take k l) + x)) as E.
    { pose proof (total_take_le l (S k) Hp). rewrite (take_S_r _ _ _ Hx), total_app in *. cbn in *.
      rewrite Z.add_0_r in *. rewrite wrap_u_id; [done|split; lia]. }
    rewrite <-E. f_equal. rewrite <-IH by lia. done.
Qed.

(** ** The registry *)
Section registry.
Context {W : Type}.
Implicit Types (m : Metrics W) (x : Metric W) (k : MetricKey) (sc : MetricsScope).

(** What is registered: one of the four kinds. *)
Inductive Request :=
| RCounter | RGauge | RHistogram (bounds : option (list f64)) | RObservable (observe : W → f64).
Definition request_kind (r : Request) : MetricKind :=
  match r with RCounter => KCounter | RGauge => KGauge | RHistogram _ => KHistogram | RObservable _ => KObservableGauge end.
Definition register (r : Request) m sc (name help : string) (labels : Labels) : outcome MetricsError (option Handle) * Metrics W :=
  match r with
  | RCounter => prod_map (fmap Some) id (counter m sc name help labels)
  | RGauge => prod_map (fmap Some) id (gauge m sc name help labels)
  | RHistogram bounds => prod_map (fmap Some) id (histogram m sc name help labels bounds)
  | RObservable observe => prod_map (fmap (λ _, None)) id (observable_float64_gauge m sc name help labels observe)
  end.
Definition metric_cell x : option nat :=
  match x with Counter _ c _ _ | Gauge _ c _ _ | Histogram _ c _ _ => Some c | ObservableGauge _ _ _ => None end.
Definition metric_otel x : option Instrument :=
  match x with Counter _ _ o _ | Gauge _ _ o _ | Histogram _ _ o _ | ObservableGauge _ _ o => o end.
Definition metric_handle x : option Handle :=
  match x with
  | Counter _ c o a | Gauge _ c o a | Histogram _ c o a => Some (MkHandle c o a true)
  | ObservableGauge _ _ _ => None
  end.
(** The kind and description of a family: those of its first series. *)
Definition family (reg : list (MetricKey * Metric W)) (name : string) : option (MetricKind * string) :=
  match filter (λ e, key_name e.1 = name) reg with [] => None | (_, x) :: _ => Some (kind x, help x) end.

Lemma validate_family reg name kd h :
  validate_metric_family reg name kd h =
  match family reg name with
  | None => Ok tt
  | Some (kd', h') => if decide (kd' ≠ kd) then Err (TypeConflict name)
                      else if decide (h' ≠ h) then Err (DescriptionConflict name) else Ok tt
  end.
Proof.
  induction reg as [|[k x] reg IH]; [done|]. unfold family in *. cbn [validate_metric_family].
  destruct (decide (key_name k ≠ name)) as [Hne|Heq%dec_stable].
  - by rewrite filter_cons_False.
  - by rewrite filter_cons_True.
Qed.
Lemma family_elem reg name kd h : family reg name = Some (kd, h) → ∃ k x, (k, x) ∈ reg ∧ key_name k = name ∧ kind x = kd ∧ help x = h.
Proof.
  unfold family. destruct (filter _ reg) as [|[k x] l] eqn:E; [done|]. intros [= <- <-].
  assert ((k, x) ∈ filter (λ e : MetricKey * Metric W, key_name e.1 = name) reg) as [Hn Hin]%list_elem_of_filter by (rewrite E; by left).
  by exists k, x.
Qed.
Lemma family_None reg name k x : family reg name = None → (k, x) ∈ reg → key_name k ≠ name.
Proof.
  unfold family. destruct (filter _ reg) as [|[k' x'] l] eqn:E; [|done]. intros _ Hin Hn.
  assert ((k, x) ∈ filter (λ e : MetricKey * Metric W, key_name e.1 = name) reg) as Hf by by apply list_elem_of_filter.
  rewrite E in Hf. by apply elem_of_nil in Hf.
Qed.

Record registry_inv m : Prop := {
  ri_wf : sm_wf (registry m);
  ri_family k1 x1 k2 x2 : (k1, x1) ∈ registry m → (k2, x2) ∈ registry m → key_name k1 = key_name k2 →
    kind x1 = kind x2 ∧ help x1 = help x2;
  ri_cell k x c : (k, x) ∈ registry m → metric_cell x = Some c → (c < next_cell m)%nat;
  ri_distinct k1 x1 k2 x2 c : (k1, x1) ∈ registry m → (k2, x2) ∈ registry m →
    metric_cell x1 = Some c → metric_cell x2 = Some c → k1 = k2;
  ri_heap k x c : (k, x) ∈ registry m → metric_cell x = Some c →
    if decide (kind x = KHistogram) then is_Some (hists m !! c) else is_Some (ints m !! c);
  ri_handle k x h : (k, x) ∈ registry m → metric_handle x = Some h →
    attributes h = key_labels k ∧ (otel h = None ∨ ∃ i, otel h = Some i ∧ i_name i = key_name k);
  ri_otel k x : (k, x) ∈ registry m → metric_otel x = None ↔ meter m = false }.

(** What a registration does, in one equation. *)
Definition created (r : Request) (m : Metrics W) (k : MetricKey) (h : string) : Metric W * Metrics W :=
  let otel b := if meter m then Some (MkInstrument (key_name k) h b) else None in
  match r with
  | RCounter => (Counter h (next_cell m) (otel None) (key_labels k), (alloc_int m).2)
  | RGauge => (Gauge h (next_cell m) (otel None) (key_labels k), (alloc_int m).2)
  | RHistogram b =>
      let b := default default_duration_bounds b in
      (Histogram h (next_cell m) (otel (Some b)) (key_labels k), (alloc_hist m (histogram_new b)).2)
  | RObservable observe => (ObservableGauge h observe (otel None), m)
  end.
Definition created_registry r m k h : Metrics W :=
  let '(x, m') := created r m k h in set_registry m' (sm_insert k x (registry m)).
Lemma register_spec r m sc name h labels :
  registry_inv m → noop m = false →
  let k := scope_key sc name labels in
  register r m sc name h labels =
  match family (registry m) (key_name k) with
  | Some (kd, h') =>
      if decide (kd ≠ request_kind r) then (Err (TypeConflict (key_name k)), m)
      else if decide (h' ≠ h) then (Err (DescriptionConflict (key_name k)), m)
      else match sm_get k (registry m) with
           | Some x => (Ok (metric_handle x), m)
           | None => (Ok (metric_handle (created r m k h).1), created_registry r m k h)
           end
  | None => (Ok (metric_handle (created r m k h).1), created_registry r m k h)
  end.
Proof.
  intros Hinv Hn k.
  assert (Hnone : family (registry m) (key_name k) = None → sm_get k (registry m) = None).
  { intros Hf. destruct (sm_get k (registry m)) as [x|] eqn:E; [|done].
    by apply sm_get_elem in E; eapply family_None in E; [|done]. }
  assert (Hkind : ∀ kd h' x, family (registry m) (key_name k) = Some (kd, h') → sm_get k (registry m) = Some x → kind x = kd).
  { intros kd h' x (k' & x' & Hin & Hname & <- & _)%family_elem Hx%sm_get_elem. by eapply ri_family. }
  unfold register, counter, gauge, histogram, observable_float64_gauge. rewrite Hn. fold k. rewrite !validate_family.
  destruct (family (registry m) (key_name k)) as [[kd h']|] eqn:Ef.
  - specialize (Hkind kd h'). destruct (sm_get k (registry m)) as [x|] eqn:Ex;
      [specialize (Hkind x eq_refl eq_refl)|clear Hkind];
      destruct r; cbn [request_kind]; destruct (decide (kd ≠ _)) as [|Hk%dec_stable]; try done;
      destruct (decide (h' ≠ h)); try done; subst kd; destruct x; done.
  - rewrite Hnone by done. by destruct r.
Qed.

(** Every operation on the registry or on a handle; handles are arbitrary. *)
Inductive metrics_step : Metrics W → Metrics W → Prop :=
| ms_register r m sc name h labels : metrics_step m (register r m sc name h labels).2
| ms_counter_add m h v : metrics_step m (counter_add m h v)
| ms_gauge_add m h v : metrics_step m (gauge_add m h v)
| ms_gauge_set m h v : metrics_step m (gauge_set m h v)
| ms_observe m h v : metrics_step m (observe m h v).
Definition metrics_reachable m : Prop :=
  ∃ m0, m0 ∈ [metrics_new; metrics_noop; with_meter] ∧ rtc metrics_step m0 m.

Lemma registry_inv_created r m k h :
  registry_inv m → sm_get k (registry m) = None →
  (∀ k' x', (k', x') ∈ registry m → key_name k' = key_name k → kind x' = request_kind r ∧ help x' = h) →
  registry_inv (created_registry r m k h).
Proof.
  intros [Hwf Hfam Hcell Hdist Hheap Hhandle Hotel] Hk Hsame. unfold created_registry.
  destruct (created r m k h) as [x m'] eqn:E.
  assert (kind x = request_kind r ∧ help x = h) as [Hkx Hhx] by (destruct r; by injection E as <- <-).
  assert ((next_cell m ≤ next_cell m')%nat ∧ registry m' = registry m ∧ meter m' = meter m) as (Hnext & Hreg & Hmeter)
    by (destruct r; injection E as <- <-; cbn; repeat split; lia).
  assert (∀ c, metric_cell x = Some c → c = next_cell m ∧ (c < next_cell m')%nat) as Hx
    by (intros c Hc; destruct r; injection E as <- <-; cbn in *; simplify_eq; lia).
  split; cbn [registry set_registry next_cell ints hists meter].
  - by apply sm_insert_wf.
  - intros k1 x1 k2 x2 [[= -> ->]|H1]%elem_of_insert [[= -> ->]|H2]%elem_of_insert Hname; [done| | |by eapply Hfam].
    + destruct (Hsame _ _ H2) as [-> ->]; done.
    + destruct (Hsame _ _ H1) as [-> ->]; done.
  - intros k1 x1 c [[= -> ->]|H1]%elem_of_insert Hc; [by apply Hx|]. specialize (Hcell _ _ _ H1 Hc). lia.
  - intros k1 x1 k2 x2 c [[= -> ->]|H1]%elem_of_insert [[= -> ->]|H2]%elem_of_insert Hc1 Hc2; [done| | |by eapply Hdist].
    + specialize (Hcell _ _ _ H2 Hc2). apply Hx in Hc1. lia.
    + specialize (Hcell _ _ _ H1 Hc1). apply Hx in Hc2. lia.
  - intros k1 x1 c [[= -> ->]|H1]%elem_of_insert Hc.
    + destruct r; injection E as <- <-; cbn in *; simplify_eq; rewrite lookup_insert_eq; by case_decide.
    + specialize (Hheap _ _ _ H1 Hc). specialize (Hcell _ _ _ H1 Hc).
      destruct r; injection E as <- <-; cbn in *; try done; destruct (decide (kind x1 = _)); try done;
        by rewrite lookup_insert_ne by lia.
  - intros k1 x1 hd [[= -> ->]|H1]%elem_of_insert Hh; [|by eapply Hhandle].
    destruct r; injection E as <- <-; cbn in *; simplify_eq; cbn; (split; [done|]); destruct (meter m); eauto.
  - intros k1 x1 [[= -> ->]|H1]%elem_of_insert; rewrite Hmeter; [|by eapply Hotel].
    destruct r; injection E as <- <-; cbn; by destruct (meter m).
Qed.
(** Writing to cells keeps the registry. *)
Lemma registry_inv_cells m m' :
  registry m' = registry m → meter m' = meter m → next_cell m' = next_cell m →
  (∀ c, is_Some (ints m !! c) → is_Some (ints m' !! c)) → (∀ c, is_Some (hists m !! c) → is_Some (hists m' !! c)) →
  registry_inv m → registry_inv m'.
Proof.
  intros Er Em En Hi Hh [Hwf Hfam Hcell Hdist Hheap Hhandle Hotel]. split; rewrite ?Er, ?Em, ?En; try done.
  intros k x c H1 Hc. specialize (Hheap _ _ _ H1 Hc). destruct (decide (kind x = KHistogram)); auto.
Qed.
Lemma is_Some_alter {A} (f : A → A) i (g : gmap nat A) c : is_Some (g !! c) → is_Some (alter f i g !! c).
Proof. intros H. destruct (decide (i = c)) as [->|]; [rewrite lookup_alter_eq; by apply fmap_is_Some|by rewrite lookup_alter_ne]. Qed.
Lemma registry_inv_register r m sc name h labels : registry_inv m → registry_inv (register r m sc name h labels).2.
Proof.
  intros Hinv. destruct (noop m) eqn:Hn.
  - assert (∀ hv, registry_inv (alloc_int m).2 ∧ registry_inv (alloc_hist m hv).2) as Halloc.
    { intros hv. destruct Hinv as [Hwf Hfam Hcell Hdist Hheap Hhandle Hotel]. split; split; cbn; try done.
      - intros k x c H1 Hc. specialize (Hcell _ _ _ H1 Hc). lia.
      - intros k x c H1 Hc. specialize (Hcell _ _ _ H1 Hc). specialize (Hheap _ _ _ H1 Hc).
        by rewrite lookup_insert_ne by lia.
      - intros k x c H1 Hc. specialize (Hcell _ _ _ H1 Hc). lia.
      - intros k x c H1 Hc. specialize (Hcell _ _ _ H1 Hc). specialize (Hheap _ _ _ H1 Hc).
        by rewrite lookup_insert_ne by lia. }
    destruct (Halloc (MkHistogram [] [] 0 f64_zero)).
    destruct r; unfold register, counter, gauge, histogram, observable_float64_gauge; by rewrite Hn.
  - rewrite register_spec by done. set (k := scope_key sc name labels).
    destruct (family (registry m) (key_name k)) as [[kd h']|] eqn:Ef.
    + destruct (decide (kd ≠ request_kind r)) as [|Hk%dec_stable]; [done|].
      destruct (decide (h' ≠ h)) as [|Hh%dec_stable]; [done|]. subst kd h'.
      destruct (sm_get k (registry m)) as [x|] eqn:Ex; [done|].
      apply registry_inv_created; [done..|]. intros k' x' Hin Hname.
      apply family_elem in Ef as (k0 & x0 & Hin0 & Hname0 & Hk0 & Hh0).
      destruct (ri_family m Hinv k' x' k0 x0 Hin Hin0) as [-> ->]; [congruence|done].
    + apply registry_inv_created; [done| |].
      * destruct (sm_get k (registry m)) as [x|] eqn:Ex; [|done]. apply sm_get_elem in Ex. by eapply family_None in Ex.
      * intros k' x' Hin Hname. by destruct (family_None _ _ _ _ Ef Hin).
Qed.
Lemma metrics_step_inv m m' : metrics_step m m' → registry_inv m → registry_inv m'.
Proof.
  intros Hs Hinv. destruct Hs as [r m sc name h labels|m h v|m h v|m h v|m h v]; [by apply registry_inv_register|..].
  all: unfold counter_add, gauge_add, gauge_set, gauge_fetch_add, gauge_swap, gauge_export, observe.
  all: destruct (enabled h); [|done]; destruct (otel h).
  all: apply (registry_inv_cells m); cbn; auto using is_Some_alter.
Qed.
Lemma metrics_reachable_inv m : metrics_reachable m → registry_inv m.
Proof.
  intros (m0 & Hm0 & Hr).
  assert (registry_inv m0) as H0.
  { repeat (apply elem_of_cons in Hm0 as [->|Hm0]); [..|by apply elem_of_nil in Hm0].
    all: split; cbn; [constructor|intros; set_solver..]. }
  clear Hm0. revert H0. induction Hr as [|m1 m2 m3 Hs Hr IH]; [done|]. intros H0. apply IH. by eapply metrics_step_inv.
Qed.
Lemma family_unique m k x : registry_inv m → (k, x) ∈ registry m → family (registry m) (key_name k) = Some (kind x, help x).
Proof.
  intros Hinv Hin. destruct (family (registry m) (key_name k)) as [[kd h]|] eqn:E.
  - apply family_elem in E as (k' & x' & Hin' & Hn & <- & <-). by destruct (ri_family m Hinv k' x' k x Hin' Hin Hn) as [-> ->].
  - by destruct (family_None _ _ _ _ E Hin).
Qed.

(** Series of one name have one kind and one description, and no two
    series share a value, after any sequence of registrations and updates.  A
    registration whose kind or description differs from its family's is
    refused and changes nothing; one that agrees returns the series of its
    labels, created if it is new, and leaves the others alone. *)
Theorem metric_families_consistent m :
  metrics_reachable m → noop m = false →
  (∀ k1 x1 k2 x2, (k1, x1) ∈ registry m → (k2, x2) ∈ registry m →
     (key_name k1 = key_name k2 → kind x1 = kind x2 ∧ help x1 = help x2) ∧
     (∀ c, metric_cell x1 = Some c → metric_cell x2 = Some c → k1 = k2)) ∧
  ∀ r sc name h labels, let k := scope_key sc name labels in
    (∀ k' x', (k', x') ∈ registry m → key_name k' = key_name k → kind x' ≠ request_kind r →
       register r m sc name h labels = (Err (TypeConflict (key_name k)), m)) ∧
    (∀ k' x', (k', x') ∈ registry m → key_name k' = key_name k → kind x' = request_kind r → help x' ≠ h →
       register r m sc name h labels = (Err (DescriptionConflict (key_name k)), m)) ∧
    ((∀ k' x', (k', x') ∈ registry m → key_name k' = key_name k → kind x' = request_kind r ∧ help x' = h) →
     ∃ x m', register r m sc name h labels = (Ok (metric_handle x), m') ∧
       sm_get k (registry m') = Some x ∧ kind x = request_kind r ∧ help x = h ∧
       (∀ k', k' ≠ k → sm_get k' (registry m') = sm_get k' (registry m)) ∧
       (is_Some (sm_get k (registry m)) → m' = m)).
Proof.
  intros Hinv%metrics_reachable_inv Hn. split.
  { intros k1 x1 k2 x2 H1 H2. split; [by eapply ri_family|]. intros c. by eapply ri_distinct. }
  intros r sc name h labels k. rewrite register_spec by done. fold k. split_and!.
  - intros k' x' Hin <- Hk. by rewrite (family_unique _ _ _ Hinv Hin), decide_True.
  - intros k' x' Hin <- Hk Hh. by rewrite (family_unique _ _ _ Hinv Hin), decide_False, decide_True by tauto.
  - intros Hsame. destruct (sm_get k (registry m)) as [x|] eqn:Ex.
    + pose proof (sm_get_elem _ _ _ Ex) as Hin. destruct (Hsame _ _ Hin eq_refl) as [Hk Hh].
      rewrite (family_unique _ _ _ Hinv Hin), !decide_False by tauto. by exists x, m.
    + exists (created r m k h).1, (created_registry r m k h). split.
      * destruct (family (registry m) (key_name k)) as [[kd h']|] eqn:Ef; [|done].
        apply family_elem in Ef as (k0 & x0 & Hin0 & Hname0 & <- & <-).
        destruct (Hsame _ _ Hin0 Hname0). by rewrite !decide_False by tauto.
      * unfold created_registry. destruct (created r m k h) as [x m'] eqn:E. cbn.
        split_and!; [apply sm_get_insert|by destruct r; injection E as <- <-..| |by intros []].
        intros k' Hk'. by apply sm_get_insert_ne.
Qed.
End registry.

(** ** Concurrent gauges with a meter *)
Lemma wrap_s_cong z : ∃ q, wrap_s 64 z = z + q * 2 ^ 64.
Proof.
  exists (- ((z + 2 ^ (64 - 1)) / 2 ^ 64)). unfold wrap_s.
  pose proof (Z.div_mod (z + 2 ^ (64 - 1)) (2 ^ 64) ltac:(lia)). lia.
Qed.
Lemma wrap_s_range z : in_s 64 (wrap_s 64 z).
Proof. unfold in_s, wrap_s. pose proof (Z.mod_pos_bound (z + 2 ^ (64 - 1)) (2 ^ 64) ltac:(lia)). lia. Qed.

Section gauges.
Context {W : Type}.
(** The registry and the gauge calls that wrote their cell but not yet the
    instrument. *)
Record GaugeRun := MkRun { run_metrics : Metrics W; in_flight : list (Handle * Z) }.
Implicit Types (g : GaugeRun) (m : Metrics W) (k : MetricKey) (x : Metric W) (h : Handle).
Definition owns m (kd : MetricKind) h : Prop := ∃ k x, (k, x) ∈ registry m ∧ kind x = kd ∧ metric_handle x = Some h.
Inductive gauge_step : GaugeRun → GaugeRun → Prop :=
| gs_register g r sc name help labels :
    gauge_step g (MkRun (register r (run_metrics g) sc name help labels).2 (in_flight g))
| gs_add g h v d m : owns (run_metrics g) KGauge h → in_s 64 v → gauge_fetch_add (run_metrics g) h v = (d, m) →
    gauge_step g (MkRun m (in_flight g ++ [(h, d)]))
| gs_set g h v d m : owns (run_metrics g) KGauge h → in_s 64 v → gauge_swap (run_metrics g) h v = (d, m) →
    gauge_step g (MkRun m (in_flight g ++ [(h, d)]))
| gs_export g l1 h d l2 : in_flight g = l1 ++ (h, d) :: l2 →
    gauge_step g (MkRun (gauge_export (run_metrics g) h d) (l1 ++ l2))
| gs_counter g h v : owns (run_metrics g) KCounter h → gauge_step g (MkRun (counter_add (run_metrics g) h v) (in_flight g))
| gs_observe g h v : owns (run_metrics g) KHistogram h → gauge_step g (MkRun (observe (run_metrics g) h v) (in_flight g)).

(** What the instrument of a series received, and what is still to come. *)
Definition exported_value k (e : OtelEvent) : option Z :=
  match e with UpDownAdd i v a => if decide (i_name i = key_name k ∧ a = key_labels k) then Some v else None | _ => None end.
Definition exported_sum k (es : list OtelEvent) : Z := total (omap (exported_value k) es).
Definition pending_sum (c : nat) (l : list (Handle * Z)) : Z :=
  total (omap (λ hd, if decide (cell hd.1 = c) then Some hd.2 else None) l).
Lemma exported_sum_snoc k es e : exported_sum k (es ++ [e]) = exported_sum k es + default 0 (exported_value k e).
Proof. unfold exported_sum. rewrite omap_app, total_app. cbn. destruct (exported_value k e); cbn; lia. Qed.
Lemma pending_sum_app c l1 l2 : pending_sum c (l1 ++ l2) = pending_sum c l1 + pending_sum c l2.
Proof. unfold pending_sum. by rewrite omap_app, total_app. Qed.
Lemma pending_sum_cons c h d l : pending_sum c ((h, d) :: l) = (if decide (cell h = c) then d else 0) + pending_sum c l.
Proof. unfold pending_sum. cbn. by destruct (decide (cell h = c)). Qed.
Lemma pending_sum_snoc c h d l : pending_sum c (l ++ [(h, d)]) = pending_sum c l + (if decide (cell h = c) then d else 0).
Proof. rewrite pending_sum_app, pending_sum_cons. unfold pending_sum at 2. cbn. lia. Qed.

Record run_inv g : Prop := {
  gi_registry : registry_inv (run_metrics g);
  gi_meter : meter (run_metrics g) = true ∧ noop (run_metrics g) = false;
  gi_owned : Forall (λ hd, owns (run_metrics g) KGauge hd.1) (in_flight g);
  gi_events i v a : UpDownAdd i v a ∈ exported (run_metrics g) →
    ∃ k x, (k, x) ∈ registry (run_metrics g) ∧ i_name i = key_name k ∧ a = key_labels k;
  gi_value k x c : (k, x) ∈ registry (run_metrics g) → kind x = KGauge → metric_cell x = Some c →
    ∃ v q, ints (run_metrics g) !! c = Some v ∧ in_s 64 v ∧
      v = exported_sum k (exported (run_metrics g)) + pending_sum c (in_flight g) + q * 2 ^ 64 }.

Lemma exported_sum_absent k es :
  (∀ i v a, UpDownAdd i v a ∈ es → ¬ (i_name i = key_name k ∧ a = key_labels k)) → exported_sum k es = 0.
Proof.
  intros Hab. unfold exported_sum. induction es as [|e es IH]; [done|]. cbn.
  assert (exported_value k e = None) as ->.
  { destruct e as [| i v a |]; try done. cbn. apply decide_False. apply (Hab i v a). by left. }
  apply IH. intros i v a Hin. apply (Hab i v a). by right.
Qed.
Lemma pending_sum_absent c l : Forall (λ hd : Handle * Z, cell hd.1 ≠ c) l → pending_sum c l = 0.
Proof. induction 1 as [|[h d] l Hne _ IH]; [done|]. rewrite pending_sum_cons, IH, decide_False by done. done. Qed.
Lemma metric_handle_cell x h : metric_handle x = Some h → metric_cell x = Some (cell h).
Proof. destruct x; cbn; by intros [= <-]. Qed.
Lemma handle_key m k x k' x' h c :
  registry_inv m → (k, x) ∈ registry m → (k', x') ∈ registry m → metric_handle x' = Some h → metric_cell x = Some c →
  cell h = c ↔ k' = k.
Proof.
  intros Hinv Hin Hin' Hh%metric_handle_cell Hc. split.
  - intros <-. by eapply (ri_distinct m Hinv k' x' k x).
  - intros ->. apply sm_elem_get in Hin, Hin'; try apply Hinv. congruence.
Qed.

Lemma run_inv_register g r sc name help labels :
  run_inv g → run_inv (MkRun (register r (run_metrics g) sc name help labels).2 (in_flight g)).
Proof.
  intros [Hreg [Hme Hno] Hown Hev Hval].
  pose proof (registry_inv_register r _ sc name help labels Hreg) as Hreg'.
  set (k0 := scope_key sc name labels). set (m := run_metrics g) in *.
  assert ((register r m sc name help labels).2 = m ∨
          (sm_get k0 (registry m) = None ∧ (register r m sc name help labels).2 = created_registry r m k0 help)) as [E|[Hnew E]].
  { rewrite register_spec by done. fold k0. destruct (sm_get k0 (registry m)) as [x|] eqn:Ex.
    - left. rewrite (family_unique _ _ _ Hreg (sm_get_elem _ _ _ Ex)). by repeat case_decide.
    - destruct (family (registry m) (key_name k0)) as [[kd h']|]; repeat case_decide; eauto. }
  { rewrite E. by split. }
  rewrite E in *. unfold created_registry in *. destruct (created r m k0 help) as [x0 m'] eqn:Ec.
  assert (registry m' = registry m ∧ meter m' = meter m ∧ noop m' = noop m ∧ exported m' = exported m) as (E1 & E2 & E3 & E4)
    by (destruct r; by injection Ec as <- <-).
  assert (∀ k x, (k, x) ∈ registry m → (k, x) ∈ sm_insert k0 x0 (registry m)) as Hkeep.
  { intros k x Hin. apply sm_get_elem. rewrite sm_get_insert_ne; [by apply sm_elem_get; [apply Hreg|]|].
    intros ->. apply sm_elem_get in Hin; [congruence|apply Hreg]. }
  split; cbn [run_metrics in_flight set_registry meter noop registry exported ints].
  - done.
  - by rewrite E2, E3.
  - eapply Forall_impl; [exact Hown|]. intros [h d] (k & x & Hin & Hk & Hh). exists k, x. auto.
  - rewrite E4. intros i v a (k & x & Hin & Hk)%Hev. exists k, x. auto.
  - rewrite E4. intros k x c [[= -> ->]|Hin]%elem_of_insert Hk Hc.
    + exists 0, 0. destruct r; injection Ec as <- <-; cbn in Hk, Hc; try done. injection Hc as <-. cbn [ints alloc_int snd].
      rewrite lookup_insert_eq. split; [done|]. split; [done|].
      rewrite exported_sum_absent, pending_sum_absent; [done|..].
      * eapply Forall_impl; [exact Hown|]. intros [h d] (k & x & Hin & _ & Hh%metric_handle_cell).
        pose proof (ri_cell m Hreg _ _ _ Hin Hh). cbn in *. lia.
      * intros i v a (k & x & Hin & -> & ->)%Hev [Hn Hl]. apply sm_elem_get in Hin; [|apply Hreg].
        destruct k as [n l], k0 as [n0 l0]; cbn in Hn, Hl; subst. by rewrite Hnew in Hin.
    + destruct (Hval _ _ _ Hin Hk Hc) as (v & q & Hv & Hs & Hq). exists v, q. split; [|done].
      pose proof (ri_cell m Hreg _ _ _ Hin Hc).
      destruct r; injection Ec as <- <-; cbn; try done; by rewrite lookup_insert_ne by lia.
Qed.
(** A gauge call writes its cell: the value changes by the difference it will
    export. *)
Lemma run_inv_write g h d (f : Z → Z) :
  run_inv g → owns (run_metrics g) KGauge h →
  (∀ v, ints (run_metrics g) !! cell h = Some v → in_s 64 (f v) ∧ ∃ q, f v = v + d + q * 2 ^ 64) →
  run_inv (MkRun (set_ints (run_metrics g) (alter f (cell h) (ints (run_metrics g)))) (in_flight g ++ [(h, d)])).
Proof.
  intros [Hreg [Hme Hno] Hown Hev Hval] Hh Hf. destruct Hh as (k0 & x0 & Hin0 & Hk0 & Hh0).
  split; cbn [run_metrics in_flight set_ints meter noop registry exported ints]; try done.
  - apply (registry_inv_cells (run_metrics g)); [done..| |done|done]. cbn. intros c. apply is_Some_alter.
  - apply Forall_app. split; [done|]. constructor; [|done]. by exists k0, x0.
  - intros k x c Hin Hk Hc. destruct (Hval _ _ _ Hin Hk Hc) as (v & q & Hv & Hs & Hq).
    rewrite pending_sum_snoc. destruct (decide (cell h = c)) as [<-|Hne].
    + destruct (Hf v Hv) as [Hs' [q' Hq']]. exists (f v), (q + q'). rewrite lookup_alter_eq, Hv. cbn. split; [done|].
      split; [done|lia].
    + exists v, q. rewrite lookup_alter_ne by done. split; [done|]. split; [done|lia].
Qed.
Lemma run_inv_export g l1 h d l2 :
  run_inv g → in_flight g = l1 ++ (h, d) :: l2 → run_inv (MkRun (gauge_export (run_metrics g) h d) (l1 ++ l2)).
Proof.
  intros [Hreg [Hme Hno] Hown Hev Hval] E. rewrite E in *.
  apply Forall_app in Hown as [Hown1 Hown2]. apply Forall_cons in Hown2 as [(k0 & x0 & Hin0 & Hk0 & Hh0) Hown2]. cbn in Hh0.
  destruct (ri_handle _ Hreg _ _ _ Hin0 Hh0) as [Ha Ho].
  assert (∃ i, otel h = Some i ∧ i_name i = key_name k0) as (i & Hi & Hni).
  { destruct Ho as [Ho|Ho]; [|done]. assert (metric_otel x0 = None) as Hx by (destruct x0; cbn in *; simplify_eq; done).
    apply (ri_otel _ Hreg _ _ Hin0) in Hx. congruence. }
  unfold gauge_export. rewrite Hi.
  split; cbn [run_metrics in_flight export meter noop registry exported ints]; try done.
  - by apply (registry_inv_cells (run_metrics g)).
  - by apply Forall_app.
  - intros i' v a [Hin|[= -> -> ->]%list_elem_of_singleton]%elem_of_app; [by eapply Hev|]. exists k0, x0. auto.
  - intros k x c Hin Hk Hc. destruct (Hval _ _ _ Hin Hk Hc) as (v & q & Hv & Hs & Hq). exists v, q. split; [done|]. split; [done|].
    rewrite exported_sum_snoc, Hq, !pending_sum_app, pending_sum_cons. cbn.
    pose proof (handle_key _ k x k0 x0 h c Hreg Hin Hin0 Hh0 Hc) as Hkey.
    assert (i_name i = key_name k ∧ attributes h = key_labels k ↔ k0 = k) as Hname.
    { rewrite Hni, Ha. split; [|by intros ->]. intros [? ?]. destruct k0, k; cbn in *; congruence. }
    destruct (decide (cell h = c)) as [Hc'|Hc']; [rewrite decide_True by tauto|rewrite decide_False by tauto]; cbn; lia.
Qed.
Lemma gauge_step_inv g g' : gauge_step g g' → run_inv g → run_inv g'.
Proof.
  intros Hs Hinv. destruct Hs as [g r sc name help labels|g h v d m Hh Hv [= <- <-]|g h v d m Hh Hv [= <- <-]|g l1 h d l2 E|g h v Hh|g h v Hh].
  - by apply run_inv_register.
  - apply run_inv_write; [done..|]. intros x _. split; [apply wrap_s_range|]. destruct (wrap_s_cong (x + v)) as [q Hq]. eauto.
  - apply (run_inv_write g h _ (λ _, v)); [done..|]. intros x Hx. rewrite Hx. cbn. split; [done|].
    destruct (wrap_s_cong (v - x)) as [q Hq]. exists (- q). lia.
  - by apply run_inv_export.
  - destruct Hinv as [Hreg [Hme Hno] Hown Hev Hval]. destruct Hh as (k0 & x0 & Hin0 & Hk0 & Hh0).
    destruct (ri_handle _ Hreg _ _ _ Hin0 Hh0) as [Ha Ho]. unfold counter_add. destruct (enabled h); [|by split].
    destruct (otel h) as [i|] eqn:Hi.
    + split; cbn [run_metrics in_flight export meter noop registry exported ints]; try done.
      * by apply (registry_inv_cells (run_metrics g)).
      * intros i' v' a [Hin|Hin%list_elem_of_singleton]%elem_of_app; [by eapply Hev|done].
      * intros k x c Hin Hk Hc. rewrite exported_sum_snoc. cbn. rewrite Z.add_0_r. by eapply Hval.
    + assert (metric_otel x0 = None) as Hx by (destruct x0; cbn in *; simplify_eq; done).
      apply (ri_otel _ Hreg _ _ Hin0) in Hx. congruence.
  - destruct Hinv as [Hreg [Hme Hno] Hown Hev Hval]. unfold observe. destruct (enabled h); [|by split].
    destruct (otel h) as [i|]; split; cbn [run_metrics in_flight export set_hists meter noop registry exported ints hists]; try done.
    1, 4: apply (registry_inv_cells (run_metrics g)); try done; cbn; intros c; apply is_Some_alter.
    + intros i' v' a [Hin|Hin%list_elem_of_singleton]%elem_of_app; [by eapply Hev|done].
    + intros k x c Hin Hk Hc. rewrite exported_sum_snoc. cbn. rewrite Z.add_0_r. by eapply Hval.
Qed.
Lemma gauge_run_inv g : rtc gauge_step (MkRun with_meter []) g → run_inv g.
Proof.
  intros Hr. assert (run_inv (MkRun with_meter [])) as H0.
  { split; cbn; [|done|constructor|intros; set_solver..]. split; cbn; [constructor|intros; set_solver..]. }
  revert H0. induction Hr as [|g1 g2 g3 Hs Hr IH]; [done|]. intros H0. apply IH. by eapply gauge_step_inv.
Qed.

(** With a meter, gauges shared by concurrent adds and sets export what
    they hold: whenever no call is between its two writes, the sum of the
    exported differences of a series is, as a 64-bit integer, the value of
    its cell. *)
Theorem gauge_export_agrees g k text c o a :
  rtc gauge_step (MkRun with_meter []) g → in_flight g = [] → (k, Gauge text c o a) ∈ registry (run_metrics g) →
  ints (run_metrics g) !! c = Some (wrap_s 64 (exported_sum k (exported (run_metrics g)))).
Proof.
  intros Hinv%gauge_run_inv Hf Hin. destruct (gi_value g Hinv _ _ c Hin eq_refl eq_refl) as (v & q & Hv & Hs & Hq).
  rewrite Hv, Hf in *. f_equal. unfold pending_sum in Hq. cbn in Hq.
  destruct (wrap_s_cong (exported_sum k (exported (run_metrics g)))) as [q' Hq'].
  pose proof (wrap_s_range (exported_sum k (exported (run_metrics g)))) as Hs'. unfold in_s in *. lia.
Qed.
End gauges.

(** ** Families in the text exposition *)
Section families.
Context {W : Type} (f64_to_string : f64 → string) (world : W).
Implicit Types (m : Metrics W) (reg : list (MetricKey * Metric W)).
Fixpoint family_names reg : list string :=
  match reg with
  | [] => []
  | (k, _) :: reg =>
      match family_names reg with
      | n :: ns => if decide (n = key_name k) then n :: ns else key_name k :: n :: ns
      | [] => [key_name k]
      end
  end.
Definition members reg (n : string) : list (MetricKey * Metric W) := filter (λ e, key_name e.1 = n) reg.
Definition render_samples m (es : list (MetricKey * Metric W)) : string :=
  texts ((λ e, render_metric f64_to_string world m e.1 e.2) <$> es).
Definition family_header (es : list (MetricKey * Metric W)) : string :=
  match es with [] => "" | (k, x) :: _ => render_header k x end.
(** A family: one header, then all its series. *)
Definition render_family m reg (n : string) : string :=
  family_header (members reg n) +:+ render_samples m (members reg n).

Lemma texts_cons s l : texts (s :: l) = s +:+ texts l.
Proof. done. Qed.

Lemma family_names_elem reg n : n ∈ family_names reg ↔ ∃ k x, (k, x) ∈ reg ∧ key_name k = n.
Proof.
  induction reg as [|[k x] reg IH]; cbn; [split; [set_solver|by intros (?&?&?%elem_of_nil&_)]|].
  assert (n ∈ match family_names reg with n :: ns => if decide (n = key_name k) then n :: ns else key_name k :: n :: ns | [] => [key_name k] end
          ↔ n = key_name k ∨ n ∈ family_names reg) as ->.
  { destruct (family_names reg) as [|n' ns]; [set_solver|]. destruct (decide (n' = key_name k)) as [->|]; set_solver. }
  rewrite IH. split.
  - intros [->|(k' & x' & Hin & <-)]; [exists k, x|exists k', x']; set_solver.
  - intros (k' & x' & [[= -> ->]|Hin]%elem_of_cons & <-); [by left|right; eauto].
Qed.
Lemma key_compare k k' :
  compare k k' = match compare (key_name k) (key_name k') with Eq => compare (key_labels k) (key_labels k') | c => c end.
Proof. done. Qed.
(** Series of one name are adjacent, since the name is compared first. *)
Lemma family_names_head k x reg :
  sm_wf ((k, x) :: reg) → key_name k ∈ family_names reg → ∃ ns, family_names reg = key_name k :: ns.
Proof.
  intros [Hwf Hall]%StronglySorted_inv (k' & x' & Hin & Hn)%family_names_elem.
  destruct reg as [|[k1 x1] reg]; [by apply elem_of_nil in Hin|].
  assert (key_name k1 = key_name k) as E.
  { apply Forall_cons in Hall as [H1 Hall]. apply elem_of_cons in Hin as [[= -> ->]|Hin]; [done|].
    apply StronglySorted_inv in Hwf as [_ H2]. rewrite Forall_forall in H2. specialize (H2 _ Hin).
    unfold key_lt in H1, H2. cbn [fst] in H1, H2. rewrite key_compare in H1, H2. rewrite Hn in H2.
    rewrite (compare_opp (key_name k) (key_name k1)) in H2.
    destruct (compare (key_name k) (key_name k1)) eqn:Ec; cbn in *; [by apply compare_Eq in Ec|done|done]. }
  cbn. destruct (family_names reg) as [|n' ns]; [by rewrite E; eauto|].
  destruct (decide (n' = key_name k1)) as [->|]; rewrite E; eauto.
Qed.
Lemma family_names_NoDup reg : sm_wf reg → NoDup (family_names reg).
Proof.
  induction reg as [|[k x] reg IH]; intros Hwf; [constructor|].
  pose proof (family_names_head _ _ _ Hwf) as Hh. apply StronglySorted_inv in Hwf as [Hwf _]. specialize (IH Hwf). cbn.
  destruct (family_names reg) as [|n ns]; [apply NoDup_singleton|].
  destruct (decide (n = key_name k)) as [|Hne]; [done|]. apply NoDup_cons. split; [|done].
  intros Hin. destruct (Hh Hin) as [ns' [= ? ?]]. done.
Qed.
Lemma members_cons_ne k x reg n : key_name k ≠ n → members ((k, x) :: reg) n = members reg n.
Proof. intros Hne. unfold members. by rewrite filter_cons_False. Qed.
Lemma members_cons_eq k x reg : members ((k, x) :: reg) (key_name k) = (k, x) :: members reg (key_name k).
Proof. unfold members. by rewrite filter_cons_True. Qed.
Lemma members_absent reg n : n ∉ family_names reg → members reg n = [].
Proof.
  intros Hn. unfold members. destruct (filter _ reg) as [|[k x] l] eqn:E; [done|].
  assert ((k, x) ∈ filter (λ e : MetricKey * Metric W, key_name e.1 = n) reg) as [Hk Hin]%list_elem_of_filter by (rewrite E; by left).
  destruct Hn. apply family_names_elem. eauto.
Qed.
Lemma render_loop_families m reg rendered :
  sm_wf reg →
  render_loop f64_to_string world m rendered reg =
  texts ((λ n, (if decide (n ∈ rendered) then "" else family_header (members reg n)) +:+ render_samples m (members reg n))
         <$> family_names reg).
Proof.
  revert rendered. induction reg as [|[k x] reg IH]; intros rendered Hwf; [done|].
  pose proof (family_names_head _ _ _ Hwf) as Hh. pose proof (family_names_NoDup _ Hwf) as Hnd.
  apply StronglySorted_inv in Hwf as [Hwf _]. cbn [render_loop]. rewrite IH by done. clear IH.
  assert (Hother : ∀ ns, key_name k ∉ ns →
    texts ((λ n, (if decide (n ∈ {[key_name k]} ∪ rendered) then "" else family_header (members reg n)) +:+ render_samples m (members reg n)) <$> ns) =
    texts ((λ n, (if decide (n ∈ rendered) then "" else family_header (members ((k, x) :: reg) n)) +:+
                 render_samples m (members ((k, x) :: reg) n)) <$> ns)).
  { intros ns Hns. f_equal. apply list_fmap_ext. intros i n Hn. apply list_elem_of_lookup_2 in Hn.
    assert (key_name k ≠ n) by set_solver. rewrite members_cons_ne by done. f_equal.
    destruct (decide (n ∈ rendered)), (decide (n ∈ {[key_name k]} ∪ rendered)); set_solver. }
  destruct (decide (key_name k ∈ family_names reg)) as [Hin|Hin].
  - destruct (Hh Hin) as [ns Hns]. 
    assert (family_names ((k, x) :: reg) = key_name k :: ns) as E by (cbn [family_names]; by rewrite Hns, decide_True).
    rewrite E, Hns in *.
    apply NoDup_cons in Hnd as [Hk _]. rewrite !fmap_cons, !texts_cons, Hother by done.
    rewrite (decide_True (P := key_name k ∈ ({[key_name k]} ∪ rendered : gset string))) by set_solver.
    rewrite members_cons_eq. unfold render_samples at 3. rewrite fmap_cons, texts_cons. fold (render_samples m (members reg (key_name k))).
    cbn [family_header fst snd]. by rewrite !string_app_assoc.
  - assert (family_names ((k, x) :: reg) = key_name k :: family_names reg) as ->.
    { cbn. destruct (family_names reg) as [|n ns]; [done|]. rewrite decide_False; [done|]. set_solver. }
    rewrite !fmap_cons, !texts_cons, Hother by done. rewrite members_cons_eq, members_absent by done.
    cbn [family_header]. unfold render_samples at 2. cbn. by rewrite string_app_nil, !string_app_assoc.
Qed.
End families.

(** The text exposition is the concatenation of one block per metric
    family, each a single header followed by all series of that name: the
    loop over the ordered registry never splits a family. *)
Theorem render_groups_families {W} (f64_to_string : f64 → string) (world : W) m :
  metrics_reachable m → noop m = false →
  NoDup (family_names (registry m)) ∧
  (∀ n, n ∈ family_names (registry m) ↔ ∃ k x, (k, x) ∈ registry m ∧ key_name k = n) ∧
  render_prometheus f64_to_string world m =
    texts (render_family f64_to_string world m (registry m) <$> family_names (registry m)).
Proof.
  intros Hinv%metrics_reachable_inv Hn. pose proof (ri_wf m Hinv) as Hwf.
  split; [by apply family_names_NoDup|]. split; [apply family_names_elem|].
  unfold render_prometheus. by rewrite Hn, render_loop_families.
Qed.

(** A histogram with increasing bounds exposes, for every bound, the
    number of observations that are not above it, and for [+Inf] all of
    them; the count is their number. *)
Theorem histogram_counts_le (f64_to_string : f64 → string) key bs vs :
  increasing bs → Z.of_nat (length vs) < 2 ^ 64 →
  let h := foldl observe_value (histogram_new bs) vs in
  count h = Z.of_nat (length vs) ∧
  render_buckets f64_to_string key (bounds h) 0 0 (buckets h) =
    texts ((λ i, write_sample (key_name key +:+ "_bucket")
              (sm_insert "le" (match bs !! i with Some b => f64_to_string b | None => "+Inf" end) (key_labels key))
              (pretty (observed_le bs i vs))) <$> seq 0 (S (length bs))).
Proof.
  intros Hinc Hmax h. destruct (counts_inv_run bs vs Hinc Hmax) as [Hb Hl Hp Hc Ht Hle]. fold h in Hb, Hl, Hp, Hc, Ht, Hle.
  split; [done|]. pose proof (render_buckets_prefix f64_to_string key bs (buckets h) Hp ltac:(lia) 0 ltac:(lia)) as Hr.
  cbn [take total foldr drop] in Hr. rewrite Hb. etransitivity; [exact Hr|]. rewrite Hl, Nat.sub_0_r.
  f_equal. apply list_fmap_ext. intros i j [-> Hj]%lookup_seq. rewrite Hle by lia. done.
Qed.

(** ** Reading a sample back *)

(** The text format: a name, labels in braces with escaped values, a value,
    the end of the line. *)
Fixpoint read_until (stop : ascii → bool) (s : list ascii) : list ascii * list ascii :=
  match s with
  | [] => ([], [])
  | c :: s' => if stop c then ([], s) else let '(a, r) := read_until stop s' in (c :: a, r)
  end.
Fixpoint read_value (s : list ascii) : option (list ascii * list ascii) :=
  match s with
  | [] => None
  | c :: s =>
      if decide (c = quote) then Some ([], s)
      else if decide (c = backslash) then
        match s with
        | d :: s =>
            c ← (if decide (d = backslash) then Some backslash else if decide (d = quote) then Some quote
                 else if decide (d = "n"%char) then Some newline_char else None);
            '(v, r) ← read_value s; Some (c :: v, r)
        | [] => None
        end
      else if decide (c = newline_char) then None
      else '(v, r) ← read_value s; Some (c :: v, r)
  end.
Definition char_is (c d : ascii) : bool := bool_decide (c = d).
Fixpoint read_labels (fuel : nat) (s : list ascii) : option (list (list ascii * list ascii) * list ascii) :=
  match fuel with
  | O => None
  | S fuel =>
      let '(name, s) := read_until (char_is "=") s in
      match s with
      | _ :: q :: s =>
          if char_is quote q then
            '(v, s) ← read_value s;
            match s with
            | c :: s =>
                if char_is "}" c then Some ([(name, v)], s)
                else if char_is "," c then '(l, s) ← read_labels fuel s; Some ((name, v) :: l, s)
                else None
            | [] => None
            end
          else None
      | _ => None
      end
  end.
Definition read_sample (s : list ascii) : option (list ascii * list (list ascii * list ascii) * list ascii) :=
  let '(name, s) := read_until (λ c, char_is "{" c || char_is " " c) s in
  '(labels, s) ← match s with
                 | c :: s => if char_is "{" c then read_labels (length s) s else Some ([], c :: s)
                 | [] => None
                 end;
  match s with
  | c :: s => if char_is " " c then Some (name, labels, (read_until (char_is newline_char) s).1) else None
  | [] => None
  end.

Definition escape_char (c : ascii) : list ascii :=
  if decide (c = backslash) then [backslash; backslash]
  else if decide (c = quote) then [backslash; quote]
  else if decide (c = newline_char) then [backslash; "n"%char] else [c].
Lemma escape_label_cons c s : escape_label (c :: s) = escape_char c ++ escape_label s.
Proof.
  unfold escape_label, escape_char, replace. cbn -[decide].
  destruct (decide (c = backslash)) as [->|H1]; [done|]. destruct (decide (c = quote)) as [->|H2]; cbn -[decide]; [by rewrite decide_True|].
  rewrite (decide_False (P := c = quote)) by done. cbn -[decide]. by destruct (decide (c = newline_char)).
Qed.
Lemma read_value_escape v r : read_value (escape_label v ++ quote :: r) = Some (v, r).
Proof.
  induction v as [|c v IH]; [done|]. rewrite escape_label_cons. unfold escape_char.
  destruct (decide (c = backslash)) as [->|H1]; [cbn -[decide]; by rewrite IH|].
  destruct (decide (c = quote)) as [->|H2]; [cbn -[decide]; by rewrite IH|].
  destruct (decide (c = newline_char)) as [->|H3]; [cbn -[decide]; by rewrite IH|].
  cbn -[decide]. rewrite !decide_False by done. by rewrite IH.
Qed.
Lemma read_until_app stop a c r : Forall (λ d, stop d = false) a → stop c = true → read_until stop (a ++ c :: r) = (a, c :: r).
Proof. intros Ha Hc. induction Ha as [|d a Hd _ IH]; cbn; [by rewrite Hc|]. by rewrite Hd, IH. Qed.
Lemma concat_cons sep a kv l :
  String.concat sep (a :: (write_label <$> kv :: l)) = a +:+ sep +:+ String.concat sep (write_label <$> kv :: l).
Proof. done. Qed.
(** A character does not occur. *)
Definition lacks (c : ascii) (s : string) : Prop := Forall (λ d, char_is c d = false) (chars s).
Lemma read_labels_write labels r fuel :
  labels ≠ [] → (length labels ≤ fuel)%nat → Forall (λ kv, lacks "=" kv.1) labels →
  read_labels fuel (chars (String.concat "," (write_label <$> labels)) ++ "}"%char :: r) =
  Some ((λ kv, (chars kv.1, chars kv.2)) <$> labels, r).
Proof.
  intros Hne Hf Hl. revert fuel Hne Hf. induction Hl as [|[k v] labels Hk Hl IH]; intros [|fuel] Hne Hf; try done; [cbn in Hf; lia|].
  assert (Hone : ∀ s, chars (write_label (k, v)) ++ s = chars k ++ "="%char :: quote :: escape_label (chars v) ++ quote :: s).
  { intros s. unfold write_label. rewrite chars_app. cbn [fst snd chars]. change (String.append "=" ?t) with (String "=" t).
    cbn [chars]. rewrite chars_app, chars_of. cbn [chars]. rewrite <-app_assoc. cbn [app]. by rewrite <-app_assoc. }
  destruct labels as [|kv' labels].
  - cbn [fmap list_fmap String.concat]. rewrite Hone. cbn [read_labels]. rewrite (read_until_app _ _ _ _ Hk) by done.
    cbn -[read_value]. by rewrite read_value_escape.
  - rewrite (fmap_cons _ (k, v)), concat_cons, chars_app, <-app_assoc, Hone. cbn [read_labels].
    rewrite (read_until_app _ _ _ _ Hk) by done. cbn [app]. change (char_is quote quote) with true. cbn match.
    rewrite read_value_escape, (chars_app ","). cbn -[read_value read_labels String.concat fmap].
    rewrite IH by (done || cbn in *; lia). done.
Qed.

(** Label values survive the text exposition: a reader of the format gets
    the name, the labels and the value of a sample back, whatever quotes,
    backslashes and line ends the label values contain. *)
Theorem sample_roundtrip name labels value :
  Forall (λ c, char_is "{" c || char_is " " c = false) (chars name) → Forall (λ kv, lacks "=" kv.1) labels → lacks newline_char value →
  read_sample (chars (write_sample name labels value)) =
  Some (chars name, (λ kv, (chars kv.1, chars kv.2)) <$> labels, chars value).
Proof.
  intros Hn Hl Hv.
  assert (Htail : chars (" " +:+ value +:+ nl) = " "%char :: chars value ++ newline_char :: []).
  { change (" " +:+ value +:+ nl) with (String " " (value +:+ nl)). cbn [chars]. by rewrite chars_app. }
  unfold read_sample, write_sample. rewrite chars_app. destruct labels as [|kv labels].
  - cbn [write_labels]. rewrite (chars_app ""), Htail. cbn [chars app]. rewrite (read_until_app _ _ _ _ Hn) by done.
    change (char_is "{" " ") with false. cbn -[read_until char_is]. change (char_is " " " ") with true. by rewrite read_until_app.
  - change (write_labels (kv :: labels)) with (String "{" (String.concat "," (write_label <$> kv :: labels) +:+ "}")).
    rewrite chars_app, Htail. cbn [chars app]. rewrite chars_app. cbn [chars]. rewrite <-!app_assoc. cbn [app].
    rewrite (read_until_app _ _ _ _ Hn) by done. change (char_is "{" "{") with true. cbn match.
    rewrite read_labels_write; [|done| |done].
    + cbn -[read_until fmap char_is]. change (char_is " " " ") with true. by rewrite read_until_app.
    + rewrite length_app.
      assert (∀ ls, (length ls ≤ S (length (chars (String.concat "," (write_label <$> ls)))))%nat) as Hlen.
      { induction ls as [|l ls IH]; [cbn; lia|]. destruct ls as [|l' ls]; [cbn; lia|].
        rewrite (fmap_cons _ l), concat_cons, !chars_app, !length_app. cbn [length] in *. cbn [chars length]. lia. }
      specialize (Hlen (kv :: labels)). cbn [length] in *. lia.
Qed.

(** * Instances *)
Definition example_scope : MetricsScope := scope "service" [("env", "test")].
Definition example_metrics : Metrics unit :=
  (register (RHistogram None) (register RGauge with_meter example_scope "load" "Load" [("pool", "a")]).2
     example_scope "wait" "Wait" []).2.
Lemma example_reachable : metrics_reachable example_metrics.
Proof.
  exists with_meter. split; [set_solver|]. eapply rtc_l; [apply (ms_register RGauge)|]. eapply rtc_once. apply (ms_register (RHistogram None)).
Qed.
Lemma metric_families_consistent_witness :
  metrics_reachable example_metrics ∧ noop example_metrics = false ∧
  register RCounter example_metrics example_scope "load" "Load" [] = (Err (TypeConflict "service_load"), example_metrics) ∧
  register RGauge example_metrics example_scope "load" "Other" [] = (Err (DescriptionConflict "service_load"), example_metrics) ∧
  is_Some (sm_get (scope_key example_scope "load" [("pool", "a")]) (registry example_metrics)).
Proof.
  split; [apply example_reachable|]. split; [reflexivity|].
  destruct (metric_families_consistent example_metrics example_reachable eq_refl) as [_ H].
  assert ((scope_key example_scope "load" [("pool", "a")],
           Gauge "Load" 0 (Some (MkInstrument "service_load" "Load" None)) [("env", "test"); ("pool", "a")]) ∈ registry example_metrics)
    as Hin by (vm_compute; left).
  split; [|split; [|by eexists; vm_compute]].
  - destruct (H RCounter example_scope "load" "Load" []) as [Ht _]. by apply (Ht _ _ Hin).
  - destruct (H RGauge example_scope "load" "Other" []) as [_ [Hd _]]. by apply (Hd _ _ Hin).
Defined.

Definition example_handle : Handle :=
  MkHandle 0 (Some (MkInstrument "service_load" "Load" None)) [("env", "test"); ("pool", "a")] true.
Definition example_run : GaugeRun :=
  let '(d1, m) := gauge_fetch_add example_metrics example_handle 5 in
  let '(d2, m) := gauge_swap m example_handle 3 in
  MkRun (gauge_export (gauge_export m example_handle d2) example_handle d1) [].
Lemma example_owned m : registry m = registry example_metrics → owns (W := unit) m KGauge example_handle.
Proof.
  intros E. exists (scope_key example_scope "load" [("pool", "a")]),
    (Gauge "Load" 0 (Some (MkInstrument "service_load" "Load" None)) [("env", "test"); ("pool", "a")]).
  rewrite E. split; [vm_compute; left|done].
Qed.
Lemma gauge_export_agrees_witness :
  rtc gauge_step (MkRun (W := unit) with_meter []) example_run ∧
  ints (run_metrics example_run) !! 0%nat =
    Some (wrap_s 64 (exported_sum (scope_key example_scope "load" [("pool", "a")]) (exported (run_metrics example_run)))).
Proof.
  assert (rtc gauge_step (MkRun (W := unit) with_meter []) example_run) as Hr.
  { eapply rtc_l; [apply (gs_register _ RGauge example_scope "load" "Load" [("pool", "a")])|].
    eapply rtc_l; [apply (gs_register _ (RHistogram None) example_scope "wait" "Wait" [])|].
    eapply rtc_l; [by apply (gs_add _ example_handle 5); [apply example_owned|..]|].
    eapply rtc_l; [by apply (gs_set _ example_handle 3); [apply example_owned|..]|].
    eapply rtc_l; [by eapply (gs_export _ [_])|]. eapply rtc_l; [by eapply (gs_export _ [])|]. apply rtc_refl. }
  split; [exact Hr|].
  apply (gauge_export_agrees example_run (scope_key example_scope "load" [("pool", "a")]) "Load" 0%nat
    (Some (MkInstrument "service_load" "Load" None)) [("env", "test"); ("pool", "a")]); [exact Hr|reflexivity|].
  vm_compute. left.
Defined.

Lemma render_groups_families_witness :
  metrics_reachable example_metrics ∧ family_names (registry example_metrics) = ["service_load"; "service_wait"] ∧
  render_prometheus (λ _, "x") tt example_metrics =
    texts (render_family (λ _, "x") tt example_metrics (registry example_metrics) <$> ["service_load"; "service_wait"]).
Proof.
  split; [apply example_reachable|]. split; [reflexivity|].
  apply (render_groups_families (λ _, "x") tt example_metrics example_reachable eq_refl).
Defined.

Lemma histogram_counts_le_witness :
  increasing (f64_of_Z <$> [1; 5]) ∧
  observed_le (f64_of_Z <$> [1; 5]) 0 (f64_of_Z <$> [0; 1; 3; 9]) = 2 ∧
  count (foldl observe_value (histogram_new (f64_of_Z <$> [1; 5])) (f64_of_Z <$> [0; 1; 3; 9])) = 4.
Proof.
  assert (increasing (f64_of_Z <$> [1; 5])) as Hi by (repeat constructor).
  split; [exact Hi|]. split; [by vm_compute|].
  exact (proj1 (histogram_counts_le (λ _, "x") (MkKey "m" []) (f64_of_Z <$> [1; 5]) (f64_of_Z <$> [0; 1; 3; 9]) Hi eq_refl)).
Defined.
Lemma sample_roundtrip_witness :
  read_sample (chars (write_sample "m" [("path", String backslash (String quote "x"))] "7")) =
  Some (chars "m", [(chars "path", [backslash; quote; "x"%char])], chars "7").
Proof.
  apply (sample_roundtrip "m" [("path", String backslash (String quote "x"))] "7"); repeat constructor.
Defined.
(** The default bounds are in increasing order. *)
Lemma default_bounds_increasing : increasing default_duration_bounds.
Proof. repeat constructor. Qed.
