(* ===== verification/Graph.v ===== *)
(** Streams and the links between them: [src/src/runtime/stream.rs] and
    [src/src/runtime/collector.rs].

    A [Stream] is a shared handle ([Arc<StreamInner>]): the model keeps the
    inner records in a store and a stream is its address.  Consumers are
    handles as well; running one is the effect [Consume].  What a link does
    with a message is the list of effects it performs, in order. *)

From S2P Require Import Prelude Errors Config Context Environment.
Local Open Scope Z_scope.

Section graph.
Context {Json Pool PriorityPool Endpoint Storage Buildable Token Otel Any V : Type}.
Notation Env := (RuntimeEnvironment Json Pool PriorityPool Endpoint Storage Buildable).
Notation Ctx := (MessageContext Token Otel Any).

(** * Link collectors *)
Inductive Caller :=
| CFunctionCall (async : bool)
| CParallelCall
| CTaskPool (pool : Pool)
| CPriorityTaskPool (pool : PriorityPool) (priority : Z).
Definition caller_is_async (c : Caller) : bool :=
  match c with CFunctionCall async => async | _ => true end.

Record LinkCollector := MkLinkCollector {
  consumer : Z;
  caller : Caller;
  lc_from : string;
  lc_to : string;
  lc_pipeline : string;
  lc_component : string;
  messages_total : bool;      (** a counter is registered *)
  call_statistics : Z }.

Definition make_caller (env : Env) (semantics : CallSemantics) (function_call_async : bool) :
    RuntimeResult Caller :=
  match semantics with
  | FunctionCall => Ok (CFunctionCall function_call_async)
  | ParallelCall => Ok CParallelCall
  | TaskPool name => pool ← task_pool env name; Ok (CTaskPool pool)
  | PriorityTaskPool name priority => pool ← priority_task_pool env name; Ok (CPriorityTaskPool pool priority)
  end.

(** [LinkCollector::new].  [counter] is the registration of the message
    counter, absent with disabled metrics; [calls] the new statistics cell;
    [type_name] the short name of the message type. *)
Definition LinkCollector_new (env : Env) (target : Z) (semantics : CallSemantics) (source_id target_id : Z)
    (source_name : string) (function_call_async : bool) (counter : option (RuntimeResult unit))
    (type_name : string) (calls : Z) : RuntimeResult LinkCollector * Env :=
  let r :=
    caller ← make_caller env semantics function_call_async;
    messages ← match counter with Some r => _ ← r; Ok true | None => Ok false end;
    Ok (caller, messages) in
  match r with
  | Ok (caller, messages) =>
      let '(p, c) := stream_grouping env target_id in
      (Ok (MkLinkCollector target caller source_name (stream_name env target_id) p c messages calls),
       register_graph_link env (MkGraphLink source_id target_id semantics type_name calls))
  | Err e => (Err e, env)
  | Panic => (Panic, env)
  end.

(** [start_span]: [new_span] is the tracing subscriber, [None] for a disabled
    span and otherwise the context of the new child span. *)
Definition start_span (tracing_enabled : bool) (new_span : Ctx → option Otel) (context : Ctx) : Ctx * option Otel :=
  if negb tracing_enabled || negb (sampling_enabled context) then (context, None)
  else match new_span context with
       | None => (context, None)
       | Some child => (with_open_telemetry_context context child, Some child)
       end.

Inductive Effect :=
| IncCalls (cell : Z)
| IncMessages
| Consume (consumer : Z) (context : Ctx) (payload : V)
| SpawnParallel (consumer : Z) (context : Ctx) (payload : V)
| AddTask (pool : Pool) (context : Ctx) (consumer : Z) (task_context : Ctx) (payload : V)
| AddPriorityTask (pool : PriorityPool) (context : Ctx) (priority : Z) (consumer : Z) (task_context : Ctx)
    (payload : V)
| Rejected (error : RuntimeError).

(** [LinkCollector::out_payload]; [reply] is what the pool answers to
    [add_task].  A pool that panics unwinds the caller, and nothing follows. *)
Definition out_payload (tracing_enabled : bool) (new_span : Ctx → option Otel) (reply : RuntimeResult unit)
    (self : LinkCollector) (context : Ctx) (payload : V) : list Effect :=
  [IncCalls (call_statistics self)] ++ (if messages_total self then [IncMessages] else []) ++
  let '(context, _) := start_span tracing_enabled new_span context in
  let rejection := match reply with Err e => [Rejected e] | _ => [] end in
  match caller self with
  | CFunctionCall _ => [Consume (consumer self) context payload]
  | CParallelCall => [SpawnParallel (consumer self) context payload]
  | CTaskPool pool => AddTask pool context (consumer self) context payload :: rejection
  | CPriorityTaskPool pool prio =>
      AddPriorityTask pool context (default prio (priority context)) (consumer self) context payload :: rejection
  end.

(** * Streams *)
Inductive StreamDispatch :=
| Dynamic (collector : LinkCollector)
| Typed (collector : LinkCollector) (is_async : bool).
Definition dispatch_is_async (d : StreamDispatch) : bool :=
  match d with Dynamic c => caller_is_async (caller c) | Typed _ is_async => is_async end.
Definition dispatch_collector (d : StreamDispatch) : LinkCollector :=
  match d with Dynamic c => c | Typed c _ => c end.

Record StreamInner := MkStreamInner {
  si_id : Z;
  si_name : string;
  si_pipeline : string;
  si_component : string;
  downstream : option StreamDispatch }.
Record Graph := MkGraph {
  environment : Env;
  inners : gmap Z StreamInner;
  next_address : Z }.

Definition add_stream (g : Graph) (s : StreamInner) : Z * Graph :=
  (next_address g,
   MkGraph (register_runtime_stream (environment g) (si_id s)) (<[next_address g := s]> (inners g))
     (next_address g + 1)).
(** [configured_stream_id]: [expect] on [checked_abs]. *)
Definition configured_stream_id (id : Z) : RuntimeResult Z :=
  match checked_abs id with Some id => Ok id | None => Panic end.
Definition with_id_and_serde (g : Graph) (id : Z) : RuntimeResult (Z * Graph) :=
  configured ← configured_stream_id id;
  let '(p, c) := stream_grouping (environment g) id in
  Ok (add_stream g (MkStreamInner id (stream_name (environment g) configured) p c None)).
Definition derived_with_name (g : Graph) (id : Z) (name : string) : Z * Graph :=
  let '(p, c) := stream_grouping (environment g) id in
  add_stream g (MkStreamInner id name p c None).
(** [Stream::config]: [expect] on a configured stream. *)
Definition stream_configuration (g : Graph) (s : StreamInner) : RuntimeResult (RuntimeStreamConfig Json) :=
  configured ← configured_stream_id (si_id s);
  match stream_config (environment g) configured with Some c => Ok c | None => Panic end.

Definition set_downstream (s : StreamInner) (d : StreamDispatch) : StreamInner :=
  MkStreamInner (si_id s) (si_name s) (si_pipeline s) (si_component s) (Some d).
(** [ConstructionCell::set] refuses a second value. *)
Definition store_downstream (g : Graph) (env : Env) (address : Z) (s : StreamInner) (d : StreamDispatch) :
    RuntimeResult unit * Graph :=
  match downstream s with
  | Some _ => (Err (ConsumerAlreadySet (si_name s)), MkGraph env (inners g) (next_address g))
  | None => (Ok tt, MkGraph env (<[address := set_downstream s d]> (inners g)) (next_address g))
  end.

(** [try_set_consumer].  The link is built, and listed in the graph, before
    the cell is tried. *)
Definition try_set_consumer (g : Graph) (address : Z) (target target_id : Z) (counter : option (RuntimeResult unit))
    (type_name : string) (calls : Z) : RuntimeResult unit * Graph :=
  match inners g !! address with
  | None => (Panic, g)
  | Some s =>
      let env := environment g in
      match LinkCollector_new env target (env_call_semantics env (si_id s) target_id) (si_id s) target_id
              (si_name s) (function_call_async env (si_id s) target_id) counter type_name calls with
      | (Ok collector, env) => store_downstream g env address s (Dynamic collector)
      | (Err e, env) => (Err e, MkGraph env (inners g) (next_address g))
      | (Panic, env) => (Panic, MkGraph env (inners g) (next_address g))
      end
  end.
Definition try_set_typed_consumer (g : Graph) (address : Z) (target target_id : Z)
    (counter : option (RuntimeResult unit)) (type_name : string) (calls : Z) : RuntimeResult unit * Graph :=
  match inners g !! address with
  | None => (Panic, g)
  | Some s =>
      match downstream s with
      | Some _ => (Err (ConsumerAlreadySet (si_name s)), g)
      | None =>
          let env := environment g in
          match LinkCollector_new env target (env_call_semantics env (si_id s) target_id) (si_id s) target_id
                  (si_name s) (function_call_async env (si_id s) target_id) counter type_name calls with
          | (Ok collector, env) =>
              store_downstream g env address s (Typed collector (caller_is_async (caller collector)))
          | (Err e, env) => (Err e, MkGraph env (inners g) (next_address g))
          | (Panic, env) => (Panic, MkGraph env (inners g) (next_address g))
          end
      end
  end.

(** [Stream::emit]: an unconnected stream drops the message. *)
Definition emit (tracing_enabled : bool) (new_span : Ctx → option Otel) (reply : RuntimeResult unit)
    (s : StreamInner) (context : Ctx) (payload : V) : list Effect :=
  match downstream s with
  | Some d => out_payload tracing_enabled new_span reply (dispatch_collector d) context payload
  | None => []
  end.

(** ** Construction of a graph, one call at a time *)
Inductive graph_step : Graph → Graph → Prop :=
| gs_stream g id a g' : with_id_and_serde g id = Ok (a, g') → graph_step g g'
| gs_named g id name : graph_step g (derived_with_name g id name).2
| gs_connect g a target id counter type calls :
    graph_step g (try_set_consumer g a target id counter type calls).2
| gs_connect_typed g a target id counter type calls :
    graph_step g (try_set_typed_consumer g a target id counter type calls).2
| gs_pool name_of p g :
    graph_step g (MkGraph (register_task_pool name_of (environment g) p).2 (inners g) (next_address g))
| gs_priority_pool name_of p g :
    graph_step g (MkGraph (register_priority_task_pool name_of (environment g) p).2 (inners g) (next_address g)).
Definition graph_new (env : Env) : Graph := MkGraph env ∅ 0.
End graph.
Arguments Graph : clear implicits.
Arguments StreamInner : clear implicits.
Arguments LinkCollector : clear implicits.
Arguments StreamDispatch : clear implicits.
Arguments Caller : clear implicits.
Arguments Effect : clear implicits.

(** * Lemmas *)
Section graph_lemmas.
Context {Json Pool PriorityPool Endpoint Storage Buildable Token Otel Any V : Type}.
Notation Env := (RuntimeEnvironment Json Pool PriorityPool Endpoint Storage Buildable).
Notation Ctx := (MessageContext Token Otel Any).
Notation G := (Graph Json Pool PriorityPool Endpoint Storage Buildable).
Implicit Types g : G.

(** Addresses are allocated in order. *)
Definition allocated g : Prop := ∀ a s, inners g !! a = Some s → a < next_address g.
(** [g'] extends [g]: streams stay, and a connected one keeps its consumer. *)
Definition extends g g' : Prop :=
  next_address g ≤ next_address g' ∧
  ∀ a s, inners g !! a = Some s →
    ∃ s', inners g' !! a = Some s' ∧ (s' = s ∨ (downstream s = None ∧ ∃ d, s' = set_downstream s d)).

Lemma extends_same g env : extends g (MkGraph env (inners g) (next_address g)).
Proof. split; cbn; [done|]. eauto. Qed.
Lemma extends_refl g : extends g g.
Proof. split; [done|]. eauto. Qed.
Lemma add_stream_extends g s : allocated g → allocated (add_stream g s).2 ∧ extends g (add_stream g s).2.
Proof.
  intros Hg. split.
  - intros a s'. cbn. rewrite lookup_insert_Some. intros [[<- _]|[_ Ha%Hg]]; lia.
  - split; cbn; [lia|]. intros a s' Ha. exists s'. split; [|by left].
    rewrite lookup_insert_ne; [done|]. apply Hg in Ha. lia.
Qed.
Lemma store_downstream_extends g env a s d :
  allocated g → inners g !! a = Some s →
  allocated (store_downstream g env a s d).2 ∧ extends g (store_downstream g env a s d).2.
Proof.
  intros Hg Ha. unfold store_downstream. destruct (downstream s) as [d'|] eqn:Hd; cbn.
  - split; [exact Hg|apply extends_same].
  - split.
    + intros b s'. cbn. rewrite lookup_insert_Some. intros [[<- _]|[_ Hb]]; by eapply Hg.
    + split; cbn; [done|]. intros b s' Hb. destruct (decide (a = b)) as [<-|Hne].
      * rewrite lookup_insert_eq. simplify_eq. eauto 10.
      * rewrite lookup_insert_ne by done. eauto.
Qed.

Lemma graph_step_extends g g' : graph_step g g' → allocated g → allocated g' ∧ extends g g'.
Proof.
  intros Hs Hg. destruct Hs as [g id a g' Hw|g id name|g a target id counter type calls
    |g a target id counter type calls|name_of p g|name_of p g].
  - unfold with_id_and_serde in Hw. apply bind_Ok in Hw as (cid & _ & Hw).
    destruct (stream_grouping (environment g) id). apply (inj Ok) in Hw.
    replace g' with (a, g').2 by done. rewrite <-Hw. by apply add_stream_extends.
  - unfold derived_with_name. destruct (stream_grouping (environment g) id). by apply add_stream_extends.
  - unfold try_set_consumer. destruct (inners g !! a) as [s|] eqn:Ha; [|split; [done|apply extends_refl]].
    destruct (LinkCollector_new _ _ _ _ _ _ _ _ _ _) as [[c|e|] env'];
      [by apply store_downstream_extends|split; [exact Hg|apply extends_same]..].
  - unfold try_set_typed_consumer. destruct (inners g !! a) as [s|] eqn:Ha; [|split; [done|apply extends_refl]].
    destruct (downstream s); [split; [done|apply extends_refl]|].
    destruct (LinkCollector_new _ _ _ _ _ _ _ _ _ _) as [[c|e|] env'];
      [by apply store_downstream_extends|split; [exact Hg|apply extends_same]..].
  - split; [exact Hg|apply extends_same].
  - split; [exact Hg|apply extends_same].
Qed.
Lemma graph_steps_keep g g' a s d :
  rtc graph_step g g' → allocated g → inners g !! a = Some s → downstream s = Some d →
  allocated g' ∧ inners g' !! a = Some s.
Proof.
  induction 1 as [g|g g1 g2 Hs _ IH]; intros Hg Ha Hd; [done|].
  destruct (graph_step_extends _ _ Hs Hg) as [Hg1 [_ He]]. destruct (He a s Ha) as (s' & Ha' & [->|[? _]]);
    [by apply IH|congruence].
Qed.

Lemma LinkCollector_new_Ok (env : Env) target semantics source_id target_id name fca counter type calls c env' :
  LinkCollector_new env target semantics source_id target_id name fca counter type calls = (Ok c, env') →
  make_caller env semantics fca = Ok (caller c) ∧ consumer c = target ∧ call_statistics c = calls ∧
  env' = register_graph_link env (MkGraphLink source_id target_id semantics type calls).
Proof.
  unfold LinkCollector_new. destruct (make_caller env semantics fca) as [cl|e|]; cbn; try done.
  destruct (match counter with Some r => _ ← r; Ok true | None => Ok false end) as [m|e|]; cbn; try done.
  destruct (stream_grouping env target_id). by intros [= <- <-].
Qed.

(** The span only replaces the OpenTelemetry context. *)
Lemma start_span_keeps tracing (new_span : Ctx → option Otel) ctx :
  let ctx' := (start_span tracing new_span ctx).1 in
  cancellation ctx' = cancellation ctx ∧ deadline ctx' = deadline ctx ∧ metadata ctx' = metadata ctx ∧
  priority ctx' = priority ctx ∧ local_values ctx' = local_values ctx.
Proof. unfold start_span. destruct (negb tracing || _); [done|]. by destruct (new_span ctx). Qed.

(** How a message reaches the consumer under given call semantics. *)
Definition delivered_by (env : Env) (semantics : CallSemantics) (target : Z) (ctx : Ctx) (v : V)
    (e : Effect Pool PriorityPool Token Otel Any V) : Prop :=
  match semantics with
  | FunctionCall => e = Consume target ctx v
  | ParallelCall => e = SpawnParallel target ctx v
  | TaskPool name => ∃ pool, task_pools env !! name = Some pool ∧ e = AddTask pool ctx target ctx v
  | PriorityTaskPool name prio => ∃ pool, priority_task_pools env !! name = Some pool ∧
      e = AddPriorityTask pool ctx (default prio (priority ctx)) target ctx v
  end.
(** The hand-over of a message: a call, a spawned task, a submission. *)
Definition is_handover (e : Effect Pool PriorityPool Token Otel Any V) : bool :=
  match e with
  | Consume _ _ _ | SpawnParallel _ _ _ | AddTask _ _ _ _ _ | AddPriorityTask _ _ _ _ _ _ => true
  | _ => false
  end.
(** What an effect delivers, when a pool answers [reply]: a pool that does not
    accept the submission drops the message. *)
Definition reaches (reply : RuntimeResult unit) (e : Effect Pool PriorityPool Token Otel Any V) :
    option (Z * Ctx * V) :=
  match e with
  | Consume c ctx v | SpawnParallel c ctx v => Some (c, ctx, v)
  | AddTask _ _ c ctx v | AddPriorityTask _ _ _ c ctx v =>
      match reply with Ok _ => Some (c, ctx, v) | _ => None end
  | _ => None
  end.
Definition refusal (e : Effect Pool PriorityPool Token Otel Any V) : option RuntimeError :=
  match e with Rejected x => Some x | _ => None end.
Definition uses_pool (semantics : CallSemantics) : bool :=
  match semantics with TaskPool _ | PriorityTaskPool _ _ => true | _ => false end.
(** The answer that decides: only a pool can refuse. *)
Definition pool_answer (semantics : CallSemantics) (reply : RuntimeResult unit) : RuntimeResult unit :=
  if uses_pool semantics then reply else Ok tt.
Lemma out_payload_delivers (env : Env) semantics fca tracing new_span reply
    (c : LinkCollector Pool PriorityPool) (ctx : Ctx) (v : V) :
  make_caller env semantics fca = Ok (caller c) →
  let es := out_payload tracing new_span reply c ctx v in
  let ctx' := (start_span tracing new_span ctx).1 in
  (∃ e, filter (λ e, is_handover e = true) es = [e] ∧ delivered_by env semantics (consumer c) ctx' v e) ∧
  omap (reaches reply) es =
    match pool_answer semantics reply with Ok _ => [(consumer c, ctx', v)] | _ => [] end ∧
  omap refusal es = match pool_answer semantics reply with Err x => [x] | _ => [] end.
Proof.
  intros Hc. cbv zeta. unfold out_payload. destruct (start_span tracing new_span ctx) as [ctx' sp].
  unfold make_caller in Hc. destruct semantics as [| |name|name prio]; cbn in Hc.
  - injection Hc as <-. destruct (messages_total c); repeat split; eexists; split; done.
  - injection Hc as <-. destruct (messages_total c); repeat split; eexists; split; done.
  - unfold task_pool in Hc. destruct (task_pools env !! name) as [pool|] eqn:Hp; cbn in Hc; [|done].
    injection Hc as <-.
    destruct (messages_total c), reply as [[]|x|]; (split; [eexists; split; [reflexivity|cbn; eauto]|done]).
  - unfold priority_task_pool in Hc.
    destruct (priority_task_pools env !! name) as [pool|] eqn:Hp; cbn in Hc; [|done].
    injection Hc as <-.
    destruct (messages_total c), reply as [[]|x|]; (split; [eexists; split; [reflexivity|cbn; eauto]|done]).
Qed.
End graph_lemmas.

(** * Properties *)

(** a stream has at most one consumer, for good.  Whatever streams, links
    and pools a graph under construction gains, a connected stream keeps its
    link, and every further attempt to connect it is refused. *)
Theorem consumer_set_once {Json Pool PriorityPool Endpoint Storage Buildable}
    (env : RuntimeEnvironment Json Pool PriorityPool Endpoint Storage Buildable) g g' a s d :
  rtc graph_step (graph_new env) g → inners g !! a = Some s → downstream s = Some d → rtc graph_step g g' →
  inners g' !! a = Some s ∧
  ∀ target id counter type calls,
    (try_set_consumer g' a target id counter type calls).1 ≠ Ok tt ∧
    try_set_typed_consumer g' a target id counter type calls = (Err (ConsumerAlreadySet (si_name s)), g').
Proof.
  intros Hr Ha Hd Hsteps. assert (allocated g) as Hg.
  { revert Hr. apply (rtc_ind_r allocated (graph_new env)).
    - intros b s'. cbn. by rewrite lookup_empty.
    - intros x y _ Hxy Hx. by apply (graph_step_extends x y). }
  destruct (graph_steps_keep g g' a s d Hsteps Hg Ha Hd) as [_ Ha']. split; [done|].
  intros target id counter type calls. unfold try_set_consumer, try_set_typed_consumer.
  rewrite Ha', Hd. split; [|done].
  destruct (LinkCollector_new _ _ _ _ _ _ _ _ _ _) as [[c|e|] env']; cbn; try done.
  unfold store_downstream. by rewrite Hd.
Qed.

(** C5: a connected stream hands every message over by the call semantics of
    the environment.  After a successful connection, every message emitted on
    the stream is handed over exactly once: a direct call, a parallel task, or
    a submission to the registered pool the semantics name, with the message's
    own priority before the link's.  That payload then reaches that consumer,
    once, unless the pool does not accept the submission; a message the pool
    refuses reaches nobody, and its error is reported exactly once.  The
    context is the emitter's up to its tracing span; the link is listed in the
    live graph. *)
Theorem connected_stream_delivers {Json Pool PriorityPool Endpoint Storage Buildable Token Otel Any V}
    (g g' : Graph Json Pool PriorityPool Endpoint Storage Buildable) a target id counter type calls
    tracing (new_span : MessageContext Token Otel Any → option Otel) reply ctx (v : V) :
  try_set_consumer g a target id counter type calls = (Ok tt, g') →
  ∃ s s', inners g !! a = Some s ∧ inners g' !! a = Some s' ∧
    let semantics := env_call_semantics (environment g) (si_id s) id in
    let ctx' := (start_span tracing new_span ctx).1 in
    let es := emit tracing new_span reply s' ctx v in
    ((∃ e, filter (λ e, is_handover e = true) es = [e] ∧
       delivered_by (environment g) semantics target ctx' v e) ∧
     omap (reaches reply) es = match pool_answer semantics reply with Ok _ => [(target, ctx', v)] | _ => [] end ∧
     omap refusal es = match pool_answer semantics reply with Err x => [x] | _ => [] end) ∧
    cancellation ctx' = cancellation ctx ∧ deadline ctx' = deadline ctx ∧ metadata ctx' = metadata ctx ∧
    priority ctx' = priority ctx ∧ local_values ctx' = local_values ctx ∧
    graph_links (environment g') =
      put_link (MkGraphLink (si_id s) id semantics type calls) (graph_links (environment g)).
Proof.
  unfold try_set_consumer. destruct (inners g !! a) as [s|] eqn:Ha; [|done].
  destruct (LinkCollector_new _ _ _ _ _ _ _ _ _ _) as [[c|e|] env'] eqn:Hn; try done.
  apply LinkCollector_new_Ok in Hn as (Hc & Ht & _ & ->). unfold store_downstream.
  destruct (downstream s); [done|]. intros [= <-].
  exists s, (set_downstream s (Dynamic c)). cbn [inners environment]. rewrite lookup_insert_eq.
  split; [done|]. split; [done|]. cbv zeta.
  destruct (start_span_keeps tracing new_span ctx) as (? & ? & ? & ? & ?).
  split; [|by split_and!]. subst target. by eapply out_payload_delivers.
Qed.

(** ** Witnesses *)
Notation ExampleGraph := (Graph unit string string unit unit unit).
Definition graph_example_env : RuntimeEnvironment unit string string unit unit unit :=
  (register_priority_task_pool id (environment_new (PriorityTaskPool "fast" 7)) "fast").2.
Definition graph_example : ExampleGraph := (derived_with_name (graph_new graph_example_env) 1 "in").2.
Definition graph_example_connected : ExampleGraph := (try_set_consumer graph_example 0 100 2 None "i32" 0).2.

Lemma consumer_set_once_witness :
  (try_set_consumer graph_example_connected 0 101 3 None "i32" 1).1 ≠ Ok tt.
Proof.
  refine (proj1 (proj2 (consumer_set_once graph_example_env graph_example_connected graph_example_connected 0
    (MkStreamInner 1 "in" "" "" (Some (Dynamic (MkLinkCollector 100 (CPriorityTaskPool "fast" 7) "in" "2" "" "" false 0))))
    (Dynamic (MkLinkCollector 100 (CPriorityTaskPool "fast" 7) "in" "2" "" "" false 0)) _ _ _ _) 101 3 None "i32" 1)).
  - eapply rtc_l; [apply (gs_named (graph_new graph_example_env) 1 "in")|]. apply rtc_once.
    apply (gs_connect graph_example 0 100 2 None "i32" 0).
  - vm_compute. reflexivity.
  - reflexivity.
  - apply rtc_refl.
Defined.

Definition graph_example_context : MessageContext unit unit unit := with_priority (new tt tt) 3.
Lemma connected_stream_delivers_witness :
  ∃ s', inners graph_example_connected !! 0 = Some s' ∧
    omap (reaches (Err (ResourceStopped "fast"))) (emit true (λ _, None) (Err (ResourceStopped "fast")) s' graph_example_context 42)
      = [] ∧
    omap refusal (emit true (λ _, None) (Err (ResourceStopped "fast")) s' graph_example_context 42) = [ResourceStopped "fast"].
Proof.
  destruct (connected_stream_delivers graph_example graph_example_connected 0 100 2 None "i32" 0 true
    (λ _, None) (Err (ResourceStopped "fast")) graph_example_context 42) as (s & s' & Hs & Hs' & (_ & Hr & Hf) & _).
  - vm_compute. reflexivity.
  - exists s'. split; [exact Hs'|]. injection Hs as <-. split; [exact Hr|exact Hf].
Defined.

(** A refused connection still lists its link: [try_set_consumer] builds the
    link before it tries the cell. *)
Theorem refused_connection_lists_link :
  ∃ g', try_set_consumer graph_example_connected 0 101 3 None "i32" 1 = (Err (ConsumerAlreadySet "in"), g') ∧
    (λ l, (gl_from l, gl_to l)) <$> graph_links (environment g') = [(1, 2); (1, 3)].
Proof. eexists. split; vm_compute; reflexivity. Qed.
