(* ===== verification/Operators.v ===== *)
(** Operators that route messages: split ([src/src/operators/split.rs]) and
    case ([src/src/operators/case.rs]), with the shared payload of
    [src/src/runtime/common.rs].

    A branch is a stream of the graph ([StreamInner]); what an operator does
    with a message is the list of branches it emits on, in order. *)

From S2P Require Import Prelude Errors Config Context Environment Graph.
From stdpp Require Import pretty.
Local Open Scope nat_scope.

(** * Payloads *)
Section payload.
Context {V : Type}.
Inductive Payload := Owned (v : V) | Shared (v : V).
Definition into_arc (p : Payload) : V := match p with Owned v => v | Shared v => v end.
Definition share (p : Payload) : Payload * Payload := (Shared (into_arc p), Shared (into_arc p)).
(** The last handle of a shared value is unwrapped, any other cloned: the same
    value. *)
Definition into_value (p : Payload) : V := match p with Owned v => v | Shared v => v end.
End payload.
Arguments Payload : clear implicits.

(** * Split *)

(** [sort_by_key] with a boolean key, a stable insertion sort: [false] first. *)
Section sort_by_key.
Context {A : Type} (key : A → bool).
Fixpoint insert_by_key (a : A) (l : list A) : list A :=
  match l with
  | [] => [a]
  | b :: l' => if key a && negb (key b) then b :: insert_by_key a l' else a :: l
  end.
Definition sort_by_key (l : list A) : list A := foldr insert_by_key [] l.
End sort_by_key.

Section split.
Context {Pool PriorityPool Token Otel Any V : Type}.
Notation StreamI := (StreamInner Pool PriorityPool).
Notation Ctx := (MessageContext Token Otel Any).

Record SplitStream := MkSplit {
  split_links : list StreamI;
  dispatch_order : list nat }.

(** [from_typed]: the branches must match the declared number. *)
Definition split_from_typed (N : nat) (name : string) (links : list StreamI) : RuntimeResult SplitStream :=
  if decide (length links = N) then Ok (MkSplit links (seq 0 N))
  else Err (InvalidConfiguration ("split " +:+ name +:+ " requires " +:+ pretty N +:+
              " branches, received " +:+ pretty (length links))).

(** [build]: every branch must be connected; asynchronous branches go first. *)
Definition check_branch (link : StreamI) : RuntimeResult unit :=
  match downstream link with
  | Some _ => Ok tt
  | None => Err (ConsumerNotSet (si_name link))
  end.
Definition branch_is_async (links : list StreamI) (index : nat) : bool :=
  match links !! index ≫= downstream with Some d => dispatch_is_async d | None => false end.
Definition split_build (self : SplitStream) : RuntimeResult SplitStream :=
  _ ← fold_res (λ _ link, check_branch link) tt (split_links self);
  Ok (MkSplit (split_links self)
        (sort_by_key (λ index, negb (branch_is_async (split_links self) index))
           (seq 0 (length (split_links self))))).

(** The loop of [consume]: the last branch takes the context and the payload,
    the others get clones; [expect] fails when they are already taken. *)
Fixpoint split_loop (N position : nat) (order : list nat) (context : option Ctx) (payload : option (Payload V)) :
    outcome Empty_set (list (nat * Ctx * Payload V)) :=
  match order with
  | [] => Ok []
  | index :: order =>
      let last := bool_decide (position + 1 = N) in
      match context, payload with
      | Some c, Some p =>
          let '(branch, rest) := if last then (p, None) else let '(b, r) := share p in (b, Some r) in
          emitted ← split_loop N (position + 1) order (if last then None else Some c) rest;
          Ok ((index, c, branch) :: emitted)
      | _, _ => Panic
      end
  end.
Definition split_consume (tracing : bool) (new_span : Ctx → option Otel) (self : SplitStream) (context : Ctx)
    (payload : Payload V) : outcome Empty_set (list (nat * Ctx * Payload V)) :=
  let '(context, _) := start_span tracing new_span context in
  split_loop (length (split_links self)) 0 (dispatch_order self) (Some context) (Some payload).
End split.
Arguments SplitStream : clear implicits.

(** * Case *)
Section case.
Context {Pool PriorityPool Token Otel Any V : Type}.
Notation StreamI := (StreamInner Pool PriorityPool).
Notation Ctx := (MessageContext Token Otel Any).

Record CaseStream := MkCase { case_id : Z; when_streams : list StreamI }.

(** [when] registers one more branch. *)
Definition when (self : CaseStream) (branch : StreamI) : CaseStream :=
  MkCase (case_id self) (when_streams self ++ [branch]).

(** [from_branches]: the typed branches repeat the registered ones in order. *)
Definition from_branches (self : CaseStream) (branches : list StreamI) : RuntimeResult CaseStream :=
  if negb (bool_decide (length (when_streams self) = length branches)) ||
     existsb (λ e, negb (bool_decide ((si_id <$> branches !! e.1) = Some (si_id e.2))))
       (imap pair (when_streams self))
  then Err (InvalidConfiguration ("case " +:+ pretty (case_id self) +:+
              " typed branches must match the registered When streams in order"))
  else Ok (MkCase (case_id self) branches).

(** [when_index]: the loop keeps the first match and fails on a second. *)
Definition when_index_step (case_id : Z) (name : string) (selected : option nat) (e : nat * StreamI) :
    RuntimeResult (option nat) :=
  if negb (bool_decide (si_name e.2 = name)) then Ok selected
  else match selected with
       | Some previous => Err (InvalidConfiguration ("case " +:+ pretty case_id +:+ " branch " +:+
           debug name +:+ " is ambiguous (indices " +:+ pretty previous +:+ " and " +:+ pretty e.1 +:+ ")"))
       | None => Ok (Some e.1)
       end.
Definition when_index (self : CaseStream) (name : string) : RuntimeResult nat :=
  if decide (name = "") then Err (InvalidConfiguration "case branch name must not be empty")
  else
    selected ← fold_res (when_index_step (case_id self) name) None (imap pair (when_streams self));
    ok_or selected (InvalidConfiguration ("case " +:+ pretty (case_id self) +:+ " branch " +:+
      debug name +:+ " was not found")).

(** [consume]: the selected branch must exist. *)
Definition case_consume (tracing : bool) (new_span : Ctx → option Otel) (select : V → nat) (self : CaseStream)
    (context : Ctx) (payload : Payload V) : outcome Empty_set (nat * Ctx * Payload V) :=
  let index := select (into_value payload) in
  match when_streams self !! index with
  | None => Panic
  | Some _ => Ok (index, (start_span tracing new_span context).1, payload)
  end.
End case.
Arguments CaseStream : clear implicits.

(** * Lemmas *)
Section sort_lemmas.
Context {A : Type} (key : A → bool).
Lemma insert_by_key_true a l1 l2 :
  key a = true → Forall (λ b, key b = false) l1 → Forall (λ b, key b = true) l2 →
  insert_by_key key a (l1 ++ l2) = l1 ++ a :: l2.
Proof.
  intros Ha H1 H2. induction H1 as [|b l1 Hb _ IH]; cbn.
  - destruct H2 as [|b l2 Hb]; cbn; [done|]. by rewrite Ha, Hb.
  - by rewrite Ha, Hb, IH.
Qed.
Lemma insert_by_key_false a l : key a = false → insert_by_key key a l = a :: l.
Proof. intros Ha. destruct l; cbn; [done|]. by rewrite Ha. Qed.
Lemma filter_key_Forall b l : Forall (λ a, key a = b) (filter (λ a, key a = b) l).
Proof. apply Forall_forall. by intros a [? _]%list_elem_of_filter. Qed.

Lemma sort_by_key_filter l :
  sort_by_key key l = filter (λ a, key a = false) l ++ filter (λ a, key a = true) l.
Proof.
  induction l as [|a l IH]; [done|]. unfold sort_by_key in *; cbn [foldr]. rewrite IH.
  destruct (key a) eqn:Ha.
  - rewrite insert_by_key_true by eauto using filter_key_Forall.
    by rewrite filter_cons_False, filter_cons_True by congruence.
  - rewrite insert_by_key_false by done. by rewrite filter_cons_True, filter_cons_False by congruence.
Qed.
Lemma sort_by_key_perm l : sort_by_key key l ≡ₚ l.
Proof.
  rewrite sort_by_key_filter. induction l as [|a l IH]; [done|]. destruct (key a) eqn:Ha.
  - rewrite filter_cons_False, filter_cons_True by congruence. by rewrite <-Permutation_middle, IH.
  - rewrite filter_cons_True, filter_cons_False by congruence. cbn. by rewrite IH.
Qed.
End sort_lemmas.

Section split_lemmas.
Context {Pool PriorityPool Token Otel Any V : Type}.
Notation Ctx := (MessageContext Token Otel Any).

Lemma split_loop_spec (N position : nat) order (c : Ctx) (p : Payload V) :
  position + length order = N →
  ∃ emitted, split_loop N position order (Some c) (Some p) = Ok emitted ∧
    (λ e, e.1.1) <$> emitted = order ∧
    Forall (λ e, e.1.2 = c ∧ into_value e.2 = into_value p) emitted.
Proof.
  revert position p. induction order as [|index order IH]; intros position p Hlen; cbn in *; [eauto|].
  case_bool_decide as Hlast.
  - destruct order; [|cbn in *; lia]. cbn. eexists. split; [done|]. cbn. by split; [|repeat constructor].
  - destruct (IH (position + 1) (Shared (into_arc p))) as (emitted & -> & Hord & Hall); [lia|]. cbn.
    eexists. split; [done|]. cbn. split; [by rewrite Hord|]. constructor; [by destruct p|].
    eapply Forall_impl; [exact Hall|]. cbn. intros e [? He]. split; [done|]. by destruct p.
Qed.

Lemma check_branches (links : list (StreamInner Pool PriorityPool)) :
  (Forall (λ l, is_Some (downstream l)) links ∧ fold_res (λ _ l, check_branch l) tt links = Ok tt) ∨
  (~ Forall (λ l, is_Some (downstream l)) links ∧ ∃ l, l ∈ links ∧ downstream l = None ∧
    fold_res (λ _ l, check_branch l) tt links = Err (ConsumerNotSet (si_name l))).
Proof.
  induction links as [|l links IH]; [left; split; [constructor|done]|]. cbn [fold_res].
  assert (Hc : check_branch l = match downstream l with Some _ => Ok tt | None => Err (ConsumerNotSet (si_name l)) end)
    by done.
  rewrite Hc. destruct (downstream l) as [d|] eqn:Hd; cbn [mbind outcome_bind].
  - destruct IH as [[Hall ->]|(Hno & l' & Hin & Hl' & ->)].
    + left. split; [|done]. constructor; [by rewrite Hd|done].
    + right. split; [by intros [_ ?]%Forall_cons|]. exists l'. split; [by right|done].
  - right. split.
    + intros [[? H] _]%Forall_cons. congruence.
    + exists l. split; [by left|done].
Qed.
End split_lemmas.

(** The branches found by the loop of [when_index]. *)
Lemma when_index_loop {Pool PriorityPool} case_id name (l : list (StreamInner Pool PriorityPool)) n sel :
  let at_index i := ∃ s, l !! i = Some s ∧ si_name s = name in
  match fold_res (when_index_step case_id name) sel (imap (λ i s, (n + i, s)) l) with
  | Ok None => sel = None ∧ ∀ i, ~ at_index i
  | Ok (Some j) => (sel = Some j ∧ ∀ i, ~ at_index i) ∨
      (sel = None ∧ ∃ i, j = n + i ∧ at_index i ∧ ∀ i', at_index i' → i' = i)
  | Err _ => (is_Some sel ∧ ∃ i, at_index i) ∨ ∃ i i', i ≠ i' ∧ at_index i ∧ at_index i'
  | Panic => False
  end.
Proof.
  revert n sel. induction l as [|s l IH]; intros n sel; cbn [imap fold_res].
  - destruct sel; [left|]; split; try done; by intros i (? & ? & _).
  - replace (imap ((λ i s0, (n + i, s0)) ∘ S) l) with (imap (λ i s0, (S n + i, s0)) l)
      by (apply imap_ext; intros; cbn; f_equal; lia).
    unfold when_index_step at 2; cbn [fst snd]. case_bool_decide as Hs; cbn [negb mbind outcome_bind].
    + destruct sel as [previous|]; cbn [mbind outcome_bind].
      * left. split; [done|]. exists 0, s. done.
      * specialize (IH (S n) (Some (n + 0))).
        destruct (fold_res _ _ _) as [[j|]|e|]; [|naive_solver| |done].
        -- destruct IH as [[[= <-] Hno]|[? _]]; [|done]. right. split; [done|]. exists 0. split; [lia|].
           split; [by exists s|]. intros [|i'] (s' & Hl & Hn); [done|]. destruct (Hno i'). by exists s'.
        -- right. destruct IH as [[_ (i & s' & Hl & Hn)]|(i & i' & Hne & (s1 & H1 & H1') & s2 & H2 & H2')].
           ++ exists 0, (S i). split; [done|]. split; [by exists s|by exists s'].
           ++ exists (S i), (S i'). split; [congruence|]. split; [by exists s1|by exists s2].
    + specialize (IH (S n) sel).
      assert (Hshift : ∀ i, (∃ s', (s :: l) !! i = Some s' ∧ si_name s' = name) →
        ∃ k, i = S k ∧ ∃ s', l !! k = Some s' ∧ si_name s' = name).
      { intros [|i] (s' & Hl & Hn); [cbn in *; congruence|]. eauto. }
      destruct (fold_res _ _ _) as [[j|]|e|]; [| | |done].
      * destruct IH as [[-> Hno]|(-> & i & -> & Hi & Hu)].
        -- left. split; [done|]. intros i (k & _ & Hk)%Hshift. by apply (Hno k).
        -- right. split; [done|]. exists (S i). split; [lia|]. split; [done|].
           intros i' (k & -> & Hk)%Hshift. f_equal. by apply Hu.
      * destruct IH as [-> Hno]. split; [done|]. intros i (k & _ & Hk)%Hshift. by apply (Hno k).
      * destruct IH as [[? [i Hi]]|(i & i' & Hne & Hi & Hi')]; [left|right]; [split; [done|]; by exists (S i)|].
        exists (S i), (S i'). split; [congruence|done].
Qed.

(** * Properties *)

(** split delivers to every branch.  A split is built exactly when all
    its branches are connected, an unconnected one is named by the error;
    then each message goes once to each branch, asynchronous branches first
    and otherwise in declaration order, with the same payload and context,
    and sharing the payload never fails. *)
Theorem split_delivers {Pool PriorityPool Token Otel Any V} N name
    (links : list (StreamInner Pool PriorityPool)) self tracing
    (new_span : MessageContext Token Otel Any → option Otel) ctx (p : Payload V) :
  split_from_typed N name links = Ok self →
  match split_build self with
  | Ok self => Forall (λ l, is_Some (downstream l)) links ∧
      ∃ emitted, split_consume tracing new_span self ctx p = Ok emitted ∧
        (λ e, e.1.1) <$> emitted = filter (λ i, branch_is_async links i = true) (seq 0 N) ++
                                   filter (λ i, branch_is_async links i = false) (seq 0 N) ∧
        (λ e, e.1.1) <$> emitted ≡ₚ seq 0 N ∧
        Forall (λ e, e.1.2 = (start_span tracing new_span ctx).1 ∧ into_value e.2 = into_value p) emitted
  | Err e => ∃ l, l ∈ links ∧ downstream l = None ∧ e = ConsumerNotSet (si_name l)
  | Panic => False
  end.
Proof.
  unfold split_from_typed. case_decide as Hlen; [|done]. intros [= <-]. unfold split_build; cbn [split_links].
  destruct (check_branches links) as [[Hall ->]|(_ & l & Hin & Hl & ->)]; cbn; [|by exists l].
  split; [done|]. unfold split_consume; cbn [split_links dispatch_order].
  destruct (start_span tracing new_span ctx) as [ctx' sp].
  set (key := λ i, negb (branch_is_async links i)).
  destruct (split_loop_spec (length links) 0 (sort_by_key key (seq 0 (length links))) ctx' p)
    as (emitted & Hloop & Hord & Hem).
  { rewrite sort_by_key_perm, length_seq. lia. }
  exists emitted. split; [done|]. rewrite Hord, Hlen. split_and!; [|apply sort_by_key_perm|done].
  rewrite sort_by_key_filter. f_equal; apply list_filter_iff; intros i; unfold key;
    by destruct (branch_is_async links i).
Qed.

Definition branch_example (name : string) (async : bool) : StreamInner unit unit :=
  MkStreamInner 1 name "" "" (Some (Dynamic (MkLinkCollector 5 (CFunctionCall async) "a" "b" "" "" false 0))).
Lemma split_delivers_witness :
  ∃ emitted, split_consume (Token := unit) (Any := unit) true (λ _, None)
      (MkSplit [branch_example "x" false; branch_example "y" true] [1; 0]) (new tt tt) (Owned 7) = Ok emitted ∧
    (λ e, e.1.1) <$> emitted = [1; 0].
Proof.
  destruct (split_delivers (Token := unit) (Otel := unit) (Any := unit) 2 "s"
    [branch_example "x" false; branch_example "y" true]
    (MkSplit [branch_example "x" false; branch_example "y" true] [0; 1]) true (λ _, None) (new tt tt) (Owned 7))
    as (_ & emitted & He & Ho & _).
  - reflexivity.
  - exists emitted. split; [exact He|exact Ho].
Defined.

(** a case resolves a branch name exactly when it is not empty and one
    branch carries it, and dispatching by the resolved index reaches that
    branch; an empty, unknown or ambiguous name is an error, never a panic. *)
Theorem when_index_unique {Pool PriorityPool Token Otel Any V} (self : CaseStream Pool PriorityPool) name i
    tracing (new_span : MessageContext Token Otel Any → option Otel) ctx (p : Payload V) :
  (when_index self name = Ok i ↔
    name ≠ "" ∧ ∀ j, (∃ s, when_streams self !! j = Some s ∧ si_name s = name) ↔ j = i) ∧
  when_index self name ≠ Panic ∧
  (when_index self name = Ok i →
    case_consume tracing new_span (λ _, i) self ctx p = Ok (i, (start_span tracing new_span ctx).1, p)).
Proof.
  assert (Hiff : when_index self name ≠ Panic ∧ (when_index self name = Ok i ↔
    name ≠ "" ∧ ∀ j, (∃ s, when_streams self !! j = Some s ∧ si_name s = name) ↔ j = i)).
  { unfold when_index. case_decide as Hn; [split; [done|naive_solver]|].
    pose proof (when_index_loop (case_id self) name (when_streams self) 0 None) as Hloop. cbn zeta in Hloop.
    change (imap (λ i s, (0 + i, s)) (when_streams self)) with (imap pair (when_streams self)) in Hloop.
    destruct (fold_res _ _ _) as [[j|]|e|]; cbn; [| | |done].
    - split; [done|]. destruct Hloop as [[? _]|(_ & k & -> & Hk & Hu)]; [done|]. split.
      + intros [= <-]. split; [done|]. intros j'. split; [apply Hu|by intros ->].
      + intros [_ Hi]. f_equal. cbn. by apply Hi.
    - split; [done|]. split; [done|]. intros [_ Hi]. destruct Hloop as [_ Hno]. destruct (Hno i). by apply Hi.
    - split; [done|]. split; [done|]. intros [_ Hi].
      destruct Hloop as [[[? ?] _]|(k & k' & Hne & Hk%Hi & Hk'%Hi)]; congruence. }
  destruct Hiff as [Hp Hiff]. split_and!; [done|done|]. intros [_ Hi]%Hiff.
  destruct (proj2 (Hi i) eq_refl) as (s & Hs & _). unfold case_consume. by rewrite Hs.
Qed.
