(* ===== verification/Transforms.v ===== *)
(** The transforming operators of [src/src/operators]: map, filter, flat map,
    key by, merge, cycle link, process, delay, input and sink, with the
    construction of split and case around [Operators].

    A program is a graph of streams with a store of operators; the consumer of
    a link is the handle of an operator.  A user function is what it does with
    its collectors: the list of its calls, in order.  Consuming a message is
    the list of calls the operator makes. *)

From S2P Require Import Prelude Errors Config Context Environment Graph Operators.
From stdpp Require Import pretty.
Local Open Scope Z_scope.

Section transforms.
Context {Json Pool PriorityPool Endpoint Storage Buildable Token Otel Any Val : Type}.
Notation Env := (RuntimeEnvironment Json Pool PriorityPool Endpoint Storage Buildable).
Notation G := (Graph Json Pool PriorityPool Endpoint Storage Buildable).
Notation Ctx := (MessageContext Token Otel Any).

(** * Operators *)

(** The business functions: the calls they make on their collectors. *)
Definition MapFunction : Type := Ctx → Val → list (Ctx * Val).
Definition FlatMapFunction : Type := Ctx → Val → list (Ctx * Val).
Definition KeyByFunction : Type := Ctx → Val → list (Ctx * Val).
Definition FilterFunction : Type := Ctx → Val → bool.
Definition StreamIterable : Type := Val → list Val.
(** A call on the output or on the error collector. *)
Definition ProcessFunction : Type := Ctx → Val → list (Ctx * (Val + Val)).
Record DelayFunction := MkDelayFunction {
  duration : Ctx → Val → Z;
  delay_error : Ctx → Val → RuntimeError → list (Ctx * Val) }.
(** The trait's own [delay_error] does nothing. *)
Definition default_delay_error : Ctx → Val → RuntimeError → list (Ctx * Val) := λ _ _ _, [].

(** Streams and consumers outside the program (endpoints) are addresses. *)
Inductive Operator :=
| OMap (output : Z) (function : MapFunction)
| OFlatMap (output : Z) (function : FlatMapFunction)
| OKeyBy (output : Z) (function : KeyByFunction)
| OFilter (output : Z) (function : FilterFunction)
| OFlatMapIterable (output : Z) (into_stream_items : StreamIterable)
| OMerge (output : Z)
| OLink (stream : Z) (source : option Z)
| OProcess (output error : Z) (function : ProcessFunction)
| ODelay (output : Z) (function : DelayFunction)
| OSplit (links : list Z) (dispatch_order : list nat)
| OCase (id : Z) (selector : Val → nat) (when_streams : list Z)
| OSink (id : Z) (sink_consumer : option Z) (error_stream : Z)
| OSinkWithResult (result_stream : Z) (sink_consumer : option Z) (error_stream : Z)
| OResultLink (result_consumer : option Z).

(** The streams an operator emits on when it consumes a message. *)
Definition outputs (op : Operator) : list Z :=
  match op with
  | OMap o _ | OFlatMap o _ | OKeyBy o _ | OFilter o _ | OFlatMapIterable o _ | OMerge o | OLink o _ | ODelay o _ => [o]
  | OProcess o e _ => [o; e]
  | OSplit links _ | OCase _ _ links => links
  | OSink _ _ _ | OSinkWithResult _ _ _ | OResultLink _ => []
  end.

(** The calls of an operator: a message put on a stream, handed to an
    endpoint outside the program, or scheduled on the delay pool. *)
Inductive Call :=
| EmitOn (stream : Z) (context : Ctx) (payload : Payload Val)
| ToEndpoint (consumer : Z) (context : Ctx) (payload : Payload Val)
| DelayOn (stream : Z) (context : Ctx) (duration : Z) (payload : Payload Val) (delay_error : RuntimeError → list (Ctx * Val)).
Definition out (stream : Z) (cv : Ctx * Val) : Call := EmitOn stream cv.1 (Owned cv.2).

(** The loop of flat map iterable: the last item takes the context. *)
Fixpoint iterable_loop (items : list Val) (context : option Ctx) : outcome Empty_set (list (Ctx * Val)) :=
  match items with
  | [] => Ok []
  | item :: items =>
      match context with
      | None => Panic
      | Some c =>
          emitted ← iterable_loop items (match items with [] => None | _ => Some c end);
          Ok ((c, item) :: emitted)
      end
  end.

(** [consume] of each operator, once its span is started. *)
Implicit Types (context : Ctx) (payload : Payload Val).
Definition consume_map (output : Z) (f : MapFunction) context payload : list Call := out output <$> f context (into_value payload).
Definition consume_flat_map (output : Z) (f : FlatMapFunction) context payload : list Call := out output <$> f context (into_value payload).
Definition consume_key_by (output : Z) (f : KeyByFunction) context payload : list Call := out output <$> f context (into_value payload).
Definition consume_filter (output : Z) (f : FilterFunction) context payload : list Call :=
  if f context (into_value payload) then [EmitOn output context payload] else [].
Definition consume_flat_map_iterable (output : Z) (items : StreamIterable) context payload : outcome Empty_set (list Call) :=
  emitted ← iterable_loop (items (into_value payload)) (Some context);
  Ok (out output <$> (emitted : list (Ctx * Val))).
Definition consume_merge (output : Z) context payload : list Call := [EmitOn output context payload].
Definition consume_link (stream : Z) context payload : list Call := [EmitOn stream context payload].
Definition consume_process (output error : Z) (f : ProcessFunction) context payload : list Call :=
  (λ cv, match cv.2 with inl v => out output (cv.1, v) | inr v => out error (cv.1, v) end) <$> f context (into_value payload).
(** Without a delay the message is emitted at once. *)
Definition consume_delay (output : Z) (f : DelayFunction) context payload : list Call :=
  let d := duration f context (into_value payload) in
  if decide (d = 0) then [EmitOn output context payload]
  else
    let '(error_payload, payload) := share payload in
    [DelayOn output context d payload (delay_error f context (into_value error_payload))].
Definition emit_at (links : list Z) (calls : list Call) (e : nat * Ctx * Payload Val) : outcome Empty_set (list Call) :=
  match links !! e.1.1 with Some s => Ok (calls ++ [EmitOn s e.1.2 e.2]) | None => Panic end.
Definition consume_split (links : list Z) (order : list nat) context payload : outcome Empty_set (list Call) :=
  emitted ← split_loop (length links) 0 order (Some context) (Some payload);
  fold_res (emit_at links) [] emitted.
Definition consume_case (selector : Val → nat) (branches : list Z) context payload : outcome Empty_set (list Call) :=
  match branches !! selector (into_value payload) with Some s => Ok [EmitOn s context payload] | None => Panic end.
Definition consume_sink (consumer : option Z) context payload : list Call :=
  match consumer with Some c => [ToEndpoint c context payload] | None => [] end.
Definition consume_sink_with_result (consumer : option Z) context payload : list Call :=
  match consumer with Some c => [ToEndpoint c context payload] | None => [] end.
Definition consume_result (consumer : option Z) context payload : list Call :=
  match consumer with Some c => [ToEndpoint c context payload] | None => [] end.
(** [span] is [start_span] of the operator. *)
Definition consume (span : Ctx → Ctx) (op : Operator) context payload : outcome Empty_set (list Call) :=
  let context := span context in
  match op with
  | OMap o f => Ok (consume_map o f context payload)
  | OFlatMap o f => Ok (consume_flat_map o f context payload)
  | OKeyBy o f => Ok (consume_key_by o f context payload)
  | OFilter o f => Ok (consume_filter o f context payload)
  | OFlatMapIterable o items => consume_flat_map_iterable o items context payload
  | OMerge o => Ok (consume_merge o context payload)
  | OLink o _ => Ok (consume_link o context payload)
  | OProcess o e f => Ok (consume_process o e f context payload)
  | ODelay o f => Ok (consume_delay o f context payload)
  | OSplit links order => consume_split links order context payload
  | OCase _ selector branches => consume_case selector branches context payload
  | OSink _ consumer _ => Ok (consume_sink consumer context payload)
  | OSinkWithResult _ consumer _ => Ok (consume_sink_with_result consumer context payload)
  | OResultLink consumer => Ok (consume_result consumer context payload)
  end.

(** * Construction *)
Record Program := MkProgram { graph : G; operators : gmap Z Operator; next_operator : Z }.
(** The registration of a link: counter, type name and statistics cell. *)
Record Registration := MkReg { counter : option (RuntimeResult unit); type_name : string; calls : Z }.
Implicit Types p : Program.
Definition program_new (env : Env) : Program := MkProgram (graph_new env) ∅ 0.
Definition set_graph p (g : G) : Program := MkProgram g (operators p) (next_operator p).
Definition set_env p (env : Env) : Program := set_graph p (MkGraph env (inners (graph p)) (next_address (graph p))).
Definition put_operator p (h : Z) (op : Operator) : Program := MkProgram (graph p) (<[h := op]> (operators p)) (next_operator p).
Definition add_operator p (op : Operator) : Z * Program :=
  (next_operator p, MkProgram (graph p) (<[next_operator p := op]> (operators p)) (next_operator p + 1)).
Definition and_then {A B} (r : RuntimeResult A * Program) (f : A → Program → RuntimeResult B * Program) : RuntimeResult B * Program :=
  match r with (Ok a, p) => f a p | (Err e, p) => (Err e, p) | (Panic, p) => (Panic, p) end.

(** [Stream::new], [Stream::derived] and [Stream::with_id]. *)
Definition new_stream p (id : Z) : RuntimeResult Z * Program :=
  match with_id_and_serde (graph p) id with
  | Ok (a, g) => (Ok a, set_graph p g)
  | Err e => (Err e, p)
  | Panic => (Panic, p)
  end.
Definition connect p (source handle target_id : Z) (r : Registration) : RuntimeResult unit * Program :=
  let '(res, g) := try_set_consumer (graph p) source handle target_id (counter r) (type_name r) (calls r) in (res, set_graph p g).
Definition connect_typed p (source handle target_id : Z) (r : Registration) : RuntimeResult unit * Program :=
  let '(res, g) := try_set_typed_consumer (graph p) source handle target_id (counter r) (type_name r) (calls r) in (res, set_graph p g).

(** Operators with one source and one output. *)
Definition make_unary p (config : StreamConfig Json) (source : Z) (operator : Z → Operator) (r : Registration) : RuntimeResult Z * Program :=
  and_then (new_stream p (str_id config)) (λ output p,
    let '(h, p) := add_operator p (operator output) in
    and_then (connect p source h (str_id config) r) (λ _ p, (Ok output, p))).
Definition make_map p config source f r := make_unary p config source (λ o, OMap o f) r.
Definition make_flat_map p config source f r := make_unary p config source (λ o, OFlatMap o f) r.
Definition make_key_by p config source f r := make_unary p config source (λ o, OKeyBy o f) r.
Definition make_filter p config source f r := make_unary p config source (λ o, OFilter o f) r.
Definition make_flat_map_iterable p config source items r := make_unary p config source (λ o, OFlatMapIterable o items) r.
Definition make_delay p config source f r := make_unary p config source (λ o, ODelay o f) r.

(** [MergeStream::make]: one operator behind every source. *)
Fixpoint connect_all p (sources : list (Z * Registration)) (handle target_id : Z) : RuntimeResult unit * Program :=
  match sources with
  | [] => (Ok tt, p)
  | (source, r) :: sources => and_then (connect p source handle target_id r) (λ _ p, connect_all p sources handle target_id)
  end.
Definition make_merge p (config : StreamConfig Json) (sources : list (Z * Registration)) : RuntimeResult Z * Program :=
  match sources with
  | [] => (Panic, p)
  | _ =>
      and_then (new_stream p (str_id config)) (λ output p,
        let '(h, p) := add_operator p (OMerge output) in
        and_then (connect_all p sources h (str_id config)) (λ _ p, (Ok output, p)))
  end.

(** [ErrorStream::new]: the negated identifier wraps for the least one. *)
Definition new_error_stream p (config : StreamConfig Json) : RuntimeResult Z * Program :=
  if decide (str_id config = i32_min) then (Panic, p) else new_stream p (- str_id config).
Definition make_process p (config : StreamConfig Json) (source : Z) f (r : Registration) : RuntimeResult (Z * Z) * Program :=
  and_then (new_stream p (str_id config)) (λ output p,
  and_then (new_error_stream p config) (λ error p,
    let '(h, p) := add_operator p (OProcess output error f) in
    and_then (connect p source h (str_id config) r) (λ _ p, (Ok (output, error), p)))).

(** [SplitStream::make]: the branches, then the operator's own stream. *)
Fixpoint new_links p (id : Z) (name : string) (index n : nat) : list Z * Program :=
  match n with
  | O => ([], p)
  | S n =>
      let '(a, g) := derived_with_name (graph p) id (name +:+ "SplitLink" +:+ pretty index) in
      let '(links, p) := new_links (set_graph p g) id name (S index) n in
      (a :: links, p)
  end.
Definition make_split p (N : nat) (config : StreamConfig Json) (source : Z) (handle : Buildable) (r : Registration) :
    RuntimeResult (list Z) * Program :=
  let '(links, p) := new_links p (str_id config) (str_name config) 0 N in
  and_then (new_stream p (str_id config)) (λ _ p,
    let p := set_env p (register_runtime_buildable (environment (graph p)) handle) in
    let '(h, p) := add_operator p (OSplit links (seq 0 N)) in
    and_then (connect p source h (str_id config) r) (λ _ p, (Ok links, p))).
(** [build] of a split, run once the graph is connected. *)
Definition build_operator p (h : Z) : RuntimeResult unit * Program :=
  match operators p !! h with
  | Some (OSplit links order) =>
      match mapM (λ a, inners (graph p) !! a) links with
      | None => (Panic, p)
      | Some inners =>
          match split_build (MkSplit inners order) with
          | Ok self => (Ok tt, put_operator p h (OSplit links (dispatch_order self)))
          | Err e => (Err e, p)
          | Panic => (Panic, p)
          end
      end
  | _ => (Ok tt, p)
  end.

(** [CaseStream::make], and [when] for each of its branches. *)
Definition make_case p (config : StreamConfig Json) (source : Z) selector (r : Registration) : RuntimeResult Z * Program :=
  let p := set_env p (register_runtime_stream (environment (graph p)) (str_id config)) in
  let '(h, p) := add_operator p (OCase (str_id config) selector []) in
  and_then (connect p source h (str_id config) r) (λ _ p, (Ok h, p)).
Definition make_when p (h : Z) (config : StreamConfig Json) (r : Registration) : RuntimeResult Z * Program :=
  match operators p !! h with
  | Some (OCase id selector branches) =>
      and_then (new_stream p (str_id config)) (λ output p,
        let env := environment (graph p) in
        let link := MkGraphLink id (str_id config) (env_call_semantics env id (str_id config)) (type_name r) (calls r) in
        (Ok output, put_operator (set_env p (register_graph_link env link)) h (OCase id selector (branches ++ [output]))))
  | _ => (Panic, p)
  end.

(** Cycle links: created first, given their source later. *)
Definition make_link p (config : StreamConfig Json) : RuntimeResult (Z * Z) * Program :=
  and_then (new_stream p (str_id config)) (λ stream p,
    let '(h, p) := add_operator p (OLink stream None) in (Ok (h, stream), p)).
Definition link_set_source p (h source : Z) (r : Registration) : RuntimeResult unit * Program :=
  match operators p !! h with
  | Some (OLink stream previous) =>
      match inners (graph p) !! stream with
      | None => (Panic, p)
      | Some s =>
          match previous with
          | Some _ => (Err (SourceAlreadySet (si_name s)), p)
          | None => and_then (connect_typed p source h (si_id s) r) (λ _ p, (Ok tt, put_operator p h (OLink stream (Some source))))
          end
      end
  | _ => (Panic, p)
  end.

(** Sinks without and with a result stream. *)
Definition make_sink p (config : StreamConfig Json) (source : Z) (r : Registration) : RuntimeResult Z * Program :=
  let p := set_env p (register_runtime_stream (environment (graph p)) (str_id config)) in
  and_then (new_error_stream p config) (λ error p,
    let '(h, p) := add_operator p (OSink (str_id config) None error) in
    and_then (connect p source h (str_id config) r) (λ _ p, (Ok h, p))).
Definition make_sink_with_result p (config : StreamConfig Json) (source : Z) (r : Registration) : RuntimeResult (Z * Z) * Program :=
  and_then (new_stream p (str_id config)) (λ result p,
  and_then (new_error_stream p config) (λ error p,
    let '(h, p) := add_operator p (OSinkWithResult result None error) in
    and_then (connect p source h (str_id config) r) (λ _ p, (Ok (h, result), p)))).
(** [set_sink_consumer] and [set_result_consumer] replace the consumer. *)
Definition set_consumer_cell p (h consumer : Z) : Program :=
  match operators p !! h with
  | Some (OSink id _ e) => put_operator p h (OSink id (Some consumer) e)
  | Some (OSinkWithResult s _ e) => put_operator p h (OSinkWithResult s (Some consumer) e)
  | Some (OResultLink _) => put_operator p h (OResultLink (Some consumer))
  | _ => p
  end.

(** * Inputs *)
Record Input := MkInput { in_stream : Z; in_error : Z; in_result : Z; in_result_source : option Z }.
Implicit Types i : Input.
Definition new_input p (config : StreamConfig Json) : RuntimeResult Input * Program :=
  and_then (new_error_stream p config) (λ error p,
  and_then (new_stream p (str_id config)) (λ stream p,
    let '(h, p) := add_operator p (OResultLink None) in (Ok (MkInput stream error h None), p))).
(** [set_source_typed]: the result link is connected before the cell is tried. *)
Definition input_set_source p i (source : Z) (r : Registration) : RuntimeResult unit * Input * Program :=
  match inners (graph p) !! in_stream i with
  | None => (Panic, i, p)
  | Some s =>
      match connect_typed p source (in_result i) (si_id s) r with
      | (Ok _, p) =>
          match in_result_source i with
          | Some _ => (Err (SourceAlreadySet (si_name s)), i, p)
          | None => (Ok tt, MkInput (in_stream i) (in_error i) (in_result i) (Some source), p)
          end
      | (Err e, p) => (Err e, i, p)
      | (Panic, p) => (Panic, i, p)
      end
  end.
(** [consume_payload]: a message of the endpoint enters the graph. *)
Definition input_consume (span : Ctx → Ctx) i (context : Ctx) (payload : Payload Val) : Call :=
  EmitOn (in_stream i) (span context) payload.
(** The endpoint and connector of an input, as configured now. *)
Definition input_endpoint_id (env : Env) (id : Z) : Z := default 0 (stream_config env id ≫= λ c, match c with InputStream _ e => Some e | _ => None end).
Definition input_endpoint (env : Env) (id : Z) (name : string) : RuntimeResult (RuntimeEndpointConfig) :=
  ok_or (endpoint_by_id (runtime_config env) (input_endpoint_id env id))
    (InvalidConfiguration ("endpoint " +:+ pretty (input_endpoint_id env id) +:+ " referenced by input stream " +:+
       debug name +:+ " is not configured")).
Definition input_endpoint_name (env : Env) (id : Z) (name : string) : RuntimeResult string :=
  endpoint_name <$> input_endpoint env id name.
Definition input_connector_name (env : Env) (id : Z) (name : string) : RuntimeResult string :=
  endpoint ← input_endpoint env id name;
  connector_name <$> ok_or (data_connector_by_id (runtime_config env) (data_connector_id endpoint))
    (InvalidConfiguration ("data connector " +:+ pretty (data_connector_id endpoint) +:+ " referenced by endpoint " +:+
       debug (endpoint_name endpoint) +:+ " is not configured")).

(** * Graphs under construction

    [fluent_step] are the operations, for the operators of this file, that
    hand out the streams they create.  Of these operators [link_set_source]
    alone can close a cycle; it is a [program_step] and no [fluent_step].
    Joins, multi-joins and sub-streams, which keep messages in a store or wait
    for a result, are components of their own ([Joins], [SubStream]) and not
    operators of a [Program]. *)
Definition exists_stream p (a : Z) : Prop := is_Some (inners (graph p) !! a).
Definition unary (operator : Z → Operator) : Prop :=
  (∃ f, operator = λ o, OMap o f) ∨ (∃ f, operator = λ o, OFlatMap o f) ∨ (∃ f, operator = λ o, OKeyBy o f) ∨
  (∃ f, operator = λ o, OFilter o f) ∨ (∃ f, operator = λ o, OFlatMapIterable o f) ∨ (∃ f, operator = λ o, ODelay o f).
Inductive fluent_step : Program → Program → Prop :=
| fs_unary p config source operator r : exists_stream p source → unary operator → fluent_step p (make_unary p config source operator r).2
| fs_merge p config sources : Forall (exists_stream p) sources.*1 → fluent_step p (make_merge p config sources).2
| fs_process p config source f r : exists_stream p source → fluent_step p (make_process p config source f r).2
| fs_split p N config source handle r : exists_stream p source → fluent_step p (make_split p N config source handle r).2
| fs_build p h : fluent_step p (build_operator p h).2
| fs_case p config source selector r : exists_stream p source → fluent_step p (make_case p config source selector r).2
| fs_when p h config r : fluent_step p (make_when p h config r).2
| fs_link p config : fluent_step p (make_link p config).2
| fs_sink p config source r : exists_stream p source → fluent_step p (make_sink p config source r).2
| fs_sink_with_result p config source r : exists_stream p source → fluent_step p (make_sink_with_result p config source r).2
| fs_consumer p h consumer : fluent_step p (set_consumer_cell p h consumer)
| fs_input p config : fluent_step p (new_input p config).2
| fs_input_source p i source r op : operators p !! in_result i = Some op → outputs op = [] →
    fluent_step p (input_set_source p i source r).2
| fs_pool p name_of pool : fluent_step p (set_env p (register_task_pool name_of (environment (graph p)) pool).2)
| fs_priority_pool p name_of pool : fluent_step p (set_env p (register_priority_task_pool name_of (environment (graph p)) pool).2).
Inductive program_step : Program → Program → Prop :=
| ps_fluent p p' : fluent_step p p' → program_step p p'
| ps_link_source p h source r : program_step p (link_set_source p h source r).2.
End transforms.
Arguments Program : clear implicits.
Arguments Operator : clear implicits.
Arguments Call : clear implicits.
Arguments DelayFunction : clear implicits.
Create HintDb operators.
#[export] Hint Unfold consume consume_map consume_flat_map consume_key_by consume_filter consume_flat_map_iterable consume_merge
  consume_link consume_process consume_delay consume_split consume_case consume_sink consume_sink_with_result consume_result : operators.

(** * Lemmas *)
Section transforms_lemmas.
Context {Json Pool PriorityPool Endpoint Storage Buildable Token Otel Any Val : Type}.
Notation Env := (RuntimeEnvironment Json Pool PriorityPool Endpoint Storage Buildable).
Notation Ctx := (MessageContext Token Otel Any).
Notation Prog := (Program Json Pool PriorityPool Endpoint Storage Buildable Token Otel Any Val).
Notation Op := (Operator Token Otel Any Val).
Implicit Types (p : Prog) (op : Op).

Definition op_ok op : Prop := match op with OSplit links order => order ≡ₚ seq 0 (length links) | _ => True end.
(** Every consumer is an operator that emits only on streams created after
    the stream it consumes: the graph has no cycle. *)
Record acyclic p : Prop := {
  ac_streams : allocated (graph p);
  ac_links a s d : inners (graph p) !! a = Some s → downstream s = Some d →
    ∃ op, operators p !! consumer (dispatch_collector d) = Some op ∧ Forall (λ o, a < o) (outputs op);
  ac_operators h op : operators p !! h = Some op →
    h < next_operator p ∧ Forall (exists_stream p) (outputs op) ∧ op_ok op }.

Lemma and_then_ind {A B} (Q : Prog → Prop) (r : RuntimeResult A * Prog) (f : A → Prog → RuntimeResult B * Prog) :
  Q r.2 → (∀ a, r.1 = Ok a → Q (f a r.2).2) → Q (and_then r f).2.
Proof. destruct r as [[a|e|] p]; cbn; auto. Qed.
Lemma set_env_acyclic p (env : Env) : acyclic p → acyclic (set_env p env).
Proof. intros [H1 H2 H3]. by split. Qed.

(** A fresh stream: unconnected, at the next address. *)
Definition with_stream p p' (a : Z) : Prop :=
  a = next_address (graph p) ∧ next_address (graph p') = a + 1 ∧ operators p' = operators p ∧ next_operator p' = next_operator p ∧
  ∃ s, inners (graph p') = <[a := s]> (inners (graph p)) ∧ downstream s = None.
Lemma with_stream_acyclic p p' a : with_stream p p' a → acyclic p → acyclic p' ∧ exists_stream p' a.
Proof.
  intros (-> & Hn & Ho & Hno & s & Hi & Hd) [H1 H2 H3]. split; [|unfold exists_stream; by rewrite Hi, lookup_insert_eq].
  split.
  - intros b s'. rewrite Hi, Hn, lookup_insert_Some. intros [[<- _]|[_ Hb%H1]]; lia.
  - intros b s' d. rewrite Hi, Ho, lookup_insert_Some. intros [[<- <-]|[_ Hb]] Hs; [congruence|by apply (H2 b s' d)].
  - intros h op. rewrite Ho, Hno. intros (? & Hall & ?)%H3. split_and!; [done| |done].
    eapply Forall_impl; [exact Hall|]. intros o. unfold exists_stream. rewrite Hi. intros Hs.
    destruct (decide (next_address (graph p) = o)) as [<-|Hne]; [by rewrite lookup_insert_eq|by rewrite lookup_insert_ne].
Qed.
Lemma with_stream_keeps p p' a b : with_stream p p' a → acyclic p → exists_stream p b → exists_stream p' b ∧ b < a.
Proof.
  intros (-> & _ & _ & _ & s & Hi & _) [H1 _ _] [s' Hb]. pose proof (H1 _ _ Hb). split; [|lia].
  exists s'. rewrite Hi, lookup_insert_ne by lia. done.
Qed.
Lemma new_stream_Ok p id a : (new_stream p id).1 = Ok a → with_stream p (new_stream p id).2 a.
Proof.
  unfold new_stream, with_id_and_serde. destruct (configured_stream_id id) as [c|e|]; cbn; try done.
  destruct (stream_grouping (environment (graph p)) id). cbn. intros [= <-]. split_and!; try done. by eexists.
Qed.
Lemma new_stream_not_Ok p id : (∀ a, (new_stream p id).1 ≠ Ok a) → (new_stream p id).2 = p.
Proof. unfold new_stream. destruct (with_id_and_serde (graph p) id) as [[a g]|e|]; cbn; [|done..]. intros H. by destruct (H a). Qed.
Lemma new_stream_acyclic p id : acyclic p → acyclic (new_stream p id).2.
Proof.
  intros Hp. destruct (new_stream p id).1 as [a|e|] eqn:E; [|rewrite new_stream_not_Ok; [done|by rewrite E]..].
  by eapply with_stream_acyclic; [apply new_stream_Ok|].
Qed.
Lemma error_stream_Ok p config a : (new_error_stream p config).1 = Ok a → with_stream p (new_error_stream p config).2 a.
Proof. unfold new_error_stream. case_decide; [done|apply new_stream_Ok]. Qed.
Lemma error_stream_acyclic p config : acyclic p → acyclic (new_error_stream p config).2.
Proof. unfold new_error_stream. case_decide; [done|apply new_stream_acyclic]. Qed.
Lemma add_operator_acyclic p op :
  acyclic p → Forall (exists_stream p) (outputs op) → op_ok op →
  acyclic (add_operator p op).2 ∧ operators (add_operator p op).2 !! (add_operator p op).1 = Some op.
Proof.
  intros [H1 H2 H3] Hout Hok. split; [|cbn; by rewrite lookup_insert_eq]. split; cbn; [done| |].
  - intros a s d Ha Hd. destruct (H2 a s d Ha Hd) as (op' & Hop & Hall). exists op'. split; [|done].
    rewrite lookup_insert_ne; [done|]. apply H3 in Hop as [? _]. lia.
  - intros h op'. rewrite lookup_insert_Some. intros [[<- <-]|[_ (? & ? & ?)%H3]]; split_and!; try done; lia.
Qed.
(** An operator keeps its handle while its outputs grow by later streams. *)
Definition connected p (a : Z) : Prop := ∃ s, inners (graph p) !! a = Some s ∧ is_Some (downstream s).
Lemma put_operator_acyclic p h op op' :
  acyclic p → operators p !! h = Some op → Forall (exists_stream p) (outputs op') → op_ok op' →
  (∀ a, connected p a → Forall (λ o, a < o) (outputs op) → Forall (λ o, a < o) (outputs op')) → acyclic (put_operator p h op').
Proof.
  intros [H1 H2 H3] Hh Hout Hok Hlt. split; cbn; [done| |].
  - intros a s d Ha Hd. destruct (H2 a s d Ha Hd) as (op0 & Hop & Hall). destruct (decide (consumer (dispatch_collector d) = h)) as [Hc|Hne].
    + exists op'. rewrite Hc, lookup_insert_eq. split; [done|]. rewrite Hc in Hop. simplify_eq. apply Hlt; [|done]. exists s. by rewrite Hd.
    + exists op0. by rewrite lookup_insert_ne.
  - intros h' op0. rewrite lookup_insert_Some. intros [[<- <-]|[_ (? & ? & ?)%H3]]; [|done].
    split_and!; [|done..]. by apply H3 in Hh as [? _].
Qed.
(** Connecting a stream to an operator with later outputs. *)
Lemma store_downstream_acyclic p (env : Env) source s d op :
  acyclic p → inners (graph p) !! source = Some s → operators p !! consumer (dispatch_collector d) = Some op →
  Forall (λ o, source < o) (outputs op) → acyclic (set_graph p (store_downstream (graph p) env source s d).2).
Proof.
  intros [H1 H2 H3] Hs Hop Hall. unfold store_downstream. destruct (downstream s) as [d'|] eqn:Ed; cbn; [by split|].
  split; cbn.
  - intros a s'. cbn. rewrite lookup_insert_Some. intros [[<- _]|[_ Ha]]; by eapply H1.
  - intros a s' d'. rewrite lookup_insert_Some. intros [[<- <-]|[_ Ha]]; [|by eapply H2]. cbn. intros [= <-]. by exists op.
  - intros h op' (? & Hex & ?)%H3. split_and!; [done| |done]. eapply Forall_impl; [exact Hex|]. unfold exists_stream; cbn.
    intros o Ho. destruct (decide (source = o)) as [<-|]; [by rewrite lookup_insert_eq|by rewrite lookup_insert_ne].
Qed.
Lemma connect_acyclic p source h id r op :
  acyclic p → operators p !! h = Some op → Forall (λ o, source < o) (outputs op) →
  acyclic (connect p source h id r).2 ∧ acyclic (connect_typed p source h id r).2.
Proof.
  intros Hp Hop Hall. unfold connect, connect_typed, try_set_consumer, try_set_typed_consumer.
  destruct (inners (graph p) !! source) as [s|] eqn:Hs; [|by destruct p as [[] ? ?]].
  destruct (LinkCollector_new _ _ _ _ _ _ _ _ _ _) as [[c|e|] env] eqn:El.
  2,3: split; [by apply (set_env_acyclic p env)|by destruct (downstream s); [destruct p as [[] ? ?]|apply (set_env_acyclic p env)]].
  apply LinkCollector_new_Ok in El as (_ & Hc & _).
  assert (∀ d, dispatch_collector d = c → acyclic (set_graph p (store_downstream (graph p) env source s d).2)) as Hst.
  { intros d Hd. apply (store_downstream_acyclic p env source s d op); [done..| |done]. by rewrite Hd, Hc. }
  split; [|destruct (downstream s) eqn:Ed; [by destruct p as [[] ? ?]|]].
  - pose proof (Hst (Dynamic c) eq_refl). by destruct (store_downstream _ _ _ _ _).
  - pose proof (Hst (Typed c (caller_is_async (caller c))) eq_refl). by destruct (store_downstream _ _ _ _ _).
Qed.
Lemma connect_operators p source h id r :
  operators (connect p source h id r).2 = operators p ∧ operators (connect_typed p source h id r).2 = operators p.
Proof. unfold connect, connect_typed. by destruct (try_set_consumer _ _ _ _ _ _ _), (try_set_typed_consumer _ _ _ _ _ _ _). Qed.
Lemma connect_all_acyclic p sources h id op :
  acyclic p → operators p !! h = Some op → Forall (λ a, Forall (λ o, a < o) (outputs op)) sources.*1 →
  acyclic (connect_all p sources h id).2.
Proof.
  intros Hp Hop Hs. revert p Hp Hop. induction sources as [|[source r] sources IH]; intros p Hp Hop; [done|]. cbn [connect_all].
  apply Forall_cons in Hs as [Hs1 Hs]. destruct (connect_acyclic p source h id r op) as [Hc _]; [done..|].
  apply and_then_ind; [done|]. intros _ _. apply IH; [done|done|]. by rewrite (proj1 (connect_operators p source h id r)).
Qed.
(** A new operator over streams created after its source. *)
Lemma add_connect_acyclic p op source id r :
  acyclic p → Forall (λ o, exists_stream p o ∧ source < o) (outputs op) → op_ok op →
  acyclic (connect (add_operator p op).2 source (add_operator p op).1 id r).2.
Proof.
  intros Hp Hout Hok. destruct (add_operator_acyclic p op) as [Ha Hl]; [done| |done|].
  - eapply Forall_impl; [exact Hout|]. by intros o [? _].
  - apply (connect_acyclic _ _ _ _ _ op); [done..|]. eapply Forall_impl; [exact Hout|]. by intros o [_ ?].
Qed.
Lemma and_then_ret {A B} (r : RuntimeResult A * Prog) (g : A → B) : (and_then r (λ a p, (Ok (g a), p))).2 = r.2.
Proof. by destruct r as [[a|e|] p]. Qed.
(** The streams of [p] are still those of [p'], below every new one. *)
Definition grown p p' : Prop :=
  acyclic p' ∧ (∀ b, exists_stream p b → exists_stream p' b) ∧ operators p' = operators p ∧ next_address (graph p) ≤ next_address (graph p').
Lemma grown_refl p : acyclic p → grown p p.
Proof. intros Hp. split; [done|]. by split_and!. Qed.
Lemma grown_trans p1 p2 p3 : grown p1 p2 → grown p2 p3 → grown p1 p3.
Proof. intros (? & ? & ? & ?) (? & ? & ? & ?). split; [done|]. split_and!; [auto|congruence|lia]. Qed.
Lemma with_stream_grown p p' a : acyclic p → with_stream p p' a → grown p p' ∧ exists_stream p' a ∧ next_address (graph p) ≤ a.
Proof.
  intros Hp Hw. destruct (with_stream_acyclic p p' a Hw Hp) as [Hac Hex].
  pose proof (λ b Hb, proj1 (with_stream_keeps p p' a b Hw Hp Hb)) as Hk.
  destruct Hw as (-> & Hn & Ho & _). split; [|split; [done|lia]]. split; [done|]. split; [done|]. split; [done|lia].
Qed.
Lemma below_new p p' a source : exists_stream p source → acyclic p → next_address (graph p) ≤ a → grown p p' → exists_stream p' source ∧ source < a.
Proof. intros [s Hs] Hp Ha (_ & Hk & _). split; [by apply Hk; exists s|]. pose proof (ac_streams p Hp _ _ Hs). lia. Qed.
Lemma new_links_grown p id name i n :
  acyclic p → let '(links, p') := new_links p id name i n in
  grown p p' ∧ length links = n ∧ Forall (λ o, exists_stream p' o ∧ next_address (graph p) ≤ o) links.
Proof.
  revert p i. induction n as [|n IH]; intros p i Hp; cbn [new_links]; [by split; [apply grown_refl|split_and!]|].
  destruct (derived_with_name _ _ _) as [a g] eqn:Ed.
  assert (with_stream p (set_graph p g) a) as Hw.
  { unfold derived_with_name in Ed. destruct (stream_grouping _ _). injection Ed as <- <-. split_and!; try done. by eexists. }
  destruct (with_stream_grown p _ a Hp Hw) as (Hg & Hex & Hle). specialize (IH (set_graph p g) (S i) (proj1 Hg)).
  destruct (new_links _ _ _ _ _) as [links p']. destruct IH as (Hg' & Hlen & Hall).
  split; [by eapply grown_trans|]. split; [cbn; lia|]. constructor; [split; [by apply Hg'|done]|].
  eapply Forall_impl; [exact Hall|]. intros o [? ?]. split; [done|]. destruct Hw as (_ & ? & _). cbn in *. lia.
Qed.

Lemma new_stream_grown p id a : acyclic p → (new_stream p id).1 = Ok a →
  grown p (new_stream p id).2 ∧ exists_stream (new_stream p id).2 a ∧ next_address (graph p) ≤ a.
Proof. intros Hp Ha%new_stream_Ok. by apply with_stream_grown. Qed.
Lemma error_stream_grown p config a : acyclic p → (new_error_stream p config).1 = Ok a →
  grown p (new_error_stream p config).2 ∧ exists_stream (new_error_stream p config).2 a ∧ next_address (graph p) ≤ a.
Proof. intros Hp Ha%error_stream_Ok. by apply with_stream_grown. Qed.
Lemma split_build_perm {P PP} (self : SplitStream P PP) self' :
  split_build self = Ok self' → dispatch_order self' ≡ₚ seq 0 (length (split_links self)).
Proof. unfold split_build. intros (u & _ & [= <-])%bind_Ok. apply sort_by_key_perm. Qed.

Lemma make_unary_acyclic p config source operator r :
  acyclic p → exists_stream p source → unary operator → acyclic (make_unary p config source operator r).2.
Proof.
  intros Hp Hs Hu. unfold make_unary. apply and_then_ind; [by apply new_stream_acyclic|]. intros a (Hg & Hex & Hle)%new_stream_grown; [|done].
  destruct (below_new _ _ _ _ Hs Hp Hle Hg) as [_ Hlt].
  change (acyclic (and_then (connect (add_operator (new_stream p (str_id config)).2 (operator a)).2 source
    (add_operator (new_stream p (str_id config)).2 (operator a)).1 (str_id config) r) (λ _ p0, (Ok a, p0))).2).
  rewrite (and_then_ret _ (λ _, a)). apply add_connect_acyclic; [apply Hg| |by destruct Hu as [[? ->]|[[? ->]|[[? ->]|[[? ->]|[[? ->]|[? ->]]]]]]].
  by destruct Hu as [[? ->]|[[? ->]|[[? ->]|[[? ->]|[[? ->]|[? ->]]]]]]; repeat constructor.
Qed.
Lemma make_merge_acyclic p config sources :
  acyclic p → Forall (exists_stream p) sources.*1 → acyclic (make_merge p config sources).2.
Proof.
  intros Hp Hs. unfold make_merge. destruct sources as [|sr sources]; [done|]. set (all := sr :: sources) in *.
  apply and_then_ind; [by apply new_stream_acyclic|]. intros a (Hg & Hex & Hle)%new_stream_grown; [|done].
  set (p1 := (new_stream p (str_id config)).2) in *.
  change (acyclic (and_then (connect_all (add_operator p1 (OMerge a)).2 all (add_operator p1 (OMerge a)).1 (str_id config)) (λ _ p0, (Ok a, p0))).2).
  rewrite (and_then_ret _ (λ _, a)). destruct (add_operator_acyclic p1 (OMerge a)) as [Ha Hl]; [apply Hg|by repeat constructor|done|].
  apply (connect_all_acyclic _ _ _ _ (OMerge a)); [done..|]. eapply Forall_impl; [exact Hs|]. intros b Hb.
  destruct (below_new _ _ _ _ Hb Hp Hle Hg) as [_ Hlt]. by repeat constructor.
Qed.
Lemma make_process_acyclic p config source f r :
  acyclic p → exists_stream p source → acyclic (make_process p config source f r).2.
Proof.
  intros Hp Hs. unfold make_process. apply and_then_ind; [by apply new_stream_acyclic|].
  intros a (Hg & Hex & Hle)%new_stream_grown; [|done]. set (p1 := (new_stream p (str_id config)).2) in *.
  apply and_then_ind; [by apply error_stream_acyclic, Hg|].
  intros e (Hg' & Hex' & Hle')%error_stream_grown; [|apply Hg]. set (p2 := (new_error_stream p1 config).2) in *.
  change (acyclic (and_then (connect (add_operator p2 (OProcess a e f)).2 source (add_operator p2 (OProcess a e f)).1 (str_id config) r)
    (λ _ p0, (Ok (a, e), p0))).2).
  rewrite (and_then_ret _ (λ _, (a, e))). pose proof (grown_trans _ _ _ Hg Hg') as Hg2.
  destruct (below_new _ _ _ _ Hs Hp Hle Hg2) as [_ Hlt]. destruct Hg as (? & _ & _ & Hn). destruct (below_new _ _ e _ Hs Hp ltac:(lia) Hg2) as [_ Hlt'].
  apply add_connect_acyclic; [apply Hg'| |done]. repeat constructor; [|done..|done]. by apply Hg'.
Qed.
Lemma make_split_acyclic p N config source handle r :
  acyclic p → exists_stream p source → acyclic (make_split p N config source handle r).2.
Proof.
  intros Hp Hs. unfold make_split. pose proof (new_links_grown p (str_id config) (str_name config) 0 N Hp) as Hl.
  destruct (new_links _ _ _ _ _) as [links p1]. destruct Hl as (Hg & Hlen & Hall).
  apply and_then_ind; [by apply new_stream_acyclic, Hg|].
  intros a (Hg' & _ & _)%new_stream_grown; [|apply Hg]. set (p2 := (new_stream p1 (str_id config)).2) in *.
  set (p3 := set_env p2 _). assert (acyclic p3) by by apply set_env_acyclic, Hg'.
  change (acyclic (and_then (connect (add_operator p3 (OSplit links (seq 0 N))).2 source (add_operator p3 (OSplit links (seq 0 N))).1
    (str_id config) r) (λ _ p0, (Ok links, p0))).2).
  rewrite (and_then_ret _ (λ _, links)). apply add_connect_acyclic; [done| |cbn; by rewrite Hlen].
  eapply Forall_impl; [exact Hall|]. intros o [Ho Hle]. split; [by apply Hg'|].
  by destruct (below_new _ _ _ _ Hs Hp Hle Hg).
Qed.
Lemma build_operator_acyclic p h : acyclic p → acyclic (build_operator p h).2.
Proof.
  intros Hp. unfold build_operator. destruct (operators p !! h) as [[]|] eqn:Hh; try done.
  destruct (mapM _ links) as [branches|] eqn:Em; [|done]. destruct (split_build _) as [self|e|] eqn:Eb; try done.
  apply split_build_perm in Eb. cbn in Eb. apply length_mapM in Em.
  destruct (ac_operators p Hp _ _ Hh) as (_ & Hex & _). eapply put_operator_acyclic; [done|exact Hh|exact Hex|cbn|done].
  by rewrite Em.
Qed.
Lemma make_case_acyclic p config source selector r : acyclic p → acyclic (make_case p config source selector r).2.
Proof.
  intros Hp. unfold make_case. set (p1 := set_env p _). assert (acyclic p1) by by apply set_env_acyclic.
  set (op := OCase (str_id config) selector []).
  change (acyclic (and_then (connect (add_operator p1 op).2 source (add_operator p1 op).1 (str_id config) r)
    (λ _ p0, (Ok (add_operator p1 op).1, p0))).2).
  rewrite (and_then_ret _ (λ _, _)). apply add_connect_acyclic; [done|by constructor|done].
Qed.
Lemma make_when_acyclic p h config r : acyclic p → acyclic (make_when p h config r).2.
Proof.
  intros Hp. unfold make_when. destruct (operators p !! h) as [[]|] eqn:Hh; try done.
  apply and_then_ind; [by apply new_stream_acyclic|]. intros a Ha. pose proof (new_stream_Ok _ _ _ Ha) as Hw.
  apply new_stream_grown in Ha as (Hg & Hex & Hle); [|done]. set (p1 := (new_stream p (str_id config)).2) in *. cbn [snd].
  eapply (put_operator_acyclic (set_env p1 _) h (OCase id selector when_streams)).
  - by apply set_env_acyclic, Hg.
  - cbn. destruct Hg as (_ & _ & -> & _). exact Hh.
  - cbn. apply Forall_app. split; [|by repeat constructor].
    destruct (ac_operators p Hp _ _ Hh) as (_ & Hall & _). eapply Forall_impl; [exact Hall|]. apply Hg.
  - done.
  - intros b (s & Hb & Hd) Hall. cbn. apply Forall_app. split; [done|]. repeat constructor.
    destruct Hw as (-> & _ & _ & _ & s' & Hi & Hd'). cbn in Hb. rewrite Hi, lookup_insert_Some in Hb.
    destruct Hb as [[_ <-]|[_ Hb]]; [rewrite Hd' in Hd; by destruct Hd|]. by apply (ac_streams p Hp _ _ Hb).
Qed.
Lemma make_link_acyclic p config : acyclic p → acyclic (make_link p config).2.
Proof.
  intros Hp. unfold make_link. apply and_then_ind; [by apply new_stream_acyclic|].
  intros a (Hg & Hex & _)%new_stream_grown; [|done]. apply add_operator_acyclic; [apply Hg|by repeat constructor|done].
Qed.
Lemma make_sink_acyclic p config source r : acyclic p → acyclic (make_sink p config source r).2.
Proof.
  intros Hp. unfold make_sink. set (p1 := set_env p _). assert (acyclic p1) by by apply set_env_acyclic.
  apply and_then_ind; [by apply error_stream_acyclic|]. intros e (Hg & _ & _)%error_stream_grown; [|done].
  set (p2 := (new_error_stream p1 config).2) in *. set (op := OSink (str_id config) None e).
  change (acyclic (and_then (connect (add_operator p2 op).2 source (add_operator p2 op).1 (str_id config) r)
    (λ _ p0, (Ok (add_operator p2 op).1, p0))).2).
  rewrite (and_then_ret _ (λ _, _)). apply add_connect_acyclic; [apply Hg|by constructor|done].
Qed.
Lemma make_sink_with_result_acyclic p config source r : acyclic p → acyclic (make_sink_with_result p config source r).2.
Proof.
  intros Hp. unfold make_sink_with_result. apply and_then_ind; [by apply new_stream_acyclic|].
  intros a (Hg & _ & _)%new_stream_grown; [|done]. set (p1 := (new_stream p (str_id config)).2) in *.
  apply and_then_ind; [by apply error_stream_acyclic, Hg|]. intros e (Hg' & _ & _)%error_stream_grown; [|apply Hg].
  set (p2 := (new_error_stream p1 config).2) in *. set (op := OSinkWithResult a None e).
  change (acyclic (and_then (connect (add_operator p2 op).2 source (add_operator p2 op).1 (str_id config) r)
    (λ _ p0, (Ok ((add_operator p2 op).1, a), p0))).2).
  rewrite (and_then_ret _ (λ _, _)). apply add_connect_acyclic; [apply Hg'|by constructor|done].
Qed.
Lemma set_consumer_cell_acyclic p h consumer : acyclic p → acyclic (set_consumer_cell p h consumer).
Proof.
  intros Hp. unfold set_consumer_cell. destruct (operators p !! h) as [[]|] eqn:Hh; try done;
    (eapply put_operator_acyclic; [done|exact Hh|by constructor|done|by intros; constructor]).
Qed.
Lemma new_input_acyclic p config : acyclic p → acyclic (new_input p config).2.
Proof.
  intros Hp. unfold new_input. apply and_then_ind; [by apply error_stream_acyclic|].
  intros e (Hg & _ & _)%error_stream_grown; [|done]. apply and_then_ind; [by apply new_stream_acyclic, Hg|].
  intros a (Hg' & _ & _)%new_stream_grown; [|apply Hg]. apply add_operator_acyclic; [apply Hg'|by constructor|done].
Qed.
Lemma input_set_source_acyclic p i source r op :
  acyclic p → operators p !! in_result i = Some op → outputs op = [] → acyclic (input_set_source p i source r).2.
Proof.
  intros Hp Hop Hout. unfold input_set_source. destruct (inners (graph p) !! in_stream i) as [s|]; [|done].
  destruct (connect_acyclic p source (in_result i) (si_id s) r op) as [_ Hc]; [done..|by rewrite Hout|].
  destruct (connect_typed _ _ _ _ _) as [[[]|e|] p1]; try done. by destruct (in_result_source i).
Qed.
(** These operations cannot close a cycle. *)
Lemma fluent_acyclic p p' : fluent_step p p' → acyclic p → acyclic p'.
Proof.
  intros [] Hp; eauto using make_unary_acyclic, make_merge_acyclic, make_process_acyclic, make_split_acyclic, build_operator_acyclic,
    make_case_acyclic, make_when_acyclic, make_link_acyclic, make_sink_acyclic, make_sink_with_result_acyclic, set_consumer_cell_acyclic,
    new_input_acyclic, input_set_source_acyclic, set_env_acyclic.
Qed.
Lemma program_new_acyclic (env : Env) : acyclic (program_new env : Prog).
Proof. by split; cbn; intros *; rewrite ?lookup_empty. Qed.
Lemma built_acyclic (env : Env) p : rtc fluent_step (program_new env) p → acyclic p.
Proof.
  apply (rtc_ind_r acyclic); [apply program_new_acyclic|]. intros x y _ Hs Hx. by apply (fluent_acyclic x y).
Qed.
End transforms_lemmas.
