(* ===== verification/Dataflow.v ===== *)
(** Messages running through a program of [Transforms]: the calls of its
    operators, executed by threads.

    A thread is the list of what it still has to do; a direct link runs the
    consumer in the same thread, a parallel call, an accepted pool task and a
    delayed operation start a thread of their own, and threads interleave
    freely.  A panic unwinds the thread that put the message on its stream, as
    far as its caller; in a thread of the runtime it ends the process.  The
    functions given to the operators are total: an operator panics by itself,
    where its code does ([consume]).  [reach] is the meaning of a program: the endpoints a message of a
    stream arrives at, computed from the operators alone. *)

From S2P Require Import Prelude Errors Config Context Environment Graph Operators Transforms.
Local Open Scope Z_scope.

(** * Bags whose elements are replaced by smaller ones *)
Section bags.
Context {A : Type} (rank : A → nat).
Definition bag_step (l l' : list A) : Prop :=
  ∃ a bs rest, l ≡ₚ a :: rest ∧ l' ⊆+ bs ++ rest ∧ Forall (λ b, (rank b < rank a)%nat) bs.
Lemma bag_sn_submseteq l l' : sn bag_step l → l' ⊆+ l → sn bag_step l'.
Proof.
  intros Hl [k Hk]%submseteq_Permutation. constructor. intros l2 (a & bs & rest & Ha & Hs & Hb).
  apply (Acc_inv Hl). exists a, bs, (rest ++ k). split_and!; [|by rewrite Hs, (assoc (++)); apply submseteq_inserts_r|done].
  by rewrite Hk, Ha.
Qed.
Lemma bag_sn_cons n a : (rank a < n)%nat → ∀ l, sn bag_step l → sn bag_step (a :: l).
Proof.
  revert a. induction n as [|n IHn]; intros a Ha; [lia|].
  induction 1 as [l Hl IHl]. constructor. intros l2 (x & bs & rest & Hx & Hs & Hb).
  assert (x ∈ a :: l) as [->|Hin]%elem_of_cons by (rewrite Hx; left).
  - apply Permutation_cons_inv in Hx. apply (bag_sn_submseteq (bs ++ l)); [|by rewrite Hx].
    clear Hs. induction Hb as [|b bs Hb _ IH]; [by constructor|]. apply IHn; [lia|done].
  - apply elem_of_Permutation in Hin as [r Hr]. rewrite Hr in Hx.
    assert (rest ≡ₚ a :: r) as Hrest by (apply (Permutation_cons_inv (a := x)); by rewrite <-Hx, Permutation_swap).
    apply (bag_sn_submseteq (a :: bs ++ r)).
    + apply IHl. exists x, bs, r. by split_and!.
    + by rewrite Hs, Hrest, Permutation_middle.
Qed.
Lemma bag_sn l : sn bag_step l.
Proof.
  induction l as [|a l IH]; [|by apply (bag_sn_cons (S (rank a))); [lia|]].
  constructor. intros l' (a & bs & rest & Hn%Permutation_nil_cons & _). done.
Qed.
End bags.

Section dataflow.
Context {Json Pool PriorityPool Endpoint Storage Buildable Token Otel Any Val : Type}.
Notation Env := (RuntimeEnvironment Json Pool PriorityPool Endpoint Storage Buildable).
Notation Ctx := (MessageContext Token Otel Any).
Notation Prog := (Program Json Pool PriorityPool Endpoint Storage Buildable Token Otel Any Val).
Notation Op := (Operator Token Otel Any Val).
(** Tracing: the spans of the links, by their stream, and of the operators. *)
Context (tracing : bool) (link_span operator_span : Z → Ctx → option Otel).
Implicit Types p : Prog.

(** * Threads *)
Inductive Item :=
| Do (e : Effect Pool PriorityPool Token Otel Any (Payload Val))
| Invoke (c : Call Token Otel Any Val)
| Delayed (stream : Z) (context : Ctx) (payload : Payload Val).
Notation Arrival := (Z * Ctx * Val)%type.
Record Run := MkRun {
  threads : gmap nat (list Item);
  next_thread : nat;
  arrived : list Arrival;                      (** at the endpoints *)
  lost : list Item;                            (** refused by a pool, skipped or unwound *)
  gained : list Item;                          (** made by [delay_error] *)
  exited : bool }.                             (** [std::process::exit] *)
(** What the pools and the clock answer to the next action. *)
Record Choice := MkChoice { pool_error : option RuntimeError; delay_pool_error : option RuntimeError; context_cancelled : bool }.
Record Done := MkDone { continue : list Item; spawned : list (list Item); d_arrived : list Arrival; d_lost : list Item; d_gained : list Item; panicked : bool }.
Definition go_on (l : list Item) : Done := MkDone l [] [] [] [] false.
Definition spawn (l rest : list Item) : Done := MkDone rest [l] [] [] [] false.
Definition span (h : Z) (context : Ctx) : Ctx := (start_span tracing (operator_span h) context).1.

(** A task for a pool: the refusal is the effect after it. *)
Definition submit (h : Z) (context : Ctx) (payload : Payload Val) (rest : list Item) : Done :=
  match rest with
  | Do (Rejected _) :: rest => MkDone rest [] [] [Do (Consume h context payload)] [] false
  | _ => spawn [Do (Consume h context payload)] rest
  end.
(** [delay_pool().delay]: accepted, the operation runs later on its own;
    refused, the message is given up and [delay_error] may replace it. *)
Definition schedule_delay (refused : option RuntimeError) (s : Z) (context : Ctx) (payload : Payload Val)
    (delay_error : RuntimeError → list (Ctx * Val)) (rest : list Item) : Done :=
  match refused with
  | None => spawn [Delayed s context payload] rest
  | Some e => let calls := Invoke ∘ out s <$> delay_error e in MkDone (calls ++ rest) [] [] [Invoke (EmitOn s context payload)] calls false
  end.
(** The delayed operation: nothing once its context is cancelled. *)
Definition delayed_operation (is_cancelled : bool) (s : Z) (context : Ctx) (payload : Payload Val) (rest : list Item) : Done :=
  if is_cancelled then MkDone rest [] [] [Invoke (EmitOn s context payload)] [] false
  else go_on (Invoke (EmitOn s context payload) :: rest).
(** The next action of a thread. *)
Definition exec p (ch : Choice) (i : Item) (rest : list Item) : Done :=
  match i with
  | Invoke (EmitOn s context payload) =>
      match inners (graph p) !! s with
      | Some inner => go_on ((Do <$> emit tracing (link_span s) (match pool_error ch with Some e => Err e | None => Ok tt end) inner context payload) ++ rest)
      | None => go_on rest
      end
  | Invoke (ToEndpoint c context payload) => MkDone rest [] [(c, context, into_value payload)] [] [] false
  | Invoke (DelayOn s context _ payload delay_error) => schedule_delay (delay_pool_error ch) s context payload delay_error rest
  | Delayed s context payload => delayed_operation (context_cancelled ch) s context payload rest
  | Do (Consume h context payload) =>
      match operators p !! h with
      | Some op =>
          match consume (span h) op context payload with
          | Ok calls => go_on ((Invoke <$> calls) ++ rest)
          | _ => MkDone [] [] [] (i :: rest) [] true
          end
      | None => go_on rest
      end
  | Do (SpawnParallel h context payload) => spawn [Do (Consume h context payload)] rest
  | Do (AddTask _ _ h context payload) => submit h context payload rest
  | Do (AddPriorityTask _ _ _ h context payload) => submit h context payload rest
  | Do (IncCalls _) | Do IncMessages | Do (Rejected _) => go_on rest
  end.
Fixpoint start_threads (m : gmap nat (list Item)) (n : nat) (ls : list (list Item)) : gmap nat (list Item) :=
  match ls with [] => m | l :: ls => start_threads (<[n := l]> m) (S n) ls end.
(** [spawn_parallel] and [run_task] of the pools end the process when what
    they run panics; thread [0] is the one that put the message on its stream. *)
Definition exits_process (t : nat) (d : Done) : bool := panicked d && negb (Nat.eqb t 0).
Definition advance (r : Run) (t : nat) (d : Done) : Run :=
  MkRun (start_threads (<[t := continue d]> (threads r)) (next_thread r) (spawned d)) (next_thread r + length (spawned d))
    (arrived r ++ d_arrived d) (lost r ++ d_lost d) (gained r ++ d_gained d)
    (exited r || exits_process t d).
Inductive run_step p : Run → Run → Prop :=
| rs_action r t i rest ch : exited r = false → threads r !! t = Some (i :: rest) → run_step p r (advance r t (exec p ch i rest)).
(** A message is put on a stream. *)
Definition inject (s : Z) (context : Ctx) (v : Val) : Run :=
  MkRun {[0%nat := [Invoke (EmitOn s context (Owned v))]]} 1 [] [] [] false.
Definition finished (r : Run) : Prop := ∀ t l, threads r !! t = Some l → l = [].

(** * Meaning *)
Definition meaning (reach : Z → Ctx → Val → list Arrival) (op : Op) (context : Ctx) (v : Val) : list Arrival :=
  match op with
  | OMap o f | OFlatMap o f | OKeyBy o f => f context v ≫= λ cw, reach o cw.1 cw.2
  | OFilter o f => if f context v then reach o context v else []
  | OFlatMapIterable o items => items v ≫= λ w, reach o context w
  | OMerge o | OLink o _ | ODelay o _ => reach o context v
  | OProcess o e f => f context v ≫= λ cw, match cw.2 with inl w => reach o cw.1 w | inr w => reach e cw.1 w end
  | OSplit links _ => links ≫= λ o, reach o context v
  | OCase _ selector branches => match branches !! selector v with Some o => reach o context v | None => [] end
  | OSink _ c _ | OSinkWithResult _ c _ | OResultLink c => match c with Some c => [(c, context, v)] | None => [] end
  end.
Definition meaning_at (reach : Z → Ctx → Val → list Arrival) p (h : Z) (context : Ctx) (v : Val) : list Arrival :=
  match operators p !! h with Some op => meaning reach op (span h context) v | None => [] end.
Definition meaning_of_stream (reach : Z → Ctx → Val → list Arrival) p (s : Z) (context : Ctx) (v : Val) : list Arrival :=
  match inners (graph p) !! s ≫= downstream with
  | Some d => meaning_at reach p (consumer (dispatch_collector d)) (start_span tracing (link_span s) context).1 v
  | None => []
  end.
Fixpoint reach_within (fuel : nat) p (s : Z) (context : Ctx) (v : Val) : list Arrival :=
  match fuel with O => [] | S fuel => meaning_of_stream (reach_within fuel p) p s context v end.
(** The streams after [s]: outputs are created after sources. *)
Definition distance p (s : Z) : nat := Z.to_nat (next_address (graph p) - s).
Definition reach p (s : Z) : Ctx → Val → list Arrival := reach_within (S (distance p s)) p s.

(** * Lemmas *)
Lemma meaning_ext (r1 r2 : Z → Ctx → Val → list Arrival) op c v :
  (∀ o, o ∈ outputs op → ∀ c v, r1 o c v = r2 o c v) → meaning r1 op c v = meaning r2 op c v.
Proof.
  intros H. destruct op; cbn in *; try (rewrite H by set_solver; done); try (by apply list_bind_ext; [intros; apply H; set_solver|]); try done.
  - apply list_bind_ext; [|done]. intros [c' [w|w]]; apply H; set_solver.
  - induction links as [|o links IH]; [done|]. cbn. rewrite H by set_solver. f_equal. apply IH. intros; apply H. set_solver.
  - destruct (when_streams !! selector v) as [o|] eqn:E; [|done]. apply H. by eapply list_elem_of_lookup_2.
Qed.
Section acyclic.
Context p (Hp : acyclic p).
Lemma downstream_operator s inner d : inners (graph p) !! s = Some inner → downstream inner = Some d →
  ∃ op, operators p !! consumer (dispatch_collector d) = Some op ∧ ∀ o, o ∈ outputs op → (distance p o < distance p s)%nat.
Proof.
  intros Hs Hd. destruct (ac_links p Hp s inner d Hs Hd) as (op & Hop & Hlt). exists op. split; [done|].
  intros o Ho. rewrite Forall_forall in Hlt. specialize (Hlt o Ho). pose proof (ac_streams p Hp _ _ Hs). unfold distance. lia.
Qed.
Lemma reach_within_enough n m s c v : (distance p s < n)%nat → (distance p s < m)%nat → reach_within n p s c v = reach_within m p s c v.
Proof.
  revert m s c v. induction n as [|n IH]; intros [|m] s c v Hn Hm; [lia..|]. cbn [reach_within]. unfold meaning_of_stream.
  destruct (inners (graph p) !! s) as [inner|] eqn:Hs; [|done]. cbn. destruct (downstream inner) as [d|] eqn:Hd; [|done].
  destruct (downstream_operator s inner d Hs Hd) as (op & Hop & Hlt). unfold meaning_at. rewrite Hop. apply meaning_ext.
  intros o Ho c' v'. specialize (Hlt o Ho). apply IH; lia.
Qed.
Lemma reach_unfold s c v : reach p s c v = meaning_of_stream (reach p) p s c v.
Proof.
  unfold reach at 1. cbn [reach_within]. unfold meaning_of_stream.
  destruct (inners (graph p) !! s) as [inner|] eqn:Hs; [|done]. cbn. destruct (downstream inner) as [d|] eqn:Hd; [|done].
  destruct (downstream_operator s inner d Hs Hd) as (op & Hop & Hlt). unfold meaning_at. rewrite Hop. apply meaning_ext.
  intros o Ho c' v'. specialize (Hlt o Ho). unfold reach. apply reach_within_enough; lia.
Qed.

(** What an action leads to. *)
Definition of_call (c : Call Token Otel Any Val) : list Arrival :=
  match c with
  | EmitOn s context payload | DelayOn s context _ payload _ => reach p s context (into_value payload)
  | ToEndpoint c context payload => [(c, context, into_value payload)]
  end.
Definition of_item (i : Item) : list Arrival :=
  match i with
  | Invoke c => of_call c
  | Delayed s context payload => reach p s context (into_value payload)
  | Do (Consume h context payload) | Do (SpawnParallel h context payload) | Do (AddTask _ _ h context payload)
  | Do (AddPriorityTask _ _ _ h context payload) => meaning_at (reach p) p h context (into_value payload)
  | Do _ => []
  end.
Definition of_items (l : list Item) : list Arrival := l ≫= of_item.
Lemma of_items_app l1 l2 : of_items (l1 ++ l2) = of_items l1 ++ of_items l2.
Proof. apply bind_app. Qed.
Lemma of_items_concat ls : of_items (concat ls) = concat (of_items <$> ls).
Proof. induction ls as [|l ls IH]; [done|]. cbn [concat fmap list_fmap]. by rewrite of_items_app, IH. Qed.
Lemma of_items_calls calls : of_items (Invoke <$> calls) = calls ≫= of_call.
Proof. unfold of_items. induction calls as [|c calls IH]; [done|]. cbn. by rewrite <-IH. Qed.

Lemma iterable_loop_spec (items : list Val) (c : Ctx) : iterable_loop items (Some c) = Ok (pair c <$> items).
Proof. induction items as [|i [|j items] IH]; [done..|]. cbn [iterable_loop]. cbn in IH. by rewrite IH. Qed.
Lemma out_calls o (l : list (Ctx * Val)) : (out o <$> l) ≫= of_call = l ≫= λ cw, reach p o cw.1 cw.2.
Proof. induction l as [|cw l IH]; [done|]. cbn. by rewrite IH. Qed.
(** The loop of a split that looks up its branches. *)
Definition branch_reach (links : list Z) (c : Ctx) (v : Val) (i : nat) : list Arrival :=
  match links !! i with Some s => reach p s c v | None => [] end.
Lemma split_calls links (emitted : list (nat * Ctx * Payload Val)) c v :
  Forall (λ e, e.1.2 = c ∧ into_value e.2 = v) emitted → Forall (λ e, e.1.1 < length links)%nat emitted →
  ∃ calls, fold_res (emit_at links) [] emitted = Ok calls ∧
    calls ≫= of_call = ((λ e, e.1.1) <$> emitted) ≫= branch_reach links c v.
Proof.
  intros Hcv Hlt. enough (∀ calls0, ∃ calls, fold_res (emit_at links) calls0 emitted = Ok calls ∧
    calls ≫= of_call = (calls0 ≫= of_call) ++ (((λ e, e.1.1) <$> emitted) ≫= branch_reach links c v)) as H by exact (H []).
  induction Hcv as [|e emitted [Hc Hv] _ IH]; intros calls0; [exists calls0; by rewrite app_nil_r|].
  apply Forall_cons in Hlt as [He Hlt]. apply lookup_lt_is_Some in He as [s Hs]. cbn [fold_res].
  replace (emit_at links calls0 e) with (Ok (calls0 ++ [EmitOn s e.1.2 e.2]) : outcome Empty_set _) by (unfold emit_at; by rewrite Hs).
  cbn [mbind outcome_bind]. destruct (IH Hlt (calls0 ++ [EmitOn s e.1.2 e.2])) as (calls & -> & Hcalls). exists calls. split; [done|].
  rewrite Hcalls, bind_app, <-(assoc (++)). f_equal. cbn. unfold branch_reach at 2. by rewrite Hs, Hc, Hv, app_nil_r.
Qed.
Lemma branches_in_order links c v : seq 0 (length links) ≫= branch_reach links c v = links ≫= λ o, reach p o c v.
Proof.
  induction links as [|s links IH]; [done|]. cbn [length seq].
  change (reach p s c v ++ (seq 1 (length links) ≫= branch_reach (s :: links) c v) = reach p s c v ++ (links ≫= λ o, reach p o c v)).
  rewrite <-IH, <-fmap_S_seq, list_fmap_bind. done.
Qed.
Lemma bind_perm {A B} (f : A → list B) l1 l2 : l1 ≡ₚ l2 → l1 ≫= f ≡ₚ l2 ≫= f.
Proof. by intros ->. Qed.
Lemma consume_meaning h op c payload calls :
  op_ok op → consume (span h) op c payload = Ok calls →
  calls ≫= of_call ≡ₚ meaning (reach p) op (span h c) (into_value payload).
Proof.
  intros Hok. autounfold with operators. set (c' := span h c). set (v := into_value payload).
  destruct op; cbn [meaning]; try (intros [= <-]; cbn; by rewrite ?out_calls, ?app_nil_r).
  - intros [= <-]. destruct (function c' v); cbn; by rewrite ?app_nil_r.
  - rewrite iterable_loop_spec. cbn. intros [= <-]. rewrite out_calls. generalize (into_stream_items v). intros l.
    induction l as [|w l IH]; [done|]. cbn. by rewrite IH.
  - intros [= <-]. generalize (function c' v). intros l. induction l as [|[cw [w|w]] l IH]; [done|..]; cbn; by rewrite IH.
  - case_decide; cbn; intros [= <-]; cbn; rewrite app_nil_r; [done|]. by destruct payload.
  - destruct (split_loop_spec (length links) 0 dispatch_order c' payload) as (emitted & -> & Hord & Hall).
    { cbn. by rewrite Hok, length_seq. }
    cbn [mbind outcome_bind]. destruct (split_calls links emitted c' v) as (calls' & -> & Hc); [done| |].
    { apply Forall_forall. intros e He. apply (list_elem_of_fmap_2 (λ e, e.1.1)) in He. rewrite Hord, Hok in He.
      apply elem_of_seq in He. lia. }
    intros [= <-]. rewrite Hc, Hord, <-branches_in_order. by apply bind_perm.
  - destruct (when_streams !! selector v) as [o|]; [|done]. intros [= <-]. cbn. by rewrite app_nil_r.
  - intros [= <-]. by destruct sink_consumer.
  - intros [= <-]. by destruct sink_consumer.
  - intros [= <-]. by destruct result_consumer.
Qed.

Lemma emit_meaning s inner reply c payload :
  inners (graph p) !! s = Some inner →
  of_items (Do <$> emit tracing (link_span s) reply inner c payload) = reach p s c (into_value payload).
Proof.
  intros Hs. rewrite reach_unfold. unfold meaning_of_stream, emit. rewrite Hs. cbn [mbind option_bind].
  destruct (downstream inner) as [d|]; [|done]. unfold out_payload.
  destruct (start_span tracing (link_span s) c) as [c' sp]. rewrite !fmap_app, !of_items_app.
  destruct (messages_total (dispatch_collector d)), (caller (dispatch_collector d)), reply; cbn; by rewrite ?app_nil_r.
Qed.
Lemma submit_conserves h c payload rest (d := submit h c payload rest) :
  of_items (continue d) ++ concat (of_items <$> spawned d) ++ d_arrived d ++ of_items (d_lost d) ≡ₚ
  meaning_at (reach p) p h c (into_value payload) ++ of_items rest ++ of_items (d_gained d).
Proof.
  unfold d, submit. assert (∀ l, of_items l ++ of_items [Do (Consume h c payload)] ≡ₚ
    meaning_at (reach p) p h c (into_value payload) ++ of_items l) as H.
  { intros l. cbn. by rewrite app_nil_r, (comm (++)). }
  destruct rest as [|[[] |? |? ? ?] rest]; cbn [continue spawned d_arrived d_lost d_gained fmap list_fmap concat spawn];
    rewrite ?app_nil_r, ?H; try done. cbn. by rewrite app_nil_r.
Qed.
Lemma exec_conserves ch i rest (d := exec p ch i rest) :
  of_items (continue d) ++ concat (of_items <$> spawned d) ++ d_arrived d ++ of_items (d_lost d) ≡ₚ
  of_items (i :: rest) ++ of_items (d_gained d).
Proof.
  subst d. change (of_items (i :: rest)) with (of_item i ++ of_items rest). unfold exec.
  destruct i as [[]|[]|]; cbn [of_item of_call]; try (by rewrite <-(assoc (++)), <-submit_conserves).
  - cbn. by rewrite !app_nil_r.
  - cbn. by rewrite !app_nil_r.
  - unfold meaning_at. destruct (operators p !! consumer) as [op|] eqn:Hop; [|cbn; by rewrite !app_nil_r].
    destruct (ac_operators p Hp _ _ Hop) as (_ & _ & Hok).
    destruct (consume _ _ _ _) as [calls|e|] eqn:Ec; cbn [go_on continue spawned d_arrived d_lost d_gained fmap list_fmap concat of_items].
    + apply (consume_meaning _ _ _ _ _ Hok) in Ec. rewrite of_items_app, of_items_calls, Ec. by rewrite !app_nil_r.
    + done.
    + cbn. unfold meaning_at. rewrite Hop. by rewrite !app_nil_r.
  - cbn. rewrite !app_nil_r. by rewrite (comm (++)).
  - cbn. by rewrite !app_nil_r.
  - destruct (inners (graph p) !! stream) as [inner|] eqn:Hs.
    + cbn [go_on continue spawned d_arrived d_lost d_gained fmap list_fmap concat].
      rewrite of_items_app, emit_meaning by done. cbn [of_items mbind list_bind]. by rewrite !app_nil_r.
    + rewrite reach_unfold. unfold meaning_of_stream. rewrite Hs. cbn. by rewrite !app_nil_r.
  - cbn. by rewrite !app_nil_r, (comm (++)).
  - unfold schedule_delay. destruct (delay_pool_error ch) as [e|]; cbn; rewrite ?of_items_app, ?app_nil_r.
    + solve_Permutation.
    + by rewrite (comm (++)).
  - unfold delayed_operation. destruct (context_cancelled ch); cbn; rewrite ?app_nil_r; [by rewrite (comm (++))|done].
Qed.

(** ** Termination: every action is replaced by ones nearer to the endpoints *)
Definition level (h : Z) : nat := match operators p !! h with Some op => max_list (distance p <$> outputs op) | None => 0 end.
Definition rank (i : Item) : nat :=
  match i with
  | Do (Consume h _ _) => 8 * level h + 5
  | Do (SpawnParallel h _ _) | Do (AddTask _ _ h _ _) | Do (AddPriorityTask _ _ _ h _ _) => 8 * level h + 6
  | Do _ => 0
  | Invoke (EmitOn s _ _) => 8 * distance p s + 1
  | Invoke (ToEndpoint _ _ _) => 0
  | Invoke (DelayOn s _ _ _ _) => 8 * distance p s + 3
  | Delayed s _ _ => 8 * distance p s + 2
  end.
Lemma level_output h op o : operators p !! h = Some op → o ∈ outputs op → (distance p o ≤ level h)%nat.
Proof. intros Hop Ho. unfold level. rewrite Hop. by apply max_list_elem_of_le, list_elem_of_fmap_2. Qed.
Lemma level_downstream s inner d : inners (graph p) !! s = Some inner → downstream inner = Some d →
  (level (consumer (dispatch_collector d)) = 0 ∨ level (consumer (dispatch_collector d)) < distance p s)%nat.
Proof.
  intros Hs Hd. destruct (downstream_operator s inner d Hs Hd) as (op & Hop & Hlt). unfold level. rewrite Hop. clear Hop.
  induction (outputs op) as [|o os IH]; [by left|right]. cbn. pose proof (Hlt o ltac:(by left)).
  destruct IH as [->|]; [|lia..]. intros o' Ho'. apply Hlt. by right.
Qed.
(** An operator calls only its outputs. *)
Definition call_within (os : list Z) (call : Call Token Otel Any Val) : Prop :=
  match call with EmitOn s _ _ | DelayOn s _ _ _ _ => s ∈ os | ToEndpoint _ _ _ => True end.
Lemma out_within o os (l : list (Ctx * Val)) : o ∈ os → Forall (call_within os) (out o <$> l).
Proof. intros Ho. apply Forall_fmap, Forall_forall. intros cw _. exact Ho. Qed.
Lemma branches_Forall (Q : Call Token Otel Any Val → Prop) links l acc calls :
  (∀ s c v, s ∈ links → Q (EmitOn s c v)) → fold_res (emit_at links) acc l = Ok calls → Forall Q acc → Forall Q calls.
Proof.
  intros HQ. revert acc. induction l as [|e l IH]; intros acc Hl Hacc; cbn [fold_res] in Hl; [by simplify_eq|].
  apply bind_Ok in Hl as (acc' & Hb & Hl). unfold emit_at in Hb. destruct (links !! e.1.1) as [s|] eqn:Hs; [|done]. injection Hb as <-.
  apply (IH _ Hl), Forall_app. split; [done|]. repeat constructor. apply HQ. by eapply list_elem_of_lookup_2.
Qed.
Lemma consume_within f op c payload calls : consume f op c payload = Ok calls → Forall (call_within (outputs op)) calls.
Proof.
  autounfold with operators. destruct op; cbn [outputs]; try (intros [= <-]; apply out_within; by left).
  - intros [= <-]. case_match; repeat constructor.
  - rewrite iterable_loop_spec. intros [= <-]. apply out_within. by left.
  - intros [= <-]. repeat constructor.
  - intros [= <-]. repeat constructor.
  - intros [= <-]. apply Forall_fmap, Forall_forall. intros [cw [w|w]] _; cbn; [left|right; left].
  - case_decide; cbn; intros [= <-]; repeat constructor.
  - intros (emitted & _ & Hf)%bind_Ok. by apply (branches_Forall _ _ _ _ _ (λ s c v Hs, Hs) Hf).
  - destruct (when_streams !! _) as [s|] eqn:Hs; [|done]. intros [= <-]. repeat constructor. by eapply list_elem_of_lookup_2.
  - intros [= <-]. destruct sink_consumer; repeat constructor.
  - intros [= <-]. destruct sink_consumer; repeat constructor.
  - intros [= <-]. destruct result_consumer; repeat constructor.
Qed.
Lemma calls_smaller h op c payload calls : operators p !! h = Some op → consume (span h) op c payload = Ok calls →
  Forall (λ i, (rank i < 8 * level h + 5)%nat) (Invoke <$> calls).
Proof.
  intros Hop Hc%consume_within. apply Forall_fmap. eapply Forall_impl; [exact Hc|]. intros call H.
  destruct call; cbn in *; try (pose proof (level_output h op _ Hop H)); lia.
Qed.
Lemma emit_smaller s inner reply c payload : inners (graph p) !! s = Some inner →
  Forall (λ i, (rank i < 8 * distance p s + 1)%nat) (Do <$> emit tracing (link_span s) reply inner c payload).
Proof.
  intros Hs. unfold emit. destruct (downstream inner) as [d|] eqn:Hd; [|constructor].
  assert (distance p s ≠ 0)%nat as Hpos. { pose proof (ac_streams p Hp _ _ Hs). unfold distance. lia. }
  pose proof (level_downstream s inner d Hs Hd) as Hl. unfold out_payload. destruct (start_span _ _ _) as [c' sp].
  destruct (messages_total (dispatch_collector d)), (caller (dispatch_collector d)), reply; cbn [fmap list_fmap app];
    repeat (constructor; [cbn [rank]; lia|]); constructor.
Qed.
Lemma spawned_smaller (x : Item) rest : rest ++ [x] ⊆+ x :: rest.
Proof. by rewrite <-Permutation_cons_append. Qed.
Lemma submit_smaller h c payload rest (d := submit h c payload rest) :
  continue d ++ concat (spawned d) ⊆+ [Do (Consume h c payload)] ++ rest.
Proof.
  unfold d, submit. assert (∀ l, l ++ [Do (Consume h c payload)] ++ [] ⊆+ [Do (Consume h c payload)] ++ l) as H.
  { intros l. by rewrite app_nil_r, (comm (++)). }
  destruct rest as [|[[] |? |? ? ?] rest]; cbn [continue spawned concat spawn]; try apply H.
  rewrite app_nil_r. apply submseteq_cons, submseteq_cons. done.
Qed.
Lemma exec_smaller ch i rest (d := exec p ch i rest) :
  ∃ bs, Forall (λ b, (rank b < rank i)%nat) bs ∧ continue d ++ concat (spawned d) ⊆+ bs ++ rest.
Proof.
  subst d. unfold exec. destruct i as [[]|[]|].
  - exists []. cbn. by rewrite app_nil_r.
  - exists []. cbn. by rewrite app_nil_r.
  - destruct (operators p !! consumer) as [op|] eqn:Hop; [|exists []; cbn; by rewrite app_nil_r].
    destruct (consume _ _ _ _) as [calls|e|] eqn:Ec; [|destruct e|exists []; split; [constructor|cbn; apply submseteq_nil_l]].
    exists (Invoke <$> calls). split; [by apply (calls_smaller _ op context payload)|cbn; by rewrite app_nil_r].
  - exists [Do (Consume consumer context payload)]. split; [repeat constructor; cbn; lia|]. apply spawned_smaller.
  - exists [Do (Consume consumer task_context payload)]. split; [repeat constructor; cbn; lia|apply submit_smaller].
  - exists [Do (Consume consumer task_context payload)]. split; [repeat constructor; cbn; lia|apply submit_smaller].
  - exists []. cbn. by rewrite app_nil_r.
  - destruct (inners (graph p) !! stream) as [inner|] eqn:Hs; [|exists []; cbn; by rewrite app_nil_r].
    eexists. split; [by apply (emit_smaller stream inner)|]. cbn. by rewrite app_nil_r.
  - exists []. cbn. by rewrite app_nil_r.
  - unfold schedule_delay. destruct (delay_pool_error ch) as [e|]; [|exists [Delayed stream context payload]; split; [repeat constructor; cbn; lia|]; apply spawned_smaller].
    eexists. split; [|cbn; by rewrite app_nil_r]. apply Forall_fmap, Forall_forall. intros cw _. cbn. lia.
  - unfold delayed_operation. destruct (context_cancelled ch); [exists []; cbn; by rewrite app_nil_r|].
    exists [Invoke (EmitOn stream context payload)]. split; [repeat constructor; cbn; lia|]. cbn. by rewrite app_nil_r.
Qed.

(** ** Threads *)
Definition bag (r : Run) : list Item := gather id (threads r).
Definition fresh (m : gmap nat (list Item)) (n : nat) : Prop := ∀ k, (n ≤ k)%nat → m !! k = None.
Lemma start_threads_gather m n ls : fresh m n →
  gather id (start_threads m n ls) ≡ₚ concat ls ++ gather id m ∧ fresh (start_threads m n ls) (n + length ls).
Proof.
  revert m n. induction ls as [|l ls IH]; intros m n Hf; cbn; [by rewrite Nat.add_0_r|].
  destruct (IH (<[n := l]> m) (S n)) as [Hg Hf'].
  { intros k Hk. rewrite lookup_insert_ne by lia. apply Hf. lia. }
  split; [|intros k Hk; apply Hf'; lia]. rewrite Hg, gather_insert_new by (apply Hf; lia). cbn. solve_Permutation.
Qed.
Lemma advance_bag r t i rest d : fresh (threads r) (next_thread r) → threads r !! t = Some (i :: rest) →
  ∃ others, bag r ≡ₚ i :: rest ++ others ∧ bag (advance r t d) ≡ₚ continue d ++ concat (spawned d) ++ others ∧
    fresh (threads (advance r t d)) (next_thread (advance r t d)).
Proof.
  intros Hf Ht. exists (gather id (delete t (threads r))). split; [unfold bag; by rewrite (gather_delete id _ _ _ Ht)|].
  destruct (start_threads_gather (<[t := continue d]> (threads r)) (next_thread r) (spawned d)) as [Hg Hf'].
  - intros k Hk. rewrite lookup_insert_ne; [by apply Hf|]. intros ->. by rewrite Hf in Ht.
  - split; [|done]. unfold bag, advance; cbn [threads]. rewrite Hg, gather_insert. cbn. solve_Permutation.
Qed.
Lemma run_step_bag r r' : run_step p r r' → fresh (threads r) (next_thread r) →
  bag_step rank (bag r) (bag r') ∧ fresh (threads r') (next_thread r').
Proof.
  intros [r0 t i rest ch Hex Ht] Hf. destruct (advance_bag r0 t i rest (exec p ch i rest) Hf Ht) as (others & Hb & Hb' & Hf').
  split; [|done]. destruct (exec_smaller ch i rest) as (bs & Hbs & Hsub).
  exists i, bs, (rest ++ others). split_and!; [done| |done]. rewrite Hb', !(assoc (++)). by apply submseteq_skips_r.
Qed.
Lemma run_sn r : fresh (threads r) (next_thread r) → sn (run_step p) r.
Proof.
  intros Hf. remember (bag r) as l eqn:El. pose proof (bag_sn rank l) as Hl. revert r El Hf.
  induction Hl as [l _ IH]. intros r -> Hf. constructor. intros r' [Hs Hf']%run_step_bag; [|done]. by apply (IH (bag r')).
Qed.
Lemma run_conserves total r r' : run_step p r r' → fresh (threads r) (next_thread r) →
  arrived r ++ of_items (lost r) ++ of_items (bag r) ≡ₚ total ++ of_items (gained r) →
  arrived r' ++ of_items (lost r') ++ of_items (bag r') ≡ₚ total ++ of_items (gained r').
Proof.
  intros [r0 t i rest ch Hex Ht] Hf H. destruct (advance_bag r0 t i rest (exec p ch i rest) Hf Ht) as (others & Hb & Hb' & _).
  pose proof (exec_conserves ch i rest) as He. cbn zeta in He. rewrite <-of_items_concat in He.
  apply (bind_perm of_item) in Hb, Hb'. fold of_items in Hb, Hb'. rewrite Hb' in *. rewrite Hb in H. clear Hb Hb'.
  change (i :: rest ++ others) with ((i :: rest) ++ others) in H. cbn [arrived lost gained advance].
  revert He H. rewrite !of_items_app. generalize (exec p ch i rest), (i :: rest). intros d l He H.
  transitivity ((arrived r0 ++ of_items (lost r0) ++ of_items others) ++
    (of_items (continue d) ++ of_items (concat (spawned d)) ++ d_arrived d ++ of_items (d_lost d))); [solve_Permutation|].
  rewrite He. transitivity ((arrived r0 ++ of_items (lost r0) ++ of_items l ++ of_items others) ++ of_items (d_gained d)); [solve_Permutation|].
  rewrite H. by rewrite <-(assoc (++)).
Qed.
Lemma run_inv s c v r : rtc (run_step p) (inject s c v) r →
  fresh (threads r) (next_thread r) ∧ arrived r ++ of_items (lost r) ++ of_items (bag r) ≡ₚ reach p s c v ++ of_items (gained r).
Proof.
  apply (rtc_ind_r (λ r, fresh (threads r) (next_thread r) ∧
    arrived r ++ of_items (lost r) ++ of_items (bag r) ≡ₚ reach p s c v ++ of_items (gained r))).
  - split; [intros k Hk; cbn in *; by rewrite lookup_singleton_ne by lia|].
    unfold bag, inject, gather. cbn [threads arrived lost gained]. rewrite map_to_list_singleton. cbn. by rewrite !app_nil_r.
  - intros x y _ Hs [Hf Hc]. split; [by apply (run_step_bag x y)|by apply (run_conserves _ x y)].
Qed.
Lemma finished_bag r : finished r → of_items (bag r) = [].
Proof.
  intros Hf. unfold bag, gather. replace (concat _) with (@nil Item); [done|]. symmetry. apply concat_nil_Forall, Forall_fmap, Forall_forall.
  intros l ([t l'] & -> & Ht%elem_of_map_to_list)%list_elem_of_fmap. by apply (Hf t).
Qed.

(** The process exits only because an operator panicked. *)
Definition panics (i : Item) : Prop :=
  ∃ h context payload op, i = Do (Consume h context payload) ∧ operators p !! h = Some op ∧
    consume (span h) op context payload = Panic.
Lemma exec_panicked ch i rest (d := exec p ch i rest) : panicked d = true → i ∈ d_lost d ∧ panics i.
Proof.
  subst d. unfold exec. destruct i as [[]|[]|]; try done.
  - destruct (operators p !! consumer) as [op|] eqn:Hop; [|done].
    destruct (consume _ _ _ _) as [calls|[]|] eqn:Ec; [done|]. intros _. split; [by left|]. unfold panics. eauto 10.
  - unfold submit. by destruct rest as [|[[] |? |? ? ?] rest].
  - unfold submit. by destruct rest as [|[[] |? |? ? ?] rest].
  - by destruct (inners (graph p) !! stream).
  - unfold schedule_delay. by destruct (delay_pool_error ch).
  - unfold delayed_operation. by destruct (context_cancelled ch).
Qed.
Lemma run_exited s c v r : rtc (run_step p) (inject s c v) r → exited r = true → Exists panics (lost r).
Proof.
  apply (rtc_ind_r (λ r, exited r = true → Exists panics (lost r))); [done|].
  intros x y _ [r0 t i rest ch Hex Ht] _. cbn [advance exited lost]. rewrite Hex. unfold exits_process. cbn [orb].
  intros [[Hin Hp']%exec_panicked _]%andb_true_iff. apply Exists_app. right. apply Exists_exists. eauto.
Qed.

(** ** Programs that lose nothing *)
Definition plain_operator (op : Op) : Prop :=
  match op with ODelay _ _ => False | OCase _ selector branches => ∀ v, (selector v < length branches)%nat | _ => True end.
Definition plain_caller (c : Caller Pool PriorityPool) : Prop := match c with CFunctionCall _ | CParallelCall => True | _ => False end.
(** Only direct and parallel links, no delays, and every selector in range. *)
Definition reliable : Prop :=
  (∀ h op, operators p !! h = Some op → plain_operator op) ∧
  (∀ s inner d, inners (graph p) !! s = Some inner → downstream inner = Some d → plain_caller (caller (dispatch_collector d))).
Definition plain_item (i : Item) : Prop :=
  match i with
  | Do (AddTask _ _ _ _ _) | Do (AddPriorityTask _ _ _ _ _ _) | Delayed _ _ _ | Invoke (DelayOn _ _ _ _ _) => False
  | _ => True
  end.
Lemma plain_calls f op c payload calls :
  plain_operator op → consume f op c payload = Ok calls → Forall (λ call, plain_item (Invoke call)) calls.
Proof.
  intros Hplain Ec. autounfold with operators in Ec. destruct op; try done; cbn in Ec.
  all: try (simplify_eq; by repeat constructor).
  all: try (simplify_eq; apply Forall_fmap, Forall_forall; by intros [cw [w|w]] _ || by intros cw _).
  all: try (simplify_eq; case_match; by repeat constructor).
  - rewrite iterable_loop_spec in Ec. simplify_eq/=. apply Forall_fmap, Forall_forall. by intros cw _.
  - apply bind_Ok in Ec as (emitted & _ & Hf). by apply (branches_Forall _ _ _ _ _ (λ s c v Hs, I) Hf).
  - case_match; [|done]. simplify_eq. by repeat constructor.
Qed.
Lemma consume_no_panic f op c payload : op_ok op → plain_operator op → consume f op c payload ≠ Panic.
Proof.
  intros Hok Hplain Ec. autounfold with operators in Ec. destruct op; try done; cbn in Ec.
  - by rewrite iterable_loop_spec in Ec.
  - destruct (split_loop_spec (length links) 0 dispatch_order (f c) payload) as (emitted & Heq & Hord & Hall).
    { cbn. by rewrite Hok, length_seq. }
    rewrite Heq in Ec. cbn [mbind outcome_bind] in Ec.
    destruct (split_calls links emitted (f c) (into_value payload)) as (calls' & Hc & _); [done| |congruence].
    apply Forall_forall. intros e He. apply (list_elem_of_fmap_2 (λ e, e.1.1)) in He. rewrite Hord, Hok in He. apply elem_of_seq in He. lia.
  - specialize (Hplain (into_value payload)). apply lookup_lt_is_Some in Hplain as [s Hs]. by rewrite Hs in Ec.
Qed.
Lemma exec_plain ch i rest (d := exec p ch i rest) :
  reliable → Forall plain_item (i :: rest) →
  Forall plain_item (continue d) ∧ Forall (Forall plain_item) (spawned d) ∧ d_lost d = [] ∧ d_gained d = [] ∧ panicked d = false.
Proof.
  intros [Hops Hlinks] [Hi Hrest]%Forall_cons. subst d. unfold exec.
  destruct i as [[]|[]|]; try done; try (by repeat constructor); try (by split_and!; [|repeat constructor|..]).
  - destruct (operators p !! consumer) as [op|] eqn:Hop; [|done]. pose proof (consume_no_panic (span consumer) op context payload) as Hnp.
    destruct (ac_operators p Hp _ _ Hop) as (_ & _ & Hok). specialize (Hops _ _ Hop).
    destruct (consume _ _ _ _) as [calls|[]|] eqn:Ec; [|by destruct Hnp]. split_and!; [|constructor|done..].
    apply Forall_app. split; [|done]. apply Forall_fmap. by apply (plain_calls _ _ _ _ _ Hops Ec).
  - destruct (inners (graph p) !! stream) as [inner|] eqn:Hs; [|done]. split_and!; [|constructor|done..].
    apply Forall_app. split; [|done]. unfold emit. destruct (downstream inner) as [d|] eqn:Hd; [|constructor].
    specialize (Hlinks _ _ _ Hs Hd). unfold out_payload. destruct (start_span _ _ _) as [c' sp].
    destruct (messages_total (dispatch_collector d)), (caller (dispatch_collector d)); try done; by repeat constructor.
Qed.
Lemma start_threads_Forall (P : list Item → Prop) m n ls :
  (∀ t l, m !! t = Some l → P l) → Forall P ls → ∀ t l, start_threads m n ls !! t = Some l → P l.
Proof.
  intros Hm Hls. revert m n Hm. induction Hls as [|l ls Hl _ IH]; intros m n Hm; [done|]. cbn [start_threads]. apply IH.
  intros t l'. rewrite lookup_insert_Some. intros [[_ <-]|[_ ?]]; [done|eauto].
Qed.
Lemma run_plain s c v r : reliable → rtc (run_step p) (inject s c v) r →
  (∀ t l, threads r !! t = Some l → Forall plain_item l) ∧ lost r = [] ∧ gained r = [] ∧ exited r = false.
Proof.
  intros Hrel. apply (rtc_ind_r (λ r, (∀ t l, threads r !! t = Some l → Forall plain_item l) ∧ lost r = [] ∧ gained r = [] ∧
    exited r = false)).
  - split; [|done]. cbn. intros t l [_ <-]%lookup_singleton_Some. by repeat constructor.
  - intros x y _ [r0 t i rest ch Hex Ht] (Hall & Hl & Hg & _).
    destruct (exec_plain ch i rest Hrel (Hall _ _ Ht)) as (Hc & Hs & Hdl & Hdg & Hdp).
    cbn [advance threads lost gained exited]. unfold exits_process. rewrite Hl, Hg, Hex, Hdl, Hdg, Hdp. split; [|done]. apply start_threads_Forall; [|done].
    intros t' l'. rewrite lookup_insert_Some. intros [[_ <-]|[_ ?]]; [done|eauto].
Qed.
(** A thread with something to do can always act. *)
Lemma run_stuck r : (∀ r', ~ run_step p r r') → exited r = false → finished r.
Proof.
  intros Hstuck Hex t [|i rest] Ht; [done|]. exfalso.
  eapply Hstuck, (rs_action p r t i rest (MkChoice None None false)), Ht. done.
Qed.
End acyclic.
End dataflow.

(** * Properties *)

(** C28: Messages are conserved.  In a program of inputs, links, map, filter,
    flat-map, key-by, iterable, merge, process, delay, split and case operators
    and sinks (joins and sub-streams are not operators of [Program], and no
    cycle is closed through a link, see [cycle_runs_forever]), whatever
    links are direct, parallel, pooled or delayed and however their threads
    interleave, a message put on a stream takes finitely many actions.  When
    nothing is left to do, the arrivals at the endpoints, together with what
    the refused, skipped and unwound actions would have led to, are exactly
    what the operators make of the message and of the replacements that
    [delay_error] made.  A run ends early only when the process exits, because
    an operator panicked; what the other threads still had to do then makes up
    the difference. *)
Theorem dataflow_conserved {Json Pool PriorityPool Endpoint Storage Buildable Token Otel Any Val} tracing link_span operator_span
    (env : RuntimeEnvironment Json Pool PriorityPool Endpoint Storage Buildable)
    (p : Program Json Pool PriorityPool Endpoint Storage Buildable Token Otel Any Val) s c v :
  rtc fluent_step (program_new env) p →
  let meaning_of := of_items tracing link_span operator_span p in
  sn (run_step tracing link_span operator_span p) (inject s c v) ∧
  ∀ r, rtc (run_step tracing link_span operator_span p) (inject s c v) r → (∀ r', ~ run_step tracing link_span operator_span p r r') →
    (exited r = false → finished r ∧
       arrived r ++ meaning_of (lost r) ≡ₚ reach tracing link_span operator_span p s c v ++ meaning_of (gained r)) ∧
    (exited r = true → Exists (panics tracing operator_span p) (lost r) ∧
       arrived r ++ meaning_of (lost r) ++ meaning_of (bag r) ≡ₚ
         reach tracing link_span operator_span p s c v ++ meaning_of (gained r)).
Proof.
  intros Hp%built_acyclic meaning_of. split; [apply (run_sn _ _ _ p Hp), (run_inv tracing link_span operator_span p Hp s c v), rtc_refl|].
  intros r Hr Hend. destruct (run_inv _ _ _ p Hp _ _ _ _ Hr) as [_ H]. split; intros Hex.
  - apply run_stuck in Hend; [|done]. split; [done|]. rewrite finished_bag, app_nil_r in H by done. exact H.
  - split; [|exact H]. by eapply run_exited.
Qed.

(** C29: Delivery does not depend on scheduling.  When all links are direct or
    parallel calls, no operator delays and every case selects one of its
    branches, every complete run of a message ends with the same arrivals, up
    to their order: those the operators compute. *)
Theorem dataflow_exact {Json Pool PriorityPool Endpoint Storage Buildable Token Otel Any Val} tracing link_span operator_span
    (env : RuntimeEnvironment Json Pool PriorityPool Endpoint Storage Buildable)
    (p : Program Json Pool PriorityPool Endpoint Storage Buildable Token Otel Any Val) s c v r :
  rtc fluent_step (program_new env) p → reliable p →
  rtc (run_step tracing link_span operator_span p) (inject s c v) r → (∀ r', ~ run_step tracing link_span operator_span p r r') →
  arrived r ≡ₚ reach tracing link_span operator_span p s c v.
Proof.
  intros Hp%built_acyclic Hrel Hr Hend. destruct (run_inv _ _ _ p Hp _ _ _ _ Hr) as [_ H].
  destruct (run_plain _ _ _ p Hp _ _ _ _ Hrel Hr) as (_ & Hl & Hg & Hex). apply run_stuck in Hend; [|done]. rewrite Hl, Hg, finished_bag in H by done. cbn in H.
  by rewrite !app_nil_r in H.
Qed.

(** * Instances *)
Section runner.
Context {Json Pool PriorityPool Endpoint Storage Buildable Token Otel Any Val : Type} (tracing : bool)
  (link_span operator_span : Z → MessageContext Token Otel Any → option Otel)
  (p : Program Json Pool PriorityPool Endpoint Storage Buildable Token Otel Any Val).
Notation R := (Run (Pool := Pool) (PriorityPool := PriorityPool) (Token := Token) (Otel := Otel) (Any := Any) (Val := Val)).
(** Always the least thread with something to do, accepted everywhere. *)
Fixpoint run_all (fuel : nat) (r : R) : R :=
  match fuel with
  | O => r
  | S fuel =>
      match filter (λ tl : nat * list Item, tl.2 ≠ []) (if exited r then [] else map_to_list (threads r)) with
      | (t, i :: rest) :: _ => run_all fuel (advance r t (exec tracing link_span operator_span p (MkChoice None None false) i rest))
      | _ => r
      end
  end.
Lemma run_all_steps fuel r : rtc (run_step tracing link_span operator_span p) r (run_all fuel r).
Proof.
  revert r. induction fuel as [|fuel IH]; intros r; [apply rtc_refl|]. cbn [run_all].
  destruct (exited r) eqn:Hex; [apply rtc_refl|].
  destruct (filter _ _) as [|[t [|i rest]] l] eqn:Ef; [apply rtc_refl..|]. eapply rtc_l; [|apply IH]. apply rs_action; [done|].
  apply elem_of_map_to_list. eapply (list_elem_of_filter (λ tl : nat * list Item, tl.2 ≠ [])). rewrite Ef. left.
Qed.
Lemma finished_stuck r : forallb (λ tl : nat * list Item, match tl.2 with [] => true | _ => false end) (map_to_list (threads r)) = true →
  ∀ r', ~ run_step tracing link_span operator_span p r r'.
Proof.
  intros Hf r' Hs. inversion Hs as [r0 t i rest ch Hex Ht Er Er']; subst. rewrite forallb_forall in Hf.
  specialize (Hf (t, i :: rest)). cbn in Hf. apply elem_of_map_to_list, list_elem_of_In in Ht. by specialize (Hf Ht).
Qed.
End runner.

(** An input, doubled, split to a sink and to a filtered sink. *)
Notation ExampleProgram := (Program unit unit unit unit unit unit unit unit unit Z).
Notation ExampleContext := (MessageContext unit unit unit).
Definition flow_config (id : Z) (name : string) : StreamConfig unit := MkStream id name "" "" 0 [] 0 None None 0 0 ∅.
Definition flow_reg : Registration := MkReg None "i64" 0.
Definition flow_env : RuntimeEnvironment unit unit unit unit unit unit := environment_new ParallelCall.
Definition flow_map (c : ExampleContext) (v : Z) : list (ExampleContext * Z) := [(c, v); (c, v + 1)].
Definition flow_input : ExampleProgram := (new_input (program_new flow_env) (flow_config 1 "in")).2.
Definition flow_doubled : ExampleProgram := (make_map flow_input (flow_config 2 "double") 1 flow_map flow_reg).2.
Definition flow_split : ExampleProgram := (make_split flow_doubled 2 (flow_config 3 "split") 2 tt flow_reg).2.
Definition flow_sink : ExampleProgram := (make_sink flow_split (flow_config 4 "all") 3 flow_reg).2.
Definition flow_filter : ExampleProgram := (make_filter (set_consumer_cell flow_sink 3 77) (flow_config 5 "even") 4 (λ _ v, Z.even v) flow_reg).2.
Definition flow_sinks : ExampleProgram := (make_sink flow_filter (flow_config 6 "evens") 7 flow_reg).2.
Definition flow_program : ExampleProgram := (build_operator (set_consumer_cell flow_sinks 5 78) 2).2.
Lemma flow_program_built : rtc fluent_step (program_new flow_env) flow_program.
Proof.
  apply (rtc_l _ _ flow_input); [apply (fs_input _ (flow_config 1 "in"))|].
  apply (rtc_l _ _ flow_doubled).
  { apply (fs_unary flow_input (flow_config 2 "double") 1 (λ o, OMap o flow_map) flow_reg); [vm_compute; eauto|]. left. by exists flow_map. }
  apply (rtc_l _ _ flow_split); [apply (fs_split flow_doubled 2 (flow_config 3 "split") 2 tt flow_reg); vm_compute; eauto|].
  apply (rtc_l _ _ flow_sink); [apply (fs_sink flow_split (flow_config 4 "all") 3 flow_reg); vm_compute; eauto|].
  apply (rtc_l _ _ (set_consumer_cell flow_sink 3 77)); [apply (fs_consumer flow_sink 3 77)|].
  apply (rtc_l _ _ flow_filter).
  { apply (fs_unary (set_consumer_cell flow_sink 3 77) (flow_config 5 "even") 4 (λ o, OFilter o (λ _ v, Z.even v)) flow_reg); [vm_compute; eauto|].
    right. right. right. left. by eexists. }
  apply (rtc_l _ _ flow_sinks); [apply (fs_sink flow_filter (flow_config 6 "evens") 7 flow_reg); vm_compute; eauto|].
  apply (rtc_l _ _ (set_consumer_cell flow_sinks 5 78)); [apply (fs_consumer flow_sinks 5 78)|].
  apply rtc_once, (fs_build (set_consumer_cell flow_sinks 5 78) 2).
Qed.
Definition flow_context : ExampleContext := new tt tt.
Definition flow_run := run_all false (λ _ _, None) (λ _ _, None) flow_program 200 (inject 1 flow_context 6).
Lemma flow_program_reliable : reliable flow_program.
Proof.
  split.
  - enough (map_Forall (λ _, plain_operator) (operators flow_program)) as H by exact H.
    apply map_Forall_to_list. vm_compute. repeat constructor.
  - enough (map_Forall (λ _ inner, match downstream inner with Some d => plain_caller (caller (dispatch_collector d)) | None => True end)
      (inners (graph flow_program))) as H by (intros s inner d Hs Hd; specialize (H s inner Hs); cbn in H; by rewrite Hd in H).
    apply map_Forall_to_list. vm_compute. repeat constructor.
Qed.
Lemma dataflow_conserved_witness :
  exited flow_run = false ∧ finished flow_run ∧
  sn (run_step false (λ _ _, None) (λ _ _, None) flow_program) (inject 1 flow_context 6).
Proof.
  split; [vm_compute; reflexivity|].
  destruct (dataflow_conserved false (λ _ _, None) (λ _ _, None) flow_env flow_program 1 flow_context 6 flow_program_built) as [Hsn H].
  split; [|exact Hsn]. refine (proj1 (proj1 (H flow_run _ _) _));
    [apply run_all_steps|apply finished_stuck; vm_compute; reflexivity|vm_compute; reflexivity].
Defined.
Lemma dataflow_exact_witness :
  arrived flow_run ≡ₚ [(77, flow_context, 6); (78, flow_context, 6); (77, flow_context, 7)].
Proof.
  refine (dataflow_exact false (λ _ _, None) (λ _ _, None) flow_env flow_program 1 flow_context 6 flow_run
    flow_program_built flow_program_reliable _ _); [apply run_all_steps|apply finished_stuck; vm_compute; reflexivity].
Defined.

(** A selector out of range panics in the thread of its parallel link: the
    process exits and the message arrives nowhere. *)
Definition case_broken : ExampleProgram :=
  (make_case flow_input (flow_config 2 "case") 1 (λ _, 5%nat) flow_reg).2.
Example case_panic_exits :
  let r := run_all false (λ _ _, None) (λ _ _, None) case_broken 20 (inject 1 flow_context 6) in
  exited r = true ∧ arrived r = [] ∧ length (lost r) = 1%nat.
Proof. vm_compute. done. Qed.

(** A cycle closed by [link_set_source] whose operators always emit never
    stops: the hypothesis on the construction is needed. *)
Definition cycle_open : ExampleProgram :=
  (make_map (make_link (program_new (environment_new FunctionCall)) (flow_config 1 "link")).2 (flow_config 2 "again") 0 (λ c v, [(c, v)]) flow_reg).2.
Definition cycle_closed : ExampleProgram := (link_set_source cycle_open 0 1 flow_reg).2.
Lemma loop_not_sn {A} (R : A → A → Prop) x : tc R x x → ~ sn R x.
Proof.
  intros Hl Hx. revert Hl. induction Hx as [y _ IH]. intros Hl. inversion Hl as [? ? Hyy|? z ? Hyz Hzy]; subst.
  - by apply (IH y).
  - by apply (IH z), (tc_r z y z).
Qed.
Theorem cycle_runs_forever : ~ sn (run_step false (λ _ _, None) (λ _ _, None) cycle_closed) (inject 0 flow_context 5).
Proof.
  apply loop_not_sn. set (r := inject 0 flow_context 5). set (i := Invoke (Pool := unit) (PriorityPool := unit) (EmitOn 0 flow_context (Owned 5))).
  set (ch := MkChoice None None false). pose (r1 := advance r 0 (exec false (λ _ _, None) (λ _ _, None) cycle_closed ch i [])).
  assert (run_all false (λ _ _, None) (λ _ _, None) cycle_closed 5 r1 = r) as Hr by (vm_compute; reflexivity).
  apply (tc_rtc_r r r1 r); [apply tc_once; by apply rs_action|]. rewrite <-Hr. apply run_all_steps.
Qed.
