(* ===== verification/Joins.v ===== *)
(** The join operators, [src/src/operators/join.rs] and
    [src/src/operators/multijoin.rs], on the join storage of [JoinStore].

    Stored values are type-erased ([Arc<dyn Any>]): a value with the identity
    of its type.  [operator_step] are the steps of the storage in which calls
    come from the operator's inputs and callbacks answer what the operator's
    function does. *)

From S2P Require Import Prelude Errors Config Context Environment Graph JoinStore.
Local Open Scope Z_scope.

(** * Values *)
Section values.
Context {Val : Type}.
Record DynValue := MkDyn { type_id : Z; dyn_value : Val }.
Notation JoinValues := (list (list DynValue)).
Definition downcast (T : Z) (v : DynValue) : option Val := if decide (type_id v = T) then Some (dyn_value v) else None.
(** [values.get(index).into_iter().flatten()] with [expect] on each downcast. *)
Definition downcast_values (T : Z) (values : JoinValues) (index : nat) : outcome Empty_set (list Val) :=
  match mapM (downcast T) (default [] (values !! index)) with Some l => Ok l | None => Panic end.
Definition downcast_join_values (T : Z) (values : JoinValues) (index : nat) : outcome Empty_set (list Val) :=
  match mapM (downcast T) (default [] (values !! index)) with Some l => Ok l | None => Panic end.
(** [is_some_and(|values| !values.is_empty())]. *)
Definition has_values (values : JoinValues) (index : nat) : bool :=
  match values !! index with Some (_ :: _) => true | _ => false end.
End values.
Arguments DynValue : clear implicits.

(** * Operators *)
Section joins.
Context {Json Pool PriorityPool Endpoint Storage Buildable Token Otel Any Val : Type} `{Countable K}.
Notation Env := (RuntimeEnvironment Json Pool PriorityPool Endpoint Storage Buildable).
Notation G := (Graph Json Pool PriorityPool Endpoint Storage Buildable).
Notation Ctx := (MessageContext Token Otel Any).
Notation JoinValues := (list (list (DynValue Val))).
Notation St := (Store K (DynValue Val)).

(** The lifetime settings of the storage, read at every call. *)
Definition storage_config (env : Env) (stream_id : Z) : Z * bool :=
  match stream_config env stream_id with
  | Some (JoinStream _ _ _ ttl renew) | Some (MultiJoinStream _ _ ttl renew) => (ttl, renew)
  | _ => (0, false)
  end.

(** A user function: whether the group is complete, and its calls. *)
Definition JoinFunction : Type := Ctx → K → list Val → list Val → bool * list (Ctx * Val).
Definition MultiJoinFunction : Type := Ctx → K → JoinValues → bool * list (Ctx * Val).

Definition join_type_of (config : RuntimeStreamConfig Json) : Api.JoinType :=
  match config with JoinStream _ join_type _ _ _ => join_type | _ => Api.JTUndefined end.
Definition can_call (join_type : Api.JoinType) (values : JoinValues) : bool :=
  match join_type with
  | Api.Inner => has_values values 0 && has_values values 1
  | Api.Left => has_values values 0
  | Api.Right => has_values values 1
  | Api.Outer => true
  | Api.JTUndefined => false
  end.
(** [JoinStream::call_function] with the configuration of its output. *)
Definition call_function (L R : Z) (f : JoinFunction) (config : RuntimeStreamConfig Json) (context : Ctx) (key : K) (values : JoinValues) :
    outcome Empty_set (bool * list (Ctx * Val)) :=
  if negb (can_call (join_type_of config) values) then Ok (false, [])
  else
    left ← downcast_values L values 0;
    right ← downcast_values R values 1;
    Ok (f context key left right).
Definition multi_call_function (f : MultiJoinFunction) (context : Ctx) (key : K) (values : JoinValues) :
    outcome Empty_set (bool * list (Ctx * Val)) :=
  if negb (has_values values 0) then Ok (false, []) else Ok (f context key values).

(** [consume_value]: the value enters the storage at its input's index. *)
Definition consume_value (env : Env) (stream_id : Z) (s : St) (context_deadline : option Z) (key : K) (index : nat) (value : DynValue Val) : St :=
  join_begin s key index value context_deadline (storage_config env stream_id).
Definition consume_left (env : Env) (stream_id L : Z) (s : St) (context_deadline : option Z) (key : K) (value : Val) : St :=
  consume_value env stream_id s context_deadline key 0 (MkDyn L value).
Definition consume_right (env : Env) (stream_id R : Z) (s : St) (context_deadline : option Z) (key : K) (value : Val) : St :=
  consume_value env stream_id s context_deadline key 1 (MkDyn R value).

(** ** Construction *)
Implicit Types g : G.
Definition add_storage g (storage : Storage) : G :=
  MkGraph (register_storage (environment g) storage) (inners g) (next_address g).
(** [from_collector]; [metrics] is the registration of the storage's series. *)
Definition join_from_collector g (storage : Storage) (metrics : RuntimeResult unit) : RuntimeResult G :=
  _ ← metrics; Ok (add_storage g storage).
(** [JoinStream::make]: output, storage, then the left and the right input. *)
Definition make_join g (config : StreamConfig Json) (left right : Z) (storage : Storage) (metrics : RuntimeResult unit)
    (left_consumer right_consumer : Z) (lc rc : option (RuntimeResult unit)) (lt rt : string) (lcalls rcalls : Z) :
    RuntimeResult Z * G :=
  match with_id_and_serde g (str_id config) with
  | Ok (output, g) =>
      match join_from_collector g storage metrics with
      | Ok g =>
          match try_set_consumer g left left_consumer (str_id config) lc lt lcalls with
          | (Ok _, g) =>
              match try_set_consumer g right right_consumer (str_id config) rc rt rcalls with
              | (Ok _, g) => (Ok output, g)
              | (Err e, g) => (Err e, g)
              | (Panic, g) => (Panic, g)
              end
          | (Err e, g) => (Err e, g)
          | (Panic, g) => (Panic, g)
          end
      | Err e => (Err e, g)
      | Panic => (Panic, g)
      end
  | Err e => (Err e, g)
  | Panic => (Panic, g)
  end.

(** A multi-join: its inputs are numbered as they are added; [mj_links] are
    the connected ones, by the handle of the consumer. *)
Record MultiJoin := MkMultiJoin { mj_output : Z; mj_id : Z; mj_next_index : nat; mj_links : gmap Z (nat * Z) }.
Implicit Types m : MultiJoin.
Definition multi_join_new g (config : StreamConfig Json) (storage : Storage) (metrics : RuntimeResult unit) : RuntimeResult (MultiJoin * G) :=
  g ← join_from_collector g storage metrics;
  '(output, g) ← with_id_and_serde g (str_id config);
  Ok (MkMultiJoin output (str_id config) 1 ∅, g).
Definition make_multi_link m g (index : nat) (T source handle : Z) (c : option (RuntimeResult unit)) (t : string) (calls : Z) :
    RuntimeResult unit * MultiJoin * G :=
  match try_set_typed_consumer g source handle (mj_id m) c t calls with
  | (Ok _, g) => (Ok tt, MkMultiJoin (mj_output m) (mj_id m) (mj_next_index m) (<[handle := (index, T)]> (mj_links m)), g)
  | (Err e, g) => (Err e, m, g)
  | (Panic, g) => (Panic, m, g)
  end.
Definition connect_left m g (T source handle : Z) c t calls : RuntimeResult unit * MultiJoin * G :=
  make_multi_link m g 0 T source handle c t calls.
(** [add_with_collector]: the index is taken before the connection is tried. *)
Definition add_with_collector m g (T source handle : Z) c t calls : RuntimeResult unit * MultiJoin * G :=
  let m' := MkMultiJoin (mj_output m) (mj_id m) (S (mj_next_index m)) (mj_links m) in
  make_multi_link m' g (mj_next_index m) T source handle c t calls.
(** [MultiJoinLinkStream::consume]. *)
Definition consume_link_value (env : Env) m (s : St) (handle : Z) (context_deadline : option Z) (key : K) (value : Val) : option St :=
  '(index, T) ← mj_links m !! handle;
  Some (consume_value env (mj_id m) s context_deadline key index (MkDyn T value)).

(** ** The operator on its storage

    [slot_type] is the type of the values of each input; [answer] what the
    operator's function does with a group. *)
Section operator.
Context (slot_type : nat → option Z) (answer : Ctx → K → JoinValues → outcome Empty_set (bool * list (Ctx * Val))).
Inductive operator_step : St → St → Prop :=
| os_consume s key index v dl cfg : slot_type index = Some (type_id v) → operator_step s (join_begin s key index v dl cfg)
| os_lookup s tid j s' : joiners s !! tid = Some j → join_lookup s tid j = Some s' → operator_step s s'
| os_lock s tid j s' : joiners s !! tid = Some j → join_lock s tid j = Some (Ok s') → operator_step s s'
| os_answered s tid j item e ctx r calls s' :
    joiners s !! tid = Some j → j_pc j = JInvoke item → heap s !! item = Some e →
    answer ctx (j_key j) (values e) = Ok (r, calls) → join_invoked s tid j r = Some s' → operator_step s s'
| os_remove s tid j s' : joiners s !! tid = Some j → join_remove s tid j = Some s' → operator_step s s'
| os_wake s tid t c s' : timers s !! tid = Some t → timer_wake s tid t c = Some s' → operator_step s s'
| os_finish s tid t s' : timers s !! tid = Some t → timer_finish s tid t = Some s' → operator_step s s'
| os_advance s d : 0 ≤ d → operator_step s (advance s d).
End operator.
End joins.

(** * Lemmas *)
Section typed.
Context `{Countable K} {Val Token Otel Any : Type} (slot_type : nat → option Z).
Notation Ctx := (MessageContext Token Otel Any).
Notation JoinValues := (list (list (DynValue Val))).
Notation St := (Store K (DynValue Val)).
Context (answer : Ctx → K → JoinValues → outcome Empty_set (bool * list (Ctx * Val))).
Implicit Types s : St.

(** Every value of a slot has the type of its input. *)
Definition typed_slots (vs : JoinValues) : Prop := ∀ i l v, vs !! i = Some l → v ∈ l → slot_type i = Some (type_id v).
Definition event_slots (ev : JoinEvent (DynValue Val)) : option JoinValues :=
  match ev with Invoked _ vs | Expired _ vs => Some vs | Completed _ => None end.
Record typed_store s : Prop := {
  ty_joiners tid j : joiners s !! tid = Some j → slot_type (j_index j) = Some (type_id (j_value j));
  ty_heap p e : heap s !! p = Some e → typed_slots (values e);
  ty_events ev vs : ev ∈ events s → event_slots ev = Some vs → typed_slots vs }.

Lemma typed_push vs i v : typed_slots vs → slot_type i = Some (type_id v) → typed_slots (push_value vs i v).
Proof.
  intros Hvs Hi. unfold push_value. set (ws := if decide (length vs ≤ i)%nat then _ else vs).
  assert (typed_slots ws) as Hws.
  { unfold ws. case_decide; [|done]. intros k l w Hk Hw. apply lookup_app_Some in Hk as [Hk|[_ Hk]]; [by eapply Hvs|].
    apply lookup_replicate in Hk as [-> _]. by apply not_elem_of_nil in Hw. }
  intros k l w Hk Hw. destruct (decide (k = i)) as [->|Hne].
  - rewrite list_lookup_alter_eq in Hk. destruct (ws !! i) as [l0|] eqn:E; [|done]. injection Hk as <-.
    apply elem_of_app in Hw as [Hw| ->%list_elem_of_singleton]; [by eapply Hws|done].
  - rewrite list_lookup_alter_ne in Hk by done. by eapply Hws.
Qed.
(** Updates that keep the parts of a typed store. *)
Lemma typed_pc s tid j pc : typed_store s → joiners s !! tid = Some j →
  ∀ t k, <[tid := with_pc j pc]> (joiners s) !! t = Some k → slot_type (j_index k) = Some (type_id (j_value k)).
Proof. intros Hs Hj t k. rewrite lookup_insert_Some. intros [[<- <-]|[_ Hk]]; [exact (ty_joiners s Hs tid j Hj)|by eapply ty_joiners]. Qed.
Lemma typed_entry s p e : typed_store s → typed_slots (values e) → ∀ q e', <[p := e]> (heap s) !! q = Some e' → typed_slots (values e').
Proof. intros Hs He q e'. rewrite lookup_insert_Some. intros [[_ <-]|[_ Hq]]; [done|by eapply ty_heap]. Qed.
Lemma typed_event s ev : typed_store s → (∀ vs, event_slots ev = Some vs → typed_slots vs) →
  ∀ ev' vs, ev' ∈ events s ++ [ev] → event_slots ev' = Some vs → typed_slots vs.
Proof. intros Hs He ev' vs [Hin| ->%list_elem_of_singleton]%elem_of_app; [by eapply ty_events|apply He]. Qed.
Lemma operator_typed s s' : operator_step slot_type answer s s' → typed_store s → typed_store s'.
Proof.
  intros Hstep Hs. destruct Hstep as [s key index v dl cfg Hi|s tid j s' Hj E|s tid j s' Hj E|s tid j item e ctx r calls s' Hj Hpc He Ha E
    |s tid j s' Hj E|s tid t c s' Ht E|s tid t s' Ht E|s d Hd].
  - split; cbn; [|by apply ty_heap|by apply ty_events]. intros tid j. rewrite lookup_insert_Some.
    intros [[_ <-]|[_ Hj]]; [done|by eapply ty_joiners].
  - unfold join_lookup in E. repeat case_match; simplify_eq; split; cbn;
      try (by eapply typed_pc); try (by apply ty_events); try (by apply ty_heap).
    all: eapply typed_entry; [done|]; intros i l' w; cbn; by rewrite lookup_nil.
  - unfold join_lock in E. destruct (j_pc j) as [|item| | | |]; try done. destruct (heap s !! item) as [e|] eqn:He; [|done]. cbn -[push_value] in E.
    assert (typed_slots (push_value (values e) (j_index j) (j_value j))) as Hpush
      by (apply typed_push; [by eapply ty_heap|by eapply ty_joiners]).
    repeat case_match; simplify_eq; split; cbn -[push_value]; try (by eapply typed_pc); try (by apply ty_events); try (by apply ty_heap);
      try (by apply typed_entry); try (apply typed_event; [done|]; by intros vs [= <-]).
  - unfold join_invoked in E. rewrite Hpc, He in E. cbn in E. pose proof (ty_heap s Hs _ _ He).
    destruct r; simplify_eq; split; cbn; try (by eapply typed_pc); try (by apply ty_events); try (by apply typed_entry); by apply typed_event.
  - unfold join_remove, remove_if_same in E. repeat case_match; simplify_eq; split; cbn; try (by eapply typed_pc); by apply ty_events || by apply ty_heap.
  - unfold timer_wake in E. destruct (t_pc t); try done. destruct (heap s !! t_item t) as [e|] eqn:He.
    2: { repeat case_match; simplify_eq; by split; cbn; [apply ty_joiners|apply ty_heap|apply ty_events]. }
    pose proof (ty_heap s Hs _ _ He). cbn in E.
    repeat case_match; simplify_eq; split; cbn; try (by apply ty_joiners); try (by apply ty_events); try (by apply ty_heap);
      try (by apply typed_entry); (apply typed_event; [done|by intros vs [= <-]]).
  - unfold timer_finish, remove_if_same in E. repeat case_match; simplify_eq; split; cbn; by apply ty_joiners || by apply ty_events || by apply ty_heap.
  - split; cbn; [by apply ty_joiners|by apply ty_heap|by apply ty_events].
Qed.
Lemma operator_reach_typed t s : rtc (operator_step slot_type answer) (store_new t) s → typed_store s.
Proof.
  apply (rtc_ind_r typed_store).
  - split; cbn; intros *; rewrite ?lookup_empty; [done..|]. by intros ?%not_elem_of_nil.
  - intros x y _ Hxy Hx. by apply (operator_typed x y).
Qed.
(** The operator only takes steps of the storage. *)
Lemma operator_join_step s s' : operator_step slot_type answer s s' → join_step s s'.
Proof. intros []; eauto using join_step. Qed.
End typed.

Section slots.
Context {Val : Type} (slot_type : nat → option Z).
Lemma downcast_typed T (vs : list (list (DynValue Val))) i : typed_slots slot_type vs → slot_type i = Some T →
  ∃ l, default [] (vs !! i) = MkDyn T <$> l ∧ downcast_values T vs i = Ok l ∧ downcast_join_values T vs i = Ok l.
Proof.
  intros Hvs Hi. unfold downcast_values, downcast_join_values.
  assert (Forall (λ v, type_id v = T) (default [] (vs !! i))) as Hall.
  { apply Forall_forall. intros v Hv. destruct (vs !! i) as [l|] eqn:E; [|by apply not_elem_of_nil in Hv].
    pose proof (Hvs i l v E Hv). congruence. }
  exists (dyn_value <$> default [] (vs !! i)). revert Hall. generalize (default [] (vs !! i)). intros l Hall.
  assert (mapM (downcast T) l = Some (dyn_value <$> l)) as ->.
  { induction Hall as [|v l Hv _ IH]; [done|]. assert (downcast T v = Some (dyn_value v)) as Hd by (unfold downcast; by rewrite decide_True).
    cbn. rewrite Hd. cbn. by rewrite IH. }
  split_and!; [|done..]. induction Hall as [|[T' v] l Hv _ IH]; [done|]. cbn in *. by rewrite <-IH, Hv.
Qed.
Lemma has_values_slot T (vs : list (list (DynValue Val))) i l : default [] (vs !! i) = MkDyn T <$> l → has_values vs i = bool_decide (l ≠ []).
Proof. unfold has_values. intros E. destruct (vs !! i) as [[|v l']|], l; cbn in E; try done; by rewrite ?bool_decide_true by done. Qed.
End slots.

(** The two inputs of a join. *)
Definition sides (L R : Z) (index : nat) : option Z := match index with 0 => Some L | 1 => Some R | _ => None end%nat.
(** When a group is joined. *)
Definition joined {Val} (join_type : Api.JoinType) (left right : list Val) : bool :=
  match join_type with
  | Api.Inner => bool_decide (left ≠ []) && bool_decide (right ≠ [])
  | Api.Left => bool_decide (left ≠ [])
  | Api.Right => bool_decide (right ≠ [])
  | Api.Outer => true
  | Api.JTUndefined => false
  end.
(** The type of a slot of a multi-join. *)
Definition slot_type_of (m : MultiJoin) (index : nat) : option Z :=
  (λ hl, hl.2.2) <$> head (filter (λ hl : Z * (nat * Z), hl.2.1 = index) (map_to_list (mj_links m))).

Section multi.
Context {Json Pool PriorityPool Endpoint Storage Buildable : Type}.
Notation G := (Graph Json Pool PriorityPool Endpoint Storage Buildable).
(** Wiring a multi-join: one left input, then further ones; consumers are new
    objects. *)
Inductive wiring_step : MultiJoin * G → MultiJoin * G → Prop :=
| ws_left m g T source handle c t calls : mj_links m !! handle = None → slot_type_of m 0 = None →
    wiring_step (m, g) ((connect_left m g T source handle c t calls).1.2, (connect_left m g T source handle c t calls).2)
| ws_add m g T source handle c t calls : mj_links m !! handle = None →
    wiring_step (m, g) ((add_with_collector m g T source handle c t calls).1.2, (add_with_collector m g T source handle c t calls).2).
Record wired (m : MultiJoin) : Prop := {
  wd_index h i T : mj_links m !! h = Some (i, T) → (i < mj_next_index m)%nat;
  wd_unique h h' i T T' : mj_links m !! h = Some (i, T) → mj_links m !! h' = Some (i, T') → h = h';
  wd_next : (0 < mj_next_index m)%nat }.
Lemma slot_type_of_None m i h T : slot_type_of m i = None → mj_links m !! h ≠ Some (i, T).
Proof.
  unfold slot_type_of. intros E Hh%elem_of_map_to_list. destruct (filter _ _) as [|x l] eqn:Ef; [|done].
  assert ((h, (i, T)) ∈ filter (λ hl : Z * (nat * Z), hl.2.1 = i) (map_to_list (mj_links m))) as Hin by by apply list_elem_of_filter.
  rewrite Ef in Hin. by apply not_elem_of_nil in Hin.
Qed.
Lemma slot_type_of_link m h i T : wired m → mj_links m !! h = Some (i, T) → slot_type_of m i = Some T.
Proof.
  intros Hm Hh. destruct (slot_type_of m i) as [T'|] eqn:E; [|by apply (slot_type_of_None m i h T) in E].
  unfold slot_type_of in E. destruct (filter _ _) as [|[h' [i' T'']] l] eqn:Ef; [done|]. cbn in E. simplify_eq.
  assert ((h', (i', T')) ∈ filter (λ hl : Z * (nat * Z), hl.2.1 = i) (map_to_list (mj_links m))) as [Hi Hin%elem_of_map_to_list]%list_elem_of_filter
    by (rewrite Ef; left). cbn in Hi. subst i'. assert (h = h') as -> by by eapply wd_unique. congruence.
Qed.
Lemma link_wired m (g : G) index T source handle c t calls :
  wired m → (index < mj_next_index m)%nat → (∀ h T', mj_links m !! h ≠ Some (index, T')) →
  wired (make_multi_link m g index T source handle c t calls).1.2.
Proof.
  intros Hm Hi Hfree. unfold make_multi_link. destruct (try_set_typed_consumer _ _ _ _ _ _ _) as [[[]|e|] g']; cbn; [|done..].
  split; cbn; [| |by apply wd_next].
  - intros h i T'. rewrite lookup_insert_Some. intros [[_ [= <- _]]|[_ Hh]]; [done|by eapply wd_index].
  - intros h h' i T1 T2. rewrite !lookup_insert_Some. intros [[<- [= <- <-]]|[? H1]] [[<- [= ?]]|[? H2]]; try done; subst; [by destruct (Hfree h' T2)|by destruct (Hfree h T1)|by eapply wd_unique].
Qed.
Lemma wiring_wired m (g : G) m' (g' : G) : wiring_step (m, g) (m', g') → wired m → wired m'.
Proof.
  intros Hs Hm. inversion Hs; subst.
  - apply link_wired; [done|by apply wd_next|]. intros h T'. by apply slot_type_of_None.
  - apply link_wired; [|cbn; lia|].
    + split; cbn; [|by apply wd_unique|lia]. intros h i T' Hh%(wd_index m Hm). lia.
    + cbn. intros h T' Hh%(wd_index m Hm). lia.
Qed.
End multi.

(** * Properties *)

(** A join calls its function on well-typed groups.  In every
    interleaving of messages, callbacks and expiries, the values of a group
    shown to the operator are, per side and in arrival order, values of that
    side's type, so no downcast panics; the function is called with them
    exactly when the join type asks for it, an incomplete group is kept; and
    the value of every message that was consumed was shown to a call of its
    group. *)
Theorem join_function_called {Json Token Otel Any Val} `{Countable K} L R
    (f : JoinFunction (Token := Token) (Otel := Otel) (Any := Any) (Val := Val) (K := K)) (config : RuntimeStreamConfig Json) t s :
  rtc (operator_step (sides L R) (call_function L R f config)) (store_new t) s →
  (∀ p vs, Invoked p vs ∈ events s ∨ Expired p vs ∈ events s →
    ∃ left right, default [] (vs !! 0%nat) = MkDyn L <$> left ∧ default [] (vs !! 1%nat) = MkDyn R <$> right ∧
      ∀ ctx key, call_function L R f config ctx key vs =
        if joined (join_type_of config) left right then Ok (f ctx key left right) else Ok (false, [])) ∧
  ∀ tid j, joiners s !! tid = Some j → j_pc j = JDone → delivered j (events s).
Proof.
  intros Hr. split.
  - apply operator_reach_typed in Hr as Hty. intros p vs Hev.
    assert (typed_slots (sides L R) vs) as Hvs by (destruct Hev; by eapply (ty_events _ s Hty)).
    destruct (downcast_typed (sides L R) L vs 0 Hvs eq_refl) as (left & Hl & Hdl & _).
    destruct (downcast_typed (sides L R) R vs 1 Hvs eq_refl) as (right & Hrt & Hdr & _).
    exists left, right. split_and!; [done..|]. intros ctx key. unfold call_function, can_call.
    rewrite Hdl, Hdr, (has_values_slot _ _ _ _ Hl), (has_values_slot _ _ _ _ Hrt).
    destruct (join_type_of config); cbn [joined negb mbind outcome_bind]; repeat case_bool_decide; done.
  - apply (rtc_subrel _ join_step) in Hr; [|intros x y; apply operator_join_step]. apply inv_reach in Hr.
    intros tid j Hj Hpc. apply (i_delivered _ Hr tid j Hj). unfold pushed. by rewrite Hpc.
Qed.

(** The inputs of a multi-join do not mix.  However inputs are added,
    also when connections fail, no two share an index, and in every group the
    operator is shown the values of an input's index are that input's values,
    so that its downcast succeeds; the function is called exactly for groups
    with a left value. *)
Theorem multi_join_inputs_apart {Json Pool PriorityPool Endpoint Storage Buildable Token Otel Any Val} `{Countable K}
    (g g' : Graph Json Pool PriorityPool Endpoint Storage Buildable) output id m
    (f : MultiJoinFunction (Token := Token) (Otel := Otel) (Any := Any) (Val := Val) (K := K)) t s :
  rtc wiring_step (MkMultiJoin output id 1 ∅, g) (m, g') →
  rtc (operator_step (slot_type_of m) (multi_call_function f)) (store_new t) s →
  (∀ h h' i T T', mj_links m !! h = Some (i, T) → mj_links m !! h' = Some (i, T') → h = h') ∧
  ∀ p vs, Invoked p vs ∈ events s ∨ Expired p vs ∈ events s →
    (∀ h i T, mj_links m !! h = Some (i, T) → ∃ l, downcast_join_values T vs i = Ok l ∧ default [] (vs !! i) = MkDyn T <$> l) ∧
    ∀ ctx key, multi_call_function f ctx key vs = if decide (default [] (vs !! 0%nat) = []) then Ok (false, []) else Ok (f ctx key vs).
Proof.
  intros Hw Hr. assert (wired m) as Hm.
  { enough (∀ x : MultiJoin * _, rtc wiring_step (MkMultiJoin output id 1 ∅, g) x → wired x.1) as Hall by exact (Hall (m, g') Hw).
    apply rtc_ind_r.
    - split; cbn; [by intros *; rewrite lookup_empty|by intros *; rewrite lookup_empty|lia].
    - intros [m1 g1] [m2 g2] _ Hs Hx. by eapply wiring_wired. }
  split; [by intros; eapply wd_unique|]. apply operator_reach_typed in Hr as Hty. intros p vs Hev.
  assert (typed_slots (slot_type_of m) vs) as Hvs by (destruct Hev; by eapply (ty_events _ s Hty)). split.
  - intros h i T Hh. destruct (downcast_typed (slot_type_of m) T vs i Hvs) as (l & Hl & _ & Hd); [by eapply slot_type_of_link|by exists l].
  - intros ctx key. unfold multi_call_function, has_values. by destruct (vs !! 0%nat) as [[|v l]|].
Qed.

(** * Instances *)
Section runner.
Context `{Countable K} {Val Token Otel Any : Type} (slot_type : nat → option Z) (ctx : MessageContext Token Otel Any)
  (answer : MessageContext Token Otel Any → K → list (list (DynValue Val)) → outcome Empty_set (bool * list (MessageContext Token Otel Any * Val))).
Notation St := (Store K (DynValue Val)).
(** One turn of a call, at whatever it is about to do. *)
Definition turn_of (s : St) (tid : Z) : option St :=
  j ← joiners s !! tid;
  match j_pc j with
  | JLookup => join_lookup s tid j
  | JLock _ => match join_lock s tid j with Some (Ok s) => Some s | _ => None end
  | JInvoke item => e ← heap s !! item; match answer ctx (j_key j) (values e) with Ok (r, _) => join_invoked s tid j r | _ => None end
  | _ => join_remove s tid j
  end.
Fixpoint turns_of (s : St) (tids : list Z) : option St :=
  match tids with [] => Some s | tid :: tids => s ← turn_of s tid; turns_of s tids end.
Lemma turn_of_step s tid s' : turn_of s tid = Some s' → operator_step slot_type answer s s'.
Proof.
  unfold turn_of. destruct (joiners s !! tid) as [j|] eqn:Hj; [|done]. cbn. destruct (j_pc j) as [|item|item| | |] eqn:Hpc.
  - by apply os_lookup.
  - destruct (join_lock s tid j) as [[s1|e|]|] eqn:E; try done. intros [= <-]. by eapply os_lock.
  - destruct (heap s !! item) as [e|] eqn:He; [|done]. cbn. destruct (answer _ _ _) as [[r calls]|x|] eqn:Ea; try done. by eapply os_answered.
  - by eapply os_remove.
  - by eapply os_remove.
  - by eapply os_remove.
Qed.
Lemma turns_of_steps s tids s' : turns_of s tids = Some s' → rtc (operator_step slot_type answer) s s'.
Proof.
  revert s. induction tids as [|tid tids IH]; intros s; cbn; [intros [= ->]; apply rtc_refl|].
  destruct (turn_of s tid) as [s1|] eqn:E; [|done]. cbn. intros Hs. eapply rtc_l; [by eapply turn_of_step|by apply IH].
Qed.
End runner.

Notation JoinCtx := (MessageContext unit unit unit).
Definition inner_config : RuntimeStreamConfig unit := JoinStream (MkStream 1 "j" "" "" 0 [] 0 None None 0 0 ∅) Api.Inner Api.HashMap 0 false.
Definition pair_up : JoinFunction (Token := unit) (Otel := unit) (Any := unit) (Val := Z) (K := Z) :=
  λ ctx key l r, (true, [(ctx, Z.of_nat (length l + length r))]).
Definition two_messages (index : nat) (R : Z) : Store Z (DynValue Z) :=
  join_begin (join_begin (store_new 0) 7 0 (MkDyn 100 5) None (0, false)) 7 index (MkDyn R 6) None (0, false).
Definition joined_store : Store Z (DynValue Z) :=
  default (store_new 0) (turns_of (new tt tt : JoinCtx) (call_function 100 200 pair_up inner_config) (two_messages 1 200) [0; 0; 0; 1; 1; 1; 1]).
Lemma join_function_called_witness :
  events joined_store = [Invoked 0 [[MkDyn 100 5]]; Invoked 0 [[MkDyn 100 5]; [MkDyn 200 6]]; Completed 0] ∧
  ∃ left right, [MkDyn 100 5] = MkDyn 100 <$> left ∧ [MkDyn 200 6] = MkDyn 200 <$> right ∧
    call_function 100 200 pair_up inner_config (new tt tt) 7 [[MkDyn 100 5]; [MkDyn 200 6]] = Ok (pair_up (new tt tt) 7 left right).
Proof.
  split; [vm_compute; reflexivity|].
  destruct (join_function_called 100 200 pair_up inner_config 0 joined_store) as [H _].
  - eapply rtc_l; [by apply (os_consume _ _ _ 7 0 (MkDyn 100 5) None (0, false))|].
    eapply rtc_l; [by apply (os_consume _ _ _ 7 1 (MkDyn 200 6) None (0, false))|].
    apply (turns_of_steps _ (new tt tt) _ _ [0; 0; 0; 1; 1; 1; 1]). vm_compute. reflexivity.
  - destruct (H 0 [[MkDyn 100 5]; [MkDyn 200 6]]) as (left & right & Hl & Hr & Hc).
    + left. vm_compute. right. left.
    + exists left, right. split_and!; [exact Hl|exact Hr|]. rewrite Hc.
      destruct left; [done|]. destruct right; [done|]. reflexivity.
Defined.

Definition multi_graph : Graph unit unit unit unit unit unit :=
  (derived_with_name (derived_with_name (graph_new (environment_new FunctionCall)) 1 "a").2 2 "b").2.
Definition multi_new : MultiJoin := MkMultiJoin 9 3 1 ∅.
Definition multi_left := connect_left multi_new multi_graph 100 0 10 None "i64" 0.
Definition multi_both := add_with_collector multi_left.1.2 multi_left.2 200 1 11 None "i64" 0.
Definition count_up : MultiJoinFunction (Token := unit) (Otel := unit) (Any := unit) (Val := Z) (K := Z) :=
  λ ctx key vs, (bool_decide (length vs = 2%nat), []).
Definition multi_store : Store Z (DynValue Z) :=
  default (store_new 0) (turns_of (new tt tt : JoinCtx) (multi_call_function count_up) (two_messages 1 200) [0; 0; 0; 1; 1; 1; 1]).
Lemma multi_join_inputs_apart_witness :
  mj_links multi_both.1.2 = {[10 := (0%nat, 100); 11 := (1%nat, 200)]} ∧
  ∃ l, downcast_join_values 200 [[MkDyn 100 5]; [MkDyn 200 6]] 1 = Ok l ∧ [MkDyn 200 6] = MkDyn 200 <$> l.
Proof.
  split; [vm_compute; reflexivity|].
  destruct (multi_join_inputs_apart multi_graph multi_both.2 9 3 multi_both.1.2 count_up 0 multi_store) as [_ H].
  - eapply rtc_l; [apply (ws_left multi_new multi_graph 100 0 10 None "i64" 0); vm_compute; reflexivity|].
    apply rtc_once. apply (ws_add multi_left.1.2 multi_left.2 200 1 11 None "i64" 0). vm_compute. reflexivity.
  - eapply rtc_l; [apply (os_consume _ _ _ 7 0 (MkDyn 100 5) None (0, false)); vm_compute; reflexivity|].
    eapply rtc_l; [apply (os_consume _ _ _ 7 1 (MkDyn 200 6) None (0, false)); vm_compute; reflexivity|].
    apply (turns_of_steps _ (new tt tt) _ _ [0; 0; 0; 1; 1; 1; 1]). vm_compute. reflexivity.
  - destruct (H 0 [[MkDyn 100 5]; [MkDyn 200 6]]) as [Hd _].
    + left. vm_compute. right. left.
    + refine (Hd 11 1%nat 200 _). vm_compute. reflexivity.
Defined.
