(* ===== verification/SubStream.v ===== *)
(** Callable sub-streams, [src/src/operators/substream.rs]: wiring, and a call
    with its caller and the deliveries of its results.

    A call is a step relation.  The caller and every delivery advance by the
    atomic sections of the source: the gate taken or released, one atomic or
    lock access, the collector called or returning.  Futures may be dropped at
    their awaits.  Spans are left out. *)

From S2P Require Import Prelude Errors Config Context Environment Graph.
Local Open Scope Z_scope.

(** * Wiring *)
Section wiring.
Context {Json Pool PriorityPool Endpoint Storage Buildable : Type}.
Notation G := (Graph Json Pool PriorityPool Endpoint Storage Buildable).
Record SubStreamInner := MkSubStream {
  ss_stream : Z;                               (** address of its stream *)
  ss_source : option Z;
  ss_service : Z }.
Implicit Types (g : G) (s : SubStreamInner).
Definition stream_at g (address : Z) : RuntimeResult (StreamInner Pool PriorityPool) :=
  match inners g !! address with Some i => Ok i | None => Panic end.
(** [SubStream::new]: [handle] is the weak reference registered for the build. *)
Definition sub_stream_new g (config : StreamConfig Json) (handle : Buildable) : RuntimeResult (SubStreamInner * G) :=
  '(a, g) ← with_id_and_serde g (str_id config);
  Ok (MkSubStream a None (id_service config),
      MkGraph (register_runtime_buildable (environment g) handle) (inners g) (next_address g)).
(** The result source must be another stream of the same service. *)
Definition check_source g s (source : Z) : RuntimeResult unit :=
  own ← stream_at g (ss_stream s);
  src ← stream_at g source;
  match ss_source s with
  | Some _ => Err (SourceAlreadySet (si_name own))
  | None =>
      let wrong := InvalidConfiguration "SubStream result source must be a different stream in the same service" in
      if decide (si_id src = si_id own) then Err wrong
      else
        config ← stream_configuration g src;
        if decide (id_service (stream config) = ss_service s) then Ok tt else Err wrong
  end.
Definition set_source_typed g s (source target : Z) (counter : option (RuntimeResult unit)) (type_name : string) (calls : Z) :
    RuntimeResult unit * G * SubStreamInner :=
  match check_source g s source, stream_at g (ss_stream s) with
  | Ok _, Ok own =>
      match try_set_typed_consumer g source target (si_id own) counter type_name calls with
      | (Ok _, g) => (Ok tt, g, MkSubStream (ss_stream s) (Some source) (ss_service s))
      | (r, g) => (r, g, s)
      end
  | Ok _, _ => (Panic, g, s)
  | r, _ => (r, g, s)
  end.
(** [build], run before every call. *)
Definition sub_stream_build g s : RuntimeResult unit :=
  own ← stream_at g (ss_stream s);
  match downstream own with
  | None => Err (ConsumerNotSet (si_name own))
  | Some _ =>
      match ss_source s with
      | None => Err (InvalidConfiguration "SubStream result source is missing")
      | Some _ =>
          match service_id (environment g) with
          | Some id => if decide (id = ss_service s) then Ok tt
                       else Err (InvalidConfiguration "SubStream belongs to a different service")
          | None => Ok tt
          end
      end
  end.
End wiring.

(** * A call *)
Inductive CallerPc :=
| Emitting | Selecting | GateWait | Gated | Closing | Closed | Returned (result : RuntimeResult unit)
| Dropping | Dropped1 | Gone.
Inductive DeliveryPc :=
| DWait | DLocked | DChecked | DHave | DOut | DTrue | DClosing1 | DClosing2 | DEnd.
Inductive Party := PCaller | PDelivery (d : nat).
Record Call := MkCall {
  callback : bool;                             (** the callback is still there *)
  gate : option Party;
  done : bool;
  completed : bool;
  cancelled : bool;                            (** the caller's context *)
  caller_pc : CallerPc;
  deliveries : gmap nat DeliveryPc;
  next_delivery : nat;
  outs : list nat;                             (** deliveries that called the collector, in order *)
  answers : list (nat * bool) }.               (** what the collector returned, in order *)
Implicit Types c : Call.
(** [consume] up to the emission. *)
Definition consume_begin (build : RuntimeResult unit) (context_cancelled : bool) : RuntimeResult Call :=
  _ ← build;
  if context_cancelled then Err ContextCancelled
  else Ok (MkCall true None false false false Emitting ∅ 0 [] []).

Definition set_caller c (pc : CallerPc) : Call :=
  MkCall (callback c) (gate c) (done c) (completed c) (cancelled c) pc (deliveries c) (next_delivery c) (outs c) (answers c).
Definition set_gate c (g : option Party) : Call :=
  MkCall (callback c) g (done c) (completed c) (cancelled c) (caller_pc c) (deliveries c) (next_delivery c) (outs c) (answers c).
Definition set_delivery c (d : nat) (pc : DeliveryPc) : Call :=
  MkCall (callback c) (gate c) (done c) (completed c) (cancelled c) (caller_pc c) (<[d := pc]> (deliveries c))
    (next_delivery c) (outs c) (answers c).
(** The two writes of [close]. *)
Definition cancel_done c : Call :=
  MkCall (callback c) (gate c) true (completed c) (cancelled c) (caller_pc c) (deliveries c) (next_delivery c) (outs c) (answers c).
Definition take_callback c : Call :=
  MkCall false (gate c) (done c) (completed c) (cancelled c) (caller_pc c) (deliveries c) (next_delivery c) (outs c) (answers c).
Definition store_completed c : Call :=
  MkCall (callback c) (gate c) (done c) true (cancelled c) (caller_pc c) (deliveries c) (next_delivery c) (outs c) (answers c).
Definition set_cancelled c : Call :=
  MkCall (callback c) (gate c) (done c) (completed c) true (caller_pc c) (deliveries c) (next_delivery c) (outs c) (answers c).
Definition call_out c (d : nat) : Call :=
  MkCall (callback c) (gate c) (done c) (completed c) (cancelled c) (caller_pc c) (deliveries c) (next_delivery c)
    (outs c ++ [d]) (answers c).
Definition answer c (d : nat) (b : bool) : Call :=
  MkCall (callback c) (gate c) (done c) (completed c) (cancelled c) (caller_pc c) (deliveries c) (next_delivery c)
    (outs c) (answers c ++ [(d, b)]).

(** [dispatch] after the emission started: one turn of the caller; [None] is
    a pending await. *)
Definition caller_turn c : option Call :=
  match caller_pc c with
  | Emitting => Some (set_caller c Selecting)
  | Selecting => if done c || cancelled c then Some (set_caller c GateWait) else None
  | GateWait => match gate c with None => Some (set_caller (set_gate c (Some PCaller)) Gated) | Some _ => None end
  | Gated => Some (set_caller (cancel_done c) Closing)
  | Closing => Some (set_caller (take_callback c) Closed)
  | Closed => Some (set_caller (set_gate c None) (Returned (if completed c then Ok tt else Err ContextCancelled)))
  | Dropping => Some (set_caller (cancel_done c) Dropped1)
  | Dropped1 => Some (set_caller (take_callback c) Gone)
  | Returned _ | Gone => None
  end.
(** The future of the call is dropped at one of its awaits: the guard closes. *)
Definition caller_dropped c : option Call :=
  match caller_pc c with Emitting | Selecting | GateWait => Some (set_caller c Dropping) | _ => None end.

(** A result reaches [ResultLink]: [deliver] starts. *)
Definition arrive c : Call :=
  MkCall (callback c) (gate c) (done c) (completed c) (cancelled c) (caller_pc c) (<[next_delivery c := DWait]> (deliveries c))
    (S (next_delivery c)) (outs c) (answers c).
Definition leave c (d : nat) : Call := set_delivery (set_gate c None) d DEnd.
(** One turn of a delivery; [reply] is what the collector returns. *)
Definition delivery_turn c (d : nat) (reply : bool) : option Call :=
  pc ← deliveries c !! d;
  match pc with
  | DWait => match gate c with None => Some (set_delivery (set_gate c (Some (PDelivery d))) d DLocked) | Some _ => None end
  | DLocked => Some (if done c then leave c d else set_delivery c d DChecked)
  | DChecked => Some (if callback c then set_delivery c d DHave else leave c d)
  | DHave => Some (if cancelled c then set_delivery c d DClosing1 else set_delivery (call_out c d) d DOut)
  | DOut => Some (if reply then set_delivery (answer c d true) d DTrue else leave (answer c d false) d)
  | DTrue => Some (set_delivery (store_completed c) d DClosing1)
  | DClosing1 => Some (set_delivery (cancel_done c) d DClosing2)
  | DClosing2 => Some (leave (take_callback c) d)
  | DEnd => None
  end.
(** The delivering future is dropped at one of its awaits. *)
Definition delivery_dropped c (d : nat) : option Call :=
  pc ← deliveries c !! d;
  match pc with
  | DWait => Some (set_delivery c d DEnd)
  | DOut => Some (leave c d)
  | _ => None
  end.

(** Steps of the call itself, and those of its surroundings. *)
Inductive turn : Call → Call → Prop :=
| tu_caller c c' : caller_turn c = Some c' → turn c c'
| tu_delivery c d reply c' : delivery_turn c d reply = Some c' → turn c c'.
Inductive call_step : Call → Call → Prop :=
| cl_turn c c' : turn c c' → call_step c c'
| cl_arrive c : call_step c (arrive c)
| cl_cancel c : call_step c (set_cancelled c)
| cl_caller_dropped c c' : caller_dropped c = Some c' → call_step c c'
| cl_delivery_dropped c d c' : delivery_dropped c d = Some c' → call_step c c'.
Definition call_new : Call := MkCall true None false false false Emitting ∅ 0 [] [].

(** * Invariant *)
Definition inside (pc : DeliveryPc) : bool := match pc with DWait | DEnd => false | _ => true end.
Definition caller_inside (pc : CallerPc) : bool := match pc with Gated | Closing | Closed => true | _ => false end.
(** The caller has decided: nothing may be delivered any more. *)
Definition settled (pc : CallerPc) : bool := match pc with Closing | Closed | Returned _ => true | _ => false end.
(** The delivery at the gate. *)
Definition holding c : option (nat * DeliveryPc) :=
  match gate c with Some (PDelivery d) => pair d <$> deliveries c !! d | _ => None end.
Definition unanswered c : Prop := completed c = false ∧ ∀ d, (d, true) ∉ answers c.
Definition decided c : Prop := completed c = true ∨ cancelled c = true.
(** What the delivery at the gate knows. *)
Definition holder_ok c (d : nat) (pc : DeliveryPc) : Prop :=
  match pc with
  | DWait | DEnd => False
  | DLocked => True
  | DChecked | DHave => settled (caller_pc c) = false ∧ unanswered c
  | DOut => settled (caller_pc c) = false ∧ unanswered c ∧ last (outs c) = Some d
  | DTrue => settled (caller_pc c) = false ∧ last (outs c) = Some d ∧ (d, true) ∈ answers c
  | DClosing1 | DClosing2 => settled (caller_pc c) = false ∧ decided c
  end.
Record call_inv c : Prop := {
  iv_fresh d : is_Some (deliveries c !! d) → (d < next_delivery c)%nat;
  iv_inside d pc : deliveries c !! d = Some pc → inside pc = true → gate c = Some (PDelivery d);
  iv_caller : caller_inside (caller_pc c) = true ↔ gate c = Some PCaller;
  iv_delivery d : gate c = Some (PDelivery d) → is_Some (deliveries c !! d);
  iv_holder d pc : holding c = Some (d, pc) → holder_ok c d pc;
  iv_settled : settled (caller_pc c) = true → done c = true;
  iv_answered d : (d, true) ∈ answers c → last (outs c) = Some d ∧ (completed c = true ∨ holding c = Some (d, DTrue));
  iv_completed : completed c = true → ∃ d, (d, true) ∈ answers c;
  iv_done : completed c = true → done c = true ∨ ∃ d, holding c = Some (d, DClosing1);
  iv_why : done c = true → decided c ∨ match caller_pc c with Dropped1 | Gone => True | _ => False end;
  iv_select : match caller_pc c with GateWait | Gated | Closing | Closed => decided c | _ => True end;
  iv_result r : caller_pc c = Returned r → r = (if completed c then Ok tt else Err ContextCancelled) ∧ decided c }.

Ltac open_inv H := pose proof H as [H1 H2 H3 H4 H5 H6 H7 H8 H9 H10 H11 H12].
Ltac at_gate := unfold holding, set_delivery, leave, set_gate; cbn; rewrite ?lookup_insert_eq; cbn.
Lemma call_inv_new : call_inv call_new.
Proof. split; cbn; try (intros; simplify_map_eq; naive_solver). set_solver. Qed.
(** What the delivery at the gate knows depends on little. *)
Lemma holder_ok_mono c c' d pc :
  settled (caller_pc c') = settled (caller_pc c) → completed c' = completed c → outs c' = outs c → answers c' = answers c →
  (cancelled c = true → cancelled c' = true) → holder_ok c d pc → holder_ok c' d pc.
Proof.
  intros E1 E2 E3 E4 E5. unfold holder_ok, unanswered, decided. rewrite E1, E2, E3, E4. destruct pc; naive_solver.
Qed.
Lemma holding_caller c : gate c = Some PCaller → holding c = None.
Proof. unfold holding. by intros ->. Qed.
Lemma holding_free c : gate c = None → holding c = None.
Proof. unfold holding. by intros ->. Qed.
Lemma caller_turn_inv c c' : caller_turn c = Some c' → call_inv c → call_inv c'.
Proof.
  intros E Hinv. unfold caller_turn in E. open_inv Hinv. destruct (caller_pc c) eqn:Ec; simplify_eq; cbn in H3.
  - split; cbn; try done. intros d pc Hh. apply (holder_ok_mono c); cbn; rewrite ?Ec; auto.
  - destruct (done c || cancelled c) eqn:Ed; simplify_eq. apply orb_true_iff in Ed. split; cbn; try done.
    + intros d pc Hh. apply (holder_ok_mono c); cbn; rewrite ?Ec; auto.
    + unfold decided in *. cbn. tauto.
  - destruct (gate c) eqn:Eg; simplify_eq. rewrite (holding_free c Eg) in *. split; cbn; try done.
    intros d pc Hd Hi. specialize (H2 d pc Hd Hi). congruence.
  - assert (gate c = Some PCaller) as Eg by tauto. pose proof (holding_caller c Eg) as Eh.
    split; cbn; try done; try (by left).
    intros d pc Hh. by rewrite holding_caller in Hh.
  - assert (gate c = Some PCaller) as Eg by tauto. pose proof (holding_caller c Eg) as Eh.
    split; cbn; try done.
    intros d pc Hh. by rewrite holding_caller in Hh.
  - assert (gate c = Some PCaller) as Eg by tauto. rewrite (holding_caller c Eg) in *. split; cbn; try done.
    + intros d pc Hd Hi. specialize (H2 d pc Hd Hi). congruence.
    + by intros r [= <-].
  - split; cbn; try done; try (by left); try (by right).
    intros d pc Hh. apply (holder_ok_mono c); cbn; rewrite ?Ec; auto.
  - split; cbn; try done; try (by right). 
    intros d pc Hh. apply (holder_ok_mono c); cbn; rewrite ?Ec; auto.
Qed.
(** A turn of the delivery at the gate: it stays there or leaves. *)
Section at_gate.
Context (c : Call) (d : nat) (pc : DeliveryPc) (Hinv : call_inv c) (Eh : holding c = Some (d, pc)).
Lemma holding_gate : gate c = Some (PDelivery d) ∧ deliveries c !! d = Some pc.
Proof.
  unfold holding in Eh. destruct (gate c) as [[|d']|]; try done.
  destruct (deliveries c !! d') as [pc'|] eqn:E; [|done]. by injection Eh as <- <-.
Qed.
Lemma step_fields pc' :
  (∀ d', is_Some (<[d := pc']> (deliveries c) !! d') → (d' < next_delivery c)%nat) ∧
  (∀ d' pc'', <[d := pc']> (deliveries c) !! d' = Some pc'' → inside pc'' = true → d' = d ∧ inside pc' = true) ∧
  caller_inside (caller_pc c) = false.
Proof.
  destruct holding_gate as [Eg Ed]. destruct Hinv as [H1 H2 H3 _ _ _ _ _ _ _ _ _]. split_and!.
  - intros d'. rewrite lookup_insert_is_Some'. intros [<-|?]; [by apply H1; eauto|by apply H1].
  - intros d' pc''. rewrite lookup_insert_Some. intros [[-> ->]|[Hne Hd]] Hi; [done|]. specialize (H2 _ _ Hd Hi). congruence.
  - destruct (caller_inside (caller_pc c)); [|done]. assert (gate c = Some PCaller) by tauto. congruence.
Qed.
Lemma stays_inv c' pc' :
  gate c' = gate c → deliveries c' = <[d := pc']> (deliveries c) → next_delivery c' = next_delivery c → caller_pc c' = caller_pc c →
  holder_ok c' d pc' → (done c = true → done c' = true) → (decided c → decided c') →
  (∀ d', (d', true) ∈ answers c' → last (outs c') = Some d' ∧ (completed c' = true ∨ (d' = d ∧ pc' = DTrue))) →
  (completed c' = true → (∃ d', (d', true) ∈ answers c') ∧ (done c' = true ∨ pc' = DClosing1)) →
  (done c' = true → decided c' ∨ match caller_pc c with Dropped1 | Gone => True | _ => False end) →
  (settled (caller_pc c) = true → completed c' = completed c) →
  call_inv c'.
Proof.
  intros Eg Ed En Ec Hok Hdone Hdec Hans Hcomp Hwhy Hset. destruct holding_gate as [Eg0 Ed0].
  destruct (step_fields pc') as (F1 & F2 & F3). open_inv Hinv.
  assert (holding c' = Some (d, pc')) as Eh' by (unfold holding; by rewrite Eg, Eg0, Ed, lookup_insert_eq).
  split; rewrite ?Ed, ?En, ?Ec, ?Eh', ?Eg; try done.
  - intros d' pc'' Hd Hi. destruct (F2 _ _ Hd Hi) as [-> _]. done.
  - intros d' Hd. assert (d' = d) as -> by congruence. rewrite lookup_insert_eq. eauto.
  - by intros d' pc'' [= <- <-].
  - auto.
  - intros d' Hd. destruct (Hans d' Hd) as [? [?|[-> ->]]]; auto.
  - intros Hcmp. by apply Hcomp.
  - intros Hcmp. destruct (Hcomp Hcmp) as [_ [?| ->]]; eauto.
  - destruct (caller_pc c); auto.
  - intros r Er. destruct (H12 r Er) as [-> Hd]. rewrite Hset; [auto|]. by rewrite Er.
Qed.
Lemma leaves_inv c' :
  gate c' = None → deliveries c' = <[d := DEnd]> (deliveries c) → next_delivery c' = next_delivery c → caller_pc c' = caller_pc c →
  completed c' = completed c → outs c' = outs c → done c' = done c → cancelled c' = cancelled c →
  (∀ d', (d', true) ∈ answers c' ↔ (d', true) ∈ answers c) → pc ≠ DTrue → pc ≠ DClosing1 →
  call_inv c'.
Proof.
  intros Eg Ed En Ec Ecmp Eouts Edone Ecan Hans Hpt Hpc. destruct holding_gate as [Eg0 Ed0].
  destruct (step_fields DEnd) as (F1 & F2 & F3). open_inv Hinv.
  assert (holding c' = None) as Eh' by (unfold holding; by rewrite Eg).
  assert (decided c' ↔ decided c) as Hdec by (unfold decided; by rewrite Ecmp, Ecan).
  split; rewrite ?Ed, ?En, ?Ec, ?Eh', ?Eg, ?Ecmp, ?Eouts, ?Edone; try done.
  - intros d' pc'' Hd Hi. by destruct (F2 _ _ Hd Hi).
  - by rewrite F3.
  - intros d' Hd%Hans. destruct (H7 d' Hd) as [? [?|E]]; [auto|]. rewrite Eh in E. by injection E as _ ->.
  - intros Hcmp. destruct (H8 Hcmp) as [d' Hd]. exists d'. by apply Hans.
  - intros Hcmp. destruct (H9 Hcmp) as [?|[d' E]]; [auto|]. rewrite Eh in E. injection E as _ ->. by destruct Hpc.
  - by rewrite Hdec.
  - destruct (caller_pc c); by rewrite ?Hdec.
  - intros r Er. rewrite Hdec. by apply H12.
Qed.
End at_gate.
Lemma delivery_inside_inv c d reply c' pc :
  holding c = Some (d, pc) → delivery_turn c d reply = Some c' → call_inv c → call_inv c'.
Proof.
  intros Eh E Hinv. destruct (holding_gate c d pc Eh) as [Eg Ed]. unfold delivery_turn in E. rewrite Ed in E. cbn in E.
  pose proof (iv_holder c Hinv _ _ Eh) as Hok. open_inv Hinv.
  assert (Hun : unanswered c → ∀ d', (d', true) ∈ answers c → False) by (intros [_ Hu] d' Hd; by eapply Hu).
  destruct pc; try done; cbn in Hok; injection E as <-.
  - destruct (done c) eqn:Edone; [by apply (leaves_inv c d DLocked)|].
    assert (unanswered c) as Hu.
    { assert (completed c = false) as Hc.
      { destruct (completed c) eqn:Hc; [|done]. destruct (H9 eq_refl) as [?|[d' E]]; [congruence|]. rewrite Eh in E. done. }
      split; [done|]. intros d' Hd. destruct (H7 d' Hd) as [_ [?|E]]; [congruence|]. rewrite Eh in E. done. }
    assert (settled (caller_pc c) = false) as Hs by (destruct (settled (caller_pc c)); [discriminate (H6 eq_refl)|done]).
    apply (stays_inv c d DLocked Hinv Eh _ DChecked); cbn; try done; try (intros; by split).
    + intros d' Hd. by destruct (Hun Hu d').
    + destruct Hu as [Hu _]. congruence.
    + congruence.
  - destruct (callback c); [|by apply (leaves_inv c d DChecked)]. destruct Hok as [Hs Hu].
    apply (stays_inv c d DChecked Hinv Eh _ DHave); cbn; try done; try (intros; by split).
    + intros d' Hd. by destruct (Hun Hu d').
    + destruct Hu as [Hu _]. congruence.
  - destruct (cancelled c) eqn:Ecan; destruct Hok as [Hs Hu].
    + apply (stays_inv c d DHave Hinv Eh _ DClosing1); cbn; try done; try (intros; by split).
      * split; [done|]. by right.
      * intros d' Hd. by destruct (Hun Hu d').
      * intros Hc. split; [by apply H8|by right].
    + apply (stays_inv c d DHave Hinv Eh _ DOut); cbn; try done; try (intros; by split).
      * split; [done|]. by rewrite last_snoc.
      * intros d' Hd. by destruct (Hun Hu d').
      * destruct Hu as [Hu _]. congruence.
  - destruct Hok as (Hs & Hu & Hl). destruct reply.
    + apply (stays_inv c d DOut Hinv Eh _ DTrue); cbn; try done; try (intros; by split).
      * split_and!; [done..|]. apply elem_of_app. right. by left.
      * intros d' [Hd|[= ->]%list_elem_of_singleton]%elem_of_app; [by destruct (Hun Hu d')|auto].
      * destruct Hu as [Hu _]. congruence.
    + apply (leaves_inv c d DOut Hinv Eh); try done. cbn. intros d'. rewrite elem_of_app, list_elem_of_singleton. naive_solver.
  - destruct Hok as (Hs & Hl & Ha).
    apply (stays_inv c d DTrue Hinv Eh _ DClosing1); cbn; try done; try (intros; by split).
    + split; [done|]. by left.
    + intros _. by left.
    + intros d' Hd. split; [by apply H7|by left].
    + intros _. split; [by eauto|by right].
    + intros _. left. by left.
    + congruence.
  - destruct Hok as (Hs & Ha).
    apply (stays_inv c d DClosing1 Hinv Eh _ DClosing2); cbn; try done; try (intros; by split).
    + intros d' Hd. destruct (H7 d' Hd) as [? [?|E]]; [auto|]. rewrite Eh in E. done.
    + intros Hc. split; [by apply H8|by left].
    + intros _. by left.
  - by apply (leaves_inv c d DClosing2).
Qed.
(** A delivery enters the gate, or is dropped before. *)
Lemma outside_inv c d pc pc' c' :
  deliveries c !! d = Some pc → inside pc = false → deliveries c' = <[d := pc']> (deliveries c) → next_delivery c' = next_delivery c →
  caller_pc c' = caller_pc c → completed c' = completed c → outs c' = outs c → answers c' = answers c → done c' = done c →
  cancelled c' = cancelled c →
  (gate c' = gate c ∧ pc' = DEnd) ∨ (gate c = None ∧ gate c' = Some (PDelivery d) ∧ pc' = DLocked) →
  call_inv c → call_inv c'.
Proof.
  intros Ed Hpc Ed' En Ec Ecmp Eo Ea Edn Ecan Hgate Hinv. open_inv Hinv.
  assert (decided c' ↔ decided c) as Hdec by (unfold decided; by rewrite Ecmp, Ecan).
  assert (holding c = None ∨ ∃ d0 pc0, holding c = Some (d0, pc0) ∧ d0 ≠ d ∧ gate c = Some (PDelivery d0)) as Hh.
  { unfold holding. destruct (gate c) as [[|d0]|] eqn:Eg; [by left| |by left]. destruct (deliveries c !! d0) as [pc0|] eqn:E0; [|by left].
    right. exists d0, pc0. split_and!; [done| |done]. intros ->. rewrite Ed in E0. injection E0 as <-.
    assert (holder_ok c d pc) as Hok by (apply H5; unfold holding; by rewrite Eg, Ed). by destruct pc. }
  assert (∀ d0 pc0, holding c' = Some (d0, pc0) → holding c = Some (d0, pc0) ∨ pc0 = DLocked) as Hh'.
  { intros d0 pc0. unfold holding. rewrite Ed'. destruct Hgate as [[-> ->]|(_ & -> & ->)].
    - destruct (gate c) as [[|d1]|] eqn:Eg; [done| |done]. destruct (decide (d1 = d)) as [->|Hne]; [|rewrite lookup_insert_ne by done; by left].
      exfalso. destruct Hh as [Hh|(d2 & pc2 & _ & ? & ?)]; [|congruence]. unfold holding in Hh. by rewrite Eg, Ed in Hh.
    - rewrite lookup_insert_eq. intros [= <- <-]. by right. }
  assert (∀ d0 pc0, holding c = Some (d0, pc0) → holding c' = Some (d0, pc0)) as Hkeep.
  { intros d0 pc0 Hd0. destruct Hh as [?|(d1 & pc1 & E1 & Hne & Eg1)]; [congruence|]. rewrite Hd0 in E1. injection E1 as -> ->.
    destruct Hgate as [[Eg' ->]|(? & _)]; [|congruence]. unfold holding in Hd0 |- *. rewrite Eg', Eg1, Ed' in *. by rewrite lookup_insert_ne. }
  split; rewrite ?Ed', ?En, ?Ec, ?Ecmp, ?Eo, ?Ea, ?Edn; try done.
  - intros d'. rewrite lookup_insert_is_Some'. intros [<-|?]; [by apply H1; eauto|by apply H1].
  - intros d' pc''. rewrite lookup_insert_Some. destruct Hgate as [[-> ->]|(Eg & -> & ->)].
    + intros [[_ <-]|[_ Hd]]; [done|by apply H2].
    + intros [[-> _]|[_ Hd]] Hi; [done|]. specialize (H2 _ _ Hd Hi). congruence.
  - destruct Hgate as [[-> _]|(Eg & -> & _)]; [done|]. rewrite H3, Eg. done.
  - intros d'. destruct Hgate as [[-> _]|(_ & -> & _)]; [|intros [= ->]]; rewrite lookup_insert_is_Some'; [|by left].
    intros Hg. right. by apply H4.
  - intros d0 pc0 [Hd0| ->]%Hh'; [|done]. eapply holder_ok_mono; [by rewrite Ec|done..|by rewrite Ecan|by apply H5].
  - intros d' Hd. destruct (H7 d' Hd) as [? [?|?]]; auto.
  - intros Hc. destruct (H9 Hc) as [?|[d0 ?]]; [by left|right; eauto].
  - by rewrite Hdec.
  - destruct (caller_pc c); by rewrite ?Hdec.
  - intros r Er. rewrite Hdec. by apply H12.
Qed.
Lemma turn_inv c c' : turn c c' → call_inv c → call_inv c'.
Proof.
  intros [c0 c1 E|c0 d reply c1 E] Hinv; [by eapply caller_turn_inv|].
  pose proof E as E'. unfold delivery_turn in E'. destruct (deliveries c0 !! d) as [pc|] eqn:Ed; [|done]. cbn in E'.
  destruct (inside pc) eqn:Ei.
  - eapply (delivery_inside_inv c0 d reply c1 pc); [|done..]. pose proof (iv_inside c0 Hinv d pc Ed Ei) as Eg. unfold holding. by rewrite Eg, Ed.
  - destruct pc; try done. destruct (gate c0) eqn:Eg; [done|]. injection E' as <-.
    eapply (outside_inv c0 d DWait DLocked); try done. right. by split_and!.
Qed.
Lemma call_step_inv c c' : call_step c c' → call_inv c → call_inv c'.
Proof.
  intros Hs Hinv. destruct Hs as [c0 c1 Ht|c0|c0|c0 c1 E|c0 d c1 E]; [by eapply turn_inv|open_inv Hinv..|].
  - assert (deliveries c0 !! next_delivery c0 = None) as Hnew.
    { destruct (deliveries c0 !! next_delivery c0) as [pc|] eqn:E; [|done]. specialize (H1 _ (mk_is_Some _ _ E)). lia. }
    assert (holding (arrive c0) = holding c0) as Eh.
    { unfold holding. cbn. destruct (gate c0) as [[|d]|] eqn:Eg; try done. rewrite lookup_insert_ne; [done|].
      intros <-. destruct (H4 _ eq_refl). congruence. }
    split; rewrite ?Eh; cbn; try done.
    + intros d. rewrite lookup_insert_is_Some'. intros [<-|Hd]; [lia|]. specialize (H1 _ Hd). lia.
    + intros d pc. rewrite lookup_insert_Some. intros [[_ <-]|[_ Hd]]; [done|by apply H2].
    + intros d Hd. rewrite lookup_insert_is_Some'. right. by apply H4.
  - split; cbn; try done.
    + intros d pc Hh. apply (holder_ok_mono c0); try done. by apply H5.
    + intros _. left. by right.
    + destruct (caller_pc c0); done || by right.
    + intros r Er. destruct (H12 r Er) as [? _]. split; [done|by right].
  - unfold caller_dropped in E. destruct (caller_pc c0) eqn:Ec; simplify_eq; cbn in H3.
    all: split; cbn; try done; try (intros d pc Hh; apply (holder_ok_mono c0); cbn; rewrite ?Ec; auto; done).
    all: intros Hd; destruct (H10 Hd) as [?|?]; [by left|done].
  - unfold delivery_dropped in E. destruct (deliveries c0 !! d) as [pc|] eqn:Ed; [|done]. cbn in E. destruct pc; simplify_eq.
    + eapply (outside_inv c0 d DWait DEnd); try done. by left.
    + assert (holding c0 = Some (d, DOut)) as Eh.
      { pose proof (iv_inside c0 Hinv d DOut Ed eq_refl) as Eg. unfold holding. by rewrite Eg, Ed. }
      by apply (leaves_inv c0 d DOut).
Qed.
Lemma call_reachable_inv c : rtc call_step call_new c → call_inv c.
Proof.
  intros Hr. pose proof call_inv_new as H0. revert H0.
  induction Hr as [|c1 c2 c3 Hs Hr IH]; [done|]. intros H0. apply IH. by eapply call_step_inv.
Qed.

(** ** After the decision the collector is not called again *)
Definition over c : Prop := settled (caller_pc c) = true ∨ ∃ d, (d, true) ∈ answers c.
Lemma over_step c c' : call_step c c' → call_inv c → over c → over c' ∧ outs c' = outs c.
Proof.
  intros Hs Hinv Ho. destruct Hs as [c0 c1 [c2 c3 E|c2 d reply c3 E]|c0|c0|c0 c1 E|c0 d c1 E]; try done.
  - unfold caller_turn in E. unfold over in *. destruct (caller_pc c2); simplify_eq; cbn in *; try done; try tauto.
    + destruct (done c2 || cancelled c2); by simplify_eq.
    + destruct (gate c2); by simplify_eq.
  - unfold delivery_turn in E. destruct (deliveries c2 !! d) as [pc|] eqn:Ed; [|done]. cbn in E.
    assert (pc ≠ DHave) as Hnot.
    { intros ->. pose proof (iv_inside c2 Hinv d DHave Ed eq_refl) as Eg.
      assert (holding c2 = Some (d, DHave)) as Eh by (unfold holding; by rewrite Eg, Ed).
      destruct (iv_holder c2 Hinv _ _ Eh) as [Hs [_ Hu]]. destruct Ho as [Ho|[d' Hd]]; [congruence|by eapply Hu]. }
    assert (over c3 ↔ settled (caller_pc c2) = true ∨ ∃ d, (d, true) ∈ answers c3) as Hover.
    { unfold over. assert (caller_pc c3 = caller_pc c2) as ->; [|done].
      destruct pc; simplify_eq; try done; repeat case_match; by simplify_eq. }
    rewrite Hover. destruct pc; simplify_eq; try done; repeat case_match; simplify_eq; try done.
    all: split; [|done]; destruct Ho as [Ho|[d' Hd]]; [by left|right; exists d'; cbn; apply elem_of_app; by left].
  - unfold caller_dropped in E. unfold over in *. destruct (caller_pc c0); simplify_eq; cbn in *; tauto.
  - unfold delivery_dropped in E. destruct (deliveries c0 !! d) as [[]|]; by simplify_eq/=.
Qed.
Lemma over_steps c c' : rtc call_step c c' → call_inv c → over c → outs c' = outs c.
Proof.
  induction 1 as [|c1 c2 c3 Hs _ IH]; [done|]. intros Hinv Ho. destruct (over_step _ _ Hs Hinv Ho) as [Ho' <-].
  apply IH; [by eapply call_step_inv|done].
Qed.

(** ** Turns end *)
Definition caller_rank (pc : CallerPc) : nat :=
  match pc with
  | Emitting => 6 | Selecting => 5 | GateWait => 4 | Gated => 3 | Closing => 2 | Closed => 1 | Returned _ => 0
  | Dropping => 2 | Dropped1 => 1 | Gone => 0
  end.
Definition delivery_rank (pc : DeliveryPc) : nat :=
  match pc with
  | DWait => 8 | DLocked => 7 | DChecked => 6 | DHave => 5 | DOut => 4 | DTrue => 3 | DClosing1 => 2 | DClosing2 => 1 | DEnd => 0
  end.
Definition ranks (m : gmap nat DeliveryPc) : nat := length (gather (λ pc, replicate (delivery_rank pc) ()) m).
Definition call_rank c : nat := (caller_rank (caller_pc c) + ranks (deliveries c))%nat.
Lemma ranks_insert m d pc pc' :
  m !! d = Some pc → (delivery_rank pc' < delivery_rank pc)%nat → (ranks (<[d := pc']> m) < ranks m)%nat.
Proof.
  intros Hd Hlt. unfold ranks. rewrite gather_insert, (gather_delete _ m d pc Hd), !length_app, !length_replicate. lia.
Qed.
Lemma turn_rank c c' : turn c c' → (call_rank c' < call_rank c)%nat.
Proof.
  intros [c0 c1 E|c0 d reply c1 E]; unfold call_rank.
  - unfold caller_turn in E. destruct (caller_pc c0) eqn:Ec; repeat case_match; simplify_eq; cbn; lia.
  - unfold delivery_turn in E. destruct (deliveries c0 !! d) as [pc|] eqn:Ed; [|done]. cbn in E.
    assert (caller_pc c1 = caller_pc c0 ∧ ∃ pc', deliveries c1 = <[d := pc']> (deliveries c0) ∧ (delivery_rank pc' < delivery_rank pc)%nat)
      as (-> & pc' & -> & Hlt).
    { destruct pc; simplify_eq; repeat case_match; simplify_eq; (split; [done|]); eexists; (split; [reflexivity|]); cbn; lia. }
    pose proof (ranks_insert _ _ _ _ Ed Hlt). lia.
Qed.
Lemma turn_sn c : sn turn c.
Proof.
  enough (∀ n c, (call_rank c < n)%nat → sn turn c) as H by (apply (H (S (call_rank c))); lia).
  clear c. intros n. induction n as [|n IH]; intros c Hc; [lia|]. constructor. intros c' Ht%turn_rank. apply IH. lia.
Qed.
(** The caller is on its way: neither returned nor dropped. *)
Definition under_way (pc : CallerPc) : bool :=
  match pc with Emitting | Selecting | GateWait | Gated | Closing | Closed => true | _ => false end.
Lemma call_progress c : call_inv c → under_way (caller_pc c) = true → decided c → ∃ c', turn c c'.
Proof.
  intros Hinv Hw Hdec.
  assert (Hholder : ∀ d, gate c = Some (PDelivery d) → ∃ c', turn c c').
  { intros d Eg. destruct (iv_delivery c Hinv d Eg) as [pc Ed].
    assert (holder_ok c d pc) as Hok by (apply (iv_holder c Hinv); unfold holding; by rewrite Eg, Ed).
    destruct pc; try done; eexists; apply (tu_delivery c d false); unfold delivery_turn; rewrite Ed; reflexivity. }
  destruct (caller_pc c) eqn:Ec; try done.
  all: try (eexists; apply tu_caller; unfold caller_turn; rewrite Ec; reflexivity).
  - destruct (done c || cancelled c) eqn:Ed; [eexists; apply tu_caller; unfold caller_turn; rewrite Ec, Ed; reflexivity|].
    apply orb_false_iff in Ed as [E1 E2]. destruct Hdec as [Hd|Hd]; [|congruence].
    destruct (iv_done c Hinv Hd) as [?|[d Hh]]; [congruence|]. apply (Hholder d). by apply (holding_gate c d DClosing1).
  - destruct (gate c) as [[|d]|] eqn:Eg; [|by eapply Hholder|].
    + assert (caller_inside (caller_pc c) = true) as Hi by by apply (iv_caller c Hinv). by rewrite Ec in Hi.
    + eexists. apply tu_caller. unfold caller_turn. rewrite Ec, Eg. reflexivity.
Qed.
Lemma turn_keeps c c' : turn c c' →
  (decided c → decided c') ∧ (under_way (caller_pc c) = true → under_way (caller_pc c') = true ∨ ∃ r, caller_pc c' = Returned r).
Proof.
  unfold decided. intros [c0 c1 E|c0 d reply c1 E].
  - unfold caller_turn in E. destruct (caller_pc c0) eqn:Ec; repeat case_match; simplify_eq; cbn; (split; naive_solver).
  - unfold delivery_turn in E. destruct (deliveries c0 !! d) as [pc|] eqn:Ed; [|done]. cbn in E.
    destruct pc; simplify_eq; repeat case_match; simplify_eq; cbn; (split; naive_solver).
Qed.

(** C30: The collector of a sub-stream call.  Results are delivered one at a
    time; the first one the collector accepts is the last it sees.  [consume]
    returns [Ok] exactly when the collector accepted one, otherwise its
    context was cancelled, and once it returned the collector is never called
    again, under every interleaving of results, cancellation and dropped
    futures. *)
Theorem sub_stream_outcome c :
  rtc call_step call_new c →
  (∀ d d', deliveries c !! d = Some DOut → deliveries c !! d' = Some DOut → d = d') ∧
  (∀ d, (d, true) ∈ answers c → last (outs c) = Some d ∧ ∀ c', rtc call_step c c' → outs c' = outs c) ∧
  (∀ r, caller_pc c = Returned r →
     (r = Ok tt ∧ (∃ d, (d, true) ∈ answers c) ∨ r = Err ContextCancelled ∧ cancelled c = true ∧ ∀ d, (d, true) ∉ answers c) ∧
     (∀ d, deliveries c !! d ≠ Some DOut) ∧ ∀ c', rtc call_step c c' → outs c' = outs c).
Proof.
  intros Hr%call_reachable_inv. split_and!.
  - intros d d' Hd Hd'. pose proof (iv_inside c Hr _ _ Hd eq_refl). pose proof (iv_inside c Hr _ _ Hd' eq_refl). congruence.
  - intros d Hd. split; [by apply (iv_answered c Hr)|]. intros c' Hs. apply (over_steps c c' Hs Hr). right. eauto.
  - intros r Er. assert (settled (caller_pc c) = true) as Hset by by rewrite Er.
    assert (∀ d pc, deliveries c !! d = Some pc → inside pc = true → pc = DLocked) as Hquiet.
    { intros d pc Hd Hi. pose proof (iv_inside c Hr _ _ Hd Hi) as Eg.
      assert (holder_ok c d pc) as Hok by (apply (iv_holder c Hr); unfold holding; by rewrite Eg, Hd).
      destruct pc; try done; destruct Hok; congruence. }
    destruct (iv_result c Hr r Er) as [-> Hdec]. split_and!.
    + destruct (completed c) eqn:Ec; [left; split; [done|by apply (iv_completed c Hr)]|right].
      split; [done|]. split; [destruct Hdec; congruence|]. intros d Hd.
      destruct (iv_answered c Hr d Hd) as [_ [?|Hh]]; [congruence|]. destruct (holding_gate c d DTrue Hh) as [_ Hd'].
      by specialize (Hquiet _ _ Hd' eq_refl).
    + intros d Hd. by specialize (Hquiet _ _ Hd eq_refl).
    + intros c' Hs. apply (over_steps c c' Hs Hr). by left.
Qed.

(** A sub-stream call whose context is cancelled, or whose collector has
    accepted a result, returns: no sequence of its own turns is infinite, and
    it can only end with the caller returned. *)
Theorem sub_stream_returns c :
  rtc call_step call_new c → under_way (caller_pc c) = true → decided c →
  sn turn c ∧ ∀ c', rtc turn c c' → (∀ c'', ¬ turn c' c'') → ∃ r, caller_pc c' = Returned r.
Proof.
  intros Hr%call_reachable_inv Hw Hdec. split; [apply turn_sn|]. intros c' Hs Hend.
  assert (call_inv c' ∧ decided c' ∧ (under_way (caller_pc c') = true ∨ ∃ r, caller_pc c' = Returned r)) as (Hinv & Hd & [Hu|?]); [|..|done].
  - clear Hend. revert Hr Hdec. assert (under_way (caller_pc c) = true ∨ ∃ r, caller_pc c = Returned r) as Hw' by by left. clear Hw. revert Hw'.
    induction Hs as [c|c1 c2 c3 Ht _ IH]; [done|]. intros Hw Hr Hdec. apply IH; [|by eapply turn_inv|by eapply turn_keeps].
    destruct Hw as [Hw|[r Hw]]; [by apply (turn_keeps c1)|]. right. exists r.
    destruct Ht as [c0 c1 E|c0 d reply c1 E].
    + unfold caller_turn in E. by rewrite Hw in E.
    + unfold delivery_turn in E. destruct (deliveries c0 !! d) as [pc|]; [|done]. cbn in E.
      destruct pc; simplify_eq; repeat case_match; by simplify_eq.
  - destruct (call_progress c' Hinv Hu Hd) as [c'' Ht]. by destruct (Hend c'').
Qed.

(** * Instances *)
Inductive Label := LArrive | LCancel | LCaller | LDelivery (d : nat) (reply : bool).
Definition run_label c (l : Label) : option Call :=
  match l with
  | LArrive => Some (arrive c) | LCancel => Some (set_cancelled c)
  | LCaller => caller_turn c | LDelivery d reply => delivery_turn c d reply
  end.
Fixpoint run_labels c (ls : list Label) : option Call :=
  match ls with [] => Some c | l :: ls => c ← run_label c l; run_labels c ls end.
Lemma run_labels_steps c ls c' : run_labels c ls = Some c' → rtc call_step c c'.
Proof.
  revert c. induction ls as [|l ls IH]; intros c; cbn; [intros [= ->]; apply rtc_refl|].
  destruct (run_label c l) as [c1|] eqn:E; [|done]. cbn. intros H. eapply rtc_l; [|by apply IH].
  destruct l; cbn in E; simplify_eq; [apply cl_arrive|apply cl_cancel|by apply cl_turn, tu_caller|by eapply cl_turn, tu_delivery].
Qed.
(** One result arrives, is accepted, and the caller returns. *)
Definition accepting : list Label := LArrive :: replicate 8 (LDelivery 0 true).
Definition example_accepted : Call := default call_new (run_labels call_new accepting).
Definition example_returned : Call := default call_new (run_labels call_new (accepting ++ replicate 6 LCaller)).
Lemma sub_stream_outcome_witness :
  caller_pc example_returned = Returned (Ok tt) ∧ last (outs example_returned) = Some 0%nat.
Proof.
  split; [reflexivity|].
  apply (sub_stream_outcome example_returned); [|vm_compute; left].
  apply (run_labels_steps call_new (accepting ++ replicate 6 LCaller)). vm_compute. reflexivity.
Defined.
Lemma sub_stream_returns_witness : sn turn example_accepted ∧ caller_pc example_accepted = Emitting.
Proof.
  split; [|reflexivity].
  apply (sub_stream_returns example_accepted); [|reflexivity|left; reflexivity].
  apply (run_labels_steps call_new accepting). vm_compute. reflexivity.
Defined.
