(* ===== verification/Requests.v ===== *)
(** Requests of data sources: [src/src/runtime/datasource.rs] (pending request
    times, endpoint metrics, the result router).

    The tables are sharded by a hash with a fixed number of shards; the hash
    function is a parameter.  A router event is one atomic section: a lock
    held, or one send on a channel. *)

From stdpp Require Import pretty.
From Stdlib Require Import Floats.SpecFloat.
From S2P Require Import Prelude Errors SortedMap Config Context Environment Metrics.
Local Open Scope Z_scope.

Definition PENDING_REQUEST_SHARDS : nat := 64.

(** * Sharded tables *)
Section sharded.
Context {V : Type} (hash_one : string → Z).
Implicit Types s : list (gmap string V).
Definition shards_new : list (gmap string V) := replicate PENDING_REQUEST_SHARDS ∅.
(** [hash as usize % self.shards.len()] *)
Definition shard_of s (key : string) : nat := Z.to_nat (wrap_u 64 (hash_one key) mod Z.of_nat (length s)).
Definition shards_get s (key : string) : option V := s !! shard_of s key ≫= (.!! key).
Definition shards_insert s (key : string) (v : V) : option V * list (gmap string V) :=
  (shards_get s key, alter <[key := v]> (shard_of s key) s).
Definition shards_remove s (key : string) : list (gmap string V) := alter (delete key) (shard_of s key) s.
End sharded.

(** * Pending request times *)
Section timestamps.
Context (hash_one : string → Z).
Implicit Types s : list (gmap string Z).
Definition timestamps_insert s (stream_id : string) (now : Z) : list (gmap string Z) :=
  (shards_insert hash_one s stream_id now).2.
Definition timestamps_remove s (stream_id : string) : list (gmap string Z) := shards_remove hash_one s stream_id.
(** [Iterator::min] *)
Definition min_of (l : list Z) : option Z :=
  match l with [] => None | x :: l => Some (foldl Z.min x l) end.
(** [Duration::as_secs_f64] of a number of nanoseconds. *)
Definition as_secs_f64 (d : Z) : f64 :=
  f64_add (f64_of_Z (d / 1000000000)) (SFdiv 53 1024 (f64_of_Z (d mod 1000000000)) (f64_of_Z 1000000000)).
(** [Instant::elapsed] saturates at zero. *)
Definition elapsed (now started : Z) : Z := Z.max 0 (now - started).
Definition oldest s : option Z := min_of (omap (λ shard, min_of (map_to_list shard).*2) s).
Definition oldest_age s (now : Z) : f64 :=
  match oldest s with None => f64_zero | Some started => as_secs_f64 (elapsed now started) end.
End timestamps.

(** * Endpoint labels and tracing *)
Section endpoint.
Context {Json : Type}.
Definition custom_endpoint_metric_labels (r : RuntimeConfig Json) (endpoint : CustomEndpointConfig) : RuntimeResult Labels :=
  connector ← ok_or (data_connector_by_id r (ue_connector endpoint))
    (InvalidConfiguration ("custom endpoint " +:+ debug (ue_name endpoint) +:+ " references missing data connector " +:+
       pretty (ue_connector endpoint)));
  match connector with
  | CustomConnector _ =>
      Ok (sm_extend [] [("connector", connector_name connector); ("endpoint", ue_name endpoint)])
  | _ => Err (InvalidConfiguration ("custom endpoint " +:+ debug (ue_name endpoint) +:+ " references non-custom data connector " +:+
             debug (connector_name connector)))
  end.
Definition apply_endpoint_tracing {Token Otel Any} (context : MessageContext Token Otel Any)
    (tracing_enabled : bool) (r : RuntimeConfig Json) (id : Z) : MessageContext Token Otel Any :=
  if negb tracing_enabled then context
  else match endpoint_by_id r id with
       | Some config => if endpoint_tracing_enabled config then enable_sampling context else context
       | None => context
       end.
End endpoint.

(** * Endpoint metrics *)
Section endpoint_metrics.
Context (hash_one : string → Z).
(** The times of one endpoint are named by a table; the observable gauge of
    an endpoint reads its table and the clock. *)
Record World := MkWorld { tables : gmap nat (list (gmap string Z)); clock : Z }.
Notation M := (Metrics World).
Record PendingRequests := MkPending { gauge_handle : Handle; started : option nat }.
(** [PendingRequests::new], with a fresh table. *)
Definition pending_new (m : M) (sc : MetricsScope) (table : nat) : outcome MetricsError PendingRequests * M :=
  match gauge m sc "pending_requests" "Number of requests awaiting a pipeline result" [] with
  | (Ok g, m) =>
      if enabled g then
        match observable_float64_gauge m sc "pending_oldest_age_seconds"
                "Age in seconds of the oldest pending request awaiting a pipeline result" []
                (λ w, oldest_age (default shards_new (tables w !! table)) (clock w)) with
        | (Ok _, m) => (Ok (MkPending g (Some table)), m)
        | (Err e, m) => (Err e, m)
        | (Panic, m) => (Panic, m)
        end
      else (Ok (MkPending g None), m)
  | (Err e, m) => (Err e, m)
  | (Panic, m) => (Panic, m)
  end.
Definition on_table (w : World) (table : nat) (f : list (gmap string Z) → list (gmap string Z)) : World :=
  MkWorld (<[table := f (default shards_new (tables w !! table))]> (tables w)) (clock w).
Definition pending_add (p : PendingRequests) (m : M) (w : World) (stream_id : string) : M * World :=
  match started p with
  | None => (m, w)
  | Some t => (gauge_inc m (gauge_handle p), on_table w t (λ s, timestamps_insert hash_one s stream_id (clock w)))
  end.
Definition pending_remove (p : PendingRequests) (m : M) (w : World) (stream_id : string) : M * World :=
  match started p with
  | None => (m, w)
  | Some t => (gauge_dec m (gauge_handle p), on_table w t (λ s, timestamps_remove hash_one s stream_id))
  end.

Record DataSourceEndpointMetrics := MkEndpointMetrics {
  em_enabled : bool;
  messages_total : Handle;
  request_errors : Handle;
  active_requests : Handle;
  pending_requests : PendingRequests;
  request_duration : Handle }.
(** A state monad over the registry for the [?] chain of [new]. *)
Definition reg_bind {A B} (r : outcome MetricsError A * M) (f : A → M → outcome MetricsError B * M) : outcome MetricsError B * M :=
  match r with (Ok a, m) => f a m | (Err e, m) => (Err e, m) | (Panic, m) => (Panic, m) end.
Definition endpoint_metrics_new (m : M) (connector endpoint : string) (table : nat) :
    outcome MetricsError DataSourceEndpointMetrics * M :=
  let sc := scope "datasource_endpoint" (sm_extend [] [("connector", connector); ("endpoint", endpoint)]) in
  let enabled := negb (is_noop m) in
  reg_bind (counter m sc "messages_total" "Total number of successfully processed messages in data source endpoint" [])
    (λ messages m,
  reg_bind (counter m sc "events_total" "Total number of events in data source endpoint" [("event", "request_error")])
    (λ errors m,
  reg_bind (gauge m sc "active_requests" "Number of active requests in data source endpoint" [])
    (λ active m,
  reg_bind (pending_new m sc table)
    (λ pending m,
  reg_bind (histogram m sc "request_duration_seconds" "Request duration in seconds for data source endpoint" [] None)
    (λ duration m, (Ok (MkEndpointMetrics enabled messages errors active pending duration), m)))))).
(** [request_start]: the time the request started, if metrics are enabled. *)
Definition request_start (e : DataSourceEndpointMetrics) (m : M) (now : Z) : option Z * M :=
  if em_enabled e then (Some now, gauge_inc m (active_requests e)) else (None, m).
Definition request_end (e : DataSourceEndpointMetrics) (m : M) (now : Z) (started_at : option Z) (success : bool) : M :=
  match started_at with
  | None => m
  | Some started_at =>
      let m := gauge_dec m (active_requests e) in
      let m := observe m (request_duration e) (as_secs_f64 (elapsed now started_at)) in
      if success then counter_inc m (messages_total e) else counter_inc m (request_errors e)
  end.
Definition endpoint_pending_add (e : DataSourceEndpointMetrics) (m : M) (w : World) (stream_id : string) : M * World :=
  if em_enabled e then pending_add (pending_requests e) m w stream_id else (m, w).
Definition endpoint_pending_remove (e : DataSourceEndpointMetrics) (m : M) (w : World) (stream_id : string) : M * World :=
  if em_enabled e then pending_remove (pending_requests e) m w stream_id else (m, w).
End endpoint_metrics.

(** * The result router *)
Section router.
Context {P : Type} (hash_one : string → Z) (message_id : P → string).
(** A channel of a request: what was received, and whether its receiver is
    still there. *)
Record Channel := MkChannel { received : list P; receiving : bool }.
Record ResultRouter := MkRouter {
  pending : list (gmap string nat);
  channels : gmap nat Channel;
  next_channel : nat;
  sending : list (nat * P) }.                  (** senders cloned but not yet used *)
Implicit Types r : ResultRouter.
Definition router_new : ResultRouter := MkRouter shards_new ∅ 0 [].
(** [insert] replaces before the assertion; a panic drops the receiver. *)
Definition begin r (id : string) : outcome Empty_set nat * ResultRouter :=
  let c := next_channel r in
  let '(replaced, pending') := shards_insert hash_one (pending r) id c in
  match replaced with
  | None => (Ok c, MkRouter pending' (<[c := MkChannel [] true]> (channels r)) (S c) (sending r))
  | Some _ => (Panic, MkRouter pending' (<[c := MkChannel [] false]> (channels r)) (S c) (sending r))
  end.
Definition finish r (id : string) : ResultRouter :=
  MkRouter (shards_remove hash_one (pending r) id) (channels r) (next_channel r) (sending r).
(** [consume] clones the sender under the lock, then sends. *)
Definition consume_lookup r (payload : P) : ResultRouter :=
  match shards_get hash_one (pending r) (message_id payload) with
  | Some c => MkRouter (pending r) (channels r) (next_channel r) (sending r ++ [(c, payload)])
  | None => r
  end.
Definition deliver (ch : Channel) (payload : P) : Channel :=
  if receiving ch then MkChannel (received ch ++ [payload]) true else ch.
Definition consume_send r (i : nat) : ResultRouter :=
  match sending r !! i with
  | Some (c, payload) =>
      MkRouter (pending r) (alter (λ ch, deliver ch payload) c (channels r)) (next_channel r) (delete i (sending r))
  | None => r
  end.
Definition receiver_dropped r (c : nat) : ResultRouter :=
  MkRouter (pending r) (alter (λ ch, MkChannel (received ch) false) c (channels r)) (next_channel r) (sending r).

Inductive RouterEvent := EBegin (id : string) | EDone (id : string) | EConsume (payload : P) | ESend (i : nat) | EDrop (c : nat).
Definition router_event r (e : RouterEvent) : ResultRouter :=
  match e with
  | EBegin id => (begin r id).2
  | EDone id => finish r id
  | EConsume payload => consume_lookup r payload
  | ESend i => consume_send r i
  | EDrop c => receiver_dropped r c
  end.
Definition router_run r (es : list RouterEvent) : ResultRouter := foldl router_event r es.
End router.

(** * Lemmas *)

(** ** Sharded tables *)
Section sharded_laws.
Context {V : Type} (hash_one : string → Z).
Implicit Types s : list (gmap string V).
Notation get := (shards_get hash_one).
(** A table and the map it stands for: all shards are there and a key is only
    in its own. *)
Record table_rep s (m : gmap string V) : Prop := {
  sr_length : length s = PENDING_REQUEST_SHARDS;
  sr_shard i t : s !! i = Some t → ∀ key v, t !! key = Some v ↔ shard_of hash_one s key = i ∧ m !! key = Some v }.

Lemma shard_of_length s s' key : length s = length s' → shard_of hash_one s key = shard_of hash_one s' key.
Proof. unfold shard_of. by intros ->. Qed.
Lemma shard_of_bound s key : length s = PENDING_REQUEST_SHARDS → (shard_of hash_one s key < length s)%nat.
Proof.
  intros Hl. unfold shard_of. rewrite Hl. pose proof (Z.mod_pos_bound (wrap_u 64 (hash_one key)) (Z.of_nat PENDING_REQUEST_SHARDS) ltac:(done)).
  lia.
Qed.
Lemma table_rep_new : table_rep shards_new ∅.
Proof.
  split; [apply length_replicate|]. intros i t [-> Hi]%lookup_replicate key v. rewrite !lookup_empty. naive_solver.
Qed.
Lemma table_rep_get s m key : table_rep s m → get s key = m !! key.
Proof.
  intros [Hl Hs]. unfold shards_get. destruct (lookup_lt_is_Some_2 s _ (shard_of_bound s key Hl)) as [t Ht].
  rewrite Ht. cbn. apply option_eq. intros v. rewrite (Hs _ _ Ht). tauto.
Qed.
(** Changing one shard at one key changes the map at that key. *)
Lemma table_rep_alter s m key (f : gmap string V → gmap string V) (o : option V) :
  table_rep s m → (∀ t, f t !! key = o) → (∀ t key', key' ≠ key → f t !! key' = t !! key') →
  table_rep (alter f (shard_of hash_one s key) s) (partial_alter (λ _, o) key m).
Proof.
  intros [Hl Hs] Hk Hne. split; [by rewrite length_alter|].
  intros i t Ht key' v. rewrite (shard_of_length _ s) by apply length_alter.
  destruct (decide (i = shard_of hash_one s key)) as [->|Hi].
  - rewrite list_lookup_alter_eq in Ht. apply fmap_Some in Ht as (t' & Ht' & ->).
    destruct (decide (key' = key)) as [->|Hkey]; [by rewrite Hk, lookup_partial_alter_eq; tauto|].
    by rewrite Hne, lookup_partial_alter_ne, (Hs _ _ Ht').
  - rewrite list_lookup_alter_ne in Ht by done. rewrite (Hs _ _ Ht).
    destruct (decide (key' = key)) as [->|Hkey]; [|by rewrite lookup_partial_alter_ne].
    split; intros [E ?]; by destruct Hi.
Qed.
Lemma table_rep_insert s m key v : table_rep s m → table_rep (shards_insert hash_one s key v).2 (<[key := v]> m).
Proof.
  intros Hr. apply (table_rep_alter s m key _ (Some v)); [done|..].
  - intros t. apply lookup_insert_eq.
  - intros t key' Hne. by apply lookup_insert_ne.
Qed.
Lemma table_rep_remove s m key : table_rep s m → table_rep (shards_remove hash_one s key) (delete key m).
Proof.
  intros Hr. apply (table_rep_alter s m key _ None); [done|..].
  - intros t. apply lookup_delete_eq.
  - intros t key' Hne. by apply lookup_delete_ne.
Qed.
End sharded_laws.

(** ** The oldest pending request *)
Lemma min_of_None l : min_of l = None ↔ l = [].
Proof. by destruct l. Qed.
Lemma min_of_Some l x : min_of l = Some x ↔ x ∈ l ∧ Forall (λ y, x ≤ y) l.
Proof.
  assert (∀ l a, let m := foldl Z.min a l in (m = a ∨ m ∈ l) ∧ m ≤ a ∧ Forall (λ y, m ≤ y) l) as Hfold.
  { clear. induction l as [|b l IH]; intros a; cbn; [split_and!; [by left|lia|constructor]|].
    destruct (IH (Z.min a b)) as (H1 & H2 & H3). split_and!; [|lia|by constructor; [lia|]].
    destruct H1 as [H1|H1]; [|by right; right]. destruct (Z.min_spec a b) as [[_ E]|[_ E]]; rewrite E in H1 at 2.
    - by left. - right. rewrite H1. by left. }
  destruct l as [|a l]; cbn; [by split; [|intros [?%elem_of_nil _]]|].
  destruct (Hfold l a) as (H1 & H2 & H3). set (m := foldl Z.min a l) in *. split.
  - intros [= <-]. split; [set_solver|by constructor].
  - intros [Hin [Ha Hl]%Forall_cons]. f_equal. apply Z.le_antisymm.
    + apply elem_of_cons in Hin as [->|Hin]; [done|]. by rewrite Forall_forall in H3; apply H3.
    + destruct H1 as [->|H1]; [done|]. by rewrite Forall_forall in Hl; apply Hl.
Qed.
Section oldest.
Context (hash_one : string → Z).
Inductive TimeEvent := TInsert (stream_id : string) (now : Z) | TRemove (stream_id : string).
Definition time_event (s : list (gmap string Z)) (e : TimeEvent) : list (gmap string Z) :=
  match e with TInsert id now => timestamps_insert hash_one s id now | TRemove id => timestamps_remove hash_one s id end.
(** The requests pending after the events, with their times. *)
Definition pending_event (m : gmap string Z) (e : TimeEvent) : gmap string Z :=
  match e with TInsert id now => <[id := now]> m | TRemove id => delete id m end.
Lemma time_run_rep es s m :
  table_rep hash_one s m → table_rep hash_one (foldl time_event s es) (foldl pending_event m es).
Proof.
  revert s m. induction es as [|[id now|id] es IH]; intros s m Hr; cbn; [done|..]; apply IH;
    [by apply table_rep_insert|by apply table_rep_remove].
Qed.
Lemma oldest_rep s m : table_rep hash_one s m → oldest s = min_of (map_to_list m).*2.
Proof.
  intros [Hl Hs]. unfold oldest. destruct (min_of (map_to_list m).*2) as [t|] eqn:E.
  - apply min_of_Some in E as [Hin Hle]. apply min_of_Some.
    apply list_elem_of_fmap in Hin as ([key v] & -> & Hin%elem_of_map_to_list). cbn in *.
    rewrite Forall_forall in Hle.
    assert (Hall : ∀ i shard x, s !! i = Some shard → min_of (map_to_list shard).*2 = Some x →
              (∃ key', m !! key' = Some x ∧ shard !! key' = Some x) ∧ v ≤ x).
    { intros i shard x Hi [Hx _]%min_of_Some. apply list_elem_of_fmap in Hx as ([key' x'] & -> & Hx%elem_of_map_to_list).
      cbn. pose proof Hx as Hx'. apply (Hs _ _ Hi) in Hx as [_ Hm]. split; [eauto|]. apply Hle, list_elem_of_fmap.
      exists (key', x'). split; [done|]. by apply elem_of_map_to_list. }
    split.
    + destruct (lookup_lt_is_Some_2 s _ (shard_of_bound hash_one s key Hl)) as [shard Hi].
      apply list_elem_of_omap. exists shard. split; [by apply list_elem_of_lookup; eauto|].
      assert (shard !! key = Some v) as Hv by (by apply (Hs _ _ Hi)).
      destruct (min_of (map_to_list shard).*2) as [x|] eqn:Ex.
      * destruct (Hall _ _ _ Hi Ex) as [_ Hvx]. f_equal. apply Z.le_antisymm; [|done].
        apply min_of_Some in Ex as [_ Hmin]. rewrite Forall_forall in Hmin. apply Hmin, list_elem_of_fmap.
        exists (key, v). split; [done|]. by apply elem_of_map_to_list.
      * apply min_of_None, fmap_nil_inv, map_to_list_empty_iff in Ex. by rewrite Ex in Hv.
    + apply Forall_forall. intros x (shard & (i & Hi)%list_elem_of_lookup & Hx)%list_elem_of_omap. by eapply Hall.
  - apply min_of_None in E. apply fmap_nil_inv, map_to_list_empty_iff in E as ->. apply min_of_None.
    destruct (omap _ s) as [|x l] eqn:E; [done|].
    assert (x ∈ omap (λ shard, min_of (map_to_list shard).*2) s) as Hin by (rewrite E; by left).
    apply list_elem_of_omap in Hin as (shard & (i & Hi)%list_elem_of_lookup & [Hx _]%min_of_Some).
    apply list_elem_of_fmap in Hx as ([key v] & -> & Hx%elem_of_map_to_list). by apply (Hs _ _ Hi) in Hx as [_ ?].
Qed.
End oldest.

(** The sharded table of pending requests reports the oldest one: after
    any insertions and removals the age is zero when nothing is pending, else
    the time since the least start among the pending requests. *)
Theorem oldest_age_is_oldest (hash_one : string → Z) es now :
  let s := foldl (time_event hash_one) shards_new es in
  let m := foldl pending_event ∅ es in
  (m = ∅ → oldest_age s now = f64_zero) ∧
  (m ≠ ∅ → ∃ id t, m !! id = Some t ∧ (∀ id' t', m !! id' = Some t' → t ≤ t') ∧
             oldest_age s now = as_secs_f64 (elapsed now t)).
Proof.
  intros s m. pose proof (time_run_rep hash_one es shards_new ∅ (table_rep_new hash_one)) as Hr. fold s m in Hr.
  unfold oldest_age. rewrite (oldest_rep hash_one s m Hr). split.
  - intros ->. done.
  - intros Hne. destruct (min_of (map_to_list m).*2) as [t|] eqn:E.
    + apply min_of_Some in E as [Hin Hle]. apply list_elem_of_fmap in Hin as ([id t'] & -> & Hin%elem_of_map_to_list). cbn in *.
      exists id, t'. split; [done|]. split; [|done]. intros id' t'' Ht%elem_of_map_to_list. rewrite Forall_forall in Hle.
      apply Hle, list_elem_of_fmap. by exists (id', t'').
    + apply min_of_None, fmap_nil_inv, map_to_list_empty_iff in E. done.
Qed.

(** ** The router *)
Section router_laws.
Context {P : Type} (hash_one : string → Z) (message_id : P → string).
Implicit Types (r : ResultRouter (P := P)) (es : list (RouterEvent (P := P))).
Notation event := (router_event hash_one message_id).
Notation run := (router_run hash_one message_id).
Record router_inv r : Prop := {
  rt_pending : ∃ m, table_rep hash_one (pending r) m ∧ ∀ id c, m !! id = Some c → (c < next_channel r)%nat;
  rt_sending : Forall (λ cp, (cp.1 < next_channel r)%nat) (sending r) }.

Lemma router_inv_new : router_inv router_new.
Proof. split; cbn; [|constructor]. exists ∅. split; [apply table_rep_new|]. intros id c. by rewrite lookup_empty. Qed.
Lemma begin_eq r id :
  (begin hash_one r id).2 =
  MkRouter (shards_insert hash_one (pending r) id (next_channel r)).2
    (<[next_channel r := MkChannel [] (negb (bool_decide (is_Some (shards_get hash_one (pending r) id))))]> (channels r))
    (S (next_channel r)) (sending r).
Proof. unfold begin, shards_insert. cbn. by destruct (shards_get hash_one (pending r) id). Qed.
Lemma router_event_inv r e : router_inv r → router_inv (event r e).
Proof.
  intros [(m & Hm & Hc) Hs]. destruct e as [id|id|p|i|c]; cbn [router_event].
  - rewrite begin_eq. split; cbn.
    + exists (<[id := next_channel r]> m). split; [by apply table_rep_insert|]. intros id' c.
      rewrite lookup_insert_Some. intros [[_ <-]|[_ H]]; [lia|]. specialize (Hc _ _ H). lia.
    + eapply Forall_impl; [done|]. cbn. lia.
  - split; cbn; [|done]. exists (delete id m). split; [by apply table_rep_remove|]. intros id' c [_ H]%lookup_delete_Some. eauto.
  - unfold consume_lookup. rewrite (table_rep_get _ _ _ _ Hm). destruct (m !! message_id p) as [c|] eqn:E; [|by split; eauto].
    split; cbn; [by eauto|]. apply Forall_app. split; [done|]. constructor; [by eapply Hc|done].
  - unfold consume_send. destruct (sending r !! i) as [[c p]|]; [|by split; eauto]. split; cbn; [by eauto|].
    by apply Forall_delete.
  - split; cbn; [by eauto|done].
Qed.
Lemma router_run_inv r es : router_inv r → router_inv (run r es).
Proof. revert r. induction es as [|e es IH]; intros r Hr; [done|]. apply IH. by apply router_event_inv. Qed.

(** What the events ask to deliver to [id], and what is on its way to [c]. *)
Definition consumed (id : string) es : list P :=
  omap (λ e, match e with EConsume p => if decide (message_id p = id) then Some p else None | _ => None end) es.
Definition on_the_way (c : nat) r : list P := (filter (λ cp : nat * P, cp.1 = c) (sending r)).*2.
Arguments on_the_way : simpl never.
(** The events leave the request [id] with channel [c] open. *)
Definition keeps_open (id : string) (c : nat) (e : RouterEvent (P := P)) : Prop :=
  match e with EBegin id' | EDone id' => id' ≠ id | EDrop c' => c' ≠ c | _ => True end.
Record open_inv (id : string) (c : nat) (ps : list P) r : Prop := {
  oi_inv : router_inv r;
  oi_next : (c < next_channel r)%nat;
  oi_table : ∃ m, table_rep hash_one (pending r) m ∧ m !! id = Some c ∧ ∀ id', m !! id' = Some c → id' = id;
  oi_channel : ∃ got, channels r !! c = Some (MkChannel got true) ∧ got ++ on_the_way c r ≡ₚ ps }.
Lemma on_the_way_snoc c c' p r l :
  sending r = l ++ [(c', p)] →
  on_the_way c r = (filter (λ cp : nat * P, cp.1 = c) l).*2 ++ (if decide (c' = c) then [p] else []).
Proof.
  intros E. unfold on_the_way. rewrite E, filter_app, fmap_app. f_equal. destruct (decide (c' = c)).
  - by rewrite filter_cons_True.
  - by rewrite filter_cons_False.
Qed.
Lemma open_inv_event id c ps r e :
  open_inv id c ps r → keeps_open id c e → open_inv id c (ps ++ consumed id [e]) (event r e).
Proof.
  intros [Hinv Hn (m & Hm & Hid & Huniq) (got & Hch & Hp)] Hk. pose proof (router_event_inv r e Hinv) as Hinv'.
  destruct e as [id'|id'|p|i|c']; cbn [router_event keeps_open] in *; cbn [consumed omap list_omap]; rewrite ?app_nil_r.
  - rewrite begin_eq in *. split; cbn; [done|lia| |].
    + exists (<[id' := next_channel r]> m). split; [by apply table_rep_insert|]. rewrite lookup_insert_ne by done.
      split; [done|]. intros id''. rewrite lookup_insert_Some. intros [[_ E]|[_ H]]; [lia|auto].
    + exists got. rewrite lookup_insert_ne by lia. done.
  - split; cbn; [done|done| |by eauto].
    exists (delete id' m). split; [by apply table_rep_remove|]. rewrite lookup_delete_ne by done. split; [done|].
    intros id'' [_ H]%lookup_delete_Some. auto.
  - unfold consume_lookup in *. rewrite (table_rep_get _ _ _ _ Hm) in *. destruct (m !! message_id p) as [c'|] eqn:E.
    + split; cbn; [done|done|by eauto|]. exists got. split; [done|].
      rewrite (on_the_way_snoc c c' p _ (sending r)) by done. rewrite app_assoc.
      destruct (decide (c' = c)) as [->|Hc].
      * rewrite decide_True by auto. by rewrite <-Hp.
      * rewrite decide_False by (intros <-; congruence). by rewrite !app_nil_r, <-Hp.
    + rewrite decide_False by (intros <-; congruence). rewrite app_nil_r. by split; eauto.
  - unfold consume_send in *. destruct (sending r !! i) as [[c' p]|] eqn:E; [|by split; eauto].
    split; cbn; [done|done|by eauto|].
    assert (got ++ on_the_way c r ≡ₚ got ++ (if decide (c' = c) then [p] else []) ++ (filter (λ cp : nat * P, cp.1 = c) (delete i (sending r))).*2) as Hw.
    { f_equiv. unfold on_the_way. pose proof (delete_Permutation _ _ _ E) as Hd. set (l' := delete i (sending r)) in *. clearbody l'.
      rewrite Hd. destruct (decide (c' = c)).
      - by rewrite filter_cons_True.
      - by rewrite filter_cons_False. }
    destruct (decide (c' = c)) as [->|Hc].
    + exists (got ++ [p]). rewrite lookup_alter_eq, Hch. split; [done|]. rewrite <-Hp, Hw. unfold on_the_way. cbn. by rewrite <-app_assoc.
    + exists got. rewrite lookup_alter_ne by done. split; [done|]. by rewrite <-Hp, Hw.
  - split; cbn; [done|done|by eauto|]. exists got. by rewrite lookup_alter_ne.
Qed.
Lemma open_inv_run id c ps r es :
  open_inv id c ps r → Forall (keeps_open id c) es → open_inv id c (ps ++ consumed id es) (run r es).
Proof.
  intros Hi Hf. revert ps r Hi. induction Hf as [|e es He Hes IH]; intros ps r Hi; [by rewrite app_nil_r|].
  replace (consumed id (e :: es)) with (consumed id [e] ++ consumed id es).
  - rewrite app_assoc. cbn. apply IH. by apply open_inv_event.
  - unfold consumed. by rewrite <-omap_app.
Qed.
End router_laws.

(** While a request is open, every result with its message identifier is
    delivered to it exactly once, or is on its way, and nothing else arrives
    on its channel, whatever other requests begin, end or are served
    meanwhile. *)
Theorem results_reach_their_request {P} (hash_one : string → Z) (message_id : P → string) es0 id c r es :
  begin hash_one (router_run hash_one message_id router_new es0) id = (Ok c, r) →
  Forall (keeps_open id c) es →
  let r' := router_run hash_one message_id r es in
  ∃ got, channels r' !! c = Some (MkChannel got true) ∧
    got ++ on_the_way c r' ≡ₚ consumed message_id id es.
Proof.
  intros Hb Hes r'. set (r0 := router_run hash_one message_id router_new es0) in *.
  assert (router_inv hash_one r0) as Hinv by apply router_run_inv, router_inv_new.
  pose proof (router_event_inv hash_one message_id r0 (EBegin id) Hinv) as Hinv'. cbn [router_event] in Hinv'.
  assert (open_inv hash_one id c [] r) as Hi.
  { rewrite Hb in Hinv'. cbn in Hinv'. destruct Hinv as [(m & Hm & Hc) Hs].
    unfold begin, shards_insert in Hb. destruct (shards_get hash_one (pending r0) id) eqn:E; [done|]. injection Hb as <- <-.
    split; cbn; [done|lia| |].
    - exists (<[id := next_channel r0]> m). split; [by apply table_rep_insert|]. rewrite lookup_insert_eq. split; [done|].
      intros id'. rewrite lookup_insert_Some. intros [[-> _]|[_ H]]; [done|]. specialize (Hc _ _ H). lia.
    - exists []. rewrite lookup_insert_eq. split; [done|]. cbn [app]. unfold on_the_way. cbn [sending].
      assert (filter (λ cp : nat * P, cp.1 = next_channel r0) (sending r0) = []) as ->; [|done].
      clear -Hs. induction Hs as [|[c p] l Hc _ IH]; [done|]. rewrite filter_cons_False; [done|]. cbn in *. lia. }
  destruct (open_inv_run hash_one message_id _ _ _ _ _ Hi Hes) as [_ _ _ (got & Hch & Hp)]. by exists got.
Qed.

(** ** Endpoint metrics *)
Lemma wrap_s_add a b : wrap_s 64 (wrap_s 64 a + b) = wrap_s 64 (a + b).
Proof.
  unfold wrap_s. set (h := 2 ^ (64 - 1)). replace ((a + h) mod 2 ^ 64 - h + b + h) with ((a + h) mod 2 ^ 64 + b) by lia.
  rewrite Zplus_mod_idemp_l. f_equal. f_equal. lia.
Qed.
Lemma wrap_u_add a b : wrap_u 64 (wrap_u 64 a + b) = wrap_u 64 (a + b).
Proof. unfold wrap_u. apply Zplus_mod_idemp_l. Qed.

Section accounting.
Notation M := (Metrics World).
Implicit Types (m : M) (h : Handle).
(** A handle of a live local series. *)
Definition live_int m h : Prop := enabled h = true ∧ otel h = None ∧ is_Some (ints m !! cell h).
Definition live_hist m h : Prop := enabled h = true ∧ is_Some (hists m !! cell h).

(** A registration that succeeds yields a handle of its series, and keeps
    the others. *)
Lemma register_owned r m sc name text labels h m' :
  registry_inv m → noop m = false → register r m sc name text labels = (Ok (Some h), m') →
  registry_inv m' ∧ noop m' = false ∧ meter m' = meter m ∧
  (∃ x, (scope_key sc name labels, x) ∈ registry m' ∧ kind x = request_kind r ∧ metric_handle x = Some h) ∧
  (∀ k x, (k, x) ∈ registry m → (k, x) ∈ registry m').
Proof.
  intros Hinv Hn E. pose proof (registry_inv_register r m sc name text labels Hinv) as Hinv'. rewrite E in Hinv'. cbn in Hinv'.
  split; [done|]. set (k0 := scope_key sc name labels).
  assert ((m' = m ∧ ∃ x, sm_get k0 (registry m) = Some x ∧ kind x = request_kind r ∧ metric_handle x = Some h) ∨
          (sm_get k0 (registry m) = None ∧ m' = created_registry r m k0 text ∧ metric_handle (created r m k0 text).1 = Some h)) as Hcase.
  { rewrite register_spec in E by done. fold k0 in E. destruct (sm_get k0 (registry m)) as [x|] eqn:Ex.
    - left. pose proof (sm_get_elem _ _ _ Ex) as Hin. rewrite (family_unique _ _ _ Hinv Hin) in E.
      destruct (decide (kind x ≠ request_kind r)) as [|Hk%dec_stable]; [done|].
      destruct (decide (help x ≠ text)); [done|]. injection E as Hh <-. split; [done|]. by exists x.
    - right. destruct (family (registry m) (key_name k0)) as [[kd h']|]; repeat case_decide; by simplify_eq. }
  destruct Hcase as [[-> (x & Hx%sm_get_elem & Hk & Hh)]|(Hnew & -> & Hh)]; [by eauto 10|].
  unfold created_registry in *. destruct (created r m k0 text) as [x m1] eqn:Ec. cbn in Hh.
  assert (noop m1 = noop m ∧ meter m1 = meter m ∧ kind x = request_kind r) as (E1 & E2 & E3) by (destruct r; by injection Ec as <- <-).
  cbn [noop meter registry set_registry]. rewrite E1, E2. split_and!; [done|done| |].
  - exists x. split; [apply sm_get_elem, sm_get_insert|done].
  - intros k y Hin. apply sm_get_elem. rewrite sm_get_insert_ne; [by apply sm_elem_get; [apply Hinv|]|].
    intros ->. apply sm_elem_get in Hin; [congruence|apply Hinv].
Qed.
(** The same for the three calls that return a handle. *)
Definition owned (kd : MetricKind) (k0 : MetricKey) m h m' : Prop :=
  registry_inv m' ∧ noop m' = false ∧ meter m' = meter m ∧
  (∃ x, (k0, x) ∈ registry m' ∧ kind x = kd ∧ metric_handle x = Some h) ∧
  (∀ k x, (k, x) ∈ registry m → (k, x) ∈ registry m').
Lemma counter_owned m sc name text labels h m' :
  registry_inv m → noop m = false → counter m sc name text labels = (Ok h, m') → owned KCounter (scope_key sc name labels) m h m'.
Proof. intros Hinv Hn E. apply (register_owned RCounter m sc name text); [done..|]. unfold register. by rewrite E. Qed.
Lemma gauge_owned m sc name text labels h m' :
  registry_inv m → noop m = false → gauge m sc name text labels = (Ok h, m') → owned KGauge (scope_key sc name labels) m h m'.
Proof. intros Hinv Hn E. apply (register_owned RGauge m sc name text); [done..|]. unfold register. by rewrite E. Qed.
Lemma histogram_owned m sc name text labels b h m' :
  registry_inv m → noop m = false → histogram m sc name text labels b = (Ok h, m') → owned KHistogram (scope_key sc name labels) m h m'.
Proof. intros Hinv Hn E. apply (register_owned (RHistogram b) m sc name text); [done..|]. unfold register. by rewrite E. Qed.
Lemma observable_kept m sc name text labels observe m' u :
  registry_inv m → noop m = false → observable_float64_gauge m sc name text labels observe = (Ok u, m') →
  registry_inv m' ∧ noop m' = false ∧ meter m' = meter m ∧ (∀ k x, (k, x) ∈ registry m → (k, x) ∈ registry m').
Proof.
  intros Hinv Hn E. pose proof (registry_inv_register (RObservable observe) m sc name text labels Hinv) as Hinv'.
  unfold register in Hinv'. rewrite E in Hinv'. cbn in Hinv'. split; [done|].
  unfold observable_float64_gauge in E. rewrite Hn in E. destruct (validate_metric_family _ _ _ _); try done.
  destruct (sm_get (scope_key sc name labels) (registry m)) as [[]|] eqn:Ex; simplify_eq; [done|].
  split_and!; [done|done|]. intros k y Hin. cbn. apply sm_get_elem. rewrite sm_get_insert_ne; [by apply sm_elem_get; [apply Hinv|]|].
  intros ->. apply sm_elem_get in Hin; [congruence|apply Hinv].
Qed.
Lemma owned_live m k x h :
  registry_inv m → meter m = false → (k, x) ∈ registry m → metric_handle x = Some h →
  if decide (kind x = KHistogram) then live_hist m h else live_int m h.
Proof.
  intros Hinv Hm Hin Hh. pose proof (metric_handle_cell _ _ Hh) as Hc. pose proof (ri_heap m Hinv _ _ _ Hin Hc) as Hheap.
  pose proof (proj2 (ri_otel m Hinv _ _ Hin) Hm) as Ho.
  assert (enabled h = true ∧ otel h = None) as [He Hoh] by (clear -Hh Ho; destruct x; cbn in *; by simplify_eq).
  by destruct (decide (kind x = KHistogram)).
Qed.
Lemma owned_cells m k x h k' x' h' :
  registry_inv m → (k, x) ∈ registry m → metric_handle x = Some h → (k', x') ∈ registry m → metric_handle x' = Some h' →
  k ≠ k' → cell h ≠ cell h'.
Proof.
  intros Hinv Hin Hh%metric_handle_cell Hin' Hh'%metric_handle_cell Hne Hc. rewrite Hc in Hh. by destruct Hne; eapply ri_distinct.
Qed.

(** The registered endpoint: its series are live and apart. *)
Record endpoint_live (e : DataSourceEndpointMetrics) m : Prop := {
  el_enabled : em_enabled e = true;
  el_messages : live_int m (messages_total e);
  el_errors : live_int m (request_errors e);
  el_active : live_int m (active_requests e);
  el_duration : live_hist m (request_duration e);
  el_apart : NoDup [cell (messages_total e); cell (request_errors e); cell (active_requests e)] }.
Lemma endpoint_metrics_live m connector endpoint table e m' :
  metrics_reachable m → noop m = false → meter m = false →
  endpoint_metrics_new m connector endpoint table = (Ok e, m') → endpoint_live e m'.
Proof.
  intros Hinv%metrics_reachable_inv Hn Hme E. unfold endpoint_metrics_new in E.
  set (sc := scope "datasource_endpoint" _) in E.
  destruct (counter m sc "messages_total" _ []) as [[messages| |] m1] eqn:E1; cbn in E; try done.
  destruct (counter_owned _ _ _ _ _ _ _ Hinv Hn E1) as (I1 & N1 & T1 & (x1 & H1 & Q1 & O1) & _).
  destruct (counter m1 sc "events_total" _ _) as [[errors| |] m2] eqn:E2; cbn in E; try done.
  destruct (counter_owned _ _ _ _ _ _ _ I1 N1 E2) as (I2 & N2 & T2 & (x2 & H2 & Q2 & O2) & K2).
  destruct (gauge m2 sc "active_requests" _ []) as [[active| |] m3] eqn:E3; cbn in E; try done.
  destruct (gauge_owned _ _ _ _ _ _ _ I2 N2 E3) as (I3 & N3 & T3 & (x3 & H3 & Q3 & O3) & K3).
  destruct (pending_new m3 sc table) as [[pending| |] m4] eqn:E4; cbn in E; try done.
  assert (registry_inv m4 ∧ noop m4 = false ∧ meter m4 = meter m3 ∧ (∀ k x, (k, x) ∈ registry m3 → (k, x) ∈ registry m4)) as (I4 & N4 & T4 & K4).
  { unfold pending_new in E4. destruct (gauge m3 sc _ _ _) as [[g| |] m31] eqn:E31; try done.
    destruct (gauge_owned _ _ _ _ _ _ _ I3 N3 E31) as (I31 & N31 & T31 & _ & K31).
    destruct (enabled g); [|by injection E4 as <- <-].
    destruct (observable_float64_gauge m31 sc _ _ _ _) as [[u| |] m32] eqn:E32; try done. injection E4 as <- <-.
    apply observable_kept in E32 as (I32 & N32 & T32 & K32); [|done..]. split_and!; [done|done|congruence|auto]. }
  destruct (histogram m4 sc "request_duration_seconds" _ _ _) as [[duration| |] m5] eqn:E5; cbn in E; try done.
  destruct (histogram_owned _ _ _ _ _ _ _ _ I4 N4 E5) as (I5 & N5 & T5 & (x5 & H5 & Q5 & O5) & K5).
  injection E as <- <-.
  assert (meter m5 = false) as Hm5 by congruence.
  assert (∀ k x h, (k, x) ∈ registry m5 → metric_handle x = Some h → kind x ≠ KHistogram → live_int m5 h) as Hlive.
  { intros k x h Hin Hh Hk. pose proof (owned_live m5 k x h I5 Hm5 Hin Hh) as H. by rewrite decide_False in H. }
  split; cbn.
  - unfold is_noop. by rewrite Hn.
  - eapply Hlive; [by apply K5, K4, K3, K2|done|]. congruence.
  - eapply Hlive; [by apply K5, K4, K3|done|]. congruence.
  - eapply Hlive; [by apply K5, K4|done|]. congruence.
  - pose proof (owned_live m5 _ x5 duration I5 Hm5 H5 O5) as H. by rewrite decide_True in H.
  - assert (∀ k x h k' x' h', (k, x) ∈ registry m5 → metric_handle x = Some h → (k', x') ∈ registry m5 →
      metric_handle x' = Some h' → k ≠ k' → cell h ≠ cell h') as Hne by (intros *; by apply owned_cells).
    apply (K3 _ _), K4, K5 in H2. apply K2, K3, K4, K5 in H1. apply K4, K5 in H3.
    assert (cell messages ≠ cell errors) by (eapply (Hne _ x1 _ _ x2); [done..|]; unfold scope_key; by intros [= ]).
    assert (cell messages ≠ cell active) by (eapply (Hne _ x1 _ _ x3); [done..|]; unfold scope_key; by intros [= ]).
    assert (cell errors ≠ cell active) by (eapply (Hne _ x2 _ _ x3); [done..|]; unfold scope_key; by intros [= ]).
    clear -H H0 H4. apply NoDup_cons; split; [|apply NoDup_cons; split; [|apply NoDup_singleton]]; set_solver.
Qed.
End accounting.

(** ** Accounting *)
Definition same_word (a b : Z) : Prop := a mod 2 ^ 64 = b mod 2 ^ 64.
#[export] Instance same_word_equiv : Equivalence same_word.
Proof. split; unfold same_word; [by intros ?|by intros ? ?|intros ? ? ? ? ?; congruence]. Qed.
#[export] Instance same_word_add : Proper (same_word ==> same_word ==> same_word) Z.add.
Proof. unfold same_word. intros a a' Ha b b' Hb. by rewrite Zplus_mod, Ha, Hb, <-Zplus_mod. Qed.
Lemma same_word_wrap_s z : same_word (wrap_s 64 z) z.
Proof. destruct (wrap_s_cong z) as [q ->]. unfold same_word. apply Z_mod_plus_full. Qed.
Lemma same_word_wrap_u z : same_word (wrap_u 64 z) z.
Proof. unfold same_word, wrap_u. apply Zmod_mod. Qed.

Section accounting_run.
Context (e : DataSourceEndpointMetrics).
Notation M := (Metrics World).
Inductive RequestEvent := RStart (now : Z) | REnd (now started : Z) (success : bool).
Definition request_event (m : M) (ev : RequestEvent) : M :=
  match ev with
  | RStart now => (request_start e m now).2
  | REnd now started success => request_end e m now (Some started) success
  end.
Definition count_events (f : RequestEvent → bool) (es : list RequestEvent) : Z := Z.of_nat (length (filter (λ ev, f ev = true) es)).
Definition is_start (ev : RequestEvent) : bool := match ev with RStart _ => true | _ => false end.
Definition is_end (ok : bool) (ev : RequestEvent) : bool := match ev with REnd _ _ s => Bool.eqb s ok | _ => false end.
Lemma count_events_cons f ev es : count_events f (ev :: es) = (if f ev then 1 else 0) + count_events f es.
Proof.
  unfold count_events. destruct (f ev) eqn:E; [rewrite filter_cons_True by done|rewrite filter_cons_False by (by rewrite E)]; cbn [length]; lia.
Qed.

Definition readings (m : M) : Z * Z * Z * Z :=
  (int_get m (active_requests e), int_get m (messages_total e), int_get m (request_errors e), histogram_count m (request_duration e)).
Lemma live_int_alter m h f h' :
  live_int m h → live_int m h' →
  live_int (set_ints m (alter f (cell h) (ints m))) h' ∧
  int_get (set_ints m (alter f (cell h) (ints m))) h' =
    if decide (cell h' = cell h) then f (int_get m h') else int_get m h'.
Proof.
  intros [He [Ho [v Hv]]] [He' [Ho' [v' Hv']]]. unfold live_int, int_get. rewrite He'. cbn [ints set_ints].
  destruct (decide (cell h' = cell h)) as [E|E].
  - rewrite E, lookup_alter_eq. rewrite <-E, Hv'. cbn. eauto.
  - rewrite lookup_alter_ne by done. rewrite Hv'. eauto.
Qed.
Lemma add_live m h d :
  live_int m h →
  gauge_add m h d = set_ints m (alter (λ x, wrap_s 64 (x + d)) (cell h) (ints m)) ∧
  counter_add m h d = set_ints m (alter (λ x, wrap_s 64 (x + d)) (cell h) (ints m)).
Proof. intros (He & Ho & _). unfold gauge_add, counter_add, gauge_fetch_add, gauge_export. by rewrite He, Ho. Qed.
(** Adding to one of the three integer series. *)
Lemma endpoint_add m h d :
  endpoint_live e m → h ∈ [messages_total e; request_errors e; active_requests e] →
  let m' := set_ints m (alter (λ x, wrap_s 64 (x + d)) (cell h) (ints m)) in
  endpoint_live e m' ∧ hists m' = hists m ∧
  ∀ h', h' ∈ [messages_total e; request_errors e; active_requests e] →
    same_word (int_get m' h') (int_get m h' + if decide (cell h' = cell h) then d else 0).
Proof.
  intros [He Hm Hr Ha Hd Hnd] Hh m'.
  assert (∀ h', h' ∈ [messages_total e; request_errors e; active_requests e] → live_int m h') as Hall.
  { intros h' Hin. repeat (apply elem_of_cons in Hin as [->|Hin]); [done..|by apply elem_of_nil in Hin]. }
  split; [|split; [done|]].
  - split; try done; apply live_int_alter; auto.
  - intros h' Hin. destruct (live_int_alter m h (λ x, wrap_s 64 (x + d)) h' (Hall h Hh) (Hall h' Hin)) as [_ Hg]. fold m' in Hg. rewrite Hg.
    destruct (decide (cell h' = cell h)); [apply same_word_wrap_s|]. by rewrite Z.add_0_r.
Qed.
Lemma endpoint_observe m v :
  endpoint_live e m →
  endpoint_live e (observe m (request_duration e) v) ∧ ints (observe m (request_duration e) v) = ints m ∧
  histogram_count (observe m (request_duration e) v) (request_duration e) = wrap_u 64 (histogram_count m (request_duration e) + 1).
Proof.
  intros [He Hm Hr Ha [Hde [x Hx]] Hnd]. unfold observe. rewrite Hde. set (m1 := set_hists m _).
  assert (endpoint_live e m1 ∧ ints m1 = ints m ∧
    histogram_count m1 (request_duration e) = wrap_u 64 (histogram_count m (request_duration e) + 1)) as Hm1.
  { split; [|split; [done|]].
    - split; try done. split; [done|]. cbn. by apply is_Some_alter.
    - unfold histogram_count. rewrite Hde. cbn. by rewrite lookup_alter_eq, Hx. }
  destruct (otel (request_duration e)); [|done]. destruct Hm1 as [[] [? ?]]. split; [by split|done].
Qed.
Lemma request_end_count m now st (ok : bool) :
  endpoint_live e m →
  let m' := request_end e m now (Some st) ok in
  endpoint_live e m' ∧
  same_word (histogram_count m' (request_duration e)) (histogram_count m (request_duration e) + 1) ∧
  ∀ h, h ∈ [messages_total e; request_errors e; active_requests e] →
    same_word (int_get m' h)
      (int_get m h + (if decide (cell h = cell (active_requests e)) then -1 else 0) +
       (if decide (cell h = cell (if ok then messages_total e else request_errors e)) then 1 else 0)).
Proof.
  intros Hl m'. set (hd := if ok then messages_total e else request_errors e).
  assert (m' = counter_add (observe (gauge_add m (active_requests e) (-1)) (request_duration e) (as_secs_f64 (elapsed now st))) hd 1) as ->
    by (subst m' hd; by destruct ok).
  destruct (add_live m (active_requests e) (-1) (el_active e m Hl)) as [-> _].
  destruct (endpoint_add m (active_requests e) (-1) Hl) as (Hl1 & Hh1 & Hg1); [set_solver|]. set (m1 := set_ints m _) in *.
  destruct (endpoint_observe m1 (as_secs_f64 (elapsed now st)) Hl1) as (Hl2 & Hi2 & Hc2). set (m2 := observe m1 _ _) in *.
  assert (live_int m2 hd) as Hhd by (subst hd; destruct ok; apply Hl2).
  destruct (add_live m2 hd 1 Hhd) as [_ ->].
  destruct (endpoint_add m2 hd 1 Hl2) as (Hl3 & Hh3 & Hg3); [subst hd; destruct ok; set_solver|].
  split; [exact Hl3|]. split.
  - unfold histogram_count at 1. rewrite Hh3. change (same_word (histogram_count m2 (request_duration e)) (histogram_count m (request_duration e) + 1)).
    rewrite Hc2. unfold histogram_count at 1. rewrite Hh1. apply same_word_wrap_u.
  - intros h Hin. rewrite (Hg3 h Hin). unfold int_get at 1. rewrite Hi2. fold (int_get m1 h). by rewrite (Hg1 h Hin).
Qed.
Lemma request_start_count m now :
  endpoint_live e m →
  let m' := (request_start e m now).2 in
  endpoint_live e m' ∧ histogram_count m' (request_duration e) = histogram_count m (request_duration e) ∧
  ∀ h, h ∈ [messages_total e; request_errors e; active_requests e] →
    same_word (int_get m' h) (int_get m h + (if decide (cell h = cell (active_requests e)) then 1 else 0)).
Proof.
  intros Hl. unfold request_start, gauge_inc. rewrite (el_enabled e m Hl). cbn [snd].
  destruct (add_live m (active_requests e) 1 (el_active e m Hl)) as [-> _].
  destruct (endpoint_add m (active_requests e) 1 Hl) as (Hl' & Hh & Hg); [set_solver|]. split; [exact Hl'|].
  split; [|exact Hg]. unfold histogram_count. by rewrite Hh.
Qed.
(** What the readings are after [starts], [oks] and [fails] more events. *)
Definition advanced (starts oks fails : Z) (v v' : Z * Z * Z * Z) : Prop :=
  let '(a, g, b, d) := v in let '(a', g', b', d') := v' in
  same_word a' (a + (starts - oks - fails)) ∧ same_word g' (g + oks) ∧ same_word b' (b + fails) ∧ same_word d' (d + (oks + fails)).
Lemma request_event_count m ev :
  endpoint_live e m →
  endpoint_live e (request_event m ev) ∧
  advanced (if is_start ev then 1 else 0) (if is_end true ev then 1 else 0) (if is_end false ev then 1 else 0)
    (readings m) (readings (request_event m ev)).
Proof.
  intros Hl. pose proof (el_apart e m Hl) as Hnd.
  apply NoDup_cons in Hnd as [H1 Hnd]. apply NoDup_cons in Hnd as [H2 _].
  assert (cell (messages_total e) ≠ cell (request_errors e) ∧ cell (messages_total e) ≠ cell (active_requests e) ∧
          cell (request_errors e) ≠ cell (active_requests e)) as (D1 & D2 & D3) by set_solver.
  destruct ev as [now|now st ok]; cbn [request_event is_start is_end].
  - destruct (request_start_count m now Hl) as (Hl' & Hh & Hg). split; [exact Hl'|]. cbn [readings advanced]. rewrite Hh.
    split_and!; [rewrite (Hg (active_requests e)) by set_solver|rewrite (Hg (messages_total e)) by set_solver|
      rewrite (Hg (request_errors e)) by set_solver|]; repeat case_decide; try congruence; by rewrite ?Z.add_0_r, ?Z.sub_0_r.
  - destruct (request_end_count m now st ok Hl) as (Hl' & Hh & Hg). split; [exact Hl'|]. cbn [readings advanced].
    destruct ok; cbn [Bool.eqb]; (split_and!; [rewrite (Hg (active_requests e)) by set_solver|rewrite (Hg (messages_total e)) by set_solver|
      rewrite (Hg (request_errors e)) by set_solver|rewrite Hh]); repeat case_decide; try congruence;
      unfold same_word; f_equal; lia.
Qed.
Lemma advanced_trans s o f s' o' f' v v' v'' :
  advanced s o f v v' → advanced s' o' f' v' v'' → advanced (s + s') (o + o') (f + f') v v''.
Proof.
  destruct v as [[[a g] b] d], v' as [[[a' g'] b'] d'], v'' as [[[a'' g''] b''] d'']. cbn.
  intros (A & G & B & D) (A' & G' & B' & D'). split_and!.
  - rewrite A', A. unfold same_word. f_equal. lia.
  - rewrite G', G. unfold same_word. f_equal. lia.
  - rewrite B', B. unfold same_word. f_equal. lia.
  - rewrite D', D. unfold same_word. f_equal. lia.
Qed.
Lemma request_run_count m es :
  endpoint_live e m →
  advanced (count_events is_start es) (count_events (is_end true) es) (count_events (is_end false) es)
    (readings m) (readings (foldl request_event m es)).
Proof.
  revert m. induction es as [|ev es IH]; intros m Hl.
  - cbn [foldl]. unfold advanced, readings, count_events. cbn. by rewrite !Z.add_0_r.
  - cbn [foldl]. destruct (request_event_count m ev Hl) as [Hl' Hadv]. rewrite !count_events_cons.
    eapply advanced_trans; [exact Hadv|]. by apply IH.
Qed.
End accounting_run.

(** The metrics of a source endpoint count its requests: after the
    endpoint registered its series and any interleaving of starts and ends,
    the active gauge moved by the starts minus the ends, the message and
    error counters by the successful and failed ends, and the duration
    histogram by all ends (as 64-bit integers). *)
Theorem endpoint_accounting m connector endpoint table e m' es :
  metrics_reachable m → noop m = false → meter m = false →
  endpoint_metrics_new m connector endpoint table = (Ok e, m') →
  let m'' := foldl (request_event e) m' es in
  let starts := count_events is_start es in
  let oks := count_events (is_end true) es in
  let fails := count_events (is_end false) es in
  same_word (int_get m'' (active_requests e)) (int_get m' (active_requests e) + (starts - oks - fails)) ∧
  same_word (int_get m'' (messages_total e)) (int_get m' (messages_total e) + oks) ∧
  same_word (int_get m'' (request_errors e)) (int_get m' (request_errors e) + fails) ∧
  same_word (histogram_count m'' (request_duration e)) (histogram_count m' (request_duration e) + (oks + fails)).
Proof.
  intros Hm Hn Hme He. exact (request_run_count e m' es (endpoint_metrics_live m connector endpoint table e m' Hm Hn Hme He)).
Qed.

(** * Instances *)
(** A second request with the same identifier panics, and has already taken
    the place of the first: later results reach neither. *)
Theorem duplicate_begin_takes_over :
  let r0 := router_new (P := string) in
  let '(o1, r1) := begin (λ _, 0) r0 "a" in
  let '(o2, r2) := begin (λ _, 0) r1 "a" in
  let r3 := router_run (λ _, 0) id r2 [EConsume "a"; ESend 0] in
  o1 = Ok 0%nat ∧ o2 = Panic ∧ channels r3 !! 0%nat = Some (MkChannel [] true).
Proof. vm_compute. done. Qed.

Definition example_router : outcome Empty_set nat * ResultRouter (P := string) :=
  begin (λ s, Z.of_nat (String.length s)) router_new "abc".
Lemma results_reach_their_request_witness :
  ∃ got, channels (router_run (λ s, Z.of_nat (String.length s)) id example_router.2
                     [EBegin "xyz"; EConsume "abc"; EConsume "xyz"; ESend 1; ESend 0]) !! 0%nat = Some (MkChannel got true) ∧
    got ++ on_the_way 0 (router_run (λ s, Z.of_nat (String.length s)) id example_router.2
                     [EBegin "xyz"; EConsume "abc"; EConsume "xyz"; ESend 1; ESend 0]) ≡ₚ ["abc"].
Proof.
  apply (results_reach_their_request (λ s, Z.of_nat (String.length s)) id [] "abc" 0 example_router.2
    [EBegin "xyz"; EConsume "abc"; EConsume "xyz"; ESend 1; ESend 0]); [reflexivity|].
  repeat constructor; done.
Defined.
Notation example_endpoint := (endpoint_metrics_new metrics_new "kafka" "orders" 0%nat).
Definition example_handles : DataSourceEndpointMetrics :=
  let none := MkHandle 0 None [] false in
  match example_endpoint.1 with Ok e => e | _ => MkEndpointMetrics false none none none (MkPending none None) none end.
Lemma fst_Ok_pair {A B} (p : outcome MetricsError A * B) a : p.1 = Ok a → p = (Ok a, p.2).
Proof. destruct p. cbn. by intros ->. Qed.
Definition example_events : list RequestEvent := [RStart 0; RStart 1; REnd 5 0 true].
Lemma endpoint_accounting_witness :
  example_endpoint.1 = Ok example_handles ∧
  same_word (int_get (foldl (request_event example_handles) example_endpoint.2 example_events) (active_requests example_handles))
    (int_get example_endpoint.2 (active_requests example_handles) +
     (count_events is_start example_events - count_events (is_end true) example_events - count_events (is_end false) example_events)).
Proof.
  assert (example_endpoint.1 = Ok example_handles) as E by (vm_compute; reflexivity).
  pose proof (fst_Ok_pair example_endpoint example_handles E) as E2.
  assert (metrics_reachable (W := World) metrics_new) as Hr by (exists metrics_new; split; [left|apply rtc_refl]).
  split; [exact E|].
  exact (proj1 (endpoint_accounting metrics_new "kafka" "orders" 0 example_handles example_endpoint.2
    example_events Hr eq_refl eq_refl E2)).
Defined.
