(* ===== verification/Cron.v ===== *)
(** Schedules: [src/src/runtime/schedule.rs] and the local cron source,
    [src/src/datasource/cron/croner.rs].

    Instants are nanoseconds since the epoch in UTC.  The croner expression
    and the time zone are parameters: finding the next occurrence, matching
    one, and resolving a wall time.  A scheduler is a step relation: ticks
    with the current time, and tasks that end. *)

From S2P Require Import Prelude Errors Config Context.
From stdpp Require Import pretty.
From Stdlib Require Import Strings.Ascii.
From Stdlib Require Strings.String.
Local Open Scope Z_scope.

(** * Triggers *)
Inductive ScheduleBackend := Local | Temporal.
Record ScheduleTrigger := MkTrigger {
  trigger_id : string;
  tr_schedule_id : string;
  scheduled_at : Z;
  fired_at : Z;
  backend : ScheduleBackend }.
Definition newline : string := String "010" "".
Section trigger.
Context (to_rfc3339 : Z → string) (sha256_hex : string → string).
Definition trigger_identity (endpoint_id : Z) (schedule_id : string) (scheduled_at : Z) : string :=
  "servicegen:schedule-trigger:v1" +:+ newline +:+ pretty endpoint_id +:+ newline +:+ schedule_id +:+ newline +:+
  to_rfc3339 scheduled_at.
Definition trigger_new (endpoint_id : Z) (schedule_id : string) (scheduled_at fired_at : Z) (b : ScheduleBackend) :
    ScheduleTrigger :=
  MkTrigger (sha256_hex (trigger_identity endpoint_id schedule_id scheduled_at)) schedule_id scheduled_at fired_at b.
End trigger.
Definition normalize_temporal_priority (priority : Z) : Z :=
  if decide (priority ≤ -2) then 1 else if decide (priority = -1) then 2 else if decide (priority = 0) then 3
  else if decide (priority = 1) then 4 else 5.

(** * Schedules *)
Definition MILLI : Z := 1000000.
Fixpoint strip_prefix (p s : list ascii) : option (list ascii) :=
  match p, s with
  | [], s => Some s
  | c :: p, d :: s => if decide (c = d) then strip_prefix p s else None
  | _, [] => None
  end.
Definition strip_suffix (p s : list ascii) : option (list ascii) :=
  reverse <$> strip_prefix (reverse p) (reverse s).

Section cron.
Context {Expr Tz : Type}.
(** Croner's parser, [find_next_occurrence] and [is_time_matching]; the
    position of an instant among those with its wall time. *)
Context (cron_from_str : string → outcome string Expr).
Context (find_next_occurrence : Expr → Tz → Z → outcome string Z).
Context (is_time_matching : Expr → Tz → Z → outcome string bool).
Context (local_instants : Tz → Z → list Z).    (** instants with the wall time of this one, in order *)
(** The instants chrono represents. *)
Context (in_range : Z → bool).

Inductive LocalSchedule := Calendar (expression : Expr) | Interval (milliseconds : Z).

Definition invalid_interval : RuntimeError :=
  InvalidConfiguration "local interval requires @every <10..86400000>ms".
Definition parse (expression : string) : RuntimeResult LocalSchedule :=
  let expr := chars expression in
  if decide (strip_prefix (chars "@every") expr = None) then
    match cron_from_str expression with
    | Ok e => Ok (Calendar e) | Err t => Err (InvalidConfiguration t) | Panic => Panic
    end
  else
    digits ← ok_or (strip_prefix (chars "@every ") expr ≫= strip_suffix (chars "ms")) invalid_interval;
    if decide (digits = [] ∨ (8 < length digits)%nat ∨ head digits = Some "0"%char ∨
               forallb (λ c, bool_decide (is_Some (digit c))) digits = false)
    then Err invalid_interval
    else
      milliseconds ← ok_or (parse_digits 0 digits) invalid_interval;
      if decide (10 ≤ milliseconds ≤ 86400000) then Ok (Interval milliseconds) else Err invalid_interval.

Record CronJob := MkCronJob {
  job_endpoint : Z;
  job_name : string;
  schedule : LocalSchedule;
  timezone : Tz;
  overlap_policy : Api.ScheduleOverlapPolicy;
  missed_run_policy : Api.ScheduleMissedRunPolicy }.

(** [LocalResult] of the candidate's wall time. *)
Definition first_fold (tz : Tz) (candidate : Z) : bool :=
  match local_instants tz candidate with
  | [] => false | [_] => true | first :: _ => bool_decide (first = candidate)
  end.
(** One turn of the loop of [next]: an occurrence to return, or a cursor. *)
Definition next_turn (e : Expr) (tz : Tz) (cursor : Z) : RuntimeResult (Z * bool) :=
  candidate ← map_err InvalidConfiguration (find_next_occurrence e tz cursor);
  matching ← map_err InvalidConfiguration (is_time_matching e tz candidate);
  Ok (candidate, matching && first_fold tz candidate).
(** [None] is out of fuel: the loop has not ended. *)
Fixpoint next_calendar (fuel : nat) (e : Expr) (tz : Tz) (cursor : Z) : option (RuntimeResult Z) :=
  match fuel with
  | O => None
  | S fuel =>
      match next_turn e tz cursor with
      | Ok (candidate, true) => Some (Ok candidate)
      | Ok (candidate, false) => next_calendar fuel e tz candidate
      | Err err => Some (Err err)
      | Panic => Some Panic
      end
  end.
Definition next_interval (milliseconds after : Z) : RuntimeResult Z :=
  let t := (after / MILLI + milliseconds) * MILLI in
  if in_range t then Ok t else Err (InvalidConfiguration "interval timestamp out of range").
Definition next (fuel : nat) (job : CronJob) (after : Z) : option (RuntimeResult Z) :=
  match schedule job with
  | Interval milliseconds => Some (next_interval milliseconds after)
  | Calendar e => next_calendar fuel e (timezone job) after
  end.

(** The catch-up loop: the last occurrence not after [now], the next one, and
    whether one was skipped.  [next] is the schedule's successor. *)
Fixpoint due_loop (successor : Z → option (RuntimeResult Z)) (fuel : nat) (latest next now : Z) (missed : bool) :
    option (RuntimeResult (Z * Z * bool)) :=
  match fuel with
  | O => None
  | S fuel =>
      if decide (next ≤ now) then
        match successor next with
        | Some (Ok next') => due_loop successor fuel next next' now true
        | Some (Err e) => Some (Err e) | Some Panic => Some Panic | None => None
        end
      else Some (Ok (latest, next, missed))
  end.
Definition due_by_loop (successor : Z → option (RuntimeResult Z)) (fuel : nat) (first now : Z) :
    option (RuntimeResult (Z * Z * bool)) :=
  match successor first with
  | Some (Ok next) => due_loop successor fuel first next now false
  | Some (Err e) => Some (Err e) | Some Panic => Some Panic | None => None
  end.
(** Intervals catch up in constant time; [i64] division truncates. *)
Definition due (fuel : nat) (job : CronJob) (first now : Z) : option (RuntimeResult (Z * Z * bool)) :=
  match schedule job with
  | Interval milliseconds =>
      let skipped := Z.quot (Z.quot (now - first) MILLI) milliseconds in
      let latest := first + skipped * milliseconds * MILLI in
      Some (next ← next_interval milliseconds latest; Ok (latest, next, bool_decide (0 < skipped)))
  | Calendar e => due_by_loop (next_calendar fuel e (timezone job)) fuel first now
  end.
End cron.
Arguments LocalSchedule : clear implicits.
Arguments CronJob : clear implicits.

(** * The scheduler *)
(** A task of the scheduler's [JoinSet]; its overlap guard clears the flag of
    its job when the task ends or is aborted. *)
Record CronTask := MkCronTask { t_job : nat; t_at : Z; t_guard : bool }.
Inductive SchedulerPc := Looping | Draining | Ended (result : RuntimeResult unit).
Record Scheduler (Expr Tz : Type) := MkScheduler {
  scheduled : list (CronJob Expr Tz * Z);
  running : gset nat;
  tasks : gmap Z CronTask;
  next_task_id : Z;
  fired : list (nat * Z);                      (** accepted occurrences, in order *)
  scheduler_pc : SchedulerPc }.
Arguments MkScheduler {Expr Tz}.
Arguments scheduled {Expr Tz}.
Arguments running {Expr Tz}.
Arguments tasks {Expr Tz}.
Arguments next_task_id {Expr Tz}.
Arguments fired {Expr Tz}.
Arguments scheduler_pc {Expr Tz}.

Section scheduler.
Context {Expr Tz : Type}.
Context (find_next_occurrence : Expr → Tz → Z → outcome string Z).
Context (is_time_matching : Expr → Tz → Z → outcome string bool).
Context (local_instants : Tz → Z → list Z) (in_range : Z → bool).
Notation Job := (CronJob Expr Tz).
Notation Sched := (Scheduler Expr Tz).
Implicit Types s : Sched.
Notation due := (due find_next_occurrence is_time_matching local_instants in_range).
Notation next := (next find_next_occurrence is_time_matching local_instants in_range).

Definition spawn s (idx : nat) (at_ : Z) (guard : bool) : Sched :=
  MkScheduler (scheduled s) (if guard then {[idx]} ∪ running s else running s)
    (<[next_task_id s := MkCronTask idx at_ guard]> (tasks s)) (next_task_id s + 1) (fired s ++ [(idx, at_)])
    (scheduler_pc s).
(** [CronJob::dispatch] *)
Definition dispatch (owner_cancelled : bool) s (idx : nat) (job : Job) (at_ : Z) : Sched :=
  if owner_cancelled then s
  else match overlap_policy job with
       | Api.OverlapSkip => if decide (idx ∈ running s) then s else spawn s idx at_ true
       | Api.OverlapAllow => spawn s idx at_ false
       end.
Definition set_next s (idx : nat) (job : Job) (next : Z) : Sched :=
  MkScheduler (<[idx := (job, next)]> (scheduled s)) (running s) (tasks s) (next_task_id s) (fired s) (scheduler_pc s).
Definition fires (missed : bool) (job : Job) : bool :=
  negb missed || match missed_run_policy job with Api.FireOnce => true | Api.MissedSkip => false end.
(** One job of a tick: the scheduler and how the turn ended; [None] is out of
    fuel. *)
Definition tick_job (fuel : nat) (owner_cancelled : bool) (now : Z) s (idx : nat) : option (Sched * RuntimeResult unit) :=
  match scheduled s !! idx with
  | None => Some (s, Ok tt)
  | Some (job, n) =>
      if decide (now < n) then Some (s, Ok tt)
      else match due fuel job n now with
           | Some (Ok (last_due, n', missed)) =>
               let s := set_next s idx job n' in
               Some (if fires missed job then dispatch owner_cancelled s idx job last_due else s, Ok tt)
           | Some (Err e) => Some (s, Err e) | Some Panic => Some (s, Panic) | None => None
           end
  end.
Fixpoint tick_jobs (fuel : nat) (owner_cancelled : bool) (now : Z) s (jobs : list nat) :
    option (Sched * RuntimeResult unit) :=
  match jobs with
  | [] => Some (s, Ok tt)
  | idx :: jobs =>
      match tick_job fuel owner_cancelled now s idx with
      | Some (s, Ok _) => tick_jobs fuel owner_cancelled now s jobs
      | r => r
      end
  end.
Definition tick (fuel : nat) (owner_cancelled : bool) (now : Z) s : option (Sched * RuntimeResult unit) :=
  tick_jobs fuel owner_cancelled now s (seq 0 (length (scheduled s))).

Definition set_pc s (pc : SchedulerPc) : Sched :=
  MkScheduler (scheduled s) (running s) (tasks s) (next_task_id s) (fired s) pc.
(** A task ends, by itself or by a panic. *)
Definition task_ends s (tid : Z) : option Sched :=
  t ← tasks s !! tid;
  Some (MkScheduler (scheduled s) (if t_guard t then running s ∖ {[t_job t]} else running s)
    (delete tid (tasks s)) (next_task_id s) (fired s) (scheduler_pc s)).
(** [?] or a panic leaves [run_scheduler]: dropping the [JoinSet] aborts the
    tasks. *)
Definition abort s (r : RuntimeResult unit) : Sched :=
  MkScheduler (scheduled s) (running s ∖ list_to_set (t_job <$> filter (λ t, t_guard t = true) (map_to_list (tasks s)).*2))
    ∅ (next_task_id s) (fired s) (Ended r).

Inductive scheduler_step : Sched → Sched → Prop :=
| cs_tick fuel cancelled now s s' r :
    scheduler_pc s = Looping → tick fuel cancelled now s = Some (s', r) →
    scheduler_step s (match r with Ok _ => s' | _ => abort s' r end)
| cs_task s tid s' : task_ends s tid = Some s' → scheduler_step s s'
| cs_close s : scheduler_pc s = Looping → scheduler_step s (set_pc s (if decide (scheduled s = []) then Ended (Ok tt) else Draining))
| cs_drained s : scheduler_pc s = Draining → tasks s = ∅ → scheduler_step s (set_pc s (Ended (Ok tt))).

(** [CronDataSource::start] schedules every job after [now]. *)
Fixpoint schedule_jobs (fuel : nat) (now : Z) (jobs : list Job) : option (RuntimeResult (list (Job * Z))) :=
  match jobs with
  | [] => Some (Ok [])
  | job :: jobs =>
      match next fuel job now with
      | Some (Ok n) =>
          match schedule_jobs fuel now jobs with
          | Some (Ok l) => Some (Ok ((job, n) :: l)) | r => r
          end
      | Some (Err e) => Some (Err e) | Some Panic => Some Panic | None => None
      end
  end.
Definition scheduler_new (l : list (Job * Z)) : Sched := MkScheduler l ∅ ∅ 0 [] Looping.

(** * The data source *)
Record CronDataSource := MkCronSource {
  cs_id : Z;
  cs_name : string;
  cs_jobs : list Job;
  cs_cancelled : bool;                         (** the token of the current run *)
  cs_scheduler : option Sched }.
Implicit Types c : CronDataSource.
Definition add_job c (job : Job) : RuntimeResult unit * CronDataSource :=
  if existsb (λ j, bool_decide (job_endpoint j = job_endpoint job)) (cs_jobs c)
  then (Err (DuplicateResource (job_name job)), c)
  else (Ok tt, MkCronSource (cs_id c) (cs_name c) (cs_jobs c ++ [job]) (cs_cancelled c) (cs_scheduler c)).
(** The token is replaced before the jobs are scheduled. *)
Definition cron_start (fuel : nat) (now : Z) (context_cancelled : bool) c : option (RuntimeResult unit * CronDataSource) :=
  if context_cancelled then Some (Err ContextCancelled, c)
  else match cs_scheduler c with
       | Some _ => Some (Err (ResourceAlreadyStarted (cs_name c)), c)
       | None =>
           let renewed sch := MkCronSource (cs_id c) (cs_name c) (cs_jobs c) false sch in
           match schedule_jobs fuel now (cs_jobs c) with
           | Some (Ok l) => Some (Ok tt, renewed (Some (scheduler_new l)))
           | Some (Err e) => Some (Err e, renewed None)
           | Some Panic => Some (Panic, renewed None)
           | None => None
           end
       end.
(** A stop call once it holds the scheduler's lock; [None] is pending.  The
    handle is kept until the scheduler has ended. *)
Definition cron_stop (join_error : string) (context_cancelled : bool) c : option (RuntimeResult unit) * CronDataSource :=
  let cancelled sch := MkCronSource (cs_id c) (cs_name c) (cs_jobs c) true sch in
  match cs_scheduler c with
  | None => (Some (Ok tt), cancelled None)
  | Some s =>
      match scheduler_pc s with
      | Ended r =>
          (Some (match r with Ok _ => Ok tt | Err e => Err e | Panic => Err (Transport join_error) end), cancelled None)
      | _ => (if context_cancelled then Some (Err ContextCancelled) else None, cancelled (Some s))
      end
  end.
(** [endpoint_config] *)
Definition cron_endpoint_config {Json} (r : RuntimeConfig Json) c (id : Z) : RuntimeResult CronEndpointConfig :=
  endpoint ← ok_or (endpoint_by_id r id) (InvalidConfiguration ("cron endpoint " +:+ pretty id +:+ " not found"));
  match endpoint with
  | CronEndpoint config =>
      if decide (ce_connector config = cs_id c) then Ok config
      else Err (InvalidConfiguration ("cron endpoint " +:+ debug (ce_name config) +:+ " belongs to connector " +:+
             pretty (ce_connector config) +:+ ", not " +:+ pretty (cs_id c)))
  | _ => Err (InvalidConfiguration ("endpoint " +:+ pretty id +:+ " is not cron"))
  end.
End scheduler.
Arguments CronDataSource : clear implicits.

(** * Lemmas *)
Section due_lemmas.
Context {Expr Tz : Type}.
Context (find_next_occurrence : Expr → Tz → Z → outcome string Z).
Context (is_time_matching : Expr → Tz → Z → outcome string bool).
Context (local_instants : Tz → Z → list Z) (in_range : Z → bool).
Notation Job := (CronJob Expr Tz).
Notation due := (due find_next_occurrence is_time_matching local_instants in_range).
Notation next := (next find_next_occurrence is_time_matching local_instants in_range).
Notation next_calendar := (next_calendar find_next_occurrence is_time_matching local_instants).
(** Croner searches after its argument. *)
Context (Hfind : ∀ e tz cursor candidate, find_next_occurrence e tz cursor = Ok candidate → cursor < candidate).

(** What is known of a job's next occurrence. *)
Definition wf_job (job : Job) (n : Z) : Prop :=
  match schedule job with Interval ms => 0 < ms ∧ n mod MILLI = 0 | Calendar _ => True end.

Lemma next_interval_aligned ms t : t mod MILLI = 0 → (t / MILLI + ms) * MILLI = t + ms * MILLI.
Proof. intros Ht. unfold MILLI in *. pose proof (Z.div_mod t 1000000 ltac:(lia)). lia. Qed.
Lemma next_calendar_later fuel e tz cursor n : next_calendar fuel e tz cursor = Some (Ok n) → cursor < n.
Proof.
  revert cursor. induction fuel as [|fuel IH]; intros cursor; cbn; [done|].
  destruct (next_turn _ _ _ e tz cursor) as [[candidate b]| |] eqn:Ht; [|done..].
  unfold next_turn in Ht. apply bind_Ok in Ht as (c' & Hc & (m & _ & [= -> _])%bind_Ok).
  assert (cursor < candidate).
  { apply (Hfind e tz). by destruct (find_next_occurrence e tz cursor); cbn in Hc; simplify_eq. }
  destruct b; [intros [= <-]; done|]. intros ?%IH. lia.
Qed.
Lemma next_later fuel job t n : wf_job job 0 → next fuel job t = Some (Ok n) → t < n ∧ wf_job job n.
Proof.
  unfold next, wf_job. destruct (schedule job) as [e|ms].
  - intros _ Hn. by apply next_calendar_later in Hn.
  - intros [Hms _]. unfold next_interval. destruct (in_range _); [|done]. intros [= <-]. unfold MILLI.
    pose proof (Z.div_mod t 1000000 ltac:(lia)). pose proof (Z.mod_pos_bound t 1000000 ltac:(lia)).
    rewrite Z.mod_mul by lia. lia.
Qed.
Lemma due_loop_spec successor fuel latest n now missed latest' n' missed' :
  (∀ t n, successor t = Some (Ok n) → t < n) →
  due_loop successor fuel latest n now missed = Some (Ok (latest', n', missed')) →
  latest < n → latest ≤ now →
  latest ≤ latest' ≤ now ∧ now < n' ∧ (missed' = true ↔ missed = true ∨ latest < latest').
Proof.
  intros Hs. revert latest n missed. induction fuel as [|fuel IH]; intros latest n missed; cbn; [done|].
  case_decide as Hle.
  - destruct (successor n) as [[n2| |]|] eqn:Hn; [|done..]. intros Hd Hlt Hnow.
    apply IH in Hd as (H1 & H2 & H3); [|by eapply Hs|done]. split_and!; [lia..|]. rewrite H3. split; [right; lia|by left].
  - intros [= <- <- <-] Hlt Hnow. split_and!; [lia..|]. split; [by left|intros [?|?]; [done|lia]].
Qed.
Lemma quot_skipped first now ms :
  first ≤ now → 0 < ms →
  let skipped := Z.quot (Z.quot (now - first) MILLI) ms in
  0 ≤ skipped ∧ first + skipped * ms * MILLI ≤ now ∧ now < first + (skipped + 1) * ms * MILLI.
Proof.
  intros Hle Hms. unfold MILLI. cbv zeta. rewrite (Z.quot_div_nonneg (now - first)) by lia.
  rewrite Z.quot_div_nonneg by (try apply Z.div_pos; lia). rewrite Z.div_div by lia.
  set (I := 1000000 * ms). assert (0 < I) by (unfold I; lia). pose proof (Z.div_mod (now - first) I ltac:(lia)).
  pose proof (Z.mod_pos_bound (now - first) I ltac:(lia)).
  set (q := (now - first) / I) in *. assert (0 ≤ q) by (apply Z.div_pos; lia).
  replace (q * ms * 1000000) with (I * q) by (unfold I; ring).
  replace ((q + 1) * ms * 1000000) with (I * q + I) by (unfold I; ring). lia.
Qed.
Lemma due_spec fuel job first now latest n missed :
  wf_job job first → first ≤ now → due fuel job first now = Some (Ok (latest, n, missed)) →
  first ≤ latest ≤ now ∧ now < n ∧ wf_job job n ∧ (missed = true ↔ first < latest).
Proof.
  intros Hwf Hle. unfold due. unfold wf_job in *. destruct (schedule job) as [e|ms].
  - unfold due_by_loop. destruct (next_calendar fuel e (timezone job) first) as [[n1| |]|] eqn:Hn; [|done..].
    intros Hd. apply due_loop_spec in Hd as (H1 & H2 & H3);
      [naive_solver|intros t n'; apply next_calendar_later|by apply next_calendar_later in Hn|done].
  - destruct Hwf as [Hms Hal]. pose proof (quot_skipped first now ms Hle Hms) as Hq. cbv zeta in Hq.
    set (skipped := Z.quot (Z.quot (now - first) MILLI) ms) in *. cbv zeta.
    assert (Hal' : (first + skipped * ms * MILLI) mod MILLI = 0) by (by rewrite Z.mod_add).
    unfold next_interval. rewrite next_interval_aligned by done. destruct (in_range _); cbn; [|done].
    intros [= <- <- <-]. rewrite bool_decide_eq_true. split_and!; try lia.
    + unfold MILLI. nia.
    + rewrite Z.mod_add by done. done.
    + unfold MILLI in *. split; intros; nia.
Qed.

(** Catching up one occurrence at a time. *)
Lemma due_loop_interval ms first now fuel k :
  0 < ms → first mod MILLI = 0 → first ≤ now →
  (∀ t, first ≤ t ≤ now + ms * MILLI → in_range t = true) →
  let skipped := Z.quot (Z.quot (now - first) MILLI) ms in
  0 ≤ k ≤ skipped → skipped - k < Z.of_nat fuel →
  due_loop (λ t, Some (next_interval in_range ms t)) fuel (first + k * ms * MILLI) (first + (k + 1) * ms * MILLI) now
    (bool_decide (0 < k)) =
  Some (Ok (first + skipped * ms * MILLI, first + (skipped + 1) * ms * MILLI, bool_decide (0 < skipped))).
Proof.
  intros Hms Hal Hle Hr. cbv zeta. pose proof (quot_skipped first now ms Hle Hms) as Hq. cbv zeta in Hq.
  set (skipped := Z.quot (Z.quot (now - first) MILLI) ms) in *.
  revert k. induction fuel as [|fuel IH]; intros k Hk Hf; [lia|]. cbn [due_loop].
  assert (Hpos : 0 < ms * MILLI) by (unfold MILLI; lia).
  destruct (decide (k = skipped)) as [->|Hne].
  - rewrite decide_False; [done|]. lia.
  - assert (Hk1 : first + (k + 1) * ms * MILLI ≤ now) by nia.
    rewrite decide_True by done. unfold next_interval.
    rewrite next_interval_aligned by (by rewrite Z.mod_add). rewrite Hr by nia.
    replace (first + (k + 1) * ms * MILLI + ms * MILLI) with (first + (k + 1 + 1) * ms * MILLI) by ring.
    specialize (IH (k + 1) ltac:(lia) ltac:(lia)). rewrite bool_decide_true in IH by lia. exact IH.
Qed.
End due_lemmas.

Section scheduler_lemmas.
Context {Expr Tz : Type}.
Context (find_next_occurrence : Expr → Tz → Z → outcome string Z).
Context (is_time_matching : Expr → Tz → Z → outcome string bool).
Context (local_instants : Tz → Z → list Z) (in_range : Z → bool).
Notation Job := (CronJob Expr Tz).
Notation Sched := (Scheduler Expr Tz).
Notation due := (due find_next_occurrence is_time_matching local_instants in_range).
Notation tick_job := (tick_job find_next_occurrence is_time_matching local_instants in_range).
Notation tick_jobs := (tick_jobs find_next_occurrence is_time_matching local_instants in_range).
Notation tick := (tick find_next_occurrence is_time_matching local_instants in_range).
Notation step := (scheduler_step find_next_occurrence is_time_matching local_instants in_range).
Context (Hfind : ∀ e tz cursor candidate, find_next_occurrence e tz cursor = Ok candidate → cursor < candidate).
Implicit Types s : Sched.

Definition fired_of s (idx : nat) : list Z := snd <$> filter (λ f, f.1 = idx) (fired s).
Arguments fired_of : simpl never.
Definition skips (job : Job) : Prop := overlap_policy job = Api.OverlapSkip.
Record cron_inv s : Prop := {
  c_wf : ∀ idx job n, scheduled s !! idx = Some (job, n) → wf_job job n;
  c_fired : ∀ idx job n, scheduled s !! idx = Some (job, n) →
    StronglySorted Z.lt (fired_of s idx) ∧ Forall (λ t, t < n) (fired_of s idx);
  c_fresh : ∀ tid t, tasks s !! tid = Some t → tid < next_task_id s;
  c_guard : ∀ tid t, tasks s !! tid = Some t → t_guard t = true → t_job t ∈ running s;
  c_once : ∀ tid tid' t t', tasks s !! tid = Some t → tasks s !! tid' = Some t' → t_guard t = true →
    t_guard t' = true → t_job t = t_job t' → tid = tid';
  c_skip : ∀ tid t job n, tasks s !! tid = Some t → scheduled s !! t_job t = Some (job, n) → skips job → t_guard t = true;
  c_running : ∀ idx, idx ∈ running s → ∃ tid t, tasks s !! tid = Some t ∧ t_guard t = true ∧ t_job t = idx }.

Lemma fired_of_spawn s idx a g i :
  fired_of (spawn s idx a g) i = fired_of s i ++ if decide (idx = i) then [a] else [].
Proof. unfold fired_of. cbn. rewrite filter_app, fmap_app. f_equal. rewrite filter_cons. cbn. by case_decide. Qed.
(** A due job is moved past [now] before it fires. *)
Lemma inv_set_next s idx job n n' :
  scheduled s !! idx = Some (job, n) → n ≤ n' → wf_job job n' → cron_inv s → cron_inv (set_next s idx job n').
Proof.
  intros Hidx Hle Hwf [H1 H2 H3 H4 H5 H6 H7]. split; cbn; try done.
  - intros i j m. intros [(<- & [= <- <-] & _)|[_ ?]]%list_lookup_insert_Some; [done|eauto].
  - intros i j m. intros [(<- & [= <- <-] & _)|[_ ?]]%list_lookup_insert_Some; [|by eapply H2].
    destruct (H2 _ _ _ Hidx) as [? Hf]. split; [done|]. eapply Forall_impl; [exact Hf|]. cbn. lia.
  - intros tid t j m Ht. intros [(Ei & [= <- <-] & _)|[_ ?]]%list_lookup_insert_Some Hsk; [|by eapply H6].
    eapply (H6 tid t); [done|by rewrite <-Ei|done].
Qed.
Lemma inv_spawn s idx job n a g :
  scheduled s !! idx = Some (job, n) → a < n → Forall (λ t, t < a) (fired_of s idx) →
  (g = true → idx ∉ running s) → (skips job → g = true) → cron_inv s → cron_inv (spawn s idx a g).
Proof.
  intros Hidx Ha Hlast Hg Hsk [H1 H2 H3 H4 H5 H6 H7]. split; cbn.
  - done.
  - intros i j m Hi. rewrite fired_of_spawn. destruct (H2 _ _ _ Hi) as [Hs Hf]. case_decide; [subst i; simplify_eq|by rewrite app_nil_r].
    split; [|apply Forall_app; by repeat constructor].
    revert Hs Hlast. clear. induction 1 as [|x l Hl IH Hx]; intros Hlast; cbn; [repeat constructor|].
    apply Forall_cons in Hlast as [Hxa Hla]. constructor; [auto|]. apply Forall_app. by repeat constructor.
  - intros tid t. rewrite lookup_insert_Some. intros [[<- <-]|[_ Ht%H3]]; lia.
  - intros tid t. rewrite lookup_insert_Some. intros [[<- <-]|[_ Ht]] Htg; cbn in *; [subst g; set_solver|].
    apply H4 in Ht; [|done]. destruct g; set_solver.
  - intros tid tid' t t'. rewrite !lookup_insert_Some. intros [[<- <-]|[Hn Ht]] [[<- <-]|[Hn' Ht']] Htg Htg'; cbn in *.
    + done.
    + intros ->. destruct (Hg Htg). by eapply H4.
    + intros <-. destruct (Hg Htg'). by eapply H4.
    + by eapply H5.
  - intros tid t j m. rewrite lookup_insert_Some. intros [[<- <-]|[_ Ht]]; cbn; [intros; simplify_eq; auto|by eapply H6].
  - assert (Hold : ∀ i, i ∈ running s → ∃ tid t, <[next_task_id s := MkCronTask idx a g]> (tasks s) !! tid = Some t ∧
      t_guard t = true ∧ t_job t = i).
    { intros i (tid & t & Ht & ?)%H7. exists tid, t. rewrite lookup_insert_ne; [done|]. apply H3 in Ht. lia. }
    intros i. destruct g; [|apply Hold]. rewrite elem_of_union, elem_of_singleton. intros [->|Hi]; [|by apply Hold].
    eexists _, _. split; [apply lookup_insert_eq|done].
Qed.
Lemma inv_tick_job fuel cancelled now s idx s' r :
  tick_job fuel cancelled now s idx = Some (s', r) → cron_inv s → cron_inv s' ∧ length (scheduled s') = length (scheduled s) ∧
  (r = Ok tt → ∀ job n, scheduled s' !! idx = Some (job, n) → now < n) ∧
  ∀ i, i ≠ idx → scheduled s' !! i = scheduled s !! i.
Proof.
  intros Ht Hi. unfold tick_job in Ht. destruct (scheduled s !! idx) as [[job n]|] eqn:Hidx; cycle 1.
  { simplify_eq. split_and!; try done. intros _ job n. by rewrite Hidx. }
  case_decide as Hlt; [simplify_eq; split_and!; try done; intros _ job' n'; by rewrite Hidx; intros [= <- <-]|].
  destruct (due fuel job n now) as [[[[latest n'] missed]|e|]|] eqn:Hd; simplify_eq; [|by split_and!..].
  pose proof (c_wf _ Hi _ _ _ Hidx) as Hwf. apply due_spec in Hd as (Hl & Hn & Hwf' & _); [|done|done|lia].
  assert (Hs : cron_inv (set_next s idx job n')) by (apply (inv_set_next s idx job n n'); [done|lia|done|done]).
  assert (Hlen : (idx < length (scheduled s))%nat) by by eapply lookup_lt_Some.
  assert (Hdis : cron_inv (dispatch cancelled (set_next s idx job n') idx job latest)).
  { assert (Hsp : ∀ g, (g = true → idx ∉ running s) → (skips job → g = true) →
      cron_inv (spawn (set_next s idx job n') idx latest g)).
    { intros g Hg Hsk. eapply (inv_spawn _ _ job n'); [by apply list_lookup_insert_eq|lia| |done..].
      destruct (c_fired _ Hi _ _ _ Hidx) as [_ Hf]. eapply Forall_impl; [exact Hf|]. cbn. lia. }
    unfold dispatch. destruct cancelled; [done|]. destruct (overlap_policy job) eqn:Ho.
    - apply Hsp; [done|]. unfold skips. congruence.
    - case_decide; [done|]. by apply Hsp. }
  assert (Hsch : scheduled (if fires missed job then dispatch cancelled (set_next s idx job n') idx job latest
    else set_next s idx job n') = <[idx := (job, n')]> (scheduled s)).
  { unfold dispatch. by repeat case_match. }
  split_and!; [by case_match|by rewrite Hsch, length_insert|..].
  - intros _ j m. rewrite Hsch, list_lookup_insert_eq by done. by intros [= <- <-].
  - intros i Hne. rewrite Hsch. by apply list_lookup_insert_ne.
Qed.
Lemma inv_tick_jobs fuel cancelled now s l s' r :
  tick_jobs fuel cancelled now s l = Some (s', r) → NoDup l → cron_inv s →
  cron_inv s' ∧ length (scheduled s') = length (scheduled s) ∧ (∀ i, i ∉ l → scheduled s' !! i = scheduled s !! i) ∧
  (r = Ok tt → ∀ idx job n, idx ∈ l → scheduled s' !! idx = Some (job, n) → now < n).
Proof.
  revert s. induction l as [|idx l IH]; intros s Ht Hnd Hi; cbn in Ht.
  { simplify_eq. split_and!; try done. intros _ ? ? ? Hin. by apply not_elem_of_nil in Hin. }
  apply NoDup_cons in Hnd as [Hnin Hnd].
  destruct (tick_job fuel cancelled now s idx) as [[s1 r1]|] eqn:H1; [|done].
  destruct (inv_tick_job _ _ _ _ _ _ _ H1 Hi) as (Hi1 & Hlen & Hnow & Hfr).
  destruct r1 as [[]|e|]; [|simplify_eq; split_and!; try done; intros i ?; apply Hfr; set_solver..].
  destruct (IH s1 Ht Hnd Hi1) as (Hi' & Hlen' & Hfr' & Hnow'). split_and!; [done|congruence|..].
  - intros i Hni. rewrite Hfr' by set_solver. apply Hfr. set_solver.
  - intros Hr i job n [->|Hin]%elem_of_cons; [|by apply Hnow']. rewrite Hfr' by done. by apply Hnow.
Qed.
Lemma inv_tick fuel cancelled now s s' r :
  tick fuel cancelled now s = Some (s', r) → cron_inv s →
  cron_inv s' ∧ (r = Ok tt → Forall (λ j, now < j.2) (scheduled s')).
Proof.
  intros Ht Hi. destruct (inv_tick_jobs _ _ _ _ _ _ _ Ht (NoDup_seq _ _) Hi) as (Hi' & Hlen & _ & Hnow).
  split; [done|]. intros Hr. apply Forall_lookup. intros i [job n] Hj. eapply (Hnow Hr i); [|done].
  apply elem_of_seq. apply lookup_lt_Some in Hj. lia.
Qed.
Lemma inv_pc s pc : cron_inv s → cron_inv (set_pc s pc).
Proof. by intros []. Qed.
Lemma inv_abort s r : cron_inv s → cron_inv (abort s r).
Proof.
  intros [H1 H2 H3 H4 H5 H6 H7]. split; cbn; try done; try (intros *; by rewrite lookup_empty).
  intros idx. rewrite elem_of_difference, elem_of_list_to_set. intros [(tid & t & Ht & Hg & Hj)%H7 Hn]. destruct Hn.
  apply list_elem_of_fmap. exists t. split; [done|]. apply list_elem_of_filter. split; [done|].
  apply list_elem_of_fmap. exists (tid, t). split; [done|]. by apply elem_of_map_to_list.
Qed.
Lemma inv_task s tid s' : task_ends s tid = Some s' → cron_inv s → cron_inv s'.
Proof.
  unfold task_ends. destruct (tasks s !! tid) as [t|] eqn:Ht; [|done]. intros [= <-] [H1 H2 H3 H4 H5 H6 H7].
  split; cbn; try done.
  - intros i x. rewrite lookup_delete_Some. intros [_ ?]. eauto.
  - intros i x. rewrite lookup_delete_Some. intros [Hne Hx] Hg. pose proof (H4 _ _ Hx Hg).
    destruct (t_guard t) eqn:Htg; [|done]. apply elem_of_difference. split; [done|].
    intros Hj%elem_of_singleton. destruct Hne. by eapply H5.
  - intros i i' x x'. rewrite !lookup_delete_Some. intros [_ ?] [_ ?]. by eapply H5.
  - intros i x j m. rewrite lookup_delete_Some. intros [_ ?]. by eapply H6.
  - intros idx Hidx. assert (Hr : idx ∈ running s) by (destruct (t_guard t); set_solver).
    destruct (H7 idx Hr) as (i & x & Hx & Hg & Hj). exists i, x. split; [|done].
    rewrite lookup_delete_ne; [done|]. intros ->. rewrite Ht in Hx. injection Hx as <-. rewrite Hg in Hidx. set_solver.
Qed.
Lemma inv_cron_step s s' : step s s' → cron_inv s → cron_inv s'.
Proof.
  intros Hs Hi. destruct Hs as [fuel c now s s' r _ Ht|s tid s' Ht|s _|s _ _]; [|by eapply inv_task|by apply inv_pc..].
  destruct (inv_tick _ _ _ _ _ _ Ht Hi) as [Hi' _]. destruct r; [done|by apply inv_abort..].
Qed.
Lemma inv_cron_new l : (∀ job n, (job, n) ∈ l → wf_job job n) → cron_inv (scheduler_new l).
Proof.
  intros Hl. split; cbn; try (intros *; by rewrite lookup_empty).
  - intros idx job n Hj. eapply Hl, list_elem_of_lookup_2, Hj.
  - intros idx job n _. split; constructor.
  - intros idx. by rewrite elem_of_empty.
Qed.
Lemma inv_cron_reachable l s :
  (∀ job n, (job, n) ∈ l → wf_job job n) → rtc step (scheduler_new l) s → cron_inv s.
Proof.
  intros Hl Hr. refine (rtc_ind_r cron_inv _ _ _ s Hr); [by apply inv_cron_new|].
  intros x y _ Hxy. by apply inv_cron_step.
Qed.
(** The schedule a source starts with. *)
Lemma schedule_jobs_wf fuel now jobs l :
  (∀ job, job ∈ jobs → wf_job job 0) →
  schedule_jobs find_next_occurrence is_time_matching local_instants in_range fuel now jobs = Some (Ok l) →
  l.*1 = jobs ∧ ∀ job n, (job, n) ∈ l → wf_job job n ∧ now < n.
Proof.
  revert l. induction jobs as [|job jobs IH]; intros l Hw; cbn.
  - intros [= <-]. split; [done|]. intros ? ? Hin. by apply not_elem_of_nil in Hin.
  - destruct (next _ _ _ _ fuel job now) as [[n| |]|] eqn:Hn; [|done..].
    destruct (schedule_jobs _ _ _ _ fuel now jobs) as [[l'| |]|]; [|done..]. intros [= <-].
    destruct (IH l') as [<- Hl]; [set_solver|done|]. split; [done|]. intros j m [[= <- <-]|Hin]%elem_of_cons; [|auto].
    apply next_later in Hn as [? ?]; [done|done|apply Hw; by left].
Qed.
End scheduler_lemmas.

(** ** The interval grammar *)
Lemma strip_prefix_Some p s r : strip_prefix p s = Some r ↔ s = p ++ r.
Proof.
  revert s. induction p as [|c p IH]; intros s; cbn; [naive_solver|].
  destruct s as [|d s]; cbn; [naive_solver|]. case_decide as Hc; [subst; rewrite IH; naive_solver|naive_solver].
Qed.
Lemma strip_suffix_Some p s r : strip_suffix p s = Some r ↔ s = r ++ p.
Proof.
  unfold strip_suffix. rewrite fmap_Some. split.
  - intros (x & Hx%strip_prefix_Some & ->). apply (f_equal reverse) in Hx. by rewrite reverse_involutive, reverse_app, reverse_involutive in Hx.
  - intros ->. exists (reverse r). rewrite strip_prefix_Some, reverse_app, reverse_involutive. done.
Qed.

Definition digit_value (c : ascii) : Z := ascii_Z c - 48.
Definition value (ds : list ascii) : Z := foldl (λ acc c, 10 * acc + digit_value c) 0 ds.
Definition is_digit (c : ascii) : Prop := is_Some (digit c).
(** A decimal numeral without leading zero. *)
Definition canonical (ds : list ascii) : Prop := Forall is_digit ds ∧ head ds ≠ Some "0"%char.

Lemma digit_Some c d : digit c = Some d → d = digit_value c ∧ 0 ≤ d ≤ 9.
Proof. unfold digit, digit_value. case_decide; [|done]. intros [= <-]. lia. Qed.
Lemma value_snoc ds c : value (ds ++ [c]) = 10 * value ds + digit_value c.
Proof. unfold value. by rewrite foldl_app. Qed.
Lemma is_digit_range c : is_digit c → 0 ≤ digit_value c ≤ 9.
Proof. intros [d [-> ?]%digit_Some]. done. Qed.
Lemma value_nonneg ds : Forall is_digit ds → 0 ≤ value ds.
Proof.
  induction ds as [|c ds IH] using rev_ind; [done|]. intros [Hd Hc]%Forall_app. apply Forall_cons in Hc as [Hc _].
  rewrite value_snoc. apply is_digit_range in Hc. specialize (IH Hd). lia.
Qed.
Lemma canonical_prefix ds c : canonical (ds ++ [c]) → canonical ds.
Proof. intros [[Hd _]%Forall_app Hh]. split; [done|]. by destruct ds. Qed.
Lemma ascii_Z_inj c d : ascii_Z c = ascii_Z d → c = d.
Proof. unfold ascii_Z. intros H. rewrite <-(ascii_N_embedding c), <-(ascii_N_embedding d). f_equal. lia. Qed.
(** A numeral with [k] digits is at least [10 ^ (k - 1)]. *)
Lemma canonical_value ds : canonical ds → ds ≠ [] → 10 ^ (Z.of_nat (length ds) - 1) ≤ value ds.
Proof.
  induction ds as [|c ds IH] using rev_ind; [done|]. intros Hc _. pose proof (canonical_prefix _ _ Hc) as Hp.
  assert (Hd : is_digit c) by (destruct Hc as [[_ Hs]%Forall_app _]; by apply Forall_cons in Hs as [? _]).
  pose proof (is_digit_range _ Hd). rewrite value_snoc, length_app. cbn [length].
  destruct (decide (ds = [])) as [->|Hne].
  - cbn. destruct (decide (digit_value c = 0)) as [H0|]; [|lia]. destruct Hc as [_ []]. cbn. f_equal. apply ascii_Z_inj.
    unfold digit_value in H0. change (ascii_Z "0") with 48. lia.
  - specialize (IH Hp Hne). replace (Z.of_nat (length ds + 1) - 1) with (Z.of_nat (length ds) - 1 + 1) by lia.
    rewrite Z.pow_add_r; [lia| |lia]. destruct ds; [done|]. cbn [length]. lia.
Qed.
Lemma parse_digits_value ds acc n :
  0 ≤ acc → parse_digits acc ds = Some n → n = foldl (λ acc c, 10 * acc + digit_value c) acc ds ∧ Forall is_digit ds.
Proof.
  revert acc. induction ds as [|c ds IH]; intros acc Hacc; cbn; [by intros [= ->]|].
  destruct (digit c) as [d|] eqn:Hd; [|done]. cbn. case_decide; [|done]. pose proof (digit_Some _ _ Hd) as [-> ?].
  intros [-> Hf]%IH; [|lia]. split; [done|]. constructor; [by exists (digit_value c)|done].
Qed.
Lemma foldl_value_le ds acc : 0 ≤ acc → Forall is_digit ds → acc ≤ foldl (λ acc c, 10 * acc + digit_value c) acc ds.
Proof.
  revert acc. induction ds as [|c ds IH]; intros acc Hacc Hd; cbn; [lia|]. apply Forall_cons in Hd as [Hc%is_digit_range Hd].
  etrans; [|apply IH; [lia|done]]. lia.
Qed.
Lemma parse_digits_total ds acc :
  0 ≤ acc → Forall is_digit ds → foldl (λ acc c, 10 * acc + digit_value c) acc ds ≤ u64_max →
  parse_digits acc ds = Some (foldl (λ acc c, 10 * acc + digit_value c) acc ds).
Proof.
  revert acc. induction ds as [|c ds IH]; intros acc Hacc Hds Hle; cbn; [done|]. cbn in Hle.
  apply Forall_cons in Hds as [Hc Hd]. pose proof (is_digit_range _ Hc).
  destruct Hc as [d Hc]. rewrite Hc. cbn. apply digit_Some in Hc as [-> _].
  rewrite decide_True; [apply IH; [lia|done|done]|]. etrans; [|exact Hle]. apply foldl_value_le; [lia|done].
Qed.
(** Printing is the inverse of reading. *)
Lemma pretty_go_value ds s : canonical ds → pretty_N_go (Z.to_N (value ds)) s = String.string_of_list_ascii ds +:+ s.
Proof.
  revert s. induction ds as [|c ds IH] using rev_ind; intros s Hc; [by rewrite pretty_N_go_0|].
  assert (Hd : is_digit c) by (destruct Hc as [[_ Hs]%Forall_app _]; by apply Forall_cons in Hs as [? _]).
  pose proof (is_digit_range _ Hd). pose proof (canonical_prefix _ _ Hc) as Hp. pose proof (value_nonneg _ (proj1 Hp)).
  assert (Hpos : 0 < value (ds ++ [c])).
  { eapply Z.lt_le_trans; [|apply (canonical_value _ Hc); by destruct ds]. apply Z.pow_pos_nonneg; [lia|].
    rewrite length_app. cbn. lia. }
  rewrite pretty_N_go_step by lia. rewrite value_snoc in *.
  assert (Hdiv : (Z.to_N (10 * value ds + digit_value c) `div` 10 = Z.to_N (value ds))%N).
  { rewrite <-(Z2N.inj_div _ 10) by lia. f_equal. symmetry. apply (Z.div_unique _ _ _ (digit_value c)); lia. }
  assert (Hmod : (Z.to_N (10 * value ds + digit_value c) `mod` 10 = Z.to_N (digit_value c))%N).
  { rewrite <-(Z2N.inj_mod _ 10) by lia. f_equal. symmetry. apply (Z.mod_unique _ _ (value ds)); lia. }
  rewrite Hdiv, Hmod, IH by done.
  assert (Hchar : pretty_N_char (Z.to_N (digit_value c)) = c).
  { destruct Hd as [d Hd]. revert Hd. clear. destruct c as [[] [] [] [] [] [] [] []]; vm_compute; done. }
  rewrite Hchar. apply chars_inj. rewrite !chars_app, !String.list_ascii_of_string_of_list_ascii, <-app_assoc. done.
Qed.
Lemma canonical_exists n : 0 < n → ∃ ds, canonical ds ∧ value ds = n.
Proof.
  remember (Z.to_nat n) as k eqn:Hk. revert n Hk. induction (lt_wf k) as [k _ IH]. intros n -> Hn.
  assert (Hdig : ∀ d, 0 ≤ d ≤ 9 → ∃ c, is_digit c ∧ digit_value c = d ∧ (c = "0"%char → d = 0)).
  { intros d Hd. exists (ascii_of_N (Z.to_N (48 + d))).
    assert (Hz : ascii_Z (ascii_of_N (Z.to_N (48 + d))) = 48 + d) by (unfold ascii_Z; rewrite N_ascii_embedding; lia).
    split; [|split].
    - exists d. unfold digit. rewrite Hz, decide_True by lia. f_equal. lia.
    - unfold digit_value. lia.
    - intros Hc. rewrite Hc in Hz. change (ascii_Z "0") with 48 in Hz. lia. }
  destruct (Hdig (n mod 10)) as (c & Hc & Hv & H0); [pose proof (Z.mod_pos_bound n 10 ltac:(lia)); lia|].
  pose proof (Z.div_mod n 10 ltac:(lia)) as Hdm. destruct (decide (n < 10)) as [Hlt|Hge].
  - exists [c]. rewrite (Z.mod_small n 10) in Hv, H0 by lia. split; [split; [by repeat constructor|]|].
    + cbn. intros [= ->]. specialize (H0 eq_refl). lia.
    + change (value [c]) with (10 * 0 + digit_value c). lia.
  - assert (Hq : 0 < n / 10) by (apply Z.div_str_pos; lia).
    destruct (IH (Z.to_nat (n / 10)) ltac:(apply Z2Nat.inj_lt; [lia|lia|apply Z.div_lt; lia]) (n / 10) eq_refl Hq)
      as (ds & [Hds Hh] & Hval).
    exists (ds ++ [c]). rewrite value_snoc, Hval, Hv. split; [|lia]. split; [apply Forall_app; by repeat constructor|].
    destruct ds; [cbn in Hval; unfold value in Hval; cbn in Hval; lia|done].
Qed.
Lemma pretty_canonical n ds : canonical ds → value ds = n → 0 < n → chars (pretty n) = ds.
Proof.
  intros Hc Hv Hn. destruct n as [|p|p]; [lia| |lia].
  change (pretty (Z.pos p)) with (pretty (N.pos p)). unfold pretty, pretty_N. rewrite decide_False by done.
  replace (N.pos p) with (Z.to_N (value ds)) by by rewrite Hv.
  rewrite pretty_go_value by done. rewrite chars_app, String.list_ascii_of_string_of_list_ascii. apply app_nil_r.
Qed.
Lemma pretty_no_newline (n : Z) : "010"%char ∉ chars (pretty n).
Proof.
  assert (Hpos : ∀ p, "010"%char ∉ chars (pretty (Z.pos p))).
  { intros p. destruct (canonical_exists (Z.pos p)) as (ds & Hc & Hv); [lia|].
    rewrite (pretty_canonical (Z.pos p) ds Hc Hv) by lia. intros Hin. destruct Hc as [Hd _].
    eapply Forall_forall in Hd; [|exact Hin]. by destruct Hd as [d Hd]. }
  destruct n as [|p|p]; [|apply Hpos|].
  - vm_compute. intros Hin. by apply list_elem_of_singleton in Hin.
  - change (pretty (Z.neg p)) with ("-" +:+ pretty (Z.pos p)). rewrite chars_app. intros [Hin|Hin]%elem_of_app; [|by apply (Hpos p)].
    by apply list_elem_of_singleton in Hin.
Qed.
(** The text up to the first, and after the last, separator. *)
Lemma app_first_inj {A} (c : A) a b x y : c ∉ a → c ∉ b → a ++ c :: x = b ++ c :: y → a = b ∧ x = y.
Proof.
  revert b. induction a as [|h a IH]; intros [|h' b] Ha Hb; cbn; intros Heq; simplify_eq; [done|set_solver..|].
  destruct (IH b) as [-> ->]; [set_solver..|done|done].
Qed.
Lemma app_last_inj {A} (c : A) a b x y : c ∉ x → c ∉ y → a ++ c :: x = b ++ c :: y → a = b ∧ x = y.
Proof.
  intros Hx Hy Heq. apply (f_equal reverse) in Heq. rewrite !reverse_app, !reverse_cons, <-!app_assoc in Heq. cbn in Heq.
  apply app_first_inj in Heq as [H1 H2]; [|by rewrite elem_of_reverse..].
  split; by apply (inj reverse).
Qed.

(** * Properties *)

(** C33: intervals catch up in constant time exactly as the calendar loop would:
    the last due occurrence, the next one and the missed flag computed by one
    division are those of stepping through every occurrence up to [now]. *)
Theorem due_interval_is_loop {Expr Tz} find_next is_matching local_instants in_range (job : CronJob Expr Tz) ms first now fuel :
  schedule job = Interval ms → 0 < ms → first mod MILLI = 0 → first ≤ now →
  (∀ t, first ≤ t ≤ now + ms * MILLI → in_range t = true) →
  Z.quot (Z.quot (now - first) MILLI) ms < Z.of_nat fuel →
  due find_next is_matching local_instants in_range fuel job first now =
    due_by_loop (next find_next is_matching local_instants in_range fuel job) fuel first now ∧
  ∃ latest n missed, due find_next is_matching local_instants in_range fuel job first now = Some (Ok (latest, n, missed)) ∧
    latest ≤ now < n.
Proof.
  intros Hsch Hms Hal Hle Hr Hf. pose proof (quot_skipped first now ms Hle Hms) as Hq. cbv zeta in Hq.
  assert (Hpos : 0 < ms * MILLI) by (unfold MILLI; lia).
  pose proof (due_loop_interval in_range ms first now fuel 0 Hms Hal Hle Hr) as Hloop. cbv zeta in Hloop.
  set (skipped := Z.quot (Z.quot (now - first) MILLI) ms) in *.
  replace (first + 0 * ms * MILLI) with first in Hloop by ring.
  replace (first + (0 + 1) * ms * MILLI) with (first + ms * MILLI) in Hloop by ring. specialize (Hloop ltac:(lia) ltac:(lia)).
  destruct job as [je jn sch tz jo jm]. cbn in Hsch. subst sch.
  assert (Hdue : due find_next is_matching local_instants in_range fuel (MkCronJob je jn (Interval ms) tz jo jm) first now =
    Some (Ok (first + skipped * ms * MILLI, first + (skipped + 1) * ms * MILLI, bool_decide (0 < skipped)))).
  { unfold due. cbn [schedule]. cbv zeta. fold skipped. unfold next_interval.
    rewrite next_interval_aligned by (by rewrite Z.mod_add).
    replace (first + skipped * ms * MILLI + ms * MILLI) with (first + (skipped + 1) * ms * MILLI) by ring.
    by rewrite Hr by nia. }
  rewrite Hdue. split; [|eexists _, _, _; split; [done|lia]].
  change (next find_next is_matching local_instants in_range fuel (MkCronJob je jn (Interval ms) tz jo jm))
    with (λ t, Some (next_interval in_range ms t)).
  assert (Hn : next_interval in_range ms first = Ok (first + ms * MILLI)).
  { unfold next_interval. rewrite next_interval_aligned by done. by rewrite Hr by lia. }
  unfold due_by_loop. rewrite Hn. symmetry. exact Hloop.
Qed.

(** a schedule fires each occurrence at most once, in order.  Whatever the
    ticks and the task completions, the occurrences accepted for a job are
    strictly increasing and before its next one, a successful tick leaves every
    job scheduled after it, a job that skips overlaps has at most one task, and
    its flag is set only while that task is alive. *)
Theorem schedule_fires_once {Expr Tz} find_next is_matching local_instants in_range (l : list (CronJob Expr Tz * Z)) s :
  (∀ e tz cursor candidate, find_next e tz cursor = Ok candidate → cursor < candidate) →
  (∀ job n, (job, n) ∈ l → wf_job job n) →
  rtc (scheduler_step find_next is_matching local_instants in_range) (scheduler_new l) s →
  (∀ idx job n, scheduled s !! idx = Some (job, n) →
    StronglySorted Z.lt (fired_of s idx) ∧ Forall (λ t, t < n) (fired_of s idx)) ∧
  (∀ fuel cancelled now s', tick find_next is_matching local_instants in_range fuel cancelled now s = Some (s', Ok tt) →
    Forall (λ j, now < j.2) (scheduled s')) ∧
  (∀ idx job n tid tid' t t', scheduled s !! idx = Some (job, n) → overlap_policy job = Api.OverlapSkip →
    tasks s !! tid = Some t → tasks s !! tid' = Some t' → t_job t = idx → t_job t' = idx → tid = tid') ∧
  (∀ idx, idx ∈ running s → ∃ tid t, tasks s !! tid = Some t ∧ t_job t = idx).
Proof.
  intros Hfind Hl Hr. pose proof (inv_cron_reachable _ _ _ _ Hfind l s Hl Hr) as Hi. split_and!.
  - apply (c_fired _ Hi).
  - intros fuel c now s' Ht. by eapply inv_tick.
  - intros idx job n tid tid' t t' Hs Ho Ht Ht' <- Hj.
    eapply (c_once _ Hi); [done|done| | |done].
    + by eapply (c_skip _ Hi).
    + eapply (c_skip _ Hi); [done|by rewrite Hj|done].
  - intros idx (tid & t & Ht & _ & Hj)%(c_running _ Hi). eauto.
Qed.

(** the interval grammar.  A schedule is an interval of [n] milliseconds
    exactly when its text is [@every <n>ms] with [n] written in decimal without
    leading zeros, between 10 and 86400000. *)
Theorem interval_grammar {Expr} (cron_from_str : string → outcome string Expr) expression n :
  parse cron_from_str expression = Ok (Interval n) ↔
  10 ≤ n ≤ 86400000 ∧ expression = "@every " +:+ pretty n +:+ "ms".
Proof.
  unfold parse. cbv zeta. split.
  - case_decide as Hp; [by destruct (cron_from_str expression)|]. intros H.
    apply bind_Ok in H as (digits & Hd%ok_or_Ok & H). case_decide as Hbad; [done|].
    apply bind_Ok in H as (ms & Hms%ok_or_Ok & H). case_decide as Hrange; [|done]. injection H as ->.
    split; [done|]. apply bind_Some in Hd as (rest & Hrest%strip_prefix_Some & Hsuf%strip_suffix_Some).
    apply parse_digits_value in Hms as [Hv Hds]; [|done]. fold (value digits) in Hv.
    apply chars_inj. rewrite !chars_app, (pretty_canonical n digits); [by rewrite Hrest, Hsuf|split; [done|tauto]|done|lia].
  - intros [Hn ->]. destruct (canonical_exists n) as (ds & Hc & Hv); [lia|].
    assert (Hchars : chars ("@every " +:+ pretty n +:+ "ms") = chars "@every " ++ ds ++ chars "ms").
    { rewrite !chars_app. by rewrite (pretty_canonical n ds Hc Hv) by lia. }
    rewrite Hchars. case_decide as Hp; [done|]. cbn [strip_prefix mbind option_bind].
    replace (strip_prefix (chars "@every ") (chars "@every " ++ ds ++ chars "ms")) with (Some (ds ++ chars "ms"))
      by (symmetry; by apply strip_prefix_Some).
    cbn [mbind option_bind]. replace (strip_suffix (chars "ms") (ds ++ chars "ms")) with (Some ds)
      by (symmetry; by apply strip_suffix_Some). cbn [ok_or mbind outcome_bind].
    assert (Hlen : (length ds ≤ 8)%nat).
    { destruct (decide (8 < length ds)%nat) as [Hl|]; [|lia]. exfalso.
      assert (Hlow : 10 ^ (Z.of_nat (length ds) - 1) ≤ n) by (rewrite <-Hv; apply canonical_value; [done|intros ->; cbn in Hl; lia]).
      assert (10 ^ 8 ≤ 10 ^ (Z.of_nat (length ds) - 1)) by (apply Z.pow_le_mono_r; lia). lia. }
    case_decide as Hbad.
    + exfalso. destruct Hc as [Hd Hh]. destruct Hbad as [->|[?|[?|Hf]]]; [cbn in Hv; unfold value in Hv; cbn in Hv; lia|lia|done|].
      assert (Ht : forallb (λ c, bool_decide (is_Some (digit c))) ds = true); [|congruence].
      apply forallb_forall. intros c Hcin%list_elem_of_In. apply bool_decide_eq_true. by eapply Forall_forall in Hd.
    + rewrite (parse_digits_total ds 0); [|done|apply Hc|fold (value ds); unfold u64_max; lia].
      fold (value ds). rewrite Hv. cbn. by rewrite decide_True.
Qed.

(** two triggers have the same identity text only for the same endpoint,
    schedule and instant, even when a schedule name contains line breaks. *)
Theorem trigger_identity_injective (to_rfc3339 : Z → string) e e' n n' t t' :
  (∀ t t', to_rfc3339 t = to_rfc3339 t' → t = t') → (∀ t, "010"%char ∉ chars (to_rfc3339 t)) →
  trigger_identity to_rfc3339 e n t = trigger_identity to_rfc3339 e' n' t' → e = e' ∧ n = n' ∧ t = t'.
Proof.
  intros Hinj Hnl H. apply (f_equal chars) in H. unfold trigger_identity, newline in H. rewrite !chars_app in H.
  apply app_inv_head in H. cbn [app chars] in H. injection H as H.
  apply app_first_inj in H as [He%chars_inj H]; [|apply pretty_no_newline..].
  apply app_last_inj in H as [Hn%chars_inj Ht%chars_inj]; [|apply Hnl..].
  split_and!; [by apply (inj pretty)|done|by apply Hinj].
Qed.

(** A job every 100 ms, looked at 1.05 s after its occurrence. *)
Definition example_job (o : Api.ScheduleOverlapPolicy) (m : Api.ScheduleMissedRunPolicy) : CronJob unit unit :=
  MkCronJob 1 "interval" (Interval 100) tt o m.
Definition no_occurrence : unit → unit → Z → outcome string Z := λ _ _ _, Err "no occurrence".
Definition never_matching : unit → unit → Z → outcome string bool := λ _ _ _, Ok false.
Notation example_due := (due no_occurrence never_matching (λ _ t, [t]) (λ _, true) 20).
Lemma due_interval_is_loop_witness :
  example_due (example_job Api.OverlapSkip Api.FireOnce) 0 (1050 * MILLI) =
    due_by_loop (next no_occurrence never_matching (λ _ t, [t]) (λ _, true) 20 (example_job Api.OverlapSkip Api.FireOnce)) 20 0
      (1050 * MILLI).
Proof.
  apply (due_interval_is_loop no_occurrence never_matching (λ _ t, [t]) (λ _, true) (example_job Api.OverlapSkip Api.FireOnce)
    100 0 (1050 * MILLI) 20); [done|done|done|done|done|]. vm_compute. done.
Defined.

Definition example_ticked : Scheduler unit unit :=
  match tick no_occurrence never_matching (λ _ t, [t]) (λ _, true) 20 false (1050 * MILLI)
    (scheduler_new [(example_job Api.OverlapSkip Api.FireOnce, 0)]) with
  | Some (s, _) => s | None => scheduler_new [] end.
Lemma schedule_fires_once_witness :
  fired_of example_ticked 0 = [1000 * MILLI] ∧ StronglySorted Z.lt (fired_of example_ticked 0).
Proof.
  split; [by vm_compute|].
  destruct (schedule_fires_once no_occurrence never_matching (λ _ t, [t]) (λ _, true)
    [(example_job Api.OverlapSkip Api.FireOnce, 0)] example_ticked) as [H _].
  - done.
  - intros job n [= -> ->]%list_elem_of_singleton. done.
  - apply rtc_once. exact (cs_tick no_occurrence never_matching (λ _ t, [t]) (λ _, true) 20 false (1050 * MILLI)
      (scheduler_new [(example_job Api.OverlapSkip Api.FireOnce, 0)]) example_ticked (Ok tt) eq_refl
      ltac:(vm_compute; reflexivity)).
  - apply (H 0%nat (example_job Api.OverlapSkip Api.FireOnce) (1100 * MILLI)). by vm_compute.
Defined.

(** Instants written in decimal. *)
Lemma trigger_identity_injective_witness :
  trigger_identity (λ t : Z, pretty t) 1 "a" 5 = trigger_identity (λ t : Z, pretty t) 1 "a" 5 ∧ "a" = "a".
Proof.
  split; [done|].
  apply (trigger_identity_injective (λ t : Z, pretty t) 1 1 "a" "a" 5 5);
    [intros t t' Ht; by apply (inj pretty)|apply pretty_no_newline|done].
Defined.

(** One schedule without a further occurrence ends the scheduler of every job:
    its due occurrence is not fired, and the tasks of the other jobs are
    aborted. *)
Definition last_occurrence (e : unit) (tz : unit) (cursor : Z) : outcome string Z :=
  if decide (cursor < 5) then Ok 5 else Err "no occurrence".
Theorem exhausted_schedule_ends_all :
  let jobs := [(MkCronJob 1 "ticks" (Interval 100) tt Api.OverlapAllow Api.FireOnce, 0);
               (MkCronJob 2 "once" (Calendar tt) tt Api.OverlapAllow Api.FireOnce, 5)] in
  ∃ s r, tick last_occurrence (λ _ _ _, Ok true) (λ _ t, [t]) (λ _, true) 20 false 5 (scheduler_new jobs) = Some (s, r) ∧
    r = Err (InvalidConfiguration "no occurrence") ∧ fired s = [(0%nat, 0)] ∧ tasks s ≠ ∅ ∧ tasks (abort s r) = ∅ ∧
    scheduler_step last_occurrence (λ _ _ _, Ok true) (λ _ t, [t]) (λ _, true) (scheduler_new jobs) (abort s r).
Proof.
  cbv zeta. set (jobs := [_; _]).
  destruct (tick last_occurrence (λ _ _ _, Ok true) (λ _ t, [t]) (λ _, true) 20 false 5 (scheduler_new jobs)) as [[s r]|] eqn:Ht;
    [|by vm_compute in Ht]. exists s, r. split; [done|].
  pose proof (cs_tick last_occurrence (λ _ _ _, Ok true) (λ _ t, [t]) (λ _, true) 20 false 5 (scheduler_new jobs) s r eq_refl Ht) as Hs.
  vm_compute in Ht. injection Ht as <- <-. split_and!; [done|done|done|done|exact Hs].
Qed.
