(* ===== verification/CronEndpoint.v ===== *)
(** The endpoint of the local cron source: building it and its activations,
    [CronEndpointConsumer], [CronResultConsumer] and
    [make_croner_endpoint_consumer] of [src/src/datasource/cron/croner.rs].

    An activation registers a one-shot channel under its stream identifier,
    runs the user function and waits for a result; concurrent activations and
    results are a step relation whose steps are locks, sends and receives. *)

From stdpp Require Import pretty.
From S2P Require Import Prelude Errors Config Context Environment Cron.
Local Open Scope Z_scope.

(** * Building the source and its endpoints *)
Section build.
Context {Json Pool PriorityPool Endpoint Storage Buildable Expr Tz : Type}.
Context (cron_from_str : string → outcome string Expr) (tz_from_str : string → outcome string Tz).
Notation Env := (RuntimeEnvironment Json Pool PriorityPool Endpoint Storage Buildable).
Notation Source := (CronDataSource Expr Tz).
(** [CronDataSource::from_config] and [CronDataSource::new] *)
Definition source_from_config (config : CronDataConnectorConfig) : Source :=
  MkCronSource (cc_id config) (cc_name config) [] false None.
Definition source_new (connector_id : Z) (r : RuntimeConfig Json) : RuntimeResult Source :=
  config ← ok_or (data_connector_by_id r connector_id)
    (InvalidConfiguration ("cron data connector " +:+ pretty connector_id +:+ " not found"));
  if decide (connector_type config = Api.DCCron)
  then Ok (source_from_config (MkCronConnector connector_id (connector_name config)))
  else Err (InvalidConfiguration ("data connector " +:+ debug (connector_name config) +:+ " is not cron")).

(** What building an endpoint changes: the environment, the source's jobs and
    the consumer of the input's results. *)
Record Wiring := MkWiring { w_env : Env; w_source : Source; w_results : bool }.
Definition job_of (config : CronEndpointConfig) : RuntimeResult (CronJob Expr Tz) :=
  schedule ← parse cron_from_str (ce_schedule config);
  timezone ← map_err InvalidConfiguration (tz_from_str (ce_timezone config));
  Ok (MkCronJob (ce_id config) (ce_name config) schedule timezone (ce_overlap_policy config) (ce_missed_run_policy config)).
(** [make_croner_endpoint_consumer]: [endpoint_id] and [has_result] are the
    input's, [metrics] the registration of the endpoint's series. *)
Definition make_croner_endpoint_consumer (id_of : Endpoint → Z) (w : Wiring) (endpoint_id : Z) (has_result : bool)
    (metrics : RuntimeResult unit) (consumer : Endpoint) : RuntimeResult unit * Wiring :=
  match cron_endpoint_config (runtime_config (w_env w)) (w_source w) endpoint_id with
  | Ok config =>
      match metrics with
      | Ok _ =>
          let results := w_results w || has_result in
          match register_endpoint_consumer id_of (w_env w) consumer with
          | (Ok _, env) =>
              if ce_enabled config then
                match job_of config with
                | Ok job => let '(r, source) := add_job (w_source w) job in (r, MkWiring env source results)
                | Err e => (Err e, MkWiring env (w_source w) results)
                | Panic => (Panic, MkWiring env (w_source w) results)
                end
              else (Ok tt, MkWiring env (w_source w) results)
          | (Err e, env) => (Err e, MkWiring env (w_source w) results)
          | (Panic, env) => (Panic, MkWiring env (w_source w) results)
          end
      | Err e => (Err e, w)
      | Panic => (Panic, w)
      end
  | Err e => (Err e, w)
  | Panic => (Panic, w)
  end.
End build.

(** * Activations *)
(** Where an activation is: in the user function (with a channel or not),
    waiting, past the wait with its entry still to remove, or over; an
    aborted one was dropped at an await. *)
Inductive ActivationPc := InFunction (registered : bool) | Waiting | Resolved (ok : bool) | Over (success : bool) | Aborted.
Record Activation := MkActivation { a_stream : option string; a_pc : ActivationPc }.
Record CronEndpointConsumer := MkConsumer {
  has_result : bool;
  pending : gmap string nat;                   (** one-shot senders by stream *)
  activations : gmap nat Activation;
  next_activation : nat;
  taken : list nat;                            (** senders removed by results, not yet used *)
  sent : gset nat;                             (** channels that hold a value *)
  closed : gset nat;                           (** channels whose sender was dropped *)
  served : list (nat * string) }.              (** which activation each result took, by its stream *)
Implicit Types c : CronEndpointConsumer.
Definition set_act c (i : nat) (a : Activation) : CronEndpointConsumer :=
  MkConsumer (has_result c) (pending c) (<[i := a]> (activations c)) (next_activation c) (taken c) (sent c) (closed c) (served c).
(** [consume] up to the user function. *)
Definition activate c (stream_id : option string) : CronEndpointConsumer :=
  let i := next_activation c in
  let start pc pend := MkConsumer (has_result c) pend (<[i := MkActivation stream_id pc]> (activations c)) (S i)
    (taken c) (sent c) (closed c) (served c) in
  if has_result c then
    match stream_id with
    | None => start (Over false) (pending c)
    | Some s =>
        match pending c !! s with
        | Some _ => start (Over false) (pending c)
        | None => start (InFunction true) (<[s := i]> (pending c))
        end
    end
  else start (InFunction false) (pending c).
Definition function_returns c (i : nat) : option CronEndpointConsumer :=
  a ← activations c !! i;
  match a_pc a with
  | InFunction registered => Some (set_act c i (MkActivation (a_stream a) (if registered then Waiting else Over true)))
  | _ => None
  end.
(** [receiver.await] *)
Definition receive c (i : nat) : option CronEndpointConsumer :=
  a ← activations c !! i;
  match a_pc a with
  | Waiting =>
      if decide (i ∈ sent c) then Some (set_act c i (MkActivation (a_stream a) (Resolved true)))
      else if decide (i ∈ closed c) then Some (set_act c i (MkActivation (a_stream a) (Resolved false)))
      else None
  | _ => None
  end.
(** The removal after the wait drops whatever sender is there. *)
Definition clean_up c (i : nat) : option CronEndpointConsumer :=
  a ← activations c !! i;
  match a_pc a, a_stream a with
  | Resolved ok, Some s =>
      Some (MkConsumer (has_result c) (delete s (pending c)) (<[i := MkActivation (a_stream a) (Over ok)]> (activations c))
        (next_activation c) (taken c) (sent c)
        (match pending c !! s with Some j => {[j]} ∪ closed c | None => closed c end) (served c))
  | _, _ => None
  end.
(** The task of the activation is aborted at an await. *)
Definition aborted c (i : nat) : option CronEndpointConsumer :=
  a ← activations c !! i;
  match a_pc a with
  | InFunction _ | Waiting => Some (set_act c i (MkActivation (a_stream a) Aborted))
  | _ => None
  end.
(** [CronResultConsumer::consume]: the sender is taken under the lock, then
    used. *)
Definition result_take c (stream_id : option string) : CronEndpointConsumer :=
  match stream_id with
  | None => c
  | Some s =>
      match pending c !! s with
      | Some i => MkConsumer (has_result c) (delete s (pending c)) (activations c) (next_activation c) (taken c ++ [i]) (sent c)
                    (closed c) (served c ++ [(i, s)])
      | None => c
      end
  end.
Definition receiver_alive c (i : nat) : bool :=
  match activations c !! i with Some a => match a_pc a with InFunction _ | Waiting => true | _ => false end | None => false end.
Definition result_send c (k : nat) : option CronEndpointConsumer :=
  i ← taken c !! k;
  Some (MkConsumer (has_result c) (pending c) (activations c) (next_activation c) (delete k (taken c))
    (if receiver_alive c i then {[i]} ∪ sent c else sent c) (closed c) (served c)).

Inductive cron_step : CronEndpointConsumer → CronEndpointConsumer → Prop :=
| ce_activate c s : cron_step c (activate c s)
| ce_function c i c' : function_returns c i = Some c' → cron_step c c'
| ce_receive c i c' : receive c i = Some c' → cron_step c c'
| ce_clean_up c i c' : clean_up c i = Some c' → cron_step c c'
| ce_aborted c i c' : aborted c i = Some c' → cron_step c c'
| ce_take c s : cron_step c (result_take c s)
| ce_send c k c' : result_send c k = Some c' → cron_step c c'.
Definition consumer_new (has_result : bool) : CronEndpointConsumer := MkConsumer has_result ∅ ∅ 0 [] ∅ ∅ [].

(** * Lemmas *)
Definition stream_of c (i : nat) : option string := activations c !! i ≫= a_stream.
(** Another activation ran under the same stream. *)
Definition shares_stream c (i : nat) : Prop := ∃ j s, j ≠ i ∧ stream_of c i = Some s ∧ stream_of c j = Some s.
(** What a state of an activation entails. *)
Definition pc_ok c (i : nat) (a : Activation) : Prop :=
  match a_pc a with
  | InFunction registered => registered = has_result c ∧ (registered = true → is_Some (a_stream a))
  | Waiting => is_Some (a_stream a)
  | Resolved ok => is_Some (a_stream a) ∧ if ok then i ∈ sent c else i ∈ closed c
  | Over true => has_result c = true → i ∈ sent c
  | Over false => a_stream a = None ∨ shares_stream c i
  | Aborted => True
  end.
Record consumer_inv c : Prop := {
  ci_next i : is_Some (activations c !! i) → (i < next_activation c)%nat;
  ci_pending s i : pending c !! s = Some i →
    stream_of c i = Some s ∧ i ∉ (served c).*1 ∧ i ∉ closed c ∧ has_result c = true ∧
    ∃ a, activations c !! i = Some a ∧ match a_pc a with Resolved _ | Over _ => False | _ => True end;
  ci_served i s : (i, s) ∈ served c → stream_of c i = Some s;
  ci_once : NoDup (served c).*1;
  ci_taken : taken c ⊆ (served c).*1;
  ci_sent i : i ∈ sent c → i ∈ (served c).*1;
  ci_closed i : i ∈ closed c → shares_stream c i;
  ci_acts i a : activations c !! i = Some a → pc_ok c i a }.

Lemma stream_of_insert c i a c' :
  activations c' = <[i := a]> (activations c) → (∀ b, activations c !! i = Some b → a_stream b = a_stream a) →
  ∀ j s, stream_of c j = Some s → stream_of c' j = Some s.
Proof.
  intros E Ha j s. unfold stream_of. rewrite E. destruct (decide (j = i)) as [->|Hne]; [|by rewrite lookup_insert_ne].
  rewrite lookup_insert_eq. destruct (activations c !! i) as [b|] eqn:Eb; [|done]. cbn. by rewrite (Ha b).
Qed.
Lemma shares_stream_mono c c' i :
  (∀ j s, stream_of c j = Some s → stream_of c' j = Some s) → shares_stream c i → shares_stream c' i.
Proof. intros H (j & s & Hne & H1 & H2). exists j, s. auto. Qed.
Lemma pc_ok_mono c c' i a :
  (∀ j s, stream_of c j = Some s → stream_of c' j = Some s) → has_result c' = has_result c → sent c ⊆ sent c' → closed c ⊆ closed c' →
  pc_ok c i a → pc_ok c' i a.
Proof.
  intros Hs Eh Hsent Hcl. unfold pc_ok. destruct (a_pc a) as [|?|[]|[]|]; rewrite ?Eh; try set_solver.
  intros [?|?]; [by left|right]. by eapply shares_stream_mono.
Qed.
(** An activation moves on; nothing else changes. *)
Lemma set_act_inv c i a pc :
  consumer_inv c → activations c !! i = Some a →
  (match pc with Resolved _ | Over _ => i ∈ (served c).*1 ∨ i ∈ closed c ∨ has_result c = false | _ => True end) →
  (∀ s, pending c !! s = Some i → match pc with Resolved _ | Over _ => False | _ => True end) →
  pc_ok (set_act c i (MkActivation (a_stream a) pc)) i (MkActivation (a_stream a) pc) →
  consumer_inv (set_act c i (MkActivation (a_stream a) pc)).
Proof.
  intros [Hn Hp Hsv Ho Ht Hs Hc Ha] Hi Hpc Hnp Hok. set (c' := set_act _ _ _) in *.
  assert (∀ j s, stream_of c j = Some s → stream_of c' j = Some s) as Hmono.
  { apply (stream_of_insert c i (MkActivation (a_stream a) pc)); [done|]. intros b Hb. rewrite Hi in Hb. by injection Hb as ->. }
  split; cbn [activations pending served taken sent closed next_activation set_act c']; try done.
  - intros j. rewrite lookup_insert_is_Some'. intros [->|Hj]; [by apply Hn; eauto|by apply Hn].
  - intros s j Hj. destruct (Hp s j Hj) as (H1 & H2 & H3 & H4 & b & Hb & Hbpc). split; [by apply Hmono|]. split_and!; [done..|].
    destruct (decide (j = i)) as [->|Hne]; [|exists b; by rewrite lookup_insert_ne].
    exists (MkActivation (a_stream a) pc). rewrite lookup_insert_eq. split; [done|]. cbn. by eapply Hnp.
  - intros j s Hj. by apply Hmono, Hsv.
  - intros j Hj. eapply shares_stream_mono; [done|]. by apply Hc.
  - intros j b. destruct (decide (j = i)) as [->|Hne].
    + rewrite lookup_insert_eq. by intros [= <-].
    + rewrite lookup_insert_ne by done. intros Hb. by eapply (pc_ok_mono c); [..|apply Ha].
Qed.
Lemma activate_inv c s : consumer_inv c → consumer_inv (activate c s).
Proof.
  intros [Hn Hp Hsv Ho Ht Hs Hc Ha].
  assert (activations c !! next_activation c = None) as Hfresh.
  { destruct (activations c !! next_activation c) as [a|] eqn:E; [|done]. specialize (Hn _ (mk_is_Some _ _ E)). lia. }
  assert (Hgen : ∀ pc pend,
    let c' := MkConsumer (has_result c) pend (<[next_activation c := MkActivation s pc]> (activations c)) (S (next_activation c))
      (taken c) (sent c) (closed c) (served c) in
    (∀ t i, pend !! t = Some i → pending c !! t = Some i ∨
       (i = next_activation c ∧ s = Some t ∧ has_result c = true ∧ match pc with Resolved _ | Over _ => False | _ => True end)) →
    pc_ok c' (next_activation c) (MkActivation s pc) → consumer_inv c').
  { intros pc pend c' Hpend Hok.
    assert (∀ j t, stream_of c j = Some t → stream_of c' j = Some t) as Hmono.
    { apply (stream_of_insert c (next_activation c) (MkActivation s pc)); [done|]. intros b Hb. congruence. }
    split; cbn [activations pending served taken sent closed next_activation c']; try done.
    - intros i. rewrite lookup_insert_is_Some'. intros [<-|Hi]; [lia|]. specialize (Hn _ Hi). lia.
    - intros t i [Hi|(-> & -> & Hr & Hpc)]%Hpend.
      + destruct (Hp t i Hi) as (H1 & H2 & H3 & H4 & a & Hai & Hpc). split; [by apply Hmono|]. split_and!; [done..|]. exists a.
        rewrite lookup_insert_ne; [done|]. congruence.
      + unfold stream_of. cbn. rewrite lookup_insert_eq. split; [done|]. split_and!; [| |done|by eexists].
        * intros ([i t'] & Hi & Hin)%list_elem_of_fmap. cbn in Hi. subst i. apply Hsv in Hin. unfold stream_of in Hin. by rewrite Hfresh in Hin.
        * intros (j & t' & _ & Hj & _)%Hc. unfold stream_of in Hj. by rewrite Hfresh in Hj.
    - intros i t Hi. by apply Hmono, Hsv.
    - intros i Hi. eapply shares_stream_mono; [done|]. by apply Hc.
    - intros i a. destruct (decide (i = next_activation c)) as [->|Hne].
      + rewrite lookup_insert_eq. by intros [= <-].
      + rewrite lookup_insert_ne by done. intros Hb. by eapply (pc_ok_mono c); [..|apply Ha]. }
  unfold activate. destruct (has_result c) eqn:Eh; [|apply Hgen; [by left|done]].
  destruct s as [t|]; [|apply Hgen; [by left|by left]]. destruct (pending c !! t) as [j|] eqn:Ej.
  - apply Hgen; [by left|]. right. destruct (Hp t j Ej) as (H1 & _). exists j, t. unfold stream_of in H1 |- *. cbn.
    assert (j ≠ next_activation c) by (intros ->; by rewrite Hfresh in H1). by rewrite lookup_insert_eq, lookup_insert_ne.
  - apply Hgen.
    + intros t' i. rewrite lookup_insert_Some. intros [[<- <-]|[_ H]]; [by right|by left].
    + cbn. eauto.
Qed.
Lemma clean_up_inv c i c' : clean_up c i = Some c' → consumer_inv c → consumer_inv c'.
Proof.
  intros E [Hn Hp Hsv Ho Ht Hst Hc Ha]. unfold clean_up in E. destruct (activations c !! i) as [a|] eqn:Ei; [|done]. cbn in E.
  destruct (a_pc a) as [| |ok| |] eqn:Epc; try done. destruct (a_stream a) as [s|] eqn:Es; [|done]. injection E as <-.
  set (c' := MkConsumer _ _ _ _ _ _ _ _).
  assert (∀ j t, stream_of c j = Some t → stream_of c' j = Some t) as Hmono.
  { apply (stream_of_insert c i (MkActivation (Some s) (Over ok))); [by cbn|]. intros b Hb. rewrite Ei in Hb. by injection Hb as <-. }
  assert (stream_of c i = Some s) as Hsi by (unfold stream_of; by rewrite Ei).
  assert (∀ j, pending c !! s = Some j → shares_stream c j) as Hdrop.
  { intros j Hj. destruct (Hp _ _ Hj) as (H1 & _ & _ & _ & b & Hb & Hpc). exists i, s. split; [|done].
    intros <-. rewrite Ei in Hb. injection Hb as <-. by rewrite Epc in Hpc. }
  pose proof (Ha _ _ Ei) as Hok. unfold pc_ok in Hok. rewrite Epc in Hok.
  assert (closed c ⊆ closed c') as Hcl by (cbn; destruct (pending c !! s); set_solver).
  split; cbn [activations pending served taken sent closed next_activation has_result c']; try done.
  - intros j. rewrite lookup_insert_is_Some'. intros [<-|Hj]; by apply Hn; eauto.
  - intros t j [Hne Hj]%lookup_delete_Some. destruct (Hp _ _ Hj) as (H1 & H2 & H3 & H4 & b & Hb & Hpc).
    split; [by apply Hmono|]. split_and!; [done| |done|].
    + destruct (pending c !! s) as [j'|] eqn:Ej'; [|done]. intros [->%elem_of_singleton|?]%elem_of_union; [|done].
      destruct (Hp _ _ Ej') as [H5 _]. congruence.
    + exists b. split; [|done]. rewrite lookup_insert_ne; [done|]. intros <-. rewrite Ei in Hb. injection Hb as <-. by rewrite Epc in Hpc.
  - intros j t Hj. by apply Hmono, Hsv.
  - intros j Hj. eapply shares_stream_mono; [done|]. destruct (pending c !! s) as [j'|] eqn:Ej'; [|by apply Hc].
    apply elem_of_union in Hj as [->%elem_of_singleton|Hj]; [by apply Hdrop|by apply Hc].
  - intros j b. destruct (decide (j = i)) as [->|Hne].
    + rewrite lookup_insert_eq. intros [= <-]. unfold pc_ok. cbn. destruct ok; [by intros _; apply Hok|].
      right. eapply shares_stream_mono; [done|]. apply Hc, Hok.
    + rewrite lookup_insert_ne by done. intros Hb. by eapply (pc_ok_mono c); [..|apply Ha].
Qed.
Lemma result_take_inv c s : consumer_inv c → consumer_inv (result_take c s).
Proof.
  intros Hinv. pose proof Hinv as [Hn Hp Hsv Ho Ht Hst Hc Ha]. destruct s as [s|]; [|done]. cbn.
  destruct (pending c !! s) as [i|] eqn:Ei; [|done]. destruct (Hp _ _ Ei) as (H1 & H2 & _).
  split; cbn [activations pending served taken sent closed next_activation has_result]; try done.
  - intros t j [Hne Hj]%lookup_delete_Some. destruct (Hp _ _ Hj) as (H3 & H4 & H5 & H6 & Hb). split_and!; [done| |done..].
    rewrite fmap_app, not_elem_of_app. split; [done|]. cbn. intros Hin%list_elem_of_singleton. congruence.
  - intros j t [Hj|[= -> ->]%list_elem_of_singleton]%elem_of_app; [by apply Hsv|done].
  - rewrite fmap_app. apply NoDup_app. cbn. split_and!; [done| |apply NoDup_singleton]. intros j Hj ->%list_elem_of_singleton. done.
  - rewrite fmap_app. cbn. intros j. rewrite !elem_of_app. intros [Hj|Hj]; [left; by apply Ht|by right].
  - intros j Hj. rewrite fmap_app. apply elem_of_app. left. by apply Hst.
Qed.
Lemma cron_step_inv c c' : cron_step c c' → consumer_inv c → consumer_inv c'.
Proof.
  intros Hs Hinv. pose proof Hinv as [Hn Hp Hsv Ho Ht Hst Hc Ha].
  destruct Hs as [c s|c i c' E|c i c' E|c i c' E|c i c' E|c s|c k c' E]; [by apply activate_inv|..].
  - unfold function_returns in E. destruct (activations c !! i) as [a|] eqn:Ei; [|done]. cbn in E.
    destruct (a_pc a) as [registered| | | |] eqn:Epc; try done. injection E as <-.
    pose proof (Ha _ _ Ei) as Hok. unfold pc_ok in Hok. rewrite Epc in Hok. destruct Hok as [Hreg Hsome].
    apply set_act_inv; [done|done|by destruct registered; [|right; right]| |].
    + intros s Hi. destruct registered; [done|]. destruct (Hp _ _ Hi) as (_ & _ & _ & Hr & _). congruence.
    + unfold pc_ok. destruct registered; cbn; [by apply Hsome|congruence].
  - unfold receive in E. destruct (activations c !! i) as [a|] eqn:Ei; [|done]. cbn in E.
    destruct (a_pc a) eqn:Epc; try done. pose proof (Ha _ _ Ei) as Hok. unfold pc_ok in Hok. rewrite Epc in Hok.
    assert (∀ s, pending c !! s = Some i → i ∈ sent c ∨ i ∈ closed c → False) as Hnot.
    { intros s Hi [Hin|Hin]; destruct (Hp _ _ Hi) as (_ & H2 & H3 & _); [by apply H2, Hst|done]. }
    destruct (decide (i ∈ sent c)) as [Hin|_]; [|destruct (decide (i ∈ closed c)) as [Hin|]; [|done]]; injection E as <-.
    + apply set_act_inv; [done|done|by left; apply Hst|naive_solver|done].
    + apply set_act_inv; [done|done|by right; left|naive_solver|done].
  - by eapply clean_up_inv.
  - unfold aborted in E. destruct (activations c !! i) as [a|] eqn:Ei; [|done]. cbn in E.
    destruct (a_pc a) eqn:Epc; try done; injection E as <-; by apply set_act_inv.
  - by apply result_take_inv.
  - unfold result_send in E. destruct (taken c !! k) as [i|] eqn:Ek; [|done]. injection E as <-.
    split; cbn [activations pending served taken sent closed next_activation]; try done.
    + etrans; [|exact Ht]. intros j Hj. rewrite (delete_Permutation _ _ _ Ek). by right.
    + destruct (receiver_alive c i); [|done]. intros j [->%elem_of_singleton|Hj]%elem_of_union; [|by apply Hst].
      apply Ht. by apply list_elem_of_lookup; eauto.
    + intros j a Hj. eapply (pc_ok_mono c); [done..| | |by apply Ha]; cbn; destruct (receiver_alive c i); set_solver.
Qed.
Lemma cron_reachable_inv b c : rtc cron_step (consumer_new b) c → consumer_inv c.
Proof.
  intros Hr. assert (consumer_inv (consumer_new b)) as H0.
  { split; cbn; [intros i [a Hi]|intros s i Hi|set_solver|constructor|set_solver|set_solver|set_solver|intros i a Hi];
      by rewrite lookup_empty in Hi. }
  revert H0. induction Hr as [|c1 c2 c3 Hs Hr IH]; [done|]. intros H0. apply IH. by eapply cron_step_inv.
Qed.

(** An activation that expects a result ends successfully only when a
    result of its own stream was taken for it, and each activation is
    answered at most once; as long as stream identifiers are not reused, an
    activation with an identifier never fails. *)
Theorem activation_answered c :
  rtc cron_step (consumer_new true) c →
  NoDup (served c).*1 ∧
  (∀ i s, activations c !! i = Some (MkActivation s (Over true)) → ∃ t, s = Some t ∧ (i, t) ∈ served c) ∧
  ((∀ i j s, stream_of c i = Some s → stream_of c j = Some s → i = j) →
   ∀ i s, activations c !! i ≠ Some (MkActivation (Some s) (Over false))).
Proof.
  intros Hr. pose proof (cron_reachable_inv _ _ Hr) as [Hn Hp Hsv Ho Ht Hst Hc Ha].
  assert (has_result c = true) as Hh.
  { clear -Hr. assert (∀ c c', cron_step c c' → has_result c' = has_result c) as Hstep.
    { intros c1 c2 [c0 s|c0 i ? E|c0 i ? E|c0 i ? E|c0 i ? E|c0 s|c0 k ? E].
      - unfold activate. destruct (has_result c0); [|done]. destruct s as [t|]; [|done]. by destruct (pending c0 !! t).
      - unfold function_returns in E. destruct (activations c0 !! i) as [[? []]|]; by simplify_eq/=.
      - unfold receive in E. destruct (activations c0 !! i) as [[? []]|]; simplify_eq/=; repeat case_decide; by simplify_eq.
      - unfold clean_up in E. destruct (activations c0 !! i) as [[[] []]|]; by simplify_eq/=.
      - unfold aborted in E. destruct (activations c0 !! i) as [[? []]|]; by simplify_eq/=.
      - unfold result_take. destruct s as [t|]; [|done]. by destruct (pending c0 !! t).
      - unfold result_send in E. destruct (taken c0 !! k); by simplify_eq/=. }
    enough (∀ c0, rtc cron_step c0 c → has_result c = has_result c0) as H by exact (H _ Hr).
    intros c0. clear Hr. induction 1 as [|c1 c2 c3 Hs _ IH]; [done|]. rewrite IH. by apply Hstep. }
  split; [done|]. split.
  - intros i s Hi. pose proof (Ha _ _ Hi) as Hok. unfold pc_ok in Hok. cbn in Hok. specialize (Hok Hh).
    apply Hst, list_elem_of_fmap in Hok as ([j t] & -> & Hin). cbn in *. exists t. split; [|done].
    apply Hsv in Hin. unfold stream_of in Hin. by rewrite Hi in Hin.
  - intros Huniq i s Hi. pose proof (Ha _ _ Hi) as Hok. unfold pc_ok in Hok. cbn in Hok.
    destruct Hok as [?|(j & t & Hne & H1 & H2)]; [done|]. by destruct Hne; eapply Huniq.
Qed.

Definition example_consumer : CronEndpointConsumer :=
  default (consumer_new true)
    (c ← function_returns (activate (consumer_new true) (Some "a")) 0;
     c ← result_send (result_take c (Some "a")) 0;
     c ← receive c 0; clean_up c 0).
Lemma activation_answered_witness :
  activations example_consumer !! 0%nat = Some (MkActivation (Some "a") (Over true)) ∧
  ∃ t, Some "a" = Some t ∧ (0%nat, t) ∈ served example_consumer.
Proof.
  split; [reflexivity|]. apply (activation_answered example_consumer); [|reflexivity].
  eapply rtc_l; [apply (ce_activate _ (Some "a"))|]. eapply rtc_l; [by apply (ce_function _ 0)|].
  eapply rtc_l; [apply (ce_take _ (Some "a"))|]. eapply rtc_l; [by apply (ce_send _ 0)|].
  eapply rtc_l; [by apply (ce_receive _ 0)|]. eapply rtc_l; [by apply (ce_clean_up _ 0)|]. apply rtc_refl.
Defined.
