(* ===== verification/Checkpoint.v ===== *)
(** Kafka checkpoint assignment, [src/src/datasource/kafka/checkpoint.rs]: the
    partitions a consumer owns, the fence between acknowledgements and
    rebalances, and the restoration of checkpointed offsets.

    librdkafka is outside the repository: what its calls answer is the
    argument [Native] of each rebalance, and the calls made are recorded.
    The owner's cancellation is a flag, read where the source reads it. *)

From S2P Require Import Prelude Errors.
Local Open Scope Z_scope.

Definition CheckpointOffsets : Type := gmap Z Z.
Notation HandlerResult := (outcome string).

Definition validate (offsets : option CheckpointOffsets) : HandlerResult unit :=
  match offsets with
  | Some values =>
      if existsb (λ e, bool_decide (e.1 < 0) || bool_decide (e.2 < 0)) (map_to_list values)
      then Err "Kafka checkpoint has a negative partition or next offset" else Ok tt
  | None => Ok tt
  end.

(** * Assignments *)
(** A partition's context is a child of the owner's: a token of its own, and
    cancelled with the owner. *)
Record Assignments := MkAssignments {
  partitions : gmap Z (Z * Z);   (** generation and token *)
  revision : Z;
  error : option string;
  failed : bool;
  cancelled : gset Z;            (** cancelled tokens *)
  next_token : Z;
  owner_cancelled : bool }.

Definition Assignments_new : Assignments := MkAssignments ∅ 0 None false ∅ 0 false.
Definition get (st : Assignments) (partition : Z) : option (Z * Z) := partitions st !! partition.
Definition live (st : Assignments) (token : Z) : bool := negb (owner_cancelled st) && bool_decide (token ∉ cancelled st).
Definition current (st : Assignments) (partition generation : Z) : bool :=
  match get st partition with
  | Some (g, token) => bool_decide (g = generation) && live st token
  | None => false
  end.
(** [acknowledge] runs [apply] under the assignment lock. *)
Definition acknowledge {T} (st : Assignments) (partition generation : Z) (apply : unit → HandlerResult T) :
    HandlerResult T :=
  if failed st || negb (current st partition generation)
  then Err "Kafka message belongs to a revoked assignment" else apply tt.
Definition take_error (st : Assignments) : option string * Assignments :=
  (error st, MkAssignments (partitions st) (revision st) None (failed st) (cancelled st) (next_token st)
               (owner_cancelled st)).

Definition tokens (m : gmap Z (Z * Z)) : gset Z := list_to_set (snd <$> (map_to_list m).*2).
Definition fail (st : Assignments) (e : string) : Assignments :=
  MkAssignments (partitions st) (revision st) (match error st with None => Some e | old => old end) true
    (cancelled st ∪ tokens (partitions st)) (next_token st) (owner_cancelled st).

(** * Rebalances *)
Record Item := MkItem { topic : string; partition : Z; offset : option Z }.
Inductive RebalanceEvent := AssignPartitions | RevokePartitions | RebalanceError (text : string).
Inductive NativeCall := Assign (l : list Item) | IncrementalAssign (l : list Item) | Unassign
| IncrementalUnassign (l : list Item).

Record Native := MkNative {
  cooperative : bool;
  restore : HandlerResult (option CheckpointOffsets);
  fetch_watermarks : string → Z → HandlerResult (Z * Z);
  set_offset : Item → HandlerResult unit;
  native_call : NativeCall → HandlerResult unit;
  cancelled_meanwhile : bool }.   (** the owner was cancelled during the checks *)

Section context.
Context (self_topic : string) (restoring : bool).

(** One assigned partition: its topic, its checkpoint, the retained log. *)
Definition check_item (nat : Native) (offsets : option CheckpointOffsets) (item : Item) : HandlerResult Item :=
  if decide (topic item ≠ self_topic) then Err "Kafka assigned an unexpected topic"
  else match offsets with
       | None => Ok item
       | Some offsets =>
           next ← ok_or (offsets !! partition item) "Kafka checkpoint does not cover assigned partition";
           '(low, high) ← fetch_watermarks nat (topic item) (partition item);
           if decide (low < 0 ∨ next < low ∨ next > high)
           then Err "Kafka checkpoint is outside retained log bounds"
           else _ ← set_offset nat item; Ok (MkItem (topic item) (partition item) (Some next))
       end.
Definition check_items (nat : Native) (offsets : option CheckpointOffsets) (l : list Item) : HandlerResult (list Item) :=
  fold_res (λ done item, item ← check_item nat offsets item; Ok (done ++ [item])) [] l.

(** Everything that can refuse an assignment before it is made. *)
Definition check_assignment (nat : Native) (st : Assignments) (l : list Item) : HandlerResult (list Item) :=
  if owner_cancelled st || failed st then Err "Kafka checkpoint owner cancelled"
  else
    offsets ← restore nat;
    _ ← validate offsets;
    if negb (bool_decide (bool_decide (is_Some offsets) = restoring))
    then Err "Kafka recovery mode changed during lifecycle"
    else
      l ← check_items nat offsets l;
      if cancelled_meanwhile nat then Err "Kafka checkpoint restoration cancelled" else Ok l.

(** Removing partitions cancels their contexts. *)
Definition drop_all (st : Assignments) : Assignments :=
  MkAssignments ∅ (revision st) (error st) (failed st) (cancelled st ∪ tokens (partitions st)) (next_token st)
    (owner_cancelled st).
Definition drop_partition (st : Assignments) (item : Item) : Assignments :=
  match partitions st !! partition item with
  | Some (_, token) =>
      MkAssignments (delete (partition item) (partitions st)) (revision st) (error st) (failed st)
        ({[token]} ∪ cancelled st) (next_token st) (owner_cancelled st)
  | None => st
  end.
Definition bump_revision (st : Assignments) : Assignments :=
  MkAssignments (partitions st) (wrap_u 64 (revision st + 1)) (error st) (failed st) (cancelled st)
    (next_token st) (owner_cancelled st).
(** [states.insert(partition, (generation, owner.child()))] *)
Definition own_partition (st : Assignments) (item : Item) : Assignments :=
  MkAssignments (<[partition item := (revision st, next_token st)]> (partitions st)) (revision st) (error st)
    (failed st) (cancelled st) (next_token st + 1) (owner_cancelled st).

Definition set_owner (st : Assignments) (b : bool) : Assignments :=
  MkAssignments (partitions st) (revision st) (error st) (failed st) (cancelled st) (next_token st)
    (owner_cancelled st || b).

Definition apply (nat : Native) (st : Assignments) (event : RebalanceEvent) (l : list Item) :
    HandlerResult unit * Assignments * list NativeCall :=
  match event with
  | AssignPartitions =>
      match check_assignment nat st l with
      | Err e => (Err e, set_owner st (cancelled_meanwhile nat), [])
      | Panic => (Panic, st, [])
      | Ok l =>
          let st := if cooperative nat then st else drop_all st in
          let st := foldl drop_partition st l in
          let call := if cooperative nat then IncrementalAssign l else Assign l in
          match native_call nat call with
          | Ok _ => (Ok tt, foldl own_partition (bump_revision st) l, [call])
          | Err e => (Err e, st, [call])
          | Panic => (Panic, st, [call])
          end
      end
  | RevokePartitions =>
      let st := if cooperative nat then foldl drop_partition st l else drop_all st in
      let call := if cooperative nat then IncrementalUnassign l else Unassign in
      match native_call nat call with
      | Ok _ => (Ok tt, bump_revision st, [call])
      | Err e => (Err e, st, [call])
      | Panic => (Panic, st, [call])
      end
  | RebalanceError text => (Err ("Kafka rebalance failed: " +:+ text), st, [])
  end.

(** [rebalance]: an error fails the consumer and unassigns everything. *)
Definition rebalance (nat : Native) (st : Assignments) (event : RebalanceEvent) (l : list Item) :
    Assignments * list NativeCall :=
  match apply nat st event l with
  | (Err e, st, calls) => (fail st e, calls ++ [Unassign])
  | (_, st, calls) => (st, calls)
  end.

Inductive checkpoint_step : Assignments → Assignments → Prop :=
| cs_rebalance nat st event l : checkpoint_step st (rebalance nat st event l).1
| cs_owner st : checkpoint_step st (set_owner st true)
| cs_error st : checkpoint_step st (take_error st).2.
End context.

(** * Lemmas *)
Section lemmas.
Context (self_topic : string) (restoring : bool).
Implicit Types st : Assignments.

(** What a rebalance leaves of the assignments: nothing new. *)
Definition shrinks st st' : Prop := partitions st' ⊆ partitions st ∧ revision st' = revision st.
Lemma shrinks_drop st item : shrinks st (drop_partition st item).
Proof.
  unfold drop_partition. destruct (partitions st !! partition item) as [[g t]|]; split; cbn; try done.
  apply delete_subseteq.
Qed.
Lemma shrinks_drops st l : shrinks st (foldl drop_partition st l).
Proof.
  revert st. induction l as [|item l IH]; intros st; cbn; [done|]. destruct (IH (drop_partition st item)) as [H1 H2].
  destruct (shrinks_drop st item) as [H3 H4]. split; [by etrans|congruence].
Qed.
Lemma shrinks_drop_all st : shrinks st (drop_all st).
Proof. split; cbn; [apply map_empty_subseteq|done]. Qed.

(** Partitions taken over carry the current revision. *)
Lemma own_partitions_lookup st l p g t :
  partitions (foldl own_partition st l) !! p = Some (g, t) →
  g = revision st ∨ partitions st !! p = Some (g, t).
Proof.
  revert st. induction l as [|item l IH]; intros st; cbn; [by right|]. intros [Hg|Hp]%IH; [by left|].
  cbn in Hp. apply lookup_insert_Some in Hp as [[_ [= <- _]]|[_ ?]]; [by left|by right].
Qed.
Lemma own_partitions_revision st l : revision (foldl own_partition st l) = revision st.
Proof. revert st. induction l as [|item l IH]; intros st; cbn; [done|]. by rewrite IH. Qed.
Lemma own_partitions_have st l item :
  item ∈ l → ∃ t, partitions (foldl own_partition st l) !! partition item = Some (revision st, t).
Proof.
  intros Hin. induction l as [|i l IH] using rev_ind; [by apply elem_of_nil in Hin|]. rewrite foldl_app; cbn.
  rewrite own_partitions_revision. destruct (decide (partition i = partition item)) as [->|Hne].
  - rewrite lookup_insert_eq. eauto.
  - rewrite lookup_insert_ne by done. apply elem_of_app in Hin as [Hin| ->%list_elem_of_singleton]; [by apply IH|done].
Qed.

Lemma own_partitions_other st l p :
  p ∉ partition <$> l → partitions (foldl own_partition st l) !! p = partitions st !! p.
Proof.
  revert st. induction l as [|item l IH]; intros st; cbn; [done|]. rewrite not_elem_of_cons. intros [Hne Hp].
  rewrite (IH _ Hp). cbn. by rewrite lookup_insert_ne.
Qed.

(** Dropping partitions removes them, and nothing else, and keeps the error. *)
Lemma drop_partition_lookup st item p :
  partitions (drop_partition st item) !! p = if decide (p = partition item) then None else partitions st !! p.
Proof.
  unfold drop_partition. destruct (partitions st !! partition item) as [[g t]|] eqn:Hi; cbn; case_decide as Hp.
  - subst. apply lookup_delete_eq.
  - by apply lookup_delete_ne.
  - by subst.
  - done.
Qed.
Lemma drop_partitions_lookup st l p :
  partitions (foldl drop_partition st l) !! p = if decide (p ∈ partition <$> l) then None else partitions st !! p.
Proof.
  revert st. induction l as [|item l IH]; intros st; cbn.
  - case_decide as H; [by apply elem_of_nil in H|done].
  - rewrite IH, drop_partition_lookup. repeat case_decide; try done; set_solver.
Qed.
Lemma drop_partitions_error st l : error (foldl drop_partition st l) = error st.
Proof.
  revert st. induction l as [|i l IH]; intros st; cbn; [done|]. rewrite IH. unfold drop_partition.
  by destruct (partitions st !! partition i) as [[]|].
Qed.

(** Every assignment of [st] is still held in [st'], or its context cancelled. *)
Definition retires st st' : Prop :=
  cancelled st ⊆ cancelled st' ∧
  ∀ p g t, partitions st !! p = Some (g, t) → partitions st' !! p = Some (g, t) ∨ t ∈ cancelled st'.
#[export] Instance retires_preorder : PreOrder retires.
Proof.
  split.
  - intros st. split; [done|]. by left.
  - intros st1 st2 st3 [Hc1 H1] [Hc2 H2]. split; [by etrans|]. intros p g t [Hp|Ht]%H1; [by apply H2|].
    right. by apply Hc2.
Qed.
Lemma elem_of_tokens (m : gmap Z (Z * Z)) p g t : m !! p = Some (g, t) → t ∈ tokens m.
Proof.
  intros Hp. unfold tokens. apply elem_of_list_to_set, list_elem_of_fmap. exists (g, t). split; [done|].
  apply list_elem_of_fmap. exists (p, (g, t)). split; [done|]. by apply elem_of_map_to_list.
Qed.
Lemma retires_drop_all st : retires st (drop_all st).
Proof. split; cbn; [set_solver|]. intros p g t Hp%elem_of_tokens. set_solver. Qed.
Lemma retires_drop st item : retires st (drop_partition st item).
Proof.
  unfold drop_partition. destruct (partitions st !! partition item) as [[g t]|] eqn:Hi; [|done]. split; cbn; [set_solver|].
  intros p g' t' Hp. destruct (decide (p = partition item)) as [->|Hne]; [simplify_eq; set_solver|].
  left. by rewrite lookup_delete_ne.
Qed.
Lemma retires_drops st l : retires st (foldl drop_partition st l).
Proof.
  revert st. induction l as [|item l IH]; intros st; cbn; [done|]. etrans; [apply retires_drop|apply IH].
Qed.
(** A failing consumer has cancelled all of them. *)
Lemma retires_fail st st' e p g t : retires st st' → get st p = Some (g, t) → live (fail st' e) t = false.
Proof.
  intros [_ H] [Hp|Ht]%H; unfold live; cbn; apply andb_false_iff; right; apply bool_decide_eq_false.
  - apply elem_of_tokens in Hp. set_solver.
  - set_solver.
Qed.

(** A rebalance either keeps part of the assignments, or opens a generation. *)
Lemma apply_cases nat st event l r st' calls :
  apply self_topic restoring nat st event l = (r, st', calls) →
  shrinks st st' ∨
  ∃ st1 l', shrinks st st1 ∧ (st' = bump_revision st1 ∨ st' = foldl own_partition (bump_revision st1) l').
Proof.
  unfold apply. destruct event as [| |text].
  - destruct (check_assignment self_topic restoring nat st l) as [l'|e|]; [|intros [= _ <- _]; by left..].
    set (st1 := foldl drop_partition (if cooperative nat then st else drop_all st) l').
    assert (shrinks st st1) as Hs.
    { unfold st1. destruct (cooperative nat); [apply shrinks_drops|].
      destruct (shrinks_drops (drop_all st) l') as [H1 H2]. split; [|done]. etrans; [exact H1|].
      apply map_empty_subseteq. }
    destruct (native_call nat _) as [u|e|]; [|intros [= _ <- _]; by left..].
    intros [= _ <- _]. right. exists st1, l'. eauto.
  - set (st1 := if cooperative nat then foldl drop_partition st l else drop_all st).
    assert (shrinks st st1) as Hs by (unfold st1; destruct (cooperative nat); [apply shrinks_drops|apply shrinks_drop_all]).
    destruct (native_call nat _) as [u|e|]; [|intros [= _ <- _]; by left..].
    intros [= _ <- _]. right. exists st1, []. eauto.
  - intros [= _ <- _]. by left.
Qed.

(** The generations held never exceed the revision. *)
Definition generations_ok (n : nat) st : Prop :=
  0 ≤ revision st ≤ Z.of_nat n ∧ ∀ p g t, partitions st !! p = Some (g, t) → g ≤ revision st.
(** [st'] holds no assignment of a generation [st] knew, other than its own. *)
Definition fenced st st' : Prop :=
  revision st ≤ revision st' ∧
  ∀ p g t, g ≤ revision st → partitions st' !! p = Some (g, t) → partitions st !! p = Some (g, t).

Lemma shrinks_fenced n st st' :
  shrinks st st' → generations_ok n st → generations_ok n st' ∧ fenced st st'.
Proof.
  intros [Hp Hr] [H1 H2]. rewrite map_subseteq_spec in Hp. unfold generations_ok, fenced. rewrite Hr.
  split; [split; [done|]|split; [done|]]; eauto.
Qed.
Lemma bump_fenced n st st1 st' l :
  shrinks st st1 → generations_ok n st → Z.of_nat n < 2 ^ 64 - 1 →
  st' = bump_revision st1 ∨ st' = foldl own_partition (bump_revision st1) l →
  generations_ok (S n) st' ∧ fenced st st'.
Proof.
  intros Hs Hok Hn Hst'. destruct (shrinks_fenced n st st1 Hs Hok) as [[Hr1 Hg1] [_ Hf]].
  destruct Hs as [_ Hr]. destruct Hok as [Hrev _].
  assert (Hb : revision (bump_revision st1) = revision st + 1).
  { cbn. rewrite wrap_u_id; [lia|]. unfold in_u. lia. }
  assert (revision st' = revision st + 1 ∧ ∀ p g t, partitions st' !! p = Some (g, t) →
    g = revision st + 1 ∨ partitions st1 !! p = Some (g, t)) as [Hrev' Hp'].
  { destruct Hst' as [->| ->]; [split; [done|by right]|]. rewrite own_partitions_revision. split; [done|].
    intros p g t Hp. apply own_partitions_lookup in Hp. rewrite Hb in Hp. cbn in Hp. done. }
  split; split; try lia.
  - intros p g t [?|Hp]%Hp'; [lia|]. apply Hg1 in Hp. lia.
  - intros p g t Hle [?|Hp]%Hp'; [lia|]. by apply Hf.
Qed.
Lemma checkpoint_step_fenced n st st' :
  checkpoint_step self_topic restoring st st' → generations_ok n st → Z.of_nat n < 2 ^ 64 - 1 →
  generations_ok (S n) st' ∧ fenced st st'.
Proof.
  assert (Hmono : ∀ st, generations_ok n st → generations_ok (S n) st).
  { intros st0 [H1 H2]. split; [lia|done]. }
  intros Hs Hok Hn. destruct Hs as [nat st event l|st|st]; [|split; [by apply Hmono|by split]..].
  unfold rebalance. destruct (apply self_topic restoring nat st event l) as [[r st1] calls] eqn:Ha.
  assert (generations_ok (S n) st1 ∧ fenced st st1) as H.
  { destruct (apply_cases _ _ _ _ _ _ _ Ha) as [Hsh|(st0 & l' & Hsh & Hst)].
    - destruct (shrinks_fenced n st st1 Hsh Hok). split; [by apply Hmono|done].
    - by eapply bump_fenced. }
  destruct r; exact H.
Qed.
Lemma checkpoint_steps_fenced n m st st' :
  nsteps (checkpoint_step self_topic restoring) m st st' → generations_ok n st →
  Z.of_nat (n + m) < 2 ^ 64 → generations_ok (n + m) st' ∧ fenced st st'.
Proof.
  intros Hs. revert n. induction Hs as [st|m st st1 st2 Hs _ IH]; intros n Hok Hn.
  - rewrite Nat.add_0_r. split; [done|by split].
  - destruct (checkpoint_step_fenced n st st1 Hs Hok ltac:(lia)) as [Hok1 [Hle Hf]].
    destruct (IH (S n) Hok1 ltac:(lia)) as [Hok2 [Hle' Hf']].
    replace (n + S m)%nat with (S n + m)%nat by lia. split; [done|]. split; [lia|].
    intros p g t Hg Hp. apply Hf; [done|]. apply Hf'; [lia|done].
Qed.
End lemmas.

(** Checking an assignment. *)
Section check_lemmas.
Context (self_topic : string) (restoring : bool).

(** What an accepted partition satisfies. *)
Definition item_restored (nat : Native) (item item' : Item) : Prop :=
  topic item = self_topic ∧ topic item' = self_topic ∧ partition item' = partition item ∧
  if restoring then ∃ offsets next low high, restore nat = Ok (Some offsets) ∧
    offsets !! partition item = Some next ∧ fetch_watermarks nat (topic item) (partition item) = Ok (low, high) ∧
    0 ≤ low ≤ next ∧ next ≤ high ∧ offset item' = Some next
  else item' = item.

Lemma check_items_Ok nat offsets l l' :
  check_items self_topic nat offsets l = Ok l' →
  Forall2 (λ item item', check_item self_topic nat offsets item = Ok item') l l'.
Proof.
  unfold check_items. revert l'. induction l as [|item l IH] using rev_ind; intros l'; cbn.
  - intros [= <-]. constructor.
  - rewrite fold_res_app. intros (l1 & Hl1 & Hl2)%bind_Ok. cbn in Hl2. outcome_inv. simplify_eq.
    apply Forall2_app; [by apply IH|]. by repeat constructor.
Qed.
Lemma check_assignment_Ok nat st l l' :
  check_assignment self_topic restoring nat st l = Ok l' → Forall2 (item_restored nat) l l'.
Proof.
  unfold check_assignment. destruct (owner_cancelled st || failed st); [done|]. intros (offsets & Hr & H)%bind_Ok.
  apply bind_Ok in H as (u & _ & H). case_bool_decide as Hmode; [cbn in H|done].
  apply bind_Ok in H as (l1 & Hl1 & H). destruct (cancelled_meanwhile nat); [done|]. injection H as <-.
  apply check_items_Ok in Hl1. eapply Forall2_impl; [exact Hl1|]. intros item item' Hi. cbn in Hi.
  unfold check_item in Hi. case_decide as Ht; [done|]. unfold item_restored.
  destruct offsets as [offsets|]; cbn in Hmode; subst restoring.
  - outcome_inv. destruct x0 as [low high]. case_decide as Hb; [done|]. outcome_inv. simplify_eq. cbn.
    split_and!; try done. exists offsets, x, low, high. split_and!; try done; lia.
  - injection Hi as <-. done.
Qed.
End check_lemmas.

(** * Properties *)

(** C6: acknowledgements are fenced by rebalances.  A message read while its
    partition was assigned with some generation and context is acknowledged
    exactly when that very assignment is still held, its context is not
    cancelled and the consumer has not failed: a revoked or reassigned
    partition refuses the old message, however the rebalances came in between
    (fewer than 2^64 of them). *)
Theorem acknowledge_fenced {T} self_topic restoring n m st st' p g t (f : unit → HandlerResult T) :
  nsteps (checkpoint_step self_topic restoring) n Assignments_new st →
  nsteps (checkpoint_step self_topic restoring) m st st' →
  Z.of_nat (n + m) < 2 ^ 64 →
  get st p = Some (g, t) →
  acknowledge st' p g f =
    if decide (get st' p = Some (g, t) ∧ live st' t = true ∧ failed st' = false)
    then f tt else Err "Kafka message belongs to a revoked assignment".
Proof.
  intros H1 H2 Hb Hp.
  assert (generations_ok 0 Assignments_new) as H0 by (split; [cbn; lia|intros ???; cbn; by rewrite lookup_empty]).
  destruct (checkpoint_steps_fenced _ _ 0 n _ _ H1 H0 ltac:(lia)) as [Hok _]. cbn in Hok.
  destruct (checkpoint_steps_fenced _ _ n m _ _ H2 Hok Hb) as [_ [_ Hf]].
  pose proof Hp as Hg. apply Hok in Hg. unfold acknowledge, current, get in *.
  destruct (failed st') eqn:Hfail; cbn.
  - rewrite decide_False by (intros (_ & _ & ?); done). done.
  - destruct (partitions st' !! p) as [[g' t']|] eqn:Hp'; cbn.
    + case_bool_decide as Hgg; cbn.
      * subst g'. assert (t' = t) as -> by (apply (Hf p g t' Hg) in Hp'; congruence).
        destruct (live st' t); cbn; [by rewrite decide_True|by rewrite decide_False by naive_solver].
      * by rewrite decide_False by naive_solver.
    + by rewrite decide_False by naive_solver.
Qed.

(** What dropping partitions before an assignment leaves. *)
Lemma drop_for_assign coop st l :
  let st1 := foldl drop_partition (if coop : bool then st else drop_all st) l in
  error st1 = error st ∧ revision st1 = revision st ∧ retires st st1 ∧
  ∀ p, p ∉ partition <$> l → partitions st1 !! p = if coop then get st p else None.
Proof.
  cbn. rewrite drop_partitions_error. destruct (shrinks_drops (if coop then st else drop_all st) l) as [_ ->].
  split; [by destruct coop|]. split; [by destruct coop|]. split.
  - destruct coop; [apply retires_drops|]. etrans; [apply retires_drop_all|apply retires_drops].
  - intros p Hp. rewrite drop_partitions_lookup, decide_False by done. by destruct coop.
Qed.
Lemma drop_for_revoke coop st l :
  let st1 := if coop : bool then foldl drop_partition st l else drop_all st in
  error st1 = error st ∧ revision st1 = revision st ∧ retires st st1 ∧
  ∀ p, partitions st1 !! p = if coop then if decide (p ∈ partition <$> l) then None else get st p else None.
Proof.
  destruct coop; cbn.
  - rewrite drop_partitions_error. destruct (shrinks_drops st l) as [_ ->].
    split_and!; [done..|apply retires_drops|]. intros p. apply drop_partitions_lookup.
  - split_and!; [done..|apply retires_drop_all|]. intros p. apply lookup_empty.
Qed.

(** The three kinds of rebalance that succeed. *)
Definition assigned self_topic restoring (nat : Native) (st st' : Assignments) (l : list Item) (calls : list NativeCall) :
    Prop :=
  ∃ l', calls = [if cooperative nat then IncrementalAssign l' else Assign l'] ∧
    Forall2 (item_restored self_topic restoring nat) l l' ∧ (restoring = false → l' = l) ∧
    (∀ item, item ∈ l' → ∃ t, get st' (partition item) = Some (wrap_u 64 (revision st + 1), t)) ∧
    (∀ p, p ∉ partition <$> l' → get st' p = if cooperative nat then get st p else None).
Definition revoked (nat : Native) (st st' : Assignments) (l : list Item) (calls : list NativeCall) : Prop :=
  calls = [if cooperative nat then IncrementalUnassign l else Unassign] ∧
  revision st' = wrap_u 64 (revision st + 1) ∧
  ∀ p, get st' p = if cooperative nat then if decide (p ∈ partition <$> l) then None else get st p else None.
(** ... and what any failing one leaves. *)
Definition failed_closed (st st' : Assignments) (e : string) (calls : list NativeCall) : Prop :=
  failed st' = true ∧ last calls = Some Unassign ∧
  error st' = (match error st with None => Some e | old => old end) ∧
  (∀ p g t, get st p = Some (g, t) → live st' t = false) ∧
  ∀ p g (f : unit → HandlerResult unit), acknowledge st' p g f = Err "Kafka message belongs to a revoked assignment".
Lemma fail_closes st st1 e calls :
  error st1 = error st → retires st st1 → failed_closed st (fail st1 e) e (calls ++ [Unassign]).
Proof.
  intros He Hr. split_and!; [done|by rewrite last_snoc|cbn; by rewrite He| |done].
  intros p g t Hp. by eapply retires_fail.
Qed.
Lemma restored_broker nat self_topic l l' : Forall2 (item_restored self_topic false nat) l l' → l' = l.
Proof. induction 1 as [|i i' l l' (_ & _ & _ & ->) _ IH]; [done|by rewrite IH]. Qed.

(** C7: a rebalance starts partitions only where it may, and fails closed.
    Partitions are assigned only when all of them are of the endpoint's topic;
    in recovery mode each is covered by the checkpoint with a next offset
    inside the retained log, which becomes its starting offset, and without
    recovery each starts where the broker says; each is then owned under one
    new generation, and the others are kept by a cooperative protocol and
    dropped otherwise.  A revocation removes the revoked partitions, all of
    them without a cooperative protocol.  A failure of any rebalance event,
    an error reported by the broker included, leaves the consumer failed and
    unassigned, keeps the first error, cancels the context of every partition
    it held, and refuses every acknowledgement; a callback that panics is
    outside the claim. *)
Theorem assignment_restores self_topic restoring nat st event l :
  match apply self_topic restoring nat st event l with
  | (Ok _, st', calls) =>
      match event with
      | AssignPartitions => assigned self_topic restoring nat st st' l calls
      | RevokePartitions => revoked nat st st' l calls
      | RebalanceError _ => False
      end
  | (Err e, _, _) =>
      let '(st', calls) := rebalance self_topic restoring nat st event l in failed_closed st st' e calls
  | (Panic, _, _) => True
  end.
Proof.
  unfold rebalance, apply. destruct event as [| |text].
  - destruct (check_assignment self_topic restoring nat st l) as [l'|e|] eqn:Hc; [| |done].
    + apply check_assignment_Ok in Hc.
      destruct (drop_for_assign (cooperative nat) st l') as (Herr & Hrev & Hret & Hother).
      destruct (native_call nat _) as [u|e|]; [|by apply fail_closes|done].
      exists l'. split_and!; [done..| | |].
      * intros ->. by eapply restored_broker.
      * intros item Hin. destruct (own_partitions_have (bump_revision (foldl drop_partition
          (if cooperative nat then st else drop_all st) l')) l' item Hin) as [t Ht].
        exists t. unfold get. rewrite Ht. cbn. by rewrite Hrev.
      * intros p Hp. unfold get at 1. rewrite own_partitions_other by done. by apply Hother.
    + apply fail_closes; [done|split; [done|by left]].
  - destruct (drop_for_revoke (cooperative nat) st l) as (Herr & Hrev & Hret & Hother).
    destruct (native_call nat _) as [u|e|]; [|by apply fail_closes|done].
    split_and!; [done|cbn; by rewrite Hrev|exact Hother].
  - by apply (fail_closes st st _ []).
Qed.

(** ** Witness: a reassigned partition refuses the old message. *)
Definition native_ok : Native :=
  MkNative false (Ok None) (λ _ _, Ok (0, 10)) (λ _, Ok tt) (λ _, Ok tt) false.
Definition item_example : Item := MkItem "t" 2 None.
Definition assigned_once : Assignments :=
  (rebalance "t" false native_ok Assignments_new AssignPartitions [item_example]).1.
Definition assigned_twice : Assignments :=
  (rebalance "t" false native_ok assigned_once AssignPartitions [item_example]).1.
Lemma acknowledge_fenced_witness :
  get assigned_once 2 = Some (1, 0) ∧ get assigned_twice 2 = Some (2, 1) ∧
  acknowledge assigned_twice 2 1 (λ _, Ok tt) = Err "Kafka message belongs to a revoked assignment".
Proof.
  split; [vm_compute; reflexivity|]. split; [vm_compute; reflexivity|].
  rewrite (acknowledge_fenced "t" false 1 1 assigned_once assigned_twice 2 1 0 (λ _, Ok tt)).
  - vm_compute. reflexivity.
  - eapply nsteps_l; [apply (cs_rebalance _ _ native_ok _ AssignPartitions [item_example])|constructor].
  - eapply nsteps_l; [apply (cs_rebalance _ _ native_ok _ AssignPartitions [item_example])|constructor].
  - vm_compute. reflexivity.
  - vm_compute. reflexivity.
Defined.
