(* ===== verification/LocalSource.v ===== *)
(** The local source, [src/src/datasource/localsource/custom.rs]: the
    concurrency gate in front of a handler, and the correlation of pipeline
    results with the requests that wait for them.

    Requests ([endpoint_request]) and results ([consume_result]) run as
    threads; a step is one atomic access of the source: an atomic load or
    exchange, an operation of the pending map, taking or releasing the
    lifetime lock, or the return of a handler.  The pending map is the plain
    map of the rotating map's specification.  Handlers are arbitrary: their
    answers are arguments of the steps.  Metrics and spans are left out, and a
    request's future is not dropped before it ends. *)

From S2P Require Import Prelude Errors.
Local Open Scope Z_scope.

Inductive Outcome := Succeeded | Failed | TimedOut | BeginFailed | Duplicate.

(** Where a request is in [endpoint_request]. *)
Inductive RequestPc :=
| RAcquire                                  (** top of [acquire_concurrency] *)
| RChecked                                  (** not stopped *)
| RLoaded (active : Z)
| RWillWait                                 (** before [notified()] *)
| RWaiting                                  (** registered with the notifier *)
| RRefused
| RBegin
| RRegister
| RConsume (entry : option Z)
| RAwait (entry : option Z)
| RPop (entry : option Z) (result : Outcome) (wait_cancelled : bool)
| RLifetime (removed entry : option Z) (result : Outcome) (wait_cancelled : bool)
| RDecide (removed entry : option Z) (result : Outcome) (wait_cancelled : bool)
| REnd (removed : option Z) (result : Outcome)
| RUnlock (removed : option Z) (result : Outcome)
| RDrop (result : Outcome)                  (** [ActiveRequestGuard::drop] *)
| RNotify (result : Outcome)
| RFinished (result : Outcome).
Record Request := MkRequest { r_sid : string; r_pc : RequestPc }.

(** A pending request: its owner, the lifetime lock, its result context. *)
Record Entry := MkEntry {
  e_owner : Z;
  readers : gset Z;
  writer : bool;
  callbacks : gset string;
  done : bool }.

(** Where a result is in [consume_result]. *)
Inductive ResultPc :=
| SGet
| SLock (entry : Z)
| SRecheck (entry : Z)
| SLookup (entry : Z)
| SCallback (entry : Z) (message_id : string)
| SRelease (entry : Z)
| SDone.
Record Result := MkResult { s_sid : option string; s_pc : ResultPc }.

Record Source := MkSource {
  active : Z;
  stopped : bool;
  pending : gmap string Z;
  entries : gmap Z Entry;
  requests : gmap Z Request;
  results : gmap Z Result;
  next_id : Z }.

Section source.
(** The handler's concurrency limit, and whether the input has a result stream. *)
Context (limit : Z) (has_result : bool).
Implicit Types s : Source.

Definition source_new : Source := MkSource 0 false ∅ ∅ ∅ ∅ 0.

Definition set_request s (tid : Z) (r : Request) : Source :=
  MkSource (active s) (stopped s) (pending s) (entries s) (<[tid := r]> (requests s)) (results s) (next_id s).
Definition goto s (tid : Z) (r : Request) (pc : RequestPc) : Source := set_request s tid (MkRequest (r_sid r) pc).
Definition set_active s (n : Z) : Source :=
  MkSource n (stopped s) (pending s) (entries s) (requests s) (results s) (next_id s).
Definition set_entry s (a : Z) (e : Entry) : Source :=
  MkSource (active s) (stopped s) (pending s) (<[a := e]> (entries s)) (requests s) (results s) (next_id s).
Definition set_result s (tid : Z) (r : Result) : Source :=
  MkSource (active s) (stopped s) (pending s) (entries s) (requests s) (<[tid := r]> (results s)) (next_id s).

(** [Notify::notify_waiters] wakes the registered waiters only. *)
Definition wake (r : Request) : Request :=
  match r_pc r with RWaiting => MkRequest (r_sid r) RAcquire | _ => r end.
Definition notify_waiters s : Source :=
  MkSource (active s) (stopped s) (pending s) (entries s) (wake <$> requests s) (results s) (next_id s).

(** ** The gate *)
Definition acquire_turn s (tid : Z) (r : Request) : option Source :=
  match r_pc r with
  | RAcquire => Some (goto s tid r (if stopped s then RRefused else RChecked))
  | RChecked => Some (goto s tid r (RLoaded (active s)))
  | RLoaded a =>
      if decide (limit = 0 ∨ a < limit) then
        (* compare_exchange *)
        if decide (active s = a) then Some (goto (set_active s (a + 1)) tid r RBegin)
        else Some (goto s tid r RAcquire)
      else Some (goto s tid r RWillWait)
  | RWillWait => Some (goto s tid r RWaiting)
  | _ => None
  end.
(** [ActiveRequestGuard::drop] *)
Definition guard_drop s (tid : Z) (r : Request) : option Source :=
  match r_pc r with
  | RDrop result => Some (goto (set_active s (active s - 1)) tid r (RNotify result))
  | RNotify result => Some (notify_waiters (goto s tid r (RFinished result)))
  | _ => None
  end.
(** [stop], up to its [notify_waiters]. *)
Definition stop_store s : Source :=
  MkSource (active s) true (pending s) (entries s) (requests s) (results s) (next_id s).

(** ** Requests *)
Definition request_arrives s : Source :=
  MkSource (active s) (stopped s) (pending s) (entries s)
    (<[next_id s := MkRequest "" RAcquire]> (requests s)) (results s) (next_id s + 1).
(** [begin_request] answers with a stream identifier, or an error. *)
Definition begin_returns s (tid : Z) (r : Request) (sid : option string) : option Source :=
  match r_pc r, sid with
  | RBegin, Some sid => Some (set_request s tid (MkRequest sid RRegister))
  | RBegin, None => Some (goto s tid r (RDrop BeginFailed))
  | _, _ => None
  end.
Definition register s (tid : Z) (r : Request) : option Source :=
  match r_pc r with
  | RRegister =>
      if negb has_result then Some (goto s tid r (RConsume None))
      else match pending s !! r_sid r with
           | Some _ => Some (goto s tid r (REnd None Duplicate))
           | None =>
               let a := next_id s in
               Some (MkSource (active s) (stopped s) (<[r_sid r := a]> (pending s))
                 (<[a := MkEntry tid ∅ false ∅ false]> (entries s))
                 (<[tid := MkRequest (r_sid r) (RConsume (Some a))]> (requests s)) (results s) (a + 1))
           end
  | _ => None
  end.
Definition consume_returns s (tid : Z) (r : Request) (ok : bool) : option Source :=
  match r_pc r with
  | RConsume e =>
      Some (goto s tid r (if ok && has_result then RAwait e else RPop e (if ok then Succeeded else Failed) false))
  | _ => None
  end.
Definition is_done s (e : option Z) : bool :=
  match e ≫= λ a, entries s !! a with Some e => done e | None => false end.
(** The [select!]: the result context was completed, or the context ended. *)
Definition await_done s (tid : Z) (r : Request) : option Source :=
  match r_pc r with
  | RAwait e => if is_done s e then Some (goto s tid r (RPop e Succeeded false)) else None
  | _ => None
  end.
Definition await_cancelled s (tid : Z) (r : Request) : option Source :=
  match r_pc r with
  | RAwait e => Some (goto s tid r (RPop e TimedOut true))
  | _ => None
  end.
Definition pop_pending s (tid : Z) (r : Request) : option Source :=
  match r_pc r with
  | RPop e result cancelled =>
      if has_result then
        Some (MkSource (active s) (stopped s) (delete (r_sid r) (pending s)) (entries s)
          (<[tid := MkRequest (r_sid r) (RLifetime (pending s !! r_sid r) e result cancelled)]> (requests s))
          (results s) (next_id s))
      else Some (goto s tid r (RLifetime None e result cancelled))
  | _ => None
  end.
(** [lifetime.write().await]: waits for the results that hold the lock. *)
Definition take_lifetime s (tid : Z) (r : Request) : option Source :=
  match r_pc r with
  | RLifetime None e result cancelled => Some (goto s tid r (RDecide None e result cancelled))
  | RLifetime (Some a) e result cancelled =>
      entry ← entries s !! a;
      if decide (readers entry = ∅ ∧ writer entry = false)
      then Some (goto (set_entry s a (MkEntry (e_owner entry) ∅ true (callbacks entry) (done entry)))
             tid r (RDecide (Some a) e result cancelled))
      else None
  | _ => None
  end.
(** The result, once no pipeline result can complete the request. *)
Definition decide_result s (tid : Z) (r : Request) : option Source :=
  match r_pc r with
  | RDecide removed e result cancelled =>
      Some (goto s tid r (REnd removed (if cancelled && is_done s e then Succeeded else result)))
  | _ => None
  end.
Definition end_returns s (tid : Z) (r : Request) : option Source :=
  match r_pc r with
  | REnd removed result => Some (goto s tid r (RUnlock removed result))
  | _ => None
  end.
(** The end of the scope releases the write lock, then the gate. *)
Definition unlock s (tid : Z) (r : Request) : option Source :=
  match r_pc r with
  | RUnlock None result => Some (goto s tid r (RDrop result))
  | RUnlock (Some a) result =>
      e ← entries s !! a;
      Some (goto (set_entry s a (MkEntry (e_owner e) (readers e) false (callbacks e) (done e))) tid r (RDrop result))
  | _ => None
  end.

(** ** Results *)
Definition result_arrives s (sid : option string) : Source :=
  MkSource (active s) (stopped s) (pending s) (entries s) (requests s)
    (<[next_id s := MkResult sid SGet]> (results s)) (next_id s + 1).
Definition result_goto s (tid : Z) (t : Result) (pc : ResultPc) : Source := set_result s tid (MkResult (s_sid t) pc).
Definition with_readers (e : Entry) (rs : gset Z) : Entry := MkEntry (e_owner e) rs (writer e) (callbacks e) (done e).
Definition result_turn s (tid : Z) (t : Result) (message_id : string) : option Source :=
  match s_pc t with
  | SGet =>
      match s_sid t ≫= λ sid, pending s !! sid with
      | None => Some (result_goto s tid t SDone)
      | Some a => Some (result_goto s tid t (SLock a))
      end
  | SLock a =>
      e ← entries s !! a;
      if writer e then None
      else Some (result_goto (set_entry s a (with_readers e ({[tid]} ∪ readers e))) tid t (SRecheck a))
  | SRecheck a =>
      (* Arc::ptr_eq *)
      Some (result_goto s tid t
        (if decide ((s_sid t ≫= λ sid, pending s !! sid) = Some a) then SLookup a else SRelease a))
  | SLookup a =>
      e ← entries s !! a;
      Some (result_goto s tid t (if decide (message_id ∈ callbacks e) then SCallback a message_id else SRelease a))
  | SRelease a =>
      e ← entries s !! a;
      Some (result_goto (set_entry s a (with_readers e (readers e ∖ {[tid]}))) tid t SDone)
  | _ => None
  end.
(** The callback answers whether it is finished. *)
Definition callback_returns s (tid : Z) (t : Result) (finished : bool) : option Source :=
  match s_pc t with
  | SCallback a message_id =>
      e ← entries s !! a;
      let e := if finished then MkEntry (e_owner e) (readers e) (writer e) (callbacks e ∖ {[message_id]}) (done e)
               else e in
      Some (result_goto (set_entry s a e) tid t (SRelease a))
  | _ => None
  end.

(** ** The result context, held by the handler *)
Definition set_result_callback s (a : Z) (e : Entry) (message_id : string) : Source :=
  set_entry s a (MkEntry (e_owner e) (readers e) (writer e) ({[message_id]} ∪ callbacks e) (done e)).
Definition result_done s (a : Z) (e : Entry) : Source :=
  set_entry s a (MkEntry (e_owner e) (readers e) (writer e) (callbacks e) true).

(** One step of a request that runs alone. *)
Inductive request_turn s (tid : Z) (r : Request) : Source → Prop :=
| rt_acquire s' : acquire_turn s tid r = Some s' → request_turn s tid r s'
| rt_begin sid s' : begin_returns s tid r sid = Some s' → request_turn s tid r s'
| rt_register s' : register s tid r = Some s' → request_turn s tid r s'
| rt_consume ok s' : consume_returns s tid r ok = Some s' → request_turn s tid r s'
| rt_done s' : await_done s tid r = Some s' → request_turn s tid r s'
| rt_cancelled s' : await_cancelled s tid r = Some s' → request_turn s tid r s'
| rt_pop s' : pop_pending s tid r = Some s' → request_turn s tid r s'
| rt_lifetime s' : take_lifetime s tid r = Some s' → request_turn s tid r s'
| rt_decide s' : decide_result s tid r = Some s' → request_turn s tid r s'
| rt_end s' : end_returns s tid r = Some s' → request_turn s tid r s'
| rt_unlock s' : unlock s tid r = Some s' → request_turn s tid r s'
| rt_drop s' : guard_drop s tid r = Some s' → request_turn s tid r s'.
Inductive source_step : Source → Source → Prop :=
| ls_request s : source_step s (request_arrives s)
| ls_result s sid : source_step s (result_arrives s sid)
| ls_stop s : source_step s (stop_store s)
| ls_stop_notify s : stopped s = true → source_step s (notify_waiters s)
| ls_request_turn s tid r s' : requests s !! tid = Some r → request_turn s tid r s' → source_step s s'
| ls_result_turn s tid t mid s' : results s !! tid = Some t → result_turn s tid t mid = Some s' → source_step s s'
| ls_callback_returns s tid t fin s' :
    results s !! tid = Some t → callback_returns s tid t fin = Some s' → source_step s s'
| ls_callback s a e mid : entries s !! a = Some e → source_step s (set_result_callback s a e mid)
| ls_done s a e : entries s !! a = Some e → source_step s (result_done s a e).
Definition source_reachable s : Prop := rtc source_step source_new s.
End source.

(** * Lemmas *)
Section invariants.
Context (limit : Z) (has_result : bool).
Notation step := (source_step limit has_result).
Implicit Types s : Source.

(** ** The gate *)
Definition is_active (r : Request) : bool :=
  match r_pc r with
  | RBegin | RRegister | RConsume _ | RAwait _ | RPop _ _ _ | RLifetime _ _ _ _ | RDecide _ _ _ _
  | REnd _ _ | RUnlock _ _ | RDrop _ => true
  | _ => false
  end.
Record gate_inv s : Prop := {
  g_active : active s = tally is_active (requests s);
  g_limit : 0 < limit → active s ≤ limit;
  g_fresh : ∀ tid r, requests s !! tid = Some r → tid < next_id s }.

Lemma wake_active r : is_active (wake r) = is_active r.
Proof. unfold is_active, wake. by destruct r as [sid []]. Qed.
Lemma gate_notify s : gate_inv s → gate_inv (notify_waiters s).
Proof.
  intros [H1 H2 H3]. split; cbn; [|done|].
  - rewrite H1. symmetry. apply tally_fmap, wake_active.
  - intros tid r. rewrite lookup_fmap. destruct (requests s !! tid) eqn:Hr; [|done]. eauto.
Qed.
(** Moving one request, with the counter. *)
Lemma gate_move s s' tid r r' :
  gate_inv s → requests s !! tid = Some r → requests s' = <[tid := r']> (requests s) → next_id s ≤ next_id s' →
  active s' = active s - (if is_active r then 1 else 0) + (if is_active r' then 1 else 0) →
  (0 < limit → active s' ≤ limit) → gate_inv s'.
Proof.
  intros [H1 H2 H3] Hr Hreq Hn Ha Hl. split; [|done|].
  - rewrite Hreq, (tally_update _ _ _ r r' Hr). lia.
  - intros t r0. rewrite Hreq, lookup_insert_Some. intros [[<- _]|[_ Ht]]; [apply H3 in Hr; lia|].
    apply H3 in Ht. lia.
Qed.
(** The step functions, unfolded at the request's place. *)
Ltac request_cases H pc :=
  destruct H as [? H|? ? H|? H|? ? H|? H|? H|? H|? H|? H|? H|? H|? H];
  unfold acquire_turn, begin_returns, register, consume_returns, await_done, await_cancelled, pop_pending,
    take_lifetime, decide_result, end_returns, unlock, guard_drop in H; cbn [r_pc r_sid] in H;
  destruct pc; try done; repeat (case_match; try done); simplify_option_eq; try done.

Lemma gate_request s s' tid r :
  request_turn limit has_result s tid r s' → requests s !! tid = Some r → gate_inv s → gate_inv s'.
Proof.
  intros Ht Hr Hg. pose proof (g_limit _ Hg).
  destruct r as [sid pc]. request_cases Ht pc.
  all: try apply gate_notify.
  all: eapply gate_move; [exact Hg|exact Hr|reflexivity|..]; cbn; try lia.
Qed.
Lemma gate_frame s s' :
  gate_inv s → active s' = active s → requests s' = requests s → next_id s ≤ next_id s' → gate_inv s'.
Proof.
  intros [H1 H2 H3] Ha Hr Hn. split; rewrite ?Ha, ?Hr; [done..|]. intros tid r Ht%H3. lia.
Qed.
(** Results never touch the requests, the map or the gate. *)
Definition result_frame s s' : Prop :=
  active s' = active s ∧ requests s' = requests s ∧ next_id s' = next_id s ∧ pending s' = pending s.
Lemma result_turn_frame s tid t mid s' : result_turn s tid t mid = Some s' → result_frame s s'.
Proof. unfold result_turn. intros H. destruct (s_pc t); simplify_option_eq; repeat case_match; by simplify_eq/=. Qed.
Lemma callback_returns_frame s tid t fin s' : callback_returns s tid t fin = Some s' → result_frame s s'.
Proof. unfold callback_returns. intros H. destruct (s_pc t); simplify_option_eq; repeat case_match; by simplify_eq/=. Qed.
Lemma gate_result s s' : result_frame s s' → gate_inv s → gate_inv s'.
Proof. intros (Ha & Hr & Hn & _) Hg. eapply gate_frame; [done..|]. lia. Qed.

Lemma gate_step s s' : step s s' → gate_inv s → gate_inv s'.
Proof.
  intros Hs Hg. pose proof Hg as [H1 H2 H3].
  destruct Hs as [s|s sid|s|s _|s tid r s' Hr Ht|s tid t mid s' _ Ht|s tid t fin s' _ Ht|s a e mid He|s a e He].
  - split; cbn; [|done|].
    + rewrite tally_insert_new; [cbn; lia|]. apply eq_None_not_Some. intros [r Hr%H3]. lia.
    + intros t r. rewrite lookup_insert_Some. intros [[<- _]|[_ Ht%H3]]; lia.
  - eapply gate_frame; [done|done|done|cbn; lia].
  - eapply gate_frame; [done|done|done|cbn; lia].
  - by apply gate_notify.
  - by eapply gate_request.
  - eapply gate_result; [by eapply result_turn_frame|done].
  - eapply gate_result; [by eapply callback_returns_frame|done].
  - eapply gate_frame; [done|done|done|cbn; lia].
  - eapply gate_frame; [done|done|done|cbn; lia].
Qed.
Lemma gate_reachable s : source_reachable limit has_result s → gate_inv s.
Proof.
  intros Hs. refine (rtc_ind_r gate_inv _ _ _ s Hs).
  - split; cbn; [done|lia|]. intros tid r. by rewrite lookup_empty.
  - intros x y _ Hxy. by apply gate_step.
Qed.

(** ** Results and the end of their request *)
(** What a request holds of the pending map. *)
Inductive View :=
| VOpen (sid : string) (a : Z)              (** registered *)
| VClosing (sid : string) (a : Z)           (** removed, waiting for the lock *)
| VUnregistered.                            (** past registration with no entry *)
Definition view (r : Request) : option View :=
  match r_pc r with
  | RConsume (Some a) | RAwait (Some a) | RPop (Some a) _ _ => Some (VOpen (r_sid r) a)
  | RConsume None | RAwait None | RPop None _ _ => if has_result then Some VUnregistered else None
  | RLifetime (Some a) _ _ _ => Some (VClosing (r_sid r) a)
  | _ => None
  end.
Definition views s (tid : Z) : option View := requests s !! tid ≫= view.
Definition owner s (a : Z) : option Z := e_owner <$> entries s !! a.
Definition holds (t : Result) : option Z :=
  match s_pc t with SRecheck a | SLookup a | SCallback a _ | SRelease a => Some a | _ => None end.
Definition serves (t : Result) : option Z :=
  match s_pc t with SLookup a | SCallback a _ => Some a | _ => None end.
Definition served s (sid : string) (a : Z) : Prop :=
  ∃ tid, owner s a = Some tid ∧ (views s tid = Some (VOpen sid a) ∨ views s tid = Some (VClosing sid a)).
Definition reading s (a t : Z) : Prop := ∃ e, entries s !! a = Some e ∧ t ∈ readers e.

Record life_inv s : Prop := {
  l_fresh : ∀ a e, entries s !! a = Some e → a < next_id s;
  l_pending : ∀ sid a, pending s !! sid = Some a → ∃ tid, owner s a = Some tid ∧ views s tid = Some (VOpen sid a);
  l_open : ∀ tid sid a, views s tid = Some (VOpen sid a) →
    has_result = true ∧ pending s !! sid = Some a ∧ owner s a = Some tid;
  l_registered : ∀ tid, views s tid ≠ Some VUnregistered;
  l_holds : ∀ t x a, results s !! t = Some x → holds x = Some a → reading s a t;
  l_serves : ∀ t x a, results s !! t = Some x → serves x = Some a → ∃ sid, s_sid x = Some sid ∧ served s sid a }.

Lemma life_frame s s' :
  life_inv s → pending s' = pending s → (∀ a, owner s' a = owner s a) → (∀ tid, views s' tid = views s tid) →
  next_id s ≤ next_id s' →
  (∀ t x a, results s' !! t = Some x → holds x = Some a → reading s' a t) →
  (∀ t x a, results s' !! t = Some x → serves x = Some a → ∃ sid, s_sid x = Some sid ∧ served s sid a) →
  life_inv s'.
Proof.
  intros [H1 H2 H3 H4 H5 H6] Hp Ho Hv Hn Hh Hs. split.
  - intros a e He. specialize (Ho a). unfold owner in Ho. rewrite He in Ho.
    destruct (entries s !! a) eqn:Ha; [|done]. apply H1 in Ha. lia.
  - intros sid a. rewrite Hp. intros (tid & Hot & Hvt)%H2. exists tid. by rewrite Ho, Hv.
  - intros tid sid a. rewrite Hp, Hv, Ho. apply H3.
  - intros tid. rewrite Hv. apply H4.
  - done.
  - intros t x a Hx Ha. destruct (Hs t x a Hx Ha) as (sid & Hsid & tid & Hot & Hvt).
    exists sid. split; [done|]. exists tid. by rewrite Ho, Hv.
Qed.
(** A move of a request that keeps its view. *)
Lemma life_goto s s' tid r r' :
  life_inv s → requests s !! tid = Some r → requests s' = <[tid := r']> (requests s) → view r' = view r →
  pending s' = pending s → entries s' = entries s → results s' = results s → next_id s ≤ next_id s' → life_inv s'.
Proof.
  intros Hl Hr Hreq Hv Hp He Hres Hn. eapply life_frame; [exact Hl|done| | |done| |].
  - intros a. unfold owner. by rewrite He.
  - intros t. unfold views. rewrite Hreq. destruct (decide (t = tid)) as [->|]; by simplify_map_eq.
  - intros t x a. rewrite Hres. unfold reading. rewrite He. apply (l_holds _ Hl).
  - intros t x a. rewrite Hres. apply (l_serves _ Hl).
Qed.
(** A change of an entry that no result loses its lock by. *)
Lemma life_set_entry s a e e' :
  entries s !! a = Some e → e_owner e' = e_owner e →
  (∀ t x, results s !! t = Some x → holds x = Some a → t ∈ readers e → t ∈ readers e') →
  life_inv s → life_inv (set_entry s a e').
Proof.
  intros He Ho Hr Hl. eapply life_frame; [exact Hl|done| |done|done| |].
  - intros b. unfold owner. cbn. destruct (decide (b = a)) as [->|]; simplify_map_eq; congruence.
  - intros t x b Hx Hb. cbn in Hx. destruct (l_holds _ Hl t x b Hx Hb) as (eb & Heb & Ht).
    unfold reading. cbn. destruct (decide (b = a)) as [->|]; simplify_map_eq; eauto.
  - exact (l_serves _ Hl).
Qed.
(** A move of a result. *)
Lemma life_result s tid x' :
  (∀ a, holds x' = Some a → reading s a tid) →
  (∀ a, serves x' = Some a → ∃ sid, s_sid x' = Some sid ∧ served s sid a) →
  life_inv s → life_inv (set_result s tid x').
Proof.
  intros Hh Hs Hl. eapply life_frame; [exact Hl|done|done|done|done| |].
  - intros t x a. cbn. rewrite lookup_insert_Some. intros [[<- <-]|[_ Hx]]; [apply Hh|exact (l_holds _ Hl _ _ _ Hx)].
  - intros t x a. cbn. rewrite lookup_insert_Some. intros [[<- <-]|[_ Hx]]; [apply Hs|exact (l_serves _ Hl _ _ _ Hx)].
Qed.
Lemma serves_holds x a : serves x = Some a → holds x = Some a.
Proof. unfold serves, holds. by destruct (s_pc x). Qed.

Lemma views_insert s tid r' t :
  views (set_request s tid r') t = if decide (t = tid) then view r' else views s t.
Proof. unfold views. cbn. case_decide; by simplify_map_eq. Qed.
(** The write lock: no result is being served. *)
Lemma life_closed s tid r r' sid a e :
  requests s !! tid = Some r → view r = Some (VClosing sid a) → view r' = None →
  entries s !! a = Some e → readers e = ∅ → life_inv s → life_inv (set_request s tid r').
Proof.
  intros Hr Hv Hv' He Hre Hl. assert (Hvt : views s tid = Some (VClosing sid a)) by (unfold views; by rewrite Hr).
  pose proof Hl as [H1 H2 H3 H4 H5 H6]. split; cbn; [done| | | |done|].
  - intros sid' a' (t & Ho & Hvo)%H2. exists t. rewrite views_insert. case_decide; [congruence|done].
  - intros t sid' a'. rewrite views_insert. case_decide; [congruence|]. apply H3.
  - intros t. rewrite views_insert. case_decide; [congruence|]. apply H4.
  - intros t x b Hx Hb. destruct (H6 t x b Hx Hb) as (sid' & Hsid & tid' & Ho & Hvo).
    exists sid'. split; [done|]. exists tid'. rewrite views_insert. case_decide; [|done]. subst tid'.
    assert (b = a) as -> by (destruct Hvo; congruence).
    destruct (H5 t x a Hx (serves_holds _ _ Hb)) as (e' & He' & Ht). simplify_eq. set_solver.
Qed.
(** Removing its own entry. *)
Lemma life_pop s tid r r' sid a :
  requests s !! tid = Some r → view r = Some (VOpen sid a) → view r' = Some (VClosing sid a) → life_inv s →
  life_inv (MkSource (active s) (stopped s) (delete sid (pending s)) (entries s) (<[tid := r']> (requests s))
    (results s) (next_id s)).
Proof.
  intros Hr Hv Hv' Hl. assert (Hvt : views s tid = Some (VOpen sid a)) by (unfold views; by rewrite Hr).
  set (s' := MkSource _ _ _ _ _ _ _). assert (Hvi : ∀ t, views s' t = if decide (t = tid) then view r' else views s t)
    by exact (views_insert s tid r').
  pose proof Hl as [H1 H2 H3 H4 H5 H6]. destruct (H3 _ _ _ Hvt) as (_ & Hpa & Hoa).
  split; cbn; [done| | | |done|].
  - intros sid' a'. rewrite lookup_delete_Some. intros [Hne (t & Ho & Hvo)%H2]. exists t. rewrite Hvi.
    case_decide; [congruence|done].
  - intros t sid' a'. rewrite Hvi. case_decide; [congruence|]. intros (Hhr & Hpt & Hot)%H3.
    split_and!; [done| |done]. rewrite lookup_delete_ne; [done|]. intros <-.
    change (owner s' a') with (owner s a') in Hot. congruence.
  - intros t. rewrite Hvi. case_decide; [congruence|]. apply H4.
  - intros t x b Hx Hb. destruct (H6 t x b Hx Hb) as (sid' & Hsid & tid' & Ho & Hvo).
    exists sid'. split; [done|]. exists tid'. rewrite Hvi. case_decide; [|done]. subst tid'.
    split; [done|]. right. destruct Hvo; congruence.
Qed.
(** Registering: the identifier is not in the map, the entry is new. *)
Lemma life_register s tid r r' sid :
  requests s !! tid = Some r → view r = None → view r' = Some (VOpen sid (next_id s)) → has_result = true →
  pending s !! sid = None → life_inv s →
  life_inv (MkSource (active s) (stopped s) (<[sid := next_id s]> (pending s))
    (<[next_id s := MkEntry tid ∅ false ∅ false]> (entries s)) (<[tid := r']> (requests s)) (results s) (next_id s + 1)).
Proof.
  intros Hr Hv Hv' Hhr Hp Hl. assert (Hvt : views s tid = None) by (unfold views; by rewrite Hr).
  set (s' := MkSource _ _ _ _ _ _ _). assert (Hvi : ∀ t, views s' t = if decide (t = tid) then view r' else views s t)
    by exact (views_insert s tid r').
  pose proof Hl as [H1 H2 H3 H4 H5 H6].
  assert (Hfr : entries s !! next_id s = None) by (apply eq_None_not_Some; intros [e He%H1]; lia).
  assert (Hoi : ∀ b, owner s' b = if decide (b = next_id s) then Some tid else owner s b)
    by (intros b; unfold owner; cbn; case_decide; by simplify_map_eq).
  assert (Hon : ∀ b t, owner s b = Some t → b ≠ next_id s) by (intros b t Hb ->; unfold owner in Hb; by rewrite Hfr in Hb).
  split; cbn.
  - intros a e. rewrite lookup_insert_Some. intros [[<- _]|[_ He%H1]]; lia.
  - intros sid' a'. rewrite lookup_insert_Some. intros [[<- <-]|[Hne (t & Ho & Hvo)%H2]].
    + exists tid. rewrite Hoi, Hvi, !decide_True by done. done.
    + exists t. rewrite Hoi, Hvi. rewrite decide_False by eauto. case_decide; [congruence|done].
  - intros t sid' a'. rewrite Hvi, Hoi. case_decide.
    + subst t. rewrite Hv'. intros [= <- <-]. by rewrite lookup_insert_eq, decide_True.
    + intros (_ & Hpt & Hot)%H3. rewrite decide_False by eauto. rewrite lookup_insert_ne by congruence. done.
  - intros t. rewrite Hvi. case_decide; [congruence|]. apply H4.
  - intros t x a Hx Ha. destruct (H5 t x a Hx Ha) as (e & He & Ht). exists e. cbn.
    rewrite lookup_insert_ne by congruence. done.
  - intros t x b Hx Hb. destruct (H6 t x b Hx Hb) as (sid' & Hsid & tid' & Ho & Hvo).
    exists sid'. split; [done|]. exists tid'. rewrite Hvi, Hoi, decide_False by eauto. split; [done|].
    case_decide; [destruct Hvo; congruence|done].
Qed.
Lemma life_same s s' :
  pending s' = pending s → entries s' = entries s → requests s' = requests s → results s' = results s →
  next_id s' = next_id s → life_inv s → life_inv s'.
Proof.
  intros Hp He Hr Hres Hn Hl. eapply life_frame; [exact Hl|done|unfold owner|unfold views|lia|..];
    rewrite ?He, ?Hr, ?Hres; [done..| |].
  - intros t x a Hx Ha. unfold reading. rewrite He. exact (l_holds _ Hl _ _ _ Hx Ha).
  - exact (l_serves _ Hl).
Qed.
Lemma life_notify s : life_inv s → life_inv (notify_waiters s).
Proof.
  intros Hl. eapply life_frame; [exact Hl|done|done| |done|exact (l_holds _ Hl)|exact (l_serves _ Hl)].
  intros tid. unfold views. cbn. rewrite lookup_fmap. destruct (requests s !! tid) as [[sid []]|]; done.
Qed.
Lemma life_take s tid sid a e o result b :
  requests s !! tid = Some (MkRequest sid (RLifetime (Some a) o result b)) → entries s !! a = Some e →
  readers e = ∅ ∧ writer e = false → life_inv s →
  life_inv (set_request (set_entry s a (MkEntry (e_owner e) ∅ true (callbacks e) (done e))) tid
    (MkRequest sid (RDecide (Some a) o result b))).
Proof.
  intros Hr He [Hre _] Hl.
  eapply (life_closed _ tid _ _ sid a (MkEntry (e_owner e) ∅ true (callbacks e) (done e)));
    [exact Hr|done|done|apply lookup_insert_eq|done|].
  eapply life_set_entry; [exact He|done| |done]. cbn. by rewrite Hre.
Qed.
Lemma life_unlock s tid sid a e result :
  requests s !! tid = Some (MkRequest sid (RUnlock (Some a) result)) → entries s !! a = Some e → life_inv s →
  life_inv (set_request (set_entry s a (MkEntry (e_owner e) (readers e) false (callbacks e) (done e))) tid
    (MkRequest sid (RDrop result))).
Proof.
  intros Hr He Hl.
  apply (life_set_entry s a e (MkEntry (e_owner e) (readers e) false (callbacks e) (done e)) He) in Hl; [|done..].
  by eapply life_goto.
Qed.
Lemma life_pop_pending s s' tid sid o result b :
  requests s !! tid = Some (MkRequest sid (RPop o result b)) →
  pop_pending has_result s tid (MkRequest sid (RPop o result b)) = Some s' → life_inv s → life_inv s'.
Proof.
  intros Hr Hs Hl. pose proof (l_registered _ Hl tid) as Hu. pose proof (l_open _ Hl tid sid) as Ho.
  unfold views in Hu, Ho. rewrite Hr in Hu, Ho. unfold pop_pending in Hs. cbn in *. unfold view in Hu, Ho; cbn in *.
  destruct has_result eqn:Hh; simplify_eq/=; destruct o as [a|]; try done.
  - destruct (Ho a eq_refl) as (_ & Hp & _). rewrite Hp. by eapply life_pop.
  - by destruct (Ho a eq_refl) as (? & _).
  - eapply life_goto; [exact Hl|exact Hr|reflexivity|cbn; by rewrite Hh|reflexivity..].
Qed.
Lemma life_request s s' tid r :
  request_turn limit has_result s tid r s' → requests s !! tid = Some r → life_inv s → life_inv s'.
Proof.
  intros Ht Hr Hl. destruct r as [sid pc].
  request_cases Ht pc.
  all: try apply life_notify.
  all: try (eapply life_goto; [exact Hl|exact Hr|reflexivity|cbn; repeat case_match; congruence|reflexivity..|cbn; lia]; fail).
  - eapply life_goto; [exact Hl|exact Hr|reflexivity|cbn; by destruct has_result|reflexivity..].
  - apply (life_register s tid _ (MkRequest sid (RConsume (Some (next_id s)))) sid) in Hr; [done..|by destruct has_result|done|done].
  - eapply life_pop_pending; [exact Hr|unfold pop_pending; cbn; by destruct has_result|done].
  - eapply life_pop_pending; [exact Hr|unfold pop_pending; cbn; by destruct has_result|done].
  - by apply life_take.
  - by eapply life_unlock.
Qed.
Lemma life_result_turn s s' tid t mid :
  results s !! tid = Some t → result_turn s tid t mid = Some s' → life_inv s → life_inv s'.
Proof.
  intros Ht Hs Hl. pose proof (l_holds _ Hl tid t) as Hh. pose proof (l_serves _ Hl tid t) as Hv.
  unfold result_turn in Hs. unfold holds in Hh. unfold serves in Hv. destruct (s_pc t) eqn:Hpc; try done.
  - case_match; simplify_eq/=; by apply life_result.
  - simplify_option_eq; case_match; simplify_eq/=.
    apply life_result; [|done|by eapply life_set_entry; [done|done|set_solver|]].
    intros a [= <-]. eexists. split; [apply lookup_insert_eq|set_solver].
  - simplify_eq/=. apply life_result; [|case_decide; [|done]|done].
    + intros a Ha. apply Hh; [done|]. by case_decide.
    + intros a [= <-]. destruct (s_sid t) as [sid|] eqn:Hsid; [|done]. exists sid. split; [done|].
      destruct (l_pending _ Hl sid entry) as (o & Ho & Hvo); [done|]. exists o. auto.
  - simplify_option_eq; simplify_eq/=; (apply life_result; [|..|done]); try done; intros a Ha; simplify_eq/=; auto.
  - simplify_option_eq. set (x' := MkResult (s_sid t) SDone).
    apply (life_set_entry (set_result s tid x') entry H); [done|done| |by apply life_result].
    intros t0 x. cbn. rewrite lookup_insert_Some. intros [[<- <-]|[Hne _]]; [done|]. set_solver.
Qed.
Lemma life_callback s s' tid t fin :
  results s !! tid = Some t → callback_returns s tid t fin = Some s' → life_inv s → life_inv s'.
Proof.
  intros Ht Hs Hl. pose proof (l_holds _ Hl tid t) as Hh. unfold callback_returns in Hs. unfold holds in Hh.
  destruct (s_pc t) eqn:Hpc; try done.
  destruct (entries s !! entry) as [e|] eqn:He; [|done]. cbn in Hs.
  set (e' := if fin then _ else _) in Hs. injection Hs as <-.
  destruct (Hh entry Ht eq_refl) as (e0 & He0 & Hin). rewrite He in He0. injection He0 as <-.
  assert (readers e' = readers e ∧ e_owner e' = e_owner e) as [Hr Ho] by (subst e'; by destruct fin).
  apply life_result; [|done|by eapply life_set_entry; [done|done|rewrite Hr|]].
  intros a [= <-]. exists e'. split; [apply lookup_insert_eq|by rewrite Hr].
Qed.
Lemma life_step s s' : step s s' → gate_inv s → life_inv s → life_inv s'.
Proof.
  intros Hs Hg Hl.
  destruct Hs as [s|s sid|s|s _|s tid r s' Hr Ht|s tid t mid s' Ht Hs|s tid t fin s' Ht Hs|s a e mid He|s a e He].
  - assert (requests s !! next_id s = None) by (apply eq_None_not_Some; intros [r Hr%(g_fresh _ Hg)]; lia).
    eapply life_frame; [exact Hl|done|done| |cbn; lia|exact (l_holds _ Hl)|exact (l_serves _ Hl)].
    intros tid. unfold views. cbn. destruct (decide (tid = next_id s)) as [->|]; by simplify_map_eq.
  - apply (life_result s (next_id s) (MkResult sid SGet)) in Hl; [|done..].
    eapply life_frame; [exact Hl|done|done|done|cbn; lia|exact (l_holds _ Hl)|exact (l_serves _ Hl)].
  - by apply (life_same s).
  - by apply life_notify.
  - by eapply life_request.
  - by eapply life_result_turn.
  - by eapply life_callback.
  - by eapply life_set_entry.
  - by eapply life_set_entry.
Qed.
Lemma life_reachable s : source_reachable limit has_result s → life_inv s.
Proof.
  intros Hs. assert (gate_inv s ∧ life_inv s) as [_ ?]; [|done].
  refine (rtc_ind_r (λ s, gate_inv s ∧ life_inv s) _ _ _ s Hs).
  - split; [by apply gate_reachable, rtc_refl|]. split; unfold views; cbn; intros *; by rewrite ?lookup_empty.
  - intros x y _ Hxy [Hg Hl]. split; [by eapply gate_step|by eapply life_step].
Qed.

(** ** Schedules *)
Inductive Turn :=
| TArrive | TResult (sid : option string) | TStop | TNotify
| TAcquire (tid : Z) | TBegin (tid : Z) (sid : option string) | TRegister (tid : Z) | TConsume (tid : Z) (ok : bool)
| TDone (tid : Z) | TCancelled (tid : Z) | TPop (tid : Z) | TLifetime (tid : Z) | TDecide (tid : Z) | TEnd (tid : Z)
| TUnlock (tid : Z) | TDrop (tid : Z)
| TResultTurn (tid : Z) (message_id : string) | TCallbackReturns (tid : Z) (finished : bool)
| TSetCallback (a : Z) (message_id : string) | TResultDone (a : Z).
Definition advance s (turn : Turn) : option Source :=
  match turn with
  | TArrive => Some (request_arrives s)
  | TResult sid => Some (result_arrives s sid)
  | TStop => Some (stop_store s)
  | TNotify => if stopped s then Some (notify_waiters s) else None
  | TAcquire tid => r ← requests s !! tid; acquire_turn limit s tid r
  | TBegin tid sid => r ← requests s !! tid; begin_returns s tid r sid
  | TRegister tid => r ← requests s !! tid; register has_result s tid r
  | TConsume tid ok => r ← requests s !! tid; consume_returns has_result s tid r ok
  | TDone tid => r ← requests s !! tid; await_done s tid r
  | TCancelled tid => r ← requests s !! tid; await_cancelled s tid r
  | TPop tid => r ← requests s !! tid; pop_pending has_result s tid r
  | TLifetime tid => r ← requests s !! tid; take_lifetime s tid r
  | TDecide tid => r ← requests s !! tid; decide_result s tid r
  | TEnd tid => r ← requests s !! tid; end_returns s tid r
  | TUnlock tid => r ← requests s !! tid; unlock s tid r
  | TDrop tid => r ← requests s !! tid; guard_drop s tid r
  | TResultTurn tid mid => t ← results s !! tid; result_turn s tid t mid
  | TCallbackReturns tid fin => t ← results s !! tid; callback_returns s tid t fin
  | TSetCallback a mid => e ← entries s !! a; Some (set_result_callback s a e mid)
  | TResultDone a => e ← entries s !! a; Some (result_done s a e)
  end.
Fixpoint run s (turns : list Turn) : option Source :=
  match turns with [] => Some s | turn :: turns => s' ← advance s turn; run s' turns end.
Lemma advance_step s s' turn : advance s turn = Some s' → step s s'.
Proof.
  unfold advance. destruct turn; intros H; repeat case_match; simplify_option_eq; eauto using source_step, request_turn.
Qed.
Lemma run_reachable turns s s' :
  run s turns = Some s' → source_reachable limit has_result s → source_reachable limit has_result s'.
Proof.
  revert s. induction turns as [|turn turns IH]; intros s H Hs; cbn in H; simplify_option_eq; [done|].
  eapply IH; [done|]. eapply rtc_r; [exact Hs|by eapply advance_step].
Qed.

(** The state a schedule leads to. *)
Definition reached (turns : list Turn) : Source := default source_new (run source_new turns).
Lemma reached_reachable turns : source_reachable limit has_result (reached turns).
Proof.
  unfold reached. destruct (run source_new turns) eqn:Hr; [|apply rtc_refl].
  eapply run_reachable; [exact Hr|apply rtc_refl].
Qed.

(** * Properties *)
(** the gate counts exactly the requests between [acquire_concurrency]
    and the drop of their guard, and lets at most [limit] of them in, under
    every interleaving of arrivals, results, handler answers and [stop]. *)
Theorem gate_limits_requests s :
  source_reachable limit has_result s →
  active s = tally is_active (requests s) ∧ (0 < limit → tally is_active (requests s) ≤ limit).
Proof. intros [H1 H2 _]%gate_reachable. split; [done|]. by rewrite <- H1. Qed.

(** The request has not reached [end_request] and [a] is its entry. *)
Definition before_end (a : Z) (pc : RequestPc) : bool :=
  match pc with
  | RConsume (Some b) | RAwait (Some b) | RPop (Some b) _ _ | RLifetime (Some b) _ _ _ => bool_decide (a = b)
  | _ => false
  end.
Lemma view_before_end r sid a :
  view r = Some (VOpen sid a) ∨ view r = Some (VClosing sid a) → sid = r_sid r ∧ before_end a (r_pc r) = true.
Proof.
  unfold view, before_end. destruct (r_pc r); intros [H|H]; repeat case_match; simplify_eq; rewrite ?bool_decide_true; done.
Qed.
(** a result callback runs only for the request that registered its
    entry, under that request's stream identifier, and never once
    [end_request] has been called: [end_request] waits for the callbacks that
    run, and a result that comes later is refused. *)
Theorem result_callback_before_end s t sid a message_id :
  source_reachable limit has_result s → results s !! t = Some (MkResult sid (SCallback a message_id)) →
  ∃ tid r, owner s a = Some tid ∧ requests s !! tid = Some r ∧ sid = Some (r_sid r) ∧ before_end a (r_pc r) = true.
Proof.
  intros Hl%life_reachable Ht. destruct (l_serves _ Hl _ _ a Ht eq_refl) as (sid' & Hsid & tid & Ho & Hv). cbn in Hsid.
  unfold views in Hv. destruct (requests s !! tid) as [r|] eqn:Hr; [|by destruct Hv].
  apply view_before_end in Hv as [-> Hb]. by exists tid, r.
Qed.
End invariants.

(** A request waits for the gate while another one runs. *)
Definition gate_full : list Turn :=
  [TArrive; TArrive; TAcquire 0; TAcquire 0; TAcquire 0; TAcquire 1; TAcquire 1; TAcquire 1; TAcquire 1].
Lemma gate_limits_requests_witness :
  let s := reached 1 true gate_full in
  r_pc <$> requests s !! 1 = Some RWaiting ∧ active s = tally is_active (requests s) ∧ tally is_active (requests s) ≤ 1.
Proof.
  cbv zeta. split; [by vm_compute|].
  destruct (gate_limits_requests 1 true (reached 1 true gate_full)) as [Ha Hl]; [apply reached_reachable|].
  split; [exact Ha|apply Hl; lia].
Defined.
(** A result is served while the request has been cancelled and waits for it. *)
Definition served_late : list Turn :=
  [TArrive; TAcquire 0; TAcquire 0; TAcquire 0; TBegin 0 (Some "s"); TRegister 0; TConsume 0 true; TSetCallback 1 "m";
   TResult (Some "s"); TResultTurn 2 "m"; TResultTurn 2 "m"; TResultTurn 2 "m"; TResultTurn 2 "m"; TCancelled 0; TPop 0].
Lemma result_callback_before_end_witness :
  let s := reached 1 true served_late in
  advance 1 true s (TLifetime 0) = None ∧
  ∃ tid r, owner s 1 = Some tid ∧ requests s !! tid = Some r ∧ Some "s" = Some (r_sid r) ∧ before_end 1 (r_pc r) = true.
Proof.
  cbv zeta. split; [by vm_compute|].
  apply (result_callback_before_end 1 true (reached 1 true served_late) 2 (Some "s") 1 "m");
    [apply reached_reachable|by vm_compute].
Defined.

(** The gate can lose a wakeup: a request that saw the gate full creates its
    [notified()] future after the last active request has notified, and waits
    although no request is active. *)
Theorem gate_loses_wakeup :
  ∃ s, source_reachable 1 false s ∧ active s = 0 ∧ r_pc <$> requests s !! 0 = Some (RFinished BeginFailed) ∧
    r_pc <$> requests s !! 1 = Some RWaiting.
Proof.
  exists (reached 1 false [TArrive; TArrive; TAcquire 0; TAcquire 0; TAcquire 0; TAcquire 1; TAcquire 1; TAcquire 1;
    TBegin 0 None; TDrop 0; TDrop 0; TAcquire 1]).
  split; [apply reached_reachable|by vm_compute].
Qed.
(** The notification of [stop] is lost the same way. *)
Theorem stop_loses_wakeup :
  ∃ s, source_reachable 1 false s ∧ stopped s = true ∧ active s = 0 ∧ r_pc <$> requests s !! 1 = Some RWaiting.
Proof.
  exists (reached 1 false [TArrive; TArrive; TAcquire 0; TAcquire 0; TAcquire 0; TAcquire 1; TAcquire 1; TAcquire 1;
    TStop; TNotify; TBegin 0 None; TDrop 0; TDrop 0; TAcquire 1]).
  split; [apply reached_reachable|by vm_compute].
Qed.
