(* ===== verification/Lifecycle.v ===== *)
(** The life of a service, [src/src/runtime/serviceapp.rs]: registration, the
    ordered start, and the phased, resumable shutdown.

    A [stop] call is a thread of turns: it holds the progress lock from its
    first turn to its return, and a turn ends at an await.  [stop_turn] takes
    whether the caller's context is cancelled when the turn runs; a call may
    also be dropped at any await, which releases the lock and nothing else.
    Shutdown jobs and servers are tasks that finish by steps of their own,
    with any result.  The shutdown budget is a deadline of the caller's
    context, so it is one of the cancellations. *)

From S2P Require Import Prelude Errors Config Environment Graph.
Local Open Scope Z_scope.

(** [Display] of [RuntimeError]. *)
Definition display_error (e : RuntimeError) : string :=
  match e with
  | TaskPoolNotFound n => "task pool " +:+ debug n +:+ " is not registered"
  | PriorityTaskPoolNotFound n => "priority task pool " +:+ debug n +:+ " is not registered"
  | ConsumerAlreadySet s => "stream " +:+ debug s +:+ " already has a downstream consumer"
  | SourceAlreadySet s => "stream " +:+ debug s +:+ " already has a source"
  | ConsumerNotSet s => "stream " +:+ debug s +:+ " has no downstream consumer"
  | DuplicateResource n => "runtime resource " +:+ debug n +:+ " is already registered"
  | ResourceAlreadyStarted n => "runtime resource " +:+ debug n +:+ " is already started"
  | ResourceStopped n => "runtime resource " +:+ debug n +:+ " is stopped"
  | ContextCancelled => "message context is cancelled"
  | DuplicateKey => "duplicate key"
  | InvalidConfiguration t => "invalid runtime configuration: " +:+ t
  | Transport t => "transport error: " +:+ t
  | MetricsErr (TypeConflict n) => "metric " +:+ debug n +:+ " is already registered with another type"
  | MetricsErr (DescriptionConflict n) => "metric " +:+ debug n +:+ " is already registered with another description"
  end.

Inductive AppState := Created | Starting | Running | Stopping | Stopped.
#[export] Instance app_state_eq_dec : EqDecision AppState.
Proof. solve_decision. Defined.

(** A data source or sink: its identifier and name. *)
Record Connector := MkConnector { con_id : Z; con_name : string }.

(** What the shutdown jobs do. *)
Inductive Operation :=
| StopSource (id : Z) | StopComponent (index : nat)
| StopTaskPool (name : string) | StopPriorityPool (name : string) | StopDelayPool | StopStorage (index : nat)
| DrainParallel
| StopSink (id : Z)
| StopRuntimeMetrics | ShutdownMetrics | ShutdownTracing | ShutdownLogs.
(** A [JoinHandle]: a panic of the task is a join error. *)
Inductive Task (E : Type) := TaskRunning | TaskFinished (result : outcome E unit).
Arguments TaskRunning {E}.
Arguments TaskFinished {E} result.

Record ShutdownJob := MkJob { operation : Operation; task : option (Task RuntimeError); completed : bool }.
Definition job_new (op : Operation) : ShutdownJob := MkJob op None false.
Record ShutdownProgress := MkProgress {
  phase : nat;
  phases : option (list (list ShutdownJob));
  failure : option string }.

(** What [start] does, one operation at a time; the loops over registries
    read them when they are reached. *)
Inductive StartOp :=
| OpBuild | OpRuntimeMetrics | OpStorage (index : nat) | OpTaskPool (name : string) | OpPriorityPool (name : string)
| OpComponent (index : nat) | OpSink (id : Z) | OpSource (id : Z) | OpGrpc | OpHttp.
Inductive StartStage :=
| StBuild | StMetrics | StStorages | StTaskPools | StPriorityPools | StComponents | StSinks | StSources | StServers.

(** Where the holder of the progress lock is. *)
Inductive StopPc := PCheck (name : string) | PDrainGrpc | PDrainHttp | PPhase | PAwait (index : nat).

Section lifecycle.
Context {Json Pool PriorityPool Endpoint Storage Buildable : Type}.
Notation Env := (RuntimeEnvironment Json Pool PriorityPool Endpoint Storage Buildable).

Record ServiceApp := MkApp {
  app_id : Z;
  app_env : Env;
  data_sources : gmap Z Connector;
  data_sinks : gmap Z Connector;
  components : nat;
  grpc_routes : bool;
  grpc_service_names : list string;
  state : AppState;
  starting : option (list StartOp * list StartStage);
  started : list StartOp;                       (** operations that succeeded, in order *)
  http_shutdown : bool;
  http_task : option (Task string);
  grpc_shutdown : bool;
  grpc_task : option (Task string);
  shutdown : ShutdownProgress;
  stopper : option StopPc }.
Implicit Types app : ServiceApp.

Definition set_env app (env : Env) : ServiceApp :=
  MkApp (app_id app) env (data_sources app) (data_sinks app) (components app) (grpc_routes app)
    (grpc_service_names app) (state app) (starting app) (started app) (http_shutdown app) (http_task app)
    (grpc_shutdown app) (grpc_task app) (shutdown app) (stopper app).
Definition set_resources app (sources sinks : gmap Z Connector) (n : nat) : ServiceApp :=
  MkApp (app_id app) (app_env app) sources sinks n (grpc_routes app)
    (grpc_service_names app) (state app) (starting app) (started app) (http_shutdown app) (http_task app)
    (grpc_shutdown app) (grpc_task app) (shutdown app) (stopper app).
Definition set_state app (st : AppState) : ServiceApp :=
  MkApp (app_id app) (app_env app) (data_sources app) (data_sinks app) (components app) (grpc_routes app)
    (grpc_service_names app) st (starting app) (started app) (http_shutdown app) (http_task app)
    (grpc_shutdown app) (grpc_task app) (shutdown app) (stopper app).
Definition set_starting app (pc : option (list StartOp * list StartStage)) (ops : list StartOp) : ServiceApp :=
  MkApp (app_id app) (app_env app) (data_sources app) (data_sinks app) (components app) (grpc_routes app)
    (grpc_service_names app) (state app) pc ops (http_shutdown app) (http_task app)
    (grpc_shutdown app) (grpc_task app) (shutdown app) (stopper app).
Definition set_grpc app (token : bool) (t : option (Task string)) : ServiceApp :=
  MkApp (app_id app) (app_env app) (data_sources app) (data_sinks app) (components app) (grpc_routes app)
    (grpc_service_names app) (state app) (starting app) (started app) (http_shutdown app) (http_task app)
    token t (shutdown app) (stopper app).
Definition set_http app (token : bool) (t : option (Task string)) : ServiceApp :=
  MkApp (app_id app) (app_env app) (data_sources app) (data_sinks app) (components app) (grpc_routes app)
    (grpc_service_names app) (state app) (starting app) (started app) token t
    (grpc_shutdown app) (grpc_task app) (shutdown app) (stopper app).
Definition set_shutdown app (p : ShutdownProgress) (pc : option StopPc) : ServiceApp :=
  MkApp (app_id app) (app_env app) (data_sources app) (data_sinks app) (components app) (grpc_routes app)
    (grpc_service_names app) (state app) (starting app) (started app) (http_shutdown app) (http_task app)
    (grpc_shutdown app) (grpc_task app) p pc.
Definition goto app (pc : StopPc) : ServiceApp := set_shutdown app (shutdown app) (Some pc).

(** ** Construction *)
Section pools.
Context (make_pool : string → RuntimeResult Pool) (pool_name_of : Pool → string).
Context (make_priority_pool : string → RuntimeResult PriorityPool) (priority_name_of : PriorityPool → string).
(** One turn of the loop; [TaskPool::new] is an argument. *)
Definition register_pool (env : Env) (semantics : CallSemantics) : RuntimeResult Env :=
  match semantics with
  | TaskPool name =>
      match task_pool env name with
      | Err _ => pool ← make_pool name;
          match register_task_pool pool_name_of env pool with
          | (Ok _, env) => Ok env | (Err e, _) => Err e | (Panic, _) => Panic
          end
      | _ => Ok env
      end
  | PriorityTaskPool name _ =>
      match priority_task_pool env name with
      | Err _ => pool ← make_priority_pool name;
          match register_priority_task_pool priority_name_of env pool with
          | (Ok _, env) => Ok env | (Err e, _) => Err e | (Panic, _) => Panic
          end
      | _ => Ok env
      end
  | FunctionCall | ParallelCall => Ok env
  end.
Definition configured_semantics (env : Env) : list CallSemantics :=
  let runtime := runtime_config env in
  (call_semantics <$> link_values runtime) ++
    [match service_id env ≫= service_by_id runtime with
     | Some service => default_call_semantics service
     | None => rc_default_call_semantics runtime
     end].
Definition register_configured_pools (env : Env) : RuntimeResult Env :=
  fold_res register_pool env (configured_semantics env).
Definition service_app_new (env : Env) (config : ServiceConfig) : RuntimeResult ServiceApp :=
  env ← register_configured_pools (for_service env (svc_id config));
  Ok (MkApp (svc_id config) env ∅ ∅ 0 false [] Created None [] false None false None (MkProgress 0 None None) None).
End pools.

(** [config]: [expect] on the registered service. *)
Definition config app : RuntimeResult ServiceConfig :=
  match service_config (app_env app) (app_id app) with Some c => Ok c | None => Panic end.
Definition validate_reload app (c : ServiceConfig) : RuntimeResult unit :=
  current ← config app;
  if decide (svc_id c = svc_id current ∧ svc_name c = svc_name current) then Ok tt
  else Err (InvalidConfiguration "service id and name cannot change during reload").
(** [ensure_created]: the state lock is free in a step. *)
Definition ensure_created app : RuntimeResult unit :=
  c ← config app;
  match state app with
  | Created => Ok tt
  | Stopped => Err (ResourceStopped (svc_name c))
  | _ => Err (ResourceAlreadyStarted (svc_name c))
  end.
(** [insert] replaces before the duplicate is reported. *)
Definition register_data_source app (r : Connector) : RuntimeResult unit * ServiceApp :=
  match ensure_created app with
  | Ok _ =>
      (if decide (is_Some (data_sources app !! con_id r)) then Err (DuplicateResource (con_name r)) else Ok tt,
       set_resources app (<[con_id r := r]> (data_sources app)) (data_sinks app) (components app))
  | Err e => (Err e, app)
  | Panic => (Panic, app)
  end.
Definition register_data_sink app (r : Connector) : RuntimeResult unit * ServiceApp :=
  match ensure_created app with
  | Ok _ =>
      (if decide (is_Some (data_sinks app !! con_id r)) then Err (DuplicateResource (con_name r)) else Ok tt,
       set_resources app (data_sources app) (<[con_id r := r]> (data_sinks app)) (components app))
  | Err e => (Err e, app)
  | Panic => (Panic, app)
  end.
Definition add_component app : RuntimeResult unit * ServiceApp :=
  match ensure_created app with
  | Ok _ => (Ok tt, set_resources app (data_sources app) (data_sinks app) (S (components app)))
  | Err e => (Err e, app)
  | Panic => (Panic, app)
  end.
Definition add_grpc_service app (name : string) : RuntimeResult unit * ServiceApp :=
  match ensure_created app with
  | Ok _ =>
      (Ok tt, MkApp (app_id app) (app_env app) (data_sources app) (data_sinks app) (components app) true
         (grpc_service_names app ++ [name]) (state app) (starting app) (started app) (http_shutdown app)
         (http_task app) (grpc_shutdown app) (grpc_task app) (shutdown app) (stopper app))
  | Err e => (Err e, app)
  | Panic => (Panic, app)
  end.

(** ** Start *)
Definition start_begin app (admission : bool) : RuntimeResult unit * ServiceApp :=
  match config app with
  | Ok c =>
      if decide (state app = Created) then
        (Ok tt, set_starting (set_state app Starting)
           (Some ([], [StBuild; StMetrics; StStorages; StTaskPools; StPriorityPools; StComponents; StSinks] ++
                      (if admission then [StSources; StServers] else []))) (started app))
      else (Err (ResourceAlreadyStarted (svc_name c)), app)
  | Err e => (Err e, app)
  | Panic => (Panic, app)
  end.
Definition expand_stage app (stage : StartStage) : list StartOp :=
  match stage with
  | StBuild => [OpBuild]
  | StMetrics => [OpRuntimeMetrics]
  | StStorages => OpStorage <$> seq 0 (length (storages (app_env app)))
  | StTaskPools => OpTaskPool <$> (map_to_list (task_pools (app_env app))).*1
  | StPriorityPools => OpPriorityPool <$> (map_to_list (priority_task_pools (app_env app))).*1
  | StComponents => OpComponent <$> seq 0 (components app)
  | StSinks => OpSink <$> (map_to_list (data_sinks app)).*1
  | StSources => OpSource <$> (map_to_list (data_sources app)).*1
  | StServers => [OpGrpc; OpHttp]
  end.
(** A server that starts gets a fresh token and a task; without routes the
    gRPC server is not started. *)
Definition op_started app (op : StartOp) : ServiceApp :=
  match op with
  | OpGrpc => if grpc_routes app then set_grpc app false (Some TaskRunning) else app
  | OpHttp => set_http app false (Some TaskRunning)
  | _ => app
  end.
(** One operation of [start] ends with [r].  After an error the state passes
    through [Running] and [start] calls [stop], which is a stop call like any
    other; a panic unwinds [start]. *)
Definition start_turn app (r : RuntimeResult unit) : option ServiceApp :=
  match starting app with
  | None => None
  | Some ([], []) => Some (set_starting (set_state app Running) None (started app))
  | Some ([], stage :: stages) => Some (set_starting app (Some (expand_stage app stage, stages)) (started app))
  | Some (op :: ops, stages) =>
      match r with
      | Ok _ => Some (set_starting (op_started app op) (Some (ops, stages)) (started app ++ [op]))
      | Err _ => Some (set_starting (set_state app Running) None (started app))
      | Panic => Some (set_starting app None (started app))
      end
  end.

(** ** Stop *)
Definition shutdown_phases app : list (list ShutdownJob) :=
  map (map job_new)
  [(StopSource <$> (map_to_list (data_sources app)).*1) ++ (StopComponent <$> seq 0 (components app));
   (StopTaskPool <$> (map_to_list (task_pools (app_env app))).*1) ++
     (StopPriorityPool <$> (map_to_list (priority_task_pools (app_env app))).*1) ++ [StopDelayPool] ++
     (StopStorage <$> seq 0 (length (storages (app_env app))));
   [DrainParallel];
   StopSink <$> (map_to_list (data_sinks app)).*1;
   [StopRuntimeMetrics]; [ShutdownMetrics]; [ShutdownTracing]; [ShutdownLogs]].

Context (join_error : string).                 (** the text of a [JoinError] *)

(** A turn continues, or the call returns and releases the lock. *)
Definition returns app (r : RuntimeResult unit) : option (ServiceApp * option (RuntimeResult unit)) :=
  Some (set_shutdown app (shutdown app) None, Some r).
Definition continues app : option (ServiceApp * option (RuntimeResult unit)) := Some (app, None).
Definition set_failure (p : ShutdownProgress) (e : RuntimeError) : ShutdownProgress :=
  if decide (e = ContextCancelled) then p else MkProgress (phase p) (phases p) (Some (display_error e)).
Definition fails app (e : RuntimeError) : option (ServiceApp * option (RuntimeResult unit)) :=
  Some (set_shutdown app (set_failure (shutdown app) e) None, Some (Err e)).
(** The result of a join handle. *)
Definition joined (r : RuntimeResult unit) : RuntimeResult unit :=
  match r with Ok _ => Ok tt | Err e => Err e | Panic => Err (Transport join_error) end.
Definition server_joined (r : outcome string unit) : RuntimeResult unit :=
  match r with Ok _ => Ok tt | Err e => Err (Transport e) | Panic => Err (Transport join_error) end.

(** [drain_server] and the loop around it: [clear] takes the handle,
    [next] is what follows. *)
Definition drain_server (cancelled : bool) app (t : option (Task string)) (clear : ServiceApp) (next : ServiceApp) :
    option (ServiceApp * option (RuntimeResult unit)) :=
  match t with
  | None => continues next
  | Some TaskRunning => if cancelled then fails app ContextCancelled else None
  | Some (TaskFinished r) =>
      match server_joined r with Err e => fails clear e | _ => continues next end
  end.
Definition init_phases app : ServiceApp :=
  let p := shutdown app in
  set_shutdown app
    (MkProgress (phase p) (Some (match phases p with Some ps => ps | None => shutdown_phases app end)) (failure p))
    (Some PPhase).
Definition spawn_job (j : ShutdownJob) : ShutdownJob :=
  match task j with
  | None => if completed j then j else MkJob (operation j) (Some TaskRunning) false
  | Some _ => j
  end.
Definition set_phases app (ps : list (list ShutdownJob)) (pc : StopPc) : ServiceApp :=
  set_shutdown app (MkProgress (phase (shutdown app)) (Some ps) (failure (shutdown app))) (Some pc).
Definition set_job (ps : list (list ShutdownJob)) (k i : nat) (j : ShutdownJob) : list (list ShutdownJob) :=
  alter (<[i := j]>) k ps.

(** The wait for job [i] of the current phase. *)
Definition await_job (cancelled : bool) app (ps : list (list ShutdownJob)) (i : nat) :
    option (ServiceApp * option (RuntimeResult unit)) :=
  let k := phase (shutdown app) in
  match ps !! k ≫= (.!! i) with
  | None =>
      continues (set_shutdown app (MkProgress (S k) (Some ps) (failure (shutdown app))) (Some PPhase))
  | Some j =>
      if completed j then continues (goto app (PAwait (S i)))
      else
        match task j with
        | None => returns app Panic             (* expect("shutdown job started") *)
        | Some TaskRunning => if cancelled then returns app (Err ContextCancelled) else None
        | Some (TaskFinished r) =>
            match joined r with
            | Ok _ => continues (set_phases app (set_job ps k i (MkJob (operation j) None true)) (PAwait (S i)))
            | Err e => fails (set_phases app (set_job ps k i (MkJob (operation j) None false)) (PAwait i)) e
            | Panic => returns app Panic
            end
        end
  end.
Definition phase_top (cancelled : bool) app (ps : list (list ShutdownJob)) :
    option (ServiceApp * option (RuntimeResult unit)) :=
  let k := phase (shutdown app) in
  if decide (k = length ps)%nat then
    returns (set_state (set_env app (clear_endpoint_consumers (app_env app))) Stopped) (Ok tt)
  else if cancelled then returns app (Err ContextCancelled)
  else
    match ps !! k with
    | None => returns app Panic                 (* phases[phase] *)
    | Some _ => continues (set_phases app (alter (fmap spawn_job) k ps) (PAwait 0))
    end.
Definition check_state app (name : string) : option (ServiceApp * option (RuntimeResult unit)) :=
  match state app with
  | Stopped => returns app (Ok tt)
  | Created => returns (set_state app Stopped) (Ok tt)
  | Starting => returns app (Err (ResourceAlreadyStarted name))
  | Running | Stopping =>
      let app := set_state app Stopping in
      match failure (shutdown app) with
      | Some e => returns app (Err (Transport e))
      | None => continues (goto (set_http (set_grpc app true (grpc_task app)) true (http_task app)) PDrainGrpc)
      end
  end.
(** One turn of the stop call that holds the lock; [None] is a pending await. *)
Definition stop_turn (cancelled : bool) app : option (ServiceApp * option (RuntimeResult unit)) :=
  match stopper app with
  | None => None
  | Some (PCheck name) => check_state app name
  | Some PDrainGrpc =>
      let cleared := set_grpc app (grpc_shutdown app) None in
      drain_server cancelled app (grpc_task app) cleared (goto cleared PDrainHttp)
  | Some PDrainHttp =>
      let cleared := set_http app (http_shutdown app) None in
      drain_server cancelled app (http_task app) cleared (init_phases cleared)
  | Some PPhase => match phases (shutdown app) with Some ps => phase_top cancelled app ps | None => returns app Panic end
  | Some (PAwait i) =>
      match phases (shutdown app) with Some ps => await_job cancelled app ps i | None => returns app Panic end
  end.
(** A stop call read its configuration and takes the free lock. *)
Definition stop_lock app (c : ServiceConfig) : option ServiceApp :=
  match stopper app with None => Some (goto app (PCheck (svc_name c))) | Some _ => None end.
(** The future of the call is dropped at an await. *)
Definition stop_dropped app : ServiceApp := set_shutdown app (shutdown app) None.

Definition job_finishes app (k i : nat) (r : RuntimeResult unit) : option ServiceApp :=
  ps ← phases (shutdown app);
  j ← ps !! k ≫= (.!! i);
  match task j with
  | Some TaskRunning =>
      Some (set_shutdown app
        (MkProgress (phase (shutdown app))
           (Some (set_job ps k i (MkJob (operation j) (Some (TaskFinished r)) (completed j)))) (failure (shutdown app)))
        (stopper app))
  | _ => None
  end.

Inductive app_step : ServiceApp → ServiceApp → Prop :=
| as_env app env : app_step app (set_env app env)
| as_source app r : app_step app (register_data_source app r).2
| as_sink app r : app_step app (register_data_sink app r).2
| as_component app : app_step app (add_component app).2
| as_grpc app name : app_step app (add_grpc_service app name).2
| as_start app admission : app_step app (start_begin app admission).2
| as_start_turn app r app' : start_turn app r = Some app' → app_step app app'
| as_lock app c app' : stop_lock app c = Some app' → app_step app app'
| as_turn app cancelled app' r : stop_turn cancelled app = Some (app', r) → app_step app app'
| as_dropped app : app_step app (stop_dropped app)
| as_job app k i r app' : job_finishes app k i r = Some app' → app_step app app'
| as_grpc_ends app r : grpc_task app = Some TaskRunning →
    app_step app (set_grpc app (grpc_shutdown app) (Some (TaskFinished r)))
| as_http_ends app r : http_task app = Some TaskRunning →
    app_step app (set_http app (http_shutdown app) (Some (TaskFinished r))).
(** A service before its first call. *)
Definition fresh app : Prop :=
  state app = Created ∧ starting app = None ∧ started app = [] ∧ http_task app = None ∧ grpc_task app = None ∧
  shutdown app = MkProgress 0 None None ∧ stopper app = None.
Definition app_reachable app : Prop := ∃ app0, fresh app0 ∧ rtc app_step app0 app.
End lifecycle.
Arguments ServiceApp : clear implicits.

(** * Lemmas *)
Definition quiet (j : ShutdownJob) : Prop := task j = None ∧ completed j = false.
Definition finished (j : ShutdownJob) : Prop := task j = None ∧ completed j = true.
Definition ongoing (j : ShutdownJob) : Prop := is_Some (task j) ∧ completed j = false.

(** Before job [i] of the current phase everything has finished; in and after
    it jobs have been started. *)
Definition awaited (i : nat) (jobs : list ShutdownJob) : Prop :=
  ∀ i' j, jobs !! i' = Some j → ((i' < i)%nat → finished j) ∧ ((i ≤ i')%nat → finished j ∨ ongoing j).
Record phases_inv (n : nat) (ps : list (list ShutdownJob)) (pc : option StopPc) : Prop := {
  ph_bound : (n ≤ length ps)%nat;
  ph_done : ∀ k jobs, ps !! k = Some jobs → (k < n)%nat → Forall finished jobs;
  ph_later : ∀ k jobs, ps !! k = Some jobs → (n < k)%nat → Forall quiet jobs;
  ph_current : ∀ jobs, ps !! n = Some jobs → Forall (λ j, quiet j ∨ finished j ∨ ongoing j) jobs;
  ph_await : ∀ i, pc = Some (PAwait i) → ∃ jobs, ps !! n = Some jobs ∧ awaited i jobs }.

Lemma phases_inv_pc n ps pc pc' :
  (∀ i, pc' ≠ Some (PAwait i)) → phases_inv n ps pc → phases_inv n ps pc'.
Proof. intros Hpc [H1 H2 H3 H4 _]. split; try done. intros i ->. by destruct (Hpc i). Qed.

Lemma job_cases (P : ShutdownJob → Prop) jobs i j : Forall P jobs → P j → Forall P (<[i := j]> jobs).
Proof. intros Hf Hj. by apply Forall_insert. Qed.

(** A change of one job of the current phase. *)
Lemma phases_inv_job n ps pc pc' i j j' jobs :
  ps !! n = Some jobs → jobs !! i = Some j → quiet j' ∨ finished j' ∨ ongoing j' →
  (∀ i', pc' = Some (PAwait i') → awaited i' (<[i := j']> jobs)) →
  phases_inv n ps pc → phases_inv n (set_job ps n i j') pc'.
Proof.
  intros Hn Hi Hj' Haw [H1 H2 H3 H4 _]. unfold set_job. split.
  - by rewrite length_alter.
  - intros k js Hk Hlt. rewrite list_lookup_alter_ne in Hk by lia. eauto.
  - intros k js Hk Hlt. rewrite list_lookup_alter_ne in Hk by lia. eauto.
  - intros js. rewrite list_lookup_alter_eq, Hn. cbn. intros [= <-]. apply job_cases; eauto.
  - intros i' Hi'. exists (<[i := j']> jobs). rewrite list_lookup_alter_eq, Hn. eauto.
Qed.
Lemma phases_inv_spawn n ps jobs pc :
  ps !! n = Some jobs → phases_inv n ps pc → phases_inv n (alter (fmap spawn_job) n ps) (Some (PAwait 0)).
Proof.
  intros Hn [H1 H2 H3 H4 _].
  assert (Hs : ∀ j, j ∈ jobs → finished (spawn_job j) ∨ ongoing (spawn_job j)).
  { intros j Hj. eapply Forall_forall in H4; [|done|done].
    unfold spawn_job. destruct j as [op [t|] []]; cbn in *;
      destruct H4 as [[? ?]|[[? ?]|[? ?]]]; cbn in *; try done; [right|left|right]; split; cbn; eauto. }
  split.
  - by rewrite length_alter.
  - intros k js Hk Hlt. rewrite list_lookup_alter_ne in Hk by lia. eauto.
  - intros k js Hk Hlt. rewrite list_lookup_alter_ne in Hk by lia. eauto.
  - intros js. rewrite list_lookup_alter_eq, Hn. cbn. intros [= <-]. apply Forall_fmap, Forall_forall. cbn. eauto.
  - intros i [= <-]. exists (spawn_job <$> jobs). rewrite list_lookup_alter_eq, Hn. split; [done|].
    intros i' j. rewrite list_lookup_fmap. destruct (jobs !! i') as [j0|] eqn:Hj; [|done]. intros [= <-].
    split; [lia|]. intros _. apply Hs. by eapply list_elem_of_lookup_2.
Qed.

Section lifecycle_lemmas.
Context {Json Pool PriorityPool Endpoint Storage Buildable : Type} (join_error : string).
Notation App := (ServiceApp Json Pool PriorityPool Endpoint Storage Buildable).
Implicit Types app : App.
Notation step := (app_step join_error).
Notation reachable := (app_reachable join_error).

(** Not past the state check. *)
Definition at_check (pc : option StopPc) : Prop := match pc with None | Some (PCheck _) => True | _ => False end.
Record shutdown_inv app : Prop := {
  v_created : state app = Created → grpc_task app = None ∧ http_task app = None;
  v_starting : is_Some (starting app) → state app = Starting;
  v_early : state app = Created ∨ state app = Starting ∨ state app = Running →
    phases (shutdown app) = None ∧ at_check (stopper app);
  v_none : phases (shutdown app) = None →
    phase (shutdown app) = 0%nat ∧ match stopper app with Some PPhase | Some (PAwait _) => False | _ => True end;
  v_grpc : stopper app = Some PDrainHttp → grpc_task app = None;
  v_some : ∀ ps, phases (shutdown app) = Some ps →
    grpc_task app = None ∧ http_task app = None ∧ phases_inv (phase (shutdown app)) ps (stopper app);
  v_stopped : state app = Stopped →
    at_check (stopper app) ∧ grpc_task app = None ∧ http_task app = None ∧
    ∀ ps, phases (shutdown app) = Some ps → phase (shutdown app) = length ps }.

(** The invariant reads six fields. *)
Lemma inv_same app app' :
  state app' = state app → starting app' = starting app → grpc_task app' = grpc_task app →
  http_task app' = http_task app → shutdown app' = shutdown app → stopper app' = stopper app →
  shutdown_inv app → shutdown_inv app'.
Proof. intros H1 H2 H3 H4 H5 H6 []. split; rewrite ?H1, ?H2, ?H3, ?H4, ?H5, ?H6; done. Qed.

Lemma inv_register app : shutdown_inv app →
  (∀ r, shutdown_inv (register_data_source app r).2) ∧ (∀ r, shutdown_inv (register_data_sink app r).2) ∧
  shutdown_inv (add_component app).2 ∧ (∀ n, shutdown_inv (add_grpc_service app n).2).
Proof.
  intros Hi. unfold register_data_source, register_data_sink, add_component, add_grpc_service.
  destruct (ensure_created app); cbn; split_and!; intros; first [exact Hi|by apply (inv_same app)].
Qed.
(** Releasing the lock. *)
Lemma shutdown_release app : shutdown_inv app → shutdown_inv (set_shutdown app (shutdown app) None).
Proof.
  intros [H1 H2 H3 H4 H5 H6 H7]. split; cbn; try done.
  - intros H. by destruct (H3 H).
  - intros H. by destruct (H4 H).
  - intros ps Hp. destruct (H6 ps Hp) as (? & ? & ?). split_and!; try done. by eapply phases_inv_pc.
  - intros H. by destruct (H7 H) as (_ & ? & ? & ?).
Qed.
Lemma inv_failure app p :
  phase p = phase (shutdown app) → phases p = phases (shutdown app) →
  shutdown_inv app → shutdown_inv (set_shutdown app p (stopper app)).
Proof. intros Hn Hp []. split; cbn; rewrite ?Hn, ?Hp; done. Qed.
Lemma inv_fails app e app' r : fails app e = Some (app', r) → shutdown_inv app → shutdown_inv app'.
Proof.
  intros [= <- _] Hi. apply shutdown_release in Hi.
  apply (inv_failure _ (set_failure (shutdown app) e)) in Hi; [done|..]; unfold set_failure; by case_decide.
Qed.

Lemma inv_start_begin app admission : shutdown_inv app → shutdown_inv (start_begin app admission).2.
Proof.
  intros Hi. unfold start_begin. destruct (config app); cbn; try done. case_decide as Hc; [|done]. cbn.
  destruct Hi as [H1 H2 H3 H4 H5 H6 H7]. destruct (H3 (or_introl Hc)) as [Hp Ha].
  split; cbn; try done; naive_solver.
Qed.
Lemma inv_start_turn app r app' : start_turn app r = Some app' → shutdown_inv app → shutdown_inv app'.
Proof.
  intros Ht Hi. unfold start_turn in Ht. destruct (starting app) as [[ops stages]|] eqn:Hst; [|done].
  assert (Hs : state app = Starting) by (apply (v_starting _ Hi); by rewrite Hst).
  destruct (v_early _ Hi) as [Hp Ha]; [auto|]. destruct Hi as [H1 H2 H3 H4 H5 H6 H7].
  assert (Hrun : ∀ o, shutdown_inv (set_starting (set_state app Running) None o)).
  { intros o. split; cbn; done || naive_solver. }
  destruct ops as [|op ops].
  - destruct stages; simplify_eq; [apply Hrun|]. split; cbn; try done; by rewrite ?Hs.
  - destruct r; simplify_eq; [|apply Hrun|].
    + assert (Hg : stopper (op_started app op) = stopper app ∧ shutdown (op_started app op) = shutdown app ∧
        state (op_started app op) = state app) by (unfold op_started; by repeat case_match).
      destruct Hg as (Hg1 & Hg2 & Hg3).
      split; cbn; rewrite ?Hg1, ?Hg2, ?Hg3, ?Hs, ?Hp; try done.
      * intros _. by apply H4.
      * intros Hpc. by rewrite Hpc in Ha.
    + by split.
Qed.
Lemma shutdown_lock app c app' : stop_lock app c = Some app' → shutdown_inv app → shutdown_inv app'.
Proof.
  unfold stop_lock. destruct (stopper app) eqn:Hpc; [done|]. intros [= <-] [H1 H2 H3 H4 H5 H6 H7].
  split; cbn; try done.
  - intros H. by destruct (H3 H).
  - intros H. by destruct (H4 H).
  - intros ps Hp. destruct (H6 ps Hp) as (? & ? & ?). split_and!; try done. by eapply phases_inv_pc.
  - intros H. by destruct (H7 H) as (_ & ? & ? & ?).
Qed.
Lemma inv_job app k i r app' : job_finishes app k i r = Some app' → shutdown_inv app → shutdown_inv app'.
Proof.
  unfold job_finishes. destruct (phases (shutdown app)) as [ps|] eqn:Hps; [|done]. cbn.
  destruct (ps !! k) as [jobs|] eqn:Hk; [|done]. cbn. destruct (jobs !! i) as [j|] eqn:Hi; [|done]. cbn.
  destruct (task j) as [[|]|] eqn:Ht; [|done..]. intros [= <-] Hv. pose proof Hv as [H1 H2 H3 H4 H5 H6 H7].
  destruct (H6 ps Hps) as (Hg & Hh & Hph). set (n := phase (shutdown app)) in *.
  assert (Hkn : k = n).
  { assert (Hji : j ∈ jobs) by by eapply list_elem_of_lookup_2. destruct (lt_eq_lt_dec k n) as [[Hlt|]|Hlt]; [|done|].
    - eapply (ph_done _ _ _ Hph) in Hlt; [|done]. eapply Forall_forall in Hlt as [? _]; [|done]. congruence.
    - eapply (ph_later _ _ _ Hph) in Hlt; [|done]. eapply Forall_forall in Hlt as [? _]; [|done]. congruence. }
  subst k. assert (Hon : ongoing j).
  { pose proof (ph_current _ _ _ Hph _ Hk) as Hc. eapply Forall_lookup_1 in Hc; [|exact Hi].
    destruct Hc as [[? _]|[[? _]|?]]; congruence || done. }
  assert (Hon' : ongoing (MkJob (operation j) (Some (TaskFinished r)) (completed j))) by (destruct Hon; split; cbn; eauto).
  split; cbn; try done.
  - intros H. destruct (H3 H). congruence.
  - intros ps' [= <-]. split_and!; [done..|]. eapply phases_inv_job; [done|done|auto| |done].
    intros i' Hpc. destruct (ph_await _ _ _ Hph i' Hpc) as (jobs' & Hj' & Haw). simplify_eq.
    intros a b Hab. apply list_lookup_insert_Some in Hab as [(<- & <- & _)|[Hne Hab]]; [|by apply Haw].
    split; [|by right]. intros Hlt. destruct (Haw i j Hi) as [Hf _]. destruct (Hf Hlt). congruence.
  - intros H. destruct (H7 H) as (? & ? & ? & Hn). split_and!; [done..|].
    intros ps' [= <-]. unfold set_job. rewrite length_alter. auto.
Qed.

(** A move of the lock holder, with the server tokens, before the phases. *)
Lemma inv_goto app pc gt ht :
  state app = Stopping → pc = PDrainGrpc ∨ pc = PDrainHttp ∧ grpc_task app = None → shutdown_inv app →
  shutdown_inv (goto (set_http (set_grpc app gt (grpc_task app)) ht (http_task app)) pc).
Proof.
  intros Hst Hpc [H1 H2 H3 H4 H5 H6 H7].
  split; cbn; rewrite ?Hst; try done; [by rewrite <-Hst|by intros [|[|]]|..].
  - intros H. destruct (H4 H). by destruct Hpc as [->|[-> _]].
  - intros [= ->]. by destruct Hpc as [?|[_ ?]].
  - intros ps Hp. destruct (H6 ps Hp) as (? & ? & ?). split_and!; try done.
    eapply phases_inv_pc; [|done]. intros i [= ->]. by destruct Hpc as [?|[? _]].
Qed.
Lemma inv_stopping app : state app = Running ∨ state app = Stopping → shutdown_inv app →
  shutdown_inv (set_state app Stopping).
Proof.
  intros Hst [H1 H2 H3 H4 H5 H6 H7]. split; cbn; try done; [|by intros [|[|]]].
  intros H%H2. destruct Hst; congruence.
Qed.
Lemma inv_check app name app' r : check_state app name = Some (app', r) → shutdown_inv app → shutdown_inv app'.
Proof.
  unfold check_state. intros Hc Hi.
  assert (Hnext : state app = Running ∨ state app = Stopping →
    (if failure (shutdown app) is Some e then returns (set_state app Stopping) (Err (Transport e))
     else continues (goto (set_http (set_grpc (set_state app Stopping) true (grpc_task app)) true (http_task app))
            PDrainGrpc)) = Some (app', r) → shutdown_inv app').
  { intros Hst. destruct (failure (shutdown app)); intros [= <- _].
    - by apply (shutdown_release (set_state app Stopping)), inv_stopping.
    - apply (inv_goto (set_state app Stopping)); [done|by left|by apply inv_stopping]. }
  destruct (state app) eqn:Hst; [|by injection Hc as <- _; apply shutdown_release|by apply Hnext; auto..
    |by injection Hc as <- _; apply shutdown_release]. injection Hc as <- _.
  destruct Hi as [H1 H2 H3 H4 H5 H6 H7]. destruct (H1 Hst) as [Hg Hh]. destruct H3 as [Hp _]; [auto|].
  split; cbn; rewrite ?Hp; try done; [|by intros _; destruct (H4 Hp)].
  intros H%H2. congruence.
Qed.

(** Past the state check the service is stopping. *)
Lemma inv_past_check app : shutdown_inv app → ~ at_check (stopper app) → state app = Stopping ∧ starting app = None.
Proof.
  intros [H1 H2 H3 H4 H5 H6 H7] Hpc. assert (Hst : state app = Stopping).
  { destruct (state app) eqn:Hst; [..|done|]; destruct Hpc; [apply H3; auto..|by apply H7]. }
  split; [done|]. destruct (starting app) eqn:Hs; [|done]. rewrite H2 in Hst by eauto. done.
Qed.
(** In [Stopping] the invariant is about the servers and the phases. *)
Lemma inv_stopping_intro app :
  state app = Stopping → starting app = None →
  (phases (shutdown app) = None → phase (shutdown app) = 0%nat ∧
    match stopper app with Some PPhase | Some (PAwait _) => False | _ => True end) →
  (stopper app = Some PDrainHttp → grpc_task app = None) →
  (∀ ps, phases (shutdown app) = Some ps →
    grpc_task app = None ∧ http_task app = None ∧ phases_inv (phase (shutdown app)) ps (stopper app)) →
  shutdown_inv app.
Proof. intros Hst Hs H1 H2 H3. split; rewrite ?Hst, ?Hs; first [done|by intros [? ?]|by intros [|[|]]]. Qed.

Lemma inv_drain_grpc cancelled app app' r :
  stopper app = Some PDrainGrpc → stop_turn join_error cancelled app = Some (app', r) →
  shutdown_inv app → shutdown_inv app'.
Proof.
  intros Hpc Ht Hi. unfold stop_turn in Ht. rewrite Hpc in Ht. cbn in Ht. unfold drain_server in Ht.
  destruct (inv_past_check app Hi) as [Hst Hs]; [rewrite Hpc; by intros []|].
  assert (Hc : shutdown_inv (set_grpc app (grpc_shutdown app) None)).
  { destruct Hi as [H1 H2 H3 H4 H5 H6 H7]. apply inv_stopping_intro; cbn; try done.
    intros ps Hp. by destruct (H6 ps Hp) as (_ & ? & ?). }
  assert (Hn : shutdown_inv (goto (set_grpc app (grpc_shutdown app) None) PDrainHttp)).
  { by apply (inv_goto _ PDrainHttp (grpc_shutdown app) (http_shutdown app)) in Hc; [|done|right]. }
  destruct (grpc_task app) as [[|sr]|].
  - destruct cancelled; [|done]. by eapply inv_fails.
  - destruct (server_joined join_error sr) as [[]|e|]; [by injection Ht as <- _| |by injection Ht as <- _].
    eapply inv_fails; [exact Ht|done].
  - by injection Ht as <- _.
Qed.
Lemma shutdown_phases_inv app : phases_inv 0 (shutdown_phases app) (Some PPhase).
Proof.
  assert (Hq : ∀ k jobs, shutdown_phases app !! k = Some jobs → Forall quiet jobs).
  { intros k jobs Hk. unfold shutdown_phases in Hk. rewrite list_lookup_fmap in Hk.
    destruct (_ !! k) as [ops|]; [|done]. injection Hk as <-. by apply Forall_fmap, Forall_true. }
  split; try done; [cbn; lia|intros; lia|eauto|].
  intros jobs Hj%Hq. eapply Forall_impl; [done|]. auto.
Qed.
Lemma inv_drain_http cancelled app app' r :
  stopper app = Some PDrainHttp → stop_turn join_error cancelled app = Some (app', r) →
  shutdown_inv app → shutdown_inv app'.
Proof.
  intros Hpc Ht Hi. unfold stop_turn in Ht. rewrite Hpc in Ht. cbn in Ht. unfold drain_server in Ht.
  destruct (inv_past_check app Hi) as [Hst Hs]; [rewrite Hpc; by intros []|].
  pose proof Hi as [H1 H2 H3 H4 H5 H6 H7]. specialize (H5 Hpc).
  assert (Hc : shutdown_inv (set_http app (http_shutdown app) None)).
  { apply inv_stopping_intro; cbn; try done. intros ps Hp. by destruct (H6 ps Hp) as (? & _ & ?). }
  assert (Hn : shutdown_inv (init_phases (set_http app (http_shutdown app) None))).
  { apply inv_stopping_intro; cbn; try done. intros ps [= <-]. split_and!; [done..|].
    destruct (phases (shutdown app)) as [ps|] eqn:Hp.
    - destruct (H6 ps eq_refl) as (_ & _ & Hph). by eapply phases_inv_pc.
    - destruct (H4 eq_refl) as [-> _]. exact (shutdown_phases_inv (set_http app (http_shutdown app) None)). }
  destruct (http_task app) as [[|sr]|].
  - destruct cancelled; [|done]. by eapply inv_fails.
  - destruct (server_joined join_error sr) as [[]|e|]; [by injection Ht as <- _| |by injection Ht as <- _].
    eapply inv_fails; [exact Ht|done].
  - by injection Ht as <- _.
Qed.

Lemma inv_phase_top cancelled app app' r ps :
  stopper app = Some PPhase → phases (shutdown app) = Some ps → phase_top cancelled app ps = Some (app', r) →
  shutdown_inv app → shutdown_inv app' ∧ r ≠ Some Panic.
Proof.
  intros Hpc Hps Ht Hi. destruct (inv_past_check app Hi) as [Hst Hs]; [rewrite Hpc; by intros []|].
  destruct (v_some _ Hi ps Hps) as (Hg & Hh & Hph). unfold phase_top in Ht. case_decide as Hn.
  - injection Ht as <- <-. split; [|done]. split; cbn; try done; [by rewrite Hs; intros [? ?]|by intros [|[|]]|by rewrite Hps|..].
    + intros ps' Hp'. simplify_eq. split_and!; [done..|]. by eapply phases_inv_pc.
    + intros _. split_and!; [done..|]. intros ps' Hp'. by simplify_eq.
  - destruct cancelled; [injection Ht as <- <-; split; [by apply shutdown_release|done]|].
    destruct (ps !! phase (shutdown app)) as [jobs|] eqn:Hj.
    + injection Ht as <- <-. split; [|done]. apply inv_stopping_intro; cbn; try done.
      intros ps' [= <-]. split_and!; [done..|]. by eapply phases_inv_spawn.
    + apply lookup_ge_None in Hj. pose proof (ph_bound _ _ _ Hph). lia.
Qed.
Lemma awaited_next i jobs j : jobs !! i = Some j → finished j → awaited i jobs → awaited (S i) jobs.
Proof.
  intros Hi Hj Ha i' j' Hi'. destruct (Ha i' j' Hi') as [H1 H2]. split; intros Hlt; [|apply H2; lia].
  destruct (decide (i' = i)) as [->|]; [by simplify_eq|apply H1; lia].
Qed.
Lemma awaited_all jobs : awaited (length jobs) jobs → Forall finished jobs.
Proof. intros Ha. apply Forall_lookup. intros i j Hi. apply (Ha i j Hi). by eapply lookup_lt_Some. Qed.
Lemma phases_next n ps jobs i pc :
  ps !! n = Some jobs → jobs !! i = None → awaited i jobs → phases_inv n ps pc → phases_inv (S n) ps (Some PPhase).
Proof.
  intros Hn Hi Ha [P1 P2 P3 P4 _]. apply lookup_ge_None in Hi. apply lookup_lt_Some in Hn as Hlt. split; try done.
  - intros k js Hk Hkn. destruct (decide (k = n)) as [->|]; [|apply (P2 k); [done|lia]]. simplify_eq.
    apply Forall_lookup. intros i' j Hj. apply (Ha i' j Hj). apply lookup_lt_Some in Hj. lia.
  - intros k js Hk Hkn. apply (P3 k); [done|lia].
  - intros js Hk. eapply Forall_impl; [apply (P3 (S n)); [done|lia]|]. auto.
Qed.
Lemma awaited_insert i jobs j j' :
  jobs !! i = Some j → finished j' → awaited i jobs → awaited (S i) (<[i := j']> jobs).
Proof.
  intros Hi Hj' Ha i' j0 H0. apply list_lookup_insert_Some in H0 as [(<- & <- & _)|[Hne H0]]; [by auto|].
  destruct (Ha i' j0 H0) as [H1 H2]. split; intros; [apply H1|apply H2]; lia.
Qed.
Lemma inv_await cancelled app app' r ps i :
  stopper app = Some (PAwait i) → phases (shutdown app) = Some ps →
  await_job join_error cancelled app ps i = Some (app', r) → shutdown_inv app → shutdown_inv app' ∧ r ≠ Some Panic.
Proof.
  intros Hpc Hps Ht Hi. destruct (inv_past_check app Hi) as [Hst Hs]; [rewrite Hpc; by intros []|].
  destruct (v_some _ Hi ps Hps) as (Hg & Hh & Hph). destruct (ph_await _ _ _ Hph i Hpc) as (jobs & Hn & Haw).
  unfold await_job in Ht. rewrite Hn in Ht. cbn in Ht. destruct (jobs !! i) as [j|] eqn:Hj; cycle 1.
  - injection Ht as <- <-. split; [|done]. apply inv_stopping_intro; cbn; try done.
    intros ps' [= <-]. split_and!; [done..|]. by eapply phases_next.
  - destruct (Haw i j Hj) as [_ Hfo]. specialize (Hfo (le_n _)). destruct (completed j) eqn:Hc.
    + injection Ht as <- <-. split; [|done]. apply inv_stopping_intro; cbn; try done; [by rewrite Hps|].
      intros ps' Hp'. simplify_eq. split_and!; [done..|]. destruct Hph as [P1 P2 P3 P4 _]. split; try done.
      intros i' [= <-]. exists jobs. split; [done|]. eapply awaited_next; [done| |done].
      destruct Hfo as [?|[_ ?]]; [done|congruence].
    + destruct Hfo as [[_ ?]|[[t Ht'] _]]; [congruence|]. rewrite Ht' in Ht. destruct t as [|jr].
      * destruct cancelled; [|done]. injection Ht as <- <-. split; [by apply shutdown_release|done].
      * destruct (joined join_error jr) as [[]|e|] eqn:Hjr; [| |by destruct jr].
        -- injection Ht as <- <-. split; [|done]. apply inv_stopping_intro; cbn; try done.
           intros ps' [= <-]. split_and!; [done..|]. eapply phases_inv_job; [done|done|right; by left| |done].
           intros i' [= <-]. by eapply awaited_insert.
        -- injection Ht as <- <-. split; [|done]. unfold set_failure.
           apply inv_stopping_intro; cbn; try done; [by case_decide|].
           intros ps' Hp'. split_and!; [done..|].
           assert (Hq : phases_inv (phase (shutdown app))
             (set_job ps (phase (shutdown app)) i (MkJob (operation j) None false)) None).
           { by eapply phases_inv_job; [done|done|left| |]. }
           case_decide; cbn in *; by simplify_eq.
Qed.
Lemma inv_turn cancelled app app' r :
  stop_turn join_error cancelled app = Some (app', r) → shutdown_inv app → shutdown_inv app' ∧ r ≠ Some Panic.
Proof.
  intros Ht Hi. destruct (stopper app) as [[name| | | |i]|] eqn:Hpc.
  - unfold stop_turn in Ht. rewrite Hpc in Ht. split; [by eapply inv_check|].
    unfold check_state in Ht. intros ->. by repeat case_match.
  - split; [by eapply inv_drain_grpc|]. unfold stop_turn in Ht. rewrite Hpc in Ht. unfold drain_server in Ht.
    intros ->. by repeat case_match.
  - split; [by eapply inv_drain_http|]. unfold stop_turn in Ht. rewrite Hpc in Ht. unfold drain_server in Ht.
    intros ->. by repeat case_match.
  - unfold stop_turn in Ht. rewrite Hpc in Ht. destruct (phases (shutdown app)) as [ps|] eqn:Hp.
    + by eapply inv_phase_top.
    + destruct (v_none _ Hi Hp) as [_ Hf]. by rewrite Hpc in Hf.
  - unfold stop_turn in Ht. rewrite Hpc in Ht. destruct (phases (shutdown app)) as [ps|] eqn:Hp.
    + by eapply inv_await.
    + destruct (v_none _ Hi Hp) as [_ Hf]. by rewrite Hpc in Hf.
  - unfold stop_turn in Ht. by rewrite Hpc in Ht.
Qed.
Lemma inv_server app :
  shutdown_inv app →
  (∀ t r, grpc_task app = Some TaskRunning → shutdown_inv (set_grpc app t (Some (TaskFinished r)))) ∧
  (∀ t r, http_task app = Some TaskRunning → shutdown_inv (set_http app t (Some (TaskFinished r)))).
Proof.
  intros [H1 H2 H3 H4 H5 H6 H7]. split; intros t r Ht; split; cbn; try done; rewrite ?Ht in *; try naive_solver.
Qed.
Lemma shutdown_step app app' : step app app' → shutdown_inv app → shutdown_inv app'.
Proof.
  intros Hs Hi. destruct (inv_register _ Hi) as (R1 & R2 & R3 & R4). destruct (inv_server _ Hi) as [S1 S2].
  destruct Hs; eauto using inv_start_begin, inv_start_turn, shutdown_lock, inv_job, shutdown_release.
  - by apply (inv_same app).
  - by eapply inv_turn.
Qed.
Lemma inv_fresh app : fresh app → shutdown_inv app.
Proof.
  intros (F1 & F2 & F3 & F4 & F5 & F6 & F7). split; rewrite ?F1, ?F2, ?F4, ?F5, ?F6, ?F7; try done.
Qed.
(** Reachable states, by induction on the steps. *)
Lemma reachable_ind' (P : App → Prop) :
  (∀ app, fresh app → P app) → (∀ app app', reachable app → step app app' → P app → P app') →
  ∀ app, reachable app → P app.
Proof.
  intros H0 Hs app (app0 & Hf & Hr).
  enough (P app ∧ reachable app) as [? _] by done.
  refine (rtc_ind_r (λ a, P a ∧ reachable a) app0 _ _ app Hr).
  - split; [auto|]. by exists app0.
  - intros y z Hy Hyz [HP Hry]. split; [by eapply Hs|]. exists app0. split; [done|]. by eapply rtc_r.
Qed.
Lemma inv_reachable app : reachable app → shutdown_inv app.
Proof. revert app. apply reachable_ind'; [apply inv_fresh|]. intros app app' _. apply shutdown_step. Qed.

(** ** Progress of an undisturbed shutdown *)
Definition pending (j : ShutdownJob) : nat :=
  match task j with
  | Some (TaskFinished _) => 0 | Some TaskRunning => 1 | None => if completed j then 0 else 1
  end.
Definition server_pending (t : option (Task string)) : nat :=
  match t with Some TaskRunning => 1 | _ => 0 end.
Definition all_phases app : list (list ShutdownJob) :=
  match phases (shutdown app) with Some ps => ps | None => shutdown_phases app end.
Definition rest (n : nat) (ps : list (list ShutdownJob)) : nat := sum_list_with (λ js, length js + 2)%nat (drop n ps).
Arguments rest : simpl never.
Definition stop_measure app : nat :=
  let n := phase (shutdown app) in
  let ps := all_phases app in
  match stopper app with
  | None => 0
  | Some (PCheck _) => 4 + rest n ps
  | Some PDrainGrpc => 3 + rest n ps
  | Some PDrainHttp => 2 + rest n ps
  | Some PPhase => 1 + rest n ps
  | Some (PAwait i) => 2 + (length (default [] (ps !! n)) - i) + rest (S n) ps
  end.
Definition busy_measure app : nat :=
  stop_measure app + sum_list_with (sum_list_with pending) (all_phases app) + server_pending (grpc_task app) +
    server_pending (http_task app).

(** Turns of the lock holder under a live context, and tasks that succeed. *)
Inductive busy_step : App → App → Prop :=
| bs_turn app app' r : stop_turn join_error false app = Some (app', r) → busy_step app app'
| bs_job app k i app' : job_finishes app k i (Ok tt) = Some app' → busy_step app app'
| bs_grpc app : grpc_task app = Some TaskRunning →
    busy_step app (set_grpc app (grpc_shutdown app) (Some (TaskFinished (Ok tt))))
| bs_http app : http_task app = Some TaskRunning →
    busy_step app (set_http app (http_shutdown app) (Some (TaskFinished (Ok tt)))).
Lemma busy_is_step app app' : busy_step app app' → step app app'.
Proof. destruct 1; eauto using app_step. Qed.

Lemma sum_alter {A} (f : A → nat) (g : A → A) k l x :
  l !! k = Some x → (sum_list_with f (alter g k l) + f x = sum_list_with f l + f (g x))%nat.
Proof. revert k. induction l as [|y l IH]; intros [|k] Hk; simplify_eq/=; [lia|]. apply IH in Hk. lia. Qed.
Lemma rest_drop n ps jobs : ps !! n = Some jobs → rest n ps = (length jobs + 2 + rest (S n) ps)%nat.
Proof. intros Hn. unfold rest. rewrite (drop_S ps jobs n Hn). done. Qed.
Lemma rest_length n (ps ps' : list (list ShutdownJob)) : length <$> ps' = length <$> ps → rest n ps' = rest n ps.
Proof.
  unfold rest. revert n ps. induction ps' as [|js ps' IH]; intros n [|js0 ps] Hl; try done.
  injection Hl as Hjs Hl. destruct n; cbn; [|by apply IH]. specialize (IH 0%nat ps Hl). rewrite !drop_0 in IH. lia.
Qed.
Lemma length_alter_fmap (g : list ShutdownJob → list ShutdownJob) n ps :
  (∀ js, length (g js) = length js) → length <$> (alter g n ps : list (list ShutdownJob)) = length <$> ps.
Proof.
  intros Hg. revert n. induction ps as [|js ps IH]; intros [|n]; cbn; [done..|by rewrite Hg|by rewrite IH].
Qed.

Lemma set_job_lengths n i j ps : length <$> set_job ps n i j = length <$> ps.
Proof. apply length_alter_fmap. intros js. apply length_insert. Qed.
Lemma set_job_pending ps n i j j' jobs :
  ps !! n = Some jobs → jobs !! i = Some j →
  (sum_list_with (sum_list_with pending) (set_job ps n i j') + pending j =
   sum_list_with (sum_list_with pending) ps + pending j')%nat.
Proof.
  intros Hn Hi. pose proof (sum_alter (sum_list_with pending) (<[i := j']>) n ps jobs Hn) as H1.
  pose proof (sum_alter pending (λ _, j') i jobs j Hi) as H2.
  rewrite <-list_insert_alter in H2. fold (set_job ps n i j') in H1. lia.
Qed.
Lemma spawn_pending ps n : sum_list_with (sum_list_with pending) (alter (fmap spawn_job) n ps) =
  sum_list_with (sum_list_with pending) ps.
Proof.
  revert n. induction ps as [|js ps IH]; intros [|n]; cbn; [done..| |by rewrite IH]. f_equal.
  induction js as [|j js IHj]; cbn; [done|]. rewrite IHj. f_equal. by destruct j as [? [|] []].
Qed.

(** Nothing has failed. *)
Record healthy app : Prop := {
  h_failure : failure (shutdown app) = None;
  h_jobs : ∀ ps, phases (shutdown app) = Some ps →
    Forall (Forall (λ j, ∀ r, task j = Some (TaskFinished r) → r = Ok tt)) ps;
  h_grpc : ∀ r, grpc_task app = Some (TaskFinished r) → r = Ok tt;
  h_http : ∀ r, http_task app = Some (TaskFinished r) → r = Ok tt }.
Definition stopping app : Prop := state app = Stopped ∨ ((state app = Running ∨ state app = Stopping) ∧ is_Some (stopper app)).

Definition advances app app' : Prop :=
  (busy_measure app' < busy_measure app)%nat ∧ healthy app' ∧ (stopping app → stopping app').

Lemma check_advances app name app' r :
  stopper app = Some (PCheck name) → check_state app name = Some (app', r) → healthy app → advances app app'.
Proof.
  intros Hpc Ht Hh. unfold check_state in Ht. unfold advances, busy_measure, stop_measure, stopping.
  destruct (state app) eqn:Hst; cbn in Ht; rewrite ?(h_failure _ Hh) in Ht; injection Ht as <- _; cbn; rewrite Hpc, ?Hst;
    (split; [unfold all_phases; cbn; lia|]); (split; [destruct Hh; by split|]); naive_solver.
Qed.
Lemma grpc_advances app app' r :
  stopper app = Some PDrainGrpc → stop_turn join_error false app = Some (app', r) → shutdown_inv app → healthy app →
  advances app app'.
Proof.
  intros Hpc Ht Hi Hh. destruct (inv_past_check app Hi) as [Hst Hs]; [rewrite Hpc; by intros []|].
  unfold stop_turn in Ht. rewrite Hpc in Ht. unfold drain_server in Ht. unfold advances, busy_measure, stop_measure, stopping.
  destruct (grpc_task app) as [[|sr]|] eqn:Hg; [done| |];
    [rewrite (h_grpc _ Hh sr Hg) in Ht; cbn in Ht|]; injection Ht as <- _; cbn; rewrite Hpc, ?Hg, ?Hst;
    (split; [unfold all_phases; cbn; lia|]); (split; [destruct Hh; by split|]); naive_solver.
Qed.
Lemma http_advances app app' r :
  stopper app = Some PDrainHttp → stop_turn join_error false app = Some (app', r) → shutdown_inv app → healthy app →
  advances app app'.
Proof.
  intros Hpc Ht Hi Hh. destruct (inv_past_check app Hi) as [Hst Hs]; [rewrite Hpc; by intros []|].
  assert (Hq : Forall (Forall (λ j, ∀ r, task j = Some (TaskFinished r) → r = Ok tt)) (all_phases app)).
  { unfold all_phases. destruct (phases (shutdown app)) eqn:Hp; [by apply (h_jobs _ Hh)|].
    apply Forall_fmap, Forall_true. intros ops. by apply Forall_fmap, Forall_true. }
  assert (Hd : advances app (init_phases (set_http app (http_shutdown app) None))).
  { assert (Hall : all_phases (init_phases (set_http app (http_shutdown app) None)) = all_phases app)
      by (unfold all_phases, init_phases; cbn; by destruct (phases (shutdown app))).
    unfold advances, busy_measure, stop_measure, stopping. rewrite Hall, Hpc, Hst. split; [|split].
    - cbn [stopper shutdown phase grpc_task http_task init_phases set_shutdown set_http server_pending]. lia.
    - destruct Hh as [F1 F2 F3 F4]. split; cbn; try done. intros ps [= <-].
      unfold all_phases in Hq. by destruct (phases (shutdown app)).
    - intros _. right. cbn. rewrite Hst. split; [by right|]. eauto. }
  unfold stop_turn in Ht. rewrite Hpc in Ht. unfold drain_server in Ht.
  destruct (http_task app) as [[|sr]|] eqn:Hg; [done| |];
    [rewrite (h_http _ Hh sr Hg) in Ht; cbn in Ht|]; by injection Ht as <- _.
Qed.
Lemma phase_advances app app' r ps :
  stopper app = Some PPhase → phases (shutdown app) = Some ps → phase_top false app ps = Some (app', r) →
  shutdown_inv app → healthy app → advances app app'.
Proof.
  intros Hpc Hps Ht Hi Hh. destruct (inv_past_check app Hi) as [Hst Hs]; [rewrite Hpc; by intros []|].
  destruct (v_some _ Hi ps Hps) as (Hg & Hhttp & Hph). unfold phase_top in Ht. case_decide as Hn.
  - injection Ht as <- _. unfold advances, busy_measure, stop_measure, stopping, all_phases. cbn. rewrite Hpc, Hps.
    split; [lia|]. split; [destruct Hh; by split|]. auto.
  - destruct (ps !! phase (shutdown app)) as [jobs|] eqn:Hj; cycle 1.
    { apply lookup_ge_None in Hj. pose proof (ph_bound _ _ _ Hph). lia. }
    injection Ht as <- _. unfold advances, busy_measure, stop_measure, stopping, all_phases. cbn. rewrite Hpc, Hps.
    split; [|split].
    + rewrite spawn_pending, (rest_drop _ _ _ Hj), list_lookup_alter_eq, Hj. cbn. rewrite length_fmap.
      rewrite (rest_length _ ps (alter _ _ ps)); [lia|]. apply length_alter_fmap. intros js. apply length_fmap.
    + destruct Hh as [F1 F2 F3 F4]. split; cbn; try done. intros ps' [= <-]. apply Forall_alter; [by apply F2|].
      intros js Hk Hjs. apply Forall_fmap. eapply Forall_impl; [exact Hjs|]. intros j Hj' r'. cbn in Hj'.
      unfold spawn_job. destruct (task j) eqn:Htj; [rewrite Htj; apply Hj'|].
      destruct (completed j); cbn; [by rewrite Htj|done].
    + rewrite Hst. eauto.
Qed.
Lemma await_advances app app' r ps i :
  stopper app = Some (PAwait i) → phases (shutdown app) = Some ps → await_job join_error false app ps i = Some (app', r) →
  shutdown_inv app → healthy app → advances app app'.
Proof.
  intros Hpc Hps Ht Hi Hh. destruct (inv_past_check app Hi) as [Hst Hs]; [rewrite Hpc; by intros []|].
  destruct (v_some _ Hi ps Hps) as (Hg & Hhttp & Hph). destruct (ph_await _ _ _ Hph i Hpc) as (jobs & Hn & Haw).
  pose proof (h_jobs _ Hh _ Hps) as Hok. unfold await_job in Ht. rewrite Hn in Ht. cbn in Ht.
  unfold advances, busy_measure, stop_measure, stopping, all_phases. rewrite Hpc, Hps, Hn, Hst.
  destruct (jobs !! i) as [j|] eqn:Hj; cycle 1.
  - injection Ht as <- _. cbn. split; [lia|]. split; [|eauto].
    destruct Hh as [F1 F2 F3 F4]. split; cbn; try done. by intros ? [= <-].
  - apply lookup_lt_Some in Hj as Hlt. destruct (completed j) eqn:Hc.
    + injection Ht as <- _. cbn. rewrite Hps, Hn. cbn. split; [lia|]. split; [|eauto].
      destruct Hh as [F1 F2 F3 F4]. by split.
    + destruct (task j) as [[|jr]|] eqn:Htj; [done| |]; cycle 1.
      { destruct (Haw i j Hj) as [_ [[_ ?]|[[? ?] _]]]; [lia|congruence..]. }
      assert (jr = Ok tt) as ->.
      { eapply Forall_lookup_1 in Hok; [|exact Hn]. eapply Forall_lookup_1 in Hok; [|exact Hj]. auto. }
      injection Ht as <- _. cbn. split; [|split; [|eauto]].
      * pose proof (set_job_pending ps (phase (shutdown app)) i j (MkJob (operation j) None true) jobs Hn Hj) as Hsum.
        unfold pending in Hsum at 2 4. rewrite Htj in Hsum. cbn in Hsum.
        unfold set_job at 1. rewrite list_lookup_alter_eq, Hn. cbn. rewrite length_insert.
        rewrite (rest_length _ ps (set_job ps _ i _)) by apply set_job_lengths. lia.
      * destruct Hh as [F1 F2 F3 F4]. split; cbn; try done. intros ps' [= <-]. apply Forall_alter; [done|].
        intros js _ Hjs. by apply Forall_insert.
Qed.
Lemma turn_advances app app' r :
  stop_turn join_error false app = Some (app', r) → shutdown_inv app → healthy app → advances app app'.
Proof.
  intros Ht Hi Hh. destruct (stopper app) as [[name| | | |i]|] eqn:Hpc;
    [|by eapply grpc_advances|by eapply http_advances|..]; unfold stop_turn in Ht; rewrite Hpc in Ht; [|..|done].
  - by eapply check_advances.
  - destruct (phases (shutdown app)) as [ps|] eqn:Hp; [by eapply phase_advances|].
    destruct (v_none _ Hi Hp) as [_ Hf]. by rewrite Hpc in Hf.
  - destruct (phases (shutdown app)) as [ps|] eqn:Hp; [by eapply await_advances|].
    destruct (v_none _ Hi Hp) as [_ Hf]. by rewrite Hpc in Hf.
Qed.
Lemma job_advances app k i app' :
  job_finishes app k i (Ok tt) = Some app' → healthy app → advances app app'.
Proof.
  unfold job_finishes. destruct (phases (shutdown app)) as [ps|] eqn:Hps; [|done]. cbn.
  destruct (ps !! k) as [jobs|] eqn:Hk; [|done]. cbn. destruct (jobs !! i) as [j|] eqn:Hi; [|done]. cbn.
  destruct (task j) as [[|]|] eqn:Ht; [|done..]. intros [= <-] [F1 F2 F3 F4].
  unfold advances, busy_measure, stop_measure, stopping, all_phases. cbn. rewrite Hps.
  set (j' := MkJob (operation j) (Some (TaskFinished (Ok tt))) (completed j)).
  pose proof (set_job_pending ps k i j j' jobs Hk Hi) as Hsum. unfold pending in Hsum at 2 4. rewrite Ht in Hsum. cbn in Hsum.
  split; [|split; [|done]].
  - assert (Hl : ∀ n, length (default [] (set_job ps k i j' !! n)) = length (default [] (ps !! n))).
    { intros n. unfold set_job. destruct (decide (n = k)) as [->|Hne].
      - rewrite list_lookup_alter_eq, Hk. cbn. apply length_insert.
      - by rewrite list_lookup_alter_ne. }
    rewrite Hl, !(rest_length _ ps (set_job ps k i j')) by apply set_job_lengths. lia.
  - split; cbn; try done. intros ps' [= <-]. apply Forall_alter; [by apply F2|].
    intros js _ Hjs. apply Forall_insert; [done|]. cbn. by intros r [= <-].
Qed.
Lemma busy_advances app app' : busy_step app app' → shutdown_inv app → healthy app → advances app app'.
Proof.
  intros Hs Hi Hh. destruct Hs as [app app' r Ht|app k i app' Hj|app Hg|app Hg].
  - by eapply turn_advances.
  - by eapply job_advances.
  - unfold advances, busy_measure, stop_measure, stopping, all_phases; cbn. rewrite Hg. cbn. split; [lia|].
    split; [|done]. destruct Hh as [F1 F2 F3 F4]. split; cbn; try done. by intros r [= <-].
  - unfold advances, busy_measure, stop_measure, stopping, all_phases; cbn. rewrite Hg. cbn. split; [lia|].
    split; [|done]. destruct Hh as [F1 F2 F3 F4]. split; cbn; try done. by intros r [= <-].
Qed.
(** A pending turn waits for a running task. *)
Lemma blocked_busy app : shutdown_inv app → is_Some (stopper app) → ∃ app', busy_step app app'.
Proof.
  intros Hi [pc Hpc]. destruct (stop_turn join_error false app) as [[app' r]|] eqn:Ht; [by eexists; eapply bs_turn|].
  unfold stop_turn in Ht. rewrite Hpc in Ht. destruct pc as [name| | | |i].
  - unfold check_state in Ht. by repeat case_match.
  - unfold drain_server in Ht. destruct (grpc_task app) as [[|r]|] eqn:Hg; [by eexists; apply bs_grpc| |done].
    by destruct (server_joined join_error r).
  - unfold drain_server in Ht. destruct (http_task app) as [[|r]|] eqn:Hg; [by eexists; apply bs_http| |done].
    by destruct (server_joined join_error r).
  - destruct (phases (shutdown app)) as [ps|]; [|done]. unfold phase_top in Ht. by repeat case_match.
  - destruct (phases (shutdown app)) as [ps|] eqn:Hps; [|done]. unfold await_job in Ht.
    destruct (ps !! phase (shutdown app) ≫= (.!! i)) as [j|] eqn:Hj; [|done].
    destruct (completed j) eqn:Hc; [done|]. destruct (task j) as [[|r]|] eqn:Htj; [|by destruct (joined join_error r)|done].
    eexists. eapply (bs_job _ (phase (shutdown app)) i). unfold job_finishes. rewrite Hps. cbn. rewrite Hj. cbn.
    by rewrite Htj.
Qed.
Lemma busy_terminates app : shutdown_inv app → healthy app → sn busy_step app.
Proof.
  remember (busy_measure app) as n eqn:Hn. revert app Hn. induction (lt_wf n) as [n _ IH]. intros app -> Hi Hh.
  constructor. intros app' Hs. destruct (busy_advances _ _ Hs Hi Hh) as (Hlt & Hh' & _).
  eapply IH; [exact Hlt|done|by eapply shutdown_step, Hi; apply busy_is_step|done].
Qed.
Lemma busy_keeps app app' : rtc busy_step app app' → shutdown_inv app → healthy app → stopping app →
  shutdown_inv app' ∧ stopping app'.
Proof.
  induction 1 as [|a1 a2 a3 Hs _ IH]; intros Hi Hh Hst; [done|].
  destruct (busy_advances _ _ Hs Hi Hh) as (_ & Hh' & Hst'). apply IH; [|done|auto].
  eapply shutdown_step; [by apply busy_is_step|done].
Qed.

(** ** Failures *)
Definition failing (e : string) app : Prop :=
  failure (shutdown app) = Some e ∧ state app = Stopping ∧ starting app = None ∧ at_check (stopper app).
Lemma failing_same e app app' :
  failure (shutdown app') = failure (shutdown app) → state app' = state app → starting app' = starting app →
  stopper app' = stopper app → failing e app → failing e app'.
Proof. unfold failing. by intros -> -> -> ->. Qed.
Lemma register_keeps app :
  (∀ e r, failing e app → failing e (register_data_source app r).2) ∧
  (∀ e r, failing e app → failing e (register_data_sink app r).2) ∧
  (∀ e, failing e app → failing e (add_component app).2) ∧ (∀ e n, failing e app → failing e (add_grpc_service app n).2).
Proof.
  unfold register_data_source, register_data_sink, add_component, add_grpc_service.
  destruct (ensure_created app); cbn; split_and!; intros; try done; by apply (failing_same _ app).
Qed.
Lemma failing_turn e cancelled app app' r :
  stop_turn join_error cancelled app = Some (app', r) → failing e app → failing e app' ∧ r = Some (Err (Transport e)).
Proof.
  intros Ht (Hf & Hst & Hs & Hpc). unfold stop_turn in Ht. destruct (stopper app) as [[]|]; try done.
  unfold check_state in Ht. rewrite Hst in Ht. cbn in Ht. rewrite Hf in Ht. injection Ht as <- <-. by split.
Qed.
Lemma failing_step e app app' : step app app' → failing e app → failing e app'.
Proof.
  intros Hs Hf. destruct (register_keeps app) as (R1 & R2 & R3 & R4). pose proof Hf as (F1 & F2 & F3 & F4).
  destruct Hs as [app env|app r|app r|app|app name|app adm|app r app' Ht|app c app' Ht|app c app' r Ht|app|app k i r app' Ht
    |app r Hg|app r Hg]; eauto.
  - unfold start_begin. destruct (config app); cbn; try done. case_decide; [congruence|done].
  - unfold start_turn in Ht. by rewrite F3 in Ht.
  - unfold stop_lock in Ht. destruct (stopper app); [done|]. by injection Ht as <-.
  - by eapply failing_turn.
  - done.
  - unfold job_finishes in Ht. simplify_option_eq. by repeat case_match; simplify_eq.
Qed.
Lemma fails_failing cancelled app app' r e : stop_turn join_error cancelled app = Some (app', r) → shutdown_inv app →
  failure (shutdown app) = None → failure (shutdown app') = Some e → failing e app'.
Proof.
  intros Ht Hi Hf Hf'. unfold stop_turn in Ht.
  destruct (stopper app) as [pc|] eqn:Hpc; [|done]. destruct pc as [name| | | |i].
  { unfold check_state, returns, continues in Ht. cbn in Ht. rewrite ?Hf in Ht.
    destruct (state app); injection Ht as <- _; cbn in Hf'; congruence. }
  all: destruct (inv_past_check app Hi) as [Hst Hs]; [rewrite Hpc; by intros []|].
  all: unfold drain_server, phase_top, await_job, fails, returns, continues in Ht;
    repeat (case_match; try done); injection Ht as <- _; cbn in Hf'; try congruence; by split.
Qed.
Lemma failure_failing app : reachable app → ∀ e, failure (shutdown app) = Some e → failing e app.
Proof.
  revert app. apply (reachable_ind' (λ app, ∀ e, failure (shutdown app) = Some e → failing e app)).
  - intros app (_ & _ & _ & _ & _ & Hp & _) e. by rewrite Hp.
  - intros app app' Hr Hs IH e He. destruct (failure (shutdown app)) as [e0|] eqn:Hf.
    + pose proof (failing_step e0 _ _ Hs (IH _ eq_refl)) as Hf'. destruct Hf' as (Hf' & _).
      assert (e = e0) as -> by congruence. by eapply failing_step; [|apply IH].
    + pose proof (inv_reachable _ Hr) as Hi. destruct Hs as [app env|app r|app r|app|app name|app adm|app r app' Ht
        |app c app' Ht|app c app' r Ht|app|app k i r app' Ht|app r Hg|app r Hg]; cbn in He; try congruence.
      all: try (unfold register_data_source, register_data_sink, add_component, add_grpc_service, start_begin in He;
        repeat case_match; cbn in He; congruence).
      * unfold start_turn, op_started in Ht. repeat (case_match; try done); simplify_eq; cbn in He; congruence.
      * unfold stop_lock in Ht. case_match; [done|]. simplify_eq. cbn in He. congruence.
      * by eapply fails_failing.
      * unfold job_finishes in Ht. simplify_option_eq. repeat (case_match; try done). simplify_eq. cbn in He. congruence.
Qed.

(** ** The order of the start *)
Definition rank (op : StartOp) : nat :=
  match op with
  | OpBuild => 0 | OpRuntimeMetrics => 1 | OpStorage _ => 2 | OpTaskPool _ => 3 | OpPriorityPool _ => 4
  | OpComponent _ => 5 | OpSink _ => 6 | OpSource _ => 7 | OpGrpc | OpHttp => 8
  end.
Definition stage_rank (stage : StartStage) : nat :=
  match stage with
  | StBuild => 0 | StMetrics => 1 | StStorages => 2 | StTaskPools => 3 | StPriorityPools => 4
  | StComponents => 5 | StSinks => 6 | StSources => 7 | StServers => 8
  end.
(** What has to run before messages are admitted. *)
Definition downstream_stages : list StartStage := [StBuild; StMetrics; StComponents; StSinks].
Definition downstream app : list StartOp := downstream_stages ≫= expand_stage app.

Record start_run app (ops : list StartOp) (stages : list StartStage) : Prop := {
  r_next : ∀ x y, x ∈ started app → y ∈ ops → (rank x ≤ rank y)%nat;
  r_ops : ∀ x y, x ∈ ops → y ∈ ops → rank x = rank y;
  r_stages : ∀ x stage, x ∈ started app ++ ops → stage ∈ stages → (rank x < stage_rank stage)%nat;
  r_sorted : StronglySorted (λ x y, stage_rank x < stage_rank y)%nat stages;
  r_pending : ∀ stage, stage ∈ downstream_stages →
    stage ∈ stages ∨ ∀ op, op ∈ expand_stage app stage → op ∈ started app ++ ops }.
Record start_inv app : Prop := {
  t_created : state app = Created → started app = [] ∧ starting app = None;
  t_sorted : StronglySorted (λ x y, rank x ≤ rank y)%nat (started app);
  t_ready : ∀ x, x ∈ started app → (7 ≤ rank x)%nat → downstream app ⊆ started app;
  t_run : ∀ ops stages, starting app = Some (ops, stages) → start_run app ops stages }.

Lemma expand_rank app stage op : op ∈ expand_stage app stage → rank op = stage_rank stage.
Proof.
  destruct stage; cbn; rewrite ?list_elem_of_fmap; try (intros (? & -> & _); done);
    rewrite ?elem_of_cons, ?elem_of_nil; naive_solver.
Qed.
Lemma start_same app app' :
  started app' = started app → starting app' = starting app → components app' = components app →
  data_sinks app' = data_sinks app → (state app' = Created → state app = Created) → start_inv app → start_inv app'.
Proof.
  intros E1 E2 E3 E4 Hst [H1 H2 H3 H4].
  assert (Hex : ∀ stage, stage ∈ downstream_stages → expand_stage app' stage = expand_stage app stage).
  { intros stage Hs. unfold downstream_stages in Hs. rewrite !elem_of_cons, elem_of_nil in Hs.
    destruct Hs as [->|[->|[->|[->|[]]]]]; cbn; by rewrite ?E3, ?E4. }
  split; rewrite ?E1, ?E2; try done; [by intros ?%Hst; apply H1| |].
  - intros x Hx Hr. unfold downstream. cbn. rewrite E3, E4. by apply (H3 x).
  - intros ops stages Hs. destruct (H4 ops stages Hs) as [R1 R2 R3 R4 R5]. split; rewrite ?E1; try done.
    intros stage Hst'. rewrite Hex by done. by apply R5.
Qed.
(** Registration happens before the start. *)
Lemma start_created app sources sinks n :
  state app = Created → start_inv app → start_inv (set_resources app sources sinks n).
Proof.
  intros Hst [H1 H2 H3 H4]. destruct (H1 Hst) as [E1 E2]. split; cbn; rewrite ?E1, ?E2; try done; [constructor|].
  intros x Hx. by apply not_elem_of_nil in Hx.
Qed.
Lemma ensure_created_state app : ensure_created app = Ok tt → state app = Created.
Proof. unfold ensure_created. destruct (config app); cbn; [|done..]. by destruct (state app). Qed.
Lemma start_register app : start_inv app →
  (∀ r, start_inv (register_data_source app r).2) ∧ (∀ r, start_inv (register_data_sink app r).2) ∧
  start_inv (add_component app).2 ∧ (∀ n, start_inv (add_grpc_service app n).2).
Proof.
  intros Hi. unfold register_data_source, register_data_sink, add_component, add_grpc_service.
  destruct (ensure_created app) as [[]|e|] eqn:He; cbn; split_and!; intros; try done;
    try (apply ensure_created_state in He; by apply start_created). by apply (start_same app).
Qed.

Lemma run_ready app op ops stages x :
  start_run app (op :: ops) stages → x ∈ started app ++ [op] → (7 ≤ rank x)%nat → downstream app ⊆ started app ++ [op].
Proof.
  intros [R1 R2 R3 R4 R5] Hx Hr y Hy. unfold downstream in Hy. apply list_elem_of_bind in Hy as (stage & Hy & Hs).
  pose proof (expand_rank _ _ _ Hy) as Hry.
  assert (Hle : (stage_rank stage ≤ 6)%nat).
  { unfold downstream_stages in Hs. rewrite !elem_of_cons, elem_of_nil in Hs.
    destruct Hs as [->|[->|[->|[->|[]]]]]; cbn; lia. }
  assert (Hx' : x ∈ started app ++ op :: ops) by set_solver.
  destruct (R5 stage Hs) as [Hin|Hall]; [specialize (R3 x stage Hx' Hin); lia|].
  specialize (Hall y Hy). apply elem_of_app in Hall as [?|Hall]; [set_solver|].
  apply elem_of_cons in Hall as [->|Hops]; [set_solver|]. exfalso.
  apply elem_of_app in Hx as [Hx| ->%list_elem_of_singleton].
  - specialize (R1 x y Hx (list_elem_of_further _ _ _ Hops)). lia.
  - specialize (R2 op y (list_elem_of_here _ _) (list_elem_of_further _ _ _ Hops)). lia.
Qed.
Lemma StronglySorted_snoc {A} (R : relation A) l x :
  StronglySorted R l → (∀ y, y ∈ l → R y x) → StronglySorted R (l ++ [x]).
Proof.
  induction 1 as [|a l Hl IH Ha]; intros Hx; cbn; [repeat constructor|]. constructor; [apply IH; set_solver|].
  apply Forall_app. split; [done|]. constructor; [set_solver|constructor].
Qed.
Lemma run_stage app stage stages :
  start_run app [] (stage :: stages) →
  start_run (set_starting app (Some (expand_stage app stage, stages)) (started app)) (expand_stage app stage) stages.
Proof.
  intros [R1 R2 R3 R4 R5]. apply StronglySorted_inv in R4 as [R4 R4']. rewrite app_nil_r in R3.
  assert (Hall : ∀ s', s' ∈ stages → (stage_rank stage < stage_rank s')%nat) by (by apply Forall_forall).
  split; cbn.
  - intros x y Hx Hy%expand_rank. specialize (R3 x stage Hx (list_elem_of_here _ _)). lia.
  - intros x y Hx%expand_rank Hy%expand_rank. lia.
  - intros x s' Hx Hs'. specialize (Hall s' Hs'). apply elem_of_app in Hx as [Hx|Hx%expand_rank]; [|lia].
    specialize (R3 x stage Hx (list_elem_of_here _ _)). lia.
  - done.
  - intros s' Hs'. change (expand_stage (set_starting app (Some (expand_stage app stage, stages)) (started app)) s')
      with (expand_stage app s'). destruct (R5 s' Hs') as [[ ->|?]%elem_of_cons|Hin]; [right; set_solver|by left|].
    right. rewrite app_nil_r in Hin. set_solver.
Qed.
Lemma run_op app app' op ops stages :
  started app' = started app ++ [op] → (∀ stage, expand_stage app' stage = expand_stage app stage) →
  start_run app (op :: ops) stages → start_run app' ops stages.
Proof.
  intros Es Ex [R1 R2 R3 R4 R5]. split; rewrite ?Es.
  - intros x y [Hx| ->%list_elem_of_singleton]%elem_of_app Hy; [apply R1; set_solver|].
    by rewrite (R2 op y) by set_solver.
  - set_solver.
  - intros x s' Hx. apply R3. set_solver.
  - done.
  - intros s' Hs'. rewrite Ex. destruct (R5 s' Hs') as [?|Hin]; [by left|]. right. set_solver.
Qed.
Lemma start_turn_inv app r app' : start_turn app r = Some app' → start_inv app → state app = Starting → start_inv app'.
Proof.
  unfold start_turn. destruct (starting app) as [[ops stages]|] eqn:Hst; [|done].
  intros Ht Hi Hs. pose proof Hi as [H1 H2 H3 H4]. pose proof (H4 _ _ Hst) as Hrun.
  assert (Hend : ∀ st, st ≠ Created → start_inv (set_starting (set_state app st) None (started app))).
  { intros st Hne. by split; cbn. }
  destruct ops as [|op ops].
  - destruct stages as [|stage stages]; injection Ht as <-; [by apply Hend|].
    split; cbn; try done; [congruence|]. intros ops' stages' [= <- <-]. by apply run_stage.
  - destruct r as [[]|e|]; injection Ht as <-; [|by apply Hend|].
    + assert (Hk : state (op_started app op) = state app ∧ components (op_started app op) = components app ∧
        data_sinks (op_started app op) = data_sinks app ∧ app_env (op_started app op) = app_env app ∧
        data_sources (op_started app op) = data_sources app)
        by (unfold op_started; by repeat case_match).
      destruct Hk as (K1 & K2 & K3 & K4 & K5).
      assert (Hex : ∀ stage, expand_stage (set_starting (op_started app op) (Some (ops, stages)) (started app ++ [op])) stage =
        expand_stage app stage) by (intros []; cbn; by rewrite ?K2, ?K3, ?K4, ?K5).
      split; cbn; [congruence| | |].
      * apply StronglySorted_snoc; [done|]. intros y Hy. apply (r_next _ _ _ Hrun); [done|set_solver].
      * intros x Hx Hr. unfold downstream. cbn. rewrite K2, K3. by eapply (run_ready app op ops stages x).
      * intros ops' stages' [= <- <-]. by eapply run_op.
    + split; cbn; try done. congruence.
Qed.
Lemma start_step app app' : step app app' → shutdown_inv app → start_inv app → start_inv app'.
Proof.
  intros Hs Hv Hi. destruct (start_register _ Hi) as (R1 & R2 & R3 & R4).
  destruct Hs as [app env|app r|app r|app|app name|app adm|app r app' Ht|app c app' Ht|app c app' r Ht|app|app k i r app' Ht
    |app r Hg|app r Hg]; eauto; try (by apply (start_same app)).
  - unfold start_begin. destruct (config app); cbn; try done. case_decide as Hc; [|done]. cbn.
    destruct Hi as [H1 H2 H3 H4]. destruct (H1 Hc) as [E1 E2]. split; cbn; rewrite ?E1; [done|constructor|by intros x Hx%not_elem_of_nil|].
    intros ops stages [= <- <-]. split; cbn; rewrite ?E1; cbn; try (intros *; by rewrite ?elem_of_nil).
    + repeat (constructor; cbn); destruct adm; repeat constructor; cbn; lia.
    + intros stage Hst. left. unfold downstream_stages in Hst. destruct adm; set_solver.
  - eapply start_turn_inv; [done..|]. unfold start_turn in Ht. apply (v_starting _ Hv). by destruct (starting app).
  - unfold stop_lock in Ht. destruct (stopper app); [done|]. injection Ht as <-. by apply (start_same app).
  - apply (start_same app); [..|done].
    all: unfold stop_turn, check_state, drain_server, phase_top, await_job, fails, returns, continues in Ht;
      repeat (case_match; try done); injection Ht as <- _; cbn; congruence.
  - unfold job_finishes in Ht. simplify_option_eq. repeat (case_match; try done). simplify_eq. by apply (start_same app).
Qed.
Lemma start_reachable app : reachable app → start_inv app.
Proof.
  revert app. apply (reachable_ind' start_inv).
  - intros app (F1 & F2 & F3 & _). split; rewrite ?F1, ?F2, ?F3; try done; [constructor|].
    intros x Hx. by apply not_elem_of_nil in Hx.
  - intros app app' Hr Hs. apply start_step; [done|]. by apply inv_reachable.
Qed.
End lifecycle_lemmas.

(** ** Configured pools *)
Section pool_lemmas.
Context {Json Pool PriorityPool Endpoint Storage Buildable : Type}.
Notation Env := (RuntimeEnvironment Json Pool PriorityPool Endpoint Storage Buildable).
Context (make_pool : string → RuntimeResult Pool) (pool_name_of : Pool → string).
Context (make_priority_pool : string → RuntimeResult PriorityPool) (priority_name_of : PriorityPool → string).
Context (Hname : ∀ n p, make_pool n = Ok p → pool_name_of p = n).
Context (Hpname : ∀ n p, make_priority_pool n = Ok p → priority_name_of p = n).

Definition resolves (env : Env) (semantics : CallSemantics) : Prop :=
  match semantics with
  | TaskPool n => is_Some (task_pools env !! n)
  | PriorityTaskPool n _ => is_Some (priority_task_pools env !! n)
  | _ => True
  end.
Definition grows (env env' : Env) : Prop :=
  runtime_config env' = runtime_config env ∧ service_id env' = service_id env ∧
  ∀ semantics, resolves env semantics → resolves env' semantics.
Lemma register_pool_resolves env semantics env' :
  register_pool make_pool pool_name_of make_priority_pool priority_name_of env semantics = Ok env' →
  grows env env' ∧ resolves env' semantics.
Proof.
  unfold register_pool. destruct semantics as [| |n|n prio]; try (by intros [= <-]).
  - unfold task_pool. destruct (task_pools env !! n) as [p|] eqn:Hp; cbn; [intros [= <-]; by rewrite ?Hp|].
    destruct (make_pool n) as [p|e|] eqn:Hm; cbn; [|done..]. rewrite (Hname _ _ Hm), decide_False; [|by rewrite Hp; intros [? ?]].
    intros [= <-]. split; [|cbn; by rewrite lookup_insert_eq]. split_and!; [done..|]. intros [| |n'|n' ?]; cbn; try done.
    destruct (decide (n = n')) as [->|]; simplify_map_eq; done.
  - unfold priority_task_pool. destruct (priority_task_pools env !! n) as [p|] eqn:Hp; cbn; [intros [= <-]; by rewrite ?Hp|].
    destruct (make_priority_pool n) as [p|e|] eqn:Hm; cbn; [|done..].
    rewrite (Hpname _ _ Hm), decide_False; [|by rewrite Hp; intros [? ?]].
    intros [= <-]. split; [|cbn; by rewrite lookup_insert_eq]. split_and!; [done..|]. intros [| |n'|n' ?]; cbn; try done.
    destruct (decide (n = n')) as [->|]; simplify_map_eq; done.
Qed.
Lemma register_pools_resolve env env' l :
  fold_res (register_pool make_pool pool_name_of make_priority_pool priority_name_of) env l = Ok env' →
  grows env env' ∧ Forall (resolves env') l.
Proof.
  apply (fold_res_ind _ (λ done e, grows env e ∧ Forall (resolves e) done)); [by split|].
  intros done semantics e1 e2 _ [(G1 & G2 & G3) Hall] ((K1 & K2 & K3) & Hr)%register_pool_resolves. split.
  - split_and!; [congruence..|auto].
  - apply Forall_app. split; [|by constructor]. eapply Forall_impl; [exact Hall|]. auto.
Qed.
Lemma resolves_caller (env : Env) semantics async : resolves env semantics → ∃ c, make_caller env semantics async = Ok c.
Proof.
  destruct semantics as [| |n|n prio]; cbn; unfold task_pool, priority_task_pool; [eauto..| |];
    intros [p ->]; cbn; eauto.
Qed.
End pool_lemmas.

(** ** Schedules *)
Section schedules.
Context {Json Pool PriorityPool Endpoint Storage Buildable : Type} (join_error : string).
Notation App := (ServiceApp Json Pool PriorityPool Endpoint Storage Buildable).
Implicit Types app : App.

Inductive Act :=
| ASource (r : Connector) | ASink (r : Connector) | AComponent
| AStart (admission : bool) | AStartTurn (r : RuntimeResult unit)
| ALock (c : ServiceConfig) | ATurn (cancelled : bool) | ADrop
| AJob (k i : nat) (r : RuntimeResult unit) | AGrpc (r : outcome string unit) | AHttp (r : outcome string unit).
Definition act app (a : Act) : option App :=
  match a with
  | ASource r => Some (register_data_source app r).2
  | ASink r => Some (register_data_sink app r).2
  | AComponent => Some (add_component app).2
  | AStart admission => Some (start_begin app admission).2
  | AStartTurn r => start_turn app r
  | ALock c => stop_lock app c
  | ATurn cancelled => fst <$> stop_turn join_error cancelled app
  | ADrop => Some (stop_dropped app)
  | AJob k i r => job_finishes app k i r
  | AGrpc r => match grpc_task app with
               | Some TaskRunning => Some (set_grpc app (grpc_shutdown app) (Some (TaskFinished r))) | _ => None end
  | AHttp r => match http_task app with
               | Some TaskRunning => Some (set_http app (http_shutdown app) (Some (TaskFinished r))) | _ => None end
  end.
(** The state after the acts that are possible. *)
Fixpoint after app (acts : list Act) : App :=
  match acts with [] => app | a :: acts => after (default app (act app a)) acts end.
Lemma act_step app a app' : act app a = Some app' → app_step join_error app app'.
Proof.
  destruct a; cbn; try (intros [= <-]); eauto using app_step.
  - destruct (stop_turn join_error cancelled app) as [[x r]|] eqn:Ht; [|done]. intros [= <-]. by eapply as_turn.
  - case_match; [|done]. case_match; [|done]. intros [= <-]. by apply as_grpc_ends.
  - case_match; [|done]. case_match; [|done]. intros [= <-]. by apply as_http_ends.
Qed.
Lemma after_reachable app acts : fresh app → app_reachable join_error (after app acts).
Proof.
  intros Hf. exists app. split; [done|]. clear Hf. revert app. induction acts as [|a acts IH]; intros app; cbn; [done|].
  destruct (act app a) as [app'|] eqn:Ha; cbn; [|done]. eapply rtc_l; [by eapply act_step|done].
Qed.
End schedules.

(** A service with one data source and one sink. *)
Definition example_service : ServiceConfig := ServiceConfig_default.
Definition example_app : ServiceApp unit unit unit unit unit unit :=
  match from_parts FunctionCall [example_service] [] [] [] [] [] with
  | Ok runtime =>
      MkApp 0 (publish_runtime_config (for_service (environment_new FunctionCall) 0) runtime).1 ∅ ∅ 0 false [] Created None []
        false None false None (MkProgress 0 None None) None
  | _ => MkApp 0 (environment_new FunctionCall) ∅ ∅ 0 false [] Created None [] false None false None
           (MkProgress 0 None None) None
  end.
Definition example_start : list Act :=
  [ASource (MkConnector 7 "in"); ASink (MkConnector 8 "out"); AStart true] ++ replicate 18 (AStartTurn (Ok tt)).

(** * Properties *)
Section properties.
Context {Json Pool PriorityPool Endpoint Storage Buildable : Type} (join_error : string).
Notation App := (ServiceApp Json Pool PriorityPool Endpoint Storage Buildable).
Implicit Types app : App.

(** C11: shutdown is ordered.  Whatever stop calls are made, cancelled,
    dropped or retried, a job of a phase is started only after both servers
    have been drained and every job of every earlier phase has finished
    successfully; a stopped service has finished every job; and no stop call
    panics on its own bookkeeping. *)
Theorem shutdown_ordered app :
  app_reachable join_error app →
  (∀ ps k jobs j, phases (shutdown app) = Some ps → ps !! k = Some jobs → j ∈ jobs → ~ quiet j →
    grpc_task app = None ∧ http_task app = None ∧
    ∀ k' jobs', (k' < k)%nat → ps !! k' = Some jobs' → Forall finished jobs') ∧
  (state app = Stopped → ∀ ps, phases (shutdown app) = Some ps → Forall (Forall finished) ps) ∧
  (∀ cancelled app' r, stop_turn join_error cancelled app = Some (app', r) → r ≠ Some Panic).
Proof.
  intros Hi%inv_reachable. split_and!.
  - intros ps k jobs j Hps Hk Hj Hq. destruct (v_some _ Hi ps Hps) as (Hg & Hh & Hph). split_and!; [done..|].
    intros k' jobs' Hlt Hk'. eapply (ph_done _ _ _ Hph); [done|]. destruct (decide (phase (shutdown app) < k)%nat) as [Hp|]; [|lia].
    destruct Hq. eapply (ph_later _ _ _ Hph) in Hp; [|done]. by eapply Forall_forall in Hp.
  - intros Hst ps Hps. destruct (v_stopped _ Hi Hst) as (_ & _ & _ & Hn). destruct (v_some _ Hi ps Hps) as (_ & _ & Hph).
    apply Forall_lookup. intros k jobs Hk. eapply (ph_done _ _ _ Hph); [done|]. rewrite (Hn _ Hps). by eapply lookup_lt_Some.
  - intros cancelled app' r Ht. by eapply inv_turn.
Qed.

(** C12: shutdown completes.  While its context lives and its tasks succeed, a
    stop call takes finitely many steps however they interleave, never waits
    for anything but a running task, and leaves the service stopped. *)
Theorem shutdown_completes app :
  app_reachable join_error app → stopping app → healthy app →
  sn (busy_step join_error) app ∧
  ∀ app', rtc (busy_step join_error) app app' → nf (busy_step join_error) app' → state app' = Stopped.
Proof.
  intros Hi%inv_reachable Hst Hh. split; [by apply busy_terminates|]. intros app' Hr Hnf.
  destruct (busy_keeps _ _ _ Hr Hi Hh Hst) as [Hi' [?|[_ Hpc]]]; [done|].
  destruct Hnf. by apply blocked_busy.
Qed.

(** a failed shutdown stays visible.  Once a server or a job has failed
    for another reason than cancellation, every later stop call returns that
    error and the service never reports that it has stopped. *)
Theorem shutdown_failure_sticky app app' e :
  app_reachable join_error app → failure (shutdown app) = Some e → rtc (app_step join_error) app app' →
  failure (shutdown app') = Some e ∧ state app' = Stopping ∧
  ∀ cancelled app2 r, stop_turn join_error cancelled app' = Some (app2, r) → r = Some (Err (Transport e)).
Proof.
  intros Hr Hf Hs. pose proof (failure_failing _ _ Hr _ Hf) as Hfail. clear Hr Hf.
  induction Hs as [app|a1 a2 a3 H1 _ IH]; [|by eapply IH, failing_step].
  destruct Hfail as (F1 & F2 & F3). split_and!; [done..|]. intros cancelled app2 r Ht.
  by destruct (failing_turn _ e _ _ _ _ Ht) as [_ ?].
Qed.

(** admission is last.  The operations of a start succeed in the order of
    its stages, and when a data source, the gRPC or the HTTP server has been
    started, the graph is built and the runtime metrics, every component and
    every sink have been started before. *)
Theorem start_downstream_first app :
  app_reachable join_error app →
  StronglySorted (λ x y, rank x ≤ rank y)%nat (started app) ∧
  ∀ pre x post, started app = pre ++ x :: post → (7 ≤ rank x)%nat → downstream app ⊆ pre.
Proof.
  intros Hi%start_reachable. split; [apply Hi|]. intros pre x post Hs Hx y Hy.
  assert (Hin : y ∈ started app) by (eapply (t_ready _ Hi x); [rewrite Hs; set_solver|done|done]).
  assert (Hry : (rank y < 7)%nat).
  { unfold downstream in Hy. apply list_elem_of_bind in Hy as (stage & Hy%expand_rank & Hst). rewrite Hy.
    unfold downstream_stages in Hst. rewrite !elem_of_cons, elem_of_nil in Hst.
    destruct Hst as [->|[->|[->|[->|[]]]]]; cbn; lia. }
  pose proof (t_sorted _ Hi) as Hsort. rewrite Hs in Hin, Hsort. apply elem_of_app in Hin as [?|Hin]; [done|].
  apply StronglySorted_app_1_r in Hsort. apply StronglySorted_inv in Hsort as [_ Hall]. exfalso.
  apply elem_of_cons in Hin as [->|Hin]; [lia|]. eapply Forall_forall in Hall; [|done]. cbn in Hall. lia.
Qed.

(** every link of a new service can be built: the pool its call semantics
    name is registered, whether the link is configured or falls back to the
    service's default. *)
Theorem configured_pools_resolve (make_pool : string → RuntimeResult Pool) pool_name_of
    (make_priority_pool : string → RuntimeResult PriorityPool) priority_name_of
    (env : RuntimeEnvironment Json Pool PriorityPool Endpoint Storage Buildable) c app from to async :
  (∀ n p, make_pool n = Ok p → pool_name_of p = n) →
  (∀ n p, make_priority_pool n = Ok p → priority_name_of p = n) →
  service_app_new make_pool pool_name_of make_priority_pool priority_name_of env c = Ok app →
  ∃ caller, make_caller (app_env app) (env_call_semantics (app_env app) from to) async = Ok caller.
Proof.
  intros H1 H2 H3. unfold service_app_new in H3. apply bind_Ok in H3 as (env' & H3 & [= <-]). cbn.
  unfold register_configured_pools in H3. apply register_pools_resolve in H3 as ((G1 & G2 & _) & Hall); [|done..].
  apply resolves_caller. rewrite Forall_forall in Hall. apply Hall. unfold configured_semantics. rewrite <-G1, <-G2.
  unfold env_call_semantics, link, link_values. apply elem_of_app.
  destruct (links (runtime_config env') !! (from, to)) as [l|] eqn:Hl; [left|right; set_solver].
  apply list_elem_of_fmap. exists l. split; [done|]. apply list_elem_of_fmap. exists (from, to, l). split; [done|].
  by apply elem_of_map_to_list.
Qed.
End properties.

Lemma example_fresh : fresh example_app.
Proof. by vm_compute. Qed.
(** The source has been stopped; the delay pool is being stopped. *)
Definition example_stop : list Act :=
  [ALock example_service; ATurn false; ATurn false; AHttp (Ok tt); ATurn false; ATurn false; AJob 0 0 (Ok tt);
   ATurn false; ATurn false; ATurn false].
Definition example_stopping := after "panic" example_app (example_start ++ example_stop).
Lemma shutdown_ordered_witness :
  http_task example_stopping = None ∧
  ∃ jobs, (phases (shutdown example_stopping) ≫= (.!! 0%nat)) = Some jobs ∧ Forall finished jobs ∧ jobs ≠ [].
Proof.
  destruct (shutdown_ordered "panic" example_stopping (after_reachable _ _ _ example_fresh)) as [H _].
  let ps := eval vm_compute in (default [] (phases (shutdown example_stopping))) in
  destruct (H ps 1%nat (default [] (ps !! 1%nat)) (default (job_new ShutdownLogs) (default [] (ps !! 1%nat) !! 0%nat)))
    as (_ & Hh & Hf);
    [by vm_compute|reflexivity|constructor|by intros [? _]|];
    split; [exact Hh|]; exists (default [] (ps !! 0%nat)); split; [by vm_compute|];
    split; [apply (Hf 0%nat); [lia|reflexivity]|done].
Defined.

Definition example_locked := after "panic" example_app (example_start ++ [ALock example_service]).
Lemma shutdown_completes_witness :
  sn (busy_step "panic") example_locked ∧ state example_locked = Running.
Proof.
  split; [|by vm_compute].
  apply (shutdown_completes "panic" example_locked (after_reachable _ _ _ example_fresh)).
  - right. split; [left; by vm_compute|]. vm_compute. eauto.
  - split; [by vm_compute|intros ps Hps; by vm_compute in Hps|intros r Hr; by vm_compute in Hr..].
Defined.

(** The HTTP server fails while it is drained. *)
Definition example_failed :=
  after "panic" example_app (example_start ++ [ALock example_service; ATurn false; ATurn false; AHttp (Err "bind"); ATurn false]).
Lemma shutdown_failure_sticky_witness :
  failure (shutdown (after "panic" example_failed [ALock example_service; ATurn true])) =
    Some "transport error: bind".
Proof.
  apply (shutdown_failure_sticky "panic" example_failed).
  - apply after_reachable, example_fresh.
  - by vm_compute.
  - eapply rtc_l; [eapply (act_step "panic" _ (ALock example_service)); by vm_compute|].
    eapply rtc_once, (act_step "panic" _ (ATurn true)). by vm_compute.
Defined.

Definition example_running := after "panic" example_app example_start.
Lemma start_downstream_first_witness : downstream example_running ⊆ [OpBuild; OpRuntimeMetrics; OpSink 8].
Proof.
  apply (proj2 (start_downstream_first "panic" example_running (after_reachable _ _ _ example_fresh))
    _ (OpSource 7) [OpGrpc; OpHttp]); [by vm_compute|cbn; lia].
Defined.

(** Pools as their names. *)
Definition example_pools : RuntimeResult (ServiceApp unit string string unit unit unit) :=
  service_app_new (λ n, Ok n) id (λ n, Ok n) id (environment_new (TaskPool "workers")) example_service.
Lemma configured_pools_resolve_witness :
  ∃ app caller, example_pools = Ok app ∧ make_caller (app_env app) (env_call_semantics (app_env app) 1 2) false = Ok caller.
Proof.
  destruct example_pools as [app|e|] eqn:Happ; [|by vm_compute in Happ..]. exists app.
  destruct (configured_pools_resolve (λ n, Ok n) id (λ n, Ok n) id (environment_new (TaskPool "workers")) example_service app
    1 2 false) as [caller Hc]; [by intros n p [= ->]|by intros n p [= ->]|exact Happ|].
  by exists caller.
Defined.
