(* ===== verification/ServiceHttp.v ===== *)
(** The HTTP routes of a service and the metric series prepared for its
    routes and gRPC methods, [start_http_server], [http_metric_specs] and
    [grpc_metric_methods] of [src/src/runtime/serviceapp.rs].

    Strings are byte strings; the methods and handlers behind a route are left
    out.  The router of axum is its documented contract for [GET] routes:
    adding a path twice panics. *)

From S2P Require Import Prelude Errors Config.
From stdpp Require Import pretty.
From Stdlib Require Import Strings.Ascii.
From Stdlib Require Strings.String.
Local Open Scope Z_scope.

(** [trim_start_matches('/')] *)
Fixpoint trim_slashes (s : string) : string :=
  match s with
  | String "/"%char s => trim_slashes s
  | _ => s
  end.
Definition handler_path (handler : string) : string := "/" +:+ trim_slashes handler.

(** ** Routes of the service itself *)
Definition status_suffixes : list string := [""; "/data"; "/graph"; "/vis.min.js"; "/vis.min.css"].
Definition status_routes (c : ServiceConfig) : list string :=
  if decide (status_handler c = "") then [] else (λ suffix, handler_path (status_handler c) +:+ suffix) <$> status_suffixes.
Definition metrics_routes (c : ServiceConfig) (has_otel : bool) : list string :=
  if decide (metrics_handler c = "" ∨ has_otel = true) then [] else [handler_path (metrics_handler c)].
Definition health_handlers (c : ServiceConfig) : list string :=
  filter (λ h, h ≠ "") [startup_handler c; readiness_handler c; liveness_handler c].
(** Collected in a [HashSet]. *)
Definition health_paths (c : ServiceConfig) : gset string := list_to_set (handler_path <$> health_handlers c).

(** [Router::route] for a [GET] route. *)
Definition route (router : list string) (path : string) : outcome Empty_set (list string) :=
  if decide (path ∈ router) then Panic else Ok (router ++ [path]).
(** The router of [start_http_server], from the application's own routes. *)
Definition service_router (http_router : list string) (c : ServiceConfig) (has_otel : bool) :
    outcome Empty_set (list string) :=
  fold_res route http_router (status_routes c ++ metrics_routes c has_otel ++ elements (health_paths c)).

(** ** Metric series *)
Inductive Method := GET | POST | PUT | PATCH | DELETE | HEAD | OPTIONS | TRACE | CONNECT.
Definition http_method (m : Api.HTTPMethodType) : option Method :=
  match m with
  | Api.GET => Some GET | Api.POST => Some POST | Api.PUT => Some PUT | Api.PATCH => Some PATCH
  | Api.DELETE => Some DELETE | Api.HEAD => Some HEAD | Api.OPTIONS => Some OPTIONS | Api.TRACE => Some TRACE
  | Api.CONNECT => Some CONNECT | Api.HMUndefined => None
  end.
Record HttpRouteMetricSpec := MkSpec { spec_method : Method; spec_route : string; spec_statuses : list Z }.

Section specs.
Context {Json : Type} (HTTP_STATUS_CODES : list Z).
(** The endpoint of an input stream. *)
Definition input_endpoint (r : RuntimeConfig Json) (s : RuntimeStreamConfig Json) : option RuntimeEndpointConfig :=
  match s with InputStream _ id => endpoint_by_id r id | _ => None end.
Definition endpoint_spec (e : RuntimeEndpointConfig) : option HttpRouteMetricSpec :=
  match e with
  | HttpEndpoint h => method ← http_method (http_method_type h); Some (MkSpec method (he_path h) HTTP_STATUS_CODES)
  | _ => None
  end.
Definition http_metric_specs (r : RuntimeConfig Json) (c : ServiceConfig) (has_otel : bool) : list HttpRouteMetricSpec :=
  omap endpoint_spec (omap (input_endpoint r) (streams r)) ++
  ((λ path, MkSpec GET path [200; 500]) <$> status_routes c) ++
  ((λ path, MkSpec GET path [200; 500]) <$> metrics_routes c has_otel) ++
  ((λ path, MkSpec GET path [200]) <$> elements (health_paths c)).

(** *** gRPC methods *)
Definition is_ascii_alphanumeric (c : ascii) : bool :=
  let n := Z.of_N (N_of_ascii c) in
  bool_decide (48 ≤ n ≤ 57 ∨ 65 ≤ n ≤ 90 ∨ 97 ≤ n ≤ 122).
(** [to_uppercase] on the alphanumeric characters that can start a part. *)
Definition to_uppercase (c : ascii) : ascii :=
  let n := Z.of_N (N_of_ascii c) in
  if decide (97 ≤ n ≤ 122) then ascii_of_N (Z.to_N (n - 32)) else c.
(** [split] by a predicate: always at least one part, possibly empty. *)
Fixpoint split_by (sep : ascii → bool) (s : list ascii) : list (list ascii) :=
  match s with
  | [] => [[]]
  | c :: s =>
      if sep c then [] :: split_by sep s
      else match split_by sep s with part :: parts => (c :: part) :: parts | [] => [[c]] end
  end.
Definition capitalize (part : list ascii) : list ascii :=
  match part with [] => [] | c :: part => to_uppercase c :: part end.
Definition method_name (name : string) : string :=
  String.string_of_list_ascii
    (mjoin (capitalize <$> filter (λ part, part ≠ []) (split_by (λ c, negb (is_ascii_alphanumeric c)) (String.list_ascii_of_string name)))).
Definition endpoint_method (e : RuntimeEndpointConfig) : option string :=
  match e with GrpcEndpoint g => Some (method_name (ge_name g)) | _ => None end.
Definition grpc_metric_methods (r : RuntimeConfig Json) (grpc_service_names : list string) : list string :=
  let endpoint_methods := omap endpoint_method (omap (input_endpoint r) (streams r)) in
  grpc_service_names ≫= λ service, (λ method, service +:+ "/" +:+ method) <$> endpoint_methods.
End specs.

(** * Lemmas *)
Lemma route_fold router paths :
  NoDup router →
  fold_res route router paths = if decide (NoDup (router ++ paths)) then Ok (router ++ paths) else Panic.
Proof.
  revert router. induction paths as [|p paths IH]; intros router Hnd; cbn [fold_res].
  - rewrite app_nil_r. by destruct (decide (NoDup router)).
  - replace (route router p) with (if decide (p ∈ router) then Panic else Ok (router ++ [p]) : outcome Empty_set _) by done.
    destruct (decide (p ∈ router)) as [Hp|Hp]; cbn.
    + destruct (decide (NoDup (router ++ p :: paths))) as [Hd|]; [|done]. apply NoDup_app in Hd as (_ & Hd & _). destruct (Hd p Hp). by left.
    + rewrite IH; [|apply NoDup_app; split_and!; [done|set_solver|apply NoDup_singleton]].
      by rewrite <-app_assoc.
Qed.

(** The service mounts its own routes after the application's, each once, and
    the start panics exactly when two of them coincide. *)
Theorem service_router_spec http_router c has_otel :
  let own := status_routes c ++ metrics_routes c has_otel ++ elements (health_paths c) in
  NoDup http_router →
  (NoDup (http_router ++ own) → service_router http_router c has_otel = Ok (http_router ++ own)) ∧
  (~ NoDup (http_router ++ own) → service_router http_router c has_otel = Panic).
Proof.
  intros own Hnd. unfold service_router. rewrite route_fold by done. fold own.
  split; intros H; [by rewrite decide_True|by rewrite decide_False].
Qed.
(** Health handlers may share a path; a health handler on the status page's
    path, or the same handler for metrics and status, makes the start panic. *)
Lemma shared_health_path_mounts :
  service_router [] (MkService 0 "" Api.Rust "" FunctionCall "" 0 "" "" "live" "/live" "//live" Api.Deployment "" 0 0 ""
    Api.LLUndefined "" 0) false = Ok ["/live"].
Proof. by vm_compute. Qed.
Lemma shared_status_path_panics :
  service_router [] (MkService 0 "" Api.Rust "" FunctionCall "" 0 "" "status" "status" "" "" Api.Deployment "" 0 0 ""
    Api.LLUndefined "" 0) false = Panic.
Proof. by vm_compute. Qed.

Lemma split_by_clean sep s part : part ∈ split_by sep s → Forall (λ c, sep c = false) part.
Proof.
  revert part. induction s as [|c s IH]; intros part; cbn.
  - intros ->%list_elem_of_singleton. constructor.
  - destruct (sep c) eqn:Hc; [intros [->|Hp]%elem_of_cons; [constructor|auto]|].
    destruct (split_by sep s) as [|p parts] eqn:Hs.
    + intros ->%list_elem_of_singleton. by repeat constructor.
    + intros [->|Hp]%elem_of_cons; [|apply IH; by right]. constructor; [done|]. apply IH. by left.
Qed.
Lemma to_uppercase_alphanumeric c : is_ascii_alphanumeric c = true → is_ascii_alphanumeric (to_uppercase c) = true.
Proof. destruct c as [[] [] [] [] [] [] [] []]; vm_compute; done. Qed.
(** A prepared gRPC method name has only ASCII letters and digits. *)
Theorem method_name_alphanumeric name :
  Forall (λ c, is_ascii_alphanumeric c = true) (String.list_ascii_of_string (method_name name)).
Proof.
  unfold method_name. rewrite String.list_ascii_of_string_of_list_ascii. apply Forall_join, Forall_fmap, Forall_forall.
  intros part [_ Hp]%list_elem_of_filter. apply split_by_clean in Hp. cbn.
  assert (Hall : Forall (λ c, is_ascii_alphanumeric c = true) part).
  { eapply Forall_impl; [exact Hp|]. cbn. intros c. by destruct (is_ascii_alphanumeric c). }
  destruct part as [|c part]; [constructor|]. apply Forall_cons in Hall as [Hc Hall]. constructor; [|done].
  by apply to_uppercase_alphanumeric.
Qed.
