(* ===== verification/KafkaConnector.v ===== *)
(** The Kafka source connector, [src/src/datasource/kafka/rdkafka.rs]:
    configuration of an input, the client's settings, the topics to create,
    and the life of the connector and of its endpoints.

    The lifecycle lock makes [start] and [stop] of a connector one after the
    other, so each is a function; [start] may also be dropped at one of its
    awaits.  What the Kafka client answers, and how the wait for an endpoint's
    task ends, are arguments. *)

From Stdlib Require Import Ascii.
From stdpp Require Import pretty.
From S2P Require Import Prelude Errors SortedMap Config Environment Metrics Requests.
Local Open Scope Z_scope.

(** [str::trim().is_empty()], on ASCII *)
Definition is_space (c : ascii) : bool :=
  let n := N_of_ascii c in (N.leb 9 n && N.leb n 13) || N.eqb n 32.
Definition blank (s : string) : bool := forallb is_space (chars s).
(** [Display] of the runtime's errors *)
Definition error_text (e : RuntimeError) : string :=
  match e with
  | TaskPoolNotFound name => "task pool " +:+ debug name +:+ " is not registered"
  | PriorityTaskPoolNotFound name => "priority task pool " +:+ debug name +:+ " is not registered"
  | ConsumerAlreadySet stream => "stream " +:+ debug stream +:+ " already has a downstream consumer"
  | SourceAlreadySet stream => "stream " +:+ debug stream +:+ " already has a source"
  | ConsumerNotSet stream => "stream " +:+ debug stream +:+ " has no downstream consumer"
  | DuplicateResource name => "runtime resource " +:+ debug name +:+ " is already registered"
  | ResourceAlreadyStarted name => "runtime resource " +:+ debug name +:+ " is already started"
  | ResourceStopped name => "runtime resource " +:+ debug name +:+ " is stopped"
  | ContextCancelled => "message context is cancelled"
  | DuplicateKey => "duplicate key"
  | InvalidConfiguration text => "invalid runtime configuration: " +:+ text
  | Transport text => "transport error: " +:+ text
  | MetricsErr (TypeConflict name) => "metric " +:+ debug name +:+ " is already registered with another type"
  | MetricsErr (DescriptionConflict name) => "metric " +:+ debug name +:+ " is already registered with another description"
  end.
(** [f32::ceil() as u64] of a positive number, [None] when [> 0.0] is false; a
    [dial_timeout] is the bits of its [f32]. *)
Definition f32_ceil (bits : Z) : option Z :=
  let e := bits `div` 2 ^ 23 in
  let m := bits `mod` 2 ^ 23 in
  if (bits <=? 0) || (256 <=? e) then None
  else if e =? 255 then if m =? 0 then Some (2 ^ 64 - 1) else None
  else
    let m := if e =? 0 then m else 2 ^ 23 + m in
    let x := Z.max e 1 - 150 in
    Some (if 0 <=? x then Z.min (m * 2 ^ x) (2 ^ 64 - 1) else - ((- m) `div` 2 ^ (- x))).

Section config.
Context {Json : Type}.
Implicit Types r : RuntimeConfig Json.

(** [kafka_input_configs]: [name] and [id] are the input stream's. *)
Definition kafka_input_configs r (name : string) (id : Z) : RuntimeResult (KafkaEndpointConfig * KafkaDataConnectorConfig) :=
  endpoint ← ok_or (endpoint_by_id r id)
    (InvalidConfiguration ("endpoint " +:+ pretty id +:+ " referenced by input stream " +:+ debug name +:+ " is not configured"));
  match endpoint with
  | KafkaEndpoint endpoint =>
      connector ← ok_or (data_connector_by_id r (ke_connector endpoint))
        (InvalidConfiguration ("data connector " +:+ pretty (ke_connector endpoint) +:+ " referenced by endpoint " +:+
           debug (ke_name endpoint) +:+ " is not configured"));
      match connector with
      | KafkaConnector connector => Ok (endpoint, connector)
      | _ => Err (InvalidConfiguration ("endpoint " +:+ debug (ke_name endpoint) +:+ " does not reference a Kafka data connector"))
      end
  | _ => Err (InvalidConfiguration ("endpoint " +:+ debug (endpoint_name endpoint) +:+ " referenced by input stream " +:+
           debug name +:+ " is not a Kafka endpoint"))
  end.

Definition protocol_name (p : Api.KafkaSecurityProtocol) : string :=
  match p with Api.PLAINTEXT => "PLAINTEXT" | Api.SASLPLAINTEXT => "SASL_PLAINTEXT" | Api.SASLSSL => "SASL_SSL" end.
Definition mechanism_name (m : Api.KafkaSaslMechanism) : string :=
  match m with Api.PLAIN => "PLAIN" | Api.SCRAMSHA256 => "SCRAM-SHA-256" | Api.SCRAMSHA512 => "SCRAM-SHA-512" end.
(** [make_client_config]; [ClientConfig::set] puts a setting into a map. *)
Definition make_client_config (c : KafkaDataConnectorConfig) : RuntimeResult (gmap string string) :=
  let config : gmap string string :=
    <["security.protocol" := protocol_name (security_protocol c)]> {["bootstrap.servers" := brokers c]} in
  config ← (if decide (protocol_name (security_protocol c) = "PLAINTEXT") then Ok config
            else if decide (username c = "" ∨ password c = "")
            then Err (InvalidConfiguration "Kafka SASL username and password must both be configured")
            else Ok (<["sasl.password" := password c]> (<["sasl.username" := username c]>
                   (<["sasl.mechanism" := mechanism_name (sasl_mechanism c)]> config))));
  let config := if blank (version c) then config
                else <["api.version.request" := "false"]> (<["broker.version.fallback" := version c]> config) in
  Ok (match f32_ceil (dial_timeout c) with
      | Some ms => <["socket.timeout.ms" := pretty ms]> config
      | None => config
      end).

(** ** Topics *)
Record NewTopic := MkTopic { t_name : string; t_partitions : Z; t_replication : Z }.
(** The Kafka configurations of the endpoints [ids]. *)
Definition kafka_endpoint_of r (id : Z) : option KafkaEndpointConfig :=
  match endpoint_by_id r id with Some (KafkaEndpoint c) => Some c | _ => None end.
(** The [filter] with its [HashSet] of names, and the [map]. *)
Fixpoint topics_of (names : gset string) (l : list KafkaEndpointConfig) : list NewTopic :=
  match l with
  | [] => []
  | c :: l =>
      if ke_enabled c && create_topic c && bool_decide (topic c ∉ names)
      then MkTopic (topic c) (Z.max (partitions c) 1) (Z.max (replication_factor c) 1) :: topics_of ({[topic c]} ∪ names) l
      else topics_of names l
  end.
(** [create_topics]: [admin] is the client's answer, one result per topic. *)
Inductive TopicResult := TopicOk | TopicExists | TopicError (topic error : string).
Fixpoint topic_results (l : list TopicResult) : outcome string unit :=
  match l with
  | [] => Ok tt
  | TopicError topic error :: _ => Err ("create Kafka topic " +:+ debug topic +:+ " failed: " +:+ error)
  | _ :: l => topic_results l
  end.
Definition create_topics r (id : Z) (name : string) (ids : list Z)
    (admin : gmap string string → list NewTopic → outcome string (list TopicResult)) : outcome string unit :=
  match topics_of ∅ (omap (kafka_endpoint_of r) ids) with
  | [] => Ok tt
  | topics =>
      connector ← ok_or (data_connector_by_id r id) ("Kafka data connector " +:+ pretty id +:+ " is not configured");
      match connector with
      | KafkaConnector connector =>
          if blank (brokers connector) then Err ("no brokers specified for Kafka data connector " +:+ debug name)
          else
            config ← map_err error_text (make_client_config connector);
            results ← admin config topics;
            topic_results results
      | _ => Err ("data connector " +:+ debug name +:+ " is not Kafka")
      end
  end.

(** * An endpoint *)
(** [RdkafkaKafkaEndpoint]: the stop token, whether the task's handle is kept,
    and [stopped] of its consumer's gate. *)
Record Endpoint := MkEndpoint {
  e_id : Z; e_connector : Z; e_name : string; e_topic : string; e_stop : bool; e_task : bool; e_gate : bool }.
Definition endpoint_new (c : KafkaEndpointConfig) : outcome string Endpoint :=
  if blank (topic c) then Err ("no topic specified for Kafka endpoint " +:+ debug (ke_name c))
  else Ok (MkEndpoint (ke_id c) (ke_connector c) (ke_name c) (topic c) false false false).
(** [start]; [statistics] is the answer of [LibrdkafkaStatisticsContext::new]. *)
Definition endpoint_start r (statistics : RuntimeResult unit) (e : Endpoint) : RuntimeResult unit * Endpoint :=
  let check : RuntimeResult bool :=
    endpoint ← ok_or (endpoint_by_id r (e_id e)) (InvalidConfiguration ("Kafka endpoint " +:+ pretty (e_id e) +:+ " is not configured"));
    match endpoint with
    | KafkaEndpoint c =>
        if negb (ke_enabled c) then Ok false
        else if blank (consumer_group c)
        then Err (InvalidConfiguration ("consumer group is not set for Kafka endpoint " +:+ debug (e_name e)))
        else
          connector ← ok_or (data_connector_by_id r (e_connector e))
            (InvalidConfiguration ("Kafka data connector " +:+ pretty (e_connector e) +:+ " is not configured"));
          match connector with
          | KafkaConnector connector =>
              if e_stop e then Err (ResourceStopped (e_name e))
              else if e_task e then Err (ResourceAlreadyStarted (e_name e))
              else _ ← make_client_config connector; _ ← statistics; Ok true
          | _ => Err (InvalidConfiguration ("data connector " +:+ pretty (e_connector e) +:+ " is not Kafka"))
          end
    | _ => Err (InvalidConfiguration ("endpoint " +:+ debug (e_name e) +:+ " is not Kafka"))
    end in
  match check with
  | Ok true => (Ok tt, MkEndpoint (e_id e) (e_connector e) (e_name e) (e_topic e) (e_stop e) true false)
  | Ok false => (Ok tt, e)
  | Err error => (Err error, e)
  | Panic => (Panic, e)
  end.
(** How the wait for the task ends; [JoinDropped]: the stop itself is dropped
    there, and answers nothing. *)
Inductive Join := Joined | JoinFailed (error : string) | JoinCancelled | JoinDropped.
Definition endpoint_stop (join : Join) (e : Endpoint) : option (RuntimeResult unit) * Endpoint :=
  let stopped task := MkEndpoint (e_id e) (e_connector e) (e_name e) (e_topic e) true task true in
  if e_task e then
    match join with
    | Joined => (Some (Ok tt), stopped false)
    | JoinFailed error => (Some (Err (Transport error)), stopped false)
    | JoinCancelled => (Some (Err ContextCancelled), stopped true)
    | JoinDropped => (None, stopped true)
    end
  else (Some (Ok tt), stopped false).

(** * The connector *)
(** [state]: 0 new, 1 started, 2 stopped, 3 stopping; [active] holds positions
    of [endpoints]. *)
Record KafkaDataSource := MkKafkaSource {
  d_id : Z; d_name : string; endpoints : list Endpoint; d_state : Z; active : list nat }.
Implicit Types d : KafkaDataSource.
Definition source_new (c : KafkaDataConnectorConfig) : KafkaDataSource := MkKafkaSource (kc_id c) (kc_name c) [] 0 [].
Definition source_from_input r (name : string) (id : Z) : RuntimeResult KafkaDataSource :=
  '(_, connector) ← kafka_input_configs r name id; Ok (source_new connector).
Definition set_state d (z : Z) : KafkaDataSource := MkKafkaSource (d_id d) (d_name d) (endpoints d) z (active d).
Definition set_active d (l : list nat) : KafkaDataSource := MkKafkaSource (d_id d) (d_name d) (endpoints d) (d_state d) l.
Definition set_endpoint d (i : nat) (e : Endpoint) : KafkaDataSource :=
  MkKafkaSource (d_id d) (d_name d) (<[i := e]> (endpoints d)) (d_state d) (active d).
(** [add_endpoint]; [consumer] is the answer of
    [make_rdkafka_kafka_endpoint_consumer]. *)
Definition add_endpoint r d (name : string) (id : Z) (consumer : RuntimeResult unit) : RuntimeResult KafkaDataSource :=
  '(c, _) ← kafka_input_configs r name id;
  if negb (ke_connector c =? d_id d) then
    Err (InvalidConfiguration ("Kafka endpoint " +:+ debug (ke_name c) +:+ " references connector " +:+
      pretty (ke_connector c) +:+ ", expected " +:+ pretty (d_id d)))
  else if negb (d_state d =? 0) then Err (ResourceAlreadyStarted (d_name d))
  else if existsb (λ e, e_id e =? ke_id c) (endpoints d) then Err (DuplicateResource (ke_name c))
  else
    _ ← consumer;
    e ← map_err Transport (endpoint_new c);
    Ok (MkKafkaSource (d_id d) (d_name d) (endpoints d ++ [e]) (d_state d) (active d)).

(** [stop_active_endpoints]: the rest to stop, and the first error. *)
Fixpoint stop_each (join : nat → Join) (l : list nat) d (first : RuntimeResult unit) : option (RuntimeResult unit) * KafkaDataSource :=
  match l with
  | [] => (Some first, d)
  | i :: l =>
      match endpoints d !! i with
      | None => stop_each join l d first
      | Some e =>
          let '(answer, e) := endpoint_stop (join i) e in
          let d := set_endpoint d i e in
          match answer with
          | None => (None, d)
          | Some (Ok _) => stop_each join l (set_active d (filter (λ j, j ≠ i) (active d))) first
          | Some answer => stop_each join l d (match first with Ok _ => answer | _ => first end)
          end
      end
  end.
Definition stop_active_endpoints (join : nat → Join) d : option (RuntimeResult unit) * KafkaDataSource :=
  stop_each join (reverse (active d)) d (Ok tt).
(** What the world answers to a [start]: the gate or the topics cancelled, the
    future dropped while it creates topics, the topics, each endpoint's
    statistics, how the tasks of a rollback end, and the endpoint after whose
    [start] the future is dropped. *)
Record World := MkStartWorld {
  gate_cancelled : bool; topics_cancelled : bool; topics_dropped : bool; admin : gmap string string → list NewTopic → outcome string (list TopicResult);
  statistics : nat → RuntimeResult unit; rollback : nat → Join; dropped_at : option nat }.
(** The loop over the endpoints; [None] when the future is dropped. *)
Fixpoint start_each r (w : World) (l : list nat) d : option (RuntimeResult unit) * KafkaDataSource :=
  match l with
  | [] => (Some (Ok tt), d)
  | i :: l =>
      let d := set_active d (active d ++ [i]) in
      match endpoints d !! i with
      | None => start_each r w l d
      | Some e =>
          let '(answer, e) := endpoint_start r (statistics w i) e in
          let d := set_endpoint d i e in
          if decide (dropped_at w = Some i) then (None, d)
          else match answer with
               | Ok _ => start_each r w l d
               | _ =>
                   let '(stopped, d) := stop_active_endpoints (rollback w) (set_state d 3) in
                   match stopped with
                   | None => (None, d)
                   | Some (Ok _) => (Some answer, set_state d 2)
                   | Some _ => (Some answer, d)
                   end
               end
      end
  end.
Definition source_start r (w : World) d : option (RuntimeResult unit) * KafkaDataSource :=
  if gate_cancelled w then (Some (Err ContextCancelled), d)
  else if d_state d =? 0 then
    let d := set_state d 1 in
    let topics : RuntimeResult unit :=
      if topics_cancelled w then Err ContextCancelled
      else map_err Transport (create_topics r (d_id d) (d_name d) (e_id <$> endpoints d) (admin w)) in
    if topics_dropped w then (None, d)
    else match topics with
    | Ok _ => start_each r w (seq 0 (length (endpoints d))) d
    | _ => (Some topics, set_state d 0)
    end
  else if d_state d =? 1 then (Some (Err (ResourceAlreadyStarted (d_name d))), d)
  else (Some (Err (ResourceStopped (d_name d))), d).
Definition source_stop (cancelled : bool) (join : nat → Join) d : option (RuntimeResult unit) * KafkaDataSource :=
  if cancelled then (Some (Err ContextCancelled), d)
  else if d_state d =? 2 then (Some (Ok tt), d)
  else
    let '(answer, d) := stop_active_endpoints join (set_state d 3) in
    match answer with Some (Ok _) => (Some (Ok tt), set_state d 2) | _ => (answer, d) end.

(** The calls of a connector's owner. *)
Inductive source_step r d : KafkaDataSource → Prop :=
| st_add name id consumer d' : add_endpoint r d name id consumer = Ok d' → source_step r d d'
| st_start w : source_step r d (source_start r w d).2
| st_stop cancelled join : source_step r d (source_stop cancelled join d).2.
End config.

(** * Lemmas *)
Section lemmas.
Context {Json : Type}.
Implicit Types (r : RuntimeConfig Json) (d : KafkaDataSource) (w : World).

(** A running task belongs to an active endpoint. *)
Definition owned d : Prop := ∀ i e, endpoints d !! i = Some e → e_task e = true → i ∈ active d.
Record source_ok d : Prop := {
  so_owned : owned d;
  so_range : ∀ i, i ∈ active d → (i < length (endpoints d))%nat;
  so_rest : d_state d = 0 ∨ d_state d = 2 → active d = [] }.
(** No task runs. *)
Definition quiet d : Prop := ∀ i e, endpoints d !! i = Some e → e_task e = false.
Lemma owned_quiet d : owned d → active d = [] → quiet d.
Proof.
  intros Ho Ha i e He. destruct (e_task e) eqn:Ht; [|done]. specialize (Ho i e He Ht). rewrite Ha in Ho. by apply elem_of_nil in Ho.
Qed.

Lemma endpoint_stop_ok join e : (endpoint_stop join e).1 = Some (Ok tt) → e_task (endpoint_stop join e).2 = false.
Proof. unfold endpoint_stop. by destruct (e_task e), join. Qed.
Lemma endpoint_stop_task join e : e_task (endpoint_stop join e).2 = true → e_task e = true.
Proof. unfold endpoint_stop. by destruct (e_task e), join. Qed.
Lemma owned_move d i e e' :
  owned d → endpoints d !! i = Some e → (e_task e' = true → e_task e = true ∨ i ∈ active d) → owned (set_endpoint d i e').
Proof.
  intros Ho He Ht j ej. cbn. rewrite list_lookup_insert_Some. intros [(<- & <- & _)|[_ Hj]]; [|by eapply Ho].
  intros [H|H]%Ht; [by eapply Ho|done].
Qed.
Lemma owned_filter d i : owned d → (∀ e, endpoints d !! i = Some e → e_task e = false) →
  owned (set_active d (filter (λ j, j ≠ i) (active d))).
Proof.
  intros Ho Hi j e Hj Ht. cbn in *. apply list_elem_of_filter. split; [|by eapply Ho]. intros ->. by rewrite (Hi _ Hj) in Ht.
Qed.

(** What stopping the endpoints [l] does. *)
Record stops (l : list nat) (first : RuntimeResult unit) d (answer : option (RuntimeResult unit)) d' : Prop := {
  sp_owned : owned d';
  sp_state : d_state d' = d_state d;
  sp_length : length (endpoints d') = length (endpoints d);
  sp_active : active d' ⊆ active d;
  sp_ok : answer = Some (Ok tt) → first = Ok tt ∧ ∀ i, i ∈ l → i ∉ active d' }.
Lemma stop_each_stops join l first d :
  owned d → (∀ i, i ∈ l → (i < length (endpoints d))%nat) →
  stops l first d (stop_each join l d first).1 (stop_each join l d first).2.
Proof.
  revert first d. induction l as [|i l IH]; intros first d Ho Hl; [split; cbn; try done; intros [= ->]; split; [done|by intros ? ?%elem_of_nil]|].
  assert (Hl' : ∀ j, j ∈ l → (j < length (endpoints d))%nat) by (intros j Hj; apply Hl; by right).
  destruct (lookup_lt_is_Some_2 (endpoints d) i) as [e He]; [apply Hl; by left|]. cbn. rewrite He.
  pose proof (endpoint_stop_ok (join i) e) as Hok. pose proof (endpoint_stop_task (join i) e) as Htk.
  destruct (endpoint_stop (join i) e) as [answer e'] eqn:Hst. cbn in *.
  assert (Ho1 : owned (set_endpoint d i e')) by (eapply owned_move; [done|exact He|auto]).
  set (d1 := set_endpoint d i e') in *. assert (Hlen : length (endpoints d1) = length (endpoints d)) by (cbn; apply length_insert).
  assert (Hgo : ∀ f, stops l f d1 (stop_each join l d1 f).1 (stop_each join l d1 f).2)
    by (intros f; apply IH; [done|by rewrite Hlen]).
  destruct answer as [[[]|error|]|]; [| | |by split].
  - set (d2 := set_active d1 _).
    assert (Ho2 : owned d2).
    { change (owned (set_active d1 (filter (λ j, j ≠ i) (active d1)))). apply owned_filter; [done|]. intros e2. cbn. rewrite list_lookup_insert_Some. intros [(_ & <- & _)|[]]; auto. done. }
    destruct (IH first d2 Ho2) as [Hw Hs Hn Ha Hf]; [cbn; by rewrite length_insert|].
    assert (Hsub : active d2 ⊆ active d) by (intros j; cbn; rewrite list_elem_of_filter; naive_solver).
    split; [done|done|cbn in *; by rewrite Hn, length_insert|set_solver|]. intros Hr. destruct (Hf Hr) as [-> Hni].
    split; [done|]. intros j [->|Hj]%elem_of_cons; [|by apply Hni]. intros Hin%Ha. cbn in Hin.
    apply list_elem_of_filter in Hin as [? _]. done.
  - destruct (Hgo (match first with Ok _ => Err error | _ => first end)) as [Hw Hs Hn Ha Hf].
    split; [done|done|by rewrite Hn|done|]. intros Hr. destruct (Hf Hr) as [? _]. by destruct first.
  - destruct (Hgo (match first with Ok _ => Panic | _ => first end)) as [Hw Hs Hn Ha Hf].
    split; [done|done|by rewrite Hn|done|]. intros Hr. destruct (Hf Hr) as [? _]. by destruct first.
Qed.
Lemma stop_active_stops join d :
  owned d → (∀ i, i ∈ active d → (i < length (endpoints d))%nat) →
  let '(answer, d') := stop_active_endpoints join d in
  owned d' ∧ d_state d' = d_state d ∧ length (endpoints d') = length (endpoints d) ∧ active d' ⊆ active d ∧
  (answer = Some (Ok tt) → active d' = []).
Proof.
  intros Ho Hr. unfold stop_active_endpoints.
  destruct (stop_each_stops join (reverse (active d)) (Ok tt) d Ho) as [Hw Hs Hn Ha Hf];
    [intros i Hi; apply Hr; by apply elem_of_reverse|].
  destruct (stop_each _ _ _ _) as [answer d'] eqn:He. split_and!; try done. intros Hok. destruct (Hf Hok) as [_ Hni].
  apply elem_of_nil_inv. intros i Hi. apply (Hni i); [apply elem_of_reverse; by apply Ha|done].
Qed.

Lemma start_each_cons r w i l d e answer e' :
  endpoints d !! i = Some e → endpoint_start r (statistics w i) e = (answer, e') →
  start_each r w (i :: l) d =
    let d := set_endpoint (set_active d (active d ++ [i])) i e' in
    if decide (dropped_at w = Some i) then (None, d)
    else match answer with
         | Ok _ => start_each r w l d
         | _ =>
             let '(stopped, d) := stop_active_endpoints (rollback w) (set_state d 3) in
             match stopped with
             | None => (None, d)
             | Some (Ok _) => (Some answer, set_state d 2)
             | Some _ => (Some answer, d)
             end
         end.
Proof. intros He Hst. cbn [start_each]. cbn [endpoints set_active]. by rewrite He, Hst. Qed.
(** The loop of [start]: what holds when it ends, or is dropped. *)
Lemma start_each_ok r w l d :
  owned d → (∀ i, i ∈ active d ∨ i ∈ l → (i < length (endpoints d))%nat) → d_state d = 1 →
  source_ok (start_each r w l d).2.
Proof.
  revert d. induction l as [|i l IH]; intros d Ho Hr Hs.
  - split; [done|auto|]. cbn. rewrite Hs. by intros [].
  - destruct (lookup_lt_is_Some_2 (endpoints d) i) as [e He]; [apply Hr; right; by left|].
    destruct (endpoint_start r (statistics w i) e) as [answer e'] eqn:Hst. rewrite (start_each_cons _ _ _ _ _ _ _ _ He Hst). cbv zeta.
    set (d1 := set_active d (active d ++ [i])). assert (Ho1 : owned d1).
    { intros j ej Hj Ht. cbn. apply elem_of_app. left. by eapply Ho. }
    set (d2 := set_endpoint d1 i e'). assert (Ho2 : owned d2).
    { eapply owned_move; [done|exact He|]. intros _. right. cbn. apply elem_of_app. right. by left. }
    assert (Hr2 : ∀ j, j ∈ active d2 ∨ j ∈ l → (j < length (endpoints d2))%nat).
    { intros j Hj. cbn. rewrite length_insert. apply Hr. cbn in Hj. rewrite elem_of_app, list_elem_of_singleton in Hj.
      rewrite elem_of_cons. naive_solver. }
    case_decide; [split; cbn; [done|intros j Hj; apply Hr2; by left|rewrite Hs; by intros []]|].
    destruct answer as [[]|error|]; [by apply IH| |];
      (pose proof (stop_active_stops (rollback w) (set_state d2 3) Ho2 (λ j Hj, Hr2 j (or_introl Hj))) as Hst2;
       destruct (stop_active_endpoints _ _) as [stopped d3]; destruct Hst2 as (Ho3 & Hs3 & Hn3 & Ha3 & Hk3);
       assert (Hr3 : ∀ j, j ∈ active d3 → (j < length (endpoints d3))%nat)
         by (intros j Hj%Ha3; rewrite Hn3; apply Hr2; by left);
       destruct stopped as [[[]|e3|]|]; (split; [exact Ho3|exact Hr3|]); cbn; rewrite ?Hs3; first [by intros []|by intros _; apply Hk3]).
Qed.
Lemma source_step_ok r d d' : source_step r d d' → source_ok d → source_ok d'.
Proof.
  intros Hst [Ho Hr Hz]. destruct Hst as [name id consumer d' H|w|cancelled join].
  - unfold add_endpoint in H. destruct (kafka_input_configs r name id) as [[c ?]| |]; cbn in H; try done.
    repeat (case_match; try done). destruct consumer; cbn in H; try done. unfold endpoint_new in H.
    destruct (blank (topic c)); cbn in H; try done. simplify_eq. split; cbn.
    + intros i e. cbn. rewrite lookup_app_Some. intros [Hi|[_ Hi]]; [by eapply Ho|].
      apply list_lookup_singleton_Some in Hi as [_ <-]. done.
    + intros i Hi%Hr. rewrite length_app. lia.
    + done.
  - unfold source_start. destruct (gate_cancelled w); [by split|].
    destruct (Z.eqb_spec (d_state d) 0) as [H0|]; [|by destruct (d_state d =? 1); split]. cbv zeta.
    assert (Hdef : source_ok (set_state (set_state d 1) 0)) by (split; cbn; auto).
    destruct (topics_dropped w); [split; cbn; [done|done|by intros []]|].
    case_match; [|exact Hdef..]. apply start_each_ok; [done| |done]. intros i [Hi|Hi]; [by apply Hr|].
    cbn in *. apply elem_of_seq in Hi. lia.
  - unfold source_stop. destruct cancelled; [by split|]. destruct (d_state d =? 2); [by split|].
    pose proof (stop_active_stops join (set_state d 3) Ho Hr) as Hs. destruct (stop_active_endpoints _ _) as [answer d'].
    destruct Hs as (Ho' & Hs' & Hn & Ha & Hk).
    assert (Hr' : ∀ i, i ∈ active d' → (i < length (endpoints d'))%nat) by (intros i Hi%Ha; rewrite Hn; by apply Hr).
    destruct answer as [[[]|e|]|]; (split; [exact Ho'|exact Hr'|]); cbn; rewrite ?Hs'; first [by intros []|by intros _; apply Hk].
Qed.
Definition source_reachable r d : Prop := ∃ c, rtc (source_step r) (source_new c) d.
Lemma source_ok_reachable r d : source_reachable r d → source_ok d.
Proof.
  intros (c & Hs). refine (rtc_ind_r source_ok _ _ _ d Hs); [|intros x y _ Hxy; by eapply source_step_ok].
  split; cbn; [by intros ? ? ?|by intros ? ?%elem_of_nil|done].
Qed.
(** When every task ends, stopping answers [Ok]. *)
Lemma stop_each_joined join l d first :
  (∀ i, join i = Joined) → (stop_each join l d first).1 = Some first.
Proof.
  intros Hj. revert d. induction l as [|i l IH]; intros d; cbn; [done|]. destruct (endpoints d !! i) as [e|]; [|done].
  rewrite Hj. unfold endpoint_stop. destruct (e_task e); apply IH.
Qed.

(** ** Topics and settings *)
Definition wants (c : KafkaEndpointConfig) : bool := ke_enabled c && create_topic c.
Lemma topics_of_spec names l :
  NoDup (t_name <$> topics_of names l) ∧
  (∀ n, n ∈ t_name <$> topics_of names l ↔ n ∉ names ∧ ∃ c, c ∈ l ∧ wants c = true ∧ topic c = n) ∧
  Forall (λ t, 1 ≤ t_partitions t ∧ 1 ≤ t_replication t) (topics_of names l).
Proof.
  revert names. induction l as [|c l IH]; intros names; cbn.
  - split_and!; [constructor| |constructor]. intros n. split; [by intros ?%elem_of_nil|]. by intros (_ & c & ?%elem_of_nil & _).
  - destruct (wants c && bool_decide (topic c ∉ names)) eqn:Hw.
    + destruct (IH ({[topic c]} ∪ names)) as (Hd & Hn & Hf). unfold wants in Hw. rewrite Hw. cbn. split_and!.
      * constructor; [|done]. rewrite Hn. set_solver.
      * intros n. apply andb_true_iff in Hw as [Hw Hc%bool_decide_eq_true]. rewrite elem_of_cons, Hn. split.
        -- intros [->|(Hne & c' & ? & ? & ?)]; [split; [done|]; exists c; split; [by left|done]|].
           split; [set_solver|]. exists c'. split; [by right|done].
        -- intros (Hne & c' & [->|Hc']%elem_of_cons & ? & <-); [by left|].
           destruct (decide (topic c' = topic c)) as [->|Hd']; [by left|right]. split; [set_solver|]. by exists c'.
      * constructor; [cbn; lia|done].
    + destruct (IH names) as (Hd & Hn & Hf). unfold wants in Hw. rewrite Hw. split_and!; [done| |done].
      intros n. rewrite Hn. split; intros (Hne & c' & Hc' & Hw' & Ht); (split; [done|]).
      * exists c'. split; [by right|done].
      * apply elem_of_cons in Hc' as [->|Hc']; [|by exists c']. unfold wants in Hw'. rewrite Hw' in Hw. cbn in Hw.
        apply bool_decide_eq_false in Hw. rewrite Ht in Hw. by destruct Hw.
Qed.
End lemmas.

(** * Properties *)
Section properties.
Context {Json : Type}.
Implicit Types (r : RuntimeConfig Json) (d : KafkaDataSource) (w : World).

(** C21: a task of a Kafka endpoint is never orphaned: however [start] ends,
    refused, failed, rolled back in part or dropped, and whatever [stop]
    answers, an endpoint whose task runs is one the connector still stops; a
    connector that is new or stopped runs no task. *)
Theorem kafka_tasks_owned r d :
  source_reachable r d →
  (∀ i e, endpoints d !! i = Some e → e_task e = true → i ∈ active d) ∧ (d_state d = 0 ∨ d_state d = 2 → quiet d).
Proof.
  intros [Ho _ Hz]%source_ok_reachable. split; [done|]. intros Hs. by apply owned_quiet; [|apply Hz].
Qed.

(** C22: when the tasks end, [stop] of a Kafka connector succeeds from
    every state, also after a failed rollback or a dropped start: no task is
    left, a second [stop] changes nothing and every later [start] is refused. *)
Theorem kafka_stop_complete r d join :
  source_reachable r d → (∀ i, join i = Joined) →
  ∃ d', source_stop false join d = (Some (Ok tt), d') ∧ quiet d' ∧ source_stop false join d' = (Some (Ok tt), d') ∧
    ∀ w, gate_cancelled w = false → source_start r w d' = (Some (Err (ResourceStopped (d_name d'))), d').
Proof.
  intros [Ho Hr Hz]%source_ok_reachable Hj.
  assert (∃ d', source_stop false join d = (Some (Ok tt), d') ∧ d_state d' = 2 ∧ quiet d') as (d' & Hd' & Hs & Hq).
  { unfold source_stop. destruct (Z.eqb_spec (d_state d) 2) as [H2|].
    - exists d. split_and!; [done|done|]. apply owned_quiet; [done|auto].
    - pose proof (stop_active_stops join (set_state d 3) Ho Hr) as Hst.
      pose proof (stop_each_joined join (reverse (active d)) (set_state d 3) (Ok tt) Hj) as Hok.
      unfold stop_active_endpoints in *. cbn [active set_state] in *. destruct (stop_each _ _ _ _) as [answer d'].
      cbn in Hok. subst answer. destruct Hst as (Ho' & _ & _ & _ & Hk). exists (set_state d' 2). split_and!; try done.
      apply (owned_quiet (set_state d' 2)); [exact Ho'|by apply Hk]. }
  exists d'. split_and!; [done|done|unfold source_stop; by rewrite Hs|]. intros w Hw. unfold source_start. by rewrite Hw, Hs.
Qed.

(** the topics a Kafka connector asks the broker to create are those
    of its enabled endpoints that want one, each exactly once, with at least
    one partition and one replica; with none wanted, no client is made. *)
Theorem kafka_topics_exact r id name ids admin :
  let configs := omap (kafka_endpoint_of r) ids in
  NoDup (t_name <$> topics_of ∅ configs) ∧
  (∀ n, n ∈ t_name <$> topics_of ∅ configs ↔ ∃ c, c ∈ configs ∧ wants c = true ∧ topic c = n) ∧
  Forall (λ t, 1 ≤ t_partitions t ∧ 1 ≤ t_replication t) (topics_of ∅ configs) ∧
  ((∀ c, c ∈ configs → wants c = false) → create_topics r id name ids admin = Ok tt).
Proof.
  cbv zeta. destruct (topics_of_spec ∅ (omap (kafka_endpoint_of r) ids)) as (Hd & Hn & Hf). split_and!; [done| |done|].
  - intros n. rewrite Hn. split; [by intros [_ ?]|]. intros ?. split; [set_solver|done].
  - intros Hw. unfold create_topics. destruct (topics_of _ _) as [|t l] eqn:Ht; [done|].
    destruct (proj1 (Hn (t_name t))) as (_ & c & Hc & Hwc & _); [left|]. by rewrite (Hw c Hc) in Hwc.
Qed.

(** Credentials are in the client's settings exactly when the protocol asks
    for them, and are never empty. *)
Theorem kafka_credentials c config :
  make_client_config c = Ok config →
  config !! "bootstrap.servers" = Some (brokers c) ∧
  (security_protocol c = Api.PLAINTEXT → config !! "sasl.username" = None ∧ config !! "sasl.password" = None) ∧
  (security_protocol c ≠ Api.PLAINTEXT →
     config !! "sasl.username" = Some (username c) ∧ config !! "sasl.password" = Some (password c) ∧
     username c ≠ "" ∧ password c ≠ "").
Proof.
  unfold make_client_config. intros H.
  assert (Hset : ∀ (k : string) (m : gmap string string), k ∈ ["bootstrap.servers"; "sasl.username"; "sasl.password"] →
    (match f32_ceil (dial_timeout c) with Some ms => <["socket.timeout.ms" := pretty ms]>
       (if blank (version c) then m else <["api.version.request" := "false"]> (<["broker.version.fallback" := version c]> m))
     | None => if blank (version c) then m else <["api.version.request" := "false"]> (<["broker.version.fallback" := version c]> m)
     end) !! k = m !! k).
  { intros k m Hk. rewrite !elem_of_cons, elem_of_nil in Hk.
    destruct Hk as [->|[->|[->|[]]]]; destruct (f32_ceil _), (blank _); by simplify_map_eq. }
  destruct (decide (protocol_name (security_protocol c) = "PLAINTEXT")) as [Hp|Hp]; cbn in H.
  - injection H as <-. rewrite !Hset by (apply (bool_decide_unpack _); by vm_compute). split; [by simplify_map_eq|].
    split; [by simplify_map_eq|]. by destruct (security_protocol c).
  - destruct (decide (username c = "" ∨ password c = "")) as [|Hne]; [done|]. cbn in H. injection H as <-.
    rewrite !Hset by (apply (bool_decide_unpack _); by vm_compute). split; [by simplify_map_eq|].
    split; [by destruct (security_protocol c)|]. intros _. simplify_map_eq. tauto.
Qed.
End properties.

(** ** Examples *)
Definition example_endpoint (id : Z) (name group : string) : RuntimeEndpointConfig :=
  KafkaEndpoint (MkKafkaEndpoint id name 1 false true true "orders" 0 group 3).
Definition example_connector : KafkaDataConnectorConfig :=
  MkKafkaConnector 1 "kafka" "broker:9092" "" 0 false false Api.PLAINTEXT Api.PLAIN "" "".
(** Two endpoints, the second without a consumer group: [start] fails there,
    and the rollback is cancelled while it waits for the first one's task. *)
Definition example_config : RuntimeConfig unit :=
  MkRuntimeConfig FunctionCall ∅ ∅ ∅ ∅ ∅ {[1 := KafkaConnector example_connector]} ∅
    {[10 := example_endpoint 10 "orders" "billing"; 11 := example_endpoint 11 "refunds" " "]} ∅ ∅ ∅ ∅.
Definition example_world : World :=
  MkStartWorld false false false (λ _ topics, Ok (const TopicExists <$> topics)) (λ _, Ok tt) (λ _, JoinCancelled) None.
Definition example_endpoint_of (id : Z) (name : string) (stop task gate : bool) : Endpoint :=
  MkEndpoint id 1 name "orders" stop task gate.
Definition example_source : KafkaDataSource :=
  MkKafkaSource 1 "kafka" [example_endpoint_of 10 "orders" false false false; example_endpoint_of 11 "refunds" false false false] 0 [].
(** What that start leaves: the connector is stopping and still owns the task. *)
Definition example_stuck : KafkaDataSource :=
  MkKafkaSource 1 "kafka" [example_endpoint_of 10 "orders" true true true; example_endpoint_of 11 "refunds" true false true] 3 [0%nat].

Lemma example_stuck_reachable : source_reachable example_config example_stuck.
Proof.
  exists example_connector.
  apply (rtc_l _ _ (MkKafkaSource 1 "kafka" [example_endpoint_of 10 "orders" false false false] 0 [])).
  { apply (st_add _ _ "orders" 10 (Ok tt)). by vm_compute. }
  apply (rtc_l _ _ example_source); [apply (st_add _ _ "refunds" 11 (Ok tt)); by vm_compute|].
  apply rtc_once. replace example_stuck with (source_start example_config example_world example_source).2 by by vm_compute.
  apply st_start.
Qed.

Lemma kafka_tasks_owned_witness : 0%nat ∈ active example_stuck.
Proof.
  apply (proj1 (kafka_tasks_owned example_config example_stuck example_stuck_reachable) 0%nat
    (example_endpoint_of 10 "orders" true true true)); reflexivity.
Defined.
Lemma kafka_stop_complete_witness :
  ∃ d', source_stop false (λ _, Joined) example_stuck = (Some (Ok tt), d') ∧ quiet d'.
Proof.
  destruct (kafka_stop_complete example_config example_stuck (λ _, Joined) example_stuck_reachable) as (d' & Hd & Hq & _);
    [reflexivity|].
  exists d'. split; [exact Hd|exact Hq].
Defined.
