(* ===== verification/GrpcConnector.v ===== *)
(** gRPC connectors and the construction of gRPC endpoints:
    [src/src/datasource/grpc/tonic.rs], [src/src/datasink/grpc/tonic.rs],
    [GrpcTypedEndpointConsumer::make] of [src/src/datasource/grpc/mod.rs] and
    [EndpointMetrics::new] of [src/src/datasink/grpc/mod.rs].

    The channels of the client connector are shared by threads: a turn is one
    access of an atomic or one section of the channels' lock.  URIs are
    parsed by the transport library, which is a parameter. *)

From Stdlib Require Import Ascii.
From stdpp Require Import pretty.
From S2P Require Import Prelude Errors SortedMap Config Environment Metrics Requests Cron.
Local Open Scope Z_scope.

(** * Endpoints of a stream *)
Section endpoints.
Context {Json : Type}.
Implicit Types r : RuntimeConfig Json.
(** The endpoint of a stream and its data connector; [what] is [input] or [sink]. *)
Definition stream_endpoint r (what name : string) (id : Z) :
    RuntimeResult (RuntimeEndpointConfig * RuntimeDataConnectorConfig) :=
  endpoint ← ok_or (endpoint_by_id r id)
    (InvalidConfiguration ("endpoint " +:+ pretty id +:+ " referenced by " +:+ what +:+ " stream " +:+ debug name +:+
       " is not configured"));
  connector ← ok_or (data_connector_by_id r (data_connector_id endpoint))
    (InvalidConfiguration ("data connector " +:+ pretty (data_connector_id endpoint) +:+ " referenced by endpoint " +:+
       debug (endpoint_name endpoint) +:+ " is not configured"));
  Ok (endpoint, connector).
Definition grpc_config (endpoint : RuntimeEndpointConfig) (connector : RuntimeDataConnectorConfig) :
    RuntimeResult GrpcDataConnectorConfig :=
  match connector with
  | GrpcConnector config => Ok config
  | _ => Err (InvalidConfiguration ("endpoint " +:+ debug (endpoint_name endpoint) +:+ " does not reference a gRPC data connector"))
  end.
End endpoints.

(** * Endpoint construction *)
Section make.
Context {Json Pool PriorityPool Endpoint Storage Buildable : Type}.
Notation M := (Metrics World).
Definition event (name : string) : Labels := [("event", name)].
(** The handles of the source's [EndpointMetrics]. *)
Record SourceHandles := MkSourceHandles {
  sh_messages_total : Handle; sh_request_errors : Handle; sh_begin_request_failed : Handle; sh_missing_stream_id : Handle;
  sh_late_result : Handle; sh_unknown_message_id : Handle; sh_duplicate_message_id : Handle; sh_active_requests : Handle;
  sh_pending_requests : PendingRequests; sh_request_duration : Handle }.
Definition source_metrics_new (m : M) (connector endpoint : string) (table : nat) : outcome MetricsError SourceHandles * M :=
  let sc := scope "datasource_endpoint"
    (sm_extend [] [("connector", connector); ("endpoint", endpoint); ("protocol", "grpc")]) in
  let event_counter name m := counter m sc "events_total" "Total number of events in data source endpoint" (event name) in
  reg_bind (counter m sc "messages_total" "Total number of successfully processed messages in data source endpoint" []) (λ h1 m,
  reg_bind (event_counter "request_error" m) (λ h2 m,
  reg_bind (event_counter "begin_request_failed" m) (λ h3 m,
  reg_bind (event_counter "missing_stream_id" m) (λ h4 m,
  reg_bind (event_counter "late_result" m) (λ h5 m,
  reg_bind (event_counter "unknown_message_id" m) (λ h6 m,
  reg_bind (event_counter "duplicate_message_id" m) (λ h7 m,
  reg_bind (gauge m sc "active_requests" "Number of active requests in data source endpoint" []) (λ h8 m,
  reg_bind (Requests.pending_new m sc table) (λ h9 m,
  reg_bind (histogram m sc "request_duration_seconds" "Request duration in seconds for data source endpoint" [] None) (λ h10 m,
    (Ok (MkSourceHandles h1 h2 h3 h4 h5 h6 h7 h8 h9 h10), m))))))))))).
(** The handles of the sink's [EndpointMetrics]. *)
Record SinkHandles := MkSinkHandles {
  kh_enabled : bool; kh_messages_total : Handle; kh_request_errors : Handle; kh_begin_request_failed : Handle;
  kh_active_requests : Handle; kh_request_duration : Handle; kh_rpc_method : string }.
Definition sink_metrics_new (m : M) (connector endpoint : string) : outcome MetricsError SinkHandles * M :=
  let sc := scope "datasink_endpoint"
    (sm_extend [] [("connector", connector); ("endpoint", endpoint); ("protocol", "grpc")]) in
  let event_counter name m := counter m sc "events_total" "Total number of events in data sink endpoint" (event name) in
  let enabled := negb (is_noop m) in
  reg_bind (counter m sc "messages_total" "Total number of successfully processed messages in data sink endpoint" []) (λ h1 m,
  reg_bind (event_counter "request_error" m) (λ h2 m,
  reg_bind (event_counter "begin_request_failed" m) (λ h3 m,
  reg_bind (gauge m sc "active_requests" "Number of active requests in data sink endpoint" []) (λ h4 m,
  reg_bind (histogram m sc "request_duration_seconds" "Request duration in seconds for data sink endpoint" [] None) (λ h5 m,
    (Ok (MkSinkHandles enabled h1 h2 h3 h4 h5 endpoint), m)))))).

Notation Env := (RuntimeEnvironment Json Pool PriorityPool Endpoint Storage Buildable).
(** What building an endpoint changes: the environment, the metrics and the
    consumer of the input's results. *)
Record Wiring := MkWiring { w_env : Env; w_metrics : M; w_result_consumer : bool }.
(** [make]: [name], [id] and [has_result] are the input's. *)
Definition make (id_of : Endpoint → Z) (w : Wiring) (name : string) (id : Z) (has_result : bool) (table : nat)
    (pending : Storage) (consumer : Endpoint) : RuntimeResult SourceHandles * Wiring :=
  match stream_endpoint (runtime_config (w_env w)) "input" name id with
  | Ok (endpoint, connector) =>
      match source_metrics_new (w_metrics w) (connector_name connector) (endpoint_name endpoint) table with
      | (Ok handles, m) =>
          let env := register_storage (w_env w) pending in
          let '(r, env) := register_endpoint_consumer id_of env consumer in
          (match r with Ok _ => Ok handles | Err e => Err e | Panic => Panic end,
           MkWiring env m (w_result_consumer w || has_result))
      | (Err e, m) => (Err (MetricsErr e), MkWiring (w_env w) m (w_result_consumer w))
      | (Panic, m) => (Panic, MkWiring (w_env w) m (w_result_consumer w))
      end
  | Err e => (Err e, w)
  | Panic => (Panic, w)
  end.
End make.

(** * The server connector *)
Section source.
Context {Json : Type} (MAX_PERMITS : Z).
Record TonicDataSourceOptions := MkOptions { stream_buffer_capacity : Z }.
Definition default_options : TonicDataSourceOptions := MkOptions 16.
Record TonicDataSource := MkTonicSource { ts_id : Z; ts_name : string; ts_state : Z; ts_capacity : Z }.
Definition capacity_ok (options : TonicDataSourceOptions) : bool :=
  negb (bool_decide (stream_buffer_capacity options = 0 ∨ stream_buffer_capacity options > MAX_PERMITS)).
Definition source_with_options (config : GrpcDataConnectorConfig) (options : TonicDataSourceOptions) : RuntimeResult TonicDataSource :=
  if capacity_ok options
  then Ok (MkTonicSource (gc_id config) (gc_name config) 0 (stream_buffer_capacity options))
  else Err (InvalidConfiguration "gRPC server stream_buffer_capacity is outside the supported channel capacity range").
(** [from_config] and [from_input] *)
Definition source_from_config (config : GrpcDataConnectorConfig) : RuntimeResult TonicDataSource :=
  source_with_options config default_options.
Definition source_from_input (r : RuntimeConfig Json) (name : string) (id : Z) : RuntimeResult TonicDataSource :=
  '(endpoint, connector) ← stream_endpoint r "input" name id;
  config ← grpc_config endpoint connector;
  source_from_config config.
Definition source_start (t : TonicDataSource) : RuntimeResult unit * TonicDataSource :=
  if decide (ts_state t = 0) then (Ok tt, MkTonicSource (ts_id t) (ts_name t) 1 (ts_capacity t))
  else if decide (ts_state t = 1) then (Err (ResourceAlreadyStarted (ts_name t)), t)
  else (Err (ResourceStopped (ts_name t)), t).
Definition source_stop (t : TonicDataSource) : TonicDataSource := MkTonicSource (ts_id t) (ts_name t) 2 (ts_capacity t).
End source.

(** * The client connector *)
Section sink.
Context {Json Endpoint : Type} (MAX_PERMITS : Z).
(** [Endpoint::from_shared] and [Authority::from_str], with the host, the
    port as written and as a number, and the display of an authority. *)
Record Authority := MkAuthority { host : string; port : option (option Z); shown : string }.
Context (from_shared : string → outcome string Endpoint) (parse_authority : string → outcome string Authority).

Definition invalid_address (address error : string) : RuntimeError :=
  InvalidConfiguration ("gRPC address " +:+ debug address +:+ ": " +:+ error).
Definition unchars (s : list ascii) : string := String.string_of_list_ascii s.
Definition endpoint (address : string) : RuntimeResult Endpoint :=
  match strip_prefix (chars "dns:") (chars address) with
  | None => map_err (invalid_address address) (from_shared address)
  | Some target =>
      let target := default target (strip_prefix (chars "///") target) in
      if decide (is_Some (strip_prefix (chars "//") target))
      then Err (invalid_address address "custom DNS resolver authorities are not supported")
      else
        authority ← map_err (invalid_address address) (parse_authority (unchars target));
        if decide (host authority = "" ∨ "@"%char ∈ target ∨ last target = Some ":"%char ∨ port authority = Some None)
        then Err (invalid_address address "expected a DNS host and optional numeric port")
        else
          let default_port := match port authority with None => ":443" | Some _ => "" end in
          map_err (invalid_address address) (from_shared ("http://" +:+ shown authority +:+ default_port))
  end.
Definition validate_config (config : GrpcDataConnectorConfig) : RuntimeResult Endpoint :=
  if decide (connections_count config = 0) then Err (InvalidConfiguration "gRPC connections_count must be at least 1")
  else endpoint (gc_address config).
(** [make_channels] *)
Definition make_channels (e : Endpoint) (count : Z) : list Endpoint := replicate (Z.to_nat count) e.

(** Where a thread is in [start], [reload_address] or [stop]. *)
Inductive SinkOp :=
| OpStart                                (** before the exchange *)
| OpStartBuild                           (** configuration, validation, channels *)
| OpReload (channels : list Endpoint)    (** before the state is read *)
| OpWrite (channels : list Endpoint)     (** before the channels are stored *)
| OpNext                                 (** before [next_channel] is stored *)
| OpStop                                 (** before the state is stored *)
| OpClear                                (** before the channels are cleared *)
| OpDone (result : RuntimeResult unit).
Record TonicDataSink := MkTonicSink {
  tk_id : Z;
  tk_name : string;
  tk_channels : list Endpoint;
  tk_next : Z;
  tk_state : Z;
  tk_ops : gmap nat SinkOp }.
Implicit Types k : TonicDataSink.
Definition sink_with_options (config : GrpcDataConnectorConfig) (options : TonicDataSourceOptions) : RuntimeResult TonicDataSink :=
  if capacity_ok MAX_PERMITS options
  then _ ← validate_config config; Ok (MkTonicSink (gc_id config) (gc_name config) [] 0 0 ∅)
  else Err (InvalidConfiguration "gRPC client stream_buffer_capacity is outside the supported channel capacity range").
Definition sink_from_config (config : GrpcDataConnectorConfig) : RuntimeResult TonicDataSink :=
  sink_with_options config default_options.
Definition sink_from_stream (r : RuntimeConfig Json) (name : string) (id : Z) : RuntimeResult TonicDataSink :=
  '(e, connector) ← stream_endpoint r "sink" name id;
  config ← grpc_config e connector;
  sink_from_config config.
Definition connector_config k (r : RuntimeConfig Json) : RuntimeResult GrpcDataConnectorConfig :=
  connector ← ok_or (data_connector_by_id r (tk_id k))
    (InvalidConfiguration ("gRPC data connector " +:+ pretty (tk_id k) +:+ " is not configured"));
  match connector with
  | GrpcConnector config => Ok config
  | _ => Err (InvalidConfiguration ("data connector " +:+ debug (tk_name k) +:+ " is not gRPC"))
  end.
(** [channel]: under the read lock; [fetch_add] wraps. *)
Definition channel k : RuntimeResult Endpoint * TonicDataSink :=
  match tk_channels k with
  | [] => (Err (ResourceStopped (tk_name k)), k)
  | channels =>
      let index := Z.to_nat (tk_next k mod Z.of_nat (length channels)) in
      (match channels !! index with Some c => Ok c | None => Panic end,
       MkTonicSink (tk_id k) (tk_name k) channels (wrap_u 64 (tk_next k + 1)) (tk_state k) (tk_ops k))
  end.

Definition at_op k (t : nat) (op : SinkOp) : TonicDataSink :=
  MkTonicSink (tk_id k) (tk_name k) (tk_channels k) (tk_next k) (tk_state k) (<[t := op]> (tk_ops k)).
Definition set_state k (state : Z) : TonicDataSink :=
  MkTonicSink (tk_id k) (tk_name k) (tk_channels k) (tk_next k) state (tk_ops k).
Definition set_channels k (channels : list Endpoint) : TonicDataSink :=
  MkTonicSink (tk_id k) (tk_name k) channels (tk_next k) (tk_state k) (tk_ops k).
Definition set_next k (n : Z) : TonicDataSink :=
  MkTonicSink (tk_id k) (tk_name k) (tk_channels k) n (tk_state k) (tk_ops k).
(** [reload_address] up to its channels. *)
Definition reload_address k (t : nat) (r : RuntimeConfig Json) (address : string) : TonicDataSink :=
  at_op k t (match (e ← endpoint address; config ← connector_config k r; Ok (make_channels e (connections_count config))) with
             | Ok channels => OpReload channels
             | Err e => OpDone (Err e)
             | Panic => OpDone Panic
             end).
Definition op_turn k (t : nat) (r : RuntimeConfig Json) (op : SinkOp) : option TonicDataSink :=
  match op with
  | OpStart =>
      Some (if decide (tk_state k = 0) then at_op (set_state k 1) t OpStartBuild
            else at_op k t (OpDone (Err (if decide (tk_state k = 2) then ResourceStopped (tk_name k)
                                         else ResourceAlreadyStarted (tk_name k)))))
  | OpStartBuild =>
      Some (match (config ← connector_config k r; e ← validate_config config; Ok (make_channels e (connections_count config))) with
            | Ok channels => at_op k t (OpWrite channels)
            | Err e => at_op k t (OpDone (Err e))
            | Panic => at_op k t (OpDone Panic)
            end)
  | OpReload channels => Some (if decide (tk_state k = 1) then at_op k t (OpWrite channels) else at_op k t (OpDone (Ok tt)))
  | OpWrite channels => Some (at_op (set_channels k channels) t OpNext)
  | OpNext => Some (at_op (set_next k 0) t (OpDone (Ok tt)))
  | OpStop => Some (at_op (set_state k 2) t OpClear)
  | OpClear => Some (at_op (set_channels k []) t (OpDone (Ok tt)))
  | OpDone _ => None
  end.
(** One turn of the connector, under any configuration. *)
Inductive sink_step k : TonicDataSink → Prop :=
| sk_start t : tk_ops k !! t = None → sink_step k (at_op k t OpStart)
| sk_stop t : tk_ops k !! t = None → sink_step k (at_op k t OpStop)
| sk_reload t r address : tk_ops k !! t = None → sink_step k (reload_address k t r address)
| sk_channel : sink_step k (channel k).2
| sk_turn t r op k' : tk_ops k !! t = Some op → op_turn k t r op = Some k' → sink_step k k'.
End sink.
Arguments TonicDataSink : clear implicits.
Arguments SinkOp : clear implicits.

(** * Lemmas *)
Section lemmas.
Context {Json Endpoint : Type} (from_shared : string → outcome string Endpoint) (parse_authority : string → outcome string Authority).
Notation step := (sink_step (Json := Json) from_shared parse_authority).
Implicit Types k : TonicDataSink Endpoint.

(** Calls of [channel] one after the other. *)
Fixpoint channel_calls (n : nat) k : list (RuntimeResult Endpoint) * TonicDataSink Endpoint :=
  match n with
  | O => ([], k)
  | S n => let '(c, k) := channel k in let '(cs, k) := channel_calls n k in (c :: cs, k)
  end.
Lemma channel_call k :
  0 ≤ tk_next k → tk_channels k ≠ [] →
  (∃ c, (channel k).1 = Ok c ∧ tk_channels k !! Z.to_nat (tk_next k mod Z.of_nat (length (tk_channels k))) = Some c) ∧
  tk_channels (channel k).2 = tk_channels k ∧ tk_next (channel k).2 = wrap_u 64 (tk_next k + 1).
Proof.
  intros Hn Hc. unfold channel. destruct (tk_channels k) as [|c0 cs] eqn:Hcs; [done|]. cbn [fst snd tk_channels tk_next].
  assert (Hlt : (Z.to_nat (tk_next k mod Z.of_nat (length (c0 :: cs))) < length (c0 :: cs))%nat).
  { assert (0 ≤ tk_next k mod Z.of_nat (length (c0 :: cs)) < Z.of_nat (length (c0 :: cs))) by (apply Z.mod_pos_bound; cbn; lia). lia. }
  apply lookup_lt_is_Some in Hlt as [c Hlt]. rewrite Hlt. split; [by exists c|done].
Qed.
(** No operation that still stores channels is under way. *)
Definition storing (op : SinkOp Endpoint) : bool := match op with OpStartBuild | OpWrite _ => true | _ => false end.
Record stopped k : Prop := {
  sp_state : tk_state k = 2;
  sp_channels : tk_channels k = [];
  sp_ops : ∀ t op, tk_ops k !! t = Some op → storing op = false }.
Lemma stopped_at k t op : storing op = false → stopped k → stopped (at_op k t op).
Proof.
  intros Ho [H1 H2 H3]. split; [done|done|]. intros t' op'. cbn. rewrite lookup_insert_Some. intros [[_ <-]|[_ ?]]; [done|by eapply H3].
Qed.
Lemma stopped_step k k' : step k k' → stopped k → stopped k'.
Proof.
  intros Hs Hk. destruct Hs as [t _|t _|t r address _| |t r op k' Hop Ht].
  - by apply stopped_at.
  - by apply stopped_at.
  - unfold reload_address. destruct (_ ≫= _); by apply stopped_at.
  - unfold channel. by rewrite (sp_channels _ Hk).
  - pose proof (sp_ops _ Hk _ _ Hop) as Hst. destruct op; cbn in Ht; try done; injection Ht as <-.
    + rewrite (sp_state _ Hk). by apply stopped_at.
    + rewrite (sp_state _ Hk). by apply stopped_at.
    + apply stopped_at; [done|]. by destruct Hk.
    + apply stopped_at; [done|]. by destruct Hk.
    + apply stopped_at; [done|]. by destruct Hk.
Qed.

(** the client connector hands out its channels in turn: with [n]
    channels, the calls after a start or a reload return channel 0, 1, ...,
    [n - 1], 0, ... and never fail or index out of range, also when the counter
    wraps. *)
Theorem channels_round_robin k n i :
  0 ≤ tk_next k → tk_channels k ≠ [] → (i < n)%nat →
  ∃ c, (channel_calls n k).1 !! i = Some (Ok c) ∧
    tk_channels k !! Z.to_nat ((if decide (i = 0%nat) then tk_next k else wrap_u 64 (tk_next k + Z.of_nat i))
      mod Z.of_nat (length (tk_channels k))) = Some c.
Proof.
  revert k i. induction n as [|n IH]; intros k i Hn Hc Hi; [lia|]. cbn.
  destruct (channel_call k Hn Hc) as ((c & Hr & Hl) & Hch & Hnx). destruct (channel k) as [res k1]. cbn in Hr, Hch, Hnx. subst res.
  destruct (channel_calls n k1) as [cs k2] eqn:Hcs. destruct i as [|i]; cbn; [by exists c|].
  destruct (IH k1 i) as (c' & Hc' & Hl'); [rewrite Hnx; unfold wrap_u; apply Z.mod_pos_bound; lia|by rewrite Hch|lia|].
  rewrite Hcs in Hc'. exists c'. split; [done|]. rewrite Hch, Hnx in Hl'. rewrite <-Hl'. do 2 f_equal. f_equal.
  destruct (decide (i = 0%nat)) as [->|]; [done|]. unfold wrap_u. rewrite Zplus_mod_idemp_l. f_equal. lia.
Qed.

(** once [stop] has returned and no start or reload that stores channels
    is under way, the client connector stays stopped: whatever is called after,
    [channel] fails. *)
Theorem stopped_connector_refuses k k' :
  tk_state k = 2 → tk_channels k = [] → (∀ t op, tk_ops k !! t = Some op → storing op = false) → rtc step k k' →
  (channel k').1 = Err (ResourceStopped (tk_name k')).
Proof.
  intros H1 H2 H3 Hs. assert (stopped k') as Hk'.
  { induction Hs as [|a b c Hab _ IH]; [by split|]. apply IH; eapply stopped_step in Hab; try done; by destruct Hab. }
  unfold channel. by rewrite (sp_channels _ Hk').
Qed.
End lemmas.

(** ** Examples *)
Definition shared_ok (uri : string) : outcome string string := Ok uri.
Definition authority_ok (s : string) : outcome string Authority := Ok (MkAuthority s None s).
Definition example_connector : GrpcDataConnectorConfig := MkGrpcConnector 1 "inventory" "dns:///inventory" 3.
Definition example_config : RuntimeConfig unit :=
  MkRuntimeConfig FunctionCall ∅ ∅ ∅ ∅ ∅ {[1 := GrpcConnector example_connector]} ∅ ∅ ∅ ∅ ∅ ∅.
Example endpoint_default_port : endpoint shared_ok authority_ok "dns:///inventory" = Ok "http://inventory:443".
Proof. by vm_compute. Qed.
Example endpoint_resolver : ∃ e, endpoint shared_ok authority_ok "dns://resolver/inventory" = Err e.
Proof. eexists. by vm_compute. Qed.

Definition started : TonicDataSink string := MkTonicSink 1 "inventory" ["a"; "b"; "c"] (2 ^ 64 - 1) 1 ∅.
Lemma channels_round_robin_witness :
  ∃ c, (channel_calls 3 started).1 !! 1%nat = Some (Ok c) ∧ c = "a".
Proof.
  destruct (channels_round_robin started 3 1) as (c & Hc & Hl); [by vm_compute|done|lia|].
  exists c. split; [exact Hc|]. assert (Some c = Some "a") as [= ->] by (rewrite <-Hl; by vm_compute). done.
Defined.
Definition halted : TonicDataSink string := MkTonicSink 1 "inventory" [] 0 2 {[0%nat := OpDone (Ok tt)]}.
Lemma stopped_connector_refuses_witness :
  (channel (reload_address shared_ok authority_ok halted 1 example_config "dns:///other")).1 = Err (ResourceStopped "inventory").
Proof.
  apply (stopped_connector_refuses (Json := unit) shared_ok authority_ok halted); [done|done| |].
  - intros t op. cbn. rewrite lookup_singleton_Some. by intros [_ <-].
  - apply rtc_once, sk_reload. by vm_compute.
Defined.

(** A reload that read the running state before [stop] stores its channels
    after it: [stop] has returned and the connector hands out channels. *)
Theorem reload_outlives_stop :
  ∃ k : TonicDataSink string,
    rtc (sink_step (Json := unit) shared_ok authority_ok) (MkTonicSink 1 "inventory" [] 0 0 ∅) k ∧
    tk_state k = 2 ∧ tk_ops k !! 2%nat = Some (OpDone (Ok tt)) ∧ (channel k).1 = Ok "http://other:443".
Proof.
  set (turn t k := default k (op ← tk_ops k !! t; op_turn shared_ok authority_ok k t example_config op)).
  set (k0 := MkTonicSink 1 "inventory" [] 0 0 ∅ : TonicDataSink string).
  set (k1 := at_op k0 0 OpStart). set (k2 := turn 0%nat k1). set (k3 := turn 0%nat k2). set (k4 := turn 0%nat k3).
  set (k5 := reload_address shared_ok authority_ok k4 1 example_config "dns:///other"). set (k6 := turn 1%nat k5).
  set (k7 := at_op k6 2 OpStop). set (k8 := turn 2%nat k7). set (k9 := turn 2%nat k8). set (k10 := turn 1%nat k9).
  assert (Hturn : ∀ t k, is_Some (op ← tk_ops k !! t; op_turn shared_ok authority_ok k t example_config op) →
    sink_step (Json := unit) shared_ok authority_ok k (turn t k)).
  { intros t k [k' Hk']. subst turn. cbv beta. rewrite Hk'. cbn. apply bind_Some in Hk' as (op & Hop & Hk'). by eapply sk_turn. }
  exists k10. split; [|by vm_compute].
  apply (rtc_l _ _ k1); [by apply sk_start|].
  apply (rtc_l _ _ k2); [apply Hturn; vm_compute; by eexists|]. apply (rtc_l _ _ k3); [apply Hturn; vm_compute; by eexists|].
  apply (rtc_l _ _ k4); [apply Hturn; vm_compute; by eexists|]. apply (rtc_l _ _ k5); [apply sk_reload; by vm_compute|].
  apply (rtc_l _ _ k6); [apply Hturn; vm_compute; by eexists|]. apply (rtc_l _ _ k7); [apply sk_stop; by vm_compute|].
  apply (rtc_l _ _ k8); [apply Hturn; vm_compute; by eexists|]. apply (rtc_l _ _ k9); [apply Hturn; vm_compute; by eexists|].
  apply rtc_once. apply Hturn. vm_compute. by eexists.
Qed.
