(* ===== verification/Telemetry.v ===== *)
(** Transport telemetry, [src/src/runtime/telemetry/mod.rs]: the duration and
    size histograms of HTTP servers and clients and of gRPC servers and
    clients, over the registry of [Metrics].

    Spans and log events are left out.  The parsed size of a body and the
    parsed parts of a URL are arguments. *)

From Stdlib Require Import Ascii.
From stdpp Require Import pretty.
From S2P Require Import Prelude Errors SortedMap Config Metrics Requests ServiceHttp.
Local Open Scope Z_scope.

(** * gRPC status names *)
(** [tonic::Code] *)
Inductive Code :=
| COk | CCancelled | CUnknown | CInvalidArgument | CDeadlineExceeded | CNotFound | CAlreadyExists | CPermissionDenied
| CResourceExhausted | CFailedPrecondition | CAborted | COutOfRange | CUnimplemented | CInternal | CUnavailable
| CDataLoss | CUnauthenticated.
Definition GRPC_STATUS_NAMES : list string :=
  ["OK"; "CANCELLED"; "UNKNOWN"; "INVALID_ARGUMENT"; "DEADLINE_EXCEEDED"; "NOT_FOUND"; "ALREADY_EXISTS";
   "PERMISSION_DENIED"; "RESOURCE_EXHAUSTED"; "FAILED_PRECONDITION"; "ABORTED"; "OUT_OF_RANGE"; "UNIMPLEMENTED";
   "INTERNAL"; "UNAVAILABLE"; "DATA_LOSS"; "UNAUTHENTICATED"].
Definition grpc_status_name (status : string) : string :=
  match status with
  | "0" => "OK" | "1" => "CANCELLED" | "2" => "UNKNOWN" | "3" => "INVALID_ARGUMENT" | "4" => "DEADLINE_EXCEEDED"
  | "5" => "NOT_FOUND" | "6" => "ALREADY_EXISTS" | "7" => "PERMISSION_DENIED" | "8" => "RESOURCE_EXHAUSTED"
  | "9" => "FAILED_PRECONDITION" | "10" => "ABORTED" | "11" => "OUT_OF_RANGE" | "12" => "UNIMPLEMENTED"
  | "13" => "INTERNAL" | "14" => "UNAVAILABLE" | "15" => "DATA_LOSS" | "16" => "UNAUTHENTICATED"
  | _ => default "UNKNOWN" (snd <$> list_find (λ candidate, candidate = status) GRPC_STATUS_NAMES)
  end%string.
Definition tonic_code_name (code : Code) : string :=
  match code with
  | COk => "OK" | CCancelled => "CANCELLED" | CUnknown => "UNKNOWN" | CInvalidArgument => "INVALID_ARGUMENT"
  | CDeadlineExceeded => "DEADLINE_EXCEEDED" | CNotFound => "NOT_FOUND" | CAlreadyExists => "ALREADY_EXISTS"
  | CPermissionDenied => "PERMISSION_DENIED" | CResourceExhausted => "RESOURCE_EXHAUSTED"
  | CFailedPrecondition => "FAILED_PRECONDITION" | CAborted => "ABORTED" | COutOfRange => "OUT_OF_RANGE"
  | CUnimplemented => "UNIMPLEMENTED" | CInternal => "INTERNAL" | CUnavailable => "UNAVAILABLE"
  | CDataLoss => "DATA_LOSS" | CUnauthenticated => "UNAUTHENTICATED"
  end.
(** [status] is the error as a [tonic::Status], if it is one. *)
Definition grpc_error_status (status : option Code) : string := from_option tonic_code_name "UNKNOWN" status.

(** * Buckets *)
Definition DURATION_BUCKETS_SECONDS : list f64 :=
  [f64_ratio 5 10000; f64_ratio 1 1000; f64_ratio 25 10000; f64_ratio 5 1000; f64_ratio 1 100; f64_ratio 25 1000;
   f64_ratio 5 100; f64_ratio 1 10; f64_ratio 25 100; f64_ratio 5 10; f64_of_Z 1; f64_ratio 25 10; f64_of_Z 5; f64_of_Z 10].
Definition BODY_SIZE_BUCKETS_BYTES : list f64 :=
  f64_of_Z <$> [64; 256; 1024; 4096; 16384; 65536; 262144; 1048576].
Definition HTTP_STATUS_CODES : list Z :=
  [200; 201; 202; 204; 400; 401; 403; 404; 405; 408; 409; 413; 415; 422; 429; 500; 502; 503; 504].

Section telemetry.
Context {W : Type}.
Notation M := (Metrics W).
Implicit Types (m : M) (sc : MetricsScope).

(** [Result::ok] *)
Definition ok_of {E A} (r : outcome E A * M) : option A * M :=
  (match r.1 with Ok a => Some a | _ => None end, r.2).
(** A map over a list that registers as it goes. *)
Fixpoint register_all {A B} (f : A → M → B * M) (l : list A) m : list B * M :=
  match l with
  | [] => ([], m)
  | a :: l => let '(b, m) := f a m in let '(bs, m) := register_all f l m in (b :: bs, m)
  end.
Definition observe_opt m (h : option Handle) (value : f64) : M :=
  match h with Some h => observe m h value | None => m end.

(** * HTTP *)
Record HttpOutcomeMetrics := MkOutcome {
  o_request_duration : option Handle;
  o_request_body_size : option Handle;
  o_response_body_size : option Handle }.
Definition new_with_labels sc (labels : Labels) m : HttpOutcomeMetrics * M :=
  let '(duration, m) := ok_of (histogram m sc "request_duration_seconds"
    "Duration of an HTTP server request in seconds" labels (Some DURATION_BUCKETS_SECONDS)) in
  let '(request, m) := ok_of (histogram m sc "request_body_size_bytes"
    "Size of an HTTP server request body in bytes" labels (Some BODY_SIZE_BUCKETS_BYTES)) in
  let '(response, m) := ok_of (histogram m sc "response_body_size_bytes"
    "Size of an HTTP server response body in bytes" labels (Some BODY_SIZE_BUCKETS_BYTES)) in
  (MkOutcome duration request response, m).
(** [HttpOutcomeMetrics::new] *)
Definition outcome_new sc (base_labels : Labels) (status : Z) m : HttpOutcomeMetrics * M :=
  let labels := sm_insert "http_response_status_code" (pretty status) base_labels in
  let labels := sm_insert "error_type" (if decide (500 ≤ status) then "http_server_error" else "") labels in
  new_with_labels sc labels m.

Record HttpRouteMetrics := MkRoute {
  r_method : string;
  r_route : string;
  r_active : option Handle;
  r_outcomes : gmap Z HttpOutcomeMetrics }.
(** [HttpRouteMetrics::new] *)
Definition route_new sc (base_labels : Labels) (method route : string) (statuses : list Z) m : HttpRouteMetrics * M :=
  let base_labels := sm_insert "http_route" route (sm_insert "http_request_method" method base_labels) in
  let '(active, m) := ok_of (gauge m sc "active_requests" "Number of active HTTP server requests" base_labels) in
  let '(outcomes, m) :=
    register_all (λ status m, let '(o, m) := outcome_new sc base_labels status m in ((status, o), m)) statuses m in
  (MkRoute method route active (collect_map outcomes), m).
(** [HttpRouteMetrics::outcome] *)
Definition route_outcome (r : HttpRouteMetrics) (status : Z) : outcome Empty_set HttpOutcomeMetrics :=
  match r_outcomes r !! status with
  | Some o => Ok o
  | None => match r_outcomes r !! 500 with Some o => Ok o | None => Panic end
  end.

(** [Method::as_str]; equal names are equal methods. *)
Definition method_as_str (m : Method) : string :=
  match m with
  | GET => "GET" | POST => "POST" | PUT => "PUT" | PATCH => "PATCH" | DELETE => "DELETE" | HEAD => "HEAD"
  | OPTIONS => "OPTIONS" | TRACE => "TRACE" | CONNECT => "CONNECT"
  end.
Record HttpServerMetrics := MkServer {
  s_enabled : bool;
  s_routes : gmap string (gmap string HttpRouteMetrics);
  s_fallback : HttpRouteMetrics }.
(** [HttpServerMetrics::new] *)
Definition add_route sc (base_labels : Labels) (acc : gmap string (gmap string HttpRouteMetrics) * M)
    (spec : HttpRouteMetricSpec) : gmap string (gmap string HttpRouteMetrics) * M :=
  let '(routes, m) := acc in
  let method := method_as_str (spec_method spec) in
  let '(r, m) := route_new sc base_labels method (spec_route spec) (spec_statuses spec) m in
  (<[method := <[spec_route spec := r]> (default ∅ (routes !! method))]> routes, m).
Definition server_new m (host : string) (port : Z) (specs : list HttpRouteMetricSpec) : HttpServerMetrics * M :=
  let sc := scope "http_server" [] in
  let base_labels := sm_extend [] [("url_scheme", "http"); ("server_address", host); ("server_port", pretty port)] in
  let '(routes, m1) := foldl (add_route sc base_labels) (∅, m) specs in
  let '(fallback, m2) := route_new sc base_labels "GET" "<unmatched>" HTTP_STATUS_CODES m1 in
  (MkServer (negb (is_noop m)) routes fallback, m2).
(** [HttpServerMetrics::route] *)
Definition server_route (s : HttpServerMetrics) (method route : string) : HttpRouteMetrics :=
  default (s_fallback s) (s_routes s !! method ≫= λ routes, routes !! route).

(** [observe_http_server_request] up to the handler, and after it. *)
Record HttpServerObservation := MkHttpObservation {
  ho_route : option HttpRouteMetrics;
  ho_request_body_size : option f64;
  ho_started_at : option Z }.
Definition on_active (g : M → Handle → M) m (r : option HttpRouteMetrics) : M :=
  match r ≫= r_active with Some h => g m h | None => m end.
Definition http_request_start (s : HttpServerMetrics) m (method route : string) (content_length : option f64) (now : Z) :
    HttpServerObservation * M :=
  let r := if s_enabled s then Some (server_route s method route) else None in
  (MkHttpObservation r (if s_enabled s then content_length else None) (if s_enabled s then Some now else None),
   on_active gauge_inc m r).
Definition http_request_end (o : HttpServerObservation) m (status : Z) (content_length : option f64) (now : Z) :
    outcome Empty_set M :=
  let m := on_active gauge_dec m (ho_route o) in
  match ho_route o, ho_started_at o with
  | Some r, Some started_at =>
      k ← route_outcome r status;
      let m := observe_opt m (o_request_duration k) (as_secs_f64 (elapsed now started_at)) in
      let m := match ho_request_body_size o with Some size => observe_opt m (o_request_body_size k) size | None => m end in
      Ok (match content_length with Some size => observe_opt m (o_response_body_size k) size | None => m end)
  | _, _ => Ok m
  end.

Record HttpClientMetrics := MkHttpClient {
  hc_enabled : bool;
  hc_outcomes : gmap Z HttpOutcomeMetrics;
  hc_transport_error : HttpOutcomeMetrics }.
(** [HttpClientMetrics::new]: [parsed] is the URL's host and its port or the
    known default. *)
Definition http_client_new m (method url : string) (parsed : option (option string * option Z)) : HttpClientMetrics * M :=
  let server_address := default "" (parsed ≫= fst) in
  let server_port := from_option pretty "" (parsed ≫= snd) in
  let labels := sm_extend []
    [("http_request_method", method); ("url_full", url); ("server_address", server_address);
     ("server_port", server_port); ("network_protocol_version", "")] in
  let sc := scope "http_client" [] in
  let '(outcomes, m1) := register_all (λ status m,
    let labels := sm_insert "error_type" "" (sm_insert "http_response_status_code" (pretty status) labels) in
    let '(o, m) := new_with_labels sc labels m in ((status, o), m)) HTTP_STATUS_CODES m in
  let error_labels := sm_insert "error_type" "transport_error" (sm_insert "http_response_status_code" "500" labels) in
  let '(transport_error, m2) := new_with_labels sc error_labels m1 in
  (MkHttpClient (negb (is_noop m)) (collect_map outcomes) transport_error, m2).
Record HttpClientObservation := MkClientObservation { co_started_at : option Z; co_request_body_size : Z }.
Definition http_client_start (c : HttpClientMetrics) (request_body_size now : Z) : HttpClientObservation :=
  MkClientObservation (if hc_enabled c then Some now else None) request_body_size.
Definition http_client_finish (c : HttpClientMetrics) (o : HttpClientObservation) m (status : option Z)
    (response_body_size : option Z) (error : bool) (now : Z) : outcome Empty_set M :=
  match co_started_at o with
  | None => Ok m
  | Some started_at =>
      k ← (if error then Ok (hc_transport_error c)
           else match status ≫= λ status, hc_outcomes c !! status with
                | Some k => Ok k
                | None => match hc_outcomes c !! 500 with Some k => Ok k | None => Panic end
                end);
      let m := observe_opt m (o_request_duration k) (as_secs_f64 (elapsed now started_at)) in
      let m := observe_opt m (o_request_body_size k) (f64_of_Z (co_request_body_size o)) in
      Ok (match response_body_size with Some size => observe_opt m (o_response_body_size k) (f64_of_Z size) | None => m end)
  end.

(** * gRPC *)
Definition register_durations sc (help method : string) m : gmap string (option Handle) * M :=
  let base_labels := sm_extend [] [("rpc_system_name", "grpc"); ("rpc_method", method)] in
  let '(durations, m) := register_all (λ status m,
    let '(h, m) := ok_of (histogram m sc "call_duration_seconds" help
      (sm_insert "rpc_response_status_code" status base_labels) (Some DURATION_BUCKETS_SECONDS)) in
    ((status, h), m)) GRPC_STATUS_NAMES m in
  (collect_map durations, m).
Record GrpcClientMetrics := MkGrpcClient { gc_enabled : bool; gc_durations : gmap string (option Handle) }.
Definition grpc_client_new m (method : string) : GrpcClientMetrics * M :=
  let '(durations, m1) := register_durations (scope "rpc_client" []) "Duration of a gRPC client call in seconds" method m in
  (MkGrpcClient (negb (is_noop m)) durations, m1).
Definition grpc_client_start (c : GrpcClientMetrics) (now : Z) : option Z := if gc_enabled c then Some now else None.
Definition grpc_client_observe (c : GrpcClientMetrics) m (status : string) (duration : f64) : M :=
  match gc_durations c !! grpc_status_name status with Some (Some h) => observe m h duration | _ => m end.
Definition grpc_client_finish (c : GrpcClientMetrics) (started_at : option Z) m (status : string) (now : Z) : M :=
  match started_at with
  | Some started_at => grpc_client_observe c m status (as_secs_f64 (elapsed now started_at))
  | None => m
  end.

Record GrpcMethodMetrics := MkMethod { gm_method : string; gm_durations : gmap string (option Handle) }.
Definition method_new sc (method : string) m : GrpcMethodMetrics * M :=
  let '(durations, m) := register_durations sc "Duration of a gRPC server call in seconds" method m in
  (MkMethod method durations, m).
Record GrpcServerMetrics := MkGrpcServer {
  gs_enabled : bool;
  gs_methods : gmap string GrpcMethodMetrics;
  gs_fallback : GrpcMethodMetrics }.
Definition grpc_server_new m (methods : list string) : GrpcServerMetrics * M :=
  let sc := scope "rpc_server" [] in
  let '(l, m1) := register_all (λ method m, let '(k, m) := method_new sc method m in ((method, k), m)) methods m in
  let '(fallback, m2) := method_new sc "<unmatched>" m1 in
  (MkGrpcServer (negb (is_noop m)) (collect_map l) fallback, m2).
(** [request.uri().path().trim_start_matches('/')] *)
Fixpoint trim_start_slash (path : list ascii) : list ascii :=
  match path with "/"%char :: path => trim_start_slash path | _ => path end.
Definition grpc_server_method (s : GrpcServerMetrics) (path : string) : GrpcMethodMetrics :=
  default (gs_fallback s) (gs_methods s !! String.string_of_list_ascii (trim_start_slash (String.list_ascii_of_string path))).
Definition method_observe (k : GrpcMethodMetrics) m (status : string) (duration : f64) : M :=
  match gm_durations k !! status with Some (Some h) => observe m h duration | _ => m end.
(** [GrpcCallObservation::finish] *)
Record GrpcCallObservation := MkCall { ca_metrics : option GrpcMethodMetrics; ca_started_at : option Z }.
Definition call_finish (o : GrpcCallObservation) m (status : string) (now : Z) : M :=
  match ca_metrics o, ca_started_at o with
  | Some k, Some started_at => method_observe k m (grpc_status_name status) (as_secs_f64 (elapsed now started_at))
  | _, _ => m
  end.

(** [ObservedGrpcBody]; [reported] lists the statuses its observation was
    finished with. *)
Record ObservedGrpcBody := MkBody { b_observation : option GrpcCallObservation; reported : list string }.
(** What the inner body answers to a poll; trailers may carry a status. *)
Inductive Frame := FPending | FData | FTrailers (status : option string) | FError (code : Code) | FEnd.
Definition body_finish (b : ObservedGrpcBody) m (status : string) (now : Z) : ObservedGrpcBody * M :=
  match b_observation b with
  | Some o => (MkBody None (reported b ++ [grpc_status_name status]), call_finish o m status now)
  | None => (b, m)
  end.
Definition frame_status (f : Frame) : option string :=
  match f with
  | FPending | FData => None
  | FTrailers status => Some (default "OK" status)
  | FError code => Some (tonic_code_name code)
  | FEnd => Some "OK"
  end.
Definition poll_frame (b : ObservedGrpcBody) m (f : Frame) (now : Z) : ObservedGrpcBody * M :=
  match frame_status f with Some status => body_finish b m status now | None => (b, m) end.
Definition body_drop (b : ObservedGrpcBody) m (now : Z) : ObservedGrpcBody * M := body_finish b m "CANCELLED" now.
(** [GrpcServerMetricsService::call]: the answer of the inner service is an
    error, or a response that may carry its status. *)
Definition grpc_call (s : GrpcServerMetrics) m (path : string) (started_at now : Z) (response : option (option string)) :
    option ObservedGrpcBody * M :=
  let k := if gs_enabled s then Some (grpc_server_method s path) else None in
  let o := MkCall k (match k with Some _ => Some started_at | None => None end) in
  match response with
  | None => (None, call_finish o m "UNKNOWN" now)
  | Some initial_status =>
      let b := MkBody (Some o) [] in
      match initial_status with
      | Some status => let '(b, m) := body_finish b m (grpc_status_name status) now in (Some b, m)
      | None => (Some b, m)
      end
  end.
(** The life of a body: polls, then its drop. *)
Fixpoint poll_all (b : ObservedGrpcBody) m (fs : list (Frame * Z)) : ObservedGrpcBody * M :=
  match fs with [] => (b, m) | (f, now) :: fs => let '(b, m) := poll_frame b m f now in poll_all b m fs end.
Definition body_life (b : ObservedGrpcBody) m (fs : list (Frame * Z)) (dropped : Z) : ObservedGrpcBody * M :=
  let '(b, m) := poll_all b m fs in body_drop b m dropped.
End telemetry.
Arguments HttpServerObservation : clear implicits.

(** * Lemmas *)
Section lemmas.
Context {W : Type}.
Notation M := (Metrics W).
Implicit Types (m : M).

Lemma status_find status :
  grpc_status_name status ∈ GRPC_STATUS_NAMES ∧
  ∀ s, status = s → s ∈ GRPC_STATUS_NAMES → grpc_status_name status = s.
Proof.
  split.
  - unfold grpc_status_name. destruct (list_find _ GRPC_STATUS_NAMES) as [[i s]|] eqn:Hf.
    + apply list_find_Some in Hf as (Hi & _ & _). apply list_elem_of_lookup_2 in Hi. 
      repeat case_match; try exact Hi; apply (bool_decide_unpack _); by vm_compute.
    + repeat case_match; apply (bool_decide_unpack _); by vm_compute.
  - intros s -> Hs. unfold GRPC_STATUS_NAMES in Hs.
    repeat (apply elem_of_cons in Hs as [->|Hs]; [by vm_compute|]). by apply elem_of_nil in Hs.
Qed.
Lemma register_all_keys {K B} (f : K → M → (K * B) * M) (l : list K) m :
  (∀ k m, (f k m).1.1 = k) → (register_all f l m).1.*1 = l.
Proof.
  intros Hf. revert m. induction l as [|k l IH]; intros m; [done|]. cbn.
  destruct (f k m) as [b m1] eqn:E. specialize (IH m1). destruct (register_all f l m1) as [bs m2]. cbn in *.
  f_equal; [by rewrite <-(Hf k m), E|done].
Qed.
Lemma collect_map_is_Some {K V} `{Countable K} (l : list (K * V)) k : is_Some (collect_map l !! k) ↔ k ∈ l.*1.
Proof.
  rewrite collect_map_reverse, <-elem_of_dom, dom_list_to_map. rewrite elem_of_list_to_set, fmap_reverse, elem_of_reverse. done.
Qed.
Lemma durations_complete sc help method m status :
  is_Some ((register_durations (W := W) sc help method m).1 !! grpc_status_name status).
Proof.
  unfold register_durations.
  match goal with |- context [register_all ?f ?l m] => pose proof (register_all_keys f l m) as Hk; destruct (register_all f l m) as [ds m1] end.
  cbn in *. apply collect_map_is_Some. rewrite Hk by done. apply status_find.
Qed.
Lemma register_all_Forall {A B} (f : A → M → B * M) l m (P : B → Prop) :
  (∀ a m, P (f a m).1) → Forall P (register_all f l m).1.
Proof.
  intros Hf. revert m. induction l as [|a l IH]; intros m; [constructor|]. cbn.
  specialize (Hf a m). destruct (f a m) as [b m1]. specialize (IH m1). destruct (register_all f l m1). by constructor.
Qed.
Lemma collect_map_elem {K V} `{Countable K} (l : list (K * V)) k v : collect_map l !! k = Some v → (k, v) ∈ l.
Proof. rewrite collect_map_reverse. intros Hk%elem_of_list_to_map_2. by apply elem_of_reverse. Qed.
Lemma method_complete sc method m status : is_Some (gm_durations (method_new (W := W) sc method m).1 !! grpc_status_name status).
Proof.
  unfold method_new. pose proof (durations_complete sc "Duration of a gRPC server call in seconds" method m status) as H.
  by destruct (register_durations _ _ _ m).
Qed.
Lemma route_new_outcomes sc labels method route statuses m status :
  is_Some (r_outcomes (route_new (W := W) sc labels method route statuses m).1 !! status) ↔ status ∈ statuses.
Proof.
  unfold route_new. destruct (ok_of _) as [active m1].
  match goal with |- context [register_all ?f ?l m1] => pose proof (register_all_keys f l m1) as Hk; destruct (register_all f l m1) as [os m2] end.
  cbn in *. by rewrite collect_map_is_Some, Hk.
Qed.
(** The route has a series for [status]. *)
Definition serves_status (r : HttpRouteMetrics) (status : Z) : Prop := is_Some (r_outcomes r !! status) ∨ is_Some (r_outcomes r !! 500).
Lemma route_outcome_total r status : serves_status r status → ∃ o, route_outcome r status = Ok o.
Proof.
  unfold serves_status, route_outcome. intros [[o ->]|[o Ho]]; [by eexists|]. destruct (r_outcomes r !! status); [by eexists|].
  rewrite Ho. by eexists.
Qed.
(** Every route comes from a specification for its method and path. *)
Definition from_specs (specs : list HttpRouteMetricSpec) (method route : string) (r : HttpRouteMetrics) : Prop :=
  ∃ spec, spec ∈ specs ∧ method_as_str (spec_method spec) = method ∧ spec_route spec = route ∧
    ∀ status, is_Some (r_outcomes r !! status) ↔ status ∈ spec_statuses spec.
Lemma add_routes_specs sc labels all specs routes m :
  specs ⊆ all → map_Forall (λ method, map_Forall (from_specs all method)) routes →
  map_Forall (λ method, map_Forall (from_specs all method)) (foldl (add_route (W := W) sc labels) (routes, m) specs).1.
Proof.
  revert routes m. induction specs as [|spec specs IH]; intros routes m Hsub Hr; [done|]. cbn [foldl].
  unfold add_route at 2.
  pose proof (route_new_outcomes sc labels (method_as_str (spec_method spec)) (spec_route spec) (spec_statuses spec) m) as Ho.
  destruct (route_new _ _ _ _ _ m) as [r m1]. apply IH; [set_solver|]. apply map_Forall_insert_2; [|done].
  apply map_Forall_insert_2; [exists spec; split_and!; [set_solver|done..]|].
  destruct (routes !! method_as_str (spec_method spec)) eqn:E; [by apply (Hr _ _ E)|done].
Qed.
Lemma server_route_specs m host port specs method route :
  let r := server_route (server_new (W := W) m host port specs).1 method route in
  from_specs specs method route r ∨ is_Some (r_outcomes r !! 500).
Proof.
  unfold server_new, server_route.
  pose proof (add_routes_specs (scope "http_server" []) (sm_extend [] [("url_scheme", "http"); ("server_address", host);
    ("server_port", pretty port)]) specs specs ∅ m (reflexivity _) (map_Forall_empty _)) as Hr.
  destruct (foldl _ (∅, m) specs) as [routes m1].
  match goal with |- context [route_new ?a ?b ?c ?d ?e m1] => pose proof (route_new_outcomes a b c d e m1 500) as Hf;
    destruct (route_new a b c d e m1) as [fallback m2] end.
  assert (is_Some (r_outcomes fallback !! 500)) as Hfb by (apply Hf; apply (bool_decide_unpack _); by vm_compute).
  cbn [fst s_routes s_fallback] in *. destruct (routes !! method) as [rs|] eqn:Hm; cbn; [|by right].
  destruct (rs !! route) as [r|] eqn:Hrt; cbn; [|by right]. left. exact (Hr _ _ Hm _ _ Hrt).
Qed.
(** A handle of a live local gauge. *)
Definition live_gauge m (h : Handle) : Prop := Metrics.enabled h = true ∧ is_Some (ints m !! cell h).
Lemma gauge_add_reads m h d :
  live_gauge m h → live_gauge (gauge_add m h d) h ∧ int_get (gauge_add m h d) h = wrap_s 64 (int_get m h + d).
Proof.
  intros [He [v Hv]]. unfold live_gauge, int_get, gauge_add, gauge_fetch_add, gauge_export. rewrite He.
  destruct (otel h); cbn; rewrite lookup_alter_eq, Hv; cbn; by eauto.
Qed.
Lemma observe_ints m h v h' : int_get (observe m h v) h' = int_get m h' ∧ (live_gauge m h' → live_gauge (observe m h v) h').
Proof. unfold observe, int_get, live_gauge. destruct (Metrics.enabled h); [|done]. by destruct (otel h). Qed.
Lemma observe_opt_ints m h v h' :
  int_get (observe_opt m h v) h' = int_get m h' ∧ (live_gauge m h' → live_gauge (observe_opt m h v) h').
Proof. destruct h; [apply observe_ints|done]. Qed.
End lemmas.

(** * Properties *)
Section properties.
Context {W : Type}.
Notation M := (Metrics W).
Implicit Types (m : M).

(** every status is reported under one of the seventeen registered names:
    a code number under the name at its place, a code under its own name, a
    name as itself, and anything else as UNKNOWN; the client and the server
    have a histogram slot for it. *)
Theorem grpc_status_named :
  (∀ status, grpc_status_name status ∈ GRPC_STATUS_NAMES) ∧
  (∀ n name, GRPC_STATUS_NAMES !! n = Some name → grpc_status_name (pretty (Z.of_nat n)) = name ∧ grpc_status_name name = name) ∧
  (∀ code, grpc_status_name (tonic_code_name code) = tonic_code_name code) ∧
  (∀ m method status, is_Some (gc_durations (grpc_client_new m method).1 !! grpc_status_name status)) ∧
  (∀ m methods path status,
    is_Some (gm_durations (grpc_server_method (grpc_server_new m methods).1 path) !! grpc_status_name status)).
Proof.
  split_and!.
  - intros status. apply status_find.
  - intros n name Hn. split; [|eapply status_find; [done|by eapply list_elem_of_lookup_2]].
    assert (n < 17)%nat as Hlt by by apply lookup_lt_Some in Hn.
    do 17 (destruct n as [|n]; [injection Hn as <-; by vm_compute|]). lia.
  - by intros [].
  - intros m method status. unfold grpc_client_new.
    pose proof (durations_complete (scope "rpc_client" []) "Duration of a gRPC client call in seconds" method m status) as H.
    by destruct (register_durations _ _ _ _).
  - intros m methods path status. unfold grpc_server_new.
    set (f := λ (method : string) (m : M), let '(k, m) := method_new (scope "rpc_server" []) method m in ((method, k), m)).
    assert (Hl : Forall (λ k : string * GrpcMethodMetrics, is_Some (gm_durations k.2 !! grpc_status_name status)) (register_all f methods m).1).
    { apply register_all_Forall. intros a m'. subst f. cbv beta. pose proof (method_complete (scope "rpc_server" []) a m' status) as H.
      by destruct (method_new _ a m'). }
    destruct (register_all f methods m) as [ks m1].
    pose proof (method_complete (scope "rpc_server" []) "<unmatched>" m1 status) as Hf. destruct (method_new _ _ m1) as [fallback m2].
    unfold grpc_server_method. cbn [fst gs_methods gs_fallback] in *.
    destruct (collect_map ks !! _) as [k|] eqn:Hk; [|exact Hf]. apply collect_map_elem in Hk.
    rewrite Forall_forall in Hl. exact (Hl _ Hk).
Qed.

(** a gRPC server call is reported exactly once, whatever the order in
    which its body is polled and dropped: with the status of the first frame
    that carries one, at that time, or as CANCELLED when the body is dropped
    before. *)
Theorem grpc_call_reported_once (o : GrpcCallObservation) m (fs : list (Frame * Z)) (dropped : Z) :
  let '(status, now) := default ("CANCELLED", dropped)
    (head (omap (λ f : Frame * Z, (λ status, (status, f.2)) <$> frame_status f.1) fs)) in
  body_life (MkBody (Some o) []) m fs dropped = (MkBody None [grpc_status_name status], call_finish o m status now).
Proof.
  unfold body_life.
  assert (Hdone : ∀ l m fs, poll_all (W := W) (MkBody None l) m fs = (MkBody None l, m)).
  { intros l m'. induction fs0 as [|[f now] fs0 IH]; [done|]. cbn. unfold poll_frame, body_finish. cbn.
    by destruct (frame_status f); rewrite IH. }
  revert m. induction fs as [|[f now] fs IH]; intros m; [done|]. cbn. unfold poll_frame.
  destruct (frame_status f) as [status|] eqn:Hf; cbn; [|apply IH]. by rewrite Hdone.
Qed.

(** the middleware of a service's HTTP server panics on the status of a
    response only if a health route answers with another status than 200,
    which its handler never does: every other route, matched or not, has a
    series for the status or for 500.  An HTTP client never panics. *)
Theorem http_outcome_registered {Json} m host port (r : RuntimeConfig Json) c has_otel :
  (∀ method route status,
    (∃ k, route_outcome (server_route (server_new m host port (http_metric_specs HTTP_STATUS_CODES r c has_otel)).1 method route) status
          = Ok k) ∨
    (method = "GET" ∧ route ∈ health_paths c ∧ status ≠ 200)) ∧
  (∀ method url parsed o m' status size error now, ∃ m'',
    http_client_finish (http_client_new m method url parsed).1 o m' status size error now = Ok m'').
Proof.
  split.
  - intros method route status.
    destruct (server_route_specs m host port (http_metric_specs HTTP_STATUS_CODES r c has_otel) method route) as [(spec & Hin & Hme & Hro & Hst)|H500];
      [|left; apply route_outcome_total; by right].
    assert (H : 500 ∈ spec_statuses spec ∨ (spec_method spec = GET ∧ spec_route spec ∈ health_paths c ∧ spec_statuses spec = [200])).
    { unfold http_metric_specs in Hin. rewrite !elem_of_app in Hin. destruct Hin as [Hin|[Hin|[Hin|Hin]]].
      - apply list_elem_of_omap in Hin as (e & _ & He). left. destruct e; try done. cbn in He.
        destruct (http_method _); simplify_eq/=. apply (bool_decide_unpack _). by vm_compute.
      - apply list_elem_of_fmap in Hin as (p & -> & _). left. set_solver.
      - apply list_elem_of_fmap in Hin as (p & -> & _). left. set_solver.
      - apply list_elem_of_fmap in Hin as (p & -> & Hp). right. by rewrite elem_of_elements in Hp. }
    destruct H as [H|(Hg & Hh & H200)]; [left; apply route_outcome_total; right; by apply Hst|].
    destruct (decide (status = 200)) as [->|]; [left; apply route_outcome_total; left; apply Hst; rewrite H200; set_solver|].
    right. subst. by rewrite Hg.
  - intros method url parsed o m' status size error now. unfold http_client_new.
    match goal with |- context [register_all ?f ?l m] => pose proof (register_all_keys f l m) as Hk; destruct (register_all f l m) as [os m1] end.
    destruct (new_with_labels _ _ m1) as [te m2]. cbn in *. unfold http_client_finish. cbn.
    destruct (co_started_at o); [|by eexists].
    assert (is_Some (collect_map os !! 500)) as [k Hk500].
    { apply collect_map_is_Some. rewrite Hk by done. apply (bool_decide_unpack _). by vm_compute. }
    destruct error; cbn; [by eexists|]. destruct (status ≫= _); cbn; [by eexists|]. rewrite Hk500. by eexists.
Qed.

(** The gauge of active HTTP requests counts the requests that started and
    whose response was produced; a request that the server drops before stays
    counted. *)
Theorem http_active_counted (s : HttpServerMetrics) m method route content_length now h :
  s_enabled s = true → r_active (server_route s method route) = Some h → live_gauge m h →
  let '(o, m1) := http_request_start s m method route content_length now in
  int_get m1 h = wrap_s 64 (int_get m h + 1) ∧
  ∀ status response_length now' m2, http_request_end o m1 status response_length now' = Ok m2 →
    int_get m2 h = wrap_s 64 (wrap_s 64 (int_get m h + 1) - 1).
Proof.
  intros He Ha Hl. unfold http_request_start. rewrite He. cbn [on_active]. unfold on_active at 1 2. cbn. rewrite Ha.
  destruct (gauge_add_reads m h 1 Hl) as [Hl1 Hi1]. split; [exact Hi1|].
  intros status response_length now' m2 H. unfold http_request_end, on_active in H. cbn in H. rewrite Ha in H.
  destruct (route_outcome _ status) as [k|e|]; [|by destruct e|done]. cbn in H. injection H as <-.
  destruct (gauge_add_reads _ h (-1) Hl1) as [Hl2 Hi2]. unfold gauge_dec, gauge_inc in *. rewrite Hi1 in Hi2.
  destruct response_length, content_length; cbn; rewrite ?(proj1 (observe_opt_ints _ _ _ _)); exact Hi2.
Qed.
End properties.

(** ** Examples *)
(** A route without status 500 panics on a status it does not list. *)
Example http_outcome_unregistered :
  route_outcome (server_route (server_new (W := unit) metrics_new "localhost" 80 [MkSpec GET "/health" [200]]).1 "GET" "/health") 404
  = Panic.
Proof. by vm_compute. Qed.
(** A request that is dropped before its response leaves the gauge of its
    route at one. *)
Definition example_server : HttpServerMetrics * Metrics unit :=
  server_new metrics_new "localhost" 80 [MkSpec GET "/health" [200; 500]].
Example http_dropped_counted :
  let '(_, m) := http_request_start example_server.1 example_server.2 "GET" "/health" None 0 in
  (λ h, int_get m h) <$> r_active (server_route example_server.1 "GET" "/health") = Some 1.
Proof. by vm_compute. Qed.
