(* ===== verification/GrpcCalls.v ===== *)
(** Single gRPC calls of a sink: [consume] of
    [src/src/datasink/grpc/nostreaming.rs] and
    [src/src/datasink/grpc/serverstreaming.rs], and [RequestSender] of
    [src/src/datasink/grpc/mod.rs].

    A call is a sequence of handler, client and metric calls; the handler and
    the client are functions of what they are given, the handler's state is
    passed along.  Spans are left out. *)

From S2P Require Import Prelude Errors Context Telemetry.
Local Open Scope Z_scope.

Section calls.
Context {Token Otel Any St T ReqT ResR Err : Type}.
Notation Ctx := (MessageContext Token Otel Any).
(** [HandlerResult] *)
Notation HandlerResult A := (Err + A)%type.
Context (no_request : Err)              (** "gRPC sink handler did not send a request" *)
        (error_code : Err → option Code).   (** the error as a [tonic::Status] *)

(** [EndpointHandler]; [consume_message] also answers the requests it sent. *)
Record EndpointHandler := MkHandler {
  begin_request : Ctx → HandlerResult (Ctx * St);
  consume_message : Ctx → St → T → list ReqT * HandlerResult unit * St;
  handle_response : Ctx → St → ResR → HandlerResult unit * St }.
(** What a call does, in order. *)
Inductive Event :=
| EBegin (context : Ctx)
| EConsume (context : Ctx) (value : T)
| ECall (context : Ctx) (request : ReqT)
| EHandle (context : Ctx) (response : ResR)
| EEnd (context : Ctx) (result : HandlerResult unit)
| MBeginFailed                          (** [begin_request_failed] *)
| MStart                                (** [request_start] *)
| MEnd (ok : bool)                      (** [request_end] *)
| MClient (status : string).            (** the client observation finishes *)

(** [RequestSender]: a later request replaces an earlier one. *)
Definition sender_send (request : option ReqT) (r : ReqT) : option ReqT := Some r.
Definition sender_take (request : option ReqT) : HandlerResult ReqT :=
  match request with Some r => inr r | None => inl no_request end.
Definition is_ok {A} (r : HandlerResult A) : bool := match r with inr _ => true | inl _ => false end.
(** Where [begin_request] succeeds: the call between [consume_message] and
    [end_request] gives events and a result. *)
Definition consume_with (h : EndpointHandler) (exchange : Ctx → Ctx → St → ReqT → list Event * HandlerResult unit)
    (context : Ctx) (value : T) (new_stream_id : string) : list Event :=
  match begin_request h context with
  | inl _ => [EBegin context; MBeginFailed]
  | inr (ctx, st) =>
      let request_context := with_stream_id ctx new_stream_id in
      let '(sent, result, st) := consume_message h ctx st value in
      let sender := foldl sender_send None sent in
      let '(events, result) :=
        match result with
        | inl e => ([], inl e)
        | inr _ => match sender_take sender with inl e => ([], inl e) | inr request => exchange request_context ctx st request end
        end in
      [EBegin context; MStart; EConsume ctx value] ++ events ++ [EEnd ctx result; MEnd (is_ok result)]
  end.

(** ** Unary calls *)
Definition unary_exchange (h : EndpointHandler) (client : Ctx → ReqT → HandlerResult ResR)
    (request_context ctx : Ctx) (st : St) (request : ReqT) : list Event * HandlerResult unit :=
  match client request_context request with
  | inr response =>
      ([ECall request_context request; MClient "OK"; EHandle ctx response], (handle_response h ctx st response).1)
  | inl e => ([ECall request_context request; MClient (grpc_error_status (error_code e))], inl e)
  end.
Definition no_streaming_consume (h : EndpointHandler) (client : Ctx → ReqT → HandlerResult ResR) :=
  consume_with h (unary_exchange h client).

(** ** Server streaming *)
Fixpoint receive_responses (h : EndpointHandler) (ctx : Ctx) (st : St) (responses : list (HandlerResult ResR)) :
    list Event * HandlerResult unit :=
  match responses with
  | [] => ([], inr tt)
  | inl e :: _ => ([], inl e)
  | inr response :: responses =>
      match handle_response h ctx st response with
      | (inl e, _) => ([EHandle ctx response], inl e)
      | (inr _, st) => let '(events, result) := receive_responses h ctx st responses in (EHandle ctx response :: events, result)
      end
  end.
Definition stream_exchange (h : EndpointHandler) (client : Ctx → ReqT → HandlerResult (list (HandlerResult ResR)))
    (request_context ctx : Ctx) (st : St) (request : ReqT) : list Event * HandlerResult unit :=
  match client request_context request with
  | inr responses =>
      let '(events, result) := receive_responses h ctx st responses in
      (ECall request_context request :: events ++ [MClient (if is_ok result then "OK" else "UNKNOWN")], result)
  | inl e => ([ECall request_context request; MClient (grpc_error_status (error_code e))], inl e)
  end.
Definition server_streaming_consume (h : EndpointHandler) (client : Ctx → ReqT → HandlerResult (list (HandlerResult ResR))) :=
  consume_with h (stream_exchange h client).

(** * Lemmas *)
Definition is_begin (e : Event) : bool := match e with EBegin _ => true | _ => false end.
Definition is_end (e : Event) : bool := match e with EEnd _ _ | MEnd _ => true | _ => false end.
Definition is_start (e : Event) : bool := match e with MStart | MBeginFailed | EConsume _ _ | EBegin _ => true | _ => false end.
Definition handled (e : Event) : option ResR := match e with EHandle _ r => Some r | _ => None end.
Definition called (e : Event) : option (Ctx * ReqT) := match e with ECall c q => Some (c, q) | _ => None end.
Definition observed (e : Event) : option string := match e with MClient s => Some s | _ => None end.
(** The responses before the first error. *)
Fixpoint delivered (responses : list (HandlerResult ResR)) : list ResR :=
  match responses with inr r :: responses => r :: delivered responses | _ => [] end.

Lemma sender_last (sent : list ReqT) : foldl sender_send None sent = last sent.
Proof. induction sent as [|r sent IH] using rev_ind; [done|]. by rewrite foldl_snoc, last_snoc. Qed.
Lemma receive_events h ctx st responses :
  let '(events, result) := receive_responses h ctx st responses in
  Forall (λ e, ∃ r, e = EHandle ctx r) events ∧ omap handled events `prefix_of` delivered responses ∧
  (is_ok result = true → omap handled events = delivered responses ∧ length (delivered responses) = length responses).
Proof.
  revert st. induction responses as [|[e|r] responses IH]; intros st; cbn.
  - split_and!; [constructor|done|done].
  - split_and!; [constructor|apply prefix_nil|done].
  - destruct (handle_response h ctx st r) as [[e|u] st1]; cbn.
    + split_and!; [by repeat econstructor| |done]. apply prefix_cons, prefix_nil.
    + specialize (IH st1). destruct (receive_responses h ctx st1 responses) as [events result]. destruct IH as (H1 & H2 & H3).
      split_and!; [constructor; [by eexists|done]|cbn; by apply prefix_cons|]. intros Hok. cbn.
      destruct (H3 Hok) as [-> ->]. done.
Qed.
Lemma handles_only ctx (events : list Event) :
  Forall (λ e, ∃ r, e = EHandle ctx r) events → omap called events = [] ∧ omap observed events = [] ∧ Forall (λ e, is_start e = false ∧ is_end e = false) events.
Proof. induction 1 as [|e events [r ->] _ (Ha & Hb & H)]; [done|]. split_and!; [exact Ha|exact Hb|by constructor]. Qed.

(** a server-streaming call of a sink runs in order: [begin_request];
    when that fails nothing more; else [consume_message], at most one client
    call, with the last request it sent and a fresh stream identifier, and one
    observation of its status; the responses are handled in order up to the
    first error; [end_request] is called exactly once, after all of them, and
    a successful call has handled every response. *)
Theorem server_streaming_order h client context value id :
  match begin_request h context with
  | inl _ => server_streaming_consume h client context value id = [EBegin context; MBeginFailed]
  | inr (ctx, st) =>
      ∃ events result, server_streaming_consume h client context value id =
        [EBegin context; MStart; EConsume ctx value] ++ events ++ [EEnd ctx result; MEnd (is_ok result)] ∧
      Forall (λ e, is_start e = false ∧ is_end e = false) events ∧
      omap called events = omap (λ q, if is_ok (consume_message h ctx st value).1.2 then Some (with_stream_id ctx id, q) else None)
        (option_list (last (consume_message h ctx st value).1.1)) ∧
      length (omap observed events) = length (omap called events) ∧
      (∀ q responses, omap called events = [(with_stream_id ctx id, q)] → client (with_stream_id ctx id) q = inr responses →
        omap handled events `prefix_of` delivered responses ∧
        (is_ok result = true → omap handled events = delivered responses ∧ length (delivered responses) = length responses)) ∧
      (is_ok result = true → length (omap called events) = 1%nat)
  end.
Proof.
  unfold server_streaming_consume, consume_with. destruct (begin_request h context) as [e|[ctx st]]; [done|].
  destruct (consume_message h ctx st value) as [[sent [e|u]] st1] eqn:Hc; cbn.
  - exists [], (inl e). split; [done|]. split_and!; try done. by destruct (last sent).
  - rewrite sender_last. destruct (last sent) as [q|]; cbn.
    + unfold stream_exchange. destruct (client (with_stream_id ctx id) q) as [e|responses] eqn:Hcl.
      * eexists _, _. split; [reflexivity|]. cbn. split_and!; try done; [by repeat constructor|]. intros ? ? [= <-]. by rewrite Hcl.
      * pose proof (receive_events h ctx st1 responses) as Hr. destruct (receive_responses h ctx st1 responses) as [events result].
        destruct Hr as (H1 & H2 & H3). destruct (handles_only _ _ H1) as (Ha & Hb & Hf).
        eexists _, _. split; [reflexivity|]. cbn. rewrite !omap_app. cbn. rewrite Ha, Hb, app_nil_r. split_and!; try done.
        -- constructor; [done|]. apply Forall_app. split; [done|]. by repeat constructor.
        -- intros ? ? [= <-]. rewrite Hcl. intros [= <-]. by rewrite ?app_nil_r.
    + exists [], (inl no_request). by split_and!.
Qed.

(** a unary call of a sink calls the client at most once, handles exactly
    the response it got, and ends the request once with the outcome of its
    steps; the client's status is observed as OK whenever it answered. *)
Theorem unary_call_order h client context value id ctx st sent result st1 :
  begin_request h context = inr (ctx, st) → consume_message h ctx st value = (sent, result, st1) →
  no_streaming_consume h client context value id =
    match result, last sent with
    | inl e, _ => [EBegin context; MStart; EConsume ctx value; EEnd ctx (inl e); MEnd false]
    | inr _, None => [EBegin context; MStart; EConsume ctx value; EEnd ctx (inl no_request); MEnd false]
    | inr _, Some q =>
        let rc := with_stream_id ctx id in
        match client rc q with
        | inl e => [EBegin context; MStart; EConsume ctx value; ECall rc q; MClient (grpc_error_status (error_code e));
                    EEnd ctx (inl e); MEnd false]
        | inr response =>
            let handled := (handle_response h ctx st1 response).1 in
            [EBegin context; MStart; EConsume ctx value; ECall rc q; MClient "OK"; EHandle ctx response;
             EEnd ctx handled; MEnd (is_ok handled)]
        end
    end.
Proof.
  intros Hb Hc. unfold no_streaming_consume, consume_with. rewrite Hb, Hc. rewrite sender_last.
  destruct result; [done|]. destruct (last sent); [|done]. cbn. unfold unary_exchange. by destruct (client _ _).
Qed.
End calls.
