(* ===== verification/KafkaLanes.v ===== *)
(** The consumer task of a Kafka endpoint, the loop that [start] of
    [src/src/datasource/kafka/rdkafka.rs] spawns: messages are routed to lanes,
    one per topic, partition and generation of its assignment.

    The task, the lanes and the rebalances run concurrently; a turn is one
    access of the shared state.  In particular a [select!] checks its
    cancellation and receives in two turns, between which a rebalance or a
    stop may fall.  Assignments are those of [Checkpoint].  The endpoint's
    context is the owner of [Assignments]; what the Kafka client answers is an
    argument of the turns.  A lane calls [endpoint_request] ([KafkaSource]),
    which returns in a turn of its own, if it returns at all. *)

From Stdlib Require Import Ascii.
From S2P Require Import Prelude Errors Checkpoint.
Local Open Scope Z_scope.

(** * Transport metadata *)
Definition to_ascii_lowercase (s : string) : string :=
  String.string_of_list_ascii ((λ c, let n := N_of_ascii c in if N.leb 65 n && N.leb n 90 then ascii_of_N (n + 32) else c) <$> chars s).
Definition transport_headers : list string := ["x-stream-id"; "x-trace"; "traceparent"; "tracestate"; "baggage"].
(** The headers a message keeps; a value that is not UTF-8 text is [None]. *)
Definition transport_metadata (tracing_enabled : bool) (headers : list (string * option string)) : gmap string string :=
  collect_map (omap (λ '(name, value),
    let key := to_ascii_lowercase name in
    if negb tracing_enabled && negb (bool_decide (key = "x-stream-id")) then None
    else if bool_decide (key ∈ transport_headers) then (λ v, (key, v)) <$> value else None) headers).

(** * State *)
Record ConsumerMessage := MkMessage { cm_topic : string; cm_partition : Z; cm_offset : Z; cm_metadata : gmap string string }.
Notation Key := (string * Z * Z)%type.
(** A lane: [l_token] is its partition's context, [l_sender] tells whether the
    task keeps its sender, [l_open] whether its receiver exists, [l_checked]
    whether its [select!] has found the context alive and is about to receive.
    [l_routed], [l_handled] list what was sent to it and what it finished. *)
Record Lane := MkLane {
  l_key : Key; l_token : Z; l_sender : bool; l_open : bool; l_checked : bool; l_queue : list ConsumerMessage;
  l_running : option ConsumerMessage; l_routed : list ConsumerMessage; l_handled : list ConsumerMessage }.
Definition channel_capacity : nat := 256.
Inductive TaskPc :=
| TRecv
| TReceived (m : ConsumerMessage)
| TRetain (m : ConsumerMessage) (keys : list Key) (revision : Z)
| TGet (m : ConsumerMessage)
| TCheck (m : ConsumerMessage) (generation token : Z)
| TRoute (m : ConsumerMessage) (generation token : Z)
| TSend (m : ConsumerMessage) (lane : nat)
| TCancel   (** [on_error] of a failure that ends the loop *)
| TBreak
| TJoin
| TReturned.
Record Task := MkTask {
  assignments : Assignments; stop : bool; assignment_revision : Z; senders : gmap Key nat; lanes : gmap nat Lane;
  next_lane : nat; tpc : TaskPc; reported : list string }.
Implicit Types (s : Task) (l : Lane) (m : ConsumerMessage).

(** ** Updates *)
Definition set_assignments s (a : Assignments) : Task :=
  MkTask a (stop s) (assignment_revision s) (senders s) (lanes s) (next_lane s) (tpc s) (reported s).
Definition set_pc s (g : TaskPc) : Task :=
  MkTask (assignments s) (stop s) (assignment_revision s) (senders s) (lanes s) (next_lane s) g (reported s).
Definition set_stop s : Task :=
  MkTask (assignments s) true (assignment_revision s) (senders s) (lanes s) (next_lane s) (tpc s) (reported s).
Definition set_revision s (z : Z) : Task :=
  MkTask (assignments s) (stop s) z (senders s) (lanes s) (next_lane s) (tpc s) (reported s).
Definition set_lanes s (x : gmap Key nat) (y : gmap nat Lane) : Task :=
  MkTask (assignments s) (stop s) (assignment_revision s) x y (next_lane s) (tpc s) (reported s).
Definition report s (e : string) : Task :=
  MkTask (assignments s) (stop s) (assignment_revision s) (senders s) (lanes s) (next_lane s) (tpc s) (reported s ++ [e]).
Definition cancel s : Task := set_assignments s (set_owner (assignments s) true).
Definition ending s : bool := stop s || owner_cancelled (assignments s).
Definition drop_sender l : Lane :=
  MkLane (l_key l) (l_token l) false (l_open l) (l_checked l) (l_queue l) (l_running l) (l_routed l) (l_handled l).
Definition set_checked l (checked : bool) : Lane :=
  MkLane (l_key l) (l_token l) (l_sender l) (l_open l) checked (l_queue l) (l_running l) (l_routed l) (l_handled l).
Definition take_up l m (queue : list ConsumerMessage) : Lane :=
  MkLane (l_key l) (l_token l) (l_sender l) (l_open l) false queue (Some m) (l_routed l) (l_handled l).
Definition finish l m : Lane :=
  MkLane (l_key l) (l_token l) (l_sender l) (l_open l) (l_checked l) (l_queue l) None (l_routed l) (l_handled l ++ [m]).
Definition push l m : Lane :=
  MkLane (l_key l) (l_token l) (l_sender l) (l_open l) (l_checked l) (l_queue l ++ [m]) (l_running l) (l_routed l ++ [m])
    (l_handled l).
Definition close_lane l : Lane :=
  MkLane (l_key l) (l_token l) (l_sender l) false false [] None (l_routed l) (l_handled l).
(** The messages a lane took up. *)
Definition taken l : list ConsumerMessage := l_handled l ++ option_list (l_running l).
Definition set_lane s (i : nat) l : Task := set_lanes s (senders s) (<[i := l]> (lanes s)).

(** * The task *)
(** [initialize]: [restored] is the provider's answer,
    [client] that of the client library; the answer tells whether the
    endpoint restores. *)
Definition initialize (ending_before : bool) (restored : HandlerResult (option CheckpointOffsets)) (client : HandlerResult unit) :
    outcome RuntimeError bool :=
  offsets ← map_err Transport restored;
  if ending_before then Err ContextCancelled
  else _ ← map_err Transport (validate offsets); _ ← map_err Transport client; Ok (bool_decide (is_Some offsets)).
Definition task_new : Task := MkTask Assignments_new false 0 ∅ ∅ 0 TRecv [].
(** What [select!] finds in [TRecv]. *)
Inductive Received :=
| RStop | RCancelled | RFailed
| RMessage (m : ConsumerMessage)
| RError (error : string) (lost : bool).   (** [lost]: the offset is out of range or has no reset *)
(** [break]: the senders are dropped. *)
Definition break s : Task := set_pc (set_lanes s ∅ (drop_sender <$> lanes s)) TJoin.
(** The branches of the [select!] are polled in order, each in an access of
    its own: a flag may be raised after it was found down, so that a later
    branch is taken none the less. *)
Definition on_received (restoring : bool) s (r : Received) : option Task :=
  match r with
  | RStop => if stop s then Some (break s) else None
  | RCancelled => if owner_cancelled (assignments s) then Some (break s) else None
  | RFailed =>
      if failed (assignments s) then
        let '(e, a) := take_error (assignments s) in
        let s := set_assignments s a in
        Some (set_pc (match e with Some e => report s e | None => s end) TCancel)
      else None
  | RMessage m => Some (set_pc s (TReceived m))
  | RError e lost =>
      let s := if ending s then s else report s e in
      Some (if restoring && lost then set_pc s TCancel else s)
  end.
(** [lanes.retain], one key *)
Definition retain s (k : Key) : Task :=
  if current (assignments s) k.1.2 k.2 then s
  else match senders s !! k with
       | Some i => set_lanes s (delete k (senders s)) (alter drop_sender i (lanes s))
       | None => s
       end.
(** The lane of a message, made when there is none. *)
Definition open_lane s m (generation token : Z) : nat * Task :=
  let key := (cm_topic m, cm_partition m, generation) in
  match senders s !! key with
  | Some i => (i, s)
  | None =>
      let i := next_lane s in
      (i, MkTask (assignments s) (stop s) (assignment_revision s) (<[key := i]> (senders s))
            (<[i := MkLane key token true true false [] None [] []]> (lanes s)) (S i) (tpc s) (reported s))
  end.
Definition task_turn s (stopping : bool) : option Task :=
  match tpc s with
  | TReceived m =>
      let revision := revision (assignments s) in
      Some (if revision =? assignment_revision s then set_pc s (TGet m)
            else set_pc s (TRetain m (map_to_list (senders s)).*1 revision))
  | TRetain m [] revision => Some (set_pc (set_revision s revision) (TGet m))
  | TRetain m (k :: keys) revision => Some (set_pc (retain s k) (TRetain m keys revision))
  | TGet m =>
      Some (match get (assignments s) (cm_partition m) with
            | Some (generation, token) => set_pc s (TCheck m generation token)
            | None => set_pc s TRecv
            end)
  | TCheck m generation token =>
      Some (set_pc s (if live (assignments s) token then TRoute m generation token else TRecv))
  | TRoute m generation token =>
      let '(i, s) := open_lane s m generation token in Some (set_pc s (TSend m i))
  | TSend m i =>
      if stopping then if ending s then Some (break s) else None
      else
        l ← lanes s !! i;
        if l_open l then
          if decide (length (l_queue l) < channel_capacity)%nat
          then Some (set_pc (set_lane s i (push l m)) TRecv) else None
        else Some (break s)
  | TCancel => Some (set_pc (cancel s) TBreak)
  | TBreak => Some (break s)
  | TJoin => if decide (map_Forall (λ _ l, l_open l = false) (lanes s)) then Some (set_pc s TReturned) else None
  | TRecv | TReturned => None
  end.

(** * Lanes *)
(** The [select!] of a lane that handles nothing: its context is polled first,
    then its receiver.  With neither ready the lane sleeps, and polls both
    again when it is woken. *)
Definition lane_turn s (i : nat) l : option Task :=
  if l_open l then
    match l_running l with
    | Some _ => None
    | None =>
        Some (set_lane s i
          (if l_checked l then
             match l_queue l with
             | m :: queue => take_up l m queue
             | [] => if l_sender l then set_checked l false else close_lane l
             end
           else if live (assignments s) (l_token l) then set_checked l true else close_lane l))
    end
  else None.
(** [endpoint_request] returns, or panics and ends the lane's task. *)
Definition lane_returns s (i : nat) l (panics : bool) : option Task :=
  match l_running l with
  | Some m => Some (set_lane s i (if panics then close_lane (finish l m) else finish l m))
  | None => None
  end.
(** Acknowledging a message of a lane: [commit], [mark_message]. *)
Definition acknowledge_message s l m (store : Z → HandlerResult unit) : HandlerResult unit :=
  acknowledge (assignments s) (cm_partition m) (l_key l).2 (λ _, store (wrap_s 64 (cm_offset m + 1))).

Inductive Turn := WReceive (r : Received) | WTask (stopping : bool) | WLane (i : nat) | WReturns (i : nat) (panics : bool) | WStop.
Definition advance (restoring : bool) s (turn : Turn) : option Task :=
  match turn with
  | WReceive r => match tpc s with TRecv => on_received restoring s r | _ => None end
  | WTask stopping => task_turn s stopping
  | WLane i => l ← lanes s !! i; lane_turn s i l
  | WReturns i panics => l ← lanes s !! i; lane_returns s i l panics
  | WStop => Some (set_stop s)
  end.
Section steps.
Context (self_topic : string) (restoring : bool).
Inductive task_step s : Task → Prop :=
| ts_turn turn s' : advance restoring s turn = Some s' → task_step s s'
| ts_assignments a : checkpoint_step self_topic restoring (assignments s) a → task_step s (set_assignments s a).
End steps.

(** * Lemmas *)
(** ** Assignments *)
(** The generation is over for the partition, for good. *)
Definition lost (a : Assignments) (p g : Z) : Prop := ∀ t, partitions a !! p = Some (g, t) → live a t = false.
(** A context that lives is that of the assignment held. *)
Definition holds (a : Assignments) (p g t : Z) : Prop :=
  t < next_token a ∧ (live a t = true → partitions a !! p = Some (g, t)).
(** Cancellation is for good. *)
Definition older (a a' : Assignments) : Prop :=
  cancelled a ⊆ cancelled a' ∧ next_token a ≤ next_token a' ∧ (owner_cancelled a = true → owner_cancelled a' = true).
Lemma older_refl a : older a a.
Proof. by split_and!. Qed.
Lemma older_trans a b c : older a b → older b c → older a c.
Proof. intros (H1 & H2 & H3) (H4 & H5 & H6). split_and!; [set_solver|lia|auto]. Qed.
Lemma older_live a a' t : older a a' → live a' t = true → live a t = true.
Proof.
  unfold live. intros (H1 & _ & H3). rewrite !andb_true_iff, !negb_true_iff, !bool_decide_eq_true. intros [H4 H5].
  split; [|set_solver]. destruct (owner_cancelled a); [by rewrite H3 in H4|done].
Qed.
(** What is kept of an assignment: it stays, or its context is cancelled. *)
Definition keeps (a a' : Assignments) : Prop := older a a' ∧ retires a a'.
Lemma keeps_refl a : keeps a a.
Proof. split; [apply older_refl|done]. Qed.
Lemma keeps_trans a b c : keeps a b → keeps b c → keeps a c.
Proof.
  intros [H1 H2] [H3 H4]. split; [by eapply older_trans|by etrans].
Qed.
Lemma keeps_fields a a' :
  partitions a' = partitions a → cancelled a ⊆ cancelled a' → next_token a' = next_token a →
  (owner_cancelled a = true → owner_cancelled a' = true) → keeps a a'.
Proof. intros Hp Hc Hn Ho. split; [split_and!; [done|lia|done]|]. split; [done|]. rewrite Hp. auto. Qed.
Lemma keeps_drop_all a : keeps a (drop_all a).
Proof. split; [split_and!; cbn; [set_solver|lia|done]|apply retires_drop_all]. Qed.
Lemma keeps_drop a item : keeps a (drop_partition a item).
Proof.
  split; [|apply retires_drop]. unfold drop_partition.
  destruct (partitions a !! partition item) as [[g0 t0]|]; [|apply older_refl]. split_and!; cbn; [set_solver|lia|done].
Qed.
Lemma keeps_drops a items :
  keeps a (foldl drop_partition a items) ∧ ∀ item, item ∈ items → partitions (foldl drop_partition a items) !! partition item = None.
Proof.
  split.
  - induction items as [|i items IH] using rev_ind; [apply keeps_refl|]. rewrite foldl_snoc.
    eapply keeps_trans; [exact IH|apply keeps_drop].
  - intros item Hin. rewrite drop_partitions_lookup, decide_True; [done|]. apply list_elem_of_fmap. eauto.
Qed.
Lemma keeps_owns a items : (∀ item, item ∈ items → partitions a !! partition item = None) → keeps a (foldl own_partition a items).
Proof.
  intros Hn. assert (Hk : older a (foldl own_partition a items) ∧
    ∀ p x, partitions a !! p = Some x → partitions (foldl own_partition a items) !! p = Some x).
  { induction items as [|i items IH] using rev_ind; [split; [apply older_refl|done]|]. rewrite foldl_snoc.
    destruct IH as [Ho Hp]; [intros item Hi; apply Hn, elem_of_app; by left|].
    split; [eapply older_trans; [exact Ho|]; split_and!; cbn; [done|lia|done]|]. intros p x Hx. cbn.
    rewrite lookup_insert_ne; [by apply Hp|]. intros <-. rewrite Hn in Hx; [done|]. apply elem_of_app. right. by left. }
  split; [apply Hk|]. split; [apply Hk|]. intros p g t Hp. left. by apply Hk.
Qed.
Lemma keeps_step self_topic restoring a a' : checkpoint_step self_topic restoring a a' → keeps a a'.
Proof.
  assert (Hfail : ∀ a a1 e, keeps a a1 → keeps a (fail a1 e)).
  { intros b b1 e H. eapply keeps_trans; [exact H|]. apply keeps_fields; [done|cbn; set_solver|done|done]. }
  assert (Hbump : ∀ a, keeps a (bump_revision a)) by (intros b; by apply keeps_fields).
  assert (Hown : ∀ a b, keeps a (set_owner a b)) by (intros b1 b2; apply keeps_fields; try done; cbn; by intros ->).
  destruct 1 as [nat a event items|a|a]; [|apply Hown|by apply keeps_fields].
  unfold rebalance, apply. destruct event as [| |text].
  - destruct (check_assignment self_topic restoring nat a items) as [items'|e|]; [|cbn; apply Hfail, Hown|apply keeps_refl].
    destruct (keeps_drops (if cooperative nat then a else drop_all a) items') as [Hk Hn].
    assert (Hk' : keeps a (foldl drop_partition (if cooperative nat then a else drop_all a) items'))
      by (eapply keeps_trans; [|exact Hk]; destruct (cooperative nat); [apply keeps_refl|apply keeps_drop_all]).
    destruct (native_call nat _); cbn; [|by apply Hfail|done]. eapply keeps_trans; [exact Hk'|].
    eapply keeps_trans; [apply Hbump|]. by apply keeps_owns.
  - assert (Hk : keeps a (if cooperative nat then foldl drop_partition a items else drop_all a))
      by (destruct (cooperative nat); [apply keeps_drops|apply keeps_drop_all]).
    destruct (native_call nat _); cbn; [|by apply Hfail|done]. eapply keeps_trans; [exact Hk|apply Hbump].
  - cbn. apply Hfail, keeps_refl.
Qed.
Lemma keeps_holds a a' p g t : keeps a a' → holds a p g t → holds a' p g t.
Proof.
  intros [Ho [_ Hk]] [Hn Hp]. split; [destruct Ho as (_ & ? & _); lia|]. intros Hl.
  destruct (Hk p g t (Hp (older_live _ _ _ Ho Hl))) as [?|Ht]; [done|]. unfold live in Hl.
  apply andb_true_iff in Hl as [_ Hl%bool_decide_eq_true]. done.
Qed.
Lemma lost_step self_topic restoring n a a' p g :
  checkpoint_step self_topic restoring a a' → generations_ok n a → Z.of_nat n < 2 ^ 64 - 1 →
  g ≤ revision a → lost a p g → lost a' p g.
Proof.
  intros Hs Hok Hn Hg Hl t Hp. destruct (checkpoint_step_fenced _ _ n a a' Hs Hok Hn) as [_ [_ Hf]].
  specialize (Hl t (Hf p g t Hg Hp)). destruct (live a' t) eqn:Ht; [|done]. destruct (keeps_step _ _ _ _ Hs) as [Ho _].
  by rewrite (older_live _ _ _ Ho Ht) in Hl.
Qed.
Definition tokens_ok (a : Assignments) : Prop := ∀ p g t, partitions a !! p = Some (g, t) → t < next_token a.
Lemma tokens_ok_sub a a' : partitions a' ⊆ partitions a → next_token a ≤ next_token a' → tokens_ok a → tokens_ok a'.
Proof. intros Hp Hn Hok p g t Ht. specialize (Hok p g t (lookup_weaken _ _ _ _ Ht Hp)). lia. Qed.
Lemma tokens_ok_owns a items : tokens_ok a → tokens_ok (foldl own_partition a items).
Proof.
  intros Hok. induction items as [|i items IH] using rev_ind; [done|]. rewrite foldl_snoc. intros p g t. cbn.
  rewrite lookup_insert_Some. intros [(_ & [= _ <-])|[_ Hp%IH]]; lia.
Qed.
Lemma tokens_ok_step self_topic restoring a a' : checkpoint_step self_topic restoring a a' → tokens_ok a → tokens_ok a'.
Proof.
  intros Hs Hok. destruct Hs as [nat a event items|a|a]; [|exact Hok..]. unfold rebalance.
  destruct (apply self_topic restoring nat a event items) as [[r a1] calls] eqn:Ha.
  assert (tokens_ok a1) as H1; [|by destruct r]. unfold apply in Ha.
  assert (Hdrops : ∀ b its, tokens_ok b → tokens_ok (foldl drop_partition b its)).
  { intros b its Hb. destruct (shrinks_drops b its) as [Hp _]. destruct (keeps_drops b its) as [[(_ & Hn & _) _] _].
    by eapply tokens_ok_sub. }
  assert (Hall : tokens_ok (drop_all a)) by (intros p g t; cbn; by rewrite lookup_empty).
  destruct event; simplify_eq; try exact Hok.
  - destruct (check_assignment self_topic restoring nat a items) as [items'|e|]; simplify_eq; try exact Hok.
    assert (H : tokens_ok (foldl drop_partition (if cooperative nat then a else drop_all a) items'))
      by (apply Hdrops; by destruct (cooperative nat)).
    destruct (native_call nat _); simplify_eq; try exact H. by apply tokens_ok_owns.
  - assert (H : tokens_ok (if cooperative nat then foldl drop_partition a items else drop_all a))
      by (destruct (cooperative nat); [by apply Hdrops|done]).
    destruct (native_call nat _); simplify_eq; exact H.
Qed.

(** ** Lanes *)
Definition closing (g : TaskPc) : bool := match g with TJoin | TReturned => true | _ => false end.
Definition routes l m : Prop := (cm_topic m, cm_partition m) = (l_key l).1.
(** The messages of a lane: handled, being handled, and waiting. *)
Record flow l : Prop := {
  fl_open : l_open l = true → l_routed l = l_handled l ++ option_list (l_running l) ++ l_queue l;
  fl_prefix : l_handled l ++ option_list (l_running l) `prefix_of` l_routed l;
  fl_closed : l_open l = false → l_running l = None ∧ l_queue l = [];
  fl_routes : Forall (routes l) (l_routed l) }.
Record lane_ok (a : Assignments) l : Prop := {
  lo_generation : (l_key l).2 ≤ revision a;
  lo_holds : holds a (l_key l).1.2 (l_key l).2 (l_token l);
  lo_flow : flow l }.
Definition pc_ok s (g : TaskPc) : Prop :=
  match g with
  | TCheck m g t => holds (assignments s) (cm_partition m) g t ∧ g ≤ revision (assignments s)
  | TRoute m g t =>
      holds (assignments s) (cm_partition m) g t ∧ g ≤ revision (assignments s) ∧
      ∀ i l, lanes s !! i = Some l → l_key l = (cm_topic m, cm_partition m, g) → senders s !! l_key l = Some i
  | TSend m i => ∃ l, lanes s !! i = Some l ∧ routes l m
  | _ => True
  end.
Record task_inv (n : nat) s : Prop := {
  ti_generations : generations_ok n (assignments s);
  ti_tokens : tokens_ok (assignments s);
  ti_senders : ∀ k i, senders s !! k = Some i → ∃ l, lanes s !! i = Some l ∧ l_key l = k;
  ti_fresh : ∀ i, is_Some (lanes s !! i) → (i < next_lane s)%nat;
  ti_lanes : ∀ i l, lanes s !! i = Some l → lane_ok (assignments s) l;
  ti_sender : ∀ i l, lanes s !! i = Some l →
    senders s !! l_key l = Some i ∨ lost (assignments s) (l_key l).1.2 (l_key l).2 ∨ closing (tpc s) = true;
  ti_one : ∀ i l j l', lanes s !! i = Some l → lanes s !! j = Some l' → l_key l = l_key l' → i = j;
  ti_pc : pc_ok s (tpc s) }.
Lemma generations_mono n n' a : generations_ok n a → (n ≤ n')%nat → generations_ok n' a.
Proof. intros [H1 H2] Hn. split; [lia|done]. Qed.
(** The assignments move on. *)
Lemma inv_assignments n n' s a :
  task_inv n s → generations_ok n' a → tokens_ok a → keeps (assignments s) a → revision (assignments s) ≤ revision a →
  (∀ p g, g ≤ revision (assignments s) → lost (assignments s) p g → lost a p g) → task_inv n' (set_assignments s a).
Proof.
  intros [Hg Ht Hs Hf Hl Hse Ho Hp] Hg' Ht' Hk Hr Hlost. split; cbn; try done.
  - intros i l [H1 H2 H3]%Hl. split; [lia|by eapply keeps_holds|done].
  - intros i l Hi. destruct (Hse i l Hi) as [?|[?|?]]; auto. right. left. apply Hlost; [|done]. by apply Hl in Hi as [].
  - unfold pc_ok in *. destruct (tpc s); try done; cbn.
    + destruct Hp as [H1 H2]. split; [by eapply keeps_holds|lia].
    + destruct Hp as (H1 & H2 & H3). split_and!; [by eapply keeps_holds|lia|done].
Qed.
Lemma inv_still n s a :
  task_inv n s → partitions a = partitions (assignments s) → revision a = revision (assignments s) →
  cancelled a = cancelled (assignments s) → next_token a = next_token (assignments s) →
  (owner_cancelled (assignments s) = true → owner_cancelled a = true) → task_inv n (set_assignments s a).
Proof.
  intros Hi Hp Hr Hc Hn Ho. pose proof Hi as [[Hg1 Hg2] Ht _ _ _ _ _ _].
  assert (Hk : keeps (assignments s) a) by (apply keeps_fields; try done; set_solver).
  eapply inv_assignments; [exact Hi| | |exact Hk|lia|].
  - split; rewrite Hr; [done|]. rewrite Hp. done.
  - unfold tokens_ok. by rewrite Hp, Hn.
  - intros p g _ Hl t. rewrite Hp. intros Hpt. destruct (live a t) eqn:Hla; [|done].
    apply (older_live _ _ _ (proj1 Hk)) in Hla. by rewrite (Hl t Hpt) in Hla.
Qed.
(** A lane works, its key and its context stay. *)
Lemma inv_lane n s i l l' :
  task_inv n s → lanes s !! i = Some l → l_key l' = l_key l → l_token l' = l_token l → flow l' →
  task_inv n (set_lane s i l').
Proof.
  intros [Hg Ht Hs Hf Hl Hse Ho Hp] Hi Hk Htk Hfl.
  assert (Hlk : ∀ j x, <[i := l']> (lanes s) !! j = Some x → ∃ y, lanes s !! j = Some y ∧ l_key x = l_key y).
  { intros j x. rewrite lookup_insert_Some. intros [[<- <-]|[_ Hj]]; eauto. }
  split; cbn; try done.
  - intros k j Hj. destruct (Hs k j Hj) as (x & Hx & Hkx). destruct (decide (j = i)) as [->|Hne].
    + exists l'. rewrite lookup_insert_eq. simplify_eq. by rewrite Hk.
    + exists x. by rewrite lookup_insert_ne.
  - intros j. rewrite lookup_insert_is_Some. intros [<-|[_ Hj]]; apply Hf; eauto.
  - intros j x. rewrite lookup_insert_Some. intros [[<- <-]|[_ Hj]]; [|by eapply Hl].
    destruct (Hl i l Hi) as [H1 H2 _]. split; rewrite ?Hk, ?Htk; done.
  - intros j x (y & Hy & ->)%Hlk. by apply (Hse j y).
  - intros j x j' x' (y & Hy & ->)%Hlk (y' & Hy' & ->)%Hlk. by eapply Ho.
  - unfold pc_ok in *. destruct (tpc s) as [| | | | |m g t|m j| | | |]; try done; cbn.
    + destruct Hp as (H1 & H2 & H3). split_and!; [done|done|]. intros j x (y & Hy & ->)%Hlk. by eapply H3.
    + destruct Hp as (x & Hx & Hr). destruct (decide (j = i)) as [->|Hne].
      * exists l'. rewrite lookup_insert_eq. simplify_eq. split; [done|]. unfold routes in *. by rewrite Hk.
      * exists x. by rewrite lookup_insert_ne.
Qed.
Lemma task_inv_pc n s g : task_inv n s → pc_ok s g → closing (tpc s) = true → closing g = true → task_inv n (set_pc s g).
Proof.
  intros [Hg Ht Hs Hf Hl Hse Ho Hp] Hpc Hc Hc'. split; cbn; try done. auto.
Qed.
Lemma task_inv_goto n s g : task_inv n s → closing (tpc s) = false → pc_ok s g → task_inv n (set_pc s g).
Proof.
  intros [Hg Ht Hs Hf Hl Hse Ho Hp] Hc Hpc. split; cbn; try done.
  intros i l Hi. destruct (Hse i l Hi) as [?|[?|?]]; [by left|by right; left|congruence].
Qed.
Lemma inv_report n s e : task_inv n s → task_inv n (report s e).
Proof. by intros [? ? ? ? ? ? ? Hp]; split. Qed.
Lemma inv_revision n s z : task_inv n s → task_inv n (set_revision s z).
Proof. by intros [? ? ? ? ? ? ? Hp]; split. Qed.
Lemma flow_drop l : flow l → flow (drop_sender l).
Proof. by intros [? ? ? ?]; split. Qed.
Lemma inv_drop n s x i :
  task_inv n s → (∀ k j, x !! k = Some j → senders s !! k = Some j) →
  (∀ j l, lanes s !! j = Some l → senders s !! l_key l = Some j → x !! l_key l = Some j ∨
     lost (assignments s) (l_key l).1.2 (l_key l).2 ∨ closing (tpc s) = true) →
  (∀ m g t, tpc s ≠ TRoute m g t) →
  task_inv n (set_lanes s x (alter drop_sender i (lanes s))).
Proof.
  intros [Hg Ht Hs Hf Hl Hse Ho Hp] Hx Hk Hr.
  assert (Hlk : ∀ j y, alter drop_sender i (lanes s) !! j = Some y → ∃ z, lanes s !! j = Some z ∧ (y = z ∨ y = drop_sender z)).
  { intros j y. rewrite lookup_alter_Some. intros [(-> & z & Hz & ->)|[_ Hj]]; eauto. }
  assert (Hkl : ∀ j z, lanes s !! j = Some z → ∃ y, alter drop_sender i (lanes s) !! j = Some y ∧ l_key y = l_key z).
  { intros j z Hz. destruct (decide (j = i)) as [->|Hne]; [rewrite lookup_alter_eq, Hz|rewrite lookup_alter_ne by done]; eauto. }
  split; cbn; try done.
  - intros k j (z & Hz & <-)%Hx%Hs. by apply Hkl.
  - intros j [y (z & Hz & _)%Hlk]. apply Hf. eauto.
  - intros j y (z & Hz & Hy)%Hlk. destruct (Hl j z Hz) as [H1 H2 H3]. destruct Hy as [-> | ->]; split; try done. by apply flow_drop.
  - intros j y (z & Hz & Hy)%Hlk. assert (l_key y = l_key z) as -> by (by destruct Hy as [-> | ->]).
    destruct (Hse j z Hz) as [Hsz|[?|?]]; [|auto..]. by apply Hk.
  - intros j y j' y' (z & Hz & Hy)%Hlk (z' & Hz' & Hy')%Hlk Hkk. eapply Ho; [exact Hz|exact Hz'|].
    destruct Hy as [-> | ->], Hy' as [-> | ->]; exact Hkk.
  - unfold pc_ok in *. destruct (tpc s) as [| | | | |m g t|m j| | | |]; try done; [by destruct (Hr m g t)|]. cbn.
    destruct Hp as (z & Hz & Hrz). destruct (Hkl j z Hz) as (y & Hy & Hyk). exists y. split; [done|]. unfold routes in *. by rewrite Hyk.
Qed.
Lemma inv_break n s : task_inv n s → task_inv n (break s).
Proof.
  intros [Hg Ht Hs Hf Hl Hse Ho Hp]. split; cbn; try done.
  - intros i. rewrite lookup_fmap, fmap_is_Some. apply Hf.
  - intros i l. rewrite lookup_fmap, fmap_Some. intros (z & Hz & ->). destruct (Hl i z Hz) as [H1 H2 H3]. split; try done. by apply flow_drop.
  - auto.
  - intros i l j l'. rewrite !lookup_fmap, !fmap_Some. intros (z & Hz & ->) (z' & Hz' & ->). exact (Ho _ _ _ _ Hz Hz').
Qed.
Lemma inv_cancel n s : task_inv n s → task_inv n (cancel s).
Proof. intros Hi. apply inv_still; try done. cbn. by intros ->. Qed.
Lemma on_received_inv restoring n s r s' : task_inv n s → tpc s = TRecv → on_received restoring s r = Some s' → task_inv n s'.
Proof.
  intros Hi Hpc H. destruct r as [| | |m|e lost]; cbn in H.
  - destruct (stop s); simplify_eq. by apply inv_break.
  - destruct (owner_cancelled _); simplify_eq. by apply inv_break.
  - destruct (failed _); [|done]. injection H as <-.
    destruct (error (assignments s)); (apply task_inv_goto; [|by cbn; rewrite Hpc|done]);
      [apply inv_report|]; apply inv_still; cbn; auto.
  - injection H as <-. apply task_inv_goto; [done|by rewrite Hpc|done].
  - assert (Hi' : task_inv n (if ending s then s else report s e)) by (destruct (ending s); [done|by apply inv_report]).
    destruct (restoring && lost); simplify_eq; [|done]. apply task_inv_goto; [done|by destruct (ending s); cbn; rewrite Hpc|done].
Qed.
Lemma retain_inv n s k : task_inv n s → (∀ m g t, tpc s ≠ TRoute m g t) → task_inv n (retain s k).
Proof.
  intros Hi Hr. unfold retain. destruct (current (assignments s) k.1.2 k.2) eqn:Hc; [done|].
  destruct (senders s !! k) as [i|] eqn:Hk; [|done]. apply inv_drop; [done| | |done].
  - by intros k' j [_ ?]%lookup_delete_Some.
  - intros j l Hj Hs. destruct (decide (l_key l = k)) as [<-|Hne]; [|left; by rewrite lookup_delete_ne].
    right. left. intros t Hp. unfold current, get in Hc. rewrite Hp in Hc. rewrite bool_decide_true in Hc by done. exact Hc.
Qed.
Lemma open_lane_inv n s m g t :
  task_inv n s → tpc s = TRoute m g t →
  let '(i, s') := open_lane s m g t in task_inv n s' ∧ tpc s' = tpc s ∧ ∃ l, lanes s' !! i = Some l ∧ routes l m.
Proof.
  intros Hi Hpc. pose proof Hi as [Hg Ht Hs Hf Hl Hse Ho Hp]. rewrite Hpc in Hp. destruct Hp as (Hh & Hgr & Hown).
  unfold open_lane. destruct (senders s !! _) as [i|] eqn:Hk.
  - split_and!; [done|done|]. destruct (Hs _ _ Hk) as (l & Hli & Hlk). exists l. split; [done|]. unfold routes. by rewrite Hlk.
  - set (key := (cm_topic m, cm_partition m, g)) in *.
    assert (Hnew : lanes s !! next_lane s = None) by (apply eq_None_not_Some; intros ?%Hf; lia).
    assert (Hno : ∀ j x, lanes s !! j = Some x → l_key x ≠ key) by (intros j x Hx He; specialize (Hown j x Hx He); congruence).
    split_and!; [|done|cbn; eexists; split; [by apply lookup_insert_eq|done]]. split; cbn; try done.
    + intros k j. rewrite lookup_insert_Some. intros [[<- <-]|[Hne Hj]]; [eexists; split; [by apply lookup_insert_eq|done]|].
      destruct (Hs _ _ Hj) as (x & Hx & Hxk). exists x. rewrite lookup_insert_ne; [done|]. intros <-. congruence.
    + intros j. rewrite lookup_insert_is_Some. intros [<-|[_ ?%Hf]]; lia.
    + intros j x. rewrite lookup_insert_Some. intros [[<- <-]|[_ Hx]]; [|by eapply Hl]. split; [done|done|].
      split; cbn; try done; by constructor.
    + intros j x. rewrite lookup_insert_Some. intros [[<- <-]|[_ Hx]]; [left; by rewrite lookup_insert_eq|].
      rewrite lookup_insert_ne by (apply not_eq_sym; by eapply Hno). by apply Hse.
    + intros j x j' x'. rewrite !lookup_insert_Some. intros [[<- <-]|[_ Hx]] [[<- <-]|[_ Hx']] Hkk; try done.
      * by destruct (Hno j' x' Hx').
      * by destruct (Hno j x Hx).
      * by eapply Ho.
    + rewrite Hpc. split_and!; [done|done|]. intros j x. cbn. rewrite lookup_insert_Some.
      intros [[<- <-]|[_ Hx]] Hxk; [by rewrite lookup_insert_eq|]. by destruct (Hno j x Hx).
Qed.
Lemma task_turn_inv n s stopping s' : task_inv n s → task_turn s stopping = Some s' → task_inv n s'.
Proof.
  intros Hi H. pose proof Hi as [Hg Ht Hs Hf Hl Hse Ho Hp]. unfold task_turn in H.
  destruct (tpc s) as [|m|m [|k keys] rv|m|m g t|m g t|m i| | | |] eqn:Hpc; try done.
  - case_match; simplify_eq; (apply task_inv_goto; [done|by rewrite Hpc|done]).
  - injection H as <-. apply task_inv_goto; [by apply inv_revision|cbn; by rewrite Hpc|done].
  - injection H as <-. apply task_inv_goto; [apply retain_inv; [done|by rewrite Hpc]| |done].
    unfold retain. repeat case_match; cbn; by rewrite Hpc.
  - injection H as <-. destruct (get _ _) as [[g t]|] eqn:Hget; (apply task_inv_goto; [done|by rewrite Hpc|]); [|done].
    unfold get in Hget. split; [split; [by eapply Ht|done]|]. destruct Hg as [_ Hg]. by eapply Hg.
  - injection H as <-. destruct Hp as [Hh Hgr]. apply task_inv_goto; [done|by rewrite Hpc|].
    destruct (live _ t) eqn:Hlive; [|done]. split_and!; [done..|].
    intros i l Hli Hk. destruct (Hse i l Hli) as [?|[Hlost|Hc]]; [done| |done]. rewrite Hk in Hlost. cbn in Hlost.
    destruct Hh as [_ Hh]. by rewrite (Hlost _ (Hh Hlive)) in Hlive.
  - pose proof (open_lane_inv n s m g t Hi Hpc) as Hol. destruct (open_lane s m g t) as [i s1]. destruct Hol as (Hi1 & Hpc1 & Hex).
    injection H as <-. apply task_inv_goto; [done|by rewrite Hpc1, Hpc|done].
  - destruct stopping; [destruct (ending s); simplify_eq; by apply inv_break|].
    destruct (lanes s !! i) as [l|] eqn:Hli; [|done]. cbn in H. destruct (l_open l) eqn:Hop; [|simplify_eq; by apply inv_break].
    case_decide; simplify_eq. apply task_inv_goto; [|cbn; by rewrite Hpc|done]. eapply inv_lane; [done|exact Hli|done|done|].
    destruct Hp as (l0 & Hl0 & Hr). simplify_eq. destruct (lo_flow _ _ (Hl _ _ Hli)) as [H1 H2 H3 H4]. split; cbn.
    + intros Ho'. by rewrite (H1 Ho'), !app_assoc.
    + by apply prefix_app_r.
    + congruence.
    + apply Forall_app. split; [done|by constructor].
  - injection H as <-. apply task_inv_goto; [by apply inv_cancel|by cbn; rewrite Hpc|done].
  - injection H as <-. by apply inv_break.
  - case_decide; simplify_eq. apply task_inv_pc; [done|done|by rewrite Hpc|done].
Qed.
(** A lane's own turn, and the return of its handler, as updates of the lane. *)
Lemma lane_turn_flow s i l s' :
  flow l → lane_turn s i l = Some s' →
  ∃ l', s' = set_lane s i l' ∧ l_key l' = l_key l ∧ l_token l' = l_token l ∧ l_sender l' = l_sender l ∧ flow l'.
Proof.
  intros [H1 H2 H3 H4] H. unfold lane_turn in H. destruct (l_open l) eqn:Hop; [|done].
  destruct (l_running l) eqn:Hrn; [done|]. specialize (H1 eq_refl). injection H as <-.
  eexists. split; [done|]. assert (flow (close_lane l)) as Hcl by by split.
  assert (∀ b, flow (set_checked l b)) as Hch by (intros b; split; cbn; rewrite ?Hrn; congruence || done).
  destruct (l_checked l); [destruct (l_queue l) as [|m queue]; [destruct (l_sender l) eqn:Hsd|]|destruct (live _ _)];
    split_and!; try done.
  split; cbn; try done; [|congruence]. rewrite H1. cbn. apply prefix_app. by exists queue.
Qed.
Lemma lane_returns_flow s i l b s' :
  flow l → lane_returns s i l b = Some s' →
  ∃ l', s' = set_lane s i l' ∧ l_key l' = l_key l ∧ l_token l' = l_token l ∧ l_sender l' = l_sender l ∧ flow l'.
Proof.
  intros [H1 H2 H3 H4] H. unfold lane_returns in H. destruct (l_running l) as [m|] eqn:Hrn; [|done]. injection H as <-.
  eexists. split; [done|]. destruct b; split_and!; try done; split; cbn; try done; rewrite ?app_nil_r; try done.
  - intros Hop. rewrite (H1 Hop), <-app_assoc. done.
  - intros Hop. by destruct (H3 Hop).
Qed.
Lemma lane_turn_inv n s i l s' : task_inv n s → lanes s !! i = Some l → lane_turn s i l = Some s' → task_inv n s'.
Proof.
  intros Hi Hli H. apply lane_turn_flow in H as (l' & -> & ? & ? & _ & ?); [by eapply inv_lane|].
  exact (lo_flow _ _ (ti_lanes _ _ Hi _ _ Hli)).
Qed.
Lemma lane_returns_inv n s i l b s' :
  task_inv n s → lanes s !! i = Some l → lane_returns s i l b = Some s' → task_inv n s'.
Proof.
  intros Hi Hli H. apply lane_returns_flow in H as (l' & -> & ? & ? & _ & ?); [by eapply inv_lane|].
  exact (lo_flow _ _ (ti_lanes _ _ Hi _ _ Hli)).
Qed.
Lemma advance_inv restoring n s turn s' : advance restoring s turn = Some s' → task_inv n s → task_inv n s'.
Proof.
  intros H Hi. destruct turn as [r|stopping|i|i b|]; cbn in H.
  - destruct (tpc s) eqn:Hpc; try done. by eapply on_received_inv.
  - by eapply task_turn_inv.
  - destruct (lanes s !! i) as [l|] eqn:Hl; [|done]. by eapply lane_turn_inv.
  - destruct (lanes s !! i) as [l|] eqn:Hl; [|done]. by eapply lane_returns_inv.
  - injection H as <-. by destruct Hi; split.
Qed.
Lemma task_step_inv self_topic restoring n s s' :
  task_step self_topic restoring s s' → task_inv n s → Z.of_nat n < 2 ^ 64 - 1 → task_inv (S n) s'.
Proof.
  intros Hst Hi Hn. destruct Hst as [turn s' H|a Ha].
  - destruct (advance_inv _ _ _ _ _ H Hi) as [? ? ? ? ? ? ? ?]. split; try done. eapply generations_mono; [done|lia].
  - pose proof Hi as [Hg Ht _ _ _ _ _ _]. destruct (checkpoint_step_fenced _ _ n _ _ Ha Hg Hn) as [Hg' [Hr _]].
    eapply inv_assignments; [done|done|by eapply tokens_ok_step|by eapply keeps_step|done|].
    intros p g Hgr Hl. by eapply lost_step.
Qed.
Lemma task_inv_new : task_inv 0 task_new.
Proof.
  split; cbn; try done; try (by intros ? ?; rewrite lookup_empty). by intros ? [].
Qed.
Lemma task_inv_reachable self_topic restoring n s :
  nsteps (task_step self_topic restoring) n task_new s → Z.of_nat n < 2 ^ 64 → task_inv n s.
Proof.
  revert s. induction n as [|n IH]; intros s Hs Hn; [inversion Hs; apply task_inv_new|].
  apply nsteps_inv_r in Hs as (s1 & Hs1 & Hst). eapply task_step_inv; [exact Hst|apply IH; [done|lia]|lia].
Qed.

(** ** The end of the task *)
Definition severed s : Prop := closing (tpc s) = true → ∀ i l, lanes s !! i = Some l → l_sender l = false.
Lemma severed_lane s i l l' :
  severed s → lanes s !! i = Some l → l_sender l' = l_sender l → severed (set_lane s i l').
Proof.
  intros Hs Hi Hl Hc j x. cbn. rewrite lookup_insert_Some. intros [[<- <-]|[_ Hj]]; [rewrite Hl|]; by eapply Hs.
Qed.
Lemma severed_break s : severed (break s).
Proof. intros _ i l. cbn. rewrite lookup_fmap, fmap_Some. by intros (z & _ & ->). Qed.
Lemma severed_lane_turn s i l s' : severed s → lanes s !! i = Some l → lane_turn s i l = Some s' → severed s'.
Proof.
  intros Hs Hl H. unfold lane_turn in H. repeat case_match; simplify_eq; (eapply severed_lane; [done..|]); by cbn.
Qed.
Lemma severed_lane_returns s i l b s' : severed s → lanes s !! i = Some l → lane_returns s i l b = Some s' → severed s'.
Proof. intros Hs Hl H. unfold lane_returns in H. repeat case_match; simplify_eq; by eapply severed_lane. Qed.
Lemma severed_open s g : closing g = false → severed (set_pc s g).
Proof. intros Hg Hc. cbn in Hc. by rewrite Hg in Hc. Qed.
Lemma severed_step self_topic restoring s s' : task_step self_topic restoring s s' → severed s → severed s'.
Proof.
  intros [turn s1 H|a _] Hs; [|done]. destruct turn as [r|stopping|i|i b|]; cbn in H.
  - destruct (tpc s) eqn:Hpc; try done.
    assert (Hnc : ∀ x, tpc x = tpc s → severed x) by (intros x Hx Hc; by rewrite Hx, Hpc in Hc).
    destruct r as [| | |m|e lost]; cbn in H; repeat case_match; simplify_eq;
      first [apply severed_break|by apply severed_open|by apply Hnc].
  - unfold task_turn in H. destruct (tpc s) as [|m|m [|k keys] rv|m|m g t|m g t|m i| | | |] eqn:Hpc; try done;
      try (repeat case_match; simplify_eq; first [by apply severed_open|apply severed_break]).
    + destruct stopping; [destruct (ending s); simplify_eq; apply severed_break|].
      destruct (lanes s !! i) as [l|]; [|done]. cbn in H. repeat case_match; simplify_eq; first [by apply severed_open|apply severed_break].
    + case_decide; simplify_eq. intros _ i l Hi. apply (Hs ltac:(by rewrite Hpc) i l Hi).
  - destruct (lanes s !! i) as [l|] eqn:Hl; [|done]. by eapply severed_lane_turn.
  - destruct (lanes s !! i) as [l|] eqn:Hl; [|done]. by eapply severed_lane_returns.
  - by injection H as <-.
Qed.
(** The moves of the task and of its lanes themselves, and with them the
    returns of [endpoint_request]. *)
Definition own_moves (restoring : bool) s s' : Prop :=
  ∃ turn, match turn with WTask _ | WLane _ => True | _ => False end ∧ advance restoring s turn = Some s'.
Definition moves (restoring : bool) s s' : Prop :=
  own_moves restoring s s' ∨ ∃ i b, advance restoring s (WReturns i b) = Some s'.
Lemma moves_advance restoring s s' : moves restoring s s' → ∃ turn, advance restoring s turn = Some s'.
Proof. intros [(turn & _ & H)|(i & b & H)]; eauto. Qed.
Definition lane_weight l : nat :=
  if l_open l then 2 + 3 * length (l_queue l) + (if l_running l then 1 else 0) + (if l_checked l then 0 else 1) else 0.
Definition weight s : nat :=
  total lane_weight (lanes s) + (match tpc s with TReturned => 0 | _ => 1 end).
Lemma weight_lane s i l l' :
  lanes s !! i = Some l → (lane_weight l' < lane_weight l)%nat → (weight (set_lane s i l') < weight s)%nat.
Proof. intros Hl Hlt. unfold weight. cbn. pose proof (total_update lane_weight (lanes s) i l l' Hl). lia. Qed.
Lemma lane_turn_weight s i l s' :
  lanes s !! i = Some l → l_sender l = false → lane_turn s i l = Some s' → (weight s' < weight s)%nat ∧ tpc s' = tpc s.
Proof.
  intros Hl Hse H. unfold lane_turn in H. destruct (l_open l) eqn:Hop; [|done]. destruct (l_running l) eqn:Hr; [done|].
  injection H as <-. split; [|done]. eapply weight_lane; [exact Hl|]. rewrite Hse. unfold lane_weight. rewrite Hop, Hr.
  destruct (l_checked l); [destruct (l_queue l) as [|m queue]|destruct (live _ _)]; cbn; rewrite ?Hop, ?Hr; lia.
Qed.
Lemma lane_returns_weight s i l b s' :
  flow l → lanes s !! i = Some l → lane_returns s i l b = Some s' → (weight s' < weight s)%nat ∧ tpc s' = tpc s.
Proof.
  intros [_ _ Hcl _] Hl H. unfold lane_returns in H. destruct (l_running l) as [m|] eqn:Hr; [|done]. injection H as <-.
  split; [|done]. eapply weight_lane; [exact Hl|]. unfold lane_weight. destruct (l_open l) eqn:Hop; [|by destruct Hcl].
  rewrite Hr. destruct b; cbn; rewrite ?Hop; lia.
Qed.
Lemma moves_weight restoring n s s' :
  task_inv n s → severed s → closing (tpc s) = true → moves restoring s s' →
  (weight s' < weight s)%nat ∧ closing (tpc s') = true.
Proof.
  intros Hi Hs Hc [(turn & Ht & H)|(i & b & H)]; [destruct turn as [r|stopping|i|i b|]; try done|]; cbn in H.
  - unfold task_turn in H. destruct (tpc s) eqn:Hpc; try done. case_decide; simplify_eq. unfold weight. cbn. rewrite Hpc. split; [lia|done].
  - destruct (lanes s !! i) as [l|] eqn:Hl; [|done]. cbn in H.
    destruct (lane_turn_weight s i l s' Hl (Hs Hc i l Hl) H) as [? ->]. done.
  - destruct (lanes s !! i) as [l|] eqn:Hl; [|done]. cbn in H.
    destruct (lane_returns_weight s i l b s' (lo_flow _ _ (ti_lanes _ _ Hi _ _ Hl)) Hl H) as [? ->]. done.
Qed.
(** An idle lane has a move. *)
Lemma lane_idle restoring s i l :
  lanes s !! i = Some l → l_open l = true → l_running l = None → ∃ s', own_moves restoring s s'.
Proof.
  intros Hl Hop Hr. destruct (lane_turn s i l) as [s'|] eqn:H.
  - exists s', (WLane i). split; [done|]. cbn. rewrite Hl. exact H.
  - unfold lane_turn in H. by rewrite Hop, Hr in H.
Qed.
(** A task without a move of its own has joined every lane, or waits for a
    handler. *)
Lemma moves_stuck restoring s :
  closing (tpc s) = true → (∀ s', ¬ own_moves restoring s s') →
  (tpc s = TReturned ∨ tpc s = TJoin ∧ ∃ i l, lanes s !! i = Some l ∧ l_open l = true) ∧
  map_Forall (λ _ l, l_open l = true → is_Some (l_running l)) (lanes s).
Proof.
  intros Hc Hn. split.
  - destruct (tpc s) eqn:Hpc; try done; [|by left]. right. split; [done|].
    destruct (decide (map_Forall (λ _ l, l_open l = false) (lanes s))) as [Hall|Hnot].
    + exfalso. eapply Hn. exists (WTask false). split; [done|]. cbn. unfold task_turn. by rewrite Hpc, decide_True.
    + apply map_not_Forall in Hnot; [|apply _]. destruct Hnot as (i & l & Hl & Hop). exists i, l.
      split; [done|]. by destruct (l_open l).
  - intros i l Hl Hop. destruct (l_running l) eqn:Hr; [done|]. destruct (lane_idle restoring s i l Hl Hop Hr) as [s' Hs'].
    by destruct (Hn s').
Qed.
(** A task that has returned has joined its lanes. *)
Definition joined s : Prop := tpc s = TReturned → map_Forall (λ _ l, l_open l = false) (lanes s).
Lemma joined_lane s i l l' :
  joined s → lanes s !! i = Some l → (l_open l = false → l_open l' = false) → joined (set_lane s i l').
Proof.
  intros Hj Hl Hop Hpc j x. cbn. rewrite lookup_insert_Some. intros [[<- <-]|[_ Hx]]; [apply Hop|]; by eapply Hj.
Qed.
Lemma joined_step self_topic restoring s s' : task_step self_topic restoring s s' → joined s → joined s'.
Proof.
  intros [turn s1 H|a _] Hj; [|done]. destruct turn as [r|stopping|i|i b|]; cbn in H.
  - destruct (tpc s) eqn:Hpc; try done. intros Hr. exfalso.
    destruct r as [| | |m|e lost]; cbn in H; repeat case_match; simplify_eq; cbn in Hr; congruence.
  - unfold task_turn in H. destruct (tpc s) as [|m|m [|k keys] rv|m|m g t|m g t|m i| | | |] eqn:Hpc; try done;
      try (intros Hr; exfalso; repeat case_match; simplify_eq; cbn in Hr; congruence).
    + intros Hr. exfalso. destruct stopping; [destruct (ending s); by simplify_eq|].
      destruct (lanes s !! i) as [l|]; [|done]. cbn in H. repeat case_match; by simplify_eq.
    + case_decide as Hall; simplify_eq. intros _. exact Hall.
  - destruct (lanes s !! i) as [l|] eqn:Hl; [|done]. cbn in H. unfold lane_turn in H.
    destruct (l_open l) eqn:Hop; [|done]. destruct (l_running l); [done|]. injection H as <-.
    eapply joined_lane; [done|exact Hl|congruence].
  - destruct (lanes s !! i) as [l|] eqn:Hl; [|done]. cbn in H. unfold lane_returns in H.
    destruct (l_running l); [|done]. injection H as <-. eapply joined_lane; [done|exact Hl|by destruct b].
  - by injection H as <-.
Qed.
Lemma closing_step self_topic restoring s s' :
  task_step self_topic restoring s s' → closing (tpc s) = true → closing (tpc s') = true.
Proof.
  intros [turn s1 H|a _] Hc; [|done]. destruct turn as [r|stopping|i|i b|]; cbn in H.
  - by destruct (tpc s).
  - unfold task_turn in H. destruct (tpc s); try done. case_decide; by simplify_eq.
  - destruct (lanes s !! i) as [l|]; [|done]. cbn in H. unfold lane_turn in H. repeat case_match; by simplify_eq.
  - destruct (lanes s !! i) as [l|]; [|done]. cbn in H. unfold lane_returns in H. repeat case_match; by simplify_eq.
  - by injection H as <-.
Qed.
Lemma reachable_keeps self_topic restoring (P : Task → Prop) n s s' :
  (∀ x y, task_step self_topic restoring x y → P x → P y) →
  nsteps (task_step self_topic restoring) n s s' → P s → P s'.
Proof. intros HP Hs. induction Hs as [|n x y z Hxy _ IH]; [done|]. intros Hx. by eapply IH, HP. Qed.

(** ** A lane of a lost assignment *)
(** What becomes of a lane whose context is cancelled: it takes up a message
    only if it had checked its context before. *)
Definition wound_down l l' : Prop :=
  l_key l' = l_key l ∧ l_token l' = l_token l ∧
  ∃ extra, taken l' = taken l ++ extra ∧ (length extra + (if l_checked l' then 1 else 0) ≤ if l_checked l then 1 else 0)%nat.
Lemma wound_down_refl l : wound_down l l.
Proof. split_and!; [done..|]. exists []. by rewrite app_nil_r. Qed.
Lemma wound_down_trans l1 l2 l3 : wound_down l1 l2 → wound_down l2 l3 → wound_down l1 l3.
Proof.
  intros (H1 & H2 & e & H3 & H4) (H5 & H6 & e' & H7 & H8). split_and!; [congruence..|]. exists (e ++ e').
  rewrite H7, H3, app_assoc, length_app. split; [done|lia].
Qed.
Lemma wound_down_same l l' :
  l_key l' = l_key l → l_token l' = l_token l → taken l' = taken l → l_checked l' = l_checked l → wound_down l l'.
Proof. intros H1 H2 H3 H4. split_and!; [done..|]. exists []. rewrite H3, H4, app_nil_r. done. Qed.
Lemma wound_down_close l l' :
  l_key l' = l_key l → l_token l' = l_token l → taken l' = taken l → l_checked l' = false → wound_down l l'.
Proof. intros H1 H2 H3 H4. split_and!; [done..|]. exists []. rewrite H3, H4, app_nil_r. split; [done|]. cbn. lia. Qed.
Lemma wound_down_turn s i l s' :
  live (assignments s) (l_token l) = false → lane_turn s i l = Some s' → ∃ l', s' = set_lane s i l' ∧ wound_down l l'.
Proof.
  intros Hdead H. unfold lane_turn in H. destruct (l_open l); [|done]. destruct (l_running l) eqn:Hr; [done|].
  injection H as <-. eexists. split; [done|]. rewrite Hdead.
  destruct (l_checked l) eqn:Hch; [destruct (l_queue l) as [|m queue]; [destruct (l_sender l)|]|];
    try (apply wound_down_close; try done; unfold taken; cbn; by rewrite Hr).
  split_and!; [done..|]. exists [m]. unfold taken. cbn. rewrite Hr, Hch, app_nil_r. done.
Qed.
Lemma wound_down_returns s i l b s' : lane_returns s i l b = Some s' → ∃ l', s' = set_lane s i l' ∧ wound_down l l'.
Proof.
  intros H. unfold lane_returns in H. destruct (l_running l) as [m|] eqn:Hr; [|done]. injection H as <-.
  eexists. split; [done|]. destruct b; [apply wound_down_close|apply wound_down_same]; try done; unfold taken; cbn;
    rewrite Hr; by rewrite app_nil_r.
Qed.
(** Lanes are never dropped from the set the task joins, and only their own
    turns take up messages. *)
Definition lane_follows s s' (i : nat) : Prop :=
  ∀ l, lanes s !! i = Some l → ∃ l', lanes s' !! i = Some l' ∧ wound_down l l'.
Lemma follows_same s s' i : lanes s' = lanes s → lane_follows s s' i.
Proof. intros He l Hl. rewrite He. eauto using wound_down_refl. Qed.
Lemma follows_drop s x i j : lane_follows s (set_lanes s x (alter drop_sender j (lanes s))) i.
Proof.
  intros l Hl. cbn. destruct (decide (i = j)) as [->|Hne].
  - rewrite lookup_alter_eq, Hl. eexists. split; [done|]. by apply wound_down_same.
  - rewrite lookup_alter_ne by done. eauto using wound_down_refl.
Qed.
Lemma follows_break s i : lane_follows s (break s) i.
Proof. intros l Hl. cbn. rewrite lookup_fmap, Hl. eexists. split; [done|]. by apply wound_down_same. Qed.
Lemma follows_set s i j x y : lanes s !! j = Some x → wound_down x y → lane_follows s (set_lane s j y) i.
Proof.
  intros Hx Hy l Hl. cbn. destruct (decide (i = j)) as [->|Hne].
  - simplify_eq. rewrite lookup_insert_eq. eauto.
  - rewrite lookup_insert_ne by done. eauto using wound_down_refl.
Qed.
Lemma follows_task n s stopping s' i : task_inv n s → task_turn s stopping = Some s' → lane_follows s s' i.
Proof.
  intros Hi H. unfold task_turn in H.
  destruct (tpc s) as [|m|m [|k keys] rv|m|m g t|m g t|m j| | | |] eqn:Hpc; try done.
  - case_match; simplify_eq; by apply follows_same.
  - injection H as <-. by apply follows_same.
  - injection H as <-. unfold retain. destruct (current _ _ _); [by apply follows_same|].
    destruct (senders s !! k) as [j|]; [apply follows_drop|by apply follows_same].
  - case_match; [case_match|]; simplify_eq; by apply follows_same.
  - injection H as <-. by apply follows_same.
  - unfold open_lane in H. destruct (senders s !! _) as [j|]; injection H as <-; [by apply follows_same|].
    intros l Hl. cbn. exists l. split; [|apply wound_down_refl]. rewrite lookup_insert_ne; [done|].
    intros <-. pose proof (ti_fresh _ _ Hi (next_lane s) (mk_is_Some _ _ Hl)). lia.
  - destruct stopping; [destruct (ending s); simplify_eq; apply follows_break|].
    destruct (lanes s !! j) as [x|] eqn:Hx; [|done]. cbn in H. destruct (l_open x); [|simplify_eq; apply follows_break].
    case_decide; simplify_eq. intros l Hl. eapply follows_set; [exact Hx|by apply wound_down_same|exact Hl].
  - injection H as <-. by apply follows_same.
  - injection H as <-. apply follows_break.
  - case_decide; simplify_eq. by apply follows_same.
Qed.
Lemma follows_received restoring s r s' i : on_received restoring s r = Some s' → lane_follows s s' i.
Proof.
  intros H. destruct r as [| | |m|e lost]; cbn in H; repeat case_match; simplify_eq;
    first [by apply follows_same|apply follows_break].
Qed.
Lemma follows_step self_topic restoring n s s' i l :
  task_step self_topic restoring s s' → task_inv n s → lanes s !! i = Some l →
  live (assignments s) (l_token l) = false → ∃ l', lanes s' !! i = Some l' ∧ wound_down l l'.
Proof.
  intros [turn s1 H|a _] Hi Hl Hdead; [|by apply (follows_same s (set_assignments s a) i)].
  destruct turn as [r|stopping|j|j b|]; cbn in H.
  - destruct (tpc s); try done. by eapply follows_received.
  - by eapply follows_task.
  - destruct (lanes s !! j) as [x|] eqn:Hx; [|done]. cbn in H. destruct (decide (j = i)) as [->|Hne].
    + rewrite Hl in Hx. injection Hx as <-.
      destruct (wound_down_turn _ _ _ _ Hdead H) as (l' & -> & Hw). by apply (follows_set s i i l l').
    + unfold lane_turn in H. repeat case_match; simplify_eq; cbn; rewrite lookup_insert_ne by done; eauto using wound_down_refl.
  - destruct (lanes s !! j) as [x|] eqn:Hx; [|done]. cbn in H.
    destruct (wound_down_returns _ _ _ _ _ H) as (l' & -> & Hw). by apply (follows_set s i j x l').
  - injection H as <-. by apply (follows_same s (set_stop s) i).
Qed.
(** * Properties *)
Section properties.
Context (self_topic : string) (restoring : bool).
Notation steps := (nsteps (task_step self_topic restoring)).

(** C23: a lane keeps the order of its messages.  There is at most one lane
    for a topic, a partition and a generation of its assignment, however the
    assignments changed meanwhile, and what that lane has handled, is handling
    (at most one message) and has waiting is, in this order, what was routed to
    it; a lane that gave up has handled a prefix.  Of the lanes of one
    partition, which belong to different generations, at most one has a live
    context; the others may only be finishing what they took up. *)
Theorem kafka_lane_order n s i l :
  steps n task_new s → Z.of_nat n < 2 ^ 64 → lanes s !! i = Some l →
  (l_open l = true → l_routed l = l_handled l ++ option_list (l_running l) ++ l_queue l) ∧
  l_handled l ++ option_list (l_running l) `prefix_of` l_routed l ∧
  Forall (λ m, (cm_topic m, cm_partition m) = (l_key l).1) (l_routed l) ∧
  (∀ j l', lanes s !! j = Some l' → l_key l' = l_key l → j = i) ∧
  (∀ j l', lanes s !! j = Some l' → (l_key l').1 = (l_key l).1 →
     live (assignments s) (l_token l) = true → live (assignments s) (l_token l') = true → j = i).
Proof.
  intros Hs Hn Hl. pose proof (task_inv_reachable _ _ _ _ Hs Hn) as Hi.
  destruct (lo_flow _ _ (ti_lanes _ _ Hi _ _ Hl)) as [H1 H2 _ H4]. split_and!; try done.
  - intros j l' Hj Hk. by eapply (ti_one _ _ Hi).
  - intros j l' Hj Hk Ht Ht'. destruct (ti_lanes _ _ Hi _ _ Hl) as [_ [_ Hh] _].
    destruct (ti_lanes _ _ Hi _ _ Hj) as [_ [_ Hh'] _]. specialize (Hh Ht). specialize (Hh' Ht'). rewrite Hk, Hh in Hh'.
    eapply (ti_one _ _ Hi); [exact Hj|exact Hl|]. destruct (l_key l) as [x g], (l_key l') as [x' g']. cbn in *. congruence.
Qed.

(** The messages of a lane are of its partition. *)
Lemma acknowledge_lane n s i l m store :
  task_inv n s → lanes s !! i = Some l → m ∈ l_routed l →
  acknowledge_message s l m store =
    if failed (assignments s) || negb (current (assignments s) (l_key l).1.2 (l_key l).2)
    then Err "Kafka message belongs to a revoked assignment" else store (wrap_s 64 (cm_offset m + 1)).
Proof.
  intros Hi Hl Hm. destruct (ti_lanes _ _ Hi _ _ Hl) as [_ _ [_ _ _ Hr]].
  rewrite Forall_forall in Hr. specialize (Hr m Hm). unfold acknowledge_message, acknowledge.
  by replace (cm_partition m) with (l_key l).1.2 by (by rewrite <-Hr).
Qed.
Lemma current_lost a p g : current a p g = false → lost a p g.
Proof. unfold current, get. intros H t Hp. rewrite Hp, bool_decide_true in H by done. exact H. Qed.
Lemma lost_current a p g : lost a p g → current a p g = false.
Proof.
  unfold current, get. intros H. destruct (partitions a !! p) as [[g' t]|] eqn:Hp; [|done].
  case_bool_decide; [subst; by apply H|done].
Qed.
(** A lane of a lost assignment stays so. *)
Definition fenced_off (p g t : Z) s : Prop := lost (assignments s) p g ∧ live (assignments s) t = false ∧ g ≤ revision (assignments s).
Lemma advance_older s turn s' : advance restoring s turn = Some s' →
  partitions (assignments s') = partitions (assignments s) ∧ revision (assignments s') = revision (assignments s) ∧
  older (assignments s) (assignments s').
Proof.
  assert (Hr : ∀ a, older a (take_error a).2) by (intros a; by split_and!).
  assert (Hc : ∀ a, older a (set_owner a true)) by (intros a; split_and!; cbn; [done|lia|by intros ->]).
  intros H. destruct turn as [r|stopping|i|i b|]; cbn in H.
  - destruct (tpc s); try done.
    destruct r as [| | |m|e lost]; cbn in H; repeat case_match; simplify_eq; split_and!; try done; first [apply older_refl|apply Hr].
  - unfold task_turn in H. destruct (tpc s) as [|m|m [|k keys] rv|m|m g t|m g t|m j| | | |] eqn:Hpc; try done.
    7: destruct stopping; [|destruct (lanes s !! j) as [x|]; [cbn in H|done]].
    all: unfold open_lane, retain in H; repeat case_match; simplify_eq; split_and!; try done; first [apply older_refl|apply Hc].
  - destruct (lanes s !! i) as [l|]; [|done]. cbn in H. unfold lane_turn in H. repeat case_match; simplify_eq; (split_and!; [done..|apply older_refl]).
  - destruct (lanes s !! i) as [l|]; [|done]. cbn in H. unfold lane_returns in H. repeat case_match; simplify_eq; (split_and!; [done..|apply older_refl]).
  - injection H as <-. split_and!; [done..|apply older_refl].
Qed.
Lemma fenced_off_step n s s' p g t :
  task_step self_topic restoring s s' → task_inv n s → Z.of_nat n < 2 ^ 64 - 1 → fenced_off p g t s → fenced_off p g t s'.
Proof.
  assert (Hdead : ∀ a a' t, older a a' → live a t = false → live a' t = false).
  { intros a a' t' Ho Hl. destruct (live a' t') eqn:H; [|done]. by rewrite (older_live _ _ _ Ho H) in Hl. }
  intros [turn s1 H|a Ha] Hi Hn (Hl & Ht & Hg).
  - destruct (advance_older _ _ _ H) as (Hp & Hr & Ho). split_and!; [|by eapply Hdead|by rewrite Hr].
    intros t'. rewrite Hp. intros Hp'. eapply Hdead; [exact Ho|by apply Hl].
  - pose proof (ti_generations _ _ Hi) as Hgo. split_and!; cbn.
    + by eapply lost_step.
    + eapply Hdead; [|exact Ht]. by eapply keeps_step.
    + destruct (checkpoint_step_fenced _ _ n _ _ Ha Hgo Hn) as [_ [Hr _]]. lia.
Qed.
Lemma fenced_off_steps n k s s' i l :
  steps k s s' → task_inv n s → Z.of_nat (n + k) < 2 ^ 64 → lanes s !! i = Some l →
  fenced_off (l_key l).1.2 (l_key l).2 (l_token l) s →
  task_inv (n + k) s' ∧ fenced_off (l_key l).1.2 (l_key l).2 (l_token l) s' ∧
  ∃ l', lanes s' !! i = Some l' ∧ wound_down l l'.
Proof.
  intros Hs. revert n l. induction Hs as [s|k s s1 s2 Hs1 _ IH]; intros n l Hi Hn Hl Hf.
  - rewrite Nat.add_0_r. eauto using wound_down_refl.
  - destruct (follows_step _ _ _ _ _ i l Hs1 Hi Hl) as (l1 & Hl1 & Hw); [apply Hf|].
    pose proof (fenced_off_step _ _ _ _ _ _ Hs1 Hi ltac:(lia) Hf) as Hf1.
    pose proof (task_step_inv _ _ _ _ _ Hs1 Hi ltac:(lia)) as Hi1. pose proof Hw as (Hk & Ht & _).
    destruct (IH (S n) l1 Hi1 ltac:(lia) Hl1) as (Hi2 & Hf2 & l2 & Hl2 & Hw2); [by rewrite Hk, Ht|].
    rewrite Hk, Ht in Hf2. replace (n + S k)%nat with (S n + k)%nat by lia. split_and!; [done..|].
    exists l2. split; [done|]. by eapply wound_down_trans.
Qed.

(** C24: lanes are fenced by their assignment.  A lane takes up a message only
    after it has checked its partition's context, and the check succeeds only
    while the assignment the lane belongs to is held: at that moment its
    generation is current for the partition, and an acknowledgement stores the
    offset after the message, unless the consumer has failed.  Once the
    assignment is lost, whatever happens next, the lane takes up at most one
    more message, and none unless it had made its check before the loss; and
    every acknowledgement of its messages is refused, without storing an
    offset. *)
Theorem kafka_lane_fenced n s i l :
  steps n task_new s → Z.of_nat n < 2 ^ 64 → lanes s !! i = Some l →
  (∀ s' l', advance restoring s (WLane i) = Some s' → lanes s' !! i = Some l' →
     (taken l' ≠ taken l → l_checked l = true) ∧
     (l_checked l = false → l_checked l' = true →
        current (assignments s) (l_key l).1.2 (l_key l).2 = true ∧
        ∀ m store, m ∈ l_routed l → failed (assignments s) = false →
          acknowledge_message s l m store = store (wrap_s 64 (cm_offset m + 1)))) ∧
  (current (assignments s) (l_key l).1.2 (l_key l).2 = false →
   ∀ k s', steps k s s' → Z.of_nat (n + k) < 2 ^ 64 →
     ∃ l' extra, lanes s' !! i = Some l' ∧ taken l' = taken l ++ extra ∧
       (length extra ≤ if l_checked l then 1 else 0)%nat ∧
       ∀ m store, m ∈ l_routed l' →
         acknowledge_message s' l' m store = Err "Kafka message belongs to a revoked assignment").
Proof.
  intros Hs Hn Hl. pose proof (task_inv_reachable _ _ _ _ Hs Hn) as Hi.
  pose proof (ti_lanes _ _ Hi _ _ Hl) as [Hgen [_ Hh] _]. split.
  - intros s' l' H Hl'. cbn in H. rewrite Hl in H. cbn in H. unfold lane_turn in H.
    destruct (l_open l); [|done]. destruct (l_running l) eqn:Hr; [done|]. injection H as <-. cbn in Hl'.
    rewrite lookup_insert_eq in Hl'. injection Hl' as <-. destruct (l_checked l) eqn:Hch; [done|].
    destruct (live (assignments s) (l_token l)) eqn:Hlive.
    + split; [done|]. intros _ _. assert (current (assignments s) (l_key l).1.2 (l_key l).2 = true) as Hc.
      { unfold current, get. by rewrite (Hh eq_refl), Hlive, bool_decide_true. }
      split; [done|]. intros m store Hm Hf. by rewrite (acknowledge_lane n s i), Hf, Hc.
    + split; [|done]. unfold taken. cbn. by rewrite Hr.
  - intros Hc%current_lost k s' Hk Hnk. assert (fenced_off (l_key l).1.2 (l_key l).2 (l_token l) s) as Hf.
    { split_and!; [done| |done]. destruct (live _ _) eqn:Hlive; [|done]. specialize (Hh eq_refl). by rewrite (Hc _ Hh) in Hlive. }
    destruct (fenced_off_steps n k s s' i l Hk Hi Hnk Hl Hf) as (Hi' & Hf' & l' & Hl' & Hkey & _ & extra & Hx & Hlen).
    exists l', extra. split_and!; [done..|lia|]. intros m store Hm.
    rewrite (acknowledge_lane (n + k) s' i), Hkey by done. rewrite (lost_current _ _ _ (proj1 Hf')). by rewrite orb_true_r.
Qed.

(** C25: once the loop is left, the task waits for nothing but its lanes'
    handlers.  The moves of the task and of its lanes, each return of
    [endpoint_request] included, come to an end, so the task and the lanes
    never run idle; and in whatever state follows, with rebalances and stops
    in between, a task and lanes without a move of their own mean that the
    task has returned with every lane joined, or that a lane is inside an
    [endpoint_request] that has not returned, as is every lane still open. *)
Theorem kafka_task_returns n s :
  steps n task_new s → Z.of_nat n < 2 ^ 64 → tpc s = TJoin →
  sn (moves restoring) s ∧
  ∀ k s', steps k s s' → (∀ s'', ¬ own_moves restoring s' s'') →
    (tpc s' = TReturned ∧ map_Forall (λ _ l, l_open l = false) (lanes s')) ∨
    (tpc s' = TJoin ∧ (∃ i l, lanes s' !! i = Some l ∧ l_open l = true ∧ is_Some (l_running l)) ∧
     map_Forall (λ _ l, l_open l = true → is_Some (l_running l)) (lanes s')).
Proof.
  intros Hs Hn Hpc. assert (severed s) as Hsv by (eapply (reachable_keeps _ _ severed); [exact (severed_step _ _)|exact Hs|done]).
  pose proof (task_inv_reachable _ _ _ _ Hs Hn) as Hi. assert (closing (tpc s) = true) as Hc by by rewrite Hpc. split.
  - clear Hs Hpc. remember (weight s) as k eqn:Hk. revert s Hk Hi Hsv Hc. induction (lt_wf k) as [k _ IH]. intros s -> Hi Hsv Hc.
    constructor. intros s' Hm. destruct (moves_weight _ _ _ _ Hi Hsv Hc Hm) as [Hw Hc'].
    destruct (moves_advance _ _ _ Hm) as [turn H].
    eapply IH; [exact Hw|done|by eapply advance_inv|by eapply (severed_step self_topic restoring); [econstructor|]|done].
  - intros k s' Hk Hst. assert (joined s') as Hj.
    { eapply (reachable_keeps _ _ joined); [exact (joined_step _ _)|exact Hk|]. intros Hr. by rewrite Hpc in Hr. }
    assert (closing (tpc s') = true) as Hc' by (by eapply (reachable_keeps _ _ (λ x, closing (tpc x) = true)); [exact (closing_step _ _)|exact Hk|]).
    destruct (moves_stuck restoring s' Hc' Hst) as [[Hr|(Hr & i & l & Hl & Hop)] Hall]; [left; auto|].
    right. split_and!; [done| |done]. exists i, l. split_and!; [done..|]. by apply (Hall i l).
Qed.
End properties.

(** A message keeps only the transport's own headers, in lower case, and
    without tracing only its stream identifier. *)
Theorem transport_metadata_allowed tracing headers k v :
  transport_metadata tracing headers !! k = Some v →
  k ∈ transport_headers ∧ (tracing = false → k = "x-stream-id") ∧
  ∃ name, (name, Some v) ∈ headers ∧ to_ascii_lowercase name = k.
Proof.
  unfold transport_metadata. rewrite collect_map_reverse. intros H%elem_of_list_to_map_2. rewrite elem_of_reverse in H.
  apply list_elem_of_omap in H as ([name value] & Hin & H). destruct tracing; cbn in H.
  - case_bool_decide; [|done]. destruct value as [w|]; simplify_eq/=. split_and!; [done|done|eauto].
  - case_bool_decide as Hk; cbn in H; [|done]. case_bool_decide; [|done]. destruct value as [w|]; simplify_eq/=. split_and!; [done|done|eauto].
Qed.

(** ** Schedules *)
Fixpoint run (restoring : bool) s (turns : list Turn) : option Task :=
  match turns with [] => Some s | turn :: turns => s' ← advance restoring s turn; run restoring s' turns end.
Lemma run_steps self_topic restoring s s' turns :
  run restoring s turns = Some s' → nsteps (task_step self_topic restoring) (length turns) s s'.
Proof.
  revert s. induction turns as [|turn turns IH]; intros s H; cbn in H; [injection H as <-; constructor|].
  destruct (advance restoring s turn) as [s1|] eqn:H1; [|done]. econstructor; [by econstructor|by apply IH].
Qed.
(** Partition 2 is assigned; two messages come. *)
Definition assigned : Task := set_assignments task_new assigned_once.
Definition message (offset : Z) : ConsumerMessage := MkMessage "t" 2 offset ∅.
Definition route (m : ConsumerMessage) : list Turn := WReceive (RMessage m) :: replicate 5 (WTask false).
Definition two_messages : list Turn :=
  [WReceive (RMessage (message 7))] ++ replicate 6 (WTask false) ++ route (message 8).
Definition reached (turns : list Turn) : Task := default assigned (run false assigned turns).
Definition lane_of (turns : list Turn) : Lane := default (MkLane ("", 0, 0) 0 false false false [] None [] []) (lanes (reached turns) !! 0%nat).
Lemma reached_steps turns :
  is_Some (run false assigned turns) → nsteps (task_step "t" false) (S (length turns)) task_new (reached turns).
Proof.
  intros [s Hs]. unfold reached. rewrite Hs. cbn. econstructor; [|by eapply run_steps].
  apply ts_assignments. apply (cs_rebalance _ _ native_ok _ AssignPartitions [item_example]).
Qed.
Definition one_running : list Turn := two_messages ++ [WLane 0; WLane 0].
Lemma kafka_lane_order_witness :
  l_routed (lane_of one_running) = [message 7; message 8] ∧ l_handled (lane_of one_running) = [] ∧
  l_running (lane_of one_running) = Some (message 7) ∧ l_queue (lane_of one_running) = [message 8] ∧
  (l_open (lane_of one_running) = true → l_routed (lane_of one_running) =
     l_handled (lane_of one_running) ++ option_list (l_running (lane_of one_running)) ++ l_queue (lane_of one_running)).
Proof.
  split_and!; [by vm_compute..|].
  refine (proj1 (kafka_lane_order "t" false (S (length one_running)) (reached one_running) 0 (lane_of one_running) _ _ _)).
  - apply reached_steps. vm_compute. by eexists.
  - by vm_compute.
  - by vm_compute.
Defined.
(** The lane checks its context, the partition is revoked, and the lane takes
    up the message it was about to receive: its acknowledgement is refused. *)
Definition lane_checked : list Turn := two_messages ++ [WLane 0].
Definition then_revoked : Task :=
  set_assignments (reached lane_checked)
    (rebalance "t" false native_ok (assignments (reached lane_checked)) RevokePartitions [item_example]).1.
Definition then_taken : Task := default then_revoked (advance false then_revoked (WLane 0)).
Lemma kafka_lane_fenced_witness :
  l_checked (lane_of lane_checked) = true ∧ taken (lane_of lane_checked) = [] ∧
  (taken <$> lanes then_taken !! 0%nat) = Some [message 7] ∧
  ∃ l' extra, lanes then_taken !! 0%nat = Some l' ∧ taken l' = taken (lane_of lane_checked) ++ extra ∧
    (length extra ≤ 1)%nat ∧
    ∀ m store, m ∈ l_routed l' →
      acknowledge_message then_taken l' m store = Err "Kafka message belongs to a revoked assignment".
Proof.
  split_and!; [by vm_compute..|].
  refine (proj2 (kafka_lane_fenced "t" false (S (S (length lane_checked))) then_revoked 0 (lane_of lane_checked) _ _ _)
    _ 1%nat then_taken _ _).
  - eapply nsteps_r; [apply reached_steps; vm_compute; by eexists|].
    apply ts_assignments. apply (cs_rebalance _ _ native_ok _ RevokePartitions [item_example]).
  - by vm_compute.
  - by vm_compute.
  - by vm_compute.
  - apply nsteps_once. apply (ts_turn _ _ _ (WLane 0)). by vm_compute.
  - by vm_compute.
Defined.
Definition stopping : list Turn := one_running ++ [WStop; WReceive RStop].
Lemma kafka_task_returns_witness :
  sn (moves false) (reached stopping) ∧ (l_running <$> lanes (reached stopping) !! 0%nat) = Some (Some (message 7)).
Proof.
  split; [|by vm_compute]. refine (proj1 (kafka_task_returns "t" false (S (length stopping)) (reached stopping) _ _ _)).
  - apply reached_steps. vm_compute. by eexists.
  - by vm_compute.
  - by vm_compute.
Defined.

(** A revocation between the check of a message's context and its hand-over
    ends the whole loop: the lane has closed its channel, and a failing
    [send] breaks, with nothing stopped, cancelled, failed or reported. *)
Definition second_at_send : list Turn :=
  WReceive (RMessage (message 7)) :: replicate 6 (WTask false) ++ WReceive (RMessage (message 8)) :: replicate 4 (WTask false).
Definition revoked_at_send : Task :=
  set_assignments (reached second_at_send)
    (rebalance "t" false native_ok (assignments (reached second_at_send)) RevokePartitions [item_example]).1.
Definition loop_left : Task := default revoked_at_send (run false revoked_at_send [WLane 0; WTask false]).
Theorem revocation_ends_consumer :
  rtc (task_step "t" false) task_new loop_left ∧ tpc loop_left = TJoin ∧
  stop loop_left = false ∧ owner_cancelled (assignments loop_left) = false ∧ failed (assignments loop_left) = false ∧
  reported loop_left = [].
Proof.
  split; [|by vm_compute]. transitivity (reached second_at_send).
  { eapply rtc_nsteps_2, reached_steps. vm_compute. by eexists. }
  eapply rtc_l; [apply ts_assignments, (cs_rebalance _ _ native_ok _ RevokePartitions [item_example])|].
  eapply rtc_nsteps_2, (run_steps "t" false _ _ [WLane 0; WTask false]). by vm_compute.
Qed.
