(* ===== verification/SinkCalls.v ===== *)
(** Local and Kafka sinks: what one message makes an endpoint do.

    [src/src/datasink/localsink/custom.rs] and [consume] with the construction
    of the endpoint of [src/src/datasink/kafka/rdkafka.rs].  A call is the
    sequence of its handler and metric calls; the handler is a function of
    what it is given, its own calls on the message or the result stream are
    events too.  A span is the context it gives, if there is one. *)

From S2P Require Import Prelude Errors SortedMap Context Config Metrics Requests.
Local Open Scope Z_scope.

(** * The endpoints' metrics *)
(** The handles both endpoints keep. *)
Record SinkHandles := MkSinkHandles {
  kh_messages_total : Handle; kh_request_errors : Handle; kh_active_requests : Handle; kh_request_duration : Handle }.
Definition sink_handles_new (m : Metrics World) (labels : Labels) : outcome MetricsError SinkHandles * Metrics World :=
  let sc := scope "datasink_endpoint" labels in
  reg_bind (counter m sc "messages_total" "Total number of successfully processed messages in data sink endpoint" []) (λ h1 m,
  reg_bind (counter m sc "events_total" "Total number of events in data sink endpoint" [("event", "request_error")]) (λ h2 m,
  reg_bind (gauge m sc "active_requests" "Number of active requests in data sink endpoint" []) (λ h3 m,
  reg_bind (histogram m sc "request_duration_seconds" "Request duration in seconds for data sink endpoint" [] None) (λ h4 m,
    (Ok (MkSinkHandles h1 h2 h3 h4), m))))).
(** [make_custom_endpoint_consumer]; the endpoint then replaces the stream's
    consumer. *)
Definition make_custom_endpoint_consumer {Json} (r : RuntimeConfig Json) (endpoint : CustomEndpointConfig) (m : Metrics World) :
    RuntimeResult SinkHandles * Metrics World :=
  match custom_endpoint_metric_labels r endpoint with
  | Ok labels => let '(h, m) := sink_handles_new m labels in (map_err MetricsErr h, m)
  | Err e => (Err e, m)
  | Panic => (Panic, m)
  end.
(** [make_endpoint_consumer_with_state] *)
Definition make_kafka_endpoint_consumer (endpoint : KafkaEndpointConfig) (connector : KafkaDataConnectorConfig) (m : Metrics World) :
    RuntimeResult SinkHandles * Metrics World :=
  let '(h, m) := sink_handles_new m (sm_extend [] [("connector", kc_name connector); ("endpoint", ke_name endpoint)]) in
  (map_err MetricsErr h, m).

(** * One message *)
Section calls.
Context {Token Otel Any St T Call : Type}.
Notation Ctx := (MessageContext Token Otel Any).
Notation HandlerResult A := (string + A)%type.
(** [EndpointHandler]; [consume_message] also answers the calls it makes on
    the result stream or on the [SinkMessage]. *)
Record EndpointHandler := MkHandler {
  get_stream_id : Ctx → T → string;
  begin_request : Ctx → Ctx * St;
  consume_message : Ctx → St → T → list Call * HandlerResult unit * St }.
Inductive Event :=
| EBegin (context : Ctx)
| EConsume (context : Ctx) (value : T)
| ECall (call : Call)
| EEnd (context : Ctx) (result : HandlerResult unit) (state : St)
| EDone (context : Ctx) (value : T) (result : HandlerResult unit)   (** [SinkCallback::done] *)
| MStart                                (** [active_requests.inc] *)
| MEnd (ok : bool).                     (** [active_requests.dec], the duration and a counter *)
Implicit Types h : EndpointHandler.
Definition is_ok {A} (r : HandlerResult A) : bool := match r with inr _ => true | inl _ => false end.
(** Between [begin_request] and the metrics: [callback] is what comes after
    [end_request]. *)
Definition serve (enabled : bool) h (context : Ctx) (value : T) (callback : Ctx → HandlerResult unit → list Event) : list Event :=
  let '(ctx, st) := begin_request h context in
  let '(calls, result, st) := consume_message h ctx st value in
  [EBegin context] ++ (if enabled then [MStart] else []) ++ [EConsume ctx value] ++ (ECall <$> calls) ++
  [EEnd ctx result st] ++ callback ctx result ++ (if enabled then [MEnd (is_ok result)] else []).
Definition with_span (context : Ctx) (span : option Otel) : Ctx :=
  match span with Some _ => with_span_context context span | None => context end.

(** ** The local sink *)
(** [CustomEndpointConsumer]: [alive] tells whether the stream still exists. *)
Record CustomEndpoint := MkCustomEndpoint { alive : bool; sink_callback : bool; metrics_enabled : bool }.
Definition set_sink_callback (e : CustomEndpoint) : CustomEndpoint := MkCustomEndpoint (alive e) true (metrics_enabled e).
(** [consume]; [callback_set] is [sink_callback] when the request has ended. *)
Definition local_consume (e : CustomEndpoint) (callback_set : bool) h (span : option Otel) (context : Ctx) (value : T) : list Event :=
  if alive e then
    let context := with_span context span in
    let context := with_stream_id context (get_stream_id h context value) in
    serve (metrics_enabled e) h context value (λ ctx result, if callback_set then [EDone ctx value result] else [])
  else [].

(** ** The Kafka sink *)
Record KafkaEndpointConsumer := MkKafkaConsumer { ep_alive : bool; ep_enabled : bool; ep_metrics_enabled : bool }.
Definition kafka_consume (e : KafkaEndpointConsumer) h (span : option Otel) (context : Ctx) (value : T) : list Event :=
  if ep_enabled e then
    if ep_alive e then
      let context := with_stream_id context (get_stream_id h context value) in
      let context := with_span context span in
      serve (ep_metrics_enabled e) h context value (λ _ _, [])
    else []
  else [].

(** * Properties *)
Definition is_handler (ev : Event) : bool := match ev with EBegin _ | EConsume _ _ | ECall _ => true | _ => false end.
Definition ended (ev : Event) : option (HandlerResult unit) := match ev with EEnd _ result _ => Some result | _ => None end.
Definition notified (ev : Event) : option (HandlerResult unit) := match ev with EDone _ _ result => Some result | _ => None end.
Definition is_metric (ev : Event) : bool := match ev with MStart | MEnd _ => true | _ => false end.
(** One [end_request], after the handler's other calls and before the
    callbacks, which are given its result; the metrics agree with it. *)
Definition served (enabled : bool) (callbacks : nat) (events : list Event) : Prop :=
  ∃ before ctx result st after, events = before ++ EEnd ctx result st :: after ∧
    omap ended (before ++ after) = [] ∧ Forall (λ ev, is_handler ev = false) after ∧
    omap notified before = [] ∧ omap notified after = replicate callbacks result ∧
    filter (λ ev, is_metric ev = true) events = (if enabled then [MStart; MEnd (is_ok result)] else []).
Lemma calls_silent (calls : list Call) :
  omap ended (ECall <$> calls) = [] ∧ omap notified (ECall <$> calls) = [] ∧
  filter (λ ev, is_metric ev = true) (ECall <$> calls) = [].
Proof. induction calls as [|call calls IH]; [done|exact IH]. Qed.
Lemma serve_served enabled h context value (callback : bool) :
  served enabled (if callback then 1 else 0)
    (serve enabled h context value (λ ctx result, if callback then [EDone ctx value result] else [])).
Proof.
  unfold serve. destruct (begin_request h context) as [ctx st].
  destruct (consume_message h ctx st value) as [[calls result] st1]. destruct (calls_silent calls) as (He & Hn & Hm).
  exists ([EBegin context] ++ (if enabled then [MStart] else []) ++ [EConsume ctx value] ++ (ECall <$> calls)), ctx, result, st1,
    ((if callback then [EDone ctx value result] else []) ++ (if enabled then [MEnd (is_ok result)] else [])).
  split_and!; rewrite ?omap_app, ?filter_app, ?He, ?Hn, ?Hm.
  - by rewrite <-!app_assoc.
  - by destruct enabled, callback.
  - destruct enabled, callback; by repeat constructor.
  - by destruct enabled.
  - by destruct enabled, callback.
  - by destruct enabled, callback.
Qed.
Lemma serve_begin enabled h context value callback : head (serve enabled h context value callback) = Some (EBegin context).
Proof. unfold serve. destruct (begin_request h context) as [ctx st]. by destruct (consume_message h ctx st value) as [[calls result] st1]. Qed.

(** A message that reaches a local sink makes one request: [end_request] is
    called exactly once, after everything the handler does, and the sink
    callback, if one is set by then, once after it with the same result; the
    metrics count the request by that result.  The request carries the stream
    identifier the handler chose.  Without its stream the sink does nothing. *)
Theorem local_sink_served e callback_set h span context value :
  let events := local_consume e callback_set h span context value in
  if alive e then
    served (metrics_enabled e) (if callback_set then 1 else 0) events ∧
    ∃ ctx, head events = Some (EBegin ctx) ∧ stream_id ctx = Some (get_stream_id h (with_span context span) value)
  else events = [].
Proof.
  cbv zeta. unfold local_consume. destruct (alive e); [|done]. split; [apply serve_served|].
  rewrite serve_begin. eexists. split; [done|]. cbn. by simplify_map_eq.
Qed.
(** The same of an enabled Kafka endpoint; a disabled one consumes nothing. *)
Theorem kafka_sink_served e h span context value :
  let events := kafka_consume e h span context value in
  if ep_enabled e && ep_alive e then
    served (ep_metrics_enabled e) 0 events ∧
    ∃ ctx, head events = Some (EBegin ctx) ∧ stream_id ctx = Some (get_stream_id h context value)
  else events = [].
Proof.
  cbv zeta. unfold kafka_consume. destruct (ep_enabled e), (ep_alive e); try done. split.
  - exact (serve_served _ _ _ _ false).
  - rewrite serve_begin. eexists. split; [done|]. unfold with_span, with_span_context.
    destruct span; [|cbn; by simplify_map_eq]. destruct (sampling_enabled _); cbn; by simplify_map_eq.
Qed.
End calls.
