(* ===== verification/KafkaSink.v ===== *)
(** The Kafka sink, [src/src/datasink/kafka/rdkafka.rs]: the producer's
    settings, the connector, and the messages handed to the broker.

    The connector has no lifecycle lock: [start], [stop] and the messages read
    and write its atomics one by one, so each is a program counter and
    [sink_step] interleaves them.  A message sent with [send] is a task of the
    connector's tracker, one sent with [send_sync] runs in its handler.  The
    broker's answers are arguments of the turns. *)

From stdpp Require Import pretty.
From S2P Require Import Prelude Errors SortedMap Config Environment Metrics Requests KafkaConnector SinkCalls.
Local Open Scope Z_scope.

(** [HandlerResult] *)
Notation HandlerResult A := (string + A)%type.
Definition not_running : string := "Kafka producer is not running".

(** * Settings *)
Section settings.
Context {Json : Type}.
Implicit Types r : RuntimeConfig Json.

(** [kafka_sink_configs]: [name] and [id] are the sink stream's. *)
Definition kafka_sink_configs r (name : string) (id : Z) : RuntimeResult (KafkaEndpointConfig * KafkaDataConnectorConfig) :=
  endpoint ← ok_or (endpoint_by_id r id)
    (InvalidConfiguration ("endpoint " +:+ pretty id +:+ " referenced by sink stream " +:+ debug name +:+ " is not configured"));
  match endpoint with
  | KafkaEndpoint endpoint =>
      connector ← ok_or (data_connector_by_id r (ke_connector endpoint))
        (InvalidConfiguration ("data connector " +:+ pretty (ke_connector endpoint) +:+ " referenced by endpoint " +:+
           debug (ke_name endpoint) +:+ " is not configured"));
      match connector with
      | KafkaConnector connector => Ok (endpoint, connector)
      | _ => Err (InvalidConfiguration ("endpoint " +:+ debug (ke_name endpoint) +:+ " does not reference a Kafka data connector"))
      end
  | _ => Err (InvalidConfiguration ("endpoint " +:+ debug (endpoint_name endpoint) +:+ " referenced by sink stream " +:+
           debug name +:+ " is not a Kafka endpoint"))
  end.
Definition apply_security (config : gmap string string) (c : KafkaDataConnectorConfig) : RuntimeResult (gmap string string) :=
  let protocol := protocol_name (security_protocol c) in
  let config := <["security.protocol" := protocol]> config in
  if decide (protocol = "PLAINTEXT") then Ok config
  else if decide (username c = "" ∨ password c = "")
  then Err (InvalidConfiguration "Kafka SASL username and password must both be configured")
  else Ok (<["sasl.password" := password c]> (<["sasl.username" := username c]>
             (<["sasl.mechanism" := mechanism_name (sasl_mechanism c)]> config))).
(** The settings [start] makes for the producer. *)
Definition producer_config (c : KafkaDataConnectorConfig) : RuntimeResult (gmap string string) :=
  config ← apply_security (<["partitioner" := "random"]> (<["bootstrap.servers" := brokers c]> ∅)) c;
  let config := if blank (version c) then config
    else <["api.version.request" := "false"]> (<["broker.version.fallback" := version c]> config) in
  Ok (match f32_ceil (dial_timeout c) with Some ms => <["socket.timeout.ms" := pretty ms]> config | None => config end).
Definition metadata_timeout (c : KafkaDataConnectorConfig) : Z := default 10000 (f32_ceil (dial_timeout c)).
End settings.

(** * The connector *)
(** [KafkaEndpointRuntimeState] with the endpoint's identifier. *)
Record EndpointState := MkEndpointState { ks_id : Z; ks_enabled : bool; ks_partitions : Z }.
Definition endpoint_state_new (id : Z) : EndpointState := MkEndpointState id false 1.
(** What [FutureRecord] holds. *)
Record Message := MkMessage {
  m_topic : string; m_key : option (list byte); m_value : list byte; m_partition : option Z; m_headers : gmap string string }.
(** A message on its way: [DCheck] and [DProducer] of [send], in
    [producer.send], its answer to report, reported. *)
Inductive DeliveryPc :=
| DCheck | DProducer | DProduce (client : nat)
| DCollect (answer : HandlerResult (Z * Z)) | DDone (answer : HandlerResult (Z * Z)).
(** [tracked]: sent with [send]; [refused]: the partitioner's error. *)
Record Delivery := MkDelivery { d_message : Message; d_tracked : bool; d_refused : option string; d_pc : DeliveryPc }.
Inductive StartPc :=
| SLoop (i : nat) (topics : list (nat * string)) (any_enabled : bool)
| SConnect (topics : list (nat * string))
| STopics (topics : list (nat * string))
| SMetadata (topics : list (nat * string))
| SPartitions (discovered : list (nat * Z))
| SProducer
| SRunning
| SReset (error : RuntimeError)
| SReturned (answer : option (RuntimeResult unit)).   (** [None]: dropped *)
Inductive StopPc := PClose | PWait | PFlush | PReturned (answer : RuntimeResult unit).

Section sink.
Context {Json : Type}.
Implicit Types r : RuntimeConfig Json.
(** [closed] is the tracker's; [handed] lists the messages given to the
    broker, the last one first. *)
Record Sink := MkSink {
  k_id : Z; k_name : string; k_state : Z; producer : option nat; endpoints : list EndpointState; closed : bool;
  starts : gmap nat (RuntimeConfig Json * StartPc); stops : gmap nat StopPc; deliveries : gmap nat Delivery;
  handed : list nat; next_id : nat }.
Implicit Types s : Sink.
Definition sink_new (id : Z) (name : string) : Sink := MkSink id name 0 None [] false ∅ ∅ ∅ [] 0.
Definition sink_from_stream r (name : string) (id : Z) : RuntimeResult Sink :=
  '(endpoint, connector) ← kafka_sink_configs r name id;
  if negb (ke_connector endpoint =? kc_id connector) then
    Err (InvalidConfiguration ("Kafka endpoint " +:+ debug (ke_name endpoint) +:+ " references connector " +:+
      pretty (ke_connector endpoint) +:+ ", expected " +:+ pretty (kc_id connector)))
  else Ok (sink_new (kc_id connector) (kc_name connector)).

(** ** Updates *)
Definition set_state s (z : Z) : Sink :=
  MkSink (k_id s) (k_name s) z (producer s) (endpoints s) (closed s) (starts s) (stops s) (deliveries s) (handed s) (next_id s).
Definition set_producer s (p : option nat) : Sink :=
  MkSink (k_id s) (k_name s) (k_state s) p (endpoints s) (closed s) (starts s) (stops s) (deliveries s) (handed s) (next_id s).
Definition set_endpoints s (l : list EndpointState) : Sink :=
  MkSink (k_id s) (k_name s) (k_state s) (producer s) l (closed s) (starts s) (stops s) (deliveries s) (handed s) (next_id s).
Definition set_closed s : Sink :=
  MkSink (k_id s) (k_name s) (k_state s) (producer s) (endpoints s) true (starts s) (stops s) (deliveries s) (handed s) (next_id s).
Definition set_start s (a : nat) r (g : StartPc) : Sink :=
  MkSink (k_id s) (k_name s) (k_state s) (producer s) (endpoints s) (closed s) (<[a := (r, g)]> (starts s)) (stops s)
    (deliveries s) (handed s) (next_id s).
Definition set_stop s (a : nat) (g : StopPc) : Sink :=
  MkSink (k_id s) (k_name s) (k_state s) (producer s) (endpoints s) (closed s) (starts s) (<[a := g]> (stops s))
    (deliveries s) (handed s) (next_id s).
Definition set_deliveries s (l : gmap nat Delivery) (h : list nat) : Sink :=
  MkSink (k_id s) (k_name s) (k_state s) (producer s) (endpoints s) (closed s) (starts s) (stops s) l h (next_id s).
Definition take_id s : Sink :=
  MkSink (k_id s) (k_name s) (k_state s) (producer s) (endpoints s) (closed s) (starts s) (stops s) (deliveries s) (handed s)
    (S (next_id s)).
Definition set_delivery s (t : nat) (d : Delivery) (g : DeliveryPc) : Sink :=
  set_deliveries s (<[t := MkDelivery (d_message d) (d_tracked d) (d_refused d) g]> (deliveries s)) (handed s).

(** [get_or_add_endpoint] *)
Definition get_or_add_endpoint s (c : KafkaEndpointConfig) : RuntimeResult (nat * Sink) :=
  if negb (ke_connector c =? k_id s) then
    Err (InvalidConfiguration ("Kafka endpoint " +:+ debug (ke_name c) +:+ " references connector " +:+
      pretty (ke_connector c) +:+ ", expected " +:+ pretty (k_id s)))
  else if negb (k_state s =? 0) then Err (ResourceAlreadyStarted (k_name s))
  else match list_find (λ e, ks_id e = ke_id c) (endpoints s) with
       | Some (i, _) => Ok (i, s)
       | None => Ok (length (endpoints s), set_endpoints s (endpoints s ++ [endpoint_state_new (ke_id c)]))
       end.
(** [make_rdkafka_kafka_endpoint_consumer] and its variant with a partitioner;
    the answer holds the endpoint's state, a location of [endpoints]. *)
Definition make_rdkafka_kafka_endpoint_consumer r s (name : string) (id : Z) (m : Metrics Requests.World) :
    RuntimeResult (nat * SinkHandles) * Sink * Metrics Requests.World :=
  match kafka_sink_configs r name id with
  | Ok (endpoint, connector) =>
      match get_or_add_endpoint s endpoint with
      | Ok (state, s) =>
          let '(handles, m) := make_kafka_endpoint_consumer endpoint connector m in
          (h ← handles; Ok (state, h), s, m)
      | Err e => (Err e, s, m)
      | Panic => (Panic, s, m)
      end
  | Err e => (Err e, s, m)
  | Panic => (Panic, s, m)
  end.
(** The state [make_endpoint_consumer] gives an endpoint with its own transport. *)
Definition own_endpoint_state (c : KafkaEndpointConfig) : EndpointState :=
  MkEndpointState (ke_id c) (ke_enabled c) (Z.max (partitions c) 1).

(** ** [start] *)
Definition start_arrives s r : Sink :=
  let a := next_id s in
  let s := take_id s in
  if k_state s =? 0 then set_start (set_state s 1) a r (SLoop 0 [] false)
  else set_start s a r (SReturned (Some (Err (if k_state s =? 3 then ResourceStopped (k_name s) else ResourceAlreadyStarted (k_name s))))).
(** A turn of the loop over the endpoints. *)
Definition start_endpoint s (a : nat) r (i : nat) (topics : list (nat * string)) (any_enabled : bool) : Sink :=
  match endpoints s !! i with
  | None => if any_enabled then set_start s a r (SConnect topics)
            else set_start (set_state s 2) a r (SReturned (Some (Ok tt)))
  | Some e =>
      match endpoint_by_id r (ks_id e) with
      | None => set_start s a r (SReset (InvalidConfiguration ("Kafka endpoint " +:+ pretty (ks_id e) +:+ " is not configured")))
      | Some (KafkaEndpoint c) =>
          set_start (set_endpoints s (<[i := MkEndpointState (ks_id e) (ke_enabled c) (Z.max (partitions c) 1)]> (endpoints s))) a r
            (SLoop (S i) (if ke_enabled c then topics ++ [(i, topic c)] else topics) (any_enabled || ke_enabled c))
      | Some _ => set_start s a r (SReset (InvalidConfiguration ("endpoint " +:+ pretty (ks_id e) +:+ " is not Kafka")))
      end
  end.
(** The connector's configuration and its clients; the errors of
    [apply_security] and of the statistics leave the function with [?]. *)
Definition start_connect s (a : nat) r (topics : list (nat * string)) (statistics : RuntimeResult unit)
    (admin client : HandlerResult unit) : Sink :=
  let reset e := set_start s a r (SReset e) in
  let fails e := set_start s a r (SReturned (Some (Err e))) in
  match data_connector_by_id r (k_id s) with
  | None => reset (InvalidConfiguration ("Kafka data connector " +:+ pretty (k_id s) +:+ " is not configured"))
  | Some (KafkaConnector c) =>
      if blank (brokers c) then reset (InvalidConfiguration ("no brokers specified for Kafka data connector " +:+ debug (k_name s)))
      else
        match producer_config c, statistics, admin, client with
        | Err e, _, _, _ => fails e
        | Ok _, Err e, _, _ => fails e
        | Ok _, Ok _, inl e, _ => reset (Transport e)
        | Ok _, Ok _, inr _, inl e => reset (Transport e)
        | Ok _, Ok _, inr _, inr _ => set_start s a r (STopics topics)
        | _, _, _, _ => set_start s a r (SReturned (Some Panic))
        end
  | Some _ => reset (InvalidConfiguration ("data connector " +:+ debug (k_name s) +:+ " is not Kafka"))
  end.
(** [create_topics], with the configuration it reads *)
Definition sink_create_topics s r (admin : list NewTopic → outcome string (list TopicResult)) : outcome string unit :=
  match topics_of ∅ (omap (kafka_endpoint_of r) (ks_id <$> endpoints s)) with
  | [] => Ok tt
  | topics => results ← admin topics; topic_results results
  end.
(** The partitions of the enabled topics; [counts] is the broker's answer. *)
Fixpoint discover (counts : gmap string Z) (topics : list (nat * string)) : HandlerResult (list (nat * Z)) :=
  match topics with
  | [] => inr []
  | (i, name) :: topics =>
      let count := default 0 (counts !! name) in
      if (count <=? i32_max) && (0 <? count) then
        match discover counts topics with inr l => inr ((i, count) :: l) | inl e => inl e end
      else inl ("Kafka topic " +:+ debug name +:+ " has no partitions")
  end.
Inductive StartTurn :=
| TNext
| TConnect (statistics : RuntimeResult unit) (admin client : HandlerResult unit)
| TTopics (current : RuntimeConfig Json) (admin : list NewTopic → outcome string (list TopicResult))
| TMetadata (answer : HandlerResult (gmap string Z))
| TDrop.
Definition start_turn s (a : nat) r (g : StartPc) (turn : StartTurn) : option Sink :=
  match g, turn with
  | SLoop i topics any, TNext => Some (start_endpoint s a r i topics any)
  | SConnect topics, TConnect statistics admin client => Some (start_connect s a r topics statistics admin client)
  | STopics topics, TTopics current admin =>
      Some (match sink_create_topics s current admin with
            | Ok _ => set_start s a r (SMetadata topics)
            | Err e => set_start s a r (SReset (Transport e))
            | Panic => set_start s a r (SReturned (Some Panic))
            end)
  | SMetadata topics, TMetadata answer =>
      Some (match answer with
            | inl e => set_start s a r (SReturned (Some (Err (Transport e))))
            | inr counts =>
                match discover counts topics with
                | inl e => set_start s a r (SReturned (Some (Err (Transport e))))
                | inr l => set_start s a r (SPartitions l)
                end
            end)
  | SPartitions [], TNext => Some (set_start s a r SProducer)
  | SPartitions ((i, count) :: l), TNext =>
      Some (set_start (set_endpoints s (alter (λ e, MkEndpointState (ks_id e) (ks_enabled e) count) i (endpoints s))) a r (SPartitions l))
  | SProducer, TNext => Some (set_start (set_producer s (Some a)) a r SRunning)
  | SRunning, TNext => Some (set_start (set_state s 2) a r (SReturned (Some (Ok tt))))
  | SReset e, TNext => Some (set_start (set_state s 0) a r (SReturned (Some (Err e))))
  | STopics _, TDrop | SMetadata _, TDrop => Some (set_start s a r (SReturned None))
  | _, _ => None
  end.

(** ** [stop] *)
Definition stop_arrives s : Sink :=
  let a := next_id s in
  let s := take_id s in
  set_stop (set_state s 3) a (if k_state s =? 3 then PReturned (Ok tt) else PClose).
Definition unfinished (d : Delivery) : bool := d_tracked d && match d_pc d with DDone _ => false | _ => true end.
(** [cancelled] is the context's; [flushed] the answer of [flush]. *)
Definition stop_turn s (a : nat) (g : StopPc) (cancelled flushed : bool) : option Sink :=
  match g with
  | PClose => Some (set_stop (set_closed s) a PWait)
  | PWait =>
      if cancelled then Some (set_stop s a (PReturned (Err ContextCancelled)))
      else if decide (closed s = true ∧ map_Forall (λ _ d, unfinished d = false) (deliveries s)) then Some (set_stop s a PFlush)
      else None
  | PFlush =>
      match producer s with
      | None => Some (set_stop s a (PReturned (Ok tt)))
      | Some _ =>
          if flushed then Some (set_stop s a (PReturned (Ok tt)))
          else if cancelled then Some (set_stop s a (PReturned (Err ContextCancelled)))
          else Some s
      end
  | PReturned _ => None
  end.

(** ** Messages *)
(** [SinkMessage::send] and [send_sync] of endpoint [i]: the partition is
    chosen first, for the number of partitions known then. *)
Definition partition_of (partitioner : option (Z → HandlerResult Z)) (n : Z) : HandlerResult (option Z) :=
  match partitioner with
  | None => inr None
  | Some f => match f (Z.max n 1) with inr p => inr (Some p) | inl e => inl e end
  end.
Definition message_send s (i : nat) (partitioner : option (Z → HandlerResult Z)) (tracked : bool)
    (topic : string) (key : option (list byte)) (value : list byte) (headers : gmap string string) : option Sink :=
  e ← endpoints s !! i;
  let t := next_id s in
  let s := take_id s in
  let '(refused, partition, g) :=
    match partition_of partitioner (ks_partitions e) with
    | inl e => (Some e, None, DCollect (inl e))
    | inr p => (None, p, DCheck)
    end in
  Some (set_deliveries s (<[t := MkDelivery (MkMessage topic key value partition headers) tracked refused g]> (deliveries s)) (handed s)).
(** [RdkafkaKafkaDataSink::send], and the report of its answer; [answer] is
    the broker's. *)
Definition delivery_turn s (t : nat) (d : Delivery) (answer : HandlerResult (Z * Z)) : option Sink :=
  match d_pc d with
  | DCheck => Some (set_delivery s t d (if k_state s =? 2 then DProducer else DCollect (inl not_running)))
  | DProducer =>
      Some (match producer s with
            | None => set_delivery s t d (DCollect (inl not_running))
            | Some client =>
                set_deliveries s (deliveries (set_delivery s t d (DProduce client))) (t :: handed s)
            end)
  | DProduce _ => Some (set_delivery s t d (DCollect answer))
  | DCollect answer => Some (set_delivery s t d (DDone answer))
  | DDone _ => None
  end.
(** What [on_delivery] of [send] is given. *)
Definition on_delivery (answer : HandlerResult (Z * Z)) : Z * Z * option string :=
  match answer with inr (partition, offset) => (partition, offset, None) | inl e => (0, 0, Some e) end.
(** A handler that waits in [send_sync] is dropped. *)
Definition delivery_dropped s (t : nat) (d : Delivery) : option Sink :=
  if d_tracked d then None else Some (set_deliveries s (delete t (deliveries s)) (handed s)).

Inductive Turn :=
| TAdd (c : KafkaEndpointConfig)
| TStart (r : RuntimeConfig Json) | TStarting (a : nat) (turn : StartTurn)
| TStop | TStopping (a : nat) (cancelled flushed : bool)
| TSend (i : nat) (partitioner : option (Z → HandlerResult Z)) (tracked : bool) (topic : string) (key : option (list byte))
    (value : list byte) (headers : gmap string string)
| TDelivery (t : nat) (answer : HandlerResult (Z * Z)) | TDropped (t : nat).
Definition advance s (turn : Turn) : option Sink :=
  match turn with
  | TAdd c => match get_or_add_endpoint s c with Ok (_, s) => Some s | _ => None end
  | TStart r => Some (start_arrives s r)
  | TStarting a turn => '(r, g) ← starts s !! a; start_turn s a r g turn
  | TStop => Some (stop_arrives s)
  | TStopping a cancelled flushed => g ← stops s !! a; stop_turn s a g cancelled flushed
  | TSend i partitioner tracked topic key value headers => message_send s i partitioner tracked topic key value headers
  | TDelivery t answer => d ← deliveries s !! t; delivery_turn s t d answer
  | TDropped t => d ← deliveries s !! t; delivery_dropped s t d
  end.
Definition sink_step s s' : Prop := ∃ turn, advance s turn = Some s'.
Definition sink_reachable s : Prop := ∃ id name, rtc sink_step (sink_new id name) s.
End sink.
Arguments Sink : clear implicits.
Arguments Turn : clear implicits.
Arguments StartTurn : clear implicits.

(** * Lemmas *)
Section lemmas.
Context {Json : Type}.
Implicit Types (s : Sink Json) (r : RuntimeConfig Json).

(** ** [start] *)
Definition active (g : StartPc) : bool := match g with SReturned _ => false | _ => true end.
(** No start is between its first and its last statement. *)
Definition no_start s : Prop := ∀ a r g, starts s !! a = Some (r, g) → active g = false.
Definition pc_ok s (g : StartPc) : Prop :=
  match g with
  | SLoop i _ any => ∀ j e, (j < i)%nat → endpoints s !! j = Some e → ks_enabled e = true → any = true
  | SPartitions l => Forall (λ p : nat * Z, 1 ≤ p.2) l
  | SRunning => is_Some (producer s)
  | _ => True
  end.
Record start_inv s : Prop := {
  si_fresh : ∀ a, is_Some (starts s !! a) → (a < next_id s)%nat;
  si_state : ∀ a r g, starts s !! a = Some (r, g) → active g = true → k_state s = 1 ∨ k_state s = 3;
  si_one : ∀ a r g b r' g', starts s !! a = Some (r, g) → starts s !! b = Some (r', g') →
    active g = true → active g' = true → a = b;
  si_pc : ∀ a r g, starts s !! a = Some (r, g) → pc_ok s g;
  si_partitions : Forall (λ e, 1 ≤ ks_partitions e) (endpoints s);
  si_running : k_state s = 2 → Exists (λ e, ks_enabled e = true) (endpoints s) → is_Some (producer s) }.

(** The active start [a] moves on: what it changes is its own. *)
Lemma start_inv_move s a r g s' g' :
  start_inv s → starts s !! a = Some (r, g) → active g = true →
  starts s' = <[a := (r, g')]> (starts s) → next_id s' = next_id s → pc_ok s' g' →
  Forall (λ e, 1 ≤ ks_partitions e) (endpoints s') →
  (if active g' then k_state s' = k_state s
   else k_state s' = 2 → Exists (λ e, ks_enabled e = true) (endpoints s') → is_Some (producer s')) →
  start_inv s'.
Proof.
  intros [Hf Hs Ho Hp He Hr] Ha Hg Hst Hn Hpc Hpa Hk.
  assert (Hother : ∀ b r' h, b ≠ a → starts s !! b = Some (r', h) → active h = false).
  { intros b r' h Hne Hb. destruct (active h) eqn:Hh; [|done]. destruct Hne. by eapply Ho. }
  split; try done.
  - intros b. rewrite Hst, Hn, lookup_insert_is_Some. intros [<-|[_ Hb]]; apply Hf; eauto.
  - intros b r' h. rewrite Hst, lookup_insert_Some. intros [[-> [= -> ->]]|[Hne Hb]] Hh.
    + rewrite Hh in Hk. rewrite Hk. by eapply Hs.
    + by rewrite (Hother b r' h) in Hh.
  - intros b1 r1 h1 b2 r2 h2. rewrite Hst, !lookup_insert_Some.
    intros [[-> [= -> ->]]|[Hne1 H1]] [[-> [= -> ->]]|[Hne2 H2]] Hh1 Hh2; try done.
    + by rewrite (Hother _ _ _ (not_eq_sym Hne2) H2) in Hh2.
    + by rewrite (Hother _ _ _ (not_eq_sym Hne1) H1) in Hh1.
    + by rewrite (Hother _ _ _ (not_eq_sym Hne1) H1) in Hh1.
  - intros b r' h. rewrite Hst, lookup_insert_Some. intros [[-> [= -> ->]]|[Hne Hb]]; [done|].
    assert (active h = false) by (by eapply Hother; [by apply not_eq_sym|]). by destruct h.
  - intros H2 Hex. destruct (active g') eqn:Hg'; [|by apply Hk].
    rewrite Hk in H2. destruct (Hs _ _ _ Ha Hg); lia.
Qed.
(** The other turns leave all this alone, or move the state to 3. *)
Lemma start_inv_other s s' :
  start_inv s → starts s' = starts s → (next_id s ≤ next_id s')%nat → endpoints s' = endpoints s → producer s' = producer s →
  k_state s' = k_state s ∨ k_state s' = 3 → start_inv s'.
Proof.
  intros [Hf Hs Ho Hp He Hr] Hst Hn Hen Hpr Hk. split; try (rewrite ?Hst, ?Hen, ?Hpr; done).
  - intros a. rewrite Hst. intros ?%Hf. lia.
  - intros a r g. rewrite Hst. intros Ha Hg. destruct Hk as [-> | ->]; [by eapply Hs|by right].
  - intros a r g. rewrite Hst. intros Ha%Hp. unfold pc_ok in *. by rewrite Hen, Hpr.
  - rewrite Hen, Hpr. destruct Hk as [-> | ->]; done.
Qed.
Lemma discover_positive counts topics l : discover counts topics = inr l → Forall (λ p : nat * Z, 1 ≤ p.2) l.
Proof.
  revert l. induction topics as [|[i name] topics IH]; intros l H; cbn in H; [by injection H as <-|].
  destruct (_ && _) eqn:Hc; [|done]. destruct (discover counts topics) as [|l']; [done|]. injection H as <-.
  constructor; [cbn; lia|by apply IH].
Qed.
(** A start that returns without a store leaves the state at 1 or 3. *)
Lemma start_inv_return s a r g answer :
  start_inv s → starts s !! a = Some (r, g) → active g = true → start_inv (set_start s a r (SReturned answer)).
Proof.
  intros Hi Ha Hg. eapply start_inv_move; [exact Hi|exact Ha|done|reflexivity|done|done|apply Hi|].
  cbn. intros H2. destruct (si_state _ Hi _ _ _ Ha Hg); lia.
Qed.
Lemma start_inv_goto s a r g g' :
  start_inv s → starts s !! a = Some (r, g) → active g = true → active g' = true → pc_ok s g' → start_inv (set_start s a r g').
Proof.
  intros Hi Ha Hg Hg' Hp. eapply start_inv_move; [exact Hi|exact Ha|done|reflexivity|done|by destruct g'|apply Hi|by rewrite Hg'].
Qed.
Lemma start_endpoint_inv s a r i topics any :
  start_inv s → starts s !! a = Some (r, SLoop i topics any) → start_inv (start_endpoint s a r i topics any).
Proof.
  intros Hi Ha. pose proof (si_pc _ Hi _ _ _ Ha) as Hpc. unfold start_endpoint. destruct (endpoints s !! i) as [e|] eqn:He.
  - destruct (endpoint_by_id r (ks_id e)) as [[]|]; try by eapply start_inv_goto.
    eapply start_inv_move; [exact Hi|exact Ha|done|reflexivity|done| |cbn; apply Forall_insert; [apply Hi|cbn; lia]|done].
    intros j e'. cbn. rewrite list_lookup_insert_Some. intros Hj [(<- & <- & _)|[Hne Hj']] Hen; cbn in Hen.
    + rewrite Hen. apply orb_true_r.
    + rewrite (Hpc j e'); [done|lia|done|done].
  - destruct any; [by eapply start_inv_goto|].
    eapply start_inv_move; [exact Hi|exact Ha|done|reflexivity|done|done|apply Hi|].
    intros _ (e & (j & Hj)%list_elem_of_lookup & Hen)%Exists_exists. cbn in Hj.
    assert (false = true); [|done]. apply (Hpc j e); [|done|done]. apply lookup_lt_Some in Hj. apply lookup_ge_None in He. lia.
Qed.
Lemma start_inv_turn s a r g turn s' :
  start_inv s → starts s !! a = Some (r, g) → start_turn s a r g turn = Some s' → start_inv s'.
Proof.
  intros Hi Ha H. pose proof (si_partitions _ Hi) as Hpa. pose proof (si_pc _ Hi _ _ _ Ha) as Hpc.
  assert (active g = true) as Hg by by destruct g, turn.
  destruct g as [i topics any|topics|topics|topics|[|[i count] l]| | | |]; destruct turn; cbn in H; try done; injection H as <-;
    try by first [eapply start_inv_return | eapply start_inv_goto].
  - by apply start_endpoint_inv.
  - unfold start_connect. repeat case_match; by first [eapply start_inv_return | eapply start_inv_goto].
  - destruct (sink_create_topics s current admin); by first [eapply start_inv_return | eapply start_inv_goto].
  - destruct answer as [|counts]; [by eapply start_inv_return|].
    destruct (discover counts topics) as [|l] eqn:Hd; [by eapply start_inv_return|].
    eapply start_inv_goto; [exact Hi|exact Ha|done|done|by eapply discover_positive].
  - apply Forall_cons in Hpc as [Hc Hl]. cbn in Hc.
    eapply start_inv_move; [exact Hi|exact Ha|done|reflexivity|done|exact Hl| |done]. cbn.
    rewrite Forall_lookup in Hpa |- *. intros j e Hj. destruct (decide (i = j)) as [<-|Hne].
    + rewrite list_lookup_alter_eq in Hj. destruct (endpoints s !! i); [|done]. by injection Hj as <-.
    + rewrite list_lookup_alter_ne in Hj by done. by eapply Hpa.
  - eapply start_inv_move; [exact Hi|exact Ha|done|reflexivity|done|by eexists|done|done].
  - eapply start_inv_move; [exact Hi|exact Ha|done|reflexivity|done|done|done|]. intros _ _. exact Hpc.
  - eapply start_inv_move; [exact Hi|exact Ha|done|reflexivity|done|done|done|]. cbn. lia.
Qed.
Lemma start_inv_step s s' : sink_step s s' → start_inv s → start_inv s'.
Proof.
  intros [turn H] Hi. destruct turn as [c|r|a turn| |a cancelled flushed|i pt tr tp key value hd|t answer|t]; cbn in H.
  - unfold get_or_add_endpoint in H. destruct (negb (ke_connector c =? k_id s)); [done|].
    destruct (Z.eqb_spec (k_state s) 0) as [H0|]; [|done]. cbn in H.
    destruct (list_find _ _) as [[i e]|]; injection H as <-; [done|]. destruct Hi as [Hf Hs Ho Hp He Hr].
    assert (Hna : ∀ a r g, starts s !! a = Some (r, g) → active g = false).
    { intros a r g Ha. destruct (active g) eqn:Hg; [|done]. destruct (Hs _ _ _ Ha Hg); lia. }
    split; try done.
    + intros a r g Ha. specialize (Hna _ _ _ Ha). by destruct g.
    + cbn. apply Forall_app. split; [done|]. by constructor.
    + cbn. lia.
  - injection H as <-. destruct Hi as [Hf Hs Ho Hp He Hr]. unfold start_arrives. cbn.
    assert (Hnew : starts s !! next_id s = None) by (apply eq_None_not_Some; intros ?%Hf; lia).
    destruct (Z.eqb_spec (k_state s) 0) as [H0|H0].
    + assert (Hna : ∀ a r g, starts s !! a = Some (r, g) → active g = false).
      { intros a r' g Ha. destruct (active g) eqn:Hg; [|done]. destruct (Hs _ _ _ Ha Hg); lia. }
      split; cbn; try done.
      * intros a. rewrite lookup_insert_is_Some. intros [<-|[_ ?%Hf]]; lia.
      * auto.
      * intros a r1 g b r2 g'. rewrite !lookup_insert_Some. intros [[<- _]|[_ Ha]] [[<- _]|[_ Hb]] Hg Hg'; try done.
        all: first [by rewrite (Hna _ _ _ Ha) in Hg|by rewrite (Hna _ _ _ Hb) in Hg'].
      * intros a r1 g. rewrite lookup_insert_Some. intros [[<- [= -> <-]]|[_ Ha]]; [cbn; lia|]. specialize (Hna _ _ _ Ha). by destruct g.
    + split; cbn; try done.
      * intros a. rewrite lookup_insert_is_Some. intros [<-|[_ ?%Hf]]; lia.
      * intros a r1 g. rewrite lookup_insert_Some. intros [[<- [= -> <-]]|[_ Ha]]; [done|by eapply Hs].
      * intros a r1 g b r2 g'. rewrite !lookup_insert_Some. intros [[<- [= -> <-]]|[_ Ha]] [[<- [= -> <-]]|[_ Hb]] Hg Hg'; try done.
        by eapply Ho.
      * intros a r1 g. rewrite lookup_insert_Some. intros [[<- [= -> <-]]|[_ Ha]]; [done|]. by apply Hp in Ha.
  - destruct (starts s !! a) as [[r g]|] eqn:Ha; [|done]. by eapply start_inv_turn.
  - injection H as <-. eapply start_inv_other; [exact Hi|done|cbn; lia|done|done|by right].
  - destruct (stops s !! a) as [g|]; [|done]. cbn in H. unfold stop_turn in H. repeat case_match; simplify_eq;
      (eapply start_inv_other; [exact Hi|done|done|done|done|by left]).
  - unfold message_send in H. destruct (endpoints s !! i) as [e|]; [|done]. cbn in H.
    destruct (partition_of _ _); injection H as <-; (eapply start_inv_other; [exact Hi|done|cbn; lia|done|done|by left]).
  - destruct (deliveries s !! t) as [d|]; [|done]. cbn in H. unfold delivery_turn in H. repeat case_match; simplify_eq;
      (eapply start_inv_other; [exact Hi|done|done|done|done|by left]).
  - destruct (deliveries s !! t) as [d|]; [|done]. cbn in H. unfold delivery_dropped in H. destruct (d_tracked d); simplify_eq.
    eapply start_inv_other; [exact Hi|done|done|done|done|by left].
Qed.

(** ** Messages *)
Definition answered (g : DeliveryPc) : option (HandlerResult (Z * Z)) :=
  match g with DCollect a | DDone a => Some a | _ => None end.
(** In [send] past the check of the state *)
Definition flying (g : DeliveryPc) : bool := match g with DProducer | DProduce _ => true | _ => false end.
(** Where a message stands tells whether it was handed to the broker. *)
Definition delivery_ok s (t : nat) (d : Delivery) : Prop :=
  match d_pc d with
  | DCheck | DProducer => t ∉ handed s ∧ d_refused d = None
  | DProduce _ => t ∈ handed s ∧ d_refused d = None
  | DCollect a | DDone a => (t ∈ handed s ∧ d_refused d = None) ∨ (t ∉ handed s ∧ a = inl (default not_running (d_refused d)))
  end.
Record delivery_inv s : Prop := {
  di_fresh : ∀ t, is_Some (deliveries s !! t) ∨ t ∈ handed s → (t < next_id s)%nat;
  di_once : NoDup (handed s);
  di_ok : ∀ t d, deliveries s !! t = Some d → delivery_ok s t d }.
Lemma delivery_ok_eq s s' t d : handed s' = handed s → delivery_ok s t d → delivery_ok s' t d.
Proof. unfold delivery_ok. by intros ->. Qed.
Lemma delivery_inv_other s s' :
  delivery_inv s → deliveries s' = deliveries s → handed s' = handed s → (next_id s ≤ next_id s')%nat → delivery_inv s'.
Proof.
  intros [Hf Ho Hk] Hd Hh Hn. split; [|by rewrite Hh|].
  - intros t. rewrite Hd, Hh. intros ?%Hf. lia.
  - intros t d. rewrite Hd. intros Ht%Hk. by eapply delivery_ok_eq.
Qed.
Lemma delivery_inv_set s t d d' :
  delivery_inv s → deliveries s !! t = Some d → delivery_ok s t d' → delivery_inv (set_deliveries s (<[t := d']> (deliveries s)) (handed s)).
Proof.
  intros [Hf Ho Hk] Ht Hd. split; cbn; [|done|].
  - intros u. rewrite lookup_insert_is_Some. intros [[<-|[_ Hu]]|Hu]; apply Hf; eauto.
  - intros u d0. rewrite lookup_insert_Some. intros [[<- <-]|[_ Hu%Hk]]; [exact Hd|exact Hu].
Qed.
Lemma delivery_inv_new s d :
  delivery_inv s → (next_id s ∉ handed s → delivery_ok s (next_id s) d) →
  delivery_inv (set_deliveries (take_id s) (<[next_id s := d]> (deliveries s)) (handed s)).
Proof.
  intros [Hf Ho Hk] Hd. assert (Hnh : next_id s ∉ handed s) by (intros Hh; specialize (Hf _ (or_intror Hh)); lia).
  split; cbn; [|done|].
  - intros u. rewrite lookup_insert_is_Some. intros [[<-|[_ Hu]]|Hu]; [lia| |]; (cut (u < next_id s)%nat; [lia|]); apply Hf; auto.
  - intros u d0. rewrite lookup_insert_Some. intros [[<- <-]|[_ Hu%Hk]]; [exact (Hd Hnh)|exact Hu].
Qed.
Lemma delivery_turn_inv s t d answer s' :
  delivery_inv s → deliveries s !! t = Some d → delivery_turn s t d answer = Some s' → delivery_inv s'.
Proof.
  intros Hi Ht H. pose proof (di_ok _ Hi _ _ Ht) as Hok. unfold delivery_turn in H. unfold delivery_ok in Hok.
  destruct (d_pc d) as [| |client|a|a] eqn:Hg; simplify_eq; try by (eapply delivery_inv_set; [done|exact Ht|exact Hok]).
  - eapply delivery_inv_set; [done|exact Ht|]. destruct Hok as [? Hr]. destruct (k_state s =? 2); [done|]. right. by rewrite Hr.
  - destruct Hok as [Hnh Hr]. destruct (producer s) as [client|].
    + destruct Hi as [Hf Ho Hk]. split; cbn.
      * intros u. rewrite lookup_insert_is_Some, elem_of_cons.
        intros [[<-|[_ Hu]]|[->|Hu]]; apply Hf; first [by left; eexists|by left|by right].
      * by constructor.
      * intros u d0. rewrite lookup_insert_Some. intros [[<- <-]|[Hne Hu%Hk]]; unfold delivery_ok in *; cbn; [split; [by left|done]|].
        destruct (d_pc d0); cbn; rewrite ?elem_of_cons; naive_solver.
    + eapply delivery_inv_set; [done|exact Ht|]. right. by rewrite Hr.
  - eapply delivery_inv_set; [done|exact Ht|]. left. exact Hok.
Qed.
Lemma delivery_inv_step s s' : sink_step s s' → delivery_inv s → delivery_inv s'.
Proof.
  intros [turn H] Hi. destruct turn as [c|r|a turn| |a cancelled flushed|i pt tr tp key value hd|t answer|t]; cbn in H.
  - unfold get_or_add_endpoint in H. repeat case_match; simplify_eq; [done|]. by eapply delivery_inv_other.
  - injection H as <-. unfold start_arrives. case_match; (eapply delivery_inv_other; [exact Hi|done|done|cbn; lia]).
  - destruct (starts s !! a) as [[r g]|]; [|done]. cbn in H.
    destruct g as [i topics any|topics|topics|topics|[|[i count] l]| | | |]; destruct turn; cbn in H; try done; injection H as <-;
      unfold start_endpoint, start_connect; repeat case_match; by eapply delivery_inv_other.
  - injection H as <-. eapply delivery_inv_other; [exact Hi|done|done|cbn; lia].
  - destruct (stops s !! a) as [g|]; [|done]. cbn in H. unfold stop_turn in H. repeat case_match; simplify_eq; by eapply delivery_inv_other.
  - unfold message_send in H. destruct (endpoints s !! i) as [e|]; [|done]. cbn in H. 
    destruct (partition_of _ _) as [e0|p]; injection H as <-; apply delivery_inv_new; try done; intros Hn; cbn; auto.
  - destruct (deliveries s !! t) as [d|] eqn:Ht; [|done]. by eapply delivery_turn_inv.
  - destruct (deliveries s !! t) as [d|]; [|done]. cbn in H. unfold delivery_dropped in H. destruct (d_tracked d); simplify_eq.
    destruct Hi as [Hf Ho Hk]. split; cbn; [|done|].
    + intros u [[d0 [_ Hu]%lookup_delete_Some]|Hu]; apply Hf; [left; by eexists|by right].
    + intros u d0 [_ Hu]%lookup_delete_Some. exact (Hk _ _ Hu).
Qed.
Lemma sink_inv_reachable s : sink_reachable s → start_inv s ∧ delivery_inv s.
Proof.
  intros (id & name & Hs). refine (rtc_ind_r (λ s, start_inv s ∧ delivery_inv s) _ _ _ s Hs).
  - split; split; cbn; try done; try constructor; intros a; try (intros ? ? Ha; by rewrite lookup_empty in Ha).
    + by intros [].
    + by intros [[]|?%elem_of_nil].
  - intros x y _ Hxy [H1 H2]. split; [by eapply start_inv_step|by eapply delivery_inv_step].
Qed.

(** ** After a stop *)
Definition stopped s : Prop := k_state s = 3 ∧ no_start s.
Definition sealed s : Prop :=
  stopped s ∧ ∀ t d, deliveries s !! t = Some d → d_tracked d = true → flying (d_pc d) = false.
Lemma stop_arrives_stopped s : no_start s → stopped (stop_arrives s).
Proof. intros Hn. split; [done|]. exact Hn. Qed.
Lemma no_start_turn s a turn s' : no_start s → advance s (TStarting a turn) = Some s' → False.
Proof.
  intros Hn H. cbn in H. destruct (starts s !! a) as [[r g]|] eqn:Ha; [|done]. specialize (Hn _ _ _ Ha). by destruct g, turn.
Qed.
Lemma sink_stopped_step s s' : stopped s → sink_step s s' → stopped s'.
Proof.
  intros [H3 Hn] [turn H]. destruct turn as [c|r|a turn| |a cancelled flushed|i pt tr tp key value hd|t answer|t].
  - cbn in H. unfold get_or_add_endpoint in H. rewrite H3 in H. repeat case_match; simplify_eq.
  - injection H as <-. unfold start_arrives. cbn. rewrite H3. split; [done|]. intros a r' g. cbn.
    rewrite lookup_insert_Some. intros [[_ [= _ <-]]|[_ Ha]]; [done|by eapply Hn].
  - by destruct (no_start_turn _ _ _ _ Hn H).
  - injection H as <-. by apply stop_arrives_stopped.
  - cbn in H. destruct (stops s !! a) as [g|]; [|done]. cbn in H. unfold stop_turn in H. repeat case_match; by simplify_eq.
  - cbn in H. unfold message_send in H. destruct (endpoints s !! i) as [e|]; [|done]. cbn in H.
    destruct (partition_of _ _); by injection H as <-.
  - cbn in H. destruct (deliveries s !! t) as [d|]; [|done]. cbn in H. unfold delivery_turn in H. repeat case_match; by simplify_eq.
  - cbn in H. destruct (deliveries s !! t) as [d|]; [|done]. cbn in H. unfold delivery_dropped in H. destruct (d_tracked d); by simplify_eq.
Qed.
(** What a step does to the messages: it moves one, makes a new one, or none. *)
Inductive delivery_change s s' : Prop :=
| dc_none : deliveries s' = deliveries s → handed s' = handed s → delivery_change s s'
| dc_new d : deliveries s' = <[next_id s := d]> (deliveries s) → handed s' = handed s → flying (d_pc d) = false → delivery_change s s'
| dc_move t d answer : deliveries s !! t = Some d → delivery_turn s t d answer = Some s' → delivery_change s s'
| dc_drop t d : deliveries s !! t = Some d → d_tracked d = false → deliveries s' = delete t (deliveries s) → handed s' = handed s →
    delivery_change s s'.
Lemma step_delivery s s' : sink_step s s' → delivery_change s s'.
Proof.
  intros [turn H]. destruct turn as [c|r|a turn| |a cancelled flushed|i pt tr tp key value hd|t answer|t]; cbn in H.
  - unfold get_or_add_endpoint in H. repeat case_match; simplify_eq; by apply dc_none.
  - injection H as <-. unfold start_arrives. case_match; by apply dc_none.
  - destruct (starts s !! a) as [[r g]|]; [|done]. cbn in H.
    destruct g as [i topics any|topics|topics|topics|[|[i count] l]| | | |]; destruct turn; cbn in H; try done; injection H as <-;
      unfold start_endpoint, start_connect; repeat case_match; by apply dc_none.
  - injection H as <-. by apply dc_none.
  - destruct (stops s !! a) as [g|]; [|done]. cbn in H. unfold stop_turn in H. repeat case_match; simplify_eq; by apply dc_none.
  - unfold message_send in H. destruct (endpoints s !! i) as [e|]; [|done]. cbn in H.
    destruct (partition_of _ _); injection H as <-; by eapply dc_new.
  - destruct (deliveries s !! t) as [d|] eqn:Ht; [|done]. by eapply dc_move.
  - destruct (deliveries s !! t) as [d|] eqn:Ht; [|done]. cbn in H. unfold delivery_dropped in H.
    destruct (d_tracked d) eqn:Htr; simplify_eq. by eapply dc_drop.
Qed.
(** Once sealed, no tracked message reaches the broker any more. *)
Lemma sealed_step s s' :
  sealed s → sink_step s s' →
  sealed s' ∧ ∀ t, t ∈ handed s' → t ∈ handed s ∨ ∃ d, deliveries s !! t = Some d ∧ d_tracked d = false.
Proof.
  intros [Hs Hf] Hst. pose proof (sink_stopped_step _ _ Hs Hst) as Hs'.
  assert ((∀ t d, deliveries s' !! t = Some d → d_tracked d = true → flying (d_pc d) = false) ∧
    ∀ t, t ∈ handed s' → t ∈ handed s ∨ ∃ d, deliveries s !! t = Some d ∧ d_tracked d = false) as [H1 H2]; [|done].
  destruct (step_delivery _ _ Hst) as [Hd Hh|d Hd Hh Hnf|t d answer Ht H|t d Ht Htr Hd Hh].
  - rewrite Hd, Hh. auto.
  - rewrite Hd, Hh. split; [|auto]. intros u d0. rewrite lookup_insert_Some. intros [[_ <-]|[_ Hu]]; [done|by eapply Hf].
  - unfold delivery_turn in H. destruct Hs as [H3 _]. rewrite H3 in H.
    assert (Hset : ∀ g, flying g = false → ∀ u d0, deliveries (set_delivery s t d g) !! u = Some d0 → d_tracked d0 = true → flying (d_pc d0) = false).
    { intros g Hg u d0. cbn. rewrite lookup_insert_Some. intros [[_ <-]|[_ Hu]]; [done|by eapply Hf]. }
    destruct (d_tracked d) eqn:Htr.
    + specialize (Hf _ _ Ht Htr). destruct (d_pc d) as [| |client|a|a]; simplify_eq; (split; [by apply Hset|auto]).
    + assert (Hset' : ∀ g u d0, deliveries (set_delivery s t d g) !! u = Some d0 → d_tracked d0 = true → flying (d_pc d0) = false).
      { intros g u d0. cbn. rewrite lookup_insert_Some. intros [[_ <-]|[_ Hu]] Hd0; [cbn in Hd0; congruence|by eapply Hf]. }
      destruct (d_pc d) as [| |client|a|a]; try destruct (producer s); simplify_eq; (split; [try exact (Hset' _)|auto]).
      all: try by apply (Hset' (DProduce n)). all: cbn; intros u [->|Hu]%elem_of_cons; eauto.
  - rewrite Hd, Hh. split; [|auto]. intros u d0 [_ Hu]%lookup_delete_Some. by eapply Hf.
Qed.
Lemma delivery_was s s' t d :
  sink_step s s' → deliveries s' !! t = Some d → t ≠ next_id s → ∃ d0, deliveries s !! t = Some d0 ∧ d_tracked d0 = d_tracked d.
Proof.
  intros Hst Ht Hne. destruct (step_delivery _ _ Hst) as [Hd Hh|d1 Hd Hh Hnf|u d1 answer Hu H|u d1 Hu Htr Hd Hh].
  - rewrite Hd in Ht. eauto.
  - rewrite Hd, lookup_insert_ne in Ht by done. eauto.
  - assert (∃ g h, s' = set_deliveries s (<[u := MkDelivery (d_message d1) (d_tracked d1) (d_refused d1) g]> (deliveries s)) h) as (g & h & ->)
      by (unfold delivery_turn in H; repeat case_match; simplify_eq; by repeat eexists).
    cbn in Ht. rewrite lookup_insert_Some in Ht. destruct Ht as [[<- <-]|[_ Ht]]; eauto.
  - rewrite Hd in Ht. apply lookup_delete_Some in Ht as [_ Ht]. eauto.
Qed.
Lemma stopped_rtc s s' : stopped s → rtc sink_step s s' → stopped s'.
Proof. intros Hs. induction 1 as [|x y z Hxy _ IH]; [done|]. apply IH. by eapply sink_stopped_step. Qed.
Lemma inv_rtc s s' : delivery_inv s → rtc sink_step s s' → delivery_inv s'.
Proof. intros Hs. induction 1 as [|x y z Hxy _ IH]; [done|]. apply IH. by eapply delivery_inv_step. Qed.
Lemma sealed_rtc s s' :
  delivery_inv s → sealed s → rtc sink_step s s' →
  sealed s' ∧ ∀ t d, deliveries s' !! t = Some d → d_tracked d = true → t ∈ handed s' → t ∈ handed s.
Proof.
  intros Hi Hs Hrtc. refine (rtc_ind_r (λ s', sealed s' ∧ ∀ t d, deliveries s' !! t = Some d → d_tracked d = true →
    t ∈ handed s' → t ∈ handed s) _ _ _ s' Hrtc); [auto|].
  intros x y Hx Hxy [Hse IH]. destruct (sealed_step _ _ Hse Hxy) as [Hse' Hh]. split; [done|]. intros t d Ht Htr Hin.
  pose proof (inv_rtc _ _ Hi Hx) as Hix.
  assert (Hne : t ≠ next_id x).
  { intros ->. destruct (Hh _ Hin) as [H|(d0 & H & _)]; [specialize (di_fresh _ Hix _ (or_intror H))|
      specialize (di_fresh _ Hix _ (or_introl (mk_is_Some _ _ H)))]; lia. }
  destruct (delivery_was _ _ _ _ Hxy Ht Hne) as (d0 & Hd0 & Htr0). rewrite Htr in Htr0.
  destruct (Hh _ Hin) as [H|(d1 & H & Hd1)]; [by eapply IH|congruence].
Qed.
End lemmas.

(** * Properties *)
Section properties.
Context {Json : Type}.
Implicit Types (s : Sink Json) (r : RuntimeConfig Json).

(** The producer has the settings of the source's clients, and a random
    partitioner; it is refused for the same reasons. *)
Theorem producer_settings_agree c :
  producer_config c =
    match make_client_config c with
    | Ok config => Ok (<["partitioner" := "random"]> config)
    | Err e => Err e
    | Panic => Panic
    end.
Proof.
  unfold producer_config, make_client_config, apply_security. set (p := protocol_name _). cbv zeta.
  set (base := <["bootstrap.servers" := brokers c]> (∅ : gmap string string)).
  assert (Hc : ∀ (k v : string) (m : gmap string string), k ≠ "partitioner" →
    <[k := v]> (<["partitioner" := "random"]> m) = <["partitioner" := "random"]> (<[k := v]> m))
    by (intros; by apply insert_insert_ne).
  destruct (decide (p = "PLAINTEXT")) as [Hp|Hp]; [|destruct (decide (username c = "" ∨ password c = ""))]; try done;
    cbn [mbind outcome_bind]; destruct (blank (version c)), (f32_ceil (dial_timeout c)); by rewrite ?Hc.
Qed.

(** C26: a message is handed to the broker at most once; it is reported as
    delivered only after it was handed to it, and one that was not, because its
    partitioner failed or the producer was not running, is reported with that
    error and nothing else. *)
Theorem kafka_sink_answered s t d :
  sink_reachable s → deliveries s !! t = Some d →
  NoDup (handed s) ∧
  (∀ partition offset, answered (d_pc d) = Some (inr (partition, offset)) → t ∈ handed s ∧ d_refused d = None) ∧
  (∀ answer, answered (d_pc d) = Some answer → t ∉ handed s →
     on_delivery answer = (0, 0, Some (default not_running (d_refused d)))).
Proof.
  intros [_ [_ Ho Hk]]%sink_inv_reachable Ht. specialize (Hk _ _ Ht). unfold delivery_ok in Hk. split_and!; [done|..].
  - intros p o Ha. destruct (d_pc d); simplify_eq/=; by destruct Hk as [|[_ ?]].
  - intros a Ha Hn. destruct (d_pc d); simplify_eq/=; destruct Hk as [[]|[_ ->]]; done.
Qed.

(** C27: a stop that meets no start under way seals the connector: when its
    wait returns, every message sent with [send] has been reported, and from
    then on none of them, sent before or after, reaches the broker; the state
    stays stopped whatever is called. *)
Theorem kafka_sink_drained s0 s p s2 s3 :
  sink_reachable s0 → no_start s0 → rtc sink_step (stop_arrives s0) s →
  stops s !! p = Some PWait → advance s (TStopping p false false) = Some s2 → rtc sink_step s2 s3 →
  (∀ t d, deliveries s2 !! t = Some d → d_tracked d = true → ∃ answer, d_pc d = DDone answer) ∧
  k_state s3 = 3 ∧
  ∀ t d, deliveries s3 !! t = Some d → d_tracked d = true → t ∈ handed s3 → t ∈ handed s2.
Proof.
  intros [_ Hi0]%sink_inv_reachable Hn Hrtc Hp H Hrtc2. pose proof (stop_arrives_stopped _ Hn) as Hst%(stopped_rtc _ s); [|done].
  assert (delivery_inv s) as Hi by (eapply inv_rtc; [|exact Hrtc]; eapply delivery_inv_step; [by exists TStop|exact Hi0]).
  cbn in H. rewrite Hp in H. cbn in H. case_decide as Hw; [|done]. injection H as <-. destruct Hw as [_ Hw].
  assert (Hall : ∀ t d, deliveries s !! t = Some d → d_tracked d = true → ∃ answer, d_pc d = DDone answer).
  { intros t d Ht Htr. specialize (Hw _ _ Ht). unfold unfinished in Hw. rewrite Htr in Hw. destruct (d_pc d); try done. eauto. }
  destruct (sealed_rtc (set_stop s p PFlush) s3) as [[[H3 _] _] Hh]; [by eapply delivery_inv_other|split|done|done].
  - exact Hst.
  - intros t d Ht Htr. destruct (Hall t d Ht Htr) as [? ->]. done.
Qed.

(** a connector that runs is ready: no start is under way, every endpoint
    has at least one partition for its partitioner, and an enabled endpoint
    has a producer to send with. *)
Theorem kafka_sink_ready s i e :
  sink_reachable s → endpoints s !! i = Some e →
  1 ≤ ks_partitions e ∧ (k_state s = 2 → no_start s ∧ (ks_enabled e = true → is_Some (producer s))).
Proof.
  intros [[_ Hs _ _ Hp Hr] _]%sink_inv_reachable He. split; [exact (proj1 (Forall_lookup _ _) Hp _ _ He)|]. intros H2. split.
  - intros a r g Ha. destruct (active g) eqn:Hg; [|done]. destruct (Hs _ _ _ Ha Hg); lia.
  - intros Hen. apply Hr; [done|]. apply Exists_exists. exists e. split; [by eapply list_elem_of_lookup_2|done].
Qed.
End properties.

(** ** Schedules *)
Fixpoint run {Json} (s : Sink Json) (turns : list (Turn Json)) : option (Sink Json) :=
  match turns with [] => Some s | turn :: turns => s' ← advance s turn; run s' turns end.
Lemma run_rtc {Json} (s s' : Sink Json) turns : run s turns = Some s' → rtc sink_step s s'.
Proof.
  revert s. induction turns as [|turn turns IH]; intros s H; cbn in H; [by injection H as <-|].
  destruct (advance s turn) as [s1|] eqn:H1; [|done]. eapply rtc_l; [by exists turn|by apply IH].
Qed.
Definition reached (turns : list (Turn unit)) : Sink unit := default (sink_new 1 "kafka") (run (sink_new 1 "kafka") turns).
Lemma sink_reached_reachable turns : is_Some (run (sink_new 1 "kafka") turns) → sink_reachable (reached turns).
Proof. intros [s Hs]. exists 1, "kafka". unfold reached. rewrite Hs. by eapply run_rtc. Qed.

Definition orders : KafkaEndpointConfig := MkKafkaEndpoint 10 "orders" 1 false true true "orders" 0 "" 3.
Definition example_config : RuntimeConfig unit :=
  MkRuntimeConfig FunctionCall ∅ ∅ ∅ ∅ ∅ {[1 := KafkaConnector example_connector]} ∅ {[10 := KafkaEndpoint orders]} ∅ ∅ ∅ ∅.
(** The sink's endpoint is added, and a start waits for the topics. *)
Definition creating : list (Turn unit) :=
  [TAdd orders; TStart example_config; TStarting 0 TNext; TStarting 0 TNext; TStarting 0 (TConnect (Ok tt) (inr tt) (inr tt))].
Definition topics_made : Turn unit := TStarting 0 (TTopics example_config (λ topics, Ok (const TopicOk <$> topics))).
Definition finish_start : list (Turn unit) :=
  [topics_made; TStarting 0 (TMetadata (inr {["orders" := 4]})); TStarting 0 TNext; TStarting 0 TNext; TStarting 0 TNext; TStarting 0 TNext].
(** The sink runs, and a message is in [producer.send]. *)
Definition sending : list (Turn unit) :=
  creating ++ finish_start ++ [TSend 0 None true "orders" None [] ∅; TDelivery 1 (inl ""); TDelivery 1 (inl "")].
Definition delivered : list (Turn unit) := sending ++ [TDelivery 1 (inr (3, 7)); TDelivery 1 (inl "")].

Lemma kafka_sink_answered_witness : 1%nat ∈ handed (reached delivered).
Proof.
  refine (proj1 (proj1 (proj2 (kafka_sink_answered (reached delivered) 1 (MkDelivery (MkMessage "orders" None [] None ∅) true None (DDone (inr (3, 7)))) _ _)) 3 7 _)).
  - apply sink_reached_reachable. vm_compute. by eexists.
  - by vm_compute.
  - reflexivity.
Defined.
Lemma kafka_sink_ready_witness : is_Some (producer (reached delivered)).
Proof.
  refine (proj2 (proj2 (kafka_sink_ready (reached delivered) 0 (MkEndpointState 10 true 4) _ _) _) _).
  - apply sink_reached_reachable. vm_compute. by eexists.
  - by vm_compute.
  - by vm_compute.
  - reflexivity.
Defined.
Definition waiting : list (Turn unit) := delivered ++ [TStop; TStopping 2 false false].
Lemma kafka_sink_drained_witness : k_state (reached (waiting ++ [TStopping 2 false false])) = 3.
Proof.
  refine (proj1 (proj2 (kafka_sink_drained (reached delivered) (reached waiting) 2 (reached (waiting ++ [TStopping 2 false false]))
    (reached (waiting ++ [TStopping 2 false false])) _ _ _ _ _ _))).
  - apply sink_reached_reachable. vm_compute. by eexists.
  - intros a r g Ha.
    assert (map_Forall (λ _ p, active p.2 = false) (starts (reached delivered))) as Hf by (apply (bool_decide_unpack _); by vm_compute).
    exact (Hf a (r, g) Ha).
  - apply (run_rtc _ _ [TStopping 2 false false]). by vm_compute.
  - by vm_compute.
  - by vm_compute.
  - done.
Defined.

(** A stop beside a start that waits for its topics returns, and the start
    then runs the stopped connector. *)
Theorem start_outlives_stop :
  stops (reached (creating ++ [TStop; TStopping 1 false false; TStopping 1 false false; TStopping 1 false false])) !! 1%nat
    = Some (PReturned (Ok tt)) ∧
  k_state (reached (creating ++ [TStop; TStopping 1 false false; TStopping 1 false false; TStopping 1 false false] ++ finish_start)) = 2.
Proof. split; by vm_compute. Qed.
(** A stop whose wait is cancelled is not resumed: the next one answers at
    once, while the message is still in [producer.send]. *)
Theorem second_stop_skips_drain :
  let s := reached (sending ++ [TStop; TStopping 2 false false; TStopping 2 true false; TStop]) in
  stops s !! 2%nat = Some (PReturned (Err ContextCancelled)) ∧ stops s !! 3%nat = Some (PReturned (Ok tt)) ∧
  (d_pc <$> deliveries s !! 1%nat) = Some (DProduce 0).
Proof. cbv zeta. split_and!; by vm_compute. Qed.
(** A start that fails on the broker's metadata leaves the connector neither
    started nor startable, unlike one that fails on the topics. *)
Theorem failed_metadata_blocks_start :
  let s := reached (creating ++ [topics_made; TStarting 0 (TMetadata (inl "timed out")); TStart example_config]) in
  k_state s = 1 ∧ (snd <$> starts s !! 0%nat) = Some (SReturned (Some (Err (Transport "timed out")))) ∧
  (snd <$> starts s !! 1%nat) = Some (SReturned (Some (Err (ResourceAlreadyStarted "kafka")))) ∧
  k_state (reached (creating ++ [TStarting 0 (TTopics example_config (λ _, Err "timed out")); TStarting 0 TNext])) = 0.
Proof. cbv zeta. split_and!; by vm_compute. Qed.
