(* ===== verification/HttpSink.v ===== *)
(** The HTTP sink, [src/src/datasink/http/reqwest.rs].

    [ResponseBody] shares its state with the guard of the call: a store
    location here.  The transport's body is its script of polls, the client
    and the handler are functions of what they are given, and a call is the
    sequence of its handler, client and metric calls.  Spans are left out. *)

From Stdlib Require Import Ascii.
From S2P Require Import Prelude Errors SortedMap Context Config Metrics Requests Telemetry.
Local Open Scope Z_scope.

(** * The response body *)
(** What the transport's reader does, poll by poll. *)
Inductive Poll := PollChunk (bytes : list byte) | PollError (error : string) | PollPending.
Inductive Ready := ReadOk (bytes : list byte) | ReadErr (error : string) | Pending.
(** [poll_read] of the reader into a buffer with [remaining] free bytes; an
    ended script is the end of the body. *)
Definition poll_reader (reader : list Poll) (remaining : nat) : Ready * list Poll :=
  match reader with
  | [] => (ReadOk [], [])
  | PollPending :: reader => (Pending, reader)
  | PollError e :: reader => (ReadErr e, reader)
  | PollChunk bytes :: reader =>
      if decide (length bytes ≤ remaining)%nat then (ReadOk bytes, reader)
      else (ReadOk (take remaining bytes), PollChunk (drop remaining bytes) :: reader)
  end.
(** [ResponseBodyState]; a waker is its task. *)
Record ResponseBodyState := MkBodyState { reader : option (list Poll); closed : bool; waker : option nat }.
Implicit Types b : ResponseBodyState.
Definition body_new (r : list Poll) : ResponseBodyState := MkBodyState (Some r) false None.
(** [close_response_body]: the new state and the waker to wake. *)
Definition close_response_body b : ResponseBodyState * option nat := (MkBodyState None true None, waker b).
(** [poll_read] by [task] *)
Definition closed_error : string := "HTTP response body is closed".
Definition poll_read b (remaining task : nat) : Ready * ResponseBodyState :=
  if decide (remaining = 0%nat) then (ReadOk [], b)
  else if closed b then (ReadErr closed_error, b)
  else match reader b with
       | None => (ReadOk [], b)
       | Some r =>
           let '(answer, r) := poll_reader r remaining in
           match answer with
           | ReadOk [] | ReadErr _ => (answer, MkBodyState None (closed b) None)
           | ReadOk _ => (answer, MkBodyState (Some r) (closed b) None)
           | Pending => (Pending, MkBodyState (Some r) (closed b) (Some task))
           end
       end.
(** [bytes]: polls with a buffer of [size] until the end or an error, on
    fuel; [None] when it runs out. *)
Fixpoint read_to_end (fuel size task : nat) b (read : list byte) : option (string + list byte) * ResponseBodyState :=
  match fuel with
  | O => (None, b)
  | S fuel =>
      match poll_read b size task with
      | (ReadOk [], b) => (Some (inr read), b)
      | (ReadOk bytes, b) => read_to_end fuel size task b (read ++ bytes)
      | (ReadErr e, b) => (Some (inl e), b)
      | (Pending, b) => read_to_end fuel size task b read
      end
  end.

(** * Requests *)
Record Request := MkRequest {
  rq_method : string; rq_url : string; rq_body : list byte; rq_headers : gmap string string; rq_timeout : option Z }.
Definition new_request (method url : string) (body : list byte) : Request := MkRequest method url body ∅ None.
(** [Requester]: the last request the handler made. *)
Definition requester_insert (requester : option Request) (request : Request) : option Request := Some request.
Definition no_request : string := "HTTP sink handler did not create a request".
Definition take_request (requester : option Request) : string + Request :=
  match requester with Some request => inr request | None => inl no_request end.
(** The timeout [perform] gives the transport. *)
Definition perform_timeout (request remaining : option Z) : option Z :=
  match request, remaining with
  | Some r, Some c => Some (Z.min r c)
  | Some r, None => Some r
  | None, Some c => Some c
  | None, None => None
  end.
(** [Response] with its body's location. *)
Record Response := MkResponse { rs_status : Z; rs_body : nat; rs_length : option Z; rs_headers : gmap string string }.
Definition is_error (r : Response) : bool := 400 <=? rs_status r.

(** * Construction *)
Definition method_name (m : Api.HTTPMethodType) : string :=
  match m with
  | Api.GET => "GET" | Api.POST => "POST" | Api.PUT => "PUT" | Api.PATCH => "PATCH" | Api.DELETE => "DELETE"
  | Api.HEAD => "HEAD" | Api.OPTIONS => "OPTIONS" | Api.TRACE => "TRACE" | Api.CONNECT => "CONNECT" | Api.HMUndefined => ""
  end.
Fixpoint drop_slashes (l : list ascii) : list ascii :=
  match l with c :: l => if Ascii.eqb c "/"%char then drop_slashes l else c :: l | [] => [] end.
(** [trim_end_matches('/')] *)
Definition trim_end_slash (s : string) : string := String.string_of_list_ascii (reverse (drop_slashes (reverse (chars s)))).
Definition metric_url (address path : string) : string :=
  trim_end_slash address +:+ (match chars path with c :: _ => if Ascii.eqb c "/"%char then "" else "/" | [] => "/" end) +:+ path.
Record HttpSinkHandles := MkHttpSinkHandles {
  hs_messages_total : Handle; hs_request_errors : Handle; hs_begin_request_failed : Handle; hs_active_requests : Handle;
  hs_request_duration : Handle; hs_client : HttpClientMetrics }.
(** [parsed] is what the URL parser makes of the metric URL. *)
Definition make_endpoint_consumer (m : Metrics World) (endpoint : HttpEndpointConfig) (connector : HttpDataConnectorConfig)
    (parsed : option (option string * option Z)) : RuntimeResult HttpSinkHandles * Metrics World :=
  let '(client, m) := http_client_new m (method_name (http_method_type endpoint))
    (metric_url (hc_address connector) (he_path endpoint)) parsed in
  let sc := scope "datasink_endpoint" (sm_extend [] [("connector", hc_name connector); ("endpoint", he_name endpoint)]) in
  let event_counter name m := counter m sc "events_total" "Total number of events in data sink endpoint" [("event", name)] in
  let '(h, m) :=
    reg_bind (counter m sc "messages_total" "Total number of successfully processed messages in data sink endpoint" []) (λ h1 m,
    reg_bind (event_counter "request_error" m) (λ h2 m,
    reg_bind (event_counter "begin_request_failed" m) (λ h3 m,
    reg_bind (gauge m sc "active_requests" "Number of active requests in data sink endpoint" []) (λ h4 m,
    reg_bind (histogram m sc "request_duration_seconds" "Request duration in seconds for data sink endpoint" [] None) (λ h5 m,
      (Ok (MkHttpSinkHandles h1 h2 h3 h4 h5 client), m)))))) in
  (map_err MetricsErr h, m).

(** * One message *)
Section consume.
Context {Token Otel Any St T : Type}.
Notation Ctx := (MessageContext Token Otel Any).
Notation HandlerResult A := (string + A)%type.
(** The bodies that exist. *)
Notation Store := (gmap nat ResponseBodyState).
Context (span_valid : Otel → bool) (inject : Otel → gmap string string → gmap string string).
(** [EndpointHandler]; [consume_message] also answers the requests it built;
    a handler may read, close or keep the body it is given. *)
Record EndpointHandler := MkHandler {
  begin_request : Ctx → HandlerResult (Ctx * St);
  consume_message : Ctx → St → T → list Request * HandlerResult unit * St;
  handle_response : Ctx → St → Response → Store → HandlerResult unit * St * Store;
  end_request : Ctx → HandlerResult unit → St → Store → Store }.
Notation Client := (Ctx → Request → Store → HandlerResult Response * Store).
Inductive Event :=
| EBegin (context : Ctx)
| EConsume (context : Ctx) (value : T)
| ECall (context : Ctx) (request : Request)
| EHandle (context : Ctx) (response : Response)
| EEnd (context : Ctx) (result : HandlerResult unit)
| EClose (body : nat)
| MBeginFailed | MStart | MEnd (ok : bool)
| MClient (status : option Z) (length : option Z) (error : bool).
(** [EndpointConsumer]: whether its stream exists, its metrics and those of
    its client are enabled, and the environment traces. *)
Record EndpointConsumer := MkConsumer { ec_alive : bool; ec_metrics : bool; ec_client_metrics : bool; ec_tracing : bool }.
Implicit Types (e : EndpointConsumer) (h : EndpointHandler).
Definition is_ok {A} (r : HandlerResult A) : bool := match r with inr _ => true | inl _ => false end.
Definition when (b : bool) (event : Event) : list Event := if b then [event] else [].
(** [ResponseBodyGuard] is dropped. *)
Definition guard_drop (body : option nat) (store : Store) : list Event * Store :=
  match body with
  | None => ([], store)
  | Some l => ([EClose l], alter (λ b, (close_response_body b).1) l store)
  end.
(** The call, once a request was built: its events, its result and the body to
    close. *)
Definition perform_call e h (client : Client) (request_context ctx : Ctx) (st : St) (request : Request) (store : Store) :
    list Event * HandlerResult unit * St * option nat * Store :=
  match client request_context request store with
  | (inr response, store) =>
      let '(result, st, store) := handle_response h ctx st response store in
      ([ECall request_context request] ++ when (ec_client_metrics e) (MClient (Some (rs_status response)) (rs_length response) false) ++
       [EHandle ctx response], result, st, Some (rs_body response), store)
  | (inl error, store) =>
      ([ECall request_context request] ++ when (ec_client_metrics e) (MClient None None true), inl error, st, None, store)
  end.
Definition with_headers (request : Request) (headers : gmap string string) : Request :=
  MkRequest (rq_method request) (rq_url request) (rq_body request) headers (rq_timeout request).
(** From the answer of [consume_message], with the requests it built, to
    [end_request]. *)
Definition exchange e h (client : Client) (request_context ctx : Ctx) (st : St) (built : list Request) (result : HandlerResult unit)
    (store : Store) : list Event * HandlerResult unit * St * option nat * Store :=
  match result with
  | inl error => ([], inl error, st, None, store)
  | inr _ =>
      match take_request (foldl requester_insert None built) with
      | inl error => ([], inl error, st, None, store)
      | inr request =>
          perform_call e h client request_context ctx st
            (with_headers request
               (extend_transport_metadata_with_tracing span_valid inject request_context (rq_headers request) (ec_tracing e))) store
      end
  end.
Definition consume e h (client : Client) (context : Ctx) (value : T) (new_stream_id : string) (store : Store) : list Event * Store :=
  if ec_alive e then
    match begin_request h context with
    | inl _ => ([EBegin context] ++ when (ec_metrics e) MBeginFailed, store)
    | inr (ctx, st) =>
        let request_context := with_stream_id ctx new_stream_id in
        let '(built, result, st) := consume_message h ctx st value in
        let '(events, result, st, body, store) := exchange e h client request_context ctx st built result store in
        let store := end_request h ctx result st store in
        let '(close, store) := guard_drop body store in
        ([EBegin context] ++ when (ec_metrics e) MStart ++ [EConsume ctx value] ++ events ++ [EEnd ctx result] ++
         when (ec_metrics e) (MEnd (is_ok result)) ++ close, store)
    end
  else ([], store).
End consume.

(** * Lemmas *)
Definition contents_step (r : string + list byte) (bytes : list byte) : string + list byte :=
  match r with inr l => inr (bytes ++ l) | inl e => inl e end.
(** What a body holds: the bytes up to its end, or the error before. *)
Fixpoint contents (reader : list Poll) : string + list byte :=
  match reader with
  | [] | PollChunk [] :: _ => inr []
  | PollPending :: reader => contents reader
  | PollError e :: _ => inl e
  | PollChunk bytes :: reader => contents_step (contents reader) bytes
  end.
(** A bound on the polls a reader answers. *)
Fixpoint polls (reader : list Poll) : nat :=
  match reader with
  | [] => 1
  | PollChunk bytes :: reader => S (length bytes) + polls reader
  | _ :: reader => S (polls reader)
  end.
Lemma contents_step_app r (x y : list byte) : contents_step (contents_step r y) x = contents_step r (x ++ y).
Proof. destruct r; cbn; [done|]. by rewrite app_assoc. Qed.
Lemma read_to_end_spec fuel size task r w read :
  (0 < size)%nat → (polls r ≤ fuel)%nat →
  ∃ b, read_to_end fuel size task (MkBodyState (Some r) false w) read = (Some (contents_step (contents r) read), b) ∧
    reader b = None ∧ closed b = false.
Proof.
  intros Hsize. revert r w read. induction fuel as [|fuel IH]; intros r w read Hfuel.
  { destruct r as [|[] r]; cbn in Hfuel; lia. }
  cbn [read_to_end]. unfold poll_read. rewrite decide_False by lia. cbn [closed reader].
  destruct r as [|[bytes|e|] r]; cbn [poll_reader]; cbn in Hfuel.
  - eexists. split; [cbn; by rewrite app_nil_r|done].
  - case_decide as Hlen.
    + destruct bytes as [|c bytes]; [eexists; split; [cbn; by rewrite app_nil_r|done]|].
      destruct (IH r None (read ++ c :: bytes)) as (b & Hb & Hr); [lia|]. exists b. split; [|done]. rewrite Hb.
      cbn [contents]. by rewrite contents_step_app.
    + destruct bytes as [|c bytes]; [cbn in Hlen; lia|]. destruct size as [|size]; [lia|]. cbn [take drop] in *.
      destruct (IH (PollChunk (drop size bytes) :: r) None (read ++ c :: take size bytes)) as (b & Hb & Hr).
      { cbn [polls]. rewrite length_drop. cbn in *. lia. }
      exists b. split; [|done]. rewrite Hb. cbn [contents]. cbn in Hlen.
      destruct (drop size bytes) as [|c' rest] eqn:Hd.
      { apply (f_equal length) in Hd. rewrite length_drop in Hd. cbn in Hd. lia. }
      rewrite !contents_step_app, <-Hd, <-app_assoc. cbn. by rewrite take_drop.
  - eexists. by split.
  - destruct (IH r (Some task) read) as (b & Hb & Hr); [lia|]. exists b. split; [exact Hb|done].
Qed.

(** * Properties *)
(** reading a response body to its end gives exactly the bytes of the
    transport's chunks in order, whatever the buffer and however often the
    transport is not ready, or the transport's error; it takes at most as many
    polls as chunks and bytes, and releases the reader. *)
Theorem response_body_bytes script size task fuel :
  (0 < size)%nat → (polls script ≤ fuel)%nat →
  ∃ b, read_to_end fuel size task (body_new script) [] = (Some (contents script), b) ∧ reader b = None ∧ closed b = false.
Proof.
  intros Hs Hf. destruct (read_to_end_spec fuel size task script None [] Hs Hf) as (b & Hb & Hr). exists b.
  split; [|done]. unfold body_new. rewrite Hb. by destruct (contents script).
Qed.
(** Closing releases the reader, makes every later read fail, and wakes the
    task that waits for the body. *)
Theorem response_body_closed b task remaining later :
  (0 < remaining)%nat → (0 < later)%nat →
  let '(closed_body, woken) := close_response_body (poll_read b remaining task).2 in
  reader closed_body = None ∧ poll_read closed_body later task = (ReadErr closed_error, closed_body) ∧
  ((poll_read b remaining task).1 = Pending → woken = Some task).
Proof.
  intros Hr Hl. unfold close_response_body. split_and!; [done|unfold poll_read; by rewrite decide_False by lia|].
  unfold poll_read. rewrite decide_False by lia. destruct (closed b); [done|]. destruct (reader b) as [r|]; [|done].
  unfold poll_reader. destruct r as [|[bytes|e|] r]; try done.
  destruct remaining as [|n]; [lia|]. case_decide; destruct bytes as [|c bytes]; by cbn.
Qed.

Section order.
Context {Token Otel Any St T : Type} (span_valid : Otel → bool) (inject : Otel → gmap string string → gmap string string).
Notation Ctx := (MessageContext Token Otel Any).
Notation Ev := (Event (Token := Token) (Otel := Otel) (Any := Any) (T := T)).
Notation Store := (gmap nat ResponseBodyState).
Implicit Types (h : EndpointHandler (Token := Token) (Otel := Otel) (Any := Any) (St := St) (T := T)).
Definition called (ev : Ev) : option (Ctx * Request) := match ev with ECall c q => Some (c, q) | _ => None end.
Definition ended (ev : Ev) : option (string + unit) := match ev with EEnd _ r => Some r | _ => None end.
Definition released (ev : Ev) : option nat := match ev with EClose l => Some l | _ => None end.
Definition received (ev : Ev) : option nat := match ev with EHandle _ r => Some (rs_body r) | _ => None end.
(** What the call between [consume_message] and [end_request] does. *)
Lemma perform_call_events e h client rc ctx st request store :
  let '(events, result, st', body, store') := perform_call e h client rc ctx st request store in
  omap called events = [(rc, request)] ∧ omap ended events = [] ∧ omap released events = [] ∧
  omap received events = option_list body.
Proof.
  unfold perform_call. destruct (client rc request store) as [[error|response] store1].
  - by destruct (ec_client_metrics e).
  - destruct (handle_response h ctx st response store1) as [[result st1] store2]. by destruct (ec_client_metrics e).
Qed.
(** The same of all that comes after [consume_message]. *)
Lemma exchange_events e h client rc ctx st built result store :
  let '(events, result', st', body, store') := exchange span_valid inject e h client rc ctx st built result store in
  omap ended events = [] ∧ omap released events = [] ∧ omap received events = option_list body ∧
  (omap called events = [] ∨ ∃ q, last built = Some q ∧ omap called events =
    [(rc, with_headers q (extend_transport_metadata_with_tracing span_valid inject rc (rq_headers q) (ec_tracing e)))]).
Proof.
  unfold exchange. destruct result as [error|u]; [by split_and!; auto|].
  assert (foldl requester_insert None built = last built) as ->.
  { clear. induction built as [|q built IH] using rev_ind; [done|]. by rewrite foldl_snoc, last_snoc. }
  destruct (last built) as [q|]; cbn [take_request]; [|by split_and!; auto].
  pose proof (perform_call_events e h client rc ctx st
    (with_headers q (extend_transport_metadata_with_tracing span_valid inject rc (rq_headers q) (ec_tracing e))) store) as Hp.
  destruct (perform_call _ _ _ _ _ _ _ _) as [[[[events r1] s1] b1] store1]. destruct Hp as (H1 & H2 & H3 & H4).
  split_and!; try done. right. by exists q.
Qed.

(** a message that reaches an HTTP sink calls the client at most once,
    with the last request its handler built, under a fresh stream identifier
    that the request's headers carry; [end_request] is called exactly once,
    and the body of the response, whoever kept it, is closed after it and
    stays readable by nobody. *)
Theorem http_sink_order e h client context value id (store : Store) ctx st :
  ec_alive e = true → begin_request h context = inr (ctx, st) →
  ∃ before result after store',
    consume span_valid inject e h client context value id store = (before ++ EEnd ctx result :: after, store') ∧
    omap ended (before ++ after) = [] ∧ omap called after = [] ∧
    (∀ rc request, omap called before = [(rc, request)] →
       stream_id rc = Some id ∧ ∃ built, last (consume_message h ctx st value).1.1 = Some built ∧
         rq_url request = rq_url built ∧ rq_body request = rq_body built ∧
         (ec_tracing e = false → rq_headers request !! STREAM_ID_HEADER = Some id)) ∧
    (length (omap called before) ≤ 1)%nat ∧
    omap received before = omap released after ∧ omap released before = [] ∧
    (∀ l b remaining task, l ∈ omap released after → store' !! l = Some b → (0 < remaining)%nat →
       (poll_read b remaining task).1 = ReadErr closed_error).
Proof.
  intros Ha Hb. unfold consume. rewrite Ha, Hb. destruct (consume_message h ctx st value) as [[built result] st1] eqn:Hc.
  set (rc := with_stream_id ctx id). pose proof (exchange_events e h client rc ctx st1 built result store) as Hx.
  destruct (exchange _ _ _ _ _ _ _ _ _ _ _) as [[[[events result1] st2] body] store1]. destruct Hx as (Hen & Hre & Hrc & Hca).
  set (store2 := end_request h ctx result1 st2 store1).
  set (guard := guard_drop (Otel := Otel) (Any := Any) (Token := Token) (T := T) body store2).
  assert (Hg : omap ended guard.1 = [] ∧ omap called guard.1 = [] ∧ omap released guard.1 = option_list body ∧
    ∀ l b, l ∈ option_list body → guard.2 !! l = Some b → closed b = true).
  { subst guard. destruct body as [l|]; cbn; split_and!; try done; [|by intros ? ? ?%elem_of_nil].
    intros l' b ->%list_elem_of_singleton. rewrite lookup_alter_eq. destruct (store2 !! l); [|done]. by intros [= <-]. }
  destruct Hg as (Hg1 & Hg2 & Hg3 & Hg4).
  exists ([EBegin context] ++ when (ec_metrics e) MStart ++ [EConsume ctx value] ++ events), result1,
    (when (ec_metrics e) (MEnd (is_ok result1)) ++ guard.1), guard.2.
  split_and!; rewrite ?omap_app.
  - fold store2. fold guard. destruct guard. cbn. by rewrite <-!app_assoc.
  - rewrite Hen, Hg1. by destruct (ec_metrics e).
  - rewrite Hg2. by destruct (ec_metrics e).
  - assert (Hsame : omap called [EBegin context] ++ omap called (when (ec_metrics e) MStart) ++ omap called [EConsume ctx value] ++
      omap called events = omap called events) by by destruct (ec_metrics e).
    rewrite Hsame. intros rc' request Hr. destruct Hca as [Hca|(q & Hq & Hca)]; rewrite Hca in Hr; [done|]. injection Hr as <- <-.
    split; [cbn; by simplify_map_eq|]. exists q. split_and!; try done. intros Htr. cbn. rewrite Htr. unfold rc, with_stream_id. cbn.
    by simplify_map_eq.
  - assert (Hsame : omap called [EBegin context] ++ omap called (when (ec_metrics e) MStart) ++ omap called [EConsume ctx value] ++
      omap called events = omap called events) by by destruct (ec_metrics e).
    rewrite Hsame. destruct Hca as [-> |(q & _ & ->)]; cbn; lia.
  - rewrite Hrc, Hg3. by destruct (ec_metrics e).
  - rewrite Hre. by destruct (ec_metrics e).
  - intros l b remaining task Hl Hb' Hrem. assert (l ∈ option_list body) as Hl' by (rewrite Hg3 in Hl; by destruct (ec_metrics e)).
    unfold poll_read. rewrite decide_False by lia. by rewrite (Hg4 _ _ Hl' Hb').
Qed.
End order.

(** ** Examples *)
(** A body that is not ready at first, read three bytes at a time; its handler
    keeps the body of a 404. *)
Definition example_script : list Poll := [PollPending; PollChunk (Z_to_byte <$> [1; 2; 3; 4]); PollChunk (Z_to_byte <$> [5])].
Lemma response_body_bytes_witness :
  ∃ b, read_to_end 12 3 0 (body_new example_script) [] = (Some (inr (Z_to_byte <$> [1; 2; 3; 4; 5])), b) ∧ reader b = None ∧ closed b = false.
Proof. apply (response_body_bytes example_script 3 0 12); [lia|cbn; lia]. Defined.
Definition example_handler : EndpointHandler (Token := unit) (Otel := unit) (Any := unit) (St := unit) (T := unit) :=
  MkHandler (λ ctx, inr (ctx, tt)) (λ _ _ _, ([new_request "GET" "http://a/1" []; new_request "GET" "http://a/2" []], inr tt, tt))
    (λ _ _ _ store, (inr tt, tt, store)) (λ _ _ _ store, store).
Definition example_client : MessageContext unit unit unit → Request → gmap nat ResponseBodyState → (string + Response) * gmap nat ResponseBodyState :=
  λ _ _ store, (inr (MkResponse 404 0 None ∅), <[0%nat := body_new example_script]> store).
Lemma http_sink_order_witness :
  ∃ before result after store',
    consume (λ _, false) (λ _ md, md) (MkConsumer true true true false) example_handler example_client (new tt tt) tt "s-1" ∅ =
      (before ++ EEnd (new tt tt) result :: after, store') ∧ omap received before = omap released after.
Proof.
  destruct (http_sink_order (λ _, false) (λ _ md, md) (MkConsumer true true true false) example_handler example_client (new tt tt) tt "s-1" ∅
    (new tt tt) tt) as (before & result & after & store' & He & _ & _ & _ & _ & Hr & _); [reflexivity|reflexivity|].
  exists before, result, after, store'. split; [exact He|exact Hr].
Defined.
