(* ===== verification/HttpConnector.v ===== *)
(** The HTTP source connector, [AxumDataSource] of
    [src/src/datasource/http/axum.rs]: its router, and its listener, server
    task and request tracker over starts and stops.

    The service calls [start] and [stop] one after the other; each is split
    at its awaits, since requests come and go and the server may fail
    meanwhile.  axum's router is a parameter: which paths cannot be in one
    router.  The requests themselves are in [HttpSource]. *)

From Stdlib Require Import Ascii.
From stdpp Require Import pretty.
From S2P Require Import Prelude Errors SortedMap Config Environment Metrics Requests.
Local Open Scope Z_scope.

Section connector.
Context {Json : Type} (conflicts : string → string → bool).
Implicit Types r : RuntimeConfig Json.

(** * Routers *)
Notation Router := (list string).
(** [EndpointConsumer::router]; [Router::route] refuses a path that does not
    begin with a slash. *)
Definition endpoint_router (c : HttpEndpointConfig) : outcome RuntimeError Router :=
  match http_method_type c with
  | Api.HMUndefined => Ok []
  | _ => match chars (he_path c) with
         | "/"%char :: _ => Ok [he_path c]
         | _ => Panic
         end
  end.
Definition merge (a b : Router) : outcome RuntimeError Router :=
  if existsb (λ p, existsb (conflicts p) a) b then Panic else Ok (a ++ b).

(** * State *)
(** A server with its shutdown token; [sv_ended] is what its task answered. *)
Record Server := MkServer { sv_token : nat; sv_ended : option (string + unit) }.
(** What is under way: nothing, a start that binds its listener, a stop that
    waits for the server it took. *)
Inductive Op := Idle | Binding | Stopping (server : option nat).
(** [router] is [None] when its lock is poisoned; [closed] and [tracked] are
    the tracker's. *)
Record DataSource := MkHttpSource {
  a_id : Z; a_name : string; router : option Router; started : bool; shutdown : nat; cancelled : gset nat;
  server_task : option nat; servers : gmap nat Server; closed : bool; tracked : Z; op : Op; next_id : nat }.
Implicit Types d : DataSource.
Definition source_new (c : HttpDataConnectorConfig) : DataSource :=
  MkHttpSource (hc_id c) (hc_name c) (Some []) false 0 ∅ None ∅ false 0 Idle 1.
Definition set_router d (x : option Router) : DataSource :=
  MkHttpSource (a_id d) (a_name d) x (started d) (shutdown d) (cancelled d) (server_task d) (servers d) (closed d) (tracked d) (op d) (next_id d).
Definition set_started d (b : bool) : DataSource :=
  MkHttpSource (a_id d) (a_name d) (router d) b (shutdown d) (cancelled d) (server_task d) (servers d) (closed d) (tracked d) (op d) (next_id d).
Definition set_op d (o : Op) : DataSource :=
  MkHttpSource (a_id d) (a_name d) (router d) (started d) (shutdown d) (cancelled d) (server_task d) (servers d) (closed d) (tracked d) o (next_id d).
Definition set_tracker d (b : bool) (n : Z) : DataSource :=
  MkHttpSource (a_id d) (a_name d) (router d) (started d) (shutdown d) (cancelled d) (server_task d) (servers d) b n (op d) (next_id d).
Definition set_servers d (x : gmap nat Server) : DataSource :=
  MkHttpSource (a_id d) (a_name d) (router d) (started d) (shutdown d) (cancelled d) (server_task d) x (closed d) (tracked d) (op d) (next_id d).

(** * Endpoints *)
(** [add_endpoint]; [consumer] is the answer of
    [make_endpoint_consumer_with_tasks].  A panic while the router is taken
    leaves its lock poisoned. *)
Definition add_endpoint d (c : HttpEndpointConfig) (consumer : RuntimeResult unit) : RuntimeResult unit * DataSource :=
  if negb (he_connector c =? a_id d) then
    (Err (InvalidConfiguration ("HTTP endpoint " +:+ debug (he_name c) +:+ " references connector " +:+
       pretty (he_connector c) +:+ ", expected " +:+ pretty (a_id d))), d)
  else if started d then (Err (ResourceAlreadyStarted (a_name d)), d)
  else match consumer with
       | Ok _ =>
           match router d with
           | None => (Panic, d)
           | Some router =>
               match (routes ← endpoint_router c; merge router routes) with
               | Ok router => (Ok tt, set_router d (Some router))
               | _ => (Panic, set_router d None)
               end
           end
       | error => (error, d)
       end.
Definition connector_config r d : RuntimeResult HttpDataConnectorConfig :=
  connector ← ok_or (data_connector_by_id r (a_id d))
    (InvalidConfiguration ("HTTP data connector " +:+ pretty (a_id d) +:+ " is not configured"));
  match connector with
  | HttpConnector config => Ok config
  | _ => Err (InvalidConfiguration ("data connector " +:+ debug (a_name d) +:+ " is not HTTP"))
  end.
Definition listen_address (c : HttpDataConnectorConfig) : string :=
  if bool_decide (hc_address c = "") then hc_host c +:+ ":" +:+ pretty (hc_port c) else hc_address c.

(** * [start] *)
Definition start_begin r d : option (RuntimeResult unit) * DataSource :=
  if started d then (Some (Err (ResourceAlreadyStarted (a_name d))), d)
  else
    let d := set_started d true in
    match connector_config r d with
    | Ok config =>
        let d := set_tracker d false (tracked d) in
        if use_dedicated_listener config then (None, set_op d Binding) else (Some (Ok tt), d)
    | Err e => (Some (Err e), d)
    | Panic => (Some Panic, d)
    end.
(** The listener is bound, or not: the new shutdown token, then the server. *)
Definition start_bound d (bound : string + unit) : RuntimeResult unit * DataSource :=
  let d := set_op d Idle in
  match bound with
  | inl error => (Err (Transport error), set_started d false)
  | inr _ =>
      let token := next_id d in
      let d := MkHttpSource (a_id d) (a_name d) (router d) (started d) token (cancelled d) (server_task d) (servers d) (closed d)
                 (tracked d) (op d) (S token) in
      match router d with
      | None => (Panic, d)
      | Some _ =>
          (Ok tt, MkHttpSource (a_id d) (a_name d) (router d) (started d) token (cancelled d) (Some token)
                    (<[token := MkServer token None]> (servers d)) (closed d) (tracked d) (op d) (next_id d))
      end
  end.

(** * [stop] *)
(** The tracker is closed and the server told to shut down. *)
Definition shut_down d : DataSource :=
  MkHttpSource (a_id d) (a_name d) (router d) (started d) (shutdown d) ({[shutdown d]} ∪ cancelled d) (server_task d) (servers d) true
    (tracked d) (op d) (next_id d).
(** The [select!] polls the drain, which takes the server's task. *)
Definition stop_begin d : DataSource :=
  let d := shut_down d in
  MkHttpSource (a_id d) (a_name d) (router d) (started d) (shutdown d) (cancelled d) None (servers d) (closed d)
    (tracked d) (Stopping (server_task d)) (next_id d).
(** The [select!] is not biased: with a context already cancelled it may find
    that first, and the drain is dropped before it took anything. *)
Definition stop_skipped d : DataSource := set_started (shut_down d) false.
(** The drain is complete, the server's task failed, or the context ended. *)
Definition stop_end d (server : option nat) (context_cancelled : bool) : option (RuntimeResult unit * DataSource) :=
  let finish := (Ok tt, set_op (set_started d false) Idle) in
  if context_cancelled then Some finish
  else
    let joined := match server with None => Some (inr tt) | Some i => servers d !! i ≫= sv_ended end in
    match joined with
    | None => None
    | Some (inl error) => Some (Err (Transport error), set_op d Idle)
    | Some (inr _) => if closed d && bool_decide (tracked d = 0) then Some finish else None
    end.

(** * What happens meanwhile *)
(** A server ends once its token is cancelled, or fails. *)
Definition server_ends d (i : nat) (answer : string + unit) : option DataSource :=
  s ← servers d !! i;
  match sv_ended s with
  | Some _ => None
  | None =>
      if bool_decide (sv_token s ∈ cancelled d) || (match answer with inl _ => true | _ => false end)
      then Some (set_servers d (<[i := MkServer (sv_token s) (Some answer)]> (servers d))) else None
  end.
Inductive source_step d : DataSource → Prop :=
| hs_add c consumer : source_step d (add_endpoint d c consumer).2
| hs_start r : op d = Idle → source_step d (start_begin r d).2
| hs_bound bound : op d = Binding → source_step d (start_bound d bound).2
| hs_bind_dropped : op d = Binding → source_step d (set_op d Idle)
| hs_stop : op d = Idle → source_step d (stop_begin d)
| hs_stop_skipped : op d = Idle → source_step d (stop_skipped d)
| hs_stopped server context_cancelled answer d' :
    op d = Stopping server → stop_end d server context_cancelled = Some (answer, d') → source_step d d'
| hs_stop_dropped server : op d = Stopping server → source_step d (set_op d Idle)
| hs_server i answer d' : server_ends d i answer = Some d' → source_step d d'
| hs_request : closed d = false → source_step d (set_tracker d (closed d) (tracked d + 1))
| hs_request_ends : 0 < tracked d → source_step d (set_tracker d (closed d) (tracked d - 1)).
Definition source_reachable d : Prop := ∃ c, rtc source_step (source_new c) d.

(** * Lemmas *)
(** The server accepts connections. *)
Definition listening d (i : nat) : Prop := ∃ s, servers d !! i = Some s ∧ sv_ended s = None ∧ sv_token s ∉ cancelled d.
Record source_ok d : Prop := {
  so_fresh : (shutdown d < next_id d)%nat ∧ ∀ i, is_Some (servers d !! i) → (i < next_id d)%nat;
  so_listening : ∀ i, listening d i → shutdown d = i ∧ server_task d = Some i ∧ started d = true ∧ op d = Idle;
  so_token : ∀ i s, servers d !! i = Some s → sv_token s = i;
  so_tokens : ∀ i, i ∈ cancelled d → (i < next_id d)%nat;
  so_stopping : ∀ server, op d = Stopping server → closed d = true ∧ ∀ i, ¬ listening d i;
  so_binding : op d = Binding → started d = true ∧ ∀ i, ¬ listening d i;
  so_tracked : 0 ≤ tracked d }.

(** What a step may do without starting a server. *)
Lemma source_ok_same d d' :
  source_ok d → servers d' = servers d → cancelled d' = cancelled d → shutdown d' = shutdown d → server_task d' = server_task d →
  next_id d' = next_id d → op d' = op d → started d' = started d ∨ (started d' = true) → 0 ≤ tracked d' →
  (closed d' = closed d) → source_ok d'.
Proof.
  intros [Hf Hl Ht Hts Hs Hb Hk] Hsv Hc Hsh Hta Hn Ho Hst Htr Hcl.
  assert (Hli : ∀ i, listening d' i → listening d i) by (intros i; unfold listening; by rewrite Hsv, Hc).
  split; rewrite ?Hsv, ?Hc, ?Hsh, ?Hn; try done.
  - intros i Hi%Hli%Hl. rewrite Hta, Ho. destruct Hi as (? & ? & ? & ?). split_and!; try done. by destruct Hst as [-> | ->].
  - intros server. rewrite Ho, Hcl. intros [? Hnl]%Hs. split; [done|]. by intros i ?%Hli%Hnl.
  - rewrite Ho. intros [? Hnl]%Hb. split; [by destruct Hst as [-> | ->]|]. by intros i ?%Hli%Hnl.
Qed.
Lemma source_ok_idle d b : source_ok d → (∀ i, ¬ listening d i) → source_ok (set_op (set_started d b) Idle).
Proof.
  intros [Hf Hl Ht Hts Hs Hb Hk] Hn. split; cbn; try done. intros i Hi. by destruct (Hn i).
Qed.
Lemma start_bound_ok d bound : source_ok d → op d = Binding → source_ok (start_bound d bound).2.
Proof.
  intros Hok Ho. pose proof Hok as [Hf Hl Ht Hts Hs Hb Hk]. destruct (Hb Ho) as [Hst Hn]. unfold start_bound.
  destruct bound as [e|u]; [by apply source_ok_idle|]. cbn. destruct (router d) as [x|]; cbn.
  - destruct Hf as [Hf1 Hf2]. assert (Hnew : servers d !! next_id d = None) by (apply eq_None_not_Some; intros ?%Hf2; lia).
    split; cbn; try done.
    + split; [lia|]. intros i. rewrite lookup_insert_is_Some. intros [<-|[_ ?%Hf2]]; lia.
    + intros i (s & Hi & He & Htk). cbn in Hi, Htk. rewrite lookup_insert_Some in Hi. destruct Hi as [[<- <-]|[_ Hi]]; [done|].
      destruct (Hn i). by exists s.
    + intros i s. rewrite lookup_insert_Some. intros [[<- <-]|[_ Hi]]; [done|by apply Ht].
    + intros i Hi%Hts. lia.
  - destruct Hf as [Hf1 Hf2]. split; cbn; try done.
    + split; [lia|]. intros i ?%Hf2. lia.
    + intros i Hi. by destruct (Hn i).
    + intros i Hi%Hts. lia.
Qed.
Lemma shut_down_silent d : source_ok d → ∀ i, ¬ listening (shut_down d) i.
Proof.
  intros [Hf Hl Ht Hts Hs Hb Hk] i (s & Hi & He & Htk). cbn in Hi, Htk.
  destruct (Hl i) as [Hsh _]; [exists s; split_and!; try done; set_solver|]. specialize (Ht i s Hi). set_solver.
Qed.
Lemma shut_down_ok d : source_ok d → source_ok (shut_down d).
Proof.
  intros Hok. pose proof (shut_down_silent d Hok) as Hn. destruct Hok as [Hf Hl Ht Hts Hs Hb Hk]. split; cbn; try done.
  - intros i Hi. by destruct (Hn i).
  - intros i. rewrite elem_of_union, elem_of_singleton. intros [->|Hi]; [exact (proj1 Hf)|by apply Hts].
  - intros Ho. by destruct (Hb Ho).
Qed.
Lemma stop_begin_ok d : source_ok d → source_ok (stop_begin d).
Proof.
  intros Hok. pose proof (shut_down_silent d Hok) as Hn. apply shut_down_ok in Hok as [Hf Hl Ht Hts Hs Hb Hk].
  split; cbn; try done. intros i Hi. by destruct (Hn i).
Qed.
Lemma stop_skipped_ok d : source_ok d → op d = Idle → source_ok (stop_skipped d).
Proof.
  intros Hok Ho. pose proof (shut_down_silent d Hok) as Hn. apply shut_down_ok in Hok as [Hf Hl Ht Hts Hs Hb Hk].
  split; cbn; try done; rewrite ?Ho; try done. intros i Hi. by destruct (Hn i).
Qed.
Lemma server_ends_ok d i answer d' : source_ok d → server_ends d i answer = Some d' → source_ok d'.
Proof.
  intros [Hf Hl Ht Hts Hs Hb Hk] H. unfold server_ends in H. destruct (servers d !! i) as [s|] eqn:Hi; [|done]. cbn in H.
  destruct (sv_ended s) eqn:He; [done|]. destruct (_ || _); [|done]. injection H as <-.
  assert (Hli : ∀ j, listening (set_servers d (<[i := MkServer (sv_token s) (Some answer)]> (servers d))) j → listening d j).
  { intros j (x & Hj & Hx & Htk). cbn in Hj, Htk. rewrite lookup_insert_Some in Hj. destruct Hj as [[_ <-]|[_ Hj]]; [done|by exists x]. }
  destruct Hf as [Hf1 Hf2]. split; cbn; try done.
  - split; [done|]. intros j. rewrite lookup_insert_is_Some. intros [<-|[_ ?]]; apply Hf2; eauto.
  - intros j ?%Hli. by apply Hl.
  - intros j x. rewrite lookup_insert_Some. intros [[<- <-]|[_ Hj]]; [by apply (Ht i s)|by apply Ht].
  - intros server [? Hnl]%Hs. split; [done|]. by intros j ?%Hli%Hnl.
  - intros [? Hnl]%Hb. split; [done|]. by intros j ?%Hli%Hnl.
Qed.
Lemma http_source_step_ok d d' : source_step d d' → source_ok d → source_ok d'.
Proof.
  intros Hst Hok. pose proof Hok as [Hf Hl Ht Hts Hs Hb Hk].
  destruct Hst as [c consumer|r Ho|bound Ho|Ho|Ho|Ho|server cc answer d' Ho H|server Ho|i answer d' H|Hc|Hc].
  - unfold add_endpoint. repeat case_match; cbn; try done; (eapply source_ok_same; [exact Hok|try done..]; auto).
  - unfold start_begin. destruct (started d) eqn:Hsd; [done|]. assert (Hn : ∀ i, ¬ listening d i) by (intros i (_ & _ & ? & _)%Hl; congruence).
    destruct (connector_config r (set_started d true)) as [config|e|]; cbn; try (by apply (source_ok_same d); auto).
    destruct (use_dedicated_listener config); cbn; split; cbn; try done; rewrite ?Ho; try done; intros i Hi; by destruct (Hn i).
  - by apply start_bound_ok.
  - apply (source_ok_idle d (started d)); [done|]. by apply Hb.
  - by apply stop_begin_ok.
  - by apply stop_skipped_ok.
  - assert (Hn : ∀ i, ¬ listening d i) by by eapply Hs.
    unfold stop_end in H. destruct cc; [injection H as <- <-; by apply source_ok_idle|].
    destruct (match server with None => _ | Some i => _ end) as [[e|u]|]; [| |done].
    + injection H as <- <-. by apply (source_ok_idle d (started d)).
    + destruct (closed d && _); [|done]. injection H as <- <-. by apply source_ok_idle.
  - apply (source_ok_idle d (started d)); [done|]. by eapply Hs.
  - by eapply server_ends_ok.
  - apply (source_ok_same d); auto. cbn. lia.
  - apply (source_ok_same d); auto. cbn. lia.
Qed.
Lemma http_source_ok_reachable d : source_reachable d → source_ok d.
Proof.
  intros (c & Hs). refine (rtc_ind_r source_ok _ _ _ d Hs); [|intros x y _ Hxy; by eapply http_source_step_ok].
  split; cbn; try done; try set_solver.
  - split; [lia|]. by intros i [].
  - by intros i (s & Hi & _).
Qed.

(** * Properties *)
(** C18: an HTTP connector never has two servers that accept connections, over
    any starts and stops, failed binds, dropped calls and failing servers; the
    one it has is the one its next stop shuts down. *)
Theorem http_one_server d i j :
  source_reachable d → listening d i → listening d j → i = j ∧ server_task d = Some i ∧ started d = true.
Proof.
  intros Hok%http_source_ok_reachable Hi Hj. destruct (so_listening _ Hok i Hi) as (? & ? & ? & _).
  destruct (so_listening _ Hok j Hj) as (? & _). split_and!; [congruence|done|done].
Qed.
(** a stop of an HTTP connector that returns with its context alive leaves
    nothing behind: its server's task has ended, no server accepts
    connections, no request runs, new ones are turned away, and the connector
    can be started again. *)
Theorem http_stop_complete d server d' :
  source_reachable d → op d = Stopping server → stop_end d server false = Some (Ok tt, d') →
  (∀ i, server = Some i → ∃ s, servers d' !! i = Some s ∧ sv_ended s = Some (inr tt)) ∧ (∀ i, ¬ listening d' i) ∧
  tracked d' = 0 ∧ closed d' = true ∧
  ∀ r config, connector_config r d' = Ok config → (start_begin r d').1 = if use_dedicated_listener config then None else Some (Ok tt).
Proof.
  intros Hok%http_source_ok_reachable Ho H. destruct (so_stopping _ Hok _ Ho) as [Hc Hn]. unfold stop_end in H.
  destruct (match server with None => _ | Some i => _ end) as [[e|[]]|] eqn:Hj; [done| |done]. rewrite Hc in H. cbn in H.
  case_bool_decide as Htr; [|done]. injection H as <-. split_and!; try done.
  - intros i ->. destruct (servers d !! i) as [s|] eqn:Hi; [|done]. exists s. cbn in *. done.
  - intros r config Hcfg. unfold start_begin. cbn. change (connector_config r (set_started (set_op (set_started d false) Idle) true)) with
      (connector_config r (set_op (set_started d false) Idle)). rewrite Hcfg. by destruct (use_dedicated_listener config).
Qed.
(** Endpoints are refused with an error once the connector runs; a path that
    the router cannot take panics and poisons the router. *)
Theorem http_add_endpoint d c consumer :
  he_connector c = a_id d →
  (started d = true → add_endpoint d c consumer = (Err (ResourceAlreadyStarted (a_name d)), d)) ∧
  (started d = false → consumer = Ok tt → ∀ paths, router d = Some paths → http_method_type c ≠ Api.HMUndefined →
     (∃ p, p ∈ paths ∧ conflicts (he_path c) p = true) → add_endpoint d c consumer = (Panic, set_router d None)).
Proof.
  intros Hc. unfold add_endpoint. rewrite Hc, Z.eqb_refl. cbn. split; [by intros ->|].
  intros -> -> paths -> Hm (p & Hp & Hcp). unfold endpoint_router.
  assert (Hm' : merge paths [he_path c] = Panic).
  { unfold merge. cbn. rewrite orb_false_r. case_match eqn:Hex; [done|]. exfalso.
    assert (existsb (conflicts (he_path c)) paths = true) as He; [|congruence]. apply existsb_exists. exists p.
    split; [by apply list_elem_of_In|done]. }
  destruct (http_method_type c); try done; (destruct (chars (he_path c)) as [|a l]; [done|]);
    destruct (decide (a = "/"%char)) as [->|Hne]; cbn; try (by rewrite Hm');
    repeat case_match; try done; subst; by rewrite ?Hm'.
Qed.
End connector.

(** ** Examples *)
Definition example_connector : HttpDataConnectorConfig := MkHttpConnector 1 "http" "localhost" 8080 "" true.
Definition example_config : RuntimeConfig unit :=
  MkRuntimeConfig FunctionCall ∅ ∅ ∅ ∅ ∅ {[1 := HttpConnector example_connector]} ∅ ∅ ∅ ∅ ∅ ∅.
Definition running : DataSource := (start_bound (start_begin example_config (source_new example_connector)).2 (inr tt)).2.
(** A request is under way and a stop waits for it. *)
Definition draining : DataSource := stop_begin (set_tracker running false 1).
Definition served : DataSource :=
  set_tracker (default draining (server_ends draining 1 (inr tt))) true 0.
Lemma running_reachable : source_reachable (Json := unit) String.eqb running.
Proof.
  exists example_connector. apply (rtc_l _ _ (start_begin example_config (source_new example_connector)).2); [by apply hs_start|].
  apply rtc_once. by apply hs_bound.
Qed.
Lemma draining_reachable : source_reachable (Json := unit) String.eqb draining.
Proof.
  destruct running_reachable as (c & Hc). exists c. etrans; [exact Hc|].
  apply (rtc_l _ _ (set_tracker running false 1)); [by apply (hs_request _ running)|]. apply rtc_once. by apply hs_stop.
Qed.
Lemma served_reachable : source_reachable (Json := unit) String.eqb served.
Proof.
  destruct draining_reachable as (c & Hc). exists c. etrans; [exact Hc|].
  apply (rtc_l _ _ (default draining (server_ends draining 1 (inr tt)))); [by eapply (hs_server _ _ 1 (inr tt))|].
  apply rtc_once. by apply (hs_request_ends _ (default draining (server_ends draining 1 (inr tt)))).
Qed.
Lemma http_one_server_witness : listening running 1 ∧ server_task running = Some 1%nat.
Proof.
  assert (listening running 1) as H by (exists (MkServer 1 None); split_and!; [by vm_compute|done|apply (bool_decide_unpack _); by vm_compute]).
  split; [exact H|]. exact (proj1 (proj2 (http_one_server (Json := unit) String.eqb running 1 1 running_reachable H H))).
Defined.
Lemma http_stop_complete_witness :
  ∃ d', stop_end served (Some 1%nat) false = Some (Ok tt, d') ∧ tracked d' = 0.
Proof.
  exists (set_op (set_started served false) Idle). split; [by vm_compute|].
  refine (proj1 (proj2 (proj2 (http_stop_complete (Json := unit) String.eqb served (Some 1%nat) (set_op (set_started served false) Idle) served_reachable _ _)))).
  - reflexivity.
  - by vm_compute.
Defined.

(** A stop whose context ends answers [Ok] although its server and a request
    are still running. *)
Theorem cancelled_stop_reports_success :
  source_reachable (Json := unit) String.eqb draining ∧
  ∃ d', stop_end draining (Some 1%nat) true = Some (Ok tt, d') ∧ tracked d' = 1 ∧ servers d' !! 1%nat = Some (MkServer 1 None) ∧
    server_task d' = None.
Proof.
  split; [apply draining_reachable|]. eexists. split_and!; [reflexivity|by vm_compute..].
Qed.
(** A start that finds no configuration for its connector fails and leaves
    the connector marked as started: the next start is refused. *)
Theorem failed_start_stays_started :
  let config := with_default_call_semantics (Json := unit) FunctionCall in
  let '(answer, d) := start_begin config (source_new example_connector) in
  (∃ e, answer = Some (Err (InvalidConfiguration e))) ∧ servers d = ∅ ∧
  (start_begin example_config d).1 = Some (Err (ResourceAlreadyStarted "http")).
Proof. vm_compute. split_and!; [by eexists|done|done]. Qed.
