(* ===== verification/SourceEndpoints.v ===== *)
(** Building the endpoints of the HTTP, Kafka and local sources:
    [make_endpoint_consumer_with_tasks] of [src/src/datasource/http/axum.rs],
    [make_rdkafka_kafka_endpoint_consumer] of
    [src/src/datasource/kafka/rdkafka.rs] and [make_custom_endpoint_consumer] of
    [src/src/datasource/localsource/custom.rs]: the series they register, and
    what they change in the environment and in the input stream. *)

From stdpp Require Import pretty.
From S2P Require Import Prelude Errors SortedMap Config Environment Metrics Requests.
Local Open Scope Z_scope.

(** * Series *)
Record SourceHandles := MkSourceHandles {
  sh_messages_total : Handle; sh_events : list Handle; sh_active_requests : Handle;
  sh_pending_requests : PendingRequests; sh_request_duration : Handle }.
(** The counters of [events_total], one per event. *)
Fixpoint register_events (sc : MetricsScope) (events : list string) (m : Metrics World) : outcome MetricsError (list Handle) * Metrics World :=
  match events with
  | [] => (Ok [], m)
  | name :: events =>
      reg_bind (counter m sc "events_total" "Total number of events in data source endpoint" [("event", name)]) (λ h m,
      reg_bind (register_events sc events m) (λ hs m, (Ok (h :: hs), m)))
  end.
Definition source_handles_new (m : Metrics World) (labels : Labels) (events : list string) (table : nat) :
    outcome MetricsError SourceHandles * Metrics World :=
  let sc := scope "datasource_endpoint" labels in
  reg_bind (counter m sc "messages_total" "Total number of successfully processed messages in data source endpoint" []) (λ h1 m,
  reg_bind (register_events sc events m) (λ hs m,
  reg_bind (gauge m sc "active_requests" "Number of active requests in data source endpoint" []) (λ h2 m,
  reg_bind (Requests.pending_new m sc table) (λ h3 m,
  reg_bind (histogram m sc "request_duration_seconds" "Request duration in seconds for data source endpoint" [] None) (λ h4 m,
    (Ok (MkSourceHandles h1 hs h2 h3 h4), m)))))).
Definition endpoint_events : list string :=
  ["request_error"; "begin_request_failed"; "missing_stream_id"; "late_result"; "unknown_message_id"; "duplicate_message_id"].
Definition http_events : list string := endpoint_events ++ ["invalid_http_method"].

Lemma register_events_length sc events m l m' : register_events sc events m = (Ok l, m') → length l = length events.
Proof.
  revert m l. induction events as [|name events IH]; intros m l H; cbn in H; [by simplify_eq|].
  unfold reg_bind in H. repeat case_match; simplify_eq. cbn. f_equal. by eapply IH.
Qed.

(** * Wiring *)
Section wiring.
Context {Json Pool PriorityPool Endpoint Storage Buildable : Type} (id_of : Endpoint → Z).
(** The environment, the metrics, and the consumer of the input's results. *)
Record Wiring := MkWiring {
  w_env : RuntimeEnvironment Json Pool PriorityPool Endpoint Storage Buildable;
  w_metrics : Metrics World;
  w_result_consumer : option Endpoint }.
Implicit Types w : Wiring.
(** The end of the HTTP and Kafka constructions: the results, the pending map
    and the registry, in this order. *)
Definition attach w (m : Metrics World) (has_result : bool) (pending : Storage) (consumer : Endpoint) : RuntimeResult unit * Wiring :=
  let env := if has_result then register_storage (w_env w) pending else w_env w in
  let '(answer, env) := register_endpoint_consumer id_of env consumer in
  (answer, MkWiring env m (if has_result then Some consumer else w_result_consumer w)).
Definition make_with w (labels : Labels) (events : list string) (table : nat) (has_result : bool) (pending : Storage) (consumer : Endpoint) :
    RuntimeResult SourceHandles * Wiring :=
  match source_handles_new (w_metrics w) labels events table with
  | (Ok handles, m) =>
      let '(answer, w) := attach w m has_result pending consumer in (_ ← answer; Ok handles, w)
  | (Err e, m) => (Err (MetricsErr e), MkWiring (w_env w) m (w_result_consumer w))
  | (Panic, m) => (Panic, MkWiring (w_env w) m (w_result_consumer w))
  end.
Definition make_http_endpoint_consumer w (c : HttpEndpointConfig) (connector_name : string) (table : nat) (has_result : bool)
    (pending : Storage) (consumer : Endpoint) : RuntimeResult SourceHandles * Wiring :=
  if bool_decide (he_path c = "") then (Err (InvalidConfiguration "HTTP datasource endpoint path is empty"), w)
  else make_with w (sm_extend [] [("connector", connector_name); ("endpoint", he_name c)]) http_events table has_result pending consumer.
Definition make_kafka_endpoint_consumer w (c : KafkaEndpointConfig) (connector : KafkaDataConnectorConfig) (table : nat) (has_result : bool)
    (pending : Storage) (consumer : Endpoint) : RuntimeResult SourceHandles * Wiring :=
  make_with w (sm_extend [] [("connector", kc_name connector); ("endpoint", ke_name c)]) endpoint_events table has_result pending consumer.
(** The local source registers before it takes the results over. *)
Definition make_custom_endpoint_consumer w (c : CustomEndpointConfig) (table : nat) (has_result : bool) (pending : Storage)
    (consumer : Endpoint) : RuntimeResult SourceHandles * Wiring :=
  match custom_endpoint_metric_labels (runtime_config (w_env w)) c with
  | Ok labels =>
      match source_handles_new (w_metrics w) labels endpoint_events table with
      | (Ok handles, m) =>
          let env := if ue_enabled c && has_result then register_storage (w_env w) pending else w_env w in
          let '(answer, env) := register_endpoint_consumer id_of env consumer in
          match answer with
          | Ok _ => (Ok handles, MkWiring env m (Some consumer))
          | Err e => (Err e, MkWiring env m (w_result_consumer w))
          | Panic => (Panic, MkWiring env m (w_result_consumer w))
          end
      | (Err e, m) => (Err (MetricsErr e), MkWiring (w_env w) m (w_result_consumer w))
      | (Panic, m) => (Panic, MkWiring (w_env w) m (w_result_consumer w))
      end
  | Err e => (Err e, w)
  | Panic => (Panic, w)
  end.

(** * Properties *)
Lemma attach_endpoint w m has_result pending consumer :
  endpoint_consumer (w_env (attach w m has_result pending consumer).2) (id_of consumer) = Some consumer.
Proof. unfold attach, endpoint_consumer. destruct has_result; cbn; by simplify_map_eq. Qed.
(** What a new endpoint changes: it is the one found under its identifier;
    with a result stream it gets the results, and its pending map is one more
    storage of the environment; the other endpoints stay. *)
Theorem endpoint_wired w labels events table has_result pending consumer handles w' :
  make_with w labels events table has_result pending consumer = (Ok handles, w') →
  endpoint_consumer (w_env w) (id_of consumer) = None ∧
  (∀ id, endpoint_consumer (w_env w') id = if decide (id = id_of consumer) then Some consumer else endpoint_consumer (w_env w) id) ∧
  storages (w_env w') = storages (w_env w) ++ (if has_result then [pending] else []) ∧
  w_result_consumer w' = (if has_result then Some consumer else w_result_consumer w) ∧
  length (sh_events handles) = length events.
Proof.
  unfold make_with. destruct (source_handles_new (w_metrics w) labels events table) as [[h|e|] m] eqn:Hh; try done.
  assert (Hlen : length (sh_events h) = length events)
    by (unfold source_handles_new, reg_bind in Hh; repeat case_match; simplify_eq; by eapply register_events_length).
  unfold attach, register_endpoint_consumer, endpoint_consumer. destruct has_result; cbn; case_decide as Hd; intros H; cbn in H; simplify_eq; cbn;
    (split_and!; [by apply eq_None_not_Some|intros id; case_decide; [subst; by apply lookup_insert_eq|by apply lookup_insert_ne]|
      by rewrite ?app_nil_r|done|exact Hlen]).
Qed.
(** An endpoint that is refused because its identifier is taken has already
    taken over the input's results, and the place of the other one. *)
Theorem refused_endpoint_takes_results w labels events table pending consumer old handles m :
  source_handles_new (w_metrics w) labels events table = (Ok handles, m) →
  endpoint_consumer (w_env w) (id_of consumer) = Some old →
  let '(answer, w') := make_with w labels events table true pending consumer in
  answer = Err (DuplicateResource ("endpoint consumer " +:+ pretty (id_of consumer))) ∧
  w_result_consumer w' = Some consumer ∧ endpoint_consumer (w_env w') (id_of consumer) = Some consumer.
Proof.
  intros Hh Ho. unfold make_with. rewrite Hh. unfold attach, register_endpoint_consumer. cbn.
  rewrite decide_True by (unfold endpoint_consumer in Ho; rewrite Ho; by eexists). cbn. split_and!; [done|done|].
  unfold endpoint_consumer. cbn. by simplify_map_eq.
Qed.
End wiring.
