(* ===== verification/Codec.v ===== *)
(** What serde's derived code writes and reads.

    [src/src/api/serviceapi.rs] derives [Serialize] and [Deserialize] (and their
    [_repr] variants for the numbered enums) for every type.  A [Doc] is a value
    of serde's data model, the text format being third-party; a [Codec] is one
    type's pair of functions with its laws, and structs are built field by
    field as the derive does it: [skip_serializing_if = Option::is_none] for
    optional fields and [deny_unknown_fields].  Only the forms the derived code
    itself writes are read, and an integer where a float is expected. *)

From S2P Require Import Prelude SortedMap Metrics.
Local Open Scope Z_scope.

Inductive Doc :=
| DNull | DBool (b : bool) | DInt (z : Z) | DFloat (f : f64) | DText (s : string)
| DSeq (l : list Doc) | DMap (l : list (string * Doc)).

(** * Codecs *)
Class Codec (A : Type) := { enc : A → Doc; dec : Doc → option A; wf : A → Prop }.
Class LawfulCodec (A : Type) `{Codec A} : Prop := {
  dec_enc x : wf x → dec (enc x) = Some x;
  dec_wf d x : dec d = Some x → wf x;
  enc_not_null (x : A) : enc x ≠ DNull }.

#[export] Instance bool_codec : Codec bool := {|
  enc := DBool; dec d := match d with DBool b => Some b | _ => None end; wf _ := True |}.
#[export] Instance string_codec : Codec string := {|
  enc := DText; dec d := match d with DText s => Some s | _ => None end; wf _ := True |}.
(** [i64]: wider integers are refused. *)
#[export] Instance i64_codec : Codec Z := {|
  enc := DInt;
  dec d := match d with DInt z => if decide (in_s 64 z) then Some z else None | _ => None end;
  wf := in_s 64 |}.
#[export] Instance f64_codec : Codec f64 := {|
  enc := DFloat; dec d := match d with DFloat f => Some f | DInt z => Some (f64_of_Z z) | _ => None end; wf _ := True |}.
Definition dec_seq {A} `{Codec A} (d : Doc) : option (list A) :=
  match d with DSeq l => mapM dec l | _ => None end.
#[export] Instance list_codec {A} `{Codec A} : Codec (list A) := {|
  enc l := DSeq (enc <$> l); dec := dec_seq; wf := Forall wf |}.
(** [BTreeMap<String, _>]: a later entry of a name replaces an earlier one. *)
Definition dec_entry {A} `{Codec A} (e : string * Doc) : option (string * A) := a ← dec e.2; Some (e.1, a).
Definition dec_map {A} `{Codec A} (d : Doc) : option (list (string * A)) :=
  match d with DMap l => sm_extend [] <$> mapM dec_entry l | _ => None end.
Definition map_codec {A} `{Codec A} : Codec (list (string * A)) := {|
  enc l := DMap (prod_map id enc <$> l); dec := dec_map; wf l := sm_wf l ∧ Forall (λ e, wf e.2) l |}.

(** * Enums *)
(** The variants with what they are written as: a number or a name. *)
Class Enum (A W : Type) := { repr : A → W; variants : list A }.
Class LawfulEnum (A W : Type) `{Enum A W} : Prop := {
  variants_complete x : x ∈ variants;
  variants_distinct : NoDup (repr (A := A) <$> variants) }.
Definition of_repr {A W} `{Enum A W, EqDecision W} (w : W) : option A :=
  snd <$> list_find (λ x, repr x = w) variants.
Definition number_enum {A} `{Enum A Z} : Codec A := {|
  enc x := DInt (repr x); dec d := match d with DInt z => of_repr z | _ => None end; wf _ := True |}.
Definition name_enum {A} `{Enum A string} : Codec A := {|
  enc x := DText (repr x); dec d := match d with DText s => of_repr s | _ => None end; wf _ := True |}.

(** * Structs *)
(** The fields of [S] seen so far, as the arguments of a constructor that then
    has type [B]. *)
Record Fields (S B : Type) := MkFields {
  names : list string;
  required : list string;
  enc_fields : S → list (string * Doc);
  dec_fields : list (string * Doc) → option B;
  wf_fields : S → Prop }.
Arguments MkFields {_ _}.
Arguments names {_ _}.
Arguments required {_ _}.
Arguments enc_fields {_ _}.
Arguments dec_fields {_ _}.
Arguments wf_fields {_ _}.
Definition find_field (name : string) (o : list (string * Doc)) : option Doc :=
  snd <$> (snd <$> list_find (λ e, e.1 = name) o).
Arguments find_field : simpl never.
Definition build {S B} (make : B) : Fields S B := MkFields [] [] (λ _, []) (λ _, Some make) (λ _, True).
Definition field {S A B} `{Codec A} (name : string) (get : S → A) (F : Fields S (A → B)) : Fields S B :=
  MkFields (names F ++ [name]) (required F ++ [name]) (λ x, enc_fields F x ++ [(name, enc (get x))])
    (λ o, f ← dec_fields F o; d ← find_field name o; a ← dec d; Some (f a))
    (λ x, wf_fields F x ∧ wf (get x)).
(** [Option] fields are left out when they are [None]; a missing field and
    [null] are read as [None]. *)
Definition optional_field {S A B} `{Codec A} (name : string) (get : S → option A) (F : Fields S (option A → B)) : Fields S B :=
  MkFields (names F ++ [name]) (required F)
    (λ x, enc_fields F x ++ match get x with Some a => [(name, enc a)] | None => [] end)
    (λ o, f ← dec_fields F o;
          match find_field name o with
          | None | Some DNull => Some (f None)
          | Some d => a ← dec d; Some (f (Some a))
          end)
    (λ x, wf_fields F x ∧ from_option wf True (get x)).
(** [deny_unknown_fields]; a field given twice is refused too. *)
Definition dec_struct {S} (F : Fields S S) (d : Doc) : option S :=
  match d with
  | DMap o => if decide (NoDup o.*1 ∧ Forall (λ n, n ∈ names F) o.*1) then dec_fields F o else None
  | _ => None
  end.
Definition struct {S} (F : Fields S S) : Codec S := {|
  enc x := DMap (enc_fields F x); dec := dec_struct F; wf := wf_fields F |}.
Notation "F ▷ g" := (g F) (at level 50, left associativity, only parsing).

(** * Laws *)
#[export] Instance bool_lawful : LawfulCodec bool.
Proof. by split. Qed.
#[export] Instance string_lawful : LawfulCodec string.
Proof. by split. Qed.
#[export] Instance f64_lawful : LawfulCodec f64.
Proof. by split. Qed.
#[export] Instance i64_lawful : LawfulCodec Z.
Proof.
  split; [|intros d x|done]; cbn.
  - intros x Hx. by rewrite decide_True.
  - destruct d; try done. case_decide; [|done]. by intros [= ->].
Qed.
#[export] Instance list_lawful {A} `{LawfulCodec A} : LawfulCodec (list A).
Proof.
  split; [|intros d l|done]; cbn.
  - intros l Hl. induction Hl as [|x l Hx Hl IH]; [done|]. cbn. by rewrite (dec_enc x Hx), IH.
  - destruct d as [| | | | |ds|]; try done. cbn. intros Hl%mapM_Some_1.
    apply Forall_lookup. intros i x Hx. destruct (Forall2_lookup_r _ _ _ _ _ Hl Hx) as (d & _ & Hd). by eapply dec_wf.
Qed.
(** A sorted list read entry by entry is itself. *)
Lemma sm_insert_last {V} (l : list (string * V)) k v : sm_wf (l ++ [(k, v)]) → sm_insert k v l = l ++ [(k, v)].
Proof.
  induction l as [|[k' v'] l IH]; intros Hl; [done|]. apply StronglySorted_inv in Hl as [Hl Hall]. cbn.
  rewrite Forall_app, Forall_singleton in Hall. destruct Hall as [_ Hk]. unfold key_lt in Hk. cbn in Hk.
  assert (compare k k' = Gt) as -> by by apply compare_Gt_Lt. by rewrite IH.
Qed.
Lemma sm_wf_prefix {V} (l k : list (string * V)) : sm_wf (l ++ k) → sm_wf l.
Proof. intros H%StronglySorted_app. tauto. Qed.
Lemma sm_extend_id {V} (l : list (string * V)) : sm_wf l → sm_extend [] l = l.
Proof.
  induction l as [|[k v] l IH] using rev_ind; intros Hl; [done|]. unfold sm_extend. rewrite foldl_snoc. cbn.
  fold (sm_extend [] l). rewrite IH by by eapply sm_wf_prefix. by apply sm_insert_last.
Qed.
Lemma mapM_entry_wf {A} `{LawfulCodec A} ds (l : list (string * A)) :
  mapM dec_entry ds = Some l → Forall (λ e, wf e.2) l.
Proof.
  intros Hl%mapM_Some_1. apply Forall_lookup. intros i [n x] Hx.
  destruct (Forall2_lookup_r _ _ _ _ _ Hl Hx) as ([n' d] & _ & Hd). unfold dec_entry in Hd. cbn in *.
  destruct (dec d) as [a|] eqn:Ha; [|done]. injection Hd as <- <-. by eapply dec_wf.
Qed.
Lemma sm_extend_Forall {V} (P : string * V → Prop) m l : Forall P m → Forall P l → Forall P (sm_extend m l).
Proof.
  intros Hm Hl. revert m Hm. induction Hl as [|[k v] l Hkv Hl IH]; intros m Hm; [done|]. cbn. apply IH.
  apply Forall_forall. intros e [->|He]%elem_of_insert; [done|]. rewrite Forall_forall in Hm. by apply Hm.
Qed.
#[export] Instance map_lawful {A} `{LawfulCodec A} : @LawfulCodec (list (string * A)) map_codec.
Proof.
  split; [|intros d l|done]; cbn.
  - intros l [Hs Hl]. assert (mapM dec_entry (prod_map id enc <$> l) = Some l) as ->; [|by cbn; rewrite sm_extend_id].
    clear Hs. induction Hl as [|[n x] l Hx Hl IH]; [done|]. cbn in *. rewrite IH. unfold dec_entry. cbn. by rewrite (dec_enc x Hx).
  - destruct d as [| | | | | |ds]; try done. cbn. intros (l' & Hl & ->)%fmap_Some. split.
    + apply sm_extend_wf. constructor.
    + apply sm_extend_Forall; [done|]. by eapply mapM_entry_wf.
Qed.

(** ** Enums *)
Section enum.
Context {A W} `{LawfulEnum A W, EqDecision W}.
Lemma repr_inj (x y : A) : repr x = repr y → x = y.
Proof.
  intros Hxy. destruct (list_elem_of_lookup_1 _ _ (variants_complete x)) as [i Hi].
  destruct (list_elem_of_lookup_1 _ _ (variants_complete y)) as [j Hj].
  assert (i = j) as ->; [|congruence].
  eapply NoDup_lookup; [apply variants_distinct| |]; rewrite list_lookup_fmap; [by rewrite Hi|by rewrite Hj; cbn; rewrite Hxy].
Qed.
Lemma of_repr_repr (x : A) : of_repr (repr x) = Some x.
Proof.
  unfold of_repr. destruct (list_find (λ y, repr y = repr x) variants) as [[i y]|] eqn:E.
  - apply list_find_Some in E as (_ & Hy & _). cbn. by rewrite (repr_inj _ _ Hy).
  - apply list_find_None in E. rewrite Forall_forall in E. by destruct (E x (variants_complete x)).
Qed.
(** Nothing but the variants' own representations is read. *)
Lemma of_repr_Some (w : W) (x : A) : of_repr w = Some x → repr x = w.
Proof.
  unfold of_repr. destruct (list_find _ _) as [[i y]|] eqn:E; [|done]. intros [= ->]. by apply list_find_Some in E as (_ & ? & _).
Qed.
End enum.
Lemma number_enum_lawful {A} `{LawfulEnum A Z} : @LawfulCodec A number_enum.
Proof. split; try done. cbn. intros x _. apply of_repr_repr. Qed.
Lemma name_enum_lawful {A} `{LawfulEnum A string} : @LawfulCodec A name_enum.
Proof. split; try done. cbn. intros x _. apply of_repr_repr. Qed.

(** ** Structs *)
(** What [F] reads from an object with the same fields as [x]: [val x]. *)
Record lawful_fields {S B} (F : Fields S B) (val : S → B) : Prop := {
  lf_names x : sublist (enc_fields F x).*1 (names F);
  lf_dec x o : wf_fields F x → (∀ n, n ∈ names F → find_field n o = find_field n (enc_fields F x)) → dec_fields F o = Some (val x);
  lf_nodup : NoDup (names F) }.
Lemma find_field_app n o o' :
  find_field n (o ++ o') = match find_field n o with Some d => Some d | None => find_field n o' end.
Proof.
  unfold find_field. induction o as [|[m d] o IH]; [done|]. cbn. destruct (decide (m = n)); [done|].
  destruct (list_find _ (o ++ o')) as [[]|], (list_find _ o) as [[]|]; cbn in *; done.
Qed.
Lemma find_field_None n o : n ∉ o.*1 → find_field n o = None.
Proof.
  unfold find_field. intros Hn. destruct (list_find _ o) as [[i [m d]]|] eqn:E; [|done].
  apply list_find_Some in E as (Hi & Hm & _). cbn in Hm. subst m. destruct Hn. apply list_elem_of_fmap. exists (n, d).
  split; [done|by eapply list_elem_of_lookup_2].
Qed.
Lemma find_field_one n d : find_field n [(n, d)] = Some d.
Proof. unfold find_field. cbn. by rewrite decide_True. Qed.
Lemma lawful_build {S B} (make : B) : lawful_fields (build make) (λ _ : S, make).
Proof. split; [constructor|done|constructor]. Qed.
Section fields.
Context {S A B : Type} `{LawfulCodec A} (F : Fields S (A → B)) (val : S → A → B) (name : string) (get : S → A).
Lemma lawful_field :
  lawful_fields F val → name ∉ names F → lawful_fields (field name get F) (λ x, val x (get x)).
Proof.
  intros [Hn Hd Hu] Hf. split; cbn.
  - intros x. rewrite fmap_app. by apply sublist_app.
  - intros x o [Hx Hg] Ho.
    rewrite (Hd x o Hx). 2: { intros n Hin. rewrite Ho, find_field_app by (apply elem_of_app; by left).
      destruct (find_field n (enc_fields F x)); [done|]. apply find_field_None. cbn. set_solver. }
    cbn. rewrite Ho, find_field_app by (apply elem_of_app; right; by left). rewrite (find_field_None _ (enc_fields F x)).
    + by rewrite find_field_one; cbn; rewrite dec_enc.
    + intros Hin. destruct Hf. eapply elem_of_sublist; [exact Hin|apply Hn].
  - apply NoDup_app. split_and!; [done|intros n Hin ->%list_elem_of_singleton; done|apply NoDup_singleton].
Qed.
End fields.
Section optional_fields.
Context {S A B : Type} `{LawfulCodec A} (F : Fields S (option A → B)) (val : S → option A → B) (name : string) (get : S → option A).
Lemma lawful_optional_field :
  lawful_fields F val → name ∉ names F → lawful_fields (optional_field name get F) (λ x, val x (get x)).
Proof.
  intros [Hn Hd Hu] Hf. split; cbn.
  - intros x. rewrite fmap_app. apply sublist_app; [done|]. destruct (get x); cbn; [done|apply sublist_nil_l].
  - intros x o [Hx Hg] Ho.
    rewrite (Hd x o Hx). 2: { intros n Hin. rewrite Ho, find_field_app by (apply elem_of_app; by left).
      destruct (find_field n (enc_fields F x)); [done|]. apply find_field_None. destruct (get x); cbn; set_solver. }
    cbn. rewrite Ho, find_field_app by (apply elem_of_app; right; by left). rewrite (find_field_None _ (enc_fields F x)).
    + destruct (get x) as [a|]; [|done]. rewrite find_field_one. cbn in *.
      destruct (enc a) eqn:E; rewrite <-?E; try (by rewrite dec_enc). by destruct (enc_not_null a).
    + intros Hin. destruct Hf. eapply elem_of_sublist; [exact Hin|apply Hn].
  - apply NoDup_app. split_and!; [done|intros n Hin ->%list_elem_of_singleton; done|apply NoDup_singleton].
Qed.
End optional_fields.
(** What was read is well formed, field by field. *)
Lemma field_inv {S A B} `{LawfulCodec A} name (get : S → A) (F : Fields S (A → B)) o b :
  dec_fields (field name get F) o = Some b → ∃ f a, dec_fields F o = Some f ∧ wf a ∧ b = f a.
Proof.
  cbn. intros (f & Hf & H')%bind_Some. apply bind_Some in H' as (d & _ & H'). apply bind_Some in H' as (a & Ha & [= <-]).
  exists f, a. split_and!; [done|by eapply dec_wf|done].
Qed.
Lemma optional_field_inv {S A B} `{LawfulCodec A} name (get : S → option A) (F : Fields S (option A → B)) o b :
  dec_fields (optional_field name get F) o = Some b → ∃ f a, dec_fields F o = Some f ∧ from_option wf True a ∧ b = f a.
Proof.
  cbn. intros (f & Hf & H')%bind_Some. exists f.
  assert (∀ d : Doc, (a ← dec d; Some (f (Some a))) = Some b →
    ∃ a, dec_fields F o = Some f ∧ from_option wf True a ∧ b = f a) as Hd.
  { intros d (a & Ha & [= <-])%bind_Some. exists (Some a). split_and!; [done|by eapply dec_wf|done]. }
  destruct (find_field name o) as [[]|]; try (by eapply Hd); injection H' as <-; by exists None.
Qed.
(** Every struct of the file: its codec's laws from those of its fields. *)
Lemma struct_lawful {S} (F : Fields S S) val :
  lawful_fields F val → (∀ x, val x = x) → (∀ o x, dec_fields F o = Some x → wf_fields F x) → @LawfulCodec S (struct F).
Proof.
  intros [Hn Hd Hu] Hv Hw. split; [|intros d x|done]; cbn.
  - intros x Hx. rewrite decide_True.
    + by rewrite (Hd x), Hv.
    + split; [by eapply sublist_NoDup|]. apply Forall_forall. intros n Hin. by eapply elem_of_sublist.
  - destruct d; try done. cbn. case_decide; [|done]. apply Hw.
Qed.
Ltac solve_struct :=
  eapply struct_lawful;
  [repeat first [apply lawful_field; [|by apply (bool_decide_eq_true_1 _)]
                |apply lawful_optional_field; [|by apply (bool_decide_eq_true_1 _)]
                |apply lawful_build]
  |by intros []
  |let o := fresh "o" in let x := fresh "x" in let H := fresh "H" in
   intros o x H;
   repeat first [apply field_inv in H as (? & ? & H & ? & ->)
                |apply optional_field_inv in H as (? & ? & H & ? & ->)];
   injection H as <-; repeat (split; [|assumption]); exact I].
Ltac solve_enum := split; [by intros []; repeat first [apply list_elem_of_here|apply list_elem_of_further]|by apply (bool_decide_eq_true_1 _)].

(** * What a struct accepts *)
Definition needs_required {S B} (F : Fields S B) : Prop :=
  ∀ o b, dec_fields F o = Some b → Forall (λ n, n ∈ o.*1) (required F).
Lemma find_field_elem n o d : find_field n o = Some d → n ∈ o.*1.
Proof.
  intros Hd. destruct (decide (n ∈ o.*1)) as [|Hn]; [done|]. by rewrite find_field_None in Hd.
Qed.
Lemma build_required {S B} (make : B) : needs_required (build (S := S) make).
Proof. intros o b _. constructor. Qed.
Lemma field_required {S A B} `{Codec A} name (get : S → A) (F : Fields S (A → B)) :
  needs_required F → needs_required (field name get F).
Proof.
  intros HF o b (f & Hf & H')%bind_Some. apply bind_Some in H' as (d & Hd & _). cbn. apply Forall_app. split; [by eapply HF|].
  apply Forall_singleton. by eapply find_field_elem.
Qed.
Lemma optional_required {S A B} `{Codec A} name (get : S → option A) (F : Fields S (option A → B)) :
  needs_required F → needs_required (optional_field name get F).
Proof. intros HF o b (f & Hf & _)%bind_Some. by eapply HF. Qed.
(** An object is read only when it has each required key, and every key once
    and among the struct's. *)
Lemma struct_keys {S} (F : Fields S S) o x :
  needs_required F → dec_struct F (DMap o) = Some x →
  NoDup o.*1 ∧ Forall (λ n, n ∈ o.*1) (required F) ∧ Forall (λ n, n ∈ names F) o.*1.
Proof. intros HF. cbn. case_decide as Hd; [|done]. intros Hx. split_and!; [tauto|by eapply HF|tauto]. Qed.
Ltac solve_required := repeat first [apply field_required|apply optional_required|apply build_required].
