(* ===== verification/ApiTypes.v ===== *)
(** The types of the service API, [src/src/api/serviceapi.rs]: the enums with
    the numbers or names they are written as, the structs with their fields, and
    the codecs serde derives for them.  The enums that the configuration also
    uses are those of [Config.Api]. *)

From S2P Require Import Prelude SortedMap Metrics Config Codec.
Local Open Scope Z_scope.

(** * Enums *)
Inductive UndefinedEnum :=
| UEUndefined.
Inductive ApiCallSemantics :=
| CSUndefined | CSInherited | CSFunctionCall | CSTaskPool | CSPriorityTaskPool | CSParallelCall.
Inductive Environment :=
| EnvUndefined | EnvLocal | EnvDebug | EnvStaging | EnvProduction.
Inductive DataConnectorImplementation :=
| ImplUndefined | ImplNetHTTP | ImplFunction | ImplIBMsarama | ImplGoogleGRPC | ImplUserverHTTP | ImplUserverGRPC
| ImplUserverKafka | ImplBoostBeastHTTP | ImplAsioGRPC | ImplLibrdkafka | ImplAioHTTP | ImplAioKafka | ImplRustAxum
| ImplRustTonic | ImplRustRdkafka | ImplNodeHTTP | ImplGrpcJS | ImplConfluentKafkaJavaScript | ImplGoGocron
| ImplPythonAPScheduler | ImplRustCroner | ImplNodeCroner | ImplCppLibcron | ImplTemporalGo | ImplTemporalPython
| ImplTemporalTypeScript.
Inductive TemporalExecutionType :=
| TemporalActivity | TemporalWorkflow.
Definition UndefinedEnum_repr (x : UndefinedEnum) : Z :=
  match x with
  | UEUndefined => 0
  end.
#[export] Instance UndefinedEnum_enum : Enum UndefinedEnum Z := {|
  repr := UndefinedEnum_repr;
  variants := [UEUndefined] |}.
#[export] Instance UndefinedEnum_codec : Codec UndefinedEnum := number_enum.
Definition ProgrammingLanguage_repr (x : Api.ProgrammingLanguage) : Z :=
  match x with
  | Api.PLUndefined => 0 | Api.GoLang => 1 | Api.CppUserver => 2 | Api.Python => 3 | Api.Rust => 4 | Api.TypeScript => 6
  | Api.CppCoro => 7
  end.
#[export] Instance ProgrammingLanguage_enum : Enum Api.ProgrammingLanguage Z := {|
  repr := ProgrammingLanguage_repr;
  variants := [Api.PLUndefined; Api.GoLang; Api.CppUserver; Api.Python; Api.Rust; Api.TypeScript; Api.CppCoro] |}.
#[export] Instance ProgrammingLanguage_codec : Codec Api.ProgrammingLanguage := number_enum.
Definition JoinStorageType_repr (x : Api.JoinStorageType) : Z :=
  match x with
  | Api.JSUndefined => 0 | Api.HashMap => 1 | Api.RocksDB => 2 | Api.Aerospike => 3
  end.
#[export] Instance JoinStorageType_enum : Enum Api.JoinStorageType Z := {|
  repr := JoinStorageType_repr;
  variants := [Api.JSUndefined; Api.HashMap; Api.RocksDB; Api.Aerospike] |}.
#[export] Instance JoinStorageType_codec : Codec Api.JoinStorageType := number_enum.
Definition TransformationType_repr (x : Api.TransformationType) : Z :=
  match x with
  | Api.TTUndefined => 0 | Api.TTInput => 1 | Api.TTMap => 2 | Api.TTFilter => 3 | Api.TTJoin => 4 | Api.TTMultiJoin => 5
  | Api.TTProcess => 6 | Api.TTFlatMap => 7 | Api.TTFlatMapIterable => 8 | Api.TTKeyBy => 9 | Api.TTMerge => 10
  | Api.TTSplit => 11 | Api.TTCase => 12 | Api.TTSink => 13 | Api.TTCycleLink => 14 | Api.TTError => 15 | Api.TTDelay => 16
  | Api.TTWhen => 17 | Api.TTSubStream => 18
  end.
#[export] Instance TransformationType_enum : Enum Api.TransformationType Z := {|
  repr := TransformationType_repr;
  variants := [Api.TTUndefined; Api.TTInput; Api.TTMap; Api.TTFilter; Api.TTJoin; Api.TTMultiJoin; Api.TTProcess; Api.TTFlatMap;
    Api.TTFlatMapIterable; Api.TTKeyBy; Api.TTMerge; Api.TTSplit; Api.TTCase; Api.TTSink; Api.TTCycleLink; Api.TTError;
    Api.TTDelay; Api.TTWhen; Api.TTSubStream] |}.
#[export] Instance TransformationType_codec : Codec Api.TransformationType := number_enum.
Definition JoinType_repr (x : Api.JoinType) : Z :=
  match x with
  | Api.JTUndefined => 0 | Api.Inner => 1 | Api.Left => 2 | Api.Right => 3 | Api.Outer => 4
  end.
#[export] Instance JoinType_enum : Enum Api.JoinType Z := {|
  repr := JoinType_repr;
  variants := [Api.JTUndefined; Api.Inner; Api.Left; Api.Right; Api.Outer] |}.
#[export] Instance JoinType_codec : Codec Api.JoinType := number_enum.
Definition HTTPMethodType_repr (x : Api.HTTPMethodType) : string :=
  match x with
  | Api.HMUndefined => "" | Api.GET => "GET" | Api.POST => "POST" | Api.PUT => "PUT" | Api.PATCH => "PATCH"
  | Api.DELETE => "DELETE" | Api.HEAD => "HEAD" | Api.OPTIONS => "OPTIONS" | Api.TRACE => "TRACE" | Api.CONNECT => "CONNECT"
  end.
#[export] Instance HTTPMethodType_enum : Enum Api.HTTPMethodType string := {|
  repr := HTTPMethodType_repr;
  variants := [Api.HMUndefined; Api.GET; Api.POST; Api.PUT; Api.PATCH; Api.DELETE; Api.HEAD; Api.OPTIONS; Api.TRACE; Api.CONNECT] |}.
#[export] Instance HTTPMethodType_codec : Codec Api.HTTPMethodType := name_enum.
Definition GrpcMethodType_repr (x : Api.GrpcMethodType) : Z :=
  match x with
  | Api.GMUndefined => 0 | Api.NoStreaming => 1 | Api.ClientStreaming => 2 | Api.ServerStreaming => 4
  | Api.BidirectionalStreaming => 5
  end.
#[export] Instance GrpcMethodType_enum : Enum Api.GrpcMethodType Z := {|
  repr := GrpcMethodType_repr;
  variants := [Api.GMUndefined; Api.NoStreaming; Api.ClientStreaming; Api.ServerStreaming; Api.BidirectionalStreaming] |}.
#[export] Instance GrpcMethodType_codec : Codec Api.GrpcMethodType := number_enum.
Definition CallSemantics_repr (x : ApiCallSemantics) : Z :=
  match x with
  | CSUndefined => 0 | CSInherited => 1 | CSFunctionCall => 2 | CSTaskPool => 3 | CSPriorityTaskPool => 4 | CSParallelCall => 5
  end.
#[export] Instance CallSemantics_enum : Enum ApiCallSemantics Z := {|
  repr := CallSemantics_repr;
  variants := [CSUndefined; CSInherited; CSFunctionCall; CSTaskPool; CSPriorityTaskPool; CSParallelCall] |}.
#[export] Instance CallSemantics_codec : Codec ApiCallSemantics := number_enum.
Definition DataConnectorType_repr (x : Api.DataConnectorType) : Z :=
  match x with
  | Api.DCUndefined => 0 | Api.DCHTTP => 1 | Api.DCGRPC => 2 | Api.DCKafka => 3 | Api.DCCustom => 4 | Api.DCCron => 5
  | Api.DCTemporal => 6
  end.
#[export] Instance DataConnectorType_enum : Enum Api.DataConnectorType Z := {|
  repr := DataConnectorType_repr;
  variants := [Api.DCUndefined; Api.DCHTTP; Api.DCGRPC; Api.DCKafka; Api.DCCustom; Api.DCCron; Api.DCTemporal] |}.
#[export] Instance DataConnectorType_codec : Codec Api.DataConnectorType := number_enum.
Definition ProcessPattern_repr (x : Api.ProcessPattern) : Z :=
  match x with
  | Api.PPUndefined => 0 | Api.Execute => 1 | Api.Collect => 2
  end.
#[export] Instance ProcessPattern_enum : Enum Api.ProcessPattern Z := {|
  repr := ProcessPattern_repr;
  variants := [Api.PPUndefined; Api.Execute; Api.Collect] |}.
#[export] Instance ProcessPattern_codec : Codec Api.ProcessPattern := number_enum.
Definition LogLevel_repr (x : Api.LogLevel) : string :=
  match x with
  | Api.LLUndefined => "" | Api.CRITICAL => "CRITICAL" | Api.FATAL => "FATAL" | Api.ERROR => "ERROR" | Api.WARNING => "WARNING"
  | Api.INFO => "INFO" | Api.DEBUG => "DEBUG"
  end.
#[export] Instance LogLevel_enum : Enum Api.LogLevel string := {|
  repr := LogLevel_repr;
  variants := [Api.LLUndefined; Api.CRITICAL; Api.FATAL; Api.ERROR; Api.WARNING; Api.INFO; Api.DEBUG] |}.
#[export] Instance LogLevel_codec : Codec Api.LogLevel := name_enum.
Definition Environment_repr (x : Environment) : string :=
  match x with
  | EnvUndefined => "" | EnvLocal => "local" | EnvDebug => "debug" | EnvStaging => "staging" | EnvProduction => "production"
  end.
#[export] Instance Environment_enum : Enum Environment string := {|
  repr := Environment_repr;
  variants := [EnvUndefined; EnvLocal; EnvDebug; EnvStaging; EnvProduction] |}.
#[export] Instance Environment_codec : Codec Environment := name_enum.
Definition KubernetesWorkloadType_repr (x : Api.KubernetesWorkloadType) : string :=
  match x with
  | Api.Deployment => "Deployment" | Api.StatefulSet => "StatefulSet"
  end.
#[export] Instance KubernetesWorkloadType_enum : Enum Api.KubernetesWorkloadType string := {|
  repr := KubernetesWorkloadType_repr;
  variants := [Api.Deployment; Api.StatefulSet] |}.
#[export] Instance KubernetesWorkloadType_codec : Codec Api.KubernetesWorkloadType := name_enum.
Definition DataConnectorImplementation_repr (x : DataConnectorImplementation) : string :=
  match x with
  | ImplUndefined => "" | ImplNetHTTP => "net/http" | ImplFunction => "function" | ImplIBMsarama => "IBM/Sarama"
  | ImplGoogleGRPC => "google/grpc" | ImplUserverHTTP => "userver/http" | ImplUserverGRPC => "userver/grpc"
  | ImplUserverKafka => "userver/kafka" | ImplBoostBeastHTTP => "boost/beast-http" | ImplAsioGRPC => "asio/grpc"
  | ImplLibrdkafka => "librdkafka" | ImplAioHTTP => "aiohttp" | ImplAioKafka => "aiokafka" | ImplRustAxum => "rust/axum"
  | ImplRustTonic => "rust/tonic" | ImplRustRdkafka => "rust/rdkafka" | ImplNodeHTTP => "node/http"
  | ImplGrpcJS => "grpc/grpc-js" | ImplConfluentKafkaJavaScript => "confluent/kafka-javascript" | ImplGoGocron => "go/gocron"
  | ImplPythonAPScheduler => "python/apscheduler" | ImplRustCroner => "rust/croner" | ImplNodeCroner => "node/croner"
  | ImplCppLibcron => "cpp/libcron" | ImplTemporalGo => "temporal/go" | ImplTemporalPython => "temporal/python"
  | ImplTemporalTypeScript => "temporal/typescript"
  end.
#[export] Instance DataConnectorImplementation_enum : Enum DataConnectorImplementation string := {|
  repr := DataConnectorImplementation_repr;
  variants := [ImplUndefined; ImplNetHTTP; ImplFunction; ImplIBMsarama; ImplGoogleGRPC; ImplUserverHTTP; ImplUserverGRPC; ImplUserverKafka;
    ImplBoostBeastHTTP; ImplAsioGRPC; ImplLibrdkafka; ImplAioHTTP; ImplAioKafka; ImplRustAxum; ImplRustTonic; ImplRustRdkafka;
    ImplNodeHTTP; ImplGrpcJS; ImplConfluentKafkaJavaScript; ImplGoGocron; ImplPythonAPScheduler; ImplRustCroner; ImplNodeCroner;
    ImplCppLibcron; ImplTemporalGo; ImplTemporalPython; ImplTemporalTypeScript] |}.
#[export] Instance DataConnectorImplementation_codec : Codec DataConnectorImplementation := name_enum.
Definition KafkaSecurityProtocol_repr (x : Api.KafkaSecurityProtocol) : string :=
  match x with
  | Api.PLAINTEXT => "PLAINTEXT" | Api.SASLPLAINTEXT => "SASL_PLAINTEXT" | Api.SASLSSL => "SASL_SSL"
  end.
#[export] Instance KafkaSecurityProtocol_enum : Enum Api.KafkaSecurityProtocol string := {|
  repr := KafkaSecurityProtocol_repr;
  variants := [Api.PLAINTEXT; Api.SASLPLAINTEXT; Api.SASLSSL] |}.
#[export] Instance KafkaSecurityProtocol_codec : Codec Api.KafkaSecurityProtocol := name_enum.
Definition KafkaSaslMechanism_repr (x : Api.KafkaSaslMechanism) : string :=
  match x with
  | Api.PLAIN => "PLAIN" | Api.SCRAMSHA256 => "SCRAM-SHA-256" | Api.SCRAMSHA512 => "SCRAM-SHA-512"
  end.
#[export] Instance KafkaSaslMechanism_enum : Enum Api.KafkaSaslMechanism string := {|
  repr := KafkaSaslMechanism_repr;
  variants := [Api.PLAIN; Api.SCRAMSHA256; Api.SCRAMSHA512] |}.
#[export] Instance KafkaSaslMechanism_codec : Codec Api.KafkaSaslMechanism := name_enum.
Definition ScheduleOverlapPolicy_repr (x : Api.ScheduleOverlapPolicy) : string :=
  match x with
  | Api.OverlapAllow => "Allow" | Api.OverlapSkip => "Skip"
  end.
#[export] Instance ScheduleOverlapPolicy_enum : Enum Api.ScheduleOverlapPolicy string := {|
  repr := ScheduleOverlapPolicy_repr;
  variants := [Api.OverlapAllow; Api.OverlapSkip] |}.
#[export] Instance ScheduleOverlapPolicy_codec : Codec Api.ScheduleOverlapPolicy := name_enum.
Definition ScheduleMissedRunPolicy_repr (x : Api.ScheduleMissedRunPolicy) : string :=
  match x with
  | Api.MissedSkip => "Skip" | Api.FireOnce => "FireOnce"
  end.
#[export] Instance ScheduleMissedRunPolicy_enum : Enum Api.ScheduleMissedRunPolicy string := {|
  repr := ScheduleMissedRunPolicy_repr;
  variants := [Api.MissedSkip; Api.FireOnce] |}.
#[export] Instance ScheduleMissedRunPolicy_codec : Codec Api.ScheduleMissedRunPolicy := name_enum.
Definition TemporalExecutionType_repr (x : TemporalExecutionType) : string :=
  match x with
  | TemporalActivity => "Activity" | TemporalWorkflow => "Workflow"
  end.
#[export] Instance TemporalExecutionType_enum : Enum TemporalExecutionType string := {|
  repr := TemporalExecutionType_repr;
  variants := [TemporalActivity; TemporalWorkflow] |}.
#[export] Instance TemporalExecutionType_codec : Codec TemporalExecutionType := name_enum.
Definition TypeDefinitionFormat_repr (x : Api.TypeDefinitionFormat) : Z :=
  match x with
  | Api.TDUndefined => 0 | Api.Native => 1 | Api.Protobuf => 2 | Api.FlatBuffers => 3 | Api.CapNProto => 4 | Api.OpenAPI => 5
  end.
#[export] Instance TypeDefinitionFormat_enum : Enum Api.TypeDefinitionFormat Z := {|
  repr := TypeDefinitionFormat_repr;
  variants := [Api.TDUndefined; Api.Native; Api.Protobuf; Api.FlatBuffers; Api.CapNProto; Api.OpenAPI] |}.
#[export] Instance TypeDefinitionFormat_codec : Codec Api.TypeDefinitionFormat := number_enum.
Definition DataType_repr (x : Api.DataType) : string :=
  match x with
  | Api.DTUndefined => "" | Api.DTInt => "int" | Api.DTUint => "uint" | Api.DTByte => "byte" | Api.DTChar => "char"
  | Api.DTBoolean => "boolean" | Api.DTUnicodeChar => "unicode char" | Api.DTString => "string"
  | Api.DTUnicodeString => "unicode string" | Api.DTFloat => "float" | Api.DTDouble => "double" | Api.DTInt8 => "int8"
  | Api.DTInt16 => "int16" | Api.DTInt32 => "int32" | Api.DTInt64 => "int64" | Api.DTUint8 => "uint8" | Api.DTUint16 => "uint16"
  | Api.DTUint32 => "uint32" | Api.DTUint64 => "uint64" | Api.DTAny => "any" | Api.DTError => "error" | Api.DTArray => "array"
  | Api.DTMap => "map" | Api.DTStruct => "struct" | Api.DTCustom => "custom"
  end.
#[export] Instance DataType_enum : Enum Api.DataType string := {|
  repr := DataType_repr;
  variants := [Api.DTUndefined; Api.DTInt; Api.DTUint; Api.DTByte; Api.DTChar; Api.DTBoolean; Api.DTUnicodeChar; Api.DTString;
    Api.DTUnicodeString; Api.DTFloat; Api.DTDouble; Api.DTInt8; Api.DTInt16; Api.DTInt32; Api.DTInt64; Api.DTUint8; Api.DTUint16;
    Api.DTUint32; Api.DTUint64; Api.DTAny; Api.DTError; Api.DTArray; Api.DTMap; Api.DTStruct; Api.DTCustom] |}.
#[export] Instance DataType_codec : Codec Api.DataType := name_enum.

(** * Structs *)
Record ProjectSettings := MkProjectSettings {
  ps_name : string; ps_module_version : option string; ps_repo_path : option string }.
Definition ProjectSettings_fields : Fields ProjectSettings ProjectSettings :=
  build MkProjectSettings
  ▷ field "name" ps_name ▷ optional_field "moduleVersion" ps_module_version ▷ optional_field "repoPath" ps_repo_path.
#[export] Instance ProjectSettings_codec : Codec ProjectSettings := struct ProjectSettings_fields.
Record Service := MkService {
  srv_id : Z; srv_name : string; srv_programming_language : Api.ProgrammingLanguage; srv_module_path : string;
  srv_golang_version : option string; srv_default_call_semantics : ApiCallSemantics; srv_http_host : string; srv_http_port : Z;
  srv_status_handler : string; srv_metrics_handler : string; srv_startup_handler : string; srv_readiness_handler : string;
  srv_liveness_handler : string; srv_kubernetes_workload_type : Api.KubernetesWorkloadType; srv_grpc_host : string;
  srv_grpc_port : Z; srv_default_grpc_timeout : Z; srv_color : string; srv_shutdown_timeout : Z;
  srv_log_level : option Api.LogLevel; srv_environment : Environment }.
Definition Service_fields : Fields Service Service :=
  build MkService
  ▷ field "id" srv_id ▷ field "name" srv_name ▷ field "programmingLanguage" srv_programming_language
  ▷ field "modulePath" srv_module_path ▷ optional_field "golangVersion" srv_golang_version
  ▷ field "defaultCallSemantics" srv_default_call_semantics ▷ field "httpHost" srv_http_host ▷ field "httpPort" srv_http_port
  ▷ field "statusHandler" srv_status_handler ▷ field "metricsHandler" srv_metrics_handler
  ▷ field "startupHandler" srv_startup_handler ▷ field "readinessHandler" srv_readiness_handler
  ▷ field "livenessHandler" srv_liveness_handler ▷ field "kubernetesWorkloadType" srv_kubernetes_workload_type
  ▷ field "grpcHost" srv_grpc_host ▷ field "grpcPort" srv_grpc_port ▷ field "defaultGrpcTimeout" srv_default_grpc_timeout
  ▷ field "color" srv_color ▷ field "shutdownTimeout" srv_shutdown_timeout ▷ optional_field "logLevel" srv_log_level
  ▷ field "environment" srv_environment.
#[export] Instance Service_codec : Codec Service := struct Service_fields.
Record Pool := MkPool {
  pl_name : string; pl_executors_count : Z; pl_queue_capacity : option Z }.
Definition Pool_fields : Fields Pool Pool :=
  build MkPool
  ▷ field "name" pl_name ▷ field "executorsCount" pl_executors_count ▷ optional_field "queueCapacity" pl_queue_capacity.
#[export] Instance Pool_codec : Codec Pool := struct Pool_fields.
Record ModuleSpec := MkModuleSpec {
  md_name : string; md_module_path : string; md_golang_version : string }.
Definition ModuleSpec_fields : Fields ModuleSpec ModuleSpec :=
  build MkModuleSpec
  ▷ field "name" md_name ▷ field "modulePath" md_module_path ▷ field "golangVersion" md_golang_version.
#[export] Instance ModuleSpec_codec : Codec ModuleSpec := struct ModuleSpec_fields.
Record StreamSpec := MkStreamSpec {
  str_id : Z; str_name : string; str_id_source : Z; str_id_sources : option (list Z); str_type : Api.TransformationType;
  str_value_type : option string; str_key_type : option string; str_id_service : Z; str_id_endpoint : option Z;
  str_join_type : option Api.JoinType; str_join_storage : option Api.JoinStorageType; str_pattern : option Api.ProcessPattern;
  str_x_pos : f64; str_y_pos : f64; str_function_name : option string; str_function_package : option string;
  str_public_function : option bool; str_function_description : option string; str_function_initializer_group : option string;
  str_function_module : option string; str_ttl : option Z; str_renew_ttl : option bool; str_duration : option Z;
  str_pipeline : option string; str_component : option string }.
Definition StreamSpec_fields : Fields StreamSpec StreamSpec :=
  build MkStreamSpec
  ▷ field "id" str_id ▷ field "name" str_name ▷ field "idSource" str_id_source ▷ optional_field "idSources" str_id_sources
  ▷ field "type" str_type ▷ optional_field "valueType" str_value_type ▷ optional_field "keyType" str_key_type
  ▷ field "idService" str_id_service ▷ optional_field "idEndpoint" str_id_endpoint ▷ optional_field "joinType" str_join_type
  ▷ optional_field "joinStorage" str_join_storage ▷ optional_field "pattern" str_pattern ▷ field "xPos" str_x_pos
  ▷ field "yPos" str_y_pos ▷ optional_field "functionName" str_function_name
  ▷ optional_field "functionPackage" str_function_package ▷ optional_field "publicFunction" str_public_function
  ▷ optional_field "functionDescription" str_function_description
  ▷ optional_field "functionInitializerGroup" str_function_initializer_group
  ▷ optional_field "functionModule" str_function_module ▷ optional_field "ttl" str_ttl ▷ optional_field "renewTTL" str_renew_ttl
  ▷ optional_field "duration" str_duration ▷ optional_field "pipeline" str_pipeline ▷ optional_field "component" str_component.
#[export] Instance StreamSpec_codec : Codec StreamSpec := struct StreamSpec_fields.
Record Link := MkLink {
  lnk_from : Z; lnk_to : Z; lnk_call_semantics : ApiCallSemantics; lnk_async : option bool; lnk_pool_name : option string;
  lnk_priority : option Z }.
Definition Link_fields : Fields Link Link :=
  build MkLink
  ▷ field "from" lnk_from ▷ field "to" lnk_to ▷ field "callSemantics" lnk_call_semantics ▷ optional_field "async" lnk_async
  ▷ optional_field "poolName" lnk_pool_name ▷ optional_field "priority" lnk_priority.
#[export] Instance Link_codec : Codec Link := struct Link_fields.
Record DataConnector := MkDataConnector {
  dcn_id : Z; dcn_name : string; dcn_type : Api.DataConnectorType; dcn_implementation : option DataConnectorImplementation;
  dcn_implementations : option (list (string * string)); dcn_host : option string; dcn_port : option Z;
  dcn_address : option string; dcn_connections_count : option Z; dcn_brokers : option string; dcn_version : option string;
  dcn_dial_timeout : option f64; dcn_use_partitioner : option bool; dcn_async : option bool;
  dcn_security_protocol : option Api.KafkaSecurityProtocol; dcn_sasl_mechanism : option Api.KafkaSaslMechanism;
  dcn_username : option string; dcn_password : option string; dcn_use_dedicated_listener : option bool;
  dcn_module : option string; dcn_namespace : option string; dcn_identity : option string; dcn_api_key : option string;
  dcn_tls_enabled : option bool; dcn_tls_server_name : option string; dcn_tls_ca_file : option string;
  dcn_tls_cert_file : option string; dcn_tls_key_file : option string; dcn_worker_stop_timeout : option Z }.
Definition DataConnector_fields : Fields DataConnector DataConnector :=
  build MkDataConnector
  ▷ field "id" dcn_id ▷ field "name" dcn_name ▷ field "type" dcn_type ▷ optional_field "implementation" dcn_implementation
  ▷ optional_field (H := map_codec) "implementations" dcn_implementations ▷ optional_field "host" dcn_host
  ▷ optional_field "port" dcn_port ▷ optional_field "address" dcn_address
  ▷ optional_field "connectionsCount" dcn_connections_count ▷ optional_field "brokers" dcn_brokers
  ▷ optional_field "version" dcn_version ▷ optional_field "dialTimeout" dcn_dial_timeout
  ▷ optional_field "usePartitioner" dcn_use_partitioner ▷ optional_field "async" dcn_async
  ▷ optional_field "securityProtocol" dcn_security_protocol ▷ optional_field "saslMechanism" dcn_sasl_mechanism
  ▷ optional_field "username" dcn_username ▷ optional_field "password" dcn_password
  ▷ optional_field "useDedicatedListener" dcn_use_dedicated_listener ▷ optional_field "module" dcn_module
  ▷ optional_field "namespace" dcn_namespace ▷ optional_field "identity" dcn_identity ▷ optional_field "apiKey" dcn_api_key
  ▷ optional_field "tlsEnabled" dcn_tls_enabled ▷ optional_field "tlsServerName" dcn_tls_server_name
  ▷ optional_field "tlsCaFile" dcn_tls_ca_file ▷ optional_field "tlsCertFile" dcn_tls_cert_file
  ▷ optional_field "tlsKeyFile" dcn_tls_key_file ▷ optional_field "workerStopTimeout" dcn_worker_stop_timeout.
#[export] Instance DataConnector_codec : Codec DataConnector := struct DataConnector_fields.
Record Endpoint := MkEndpoint {
  ept_id : Z; ept_name : string; ept_id_data_connector : Z; ept_enabled : option bool; ept_tracing_enabled : option bool;
  ept_http_method_type : option Api.HTTPMethodType; ept_path : option string; ept_function_name : string;
  ept_function_package : option string; ept_public_function : option bool; ept_function_description : option string;
  ept_function_initializer_group : option string; ept_function_module : option string; ept_topic : option string;
  ept_partitions : option Z; ept_create_topic : option bool; ept_replication_factor : option Z;
  ept_consumer_group : option string; ept_grpc_method_type : option Api.GrpcMethodType; ept_method_name : option string;
  ept_schedule : option string; ept_schedule_id : option string; ept_timezone : option string;
  ept_overlap_policy : option Api.ScheduleOverlapPolicy; ept_missed_run_policy : option Api.ScheduleMissedRunPolicy;
  ept_task_queue : option string; ept_temporal_execution_type : option TemporalExecutionType;
  ept_max_concurrent_activities : option Z; ept_max_concurrent_workflow_tasks : option Z;
  ept_workflow_execution_timeout : option Z; ept_activity_start_to_close_timeout : option Z;
  ept_activity_heartbeat_timeout : option Z; ept_maximum_attempts : option Z }.
Definition Endpoint_fields : Fields Endpoint Endpoint :=
  build MkEndpoint
  ▷ field "id" ept_id ▷ field "name" ept_name ▷ field "idDataConnector" ept_id_data_connector
  ▷ optional_field "enabled" ept_enabled ▷ optional_field "tracingEnabled" ept_tracing_enabled
  ▷ optional_field "httpMethodType" ept_http_method_type ▷ optional_field "path" ept_path
  ▷ field "functionName" ept_function_name ▷ optional_field "functionPackage" ept_function_package
  ▷ optional_field "publicFunction" ept_public_function ▷ optional_field "functionDescription" ept_function_description
  ▷ optional_field "functionInitializerGroup" ept_function_initializer_group
  ▷ optional_field "functionModule" ept_function_module ▷ optional_field "topic" ept_topic
  ▷ optional_field "partitions" ept_partitions ▷ optional_field "createTopic" ept_create_topic
  ▷ optional_field "replicationFactor" ept_replication_factor ▷ optional_field "consumerGroup" ept_consumer_group
  ▷ optional_field "grpcMethodType" ept_grpc_method_type ▷ optional_field "methodName" ept_method_name
  ▷ optional_field "schedule" ept_schedule ▷ optional_field "scheduleId" ept_schedule_id ▷ optional_field "timezone" ept_timezone
  ▷ optional_field "overlapPolicy" ept_overlap_policy ▷ optional_field "missedRunPolicy" ept_missed_run_policy
  ▷ optional_field "taskQueue" ept_task_queue ▷ optional_field "temporalExecutionType" ept_temporal_execution_type
  ▷ optional_field "maxConcurrentActivities" ept_max_concurrent_activities
  ▷ optional_field "maxConcurrentWorkflowTasks" ept_max_concurrent_workflow_tasks
  ▷ optional_field "workflowExecutionTimeout" ept_workflow_execution_timeout
  ▷ optional_field "activityStartToCloseTimeout" ept_activity_start_to_close_timeout
  ▷ optional_field "activityHeartbeatTimeout" ept_activity_heartbeat_timeout
  ▷ optional_field "maximumAttempts" ept_maximum_attempts.
#[export] Instance Endpoint_codec : Codec Endpoint := struct Endpoint_fields.
Record NativeTypeBinding := MkNativeTypeBinding {
  ntb_definition : option string; ntb_import : option string; ntb_package : option string }.
Definition NativeTypeBinding_fields : Fields NativeTypeBinding NativeTypeBinding :=
  build MkNativeTypeBinding
  ▷ optional_field "definition" ntb_definition ▷ optional_field "import" ntb_import ▷ optional_field "package" ntb_package.
#[export] Instance NativeTypeBinding_codec : Codec NativeTypeBinding := struct NativeTypeBinding_fields.
Record TypeSpec := MkTypeSpec {
  typ_name : string; typ_description : option string; typ_type : Api.DataType; typ_value_type : option string;
  typ_key_type : option string; typ_definition_format : option Api.TypeDefinitionFormat; typ_transfer_by_value : option bool;
  typ_use_alias : option bool; typ_bindings : option (list (string * NativeTypeBinding)); typ_package : option string;
  typ_public_type : option bool; typ_module : option string }.
Definition TypeSpec_fields : Fields TypeSpec TypeSpec :=
  build MkTypeSpec
  ▷ field "name" typ_name ▷ optional_field "description" typ_description ▷ field "type" typ_type
  ▷ optional_field "valueType" typ_value_type ▷ optional_field "keyType" typ_key_type
  ▷ optional_field "definitionFormat" typ_definition_format ▷ optional_field "transferByValue" typ_transfer_by_value
  ▷ optional_field "useAlias" typ_use_alias ▷ optional_field (H := map_codec) "bindings" typ_bindings
  ▷ optional_field "package" typ_package ▷ optional_field "publicType" typ_public_type ▷ optional_field "module" typ_module.
#[export] Instance TypeSpec_codec : Codec TypeSpec := struct TypeSpec_fields.
Record StreamApp := MkStreamApp {
  app_settings : ProjectSettings; app_streams : list StreamSpec; app_services : list Service; app_links : list Link;
  app_types : list TypeSpec; app_data_connectors : list DataConnector; app_endpoints : list Endpoint; app_pools : list Pool;
  app_modules : option (list ModuleSpec); app_undefined_enum : option UndefinedEnum }.
Definition StreamApp_fields : Fields StreamApp StreamApp :=
  build MkStreamApp
  ▷ field "settings" app_settings ▷ field "streams" app_streams ▷ field "services" app_services ▷ field "links" app_links
  ▷ field "types" app_types ▷ field "dataConnectors" app_data_connectors ▷ field "endpoints" app_endpoints
  ▷ field "pools" app_pools ▷ optional_field "modules" app_modules ▷ optional_field "undefinedEnum" app_undefined_enum.
#[export] Instance StreamApp_codec : Codec StreamApp := struct StreamApp_fields.

(** * Laws *)
#[export] Instance UndefinedEnum_enum_lawful : LawfulEnum UndefinedEnum Z.
Proof. solve_enum. Qed.
#[export] Instance UndefinedEnum_lawful : LawfulCodec UndefinedEnum.
Proof. apply number_enum_lawful. Qed.
#[export] Instance ProgrammingLanguage_enum_lawful : LawfulEnum Api.ProgrammingLanguage Z.
Proof. solve_enum. Qed.
#[export] Instance ProgrammingLanguage_lawful : LawfulCodec Api.ProgrammingLanguage.
Proof. apply number_enum_lawful. Qed.
#[export] Instance JoinStorageType_enum_lawful : LawfulEnum Api.JoinStorageType Z.
Proof. solve_enum. Qed.
#[export] Instance JoinStorageType_lawful : LawfulCodec Api.JoinStorageType.
Proof. apply number_enum_lawful. Qed.
#[export] Instance TransformationType_enum_lawful : LawfulEnum Api.TransformationType Z.
Proof. solve_enum. Qed.
#[export] Instance TransformationType_lawful : LawfulCodec Api.TransformationType.
Proof. apply number_enum_lawful. Qed.
#[export] Instance JoinType_enum_lawful : LawfulEnum Api.JoinType Z.
Proof. solve_enum. Qed.
#[export] Instance JoinType_lawful : LawfulCodec Api.JoinType.
Proof. apply number_enum_lawful. Qed.
#[export] Instance HTTPMethodType_enum_lawful : LawfulEnum Api.HTTPMethodType string.
Proof. solve_enum. Qed.
#[export] Instance HTTPMethodType_lawful : LawfulCodec Api.HTTPMethodType.
Proof. apply name_enum_lawful. Qed.
#[export] Instance GrpcMethodType_enum_lawful : LawfulEnum Api.GrpcMethodType Z.
Proof. solve_enum. Qed.
#[export] Instance GrpcMethodType_lawful : LawfulCodec Api.GrpcMethodType.
Proof. apply number_enum_lawful. Qed.
#[export] Instance CallSemantics_enum_lawful : LawfulEnum ApiCallSemantics Z.
Proof. solve_enum. Qed.
#[export] Instance CallSemantics_lawful : LawfulCodec ApiCallSemantics.
Proof. apply number_enum_lawful. Qed.
#[export] Instance DataConnectorType_enum_lawful : LawfulEnum Api.DataConnectorType Z.
Proof. solve_enum. Qed.
#[export] Instance DataConnectorType_lawful : LawfulCodec Api.DataConnectorType.
Proof. apply number_enum_lawful. Qed.
#[export] Instance ProcessPattern_enum_lawful : LawfulEnum Api.ProcessPattern Z.
Proof. solve_enum. Qed.
#[export] Instance ProcessPattern_lawful : LawfulCodec Api.ProcessPattern.
Proof. apply number_enum_lawful. Qed.
#[export] Instance LogLevel_enum_lawful : LawfulEnum Api.LogLevel string.
Proof. solve_enum. Qed.
#[export] Instance LogLevel_lawful : LawfulCodec Api.LogLevel.
Proof. apply name_enum_lawful. Qed.
#[export] Instance Environment_enum_lawful : LawfulEnum Environment string.
Proof. solve_enum. Qed.
#[export] Instance Environment_lawful : LawfulCodec Environment.
Proof. apply name_enum_lawful. Qed.
#[export] Instance KubernetesWorkloadType_enum_lawful : LawfulEnum Api.KubernetesWorkloadType string.
Proof. solve_enum. Qed.
#[export] Instance KubernetesWorkloadType_lawful : LawfulCodec Api.KubernetesWorkloadType.
Proof. apply name_enum_lawful. Qed.
#[export] Instance DataConnectorImplementation_enum_lawful : LawfulEnum DataConnectorImplementation string.
Proof. solve_enum. Qed.
#[export] Instance DataConnectorImplementation_lawful : LawfulCodec DataConnectorImplementation.
Proof. apply name_enum_lawful. Qed.
#[export] Instance KafkaSecurityProtocol_enum_lawful : LawfulEnum Api.KafkaSecurityProtocol string.
Proof. solve_enum. Qed.
#[export] Instance KafkaSecurityProtocol_lawful : LawfulCodec Api.KafkaSecurityProtocol.
Proof. apply name_enum_lawful. Qed.
#[export] Instance KafkaSaslMechanism_enum_lawful : LawfulEnum Api.KafkaSaslMechanism string.
Proof. solve_enum. Qed.
#[export] Instance KafkaSaslMechanism_lawful : LawfulCodec Api.KafkaSaslMechanism.
Proof. apply name_enum_lawful. Qed.
#[export] Instance ScheduleOverlapPolicy_enum_lawful : LawfulEnum Api.ScheduleOverlapPolicy string.
Proof. solve_enum. Qed.
#[export] Instance ScheduleOverlapPolicy_lawful : LawfulCodec Api.ScheduleOverlapPolicy.
Proof. apply name_enum_lawful. Qed.
#[export] Instance ScheduleMissedRunPolicy_enum_lawful : LawfulEnum Api.ScheduleMissedRunPolicy string.
Proof. solve_enum. Qed.
#[export] Instance ScheduleMissedRunPolicy_lawful : LawfulCodec Api.ScheduleMissedRunPolicy.
Proof. apply name_enum_lawful. Qed.
#[export] Instance TemporalExecutionType_enum_lawful : LawfulEnum TemporalExecutionType string.
Proof. solve_enum. Qed.
#[export] Instance TemporalExecutionType_lawful : LawfulCodec TemporalExecutionType.
Proof. apply name_enum_lawful. Qed.
#[export] Instance TypeDefinitionFormat_enum_lawful : LawfulEnum Api.TypeDefinitionFormat Z.
Proof. solve_enum. Qed.
#[export] Instance TypeDefinitionFormat_lawful : LawfulCodec Api.TypeDefinitionFormat.
Proof. apply number_enum_lawful. Qed.
#[export] Instance DataType_enum_lawful : LawfulEnum Api.DataType string.
Proof. solve_enum. Qed.
#[export] Instance DataType_lawful : LawfulCodec Api.DataType.
Proof. apply name_enum_lawful. Qed.
#[export] Instance ProjectSettings_lawful : LawfulCodec ProjectSettings.
Proof. solve_struct. Qed.
#[export] Instance Service_lawful : LawfulCodec Service.
Proof. solve_struct. Qed.
#[export] Instance Pool_lawful : LawfulCodec Pool.
Proof. solve_struct. Qed.
#[export] Instance ModuleSpec_lawful : LawfulCodec ModuleSpec.
Proof. solve_struct. Qed.
#[export] Instance StreamSpec_lawful : LawfulCodec StreamSpec.
Proof. solve_struct. Qed.
#[export] Instance Link_lawful : LawfulCodec Link.
Proof. solve_struct. Qed.
#[export] Instance DataConnector_lawful : LawfulCodec DataConnector.
Proof. solve_struct. Qed.
#[export] Instance Endpoint_lawful : LawfulCodec Endpoint.
Proof. solve_struct. Qed.
#[export] Instance NativeTypeBinding_lawful : LawfulCodec NativeTypeBinding.
Proof. solve_struct. Qed.
#[export] Instance TypeSpec_lawful : LawfulCodec TypeSpec.
Proof. solve_struct. Qed.
#[export] Instance StreamApp_lawful : LawfulCodec StreamApp.
Proof. solve_struct. Qed.

(** * Properties *)
(** C35: a service description that is written and read again is the same:
    every enum is found by its own number or name, absent optional fields stay
    absent, and numbers, texts, maps and lists are kept, for all values whose
    integers fit their width. *)
Theorem api_roundtrip (a : StreamApp) : wf a → dec (enc a) = Some a.
Proof. apply dec_enc. Qed.

(** a description is read strictly: every required key is there, no key
    is unknown and none is given twice. *)
Theorem api_strict (o : list (string * Doc)) (a : StreamApp) :
  dec (DMap o) = Some a →
  NoDup o.*1 ∧
  Forall (λ n, n ∈ o.*1) ["settings"; "streams"; "services"; "links"; "types"; "dataConnectors"; "endpoints"; "pools"] ∧
  Forall (λ n, n ∈ names StreamApp_fields) o.*1.
Proof. apply (struct_keys StreamApp_fields). solve_required. Qed.

(** The enums of one numbering or naming are told apart. *)
Theorem transformation_type_number (z : Z) (t : Api.TransformationType) :
  of_repr z = Some t ↔ TransformationType_repr t = z.
Proof. change (TransformationType_repr t) with (repr t). split; [apply of_repr_Some|]. intros <-. apply of_repr_repr. Qed.

(** ** Witnesses *)
Definition example_settings : ProjectSettings := MkProjectSettings "orders" (Some "v1") None.
Definition example_pool : Pool := MkPool "fast" 4 (Some 16).
Definition example_link : Link := MkLink 1 2 CSTaskPool (Some true) (Some "fast") None.
Definition example_connector : DataConnector :=
  MkDataConnector 3 "broker" Api.DCKafka (Some ImplRustRdkafka) (Some [("go", "IBM/Sarama"); ("rust", "rust/rdkafka")])
    None None None None (Some "localhost:9092") None (Some (f64_of_Z 2)) None None (Some Api.SASLSSL) (Some Api.SCRAMSHA256)
    None None None None None None None None None None None None None.
Definition example_app : StreamApp :=
  MkStreamApp example_settings [] [] [example_link] [] [example_connector] [] [example_pool] None (Some UEUndefined).
Lemma example_app_wf : wf example_app.
Proof.
  repeat first [split|apply Forall_cons|apply Forall_nil|exact I]; cbn; try (by vm_compute); repeat constructor.
Qed.
Lemma api_roundtrip_witness : dec (enc example_app) = Some example_app ∧ enc example_pool =
  DMap [("name", DText "fast"); ("executorsCount", DInt 4); ("queueCapacity", DInt 16)].
Proof. split; [apply api_roundtrip, example_app_wf|reflexivity]. Defined.
Lemma api_strict_witness : NoDup (enc_fields StreamApp_fields example_app).*1.
Proof. refine (proj1 (api_strict (enc_fields StreamApp_fields example_app) example_app _)). by vm_compute. Defined.
