(* ===== verification/StatusPage.v ===== *)
(** The status page, [src/src/runtime/statusweb.rs]: the live graph of a service
    as nodes and edges, the images of the nodes, and the configuration shown as
    YAML.  The web page itself is a static file; positions are bit patterns of
    floats, and [calls] reads a link's call counter. *)

From stdpp Require Import pretty sorting.
From Stdlib Require Import Strings.Ascii Sorting.Sorted.
From Stdlib Require Strings.String.
From S2P Require Import Prelude Config Environment.
Local Open Scope Z_scope.

(** * Icons *)
Definition MDI_DATABASE_ARROW_RIGHT : string :=
  "M4 7C4 4.79 7.58 3 12 3S20 4.79 20 7 16.42 11 12 11 4 9.21 4 7M19.72 13.05C19.9 12.71 20 12.36 20 12V9C20 11.21 16.42 " +:+
  "13 12 13S4 11.21 4 9V12C4 14.21 7.58 16 12 16C12.65 16 13.28 15.96 13.88 15.89C14.93 14.16 16.83 13 19 13C19.24 13 19." +:+
  "5 13 19.72 13.05M13.1 17.96C12.74 18 12.37 18 12 18C7.58 18 4 16.21 4 14V17C4 19.21 7.58 21 12 21C12.46 21 12.9 21 13." +:+
  "33 20.94C13.12 20.33 13 19.68 13 19C13 18.64 13.04 18.3 13.1 17.96M23 19L20 16V18H16V20H20V22L23 19Z".
Definition MDI_ARROW_LEFT_RIGHT : string :=
  "M6.45,17.45L1,12L6.45,6.55L7.86,7.96L4.83,11H19.17L16.14,7.96L17.55,6.55L23,12L17.55,17.45L16.14,16.04L19.17,13H4.83L7" +:+
  ".86,16.04L6.45,17.45Z".
Definition MDI_FILTER : string :=
  "M14,12V19.88C14.04,20.18 13.94,20.5 13.71,20.71C13.32,21.1 12.69,21.1 12.3,20.71L10.29,18.7C10.06,18.47 9.96,18.16 10," +:+
  "17.87V12H9.97L4.21,4.62C3.87,4.19 3.95,3.56 4.38,3.22C4.57,3.08 4.78,3 5,3V3H19V3C19.22,3 19.43,3.08 19.62,3.22C20.05," +:+
  "3.56 20.13,4.19 19.79,4.62L14.03,12H14Z".
Definition MDI_CALL_MERGE : string :=
  "M17,20.41L18.41,19L15,15.59L13.59,17M7.5,8H11V13.59L5.59,19L7,20.41L13,14.41V8H16.5L12,3.5".
Definition MDI_FUNCTION : string :=
  "M15.6,5.29C14.5,5.19 13.53,6 13.43,7.11L13.18,10H16V12H13L12.56,17.07C12.37,19.27 10.43,20.9 8.23,20.7C6.92,20.59 5.82" +:+
  ",19.86 5.17,18.83L6.67,17.33C6.91,18.07 7.57,18.64 8.4,18.71C9.5,18.81 10.47,18 10.57,16.89L11,12H8V10H11.17L11.44,6.9" +:+
  "3C11.63,4.73 13.57,3.1 15.77,3.3C17.08,3.41 18.18,4.14 18.83,5.17L17.33,6.67C17.09,5.93 16.43,5.36 15.6,5.29Z".
Definition MDI_TRANSIT : string :=
  "M18,11H14.82C14.4,9.84 13.3,9 12,9C10.7,9 9.6,9.84 9.18,11H6C5.67,11 4,10.9 4,9V8C4,6.17 5.54,6 6,6H16.18C16.6,7.16 17" +:+
  ".7,8 19,8A3,3 0 0,0 22,5A3,3 0 0,0 19,2C17.7,2 16.6,2.84 16.18,4H6C4.39,4 2,5.06 2,8V9C2,11.94 4.39,13 6,13H9.18C9.6,1" +:+
  "4.16 10.7,15 12,15C13.3,15 14.4,14.16 14.82,13H18C18.33,13 20,13.1 20,15V16C20,17.83 18.46,18 18,18H7.82C7.4,16.84 6.3" +:+
  ",16 5,16A3,3 0 0,0 2,19A3,3 0 0,0 5,22C6.3,22 7.4,21.16 7.82,20H18C19.61,20 22,18.93 22,16V15C22,12.07 19.61,11 18,11M" +:+
  "19,4A1,1 0 0,1 20,5A1,1 0 0,1 19,6A1,1 0 0,1 18,5A1,1 0 0,1 19,4M5,20A1,1 0 0,1 4,19A1,1 0 0,1 5,18A1,1 0 0,1 6,19A1,1" +:+
  " 0 0,1 5,20Z".
Definition MDI_KEY : string :=
  "M7 14C5.9 14 5 13.1 5 12S5.9 10 7 10 9 10.9 9 12 8.1 14 7 14M12.6 10C11.8 7.7 9.6 6 7 6C3.7 6 1 8.7 1 12S3.7 18 7 18C9" +:+
  ".6 18 11.8 16.3 12.6 14H16V18H20V14H23V10H12.6Z".
Definition MDI_MERGE : string :=
  "M8 17L12 13H15.2C15.6 14.2 16.7 15 18 15C19.7 15 21 13.7 21 12S19.7 9 18 9C16.7 9 15.6 9.8 15.2 11H12L8 7V3H3V8H6L10.2" +:+
  " 12L6 16H3V21H8V17Z".
Definition MDI_SPLIT : string :=
  "M14,4L16.29,6.29L13.41,9.17L14.83,10.59L17.71,7.71L20,10V4M10,4H4V10L6.29,7.71L11,12.41V20H13V11.59L7.71,6.29".
Definition MDI_BRANCH : string :=
  "M6,2A3,3 0 0,1 9,5C9,6.28 8.19,7.38 7.06,7.81C7.15,8.27 7.39,8.83 8,9.63C9,10.92 11,12.83 12,14.17C13,12.83 15,10.92 1" +:+
  "6,9.63C16.61,8.83 16.85,8.27 16.94,7.81C15.81,7.38 15,6.28 15,5A3,3 0 0,1 18,2A3,3 0 0,1 21,5C21,6.32 20.14,7.45 18.95" +:+
  ",7.85C18.87,8.37 18.64,9 18,9.83C17,11.17 15,13.08 14,14.38C13.39,15.17 13.15,15.73 13.06,16.19C14.19,16.62 15,17.72 1" +:+
  "5,19A3,3 0 0,1 12,22A3,3 0 0,1 9,19C9,17.72 9.81,16.62 10.94,16.19C10.85,15.73 10.61,15.17 10,14.38C9,13.08 7,11.17 6," +:+
  "9.83C5.36,9 5.13,8.37 5.05,7.85C3.86,7.45 3,6.32 3,5A3,3 0 0,1 6,2M6,4A1,1 0 0,0 5,5A1,1 0 0,0 6,6A1,1 0 0,0 7,5A1,1 0" +:+
  " 0,0 6,4M18,4A1,1 0 0,0 17,5A1,1 0 0,0 18,6A1,1 0 0,0 19,5A1,1 0 0,0 18,4M12,18A1,1 0 0,0 11,19A1,1 0 0,0 12,20A1,1 0 " +:+
  "0,0 13,19A1,1 0 0,0 12,18Z".
Definition MDI_DATABASE_ARROW_LEFT : string :=
  "M4 7C4 4.79 7.58 3 12 3S20 4.79 20 7 16.42 11 12 11 4 9.21 4 7M19.72 13.05C19.9 12.71 20 12.36 20 12V9C20 11.21 16.42 " +:+
  "13 12 13S4 11.21 4 9V12C4 14.21 7.58 16 12 16C12.65 16 13.28 15.96 13.88 15.89C14.93 14.16 16.83 13 19 13C19.24 13 19." +:+
  "5 13 19.72 13.05M13.1 17.96C12.74 18 12.37 18 12 18C7.58 18 4 16.21 4 14V17C4 19.21 7.58 21 12 21C12.46 21 12.9 21 13." +:+
  "33 20.94C13.12 20.33 13 19.68 13 19C13 18.64 13.04 18.3 13.1 17.96M18 18V16L15 19L18 22V20H22V18H18Z".
Definition MDI_SYNC : string :=
  "M12,18A6,6 0 0,1 6,12C6,11 6.25,10.03 6.7,9.2L5.24,7.74C4.46,8.97 4,10.43 4,12A8,8 0 0,0 12,20V23L16,19L12,15M12,4V1L8" +:+
  ",5L12,9V6A6,6 0 0,1 18,12C18,13 17.75,13.97 17.3,14.8L18.76,16.26C19.54,15.03 20,13.57 20,12A8,8 0 0,0 12,4Z".
Definition MDI_ALERT : string :=
  "M13,13H11V7H13M13,17H11V15H13M12,2A10,10 0 0,0 2,12A10,10 0 0,0 12,22A10,10 0 0,0 22,12A10,10 0 0,0 12,2Z".
Definition MDI_TIMER : string :=
  "M19.03 7.39L20.45 5.97C20 5.46 19.55 5 19.04 4.56L17.62 6C16.07 4.74 14.12 4 12 4C7.03 4 3 8.03 3 13S7.03 22 12 22C17 " +:+
  "22 21 17.97 21 13C21 10.88 20.26 8.93 19.03 7.39M13 14H11V7H13V14M15 1H9V3H15V1Z".
Definition MDI_WHEN : string :=
  "M13,14C9.64,14 8.54,15.35 8.18,16.24C9.25,16.7 10,17.76 10,19A3,3 0 0,1 7,22A3,3 0 0,1 4,19C4,17.69 4.83,16.58 6,16.17" +:+
  "V7.83C4.83,7.42 4,6.31 4,5A3,3 0 0,1 7,2A3,3 0 0,1 10,5C10,6.31 9.17,7.42 8,7.83V13.12C8.88,12.47 10.16,12 12,12C14.67" +:+
  ",12 15.56,10.66 15.85,9.77C14.77,9.32 14,8.25 14,7A3,3 0 0,1 17,4A3,3 0 0,1 20,7C20,8.34 19.12,9.5 17.91,9.86C17.65,11" +:+
  ".29 16.68,14 13,14M7,18A1,1 0 0,0 6,19A1,1 0 0,0 7,20A1,1 0 0,0 8,19A1,1 0 0,0 7,18M7,4A1,1 0 0,0 6,5A1,1 0 0,0 7,6A1," +:+
  "1 0 0,0 8,5A1,1 0 0,0 7,4M17,6A1,1 0 0,0 16,7A1,1 0 0,0 17,8A1,1 0 0,0 18,7A1,1 0 0,0 17,6Z".
Definition MDI_API : string :=
  "M7 7H5A2 2 0 0 0 3 9V17H5V13H7V17H9V9A2 2 0 0 0 7 7M7 11H5V9H7M14 7H10V17H12V13H14A2 2 0 0 0 16 11V9A2 2 0 0 0 14 7M14" +:+
  " 11H12V9H14M20 9V15H21V17H17V15H18V9H17V7H21V9Z".
Definition MDI_CALL_MADE : string :=
  "M9,5V7H15.59L4,18.59L5.41,20L17,8.41V15H19V5".
Definition MDI_CALENDAR_CLOCK : string :=
  "M15,13H16.5V15.82L18.94,17.23L18.19,18.53L15,16.69V13M19,8H5V19H9.67C9.24,18.09 9,17.07 9,16A7,7 0 0,1 16,9C17.07,9 18" +:+
  ".09,9.24 19,9.67V8M5,21C3.89,21 3,20.1 3,19V5C3,3.89 3.89,3 5,3H6V1H8V3H16V1H18V3H19A2,2 0 0,1 21,5V11.1C22.24,12.36 2" +:+
  "3,14.09 23,16A7,7 0 0,1 16,23C14.09,23 12.36,22.24 11.1,21H5M16,11.15A4.85,4.85 0 0,0 11.15,16C11.15,18.68 13.32,20.85" +:+
  " 16,20.85A4.85,4.85 0 0,0 20.85,16C20.85,13.32 18.68,11.15 16,11.15Z".
Definition EDGE_COLOR : string := "#0050FF".
Definition ERROR_COLOR : string := "#FF3030".

(** * Data *)
Record NodeImage := MkNodeImage { unselected : string; selected : string }.
Record NodeColor := MkNodeColor { nc_border : string; nc_highlight_border : string }.
Record Node := MkNode {
  n_id : Z; n_label : string; n_shape : string; n_image : NodeImage; n_size : Z; n_color : NodeColor; n_opacity : Z;
  n_x : Z; n_y : Z }.
Record Edge := MkEdge {
  e_from : Z; e_to : Z; e_arrows : string; e_length : Z; e_label : string; e_opacity : Z; e_color : string }.
Record NetworkData := MkNetwork { nodes : list Node; edges : list Edge }.

(** * Images *)
(** The bits of [1.0f32]. *)
Definition one_f32 : Z := 1065353216.
Definition newline : string := String "010"%char "".
Definition percent (c : ascii) : list ascii :=
  match c with
  | " " => ["%"; "2"; "0"] | "<" => ["%"; "3"; "C"] | ">" => ["%"; "3"; "E"] | "#" => ["%"; "2"; "3"]
  | "034" => ["%"; "2"; "2"] | "{" => ["%"; "7"; "B"] | "}" => ["%"; "7"; "D"]
  | _ => [c]
  end%char.
Definition svg_prefix : string := "data:image/svg+xml;charset=utf-8,".
Definition svg_data_uri (svg : string) : string :=
  svg_prefix +:+ String.string_of_list_ascii (chars svg ≫= percent).
(** The text of the images, its pieces between double quotes. *)
Definition svg_body (radius background icon : string) : list string :=
  ["<svg xmlns="; "http://www.w3.org/2000/svg"; " width="; "60"; " height="; "60"; "><rect width="; "60"; " height="; "60"; " rx=";
   radius; " fill="; background; "/><svg x="; "10"; " y="; "10"; " width="; "40"; " height="; "40"; " viewBox="; "0 0 24 24";
   "><path d="; icon; " fill="; "white"].
Definition quoted (pieces : list string) : string := String.concat (String "034"%char "") pieces.
Definition node_image (icon background : string) (round : bool) : NodeImage :=
  let background_radius := if round then "30" else "10" in
  let border_radius := if round then "28" else "9" in
  MkNodeImage
    (svg_data_uri (quoted (svg_body background_radius background icon ++ ["/></svg></svg>"])))
    (svg_data_uri (quoted (svg_body background_radius background icon ++
       ["/></svg><rect x="; "2"; " y="; "2"; " width="; "56"; " height="; "56"; " rx="; border_radius; " fill="; "none"; " stroke=";
        "#00FF80"; " stroke-width="; "4"; "/></svg>"]))).
Definition transparent_color : NodeColor := MkNodeColor "transparent" "transparent".
Definition transformation_name (t : Api.TransformationType) : string :=
  match t with
  | Api.TTUndefined => "UNDEFINED" | Api.TTInput => "INPUT" | Api.TTSubStream => "SUBSTREAM" | Api.TTMap => "MAP"
  | Api.TTFilter => "FILTER" | Api.TTJoin => "JOIN" | Api.TTMultiJoin => "MULTIJOIN" | Api.TTProcess => "PROCESS"
  | Api.TTFlatMap => "FLATMAP" | Api.TTFlatMapIterable => "FLATMAPITERABLE" | Api.TTKeyBy => "KEYBY" | Api.TTMerge => "MERGE"
  | Api.TTSplit => "SPLIT" | Api.TTCase => "CASE" | Api.TTSink => "SINK" | Api.TTCycleLink => "CYCLELINK"
  | Api.TTError => "ERROR" | Api.TTDelay => "DELAY" | Api.TTWhen => "WHEN"
  end.

Section status.
Context {Json Pool PriorityPool Endpoint Storage Buildable : Type}.
Notation Env := (RuntimeEnvironment Json Pool PriorityPool Endpoint Storage Buildable).
Implicit Types (env : Env) (r : RuntimeConfig Json) (config : RuntimeStreamConfig Json).

(** * Nodes *)
Definition status_icon_connector_type r config : option Api.DataConnectorType :=
  id ← stream_endpoint_id config; endpoint ← endpoint_by_id r id; connector ← data_connector_by_id r (data_connector_id endpoint);
  Some (connector_type connector).
Definition status_icon_is_api r config : bool :=
  match status_icon_connector_type r config with Some Api.DCHTTP | Some Api.DCGRPC => true | _ => false end.
Definition status_icon r config : string :=
  match status_icon_connector_type r config with
  | Some Api.DCCron => MDI_CALENDAR_CLOCK
  | _ =>
      if status_icon_is_api r config then
        match transformation_type config with Api.TTSink => MDI_CALL_MADE | _ => MDI_API end
      else
        match transformation_type config with
        | Api.TTInput => MDI_DATABASE_ARROW_RIGHT | Api.TTSubStream => MDI_FUNCTION | Api.TTMap => MDI_ARROW_LEFT_RIGHT
        | Api.TTFilter => MDI_FILTER | Api.TTJoin | Api.TTMultiJoin => MDI_CALL_MERGE | Api.TTProcess => MDI_FUNCTION
        | Api.TTFlatMap | Api.TTFlatMapIterable => MDI_TRANSIT | Api.TTKeyBy => MDI_KEY | Api.TTMerge => MDI_MERGE
        | Api.TTSplit => MDI_SPLIT | Api.TTCase => MDI_BRANCH | Api.TTSink => MDI_DATABASE_ARROW_LEFT
        | Api.TTCycleLink => MDI_SYNC | Api.TTError => MDI_ALERT | Api.TTDelay => MDI_TIMER | Api.TTWhen => MDI_WHEN
        | Api.TTUndefined => MDI_FUNCTION
        end
  end.
Definition make_node r (service_id : Z) config : Node :=
  let stream := stream config in
  let service :=
    match service_by_id r (if id_service stream =? 0 then service_id else id_service stream) with
    | Some service => Some service
    | None => service_by_id r service_id
    end in
  let service_name := from_option svc_name "" service in
  let background := from_option color "#0050FF" service in
  MkNode (str_id stream)
    (str_name stream +:+ "(" +:+ transformation_name (transformation_type config) +:+ ")" +:+ newline +:+ "[" +:+ service_name +:+ "]")
    "image" (node_image (status_icon r config) background (status_icon_is_api r config)) 30 transparent_color one_f32
    (x_pos stream) (y_pos stream).
Definition make_error_node r (service_id virtual_id : Z) producer : Node :=
  let node := make_node r service_id producer in
  let service := service_by_id r service_id in
  MkNode virtual_id
    (str_name (stream producer) +:+ " Error(ERROR)" +:+ newline +:+ "[" +:+ from_option svc_name "" service +:+ "]")
    (n_shape node) (node_image MDI_ALERT (from_option color "#0050FF" service) false) (n_size node) (n_color node) (n_opacity node) 0 0.

(** * Edges *)
Definition make_edge (from to : Z) (type_name : string) (calls : Z) (color : string) (join_side : option string) : Edge :=
  let label := if 0 <? calls then type_name +:+ newline +:+ "calls: " +:+ pretty calls else type_name in
  let label := match join_side with Some side => label +:+ " (" +:+ side +:+ ")" | None => label end in
  MkEdge from to "to" 200 label one_f32 color.
Definition join_side r (l : GraphLink) : option string :=
  target ← stream_by_id r (gl_to l);
  match transformation_type target with
  | Api.TTJoin | Api.TTMultiJoin => Some (if id_source (stream target) =? gl_from l then "L" else "R")
  | _ => None
  end.
(** [-link.from] *)
Definition producer_id (l : GraphLink) : Z := wrap_s 32 (- gl_from l).

(** * The network *)
Definition node_le (a b : Node) : Prop := n_id a ≤ n_id b.
#[global] Instance node_le_dec : RelDecision node_le.
Proof. intros a b. unfold node_le. apply _. Defined.
(** The type shown on the edge to a virtual error node. *)
Definition producer_type (links : list GraphLink) (l : GraphLink) : string :=
  match list_find (λ c, gl_from c = producer_id l) links with Some (_, c) => gl_type_name c | None => gl_type_name l end.
(** One turn of the loop over the links. *)
Definition add_link r (service_id : Z) (calls : Z → Z) (links : list GraphLink) (s : list Node * list Edge * gset Z) (l : GraphLink) :
    list Node * list Edge * gset Z :=
  let '(nodes, edges, error_nodes) := s in
  let '(nodes, edges, error_nodes) :=
    if decide (gl_from l < 0 ∧ gl_from l ∉ error_nodes) then
      (nodes ++ match stream_by_id r (producer_id l) with
                | Some producer => [make_error_node r service_id (gl_from l) producer]
                | None => []
                end,
       edges ++ [make_edge (producer_id l) (gl_from l) (producer_type links l) 0 ERROR_COLOR None],
       {[gl_from l]} ∪ error_nodes)
    else (nodes, edges, error_nodes) in
  (nodes, edges ++ [make_edge (gl_from l) (gl_to l) (gl_type_name l) (calls (gl_calls l)) EDGE_COLOR (join_side r l)], error_nodes).
Definition stream_nodes env (service : Z) : list Node :=
  make_node (runtime_config env) service <$>
    filter (λ config, str_id (stream config) ∈ runtime_streams env ∧
                      (id_service (stream config) = 0 ∨ id_service (stream config) = service)) (streams (runtime_config env)).
Definition network_data env (calls : Z → Z) : NetworkData :=
  let r := runtime_config env in
  let service := default 0 (service_id env) in
  let links := graph_links env in
  let '(nodes, edges, _) := foldl (add_link r service calls links) (stream_nodes env service, [], ∅) links in
  MkNetwork (merge_sort node_le nodes) edges.

(** [graph_yaml], before the YAML writer *)
Record Graph := MkGraph {
  g_services : list ServiceConfig; g_streams : list (RuntimeStreamConfig Json); g_links : list LinkConfig;
  g_data_connectors : list RuntimeDataConnectorConfig; g_endpoints : list RuntimeEndpointConfig; g_pools : list PoolConfig }.
Definition graph_yaml (to_string : Graph → string + string) env : string + string :=
  let r := runtime_config env in
  to_string (MkGraph (services r) (streams r) (link_values r) (data_connectors r) (endpoints r) (pools r)).
End status.

(** * Lemmas *)
Definition is_red (e : Edge) : Prop := e_color e = ERROR_COLOR.
Definition is_blue (e : Edge) : Prop := e_color e = EDGE_COLOR.
#[export] Instance is_red_dec e : Decision (is_red e) := decide (e_color e = ERROR_COLOR).
#[export] Instance is_blue_dec e : Decision (is_blue e) := decide (e_color e = EDGE_COLOR).
Section network.
Context {Json : Type} (r : RuntimeConfig Json) (service : Z) (calls : Z → Z) (links : list GraphLink).
(** The edge of a link. *)
Definition link_edge (l : GraphLink) : Edge :=
  make_edge (gl_from l) (gl_to l) (gl_type_name l) (calls (gl_calls l)) EDGE_COLOR (join_side r l).
(** An error node has a producer. *)
Definition has_producer (z : Z) : Prop := is_Some (stream_by_id r (wrap_s 32 (- z))).
#[local] Instance has_producer_dec z : Decision (has_producer z) := _.
(** After the links [done], from the nodes [ns]. *)
Record network_inv (ns : list Node) (done : list GraphLink) (nodes : list Node) (edges : list Edge) (error_nodes : gset Z) : Prop := {
  ni_blue : filter is_blue edges = link_edge <$> done;
  ni_red : NoDup (e_to <$> filter is_red edges);
  ni_seen z : z ∈ error_nodes ↔ z ∈ e_to <$> filter is_red edges;
  ni_negative z : z ∈ error_nodes ↔ z < 0 ∧ z ∈ gl_from <$> done;
  ni_from : Forall (λ e, e_from e = wrap_s 32 (- e_to e)) (filter is_red edges);
  ni_nodes : n_id <$> nodes = (n_id <$> ns) ++ filter has_producer (e_to <$> filter is_red edges);
  ni_order i e : edges !! i = Some e → is_blue e → e_from e < 0 →
    ∃ j e', (j < i)%nat ∧ edges !! j = Some e' ∧ is_red e' ∧ e_to e' = e_from e }.
Lemma network_inv_blue ns done nodes edges seen l :
  network_inv ns done nodes edges seen → (gl_from l < 0 → gl_from l ∈ seen) →
  network_inv ns (done ++ [l]) nodes (edges ++ [link_edge l]) seen.
Proof.
  intros [Hb Hr Hs Hn Hf Hd Ho] Hl.
  assert (Hred : filter is_red (edges ++ [link_edge l]) = filter is_red edges)
    by (rewrite filter_app, (filter_cons_False _ _ []), filter_nil, app_nil_r; done).
  split; rewrite ?Hred; try done.
  - by rewrite filter_app, (filter_cons_True _ _ []), filter_nil, Hb, fmap_app.
  - intros z. rewrite Hn, fmap_app, elem_of_app. cbn. rewrite list_elem_of_singleton. split; [tauto|].
    intros [? [?| ->]]; [tauto|]. apply Hn. tauto.
  - intros i e He Hbe Hneg. apply lookup_app_Some in He as [He|[Hge He]].
    + destruct (Ho i e He Hbe Hneg) as (j & e' & Hj & Hlk & Hre & Hto). exists j, e'. split_and!; try done.
      apply lookup_app_Some. by left.
    + apply list_lookup_singleton_Some in He as [Hi <-]. cbn in *. specialize (Hl Hneg). rewrite Hs in Hl.
      apply list_elem_of_fmap in Hl as (e' & Hto & [Hre Hin]%list_elem_of_filter).
      apply list_elem_of_lookup in Hin as [j Hj]. exists j, e'. split_and!; try done.
      * apply lookup_lt_Some in Hj. lia.
      * apply lookup_app_Some. by left.
Qed.
Lemma network_inv_red ns done nodes edges seen l name :
  network_inv ns done nodes edges seen → gl_from l < 0 → gl_from l ∉ seen →
  network_inv ns (done ++ [l])
    (nodes ++ match stream_by_id r (producer_id l) with
              | Some producer => [make_error_node r service (gl_from l) producer] | None => [] end)
    ((edges ++ [make_edge (producer_id l) (gl_from l) name 0 ERROR_COLOR None]) ++ [link_edge l]) ({[gl_from l]} ∪ seen).
Proof.
  intros [Hb Hr Hs Hn Hf Hd Ho] Hneg Hnew. set (red := make_edge _ _ _ _ _ _).
  assert (Hred : filter is_red ((edges ++ [red]) ++ [link_edge l]) = filter is_red edges ++ [red]).
  { rewrite !filter_app, (filter_cons_True _ red []), (filter_cons_False _ _ []), !filter_nil, app_nil_r; done. }
  split; rewrite ?Hred.
  - rewrite !filter_app, (filter_cons_False _ red []), (filter_cons_True _ _ []), !filter_nil, app_nil_r by done.
    by rewrite Hb, fmap_app.
  - rewrite fmap_app. apply NoDup_app. split_and!; [done| |apply NoDup_singleton].
    intros z Hz ->%list_elem_of_singleton. by apply Hnew, Hs.
  - intros z. rewrite fmap_app, elem_of_union, elem_of_app, Hs, elem_of_singleton. cbn. rewrite list_elem_of_singleton. tauto.
  - intros z. rewrite fmap_app, elem_of_union, elem_of_app, Hn, elem_of_singleton. cbn. rewrite list_elem_of_singleton.
    split; [intros [->|?]; tauto|]. intros [? [?| ->]]; tauto.
  - apply Forall_app. split; [done|]. by apply Forall_singleton.
  - rewrite !fmap_app, Hd, filter_app, <-app_assoc. f_equal. f_equal. cbn [fmap list_fmap e_to make_edge red].
    destruct (decide (has_producer (gl_from l))) as [Hp|Hp].
    + rewrite (filter_cons_True _ _ []), filter_nil by done. unfold has_producer in Hp. fold (producer_id l) in Hp.
      by destruct Hp as [p ->].
    + rewrite (filter_cons_False _ _ []), filter_nil by done. unfold has_producer in Hp. fold (producer_id l) in Hp.
      destruct (stream_by_id r (producer_id l)) as [p|]; [|done]. destruct Hp. by eexists.
  - intros i e He Hbe Hn'. apply lookup_app_Some in He as [He|[Hge He]].
    + apply lookup_app_Some in He as [He|[Hge He]].
      * destruct (Ho i e He Hbe Hn') as (j & e' & Hj & Hlk & ?). exists j, e'. split; [done|]. split; [|done].
        rewrite lookup_app_l; [by rewrite lookup_app_l by by eapply lookup_lt_Some|]. rewrite length_app.
        apply lookup_lt_Some in Hlk. lia.
      * apply list_lookup_singleton_Some in He as [_ <-]. done.
    + apply list_lookup_singleton_Some in He as [Hi <-]. exists (length edges), red. cbn. split_and!; try done.
      * rewrite length_app in *. cbn in *. lia.
      * rewrite lookup_app_l by (rewrite length_app; cbn; lia). by apply list_lookup_middle.
Qed.
Lemma network_inv_fold ns done :
  let '(nodes, edges, seen) := foldl (add_link r service calls links) (ns, [], ∅) done in network_inv ns done nodes edges seen.
Proof.
  induction done as [|l done IH] using rev_ind; [split; cbn; try done; [constructor|set_solver..|by rewrite app_nil_r]|].
  rewrite foldl_app. cbn [foldl]. destruct (foldl _ _ done) as [[nodes edges] seen]. unfold add_link.
  case_decide as Hd.
  - destruct Hd as [Hneg Hnew]. by apply network_inv_red.
  - apply network_inv_blue; [done|]. intros Hneg. destruct (decide (gl_from l ∈ seen)); [done|]. tauto.
Qed.
End network.

Lemma NoDup_fmap_filter {A B} (f : A → B) (P : A → Prop) `{∀ x, Decision (P x)} l : NoDup (f <$> l) → NoDup (f <$> filter P l).
Proof.
  induction l as [|x l IH]; [done|]. rewrite fmap_cons. intros [Hx Hl]%NoDup_cons. destruct (decide (P x)).
  - rewrite filter_cons_True, fmap_cons by done. apply NoDup_cons. split; [|by apply IH]. intros (y & Hxy & [_ Hy]%list_elem_of_filter)%list_elem_of_fmap.
    apply Hx, list_elem_of_fmap. by exists y.
  - rewrite filter_cons_False by done. by apply IH.
Qed.

(** ** Data URIs *)
Definition reserved : list ascii := [" "; "<"; ">"; "#"; "034"; "{"; "}"]%char.
(** What a browser reads back. *)
Fixpoint percent_decode (fuel : nat) (l : list ascii) : list ascii :=
  match fuel with
  | O => l
  | S fuel =>
      match l with
      | "%"%char :: a :: b :: rest =>
          match list_find (λ c, percent c = ["%"%char; a; b]) reserved with
          | Some (_, c) => c :: percent_decode fuel rest
          | None => "%"%char :: percent_decode fuel (a :: b :: rest)
          end
      | c :: rest => c :: percent_decode fuel rest
      | [] => []
      end
  end.
Lemma percent_cases c : (percent c = [c] ∧ c ∉ reserved) ∨ (c ∈ reserved ∧ ∃ a b, percent c = ["%"%char; a; b] ∧ a ∉ reserved ∧ b ∉ reserved ∧
  list_find (λ c, percent c = ["%"%char; a; b]) reserved = Some (default 0%nat (fst <$> list_find (λ d, d = c) reserved), c)).
Proof.
  destruct (decide (c ∈ reserved)) as [Hc|Hc].
  - right. split; [done|]. unfold reserved in Hc.
    repeat (apply elem_of_cons in Hc as [->|Hc]; [by eexists _, _; split_and!; [reflexivity|by apply (bool_decide_eq_true_1 _)..|reflexivity]|]).
    by apply elem_of_nil in Hc.
  - left. split; [|done]. destruct c as [[] [] [] [] [] [] [] []]; try reflexivity; exfalso; apply Hc, (bool_decide_eq_true_1 _); reflexivity.
Qed.
Lemma percent_decode_plain fuel c l : c ≠ "%"%char → percent_decode (S fuel) (c :: l) = c :: percent_decode fuel l.
Proof.
  intros Hc. destruct c as [[] [] [] [] [] [] [] []]; try reflexivity. by destruct Hc.
Qed.
Lemma percent_decode_encode (l : list ascii) fuel :
  "%"%char ∉ l → (length l ≤ fuel)%nat → percent_decode fuel (l ≫= percent) = l.
Proof.
  revert fuel. induction l as [|c l IH]; intros [|fuel] Hp Hf; cbn in Hf; [done|done|lia|].
  apply not_elem_of_cons in Hp as [Hc Hp]. rewrite bind_cons. destruct (percent_cases c) as [[-> _]|[_ (a & b & -> & _ & _ & Hfind)]].
  - cbn [app]. rewrite percent_decode_plain by done. by rewrite IH by (done || lia).
  - cbn [app percent_decode]. rewrite Hfind. by rewrite IH by (done || lia).
Qed.
Lemma percent_reserved (l : list ascii) : Forall (λ c, c ∉ reserved) (l ≫= percent).
Proof.
  apply Forall_bind, Forall_forall. intros c _. cbn. destruct (percent_cases c) as [[-> Hc]|[_ (a & b & -> & Ha & Hb & _)]].
  - by apply Forall_singleton.
  - rewrite !Forall_cons. split_and!; [|done..]. apply (bool_decide_eq_true_1 _). reflexivity.
Qed.

(** * Properties *)
(** the edges of the status page are the links of the live graph, each
    once, in order and with its calls; and one red edge for each error source,
    from its producer, that comes before the first edge that leaves it. *)
Theorem status_edges_exact {Json Pool PriorityPool Endpoint Storage Buildable}
    (env : RuntimeEnvironment Json Pool PriorityPool Endpoint Storage Buildable) (calls : Z → Z) :
  let es := edges (network_data env calls) in
  filter is_blue es = link_edge (runtime_config env) calls <$> graph_links env ∧
  NoDup (e_to <$> filter is_red es) ∧
  (∀ z, z ∈ e_to <$> filter is_red es ↔ z < 0 ∧ z ∈ gl_from <$> graph_links env) ∧
  Forall (λ e, e_from e = wrap_s 32 (- e_to e)) (filter is_red es) ∧
  ∀ i e, es !! i = Some e → is_blue e → e_from e < 0 →
    ∃ j e', (j < i)%nat ∧ es !! j = Some e' ∧ is_red e' ∧ e_to e' = e_from e.
Proof.
  unfold network_data.
  pose proof (network_inv_fold (runtime_config env) (default 0 (service_id env)) calls (graph_links env)
    (stream_nodes env (default 0 (service_id env))) (graph_links env)) as Hinv.
  destruct (foldl _ _ _) as [[ns es] seen]. destruct Hinv as [Hb Hr Hs Hn Hf _ Ho]. cbn. split_and!; try done.
  intros z. by rewrite <-Hs, Hn.
Qed.

(** the nodes of the status page are sorted by identifier and each has its
    own: the registered streams of the service, and a virtual node under the
    negative identifier of each error source whose producer is configured. *)
Theorem status_nodes_exact {Json Pool PriorityPool Endpoint Storage Buildable}
    (env : RuntimeEnvironment Json Pool PriorityPool Endpoint Storage Buildable) (calls : Z → Z) :
  (∀ id c, stream_by_id (runtime_config env) id = Some c → str_id (stream c) = id ∧ 0 ≤ id) →
  let ns := nodes (network_data env calls) in
  Sorted node_le ns ∧ NoDup (n_id <$> ns) ∧
  ∀ z, z ∈ n_id <$> ns ↔
    (0 ≤ z ∧ z ∈ runtime_streams env ∧ ∃ c, stream_by_id (runtime_config env) z = Some c ∧
       (id_service (stream c) = 0 ∨ id_service (stream c) = default 0 (service_id env))) ∨
    (z < 0 ∧ z ∈ gl_from <$> graph_links env ∧ has_producer (runtime_config env) z).
Proof.
  intros Hids. unfold network_data. set (service := default 0 (service_id env)).
  pose proof (network_inv_fold (runtime_config env) service calls (graph_links env)
    (stream_nodes env service) (graph_links env)) as Hinv.
  destruct (foldl _ _ _) as [[ns es] seen]. destruct Hinv as [_ Hr Hs Hn _ Hd _]. cbn.
  assert (Hlow : ∀ z, z ∈ n_id <$> stream_nodes env service ↔
    0 ≤ z ∧ z ∈ runtime_streams env ∧ ∃ c, stream_by_id (runtime_config env) z = Some c ∧
      (id_service (stream c) = 0 ∨ id_service (stream c) = service)).
  { intros z. unfold stream_nodes, streams. rewrite <-list_fmap_compose, list_elem_of_fmap. split.
    - intros (c & -> & [[Hreg Hsv] Hin]%list_elem_of_filter). apply list_elem_of_fmap in Hin as ([id c'] & -> & Hin%elem_of_map_to_list).
      destruct (Hids id c' Hin) as [<- ?]. cbn in *. split_and!; [done|done|by exists c'].
    - intros (_ & Hreg & c & Hc & Hsv). destruct (Hids _ _ Hc) as [Hid _]. exists c. split; [cbn; congruence|].
      apply list_elem_of_filter. split; [by rewrite Hid|]. apply list_elem_of_fmap. exists (z, c). split; [done|by apply elem_of_map_to_list]. }
  assert (Hnd : NoDup (n_id <$> stream_nodes env service)).
  { unfold stream_nodes, streams. rewrite <-list_fmap_compose.
    assert (Hall : NoDup (str_id ∘ stream <$> (map_to_list (streams_by_id (runtime_config env))).*2)).
    { rewrite <-list_fmap_compose. rewrite (list_fmap_ext _ fst); [apply NoDup_fst_map_to_list|].
      intros i [id c] Hi. apply list_elem_of_lookup_2, elem_of_map_to_list in Hi. by destruct (Hids id c Hi). }
    by apply (NoDup_fmap_filter (str_id ∘ stream)). }
  pose proof (merge_sort_Permutation node_le ns) as Hperm. split_and!.
  - apply Sorted_merge_sort. intros a b. unfold node_le. lia.
  - rewrite (fmap_Permutation _ _ _ Hperm), Hd. apply NoDup_app. split_and!; [done| |by apply NoDup_filter].
    intros z [Hz _]%Hlow [_ [Hneg _]%Hs%Hn]%list_elem_of_filter. lia.
  - intros z. rewrite (fmap_Permutation _ _ _ Hperm), Hd, elem_of_app, Hlow, list_elem_of_filter, <-Hs, Hn. tauto.
Qed.

(** the image of a node is a data URI that holds none of the characters a
    browser would take for markup or the end of the address, and that decodes
    to the image's own text when that has no percent sign. *)
Theorem svg_data_uri_roundtrip (svg : string) :
  "%"%char ∉ chars svg →
  ∃ encoded, svg_data_uri svg = svg_prefix +:+ encoded ∧ Forall (λ c, c ∉ reserved) (chars encoded) ∧
    percent_decode (length (chars svg)) (chars encoded) = chars svg.
Proof.
  intros Hp. exists (String.string_of_list_ascii (chars svg ≫= percent)). split; [done|]. rewrite chars_of. split.
  - apply percent_reserved.
  - by apply percent_decode_encode.
Qed.
(** A percent sign is not encoded: two texts have the same address. *)
Theorem percent_not_encoded : svg_data_uri "%20" = svg_data_uri " ".
Proof. reflexivity. Qed.

(** ** Witnesses *)
Definition example_streams : gmap Z (RuntimeStreamConfig unit) :=
  {[1 := MapStream (StreamConfig_new 1 "orders"); 2 := SinkStream (StreamConfig_new 2 "archive") 7]}.
Definition example_environment : RuntimeEnvironment unit unit unit unit unit unit :=
  MkEnvironment (Some 1) (MkRuntimeConfig FunctionCall ∅ ∅ example_streams ∅ ∅ ∅ ∅ ∅ ∅ ∅ ∅ ∅)
    [MkGraphLink 1 2 FunctionCall "Order" 0; MkGraphLink (-1) 2 FunctionCall "Failure" 1] {[1; 2]} [] ∅ ∅ ∅ [].
Lemma example_ids id c : example_streams !! id = Some c → str_id (stream c) = id ∧ 0 ≤ id.
Proof. unfold example_streams. rewrite lookup_insert_Some, lookup_singleton_Some. naive_solver lia. Qed.
Lemma status_nodes_exact_witness : -1 ∈ n_id <$> nodes (network_data example_environment (λ _, 3)).
Proof.
  apply (proj2 (proj2 (status_nodes_exact example_environment (λ _, 3) example_ids)) (-1)). right.
  split_and!; [lia|apply (bool_decide_eq_true_1 _); reflexivity|by eexists].
Defined.
(** The labels of the same page. *)
Example status_labels :
  e_label <$> edges (network_data example_environment (λ _, 3)) =
  ["Order" +:+ newline +:+ "calls: 3"; "Order"; "Failure" +:+ newline +:+ "calls: 3"].
Proof. vm_compute. reflexivity. Qed.
Lemma svg_data_uri_roundtrip_witness :
  svg_data_uri "<a b>" = svg_prefix +:+ "%3Ca%20b%3E" ∧
  ∃ encoded, svg_data_uri "<a b>" = svg_prefix +:+ encoded ∧ Forall (λ c, c ∉ reserved) (chars encoded) ∧
    percent_decode 5 (chars encoded) = chars "<a b>".
Proof. split; [reflexivity|]. apply svg_data_uri_roundtrip, (bool_decide_eq_true_1 _). reflexivity. Defined.
