(* ===== verification/Series.v ===== *)
(** The series that the parts of the runtime register, and librdkafka's
    statistics.

    [PoolMetrics::new] and [QueuedPool::new] of [src/src/runtime/pool/queuedpool.rs],
    [configure_metrics] of [src/src/runtime/pool/delaypool.rs] and of
    [src/src/runtime/store/hashmap.rs], the counters of a link
    ([src/src/runtime/collector.rs]), of configuration reloads
    ([src/src/runtime/config/loader.rs]) and of the service
    ([src/src/runtime/serviceapp.rs]), and
    [src/src/runtime/telemetry/librdkafka_statistics.rs].  Registration is by
    family: a name with another kind or description is refused.  [catalogue]
    is the one table of families that every part keeps to. *)

From S2P Require Import Prelude Errors SortedMap Config Environment Metrics Requests QueuedPool ServiceHttp Telemetry.
From S2P Require GrpcConnector SinkCalls HttpSink SourceEndpoints.
Local Open Scope Z_scope.
Local Notation M := (Metrics World).

(** * Task pools *)
Record PoolMetrics := MkPoolMetrics {
  queue_length : Handle; executors_target : Handle; executors_allocated : Handle; executors_busy : Handle;
  tasks_total : Handle; execution_duration : Handle; task_rejected : Handle; task_cancelled : Handle; stop_timeout : Handle }.
(** [PoolMetrics::new] *)
Definition pool_metrics_new (m : M) (service name : string) (priority : bool) : outcome MetricsError PoolMetrics * M :=
  let sc := scope (if priority then "priority_task_pool" else "task_pool")
    (sm_extend [] [("service", service); ("name", name)]) in
  let event_counter event m := counter m sc "events_total" "Total number of events in task pool" [("event", event)] in
  reg_bind (gauge m sc "queue_length" "Task pool wait queue length" []) (λ h1 m,
  reg_bind (gauge m sc "executors_target" "Desired number of task pool executors" []) (λ h2 m,
  reg_bind (gauge m sc "executors_allocated" "Number of live task pool executors" []) (λ h3 m,
  reg_bind (gauge m sc "executors_busy" "Number of task pool executors running callbacks" []) (λ h4 m,
  reg_bind (counter m sc "tasks_total" "Total number of tasks executed by task pool" []) (λ h5 m,
  reg_bind (histogram m sc "task_execution_duration_seconds" "Task execution duration in seconds" [] None) (λ h6 m,
  reg_bind (event_counter "task_rejected" m) (λ h7 m,
  reg_bind (event_counter (if priority then "task_expired" else "task_cancelled") m) (λ h8 m,
  reg_bind (event_counter "stop_timeout" m) (λ h9 m,
    (Ok (MkPoolMetrics h1 h2 h3 h4 h5 h6 h7 h8 h9), m)))))))))).
(** What [QueuedPool::new] keeps; the channels and flags start empty. *)
Record PoolParts := MkPoolParts { p_fallback_executors : Z; p_metrics : option PoolMetrics }.
(** [QueuedPool::new] *)
Definition queued_pool_new {Json} (m : M) (r : RuntimeConfig Json) (service name : string) (priority : bool)
    (available_parallelism : option Z) : RuntimeResult PoolParts * M :=
  match pool_by_name r name with
  | None => (Err (if priority then PriorityTaskPoolNotFound name else TaskPoolNotFound name), m)
  | Some config =>
      let fallback := Config.executors_count config in
      if is_noop m then (Ok (MkPoolParts fallback None), m)
      else match pool_metrics_new m service name priority with
           | (Ok p, m) =>
               (Ok (MkPoolParts fallback (Some p)),
                gauge_set m (executors_target p) (wrap_s 64 (resolve_executors available_parallelism fallback)))
           | (Err e, m) => (Err (MetricsErr e), m)
           | (Panic, m) => (Panic, m)
           end
  end.

(** * The delay pool and join storages: an [OnceLock] of metrics *)
Record DelayPoolMetrics := MkDelayMetrics {
  d_wait_queue_length : Handle; d_tasks_total : Handle; d_execution_duration : Handle;
  d_task_cancelled : Handle; d_stop_timeout : Handle }.
(** [OnceLock::set] *)
Definition once_set {A} (cell : option A) (a : A) : option A := match cell with Some b => Some b | None => Some a end.
(** The body both [configure_metrics] share. *)
Definition configure_once {A} (cell : option (option A)) (build : M → outcome MetricsError A * M) (m : M) :
    RuntimeResult unit * option (option A) * M :=
  match cell with
  | Some _ => (Ok tt, cell, m)
  | None =>
      if is_noop m then (Ok tt, once_set cell None, m)
      else match build m with
           | (Ok a, m) => (Ok tt, once_set cell (Some a), m)
           | (Err e, m) => (Err (MetricsErr e), cell, m)
           | (Panic, m) => (Panic, cell, m)
           end
  end.
Definition delay_metrics_new (service : string) (m : M) : outcome MetricsError DelayPoolMetrics * M :=
  let sc := scope "delay_pool" (sm_extend [] [("service", service)]) in
  let event_counter event m := counter m sc "events_total" "Total number of events in delay pool" [("event", event)] in
  reg_bind (gauge m sc "wait_queue_length" "Delay pool wait queue length" []) (λ h1 m,
  reg_bind (counter m sc "tasks_total" "Total number of tasks executed by delay pool" []) (λ h2 m,
  reg_bind (histogram m sc "task_execution_duration_seconds" "Task execution duration in seconds" [] None) (λ h3 m,
  reg_bind (event_counter "task_cancelled" m) (λ h4 m,
  reg_bind (event_counter "stop_timeout" m) (λ h5 m,
    (Ok (MkDelayMetrics h1 h2 h3 h4 h5), m)))))).
Definition delay_configure_metrics (cell : option (option DelayPoolMetrics)) (service : string) (m : M) :
    RuntimeResult unit * option (option DelayPoolMetrics) * M :=
  configure_once cell (delay_metrics_new service) m.
Record HashMapJoinStorageMetrics := MkJoinMetrics { j_count : Handle; j_evictions_total : Handle }.
Definition join_metrics_new (service name : string) (m : M) : outcome MetricsError HashMapJoinStorageMetrics * M :=
  let sc := scope "hashmap_join_storage" (sm_extend [] [("service", service); ("name", name)]) in
  reg_bind (gauge m sc "count" "Elements count stored in a join storage" []) (λ h1 m,
  reg_bind (counter m sc "evictions_total" "Total number of items evicted from join storage by TTL" []) (λ h2 m,
    (Ok (MkJoinMetrics h1 h2), m))).
Definition join_configure_metrics (cell : option (option HashMapJoinStorageMetrics)) (service name : string) (m : M) :
    RuntimeResult unit * option (option HashMapJoinStorageMetrics) * M :=
  configure_once cell (join_metrics_new service name) m.

(** * Single series *)
(** The counter of a link, in [Link::new]. *)
Definition link_messages_total (service from to pipeline component : string) (m : M) : outcome MetricsError (option Handle) * M :=
  if is_noop m then (Ok None, m)
  else
    reg_bind (counter m (scope "stream" (sm_extend []
        [("service", service); ("from", from); ("to", to); ("pipeline", pipeline); ("component", component)]))
      "messages_total" "Total number of messages processed by stream link" []) (λ h m, (Ok (Some h), m)).
(** The counters of [ConfigLoader::load]; an error is no counter. *)
Definition reload_counters (service : string) (m : M) : option Handle * option Handle * M :=
  let sc := scope "service" (sm_extend [] [("service", service)]) in
  let '(success, m) := ok_of (counter m sc "config_reloads_total" "Total number of config reload attempts" [("event", "success")]) in
  let '(error, m) := ok_of (counter m sc "config_reloads_total" "Total number of config reload attempts" [("event", "error")]) in
  (success, error, m).
(** The gauge of [ServiceApp::new], and whether it was registered. *)
Definition service_info (name environment : string) (m : M) : bool * M :=
  match gauge m (scope "service" (sm_extend [] [("service", name); ("environment", environment)]))
          "info" "Service information (value is always 1)" [] with
  | (Ok info, m) => (true, gauge_set m info 1)
  | (_, m) => (false, m)
  end.
(** The counter of [stop_with_connector_telemetry], likewise. *)
Definition connector_stop_timeout (kind name : string) (m : M) : bool * M :=
  match counter m (scope kind (sm_extend [] [("connector", name)]))
          "events_total" "Total number of events in data connector" [("event", "stop_timeout")] with
  | (Ok c, m) => (true, counter_inc m c)
  | (_, m) => (false, m)
  end.

(** * librdkafka's statistics *)
Record LibrdkafkaStatisticsContext := MkStatistics {
  st_enabled : bool;
  brokers : Handle; brokers_up : Handle; reply_queue_messages : Handle; messages_queued : Handle;
  message_bytes_queued : Handle; requests_sent : Handle; responses_received : Handle; bytes_sent : Handle;
  bytes_received : Handle; messages_sent : Handle; messages_received : Handle; consumer_lag : Handle }.
Definition statistics_new (role : string) (m : M) : outcome MetricsError LibrdkafkaStatisticsContext * M :=
  let sc := scope "kafka_client" (sm_extend [] [("role", role)]) in
  let enabled := negb (is_noop m) in
  reg_bind (gauge m sc "brokers" "Brokers known to this librdkafka client" []) (λ h1 m,
  reg_bind (gauge m sc "brokers_up" "Brokers currently connected" []) (λ h2 m,
  reg_bind (gauge m sc "reply_queue_messages" "Operations waiting in the librdkafka reply queue" []) (λ h3 m,
  reg_bind (gauge m sc "messages_queued" "Messages currently queued in librdkafka" []) (λ h4 m,
  reg_bind (gauge m sc "message_bytes_queued" "Message bytes currently queued in librdkafka" []) (λ h5 m,
  reg_bind (gauge m sc "requests_sent" "Requests sent since this librdkafka client was created" []) (λ h6 m,
  reg_bind (gauge m sc "responses_received" "Responses received since this librdkafka client was created" []) (λ h7 m,
  reg_bind (gauge m sc "bytes_sent" "Bytes sent since this librdkafka client was created" []) (λ h8 m,
  reg_bind (gauge m sc "bytes_received" "Bytes received since this librdkafka client was created" []) (λ h9 m,
  reg_bind (gauge m sc "messages_sent" "Messages sent since this librdkafka client was created" []) (λ h10 m,
  reg_bind (gauge m sc "messages_received" "Messages received since this librdkafka client was created" []) (λ h11 m,
  reg_bind (gauge m sc "consumer_lag" "Sum of non-negative lag for assigned partitions" []) (λ h12 m,
    (Ok (MkStatistics enabled h1 h2 h3 h4 h5 h6 h7 h8 h9 h10 h11 h12), m))))))))))))).
(** [configure] on the client's settings. *)
Definition statistics_configure (c : LibrdkafkaStatisticsContext) (config : gmap string string) : gmap string string :=
  if st_enabled c then <["statistics.interval.ms" := "1000"]> config else config.
(** The crate's [Statistics], as far as it is read; a [HashMap] is the list its
    iteration yields. *)
Record Broker := MkBroker { state : string }.
Record Topic := MkTopic { partitions : list Z }.        (** each partition's [consumer_lag] *)
Record Statistics := MkSnapshotStatistics {
  sn_replyq : Z; sn_msg_cnt : Z; sn_msg_size : Z; sn_tx : Z; sn_rx : Z; sn_tx_bytes : Z; sn_rx_bytes : Z;
  sn_txmsgs : Z; sn_rxmsgs : Z; sn_brokers : list (string * Broker); sn_topics : list (string * Topic) }.
(** [saturating_i64] of an unsigned value. *)
Definition saturating_i64 (value : Z) : Z := if decide (value ≤ i64_max) then value else i64_max.
Definition consumer_lag_of (s : Statistics) : Z :=
  foldl saturating_add_i64 0
    (filter (λ lag, 0 ≤ lag) (sn_topics s ≫= λ t, partitions t.2)).
Definition update (c : LibrdkafkaStatisticsContext) (m : M) (s : Statistics) : M :=
  let m := gauge_set m (brokers c) (saturating_i64 (Z.of_nat (length (sn_brokers s)))) in
  let m := gauge_set m (brokers_up c)
    (saturating_i64 (Z.of_nat (length (filter (λ b, state b.2 = "UP") (sn_brokers s))))) in
  let m := gauge_set m (reply_queue_messages c) (sn_replyq s) in
  let m := gauge_set m (messages_queued c) (saturating_i64 (sn_msg_cnt s)) in
  let m := gauge_set m (message_bytes_queued c) (saturating_i64 (sn_msg_size s)) in
  let m := gauge_set m (requests_sent c) (sn_tx s) in
  let m := gauge_set m (responses_received c) (sn_rx s) in
  let m := gauge_set m (bytes_sent c) (sn_tx_bytes s) in
  let m := gauge_set m (bytes_received c) (sn_rx_bytes s) in
  let m := gauge_set m (messages_sent c) (sn_txmsgs s) in
  let m := gauge_set m (messages_received c) (sn_rxmsgs s) in
  gauge_set m (consumer_lag c) (consumer_lag_of s).

(** * The catalogue *)
(** The families of the runtime: each name with its kind and description. *)
Definition endpoint_families (namespace text : string) : list (string * (MetricKind * string)) :=
  [(namespace +:+ "_messages_total", (KCounter, "Total number of successfully processed messages in " +:+ text));
   (namespace +:+ "_events_total", (KCounter, "Total number of events in " +:+ text));
   (namespace +:+ "_active_requests", (KGauge, "Number of active requests in " +:+ text));
   (namespace +:+ "_request_duration_seconds", (KHistogram, "Request duration in seconds for " +:+ text))].
Definition pool_families (namespace : string) : list (string * (MetricKind * string)) :=
  [(namespace +:+ "_queue_length", (KGauge, "Task pool wait queue length"));
   (namespace +:+ "_executors_target", (KGauge, "Desired number of task pool executors"));
   (namespace +:+ "_executors_allocated", (KGauge, "Number of live task pool executors"));
   (namespace +:+ "_executors_busy", (KGauge, "Number of task pool executors running callbacks"));
   (namespace +:+ "_tasks_total", (KCounter, "Total number of tasks executed by task pool"));
   (namespace +:+ "_task_execution_duration_seconds", (KHistogram, "Task execution duration in seconds"));
   (namespace +:+ "_events_total", (KCounter, "Total number of events in task pool"))].
Definition http_families (namespace : string) : list (string * (MetricKind * string)) :=
  [(namespace +:+ "_request_duration_seconds", (KHistogram, "Duration of an HTTP server request in seconds"));
   (namespace +:+ "_request_body_size_bytes", (KHistogram, "Size of an HTTP server request body in bytes"));
   (namespace +:+ "_response_body_size_bytes", (KHistogram, "Size of an HTTP server response body in bytes"))].
Definition catalogue : list (string * (MetricKind * string)) :=
  pool_families "task_pool" ++ pool_families "priority_task_pool" ++
  endpoint_families "datasource_endpoint" "data source endpoint" ++
  endpoint_families "datasink_endpoint" "data sink endpoint" ++ http_families "http_server" ++ http_families "http_client" ++
  [("datasource_endpoint_pending_requests", (KGauge, "Number of requests awaiting a pipeline result"));
   ("datasource_endpoint_pending_oldest_age_seconds",
      (KObservableGauge, "Age in seconds of the oldest pending request awaiting a pipeline result"));
   ("delay_pool_wait_queue_length", (KGauge, "Delay pool wait queue length"));
   ("delay_pool_tasks_total", (KCounter, "Total number of tasks executed by delay pool"));
   ("delay_pool_task_execution_duration_seconds", (KHistogram, "Task execution duration in seconds"));
   ("delay_pool_events_total", (KCounter, "Total number of events in delay pool"));
   ("hashmap_join_storage_count", (KGauge, "Elements count stored in a join storage"));
   ("hashmap_join_storage_evictions_total", (KCounter, "Total number of items evicted from join storage by TTL"));
   ("stream_messages_total", (KCounter, "Total number of messages processed by stream link"));
   ("service_config_reloads_total", (KCounter, "Total number of config reload attempts"));
   ("service_info", (KGauge, "Service information (value is always 1)"));
   ("datasource_connector_events_total", (KCounter, "Total number of events in data connector"));
   ("datasink_connector_events_total", (KCounter, "Total number of events in data connector"));
   ("http_server_active_requests", (KGauge, "Number of active HTTP server requests"));
   ("rpc_client_call_duration_seconds", (KHistogram, "Duration of a gRPC client call in seconds"));
   ("rpc_server_call_duration_seconds", (KHistogram, "Duration of a gRPC server call in seconds"));
   ("kafka_client_brokers", (KGauge, "Brokers known to this librdkafka client"));
   ("kafka_client_brokers_up", (KGauge, "Brokers currently connected"));
   ("kafka_client_reply_queue_messages", (KGauge, "Operations waiting in the librdkafka reply queue"));
   ("kafka_client_messages_queued", (KGauge, "Messages currently queued in librdkafka"));
   ("kafka_client_message_bytes_queued", (KGauge, "Message bytes currently queued in librdkafka"));
   ("kafka_client_requests_sent", (KGauge, "Requests sent since this librdkafka client was created"));
   ("kafka_client_responses_received", (KGauge, "Responses received since this librdkafka client was created"));
   ("kafka_client_bytes_sent", (KGauge, "Bytes sent since this librdkafka client was created"));
   ("kafka_client_bytes_received", (KGauge, "Bytes received since this librdkafka client was created"));
   ("kafka_client_messages_sent", (KGauge, "Messages sent since this librdkafka client was created"));
   ("kafka_client_messages_received", (KGauge, "Messages received since this librdkafka client was created"));
   ("kafka_client_consumer_lag", (KGauge, "Sum of non-negative lag for assigned partitions"))].
Definition family_of (name : string) : option (MetricKind * string) := sm_get name (sm_extend [] catalogue).

(** * Registering any of the parts *)
(** A registration as a part makes it, with the names it is given. *)
Inductive Component :=
| CPool (service name : string) (priority : bool)
| CDelayPool (service : string)
| CJoinStorage (service name : string)
| CLink (service from to pipeline component : string)
| CReloads (service : string)
| CService (name environment : string)
| CStopTimeout (source : bool) (name : string)
| CKafkaClient (role : string)
| CCronSource (connector endpoint : string) (table : nat)
| CGrpcSource (connector endpoint : string) (table : nat)
| CGrpcSink (connector endpoint : string)
| CSource (labels : Labels) (events : list string) (table : nat)      (** HTTP, Kafka and local sources *)
| CSink (labels : Labels)                                              (** Kafka and local sinks *)
| CHttpSink (endpoint : HttpEndpointConfig) (connector : HttpDataConnectorConfig) (parsed : option (option string * option Z))
| CHttpServer (host : string) (port : Z) (specs : list HttpRouteMetricSpec)
| CRpcClient (method : string)
| CRpcServer (methods : list string).
Definition done_with {E A} (r : outcome E A * M) : bool * M := (match r.1 with Ok _ => true | _ => false end, r.2).
Definition present (hs : list (option Handle)) : bool := forallb (λ h, match h with Some _ => true | None => false end) hs.
Definition durations_of (d : gmap string (option Handle)) : list (option Handle) := (map_to_list d).*2.
Definition all_values {A} `{Countable K} (f : A → bool) (x : gmap K A) : bool := forallb f (map_to_list x).*2.
Definition outcome_present (o : HttpOutcomeMetrics) : bool :=
  present [o_request_duration o; o_request_body_size o; o_response_body_size o].
Definition route_present (r : HttpRouteMetrics) : bool := present [r_active r] && all_values outcome_present (r_outcomes r).
Definition server_present (s : HttpServerMetrics) : bool :=
  route_present (s_fallback s) && all_values (all_values route_present) (s_routes s).
Definition method_present (k : GrpcMethodMetrics) : bool := present (durations_of (gm_durations k)).
Definition rpc_server_present (s : GrpcServerMetrics) : bool :=
  method_present (gs_fallback s) && all_values method_present (gs_methods s).
(** Whether everything the part wants to register was registered. *)
Definition register_component (c : Component) (m : M) : bool * M :=
  match c with
  | CPool service name priority => done_with (pool_metrics_new m service name priority)
  | CDelayPool service => let '(r, _, m) := delay_configure_metrics None service m in done_with (r, m)
  | CJoinStorage service name => let '(r, _, m) := join_configure_metrics None service name m in done_with (r, m)
  | CLink service from to pipeline component => done_with (link_messages_total service from to pipeline component m)
  | CReloads service => let '(success, error, m) := reload_counters service m in (present [success; error], m)
  | CService name environment => service_info name environment m
  | CStopTimeout source name => connector_stop_timeout (if source then "datasource_connector" else "datasink_connector") name m
  | CKafkaClient role => done_with (statistics_new role m)
  | CCronSource connector endpoint table => done_with (endpoint_metrics_new m connector endpoint table)
  | CGrpcSource connector endpoint table => done_with (GrpcConnector.source_metrics_new m connector endpoint table)
  | CGrpcSink connector endpoint => done_with (GrpcConnector.sink_metrics_new m connector endpoint)
  | CSource labels events table => done_with (SourceEndpoints.source_handles_new m labels events table)
  | CSink labels => done_with (SinkCalls.sink_handles_new m labels)
  | CHttpSink endpoint connector parsed => done_with (HttpSink.make_endpoint_consumer m endpoint connector parsed)
  | CHttpServer host port specs => let '(s, m) := server_new m host port specs in (server_present s, m)
  | CRpcClient method => let '(c, m) := grpc_client_new m method in (present (durations_of (gc_durations c)), m)
  | CRpcServer methods => let '(s, m) := grpc_server_new m methods in (rpc_server_present s, m)
  end.
Definition register_components (cs : list Component) (m : M) : bool * M :=
  foldl (λ '(ok, m) c, let '(ok', m) := register_component c m in (ok && ok', m)) (true, m) cs.

(** * Lemmas *)
(** ** Families *)
Record catalogued (m : M) : Prop := {
  ca_inv : registry_inv m;
  ca_family k x : (k, x) ∈ registry m → family_of (key_name k) = Some (kind x, help x) }.
Definition good {E A} (r : outcome E A * M) : Prop := catalogued r.2 ∧ ∃ a, r.1 = Ok a.
#[local] Hint Resolve ca_inv : core.

Lemma created_fields {W} r (m : Metrics W) k h : kind (created r m k h).1 = request_kind r ∧ help (created r m k h).1 = h.
Proof. by destruct r. Qed.
Lemma register_good r m sc name h labels :
  catalogued m → family_of (join_name (namespace sc) name) = Some (request_kind r, h) → good (register r m sc name h labels).
Proof.
  intros Hc Hf. pose proof (registry_inv_register r m sc name h labels (ca_inv _ Hc)) as Hinv.
  destruct (noop m) eqn:Hn.
  { assert (registry (register r m sc name h labels).2 = registry m ∧ ∃ a, (register r m sc name h labels).1 = Ok a) as [Hr Ha].
    { destruct r; unfold register, counter, gauge, histogram, observable_float64_gauge; rewrite Hn; cbn; eauto. }
    split; [|done]. split; [done|]. rewrite Hr. apply (ca_family _ Hc). }
  rewrite register_spec in * by eauto. set (k := scope_key sc name labels) in *.
  assert (∀ kd h', family (registry m) (key_name k) = Some (kd, h') → kd = request_kind r ∧ h' = h) as Hfam.
  { intros kd h' (k' & x & Hin & Hk & <- & <-)%family_elem. apply (ca_family _ Hc) in Hin. rewrite Hk in Hin.
    change (family_of (key_name k) = Some (request_kind r, h)) in Hf. rewrite Hf in Hin. by injection Hin. }
  assert (good (Ok (E := MetricsError) (metric_handle (created r m k h).1), created_registry r m k h) ∨ sm_get k (registry m) ≠ None) as Hnew.
  { destruct (sm_get k (registry m)) as [x|] eqn:Ex; [by right|left]. split; cbn; [|by eauto]. split.
    - apply registry_inv_created; eauto. intros k' x' Hin Hk. apply Hfam. rewrite <-Hk. by apply family_unique; eauto.
    - intros k' x'. unfold created_registry. pose proof (created_fields r m k h) as Hfields.
      destruct (created r m k h) as [x m'] eqn:E. cbn in Hfields |- *. intros [[= -> ->]|Hin]%elem_of_insert; [|by apply (ca_family _ Hc)].
      destruct Hfields as [-> ->]. done. }
  destruct (family (registry m) (key_name k)) as [[kd h']|] eqn:Ef.
  - destruct (Hfam _ _ eq_refl) as [-> ->]. rewrite !decide_False by tauto.
    destruct (sm_get k (registry m)) as [x|]; [by split; [|eauto]|by destruct Hnew].
  - destruct Hnew as [Hnew|Hx]; [done|]. destruct (sm_get k (registry m)) as [x|] eqn:Ex; [|done].
    apply sm_get_elem in Ex. by eapply family_None in Ex.
Qed.
Lemma good_map {E A B} (f : A → B) (r : outcome E A * M) : good (prod_map (fmap f) id r) → good r.
Proof. destruct r as [[a| |] m]; intros [Hc [b Hb]]; by split; eauto. Qed.
Lemma counter_good m sc name h labels :
  catalogued m → family_of (join_name (namespace sc) name) = Some (KCounter, h) → good (counter m sc name h labels).
Proof. intros Hc Hf. by apply (good_map Some), (register_good RCounter). Qed.
Lemma gauge_good m sc name h labels :
  catalogued m → family_of (join_name (namespace sc) name) = Some (KGauge, h) → good (gauge m sc name h labels).
Proof. intros Hc Hf. by apply (good_map Some), (register_good RGauge). Qed.
Lemma histogram_good m sc name h labels b :
  catalogued m → family_of (join_name (namespace sc) name) = Some (KHistogram, h) → good (histogram m sc name h labels b).
Proof. intros Hc Hf. by apply (good_map Some), (register_good (RHistogram b)). Qed.
Lemma observable_good m sc name h labels f :
  catalogued m → family_of (join_name (namespace sc) name) = Some (KObservableGauge, h) → good (observable_float64_gauge m sc name h labels f).
Proof. intros Hc Hf. by apply (good_map (λ _, @None Handle)), (register_good (RObservable f)). Qed.
Lemma bind_good {A B} (r : outcome MetricsError A * M) (f : A → M → outcome MetricsError B * M) :
  good r → (∀ a m, catalogued m → good (f a m)) → good (reg_bind r f).
Proof. destruct r as [[a| |] m]; intros [Hc [b Hb]] Hf; [|done..]. by apply Hf. Qed.
Lemma ret_good {E A} (a : A) m : catalogued m → good (Ok (E := E) a, m).
Proof. intros Hc. split; eauto. Qed.
Lemma ok_of_good {E A} (r : outcome E A * M) : good r → ∃ a, (ok_of r).1 = Some a ∧ catalogued (ok_of r).2.
Proof. intros [Hc [a Ha]]. exists a. unfold ok_of. by rewrite Ha. Qed.
Lemma done_with_good {E A} (r : outcome E A * M) : good r → (done_with r).1 = true ∧ catalogued (done_with r).2.
Proof. intros [Hc [a Ha]]. unfold done_with. by rewrite Ha. Qed.
(** Updates of series keep the families. *)
Lemma catalogued_kept m m' : catalogued m → registry m' = registry m → metrics_step m m' → catalogued m'.
Proof. intros Hc Hr Hs. split; [by eapply metrics_step_inv; eauto|]. rewrite Hr. apply (ca_family _ Hc). Qed.
Lemma gauge_set_good m h v : catalogued m → catalogued (gauge_set m h v).
Proof.
  intros Hc. apply (catalogued_kept m); [done| |constructor]. unfold gauge_set, gauge_export. destruct (enabled h); [|done].
  by destruct (otel h).
Qed.
Lemma counter_inc_good m h : catalogued m → catalogued (counter_inc m h).
Proof.
  intros Hc. apply (catalogued_kept m); [done| |constructor]. unfold counter_inc, counter_add. destruct (enabled h); [|done].
  by destruct (otel h).
Qed.
(** Registering by components: each bind is one family of the catalogue. *)
Ltac in_catalogue := vm_compute; reflexivity.
Create HintDb series.
Ltac solve_good :=
  intros; cbv beta zeta;
  lazymatch goal with
  | |- good (reg_bind _ _) => apply bind_good; [solve_good|solve_good]
  | |- good (Ok _, _) => apply ret_good; assumption
  | |- good (counter _ _ _ _ _) => apply counter_good; [assumption|in_catalogue]
  | |- good (gauge _ _ _ _ _) => apply gauge_good; [assumption|in_catalogue]
  | |- good (histogram _ _ _ _ _ _) => apply histogram_good; [assumption|in_catalogue]
  | |- _ => solve [auto with series]
  end.
Lemma pending_good m sc table : namespace sc = "datasource_endpoint" → catalogued m → good (Requests.pending_new m sc table).
Proof.
  intros Hs Hc. unfold Requests.pending_new.
  destruct (gauge_good m sc "pending_requests" "Number of requests awaiting a pipeline result" []) as [Hc1 [g Hg]]; [done|rewrite Hs; in_catalogue|].
  destruct (gauge m sc _ _ _) as [r m1] eqn:E. cbn in *. subst r. destruct (enabled g); [|by apply ret_good].
  match goal with |- context [observable_float64_gauge m1 sc ?n ?t [] ?f] =>
    destruct (observable_good m1 sc n t [] f) as [Hc2 [u Hu]]; [done|rewrite Hs; in_catalogue|];
    destruct (observable_float64_gauge m1 sc n t [] f) as [r2 m2] end.
  cbn in *. subst r2. by apply ret_good.
Qed.
#[local] Hint Resolve pending_good : series.

(** ** Every part *)
Lemma pool_metrics_good m service name priority : catalogued m → good (pool_metrics_new m service name priority).
Proof. intros Hc. unfold pool_metrics_new. destruct priority; solve_good. Qed.
Lemma delay_metrics_good m service : catalogued m → good (delay_metrics_new service m).
Proof. intros Hc. unfold delay_metrics_new. solve_good. Qed.
Lemma join_metrics_good m service name : catalogued m → good (join_metrics_new service name m).
Proof. intros Hc. unfold join_metrics_new. solve_good. Qed.
Lemma statistics_good m role : catalogued m → good (statistics_new role m).
Proof. intros Hc. unfold statistics_new. solve_good. Qed.
Lemma configure_good {A} (cell : option (option A)) build m :
  catalogued m → (catalogued m → good (build m)) →
  let '(r, cell', m') := configure_once cell build m in good (r, m') ∧ cell' ≠ None ∧ (cell ≠ None → cell' = cell ∧ m' = m).
Proof.
  intros Hc Hb. unfold configure_once. destruct cell as [a|]; [by split; [apply ret_good|]|]. destruct (is_noop m); [by split; [apply ret_good|]|].
  destruct (Hb Hc) as [Hc' [a Ha]]. destruct (build m) as [r m']. cbn in *. subst r. by split; [apply ret_good|].
Qed.
Lemma link_good m service from to pipeline component : catalogued m → good (link_messages_total service from to pipeline component m).
Proof. intros Hc. unfold link_messages_total. destruct (is_noop m); solve_good. Qed.
Lemma source_good m connector endpoint table : catalogued m → good (endpoint_metrics_new m connector endpoint table).
Proof. intros Hc. unfold endpoint_metrics_new. solve_good. Qed.
Lemma grpc_source_good m connector endpoint table : catalogued m → good (GrpcConnector.source_metrics_new m connector endpoint table).
Proof. intros Hc. unfold GrpcConnector.source_metrics_new. solve_good. Qed.
Lemma grpc_sink_good m connector endpoint : catalogued m → good (GrpcConnector.sink_metrics_new m connector endpoint).
Proof. intros Hc. unfold GrpcConnector.sink_metrics_new. solve_good. Qed.
Lemma events_good labels events m : catalogued m → good (SourceEndpoints.register_events (scope "datasource_endpoint" labels) events m).
Proof. revert m. induction events as [|name events IH]; intros m Hc; cbn [SourceEndpoints.register_events]; solve_good. Qed.
#[local] Hint Resolve events_good : series.
Lemma source_handles_good m labels events table : catalogued m → good (SourceEndpoints.source_handles_new m labels events table).
Proof. intros Hc. unfold SourceEndpoints.source_handles_new. solve_good. Qed.
Lemma sink_handles_good m labels : catalogued m → good (SinkCalls.sink_handles_new m labels).
Proof. intros Hc. unfold SinkCalls.sink_handles_new. solve_good. Qed.

(** ** The HTTP and gRPC telemetry, whose errors become missing handles *)
Lemma register_all_good {A B} (P : B → Prop) (f : A → M → B * M) l m :
  catalogued m → (∀ a m, catalogued m → P (f a m).1 ∧ catalogued (f a m).2) →
  Forall P (register_all f l m).1 ∧ catalogued (register_all f l m).2.
Proof.
  intros Hc Hf. revert m Hc. induction l as [|a l IH]; intros m Hc; cbn; [done|].
  destruct (f a m) as [b m1] eqn:E1. destruct (Hf a m Hc) as [Hb Hm]. rewrite E1 in Hb, Hm. cbn in *.
  destruct (IH m1 Hm) as [Hbs Hm2]. destruct (register_all f l m1). cbn in *. by split; [constructor|].
Qed.
Lemma all_values_true {A} `{Countable K} (f : A → bool) (x : gmap K A) :
  (∀ k a, x !! k = Some a → f a = true) → all_values f x = true.
Proof.
  intros Hf. apply forallb_forall. intros a Ha%list_elem_of_In.
  apply list_elem_of_fmap in Ha as ([k a'] & -> & Hin%elem_of_map_to_list). by eapply Hf.
Qed.
Lemma collect_map_values {A} (P : A → Prop) `{Countable K} (l : list (K * A)) k a :
  Forall (λ ka, P ka.2) l → collect_map l !! k = Some a → P a.
Proof.
  intros Hl Hk. rewrite collect_map_reverse in Hk. apply elem_of_list_to_map_2 in Hk. rewrite elem_of_reverse in Hk.
  rewrite Forall_forall in Hl. exact (Hl _ Hk).
Qed.
Definition http_namespace (sc : MetricsScope) : Prop := namespace sc = "http_server" ∨ namespace sc = "http_client".
Definition complete (o : HttpOutcomeMetrics) : Prop :=
  is_Some (o_request_duration o) ∧ is_Some (o_request_body_size o) ∧ is_Some (o_response_body_size o).
Lemma outcome_good sc labels m :
  http_namespace sc → catalogued m → complete (new_with_labels sc labels m).1 ∧ catalogued (new_with_labels sc labels m).2.
Proof.
  intros Hs Hc. unfold new_with_labels, complete.
  assert (∀ m name text b, catalogued m → family_of (join_name (namespace sc) name) = Some (KHistogram, text) →
    ∃ h m', ok_of (histogram m sc name text labels b) = (Some h, m') ∧ catalogued m') as Hreg.
  { intros m0 name text b Hm0 Hf. destruct (ok_of_good _ (histogram_good m0 sc name text labels b Hm0 Hf)) as (h & Hh & Hm).
    exists h, (ok_of (histogram m0 sc name text labels b)).2. by rewrite <-Hh, <-surjective_pairing. }
  match goal with |- context [ok_of (histogram m sc ?n ?t labels ?b)] =>
    destruct (Hreg m n t b Hc) as (h1 & m1 & -> & H1); [by destruct Hs as [-> | ->]; in_catalogue|] end.
  match goal with |- context [ok_of (histogram m1 sc ?n ?t labels ?b)] =>
    destruct (Hreg m1 n t b H1) as (h2 & m2 & -> & H2); [by destruct Hs as [-> | ->]; in_catalogue|] end.
  match goal with |- context [ok_of (histogram m2 sc ?n ?t labels ?b)] =>
    destruct (Hreg m2 n t b H2) as (h3 & m3 & -> & H3); [by destruct Hs as [-> | ->]; in_catalogue|] end.
  cbn. eauto.
Qed.
Definition server_scope : MetricsScope := scope "http_server" [].
Lemma complete_present o : complete o → outcome_present o = true.
Proof. by intros ([a Ha] & [b Hb] & [c Hc]); unfold outcome_present; rewrite Ha, Hb, Hc. Qed.
Lemma route_good base method route statuses m :
  catalogued m → route_present (route_new server_scope base method route statuses m).1 = true ∧
    catalogued (route_new server_scope base method route statuses m).2.
Proof.
  intros Hc. unfold route_new. set (labels := sm_insert "http_route" route _).
  destruct (ok_of_good _ (gauge_good m server_scope "active_requests" "Number of active HTTP server requests" labels Hc ltac:(in_catalogue)))
    as (h & Hh & Hm).
  destruct (ok_of (gauge m server_scope _ _ _)) as [active m1]. cbn in Hh, Hm. subst active.
  match goal with |- context [register_all ?f statuses m1] =>
    destruct (register_all_good (λ so, complete so.2) f statuses m1 Hm) as [Ho Hr];
      [|destruct (register_all f statuses m1) as [outcomes m2]] end.
  - intros status m' Hm'. unfold outcome_new.
    match goal with |- context [new_with_labels ?sc ?l m'] =>
      destruct (outcome_good sc l m' (or_introl eq_refl) Hm') as [Ho1 Ho2]; by destruct (new_with_labels sc l m') end.
  - cbn in Ho, Hr |- *. split; [|done]. unfold route_present. cbn. apply all_values_true. intros status o Hso.
    by apply complete_present, (collect_map_values _ _ _ _ Ho Hso).
Qed.
Lemma server_good m host port specs :
  catalogued m → server_present (server_new m host port specs).1 = true ∧ catalogued (server_new m host port specs).2.
Proof.
  intros Hc. unfold server_new. cbv zeta. fold server_scope. set (base := sm_extend [] _).
  set (routes_ok := λ routes : gmap string (gmap string HttpRouteMetrics),
    ∀ method rs route r, routes !! method = Some rs → rs !! route = Some r → route_present r = true).
  assert (∀ acc, routes_ok acc.1 → catalogued acc.2 →
    routes_ok (foldl (add_route server_scope base) acc specs).1 ∧ catalogued (foldl (add_route server_scope base) acc specs).2) as Hfold.
  { induction specs as [|spec specs IH]; intros [routes m0] Hr0 H0; cbn [foldl]; [done|]. unfold add_route at 2 4.
    destruct (route_good base (method_as_str (spec_method spec)) (spec_route spec) (spec_statuses spec) m0 H0) as [Hp Hr].
    destruct (route_new server_scope base (method_as_str (spec_method spec)) (spec_route spec) (spec_statuses spec) m0) as [r m1].
    apply IH; [|done]. cbn in Hp, Hr0 |- *. intros method rs route r'. rewrite lookup_insert_Some. intros [[<- <-]|[_ Hm]]; [|by eapply Hr0].
    rewrite lookup_insert_Some. intros [[_ <-]|[_ Hrt]]; [done|].
    destruct (routes !! method_as_str (spec_method spec)) as [rs|] eqn:Hrs; cbn in Hrt; [by eapply Hr0|by rewrite lookup_empty in Hrt]. }
  destruct (Hfold (∅, m)) as [Hro Hm]; [intros ? ? ? ? Hno; cbn in Hno; by rewrite lookup_empty in Hno|done|].
  destruct (foldl _ _ specs) as [routes m1]. cbn in Hro, Hm.
  destruct (route_good base "GET" "<unmatched>" HTTP_STATUS_CODES m1 Hm) as [Hp Hr].
  destruct (route_new server_scope base "GET" "<unmatched>" HTTP_STATUS_CODES m1) as [fb m2]. cbn in Hp, Hr |- *. split; [|done].
  unfold server_present. cbn. rewrite Hp. cbn. apply all_values_true. intros method rs Hrs. apply all_values_true. intros route r Hrt.
  by eapply Hro.
Qed.
Lemma http_client_good m method url parsed : catalogued m → catalogued (http_client_new m method url parsed).2.
Proof.
  intros Hc. unfold http_client_new. cbv zeta. set (labels := sm_extend [] _).
  match goal with |- context [register_all ?f HTTP_STATUS_CODES m] =>
    destruct (register_all_good (λ _, True) f HTTP_STATUS_CODES m Hc) as [_ Hr]; [|destruct (register_all f HTTP_STATUS_CODES m) as [o m1]] end.
  { intros status m' Hm'. split; [done|].
    match goal with |- context [new_with_labels ?sc ?l m'] =>
      destruct (outcome_good sc l m' (or_intror eq_refl) Hm') as [_ Ho]; by destruct (new_with_labels sc l m') end. }
  cbn in Hr. match goal with |- context [new_with_labels ?sc ?l m1] =>
    destruct (outcome_good sc l m1 (or_intror eq_refl) Hr) as [_ Ho]; by destruct (new_with_labels sc l m1) end.
Qed.
Definition rpc_family (sc : MetricsScope) (help : string) : Prop :=
  family_of (join_name (namespace sc) "call_duration_seconds") = Some (KHistogram, help).
Lemma durations_good sc help method m :
  rpc_family sc help → catalogued m →
  present (durations_of (register_durations sc help method m).1) = true ∧ catalogued (register_durations sc help method m).2.
Proof.
  intros Hf Hc. unfold register_durations.
  match goal with |- context [register_all ?f GRPC_STATUS_NAMES m] =>
    destruct (register_all_good (λ sh : string * option Handle, is_Some sh.2) f GRPC_STATUS_NAMES m Hc) as [Hp Hm];
      [|destruct (register_all f GRPC_STATUS_NAMES m) as [l m1]] end.
  { intros status m' Hm'.
    match goal with |- context [histogram m' sc ?n help ?l ?b] =>
      destruct (ok_of_good _ (histogram_good m' sc n help l b Hm' Hf)) as (h & Hh & Hm1);
      destruct (ok_of (histogram m' sc n help l b)) as [o m1] end.
    cbn in *. subst o. by split; [eexists|]. }
  cbn in Hp, Hm |- *. split; [|done]. unfold present, durations_of. apply forallb_forall. intros o Ho%list_elem_of_In.
  apply list_elem_of_fmap in Ho as ([status o'] & -> & Hin%elem_of_map_to_list).
  rewrite collect_map_reverse in Hin. apply elem_of_list_to_map_2 in Hin. rewrite elem_of_reverse in Hin.
  rewrite Forall_forall in Hp. by destruct (Hp _ Hin) as [h E]; cbn in *; subst.
Qed.
Lemma rpc_client_good m method :
  catalogued m → present (durations_of (gc_durations (grpc_client_new m method).1)) = true ∧ catalogued (grpc_client_new m method).2.
Proof.
  intros Hc. unfold grpc_client_new.
  destruct (durations_good (scope "rpc_client" []) "Duration of a gRPC client call in seconds" method m ltac:(in_catalogue) Hc) as [Hp Hm].
  by destruct (register_durations _ _ method m).
Qed.
Lemma rpc_method_good m method :
  catalogued m → present (durations_of (gm_durations (method_new (scope "rpc_server" []) method m).1)) = true ∧
    catalogued (method_new (scope "rpc_server" []) method m).2.
Proof.
  intros Hc. unfold method_new.
  destruct (durations_good (scope "rpc_server" []) "Duration of a gRPC server call in seconds" method m ltac:(in_catalogue) Hc) as [Hp Hm].
  by destruct (register_durations _ _ method m).
Qed.
Lemma rpc_server_good m methods :
  catalogued m → rpc_server_present (grpc_server_new m methods).1 = true ∧ catalogued (grpc_server_new m methods).2.
Proof.
  intros Hc. unfold grpc_server_new. cbv zeta.
  match goal with |- context [register_all ?f methods m] =>
    destruct (register_all_good (λ nk, method_present nk.2 = true) f methods m Hc) as [Hl Hm];
      [|destruct (register_all f methods m) as [l m1]] end.
  { intros method m' Hm'. destruct (rpc_method_good m' method Hm') as [Hp H].
    by destruct (method_new (scope "rpc_server" []) method m'). }
  cbn in Hl, Hm. destruct (rpc_method_good m1 "<unmatched>" Hm) as [Hp H].
  destruct (method_new (scope "rpc_server" []) "<unmatched>" m1) as [fb m2]. cbn in Hp, H |- *. split; [|done].
  unfold rpc_server_present. cbn. unfold method_present at 1. rewrite Hp. cbn. apply all_values_true. intros k a Hk.
  exact (collect_map_values (λ k, method_present k = true) _ _ _ Hl Hk).
Qed.
Lemma http_sink_good m endpoint connector parsed : catalogued m → good (HttpSink.make_endpoint_consumer m endpoint connector parsed).
Proof.
  intros Hc. unfold HttpSink.make_endpoint_consumer.
  match goal with |- context [http_client_new m ?a ?b ?c] =>
    pose proof (http_client_good m a b c Hc) as H; destruct (http_client_new m a b c) as [client m1] end.
  cbn in H. match goal with |- context [reg_bind ?r ?f] => assert (good (reg_bind r f)) as [Hg [a Ha]] by solve_good; destruct (reg_bind r f) as [o m2] end.
  cbn in *. subst o. by split; [|eexists].
Qed.
Lemma component_good c m : catalogued m → (register_component c m).1 = true ∧ catalogued (register_component c m).2.
Proof.
  intros Hc. destruct c; cbn [register_component].
  - by apply done_with_good, pool_metrics_good.
  - unfold delay_configure_metrics. pose proof (configure_good None (delay_metrics_new service) m Hc (delay_metrics_good m service)) as H.
    destruct (configure_once _ _ m) as [[r cell'] m']. by apply done_with_good, H.
  - unfold join_configure_metrics. pose proof (configure_good None (join_metrics_new service name) m Hc (join_metrics_good m service name)) as H.
    destruct (configure_once _ _ m) as [[r cell'] m']. by apply done_with_good, H.
  - by apply done_with_good, link_good.
  - unfold reload_counters. cbv zeta.
    match goal with |- context [ok_of (counter m ?sc ?n ?t ?l)] =>
      destruct (ok_of_good _ (counter_good m sc n t l Hc ltac:(in_catalogue))) as (h1 & Hh1 & H1);
      destruct (ok_of (counter m sc n t l)) as [o1 m1] end. cbn in Hh1, H1. subst o1.
    match goal with |- context [ok_of (counter m1 ?sc ?n ?t ?l)] =>
      destruct (ok_of_good _ (counter_good m1 sc n t l H1 ltac:(in_catalogue))) as (h2 & Hh2 & H2);
      destruct (ok_of (counter m1 sc n t l)) as [o2 m2] end. cbn in Hh2, H2. by subst o2.
  - unfold service_info.
    match goal with |- context [gauge m ?sc ?n ?t ?l] =>
      destruct (gauge_good m sc n t l Hc ltac:(in_catalogue)) as [Hc1 [h Hh]]; destruct (gauge m sc n t l) as [o m1] end.
    cbn in *. subst o. split; [done|]. by apply gauge_set_good.
  - unfold connector_stop_timeout.
    match goal with |- context [counter m ?sc ?n ?t ?l] =>
      destruct (counter_good m sc n t l Hc ltac:(destruct source; in_catalogue)) as [Hc1 [h Hh]]; destruct (counter m sc n t l) as [o m1] end.
    cbn in *. subst o. split; [done|]. by apply counter_inc_good.
  - by apply done_with_good, statistics_good.
  - by apply done_with_good, source_good.
  - by apply done_with_good, grpc_source_good.
  - by apply done_with_good, grpc_sink_good.
  - by apply done_with_good, source_handles_good.
  - by apply done_with_good, sink_handles_good.
  - by apply done_with_good, http_sink_good.
  - pose proof (server_good m host port specs Hc) as H. by destruct (server_new m host port specs).
  - pose proof (rpc_client_good m method Hc) as H. by destruct (grpc_client_new m method).
  - pose proof (rpc_server_good m methods Hc) as H. by destruct (grpc_server_new m methods).
Qed.
Lemma components_good cs m b : catalogued m →
  let r := foldl (λ '(ok, m) c, let '(ok', m) := register_component c m in (ok && ok', m)) (b, m) cs in r.1 = b ∧ catalogued r.2.
Proof.
  revert m b. induction cs as [|c cs IH]; intros m b Hc; [done|]. cbn [foldl].
  destruct (component_good c m Hc) as [Hb Hm]. destruct (register_component c m) as [ok m1]. cbn in Hb, Hm. subst ok.
  destruct (IH m1 (b && true) Hm) as [H1 H2]. by rewrite andb_true_r in *.
Qed.
Lemma catalogued_start m : registry m = [] → catalogued m.
Proof.
  intros Hr. split; [split|]; rewrite Hr; [constructor|..]; intros; set_solver.
Qed.

(** ** Statistics *)
Lemma lag_sum l a : 0 ≤ a ≤ i64_max → Forall (λ z, 0 ≤ z) l → foldl saturating_add_i64 a l = Z.min i64_max (a + total l).
Proof.
  intros Ha Hl. revert a Ha. induction Hl as [|z l Hz Hl IH]; intros a Ha; cbn [foldl total foldr]; [lia|].
  pose proof (total_nonneg l Hl). rewrite IH; unfold saturating_add_i64; unfold total in *; change i64_min with (-9223372036854775808) in *;
    change i64_max with 9223372036854775807 in *; lia.
Qed.
Lemma saturating_min z : saturating_i64 z = Z.min i64_max z.
Proof. unfold saturating_i64. case_decide; lia. Qed.
(** A handle of the registered gauge of this name. *)
Definition named sc (m : M) (name : string) (h : Handle) : Prop :=
  ∃ x, (scope_key sc name [], x) ∈ registry m ∧ kind x = KGauge ∧ metric_handle x = Some h.
Definition held sc names hs (m : M) : Prop := registry_inv m ∧ noop m = false ∧ Forall2 (named sc m) names hs.
Lemma gauge_held sc names hs m name text h m' :
  held sc names hs m → gauge m sc name text [] = (Ok h, m') → held sc (names ++ [name]) (hs ++ [h]) m'.
Proof.
  intros (Hinv & Hn & Hf) E. destruct (gauge_owned _ _ _ _ _ _ _ Hinv Hn E) as (I & N & _ & (x & Hx & Hk & Hh) & Hkeep).
  split; [done|]. split; [done|]. apply Forall2_app; [|constructor; [by exists x|done]].
  eapply Forall2_impl; [done|]. intros n h0 (y & Hy & ?). exists y. auto.
Qed.
Lemma held_cells sc names hs m : held sc names hs m → namespace sc ≠ "" → Forall (λ n, n ≠ "") names → NoDup names →
  NoDup (cell <$> hs) ∧ Forall (live_gauge m) hs.
Proof.
  intros (Hinv & Hn & Hf) Hs Hne. revert Hne. induction Hf as [|name h names hs Hh Hf IH]; intros Hne Hd; [split; constructor|].
  apply Forall_cons in Hne as [Hname Hne]. apply NoDup_cons in Hd as [Hnotin Hd]. destruct (IH Hne Hd) as [IH1 IH2].
  destruct Hh as (x & Hx & Hk & Hm). split; [|constructor; [|done]].
  - apply NoDup_cons. split; [|done]. intros (h' & Hc & Hin)%list_elem_of_fmap.
    apply list_elem_of_lookup in Hin as [i Hi]. destruct (Forall2_lookup_r _ _ _ _ _ Hf Hi) as (name' & Hn' & y & Hy & Hky & Hmy).
    apply (owned_cells m _ x h _ y h' Hinv Hx Hm Hy Hmy) in Hc; [done|]. unfold scope_key. intros [= E].
    unfold join_name in E. rewrite !(decide_False (P := namespace sc = "")) in E by done.
    assert (name' ≠ "") by (by eapply Forall_lookup_1 in Hn'; [|exact Hne]). rewrite !decide_False in E by done.
    apply (inj (String.append _)) in E. apply (inj (String.append _)) in E. subst. apply Hnotin. by eapply list_elem_of_lookup_2.
  - pose proof (ri_heap m Hinv _ _ _ Hx (metric_handle_cell _ _ Hm)) as Hheap. rewrite Hk in Hheap. cbn in Hheap.
    split; [|done]. destruct x; cbn in Hm; by simplify_eq.
Qed.
Lemma gauge_set_reads (m : M) h v h' :
  live_gauge m h → live_gauge m h' →
  live_gauge (gauge_set m h v) h' ∧ int_get (gauge_set m h v) h' = if decide (cell h' = cell h) then v else int_get m h'.
Proof.
  intros [He [w Hw]] [He' [w' Hw']]. unfold live_gauge, int_get, gauge_set, gauge_swap, gauge_export. rewrite He, He'.
  assert (ints (match otel h with
     | Some i => export (set_ints m (alter (λ _, v) (cell h) (ints m))) (UpDownAdd i (wrap_s 64 (v - default 0 (ints m !! cell h))) (attributes h))
     | None => set_ints m (alter (λ _, v) (cell h) (ints m)) end) = alter (λ _, v) (cell h) (ints m)) as -> by by destruct (otel h).
  destruct (decide (cell h' = cell h)) as [E|E].
  - rewrite E, lookup_alter_eq, Hw. cbn. eauto.
  - rewrite lookup_alter_ne, Hw' by done. eauto.
Qed.
Definition set_all (m : M) (hvs : list (Handle * Z)) : M := foldl (λ m hv, gauge_set m hv.1 hv.2) m hvs.
Arguments set_all : simpl never.
Lemma set_all_reads (m : M) hvs h :
  Forall (λ hv, live_gauge m hv.1) hvs → live_gauge m h →
  (cell h ∉ cell ∘ fst <$> hvs → int_get (set_all m hvs) h = int_get m h) ∧
  (∀ v, NoDup (cell ∘ fst <$> hvs) → (h, v) ∈ hvs → int_get (set_all m hvs) h = v).
Proof.
  revert m. induction hvs as [|[h0 v0] hvs IH]; intros m Hl Hh; cbn; [split; [done|]; set_solver|].
  change (set_all m ((h0, v0) :: hvs)) with (set_all (gauge_set m h0 v0) hvs).
  apply Forall_cons in Hl as [H0 Hl]. cbn in H0. destruct (gauge_set_reads m h0 v0 h H0 Hh) as [Hh' Hr].
  destruct (IH (gauge_set m h0 v0)) as [IH1 IH2]; [|done|].
  { eapply Forall_impl; [done|]. intros [h1 v1]. cbn. intros H1. by apply gauge_set_reads. }
  split.
  - intros [Hne Hnot]%not_elem_of_cons. rewrite IH1, Hr by done. by rewrite decide_False.
  - intros v [Hnot Hd]%NoDup_cons [[= -> ->]|Hin]%elem_of_cons.
    + rewrite IH1, Hr by done. by rewrite decide_True.
    + by apply IH2.
Qed.
Definition handles (c : LibrdkafkaStatisticsContext) : list Handle :=
  [brokers c; brokers_up c; reply_queue_messages c; messages_queued c; message_bytes_queued c; requests_sent c;
   responses_received c; bytes_sent c; bytes_received c; messages_sent c; messages_received c; consumer_lag c].
Definition gauge_names : list string :=
  ["brokers"; "brokers_up"; "reply_queue_messages"; "messages_queued"; "message_bytes_queued"; "requests_sent";
   "responses_received"; "bytes_sent"; "bytes_received"; "messages_sent"; "messages_received"; "consumer_lag"].
Lemma statistics_held m role c m' :
  registry_inv m → noop m = false → statistics_new role m = (Ok c, m') →
  held (scope "kafka_client" (sm_extend [] [("role", role)])) gauge_names (handles c) m' ∧ st_enabled c = true.
Proof.
  intros Hinv Hn E. unfold statistics_new in E. set (sc := scope "kafka_client" _) in *.
  assert (held sc [] [] m) as Hheld by done. cbv zeta in E.
  assert (negb (is_noop m) = true) as Hb by (unfold is_noop; by rewrite Hn). rewrite Hb in E. clear Hinv Hn Hb.
  repeat (match type of E with
  | reg_bind (gauge ?m sc ?n ?t []) _ = _ =>
      let r := fresh "r" in let h := fresh "h" in let m1 := fresh "m" in let E1 := fresh "E" in
      destruct (gauge m sc n t []) as [[h| |] m1] eqn:E1; cbn [reg_bind] in E; [|done..];
      eapply gauge_held in Hheld; [|exact E1]; clear E1
  end).
  injection E as <- <-. done.
Qed.

(** * Properties *)
(** C37: the parts of the runtime agree on their series: whatever parts a
    service is made of, in whatever order and under whatever names they
    register on a new registry, with or without a meter or disabled, no
    registration is refused, and every series has the kind and the
    description that the catalogue gives its name. *)
Theorem runtime_series_agree (cs : list Component) (disabled exported : bool) :
  let start := if disabled then metrics_noop else if exported then with_meter else metrics_new in
  (register_components cs start).1 = true ∧
  ∀ k x, (k, x) ∈ registry (register_components cs start).2 → family_of (key_name k) = Some (kind x, help x).
Proof.
  intros start. destruct (components_good cs start true) as [H1 [_ H2]]; [|done].
  apply catalogued_start. unfold start. by destruct disabled, exported.
Qed.

(** C38: the statistics of a Kafka client are exported as they are: after an
    update every gauge reads its field, unsigned counts that do not fit are
    cut off at the greatest value, and the lag is the sum of the non-negative
    lags of all partitions, cut off there too, whatever order topics and
    partitions come in. *)
Theorem kafka_statistics_exported (m m' : M) (role : string) (c : LibrdkafkaStatisticsContext) (s : Statistics) :
  metrics_reachable m → noop m = false → statistics_new role m = (Ok c, m') →
  int_get (update c m' s) <$> handles c =
  [Z.min i64_max (Z.of_nat (length (sn_brokers s)));
   Z.min i64_max (Z.of_nat (length (filter (λ b, state b.2 = "UP") (sn_brokers s))));
   sn_replyq s; Z.min i64_max (sn_msg_cnt s); Z.min i64_max (sn_msg_size s); sn_tx s; sn_rx s; sn_tx_bytes s; sn_rx_bytes s;
   sn_txmsgs s; sn_rxmsgs s; Z.min i64_max (total (filter (λ lag, 0 ≤ lag) (sn_topics s ≫= λ t, partitions t.2)))].
Proof.
  intros Hinv%metrics_reachable_inv Hn E. destruct (statistics_held _ _ _ _ Hinv Hn E) as [Hheld _].
  destruct (held_cells _ _ _ _ Hheld) as [Hd Hl];
    [done|by repeat constructor|by apply (bool_decide_unpack _); vm_compute|].
  rewrite <-(Z.add_0_l (total _)), <-lag_sum; [|done|apply Forall_forall; intros z [? _]%list_elem_of_filter; done].
  rewrite <-!saturating_min.
  fold (consumer_lag_of s). set (vs := [_; _; _; _; _; _; _; _; _; _; _; _]).
  change (update c m' s) with (set_all m' (zip (handles c) vs)).
  assert (∀ h v, (h, v) ∈ zip (handles c) vs → int_get (set_all m' (zip (handles c) vs)) h = v) as Hread.
  { intros h v Hin. apply set_all_reads; [|by eapply Forall_forall in Hl; [|eapply elem_of_zip_l]|..|done].
    - apply Forall_forall. intros [h' v'] Hin'. by eapply Forall_forall in Hl; [|eapply elem_of_zip_l].
    - by rewrite <-list_fmap_compose || rewrite list_fmap_compose; rewrite fst_zip. }
  cbn [handles fmap list_fmap]. unfold vs at 13. repeat f_equal; apply Hread; set_solver.
Qed.
Definition client0 : LibrdkafkaStatisticsContext * M :=
  match statistics_new "consumer" metrics_new with
  | (Ok c, m) => (c, m)
  | (_, m) => let h := MkHandle 0 None [] false in (MkStatistics false h h h h h h h h h h h h, m)
  end.
Definition statistics0 : Statistics :=
  MkSnapshotStatistics 2 3 128 11 12 1024 2048 4 5 [("one", MkBroker "UP"); ("two", MkBroker "DOWN")]
    [("topic", MkTopic [7; -1; i64_max])].
Lemma kafka_statistics_exported_witness :
  int_get (update client0.1 client0.2 statistics0) <$> handles client0.1 = [2; 1; 2; 3; 128; 11; 12; 1024; 2048; 4; 5; i64_max].
Proof.
  rewrite (kafka_statistics_exported metrics_new client0.2 "consumer" client0.1 statistics0);
    [by vm_compute|exists metrics_new; split; [left|apply rtc_refl]|done|by vm_compute].
Defined.

(** Clients of one role share their gauges: the second client gets the
    handles of the first, and its update replaces what the first reported. *)
Example kafka_clients_share_gauges :
  (statistics_new "consumer" client0.2).1 = Ok client0.1 ∧
  let idle := MkSnapshotStatistics 0 0 0 0 0 0 0 0 0 [] [] in
  int_get (update client0.1 (update client0.1 client0.2 statistics0) idle) (consumer_lag client0.1) = 0.
Proof. split; by vm_compute. Qed.

(** The target gauge of a pool is live. *)
Definition kept (m m' : M) : Prop := registry_inv m' ∧ noop m' = false ∧ ∀ k x, (k, x) ∈ registry m → (k, x) ∈ registry m'.
Lemma owned_kept kd k m h m' : owned kd k m h m' → kept m m'.
Proof. intros (I & N & _ & _ & K). done. Qed.
Lemma kept_trans m m1 m2 : kept m m1 → kept m1 m2 → kept m m2.
Proof. intros (_ & _ & K1) (I & N & K2). split_and!; auto. Qed.
Lemma pool_metrics_target m service name priority p m' :
  registry_inv m → noop m = false → pool_metrics_new m service name priority = (Ok p, m') → live_gauge m' (executors_target p).
Proof.
  intros Hinv Hn E. unfold pool_metrics_new in E. cbv zeta in E. set (sc := scope _ _) in E.
  destruct (gauge m sc "queue_length" _ _) as [[h1| |] m1] eqn:E1; cbn [reg_bind] in E; [|done..].
  destruct (gauge_owned _ _ _ _ _ _ _ Hinv Hn E1) as (I1 & N1 & _).
  destruct (gauge m1 sc "executors_target" _ _) as [[h2| |] m2] eqn:E2; cbn [reg_bind] in E; [|done..].
  destruct (gauge_owned _ _ _ _ _ _ _ I1 N1 E2) as (I2 & N2 & _ & (x & Hx & Hk & Hh) & _).
  assert (kept m2 m2) as Hkept by done. clear E1 E2.
  repeat (cbv beta in E; match type of E with
  | reg_bind ?r _ = _ => let h := fresh "h" in let m4 := fresh "m" in let E1 := fresh "E" in
      destruct r as [[h| |] m4] eqn:E1; cbn [reg_bind] in E; [|done..];
      match type of Hkept with kept _ ?m3 => assert (kept m3 m4) as Hnext by
        first [eapply owned_kept, gauge_owned; [apply Hkept|apply Hkept|exact E1]
          |eapply owned_kept, counter_owned; [apply Hkept|apply Hkept|exact E1]
          |eapply owned_kept, histogram_owned; [apply Hkept|apply Hkept|exact E1]] end;
      eapply kept_trans in Hnext; [|exact Hkept]; clear Hkept E1; rename Hnext into Hkept
  end).
  injection E as <- <-. cbn. destruct Hkept as (I & N & K). apply K in Hx.
  pose proof (ri_heap _ I _ _ _ Hx (metric_handle_cell _ _ Hh)) as Hheap. rewrite Hk in Hheap. cbn in Hheap.
  split; [|done]. destruct x; cbn in Hh; by simplify_eq.
Qed.

(** A pool of the configuration is built with its metrics on any registry of
    the runtime, and its target gauge reads the number of executors it will
    start; an unknown pool is refused and registers nothing. *)
Theorem queued_pool_target {Json} (m : M) (r : RuntimeConfig Json) service name priority parallelism :
  catalogued m → noop m = false →
  match pool_by_name r name with
  | None => queued_pool_new m r service name priority parallelism =
      (Err (if priority then PriorityTaskPoolNotFound name else TaskPoolNotFound name), m)
  | Some config =>
      ∃ p m', queued_pool_new m r service name priority parallelism = (Ok (MkPoolParts (Config.executors_count config) (Some p)), m') ∧
        catalogued m' ∧
        int_get m' (executors_target p) = wrap_s 64 (resolve_executors parallelism (Config.executors_count config))
  end.
Proof.
  intros Hc Hn. unfold queued_pool_new. destruct (pool_by_name r name) as [config|]; [|done].
  unfold is_noop. rewrite Hn. destruct (pool_metrics_good m service name priority Hc) as [Hc' [p Hp]].
  destruct (pool_metrics_new m service name priority) as [o m'] eqn:E. cbn in Hc', Hp. subst o.
  eexists _, _. split; [done|]. split; [by apply gauge_set_good|].
  assert (live_gauge m' (executors_target p)) as Hl; [|by destruct (gauge_set_reads m' _ (wrap_s 64 (resolve_executors parallelism
    (Config.executors_count config))) _ Hl Hl) as [_ ->]; rewrite decide_True].
  exact (pool_metrics_target m _ _ _ _ _ (ca_inv _ Hc) Hn E).
Qed.
