(* ===== verification/Propagation.v ===== *)
(** How a request gets its context, and how contexts cross a transport: the
    rest of [src/src/runtime/common.rs] (stream identifiers, trace parents from
    HTTP headers, gRPC request metadata, operator spans) and the contexts that
    the HTTP, Kafka, gRPC and local sources build for a request.

    A span is what the tracing subscriber makes of it: [open_span] answers the
    context of the span for its name and parent, or [None] when the span is
    disabled.  The propagator reads through an [Extractor]; a header value that
    is not text is [None]. *)

From Stdlib Require Import Strings.Ascii.
From Stdlib Require Strings.String.
From S2P Require Import Prelude Config Context Requests.
Local Open Scope Z_scope.

(** * Stream identifiers *)
Definition hex_char (d : Z) : ascii := ascii_of_N (Z.to_N (if decide (d < 10) then 48 + d else 87 + d)).
(** [{:x}]: the digits of [z], at most as many as the fuel. *)
Fixpoint hex_digits (fuel : nat) (z : Z) (acc : list ascii) : list ascii :=
  match fuel with
  | O => acc
  | S fuel => if decide (z < 16) then hex_char z :: acc else hex_digits fuel (z / 16) (hex_char (z mod 16) :: acc)
  end.
(** A [u128] has at most 32 digits. *)
Definition lower_hex (z : Z) : list ascii := hex_digits 32 z [].
(** [new_stream_id]: [since_epoch] is [None] when the clock is before 1970. *)
Definition new_stream_id (since_epoch : option Z) (sequence : Z) : string * Z :=
  (String.string_of_list_ascii (lower_hex (default 0 since_epoch) ++ "-"%char :: lower_hex sequence), wrap_u 64 (sequence + 1)).
(** Calls in the order of their [fetch_add]. *)
Fixpoint stream_ids (clocks : list (option Z)) (sequence : Z) : list string :=
  match clocks with
  | [] => []
  | clock :: clocks => let '(id, sequence) := new_stream_id clock sequence in id :: stream_ids clocks sequence
  end.

(** * Extraction of a trace *)
Record Extractor := MkExtractor { ex_get : string → option string; ex_keys : list string }.
Definition MetadataExtractor (md : gmap string string) : Extractor := MkExtractor (md !!.) (map_to_list md).*1.
(** Headers in their order; [get] answers the first value of a name. *)
Definition HeaderMap : Type := list (string * option string).
Fixpoint header_get (headers : HeaderMap) (name : string) : option (option string) :=
  match headers with
  | [] => None
  | (n, v) :: headers => if decide (n = name) then Some v else header_get headers name
  end.
Definition HeaderExtractor (headers : HeaderMap) : Extractor :=
  MkExtractor (λ name, mjoin (header_get headers name)) headers.*1.

Section propagation.
Context {Token Otel Any : Type} (extract : Extractor → Otel).
Notation Ctx := (MessageContext Token Otel Any).
Definition extract_metadata (md : gmap string string) : Otel := extract (MetadataExtractor md).
Definition tracing_parent_from_http_headers (headers : HeaderMap) : option Otel :=
  let explicit_sampling :=
    match header_get headers TRACE_SAMPLING_HEADER with
    | Some value => negb (bool_decide (value = Some ""))
    | None => false
    end in
  let sampled_parent :=
    match mjoin (header_get headers "traceparent") with
    | Some value => traceparent_is_sampled value
    | None => false
    end in
  if negb explicit_sampling && negb sampled_parent then None else Some (extract (HeaderExtractor headers)).

(** * Spans *)
Context (open_span : string → Otel → option Otel).
(** [RuntimeStream::start_span] *)
Definition start_span (tracing_enabled : bool) (operation : string) (c : Ctx) : Ctx * option Otel :=
  if negb tracing_enabled || negb (sampling_enabled c) then (c, None)
  else match open_span operation (open_telemetry c) with
       | None => (c, None)
       | Some child => (with_open_telemetry_context c child, Some child)
       end.
(** The span of a source: its name, and the context it gives the request. *)
Definition input_span (tracing_enabled : bool) (name : string) (c : Ctx) : Ctx * option Otel :=
  let span := if tracing_enabled && sampling_enabled c then open_span name (open_telemetry c) else None in
  (match span with Some _ => with_span_context c span | None => c end, span).

(** * Contexts of requests *)
Section sources.
Context {Json : Type} (tracing_enabled : bool) (r : RuntimeConfig Json) (endpoint_id : Z).
(** What every source does with the context it has: the endpoint's tracing
    policy, and its span. *)
Definition begin_context (name : string) (c : Ctx) : Ctx * option Otel :=
  input_span tracing_enabled name (apply_endpoint_tracing c tracing_enabled r endpoint_id).
Definition grpc_request_context (c : Ctx) : Ctx * option Otel := begin_context "grpc.input" c.
Definition local_request_context (c : Ctx) : Ctx * option Otel := begin_context "local.input" c.
(** The headers of a request as metadata. *)
Definition header_metadata (headers : HeaderMap) : gmap string string :=
  collect_map (omap (λ nv, (λ v, (nv.1, v)) <$> nv.2) headers).
Definition http_request_context (c : Ctx) (headers : HeaderMap) : Ctx * option Otel :=
  let md := header_metadata headers in
  input_span tracing_enabled "http.input"
    (if tracing_enabled then apply_endpoint_tracing (with_metadata extract_metadata c md) tracing_enabled r endpoint_id
     else with_metadata_untraced c md).
Definition kafka_request_context (c : Ctx) (transport_metadata : gmap string string) : Ctx * option Otel :=
  let c :=
    if tracing_enabled then with_metadata extract_metadata c (transport_metadata ∪ metadata c)
    else match transport_metadata !! STREAM_ID_HEADER with
         | Some stream_id => with_stream_id c stream_id
         | None => c
         end in
  begin_context "kafka.input" c.
(** Once the handler began: a request always has a stream identifier. *)
Definition assign_stream_id (c : Ctx) (since_epoch : option Z) (sequence : Z) : Ctx * Z :=
  match stream_id c with
  | Some _ => (c, sequence)
  | None => let '(id, sequence) := new_stream_id since_epoch sequence in (with_stream_id c id, sequence)
  end.
End sources.

(** * gRPC requests *)
Section tonic.
Context (span_valid : Otel → bool) (inject : Otel → gmap string string → gmap string string).
(** [MetadataKey::from_bytes], [MetadataValue::try_from], the text of a
    timeout, and the order a [HashMap] is iterated in. *)
Context (metadata_key : string → option string) (valid_value : string → bool) (encode_timeout : Z → string).
Context (iter : gmap string string → list (string * string)).
Definition insert_metadata (md : gmap string string) (name value : string) : gmap string string :=
  match metadata_key name with
  | None => md
  | Some key => if valid_value value then <[key := value]> md else md
  end.
(** [Request::set_timeout] *)
Definition set_timeout (md : gmap string string) (timeout : Z) : gmap string string :=
  <["grpc-timeout" := encode_timeout timeout]> md.
Definition insert_all (md : gmap string string) (entries : list (string * string)) : gmap string string :=
  foldl (λ md nv, insert_metadata md nv.1 nv.2) md entries.
Definition apply_to_tonic_request (c : Ctx) (now : Z) (md : gmap string string) : gmap string string :=
  let md :=
    if span_valid (open_telemetry c)
    then insert_all md (iter (transport_metadata_with_tracing span_valid inject c true))
    else foldl (λ md name, match metadata c !! name with Some value => insert_metadata md name value | None => md end)
           md [STREAM_ID_HEADER; TRACE_SAMPLING_HEADER] in
  match remaining c now with Some timeout => set_timeout md timeout | None => md end.
End tonic.

(** * Waiting for cancellation *)
(** Whether the future of [cancelled] is ready. *)
Definition cancelled_ready (token_cancelled : Token → bool) (c : Ctx) (now : Z) : bool :=
  match deadline c with
  | Some d => token_cancelled (cancellation c) || bool_decide (d ≤ now)
  | None => token_cancelled (cancellation c)
  end.
End propagation.

(** * Lemmas *)
(** ** Hexadecimal text *)
Definition hex_value (l : list ascii) : Z := foldl (λ a c, 16 * a + default 0 (hex_digit c)) 0 l.
Lemma hex_char_spec d : 0 ≤ d < 16 → hex_digit (hex_char d) = Some d ∧ hex_char d ≠ "-"%char.
Proof.
  intros Hd. assert (d ∈ [0; 1; 2; 3; 4; 5; 6; 7; 8; 9; 10; 11; 12; 13; 14; 15]) as Hin by (rewrite list_elem_of_In; cbn; lia).
  clear Hd. repeat (apply elem_of_cons in Hin as [->|Hin]; [by vm_compute|]). by apply elem_of_nil in Hin.
Qed.
Lemma hex_digits_spec fuel z acc :
  0 ≤ z < 16 ^ Z.of_nat fuel → (0 < fuel)%nat →
  ∃ l, hex_digits fuel z acc = l ++ acc ∧ hex_value l = z ∧ "-"%char ∉ l.
Proof.
  revert z acc. induction fuel as [|fuel IH]; intros z acc Hz Hf; [lia|]. cbn [hex_digits]. case_decide as Hlt.
  - destruct (hex_char_spec z) as [Hc Hd]; [lia|]. exists [hex_char z]. split; [done|]. split.
    + cbn. rewrite Hc. cbn. lia.
    + set_solver.
  - assert (0 < fuel)%nat as Hf' by (destruct fuel; [change (16 ^ Z.of_nat 1) with 16 in Hz|]; lia).
    rewrite Nat2Z.inj_succ, Z.pow_succ_r in Hz by lia.
    destruct (IH (z / 16) (hex_char (z mod 16) :: acc)) as (l & Hl & Hv & Hn); [|done|].
    { split; [apply Z.div_pos; lia|]. apply Z.div_lt_upper_bound; lia. }
    destruct (hex_char_spec (z mod 16)) as [Hc Hd]; [apply Z.mod_pos_bound; lia|].
    exists (l ++ [hex_char (z mod 16)]). rewrite Hl, <-app_assoc. split; [done|]. split.
    + unfold hex_value in *. rewrite foldl_app, Hv. cbn. rewrite Hc. cbn. pose proof (Z.div_mod z 16). lia.
    + set_solver.
Qed.
Lemma lower_hex_spec z : 0 ≤ z < 2 ^ 128 → hex_value (lower_hex z) = z ∧ "-"%char ∉ lower_hex z.
Proof.
  intros Hz. destruct (hex_digits_spec 32 z []) as (l & Hl & Hv & Hn); [exact Hz|lia|].
  unfold lower_hex. by rewrite Hl, app_nil_r.
Qed.
Lemma string_of_list_ascii_inj l k : String.string_of_list_ascii l = String.string_of_list_ascii k → l = k.
Proof. intros H%(f_equal String.list_ascii_of_string). by rewrite !String.list_ascii_of_string_of_list_ascii in H. Qed.
Lemma split_dash (a b a' b' : list ascii) :
  "-"%char ∉ a → "-"%char ∉ a' → a ++ "-"%char :: b = a' ++ "-"%char :: b' → a = a' ∧ b = b'.
Proof.
  revert a'. induction a as [|c a IH]; intros [|c' a'] Hn Hn' E; cbn in *.
  - by injection E as ->.
  - injection E as <- _. set_solver.
  - injection E as -> _. set_solver.
  - injection E as <- E. destruct (IH a') as [-> ->]; [set_solver..|done|done].
Qed.
Definition u128 (clock : option Z) : Prop := 0 ≤ default 0 clock < 2 ^ 128.
Lemma stream_id_inj clock clock' sequence sequence' :
  u128 clock → u128 clock' → 0 ≤ sequence < 2 ^ 64 → 0 ≤ sequence' < 2 ^ 64 →
  (new_stream_id clock sequence).1 = (new_stream_id clock' sequence').1 → sequence = sequence'.
Proof.
  intros Hc Hc' Hs Hs' E%string_of_list_ascii_inj.
  apply split_dash in E as [_ E]; [|by apply lower_hex_spec..].
  apply (f_equal hex_value) in E.
  destruct (lower_hex_spec sequence) as [Hv _]; [lia|]. destruct (lower_hex_spec sequence') as [Hv' _]; [lia|]. congruence.
Qed.
Lemma stream_ids_cons clock clocks sequence :
  stream_ids (clock :: clocks) sequence = (new_stream_id clock sequence).1 :: stream_ids clocks (wrap_u 64 (sequence + 1)).
Proof. done. Qed.
#[local] Opaque new_stream_id stream_ids.
Lemma stream_ids_lookup clocks sequence i id :
  0 ≤ sequence < 2 ^ 64 → stream_ids clocks sequence !! i = Some id →
  ∃ clock, clocks !! i = Some clock ∧ id = (new_stream_id clock (wrap_u 64 (sequence + Z.of_nat i))).1.
Proof.
  revert sequence i. induction clocks as [|clock clocks IH]; intros sequence i Hs Hi; [done|].
  rewrite stream_ids_cons in Hi. destruct i as [|i]; cbn in Hi.
  - injection Hi as <-. exists clock. split; [done|]. unfold wrap_u. by rewrite Z.add_0_r, Z.mod_small.
  - apply IH in Hi as (clock' & Hc & ->); [|unfold wrap_u; apply Z.mod_pos_bound; lia]. exists clock'. split; [done|].
    unfold wrap_u. rewrite Zplus_mod_idemp_l. replace (sequence + 1 + Z.of_nat i) with (sequence + Z.of_nat (S i)) by lia. done.
Qed.

(** ** Headers *)
Lemma header_get_elem headers name v : header_get headers name = Some v → (name, v) ∈ headers.
Proof.
  induction headers as [|[n w] headers IH]; cbn; [done|]. case_decide; [intros [= ->]; subst; by left|]. intros Hin. right. auto.
Qed.
Lemma header_get_None headers name : header_get headers name = None → name ∉ headers.*1.
Proof.
  induction headers as [|[n w] headers IH]; cbn; [set_solver|]. case_decide; [done|]. intros Hn%IH. set_solver.
Qed.
(** Each name once and every value text: the metadata says what the headers
    say. *)
Lemma header_metadata_get headers name :
  NoDup headers.*1 → Forall (λ nv, nv.2 ≠ None) headers →
  header_get headers name = Some <$> header_metadata headers !! name.
Proof.
  intros Hd Ht. unfold header_metadata. rewrite collect_map_reverse.
  set (l := omap _ headers).
  assert (∀ n v, (n, v) ∈ l ↔ (n, Some v) ∈ headers) as Hl.
  { intros n v. unfold l. rewrite list_elem_of_omap. split.
    - intros ([n' [v'|]] & Hin & [= -> ->]). done.
    - intros Hin. by exists (n, Some v). }
  assert (NoDup l.*1) as Hdl.
  { clear Hl. unfold l. clear l. induction headers as [|[n [v|]] headers IH]; cbn; [constructor|..];
      apply NoDup_cons in Hd as [Hn Hd]; apply Forall_cons in Ht as [Hv Ht]; [|by destruct Hv].
    apply NoDup_cons. split; [|auto]. intros ([n' v'] & -> & Hin)%list_elem_of_fmap. apply Hn.
    apply list_elem_of_omap in Hin as ([n'' [v''|]] & Hin & [= -> ->]). apply list_elem_of_fmap. by exists (n', Some v'). }
  assert (NoDup (reverse l).*1) as Hdr by (by rewrite fmap_reverse, reverse_Permutation).
  destruct (header_get headers name) as [w|] eqn:E.
  - pose proof (header_get_elem _ _ _ E) as Hin. assert (w ≠ None) as Hw by (by eapply Forall_forall in Ht; [|exact Hin]).
    destruct w as [v|]; [|done].
    rewrite (elem_of_list_to_map_1 _ _ v); [done|done|]. by apply elem_of_reverse, Hl.
  - apply header_get_None in E. rewrite not_elem_of_list_to_map_1; [done|]. rewrite fmap_reverse, elem_of_reverse.
    intros ([n v] & -> & Hin%Hl)%list_elem_of_fmap. apply E, list_elem_of_fmap. by exists (n, Some v).
Qed.

(** ** gRPC metadata *)
Section tonic_laws.
Context (metadata_key : string → option string) (valid_value : string → bool).
Notation insert_md := (insert_metadata metadata_key valid_value).
Lemma insert_metadata_id md name value :
  metadata_key name = Some name → insert_md md name value = if valid_value value then <[name := value]> md else md.
Proof. unfold insert_metadata. by intros ->. Qed.
(** Inserting entries of different, canonical names, in any order. *)
Lemma insert_all_lookup md entries key :
  NoDup entries.*1 → Forall (λ nv, metadata_key nv.1 = Some nv.1) entries →
  insert_all metadata_key valid_value md entries !! key =
  match list_to_map (M := gmap string string) entries !! key with
  | Some value => if valid_value value then Some value else md !! key
  | None => md !! key
  end.
Proof.
  intros Hd Hk. revert md. induction entries as [|[n v] entries IH]; intros md; [done|].
  apply NoDup_cons in Hd as [Hn Hd]. apply Forall_cons in Hk as [Hkn Hk]. cbn in Hn, Hkn.
  change (insert_all metadata_key valid_value md ((n, v) :: entries)) with (insert_all metadata_key valid_value (insert_md md n v) entries).
  rewrite IH by done. cbn [list_to_map foldr uncurry]. rewrite (insert_metadata_id md n v Hkn).
  destruct (decide (n = key)) as [->|Hne].
  - rewrite (not_elem_of_list_to_map_1 _ _ Hn). cbn. rewrite lookup_insert_eq. destruct (valid_value v); [by rewrite lookup_insert_eq|done].
  - cbn. rewrite lookup_insert_ne by done. destruct (valid_value v); [rewrite lookup_insert_ne by done|]; done.
Qed.
End tonic_laws.

Lemma collect_map_lookup (l : list (string * string)) key value :
  NoDup l.*1 → collect_map l !! key = Some value ↔ (key, value) ∈ l.
Proof.
  intros Hd. rewrite collect_map_reverse, <-elem_of_list_to_map by (by rewrite fmap_reverse, reverse_Permutation).
  by rewrite elem_of_reverse.
Qed.
(** What [from_tonic_request] collects from a request whose values are all
    text. *)
Definition dropped (tracing_enabled : bool) (name : string) : bool :=
  negb tracing_enabled && bool_decide (name = TRACE_SAMPLING_HEADER ∨ name = "traceparent" ∨ name = "tracestate" ∨ name = "baggage").
Lemma collect_entries tracing (md : gmap string string) l key :
  l ≡ₚ map_to_list md →
  collect_map (omap (keep_entry tracing) (prod_map id Some <$> l)) !! key = if dropped tracing key then None else md !! key.
Proof.
  intros Hl. set (k := omap _ _).
  assert (∀ n v, (n, v) ∈ k ↔ dropped tracing n = false ∧ md !! n = Some v) as Hk.
  { intros n v. unfold k. rewrite list_elem_of_omap, <-elem_of_map_to_list, <-Hl. split.
    - intros ([n' v'] & ([n'' v''] & [= -> ->] & Hin)%list_elem_of_fmap & Hkeep). unfold keep_entry in Hkeep. cbn in Hkeep.
      unfold dropped. destruct (negb tracing && _) eqn:E; [done|]. cbn in Hkeep. by injection Hkeep as -> ->.
    - intros [Hd Hin]. exists (n, Some v). split; [apply list_elem_of_fmap; by exists (n, v)|].
      unfold keep_entry. unfold dropped in Hd. by rewrite Hd. }
  assert (NoDup k.*1) as Hnd.
  { assert (NoDup l.*1) as Hd by (rewrite Hl; apply NoDup_fst_map_to_list). clear -Hd. unfold k. clear k.
    assert (∀ (n : string) w e, keep_entry tracing (n, w) = Some e → e.1 = n) as Hfst.
    { intros n w e. unfold keep_entry. destruct (negb tracing && _); [done|]. by intros (v & _ & ->)%fmap_Some. }
    induction l as [|[n v] l IH]; [constructor|]. apply NoDup_cons in Hd as [Hn Hd]. rewrite fmap_cons.
    change (prod_map id Some (n, v)) with (n, Some v). cbn [omap list_omap].
    destruct (keep_entry tracing (n, Some v)) as [e|] eqn:Ee; [|by apply IH].
    rewrite fmap_cons. apply NoDup_cons. split; [|by apply IH]. rewrite (Hfst _ _ _ Ee).
    intros (e' & -> & Hin)%list_elem_of_fmap. apply list_elem_of_omap in Hin as (x & ([n3 v3] & -> & Hin)%list_elem_of_fmap & Hkeep).
    apply Hn. rewrite (Hfst n3 (Some v3) _ Hkeep). apply list_elem_of_fmap. by exists (n3, v3). }
  destruct (collect_map k !! key) as [v|] eqn:E.
  - apply collect_map_lookup, Hk in E as [-> ->]; done.
  - destruct (dropped tracing key) eqn:Ed; [done|]. destruct (md !! key) as [v|] eqn:Em; [|done].
    assert ((key, v) ∈ k) as Hin by by apply Hk. apply collect_map_lookup in Hin; [congruence|done].
Qed.

(** * Properties *)
(** C39: stream identifiers made by one process are all different, however its
    calls interleave and whatever its clock shows, also when it stands still or
    goes back: up to 2^64 of them. *)
Theorem stream_ids_unique (clocks : list (option Z)) (sequence : Z) :
  0 ≤ sequence < 2 ^ 64 → Forall u128 clocks → Z.of_nat (length clocks) ≤ 2 ^ 64 → NoDup (stream_ids clocks sequence).
Proof.
  intros Hs Hc Hl. apply NoDup_alt. intros i j id Hi Hj.
  apply stream_ids_lookup in Hi as (clock & Hi & ->); [|done].
  apply stream_ids_lookup in Hj as (clock' & Hj & E); [|done].
  pose proof (lookup_lt_Some _ _ _ Hi). pose proof (lookup_lt_Some _ _ _ Hj).
  pose proof (Forall_lookup_1 _ _ _ _ Hc Hi). pose proof (Forall_lookup_1 _ _ _ _ Hc Hj).
  apply stream_id_inj in E; [|done|done|apply Z.mod_pos_bound; lia..].
  unfold wrap_u in E. apply Nat2Z.inj.
  pose proof (Z.div_mod (sequence + Z.of_nat i) (2 ^ 64)). pose proof (Z.div_mod (sequence + Z.of_nat j) (2 ^ 64)).
  assert (Z.of_nat i - Z.of_nat j = 2 ^ 64 * ((sequence + Z.of_nat i) / 2 ^ 64 - (sequence + Z.of_nat j) / 2 ^ 64)) as Hk by lia.
  set (k := (sequence + Z.of_nat i) / 2 ^ 64 - (sequence + Z.of_nat j) / 2 ^ 64) in *. clearbody k.
  assert (k = 0) by nia. lia.
Qed.
Lemma stream_ids_unique_witness :
  stream_ids [Some 1700000000000000000; Some 1700000000000000000; None] (2 ^ 64 - 1) =
    ["17979cfe362a0000-ffffffffffffffff"; "17979cfe362a0000-0"; "0-1"] ∧
  NoDup (stream_ids [Some 1700000000000000000; Some 1700000000000000000; None] (2 ^ 64 - 1)).
Proof.
  split; [by vm_compute|]. apply stream_ids_unique; [lia| |by vm_compute]. by repeat constructor.
Defined.

Section traces.
Context {Token Otel Any : Type} (extract : Extractor → Otel).
Notation Ctx := (MessageContext Token Otel Any).
(** the monitoring middleware and the endpoint agree on a request's trace:
    with each header once and text values, the middleware has a parent exactly
    when the endpoint's context is sampled, and then it is the context's. *)
Theorem tracing_parent_agrees (c : Ctx) (headers : HeaderMap) :
  (∀ e e', (∀ name, ex_get e name = ex_get e' name) → extract e = extract e') →
  NoDup headers.*1 → Forall (λ nv, nv.2 ≠ None) headers →
  let endpoint := with_metadata (extract_metadata extract) c (header_metadata headers) in
  tracing_parent_from_http_headers extract headers =
  if sampling_enabled endpoint then Some (open_telemetry endpoint) else None.
Proof.
  intros Hext Hd Ht endpoint. unfold tracing_parent_from_http_headers.
  rewrite !(header_metadata_get _ _ Hd Ht). unfold endpoint, with_metadata, extract_metadata. cbn.
  rewrite (Hext (HeaderExtractor headers) (MetadataExtractor (header_metadata headers))).
  - destruct (header_metadata headers !! TRACE_SAMPLING_HEADER) as [v|]; cbn; [|destruct (header_metadata headers !! _); cbn; [|done]].
    + destruct (decide (v = "")) as [->|Hne].
      * cbn. destruct (header_metadata headers !! _) as [t|]; cbn; [|done]. by destruct (traceparent_is_sampled t).
      * rewrite !bool_decide_false by congruence. by destruct (header_metadata headers !! _).
    + by destruct (traceparent_is_sampled _).
  - intros name. cbn. rewrite (header_metadata_get _ _ Hd Ht). by destruct (header_metadata headers !! name).
Qed.
End traces.
Lemma tracing_parent_agrees_witness :
  let headers := [("accept", Some "*/*"); ("x-trace", Some "1")] in
  let c := new (Token := unit) (Any := unit) tt (None : option string) in
  tracing_parent_from_http_headers (λ e, ex_get e "x-trace") headers = Some (Some "1").
Proof.
  intros headers c.
  rewrite (tracing_parent_agrees (λ e, ex_get e "x-trace") c headers); [by vm_compute|by intros e e' ->| |by repeat constructor].
  apply (bool_decide_unpack _). by vm_compute.
Defined.
(** A repeated header: the middleware reads the first value and the endpoint
    the last. *)
Example repeated_header_disagrees :
  let headers := [("x-trace", Some "1"); ("x-trace", Some "")] in
  let c := new (Token := unit) (Any := unit) tt (None : option string) in
  tracing_parent_from_http_headers (λ e, ex_get e "x-trace") headers = Some (Some "1") ∧
  sampling_enabled (with_metadata (extract_metadata (λ e, ex_get e "x-trace")) c (header_metadata headers)) = false.
Proof. by vm_compute. Qed.

(** ** One gRPC hop *)
Section hop.
Context {Token Otel Any : Type} (span_valid : Otel → bool) (inject : Otel → gmap string string → gmap string string).
Context (metadata_key : string → option string) (valid_value : string → bool) (encode_timeout : Z → string).
Context (iter : gmap string string → list (string * string)).
Notation Ctx := (MessageContext Token Otel Any).
Notation apply := (apply_to_tonic_request span_valid inject metadata_key valid_value encode_timeout iter).
Notation sent c := (transport_metadata_with_tracing span_valid inject c true).
Context (Hiter : ∀ md, iter md ≡ₚ map_to_list md).
Implicit Types c : Ctx.
Lemma list_to_map_iter md : list_to_map (iter md) = md.
Proof.
  rewrite (list_to_map_proper _ (map_to_list md)); [apply list_to_map_to_list|rewrite Hiter; apply NoDup_fst_map_to_list|done].
Qed.
(** The metadata of a request that was filled in. *)
Lemma insert_sent_lookup md m key :
  (∀ name, name ∈ dom m → metadata_key name = Some name) →
  insert_all metadata_key valid_value md (iter m) !! key =
  match m !! key with Some value => if valid_value value then Some value else md !! key | None => md !! key end.
Proof.
  intros Hk. rewrite insert_all_lookup.
  - by rewrite list_to_map_iter.
  - rewrite Hiter. apply NoDup_fst_map_to_list.
  - apply Forall_forall. intros [n v]. rewrite Hiter. intros Hin%elem_of_map_to_list. apply Hk. by apply elem_of_dom_2 in Hin.
Qed.
Lemma sent_untraced c :
  span_valid (open_telemetry c) = false →
  ∀ key, sent c !! key = if decide (key = STREAM_ID_HEADER ∨ key = TRACE_SAMPLING_HEADER) then metadata c !! key else None.
Proof.
  intros Hs key. unfold transport_metadata_with_tracing, extend_transport_metadata_with_tracing. cbn [negb]. rewrite Hs.
  destruct (metadata c !! STREAM_ID_HEADER) as [s|] eqn:E1, (metadata c !! TRACE_SAMPLING_HEADER) as [t|] eqn:E2;
    case_decide as Hk; try (destruct Hk as [->| ->]); simplify_map_eq; try done.
  all: rewrite ?lookup_insert_ne by naive_solver; apply lookup_empty.
Qed.
Context (Hstream : metadata_key STREAM_ID_HEADER = Some STREAM_ID_HEADER).
Context (Htrace : metadata_key TRACE_SAMPLING_HEADER = Some TRACE_SAMPLING_HEADER).
Lemma insert_both c md key :
  foldl (λ md name, match metadata c !! name with Some value => insert_metadata metadata_key valid_value md name value | None => md end)
    md [STREAM_ID_HEADER; TRACE_SAMPLING_HEADER] !! key =
  match (if decide (key = STREAM_ID_HEADER ∨ key = TRACE_SAMPLING_HEADER) then metadata c !! key else None) with
  | Some value => if valid_value value then Some value else md !! key
  | None => md !! key
  end.
Proof.
  cbn [foldl]. destruct (metadata c !! STREAM_ID_HEADER) as [s|] eqn:E1, (metadata c !! TRACE_SAMPLING_HEADER) as [t|] eqn:E2;
    rewrite ?(insert_metadata_id _ _ _ _ _ Hstream), ?(insert_metadata_id _ _ _ _ _ Htrace);
    case_decide as Hk; try (destruct Hk as [->| ->]); simplify_map_eq; try done.
  all: repeat case_match; simplify_map_eq; try done; by rewrite ?lookup_insert_ne by naive_solver.
Qed.
Lemma fast_path_eq c now md :
  span_valid (open_telemetry c) = false →
  apply c now md =
  let filled := insert_all metadata_key valid_value md (iter (sent c)) in
  match remaining c now with Some timeout => set_timeout encode_timeout filled timeout | None => filled end.
Proof.
  intros Hs. unfold apply_to_tonic_request. rewrite Hs. cbv zeta.
  assert (∀ a b : gmap string string, a = b → match remaining c now with Some t => set_timeout encode_timeout a t | None => a end =
    match remaining c now with Some t => set_timeout encode_timeout b t | None => b end) as Heq by (by intros a b ->).
  apply Heq. clear Heq. apply map_eq. intros key. rewrite insert_both, insert_sent_lookup.
  - by rewrite (sent_untraced c Hs key).
  - intros name [v Hv]%elem_of_dom. rewrite (sent_untraced c Hs name) in Hv. case_decide as Hk; [|done].
    by destruct Hk as [->| ->].
Qed.
Context (Hinject : ∀ o md h, h = STREAM_ID_HEADER ∨ h = TRACE_SAMPLING_HEADER ∨ h = "grpc-timeout" → inject o md !! h = md !! h).
Lemma applied_lookup c now key :
  (∀ name, name ∈ dom (sent c) → metadata_key name = Some name) → (∀ name v, metadata c !! name = Some v → valid_value v = true) →
  key = STREAM_ID_HEADER ∨ key = TRACE_SAMPLING_HEADER ∨ key = "grpc-timeout" →
  apply c now ∅ !! key = if decide (key = "grpc-timeout") then encode_timeout <$> remaining c now else metadata c !! key.
Proof.
  intros Hkeys Hvalid Hkey.
  assert (∀ key, key = STREAM_ID_HEADER ∨ key = TRACE_SAMPLING_HEADER ∨ key = "grpc-timeout" →
    sent c !! key = if decide (key = "grpc-timeout") then None else metadata c !! key) as Hsent.
  { intros k Hk. unfold transport_metadata_with_tracing, extend_transport_metadata_with_tracing. cbn [negb].
    destruct (span_valid (open_telemetry c)); rewrite ?Hinject by done; destruct Hk as [->|[->| ->]]; case_decide; try done;
      destruct (metadata c !! STREAM_ID_HEADER), (metadata c !! TRACE_SAMPLING_HEADER); simplify_map_eq; done. }
  set (filled := insert_all metadata_key valid_value ∅ (iter (sent c))).
  assert (apply c now ∅ = match remaining c now with Some t => set_timeout encode_timeout filled t | None => filled end) as ->.
  { destruct (span_valid (open_telemetry c)) eqn:Hs; [|by rewrite fast_path_eq].
    unfold apply_to_tonic_request. by rewrite Hs. }
  assert (filled !! key = if decide (key = "grpc-timeout") then None else metadata c !! key) as Hf.
  { unfold filled. rewrite insert_sent_lookup, Hsent by done. case_decide; [apply lookup_empty|].
    destruct (metadata c !! key) as [v|] eqn:E; [by rewrite (Hvalid _ _ E)|apply lookup_empty]. }
  unfold set_timeout. destruct (remaining c now) as [t|]; cbn; [|rewrite Hf; by case_decide].
  case_decide as Hk; [subst; by rewrite lookup_insert_eq|]. by rewrite lookup_insert_ne, Hf by done.
Qed.
(** the short way equals the general one: without a valid span, filling in
    the two framework headers gives the request exactly the transport metadata
    of the context, and the timeout. *)
Theorem tonic_fast_path_agrees c now md :
  span_valid (open_telemetry c) = false →
  apply_to_tonic_request span_valid inject metadata_key valid_value encode_timeout iter c now md =
  let filled := insert_all metadata_key valid_value md (iter (sent c)) in
  match remaining c now with Some timeout => set_timeout encode_timeout filled timeout | None => filled end.
Proof. exact (fast_path_eq c now md). Qed.

Context (Hencode : ∀ d, 0 ≤ d → ∃ d', grpc_timeout (encode_timeout d) = Some d' ∧ 0 ≤ d' ≤ d).
(** C40: a call keeps its identity over a gRPC hop.  For header names and
    values the transport accepts, and a deadline the server's clock can
    represent, the server builds a context from the request, and that context
    has the client's stream identifier; with tracing enabled on the server the
    client's sampling header, and with tracing disabled none; a deadline
    exactly when the client has one, and then never more time left than the
    client had. *)
Theorem grpc_hop_roundtrip (instant_max : Z) (fresh : Token) (root : Otel) (extract : gmap string string → Otel) c now now' tracing :
  (∀ name, name ∈ dom (sent c) → metadata_key name = Some name) →
  (∀ name v, metadata c !! name = Some v → valid_value v = true) →
  now' + default 0 (remaining c now) ≤ instant_max →
  ∃ received : Ctx,
    from_tonic_request_with_tracing instant_max fresh root extract now' 
      (prod_map id Some <$> iter (apply_to_tonic_request span_valid inject metadata_key valid_value encode_timeout iter c now ∅)) tracing = Ok received ∧
    stream_id received = stream_id c ∧
    metadata received !! TRACE_SAMPLING_HEADER = (if tracing then metadata c !! TRACE_SAMPLING_HEADER else None) ∧
    match remaining c now with
    | None => deadline received = None
    | Some time_left => ∃ d, deadline received = Some (now' + d) ∧ 0 ≤ d ≤ time_left
    end.
Proof.
  intros Hkeys Hvalid Hmax. unfold from_tonic_request_with_tracing.
  set (md := collect_map _).
  assert (∀ key, key = STREAM_ID_HEADER ∨ key = TRACE_SAMPLING_HEADER ∨ key = "grpc-timeout" → md !! key =
    if dropped tracing key then None else if decide (key = "grpc-timeout") then encode_timeout <$> remaining c now else metadata c !! key) as Hmd.
  { intros key Hkey. unfold md. rewrite (collect_entries tracing (apply c now ∅)) by done. by rewrite applied_lookup. }
  set (built := if tracing then _ else _).
  assert (metadata built = md ∧ deadline built = None) as [Hbm Hbd] by (unfold built; by destruct tracing).
  assert (md !! STREAM_ID_HEADER = metadata c !! STREAM_ID_HEADER) as Hid.
  { rewrite Hmd by auto. unfold dropped. by rewrite bool_decide_false, andb_false_r by naive_solver. }
  assert (md !! TRACE_SAMPLING_HEADER = if tracing then metadata c !! TRACE_SAMPLING_HEADER else None) as Htr.
  { rewrite Hmd by auto. unfold dropped. rewrite bool_decide_true by auto. by destruct tracing. }
  rewrite (Hmd "grpc-timeout") by auto. unfold dropped at 1. rewrite bool_decide_false, andb_false_r by naive_solver.
  rewrite decide_True by done. destruct (remaining c now) as [time_left|] eqn:Er; cbn.
  - assert (0 ≤ time_left) as Hpos.
    { unfold remaining in Er. apply fmap_Some in Er as (d & _ & ->). unfold saturating_sub. lia. }
    destruct (Hencode time_left Hpos) as (d & -> & Hd). cbn. unfold instant_add. rewrite decide_True by (cbn in Hmax; lia). cbn.
    eexists. split; [done|]. split; [|split]; [unfold stream_id|..]; cbn [metadata deadline set_deadline]; rewrite ?Hbm; [done..|eauto].
  - eexists. split; [done|]. split; [|split]; [unfold stream_id|..]; rewrite ?Hbm; done.
Qed.
End hop.
(** A transport that keeps names and values, and rounds timeouts down. *)
Definition round_timeout (d : Z) : string := if decide (NANOS ≤ d) then "1S" else "0n".
Lemma round_timeout_spec d : 0 ≤ d → ∃ d', grpc_timeout (round_timeout d) = Some d' ∧ 0 ≤ d' ≤ d.
Proof.
  intros Hd. unfold round_timeout. case_decide as Hn.
  - exists NANOS. split; [by vm_compute|]. split; [by vm_compute|done].
  - exists 0. split; [by vm_compute|lia].
Qed.
Definition caller : MessageContext unit (option string) unit :=
  MkContext tt (Some (5 * NANOS)) (<[STREAM_ID_HEADER := "s-1"]> (<[TRACE_SAMPLING_HEADER := "1"]> ∅)) None true None [].
Lemma tonic_fast_path_agrees_witness :
  apply_to_tonic_request (λ _, false) (λ _ md, md) Some (λ _, true) round_timeout map_to_list caller (3 * NANOS) ∅ =
  <["grpc-timeout" := "1S"]> (<[STREAM_ID_HEADER := "s-1"]> (<[TRACE_SAMPLING_HEADER := "1"]> ∅)).
Proof.
  rewrite (tonic_fast_path_agrees (λ _, false) (λ _ md, md) Some (λ _, true) round_timeout map_to_list
    (λ md, reflexivity (map_to_list md)) eq_refl eq_refl caller (3 * NANOS) ∅ eq_refl).
  apply (bool_decide_unpack _). by vm_compute.
Defined.
Lemma grpc_hop_roundtrip_witness :
  ∃ received : MessageContext unit (option string) unit,
    from_tonic_request_with_tracing (2 ^ 63 * NANOS) tt None (λ _, None) 0
      (prod_map id Some <$> map_to_list
        (apply_to_tonic_request (λ _, false) (λ _ md, md) Some (λ _, true) round_timeout map_to_list caller (3 * NANOS) ∅)) true
      = Ok received ∧
    stream_id received = Some "s-1" ∧ metadata received !! TRACE_SAMPLING_HEADER = Some "1" ∧
    ∃ d, deadline received = Some (0 + d) ∧ 0 ≤ d ≤ 2 * NANOS.
Proof.
  exact (grpc_hop_roundtrip (λ _, false) (λ _ md, md) Some (λ _, true) round_timeout map_to_list
    (λ md, reflexivity (map_to_list md)) eq_refl eq_refl (λ _ _ _ _, eq_refl) round_timeout_spec
    (2 ^ 63 * NANOS) tt None (λ _, None) caller (3 * NANOS) 0 true (λ _ _, eq_refl) (λ _ _ _, eq_refl) ltac:(by vm_compute)).
Defined.

(** ** Requests and spans *)
Section spans.
Context {Token Otel Any Json : Type} (extract : Extractor → Otel) (open_span : string → Otel → option Otel).
Context (tracing_enabled : bool) (r : RuntimeConfig Json) (endpoint_id : Z).
Notation Ctx := (MessageContext Token Otel Any).
Implicit Types c : Ctx.
(** Only a sampled request has a span, and then carries its context. *)
Definition traced (c : Ctx) (answer : Ctx * option Otel) : Prop :=
  (∀ o, answer.2 = Some o → tracing_enabled = true ∧ sampling_enabled answer.1 = true ∧ open_telemetry answer.1 = o) ∧
  (tracing_enabled = false →
     answer.2 = None ∧ sampling_enabled answer.1 = sampling_enabled c ∧ open_telemetry answer.1 = open_telemetry c).
Lemma input_span_traced name c c' :
  (tracing_enabled = false → sampling_enabled c' = sampling_enabled c ∧ open_telemetry c' = open_telemetry c) →
  traced c (input_span open_span tracing_enabled name c').
Proof.
  intros Hc. unfold traced, input_span. destruct tracing_enabled; cbn; [|by split; [|intros _; destruct Hc]].
  split; [|done]. intros o Ho. destruct (sampling_enabled c') eqn:Hs; cbn in *; [|done]. rewrite Ho. cbn. by rewrite Hs.
Qed.
(** Whatever its source, a request has a span only when tracing is enabled and
    the request is sampled, the span's context is then the request's, and
    without tracing neither the headers nor the endpoint's policy change the
    trace; an operator's span needs the same and changes nothing else. *)
Theorem spans_need_sampling c headers transport_metadata operation :
  traced c (http_request_context extract open_span tracing_enabled r endpoint_id c headers) ∧
  traced c (kafka_request_context extract open_span tracing_enabled r endpoint_id c transport_metadata) ∧
  traced c (grpc_request_context open_span tracing_enabled r endpoint_id c) ∧
  traced c (local_request_context open_span tracing_enabled r endpoint_id c) ∧
  traced c (start_span open_span tracing_enabled operation c) ∧
  ∃ o, (start_span open_span tracing_enabled operation c).1 = with_open_telemetry_context c o.
Proof.
  split_and!.
  - apply input_span_traced. by intros ->.
  - apply input_span_traced. intros ->. unfold apply_endpoint_tracing. cbn. by destruct (transport_metadata !! STREAM_ID_HEADER).
  - apply input_span_traced. by intros ->.
  - apply input_span_traced. by intros ->.
  - unfold traced, start_span. destruct tracing_enabled; cbn; [|done]. destruct (sampling_enabled c) eqn:Hs; cbn; [|done].
    destruct (open_span operation (open_telemetry c)); cbn; [|done]. split; [|done]. by intros o1 [= ->].
  - unfold start_span. destruct (negb tracing_enabled || _); [|destruct (open_span _ _) as [o|]].
    + exists (open_telemetry c). by destruct c.
    + by exists o.
    + exists (open_telemetry c). by destruct c.
Qed.
(** A request that began has a stream identifier: its own when it has one. *)
Theorem request_identified c clock sequence :
  let c' := (assign_stream_id c clock sequence).1 in
  stream_id c' = Some (default (new_stream_id clock sequence).1 (stream_id c)) ∧
  ∀ key, key ≠ STREAM_ID_HEADER → metadata c' !! key = metadata c !! key.
Proof.
  intros c'. unfold c', assign_stream_id. destruct (stream_id c) as [id|] eqn:E; [done|].
  destruct (new_stream_id clock sequence) as [id s]. unfold stream_id, with_stream_id. cbn.
  split; [by rewrite lookup_insert_eq|]. intros key Hk. by rewrite lookup_insert_ne.
Qed.
(** Waiting for cancellation ends exactly when the context is cancelled. *)
Theorem cancelled_is_cancelled (token_cancelled : Token → bool) c now :
  cancelled_ready token_cancelled c now = is_cancelled token_cancelled c now.
Proof. unfold cancelled_ready, is_cancelled. destruct (deadline c); [done|]. by rewrite orb_false_r. Qed.
End spans.
