(* ===== verification/Observability.v ===== *)
(** Telemetry engines: [src/src/runtime/telemetry/opentelemetry.rs] and the
    engines of a [RuntimeEnvironment] ([src/src/runtime/environment/mod.rs],
    [metrics.rs], [tracing.rs], [log.rs]).

    The OpenTelemetry SDK is a parameter: building an exporter and shutting a
    provider down answer an error text or succeed.  What the SDK and the
    tracing crate keep per process is a [Process]; a subscriber can be installed
    once. *)

From Stdlib Require Import Strings.Ascii.
From Stdlib Require Strings.String.
From S2P Require Import Prelude Errors Config Metrics Requests HttpSink KafkaLanes.
Local Open Scope Z_scope.

(** * Settings *)
Record Config := MkConfig {
  service_name : string; endpoint : string; timeout : Z;
  metrics_enabled : bool; tracing_enabled : bool; logs_enabled : bool }.
(** [str::trim] on ASCII. *)
Definition is_space (c : ascii) : bool := bool_decide (Context.ascii_Z c = 32 ∨ 9 ≤ Context.ascii_Z c ≤ 13).
Fixpoint trim_start (s : list ascii) : list ascii :=
  match s with c :: s' => if is_space c then trim_start s' else s | [] => [] end.
Definition trim (s : string) : string :=
  String.string_of_list_ascii (reverse (trim_start (reverse (trim_start (String.list_ascii_of_string s))))).
Definition flag_value_enabled (value : string) : bool :=
  bool_decide (to_ascii_lowercase (trim value) ∈ ["1"; "true"; "yes"; "on"]).
(** [env] answers the variables that are set and text. *)
Definition environment_flag_enabled (env : gmap string string) (name : string) : bool :=
  match env !! name with Some value => flag_value_enabled value | None => false end.
Definition from_environment (env : gmap string string) (service_name : string) : Config :=
  MkConfig service_name (default "http://localhost:4318" (env !! "OTEL_EXPORTER_OTLP_ENDPOINT")) (10 * 1000000000)
    (negb (environment_flag_enabled env "SERVICELIB_NOOP_METRICS"))
    (negb (environment_flag_enabled env "SERVICELIB_NOOP_TRACING"))
    (negb (environment_flag_enabled env "SERVICELIB_NOOP_LOGS")).

(** * The process *)
Inductive Signal := Traces | MetricsSignal | Logs.
#[export] Instance Signal_eq_dec : EqDecision Signal.
Proof. solve_decision. Defined.
Record Provider := MkProvider { p_signal : Signal; p_url : string; p_timeout : Z; p_service : string }.
(** A subscriber: one that prints, filtered by what is printed, or the layers
    of the engine (printing, spans, logs) behind the filter of the environment. *)
Inductive Subscriber :=
| StdoutSubscriber (events spans : bool)
| EngineSubscriber (print : bool) (trace_layer log_layer : option Provider).
Record Process := MkProcess {
  propagator : bool;                             (** trace context and baggage *)
  subscriber : option Subscriber;
  tracer_provider_global : option Provider;
  meter_provider_global : option Provider }.
Implicit Types w : Process.
(** [try_init]: refused when the process has a subscriber, with the error
    text [already_set] of the tracing crate. *)
Section process.
Context (already_set : string).
Definition try_init w (s : Subscriber) : RuntimeResult unit * Process :=
  match subscriber w with
  | Some _ => (Err (InvalidConfiguration already_set), w)
  | None => (Ok tt, MkProcess (propagator w) (Some s) (tracer_provider_global w) (meter_provider_global w))
  end.
Definition install_stdout w (logs_enabled tracing_enabled : bool) : RuntimeResult unit * Process :=
  if negb logs_enabled && negb tracing_enabled then (Ok tt, w)
  else try_init w (StdoutSubscriber logs_enabled tracing_enabled).
End process.

(** * The OpenTelemetry engine *)
Record OpenTelemetry := MkOpenTelemetry {
  o_metrics : Metrics World;
  tracer_provider : option Provider; meter_provider : option Provider; logger_provider : option Provider }.
Section install.
(** The error of building the exporter of a signal, if any. *)
Context (already_set : string) (build : Signal → string → Z → option string).
Definition provider_of (c : Config) (enabled : bool) (signal : Signal) (path : string) : RuntimeResult (option Provider) :=
  if enabled then
    let url := trim_end_slash (endpoint c) +:+ path in
    match build signal url (timeout c) with
    | Some error => Err (Transport error)
    | None => Ok (Some (MkProvider signal url (timeout c) (service_name c)))
    end
  else Ok None.
Definition set_propagator w : Process := MkProcess true (subscriber w) (tracer_provider_global w) (meter_provider_global w).
Definition set_providers w (t m : option Provider) : Process :=
  MkProcess (propagator w) (subscriber w)
    (match t with Some _ => t | None => tracer_provider_global w end)
    (match m with Some _ => m | None => meter_provider_global w end).
Definition install (c : Config) w : RuntimeResult OpenTelemetry * Process :=
  match (t ← provider_of c (tracing_enabled c) Traces "/v1/traces";
         m ← provider_of c (metrics_enabled c) MetricsSignal "/v1/metrics";
         l ← provider_of c (logs_enabled c) Logs "/v1/logs"; Ok (t, m, l)) with
  | Err e => (Err e, w)
  | Panic => (Panic, w)
  | Ok (t, m, l) =>
      let w := set_propagator w in
      let '(r, w) :=
        if tracing_enabled c || logs_enabled c
        then try_init already_set w (EngineSubscriber (logs_enabled c) t l)
        else (Ok tt, w) in
      match r with
      | Err e => (Err e, w)
      | Panic => (Panic, w)
      | Ok _ =>
          (Ok (MkOpenTelemetry (match m with Some _ => with_meter | None => metrics_noop end) t m l), set_providers w t m)
      end
  end.
End install.

Section shutdown.
(** The error of shutting a provider down, if any; the answer lists the
    providers that were shut down. *)
Context (provider_shutdown : Provider → option string).
Definition shutdown_one (p : option Provider) : RuntimeResult unit * list Provider :=
  match p with
  | None => (Ok tt, [])
  | Some p => (match provider_shutdown p with Some error => Err (Transport error) | None => Ok tt end, [p])
  end.
Definition then_shutdown (r : RuntimeResult unit * list Provider) (p : option Provider) : RuntimeResult unit * list Provider :=
  match r with
  | (Ok _, l) => let '(a, k) := shutdown_one p in (a, l ++ k)
  | r => r
  end.
(** [OpenTelemetry::shutdown] *)
Definition shutdown (o : OpenTelemetry) : RuntimeResult unit * list Provider :=
  then_shutdown (then_shutdown (shutdown_one (logger_provider o)) (meter_provider o)) (tracer_provider o).
(** The [shutdown] of the three engine traits. *)
Definition metrics_shutdown (o : OpenTelemetry) : RuntimeResult unit * list Provider := shutdown_one (meter_provider o).
Definition tracing_shutdown (o : OpenTelemetry) : RuntimeResult unit * list Provider := shutdown_one (tracer_provider o).
Definition logs_shutdown (o : OpenTelemetry) : RuntimeResult unit * list Provider := shutdown_one (logger_provider o).
End shutdown.

(** * The engines of an environment *)
Inductive MetricsEngine := PrometheusMetricsEngine | NoopMetricsEngine | ProvidedMetricsEngine (m : Metrics World) | OtelMetrics (o : OpenTelemetry).
Inductive TracingEngine := StdoutTracingEngine | NoopTracingEngine | OtelTracing (o : OpenTelemetry).
Inductive LogsEngine := StdoutLogsEngine | OtelLogs (o : OpenTelemetry).
Definition engine_metrics (e : MetricsEngine) : Metrics World :=
  match e with
  | PrometheusMetricsEngine => metrics_new
  | NoopMetricsEngine => metrics_noop
  | ProvidedMetricsEngine m => m
  | OtelMetrics o => o_metrics o
  end.
Definition engine_enabled (e : TracingEngine) : bool :=
  match e with
  | StdoutTracingEngine => true
  | NoopTracingEngine => false
  | OtelTracing o => bool_decide (is_Some (tracer_provider o))
  end.
Record Engines := MkEngines {
  e_metrics : Metrics World; e_metrics_engine : MetricsEngine;
  e_tracing_engine : TracingEngine; e_tracing_enabled : bool; e_logs_engine : LogsEngine }.
(** [RuntimeEnvironment::default], [with_metrics], [without_tracing] and
    [with_telemetry], as far as they choose engines. *)
Definition default_engines : Engines :=
  MkEngines metrics_new PrometheusMetricsEngine StdoutTracingEngine true StdoutLogsEngine.
Definition with_metrics (m : Metrics World) : Engines :=
  MkEngines m (ProvidedMetricsEngine m) (e_tracing_engine default_engines) (e_tracing_enabled default_engines)
    (e_logs_engine default_engines).
Definition without_tracing (e : Engines) : Engines :=
  MkEngines (e_metrics e) (e_metrics_engine e) NoopTracingEngine false (e_logs_engine e).
Definition with_telemetry (m : MetricsEngine) (t : TracingEngine) (l : LogsEngine) : Engines :=
  MkEngines (engine_metrics m) m t (engine_enabled t) l.
Section engines_shutdown.
Context (provider_shutdown : Provider → option string).
Definition metrics_engine_shutdown (e : MetricsEngine) : RuntimeResult unit * list Provider :=
  match e with OtelMetrics o => metrics_shutdown provider_shutdown o | _ => (Ok tt, []) end.
Definition tracing_engine_shutdown (e : TracingEngine) : RuntimeResult unit * list Provider :=
  match e with OtelTracing o => tracing_shutdown provider_shutdown o | _ => (Ok tt, []) end.
Definition logs_engine_shutdown (e : LogsEngine) : RuntimeResult unit * list Provider :=
  match e with OtelLogs o => logs_shutdown provider_shutdown o | _ => (Ok tt, []) end.
(** The last phases of a service's shutdown: a phase that fails is the last. *)
Definition engines_shutdown (e : Engines) : RuntimeResult unit * list Provider :=
  match metrics_engine_shutdown (e_metrics_engine e) with
  | (Ok _, k1) =>
      match tracing_engine_shutdown (e_tracing_engine e) with
      | (Ok _, k2) => let '(l, k3) := logs_engine_shutdown (e_logs_engine e) in (l, k1 ++ k2 ++ k3)
      | (t, k2) => (t, k1 ++ k2)
      end
  | r => r
  end.
End engines_shutdown.

(** * Properties *)
Definition providers (o : OpenTelemetry) : list Provider :=
  option_list (meter_provider o) ++ option_list (tracer_provider o) ++ option_list (logger_provider o).
Section properties.
Context (already_set : string) (build : Signal → string → Z → option string).
Lemma provider_of_spec c enabled signal path :
  match provider_of build c enabled signal path with
  | Ok p => p = if enabled then Some (MkProvider signal (trim_end_slash (endpoint c) +:+ path) (timeout c) (service_name c)) else None
  | Err (Transport e) => enabled = true ∧ build signal (trim_end_slash (endpoint c) +:+ path) (timeout c) = Some e
  | _ => False
  end.
Proof. unfold provider_of. destruct enabled; [|done]. by destruct (build signal _ _) eqn:E. Qed.
(** installing telemetry succeeds with exactly the enabled signals, and an
    environment made of the engine then agrees with the settings; when an
    exporter cannot be built nothing of the process has changed, and when the
    process already has a subscriber only the propagator was replaced. *)
Theorem install_outcome (c : Config) (w : Process) :
  let url path := trim_end_slash (endpoint c) +:+ path in
  match install already_set build c w with
  | (Ok o, w') =>
      providers o = omap (λ x : bool * Signal * string, let '(on, s, path) := x in if on then Some (MkProvider s (url path) (timeout c) (service_name c)) else None)
        [(metrics_enabled c, MetricsSignal, "/v1/metrics"); (tracing_enabled c, Traces, "/v1/traces"); (logs_enabled c, Logs, "/v1/logs")] ∧
      (let e := with_telemetry (OtelMetrics o) (OtelTracing o) (OtelLogs o) in
       e_tracing_enabled e = tracing_enabled c ∧ is_noop (e_metrics e) = negb (metrics_enabled c)) ∧
      propagator w' = true ∧ (subscriber w' = subscriber w ↔ tracing_enabled c = false ∧ logs_enabled c = false)
  | (Err (Transport e), w') =>
      w' = w ∧ ∃ s path, build s (url path) (timeout c) = Some e ∧ path ∈ ["/v1/traces"; "/v1/metrics"; "/v1/logs"]
  | (Err e, w') => e = InvalidConfiguration already_set ∧ is_Some (subscriber w) ∧ w' = set_propagator w
  | (Panic, _) => False
  end.
Proof.
  intros url. unfold install.
  pose proof (provider_of_spec c (tracing_enabled c) Traces "/v1/traces") as Ht.
  pose proof (provider_of_spec c (metrics_enabled c) MetricsSignal "/v1/metrics") as Hm.
  pose proof (provider_of_spec c (logs_enabled c) Logs "/v1/logs") as Hl.
  destruct (provider_of build c (tracing_enabled c) Traces _) as [t|e|]; [|destruct e; try done; destruct Ht; set_solver|done].
  destruct (provider_of build c (metrics_enabled c) MetricsSignal _) as [m|e|]; [|destruct e; try done; destruct Hm; set_solver|done].
  destruct (provider_of build c (logs_enabled c) Logs _) as [l|e|]; [|destruct e; try done; destruct Hl; set_solver|done].
  subst t m l. cbn. unfold try_init, url.
  destruct (tracing_enabled c), (logs_enabled c), (metrics_enabled c), (subscriber w) eqn:Hs; cbn; rewrite ?Hs; split_and!; naive_solver.
Qed.
Lemma shutdown_one_spec (f : Provider → option string) p :
  shutdown_one f p = (match p ≫= f with Some error => Err (Transport error) | None => Ok tt end, option_list p).
Proof. destruct p as [p|]; cbn; [|done]. by destruct (f p). Qed.
(** Providers shut down one after the other, up to the first error. *)
Fixpoint until_error (f : Provider → option string) (ps : list Provider) : RuntimeResult unit * list Provider :=
  match ps with
  | [] => (Ok tt, [])
  | p :: ps => match f p with Some e => (Err (Transport e), [p]) | None => prod_map id (cons p) (until_error f ps) end
  end.
(** A service shuts the providers of its engine down in the order metrics,
    traces, logs, and the engine's own [shutdown] in the order logs, metrics,
    traces; both stop at the first error, so a failing exporter keeps the later
    ones from being flushed. *)
Theorem engines_flushed (f : Provider → option string) (o : OpenTelemetry) :
  engines_shutdown f (with_telemetry (OtelMetrics o) (OtelTracing o) (OtelLogs o)) = until_error f (providers o) ∧
  shutdown f o = until_error f (option_list (logger_provider o) ++ option_list (meter_provider o) ++ option_list (tracer_provider o)).
Proof.
  unfold engines_shutdown, shutdown, then_shutdown, providers. cbn. unfold metrics_shutdown, tracing_shutdown, logs_shutdown.
  rewrite !shutdown_one_spec.
  destruct (logger_provider o) as [l|], (meter_provider o) as [m|], (tracer_provider o) as [t|]; cbn;
    repeat (case_match; cbn; simplify_eq); done.
Qed.
End properties.
(** The boolean values of the environment. *)
Example flag_values :
  forallb flag_value_enabled ["1"; "true"; "TRUE"; " yes "; "On"] = true ∧
  existsb flag_value_enabled [""; "0"; "false"; "no"; "off"; "anything"] = false.
Proof. by vm_compute. Qed.
